(* ===== verification/_CoqProject ===== *)
-Q . S2P
Prelude.v
Intset.v
FwTree.v
Glob.v
Numbers.v
Sds.v
SdsText.v
Listpack.v
Lzf.v
Dict.v
DictScan.v
Kvstore.v
Multi.v
Request.v
Bits.v
Popcount.v
Bitops.v
Bitop.v
Bitfield.v
Skiplist.v
SortedSet.v
ZslRange.v
ListpackBatch.v
Zzl.v
Zset.v
HllFormula.v
Hll.v
HllDense.v
HllSparse.v
HllSet.v
HllValue.v
HllCmd.v
Gf2.v
Slots.v
Crc64.v
Crc64Spec.v
Crc64Streams.v
Crc64Correct.v
Dump.v
