(* ===== verification/Prelude.v ===== *)
(** * Verification of the Redis server of the repository

    The repository is a restaurant application (TypeScript, under [apps] and [packages])
    with its own copy of Redis 8.6.3 ([redis-stable]) as cache and message server.  This
    library is about the C code of that server: the data structures that hold the keys, the
    text and number formats they are read and written in, and the transactions over them.

    ** The parts and their files

    Each file holds one component, as a [Module] with the name of the file; the names are
    those of the C code.

    - [Intset] ([intset.c]): the sorted array of small sets.  State: encoding, length and the
      bytes of the block.
    - [FwTree] ([fwtree.c]): the Fenwick tree that counts the keys of the slots.
    - [Glob] ([util.c], [stringmatchlen], [prefixmatch]): pattern matching of KEYS and SCAN.
    - [Numbers] ([util.c]): decimal and hexadecimal conversions, memory sizes, byte sets.
    - [Sds] ([sds.c], [sds.h]): strings with their five header types, allocation, growth and
      the operations in place.  [SdsText]: splitting, joining, quoting, argument lines and
      templates, written against the class [StringBuffer] that [Sds] discharges.
    - [Listpack] ([listpack.c]): the serialised list; state: the bytes of the block, pointers
      as offsets.
    - [Lzf] ([lzf_c.c], [lzf_d.c]): compression of strings.
    - [Dict] ([dict.c]): the hash table with two tables and incremental rehashing; [DictScan]:
      the stateless iteration ([dictScan]).
    - [Kvstore] ([kvstore.c]): the array of dictionaries of a database.  It calls [Dict],
      [DictScan] and [FwTree]; the callbacks of a dictionary change its counters and its list
      of rehashing dictionaries.
    - [Multi] ([multi.c], with the parts of [server.c], [db.c] and [networking.c] that it
      needs): MULTI, EXEC, WATCH, SELECT and RESET as a transition system over clients and keys.
    - [Request] ([networking.c]): the parser of requests, which reads numbers with [Numbers] and
      inline lines with [SdsText]; state: the query buffer, the position in it, the command being
      parsed and the pending commands.
    - The bitmap commands ([bitops.c]).  [Bits]: counting and finding bits, bit fields and the
      overflow checks, on the bytes of a string.  [Popcount]: the vector variants of the count
      and the choice among them.  [Bitops]: SETBIT, GETBIT, BITCOUNT, BITPOS and
      BITFIELD as handlers over a database of objects, in a monad of state, early return and
      failure; the state has the keys, the counter of changes, the signalled keys, the events
      and the replies.  [Bitop]: BITOP.  [Bitfield]: the specification of BITFIELD on an endless
      sequence of bits, its refinement, and what the handlers do on errors.
    - Sorted sets ([t_zset.c], with the conversions of scores of [util.c]).  [Skiplist]: the
      skip list, whose nodes are cells of a heap with forward pointers, spans and back pointers,
      over a class [Score] of the numbers; insertion, deletion, change of score, creation and
      freeing, and the lemmas on its shape.  [SortedSet]: the order, the sorted list that a skip
      list represents, and the refinement of these operations.  [ZslRange]: ranks, ranges of
      scores and strings with their parsers, and deletion of ranges.  [ListpackBatch]
      ([listpack.c]): batch insertion and deletion, and the proofs on search and comparison.
      [Zzl]: the encoding of a sorted set as a listpack of pairs.  [Zset]: the object of either
      encoding, its conversions, adding with all options, removal, scores, ranks, copies; it calls
      all the former.
    - HyperLogLog ([hyperloglog.c]).  [HllFormula]: the cardinality from the histogram of the
      registers, in binary64.  [Hll]: the hash, both encodings of the 16384 registers
      (packed, or opcodes for runs), setting a register, conversion, merging, histograms and
      creation, on an [Sds] string with its capacity.  [HllDense]: the packed registers.
      [HllSparse]: opcodes, the loop over the opcodes of arbitrary bytes, conversion.  [HllSet]:
      setting a register of a sparse value.  [HllValue]: values as registers, whatever their
      encoding; sketches.  [HllCmd]: PFADD, PFCOUNT and PFMERGE over a database, with the counter
      of changes, signals, events and replies.
    - Checksums.  [Gf2]: words as vectors of bits under exclusive or, and additive functions.
      [Slots] ([crc16.c], [cluster.h], [cluster.c]): the slot of a key and of a pattern, with the
      matcher of [Glob].  [Crc64] ([crc64.c], [crcspeed.c], [crccombine.c]): the checksum of dumps
      bit by bit, by tables, in parallel streams joined by matrices over bits, and on big-endian
      machines; state: the tables and the cache of matrices.  [Crc64Spec]: the reference, and the
      bit by bit code and the tables against it.  [Crc64Streams]: the loops, the matrices, the
      cache and the streams.  [Crc64Correct]: the big-endian code and the checksum on every
      machine.
    - [Dump] ([cluster.c], [functions.c], [endianconv.c]): the footer of dump payloads and its
      verification, which call [Crc64].

    ** What the theorems show

    - Byte-level structures ([Intset], [Listpack], [Sds], [Lzf]) have a representation relation
      between the block and the abstract value (a sorted list of integers, a list of encoded
      elements, a byte string); every operation refines its abstract counterpart on every
      branch, stays inside the block, and keeps the relation.  Validators are shown to accept
      exactly, or at least, the well-formed blocks.
    - [Dict] and [Kvstore] refine finite maps: insertion, lookup, deletion, two-phase
      operations, resizing and every rehashing step; [Kvstore] also keeps all its counters, the
      tree and the list of rehashing dictionaries.  A complete scan reports every key that
      stays, whatever happens between the calls; rehashing makes progress and ends.
    - Texts: parsers accept exactly the canonical numbers, printing and parsing are inverse,
      quoting and splitting are inverse, the pattern matcher decides the declarative meaning
      of a pattern, decompression inverts compression and is safe on arbitrary input.
    - [Multi]: the invariant of the watch lists in every reachable state (so no freed cell is
      ever used and every command returns), and the guarantee of optimistic locking over
      arbitrary interleavings, as long as no client began to watch the key while it was expired
      (there the code does not mark all watchers, which is a theorem).
    - [Request]: a stream of commands is parsed into exactly these commands however it is cut
      into pieces, and arbitrary bytes never lead the parser out of its buffer.
    - [Bits], [Popcount], [Bitops], [Bitop], [Bitfield]: the loops over words and vectors agree
      with the definition on single bits for every alignment (the NEON count below 2^18 bytes,
      where its lanes begin to wrap); each command replies and stores what its definition
      on bits says, with all its rules for ranges, missing keys and the end of the string, and
      counts and signals a change exactly when there is one (with one exception, which is a
      theorem); a command that stops early has only added one reply.
    - [Skiplist], [SortedSet], [ZslRange]: a skip list represents a sorted list of scores and
      elements; the operations find and keep the sorted list for every height that the random
      numbers give, no operation follows a freed or missing pointer, the spans give the ranks,
      and the searches of ranges agree with a filter of the list.
    - [ListpackBatch], [Zzl], [Zset]: the listpack encoding represents the same sorted lists, and
      the operations on the object refine one abstract sorted set whatever the encoding and
      through the conversions; ZADD decides as its options say.
    - [HllDense], [HllSparse], [HllSet], [HllValue], [HllCmd]: registers do not interfere; the
      unrolled histograms count; adding an element raises one register through every split and
      merge of opcodes and through the conversion; on arbitrary bytes all readers stay in bounds
      and agree on what is corrupted; sequences of commands refine sets of elements, where the
      sketch of a set depends on the set only and merging is union, and no count is stale.
    - [Slots]: the slot is the bit by bit checksum of the hash tag, and a slot that is inferred
      from a pattern is that of every key the pattern matches.
    - [Crc64Spec], [Crc64Streams], [Crc64Correct]: all variants of the checksum agree, for every
      alignment, cutoff, byte order and state of the cache, because the register is additive; a
      checksum can be computed in pieces and joined.  [Dump]: payloads are accepted on machines
      of either byte order, exactly those with a right footer are, and errors in up to 8
      consecutive bytes are detected, since a step of the register can be undone.
    - Where the code does not do what it means to, the theorem states what it does, and the
      comment on it says so.

    ** Conventions

    Machine integers are [Z] with the wrap-around written out ([uwrap], [swrap]), or with [None]
    on signed overflow, which C does not define ([schk]).  Memory is a list of bytes, and an
    access outside it is [None]; so are a failed assertion, the use of a null or freed pointer,
    and exhausted fuel.  A theorem that gives [Some] therefore says that
    the code returns without any of these.  Loops that are not structural take fuel: the
    callers pass the length of the input, the number of buckets, the width of the integer or
    the remaining cells of a list, and the theorems (never conditioned on a result) show that
    this is enough.

    Code outside the repository and input from outside are parameters: the usable size and
    the garbage of allocated blocks ([usable], [junk], with the bound that malloc documents),
    [strtoull], the initial contents of the LZF hash table, the hash and key comparison of a
    dictionary type, the resize policy, random numbers, the clock, what a data command writes,
    what the ACL answers, how commands change the state of a connection, the limit on the
    length of a string ([proto_max_bulk_len]), whether the client must be obeyed, the vector
    instructions of the processor, the addresses of a string and of a local buffer, and the contents of an
    uninitialised variable; for sorted sets the random numbers, the addresses, sizes and contents
    of the blocks for nodes, and the conversions [fast_float_strtod] and [fpconv_dtoa] between
    scores and text.  What the code relies on of [double] is the class [Score], with the numbers
    of IEEE 754 as an instance; that a score survives the conversions is the named hypothesis
    [storable].  The dictionary of a skip list is a map from elements to nodes, as [Dict] proves
    of the code.  For HyperLogLog the parameters are the allocator, the limit
    [hll_sparse_max_bytes] (at least 32 and below 2^61: below 32 the code can stop at an
    assertion, which is an example) and [unspecified], the result of the floating point formula
    where C does not specify it, of which nothing is assumed; the two loops of the formula have
    64 rounds, and not having settled then counts as unspecified.  For CRC64 the compiler builtins,
    the vector instructions, the byte order, the cutoffs and the address of the buffer are a
    record [machine] over which the theorems quantify; the body of a dump is any list of bytes.
    Skip lists have less than 2^63 - 1 elements, and a listpack that is added to
    stays below 2^31 bytes.  Lengths that the code takes as [int] are below 2^31: keys that are
    hashed to slots, sparse HyperLogLog strings whose histogram is taken.  Fenwick trees have at
    most 2^29 counters, beyond which the cursor overflows.  The clients of [Request] and of
    BITFIELD are not the master; the databases of [Multi] are those of a server outside cluster
    mode.  The strings of the bitmap commands are shorter than 2^58 bytes,
    and the limit is at most 2^50 for BITFIELD, so that offsets in bits do not wrap.

    ** Not modelled

    Iterators, defragmentation, random selection and statistics of [dict.c], [kvstore.c] and
    [listpack.c]; floating point arithmetic other than that of PFCOUNT, parsing and printing of
    floating point numbers; the printf family; the vector variants (AVX2, NEON) of BITOP and of
    the HyperLogLog registers, the size histograms, the memory accounting and
    the expiry of keys in the bitmap and HyperLogLog commands; the 16 bit variants in
    [crcspeed.c], which nothing calls; the serialization of objects in dumps; the other commands,
    the network, persistence, replication, the cluster protocol, scripting and configuration,
    which work on the operating system or are only glue to the structures above.  Next in the
    plan: the commands on sorted sets, lists and quicklists. *)

(** * Shared definitions

    Machine integers, byte memory, the option monad used for undefined behaviour, generic list
    lemmas and the automation of the development. *)

From Stdlib Require Export ZArith Lia.
From Stdlib Require Ascii String.
Export String.StringSyntax.
From stdpp Require Export base numbers option sets list.
#[export] Set Default Goal Selector "!".
Open Scope Z_scope.

(** ** Automation *)

Create HintDb bytes.
Create HintDb zlen discriminated.

(** Turn boolean comparisons of the source's conditions into propositions. *)
Ltac zbool :=
  repeat match goal with
  | H : context [Z.ltb ?a ?b] |- _ => destruct (Z.ltb_spec a b)
  | H : context [Z.leb ?a ?b] |- _ => destruct (Z.leb_spec a b)
  | H : context [Z.eqb ?a ?b] |- _ => destruct (Z.eqb_spec a b)
  | H : context [Z.gtb ?a ?b] |- _ => rewrite (Z.gtb_ltb a b) in H
  | H : context [Z.geb ?a ?b] |- _ => rewrite (Z.geb_leb a b) in H
  | |- context [Z.ltb ?a ?b] => destruct (Z.ltb_spec a b)
  | |- context [Z.leb ?a ?b] => destruct (Z.leb_spec a b)
  | |- context [Z.eqb ?a ?b] => destruct (Z.eqb_spec a b)
  | |- context [Z.gtb ?a ?b] => rewrite (Z.gtb_ltb a b)
  | |- context [Z.geb ?a ?b] => rewrite (Z.geb_leb a b)
  end.

(** [rwb E]: rewrite a boolean comparison whose truth [lia] can decide. *)
Ltac rw_true e := replace e with true by (symmetry; lia).
Ltac rw_false e := replace e with false by (symmetry; lia).

(** [lia] with the equations of [/] and [mod] by constants. *)
Ltac dlia := zify; Z.to_euclidean_division_equations; lia.

(** Reduce the option monad, and nothing else. *)
Ltac mred := cbn [mbind option_bind mret option_ret fst snd].

(** ** Machine integers

    A w-bit unsigned integer is a [Z] in [0, 2^w); a signed one a [Z] in
    [-2^(w-1), 2^(w-1)).  [uwrap] and [swrap] are the conversions of C. *)

Definition uwrap (w z : Z) : Z := z mod 2 ^ w.
Definition swrap (w z : Z) : Z := (z + 2 ^ (w - 1)) mod 2 ^ w - 2 ^ (w - 1).

Definition in_u (w z : Z) : Prop := 0 <= z < 2 ^ w.
Definition in_s (w z : Z) : Prop := - 2 ^ (w - 1) <= z < 2 ^ (w - 1).

(** The result of signed arithmetic at width [w]: [None] when it overflows,
    which C leaves undefined. *)
Definition schk (w z : Z) : option Z :=
  if (- 2 ^ (w - 1) <=? z) && (z <? 2 ^ (w - 1)) then Some z else None.

Lemma pow2_pos k : 0 <= k -> 0 < 2 ^ k.
Proof. intros. by apply Z.pow_pos_nonneg. Qed.

Lemma pow2_half w : 0 < w -> 2 ^ w = 2 * 2 ^ (w - 1).
Proof.
  intros Hw. rewrite <- (Z.pow_succ_r 2 (w - 1)) by lia. f_equal. lia.
Qed.

Lemma uwrap_range w z : 0 <= w -> in_u w (uwrap w z).
Proof. intros Hw. apply Z.mod_pos_bound, Z.pow_pos_nonneg; lia. Qed.

Lemma swrap_range w z : 0 < w -> in_s w (swrap w z).
Proof.
  intros Hw. unfold in_s, swrap.
  pose proof (Z.mod_pos_bound (z + 2 ^ (w - 1)) (2 ^ w)).
  pose proof (Z.pow_pos_nonneg 2 w). rewrite (pow2_half w) in * by lia. lia.
Qed.

Lemma uwrap_id w z : in_u w z -> uwrap w z = z.
Proof. intros H. by apply Z.mod_small. Qed.

Lemma swrap_id w z : 0 < w -> in_s w z -> swrap w z = z.
Proof.
  unfold in_s, swrap. intros Hw H. rewrite Z.mod_small; [lia|].
  rewrite (pow2_half w) by lia. lia.
Qed.

Lemma schk_id w z : in_s w z -> schk w z = Some z.
Proof.
  unfold in_s, schk. intros H.
  destruct (Z.leb_spec (- 2 ^ (w - 1)) z); [|lia]. by destruct (Z.ltb_spec z (2 ^ (w - 1))); [|lia].
Qed.

Lemma schk_None w z : ~ in_s w z -> schk w z = None.
Proof.
  unfold in_s, schk. intros H.
  destruct (Z.leb_spec (- 2 ^ (w - 1)) z); [|done]. by destruct (Z.ltb_spec z (2 ^ (w - 1))); [lia|].
Qed.

Lemma swrap_uwrap w z : 0 < w -> swrap w (uwrap w z) = swrap w z.
Proof. intros Hw. unfold swrap, uwrap. by rewrite Zplus_mod_idemp_l. Qed.

Lemma uwrap_swrap w z : 0 < w -> uwrap w (swrap w z) = uwrap w z.
Proof.
  intros Hw. unfold swrap, uwrap. rewrite Zminus_mod_idemp_l. f_equal. lia.
Qed.

(** ** Bytes and little-endian numbers *)

Definition byte_ok (b : Z) : Prop := 0 <= b < 256.
Abbreviation bytes_ok := (Forall byte_ok).

Fixpoint le_bytes (n : nat) (z : Z) : list Z :=
  match n with
  | O => []
  | S n => z mod 256 :: le_bytes n (z / 256)
  end.

Fixpoint le_val (bs : list Z) : Z :=
  match bs with
  | [] => 0
  | b :: bs => b + 256 * le_val bs
  end.

Lemma le_bytes_length n z : length (le_bytes n z) = n.
Proof. revert z. induction n; intros; simpl; [done|]. by f_equal. Qed.

Lemma le_bytes_ok n z : bytes_ok (le_bytes n z).
Proof.
  revert z. induction n; intros; simpl; constructor; [|done].
  apply Z.mod_pos_bound. lia.
Qed.
#[export] Hint Resolve le_bytes_ok : bytes.

Lemma pow256_succ n : 2 ^ (8 * Z.of_nat (S n)) = 256 * 2 ^ (8 * Z.of_nat n).
Proof.
  replace (8 * Z.of_nat (S n)) with (8 + 8 * Z.of_nat n) by lia.
  rewrite Z.pow_add_r by lia. done.
Qed.

Lemma le_val_bytes n z : le_val (le_bytes n z) = z mod 2 ^ (8 * Z.of_nat n).
Proof.
  revert z. induction n as [|n IH]; intros z; cbn [le_bytes le_val].
  - by rewrite Z.mod_1_r.
  - rewrite IH, pow256_succ, Z.rem_mul_r by lia. done.
Qed.

Lemma le_val_range bs : bytes_ok bs -> 0 <= le_val bs < 2 ^ (8 * Z.of_nat (length bs)).
Proof.
  induction 1 as [|b bs Hb _ IH]; cbn [le_val length]; [lia|].
  rewrite pow256_succ. unfold byte_ok in Hb. lia.
Qed.

Lemma le_bytes_val bs : bytes_ok bs -> le_bytes (length bs) (le_val bs) = bs.
Proof.
  induction 1 as [|b bs Hb _ IH]; cbn [le_val length le_bytes]; [done|].
  unfold byte_ok in Hb. f_equal.
  - rewrite Z.mul_comm, Z.mod_add, Z.mod_small by lia. done.
  - rewrite Z.mul_comm, Z.div_add, Z.div_small by lia. by rewrite Z.add_0_l.
Qed.

(** The bytes of a C string literal, without its terminator. *)
Fixpoint str (s : String.string) : list Z :=
  match s with
  | String.EmptyString => []
  | String.String c s => Z.of_N (Ascii.N_of_ascii c) :: str s
  end.
Arguments str s%_string_scope.

(** ** Byte memory

    A block of memory is a list of bytes.  A read or write outside the block
    is undefined behaviour in C: it is [None] here, so that a theorem
    "[f x = Some y]" includes that [f] stays inside its blocks. *)

Abbreviation zlen l := (Z.of_nat (length l)).

Definition rd (m : list Z) (i : Z) : option Z :=
  if 0 <=? i then m !! Z.to_nat i else None.

Definition rdn (m : list Z) (off n : Z) : option (list Z) :=
  if (0 <=? off) && (0 <=? n) && (off + n <=? zlen m)
  then Some (take (Z.to_nat n) (drop (Z.to_nat off) m)) else None.

Definition wrn (m : list Z) (off : Z) (bs : list Z) : option (list Z) :=
  if (0 <=? off) && (off + zlen bs <=? zlen m)
  then Some (take (Z.to_nat off) m ++ bs ++ drop (Z.to_nat off + length bs) m)
  else None.

Definition memmove (m : list Z) (dst src n : Z) : option (list Z) :=
  bs ← rdn m src n; wrn m dst bs.

(** [zrealloc junk m n]: the block resized to [n] bytes.  Bytes added at the
    end are indeterminate in C; [junk] stands for whatever they hold. *)
Definition zrealloc (junk : nat -> Z) (m : list Z) (n : Z) : list Z :=
  take (Z.to_nat n) m ++ map junk (seq (length m) (Z.to_nat n - length m)).

Lemma rdn_Some m off n bs :
  rdn m off n = Some bs <->
  0 <= off /\ 0 <= n /\ off + n <= zlen m /\
  bs = take (Z.to_nat n) (drop (Z.to_nat off) m).
Proof.
  unfold rdn. split.
  - intros H. zbool; simpl in H; simplify_eq. done.
  - intros (?&?&?&->). zbool; first [lia | done].
Qed.

Lemma rdn_app a b c off n :
  zlen a = off -> zlen b = n -> rdn (a ++ b ++ c) off n = Some b.
Proof.
  intros Ha Hb. apply rdn_Some. rewrite !length_app. split_and!; try lia.
  rewrite drop_app_length', take_app_length' by lia. done.
Qed.

Lemma rdn_0 b c n : zlen b = n -> rdn (b ++ c) 0 n = Some b.
Proof. intros. by apply (rdn_app [] b c). Qed.

Lemma wrn_app a b c bs off :
  zlen a = off -> length b = length bs ->
  wrn (a ++ b ++ c) off bs = Some (a ++ bs ++ c).
Proof.
  intros Ha Hb. unfold wrn. rewrite !length_app.
  zbool; try lia. simpl. rewrite take_app_length' by lia.
  replace (a ++ b ++ c) with ((a ++ b) ++ c) by apply (eq_sym (app_assoc _ _ _)).
  rewrite drop_app_length'; [done|]. rewrite length_app. lia.
Qed.

Lemma wrn_0 b c bs : length b = length bs -> wrn (b ++ c) 0 bs = Some (bs ++ c).
Proof. intros. by apply (wrn_app [] b c bs). Qed.

Lemma wrn_end a b bs off :
  zlen a = off -> length b = length bs -> wrn (a ++ b) off bs = Some (a ++ bs).
Proof.
  intros. pose proof (wrn_app a b [] bs off) as Hw. rewrite !app_nil_r in Hw. auto.
Qed.

Lemma wrn_length m off bs m' : wrn m off bs = Some m' -> length m' = length m.
Proof.
  unfold wrn. intros H. zbool; simpl in H; simplify_eq.
  rewrite !length_app, length_take, length_drop. lia.
Qed.

Lemma wrn_bytes_ok m off bs m' :
  bytes_ok m -> bytes_ok bs -> wrn m off bs = Some m' -> bytes_ok m'.
Proof.
  unfold wrn. intros Hm Hbs H. zbool; simpl in H; simplify_eq.
  auto using Forall_app_2, Forall_take, Forall_drop.
Qed.

Lemma rdn_length m off n bs : rdn m off n = Some bs -> zlen bs = n.
Proof.
  intros (?&?&?&->)%rdn_Some. rewrite length_take, length_drop. lia.
Qed.

Lemma rd_lookup m i : 0 <= i -> rd m i = m !! Z.to_nat i.
Proof. intros. unfold rd. zbool; [done|lia]. Qed.

Lemma rd_app_r a b i : zlen a = i -> rd (a ++ b) i = head b.
Proof.
  intros <-. rewrite rd_lookup by lia. rewrite Nat2Z.id.
  rewrite lookup_app_r by lia. rewrite Nat.sub_diag. by destruct b.
Qed.

Lemma zrealloc_length junk m n : 0 <= n -> zlen (zrealloc junk m n) = n.
Proof.
  intros. unfold zrealloc. rewrite length_app, length_take, length_map, length_seq. lia.
Qed.

(** ** Arrays of fixed-size little-endian numbers *)

Lemma list_split3 {A} (a n : nat) (l : list A) :
  l = take a l ++ take n (drop a l) ++ drop (a + n) l.
Proof. by rewrite <- drop_drop, take_drop, take_drop. Qed.

Lemma list_insert_split {A} (i : nat) (x : A) (l : list A) :
  (i < length l)%nat -> <[i := x]> l = take i l ++ x :: drop (S i) l.
Proof. intros. by rewrite insert_take_drop. Qed.

Lemma take_drop_take {A} n a m (l : list A) :
  take n (drop a (take m l)) = take (n `min` (m - a)) (drop a l).
Proof. by rewrite skipn_firstn_comm, take_take. Qed.

Lemma elem_of_take_drop {A} n (x : A) l : x ∈ l <-> x ∈ take n l \/ x ∈ drop n l.
Proof. rewrite <- (take_drop n l) at 1. apply elem_of_app. Qed.

Definition pack (w : nat) (l : list Z) : list Z := concat (map (le_bytes w) l).

Lemma pack_app w l1 l2 : pack w (l1 ++ l2) = pack w l1 ++ pack w l2.
Proof. unfold pack. by rewrite map_app, concat_app. Qed.

Lemma pack_cons w x l : pack w (x :: l) = le_bytes w x ++ pack w l.
Proof. done. Qed.

Lemma pack_nil w : pack w [] = [].
Proof. done. Qed.

Lemma pack_singleton w x : pack w [x] = le_bytes w x.
Proof. unfold pack. simpl. apply app_nil_r. Qed.

Lemma pack_length w l : length (pack w l) = (w * length l)%nat.
Proof.
  unfold pack. induction l as [|x l IH]; simpl; [lia|].
  rewrite length_app, le_bytes_length, IH. lia.
Qed.

Lemma pack_bytes_ok w l : bytes_ok (pack w l).
Proof.
  unfold pack. induction l; simpl; [constructor|].
  apply Forall_app_2; auto with bytes.
Qed.
#[export] Hint Resolve pack_bytes_ok : bytes.

Lemma rdn_pack w l tail s n :
  0 <= s -> 0 <= n -> s + n <= zlen l ->
  rdn (pack w l ++ tail) (Z.of_nat w * s) (Z.of_nat w * n)
  = Some (pack w (take (Z.to_nat n) (drop (Z.to_nat s) l))).
Proof.
  intros Hs Hn Hl.
  rewrite (list_split3 (Z.to_nat s) (Z.to_nat n) l) at 1.
  rewrite !pack_app, <- !app_assoc.
  apply rdn_app; rewrite pack_length, length_take, ?length_drop; nia.
Qed.

Lemma wrn_pack w l l' tail s :
  0 <= s -> s + zlen l' <= zlen l ->
  wrn (pack w l ++ tail) (Z.of_nat w * s) (pack w l')
  = Some (pack w (take (Z.to_nat s) l ++ l' ++ drop (Z.to_nat s + length l') l) ++ tail).
Proof.
  intros Hs Hl.
  rewrite (list_split3 (Z.to_nat s) (length l') l) at 1.
  rewrite !pack_app, <- !app_assoc.
  apply wrn_app; rewrite !pack_length, length_take, ?length_drop; nia.
Qed.

Lemma memmove_pack w l dst src n :
  0 <= src -> 0 <= dst -> 0 <= n -> src + n <= zlen l -> dst + n <= zlen l ->
  memmove (pack w l) (Z.of_nat w * dst) (Z.of_nat w * src) (Z.of_nat w * n)
  = Some (pack w (take (Z.to_nat dst) l ++ take (Z.to_nat n) (drop (Z.to_nat src) l)
                  ++ drop (Z.to_nat dst + Z.to_nat n) l)).
Proof.
  intros. unfold memmove.
  pose proof (rdn_pack w l [] src n) as Hr. rewrite app_nil_r in Hr.
  rewrite Hr by lia. simpl.
  assert (Hlen : length (take (Z.to_nat n) (drop (Z.to_nat src) l)) = Z.to_nat n)
    by (rewrite length_take, length_drop; lia).
  pose proof (wrn_pack w l (take (Z.to_nat n) (drop (Z.to_nat src) l)) [] dst) as Hw.
  rewrite !app_nil_r, Hlen in Hw. apply Hw; lia.
Qed.

Lemma zrealloc_grow junk m n :
  (forall i, byte_ok (junk i)) -> zlen m <= n ->
  exists bs, zrealloc junk m n = m ++ bs /\ bytes_ok bs /\ zlen bs = n - zlen m.
Proof.
  intros Hj Hn. unfold zrealloc. rewrite take_ge by lia. eexists. split; [done|]. split.
  - apply Forall_forall. intros x Hx. apply list_elem_of_In, in_map_iff in Hx as (?&<-&_). done.
  - rewrite length_map, length_seq. lia.
Qed.

Lemma zrealloc_shrink junk m n :
  0 <= n <= zlen m -> zrealloc junk m n = take (Z.to_nat n) m.
Proof.
  intros. unfold zrealloc. replace (Z.to_nat n - length m)%nat with 0%nat by lia.
  simpl. apply app_nil_r.
Qed.

Lemma bytes_pack_singleton bs : bytes_ok bs -> bs = pack (length bs) [le_val bs].
Proof. intros. by rewrite pack_singleton, le_bytes_val. Qed.

Lemma take_pack w n l : take (w * n) (pack w l) = pack w (take n l).
Proof.
  destruct (Nat.le_gt_cases n (length l)).
  - rewrite <- (take_drop n l) at 1. rewrite pack_app, take_app_length'; [done|].
    rewrite pack_length, length_take. nia.
  - rewrite (take_ge l n) by lia. apply take_ge. rewrite pack_length. nia.
Qed.

Lemma le_bytes_mod n z : le_bytes n (z mod 2 ^ (8 * Z.of_nat n)) = le_bytes n z.
Proof.
  rewrite <- le_val_bytes. rewrite <- (le_bytes_length n z) at 1.
  apply le_bytes_val, le_bytes_ok.
Qed.

Lemma le_bytes_swrap n z : (0 < n)%nat -> le_bytes n (swrap (8 * Z.of_nat n) z) = le_bytes n z.
Proof.
  intros Hn. rewrite <- le_bytes_mod. fold (uwrap (8 * Z.of_nat n) (swrap (8 * Z.of_nat n) z)).
  rewrite uwrap_swrap by lia. apply le_bytes_mod.
Qed.

(** Any block of [w * n] bytes is an array of [n] signed numbers. *)
Lemma unpack w n c :
  (0 < w)%nat -> bytes_ok c -> length c = (w * n)%nat ->
  exists l, length l = n /\ c = pack w l /\ Forall (in_s (8 * Z.of_nat w)) l.
Proof.
  intros Hw. revert c. induction n as [|n IH]; intros c Hc Hlen.
  { exists []. rewrite (nil_length_inv c) by lia. done. }
  destruct (IH (drop w c)) as (l & Hl & Hd & Hf).
  { by apply Forall_drop. }
  { rewrite length_drop. lia. }
  exists (swrap (8 * Z.of_nat w) (le_val (take w c)) :: l). split; [simpl; lia|].
  assert (Htk : length (take w c) = w) by (rewrite length_take; lia). split.
  - rewrite pack_cons, <- Hd, le_bytes_swrap by done. rewrite <- Htk at 1.
    rewrite le_bytes_val by by apply Forall_take. by rewrite take_drop.
  - constructor; [|done]. apply swrap_range. lia.
Qed.

(** ** Bit operations *)

(** A decidable statement about bytes holds when it holds of the 256 values. *)
Lemma byte_forall (P : Z -> bool) :
  forallb P (map Z.of_nat (seq 0 256)) = true -> forall b, byte_ok b -> P b = true.
Proof.
  intros H b Hb. rewrite forallb_forall in H. apply H, in_map_iff.
  exists (Z.to_nat b). unfold byte_ok in Hb. split; [lia|]. apply in_seq. lia.
Qed.

Lemma lor_shiftl_add a b k :
  0 <= k -> 0 <= a < 2 ^ k -> Z.lor a (Z.shiftl b k) = a + b * 2 ^ k.
Proof.
  intros Hk Ha. rewrite Z.add_nocarry_lor by (
    apply Z.bits_inj'; intros n Hn; rewrite Z.land_spec, Z.bits_0;
    destruct (Z.lt_ge_cases n k) as [Hlt|Hge];
    [rewrite Z.mul_pow2_bits_low by lia; apply andb_false_r
    |replace (Z.testbit a n) with false; [done|]; symmetry;
     destruct (decide (a = 0)) as [-> |]; [apply Z.bits_0|];
     apply Z.bits_above_log2; [lia|]; apply Z.log2_lt_pow2; [lia|];
     apply Z.lt_le_trans with (2 ^ k); [lia|]; apply Z.pow_le_mono_r; lia]).
  by rewrite Z.shiftl_mul_pow2.
Qed.

Lemma land_ones_mod a k m : 0 <= k -> m = 2 ^ k - 1 -> Z.land a m = a mod 2 ^ k.
Proof.
  intros Hk ->. rewrite <- Z.land_ones by lia. f_equal. rewrite Z.ones_equiv. lia.
Qed.

Lemma rd_shift pre m post i x : rd m i = Some x -> rd (pre ++ m ++ post) (zlen pre + i) = Some x.
Proof.
  unfold rd. destruct (Z.leb_spec 0 i); [|done]. intros Hx.
  destruct (Z.leb_spec 0 (zlen pre + i)); [|lia].
  pose proof (lookup_lt_Some _ _ _ Hx).
  rewrite lookup_app_r by lia. rewrite lookup_app_l by lia. rewrite <- Hx. f_equal. lia.
Qed.

Lemma rdn_shift pre m post i n x :
  rdn m i n = Some x -> rdn (pre ++ m ++ post) (zlen pre + i) n = Some x.
Proof.
  intros (H1 & H2 & H3 & ->)%rdn_Some. apply rdn_Some. rewrite !length_app. split_and!; try lia.
  replace (Z.to_nat (zlen pre + i)) with (length pre + Z.to_nat i)%nat by lia.
  rewrite drop_app_add, drop_app_le by lia. rewrite take_app_le; [done|]. rewrite length_drop. lia.
Qed.

(** ** Bits of bytes *)

Lemma byte_bit_high x k : byte_ok x -> 8 <= k -> Z.testbit x k = false.
Proof.
  intros Hx Hk. destruct (decide (x = 0)) as [->|]; [apply Z.bits_0|]. apply Z.bits_above_log2; [unfold byte_ok in Hx; lia|].
  apply Z.log2_lt_pow2; [unfold byte_ok in Hx; lia|]. apply Z.lt_le_trans with (2 ^ 8); [unfold byte_ok in Hx; lia|].
  apply Z.pow_le_mono_r; lia.
Qed.

Lemma uwrap_testbit w x k : 0 <= w -> 0 <= k -> Z.testbit (uwrap w x) k = (k <? w) && Z.testbit x k.
Proof.
  intros Hw Hk. unfold uwrap. destruct (Z.ltb_spec k w); [by rewrite Z.mod_pow2_bits_low|by rewrite Z.mod_pow2_bits_high by lia].
Qed.

Lemma le_val_bit l k : bytes_ok l -> 0 <= k ->
  Z.testbit (le_val l) k = Z.testbit (default 0 (l !! Z.to_nat (k / 8))) (k mod 8).
Proof.
  intros Hl. revert k. induction Hl as [|x l Hx _ IH]; intros k Hk; cbn [le_val].
  { by rewrite lookup_nil, !Z.bits_0. }
  rewrite Z.mul_comm. change 256 with (2 ^ 8). rewrite <- lor_shiftl_add, Z.lor_spec by (done || lia).
  destruct (Z.lt_ge_cases k 8).
  - rewrite Z.shiftl_spec_low, orb_false_r by done. rewrite Z.div_small, Z.mod_small by lia. done.
  - rewrite Z.shiftl_spec by lia. rewrite byte_bit_high, orb_false_l by done. rewrite IH by lia.
    replace (k / 8) with (1 + (k - 8) / 8) by dlia. replace (k mod 8) with ((k - 8) mod 8) by dlia.
    rewrite Z2Nat.inj_add by dlia. done.
Qed.
