(* ===== verification/Intset.v ===== *)
(** * The integer set ([redis-stable/src/intset.c])

    The packed, sorted array of 16, 32 or 64 bit integers that backs small
    sets, at the level of its bytes: reads and writes go through the block
    [is_contents], so the theorems include that no operation leaves it. *)

From stdpp Require Import sorting.
From S2P Require Import Prelude.

Module Intset.

(** ** Data and operations *)

Definition INTSET_ENC_INT16 : Z := 2.
Definition INTSET_ENC_INT32 : Z := 4.
Definition INTSET_ENC_INT64 : Z := 8.

Definition INT16_MIN : Z := - 2 ^ 15.
Definition INT16_MAX : Z := 2 ^ 15 - 1.
Definition INT32_MIN : Z := - 2 ^ 31.
Definition INT32_MAX : Z := 2 ^ 31 - 1.
Definition SIZE_MAX : Z := 2 ^ 64 - 1.

(** [struct intset]; [is_contents] is the flexible array, exactly the bytes
    allocated after the 8 byte header. *)
Record intset := Mk {
  is_encoding : Z;
  is_length : Z;
  is_contents : list Z
}.

Definition sizeof_intset : Z := 8.

Definition _intsetValueEncoding (v : Z) : Z :=
  if (v <? INT32_MIN) || (v >? INT32_MAX) then INTSET_ENC_INT64
  else if (v <? INT16_MIN) || (v >? INT16_MAX) then INTSET_ENC_INT32
  else INTSET_ENC_INT16.

Definition _intsetGetEncoded (s : intset) (pos enc : Z) : option Z :=
  let pos := swrap 32 pos in
  if enc =? INTSET_ENC_INT64 then
    bs ← rdn (is_contents s) (8 * pos) 8; Some (swrap 64 (le_val bs))
  else if enc =? INTSET_ENC_INT32 then
    bs ← rdn (is_contents s) (4 * pos) 4; Some (swrap 32 (le_val bs))
  else
    bs ← rdn (is_contents s) (2 * pos) 2; Some (swrap 16 (le_val bs)).

Definition _intsetGet (s : intset) (pos : Z) : option Z :=
  _intsetGetEncoded s pos (is_encoding s).

Definition set_contents (s : intset) (c : list Z) : intset :=
  Mk (is_encoding s) (is_length s) c.

Definition _intsetSet (s : intset) (pos value : Z) : option intset :=
  let pos := swrap 32 pos in
  c ← (if is_encoding s =? INTSET_ENC_INT64 then
         wrn (is_contents s) (8 * pos) (le_bytes 8 value)
       else if is_encoding s =? INTSET_ENC_INT32 then
         wrn (is_contents s) (4 * pos) (le_bytes 4 value)
       else
         wrn (is_contents s) (2 * pos) (le_bytes 2 value));
  Some (set_contents s c).

Definition intsetNew : intset := Mk INTSET_ENC_INT16 0 [].

Definition intsetAllocSize (s : intset) : option Z :=
  let size := uwrap 64 (is_length s * is_encoding s) in
  if size <=? SIZE_MAX - sizeof_intset then Some (sizeof_intset + size) else None.

(** The binary search loop; [fuel] bounds the number of iterations. *)
Fixpoint intsetSearch_loop (fuel : nat) (s : intset) (value min max mid cur : Z)
    : option (Z * Z * Z) :=
  match fuel with
  | O => None
  | S fuel =>
    if max >=? min then
      let mid := Z.shiftr (uwrap 32 (uwrap 32 min + uwrap 32 max)) 1 in
      cur ← _intsetGet s mid;
      if value >? cur then intsetSearch_loop fuel s value (mid + 1) max mid cur
      else if value <? cur then intsetSearch_loop fuel s value min (mid - 1) mid cur
      else Some (min, mid, cur)
    else Some (min, mid, cur)
  end.

Definition intsetSearch (s : intset) (value : Z) : option (bool * Z) :=
  let max := swrap 32 (is_length s - 1) in
  if is_length s =? 0 then Some (false, 0)
  else
    vmax ← _intsetGet s max;
    if value >? vmax then Some (false, is_length s)
    else
      v0 ← _intsetGet s 0;
      if value <? v0 then Some (false, 0)
      else
        '(min, mid, cur) ← intsetSearch_loop (S (Z.to_nat (is_length s))) s value 0 max (-1) (-1);
        if value =? cur then Some (true, mid) else Some (false, min).

Definition intsetMoveTail (s : intset) (from to : Z) : option intset :=
  let bytes := uwrap 32 (is_length s - from) in
  c ← (if is_encoding s =? INTSET_ENC_INT64 then
         memmove (is_contents s) (8 * to) (8 * from) (uwrap 32 (bytes * 8))
       else if is_encoding s =? INTSET_ENC_INT32 then
         memmove (is_contents s) (4 * to) (4 * from) (uwrap 32 (bytes * 4))
       else
         memmove (is_contents s) (2 * to) (2 * from) (uwrap 32 (bytes * 2)));
  Some (set_contents s c).

Section WithJunk.
Context (junk : nat -> Z).

Definition intsetResize (s : intset) (len : Z) : option intset :=
  let size := uwrap 64 (len * is_encoding s) in
  if size <=? SIZE_MAX - sizeof_intset
  then Some (set_contents s (zrealloc junk (is_contents s) size))
  else None.

(** [while(length--) _intsetSet(is,length+prepend,_intsetGetEncoded(is,length,curenc))] *)
Fixpoint intsetUpgrade_loop (length : nat) (s : intset) (prepend curenc : Z)
    : option intset :=
  match length with
  | O => Some s
  | S length =>
    v ← _intsetGetEncoded s (Z.of_nat length) curenc;
    s ← _intsetSet s (Z.of_nat length + prepend) v;
    intsetUpgrade_loop length s prepend curenc
  end.

Definition intsetUpgradeAndAdd (s : intset) (value : Z) : option intset :=
  let curenc := is_encoding s in
  let newenc := _intsetValueEncoding value in
  let length := is_length s in
  let prepend := if value <? 0 then 1 else 0 in
  let s := Mk newenc (is_length s) (is_contents s) in
  s ← intsetResize s (uwrap 32 (is_length s + 1));
  s ← intsetUpgrade_loop (Z.to_nat length) s prepend curenc;
  s ← (if value <? 0 then _intsetSet s 0 value
        else _intsetSet s (is_length s) value);
  Some (Mk (is_encoding s) (uwrap 32 (is_length s + 1)) (is_contents s)).

Definition intsetAdd (s : intset) (value : Z) : option (intset * bool) :=
  let valenc := _intsetValueEncoding value in
  if valenc >? is_encoding s then
    s ← intsetUpgradeAndAdd s value; Some (s, true)
  else
    '(found, pos) ← intsetSearch s value;
    if (found : bool) then Some (s, false)
    else
      s ← intsetResize s (uwrap 32 (is_length s + 1));
      s ← (if pos <? is_length s then intsetMoveTail s pos (pos + 1) else Some s);
      s ← _intsetSet s pos value;
      Some (Mk (is_encoding s) (uwrap 32 (is_length s + 1)) (is_contents s), true).

Definition intsetRemove (s : intset) (value : Z) : option (intset * bool) :=
  let valenc := _intsetValueEncoding value in
  if valenc <=? is_encoding s then
    '(found, pos) ← intsetSearch s value;
    if (found : bool) then
      let len := is_length s in
      s ← (if pos <? uwrap 32 (len - 1) then intsetMoveTail s (pos + 1) pos else Some s);
      s ← intsetResize s (uwrap 32 (len - 1));
      Some (Mk (is_encoding s) (uwrap 32 (len - 1)) (is_contents s), true)
    else Some (s, false)
  else Some (s, false).

End WithJunk.

Definition intsetFind (s : intset) (value : Z) : option bool :=
  let valenc := _intsetValueEncoding value in
  if valenc <=? is_encoding s then
    '(found, _) ← intsetSearch s value; Some (found : bool)
  else Some false.

(** [rand()] is the C library's: its result is the argument [r]. *)
Definition intsetRandom (s : intset) (r : Z) : option Z :=
  let len := is_length s in
  if len =? 0 then None else _intsetGet s (uwrap 32 r mod len).

Definition intsetMax (s : intset) : option Z :=
  _intsetGet s (uwrap 32 (is_length s - 1)).

Definition intsetMin (s : intset) : option Z := _intsetGet s 0.

(** [None]: undefined behaviour; [Some None]: returns 0; [Some (Some v)]:
    returns 1 with [*value = v]. *)
Definition intsetGet (s : intset) (pos : Z) : option (option Z) :=
  if pos <? is_length s then v ← _intsetGet s pos; Some (Some v) else Some None.

Definition intsetLen (s : intset) : Z := is_length s.

Definition intsetBlobLen (s : intset) : Z :=
  sizeof_intset + is_length s * is_encoding s.

(** The bytes of the structure, and the cast [(intset * )p] back. *)
Definition blob (s : intset) : list Z :=
  le_bytes 4 (is_encoding s) ++ le_bytes 4 (is_length s) ++ is_contents s.

Definition of_blob (p : list Z) : option intset :=
  e ← rdn p 0 4; l ← rdn p 4 4; Some (Mk (le_val e) (le_val l) (drop 8 p)).

Fixpoint intsetValidate_loop (fuel : nat) (s : intset) (i count prev : Z) : option bool :=
  match fuel with
  | O => None
  | S fuel =>
    if i <? count then
      cur ← _intsetGet s i;
      if cur <=? prev then Some false
      else intsetValidate_loop fuel s (i + 1) count cur
    else Some true
  end.

Definition intsetValidateIntegrity (p : list Z) (size : Z) (deep : bool) : option bool :=
  if size <? sizeof_intset then Some false
  else
    s ← of_blob p;
    let encoding := is_encoding s in
    if (encoding =? INTSET_ENC_INT64) || (encoding =? INTSET_ENC_INT32)
       || (encoding =? INTSET_ENC_INT16) then
      let record_size := encoding in
      let count := is_length s in
      if negb (uwrap 64 (sizeof_intset + uwrap 64 (count * record_size)) =? size) then Some false
      else if count =? 0 then Some false
      else if negb deep then Some true
      else
        prev ← _intsetGet s 0;
        intsetValidate_loop (S (Z.to_nat count)) s 1 count prev
    else Some false.

(** ** Representation

    [rep s l]: the bytes of [s] hold exactly the integers [l], strictly
    increasing, each in the range of the current encoding. *)

Definition enc_ok (e : Z) : Prop := e = 2 \/ e = 4 \/ e = 8.

#[export] Instance enc_ok_dec e : Decision (enc_ok e).
Proof. unfold enc_ok. apply _. Defined.

Record rep (s : intset) (l : list Z) : Prop := {
  rep_enc : enc_ok (is_encoding s);
  rep_len : is_length s = zlen l;
  rep_contents : is_contents s = pack (Z.to_nat (is_encoding s)) l;
  rep_fits : Forall (in_s (8 * is_encoding s)) l;
  rep_sorted : StronglySorted Z.lt l
}.

(** Reference operations on the list of members. *)
Definition rank (v : Z) (l : list Z) : nat := length (filter (fun x => x < v) l).
Definition ins (v : Z) (l : list Z) : list Z :=
  if decide (v ∈ l) then l else take (rank v l) l ++ v :: drop (rank v l) l.
Definition del (v : Z) (l : list Z) : list Z := filter (fun x => x <> v) l.

(** *** Uniform form of the three-way dispatch on the encoding *)

Lemma enc_mul_bound n e : enc_ok e -> 0 <= n -> 0 <= n * e <= 8 * n.
Proof. unfold enc_ok. nia. Qed.

Lemma getEncoded_eq s pos e :
  enc_ok e -> in_s 32 pos ->
  _intsetGetEncoded s pos e =
  (bs ← rdn (is_contents s) (e * pos) e; Some (swrap (8 * e) (le_val bs))).
Proof.
  intros He Hp. unfold _intsetGetEncoded. rewrite (swrap_id 32) by done.
  by destruct He as [->|[->| ->]].
Qed.

Lemma intsetSet_eq s pos v :
  enc_ok (is_encoding s) -> in_s 32 pos ->
  _intsetSet s pos v =
  (c ← wrn (is_contents s) (is_encoding s * pos)
         (pack (Z.to_nat (is_encoding s)) [v]);
   Some (set_contents s c)).
Proof.
  intros He Hp. unfold _intsetSet. rewrite pack_singleton, (swrap_id 32) by done.
  by destruct He as [-> |[-> | ->]].
Qed.

Lemma moveTail_eq s from to :
  enc_ok (is_encoding s) -> 0 <= from <= is_length s ->
  is_length s * is_encoding s < 2 ^ 32 ->
  intsetMoveTail s from to =
  (c ← memmove (is_contents s) (is_encoding s * to) (is_encoding s * from)
         (is_encoding s * (is_length s - from));
   Some (set_contents s c)).
Proof.
  unfold intsetMoveTail. intros He Hf Hb.
  assert (Hw : forall e, e = is_encoding s ->
    uwrap 32 (uwrap 32 (is_length s - from) * e) = e * (is_length s - from)).
  { intros e ->. rewrite (uwrap_id 32 (is_length s - from)), uwrap_id, Z.mul_comm;
      unfold in_u, enc_ok in *; [done|nia..]. }
  destruct He as [E|[E|E]]; rewrite E in *; simpl; by rewrite Hw.
Qed.

Lemma swrap_le_val e v :
  enc_ok e -> in_s (8 * e) v -> swrap (8 * e) (le_val (le_bytes (Z.to_nat e) v)) = v.
Proof.
  intros He Hv. rewrite le_val_bytes. unfold enc_ok in He.
  rewrite Z2Nat.id by lia. fold (uwrap (8 * e) v).
  rewrite swrap_uwrap by lia. apply swrap_id; [lia|done].
Qed.

Lemma getEncoded_pack s l e tail i v :
  enc_ok e -> is_contents s = pack (Z.to_nat e) l ++ tail ->
  Forall (in_s (8 * e)) l -> zlen l < 2 ^ 31 -> 0 <= i -> l !! Z.to_nat i = Some v ->
  _intsetGetEncoded s i e = Some v.
Proof.
  intros He Hc Hf Hsz Hi Hl. pose proof (lookup_lt_Some _ _ _ Hl).
  rewrite getEncoded_eq, Hc by (done || unfold in_s; lia).
  pose proof (rdn_pack (Z.to_nat e) l tail i 1) as Hr.
  assert (He' : Z.of_nat (Z.to_nat e) = e) by (unfold enc_ok in He; lia).
  rewrite He', Z.mul_1_r in Hr. rewrite Hr by lia. simpl.
  rewrite (drop_S _ v _ Hl). simpl. rewrite take_0, pack_singleton.
  rewrite swrap_le_val; [done..|]. by eapply Forall_lookup_1.
Qed.

Lemma intsetGet_rep s l i v :
  rep s l -> zlen l < 2 ^ 31 -> 0 <= i -> l !! Z.to_nat i = Some v -> _intsetGet s i = Some v.
Proof.
  intros [] Hsz Hi Hl. unfold _intsetGet.
  eapply (getEncoded_pack s l _ []); eauto. by rewrite app_nil_r.
Qed.

(** *** Sorted lists and [rank] *)

Lemma rank_cons v x l : rank v (x :: l) = ((if decide (x < v)%Z then 1 else 0) + rank v l)%nat.
Proof. unfold rank. rewrite filter_cons. by case_decide. Qed.

Lemma rank_le v l : (rank v l <= length l)%nat.
Proof. apply length_filter. Qed.

Lemma rank_0 v l : Forall (fun y => v <= y) l -> rank v l = 0%nat.
Proof. induction 1; [done|]. rewrite rank_cons, IHForall. case_decide; lia. Qed.

Lemma rank_lookup v l i x :
  StronglySorted Z.lt l -> l !! i = Some x -> x < v <-> (i < rank v l)%nat.
Proof.
  intros Hs. revert i. induction Hs as [|y l Hs IH Hy]; intros i; [done|].
  rewrite rank_cons. destruct i as [|i]; simpl; intros Hl; simplify_eq.
  - case_decide; [lia|]. rewrite rank_0; [lia|].
    eapply Forall_impl; [exact Hy|]. simpl; intros; lia.
  - rewrite (IH i) by done. case_decide; [lia|].
    rewrite rank_0; [lia|]. eapply Forall_impl; [exact Hy|]. simpl; intros; lia.
Qed.

Lemma sorted_lookup_lt l i j x y :
  StronglySorted Z.lt l -> l !! i = Some x -> l !! j = Some y -> (i < j)%nat -> x < y.
Proof.
  intros Hs Hi Hj Hij. rewrite <- (take_drop j l) in Hs.
  apply StronglySorted_app in Hs as (Hlt & _ & _). apply Hlt.
  - apply list_elem_of_lookup. exists i. by rewrite lookup_take_lt.
  - apply list_elem_of_lookup. exists 0%nat. by rewrite lookup_drop, Nat.add_0_r.
Qed.

Lemma lookup_rank v l :
  StronglySorted Z.lt l -> v ∈ l -> l !! rank v l = Some v.
Proof.
  intros Hs [i Hi]%list_elem_of_lookup.
  pose proof (rank_lookup v l i v Hs Hi).
  destruct (decide (i = rank v l)) as [->|Hne]; [done|].
  destruct (lookup_lt_is_Some_2 l (rank v l)) as [w Hw].
  { apply lookup_lt_Some in Hi. lia. }
  pose proof (rank_lookup v l _ _ Hs Hw).
  pose proof (sorted_lookup_lt l _ _ _ _ Hs Hw Hi). lia.
Qed.

Lemma sorted_take_lt v l : StronglySorted Z.lt l -> Forall (fun x => x < v) (take (rank v l) l).
Proof.
  intros Hs. apply Forall_lookup. intros i x Hi. apply lookup_take_Some in Hi as [Hi ?].
  by apply (rank_lookup v l i x).
Qed.

Lemma sorted_drop_ge v l : StronglySorted Z.lt l -> Forall (fun x => v <= x) (drop (rank v l) l).
Proof.
  intros Hs. apply Forall_lookup. intros i x Hi. rewrite lookup_drop in Hi.
  pose proof (rank_lookup v l _ x Hs Hi). lia.
Qed.

Lemma ins_sorted v l : StronglySorted Z.lt l -> StronglySorted Z.lt (ins v l).
Proof.
  intros Hs. unfold ins. case_decide as Hv; [done|].
  pose proof Hs as Hs'. rewrite <- (take_drop (rank v l) l) in Hs'.
  apply StronglySorted_app in Hs' as (H3 & H1 & H2).
  pose proof (sorted_take_lt v l Hs) as Ht. pose proof (sorted_drop_ge v l Hs) as Hd.
  rewrite Forall_forall in Ht, Hd.
  apply StronglySorted_app; split_and!; [|done|].
  - intros x1 x2 Hx1 [-> | ?]%elem_of_cons; [by apply Ht|by apply H3].
  - constructor; [done|]. apply Forall_forall. intros x Hx. specialize (Hd _ Hx).
    destruct (decide (v = x)) as [->|]; [|lia].
    destruct Hv. apply (elem_of_take_drop (rank x l)). by right.
Qed.

Lemma elem_of_ins v x l : x ∈ ins v l <-> x = v \/ x ∈ l.
Proof.
  unfold ins. case_decide; [split; [tauto|by intros [-> |]]|].
  rewrite elem_of_app, elem_of_cons, (elem_of_take_drop (rank v l) x l). tauto.
Qed.

Lemma filter_all {A} (P : A -> Prop) `{!forall x, Decision (P x)} (l : list A) :
  Forall P l -> filter P l = l.
Proof. induction 1; [done|]. rewrite filter_cons_True by done. by f_equal. Qed.

Lemma del_split v l :
  StronglySorted Z.lt l -> v ∈ l -> del v l = take (rank v l) l ++ drop (S (rank v l)) l.
Proof.
  intros Hs Hv. pose proof (lookup_rank v l Hs Hv) as Hl. unfold del.
  pose proof (sorted_take_lt v l Hs) as Ht.
  pose proof Hs as Hs'. rewrite <- (take_drop_middle l _ _ Hl) in Hs'.
  apply StronglySorted_app in Hs' as (_ & _ & [Hgt _]%StronglySorted_cons).
  rewrite <- (take_drop_middle l _ _ Hl) at 1.
  rewrite filter_app, filter_cons_False by naive_solver.
  rewrite !filter_all; [done| |]; (eapply Forall_impl; [eassumption|]; simpl; intros; lia).
Qed.

Lemma del_sorted v l : StronglySorted Z.lt l -> StronglySorted Z.lt (del v l).
Proof.
  intros Hs. destruct (decide (v ∈ l)) as [Hv|Hv].
  - rewrite del_split by done. pose proof (lookup_rank v l Hs Hv) as Hl.
    rewrite <- (take_drop_middle l _ _ Hl) in Hs.
    apply StronglySorted_app in Hs as (H1 & H2 & [_ H3]%StronglySorted_cons).
    apply StronglySorted_app; split_and!; try done. set_solver.
  - unfold del. rewrite filter_all; [done|]. apply Forall_forall. by intros x ? ->.
Qed.

Lemma elem_of_del v x l : x ∈ del v l <-> x <> v /\ x ∈ l.
Proof. unfold del. by rewrite list_elem_of_filter. Qed.

(** *** Binary search *)

Lemma search_loop_spec fuel s l v min max mid cur :
  rep s l -> zlen l < 2 ^ 31 -> 0 <= min -> max < zlen l ->
  min <= Z.of_nat (rank v l) <= max + 1 -> (Z.to_nat (max - min + 1) < fuel)%nat ->
  (v ∈ l -> Z.of_nat (rank v l) <= max) -> (max < min -> cur <> v) ->
  exists min' mid' cur',
    intsetSearch_loop fuel s v min max mid cur = Some (min', mid', cur') /\
    (if decide (v ∈ l) then cur' = v /\ mid' = Z.of_nat (rank v l)
     else cur' <> v /\ min' = Z.of_nat (rank v l)).
Proof.
  intros Hr Hsz. pose proof (rep_sorted _ _ Hr) as Hs. revert min max mid cur.
  induction fuel as [|fuel IH]; intros min max mid cur Hmin Hmax Hrk Hf Hin Hend; [lia|].
  cbn [intsetSearch_loop].
  destruct (max >=? min) eqn:E; zbool; try discriminate; cycle 1.
  { do 3 eexists. split; [done|].
    rewrite decide_False by (intros Hv; specialize (Hin Hv); lia). split; [tauto|lia]. }
  rewrite (uwrap_id 32 min), (uwrap_id 32 max), uwrap_id by (unfold in_u; lia).
  rewrite Z.shiftr_div_pow2 by lia. change (2 ^ 1) with 2.
  assert (Hm : min <= (min + max) / 2 <= max) by dlia.
  set (m := (min + max) / 2) in *. clearbody m.
  destruct (lookup_lt_is_Some_2 l (Z.to_nat m)) as [c Hc]; [lia|].
  rewrite (intsetGet_rep s l m c) by (auto; lia). simpl.
  pose proof (rank_lookup v l _ c Hs Hc) as Hrc.
  rewrite Z.gtb_ltb. destruct (Z.ltb_spec c v); [apply IH; done || lia|].
  destruct (Z.ltb_spec v c); [apply IH; try (done || lia)|].
  - intros Hv. specialize (Hin Hv). pose proof (lookup_rank v l Hs Hv) as Hl.
    destruct (decide (Z.to_nat m = rank v l)) as [Em|]; [rewrite Em in Hc; simplify_eq|]; lia.
  - assert (c = v) as -> by lia.
    assert (Hv : v ∈ l) by (apply list_elem_of_lookup; eauto).
    do 3 eexists. split; [done|]. rewrite decide_True by done. split; [done|].
    pose proof (lookup_rank v l Hs Hv) as Hl. specialize (Hin Hv).
    destruct (decide (Z.to_nat m = rank v l)) as [Em|]; [lia|].
    pose proof (sorted_lookup_lt l _ _ _ _ Hs Hl Hc). lia.
Qed.

Lemma rank_last v l w :
  StronglySorted Z.lt l -> l !! Init.Nat.pred (length l) = Some w -> w < v ->
  (v ∉ l) /\ rank v l = length l.
Proof.
  intros Hs Hl Hw. pose proof (lookup_lt_Some _ _ _ Hl).
  pose proof (rank_lookup v l _ w Hs Hl). pose proof (rank_le v l).
  split; [|lia]. intros Hv%(lookup_rank v l Hs)%lookup_lt_Some. lia.
Qed.

Lemma rank_first v l w :
  StronglySorted Z.lt l -> l !! 0%nat = Some w -> v < w -> (v ∉ l) /\ rank v l = 0%nat.
Proof.
  intros Hs Hl Hw. pose proof (rank_lookup v l _ w Hs Hl). split; [|lia].
  intros Hv. pose proof (lookup_rank v l Hs Hv) as Hl'.
  replace (rank v l) with 0%nat in Hl' by lia. simplify_eq. lia.
Qed.

Lemma search_spec s l v :
  rep s l -> zlen l < 2 ^ 31 ->
  intsetSearch s v = Some (bool_decide (v ∈ l), Z.of_nat (rank v l)).
Proof.
  intros Hr Hsz. pose proof (rep_sorted _ _ Hr) as Hs.
  unfold intsetSearch. rewrite (rep_len _ _ Hr).
  destruct (Z.eqb_spec (zlen l) 0) as [H0|H0].
  { by destruct l. }
  rewrite swrap_id by (unfold in_s; lia).
  destruct (lookup_lt_is_Some_2 l (Init.Nat.pred (length l))) as [w Hw]; [lia|].
  destruct (lookup_lt_is_Some_2 l 0%nat) as [w0 Hw0]; [lia|].
  assert (Hmax : _intsetGet s (zlen l - 1) = Some w).
  { apply (intsetGet_rep s l); [done|done|lia|].
    rewrite <- Hw. f_equal. lia. }
  rewrite Hmax. mred.
  rewrite Z.gtb_ltb. destruct (Z.ltb_spec w v).
  { destruct (rank_last v l w) as [Hv ->]; try done. by rewrite bool_decide_false. }
  rewrite (intsetGet_rep s l 0 w0) by done. mred. destruct (Z.ltb_spec v w0).
  { destruct (rank_first v l w0) as [Hv ->]; try done. by rewrite bool_decide_false. }
  pose proof (rank_le v l) as Hrk.
  destruct (search_loop_spec (S (Z.to_nat (zlen l))) s l v 0 (zlen l - 1) (-1) (-1))
    as (min' & mid' & cur' & -> & Hres); try (done || lia).
  { intros Hv%(lookup_rank v l Hs)%lookup_lt_Some. lia. }
  mred. destruct (decide (v ∈ l)) as [Hv|Hv]; destruct Hres as [Hc ->].
  - rewrite Hc, Z.eqb_refl. by rewrite bool_decide_true.
  - destruct (Z.eqb_spec v cur'); [congruence|]. by rewrite bool_decide_false.
Qed.

(** *** Insertion without an encoding change *)

Lemma set_pack s l pos v :
  enc_ok (is_encoding s) -> is_contents s = pack (Z.to_nat (is_encoding s)) l ->
  zlen l < 2 ^ 31 -> 0 <= pos < zlen l ->
  _intsetSet s pos v = Some (set_contents s
    (pack (Z.to_nat (is_encoding s)) (take (Z.to_nat pos) l ++ v :: drop (S (Z.to_nat pos)) l))).
Proof.
  intros He Hc Hsz Hp. rewrite intsetSet_eq, Hc by (done || unfold in_s; lia).
  pose proof (wrn_pack (Z.to_nat (is_encoding s)) l [v] [] pos) as Hw.
  rewrite Z2Nat.id in Hw by (unfold enc_ok in He; lia). rewrite !app_nil_r in Hw.
  rewrite Hw by (simpl; lia). simpl. by rewrite Nat.add_1_r.
Qed.

Lemma moveTail_pack s l len from to :
  enc_ok (is_encoding s) -> is_contents s = pack (Z.to_nat (is_encoding s)) l ->
  is_length s = len -> len * is_encoding s < 2 ^ 32 ->
  0 <= from <= len -> 0 <= to -> to + (len - from) <= zlen l -> len <= zlen l ->
  intsetMoveTail s from to = Some (set_contents s
    (pack (Z.to_nat (is_encoding s))
       (take (Z.to_nat to) l ++ take (Z.to_nat (len - from)) (drop (Z.to_nat from) l)
        ++ drop (Z.to_nat to + Z.to_nat (len - from)) l))).
Proof.
  intros He Hc Hl Hb ????. rewrite moveTail_eq, Hc, Hl by (done || lia).
  pose proof (memmove_pack (Z.to_nat (is_encoding s)) l to from (len - from)) as Hm.
  rewrite Z2Nat.id in Hm by (unfold enc_ok in He; lia). by rewrite Hm by lia.
Qed.

Section Junk.
Context (junk : nat -> Z) (junk_ok : forall i, byte_ok (junk i)).

Lemma resize_grow s l :
  enc_ok (is_encoding s) -> is_contents s = pack (Z.to_nat (is_encoding s)) l ->
  zlen l < 2 ^ 32 ->
  exists j, intsetResize junk s (zlen l + 1) =
    Some (set_contents s (pack (Z.to_nat (is_encoding s)) (l ++ [j]))).
Proof using junk_ok.
  intros He Hc Hl. unfold intsetResize.
  pose proof (enc_mul_bound (zlen l + 1) _ He ltac:(lia)) as Hb.
  rewrite uwrap_id by (unfold in_u; lia). rewrite Hc.
  destruct (Z.leb_spec ((zlen l + 1) * is_encoding s) (SIZE_MAX - sizeof_intset));
    [|unfold SIZE_MAX, sizeof_intset in *; lia].
  destruct (zrealloc_grow junk (pack (Z.to_nat (is_encoding s)) l)
              ((zlen l + 1) * is_encoding s)) as (bs & -> & Hbs & Hlen).
  { done. }
  { rewrite pack_length. unfold enc_ok in He. nia. }
  exists (le_val bs). rewrite pack_app. rewrite (bytes_pack_singleton bs) at 1 by done.
  do 4 f_equal. rewrite pack_length in Hlen. unfold enc_ok in He. nia.
Qed.

(** Making room for one element at [r]: the conditional [intsetMoveTail]. *)
Lemma open_gap s l j r :
  enc_ok (is_encoding s) -> is_length s = zlen l -> 8 * (zlen l + 1) < 2 ^ 32 ->
  (r <= length l)%nat ->
  let s1 := set_contents s (pack (Z.to_nat (is_encoding s)) (l ++ [j])) in
  (if Z.of_nat r <? is_length s1
   then intsetMoveTail s1 (Z.of_nat r) (Z.of_nat r + 1) else Some s1)
  = Some (set_contents s
      (pack (Z.to_nat (is_encoding s)) (take (S r) (l ++ [j]) ++ drop r l))).
Proof.
  intros He Hl Hsz Hrk s1. subst s1. cbn [is_length set_contents]. rewrite Hl.
  destruct (Z.ltb_spec (Z.of_nat r) (zlen l)).
  - pose proof (enc_mul_bound (zlen l) _ He ltac:(lia)).
    rewrite (moveTail_pack _ (l ++ [j]) (zlen l)); simpl; rewrite ?length_app; simpl;
      try (done || lia).
    unfold set_contents; simpl. do 3 f_equal.
    replace (Z.to_nat (Z.of_nat r + 1)) with (S r) by lia.
    rewrite (drop_ge _ (S r + _)) by (rewrite length_app; simpl; lia).
    rewrite app_nil_r, Nat2Z.id, drop_app_le by lia. f_equal.
    rewrite take_app_length'; [done|]. rewrite length_drop. lia.
  - rewrite take_ge, drop_ge, app_nil_r; [done|lia|].
    rewrite length_app; simpl; lia.
Qed.

Lemma add_same_enc s l v :
  rep s l -> 8 * (zlen l + 1) < 2 ^ 32 -> in_s (8 * is_encoding s) v ->
  _intsetValueEncoding v <= is_encoding s ->
  exists s', intsetAdd junk s v = Some (s', bool_decide (v ∉ l)) /\ rep s' (ins v l).
Proof using junk_ok.
  intros Hr Hsz Hv Hve. unfold intsetAdd. rw_false (_intsetValueEncoding v >? is_encoding s).
  rewrite (search_spec s l v) by (done || lia). mred.
  pose proof (rank_le v l) as Hrk. pose proof (ins_sorted v l (rep_sorted _ _ Hr)) as Hs'.
  unfold ins in *. destruct (decide (v ∈ l)) as [Hin|Hin].
  { exists s. rewrite bool_decide_true, bool_decide_false by naive_solver. done. }
  rewrite bool_decide_false, bool_decide_true by done.
  destruct Hr as [He Hl Hc Hf Hs].
  rewrite Hl, uwrap_id by (unfold in_u; lia).
  destruct (resize_grow s l He Hc) as [j ->]; [lia|]. mred.
  rewrite (open_gap s l j (rank v l)) by done. mred.
  set (r := rank v l) in *.
  assert (Hlt : length (take (S r) (l ++ [j])) = S r)
    by (rewrite length_take, length_app; cbn [length]; lia).
  rewrite (set_pack _ (take (S r) (l ++ [j]) ++ drop r l)); simpl;
    [|done|done|rewrite length_app, length_drop, Hlt; lia..].
  eexists. split; [done|]. rewrite Hl, uwrap_id by (unfold in_u; lia). rewrite Nat2Z.id.
  rewrite take_app_le, take_take, drop_app_length' by lia.
  rewrite Nat.min_l, take_app_le by lia.
  split; simpl; [done| |done| |done].
  - rewrite length_app, length_take. simpl. rewrite length_drop. lia.
  - apply Forall_app; split; [by apply Forall_take|]. constructor; [done|by apply Forall_drop].
Qed.

(** Closing the gap of a removed element: the conditional [intsetMoveTail]. *)
Lemma close_gap s l r :
  rep s l -> 8 * zlen l < 2 ^ 32 -> (r < length l)%nat ->
  exists l1,
    (if Z.of_nat r <? zlen l - 1 then intsetMoveTail s (Z.of_nat r + 1) (Z.of_nat r) else Some s)
    = Some (set_contents s (pack (Z.to_nat (is_encoding s)) l1)) /\
    length l1 = length l /\ take (length l - 1) l1 = take r l ++ drop (S r) l.
Proof.
  intros [He Hl Hc Hf Hs] Hsz Hr. pose proof (enc_mul_bound (zlen l) _ He ltac:(lia)).
  destruct (Z.ltb_spec (Z.of_nat r) (zlen l - 1)).
  - rewrite (moveTail_pack s l (zlen l)) by (done || lia). eexists. split; [done|]. split.
    + rewrite !length_app, !length_take, !length_drop. lia.
    + rewrite Nat2Z.id. replace (Z.to_nat (Z.of_nat r + 1)) with (S r) by lia.
      rewrite app_assoc, take_app_length'.
      * f_equal. apply take_ge. rewrite length_drop. lia.
      * rewrite length_app, !length_take, length_drop. lia.
  - exists l. split; [rewrite <- Hc; by destruct s|]. split; [done|].
    rewrite (drop_ge l (S r)) by lia. rewrite app_nil_r. f_equal. lia.
Qed.

(** *** Insertion with an encoding upgrade *)

Lemma valueEncoding_spec v e :
  in_s 64 v -> enc_ok e ->
  enc_ok (_intsetValueEncoding v) /\ in_s (8 * _intsetValueEncoding v) v /\
  (_intsetValueEncoding v <= e <-> in_s (8 * e) v).
Proof.
  unfold in_s, enc_ok, _intsetValueEncoding, INT32_MIN, INT32_MAX, INT16_MIN, INT16_MAX,
    INTSET_ENC_INT16, INTSET_ENC_INT32, INTSET_ENC_INT64.
  intros Hv He. destruct He as [-> |[-> | ->]]; zbool; simpl; lia.
Qed.

Lemma in_s_mono w w' v : 0 < w <= w' -> in_s w v -> in_s w' v.
Proof.
  unfold in_s. intros Hw Hv. pose proof (Z.pow_le_mono_r 2 (w - 1) (w' - 1)). lia.
Qed.

Lemma upgrade_loop_spec w w' p l k s mid tail :
  enc_ok (Z.of_nat w) -> enc_ok (is_encoding s) -> w' = Z.to_nat (is_encoding s) ->
  (w <= w')%nat -> Forall (in_s (8 * Z.of_nat w)) l ->
  zlen l + Z.of_nat p < 2 ^ 31 -> (k <= length l)%nat ->
  is_contents s = pack w (take k l) ++ mid ++ pack w' (drop k l) ++ tail ->
  length (pack w (take k l) ++ mid) = (w' * (k + p))%nat ->
  exists mid', length mid' = (w' * p)%nat /\
    intsetUpgrade_loop k s (Z.of_nat p) (Z.of_nat w)
    = Some (set_contents s (mid' ++ pack w' l ++ tail)).
Proof.
  intros Hw He Hw' Hle Hf Hsz. revert s mid He Hw'.
  induction k as [|k IH]; intros s mid He Hw' Hk Hc Hlen; cbn [intsetUpgrade_loop].
  { exists mid. split; [done|]. rewrite take_0, drop_0 in *. rewrite pack_nil in *.
    simpl in *. rewrite <- Hc. by destruct s. }
  destruct (lookup_lt_is_Some_2 l k) as [v Hv]; [lia|].
  rewrite (getEncoded_pack s (take (S k) l) _ (mid ++ pack w' (drop (S k) l) ++ tail) _ v);
    [|done|by rewrite Nat2Z.id|by apply Forall_take|rewrite length_take; lia|lia|
     rewrite Nat2Z.id, lookup_take_lt by lia; done].
  mred. rewrite intsetSet_eq, pack_singleton by (done || unfold in_s; lia). rewrite <- Hw'.
  rewrite (take_S_r _ _ _ Hv), pack_app, pack_singleton in Hc, Hlen.
  rewrite !length_app, le_bytes_length, pack_length, length_take, Nat.min_l in Hlen by lia.
  set (rest := le_bytes w v ++ mid) in *.
  set (n := (w' * (k + p) - w * k)%nat).
  assert (Hc2 : is_contents s = (pack w (take k l) ++ take n rest) ++ drop n rest
                   ++ pack w' (drop (S k) l) ++ tail).
  { rewrite Hc. unfold rest at 1. rewrite <- !app_assoc. f_equal.
    rewrite (app_assoc (take n rest)), take_drop. unfold rest. by rewrite <- !app_assoc. }
  rewrite Hc2. rewrite wrn_app; cycle 1.
  { rewrite length_app, pack_length, !length_take, Nat.min_l by lia.
    unfold rest. rewrite length_app, le_bytes_length. unfold enc_ok in He. nia. }
  { rewrite length_drop, le_bytes_length. unfold rest. rewrite length_app, le_bytes_length. nia. }
  mred. destruct (IH (set_contents s ((pack w (take k l) ++ take n rest) ++ le_bytes w' v
                   ++ pack w' (drop (S k) l) ++ tail)) (take n rest)) as (mid' & Hm & ->);
    [done|done|lia| | |].
  - simpl. rewrite (drop_S l v k Hv), pack_cons, <- !app_assoc. done.
  - rewrite length_app, pack_length, !length_take, Nat.min_l by lia.
    unfold rest. rewrite length_app, le_bytes_length. nia.
  - exists mid'. split; [done|]. done.
Qed.

(** Outside the current encoding's range a value is above or below all members. *)
Lemma ins_outside e l v :
  enc_ok e -> Forall (in_s (8 * e)) l -> ~ in_s (8 * e) v -> StronglySorted Z.lt l ->
  (v ∉ l) /\ ins v l = (if v <? 0 then v :: l else l ++ [v]).
Proof.
  intros He Hf Hv Hs.
  assert (Hn : v ∉ l).
  { intros Hin. rewrite Forall_forall in Hf. by apply Hv, Hf. }
  split; [done|]. unfold ins. rewrite decide_False by done.
  assert (Hpos : 0 < 2 ^ (8 * e - 1)) by (apply Z.pow_pos_nonneg; unfold enc_ok in He; lia).
  unfold in_s in *. destruct (Z.ltb_spec v 0).
  - rewrite rank_0; [by rewrite take_0|].
    eapply Forall_impl; [exact Hf|]. simpl. intros. lia.
  - assert (rank v l = length l) as ->.
    { unfold rank. rewrite filter_all; [done|].
      eapply Forall_impl; [exact Hf|]. simpl. intros. lia. }
    by rewrite firstn_all, drop_all.
Qed.

(** The resize and the copy loop leave a free slot in front or at the end. *)
Lemma upgrade_copy s l e' p :
  rep s l -> enc_ok e' -> is_encoding s <= e' -> 8 * (zlen l + 1) < 2 ^ 32 -> (p <= 1)%nat ->
  exists s1 mid tail,
    intsetResize junk (Mk e' (zlen l) (is_contents s)) (zlen l + 1) = Some s1 /\
    intsetUpgrade_loop (length l) s1 (Z.of_nat p) (is_encoding s)
    = Some (Mk e' (zlen l) (mid ++ pack (Z.to_nat e') l ++ tail)) /\
    length mid = (Z.to_nat e' * p)%nat /\ length tail = (Z.to_nat e' * (1 - p))%nat.
Proof using junk_ok.
  intros [He Hl Hc Hf Hs] He' Hle Hsz Hp. unfold intsetResize. cbn [is_encoding is_contents].
  pose proof (enc_mul_bound (zlen l + 1) _ He' ltac:(lia)) as Hb.
  rewrite uwrap_id by (unfold in_u; lia). rewrite Hc.
  destruct (Z.leb_spec ((zlen l + 1) * e') (SIZE_MAX - sizeof_intset));
    [|unfold SIZE_MAX, sizeof_intset in *; lia].
  set (w := Z.to_nat (is_encoding s)) in *. set (w' := Z.to_nat e').
  assert (Hw : Z.of_nat w = is_encoding s) by (unfold enc_ok in He; lia).
  assert (Hw' : Z.of_nat w' = e') by (unfold enc_ok in He'; lia).
  assert (Hww : (w <= w')%nat) by lia.
  destruct (zrealloc_grow junk (pack w l) ((zlen l + 1) * e')) as (bs & -> & Hbs & Hlen);
    [done|rewrite pack_length; nia|]. rewrite pack_length in Hlen.
  set (n := (w' * (length l + p) - w * length l)%nat).
  destruct (upgrade_loop_spec w w' p l (length l) (Mk e' (zlen l) (pack w l ++ bs))
    (take n bs) (drop n bs)) as (mid & Hm & Hloop); rewrite ?Hw; try (done || lia).
  - rewrite firstn_all, drop_all, pack_nil. simpl. by rewrite take_drop.
  - rewrite firstn_all, length_app, pack_length, length_take. nia.
  - do 3 eexists. split; [done|]. split; [|split; [done|]].
    + rewrite Hw in Hloop. exact Hloop.
    + rewrite length_drop. nia.
Qed.

Lemma upgradeAndAdd_spec s l v :
  rep s l -> 8 * (zlen l + 1) < 2 ^ 32 -> in_s 64 v -> is_encoding s < _intsetValueEncoding v ->
  exists s', intsetUpgradeAndAdd junk s v = Some s' /\ rep s' (ins v l) /\ v ∉ l.
Proof using junk_ok.
  intros Hr Hsz Hv Hlt. pose proof Hr as [He Hl Hc Hf Hs].
  destruct (valueEncoding_spec v (is_encoding s) Hv He) as (He' & Hv' & Hiff).
  destruct (ins_outside _ l v He Hf) as [Hn Hins]; [rewrite <- Hiff; lia|done|].
  pose proof (ins_sorted v l Hs) as Hs'. rewrite Hins in *. clear Hiff Hins.
  unfold intsetUpgradeAndAdd. set (e' := _intsetValueEncoding v) in *. clearbody e'.
  cbn [is_encoding is_length is_contents]. rewrite Hl, uwrap_id by (unfold in_u; lia).
  assert (Hf' : Forall (in_s (8 * e')) l).
  { eapply Forall_impl; [exact Hf|]. intros x. apply in_s_mono. unfold enc_ok in *; lia. }
  destruct (upgrade_copy s l e' (if v <? 0 then 1%nat else 0%nat))
    as (s1 & mid & tail & -> & Hloop & Hm & Ht); [done|done|lia|done|destruct (v <? 0); lia|].
  mred. rewrite Nat2Z.id.
  replace (if v <? 0 then 1 else 0) with (Z.of_nat (if v <? 0 then 1 else 0)) by by destruct (v <? 0).
  rewrite Hloop. mred. destruct (v <? 0); simpl in Hm, Ht;
    rewrite intsetSet_eq by (done || unfold in_s; simpl; lia);
    cbn [is_encoding is_contents is_length].
  - rewrite Z.mul_0_r, wrn_0 by (rewrite ?pack_length; simpl; lia).
    rewrite (nil_length_inv tail) by lia. rewrite app_nil_r.
    mred. eexists. split; [done|]. split; [|done]. cbn [is_encoding is_length is_contents set_contents].
    rewrite uwrap_id by (unfold in_u; lia). split; simpl; [done|lia| |by constructor|done].
    by rewrite <- (pack_app _ [v] l).
  - rewrite (nil_length_inv mid) by lia. simpl.
    rewrite wrn_end by (rewrite ?pack_length; unfold enc_ok in He'; simpl; nia).
    mred. eexists. split; [done|]. split; [|done]. cbn [is_encoding is_length is_contents set_contents].
    rewrite uwrap_id by (unfold in_u; lia). split; simpl; [done| | | |done].
    + rewrite length_app. simpl. lia.
    + by rewrite pack_app.
    + apply Forall_app. split; [done|by apply Forall_singleton].
Qed.

(** ** Theorems *)

(** C17: [intsetAdd] implements insertion into a sorted set of integers, for
    every 64 bit value and across the encoding upgrades (int16 to int32 to
    int64): it stays inside its block, reports success exactly when the value
    was absent, and the bytes it leaves represent the old members plus the new
    one, strictly sorted. The size bound is the one under which the byte count
    of [intsetMoveTail] does not wrap. *)
Theorem intsetAdd_correct s l v :
  rep s l -> 8 * (zlen l + 1) < 2 ^ 32 -> in_s 64 v ->
  exists s', intsetAdd junk s v = Some (s', bool_decide (v ∉ l)) /\ rep s' (ins v l) /\
    (forall x, x ∈ ins v l <-> x = v \/ x ∈ l).
Proof using junk_ok.
  intros Hr Hsz Hv.
  destruct (valueEncoding_spec v (is_encoding s) Hv (rep_enc _ _ Hr)) as (_ & _ & Hiff).
  destruct (Z.le_gt_cases (_intsetValueEncoding v) (is_encoding s)) as [Hle|Hgt].
  - destruct (add_same_enc s l v Hr Hsz) as (s' & ? & ?); [by apply Hiff|done|].
    eauto using elem_of_ins.
  - destruct (upgradeAndAdd_spec s l v Hr Hsz Hv) as (s' & Hup & Hr' & Hn); [lia|].
    exists s'. unfold intsetAdd. rw_true (_intsetValueEncoding v >? is_encoding s).
    rewrite Hup. mred. rewrite bool_decide_true by done. auto using elem_of_ins.
Qed.

Lemma find_spec s l v :
  rep s l -> zlen l < 2 ^ 31 -> in_s 64 v -> intsetFind s v = Some (bool_decide (v ∈ l)).
Proof.
  intros Hr Hsz Hv. unfold intsetFind.
  destruct (valueEncoding_spec v (is_encoding s) Hv (rep_enc _ _ Hr)) as (_ & _ & Hiff).
  destruct (Z.leb_spec (_intsetValueEncoding v) (is_encoding s)).
  - by rewrite (search_spec s l v).
  - rewrite bool_decide_false; [done|]. intros Hin.
    pose proof (rep_fits _ _ Hr) as Hf. rewrite Forall_forall in Hf. apply Hf, Hiff in Hin. lia.
Qed.

(** [intsetRemove] deletes exactly the given value: it reports success iff
    the value was a member, never accesses memory outside the block, and the
    result represents the remaining members. *)
Theorem intsetRemove_correct s l v :
  rep s l -> 8 * zlen l < 2 ^ 32 -> in_s 64 v ->
  exists s', intsetRemove junk s v = Some (s', bool_decide (v ∈ l)) /\ rep s' (del v l).
Proof using junk_ok.
  intros Hr Hsz Hv. pose proof Hr as [He Hl Hc Hf Hs].
  destruct (valueEncoding_spec v (is_encoding s) Hv He) as (_ & _ & Hiff).
  unfold intsetRemove. rewrite (search_spec s l v) by (done || lia). mred.
  destruct (decide (v ∈ l)) as [Hin|Hin]; cycle 1.
  { rewrite bool_decide_false by done. exists s. split; [by destruct (_ <=? _)|].
    unfold del. rewrite filter_all; [done|]. apply Forall_forall. by intros x ? ->. }
  rewrite bool_decide_true by done.
  assert (Hfit : in_s (8 * is_encoding s) v) by (rewrite Forall_forall in Hf; by apply Hf).
  apply Hiff in Hfit. rw_true (_intsetValueEncoding v <=? is_encoding s).
  pose proof (lookup_rank v l Hs Hin) as Hlk. apply lookup_lt_Some in Hlk.
  pose proof (del_sorted v l Hs) as Hs'. rewrite (del_split v l) in * by done.
  set (r := rank v l) in *. rewrite Hl, uwrap_id by (unfold in_u; lia).
  pose proof (enc_mul_bound (zlen l) _ He ltac:(lia)).
  destruct (close_gap s l r) as (l1 & -> & Hl1 & Htk); [done..|].
  mred. unfold intsetResize. cbn [is_encoding is_contents set_contents].
  rewrite uwrap_id by (unfold in_u, enc_ok in *; nia).
  destruct (Z.leb_spec ((zlen l - 1) * is_encoding s) (SIZE_MAX - sizeof_intset));
    [|unfold SIZE_MAX, sizeof_intset, enc_ok in *; nia]. mred.
  eexists. split; [done|]. cbn [is_encoding is_length is_contents set_contents].
  split; cbn [is_encoding is_length is_contents]; [done| | | |done].
  - rewrite length_app, length_take, length_drop. lia.
  - rewrite zrealloc_shrink by (rewrite pack_length; unfold enc_ok in He; nia).
    replace (Z.to_nat ((zlen l - 1) * is_encoding s))
      with (Z.to_nat (is_encoding s) * (length l - 1))%nat by (unfold enc_ok in He; nia).
    by rewrite take_pack, Htk.
  - apply Forall_app. split; [by apply Forall_take|by apply Forall_drop].
Qed.

End Junk.

(** The queries answer from the represented set: [intsetFind] decides
    membership, [intsetGet] returns the element at a position or reports that
    it is out of range, [intsetLen] is the number of members and
    [intsetMin]/[intsetMax] are its bounds. *)
Theorem intset_queries_correct s l v i :
  rep s l -> zlen l < 2 ^ 31 -> in_s 64 v -> 0 <= i ->
  intsetFind s v = Some (bool_decide (v ∈ l)) /\
  intsetGet s i = Some (l !! Z.to_nat i) /\
  intsetLen s = zlen l /\
  (l <> [] -> exists lo hi, intsetMin s = Some lo /\ intsetMax s = Some hi /\
    lo ∈ l /\ hi ∈ l /\ forall x, x ∈ l -> lo <= x <= hi).
Proof.
  intros Hr Hsz Hv Hi. pose proof Hr as [He Hl Hc Hf Hs].
  split; [by apply find_spec|]. split.
  { unfold intsetGet. rewrite Hl. destruct (Z.ltb_spec i (zlen l)).
    - destruct (lookup_lt_is_Some_2 l (Z.to_nat i)) as [x Hx]; [lia|].
      rewrite (intsetGet_rep s l i x) by done. by rewrite Hx.
    - rewrite lookup_ge_None_2 by lia. done. }
  split; [done|]. intros Hne.
  assert (0 < length l)%nat by (by destruct l; simpl; [|lia]).
  destruct (lookup_lt_is_Some_2 l 0%nat) as [lo Hlo]; [lia|].
  destruct (lookup_lt_is_Some_2 l (length l - 1)) as [hi Hhi]; [lia|].
  exists lo, hi. split_and!.
  - by apply (intsetGet_rep s l).
  - unfold intsetMax. rewrite Hl, uwrap_id by (unfold in_u; lia).
    apply (intsetGet_rep s l); [done|done|lia|]. rewrite <- Hhi. f_equal. lia.
  - apply list_elem_of_lookup; eauto.
  - apply list_elem_of_lookup; eauto.
  - intros x [j Hj]%list_elem_of_lookup. pose proof (lookup_lt_Some _ _ _ Hj). split.
    + destruct j; [simplify_eq; lia|].
      pose proof (sorted_lookup_lt l _ _ _ _ Hs Hlo Hj). lia.
    + destruct (decide (j = length l - 1)%nat) as [-> |]; [simplify_eq; lia|].
      pose proof (sorted_lookup_lt l _ _ _ _ Hs Hj Hhi). lia.
Qed.

(** *** Integrity validation of an untrusted payload *)

Lemma of_blob_blob s :
  in_u 32 (is_encoding s) -> in_u 32 (is_length s) -> of_blob (blob s) = Some s.
Proof.
  intros He Hl. unfold of_blob, blob.
  rewrite rdn_0, rdn_app by (by rewrite ?le_bytes_length).
  mred. rewrite !le_val_bytes. change (8 * Z.of_nat 4) with 32.
  rewrite !Z.mod_small by done. by destruct s.
Qed.

Lemma validate_loop_spec fuel s l i prev :
  enc_ok (is_encoding s) -> is_contents s = pack (Z.to_nat (is_encoding s)) l ->
  Forall (in_s (8 * is_encoding s)) l -> zlen l < 2 ^ 31 ->
  0 <= i <= zlen l -> (Z.to_nat (zlen l - i) < fuel)%nat ->
  exists b, intsetValidate_loop fuel s i (zlen l) prev = Some b /\
    (b = true <-> Sorted Z.lt (prev :: drop (Z.to_nat i) l)).
Proof.
  intros He Hc Hf Hsz. revert i prev.
  induction fuel as [|fuel IH]; intros i prev Hi Hfuel; [lia|]. cbn [intsetValidate_loop].
  destruct (Z.ltb_spec i (zlen l)).
  - destruct (lookup_lt_is_Some_2 l (Z.to_nat i)) as [c Hl]; [lia|].
    rewrite (drop_S l c) by done. unfold _intsetGet.
    rewrite (getEncoded_pack s l _ [] i c);
      [mred|done|by rewrite app_nil_r|done|done|lia|done].
    destruct (Z.leb_spec c prev).
    + exists false. split; [done|]. split; [done|].
      intros [_ Hh%HdRel_inv]%Sorted_inv. lia.
    + destruct (IH (i + 1) c) as (b & -> & Hb); [lia..|]. exists b. split; [done|].
      replace (Z.to_nat (i + 1)) with (S (Z.to_nat i)) in Hb by lia. rewrite Hb. split.
      * intros. by constructor; [|constructor].
      * by intros [? _]%Sorted_inv.
  - exists true. split; [done|]. rewrite drop_ge by lia. by repeat constructor.
Qed.

Lemma pack_inj e l l' :
  enc_ok e -> Forall (in_s (8 * e)) l -> Forall (in_s (8 * e)) l' ->
  pack (Z.to_nat e) l = pack (Z.to_nat e) l' -> l = l'.
Proof.
  intros He Hl. revert l'. induction Hl as [|x l Hx Hl IH]; intros l' Hl' Heq;
    destruct Hl' as [|y l' Hy Hl']; [done|..].
  1,2: apply (f_equal length) in Heq; rewrite !pack_length in Heq; unfold enc_ok in He;
    simpl in Heq; nia.
  rewrite !pack_cons in Heq.
  apply app_inj_1 in Heq as [Hxy Hr]; [|by rewrite !le_bytes_length].
  f_equal; [|by apply IH]. rewrite <- (swrap_le_val e x), <- (swrap_le_val e y) by done.
  by rewrite Hxy.
Qed.

Lemma validate_body s :
  enc_ok (is_encoding s) -> bytes_ok (is_contents s) -> 0 < is_length s < 2 ^ 31 ->
  zlen (is_contents s) = is_length s * is_encoding s ->
  exists b,
    (prev ← _intsetGet s 0;
     intsetValidate_loop (S (Z.to_nat (is_length s))) s 1 (is_length s) prev) = Some b /\
    (b = true <-> exists l, l <> [] /\ rep s l).
Proof.
  intros He Hc Hn Hlen.
  destruct (unpack (Z.to_nat (is_encoding s)) (Z.to_nat (is_length s)) (is_contents s))
    as (l & Hll & Hlc & Hlf); [unfold enc_ok in He; lia|done|unfold enc_ok in He; nia|].
  rewrite Z2Nat.id in Hlf by (unfold enc_ok in He; lia).
  assert (HL : is_length s = zlen l) by lia.
  destruct l as [|x l']; [simpl in *; lia|]. unfold _intsetGet.
  rewrite (getEncoded_pack s (x :: l') _ [] 0 x);
    [|done|by rewrite app_nil_r|done|lia|lia|done].
  mred. rewrite HL. destruct (validate_loop_spec (S (Z.to_nat (zlen (x :: l')))) s (x :: l') 1 x)
    as (b & -> & Hb); [done|done|done|lia|simpl; lia|lia|].
  exists b. split; [done|]. rewrite Hb. replace (drop (Z.to_nat 1) (x :: l')) with l' by done. split.
  - intros Hs. exists (x :: l'). split; [done|].
    split; try done. apply Sorted_StronglySorted; [|done]. intros ???; lia.
  - intros (l0 & _ & [_ _ Hc0 Hf0 Hs0]).
    rewrite (pack_inj (is_encoding s) (x :: l') l0); [|done..|congruence].
    by apply StronglySorted_Sorted.
Qed.

(** Deep validation of a payload (a restored key) is memory safe on any
    bytes and accepts exactly the payloads that represent a non-empty, strictly
    sorted set with a legal encoding, which is what the operations require. *)
Theorem intsetValidateIntegrity_correct p :
  bytes_ok p -> zlen p < 2 ^ 32 ->
  exists b, intsetValidateIntegrity p (zlen p) true = Some b /\
    (b = true <-> exists s l, of_blob p = Some s /\ l <> [] /\ rep s l).
Proof.
  intros Hp Hsz. unfold intsetValidateIntegrity.
  destruct (Z.ltb_spec (zlen p) sizeof_intset) as [Hlt|Hge]; unfold sizeof_intset in *.
  { exists false. split; [done|]. split; [done|]. intros (s & l & Hb & _). unfold of_blob in Hb.
    destruct (rdn p 0 4); [|done]. simpl in Hb.
    destruct (rdn p 4 4) eqn:E; [|done]. apply rdn_Some in E. lia. }
  unfold of_blob.
  destruct (rdn p 0 4) as [be|] eqn:Ee; [|unfold rdn in Ee; zbool; done || lia].
  destruct (rdn p 4 4) as [bl|] eqn:El; [|unfold rdn in El; zbool; done || lia].
  mred. cbn [is_encoding is_length is_contents].
  assert (Hl : 0 <= le_val bl < 2 ^ 32).
  { pose proof (rdn_length _ _ _ _ El) as Hb4. apply rdn_Some in El as (?&?&?&->).
    replace 32 with (8 * zlen (take (Z.to_nat 4) (drop (Z.to_nat 4) p))) by lia.
    apply le_val_range, Forall_take, Forall_drop. done. }
  set (e := le_val be) in *. set (n := le_val bl) in *.
  assert (Hcl : zlen (drop 8 p) = zlen p - 8) by (rewrite length_drop; lia).
  destruct ((e =? INTSET_ENC_INT64) || (e =? INTSET_ENC_INT32) || (e =? INTSET_ENC_INT16)) eqn:Eb.
  2: { exists false. split; [done|]. split; [done|]. intros (s & l & [= <-] & _ & [He _ _ _ _]).
       unfold enc_ok, INTSET_ENC_INT64, INTSET_ENC_INT32, INTSET_ENC_INT16 in *. simpl in He. lia. }
  assert (He : enc_ok e).
  { unfold enc_ok, INTSET_ENC_INT64, INTSET_ENC_INT32, INTSET_ENC_INT16 in *. lia. }
  pose proof (enc_mul_bound n e He ltac:(lia)) as Hne.
  rewrite (uwrap_id 64 (n * e)), uwrap_id by (unfold in_u; lia).
  destruct (Z.eqb_spec (8 + n * e) (zlen p)) as [Hs|Hs];
    cbn [negb].
  2: { exists false. split; [done|]. split; [done|]. intros (s & l & [= <-] & _ & [_ Hn Hc _ _]).
       simpl in Hn, Hc. rewrite Hc, pack_length in Hcl. unfold enc_ok in He. nia. }
  destruct (Z.eqb_spec n 0) as [Hn0|Hn0].
  { exists false. split; [done|]. split; [done|]. intros (s & l & [= <-] & Hne' & [_ Hn _ _ _]).
    simpl in Hn. destruct l; [done|]. simpl in Hn. lia. }
  destruct (validate_body (Mk e n (drop 8 p))) as (b & Hb & Hiff);
    cbn [is_encoding is_length is_contents]; [done|by apply Forall_drop| |lia|].
  { unfold enc_ok in He. nia. }
  exists b. split; [exact Hb|]. rewrite Hiff. split.
  - intros (l & ? & ?). eauto.
  - intros (s & l & [= <-] & ? & ?). eauto.
Qed.

(** The byte count of [intsetMoveTail] is a 32 bit product: with [2^29]
    members in the 64 bit encoding, opening a gap at the front moves no byte at
    all, so the insertion that follows overwrites the first member. The limit
    of [2^30] entries in [t_set.c] does not exclude this size. *)
Theorem intsetMoveTail_wraps s :
  is_encoding s = INTSET_ENC_INT64 -> is_length s = 2 ^ 29 ->
  zlen (is_contents s) = 8 * (2 ^ 29 + 1) ->
  intsetMoveTail s 0 1 = Some s.
Proof.
  intros He Hl Hc. unfold intsetMoveTail. rewrite He, Hl.
  change (uwrap 32 (uwrap 32 (2 ^ 29 - 0) * 8)) with 0.
  change (INTSET_ENC_INT64 =? INTSET_ENC_INT64) with true. cbn match.
  unfold memmove, rdn, wrn. rewrite Hc. simpl. rewrite take_drop. by destruct s.
Qed.

(** ** Witnesses *)

Definition example_set : intset := Mk 2 2 (pack 2 [1; 5]).

Lemma example_set_rep : rep example_set [1; 5].
Proof.
  split; try done.
  - by left.
  - by repeat constructor.
  - by repeat constructor.
Qed.

Lemma intsetAdd_correct_witness :
  exists s', intsetAdd (fun _ => 7) example_set 70000 = Some (s', true) /\
    rep s' [1; 5; 70000].
Proof.
  destruct (intsetAdd_correct (fun _ => 7) ltac:(intros; unfold byte_ok; lia)
    example_set [1; 5] 70000 example_set_rep) as (s' & H1 & H2 & _).
  - simpl. lia.
  - unfold in_s. lia.
  - exists s'. split; [exact H1|exact H2].
Defined.

Lemma intsetRemove_correct_witness :
  exists s', intsetRemove (fun _ => 7) example_set 1 = Some (s', true) /\ rep s' [5].
Proof.
  destruct (intsetRemove_correct (fun _ => 7) ltac:(intros; unfold byte_ok; lia)
    example_set [1; 5] 1 example_set_rep) as (s' & H1 & H2).
  - simpl. lia.
  - unfold in_s. lia.
  - exists s'. split; [exact H1|exact H2].
Defined.

Lemma intset_queries_correct_witness :
  intsetFind example_set 5 = Some true /\ intsetGet example_set 1 = Some (Some 5).
Proof.
  destruct (intset_queries_correct example_set [1; 5] 5 1 example_set_rep) as (H1 & H2 & _).
  - simpl. lia.
  - unfold in_s. lia.
  - lia.
  - split; [exact H1|exact H2].
Defined.

Lemma intsetValidateIntegrity_correct_witness :
  exists b, intsetValidateIntegrity (blob example_set) 12 true = Some b /\ b = true.
Proof.
  destruct (intsetValidateIntegrity_correct (blob example_set)) as (b & H1 & H2).
  - unfold blob. repeat apply Forall_app_2; auto with bytes.
  - vm_compute. done.
  - exists b. split; [exact H1|]. apply H2. exists example_set, [1; 5].
    split; [reflexivity|]. split; [done|apply example_set_rep].
Defined.

Lemma intsetMoveTail_wraps_witness :
  let s := Mk INTSET_ENC_INT64 (2 ^ 29) (repeat 0 (Z.to_nat (8 * (2 ^ 29 + 1)))) in
  intsetMoveTail s 0 1 = Some s.
Proof.
  cbv zeta. apply intsetMoveTail_wraps; [reflexivity..|].
  cbn [is_contents]. rewrite repeat_length. rewrite Z2Nat.id; lia.
Defined.

End Intset.
