(* ===== verification/FwTree.v ===== *)
(** * The Fenwick tree ([redis-stable/src/fwtree.c])

    The binary indexed tree with which the keyspace ([kvstore]) counts the keys
    of its hash slots: point updates, prefix sums and the search for the slot
    that holds the n-th key. *)

From S2P Require Import Prelude.

Module FwTree.

(** ** Data and operations *)

(** [struct _fenwickTree]; a [fenwickTree *] is an [option]: [None] is [NULL]. *)
Record fenwickTree := Mk {
  ft_tree : list Z;
  ft_size_bits : Z;
  ft_size : Z;
  ft_total : Z
}.

Definition fwTreeCreate (sizeBits : Z) : fenwickTree :=
  let size := Z.shiftl 1 sizeBits in
  Mk (replicate (Z.to_nat (size + 1)) 0) sizeBits size 0.

(** [idx & -idx] *)
Definition lowbit (i : Z) : Z := Z.land i (- i).

Fixpoint prefixSum_loop (fuel : nat) (tree : list Z) (idx sum : Z) : option Z :=
  match fuel with
  | O => None
  | S fuel =>
    if idx >? 0 then
      t ← rd tree idx;
      prefixSum_loop fuel tree (idx - lowbit idx) (uwrap 64 (sum + t))
    else Some sum
  end.

Definition fwTreePrefixSum (ft : option fenwickTree) (idx : Z) : option Z :=
  match ft with
  | None => Some 0
  | Some ft =>
    if idx <? 0 then Some 0
    else
      let idx := if idx >=? ft_size ft then ft_size ft - 1 else idx in
      let idx := idx + 1 in
      prefixSum_loop (S (Z.to_nat idx)) (ft_tree ft) idx 0
  end.

(** A failed [assert] is [None], and so is an overflow of [int idx]. *)
Fixpoint update_loop (fuel : nat) (tree : list Z) (size idx delta : Z) : option (list Z) :=
  match fuel with
  | O => None
  | S fuel =>
    if idx <=? size then
      t ← rd tree idx;
      if (delta <? 0) && negb (t >=? uwrap 64 (- delta)) then None
      else
        next ← schk 32 (idx + lowbit idx);
        update_loop fuel (<[Z.to_nat idx := uwrap 64 (t + delta)]> tree) size next delta
    else Some tree
  end.

Definition fwTreeUpdate (ft : option fenwickTree) (idx delta : Z) : option (option fenwickTree) :=
  match ft with
  | None => Some None
  | Some ft =>
    if (idx <? 0) || (idx >=? ft_size ft) then Some (Some ft)
    else
      let idx := idx + 1 in
      let total := uwrap 64 (ft_total ft + delta) in
      tree ← update_loop (S (Z.to_nat (ft_size ft))) (ft_tree ft) (ft_size ft) idx delta;
      Some (Some (Mk tree (ft_size_bits ft) (ft_size ft) total))
  end.

(** [for (int i = bit_mask; i != 0; i >>= 1)] *)
Fixpoint findIndex_loop (fuel : nat) (tree : list Z) (i result target : Z) : option Z :=
  match fuel with
  | O => None
  | S fuel =>
    if i =? 0 then Some result
    else
      let current := result + i in
      t ← rd tree current;
      if target >? t
      then findIndex_loop fuel tree (Z.shiftr i 1) current (target - t)
      else findIndex_loop fuel tree (Z.shiftr i 1) result target
  end.

Definition fwTreeFindIndex (ft : fenwickTree) (target : Z) : option Z :=
  if target <=? 0 then Some 0
  else
    let bit_mask := Z.shiftl 1 (ft_size_bits ft) in
    findIndex_loop (S (S (Z.to_nat (ft_size_bits ft)))) (ft_tree ft) bit_mask 0 target.

Definition fwTreeFindFirstNonEmpty (ft : fenwickTree) : option Z := fwTreeFindIndex ft 1.

Definition fwTreeFindNextNonEmpty (ft : option fenwickTree) (idx : Z) : option Z :=
  match ft with
  | None => Some (-1)
  | Some f =>
    if (idx <? 0) || (idx >=? ft_size f) then Some (-1)
    else
      s ← fwTreePrefixSum ft idx;
      let next_sum := uwrap 64 (s + 1) in
      if next_sum <=? ft_total f then fwTreeFindIndex f next_sum else Some (-1)
  end.

Definition fwTreeClear (ft : fenwickTree) : fenwickTree :=
  Mk (replicate (Z.to_nat (ft_size ft + 1)) 0) (ft_size_bits ft) (ft_size ft) 0.

(** ** Representation: the array of counters behind the tree *)

Definition sumZ (l : list Z) : Z := foldr Z.add 0 l.
Definition psum (xs : list Z) (n : Z) : Z := sumZ (take (Z.to_nat n) xs).

(** [repr ft xs]: node [i] holds the sum of the [lowbit i] counters that end at
    counter [i - 1].  The tree has at most 2^29 counters, so that the [int]
    cursor of [fwTreeUpdate] cannot overflow ([update_overflows] below); the
    keyspace asks for 2^14. *)
Record repr (ft : fenwickTree) (xs : list Z) : Prop := {
  repr_bits : 0 <= ft_size_bits ft < 30;
  repr_size : ft_size ft = 2 ^ ft_size_bits ft;
  repr_len : zlen xs = ft_size ft;
  repr_tlen : zlen (ft_tree ft) = ft_size ft + 1;
  repr_node : forall i, 1 <= i <= ft_size ft ->
    rd (ft_tree ft) i = Some (psum xs i - psum xs (i - lowbit i));
  repr_nonneg : Forall (fun x => 0 <= x) xs;
  repr_total : ft_total ft = sumZ xs;
  repr_bound : sumZ xs < 2 ^ 64
}.

(** *** The lowest set bit *)

Lemma land_odd_opp m : Z.land (2 * m + 1) (- (2 * m + 1)) = 1.
Proof.
  replace (- (2 * m + 1)) with (2 * Z.lnot m + 1) by (unfold Z.lnot; lia).
  apply Z.bits_inj'. intros n Hn. rewrite Z.land_spec.
  destruct (Z.eq_dec n 0) as [->|Hn0].
  - by rewrite !Z.testbit_odd_0.
  - replace n with (Z.succ (n - 1)) by lia.
    rewrite !Z.testbit_odd_succ by lia. rewrite Z.lnot_spec by lia.
    rewrite andb_negb_r. change 1 with (2 * 0 + 1). rewrite Z.testbit_odd_succ by lia.
    by rewrite Z.bits_0.
Qed.

Lemma lowbit_odd m : lowbit (2 * m + 1) = 1.
Proof. apply land_odd_opp. Qed.

Lemma lowbit_double i : lowbit (2 * i) = 2 * lowbit i.
Proof.
  unfold lowbit. rewrite <- Z.mul_opp_r, !(Z.mul_comm 2).
  change 2 with (2 ^ 1). rewrite <- !Z.shiftl_mul_pow2 by lia.
  by rewrite Z.shiftl_land.
Qed.

Lemma lowbit_spec k m : 0 <= k -> lowbit (2 ^ k * (2 * m + 1)) = 2 ^ k.
Proof.
  intros Hk. revert k Hk. apply natlike_ind.
  - rewrite Z.pow_0_r, !Z.mul_1_l. apply lowbit_odd.
  - intros k Hk IH. rewrite Z.pow_succ_r, <- Z.mul_assoc, lowbit_double by lia. by rewrite IH.
Qed.

(** Every positive number is [2^k * odd]. *)
Lemma odd_part i : 0 < i -> exists k m, 0 <= k /\ 0 <= m /\ i = 2 ^ k * (2 * m + 1).
Proof.
  intros Hi. destruct i as [|p|p]; try lia. clear Hi. induction p as [p IH|p IH|].
  - exists 0, (Zpos p). lia.
  - destruct IH as (k & m & Hk & Hm & IH). exists (k + 1), m.
    rewrite Z.pow_add_r by lia. lia.
  - by exists 0, 0.
Qed.

Lemma lowbit_bounds i : 0 < i -> 0 < lowbit i <= i.
Proof.
  intros Hi. destruct (odd_part i Hi) as (k & m & Hk & Hm & ->).
  rewrite lowbit_spec by done. pose proof (pow2_pos k Hk). split; [done|]. apply Z.le_mul_diag_r; lia.
Qed.

(** The node after [i] on an update path covers what [i] covers. *)
Lemma lowbit_parent i : 0 < i -> i + lowbit i - lowbit (i + lowbit i) <= i - lowbit i.
Proof.
  intros Hi. destruct (odd_part i Hi) as (k & m & Hk & Hm & ->).
  rewrite lowbit_spec by done.
  destruct (odd_part (m + 1)) as (k' & m' & Hk' & Hm' & Hm1); [lia|].
  replace (2 ^ k * (2 * m + 1) + 2 ^ k) with (2 ^ (k + 1 + k') * (2 * m' + 1))
    by (rewrite !Z.pow_add_r, <- Z.mul_assoc, <- Hm1 by lia; lia).
  rewrite lowbit_spec by lia.
  pose proof (Z.pow_le_mono_r 2 (k + 1) (k + 1 + k') ltac:(lia) ltac:(lia)) as Hmono.
  rewrite !Z.pow_add_r, <- Z.mul_assoc, <- Hm1 in * by lia. lia.
Qed.

(** The nodes strictly between [i] and the next one cover nothing up to [i]. *)
Lemma lowbit_between i j : 0 < i -> i < j < i + lowbit i -> i <= j - lowbit j.
Proof.
  intros Hi. destruct (odd_part i Hi) as (k & m & Hk & Hm & ->).
  rewrite lowbit_spec by done. intros Hj.
  destruct (odd_part (j - 2 ^ k * (2 * m + 1))) as (k' & m' & Hk' & Hm' & Hr); [lia|].
  pose proof (pow2_pos k' Hk') as Hp.
  assert (Hle : 2 ^ k' <= 2 ^ k' * (2 * m' + 1)) by (apply Z.le_mul_diag_r; lia).
  assert (k' < k) by (apply (Z.pow_lt_mono_r_iff 2); lia).
  assert (Hj' : j = 2 ^ k' * (2 * (m' + 2 ^ (k - k' - 1) * (2 * m + 1)) + 1)).
  { assert (Hk2 : 2 ^ k = 2 ^ k' * (2 * 2 ^ (k - k' - 1))).
    { rewrite <- Z.pow_succ_r, <- Z.pow_add_r by lia. f_equal. lia. }
    rewrite Hk2 in Hr. lia. }
  replace (lowbit j) with (2 ^ k') by (rewrite Hj', lowbit_spec; lia). lia.
Qed.

(** *** Sums *)

Lemma sumZ_app l1 l2 : sumZ (l1 ++ l2) = sumZ l1 + sumZ l2.
Proof. unfold sumZ. induction l1; simpl; lia. Qed.

Lemma sumZ_nonneg l : Forall (fun x => 0 <= x) l -> 0 <= sumZ l.
Proof. unfold sumZ. induction 1; simpl; lia. Qed.

Lemma psum_0 xs n : n <= 0 -> psum xs n = 0.
Proof. intros. unfold psum. by replace (Z.to_nat n) with 0%nat by lia. Qed.

Lemma psum_all xs n : zlen xs <= n -> psum xs n = sumZ xs.
Proof. intros. unfold psum. by rewrite take_ge by lia. Qed.

Lemma psum_succ xs n x : 0 <= n -> xs !! Z.to_nat n = Some x -> psum xs (n + 1) = psum xs n + x.
Proof.
  intros Hn Hx. unfold psum. replace (Z.to_nat (n + 1)) with (S (Z.to_nat n)) by lia.
  rewrite (take_S_r _ _ _ Hx), sumZ_app. simpl. lia.
Qed.

Lemma psum_mono xs a b : Forall (fun x => 0 <= x) xs -> a <= b -> psum xs a <= psum xs b.
Proof.
  intros Hx Hab. unfold psum.
  replace (take (Z.to_nat a) xs) with (take (Z.to_nat a) (take (Z.to_nat b) xs))
    by (rewrite take_take; f_equal; lia).
  rewrite <- (take_drop (Z.to_nat a) (take (Z.to_nat b) xs)) at 2.
  rewrite sumZ_app. pose proof (sumZ_nonneg (drop (Z.to_nat a) (take (Z.to_nat b) xs))) as Hd.
  specialize (Hd ltac:(by apply Forall_drop, Forall_take)). lia.
Qed.

Lemma psum_bounds xs n : Forall (fun x => 0 <= x) xs -> 0 <= psum xs n <= sumZ xs.
Proof.
  intros Hx. split.
  - apply sumZ_nonneg, Forall_take, Hx.
  - rewrite <- (psum_all xs (Z.max n (zlen xs))) by lia. apply psum_mono; [done|lia].
Qed.

(** Changing one counter shifts the prefix sums past it. *)
Lemma psum_insert xs p x d n :
  0 <= p -> xs !! Z.to_nat p = Some x ->
  psum (<[Z.to_nat p := x + d]> xs) n = psum xs n + (if p <? n then d else 0).
Proof.
  intros Hp Hx. unfold psum. pose proof (lookup_lt_Some _ _ _ Hx) as Hlt.
  destruct (Z.ltb_spec p n).
  - rewrite take_insert_lt by lia.
    assert (Ht : take (Z.to_nat n) xs !! Z.to_nat p = Some x) by (by rewrite lookup_take_lt by lia).
    rewrite insert_take_drop by (by apply lookup_lt_Some in Ht).
    rewrite <- (take_drop_middle _ _ _ Ht) at 3. rewrite !sumZ_app. simpl. lia.
  - rewrite take_insert_ge by lia. lia.
Qed.

(** *** Prefix sums *)

Lemma prefixSum_loop_spec ft xs fuel idx sum :
  repr ft xs -> 0 <= idx <= ft_size ft -> (Z.to_nat idx < fuel)%nat ->
  0 <= sum -> sum + psum xs idx < 2 ^ 64 ->
  prefixSum_loop fuel (ft_tree ft) idx sum = Some (sum + psum xs idx).
Proof.
  intros Hr. revert idx sum. induction fuel as [|fuel IH]; intros idx sum Hi Hf Hs Hb; [lia|].
  cbn [prefixSum_loop]. rewrite Z.gtb_ltb. destruct (Z.ltb_spec 0 idx).
  - pose proof (lowbit_bounds idx ltac:(lia)).
    rewrite (repr_node _ _ Hr) by lia. mred.
    pose proof (psum_mono xs (idx - lowbit idx) idx (repr_nonneg _ _ Hr) ltac:(lia)).
    pose proof (psum_bounds xs (idx - lowbit idx) (repr_nonneg _ _ Hr)).
    rewrite uwrap_id by (unfold in_u; lia). rewrite IH by lia. f_equal. lia.
  - rewrite (psum_0 xs idx) by lia. f_equal. lia.
Qed.

Lemma prefixSum_spec ft xs idx :
  repr ft xs -> fwTreePrefixSum (Some ft) idx = Some (psum xs (idx + 1)).
Proof.
  intros Hr. unfold fwTreePrefixSum. destruct (Z.ltb_spec idx 0).
  { by rewrite psum_0 by lia. }
  pose proof (repr_len _ _ Hr) as Hl. pose proof (repr_bound _ _ Hr).
  pose proof (pow2_pos (ft_size_bits ft)) as Hp. rewrite <- (repr_size _ _ Hr) in Hp.
  pose proof (repr_bits _ _ Hr).
  rewrite Z.geb_leb. destruct (Z.leb_spec (ft_size ft) idx).
  - pose proof (psum_bounds xs (ft_size ft - 1 + 1) (repr_nonneg _ _ Hr)).
    rewrite (prefixSum_loop_spec ft xs) by (done || lia).
    rewrite !psum_all by lia. done.
  - pose proof (psum_bounds xs (idx + 1) (repr_nonneg _ _ Hr)).
    rewrite (prefixSum_loop_spec ft xs) by (done || lia). done.
Qed.

(** *** Updates *)

Lemma rd_insert_eq (m : list Z) i x : 0 <= i < zlen m -> rd (<[Z.to_nat i := x]> m) i = Some x.
Proof. intros. rewrite rd_lookup by lia. apply list_lookup_insert_eq. lia. Qed.

Lemma rd_insert_ne (m : list Z) i j x :
  0 <= i -> 0 <= j -> i <> j -> rd (<[Z.to_nat i := x]> m) j = rd m j.
Proof. intros. rewrite !rd_lookup by lia. apply list_lookup_insert_ne. lia. Qed.

Section Update.
Context (xs : list Z) (size p x d : Z).
Context (Hp : 0 <= p) (Hx : xs !! Z.to_nat p = Some x).
Context (Hnn : Forall (fun x => 0 <= x) xs).
Let xs' := <[Z.to_nat p := x + d]> xs.
Context (Hnn' : Forall (fun x => 0 <= x) xs').
Context (Hb' : sumZ xs' < 2 ^ 64) (Hd : - 2 ^ 63 < d).

Let node (ys : list Z) (i : Z) : Z := psum ys i - psum ys (i - lowbit i).

Lemma node_change i :
  0 < i -> node xs' i = node xs i + (if (p <? i) && (i - lowbit i <=? p) then d else 0).
Proof using Hp Hx.
  intros Hi. pose proof (lowbit_bounds i Hi). unfold node, xs'.
  rewrite !(psum_insert xs p x d) by done. zbool; simpl; lia.
Qed.

Lemma node_bounds i : 0 < i -> 0 <= node xs i /\ 0 <= node xs' i < 2 ^ 64.
Proof using Hb' Hnn Hnn'.
  intros Hi. pose proof (lowbit_bounds i Hi). unfold node.
  pose proof (psum_mono xs (i - lowbit i) i Hnn ltac:(lia)).
  pose proof (psum_mono xs' (i - lowbit i) i Hnn' ltac:(lia)).
  pose proof (psum_bounds xs' i Hnn'). pose proof (psum_bounds xs' (i - lowbit i) Hnn'). lia.
Qed.

(** The nodes before the cursor [j] are up to date, the others are not yet. *)
Lemma update_loop_spec fuel tree j :
  zlen tree = size + 1 -> size <= 2 ^ 29 -> 1 <= j -> j - lowbit j <= p < j ->
  (Z.to_nat (size + 1 - j) < fuel)%nat ->
  (forall i, 1 <= i <= size -> rd tree i = Some (if i <? j then node xs' i else node xs i)) ->
  exists tree', update_loop fuel tree size j d = Some tree' /\ zlen tree' = size + 1 /\
    forall i, 1 <= i <= size -> rd tree' i = Some (node xs' i).
Proof using Hp Hx Hnn Hnn' Hb' Hd.
  revert tree j. induction fuel as [|fuel IH]; intros tree j Hlen Hsz Hj Hcov Hf Hinv; [lia|].
  cbn [update_loop]. destruct (Z.leb_spec j size); cycle 1.
  { exists tree. split_and!; try done. intros i Hi. rewrite Hinv by lia. by rw_true (i <? j). }
  rewrite Hinv by lia. rw_false (j <? j). mred.
  pose proof (node_change j ltac:(lia)) as Hch.
  destruct (Z.ltb_spec p j); [|lia]. destruct (Z.leb_spec (j - lowbit j) p); [|lia].
  cbn [andb] in Hch. destruct (node_bounds j) as [Hn Hn']; [lia|].
  destruct ((d <? 0) && negb (node xs j >=? uwrap 64 (- d))) eqn:E.
  { destruct (Z.ltb_spec d 0); [|done]. rewrite uwrap_id in E by (unfold in_u; lia). lia. }
  rewrite <- Hch, uwrap_id by done. pose proof (lowbit_bounds j ltac:(lia)).
  rewrite schk_id by (unfold in_s; lia). mred. apply IH.
  - by rewrite length_insert.
  - done.
  - lia.
  - pose proof (lowbit_parent j ltac:(lia)). lia.
  - lia.
  - intros i Hi. destruct (Z.eq_dec i j) as [->|Hne].
    + rewrite rd_insert_eq by lia. by rw_true (j <? j + lowbit j).
    + rewrite rd_insert_ne, Hinv by lia. destruct (Z.ltb_spec i j); [by rw_true (i <? j + lowbit j)|].
      destruct (Z.ltb_spec i (j + lowbit j)); [|done]. rewrite node_change by lia.
      pose proof (lowbit_between j i ltac:(lia) ltac:(lia)).
      rw_false (i - lowbit i <=? p). rewrite andb_false_r. f_equal. lia.
Qed.

End Update.

Lemma sumZ_psum xs : sumZ xs = psum xs (zlen xs).
Proof. by rewrite psum_all. Qed.

Lemma sumZ_insert xs p x d :
  0 <= p -> xs !! Z.to_nat p = Some x ->
  sumZ (<[Z.to_nat p := x + d]> xs) = sumZ xs + d.
Proof.
  intros Hp Hx. pose proof (lookup_lt_Some _ _ _ Hx).
  rewrite !sumZ_psum, length_insert, (psum_insert xs p x d) by done.
  by rw_true (p <? zlen xs).
Qed.

Lemma update_spec ft xs idx x delta :
  repr ft xs -> 0 <= idx -> xs !! Z.to_nat idx = Some x ->
  - 2 ^ 63 < delta -> 0 <= x + delta -> sumZ xs + delta < 2 ^ 64 ->
  exists ft', fwTreeUpdate (Some ft) idx delta = Some (Some ft') /\
    repr ft' (<[Z.to_nat idx := x + delta]> xs).
Proof.
  intros Hr Hi Hx Hd Hnn Hb. pose proof Hr as [Hbits Hsz Hl Htl Hnode Hn Ht Hbd].
  pose proof (lookup_lt_Some _ _ _ Hx). unfold fwTreeUpdate.
  rw_false ((idx <? 0) || (idx >=? ft_size ft)).
  assert (Hn' : Forall (fun x => 0 <= x) (<[Z.to_nat idx := x + delta]> xs))
    by (by apply Forall_insert).
  assert (Hsum : sumZ (<[Z.to_nat idx := x + delta]> xs) = sumZ xs + delta)
    by (by apply sumZ_insert).
  pose proof (sumZ_nonneg _ Hn'). pose proof (lowbit_bounds (idx + 1) ltac:(lia)).
  assert (Hs : ft_size ft <= 2 ^ 29) by (rewrite Hsz; apply Z.pow_le_mono_r; lia).
  destruct (update_loop_spec xs (ft_size ft) idx x delta Hi Hx Hn Hn' ltac:(lia) Hd
              (S (Z.to_nat (ft_size ft))) (ft_tree ft) (idx + 1))
    as (tree' & -> & Htl' & Hnode'); [done|done|lia|lia|lia| |].
  - intros i Hi'. rewrite Hnode by done. destruct (Z.ltb_spec i (idx + 1)); [|done].
    rewrite (node_change xs idx x delta) by (done || lia).
    rw_false (idx <? i). simpl. f_equal. lia.
  - mred. eexists. split; [done|]. split; simpl; rewrite ?length_insert; try done || lia.
    rewrite uwrap_id by (unfold in_u; lia). lia.
Qed.

(** With 2^30 counters the last step of every update adds 2^30 to 2^30, which
    overflows [int]. *)
Lemma update_overflows fuel tree delta : update_loop fuel tree (2 ^ 30) (2 ^ 30) delta = None.
Proof.
  destruct fuel as [|fuel]; [done|]. cbn [update_loop]. rewrite Z.leb_refl.
  destruct (rd tree (2 ^ 30)) as [t|]; [|done]. mred. destruct (_ && _); [done|].
  by replace (schk 32 (2 ^ 30 + lowbit (2 ^ 30))) with (@None Z) by (by vm_compute).
Qed.

(** C20: the Fenwick tree implements an array of counters: after
    [fwTreeUpdate] at [idx] with a delta that keeps the counter non-negative,
    no assertion fails, no access leaves the tree, the cursor does not
    overflow, and the tree represents the array with that one counter changed.
    Trees of at most 2^29 counters ([repr_bits]). *)
Theorem fwTreeUpdate_correct ft xs idx x delta :
  repr ft xs -> 0 <= idx -> xs !! Z.to_nat idx = Some x ->
  - 2 ^ 63 < delta -> 0 <= x + delta -> sumZ xs + delta < 2 ^ 64 ->
  exists ft', fwTreeUpdate (Some ft) idx delta = Some (Some ft') /\
    repr ft' (<[Z.to_nat idx := x + delta]> xs).
Proof. apply update_spec. Qed.

(** [fwTreePrefixSum] is the sum of the first [idx + 1] counters, with
    indexes below 0 and past the end clamped as the code does. *)
Theorem fwTreePrefixSum_correct ft xs idx :
  repr ft xs ->
  fwTreePrefixSum (Some ft) idx = Some (sumZ (take (Z.to_nat (idx + 1)) xs)).
Proof. intros Hr. rewrite (prefixSum_spec ft xs) by done. done. Qed.

Lemma repr_zeros bits tree :
  0 <= bits < 30 -> tree = replicate (Z.to_nat (2 ^ bits + 1)) 0 ->
  repr (Mk tree bits (2 ^ bits) 0) (replicate (Z.to_nat (2 ^ bits)) 0).
Proof.
  intros Hb ->. pose proof (pow2_pos bits ltac:(lia)).
  assert (Hz : forall n, sumZ (replicate n 0) = 0) by (induction n; simpl; lia).
  split; simpl; rewrite ?length_replicate; try lia.
  - intros i Hi. rewrite rd_lookup, lookup_replicate_2 by lia. unfold psum.
    by rewrite !take_replicate, !Hz.
  - apply Forall_replicate. lia.
  - by rewrite Hz.
  - rewrite Hz. lia.
Qed.

Lemma create_repr bits :
  0 <= bits < 30 -> repr (fwTreeCreate bits) (replicate (Z.to_nat (2 ^ bits)) 0).
Proof.
  intros Hb. unfold fwTreeCreate. rewrite Z.shiftl_1_l. by apply repr_zeros.
Qed.

Lemma clear_repr ft xs :
  repr ft xs -> repr (fwTreeClear ft) (replicate (length xs) 0).
Proof.
  intros [Hb Hs Hl _ _ _ _ _]. unfold fwTreeClear. rewrite Hs in *.
  replace (length xs) with (Z.to_nat (2 ^ ft_size_bits ft)) by lia. by apply repr_zeros.
Qed.

(** *** Search *)

Lemma findIndex_loop_S fuel tree i result target :
  i <> 0 ->
  findIndex_loop (S fuel) tree i result target =
  (t ← rd tree (result + i);
   if target >? t then findIndex_loop fuel tree (Z.shiftr i 1) (result + i) (target - t)
   else findIndex_loop fuel tree (Z.shiftr i 1) result target).
Proof. intros. cbn [findIndex_loop]. by rw_false (i =? 0). Qed.

(** The search narrows to a window of [n] counters that starts at a multiple of
    [n] and holds the [t0]-th unit. *)
Definition window (xs : list Z) (size t0 n r target : Z) : Prop :=
  0 <= r /\ r + n <= size /\ (n | r) /\ t0 = target + psum xs r /\
  1 <= target /\ t0 <= psum xs (r + n).

Lemma findIndex_step ft xs fuel k r target t0 :
  repr ft xs -> 0 <= k -> window xs (ft_size ft) t0 (2 ^ (k + 1)) r target ->
  exists r2 target2,
    findIndex_loop (S fuel) (ft_tree ft) (2 ^ k) r target
    = findIndex_loop fuel (ft_tree ft) (Z.shiftr (2 ^ k) 1) r2 target2 /\
    window xs (ft_size ft) t0 (2 ^ k) r2 target2.
Proof.
  intros Hr Hk (H0 & Hsz & [q Hq] & Ht0 & Ht & Hle). pose proof (pow2_pos k Hk) as Hp.
  rewrite Z.pow_add_r in * by lia. change (2 ^ 1) with 2 in *.
  assert (Hlow : lowbit (r + 2 ^ k) = 2 ^ k).
  { rewrite Hq. replace (q * (2 ^ k * 2) + 2 ^ k) with (2 ^ k * (2 * q + 1)) by lia.
    by apply lowbit_spec. }
  rewrite findIndex_loop_S by lia.
  rewrite (repr_node _ _ Hr) by lia. rewrite Hlow. mred.
  replace (r + 2 ^ k - 2 ^ k) with r by lia. rewrite Z.gtb_ltb.
  destruct (Z.ltb_spec (psum xs (r + 2 ^ k) - psum xs r) target);
    do 2 eexists; (split; [done|]); unfold window; split_and!; try lia.
  - exists (2 * q + 1). lia.
  - replace (r + 2 ^ k + 2 ^ k) with (r + 2 ^ k * 2) by lia. done.
  - exists (2 * q). lia.
Qed.

Lemma findIndex_loop_spec ft xs (k : nat) r target t0 :
  repr ft xs -> window xs (ft_size ft) t0 (2 ^ (Z.of_nat k + 1)) r target ->
  exists r', findIndex_loop (S (S k)) (ft_tree ft) (2 ^ Z.of_nat k) r target = Some r' /\
    0 <= r' < ft_size ft /\ psum xs r' < t0 <= psum xs (r' + 1).
Proof.
  intros Hr. revert r target. induction k as [|k IH]; intros r target Hw;
    (edestruct findIndex_step as (r2 & target2 & -> & Hw2); [done|lia|done|]).
  - destruct Hw2 as (? & ? & _ & ? & ? & ?). change (2 ^ Z.of_nat 0) with 1 in *. exists r2. split; [done|]. lia.
  - replace (Z.shiftr (2 ^ Z.of_nat (S k)) 1) with (2 ^ Z.of_nat k).
    + apply IH. by replace (Z.of_nat k + 1) with (Z.of_nat (S k)) by lia.
    + rewrite Z.shiftr_div_pow2 by lia. rewrite Nat2Z.inj_succ, Z.pow_succ_r by lia.
      change (2 ^ 1) with 2. rewrite Z.mul_comm, Z.div_mul; lia.
Qed.

Lemma findIndex_spec ft xs target :
  repr ft xs -> 1 <= target <= ft_total ft ->
  exists r, fwTreeFindIndex ft target = Some r /\
    0 <= r < ft_size ft /\ psum xs r < target <= psum xs (r + 1).
Proof.
  intros Hr Ht. pose proof Hr as [Hb Hs Hl Htl Hnode Hn Htot Hbd].
  pose proof (pow2_pos (ft_size_bits ft) ltac:(lia)).
  unfold fwTreeFindIndex. rw_false (target <=? 0). rewrite Z.shiftl_1_l.
  set (b := ft_size_bits ft) in *. rewrite findIndex_loop_S by lia.
  rewrite Z.add_0_l, Hnode by lia. mred.
  assert (Hlb : lowbit (2 ^ b) = 2 ^ b).
  { pose proof (lowbit_spec b 0 ltac:(lia)) as Hl2. by rewrite Z.mul_1_r in Hl2. }
  rewrite Hlb, Z.sub_diag, (psum_0 xs 0), (psum_all xs (2 ^ b)), Z.gtb_ltb by lia.
  rw_false (sumZ xs - 0 <? target).
  destruct (Z.eq_dec b 0) as [Hb0|Hb0].
  - rewrite Hb0 in *. simpl. exists 0. split; [done|]. split; [lia|].
    change (2 ^ 0) with 1 in *. rewrite (psum_0 xs 0), (psum_all xs (0 + 1)) by lia. lia.
  - replace (Z.shiftr (2 ^ b) 1) with (2 ^ Z.of_nat (Z.to_nat (b - 1))).
    + replace (S (Z.to_nat b)) with (S (S (Z.to_nat (b - 1)))) by lia.
      apply findIndex_loop_spec; [done|]. rewrite Z2Nat.id by lia.
      replace (b - 1 + 1) with b by lia. unfold window. rewrite Z.add_0_l.
      rewrite (psum_0 xs 0), (psum_all xs (2 ^ b)) by lia.
      split_and!; try lia. by exists 0.
    + rewrite Z2Nat.id, Z.shiftr_div_pow2 by lia. rewrite (pow2_half b) by lia.
      change (2 ^ 1) with 2. rewrite Z.mul_comm, Z.div_mul; lia.
Qed.

(** [fwTreeFindIndex] finds the counter that holds the [target]-th unit,
    for every target in the documented range: the units before that counter are
    fewer than [target] and those up to and including it are at least
    [target]. *)
Theorem fwTreeFindIndex_correct ft xs target :
  repr ft xs -> 1 <= target <= ft_total ft ->
  exists r x, fwTreeFindIndex ft target = Some r /\ 0 <= r /\
    xs !! Z.to_nat r = Some x /\ psum xs r < target <= psum xs r + x.
Proof.
  intros Hr Ht. destruct (findIndex_spec ft xs target Hr Ht) as (r & H1 & H2 & H3).
  destruct (lookup_lt_is_Some_2 xs (Z.to_nat r)) as [x Hx].
  { pose proof (repr_len _ _ Hr). lia. }
  exists r, x. rewrite (psum_succ xs r x) in H3 by (done || lia). split_and!; try done; lia.
Qed.

Lemma findNext_spec ft xs idx :
  repr ft xs -> 0 <= idx < ft_size ft -> sumZ xs < 2 ^ 64 - 1 ->
  exists r, fwTreeFindNextNonEmpty (Some ft) idx = Some r /\
    ((r = -1 /\ forall j y, idx < j -> xs !! Z.to_nat j = Some y -> y = 0) \/
     (idx < r /\ (exists x, xs !! Z.to_nat r = Some x /\ 0 < x) /\
      forall j y, idx < j < r -> xs !! Z.to_nat j = Some y -> y = 0)).
Proof.
  intros Hr Hi Hb. pose proof Hr as [_ _ Hl _ _ Hn Htot _].
  unfold fwTreeFindNextNonEmpty. rw_false ((idx <? 0) || (idx >=? ft_size ft)).
  rewrite (prefixSum_spec ft xs) by done. mred.
  pose proof (psum_bounds xs (idx + 1) Hn).
  rewrite uwrap_id by (unfold in_u; lia).
  assert (Hflat : forall a j y, idx < j < a -> psum xs a <= psum xs (idx + 1) ->
                    xs !! Z.to_nat j = Some y -> y = 0).
  { intros a j y Hj Ha Hy. pose proof (psum_succ xs j y ltac:(lia) Hy).
    pose proof (psum_mono xs (idx + 1) j Hn ltac:(lia)).
    pose proof (psum_mono xs (j + 1) a Hn ltac:(lia)).
    rewrite Forall_lookup in Hn. specialize (Hn _ _ Hy). simpl in Hn. lia. }
  destruct (Z.leb_spec (psum xs (idx + 1) + 1) (ft_total ft)).
  - destruct (findIndex_spec ft xs (psum xs (idx + 1) + 1) Hr ltac:(lia)) as (r & -> & Hr2 & Hr3).
    exists r. split; [done|]. right.
    assert (idx < r).
    { apply Z.nle_gt. intros Hle. pose proof (psum_mono xs (r + 1) (idx + 1) Hn ltac:(lia)). lia. }
    split; [done|]. split.
    + destruct (lookup_lt_is_Some_2 xs (Z.to_nat r)) as [x Hx]; [lia|].
      exists x. split; [done|]. pose proof (psum_succ xs r x ltac:(lia) Hx).
      pose proof (psum_mono xs (idx + 1) r Hn ltac:(lia)). lia.
    + intros j y Hj. apply (Hflat r); lia.
  - exists (-1). split; [done|]. left. split; [done|]. intros j y Hj Hy.
    pose proof (lookup_lt_Some _ _ _ Hy). apply (Hflat (zlen xs) j y); [lia| |done].
    rewrite psum_all by lia. lia.
Qed.

(** [fwTreeFindNextNonEmpty] returns the first non-zero counter after
    [idx], and -1 exactly when every later counter is zero. *)
Theorem fwTreeFindNextNonEmpty_correct ft xs idx :
  repr ft xs -> 0 <= idx < ft_size ft -> sumZ xs < 2 ^ 64 - 1 ->
  exists r, fwTreeFindNextNonEmpty (Some ft) idx = Some r /\
    ((r = -1 /\ forall j y, idx < j -> xs !! Z.to_nat j = Some y -> y = 0) \/
     (idx < r /\ (exists x, xs !! Z.to_nat r = Some x /\ 0 < x) /\
      forall j y, idx < j < r -> xs !! Z.to_nat j = Some y -> y = 0)).
Proof. apply findNext_spec. Qed.

(** ** Witnesses *)

Lemma fwTreeUpdate_correct_witness :
  exists ft', fwTreeUpdate (Some (fwTreeCreate 3)) 2 5 = Some (Some ft') /\
    repr ft' [0; 0; 5; 0; 0; 0; 0; 0].
Proof.
  destruct (fwTreeUpdate_correct (fwTreeCreate 3) (replicate 8 0) 2 0 5) as (ft' & H1 & H2);
    [apply (create_repr 3); lia|lia|reflexivity|lia|lia|vm_compute; reflexivity|].
  exists ft'. split; [exact H1|exact H2].
Defined.

Lemma fwTreePrefixSum_correct_witness :
  fwTreePrefixSum (Some (fwTreeCreate 3)) 100 = Some 0.
Proof.
  rewrite (fwTreePrefixSum_correct (fwTreeCreate 3) (replicate 8 0) 100);
    [reflexivity|apply (create_repr 3); lia].
Defined.

(** A tree with counters 5 0 3 0. *)
Definition example_tree : fenwickTree := Mk [0; 5; 5; 3; 8] 2 4 8.

Lemma example_tree_repr : repr example_tree [5; 0; 3; 0].
Proof.
  split; simpl; try done; try lia.
  - intros i Hi. assert (i = 1 \/ i = 2 \/ i = 3 \/ i = 4) as Hc by lia.
    by destruct Hc as [-> |[-> |[-> | ->]]].
  - by repeat constructor.
Qed.

Lemma fwTreeFindIndex_correct_witness :
  exists r x, fwTreeFindIndex example_tree 6 = Some r /\ 0 <= r /\
    [5; 0; 3; 0] !! Z.to_nat r = Some x /\ psum [5; 0; 3; 0] r < 6 <= psum [5; 0; 3; 0] r + x.
Proof.
  apply (fwTreeFindIndex_correct example_tree [5; 0; 3; 0] 6 example_tree_repr).
  simpl. lia.
Defined.

Lemma fwTreeFindNextNonEmpty_correct_witness :
  exists r, fwTreeFindNextNonEmpty (Some example_tree) 0 = Some r /\ 0 < r.
Proof.
  destruct (fwTreeFindNextNonEmpty_correct example_tree [5; 0; 3; 0] 0 example_tree_repr)
    as (r & H1 & H2); [simpl; lia|simpl; lia|].
  exists r. split; [exact H1|]. destruct H2 as [[-> H2]|[H2 _]]; [|exact H2].
  discriminate H1.
Defined.

End FwTree.
