(* ===== verification/Glob.v ===== *)
(** * Glob-style matching ([stringmatchlen] of [redis-stable/src/util.c])

    The matcher behind KEYS, SCAN, PSUBSCRIBE and the ACL key patterns: a
    backtracking search with a flag that prunes it.  The theorems say that it
    decides the declarative meaning of a pattern. *)

From S2P Require Import Prelude.

Module Glob.

(** ** Operations *)

(** A pattern or string is the list of its [patternLen] / [stringLen] chars; the
    char after a pattern is its terminator, [0]. *)

Definition schar (c : Z) : Z := swrap 8 c.

Definition tolower (c : Z) : Z := if (65 <=? c) && (c <=? 90) then c + 32 else c.

Definition char_eq (nocase : bool) (a b : Z) : bool :=
  if nocase then tolower (schar a) =? tolower (schar b) else a =? b.

(** [case '[': start-end] *)
Definition range_match (nocase : bool) (a b c : Z) : bool :=
  let start := schar a in
  let end_ := schar b in
  let c := schar c in
  let '(start, end_) := if start >? end_ then (end_, start) else (start, end_) in
  let '(start, end_, c) :=
    if nocase then (tolower start, tolower end_, tolower c) else (start, end_, c) in
  (c >=? start) && (c <=? end_).

(** The [while(1)] loop over the body of a bracket expression, from the char
    after ['['] or ["[^"]: whether [c] is matched, and the pattern after the
    closing bracket (or its end). *)
Fixpoint class_loop (nocase : bool) (pattern : list Z) (c : Z) (m : bool) : bool * list Z :=
  match pattern with
  | [] => (m, [])
  | p0 :: t =>
    if (p0 =? 92) && (1 <=? zlen t) then
      match t with
      | p1 :: r => class_loop nocase r c (if p1 =? c then true else m)
      | [] => (m, [])
      end
    else if p0 =? 93 then (m, t)
    else
      match t with
      | p1 :: p2 :: r =>
        if p1 =? 45 then class_loop nocase r c (if range_match nocase p0 p2 c then true else m)
        else class_loop nocase t c (if char_eq nocase p0 c then true else m)
      | _ => class_loop nocase t c (if char_eq nocase p0 c then true else m)
      end
  end.

(** [while (patternLen && pattern[1] == '*')]: the chars after the last star of
    a run of stars. *)
Fixpoint skip_stars (t : list Z) : list Z :=
  match t with
  | 42 :: t => skip_stars t
  | _ => t
  end.

(** The [while(stringLen)] loop of [case '*'], over a matcher [rec] for the rest
    of the pattern; the second component is [*skipLongerMatches]. *)
Fixpoint star_loop (rec : list Z -> bool -> bool * bool) (string : list Z) (skip : bool)
    : bool * bool :=
  match string with
  | [] => (false, true)
  | _ :: rest =>
    let '(r, skip) := rec string skip in
    if r then (true, skip)
    else if skip then (false, skip)
    else star_loop rec rest skip
  end.

(** [stringmatchlen_impl]; [fuel] bounds the pattern chars consumed. *)
Fixpoint stringmatchlen_impl (fuel : nat) (nocase : bool) (pattern string : list Z)
    (skip : bool) (nesting : Z) {struct fuel} : bool * bool :=
  if nesting >? 1000 then (false, skip) else
  match fuel, pattern, string with
  | S fuel, p0 :: t, c :: rest =>
    if p0 =? 42 then
      match skip_stars t with
      | [] => (true, skip)
      | t' => star_loop (fun string skip =>
                 stringmatchlen_impl fuel nocase t' string skip (nesting + 1)) string skip
      end
    else
      let next (pattern : list Z) :=
        match rest with
        | [] => (match skip_stars pattern with [] => true | _ => false end, skip)
        | _ => stringmatchlen_impl fuel nocase pattern rest skip nesting
        end in
      if p0 =? 63 then next t
      else if p0 =? 91 then
        let '(not, t1) := match t with 94 :: t1 => (true, t1) | _ => (false, t) end in
        let '(m, pattern) := class_loop nocase t1 c false in
        if xorb not m then next pattern else (false, skip)
      else
        let '(p0, t) := match t with
          | p1 :: t1 => if p0 =? 92 then (p1, t1) else (p0, t)
          | [] => (p0, t) end in
        if char_eq nocase p0 c then next t else (false, skip)
  | _, [], [] => (true, skip)
  | _, _, _ => (false, skip)
  end.

Definition stringmatchlen (pattern string : list Z) (nocase : bool) : bool :=
  (stringmatchlen_impl (length pattern) nocase pattern string false 0).1.

(** [for (int i = patternLen - 2; ...)]: the backslashes before the last char. *)
Fixpoint count_backslashes (rev_prefix : list Z) : nat :=
  match rev_prefix with
  | 92 :: r => S (count_backslashes r)
  | _ => 0
  end.

Definition prefixmatch (pattern prefixStr : list Z) (nocase : bool) : bool :=
  if negb (stringmatchlen_impl (length pattern) nocase pattern prefixStr false 0).1 then false
  else
    match rev pattern with
    | 42 :: r => Nat.even (count_backslashes r)
    | _ => false
    end.

(** ** Declarative meaning *)

Inductive item := IEsc (c : Z) | IRange (a b : Z) | IChar (c : Z).

Inductive token :=
  | TStar
  | TAny
  | TClass (neg : bool) (items : list item)
  | TLit (c : Z).

Definition item_match (nocase : bool) (c : Z) (i : item) : bool :=
  match i with
  | IEsc p => p =? c
  | IRange a b => range_match nocase a b c
  | IChar p => char_eq nocase p c
  end.

(** A token that consumes one char accepts [c]. *)
Definition accepts (nocase : bool) (t : token) (c : Z) : bool :=
  match t with
  | TStar => false
  | TAny => true
  | TClass neg items => xorb neg (existsb (item_match nocase c) items)
  | TLit p => char_eq nocase p c
  end.

Inductive gmatch (nocase : bool) : list token -> list Z -> Prop :=
  | gm_nil : gmatch nocase [] []
  | gm_star ts s1 s2 : gmatch nocase ts s2 -> gmatch nocase (TStar :: ts) (s1 ++ s2)
  | gm_one t ts c s : accepts nocase t c = true -> gmatch nocase ts s ->
      gmatch nocase (t :: ts) (c :: s).

(** The items of a bracket expression and the pattern after it. *)
Fixpoint class_items (pattern : list Z) : list item * list Z :=
  match pattern with
  | [] => ([], [])
  | p0 :: t =>
    if (p0 =? 92) && (1 <=? zlen t) then
      match t with
      | p1 :: r => let '(l, r') := class_items r in (IEsc p1 :: l, r')
      | [] => ([], [])
      end
    else if p0 =? 93 then ([], t)
    else
      match t with
      | p1 :: p2 :: r =>
        if p1 =? 45 then let '(l, r') := class_items r in (IRange p0 p2 :: l, r')
        else let '(l, r') := class_items t in (IChar p0 :: l, r')
      | _ => let '(l, r') := class_items t in (IChar p0 :: l, r')
      end
  end.

(** The first token of a non-empty pattern and the rest. *)
Definition next_token (p0 : Z) (t : list Z) : token * list Z :=
  if p0 =? 42 then (TStar, t)
  else if p0 =? 63 then (TAny, t)
  else if p0 =? 91 then
    let '(not, t1) := match t with 94 :: t1 => (true, t1) | _ => (false, t) end in
    let '(l, r) := class_items t1 in (TClass not l, r)
  else match t with
       | p1 :: t1 => if p0 =? 92 then (TLit p1, t1) else (TLit p0, t)
       | [] => (TLit p0, t)
       end.

Fixpoint tokens_fuel (fuel : nat) (pattern : list Z) : list token :=
  match fuel, pattern with
  | S fuel, p0 :: t => let '(tok, r) := next_token p0 t in tok :: tokens_fuel fuel r
  | _, _ => []
  end.

Definition tokens (pattern : list Z) : list token := tokens_fuel (length pattern) pattern.

Definition stars (ts : list token) : Z :=
  zlen (List.filter (fun t => match t with TStar => true | _ => false end) ts).

(** ** The pattern as tokens *)

Lemma class_loop_items n nocase p c m :
  (length p <= n)%nat ->
  class_loop nocase p c m =
  (m || existsb (item_match nocase c) (class_items p).1, (class_items p).2).
Proof.
  assert (Hor : forall b x : bool, (if b then true else x) = x || b) by (by intros [] []).
  revert p m. induction n as [|n IH]; intros [|p0 t] m Hn; simpl in Hn; try lia;
    try (simpl; by rewrite orb_false_r).
  cbn [class_loop class_items]. destruct ((p0 =? 92) && (1 <=? zlen t)) eqn:E1.
  { destruct t as [|p1 r]; [simpl; by rewrite orb_false_r|]. simpl in Hn.
    rewrite IH, Hor by lia. destruct (class_items r) as [l r']. simpl. by rewrite orb_assoc. }
  destruct (p0 =? 93); [simpl; by rewrite orb_false_r|].
  assert (Hstep : class_loop nocase t c (if char_eq nocase p0 c then true else m) =
    (m || existsb (item_match nocase c) (IChar p0 :: (class_items t).1), (class_items t).2)).
  { rewrite IH, Hor by lia. simpl. by rewrite orb_assoc. }
  destruct t as [|p1 [|p2 r]]; [exact Hstep| |].
  - rewrite Hstep. by destruct (class_items [p1]).
  - destruct (p1 =? 45).
    + simpl in Hn. rewrite IH, Hor by lia. destruct (class_items r). simpl. by rewrite orb_assoc.
    + rewrite Hstep. by destruct (class_items (p1 :: p2 :: r)).
Qed.

Lemma class_items_length n p : (length p <= n)%nat -> (length (class_items p).2 <= length p)%nat.
Proof.
  revert p. induction n as [|n IH]; intros [|p0 t] Hn; simpl in Hn; try (simpl; lia).
  cbn [class_items]. destruct ((p0 =? 92) && (1 <=? zlen t)).
  { destruct t as [|p1 r]; simpl in *; [lia|].
    specialize (IH r). destruct (class_items r). simpl in *. lia. }
  destruct (p0 =? 93); [simpl; lia|].
  assert (Hstep : (length (let '(l, r') := class_items t in (IChar p0 :: l, r')).2
                   <= length (p0 :: t))%nat).
  { specialize (IH t). destruct (class_items t). simpl in *. lia. }
  destruct t as [|p1 [|p2 r]]; [exact Hstep|exact Hstep|].
  destruct (p1 =? 45); [|exact Hstep].
  specialize (IH r). destruct (class_items r). simpl in *. lia.
Qed.

Lemma next_token_length p0 t : (length (next_token p0 t).2 <= length t)%nat.
Proof.
  unfold next_token. destruct (p0 =? 42); [done|]. destruct (p0 =? 63); [done|].
  destruct (p0 =? 91).
  - destruct (match t with 94 :: t1 => (true, t1) | _ => (false, t) end) as [not t1] eqn:E.
    assert (length t1 <= length t)%nat.
    { destruct t as [|z t]; simplify_eq; [done|]. destruct (decide (z = 94)) as [-> |Hz].
      - simplify_eq. simpl. lia.
      - by repeat case_match; simplify_eq. }
    pose proof (class_items_length _ t1 (le_n _)). destruct (class_items t1). simpl in *. lia.
  - destruct t; [done|]. destruct (p0 =? 92); simpl; lia.
Qed.

Lemma tokens_fuel_irrel n m p :
  (length p <= n)%nat -> (length p <= m)%nat -> tokens_fuel n p = tokens_fuel m p.
Proof.
  revert m p. induction n as [|n IH]; intros [|m] [|p0 t] Hn Hm; simpl in *; try lia; try done.
  pose proof (next_token_length p0 t). destruct (next_token p0 t) as [tok r]. simpl in *.
  f_equal. apply IH; lia.
Qed.

Lemma tokens_cons p0 t :
  tokens (p0 :: t) = (next_token p0 t).1 :: tokens (next_token p0 t).2.
Proof.
  unfold tokens at 1. simpl. pose proof (next_token_length p0 t).
  destruct (next_token p0 t) as [tok r]. simpl in *. unfold tokens. f_equal. by apply tokens_fuel_irrel.
Qed.

Lemma skip_stars_cons c t : skip_stars (c :: t) = if c =? 42 then skip_stars t else c :: t.
Proof.
  destruct (Z.eqb_spec c 42) as [-> |Hne]; [done|]. simpl. by repeat case_match.
Qed.

Lemma skip_stars_length t : (length (skip_stars t) <= length t)%nat.
Proof.
  induction t as [|c t IH]; [done|]. rewrite skip_stars_cons. destruct (c =? 42); simpl; lia.
Qed.

Lemma tokens_skip_stars t :
  exists k, tokens t = replicate k TStar ++ tokens (skip_stars t).
Proof.
  induction t as [|c t [k IH]]; [by exists 0%nat|]. rewrite skip_stars_cons.
  destruct (Z.eqb_spec c 42) as [-> |Hne].
  - exists (S k). rewrite tokens_cons. simpl. by rewrite IH.
  - by exists 0%nat.
Qed.

(** After a run of stars comes the end or a token that consumes a char. *)
Lemma tokens_not_star t p0 r :
  skip_stars t = p0 :: r -> (next_token p0 r).1 <> TStar.
Proof.
  intros Hs. assert (Hp : p0 <> 42).
  { revert Hs. induction t as [|c t IH]; [done|]. rewrite skip_stars_cons.
    destruct (Z.eqb_spec c 42); [done|]. congruence. }
  unfold next_token. rw_false (p0 =? 42). destruct (p0 =? 63); [done|].
  destruct (p0 =? 91); [by repeat case_match|]. by repeat case_match.
Qed.

(** ** Facts about the declarative meaning *)

Lemma gmatch_star nocase ts s :
  gmatch nocase (TStar :: ts) s <-> exists s2, s2 `suffix_of` s /\ gmatch nocase ts s2.
Proof.
  split.
  - inversion 1; simplify_eq. eexists. split; [by eexists|done].
  - intros (s2 & [s1 ->] & H). by constructor.
Qed.

Lemma gmatch_stars nocase k ts s :
  gmatch nocase (replicate (S k) TStar ++ ts) s <->
  exists s2, s2 `suffix_of` s /\ gmatch nocase ts s2.
Proof.
  revert s. induction k as [|k IH]; intros s; [by apply gmatch_star|].
  change (replicate (S (S k)) TStar) with (TStar :: replicate (S k) TStar).
  cbn [app]. rewrite gmatch_star. split.
  - intros (s2 & H1 & (s3 & H2 & H3)%IH). exists s3. split; [by etrans|done].
  - intros (s2 & H1 & H2). exists s. split; [done|]. apply IH. eauto.
Qed.

Lemma gmatch_one nocase t ts c s :
  t <> TStar -> gmatch nocase (t :: ts) (c :: s) <-> accepts nocase t c = true /\ gmatch nocase ts s.
Proof. intros Ht. split; [inversion 1; by simplify_eq|]. intros []. by constructor. Qed.

Lemma gmatch_one_nil nocase t ts : t <> TStar -> ~ gmatch nocase (t :: ts) [].
Proof. intros Ht. inversion 1; simplify_eq. Qed.

Lemma gmatch_empty nocase p :
  gmatch nocase (tokens p) [] <-> skip_stars p = [].
Proof.
  destruct (tokens_skip_stars p) as [k Hk]. rewrite Hk. split.
  - intros H. destruct (skip_stars p) as [|p0 r] eqn:E; [done|exfalso].
    pose proof (tokens_not_star p p0 r E) as Hn. rewrite tokens_cons in H.
    destruct k; [by apply gmatch_one_nil in H|].
    apply gmatch_stars in H as (s2 & Hs & H). apply suffix_nil_inv in Hs as ->.
    by apply gmatch_one_nil in H.
  - intros ->. destruct k; [constructor|]. apply gmatch_stars. exists []. by repeat constructor.
Qed.

(** ** The matcher decides the meaning *)

Section Correct.
Context (nocase : bool).

(** What a call promises: the verdict, and that a raised [skipLongerMatches]
    rules out every later starting point. *)
Definition verdict (ts : list token) (s : list Z) (res : bool * bool) : Prop :=
  (res.1 = true <-> gmatch nocase ts s) /\
  (res.1 = false -> res.2 = true -> forall s', s' `suffix_of` s -> ~ gmatch nocase ts s').

Lemma suffix_cons_cases (s' : list Z) c s :
  s' `suffix_of` c :: s <-> s' = c :: s \/ s' `suffix_of` s.
Proof.
  split.
  - destruct s' as [|d s']; [right; apply suffix_nil|]. apply suffix_cons_inv.
  - intros [-> | Hs]; [done|]. by apply suffix_cons_r.
Qed.

Lemma star_loop_spec ts rec s :
  (forall s, s <> [] -> verdict ts s (rec s false)) -> ~ gmatch nocase ts [] ->
  (star_loop rec s false).1 = true <-> exists s2, s2 `suffix_of` s /\ gmatch nocase ts s2.
Proof.
  intros Hrec Hnil. induction s as [|c s IH]; cbn [star_loop].
  { split; [done|]. intros (s2 & ->%suffix_nil_inv & H). done. }
  destruct (Hrec (c :: s)) as [H1 H2]; [done|].
  destruct (rec (c :: s) false) as [[] k]; simpl in *.
  { split; [|done]. intros _. exists (c :: s). split; [done|]. by apply H1. }
  destruct k; simpl.
  - split; [done|]. intros (s2 & Hs & H). by destruct (H2 eq_refl eq_refl s2 Hs).
  - rewrite IH. split.
    + intros (s2 & Hs & H). exists s2. split; [by apply suffix_cons_r|done].
    + intros (s2 & [-> | Hs]%suffix_cons_cases & H); [|by eauto]. by apply H1 in H.
Qed.

Lemma star_verdict k ts s res :
  res.1 = true <-> (exists s2, s2 `suffix_of` s /\ gmatch nocase ts s2) ->
  verdict (replicate (S k) TStar ++ ts) s res.
Proof.
  intros H. split; [by rewrite gmatch_stars|]. intros Hf _ s' Hs' Hm.
  apply gmatch_stars in Hm as (s2 & Hs2 & Hm).
  apply not_true_iff_false in Hf. apply Hf, H. exists s2. split; [by etrans|done].
Qed.

(** A token that consumes a char, after which the rest gives a verdict. *)
Lemma one_verdict t ts c s res :
  t <> TStar ->
  verdict ts s res ->
  verdict (t :: ts) (c :: s) (if accepts nocase t c then res else (false, false)).
Proof.
  intros Ht [H1 H2]. destruct (accepts nocase t c) eqn:E; split; simpl; try done.
  - rewrite gmatch_one, H1, E by done. tauto.
  - intros Hf Hk s' Hs' Hm. inversion Hm as [|ts' s1 s2|t' ts' c' s'' Ha Hm']; simplify_eq.
    apply (H2 Hf Hk s''); [|done]. apply suffix_cons_cases in Hs' as [|Hs']; [by simplify_eq|].
    etrans; [|exact Hs']. by apply suffix_cons_r.
  - rewrite gmatch_one, E by done. split; [done|by intros []].
Qed.

Lemma stars_cons t ts : stars (t :: ts) = (match t with TStar => 1 | _ => 0 end) + stars ts.
Proof. unfold stars. destruct t; simpl; lia. Qed.

Lemma stars_nonneg ts : 0 <= stars ts.
Proof. unfold stars. lia. Qed.

Lemma stars_replicate k ts : stars (replicate k TStar ++ ts) = Z.of_nat k + stars ts.
Proof. induction k as [|k IH]; simpl; rewrite ?stars_cons, ?IH; lia. Qed.

Lemma impl_star fuel t c rest nesting :
  nesting <= 1000 ->
  stringmatchlen_impl (S fuel) nocase (42 :: t) (c :: rest) false nesting =
  match skip_stars t with
  | [] => (true, false)
  | t' => star_loop (fun s skip => stringmatchlen_impl fuel nocase t' s skip (nesting + 1))
            (c :: rest) false
  end.
Proof. intros. cbn [stringmatchlen_impl]. by rw_false (nesting >? 1000). Qed.

Lemma impl_one fuel p0 t c rest nesting :
  nesting <= 1000 -> p0 <> 42 ->
  stringmatchlen_impl (S fuel) nocase (p0 :: t) (c :: rest) false nesting =
  let '(tok, r) := next_token p0 t in
  if accepts nocase tok c then
    match rest with
    | [] => (match skip_stars r with [] => true | _ => false end, false)
    | _ => stringmatchlen_impl fuel nocase r rest false nesting
    end
  else (false, false).
Proof.
  intros Hn Hp. cbn [stringmatchlen_impl]. rw_false (nesting >? 1000). unfold next_token.
  rw_false (p0 =? 42). destruct (p0 =? 63); [done|]. destruct (p0 =? 91).
  - destruct (match t with 94 :: t1 => (true, t1) | _ => (false, t) end) as [not t1].
    rewrite (class_loop_items (length t1)) by done. by destruct (class_items t1).
  - destruct t as [|p1 t1]; [done|]. by destruct (p0 =? 92).
Qed.

Lemma impl_correct fuel p s nesting :
  (length p <= fuel)%nat -> s <> [] -> nesting + stars (tokens p) <= 1000 ->
  verdict (tokens p) s (stringmatchlen_impl fuel nocase p s false nesting).
Proof.
  revert p s nesting. induction fuel as [|fuel IH]; intros p s nesting Hlen Hs Hn;
    (destruct s as [|c rest]; [done|]).
  { destruct p; simpl in Hlen; [|lia]. simpl. destruct (nesting >? 1000); split; simpl; try done;
      (split; [done|inversion 1]). }
  destruct p as [|p0 t].
  { simpl. destruct (nesting >? 1000); split; simpl; try done; (split; [done|inversion 1]). }
  rewrite tokens_cons in *. rewrite stars_cons in Hn.
  pose proof (stars_nonneg (tokens (next_token p0 t).2)) as Hst.
  destruct (Z.eq_dec p0 42) as [-> |Hp0].
  - change (next_token 42 t) with (TStar, t) in *. cbn [fst snd] in *. simpl in Hn, Hlen.
    rewrite impl_star by lia.
    destruct (tokens_skip_stars t) as [k Hk]. rewrite Hk in *. rewrite stars_replicate in Hn.
    change (TStar :: replicate k TStar ++ tokens (skip_stars t))
      with (replicate (S k) TStar ++ tokens (skip_stars t)).
    pose proof (skip_stars_length t). apply star_verdict.
    destruct (skip_stars t) as [|q r] eqn:E.
    + simpl. split; [|done]. intros _. exists []. split; [apply suffix_nil|constructor].
    + apply star_loop_spec.
      * intros s2 Hs2. apply IH; [lia|done|lia].
      * rewrite tokens_cons. apply gmatch_one_nil. by eapply tokens_not_star.
  - rewrite impl_one by (done || (destruct ((next_token p0 t).1); lia)). pose proof (next_token_length p0 t) as Hr.
    assert (Htok : (next_token p0 t).1 <> TStar).
    { apply (tokens_not_star (p0 :: t)). rewrite skip_stars_cons. by rw_false (p0 =? 42). }
    destruct (next_token p0 t) as [tok r]. cbn [fst snd]. simpl in Hr, Htok, Hn, Hlen.
    apply one_verdict; [done|]. destruct rest as [|d rest].
    + split; simpl; [|done]. rewrite gmatch_empty. by destruct (skip_stars r).
    + apply IH; [lia|done|]. destruct tok; done || lia.
Qed.

End Correct.

(** C21: glob matching is correct: on a non-empty string the backtracking matcher,
    with its [skipLongerMatches] pruning, answers yes exactly when the string
    matches the tokens of the pattern ([*], [?], bracket expressions with
    ranges, escapes and negation, escaped and plain chars), for every pattern
    with at most 1000 stars (the nesting limit). *)
Theorem stringmatchlen_correct p s nocase :
  s <> [] -> stars (tokens p) <= 1000 ->
  stringmatchlen p s nocase = true <-> gmatch nocase (tokens p) s.
Proof. intros Hs Hn. by apply (impl_correct nocase (length p) p s 0). Qed.

(** On the empty string the matcher accepts only the empty pattern, so a
    pattern of stars, whose meaning includes the empty string, is refused. *)
Theorem stringmatchlen_empty p nocase :
  stringmatchlen p [] nocase = bool_decide (p = []) /\
  (stringmatchlen [42] [] nocase = false /\ gmatch nocase (tokens [42]) []).
Proof.
  split; [by destruct p|]. split; [done|]. by apply gmatch_empty.
Qed.

(** ** Prefix matching *)

Lemma gmatch_app_star nocase ts s suf :
  gmatch nocase (ts ++ [TStar]) s -> gmatch nocase (ts ++ [TStar]) (s ++ suf).
Proof.
  intros H. remember (ts ++ [TStar]) as ts' eqn:E. revert ts E.
  induction H as [|ts' s1 s2 H IH|t ts' c s' Ha H IH]; intros ts E; destruct ts as [|u us];
    simplify_eq/=.
  - apply gmatch_star. exists []. split; [apply suffix_nil|constructor].
  - rewrite <- app_assoc. constructor. by apply (IH us).
  - constructor; [done|]. by apply (IH us).
Qed.

(** When the last token of the pattern is a star, a match of
    [prefixmatch] on a prefix extends to every string with that prefix. *)
Theorem prefixmatch_sound p pre suf nocase ts :
  pre <> [] -> stars (tokens p) <= 1000 -> tokens p = ts ++ [TStar] ->
  prefixmatch p pre nocase = true -> stringmatchlen p (pre ++ suf) nocase = true.
Proof.
  intros Hne Hst Hts Hp. unfold prefixmatch in Hp.
  destruct ((stringmatchlen_impl (length p) nocase p pre false 0).1) eqn:E; [|done].
  apply stringmatchlen_correct; [|done|]; [by destruct pre|].
  apply (stringmatchlen_correct p pre nocase Hne Hst) in E. rewrite Hts in *.
  by apply gmatch_app_star.
Qed.

(** Without that condition [prefixmatch] over-approximates: in the
    pattern ["[*"] the star belongs to an unterminated bracket expression, the
    prefix ["*"] is accepted, and ["*a"] does not match the pattern. *)
Theorem prefixmatch_unterminated_class :
  prefixmatch [91; 42] [42] false = true /\ stringmatchlen [91; 42] ([42] ++ [97]) false = false.
Proof. done. Qed.

(** ** Witnesses *)

(** ["h[a-e]l*\?"] and ["hello?"] *)
Lemma stringmatchlen_correct_witness :
  stringmatchlen [104; 91; 97; 45; 101; 93; 108; 42; 92; 63] [104; 101; 108; 108; 111; 63] false = true
  <-> gmatch false (tokens [104; 91; 97; 45; 101; 93; 108; 42; 92; 63]) [104; 101; 108; 108; 111; 63].
Proof. apply stringmatchlen_correct; [done|vm_compute; discriminate]. Defined.

Lemma prefixmatch_sound_witness : stringmatchlen [97; 42] ([97; 98] ++ [99]) true = true.
Proof.
  apply (prefixmatch_sound [97; 42] [97; 98] [99] true [TLit 97]);
    [done|vm_compute; discriminate|reflexivity|reflexivity].
Defined.

End Glob.
