(* ===== verification/Numbers.v ===== *)
(** * Number conversions ([redis-stable/src/util.c])

    Decimal printing and parsing of 64 bit integers, the memory-size parser of
    the configuration, and the small byte-set helpers of the same file. *)

From S2P Require Import Prelude.

Module Numbers.

(** ** Operations *)

Definition LLONG_MAX : Z := 2 ^ 63 - 1.
Definition LLONG_MIN : Z := - 2 ^ 63.
Definition ULLONG_MAX : Z := 2 ^ 64 - 1.
Definition LONG_STR_SIZE : Z := 21.

Definition b2z (b : bool) : Z := if b then 1 else 0.

(** [digits10]: it calls itself on a 64 bit number divided by [10^12], so at
    most once; [fuel] counts the calls. *)
Fixpoint digits10_fuel (fuel : nat) (v : Z) : option Z :=
  match fuel with
  | O => None
  | S fuel =>
    if v <? 10 then Some 1
    else if v <? 100 then Some 2
    else if v <? 1000 then Some 3
    else if v <? 1000000000000 then
      if v <? 100000000 then
        if v <? 1000000 then
          if v <? 10000 then Some 4 else Some (5 + b2z (v >=? 100000))
        else Some (7 + b2z (v >=? 10000000))
      else if v <? 10000000000 then Some (9 + b2z (v >=? 1000000000))
      else Some (11 + b2z (v >=? 100000000000))
    else r ← digits10_fuel fuel (v / 1000000000000); Some (12 + r)
  end.

Definition digits10 (v : Z) : option Z := digits10_fuel 2 v.

Definition sdigits10 (v : Z) : option Z :=
  if v <? 0 then
    let uv := if negb (v =? LLONG_MIN) then uwrap 64 (- v) else LLONG_MAX + 1 in
    d ← digits10 uv; Some (d + 1)
  else digits10 v.

(** The table of the decimal digits of 00..99. *)
Definition digits : list Z := str "00010203040506070809101112131415161718192021222324252627282930313233343536373839404142434445464748495051525354555657585960616263646566676869707172737475767778798081828384858687888990919293949596979899".

Fixpoint ull2string_loop (fuel : nat) (dst : list Z) (next value : Z)
    : option (list Z * Z * Z) :=
  match fuel with
  | O => None
  | S fuel =>
    if value >=? 100 then
      let i := (value mod 100) * 2 in
      let value := value / 100 in
      d1 ← rd digits (i + 1);
      dst ← wrn dst next [d1];
      d0 ← rd digits i;
      dst ← wrn dst (next - 1) [d0];
      ull2string_loop fuel dst (uwrap 32 (next - 2)) value
    else Some (dst, next, value)
  end.

(** [dst] is the output buffer, [dstlen] its length; the result is the buffer
    after the call and the return value. *)
Definition ull2string (dst : list Z) (value : Z) : option (list Z * Z) :=
  let dstlen := zlen dst in
  length ← digits10 value;
  if length >=? dstlen then
    dst ← (if dstlen >? 0 then wrn dst 0 [0] else Some dst); Some (dst, 0)
  else
    let next := length - 1 in
    dst ← wrn dst (next + 1) [0];
    '(dst, next, value) ← ull2string_loop 11 dst next value;
    dst ← (if value <? 10 then wrn dst next [48 + value]
           else
             let i := value * 2 in
             d1 ← rd digits (i + 1);
             dst ← wrn dst next [d1];
             d0 ← rd digits i;
             wrn dst (next - 1) [d0]);
    Some (dst, length).

Definition ll2string (dst : list Z) (svalue : Z) : option (list Z * Z) :=
  let dstlen := zlen dst in
  if svalue <? 0 then
    let value := if negb (svalue =? LLONG_MIN) then - svalue else LLONG_MAX + 1 in
    if dstlen <? 2 then
      dst ← (if dstlen >? 0 then wrn dst 0 [0] else Some dst); Some (dst, 0)
    else
      dst ← wrn dst 0 [45];
      '(tail, length) ← ull2string (drop 1 dst) value;
      let dst := take 1 dst ++ tail in
      if length =? 0 then Some (dst, 0) else Some (dst, length + 1)
  else
    '(dst, length) ← ull2string dst svalue;
    if length =? 0 then Some (dst, 0) else Some (dst, length).

(** The digit loop of [string2ll]: [None] is [return 0]; otherwise the value and
    the bytes not consumed. *)
Fixpoint string2ll_loop (p : list Z) (v : Z) : option (Z * list Z) :=
  match p with
  | c :: p' =>
    if (c >=? 48) && (c <=? 57) then
      if v >? ULLONG_MAX / 10 then None
      else
        let v := v * 10 in
        if v >? ULLONG_MAX - (c - 48) then None
        else string2ll_loop p' (v + (c - 48))
    else Some (v, p)
  | [] => Some (v, [])
  end.

(** [string2ll] from the first digit on, the sign being consumed. *)
Definition string2ll_digits (negative : bool) (p : list Z) : option Z :=
  match p with
  | [] => None
  | c :: p =>
    if (c >=? 49) && (c <=? 57) then
      '(v, rest) ← string2ll_loop p (c - 48);
      match rest with
      | _ :: _ => None
      | [] =>
        if negative then
          if v >? - (LLONG_MIN + 1) + 1 then None else Some (swrap 64 (uwrap 64 (- v)))
        else if v >? LLONG_MAX then None else Some v
      end
    else None
  end.

(** [string2ll]: [None] is the return value 0, [Some v] is 1 with [*value = v]. *)
Definition string2ll (s : list Z) : option Z :=
  let slen := zlen s in
  if (slen =? 0) || (slen >=? LONG_STR_SIZE) then None
  else if (slen =? 1) && (bool_decide (head s = Some 48)) then Some 0
  else
    let '(negative, p) := match s with 45 :: p => (true, p) | _ => (false, s) end in
    string2ll_digits negative p.

(** [long] and [long long] are both 64 bits. *)
Definition string2l (s : list Z) : option Z :=
  llval ← string2ll s;
  if (llval <? LLONG_MIN) || (llval >? LLONG_MAX) then None else Some llval.

(** What [strtoull(s, &endptr, 10)] of the C library reports: the value, whether
    [errno] was set to [EINVAL] or [ERANGE], and the bytes from [endptr]. *)
Record strtoull_result := {
  st_value : Z;
  st_einval : bool;
  st_erange : bool;
  st_rest : list Z
}.

Section Strtoull.
Context (strtoull : list Z -> strtoull_result).

Definition string2ull (s : list Z) : option Z :=
  match string2ll s with
  | Some ll => if ll <? 0 then None else Some ll
  | None =>
    let r := strtoull s in
    if st_einval r || st_erange r
       || negb (negb (bool_decide (s = [])) && bool_decide (st_rest r = []))
    then None else Some (st_value r)
  end.

Definition isdigit (c : Z) : bool := (48 <=? c) && (c <=? 57).

Fixpoint span_digits (s : list Z) : list Z * list Z :=
  match s with
  | c :: s' => if isdigit c then let '(d, r) := span_digits s' in (c :: d, r) else ([], s)
  | [] => ([], [])
  end.

Definition lower (c : Z) : Z := if (65 <=? c) && (c <=? 90) then c + 32 else c.
Definition strcaseeq (a b : list Z) : bool := bool_decide (map lower a = map lower b).

(** The unit multiplier of a memory size. *)
Definition memtoull_mul (u : list Z) : option Z :=
  if bool_decide (u = []) || strcaseeq u (str "b") then Some 1
  else if strcaseeq u (str "k") then Some 1000
  else if strcaseeq u (str "kb") then Some 1024
  else if strcaseeq u (str "m") then Some (1000 * 1000)
  else if strcaseeq u (str "mb") then Some (1024 * 1024)
  else if strcaseeq u (str "g") then Some (1000 * 1000 * 1000)
  else if strcaseeq u (str "gb") then Some (1024 * 1024 * 1024)
  else None.

(** The value and [*err]. *)
Definition memtoull (p : list Z) : Z * bool :=
  if bool_decide (head p = Some 45) then (0, true)
  else
    let '(d, u) := span_digits p in
    match memtoull_mul u with
    | None => (0, true)
    | Some mul =>
      if zlen d >=? 128 then (0, true)
      else
        let r := strtoull d in
        if ((st_value r =? 0) && st_einval r) || negb (bool_decide (st_rest r = []))
        then (0, true)
        else (uwrap 64 (st_value r * mul), false)
    end.
End Strtoull.

(** Offset of the first byte of [s] that is in [chars]; [None] is [NULL]. *)
Fixpoint mempbrk (s chars : list Z) : option nat :=
  match s with
  | [] => None
  | c :: s => if bool_decide (c ∈ chars) then Some 0%nat else S <$> mempbrk s chars
  end.

Fixpoint mapchar (c : Z) (from to : list Z) : Z :=
  match from, to with
  | f :: from, t :: to => if c =? f then t else mapchar c from to
  | _, _ => c
  end.

Definition memmapchars (s from to : list Z) : list Z := map (fun c => mapchar c from to) s.

(** Class of a hexadecimal digit, and the hexadecimal reader used by the crash
    handler. *)
Definition base_16_char_type (c : Z) : Z :=
  if (48 <=? c) && (c <=? 57) then 0
  else if (97 <=? c) && (c <=? 102) then 1
  else if (65 <=? c) && (c <=? 70) then 2
  else -1.

Definition ascii_to_dec (char_type : Z) : Z :=
  if char_type =? 0 then 48 else if char_type =? 1 then 97 - 10 else 65 - 10.

(** [inl (-1)]: overflow; [inr v]: 1 with the result. *)
Fixpoint string2ul_base16_async_signal_safe (src : list Z) (result : Z) : Z + Z :=
  match src with
  | c :: src' =>
    let char_type := base_16_char_type c in
    if char_type =? -1 then inr result
    else
      let curr_val := c - ascii_to_dec char_type in
      if (result >? ULLONG_MAX / 16) || (result >? (ULLONG_MAX - curr_val) / 16) then inl (-1)
      else string2ul_base16_async_signal_safe src' (result * 16 + curr_val)
  | [] => inr result
  end.

(** ** Reference: the decimal notation of an integer *)

Fixpoint udec_fuel (n : nat) (v : Z) : list Z :=
  match n with
  | O => []
  | S n => if v <? 10 then [48 + v] else udec_fuel n (v / 10) ++ [48 + v mod 10]
  end.

Definition udec (v : Z) : list Z := udec_fuel 20 v.
Definition dec (v : Z) : list Z := if v <? 0 then 45 :: udec (- v) else udec v.

Lemma udec_fuel_irrel n m v :
  0 <= v < 10 ^ Z.of_nat n -> (0 < n <= m)%nat -> udec_fuel m v = udec_fuel n v.
Proof.
  revert m v. induction n as [|n IH]; intros [|m] v Hv Hm; try lia. cbn [udec_fuel].
  destruct (Z.ltb_spec v 10); [done|]. f_equal.
  rewrite Nat2Z.inj_succ, Z.pow_succ_r in Hv by lia.
  destruct n as [|n]; [simpl in Hv; lia|]. apply IH; [dlia|lia].
Qed.

Lemma udec_small v : 0 <= v < 10 -> udec v = [48 + v].
Proof. intros. unfold udec, udec_fuel. by rw_true (v <? 10). Qed.

Lemma udec_step v : 10 <= v < 2 ^ 64 -> udec v = udec (v / 10) ++ [48 + v mod 10].
Proof.
  intros Hv. unfold udec.
  rewrite (udec_fuel_irrel 19 20 (v / 10)) by (simpl; dlia || lia).
  change (udec_fuel 20 v) with
    (if v <? 10 then [48 + v] else udec_fuel 19 (v / 10) ++ [48 + v mod 10]).
  by rw_false (v <? 10).
Qed.

Lemma div10_mod10 v : v / 10 mod 10 = v mod 100 / 10.
Proof.
  rewrite (Z.div_mod v 100) at 1 by lia. pose proof (Z.mod_pos_bound v 100).
  set (r := v mod 100) in *. set (q := v / 100). clearbody r q.
  replace (100 * q + r) with (r + (10 * q) * 10) by lia. rewrite Z.div_add by lia.
  replace (r / 10 + 10 * q) with (r / 10 + q * 10) by lia.
  rewrite Z.mod_add by lia. apply Z.mod_small. dlia.
Qed.

Lemma mod100_mod10 v : v mod 10 = v mod 100 mod 10.
Proof.
  rewrite (Z.div_mod v 100) at 1 by lia.
  replace (100 * (v / 100) + v mod 100) with (v mod 100 + (10 * (v / 100)) * 10) by lia.
  apply Z.mod_add. lia.
Qed.

Lemma udec_step100 v :
  100 <= v < 2 ^ 64 ->
  udec v = udec (v / 100) ++ [48 + (v mod 100) / 10; 48 + (v mod 100) mod 10].
Proof.
  intros Hv. rewrite udec_step, (udec_step (v / 10)) by dlia.
  rewrite <- app_assoc, Z.div_div by lia. change (10 * 10) with 100. cbn [app].
  by rewrite div10_mod10, mod100_mod10.
Qed.

Lemma udec_length_S (n : nat) v :
  0 <= v < 2 ^ 64 -> 10 ^ Z.of_nat n <= v < 10 ^ Z.of_nat (S n) -> length (udec v) = S n.
Proof.
  revert v. induction n as [|n IH]; intros v Hv Hb.
  - rewrite udec_small; [done|]. simpl in Hb. lia.
  - rewrite !Nat2Z.inj_succ, !Z.pow_succ_r in Hb by lia.
    pose proof (Z.pow_pos_nonneg 10 (Z.of_nat n) ltac:(lia) ltac:(lia)).
    rewrite udec_step by lia. rewrite length_app, IH; [simpl; lia|dlia|].
    rewrite Nat2Z.inj_succ, Z.pow_succ_r by lia. dlia.
Qed.

(** The decimal order of magnitude of a positive number. *)
Lemma dec_magnitude v :
  0 < v < 2 ^ 64 -> exists n : nat, 10 ^ Z.of_nat n <= v < 10 ^ Z.of_nat (S n) /\ (n < 20)%nat.
Proof.
  intros Hv. assert (H : forall k : nat, v < 10 ^ Z.of_nat k -> exists n : nat,
    10 ^ Z.of_nat n <= v < 10 ^ Z.of_nat (S n) /\ (n < k)%nat).
  { induction k as [|k IH]; intros Hk; [simpl in Hk; lia|].
    destruct (Z.lt_ge_cases v (10 ^ Z.of_nat k)) as [Hlt|Hge].
    - destruct (IH Hlt) as (n & ? & ?). exists n. split; [done|lia].
    - exists k. split; [done|lia]. }
  apply H. simpl. lia.
Qed.

Lemma udec_length_bound v : 0 <= v < 2 ^ 64 -> (1 <= length (udec v) <= 20)%nat.
Proof.
  intros Hv. destruct (Z.eq_dec v 0) as [-> |Hv0]; [simpl; lia|].
  destruct (dec_magnitude v ltac:(lia)) as (n & Hn & ?).
  rewrite (udec_length_S n) by lia. lia.
Qed.

Lemma udec_length_shift v :
  1000000000000 <= v < 2 ^ 64 -> zlen (udec v) = 12 + zlen (udec (v / 1000000000000)).
Proof.
  intros Hv. assert (Hq : 0 < v / 1000000000000 < 2 ^ 64) by dlia.
  destruct (dec_magnitude _ Hq) as (n & Hn & _).
  rewrite (udec_length_S n (v / _)) by lia. rewrite (udec_length_S (n + 12) v); [lia|lia|].
  replace (Z.of_nat (S (n + 12))) with (Z.of_nat (S n) + 12) by lia.
  rewrite Nat2Z.inj_add, !Z.pow_add_r by lia. simpl (10 ^ Z.of_nat 12). simpl (10 ^ 12). dlia.
Qed.

Lemma zlen_udec n k v :
  10 ^ n <= v < 10 ^ (n + 1) -> 0 <= v < 2 ^ 64 -> 0 <= n -> k = n + 1 -> zlen (udec v) = k.
Proof.
  intros Hb Hv Hn ->. rewrite (udec_length_S (Z.to_nat n)); [lia|done|].
  rewrite Nat2Z.inj_succ, Z2Nat.id by lia. done.
Qed.

Ltac decade n := rewrite (zlen_udec n (n + 1)) by (simpl; lia); reflexivity.

Lemma digits10_small f v :
  0 <= v < 1000000000000 -> digits10_fuel (S f) v = Some (zlen (udec v)).
Proof.
  intros Hv. cbn [digits10_fuel].
  destruct (Z.ltb_spec v 10); [rewrite udec_small by lia; done|].
  destruct (Z.ltb_spec v 100); [decade 1|]. destruct (Z.ltb_spec v 1000); [decade 2|].
  rw_true (v <? 1000000000000).
  destruct (Z.ltb_spec v 100000000).
  - destruct (Z.ltb_spec v 1000000).
    + destruct (Z.ltb_spec v 10000); [decade 3|]. rewrite Z.geb_leb.
      destruct (Z.leb_spec 100000 v); [decade 5|decade 4].
    + rewrite Z.geb_leb. destruct (Z.leb_spec 10000000 v); [decade 7|decade 6].
  - destruct (Z.ltb_spec v 10000000000).
    + rewrite Z.geb_leb. destruct (Z.leb_spec 1000000000 v); [decade 9|decade 8].
    + rewrite Z.geb_leb. destruct (Z.leb_spec 100000000000 v); [decade 11|decade 10].
Qed.

Lemma digits10_spec v : 0 <= v < 2 ^ 64 -> digits10 v = Some (zlen (udec v)).
Proof.
  intros Hv. unfold digits10. destruct (Z.lt_ge_cases v 1000000000000).
  - apply digits10_small. lia.
  - change (digits10_fuel 2 v) with (if v <? 10 then Some 1 else if v <? 100 then Some 2
      else if v <? 1000 then Some 3 else if v <? 1000000000000 then
        if v <? 100000000 then if v <? 1000000 then
          if v <? 10000 then Some 4 else Some (5 + b2z (v >=? 100000))
          else Some (7 + b2z (v >=? 10000000))
        else if v <? 10000000000 then Some (9 + b2z (v >=? 1000000000))
        else Some (11 + b2z (v >=? 100000000000))
      else r ← digits10_fuel 1 (v / 1000000000000); Some (12 + r)).
    rw_false (v <? 10). rw_false (v <? 100). rw_false (v <? 1000).
    rw_false (v <? 1000000000000).
    rewrite digits10_small by dlia. mred. by rewrite (udec_length_shift v) by lia.
Qed.

Lemma digits_table i :
  0 <= i < 100 -> rd digits (i * 2) = Some (48 + i / 10) /\ rd digits (i * 2 + 1) = Some (48 + i mod 10).
Proof.
  intros Hi.
  assert (Hall : Forall (fun i : nat => rd digits (Z.of_nat i * 2) = Some (48 + Z.of_nat i / 10) /\
    rd digits (Z.of_nat i * 2 + 1) = Some (48 + Z.of_nat i mod 10)) (seq 0 100)).
  { vm_compute. repeat constructor. }
  rewrite Forall_forall in Hall. specialize (Hall (Z.to_nat i)).
  rewrite Z2Nat.id in Hall by lia. apply Hall, elem_of_seq. lia.
Qed.

(** ** Printing *)

Lemma ull2string_loop_spec fuel dst next value tail :
  0 <= value < 100 ^ Z.of_nat fuel -> value < 2 ^ 64 -> (0 < fuel)%nat ->
  next = zlen (udec value) - 1 -> zlen dst = next + 1 ->
  exists dst1 next1 value1,
    ull2string_loop fuel (dst ++ tail) next value = Some (dst1, next1, value1) /\
    (if value1 <? 10 then wrn dst1 next1 [48 + value1]
     else
       d1 ← rd digits (value1 * 2 + 1);
       dst ← wrn dst1 next1 [d1];
       d0 ← rd digits (value1 * 2);
       wrn dst (next1 - 1) [d0]) = Some (udec value ++ tail).
Proof.
  revert dst next value tail.
  induction fuel as [|fuel IH]; intros dst next value tail Hv Hv64 Hf Hnext Hdst; [lia|].
  cbn [ull2string_loop]. rewrite Z.geb_leb. destruct (Z.leb_spec 100 value).
  - destruct (digits_table (value mod 100)) as [Ht0 Ht1]; [dlia|].
    rewrite Ht1. mred. rewrite Ht0. mred.
    rewrite (udec_step100 value) in Hnext by lia. rewrite length_app in Hnext. simpl in Hnext.
    pose proof (udec_length_bound (value / 100) ltac:(dlia)).
    rewrite <- (take_drop (Z.to_nat (next - 1)) dst).
    assert (Hd2 : length (drop (Z.to_nat (next - 1)) dst) = 2%nat) by (rewrite length_drop; lia).
    assert (Ht2 : zlen (take (Z.to_nat (next - 1)) dst) = next - 1) by (rewrite length_take; lia).
    destruct (drop (Z.to_nat (next - 1)) dst) as [|a [|b [|? ?]]]; try (simpl in Hd2; lia).
    set (hd := take (Z.to_nat (next - 1)) dst) in *.
    replace ((hd ++ [a; b]) ++ tail) with ((hd ++ [a]) ++ [b] ++ tail) by (by rewrite <- !app_assoc).
    rewrite wrn_app by (rewrite ?length_app; simpl; lia). mred.
    rewrite <- app_assoc. rewrite wrn_app by (simpl; lia). mred.
    rewrite uwrap_id by (unfold in_u; lia).
    assert (Hq : 0 <= value / 100 < 100 ^ Z.of_nat fuel).
    { rewrite Nat2Z.inj_succ, Z.pow_succ_r in Hv by lia. dlia. }
    assert (Hf' : (0 < fuel)%nat) by (destruct fuel; simpl in Hq; [dlia|lia]).
    destruct (IH hd (next - 2) (value / 100)
      ([48 + value mod 100 / 10] ++ [48 + (value mod 100) mod 10] ++ tail))
      as (dst1 & next1 & value1 & Hl & Hw); [done|dlia|done|lia|lia|].
    exists dst1, next1, value1. split; [exact Hl|]. rewrite Hw, (udec_step100 value) by lia.
    by rewrite <- !app_assoc.
  - do 3 eexists. split; [done|]. destruct (Z.ltb_spec value 10).
    + rewrite udec_small in * by lia. simpl in Hnext. rewrite Hnext. apply wrn_0. simpl. lia.
    + rewrite udec_step, udec_small in * by dlia. simpl in Hnext. rewrite Hnext in *.
      destruct (digits_table value) as [Ht0 Ht1]; [lia|]. rewrite Ht1. mred. rewrite Ht0.
      destruct dst as [|a [|b [|? ?]]]; simpl in Hdst; try lia.
      change ([a; b] ++ tail) with ([a] ++ [b] ++ tail).
      rewrite wrn_app by done. mred. by rewrite wrn_0.
Qed.

Lemma ull2string_ok dst value :
  0 <= value < 2 ^ 64 -> zlen (udec value) < zlen dst ->
  ull2string dst value =
  Some (udec value ++ 0 :: drop (S (length (udec value))) dst, zlen (udec value)).
Proof.
  intros Hv Hd. unfold ull2string. rewrite digits10_spec by done. mred.
  rw_false (zlen (udec value) >=? zlen dst).
  set (n := length (udec value)) in *.
  rewrite <- (take_drop n dst) at 1.
  destruct (drop n dst) as [|z tail] eqn:E.
  { apply (f_equal length) in E. rewrite length_drop in E. simpl in E. lia. }
  replace (Z.of_nat n - 1 + 1) with (Z.of_nat n) by lia.
  change (z :: tail) with ([z] ++ tail). rewrite wrn_app by (rewrite ?length_take; simpl; lia).
  mred. destruct (ull2string_loop_spec 11 (take n dst) (Z.of_nat n - 1) value ([0] ++ tail))
    as (dst1 & next1 & value1 & -> & Hw); [simpl; lia|lia|lia|lia|rewrite length_take; lia|].
  mred. rewrite Hw. mred. f_equal. f_equal. simpl. repeat f_equal.
  by rewrite <- Nat.add_1_r, <- drop_drop, E.
Qed.

(** ** Parsing *)

Lemma string2ll_loop_spec p v :
  0 <= v ->
  match string2ll_loop p v with
  | Some (v', rest) => exists ds, p = ds ++ rest /\ Forall (fun c => 48 <= c <= 57) ds /\
      v' = fold_left (fun a c => a * 10 + (c - 48)) ds v /\ (0 <= v') /\
      (v <= ULLONG_MAX -> v' <= ULLONG_MAX) /\ match rest with c :: _ => ~ 48 <= c <= 57 | [] => True end
  | None => exists ds rest, p = ds ++ rest /\ Forall (fun c => 48 <= c <= 57) ds /\
      ULLONG_MAX < fold_left (fun a c => a * 10 + (c - 48)) ds v
  end.
Proof.
  revert v. induction p as [|c p IH]; intros v Hv; cbn [string2ll_loop].
  { exists []. simpl. done. }
  destruct ((c >=? 48) && (c <=? 57)) eqn:Ec; cycle 1.
  { exists []. simpl. split_and!; try done. lia. }
  destruct (Z.gtb_spec v (ULLONG_MAX / 10)).
  { exists [c], p. simpl. split; [done|]. split; [by constructor; [lia|]|].
    unfold ULLONG_MAX in *. dlia. }
  destruct (Z.gtb_spec (v * 10) (ULLONG_MAX - (c - 48))).
  { exists [c], p. simpl. split; [done|]. split; [by constructor; [lia|]|]. lia. }
  specialize (IH (v * 10 + (c - 48)) ltac:(lia)).
  destruct (string2ll_loop p (v * 10 + (c - 48))) as [[v' rest]|].
  - destruct IH as (ds & -> & Hds & -> & Hp & Hb & Hr). exists (c :: ds). simpl.
    split_and!; try done; [constructor; [lia|done]|]. intros _. apply Hb. lia.
  - destruct IH as (ds & rest & -> & Hds & Hb). exists (c :: ds), rest. simpl.
    split_and!; try done. constructor; [lia|done].
Qed.

Abbreviation dval ds v := (fold_left (fun acc x => acc * 10 + (x - 48)) ds v).
Abbreviation all_digits := (Forall (fun c => 48 <= c <= 57)).

Lemma dval_ge ds a : 0 <= a -> all_digits ds -> a <= dval ds a.
Proof.
  intros Ha Hd. revert a Ha. induction Hd as [|c ds Hc _ IH]; intros a Ha; simpl; [lia|].
  specialize (IH (a * 10 + (c - 48)) ltac:(lia)). lia.
Qed.

Lemma udec_dval ds d :
  1 <= d <= 9 -> all_digits ds -> dval ds d < 2 ^ 64 -> udec (dval ds d) = (48 + d) :: ds.
Proof.
  intros Hd. induction ds as [|c ds IH] using rev_ind; intros Hds Hb.
  - simpl. by rewrite udec_small by lia.
  - apply Forall_app in Hds as [Hds [Hc _]%Forall_cons].
    rewrite fold_left_app in *. cbn [fold_left] in *.
    pose proof (dval_ge ds d ltac:(lia) Hds).
    rewrite udec_step by lia.
    replace ((dval ds d * 10 + (c - 48)) / 10) with (dval ds d) by dlia.
    replace ((dval ds d * 10 + (c - 48)) mod 10) with (c - 48) by dlia.
    rewrite IH by (done || lia). simpl. repeat f_equal. lia.
Qed.

Lemma udec_digits v :
  0 < v < 2 ^ 64 ->
  exists d ds, udec v = (48 + d) :: ds /\ 1 <= d <= 9 /\ all_digits ds /\ dval ds d = v.
Proof.
  intros Hv. destruct (dec_magnitude v Hv) as (n & Hn & _). revert v Hv Hn.
  induction n as [|n IH]; intros v Hv Hn.
  - exists v, []. simpl in Hn. rewrite udec_small by lia. split_and!; (done || lia).
  - rewrite !Nat2Z.inj_succ, !Z.pow_succ_r in Hn by lia.
    pose proof (Z.pow_pos_nonneg 10 (Z.of_nat n) ltac:(lia) ltac:(lia)).
    destruct (IH (v / 10)) as (d & ds & Hu & Hd & Hds & Hval); [dlia| |].
    { rewrite Nat2Z.inj_succ, Z.pow_succ_r by lia. dlia. }
    exists d, (ds ++ [48 + v mod 10]). rewrite udec_step, Hu by lia. split; [done|].
    split; [done|]. split.
    + apply Forall_app. split; [done|]. apply Forall_singleton. dlia.
    + rewrite fold_left_app, Hval. simpl. dlia.
Qed.

Lemma udec_length_19 v : 0 <= v <= 2 ^ 63 -> zlen (udec v) <= 19.
Proof.
  intros Hv. destruct (Z.eq_dec v 0) as [-> |Hv0]; [simpl; lia|].
  destruct (dec_magnitude v ltac:(lia)) as (n & Hn & ?). rewrite (udec_length_S n) by lia.
  destruct (Nat.le_gt_cases n 18); [lia|]. replace n with 19%nat in Hn by lia.
  simpl in Hn. lia.
Qed.

Lemma loop_digits ds d :
  0 <= d -> all_digits ds -> dval ds d <= ULLONG_MAX ->
  string2ll_loop ds d = Some (dval ds d, []).
Proof.
  intros Hd Hds Hb. pose proof (string2ll_loop_spec ds d Hd) as Hs.
  destruct (string2ll_loop ds d) as [[v' rest]|].
  - destruct Hs as (ds' & -> & _ & -> & _ & _ & Hr). destruct rest as [|c rest].
    + by rewrite app_nil_r.
    + exfalso. apply Hr. by apply Forall_app in Hds as [_ [? _]%Forall_cons].
  - exfalso. destruct Hs as (ds' & rest & -> & Hds' & Hgt). rewrite fold_left_app in Hb.
    apply Forall_app in Hds as [_ Hr]. pose proof (dval_ge ds' d Hd Hds').
    pose proof (dval_ge rest (dval ds' d) ltac:(lia) Hr). lia.
Qed.

Lemma string2ll_digits_iff negative p v :
  string2ll_digits negative p = Some v <->
  exists u, p = udec u /\ 0 < u <= 2 ^ 63 - (if negative then 0 else 1) /\
    v = (if negative then - u else u).
Proof.
  split.
  - destruct p as [|c p]; [done|]. cbn [string2ll_digits].
    destruct ((c >=? 49) && (c <=? 57)) eqn:Ec; [|done].
    pose proof (string2ll_loop_spec p (c - 48) ltac:(lia)) as Hs.
    destruct (string2ll_loop p (c - 48)) as [[u rest]|]; [|done]. mred.
    destruct rest; [|done]. destruct Hs as (ds & -> & Hds & -> & Hp & Hb & _).
    rewrite app_nil_r. unfold LLONG_MIN, LLONG_MAX, ULLONG_MAX in *.
    pose proof (dval_ge ds (c - 48) ltac:(lia) Hds). intros Hv. exists (dval ds (c - 48)).
    rewrite udec_dval by (done || lia). split; [f_equal; lia|].
    destruct negative; zbool; simplify_eq; (split; [lia|]); [|done].
    rewrite swrap_uwrap, swrap_id by (done || unfold in_s; lia). done.
  - intros (u & -> & Hu & ->). assert (u < 2 ^ 64) by (destruct negative; lia).
    destruct (udec_digits u ltac:(lia)) as (d & ds & -> & Hd & Hds & Hval). cbn [string2ll_digits].
    rw_true ((48 + d >=? 49) && (48 + d <=? 57)). replace (48 + d - 48) with d by lia.
    rewrite loop_digits by (unfold ULLONG_MAX; lia || done). mred. rewrite Hval.
    unfold LLONG_MIN, LLONG_MAX. destruct negative; zbool; try lia; [|done].
    rewrite swrap_uwrap, swrap_id by (done || unfold in_s; lia). done.
Qed.

Lemma dec_head_minus u : 0 <= u < 2 ^ 64 -> head (udec u) <> Some 45.
Proof.
  intros Hu. destruct (Z.eq_dec u 0) as [-> |]; [done|].
  destruct (udec_digits u ltac:(lia)) as (d & ds & -> & Hd & _). simpl. intros [=]. lia.
Qed.

(** Splitting off the sign. *)
Lemma split_sign s :
  match s with 45 :: p => (true, p) | _ => (false, s) end =
  if decide (head s = Some 45) then (true, tail s) else (false, s).
Proof.
  destruct s as [|c p]; [done|]. simpl. destruct (decide (c = 45)) as [-> |Hne].
  - by rewrite decide_True.
  - rewrite decide_False by congruence. by repeat case_match.
Qed.

Lemma string2ll_iff s v : string2ll s = Some v <-> s = dec v /\ in_s 64 v.
Proof.
  unfold string2ll, LONG_STR_SIZE. rewrite split_sign. unfold dec, in_s.
  change (64 - 1) with 63.
  destruct (decide (s = [48])) as [-> |H0].
  { simpl. split.
    - intros [= <-]. done.
    - intros [Hs Hv]. destruct (Z.ltb_spec v 0); [done|].
      destruct (Z.eq_dec v 0) as [-> |]; [done|].
      destruct (udec_digits v ltac:(lia)) as (d & ds & Hu & Hd & _). rewrite Hu in Hs.
      simplify_eq. lia. }
  assert (Hb : (zlen s =? 1) && bool_decide (head s = Some 48) = false).
  { destruct (Z.eqb_spec (zlen s) 1); [|done]. apply bool_decide_eq_false. intros Hh.
    destruct s as [|c [|? ?]]; simplify_eq/=; done || lia. }
  rewrite Hb. split.
  - destruct ((zlen s =? 0) || (zlen s >=? 21)); [done|].
    destruct (decide (head s = Some 45)) as [Hh|Hh]; intros (u & Hu & Hr & ->)%string2ll_digits_iff.
    + rw_true (- u <? 0). split; [|lia]. destruct s; [done|]. simpl in *. rewrite Z.opp_involutive.
      congruence.
    + rw_false (u <? 0). split; [done|lia].
  - intros [Hs Hv].
    assert (Hlen : 0 < zlen s < 21).
    { rewrite Hs. destruct (Z.ltb_spec v 0); cbn [length].
      - pose proof (udec_length_19 (- v)). lia.
      - pose proof (udec_length_19 v). pose proof (udec_length_bound v). lia. }
    rw_false ((zlen s =? 0) || (zlen s >=? 21)). subst s. destruct (Z.ltb_spec v 0).
    + rewrite decide_True by done. apply string2ll_digits_iff. exists (- v). cbn [tail]. split; [done|]. cbv match. lia.
    + rewrite decide_False by (apply dec_head_minus; lia). apply string2ll_digits_iff.
      exists v. split; [done|]. split; [|done]. destruct (Z.eq_dec v 0) as [-> |]; [done|lia].
Qed.

(** [string2ll] is exact: it accepts a byte string iff it is the canonical
    decimal notation of a 64 bit signed integer (no sign for positives, no
    leading zeros, no other bytes, no overflow), and returns that integer. *)
Theorem string2ll_correct s v : string2ll s = Some v <-> s = dec v /\ in_s 64 v.
Proof. apply string2ll_iff. Qed.

Lemma dec_length v : in_s 64 v -> 1 <= zlen (dec v) <= 20.
Proof.
  unfold in_s, dec. change (64 - 1) with 63. intros Hv. destruct (Z.ltb_spec v 0).
  - pose proof (udec_length_19 (- v)). pose proof (udec_length_bound (- v)). rewrite length_cons. lia.
  - pose proof (udec_length_bound v). lia.
Qed.

Lemma sdigits10_spec v : in_s 64 v -> sdigits10 v = Some (zlen (dec v)).
Proof.
  unfold in_s. change (64 - 1) with 63. intros Hv. unfold sdigits10, dec.
  destruct (Z.ltb_spec v 0); [|apply digits10_spec; lia].
  assert (Hu : (if negb (v =? LLONG_MIN) then uwrap 64 (- v) else LLONG_MAX + 1) = - v).
  { unfold LLONG_MIN, LLONG_MAX. destruct (Z.eqb_spec v (- 2 ^ 63)); simpl; [lia|].
    apply uwrap_id. unfold in_u. lia. }
  rewrite Hu, digits10_spec by lia. mred. cbn [length]. f_equal. lia.
Qed.

Lemma ll2string_ok dst v :
  in_s 64 v -> zlen (dec v) < zlen dst ->
  exists rest, ll2string dst v = Some (dec v ++ 0 :: rest, zlen (dec v)) /\
    rest = drop (S (length (dec v))) dst /\ sdigits10 v = Some (zlen (dec v)) /\
    string2ll (dec v) = Some v.
Proof.
  intros Hv Hd. eexists. split; [|split; [done|split; [by apply sdigits10_spec|by apply string2ll_iff]]].
  unfold in_s in Hv. change (64 - 1) with 63 in Hv. unfold ll2string, dec in *.
  destruct (Z.ltb_spec v 0).
  - assert (Hu : (if negb (v =? LLONG_MIN) then - v else LLONG_MAX + 1) = - v).
    { unfold LLONG_MIN, LLONG_MAX. destruct (Z.eqb_spec v (- 2 ^ 63)); simpl; lia. }
    rewrite Hu. pose proof (udec_length_bound (- v) ltac:(lia)). cbn [length] in Hd.
    rw_false (zlen dst <? 2). destruct dst as [|a dst]; [simpl in Hd; lia|].
    change (a :: dst) with ([a] ++ dst) at 1. rewrite wrn_0 by done. mred.
    cbn [app drop take]. rewrite drop_0. cbn [length] in Hd.
    rewrite ull2string_ok by lia. mred. rw_false (zlen (udec (- v)) =? 0).
    cbn [app length]. f_equal. f_equal. lia.
  - pose proof (udec_length_bound v ltac:(lia)).
    rewrite ull2string_ok by lia. mred. by rw_false (zlen (udec v) =? 0).
Qed.

(** Printing is correct and round-trips: for every 64 bit value and any
    buffer longer than [sdigits10] bytes, [ll2string] writes the canonical
    decimal notation and a terminator inside the buffer, leaves the rest of it
    unchanged, returns the length, and [string2ll] reads the value back. *)
Theorem ll2string_roundtrip dst v :
  in_s 64 v -> zlen (dec v) < zlen dst ->
  exists rest, ll2string dst v = Some (dec v ++ 0 :: rest, zlen (dec v)) /\
    rest = drop (S (length (dec v))) dst /\ sdigits10 v = Some (zlen (dec v)) /\
    string2ll (dec v) = Some v.
Proof. apply ll2string_ok. Qed.

(** The memory-size parser of the configuration applies the documented
    units: digits followed by b, k, kb, m, mb, g or gb in any case give the
    number times the unit (reduced modulo [2^64]), and anything else is an
    error. [strtoull] is the C library's: on fewer than 128 decimal digits it
    returns their value, saturated, and consumes them. *)
Theorem memtoull_correct strtoull d u :
  (forall ds, ds <> [] -> all_digits ds ->
     strtoull ds = {| st_value := Z.min (dval ds 0) ULLONG_MAX; st_einval := false;
                      st_erange := ULLONG_MAX <? dval ds 0; st_rest := [] |}) ->
  d <> [] -> all_digits d -> zlen d < 128 ->
  match u with c :: _ => isdigit c = false | [] => True end ->
  memtoull strtoull (d ++ u) =
  match memtoull_mul u with
  | Some mul => (uwrap 64 (Z.min (dval d 0) ULLONG_MAX * mul), false)
  | None => (0, true)
  end.
Proof.
  intros Hst Hne Hd Hlen Hu. unfold memtoull.
  assert (Hspan : span_digits (d ++ u) = (d, u)).
  { clear Hne Hlen. induction Hd as [|c d Hc Hd IH]; simpl.
    - destruct u as [|c u]; [done|]. simpl. by rewrite Hu.
    - unfold isdigit. rw_true ((48 <=? c) && (c <=? 57)). by rewrite IH. }
  rewrite bool_decide_false.
  2: { destruct d as [|c d]; [done|]. simpl. apply Forall_cons in Hd as [Hc _]. intros [=]. lia. }
  rewrite Hspan. destruct (memtoull_mul u) as [m|]; [|done].
  rw_false (zlen d >=? 128). rewrite Hst by done. simpl. by rewrite andb_false_r.
Qed.

(** ** Witnesses *)

Lemma ll2string_roundtrip_witness :
  exists rest, ll2string (replicate 21 7) LLONG_MIN = Some (dec LLONG_MIN ++ 0 :: rest, 20) /\
    string2ll (str "-9223372036854775808") = Some LLONG_MIN.
Proof.
  destruct (ll2string_roundtrip (replicate 21 7) LLONG_MIN) as (rest & H1 & _ & _ & H2).
  - unfold in_s, LLONG_MIN. simpl. lia.
  - vm_compute. reflexivity.
  - exists rest. split; [exact H1|exact H2].
Defined.

(** A [strtoull] with the documented behaviour on strings of digits. *)
Definition strtoull_example (s : list Z) : strtoull_result :=
  {| st_value := Z.min (dval s 0) ULLONG_MAX; st_einval := false;
     st_erange := ULLONG_MAX <? dval s 0; st_rest := [] |}.

Lemma memtoull_correct_witness : memtoull strtoull_example (str "12" ++ str "Kb") = (12288, false).
Proof.
  rewrite (memtoull_correct strtoull_example (str "12") (str "Kb"));
    [reflexivity|reflexivity|done|by repeat constructor|vm_compute; reflexivity|reflexivity].
Defined.

End Numbers.
