(* ===== verification/Sds.v ===== *)
(** * Simple dynamic strings ([redis-stable/src/sds.c], [sds.h])

    The header types with their field widths, allocation and growth, and the
    in-place operations. *)

From S2P Require Import Prelude.

Module Sds.

(** ** Data

    [sds_type], [sds_len] and [sds_alloc] are the header fields; [sds_buf] is
    the memory from the string pointer to the end of the allocation.  In
    [SDS_TYPE_5] the length lives in the upper five bits of the flags byte and
    there is no [alloc] field ([sds_alloc] is then unused). *)
Record sds := Mk {
  sds_type : Z;
  sds_len : Z;
  sds_alloc : Z;
  sds_buf : list Z
}.

Definition SDS_TYPE_5 : Z := 0.
Definition SDS_TYPE_8 : Z := 1.
Definition SDS_TYPE_16 : Z := 2.
Definition SDS_TYPE_32 : Z := 3.
Definition SDS_TYPE_64 : Z := 4.
Definition SDS_MAX_PREALLOC : Z := 1024 * 1024.

(** [sizeof(struct sdshdrN)] *)
Definition sdsHdrSize (type : Z) : Z :=
  if type =? SDS_TYPE_5 then 1
  else if type =? SDS_TYPE_8 then 3
  else if type =? SDS_TYPE_16 then 5
  else if type =? SDS_TYPE_32 then 9
  else if type =? SDS_TYPE_64 then 17
  else 0.

(** Width in bits of the [len] and [alloc] fields. *)
Definition field_bits (type : Z) : Z :=
  if type =? SDS_TYPE_5 then 5
  else if type =? SDS_TYPE_8 then 8
  else if type =? SDS_TYPE_16 then 16
  else if type =? SDS_TYPE_32 then 32
  else 64.

Definition sdsReqType (string_size : Z) : Z :=
  if string_size <? Z.shiftl 1 5 then SDS_TYPE_5
  else if string_size <=? Z.shiftl 1 8 - 3 - 1 then SDS_TYPE_8
  else if string_size <=? Z.shiftl 1 16 - 5 - 1 then SDS_TYPE_16
  else if string_size <=? Z.shiftl 1 32 - 9 - 1 then SDS_TYPE_32
  else SDS_TYPE_64.

Definition sdsTypeMaxSize (type : Z) : Z :=
  if type =? SDS_TYPE_5 then Z.shiftl 1 5 - 1
  else if type =? SDS_TYPE_8 then Z.shiftl 1 8 - 1
  else if type =? SDS_TYPE_16 then Z.shiftl 1 16 - 1
  else if type =? SDS_TYPE_32 then Z.shiftl 1 32 - 1
  else uwrap 64 (-1).

Definition sdsReqSize (len type : Z) : Z := len + sdsHdrSize type + 1.

(** The new type and header length, and whether the type was adjusted. *)
Definition adjustTypeIfNeeded (type hdrlen bufsize : Z) : Z * Z * bool :=
  let usable := uwrap 64 (bufsize - hdrlen - 1) in
  if negb (type =? SDS_TYPE_5) && (usable >? sdsTypeMaxSize type)
  then (sdsReqType usable, sdsHdrSize (sdsReqType usable), true)
  else (type, hdrlen, false).

Definition sdslen (s : sds) : Z := sds_len s.

Definition sdsalloc (s : sds) : Z :=
  if sds_type s =? SDS_TYPE_5 then sds_len s else sds_alloc s.

Definition sdsavail (s : sds) : Z :=
  if sds_type s =? SDS_TYPE_5 then 0 else sds_alloc s - sds_len s.

Definition sdsAllocSize (s : sds) : Z := sdsHdrSize (sds_type s) + sdsalloc s + 1.

(** Stores truncate to the width of the field. *)
Definition sdssetlen (s : sds) (newlen : Z) : sds :=
  Mk (sds_type s) (uwrap (field_bits (sds_type s)) newlen) (sds_alloc s) (sds_buf s).

Definition sdssetalloc (s : sds) (newlen : Z) : sds :=
  if sds_type s =? SDS_TYPE_5 then s
  else Mk (sds_type s) (sds_len s) (uwrap (field_bits (sds_type s)) newlen) (sds_buf s).

Definition set_buf (s : sds) (b : list Z) : sds :=
  Mk (sds_type s) (sds_len s) (sds_alloc s) b.

Definition sdsclear (s : sds) : option sds :=
  let s := sdssetlen s 0 in
  b ← wrn (sds_buf s) 0 [0]; Some (set_buf s b).

(** [s[len] = 0; sdssetlen(s, len)] *)
Definition terminate (s : sds) (len : Z) : option sds :=
  b ← wrn (sds_buf s) len [0]; Some (sdssetlen (set_buf s b) len).

(** [strlen] on the buffer. *)
Fixpoint strlen (b : list Z) : option Z :=
  match b with
  | [] => None
  | c :: b => if c =? 0 then Some 0 else n ← strlen b; Some (n + 1)
  end.

Definition sdsupdatelen (s : sds) : option sds :=
  reallen ← strlen (sds_buf s); Some (sdssetlen s reallen).

(** The initial content passed to the constructors. *)
Inductive sdsinit := Init (t : list Z) | InitNull | InitNoinit.

Section Alloc.
(** The allocator: [usable n] is the usable size of a block requested with [n]
    bytes, [junk] the content of fresh memory, [je_nallocx] jemalloc's size
    query when it is the allocator. *)
Context (usable : Z -> Z) (junk : nat -> Z) (je_nallocx : option (Z -> Z)).

Definition sdsnewplacement (bufsize type : Z) (init : sdsinit) (initlen : Z) : option sds :=
  if negb (bufsize >=? sdsReqSize initlen type) then None
  else
    let hdrlen := sdsHdrSize type in
    let u := bufsize - hdrlen - 1 in
    let s := Mk type 0 0 (zrealloc junk [] (bufsize - hdrlen)) in
    let s := sdssetalloc (sdssetlen s initlen) u in
    b ← (match init with
         | InitNoinit => Some (sds_buf s)
         | InitNull => wrn (sds_buf s) 0 (replicate (Z.to_nat initlen) 0)
         | Init t => bs ← rdn t 0 initlen; wrn (sds_buf s) 0 bs
         end);
    b ← wrn b initlen [0];
    Some (set_buf s b).

(** [None] is an assertion failure; the inner [None] is the [NULL] of the
    [trymalloc] variant. *)
Definition _sdsnewlen (init : sdsinit) (initlen : Z) (trymalloc : bool) : option (option sds) :=
  let type := sdsReqType initlen in
  let type := if (type =? SDS_TYPE_5) && (initlen =? 0) then SDS_TYPE_8 else type in
  let hdrlen := sdsHdrSize type in
  if uwrap 64 (initlen + hdrlen + 1) <=? initlen then
    if trymalloc then Some None else None
  else
    let bufsize := usable (hdrlen + initlen + 1) in
    let '(type, hdrlen, _) := adjustTypeIfNeeded type hdrlen bufsize in
    s ← sdsnewplacement bufsize type init initlen; Some (Some s).

Definition sdsnewlen (init : sdsinit) (initlen : Z) : option sds :=
  r ← _sdsnewlen init initlen false; r.

Definition sdsempty : option sds := sdsnewlen (Init []) 0.

Definition sdsdup (s : sds) : option sds := sdsnewlen (Init (sds_buf s)) (sdslen s).

(** [memmove(newsh + hdrlen', s, len + 1)] inside one block: the string moves
    up by [d] bytes, the bytes after it are the old ones at their address. *)
Definition shift_up (b : list Z) (d len : Z) : list Z :=
  take (Z.to_nat (len + 1)) b ++ drop (Z.to_nat (len + 1 + d)) b.

Definition _sdsMakeRoomFor (s : sds) (addlen : Z) (greedy : bool) : option sds :=
  let avail := sdsavail s in
  let oldtype := sds_type s in
  if avail >=? addlen then Some s
  else
    let len := sdslen s in
    let newlen := uwrap 64 (len + addlen) in
    let reqlen := newlen in
    if negb (newlen >? len) then None
    else
      let newlen :=
        if greedy then
          if newlen <? SDS_MAX_PREALLOC then uwrap 64 (newlen * 2)
          else uwrap 64 (newlen + SDS_MAX_PREALLOC)
        else newlen in
      let type := sdsReqType newlen in
      let type := if type =? SDS_TYPE_5 then SDS_TYPE_8 else type in
      let hdrlen := sdsHdrSize type in
      if negb (uwrap 64 (hdrlen + newlen + 1) >? reqlen) then None
      else
        let bufsize := usable (hdrlen + newlen + 1) in
        let '(type', hdrlen', adjusted) := adjustTypeIfNeeded type hdrlen bufsize in
        let s' :=
          if oldtype =? type then
            let s1 := set_buf s (zrealloc junk (sds_buf s) (bufsize - hdrlen)) in
            if (adjusted : bool) then
              sdssetlen (Mk type' (sds_len s1) (sds_alloc s1)
                           (shift_up (sds_buf s1) (hdrlen' - hdrlen) len)) len
            else s1
          else
            sdssetlen (Mk type' 0 0
              (zrealloc junk (take (Z.to_nat (len + 1)) (sds_buf s)) (bufsize - hdrlen'))) len in
        let u := bufsize - hdrlen' - 1 in
        if (type' =? SDS_TYPE_5) || (u <=? sdsTypeMaxSize type')
        then Some (sdssetalloc s' u) else None.

Definition sdsMakeRoomFor (s : sds) (addlen : Z) : option sds := _sdsMakeRoomFor s addlen true.
Definition sdsMakeRoomForNonGreedy (s : sds) (addlen : Z) : option sds :=
  _sdsMakeRoomFor s addlen false.

Definition sdsResize (s : sds) (size : Z) (would_regrow : bool) : option sds :=
  let oldtype := sds_type s in
  let oldhdrlen := sdsHdrSize oldtype in
  let len := sdslen s in
  if sdsalloc s =? size then Some s
  else
    let len := if size <? len then size else len in
    let type := sdsReqType size in
    let type := if would_regrow && (type =? SDS_TYPE_5) then SDS_TYPE_8 else type in
    let hdrlen := sdsHdrSize type in
    let use_realloc := (oldtype =? type) || ((type <? oldtype) && (type >? SDS_TYPE_8)) in
    let newlen := if use_realloc then oldhdrlen + size + 1 else hdrlen + size + 1 in
    let '(s', newsize) :=
      if use_realloc then
        let already_optimal :=
          match je_nallocx with
          | Some f => f newlen =? sdsAllocSize s
          | None => false
          end in
        if already_optimal then (s, sdsAllocSize s - oldhdrlen - 1)
        else
          let bufsize := usable newlen in
          let s1 := set_buf s (zrealloc junk (sds_buf s) (bufsize - oldhdrlen)) in
          let '(type', hdrlen', adjusted) := adjustTypeIfNeeded oldtype oldhdrlen bufsize in
          ((if (adjusted : bool) then
              sdssetlen (Mk type' (sds_len s1) (sds_alloc s1)
                           (shift_up (sds_buf s1) (hdrlen' - oldhdrlen) len)) len
            else s1),
           bufsize - hdrlen' - 1)
      else
        let bufsize := usable newlen in
        let '(type', hdrlen', _) := adjustTypeIfNeeded type hdrlen bufsize in
        (Mk type' 0 0 (zrealloc junk (take (Z.to_nat (len + 1)) (sds_buf s)) (bufsize - hdrlen')),
         bufsize - hdrlen' - 1) in
    s' ← terminate s' len;
    Some (sdssetalloc s' newsize).

Definition sdsRemoveFreeSpace (s : sds) (would_regrow : bool) : option sds :=
  sdsResize s (sdslen s) would_regrow.

Definition sdsgrowzero (s : sds) (len : Z) : option sds :=
  let curlen := sdslen s in
  if len <=? curlen then Some s
  else
    s ← sdsMakeRoomFor s (len - curlen);
    b ← wrn (sds_buf s) curlen (replicate (Z.to_nat (len - curlen + 1)) 0);
    Some (sdssetlen (set_buf s b) len).

Definition sdscatlen (s : sds) (t : list Z) : option sds :=
  let curlen := sdslen s in
  let len := zlen t in
  s ← sdsMakeRoomFor s len;
  b ← wrn (sds_buf s) curlen t;
  terminate (set_buf s b) (curlen + len).

Definition sdscatsds (s t : sds) : option sds :=
  sdscatlen s (take (Z.to_nat (sdslen t)) (sds_buf t)).

Definition sdscpylen (s : sds) (t : list Z) : option sds :=
  let len := zlen t in
  s ← (if sdsalloc s <? len then sdsMakeRoomFor s (len - sdslen s) else Some s);
  b ← wrn (sds_buf s) 0 t;
  terminate (set_buf s b) len.

End Alloc.

(** The lengths allowed by the assertions of [sdsIncrLen]; [None] otherwise. *)
Definition sdsIncrLen (s : sds) (incr : Z) : option sds :=
  let ok :=
    if sds_type s =? SDS_TYPE_5 then
      ((incr >? 0) && (sds_len s + incr <? 32)) || ((incr <? 0) && (sds_len s >=? uwrap 32 (- incr)))
    else if (sds_type s =? SDS_TYPE_8) || (sds_type s =? SDS_TYPE_16) then
      ((incr >=? 0) && (sds_alloc s - sds_len s >=? incr))
      || ((incr <? 0) && (sds_len s >=? uwrap 32 (- incr)))
    else if sds_type s =? SDS_TYPE_32 then
      ((incr >=? 0) && (uwrap 32 (sds_alloc s - sds_len s) >=? uwrap 32 incr))
      || ((incr <? 0) && (sds_len s >=? uwrap 32 (- incr)))
    else
      ((incr >=? 0) && (uwrap 64 (sds_alloc s - sds_len s) >=? uwrap 64 incr))
      || ((incr <? 0) && (sds_len s >=? uwrap 64 (- incr))) in
  if ok then terminate s (uwrap (field_bits (sds_type s)) (sds_len s + incr)) else None.

(** [strchr(cset, c)] finds the terminator too. *)
Definition in_cset (cset : list Z) (c : Z) : bool := bool_decide (c ∈ cset) || (c =? 0).

(** [while(sp <= end && strchr(cset, *sp)) sp++] and its mirror image: positions
    in the string of length [n]. *)
Fixpoint trim_left (fuel : nat) (cset b : list Z) (sp end_ : Z) : option Z :=
  match fuel with
  | O => None
  | S fuel =>
    if sp <=? end_ then
      c ← rd b sp; if in_cset cset c then trim_left fuel cset b (sp + 1) end_ else Some sp
    else Some sp
  end.

Fixpoint trim_right (fuel : nat) (cset b : list Z) (sp ep : Z) : option Z :=
  match fuel with
  | O => None
  | S fuel =>
    if ep >? sp then
      c ← rd b ep; if in_cset cset c then trim_right fuel cset b sp (ep - 1) else Some ep
    else Some ep
  end.

Definition sdstrim (s : sds) (cset : list Z) : option sds :=
  let end_ := sdslen s - 1 in
  sp ← trim_left (S (Z.to_nat (sdslen s))) cset (sds_buf s) 0 end_;
  ep ← trim_right (S (Z.to_nat (sdslen s))) cset (sds_buf s) sp end_;
  let len := ep - sp + 1 in
  b ← (if negb (sp =? 0) then memmove (sds_buf s) 0 sp len else Some (sds_buf s));
  terminate (set_buf s b) len.

Definition sdssubstr (s : sds) (start len : Z) : option sds :=
  let oldlen := sdslen s in
  let '(start, len) := if start >=? oldlen then (0, 0) else (start, len) in
  let len := if len >? oldlen - start then oldlen - start else len in
  b ← (if negb (len =? 0) then memmove (sds_buf s) 0 start len else Some (sds_buf s));
  terminate (set_buf s b) len.

(** [start] and [end] are [ssize_t]; [sdssubstr] takes [size_t]. *)
Definition sdsrange (s : sds) (start end_ : Z) : option sds :=
  let len := sdslen s in
  if len =? 0 then Some s
  else
    let start := if start <? 0 then swrap 64 (uwrap 64 (len + uwrap 64 start)) else start in
    let end_ := if end_ <? 0 then swrap 64 (uwrap 64 (len + uwrap 64 end_)) else end_ in
    let newlen := if start >? end_ then 0 else swrap 64 (end_ - start) + 1 in
    sdssubstr s (uwrap 64 start) (uwrap 64 newlen).

(** [memcmp] on unsigned bytes, over equally long prefixes. *)
Fixpoint memcmp (a b : list Z) : Z :=
  match a, b with
  | x :: a, y :: b => if x =? y then memcmp a b else x - y
  | _, _ => 0
  end.

Definition content (s : sds) : list Z := take (Z.to_nat (sds_len s)) (sds_buf s).

Definition sdscmp (s1 s2 : sds) : Z :=
  let l1 := sdslen s1 in
  let l2 := sdslen s2 in
  let minlen := if l1 <? l2 then l1 else l2 in
  let cmp := memcmp (take (Z.to_nat minlen) (sds_buf s1)) (take (Z.to_nat minlen) (sds_buf s2)) in
  if cmp =? 0 then if l1 >? l2 then 1 else if l1 <? l2 then -1 else 0 else cmp.

Definition tolower (c : Z) : Z := if (65 <=? c) && (c <=? 90) then c + 32 else c.
Definition toupper (c : Z) : Z := if (97 <=? c) && (c <=? 122) then c - 32 else c.

Definition map_content (f : Z -> Z) (s : sds) : sds :=
  set_buf s (map f (content s) ++ drop (Z.to_nat (sds_len s)) (sds_buf s)).
Definition sdstolower (s : sds) : sds := map_content tolower s.
Definition sdstoupper (s : sds) : sds := map_content toupper s.

(** ** Invariant *)

Record wf (s : sds) : Prop := {
  wf_type : 0 <= sds_type s <= 4;
  wf_len : 0 <= sds_len s <= sdsalloc s;
  wf_max : sdsalloc s <= sdsTypeMaxSize (sds_type s);
  wf_buf : sdsalloc s + 1 <= zlen (sds_buf s);
  wf_term : rd (sds_buf s) (sds_len s) = Some 0
}.

(** Case analysis on the five header types. *)
Ltac types H :=
  let T := fresh "T" in
  match type of H with 0 <= ?t <= 4 =>
    assert (t = 0 \/ t = 1 \/ t = 2 \/ t = 3 \/ t = 4) as T by lia;
    destruct T as [T|[T|[T|[T|T]]]]; rewrite T in *; clear T; cbn in *
  end.

Lemma maxsize_bits t : 0 <= t <= 4 -> sdsTypeMaxSize t = 2 ^ field_bits t - 1 /\ 0 <= field_bits t.
Proof. intros H. types H; split; (done || lia). Qed.

Lemma setlen_id t n : 0 <= t <= 4 -> 0 <= n <= sdsTypeMaxSize t -> uwrap (field_bits t) n = n.
Proof.
  intros Ht Hn. destruct (maxsize_bits t Ht) as [Hm Hb]. apply uwrap_id. unfold in_u. lia.
Qed.

Lemma rd_app_mid a x b i : zlen a = i -> rd (a ++ x :: b) i = Some x.
Proof. intros H. by rewrite (rd_app_r a (x :: b) i H). Qed.

Lemma split_at (b : list Z) i :
  0 <= i < zlen b -> exists x, b = take (Z.to_nat i) b ++ x :: drop (Z.to_nat i + 1) b.
Proof.
  intros Hi. destruct (lookup_lt_is_Some_2 b (Z.to_nat i)) as [x Hx]; [lia|].
  exists x. rewrite Nat.add_1_r. by rewrite take_drop_middle.
Qed.

Lemma wrn_one b i x :
  0 <= i < zlen b -> wrn b i [x] = Some (take (Z.to_nat i) b ++ x :: drop (Z.to_nat i + 1) b).
Proof.
  intros Hi. unfold wrn. destruct ((0 <=? i) && (i + zlen [x] <=? zlen b)) eqn:E; [done|].
  exfalso. change (zlen [x]) with 1 in E. lia.
Qed.

Lemma wf_setlen s b n :
  wf s -> length b = length (sds_buf s) -> 0 <= n <= sdsalloc s -> rd b n = Some 0 ->
  let s' := sdssetlen (set_buf s b) n in
  wf s' /\ content s' = take (Z.to_nat n) b /\ sdslen s' = n /\ sds_type s' = sds_type s.
Proof.
  intros [Ht Hl Hm Hb Hz] Hlen Hn H0.
  unfold sdssetlen, content, sdslen; cbn [sds_type sds_len sds_alloc sds_buf set_buf].
  rewrite setlen_id by lia. split; [|done].
  split; cbn [sds_type sds_len sds_alloc sds_buf]; try done;
    unfold sdsalloc in *; cbn [sds_type sds_len sds_alloc sds_buf];
    destruct (sds_type s =? SDS_TYPE_5); lia.
Qed.

Lemma terminate_ok s b n :
  wf s -> length b = length (sds_buf s) -> 0 <= n <= sdsalloc s ->
  exists s', terminate (set_buf s b) n = Some s' /\ wf s' /\
    content s' = take (Z.to_nat n) b /\ sdslen s' = n /\ sds_type s' = sds_type s.
Proof.
  intros Hwf Hlen Hn. pose proof (wf_buf s Hwf). unfold terminate. cbn [set_buf sds_buf].
  rewrite wrn_one by lia. mred.
  change (set_buf (set_buf s b) ?x) with (set_buf s x). eexists. split; [done|].
  edestruct (wf_setlen s (take (Z.to_nat n) b ++ 0 :: drop (Z.to_nat n + 1) b) n) as (?&Hc&?&?);
    [done| |done| |split; [done|]; rewrite Hc].
  - rewrite length_app. cbn [length]. rewrite length_take, length_drop. lia.
  - apply rd_app_mid. rewrite length_take. lia.
  - rewrite take_app_length'; [done|]. rewrite length_take. lia.
Qed.

Lemma content_length s : wf s -> zlen (content s) = sds_len s.
Proof. intros [Ht Hl Hm Hb Hz]. unfold content. rewrite length_take. lia. Qed.

(** *** In-place operations *)

Lemma memmove_front b src n :
  0 <= src -> 0 <= n -> src + n <= zlen b ->
  exists b', memmove b 0 src n = Some b' /\ length b' = length b /\
    take (Z.to_nat n) b' = take (Z.to_nat n) (drop (Z.to_nat src) b).
Proof.
  intros Hs Hn Hb. unfold memmove.
  set (w := take (Z.to_nat n) (drop (Z.to_nat src) b)).
  assert (Hw : length w = Z.to_nat n) by (unfold w; rewrite length_take, length_drop; lia).
  assert (rdn b src n = Some w) as -> by (by apply rdn_Some). mred.
  pose proof (wrn_0 (take (length w) b) (drop (length w) b) w) as Hwr.
  rewrite take_drop in Hwr. rewrite Hwr by (rewrite length_take; lia).
  eexists. split; [done|]. split.
  - rewrite length_app, length_drop. lia.
  - by rewrite take_app_length' by lia.
Qed.

Lemma substr_spec s start len :
  wf s -> 0 <= start -> 0 <= len ->
  exists s', sdssubstr s start len = Some s' /\ wf s' /\
    content s' = take (Z.to_nat len) (drop (Z.to_nat start) (content s)).
Proof.
  intros Hwf Hs Hl. pose proof Hwf as [Ht Hlen Hm Hb Hz]. unfold sdssubstr, sdslen.
  destruct (if start >=? sds_len s then (0, 0) else (start, len)) as [st ln] eqn:Ep.
  set (n := if ln >? sds_len s - st then sds_len s - st else ln).
  assert (Hp : 0 <= st <= sds_len s /\ 0 <= n <= sds_len s - st /\
    take (Z.to_nat n) (drop (Z.to_nat st) (sds_buf s))
    = take (Z.to_nat len) (drop (Z.to_nat start) (content s))).
  { unfold content. rewrite take_drop_take. subst n. rewrite Z.gtb_ltb.
    destruct (Z.geb_spec start (sds_len s)); simplify_eq.
    - rw_false (sds_len s - 0 <? 0). split_and!; try lia.
      by replace (Z.to_nat len `min` (Z.to_nat (sds_len s) - Z.to_nat start))%nat with 0%nat by lia.
    - destruct (Z.ltb_spec (sds_len s - st) ln); split_and!; try lia; f_equal; lia. }
  destruct Hp as (Hp1 & Hn & <-).
  assert (exists b, (if negb (n =? 0) then memmove (sds_buf s) 0 st n else Some (sds_buf s)) = Some b
    /\ length b = length (sds_buf s) /\
    take (Z.to_nat n) b = take (Z.to_nat n) (drop (Z.to_nat st) (sds_buf s)))
    as (b & -> & Hbl & <-).
  { destruct (Z.eqb_spec n 0) as [-> |]; simpl; [by eexists|]. apply memmove_front; lia. }
  mred. destruct (terminate_ok s b n Hwf Hbl) as (s' & -> & Hwf' & Hc & _); [lia|]. eauto.
Qed.

(** Resolution of a possibly negative index. *)
Definition resolve (len i : Z) : Z := if i <? 0 then len + i else i.

(** [sdsrange] keeps the bytes between the two inclusive indexes, negative
    ones counting from the end; an index still negative after that yields the
    empty string, and the end is clamped. *)
Theorem sdsrange_correct s start end_ :
  wf s -> sds_len s < 2 ^ 62 -> - 2 ^ 62 <= start < 2 ^ 62 -> - 2 ^ 62 <= end_ < 2 ^ 62 ->
  let st := resolve (sds_len s) start in
  let en := resolve (sds_len s) end_ in
  exists s', sdsrange s start end_ = Some s' /\ wf s' /\
    content s' = if st <? 0 then []
                 else take (Z.to_nat (en - st + 1)) (drop (Z.to_nat st) (content s)).
Proof.
  intros Hwf Hlen Hst Hen st en. pose proof Hwf as [Ht Hl Hm Hb Hz].
  unfold sdsrange, sdslen. destruct (Z.eqb_spec (sds_len s) 0) as [H0|H0].
  { exists s. split; [done|]. split; [done|].
    assert (content s = []) as -> by (unfold content; by rewrite H0).
    rewrite drop_nil, take_nil. by destruct (st <? 0). }
  assert (Hres : forall i, - 2 ^ 62 <= i < 2 ^ 62 ->
    (if i <? 0 then swrap 64 (uwrap 64 (sds_len s + uwrap 64 i)) else i) = resolve (sds_len s) i).
  { intros i Hi. unfold resolve. destruct (i <? 0); [|done].
    rewrite swrap_uwrap by lia. unfold uwrap, swrap. rewrite Z.add_shuffle0, Zplus_mod_idemp_r.
    replace (sds_len s + 2 ^ (64 - 1) + i) with (sds_len s + i + 2 ^ (64 - 1)) by lia.
    apply (swrap_id 64); [lia|unfold in_s; lia]. }
  rewrite !Hres by done. fold st en.
  assert (Hr : - 2 ^ 62 <= st < 2 ^ 62 /\ - 2 ^ 62 <= en < 2 ^ 62).
  { unfold st, en, resolve. zbool; lia. }
  assert (Hn : (if st >? en then 0 else swrap 64 (en - st) + 1) = Z.max 0 (en - st + 1)).
  { rewrite Z.gtb_ltb. destruct (Z.ltb_spec en st); [lia|].
    rewrite swrap_id by (unfold in_s; lia). lia. }
  rewrite Hn, (uwrap_id 64 (Z.max _ _)) by (unfold in_u; lia).
  destruct (substr_spec s (uwrap 64 st) (Z.max 0 (en - st + 1)) Hwf) as (s' & -> & Hwf' & Hc);
    [apply uwrap_range; lia|lia|].
  exists s'. split; [done|]. split; [done|]. rewrite Hc. destruct (Z.ltb_spec st 0).
  - rewrite drop_ge; [apply take_nil|]. pose proof (content_length s Hwf).
    replace (uwrap 64 st) with (2 ^ 64 + st); [lia|].
    unfold uwrap. rewrite <- (Z.mod_add st 1 (2 ^ 64)) by lia. rewrite Z.mod_small; lia.
  - rewrite uwrap_id by (unfold in_u; lia). f_equal. lia.
Qed.

(** *** Allocation *)

(** The longest string for which [sdsReqType] chooses at most the type. *)
Definition type_limit (t : Z) : Z :=
  if t =? SDS_TYPE_5 then 31
  else if t =? SDS_TYPE_8 then 2 ^ 8 - 4
  else if t =? SDS_TYPE_16 then 2 ^ 16 - 6
  else if t =? SDS_TYPE_32 then 2 ^ 32 - 10
  else 2 ^ 64 - 1.

Lemma sdsReqType_cases n :
  (n < 32 /\ sdsReqType n = 0) \/ (32 <= n <= 252 /\ sdsReqType n = 1) \/
  (252 < n <= 65530 /\ sdsReqType n = 2) \/ (65530 < n <= 4294967286 /\ sdsReqType n = 3) \/
  (4294967286 < n /\ sdsReqType n = 4).
Proof.
  unfold sdsReqType. change (Z.shiftl 1 5) with 32.
  change (Z.shiftl 1 8 - 3 - 1) with 252. change (Z.shiftl 1 16 - 5 - 1) with 65530.
  change (Z.shiftl 1 32 - 9 - 1) with 4294967286.
  destruct (Z.ltb_spec n 32); [by left|right]. destruct (Z.leb_spec n 252); [by left|right].
  destruct (Z.leb_spec n 65530); [by left|right]. destruct (Z.leb_spec n 4294967286); [by left|right].
  done.
Qed.

Lemma max_values : sdsTypeMaxSize 1 = 255 /\ sdsTypeMaxSize 2 = 65535 /\
  sdsTypeMaxSize 3 = 4294967295 /\ sdsTypeMaxSize 4 = 18446744073709551615.
Proof. done. Qed.

Lemma hdr_values : sdsHdrSize 1 = 3 /\ sdsHdrSize 2 = 5 /\ sdsHdrSize 3 = 9 /\ sdsHdrSize 4 = 17.
Proof. done. Qed.

Lemma limit_values : type_limit 1 = 252 /\ type_limit 2 = 65530 /\ type_limit 3 = 4294967286.
Proof. done. Qed.

Lemma adjust_spec t bufsize n t' h' a :
  1 <= t <= 4 -> 0 <= n <= type_limit t -> sdsHdrSize t + n + 1 <= bufsize < 2 ^ 64 ->
  adjustTypeIfNeeded t (sdsHdrSize t) bufsize = (t', h', a) ->
  1 <= t' <= 4 /\ h' = sdsHdrSize t' /\ n <= bufsize - h' - 1 <= sdsTypeMaxSize t' /\
  (a = false -> t' = t) /\ sdsHdrSize t <= h'.
Proof.
  intros Ht Hn Hb. unfold adjustTypeIfNeeded.
  assert (0 <= sdsHdrSize t /\ type_limit t <= sdsTypeMaxSize t /\
    (t = 4 -> sdsTypeMaxSize t = 2 ^ 64 - 1)) as (Hh & Hlim & H4).
  { assert (t = 1 \/ t = 2 \/ t = 3 \/ t = 4) as T by lia.
    destruct T as [-> |[-> |[-> | ->]]]; split_and!; (lia || by vm_compute). }
  rewrite uwrap_id by (unfold in_u; lia).
  rewrite (proj2 (Z.eqb_neq t SDS_TYPE_5)) by (unfold SDS_TYPE_5; lia). cbn [negb andb].
  rewrite Z.gtb_ltb. set (u := bufsize - sdsHdrSize t - 1) in *.
  destruct (Z.ltb_spec (sdsTypeMaxSize t) u) as [Hgt|Hle]; intros [= <- <- <-].
  - assert (t = 1 \/ t = 2 \/ t = 3) as T by lia. 
    destruct (sdsReqType_cases u) as [[Hc ->]|[[Hc ->]|[[Hc ->]|[[Hc ->]|[Hc ->]]]]];
      destruct T as [-> |[-> | ->]]; pose proof max_values; pose proof hdr_values; pose proof limit_values;
      split_and!; try done; lia.
  - split_and!; try done; lia.
Qed.

Lemma rd_take b i n : 0 <= i < Z.of_nat n -> rd (take n b) i = rd b i.
Proof. intros Hi. rewrite !rd_lookup by lia. apply lookup_take_lt. lia. Qed.

(** A string rebuilt around the same bytes. *)
Lemma wf_rebuild s t u b :
  wf s -> 1 <= t <= 4 -> sds_len s <= u <= sdsTypeMaxSize t -> zlen b = u + 1 ->
  take (Z.to_nat (sds_len s + 1)) b = take (Z.to_nat (sds_len s + 1)) (sds_buf s) ->
  wf (Mk t (sds_len s) u b) /\ content (Mk t (sds_len s) u b) = content s.
Proof.
  intros [Ht Hl Hm Hb Hz] Ht' Hu Hlen Htk. split.
  - split; cbn [sds_type sds_len sds_alloc sds_buf]; unfold sdsalloc;
      cbn [sds_type sds_len sds_alloc sds_buf]; rewrite ?(proj2 (Z.eqb_neq t SDS_TYPE_5))
      by (unfold SDS_TYPE_5; lia); try lia.
    rewrite <- (rd_take b _ (Z.to_nat (sds_len s + 1))), Htk, rd_take by lia. done.
  - unfold content; cbn [sds_len sds_buf].
    apply (f_equal (take (Z.to_nat (sds_len s)))) in Htk.
    by rewrite !take_take, !Nat.min_l in Htk by lia.
Qed.

Lemma setalloc_rebuild t len al b u :
  1 <= t <= 4 -> 0 <= u <= sdsTypeMaxSize t ->
  sdssetalloc (Mk t len al b) u = Mk t len u b.
Proof.
  intros Ht Hu. unfold sdssetalloc; cbn [sds_type sds_len sds_buf].
  rewrite (proj2 (Z.eqb_neq t SDS_TYPE_5)) by (unfold SDS_TYPE_5; lia).
  rewrite setlen_id by lia. done.
Qed.

Lemma hdr_range t : 0 <= t <= 4 -> 1 <= sdsHdrSize t <= 17.
Proof.
  intros Ht. assert (t = 0 \/ t = 1 \/ t = 2 \/ t = 3 \/ t = 4) as T by lia.
  destruct T as [-> |[-> |[-> |[-> | ->]]]]; by vm_compute.
Qed.

Lemma take_prefix_eq {A} (l l' : list A) k n :
  take n l = take n l' -> (k <= n)%nat -> take k l = take k l'.
Proof.
  intros H Hk. apply (f_equal (take k)) in H. by rewrite !take_take, !Nat.min_l in H by lia.
Qed.

Section AllocSpec.
Context (usable : Z -> Z) (junk : nat -> Z) (je_nallocx : option (Z -> Z)).
Context (usable_ok : forall n, 0 <= n < 2 ^ 63 -> n <= usable n < 2 ^ 64).

Lemma zrealloc_take m n k :
  0 <= k <= n -> k <= zlen m -> take (Z.to_nat k) (zrealloc junk m n) = take (Z.to_nat k) m.
Proof.
  intros Hk Hm. unfold zrealloc. rewrite take_app_le by (rewrite length_take; lia).
  rewrite take_take. f_equal. lia.
Qed.

Lemma req_type8 n :
  0 <= n < 2 ^ 64 ->
  let t := if sdsReqType n =? SDS_TYPE_5 then SDS_TYPE_8 else sdsReqType n in
  1 <= t <= 4 /\ n <= type_limit t /\ 3 <= sdsHdrSize t <= 17.
Proof.
  intros Hn. pose proof hdr_values. pose proof limit_values.
  assert (type_limit 4 = 2 ^ 64 - 1) by done.
  destruct (sdsReqType_cases n) as [[Hc ->]|[[Hc ->]|[[Hc ->]|[[Hc ->]|[Hc ->]]]]];
    lazy beta zeta iota delta [Z.eqb Pos.eqb SDS_TYPE_5 SDS_TYPE_8]; lia.
Qed.

(** The three ways [_sdsMakeRoomFor] and [sdsResize] move a string of [len]
    bytes into a block: each keeps the first [len + 1] bytes. *)
Lemma shifted_buf b len size d :
  0 <= len -> 0 <= d -> len + 1 <= zlen b -> len + 1 + d <= size ->
  zlen (shift_up (zrealloc junk b size) d len) = size - d /\
  take (Z.to_nat (len + 1)) (shift_up (zrealloc junk b size) d len) = take (Z.to_nat (len + 1)) b.
Proof.
  intros. pose proof (zrealloc_length junk b size ltac:(lia)) as Hz. unfold shift_up. split.
  - rewrite length_app, length_take, length_drop. lia.
  - rewrite take_app_le by (rewrite length_take; lia).
    rewrite take_take, Nat.min_id. apply zrealloc_take; lia.
Qed.

Lemma copied_buf b len size :
  0 <= len -> len + 1 <= zlen b -> len + 1 <= size ->
  zlen (zrealloc junk (take (Z.to_nat (len + 1)) b) size) = size /\
  take (Z.to_nat (len + 1)) (zrealloc junk (take (Z.to_nat (len + 1)) b) size)
  = take (Z.to_nat (len + 1)) b.
Proof.
  intros. split; [apply zrealloc_length; lia|].
  rewrite zrealloc_take; [|lia|rewrite length_take; lia]. by rewrite take_take, Nat.min_id.
Qed.

(** The block after growing to [bufsize] bytes. *)
Lemma moved_spec s t bufsize N t' h' a :
  wf s -> 1 <= t <= 4 -> sds_len s <= N <= type_limit t -> sdsHdrSize t + N + 1 <= bufsize < 2 ^ 64 ->
  adjustTypeIfNeeded t (sdsHdrSize t) bufsize = (t', h', a) ->
  let s1 := set_buf s (zrealloc junk (sds_buf s) (bufsize - sdsHdrSize t)) in
  exists b al,
    (if sds_type s =? t then
       if a then sdssetlen (Mk t' (sds_len s1) (sds_alloc s1)
                   (shift_up (sds_buf s1) (h' - sdsHdrSize t) (sds_len s))) (sds_len s)
       else s1
     else sdssetlen (Mk t' 0 0 (zrealloc junk (take (Z.to_nat (sds_len s + 1)) (sds_buf s))
                                  (bufsize - h'))) (sds_len s)) = Mk t' (sds_len s) al b /\
    zlen b = bufsize - h' /\
    take (Z.to_nat (sds_len s + 1)) b = take (Z.to_nat (sds_len s + 1)) (sds_buf s).
Proof.
  intros [Ht Hl Hm Hb Hz] Ht1 HN Hbs Eadj s1.
  destruct (adjust_spec t bufsize N t' h' a) as (Ht' & Hh' & Hu' & Hsame & Hgrow);
    [done|lia|lia|done|].
  unfold sdssetlen, s1; cbn [sds_type sds_len sds_alloc sds_buf set_buf].
  rewrite setlen_id by lia.
  destruct (Z.eqb_spec (sds_type s) t) as [Eqt|]; [destruct a|].
  - do 2 eexists. split; [done|].
    destruct (shifted_buf (sds_buf s) (sds_len s) (bufsize - sdsHdrSize t) (h' - sdsHdrSize t));
      [lia..|split; [lia|done]].
  - rewrite (Hsame eq_refl) in *. do 2 eexists. split; [unfold set_buf; by rewrite Eqt|].
    rewrite Hh'. split; [apply zrealloc_length; lia|apply zrealloc_take; lia].
  - do 2 eexists. split; [done|]. apply copied_buf; lia.
Qed.

Lemma makeroom_spec s addlen greedy :
  wf s -> 0 <= addlen -> sds_len s + addlen < 2 ^ 61 ->
  exists s', _sdsMakeRoomFor usable junk s addlen greedy = Some s' /\ wf s' /\
    content s' = content s /\ sdslen s' = sdslen s /\ sdslen s + addlen <= sdsalloc s'.
Proof using usable_ok.
  intros Hwf Ha Hsz. pose proof Hwf as [Ht Hl Hm Hb Hz]. unfold _sdsMakeRoomFor, sdslen.
  rewrite Z.geb_leb. destruct (Z.leb_spec addlen (sdsavail s)) as [Hav|Hav].
  { exists s. split_and!; try done. unfold sdsavail, sdsalloc in *.
    destruct (sds_type s =? SDS_TYPE_5); lia. }
  assert (0 < addlen) by (unfold sdsavail, sdsalloc in *; destruct (sds_type s =? SDS_TYPE_5); lia).
  rewrite (uwrap_id 64 (sds_len s + addlen)) by (unfold in_u; lia).
  rw_false (negb (sds_len s + addlen >? sds_len s)).
  set (req := sds_len s + addlen) in *.
  set (N := if greedy then _ else _).
  assert (HN : req <= N < 2 ^ 62).
  { unfold N, SDS_MAX_PREALLOC. destruct greedy; [|lia].
    destruct (Z.ltb_spec req (1024 * 1024)); rewrite uwrap_id by (unfold in_u; lia); lia. }
  destruct (req_type8 N) as (HtN1 & HtN2 & HtN3); [lia|].
  set (t := if sdsReqType N =? SDS_TYPE_5 then SDS_TYPE_8 else sdsReqType N) in *.
  clearbody N t.
  rewrite (uwrap_id 64 (sdsHdrSize t + N + 1)) by (unfold in_u; lia).
  rw_false (negb (sdsHdrSize t + N + 1 >? req)).
  pose proof (usable_ok (sdsHdrSize t + N + 1) ltac:(lia)) as Hu.
  set (bufsize := usable (sdsHdrSize t + N + 1)) in *. clearbody bufsize.
  destruct (adjustTypeIfNeeded t (sdsHdrSize t) bufsize) as [[t' h'] a] eqn:Eadj.
  destruct (adjust_spec t bufsize N t' h' a) as (Ht' & Hh' & Hu' & _); [done|lia|lia|done|].
  rewrite (proj2 (Z.eqb_neq t' SDS_TYPE_5)) by (unfold SDS_TYPE_5; lia).
  rw_true (bufsize - h' - 1 <=? sdsTypeMaxSize t'). cbn [orb].
  destruct (moved_spec s t bufsize N t' h' a) as (b & al & -> & Hb1 & Hb2); try done; [lia|].
  rewrite setalloc_rebuild by lia.
  destruct (wf_rebuild s t' (bufsize - h' - 1) b Hwf) as [Hwf' Hc]; try done; try lia.
  eexists. split; [done|]. split_and!; try done. unfold sdsalloc; cbn [sds_type sds_alloc].
  rewrite (proj2 (Z.eqb_neq t' SDS_TYPE_5)) by (unfold SDS_TYPE_5; lia). lia.
Qed.


Lemma take_content s : take (Z.to_nat (sds_len s)) (sds_buf s) = content s.
Proof. done. Qed.

Lemma wrn_tail s t :
  wf s -> sds_len s + zlen t <= sdsalloc s ->
  exists b, wrn (sds_buf s) (sds_len s) t = Some b /\ length b = length (sds_buf s) /\
    take (Z.to_nat (sds_len s + zlen t)) b = content s ++ t.
Proof.
  intros Hwf Ht. pose proof (content_length s Hwf) as Hc. destruct Hwf as [_ Hl _ Hb _].
  set (n := Z.to_nat (sds_len s)) in *.
  exists (content s ++ t ++ drop (n + length t) (sds_buf s)). split_and!.
  - rewrite (list_split3 n (length t) (sds_buf s)) at 1.
    apply wrn_app; rewrite ?length_take, ?length_drop; lia.
  - rewrite !length_app, length_drop. lia.
  - rewrite app_assoc, take_app_length'; [done|]. rewrite length_app. lia.
Qed.

Lemma catlen_spec s t :
  wf s -> sds_len s + zlen t < 2 ^ 61 ->
  exists s', sdscatlen usable junk s t = Some s' /\ wf s' /\ content s' = content s ++ t.
Proof using usable_ok.
  intros Hwf Hsz. unfold sdscatlen, sdsMakeRoomFor.
  destruct (makeroom_spec s (zlen t) true Hwf) as (s1 & -> & Hwf1 & Hc & Hlen & Hal); [lia..|]. mred.
  unfold sdslen in *. rewrite <- Hlen.
  destruct (wrn_tail s1 t Hwf1) as (b & -> & Hbl & Hbt); [lia|]. mred.
  pose proof (wf_len s1 Hwf1).
  destruct (terminate_ok s1 b (sds_len s1 + zlen t) Hwf1 Hbl) as (s2 & -> & Hwf2 & Hc2 & _); [lia|].
  exists s2. split; [done|]. split; [done|]. by rewrite Hc2, Hbt, Hc.
Qed.

(** [sdsgrowzero] extends the string with zero bytes. *)
Lemma sdsgrowzero_spec s len :
  wf s -> 0 <= len < 2 ^ 61 ->
  exists s', sdsgrowzero usable junk s len = Some s' /\ wf s' /\
    content s' = content s ++ replicate (Z.to_nat (len - sds_len s)) 0.
Proof using usable_ok.
  intros Hwf Hsz. unfold sdsgrowzero, sdslen, sdsMakeRoomFor.
  destruct (Z.leb_spec len (sds_len s)).
  { exists s. replace (Z.to_nat (len - sds_len s)) with 0%nat by lia. rewrite app_nil_r. done. }
  pose proof (wf_len s Hwf).
  destruct (makeroom_spec s (len - sds_len s) true Hwf) as (s1 & -> & Hwf1 & Hc & Hlen & Hal); [lia..|].
  unfold sdslen in *. mred. pose proof (content_length s1 Hwf1) as Hcl.
  pose proof (wf_buf s1 Hwf1). rewrite <- Hc, <- Hlen in *.
  set (n := Z.to_nat (len - sds_len s1)).
  replace (Z.to_nat (len - sds_len s1 + 1)) with (n + 1)%nat by lia.
  rewrite replicate_add. set (z := replicate n 0).
  assert (Hz : length z = n) by apply length_replicate.
  destruct (wrn (sds_buf s1) (sds_len s1) (z ++ replicate 1 0)) as [b|] eqn:Ew.
  2: { unfold wrn in Ew. rewrite length_app, Hz in Ew. cbn [length replicate] in Ew. zbool; (done || lia). }
  mred. assert (Hb : b = (content s1 ++ z) ++ 0 :: drop (Z.to_nat (sds_len s1) + (n + 1)) (sds_buf s1)).
  { unfold wrn in Ew. destruct (_ && _) in Ew; [|done]. rewrite length_app, Hz in Ew.
    injection Ew as <-. by rewrite <- !app_assoc. }
  edestruct (wf_setlen s1 b len) as (Hw1 & Hc1 & _); [done|by apply wrn_length in Ew|lia| |].
  { rewrite Hb. apply rd_app_mid. rewrite length_app. lia. }
  eexists. split; [done|]. split; [done|]. rewrite Hc1, Hb.
  rewrite take_app_length'; [done|]. rewrite length_app. lia.
Qed.

Lemma sdscpylen_spec s t :
  wf s -> zlen t < 2 ^ 61 ->
  exists s', sdscpylen usable junk s t = Some s' /\ wf s' /\ content s' = t.
Proof using usable_ok.
  intros Hwf Hsz. unfold sdscpylen, sdsMakeRoomFor, sdslen. pose proof (wf_len s Hwf).
  assert (exists s1, (if sdsalloc s <? zlen t then
      _sdsMakeRoomFor usable junk s (zlen t - sds_len s) true else Some s) = Some s1 /\
      wf s1 /\ zlen t <= sdsalloc s1) as (s1 & -> & Hwf1 & Hal).
  { destruct (Z.ltb_spec (sdsalloc s) (zlen t)); [|by exists s].
    destruct (makeroom_spec s (zlen t - sds_len s) true Hwf) as (s1 & ? & ? & _ & _ & Hal); [lia..|].
    exists s1. unfold sdslen in Hal. split_and!; (done || lia). }
  mred. pose proof (wf_buf s1 Hwf1).
  pose proof (wrn_0 (take (length t) (sds_buf s1)) (drop (length t) (sds_buf s1)) t) as Hw.
  rewrite take_drop in Hw. rewrite Hw by (rewrite length_take; lia). mred.
  destruct (terminate_ok s1 (t ++ drop (length t) (sds_buf s1)) (zlen t) Hwf1)
    as (s2 & -> & Hwf2 & Hc2 & _); [rewrite length_app, length_drop; lia|lia|].
  exists s2. split_and!; try done. rewrite Hc2. apply take_app_length'. lia.
Qed.

Lemma adjust_spec5 t size bufsize t' h' a :
  0 <= t <= 4 -> 0 <= size <= type_limit t -> sdsHdrSize t + size + 1 <= bufsize < 2 ^ 64 ->
  adjustTypeIfNeeded t (sdsHdrSize t) bufsize = (t', h', a) ->
  0 <= t' <= 4 /\ h' = sdsHdrSize t' /\ size <= bufsize - h' - 1 /\
  (t' <> SDS_TYPE_5 -> bufsize - h' - 1 <= sdsTypeMaxSize t') /\ (t' = SDS_TYPE_5 -> size <= 31) /\
  (a = false -> t' = t) /\ sdsHdrSize t <= h'.
Proof.
  intros Ht Hs Hb Ha. unfold SDS_TYPE_5. destruct (decide (t = 0)) as [-> |].
  - unfold adjustTypeIfNeeded in Ha. cbn in Ha. injection Ha as <- <- <-.
    change (type_limit 0) with 31 in Hs. change (sdsHdrSize 0) with 1 in *.
    split_and!; try done; lia.
  - destruct (adjust_spec t bufsize size t' h' a) as (? & ? & ? & ? & ?); try done; [lia|].
    split_and!; try done; lia.
Qed.

(** [s[len] = 0; sdssetlen(s, len); sdssetalloc(s, newsize)] at the end of [sdsResize]. *)
Lemma finish_resize t l0 a0 b len u :
  0 <= t <= 4 -> 0 <= len <= u -> (t = SDS_TYPE_5 -> len <= 31) ->
  (t <> SDS_TYPE_5 -> u <= sdsTypeMaxSize t) -> u + 1 <= zlen b ->
  exists s', (s' ← terminate (Mk t l0 a0 b) len; Some (sdssetalloc s' u)) = Some s' /\
    wf s' /\ content s' = take (Z.to_nat len) b.
Proof.
  intros Ht Hl H5 Hn5 Hb. set (a := if decide (t = SDS_TYPE_5) then len else u).
  assert (Ha : 0 <= len <= a /\ a <= sdsTypeMaxSize t /\ a + 1 <= zlen b).
  { unfold a. destruct (decide (t = SDS_TYPE_5)) as [E|]; [|auto with lia].
    rewrite E at 1. change (sdsTypeMaxSize SDS_TYPE_5) with 31. auto with lia. }
  destruct Ha as (Ha1 & Ha2 & Ha3).
  unfold terminate; cbn [sds_buf set_buf]. rewrite wrn_one by lia. mred.
  unfold sdssetlen; cbn [sds_type sds_len sds_alloc sds_buf set_buf]. rewrite setlen_id by lia.
  set (b' := take (Z.to_nat len) b ++ 0 :: drop (Z.to_nat len + 1) b).
  assert (Hb' : length b' = length b /\ rd b' len = Some 0 /\ take (Z.to_nat len) b' = take (Z.to_nat len) b).
  { unfold b'. split_and!.
    - rewrite length_app; cbn [length]; rewrite length_take, length_drop. lia.
    - apply rd_app_mid. rewrite length_take. lia.
    - apply take_app_length'. rewrite length_take. lia. }
  destruct Hb' as (Hb1 & Hb2 & Hb3). clearbody b'.
  exists (Mk t len (if decide (t = SDS_TYPE_5) then a0 else u) b'). unfold sdssetalloc.
  unfold content; cbn [sds_type sds_len sds_alloc sds_buf].
  destruct (Z.eqb_spec t SDS_TYPE_5); destruct (decide (t = SDS_TYPE_5)); try done;
    (split; [by rewrite ?setlen_id by lia|]; split; [|done]);
    split; unfold sdsalloc; cbn [sds_type sds_len sds_alloc sds_buf]; try done;
    (rewrite (proj2 (Z.eqb_eq t SDS_TYPE_5)) by done) ||
    (rewrite (proj2 (Z.eqb_neq t SDS_TYPE_5)) by done); unfold a in *; lia.
Qed.

(** The header type chosen by [sdsResize]. *)
Lemma resize_type size (would_regrow : bool) :
  0 <= size < 2 ^ 61 ->
  let type := sdsReqType size in
  let type := if would_regrow && (type =? SDS_TYPE_5) then SDS_TYPE_8 else type in
  0 <= type <= 4 /\ size <= type_limit type /\
  (forall t, type < t <= 4 -> size <= type_limit t).
Proof.
  intros Hs. pose proof limit_values. assert (type_limit 0 = 31) by done.
  assert (type_limit 4 = 2 ^ 64 - 1) by done.
  assert (Hmono : forall t u, 0 <= t < u -> u <= 4 -> type_limit t <= type_limit u).
  { intros t u Ht Hu. assert (t = 0 \/ t = 1 \/ t = 2 \/ t = 3) as T by lia.
    assert (u = 1 \/ u = 2 \/ u = 3 \/ u = 4) as U by lia.
    destruct T as [-> |[-> |[-> | ->]]], U as [-> |[-> |[-> | ->]]]; lia. }
  cbv zeta. set (t := if would_regrow && _ then _ else _).
  assert (Ht : 0 <= t <= 4 /\ size <= type_limit t).
  { unfold t. destruct (sdsReqType_cases size) as [[Hc ->]|[[Hc ->]|[[Hc ->]|[[Hc ->]|[Hc ->]]]]],
      would_regrow; lazy beta zeta iota delta [Z.eqb Pos.eqb SDS_TYPE_5 SDS_TYPE_8 andb]; lia. }
  split; [lia|]. split; [lia|]. intros u Hu. pose proof (Hmono t u). lia.
Qed.
(** The freshly written buffer of the constructors. *)
Lemma placement_spec bufsize src n type :
  0 <= type <= 4 -> bufsize < 2 ^ 64 -> 0 <= n <= zlen src -> n <= bufsize - sdsHdrSize type - 1 ->
  (type <> SDS_TYPE_5 -> bufsize - sdsHdrSize type - 1 <= sdsTypeMaxSize type) ->
  (type = SDS_TYPE_5 -> n <= 31) ->
  exists s, sdsnewplacement junk bufsize type (Init src) n = Some s /\ wf s /\
    content s = take (Z.to_nat n) src.
Proof.
  intros Ht Hb Hn Hl Hn5 H5. unfold sdsnewplacement, sdsReqSize.
  assert (rdn src 0 n = Some (take (Z.to_nat n) src)) as -> by (apply rdn_Some; auto with lia).
  set (t := take (Z.to_nat n) src).
  assert (Hlt : zlen t = n) by (unfold t; rewrite length_take; lia).
  clearbody t. subst n. mred.
  rw_false (negb (bufsize >=? zlen t + sdsHdrSize type + 1)).
  set (u := bufsize - sdsHdrSize type - 1) in *.
  replace (bufsize - sdsHdrSize type) with (u + 1) by lia.
  pose proof (zrealloc_length junk [] (u + 1) ltac:(lia)) as Hbl.
  set (b := zrealloc junk [] (u + 1)) in *. clearbody b.
  destruct (finish_resize type 0 0 (t ++ drop (length t) b) (zlen t) u) as (s & Hs & Hwf & Hc);
    [done|lia|done|done|rewrite length_app, length_drop; lia|].
  exists s. split; [|split; [done|by rewrite Hc, take_app_length' by lia]].
  rewrite <- Hs. unfold sdssetalloc, sdssetlen, terminate.
  pose proof (wrn_0 (take (length t) b) (drop (length t) b) t) as Hw. rewrite take_drop in Hw.
  cbn [sds_type sds_buf sds_len sds_alloc].
  destruct (Z.eqb_spec type SDS_TYPE_5); cbn [sds_type sds_buf sds_len sds_alloc];
    rewrite Hw by (rewrite length_take; lia); mred;
    unfold set_buf; cbn [sds_type sds_buf sds_len sds_alloc];
    destruct (wrn (t ++ drop (length t) b) (zlen t) [0]); try done; mred;
    unfold sdssetlen; cbn [sds_type sds_buf sds_len sds_alloc];
    [rewrite (proj2 (Z.eqb_eq type SDS_TYPE_5)) by done
    |rewrite (proj2 (Z.eqb_neq type SDS_TYPE_5)) by done]; done.
Qed.

Lemma newlen_spec src n :
  0 <= n <= zlen src -> n < 2 ^ 61 ->
  exists s, sdsnewlen usable junk (Init src) n = Some s /\ wf s /\ content s = take (Z.to_nat n) src.
Proof using usable_ok.
  intros Hn Hlen. unfold sdsnewlen, _sdsnewlen.
  destruct (resize_type n (n =? 0) ltac:(lia)) as (Ht1 & Ht2 & _).
  rewrite andb_comm. set (ty := if (n =? 0) && _ then _ else _) in *. clearbody ty.
  pose proof (hdr_range ty Ht1). rewrite uwrap_id by (unfold in_u; lia).
  rw_false (n + sdsHdrSize ty + 1 <=? n).
  pose proof (usable_ok (sdsHdrSize ty + n + 1) ltac:(lia)).
  set (bufsize := usable _) in *. clearbody bufsize.
  destruct (adjustTypeIfNeeded ty (sdsHdrSize ty) bufsize) as [[t' h'] a] eqn:Ea.
  destruct (adjust_spec5 ty n bufsize t' h' a) as (? & -> & ? & ? & ? & _); try done; [lia|].
  destruct (placement_spec bufsize src n t') as (s & -> & Hwf & Hc); try done; [lia..|].
  mred. eauto.
Qed.

(** A string built from [n] bytes of a buffer is well formed and holds
    exactly these bytes, and so does its duplicate, whatever header type the
    length and the allocator's usable size lead to. *)
Theorem sdsnewlen_correct src n :
  0 <= n <= zlen src -> n < 2 ^ 61 ->
  exists s s', sdsnewlen usable junk (Init src) n = Some s /\ wf s /\
    content s = take (Z.to_nat n) src /\
    sdsdup usable junk s = Some s' /\ wf s' /\ content s' = content s.
Proof using usable_ok.
  intros Hn Hlen. destruct (newlen_spec src n Hn Hlen) as (s & Hs & Hwf & Hc).
  pose proof (content_length s Hwf) as Hl. rewrite Hc, length_take in Hl.
  pose proof (wf_len s Hwf). pose proof (wf_buf s Hwf).
  destruct (newlen_spec (sds_buf s) (sds_len s)) as (s' & Hs' & Hwf' & Hc'); [lia..|].
  exists s, s'. split_and!; done.
Qed.

(** Appending [t] gives the old content followed by [t], whatever the old
    header type, the allocator's usable sizes and the content of fresh memory. *)
Theorem sdscatlen_correct s t :
  wf s -> sds_len s + zlen t < 2 ^ 61 ->
  exists s', sdscatlen usable junk s t = Some s' /\ wf s' /\ content s' = content s ++ t.
Proof using usable_ok. apply catlen_spec. Qed.

Context (nallocx_ok : forall f n, je_nallocx = Some f -> 0 <= n < 2 ^ 63 -> n <= f n).


(** The two ways [sdsResize] gets its block. *)
Lemma resize_manual s size len t :
  wf s -> 0 <= len <= size -> len <= sds_len s -> size < 2 ^ 61 ->
  0 <= t <= 4 -> size <= type_limit t ->
  exists s',
    (let '(s', newsize) :=
       (let bufsize := usable (sdsHdrSize t + size + 1) in
        let '(type', hdrlen', _) := adjustTypeIfNeeded t (sdsHdrSize t) bufsize in
        (Mk type' 0 0 (zrealloc junk (take (Z.to_nat (len + 1)) (sds_buf s)) (bufsize - hdrlen')),
         bufsize - hdrlen' - 1)) in
     s' ← terminate s' len; Some (sdssetalloc s' newsize)) = Some s' /\ wf s' /\
    content s' = take (Z.to_nat len) (sds_buf s).
Proof using usable_ok.
  intros [Ht Hl Hm Hb Hz] Hl1 Hl2 Hsz Ht1 Ht2. cbv zeta.
  pose proof (hdr_range t Ht1) as Hh. pose proof (usable_ok (sdsHdrSize t + size + 1) ltac:(lia)).
  set (bufsize := usable _) in *. clearbody bufsize.
  destruct (adjustTypeIfNeeded t (sdsHdrSize t) bufsize) as [[t' h'] a] eqn:Ea.
  destruct (adjust_spec5 t size bufsize t' h' a) as (? & ? & ? & ? & ? & _ & _); try done; [lia|].
  destruct (copied_buf (sds_buf s) len (bufsize - h')) as [Hc1 Hc2]; [lia..|].
  set (b := zrealloc junk _ _) in *. clearbody b.
  destruct (finish_resize t' 0 0 b len (bufsize - h' - 1)) as (s' & -> & Hwf' & Hc); 
    [done|lia|lia|done|rewrite Hc1; lia|].
  exists s'. split_and!; try done. rewrite Hc.
  apply (take_prefix_eq _ _ _ _ Hc2). lia.
Qed.

Lemma resize_realloc s size len :
  wf s -> 0 <= len <= size -> len <= sds_len s -> 0 <= size < 2 ^ 61 ->
  size <= type_limit (sds_type s) ->
  exists s',
    (let '(s', newsize) :=
       (let already_optimal :=
          match je_nallocx with
          | Some f => f (sdsHdrSize (sds_type s) + size + 1) =? sdsAllocSize s
          | None => false
          end in
        if already_optimal then (s, sdsAllocSize s - sdsHdrSize (sds_type s) - 1)
        else
          let bufsize := usable (sdsHdrSize (sds_type s) + size + 1) in
          let s1 := set_buf s (zrealloc junk (sds_buf s) (bufsize - sdsHdrSize (sds_type s))) in
          let '(type', hdrlen', adjusted) :=
            adjustTypeIfNeeded (sds_type s) (sdsHdrSize (sds_type s)) bufsize in
          ((if (adjusted : bool) then
              sdssetlen (Mk type' (sds_len s1) (sds_alloc s1)
                (shift_up (sds_buf s1) (hdrlen' - sdsHdrSize (sds_type s)) len)) len
            else s1), bufsize - hdrlen' - 1)) in
     s' ← terminate s' len; Some (sdssetalloc s' newsize)) = Some s' /\ wf s' /\
    content s' = take (Z.to_nat len) (sds_buf s).
Proof using usable_ok nallocx_ok.
  intros [Ht Hl Hm Hb Hz] Hl1 Hl2 Hsz Ht2. cbv zeta.
  pose proof (hdr_range _ Ht) as Hh.
  destruct (match je_nallocx with Some f => _ | None => _ end) eqn:Eo.
  { destruct je_nallocx as [f|]; [|done]. 
    pose proof (nallocx_ok f (sdsHdrSize (sds_type s) + size + 1) eq_refl ltac:(lia)).
    unfold sdsAllocSize in *. destruct s as [t l a b]; cbn [sds_type sds_len sds_alloc sds_buf] in *.
    apply finish_resize; cbn; try lia.
    - intros ->. change (type_limit SDS_TYPE_5) with 31 in Ht2. lia. }
  pose proof (usable_ok (sdsHdrSize (sds_type s) + size + 1) ltac:(lia)).
  set (bufsize := usable _) in *. clearbody bufsize.
  destruct (adjustTypeIfNeeded _ _ bufsize) as [[t' h'] a] eqn:Ea.
  destruct (adjust_spec5 (sds_type s) size bufsize t' h' a) as (? & ? & ? & ? & ? & Hsame & ?); try done; [lia|].
  unfold sdssetlen, set_buf; cbn [sds_type sds_len sds_alloc sds_buf]. destruct a.
  - destruct (shifted_buf (sds_buf s) len (bufsize - sdsHdrSize (sds_type s)) (h' - sdsHdrSize (sds_type s)))
      as [Hc1 Hc2]; [lia..|].
    set (b := shift_up _ _ _) in *. clearbody b.
    destruct (finish_resize t' (uwrap (field_bits t') len) (sds_alloc s) b len (bufsize - h' - 1))
      as (s' & -> & Hwf' & Hc); [done|lia|lia|done|lia|].
    exists s'. split_and!; try done. rewrite Hc. apply (take_prefix_eq _ _ _ _ Hc2). lia.
  - rewrite (Hsame eq_refl) in *.
    pose proof (zrealloc_length junk (sds_buf s) (bufsize - sdsHdrSize (sds_type s)) ltac:(lia)).
    assert (Hc2 := zrealloc_take (sds_buf s) (bufsize - sdsHdrSize (sds_type s)) len
      ltac:(lia) ltac:(lia)).
    set (b := zrealloc junk _ _) in *. clearbody b.
    destruct (finish_resize (sds_type s) (sds_len s) (sds_alloc s) b len (bufsize - h' - 1))
      as (s' & -> & Hwf' & Hc); [done|lia|lia|done|lia|].
    exists s'. split_and!; try done. by rewrite Hc.
Qed.

(** [sdsResize] keeps the first [size] bytes of the content and a
    well-formed string, on the realloc, the manual and the
    already-optimal path. *)
Theorem sdsResize_correct s size would_regrow :
  wf s -> sds_len s < 2 ^ 61 -> 0 <= size < 2 ^ 61 ->
  exists s', sdsResize usable junk je_nallocx s size would_regrow = Some s' /\ wf s' /\
    content s' = take (Z.to_nat size) (content s).
Proof using usable_ok nallocx_ok.
  intros Hwf Hlen Hsz. pose proof Hwf as [Ht Hl Hm Hb Hz]. unfold sdsResize, sdslen.
  destruct (Z.eqb_spec (sdsalloc s) size) as [Heq|_].
  { exists s. split_and!; try done. symmetry. apply take_ge.
    pose proof (content_length s Hwf). lia. }
  set (len := if size <? sds_len s then size else sds_len s).
  assert (Hlen' : 0 <= len <= size /\ len <= sds_len s /\
    take (Z.to_nat len) (sds_buf s) = take (Z.to_nat size) (content s)).
  { unfold len, content. rewrite take_take. zbool; split_and!; try lia; f_equal; lia. }
  destruct Hlen' as (Hl1 & Hl2 & <-). clearbody len.
  destruct (resize_type size would_regrow Hsz) as (Ht1 & Ht2 & Ht3).
  set (t := if would_regrow && _ then _ else _) in *. clearbody t.
  destruct ((sds_type s =? t) || ((t <? sds_type s) && (t >? SDS_TYPE_8))) eqn:Er.
  - assert (Hot : size <= type_limit (sds_type s)).
    { destruct (Z.eqb_spec (sds_type s) t) as [-> |]; [done|]. apply Ht3. cbn in Er. lia. }
    clear Er t Ht1 Ht2 Ht3. apply resize_realloc; done.
  - apply resize_manual; (done || lia).
Qed.

End AllocSpec.

(** *** Comparison *)

(** Lexicographic order on byte strings, a proper prefix being smaller. *)
Fixpoint lex (a b : list Z) : comparison :=
  match a, b with
  | [], [] => Eq
  | [], _ => Lt
  | _, [] => Gt
  | x :: a, y :: b => match x ?= y with Eq => lex a b | c => c end
  end.

Lemma memcmp_lex a b :
  (memcmp (take (length a `min` length b) a) (take (length a `min` length b) b) ?= 0)
  = match lex a b with
    | Lt => if memcmp (take (length a `min` length b) a) (take (length a `min` length b) b) =? 0 then Eq else Lt
    | Gt => if memcmp (take (length a `min` length b) a) (take (length a `min` length b) b) =? 0 then Eq else Gt
    | Eq => Eq
    end /\
  (memcmp (take (length a `min` length b) a) (take (length a `min` length b) b) = 0 ->
   lex a b = (zlen a ?= zlen b)).
Proof.
  revert b. induction a as [|x a IH]; intros [|y b]; cbn [length Nat.min take memcmp lex]; try done.
  destruct (Z.eqb_spec x y) as [-> |Hne].
  - rewrite Z.compare_refl. destruct (IH b) as [-> Hl]. split; [done|]. intros H.
    rewrite Hl by done. rewrite !Nat2Z.inj_succ. symmetry. apply Zcompare_succ_compat.
  - rewrite (proj2 (Z.eqb_neq (x - y) 0)) by lia. split; [|lia].
    destruct (Z.compare_spec x y); [lia|apply Z.compare_lt_iff; lia|apply Z.compare_gt_iff; lia].
Qed.

(** [sdscmp] orders strings by their contents, bytewise, the shorter first. *)
Theorem sdscmp_correct s1 s2 :
  wf s1 -> wf s2 -> (sdscmp s1 s2 ?= 0) = lex (content s1) (content s2).
Proof.
  intros Hw1 Hw2. pose proof (content_length s1 Hw1) as H1. pose proof (content_length s2 Hw2) as H2.
  pose proof (wf_len s1 Hw1). pose proof (wf_len s2 Hw2). unfold sdscmp, sdslen.
  set (ml := if sds_len s1 <? sds_len s2 then sds_len s1 else sds_len s2).
  assert (Hml : Z.to_nat ml = (length (content s1) `min` length (content s2))%nat)
    by (unfold ml; zbool; lia).
  assert (Hc : forall s, (Z.to_nat ml <= Z.to_nat (sds_len s))%nat ->
    take (Z.to_nat ml) (sds_buf s) = take (Z.to_nat ml) (content s)).
  { intros s Hs. unfold content. rewrite take_take. f_equal. lia. }
  rewrite !Hc by lia. rewrite Hml. destruct (memcmp_lex (content s1) (content s2)) as [Ha Hb].
  set (c := memcmp _ _) in *. destruct (Z.eqb_spec c 0) as [E|E].
  - rewrite (Hb E), H1, H2. rewrite Z.gtb_ltb. destruct (Z.compare_spec (sds_len s1) (sds_len s2)); zbool; (done || lia).
  - rewrite Ha. by destruct (lex _ _).
Qed.

(** *** Concrete instances *)

(** A string as the constructor leaves it, with an allocator that hands out
    multiples of eight bytes. *)
Definition usable8 (n : Z) : Z := n + (- n) mod 8.
Definition sample : sds := Mk SDS_TYPE_8 5 12 (str "hello" ++ replicate 8 0).

Lemma usable8_ok n : 0 <= n < 2 ^ 63 -> n <= usable8 n < 2 ^ 64.
Proof. intros. unfold usable8. pose proof (Z.mod_pos_bound (- n) 8). lia. Qed.

Lemma sample_wf : wf sample.
Proof. split; vm_compute; repeat split; discriminate. Qed.

Lemma sdsrange_correct_witness :
  exists s', sdsrange sample (-3) (-2) = Some s' /\ wf s' /\ content s' = str "ll".
Proof. apply (sdsrange_correct sample (-3) (-2) sample_wf); cbn; lia. Defined.

Lemma sdsnewlen_correct_witness :
  exists s s', sdsnewlen usable8 (fun _ => 7) (Init (str "redis 8")) 5 = Some s /\
    wf s /\ content s = str "redis" /\
    sdsdup usable8 (fun _ => 7) s = Some s' /\ wf s' /\ content s' = content s.
Proof. apply (sdsnewlen_correct usable8 (fun _ => 7) usable8_ok (str "redis 8")); cbn; lia. Defined.

Lemma sdscatlen_correct_witness :
  exists s', sdscatlen usable8 (fun _ => 7) sample (str " big world") = Some s' /\
    wf s' /\ content s' = str "hello big world".
Proof.
  apply (sdscatlen_correct usable8 (fun _ => 7) usable8_ok sample (str " big world") sample_wf).
  cbn. lia.
Defined.

Lemma sdsResize_correct_witness :
  exists s', sdsResize usable8 (fun _ => 7) (Some usable8) sample 2 false = Some s' /\
    wf s' /\ content s' = str "he".
Proof.
  apply (sdsResize_correct usable8 (fun _ => 7) (Some usable8) usable8_ok); [|apply sample_wf|cbn; lia..].
  intros f n [= <-] Hn. apply usable8_ok. lia.
Defined.

Lemma sdscmp_correct_witness :
  (sdscmp sample (Mk SDS_TYPE_5 4 0 (str "help" ++ [0])) ?= 0)
  = lex (content sample) (str "help").
Proof.
  apply (sdscmp_correct sample (Mk SDS_TYPE_5 4 0 (str "help" ++ [0])) sample_wf).
  split; vm_compute; repeat split; discriminate.
Defined.

End Sds.
