(* ===== verification/SdsText.v ===== *)
(** * Splitting, joining and quoting of strings ([redis-stable/src/sds.c])

    The text functions at the end of sds.c are clients of the allocation layer.
    They are written against [StringBuffer], the contract that [Sds] discharges
    for every allocator, and proved against its laws. *)

From S2P Require Import Prelude Sds.

Module SdsText.

(** ** The contract of the allocation layer *)

(** [sb_new t] is [sdsnewlen(t, len)], [sb_cat] is [sdscatlen], [sb_reserve]
    is [sdsMakeRoomFor].  [None] is an assertion failure. *)
Class StringBuffer (S : Type) := {
  sb_new : list Z -> option S;
  sb_cat : S -> list Z -> option S;
  sb_reserve : S -> Z -> option S;
  sb_bytes : S -> list Z;
  sb_ok : S -> Prop;
  sb_new_spec t : zlen t < 2 ^ 61 ->
    exists s, sb_new t = Some s /\ sb_ok s /\ sb_bytes s = t;
  sb_cat_spec s t : sb_ok s -> zlen (sb_bytes s) + zlen t < 2 ^ 61 ->
    exists s', sb_cat s t = Some s' /\ sb_ok s' /\ sb_bytes s' = sb_bytes s ++ t;
  sb_reserve_spec s n : sb_ok s -> 0 <= n -> zlen (sb_bytes s) + n < 2 ^ 61 ->
    exists s', sb_reserve s n = Some s' /\ sb_ok s' /\ sb_bytes s' = sb_bytes s
}.

(** Every allocator gives an implementation of the contract. *)
Record allocator := {
  al_usable : Z -> Z;
  al_junk : nat -> Z;
  al_usable_ok : forall n, 0 <= n < 2 ^ 63 -> n <= al_usable n < 2 ^ 64
}.

#[program] Definition sds_buffer (A : allocator) : StringBuffer Sds.sds := {|
  sb_new t := Sds.sdsnewlen (al_usable A) (al_junk A) (Sds.Init t) (zlen t);
  sb_cat s t := Sds.sdscatlen (al_usable A) (al_junk A) s t;
  sb_reserve s n := Sds.sdsMakeRoomFor (al_usable A) (al_junk A) s n;
  sb_bytes := Sds.content;
  sb_ok := Sds.wf
|}.
Next Obligation.
  intros A t Ht. destruct (Sds.newlen_spec _ (al_junk A) (al_usable_ok A) t (zlen t)) as (s & -> & Hwf & Hc);
    [lia..|].
  exists s. rewrite Hc, take_ge by lia. done.
Qed.
Next Obligation.
  intros A s t Hs Ht. rewrite Sds.content_length in Ht by done. by apply Sds.catlen_spec; [apply al_usable_ok|..].
Qed.
Next Obligation.
  intros A s n Hs Hn Ht. rewrite Sds.content_length in Ht by done.
  destruct (Sds.makeroom_spec _ (al_junk A) (al_usable_ok A) s n true Hs Hn Ht) as (s' & H & Hwf & Hc & _).
  eauto.
Qed.

(** ** Character classes of the C locale *)

Definition isspace (c : Z) : bool := ((9 <=? c) && (c <=? 13)) || (c =? 32).
Definition isprint (c : Z) : bool := (32 <=? c) && (c <=? 126).

Definition is_hex_digit (c : Z) : bool :=
  ((48 <=? c) && (c <=? 57)) || ((97 <=? c) && (c <=? 102)) || ((65 <=? c) && (c <=? 70)).

Definition hex_digit_to_int (c : Z) : Z :=
  if (48 <=? c) && (c <=? 57) then c - 48
  else if (97 <=? c) && (c <=? 102) then c - 97 + 10
  else if (65 <=? c) && (c <=? 70) then c - 65 + 10
  else 0.

Section Text.
Context {S : Type} `{SB : StringBuffer S}.

Definition sdsempty : option S := sb_new [].

(** ** Quoting *)

(** [printf]'s [%02x] of a byte. *)
Definition hexdigit (d : Z) : Z := if d <? 10 then 48 + d else 97 + (d - 10).
Definition hex2 (c : Z) : list Z := [hexdigit (c / 16); hexdigit (c mod 16)].

Fixpoint catrepr_loop (s : S) (p : list Z) : option S :=
  match p with
  | [] => Some s
  | c :: p =>
    s ← (if (c =? 92) || (c =? 34) then sb_cat s [92; c]
         else if c =? 10 then sb_cat s (str "\n")
         else if c =? 13 then sb_cat s (str "\r")
         else if c =? 9 then sb_cat s (str "\t")
         else if c =? 7 then sb_cat s (str "\a")
         else if c =? 8 then sb_cat s (str "\b")
         else if isprint c then sb_cat s [c]
         else sb_cat s (str "\x" ++ hex2 c));
    catrepr_loop s p
  end.

Definition sdscatrepr (s : S) (p : list Z) : option S :=
  s ← sb_reserve s (zlen p + 2);
  s ← sb_cat s [34];
  s ← catrepr_loop s p;
  sb_cat s [34].

Fixpoint sdsneedsrepr (p : list Z) : bool :=
  match p with
  | [] => false
  | c :: p =>
    if (c =? 92) || (c =? 34) || (c =? 10) || (c =? 13) || (c =? 9) || (c =? 7) || (c =? 8)
       || negb (isprint c) || isspace c then true
    else sdsneedsrepr p
  end.

(** ** Argument splitting

    The pointer [p] is the rest of the line from [p] up to and including the
    terminator; reading behind the terminator is [None]. *)

Definition deref (p : list Z) (k : nat) : option Z := p !! k.

(** [*p == '\\' && *(p+1) == 'x' && is_hex_digit( *(p+2)) && is_hex_digit( *(p+3))] *)
Definition hex_escape (p : list Z) : option bool :=
  c0 ← deref p 0;
  if negb (c0 =? 92) then Some false else
  c1 ← deref p 1;
  if negb (c1 =? 120) then Some false else
  c2 ← deref p 2;
  if negb (is_hex_digit c2) then Some false else
  c3 ← deref p 3;
  Some (is_hex_digit c3).

Definition unescape (c : Z) : Z :=
  if c =? 110 then 10 else if c =? 114 then 13 else if c =? 116 then 9
  else if c =? 98 then 8 else if c =? 97 then 7 else c.

(** The state of the token loop. *)
Record tok := Tok {
  t_p : list Z; t_current : S; t_inq : bool; t_insq : bool; t_done : bool
}.

(** One iteration of [while(!done)]; [Some None] is [goto err]. *)
Definition close_quote (t : tok) : option (option tok) :=
  c1 ← deref (t_p t) 1;
  if negb (c1 =? 0) && negb (isspace c1) then Some None
  else Some (Some (Tok (t_p t) (t_current t) (t_inq t) (t_insq t) true)).

Definition append (t : tok) (p : list Z) (c : Z) : option (option tok) :=
  cur ← sb_cat (t_current t) [c];
  Some (Some (Tok p cur (t_inq t) (t_insq t) (t_done t))).

Definition token_body (t : tok) : option (option tok) :=
  let p := t_p t in
  c ← deref p 0;
  if t_inq t then
    hex ← hex_escape p;
    if (hex : bool) then
      c2 ← deref p 2;
      c3 ← deref p 3;
      append t (drop 3 p) (uwrap 8 (hex_digit_to_int c2 * 16 + hex_digit_to_int c3))
    else
      esc ← (if c =? 92 then c1 ← deref p 1; Some (negb (c1 =? 0)) else Some false);
      if (esc : bool) then
        c1 ← deref p 1;
        append t (drop 1 p) (unescape c1)
      else if c =? 34 then close_quote t
      else if c =? 0 then Some None
      else append t p c
  else if t_insq t then
    esc ← (if c =? 92 then c1 ← deref p 1; Some (c1 =? 39) else Some false);
    if (esc : bool) then append t (drop 1 p) 39
    else if c =? 39 then close_quote t
    else if c =? 0 then Some None
    else append t p c
  else
    if (c =? 32) || (c =? 10) || (c =? 13) || (c =? 9) || (c =? 0) then
      Some (Some (Tok p (t_current t) false false true))
    else if c =? 34 then Some (Some (Tok p (t_current t) true false (t_done t)))
    else if c =? 39 then Some (Some (Tok p (t_current t) false true (t_done t)))
    else append t p c.

(** [if ( *p) p++] *)
Definition advance (p : list Z) : option (list Z) :=
  c ← deref p 0; Some (if c =? 0 then p else drop 1 p).

Fixpoint token_loop (fuel : nat) (t : tok) : option (option (list Z * S)) :=
  match fuel with
  | O => None
  | Datatypes.S fuel =>
    if t_done t then Some (Some (t_p t, t_current t))
    else
      r ← token_body t;
      match r with
      | None => Some None
      | Some t =>
        p ← advance (t_p t);
        token_loop fuel (Tok p (t_current t) (t_inq t) (t_insq t) (t_done t))
      end
  end.

(** [while( *p && isspace( *p)) p++] *)
Fixpoint skip_blanks (p : list Z) : option (list Z) :=
  match p with
  | [] => None
  | c :: p' => if negb (c =? 0) && isspace c then skip_blanks p' else Some p
  end.

Fixpoint splitargs_loop (fuel : nat) (p : list Z) (vector : list S) : option (option (list S)) :=
  match fuel with
  | O => None
  | Datatypes.S fuel =>
    p ← skip_blanks p;
    c ← deref p 0;
    if negb (c =? 0) then
      current ← sdsempty;
      r ← token_loop (Datatypes.S (Datatypes.S (length p))) (Tok p current false false false);
      match r with
      | None => Some None
      | Some (p, current) => splitargs_loop fuel p (vector ++ [current])
      end
    else Some (Some vector)
  end.

(** [line] is a C string without its terminator.  [Some None] is [NULL]. *)
Definition sdssplitargs (line : list Z) : option (option (list S)) :=
  splitargs_loop (Datatypes.S (Datatypes.S (length line))) (line ++ [0]) [].

(** ** Splitting by a separator *)

Fixpoint splitlen_loop (fuel : nat) (s : list Z) (len : Z) (sep : list Z) (seplen : Z)
    (start j : Z) (tokens : list S) : option (Z * list S) :=
  match fuel with
  | O => None
  | Datatypes.S fuel =>
    if j <? len - (seplen - 1) then
      here ← (if seplen =? 1 then
                c ← rd s j; c0 ← rd sep 0;
                if c =? c0 then Some true
                else w ← rdn s j seplen; w' ← rdn sep 0 seplen; Some (Sds.memcmp w w' =? 0)
              else w ← rdn s j seplen; w' ← rdn sep 0 seplen; Some (Sds.memcmp w w' =? 0));
      if (here : bool) then
        w ← rdn s start (j - start);
        tk ← sb_new w;
        splitlen_loop fuel s len sep seplen (j + seplen) (j + seplen - 1 + 1) (tokens ++ [tk])
      else splitlen_loop fuel s len sep seplen start (j + 1) tokens
    else Some (start, tokens)
  end.

Definition sdssplitlen (s : list Z) (len : Z) (sep : list Z) (seplen : Z) : option (option (list S)) :=
  if (seplen <? 1) || (len <=? 0) then Some None
  else
    r ← splitlen_loop (Datatypes.S (Z.to_nat len)) s len sep seplen 0 0 [];
    let '(start, tokens) := r in
    w ← rdn s start (len - start);
    tk ← sb_new w;
    Some (Some (tokens ++ [tk])).

(** ** Joining *)

Fixpoint join_loop (join : S) (argv : list (list Z)) (sep : list Z) : option S :=
  match argv with
  | [] => Some join
  | a :: argv' =>
    join ← sb_cat join a;
    join ← (match argv' with [] => Some join | _ => sb_cat join sep end);
    join_loop join argv' sep
  end.

Definition sdsjoin (argv : list (list Z)) (sep : list Z) : option S :=
  join ← sdsempty; join_loop join argv sep.

Definition sdsjoinsds (argv : list S) (sep : list Z) : option S :=
  join ← sdsempty; join_loop join (map sb_bytes argv) sep.

(** ** Templates *)

(** [strchr(p, c)]: the text before the first [c], and the rest from it on. *)
Fixpoint strchr (p : list Z) (c : Z) : option (list Z * list Z) :=
  match p with
  | [] => None
  | x :: p' =>
    if x =? c then Some ([], p)
    else match strchr p' c with Some (a, b) => Some (x :: a, b) | None => None end
  end.

(** [strlen]: a C string ends at its first zero byte. *)
Fixpoint cstr (p : list Z) : list Z :=
  match p with
  | [] => []
  | x :: p => if x =? 0 then [] else x :: cstr p
  end.

(** [cb_func varname] is [None] when the callback returns [NULL].  The template
    is a C string without its terminator. *)
Fixpoint template_loop (fuel : nat) (cb_func : list Z -> option (list Z)) (p : list Z) (res : S)
    : option (option S) :=
  match fuel with
  | O => None
  | Datatypes.S fuel =>
    match p with
    | [] => Some (Some res)
    | _ =>
      match strchr p 123 with
      | None => res ← sb_cat res p; Some (Some res)
      | Some (before, sv) =>
        res ← (match before with [] => Some res | _ => sb_cat res before end);
        match drop 1 sv with
        | [] => Some None
        | c :: rest =>
          if c =? 123 then
            res ← sb_cat res [123];
            template_loop fuel cb_func rest res
          else
            match strchr (c :: rest) 125 with
            | None => Some None
            | Some (varname, ev) =>
              varname ← sb_new varname;
              match cb_func (sb_bytes varname) with
              | None => Some None
              | Some value =>
                res ← sb_cat res (cstr value);
                template_loop fuel cb_func (drop 1 ev) res
              end
            end
        end
      end
    end
  end.

Definition sdstemplate (template : list Z) (cb_func : list Z -> option (list Z)) : option (option S) :=
  res ← sdsempty; template_loop (Datatypes.S (length template)) cb_func template res.


(** ** Quoting *)

(** What [sdscatrepr] writes for one byte and for a string. *)
Definition esc (c : Z) : list Z :=
  if (c =? 92) || (c =? 34) then [92; c]
  else if c =? 10 then str "\n"
  else if c =? 13 then str "\r"
  else if c =? 9 then str "\t"
  else if c =? 7 then str "\a"
  else if c =? 8 then str "\b"
  else if isprint c then [c]
  else str "\x" ++ hex2 c.

Definition quoted (p : list Z) : list Z := [34] ++ concat (map esc p) ++ [34].

Lemma esc_length c : 1 <= zlen (esc c) <= 4.
Proof. unfold esc. repeat case_match; cbn; lia. Qed.

Lemma quoted_length p : 2 + zlen p <= zlen (quoted p) <= 2 + 4 * zlen p.
Proof.
  unfold quoted. rewrite !length_app. cbn [length].
  induction p as [|c p IH]; cbn [map concat length]; [lia|].
  pose proof (esc_length c). rewrite length_app. lia.
Qed.

Lemma catrepr_loop_spec s p :
  sb_ok s -> zlen (sb_bytes s) + 4 * zlen p < 2 ^ 61 ->
  exists s', catrepr_loop s p = Some s' /\ sb_ok s' /\
    sb_bytes s' = sb_bytes s ++ concat (map esc p).
Proof.
  revert s. induction p as [|c p IH]; intros s Hok Hsz; cbn [catrepr_loop map concat].
  { exists s. by rewrite app_nil_r. }
  pose proof (esc_length c) as Hc. cbn [length] in Hsz.
  assert (Hstep : exists s1, sb_cat s (esc c) = Some s1 /\ sb_ok s1 /\ sb_bytes s1 = sb_bytes s ++ esc c)
    by (apply sb_cat_spec; [done|lia]).
  destruct Hstep as (s1 & Hs1 & Hok1 & Hb1).
  destruct (IH s1 Hok1) as (s2 & Hs2 & Hok2 & Hb2); [rewrite Hb1, length_app; lia|].
  exists s2. rewrite Hb2, Hb1, app_assoc. split; [|done]. rewrite <- Hs2. revert Hs1. unfold esc.
  repeat case_match; intros ->; done.
Qed.

Lemma sdscatrepr_spec s p :
  sb_ok s -> zlen (sb_bytes s) + 4 * zlen p + 2 < 2 ^ 61 ->
  exists s', sdscatrepr s p = Some s' /\ sb_ok s' /\ sb_bytes s' = sb_bytes s ++ quoted p.
Proof.
  intros Hok Hsz. unfold sdscatrepr.
  destruct (sb_reserve_spec s (zlen p + 2) Hok) as (s1 & -> & Hok1 & Hb1); [lia..|]. mred.
  destruct (sb_cat_spec s1 [34] Hok1) as (s2 & -> & Hok2 & Hb2); [cbn; rewrite Hb1; lia|]. mred.
  destruct (catrepr_loop_spec s2 p Hok2) as (s3 & -> & Hok3 & Hb3);
    [rewrite Hb2, Hb1, length_app; cbn; lia|]. mred.
  assert (Hl : zlen (concat (map esc p)) <= 4 * zlen p).
  { pose proof (quoted_length p) as Hq. unfold quoted in Hq. rewrite !length_app in Hq. cbn [length] in Hq. lia. }
  destruct (sb_cat_spec s3 [34] Hok3) as (s4 & -> & Hok4 & Hb4);
    [rewrite Hb3, Hb2, Hb1, !length_app; cbn [length]; lia|].
  exists s4. split_and!; try done. rewrite Hb4, Hb3, Hb2, Hb1. unfold quoted. by rewrite <- !app_assoc.
Qed.

(** ** Parsing what [sdscatrepr] writes *)

Lemma hex2_parse c :
  byte_ok c ->
  forallb is_hex_digit (hex2 c) = true /\
  uwrap 8 (hex_digit_to_int (hexdigit (c / 16)) * 16 + hex_digit_to_int (hexdigit (c mod 16))) = c.
Proof.
  intros Hc. unfold byte_ok in Hc.
  assert (Hd : forall d, 0 <= d < 16 -> is_hex_digit (hexdigit d) = true /\ hex_digit_to_int (hexdigit d) = d).
  { intros d Hd. unfold is_hex_digit, hex_digit_to_int, hexdigit. zbool; cbn; split; (done || lia). }
  destruct (Hd (c / 16)) as [H1 ->]; [dlia|]. destruct (Hd (c mod 16)) as [H2 ->]; [dlia|].
  split; [cbn; by rewrite H1, H2|]. rewrite uwrap_id by (unfold in_u; dlia). dlia.
Qed.

(** One escaped byte inside quotes is one iteration of the token loop. *)
Lemma esc_cases c :
  (In (c, esc c) [(92, [92; 92]); (34, [92; 34]); (10, [92; 110]); (13, [92; 114]); (9, [92; 116]);
                  (7, [92; 97]); (8, [92; 98])]) \/
  (esc c = [c] /\ c <> 92 /\ c <> 34 /\ c <> 0) \/
  (esc c = [92; 120; hexdigit (c / 16); hexdigit (c mod 16)]).
Proof.
  destruct (decide (c ∈ [92; 34; 10; 13; 9; 7; 8])) as [Hin|Hnin].
  - left. rewrite !elem_of_cons, elem_of_nil in Hin.
    destruct Hin as [-> |[-> |[-> |[-> |[-> |[-> |[-> |[]]]]]]]]; cbn; tauto.
  - right. rewrite !not_elem_of_cons in Hnin. unfold esc.
    rw_false ((c =? 92) || (c =? 34)). rw_false (c =? 10). rw_false (c =? 13).
    rw_false (c =? 9). rw_false (c =? 7). rw_false (c =? 8).
    destruct (isprint c) eqn:Hp; [left|by right]. unfold isprint in Hp. split; [done|lia].
Qed.

(** One escaped byte inside quotes is one iteration of the token loop. *)
Lemma token_loop_esc fuel c rest cur :
  byte_ok c ->
  token_loop (Datatypes.S fuel) (Tok (esc c ++ rest) cur true false false)
  = cur' ← sb_cat cur [c]; token_loop fuel (Tok rest cur' true false false).
Proof.
  intros Hc. cbn [token_loop t_done].
  destruct (esc_cases c) as [Hin|[(-> & H1 & H2 & H3)|Hx]].
  - repeat destruct Hin as [[= <- <-]|Hin];
      unfold token_body, append; cbn; by destruct (sb_cat cur _).
  - unfold token_body, append, hex_escape; cbn [t_p t_inq app deref lookup list_lookup].
    mred. rw_false (c =? 92). rw_false (c =? 34). rw_false (c =? 0). cbn. 
    destruct (sb_cat cur [c]); cbn; [|done]. by rw_false (c =? 0).
  - rewrite Hx. destruct (hex2_parse c Hc) as [Hx1 Hx2]. unfold hex2 in *. cbn [forallb] in Hx1.
    apply andb_prop in Hx1 as [Hx1 [Hx3 _]%andb_prop].
    assert (Hnz : hexdigit (c mod 16) <> 0) by (unfold hexdigit; zbool; dlia).
    unfold token_body, hex_escape, append. cbn [t_p t_inq app deref lookup list_lookup].
    mred. change (negb (92 =? 92)) with false. change (negb (120 =? 120)) with false. cbv iota.
    rewrite Hx1. cbn [negb]. mred. rewrite Hx3. cbv iota. rewrite Hx2. cbn [drop].
    cbn [t_current]. destruct (sb_cat cur [c]); cbn; [|done]. by rw_false (hexdigit (c mod 16) =? 0).

Qed.

Lemma token_loop_escs fuel xs rest cur :
  bytes_ok xs -> sb_ok cur -> zlen (sb_bytes cur) + zlen xs < 2 ^ 61 ->
  exists cur', token_loop (length xs + fuel) (Tok (concat (map esc xs) ++ rest) cur true false false)
    = token_loop fuel (Tok rest cur' true false false) /\ sb_ok cur' /\
      sb_bytes cur' = sb_bytes cur ++ xs.
Proof.
  revert cur. induction xs as [|x xs IH]; intros cur Hx Hok Hsz.
  { exists cur. by rewrite app_nil_r. }
  apply Forall_cons in Hx as [Hx Hxs]. cbn [length Nat.add map concat] in *.
  rewrite <- app_assoc, token_loop_esc by done.
  destruct (sb_cat_spec cur [x] Hok) as (c1 & -> & Hok1 & Hb1); [cbn [length]; lia|]. mred.
  destruct (IH c1 Hxs Hok1) as (c2 & -> & Hok2 & Hb2); [rewrite Hb1, length_app; cbn [length]; lia|].
  exists c2. rewrite Hb2, Hb1, <- app_assoc. done.
Qed.

(** A quoted word followed by a blank or the terminator is one token. *)
Lemma token_loop_quoted fuel xs c rest cur :
  bytes_ok xs -> sb_ok cur -> zlen (sb_bytes cur) + zlen xs < 2 ^ 61 ->
  c = 0 \/ isspace c = true ->
  exists cur', token_loop (length xs + 3 + fuel) (Tok (quoted xs ++ c :: rest) cur false false false)
    = Some (Some (c :: rest, cur')) /\ sb_ok cur' /\ sb_bytes cur' = sb_bytes cur ++ xs.
Proof.
  intros Hx Hok Hsz Hc. replace (length xs + 3 + fuel)%nat with (Datatypes.S (length xs + (2 + fuel))) by lia.
  unfold quoted. rewrite <- !app_assoc. cbn [token_loop t_done].
  change (token_body _) with (Some (Some (Tok ([34] ++ concat (map esc xs) ++ [34] ++ c :: rest) cur true false false))).
  mred. cbn [t_p advance deref lookup list_lookup app]. unfold advance; cbn [deref lookup list_lookup].
  mred. cbn [Z.eqb drop t_current t_inq t_insq t_done].
  destruct (token_loop_escs (2 + fuel) xs ([34] ++ c :: rest) cur Hx Hok Hsz) as (cur' & Hl & Hok' & Hb').
  exists cur'. split; [|done]. etrans; [exact Hl|].
  change (2 + fuel)%nat with (Datatypes.S (Datatypes.S fuel)). cbn [token_loop t_done].
  assert (negb (c =? 0) && negb (isspace c) = false) as Hcl.
  { destruct Hc as [-> | ->]; [done|]. by rewrite andb_comm. }
  unfold token_body, hex_escape, close_quote; cbn [t_p t_inq deref lookup list_lookup app]; mred.
  change (negb (34 =? 92)) with true. mred. cbn [Z.eqb Pos.eqb]. mred. by rewrite Hcl.
Qed.

(** The argument vector as one line. *)
Fixpoint joined (sep : list Z) (args : list (list Z)) : list Z :=
  match args with
  | [] => []
  | [a] => a
  | a :: args => a ++ sep ++ joined sep args
  end.

Lemma skip_blanks_stop c p : c = 0 \/ isspace c = false -> skip_blanks (c :: p) = Some (c :: p).
Proof. intros [-> | Hc]; cbn [skip_blanks]; [done|]. by rewrite Hc, andb_comm. Qed.

Lemma splitargs_step fuel a c rest vec :
  bytes_ok a -> zlen a < 2 ^ 61 -> c = 0 \/ isspace c = true ->
  exists cur, splitargs_loop (Datatypes.S fuel) (quoted a ++ c :: rest) vec
    = splitargs_loop fuel (c :: rest) (vec ++ [cur]) /\ sb_ok cur /\ sb_bytes cur = a.
Proof.
  intros Hba Hsa Hc. destruct (sb_new_spec []) as (e & He & Hoke & Hbe); [cbn; lia|].
  set (F := Datatypes.S (Datatypes.S (length (quoted a ++ c :: rest)))).
  assert (HF : F = (length a + 3 + (F - (length a + 3)))%nat).
  { pose proof (quoted_length a). unfold F. rewrite length_app. cbn [length]. lia. }
  destruct (token_loop_quoted (F - (length a + 3)) a c rest e Hba Hoke) as (cur & Hl & Hok & Hb');
    [rewrite Hbe; cbn; lia|done|].
  exists cur. rewrite Hbe in Hb'. rewrite <- HF in Hl. split; [|done]. cbn [splitargs_loop].
  change (quoted a ++ c :: rest) with (34 :: (concat (map esc a) ++ [34]) ++ c :: rest) at 1.
  rewrite skip_blanks_stop by by right. mred. unfold deref at 1. cbn [lookup list_lookup]. mred.
  cbn [Z.eqb negb]. unfold sdsempty. rewrite He. mred.
  change (34 :: (concat (map esc a) ++ [34]) ++ c :: rest) with (quoted a ++ c :: rest).
  fold F. by rewrite Hl.
Qed.

Lemma splitargs_blank fuel p vec :
  splitargs_loop (Datatypes.S fuel) (32 :: p) vec = splitargs_loop (Datatypes.S fuel) p vec.
Proof. done. Qed.

Lemma splitargs_loop_quoted args fuel vec :
  Forall bytes_ok args -> Forall (fun a => zlen a < 2 ^ 61) args -> (length args < fuel)%nat ->
  exists toks, splitargs_loop fuel (joined [32] (map quoted args) ++ [0]) vec = Some (Some (vec ++ toks)) /\
    map sb_bytes toks = args.
Proof.
  revert fuel vec. induction args as [|a args IH]; intros [|fuel] vec Hb Hs Hf; cbn [length] in Hf; try lia.
  { exists []. rewrite app_nil_r. done. }
  apply Forall_cons in Hb as [Hba Hb]. apply Forall_cons in Hs as [Hsa Hs].
  destruct args as [|a2 args].
  - destruct (splitargs_step fuel a 0 [] vec Hba Hsa) as (cur & Hl & Hok & Hbc); [by left|].
    cbn [map joined]. rewrite Hl. destruct fuel; [lia|]. exists [cur]. split; [done|].
    cbn [map]. by rewrite Hbc.
  - change (joined [32] (map quoted (a :: a2 :: args)))
      with (quoted a ++ 32 :: joined [32] (map quoted (a2 :: args))).
    rewrite <- app_assoc, <- app_comm_cons.
    destruct (splitargs_step fuel a 32 (joined [32] (map quoted (a2 :: args)) ++ [0]) vec Hba Hsa)
      as (cur & Hl & Hok & Hbc); [by right|].
    rewrite Hl. destruct fuel as [|fuel]; [cbn [length] in Hf; lia|].
    rewrite splitargs_blank. destruct (IH (Datatypes.S fuel) (vec ++ [cur]) Hb Hs) as (toks & -> & Ht); [lia|].
    exists (cur :: toks). rewrite <- app_assoc. split; [done|]. cbn [map]. by rewrite Hbc, Ht.
Qed.

Lemma join_loop_spec args sep s :
  sb_ok s -> zlen (sb_bytes s) + zlen (joined sep args) < 2 ^ 61 ->
  exists s', join_loop s args sep = Some s' /\ sb_ok s' /\ sb_bytes s' = sb_bytes s ++ joined sep args.
Proof.
  revert s. induction args as [|a args IH]; intros s Hok Hsz; cbn [join_loop].
  { exists s. cbn [joined]. by rewrite app_nil_r. }
  destruct args as [|a2 args].
  { cbn [joined] in *. destruct (sb_cat_spec s a Hok) as (s1 & -> & Hok1 & Hb1); [done|]. mred. eauto. }
  change (joined sep (a :: a2 :: args)) with (a ++ sep ++ joined sep (a2 :: args)) in *.
  rewrite !length_app in Hsz.
  destruct (sb_cat_spec s a Hok) as (s1 & -> & Hok1 & Hb1); [lia|]. mred.
  destruct (sb_cat_spec s1 sep Hok1) as (s2 & -> & Hok2 & Hb2); [rewrite Hb1, length_app; lia|]. mred.
  destruct (IH s2 Hok2) as (s3 & -> & Hok3 & Hb3); [rewrite Hb2, Hb1, !length_app; lia|].
  exists s3. rewrite Hb3, Hb2, Hb1, <- !app_assoc. done.
Qed.

Lemma joinsds_spec (argv : list S) sep :
  zlen (joined sep (map sb_bytes argv)) < 2 ^ 61 ->
  exists s, sdsjoinsds argv sep = Some s /\ sb_ok s /\ sb_bytes s = joined sep (map sb_bytes argv).
Proof.
  intros Hsz. unfold sdsjoinsds, sdsempty.
  destruct (sb_new_spec []) as (e & -> & Hoke & Hbe); [cbn; lia|]. mred.
  destruct (join_loop_spec (map sb_bytes argv) sep e Hoke) as (s & -> & Hok & Hb); [by rewrite Hbe|].
  exists s. by rewrite Hb, Hbe.
Qed.

(** The quoted forms of the arguments, as the program builds them. *)
Definition repr1 (a : list Z) : option S := e ← sdsempty; sdscatrepr e a.
Definition reprs (args : list (list Z)) : option (list S) := mapM repr1 args.

Lemma repr1_spec a :
  zlen a < 2 ^ 58 -> exists r, repr1 a = Some r /\ sb_bytes r = quoted a.
Proof.
  intros Ha. unfold repr1, sdsempty.
  destruct (sb_new_spec []) as (e & -> & Hoke & Hbe); [cbn; lia|]. mred.
  destruct (sdscatrepr_spec e a Hoke) as (r & -> & Hok & Hb); [rewrite Hbe; cbn; lia|].
  exists r. by rewrite Hb, Hbe.
Qed.

Lemma reprs_spec args :
  Forall (fun a => zlen a < 2 ^ 58) args ->
  exists rs, reprs args = Some rs /\ map sb_bytes rs = map quoted args.
Proof.
  induction 1 as [|a args Ha _ (rs & Hrs & Hm)]; [by exists []|].
  destruct (repr1_spec a Ha) as (r & Hr & Hb). exists (r :: rs).
  unfold reprs in *. cbn [mapM map]. rewrite Hr. mred. rewrite Hrs. mred. by rewrite Hb, Hm.
Qed.

Lemma joined_quoted_length args :
  zlen (joined [32] (map quoted args)) <= 4 * zlen (concat args) + 3 * zlen args.
Proof.
  induction args as [|a args IH]; [done|]. destruct args as [|a2 args].
  { cbn [map joined concat length]. rewrite length_app. pose proof (quoted_length a). cbn [length]. lia. }
  change (joined [32] (map quoted (a :: a2 :: args)))
    with (quoted a ++ 32 :: joined [32] (map quoted (a2 :: args))).
  rewrite length_app, length_cons. pose proof (quoted_length a).
  change (concat (a :: a2 :: args)) with (a ++ concat (a2 :: args)). rewrite length_app.
  cbn [length] in *. lia.
Qed.

Lemma joined_quoted_long args : zlen args <= zlen (joined [32] (map quoted args)).
Proof.
  induction args as [|a args IH]; [done|]. destruct args as [|a2 args].
  { cbn [map joined length]. pose proof (quoted_length a). lia. }
  change (joined [32] (map quoted (a :: a2 :: args)))
    with (quoted a ++ 32 :: joined [32] (map quoted (a2 :: args))).
  rewrite length_app, length_cons. cbn [length] in *. lia.
Qed.

Lemma concat_elem_length {A} (a : list A) args : a ∈ args -> zlen a <= zlen (concat args).
Proof.
  induction 1 as [args|b args ? IH]; cbn [concat]; rewrite length_app; lia.
Qed.

Lemma quoted_line_spec args :
  Forall bytes_ok args -> 4 * zlen (concat args) + 3 * zlen args < 2 ^ 60 ->
  exists rs line toks, reprs args = Some rs /\ sdsjoinsds rs [32] = Some line /\
    sdssplitargs (sb_bytes line) = Some (Some toks) /\ map sb_bytes toks = args /\
    sb_bytes line = joined [32] (map quoted args).
Proof.
  intros Hb Hs. pose proof (joined_quoted_length args) as Hl.
  assert (Hsm : Forall (fun a => zlen a < 2 ^ 58) args).
  { apply Forall_forall. intros a Ha%concat_elem_length. lia. }
  destruct (reprs_spec args Hsm) as (rs & Hrs & Hm).
  destruct (joinsds_spec rs [32]) as (line & Hj & Hok & Hlb); [rewrite Hm; lia|].
  rewrite Hm in Hlb.
  destruct (splitargs_loop_quoted args (Datatypes.S (Datatypes.S (length (sb_bytes line)))) []) as (toks & Ht & Htb).
  { done. }
  { eapply Forall_impl; [done|]. intros; cbn in *; lia. }
  { rewrite Hlb. pose proof (joined_quoted_long args). lia. }
  exists rs, line, toks. split_and!; try done. unfold sdssplitargs. rewrite Hlb at 2. done.
Qed.

(** C19: quoting every argument with [sdscatrepr], joining the results with
    blanks and splitting the line with [sdssplitargs] gives back the
    arguments, byte for byte, whatever bytes they hold. *)
Theorem sdssplitargs_roundtrip args :
  Forall bytes_ok args -> 4 * zlen (concat args) + 3 * zlen args < 2 ^ 60 ->
  exists rs line toks, reprs args = Some rs /\ sdsjoinsds rs [32] = Some line /\
    sdssplitargs (sb_bytes line) = Some (Some toks) /\ map sb_bytes toks = args.
Proof.
  intros Hb Hs. destruct (quoted_line_spec args Hb Hs) as (rs & line & toks & ? & ? & ? & ? & _). by exists rs, line, toks.
Qed.

(** ** Totality of the argument parser *)

(** Behind a byte that is not the terminator there is another byte. *)
Lemma deref_next c p : 0 ∈ c :: p -> c <> 0 -> exists d q, p = d :: q /\ 0 ∈ d :: q.
Proof.
  intros [H|H]%elem_of_cons Hc; [done|]. destruct p as [|d q]; [by apply elem_of_nil in H|eauto].
Qed.

Lemma append_ok t p c :
  sb_ok (t_current t) -> zlen (sb_bytes (t_current t)) + 1 < 2 ^ 61 ->
  exists cur, append t p c = Some (Some (Tok p cur (t_inq t) (t_insq t) (t_done t))) /\ sb_ok cur /\
    zlen (sb_bytes cur) = zlen (sb_bytes (t_current t)) + 1.
Proof.
  intros Hok Hsz. unfold append. destruct (sb_cat_spec _ [c] Hok) as (cur & -> & Hok' & Hb); [cbn [length]; lia|].
  exists cur. split_and!; [done..|]. rewrite Hb, length_app. cbn [length]. lia.
Qed.

(** What an iteration may leave behind: the pointer still before the
    terminator, and either the loop is done or the pointer moves on. *)
Definition progress (t : tok) (r : option tok) : Prop :=
  match r with
  | None => True
  | Some t' =>
    0 ∈ t_p t' /\ sb_ok (t_current t') /\
    (length (t_p t') <= length (t_p t))%nat /\
    zlen (sb_bytes (t_current t')) <= zlen (sb_bytes (t_current t)) + 1 /\
    (t_done t' = false -> head (t_p t') <> Some 0) /\
    (t_done t' = true -> t_p t' = t_p t /\ (t_inq t = false -> t_insq t = false ->
       exists c, head (t_p t) = Some c /\ (c = 0 \/ isspace c = true)))
  end.

Lemma append_progress t k c :
  sb_ok (t_current t) -> zlen (sb_bytes (t_current t)) + 1 < 2 ^ 61 -> t_done t = false ->
  0 ∈ drop k (t_p t) -> head (drop k (t_p t)) <> Some 0 ->
  exists r, append t (drop k (t_p t)) c = Some r /\ progress t r.
Proof.
  intros Hok Hsz Hd Hin Hh. destruct (append_ok t (drop k (t_p t)) c Hok Hsz) as (cur & -> & Hok' & Hl).
  eexists. split; [done|]. cbn. rewrite Hd, length_drop. split_and!; try done; lia.
Qed.

Lemma close_progress t c :
  sb_ok (t_current t) -> 0 ∈ t_p t -> head (t_p t) = Some c -> c <> 0 ->
  t_inq t = true \/ t_insq t = true ->
  exists r, close_quote t = Some r /\ progress t r.
Proof.
  intros Hok Hin Hh Hc Hq. unfold close_quote. destruct (t_p t) as [|c' p] eqn:Ep; [done|].
  injection Hh as ->. destruct (deref_next c p Hin Hc) as (d & q & -> & Hin').
  cbn [deref lookup list_lookup]. mred. case_match; eexists; (split; [done|]); [done|].
  cbn. rewrite Ep. split_and!; try done; [lia|]. intros _. split; [done|]. intros H1 H2. destruct Hq; congruence.
Qed.

Lemma hex_digit_nz c : is_hex_digit c = true -> c <> 0.
Proof. unfold is_hex_digit. lia. Qed.

Lemma hex_escape_ok p :
  0 ∈ p -> exists b, hex_escape p = Some b /\
    (b = true -> exists c2 c3 q, p = 92 :: 120 :: c2 :: c3 :: q /\ 0 ∈ c3 :: q /\ c3 <> 0).
Proof.
  intros Hin. unfold hex_escape. destruct p as [|c p]; [by apply elem_of_nil in Hin|].
  cbn [deref lookup list_lookup]. mred. destruct (Z.eqb_spec c 92) as [-> |]; cbn [negb]; [|by exists false].
  destruct (deref_next _ _ Hin) as (d & q & -> & Hin1); [done|]. cbn [deref lookup list_lookup]. mred.
  destruct (Z.eqb_spec d 120) as [-> |]; cbn [negb]; [|by exists false].
  destruct (deref_next _ _ Hin1) as (c2 & q2 & -> & Hin2); [done|]. cbn [deref lookup list_lookup]. mred.
  destruct (is_hex_digit c2) eqn:H2; cbn [negb]; [|by exists false].
  destruct (deref_next _ _ Hin2) as (c3 & q3 & -> & Hin3); [by apply hex_digit_nz|].
  cbn [deref lookup list_lookup]. mred. exists (is_hex_digit c3). split; [done|].
  intros H3. exists c2, c3, q3. split_and!; try done. by apply hex_digit_nz.
Qed.

Lemma token_body_inq t c p :
  sb_ok (t_current t) -> zlen (sb_bytes (t_current t)) + 1 < 2 ^ 61 -> t_done t = false ->
  t_p t = c :: p -> 0 ∈ c :: p -> t_inq t = true -> exists r, token_body t = Some r /\ progress t r.
Proof.
  intros Hok Hsz Hd Ep Hin Hq. unfold token_body. rewrite Ep, Hq. cbn [deref lookup list_lookup]. mred.
  pose proof (append_progress t) as Happ. rewrite Ep in Happ.
  destruct (hex_escape_ok _ Hin) as ([|] & -> & Hx); mred.
  { destruct (Hx eq_refl) as (c2 & c3 & q & [= -> ->] & Hin3 & Hnz). cbn [deref lookup list_lookup]. mred.
    apply Happ; try done. cbn. congruence. }
  destruct (Z.eqb_spec c 92) as [-> |Hc]; mred.
  - destruct (deref_next _ _ Hin) as (d & q & -> & Hin1); [done|]. cbn [deref lookup list_lookup]. mred.
    destruct (Z.eqb_spec d 0) as [-> |Hd0]; cbn [negb Z.eqb Pos.eqb].
    + by apply (Happ 0%nat).
    + apply (Happ 1%nat); try done. cbn. congruence.
  - destruct (Z.eqb_spec c 34) as [-> |].
    { apply (close_progress t 34); try done; [by rewrite Ep|by rewrite Ep|by left]. }
    destruct (Z.eqb_spec c 0) as [-> |]; [by exists None|].
    apply (Happ 0%nat); try done. cbn. congruence.
Qed.

Lemma token_body_insq t c p :
  sb_ok (t_current t) -> zlen (sb_bytes (t_current t)) + 1 < 2 ^ 61 -> t_done t = false ->
  t_p t = c :: p -> 0 ∈ c :: p -> t_inq t = false -> t_insq t = true ->
  exists r, token_body t = Some r /\ progress t r.
Proof.
  intros Hok Hsz Hd Ep Hin Hq Hsq. unfold token_body. rewrite Ep, Hq, Hsq. cbn [deref lookup list_lookup]. mred.
  pose proof (append_progress t) as Happ. rewrite Ep in Happ.
  destruct (Z.eqb_spec c 92) as [-> |Hc]; mred.
  - destruct (deref_next _ _ Hin) as (d & q & -> & Hin1); [done|]. cbn [deref lookup list_lookup]. mred.
    destruct (Z.eqb_spec d 39) as [-> |Hd0]; cbn [negb Z.eqb Pos.eqb]; [by apply (Happ 1%nat)|by apply (Happ 0%nat)].
  - destruct (Z.eqb_spec c 39) as [-> |].
    { apply (close_progress t 39); try done; [by rewrite Ep|by rewrite Ep|by right]. }
    destruct (Z.eqb_spec c 0) as [-> |]; [by exists None|].
    apply (Happ 0%nat); try done. cbn. congruence.
Qed.

Lemma token_body_plain t c p :
  sb_ok (t_current t) -> zlen (sb_bytes (t_current t)) + 1 < 2 ^ 61 -> t_done t = false ->
  t_p t = c :: p -> 0 ∈ c :: p -> t_inq t = false -> t_insq t = false ->
  exists r, token_body t = Some r /\ progress t r.
Proof.
  intros Hok Hsz Hd Ep Hin Hq Hsq. unfold token_body. rewrite Ep, Hq, Hsq. cbn [deref lookup list_lookup]. mred.
  pose proof (append_progress t) as Happ. rewrite Ep in Happ.
  destruct (_ || (c =? 0)) eqn:Hsp.
  - eexists. split; [done|]. cbn. rewrite Ep. split_and!; try done; [lia|].
    intros _. split; [done|]. intros _ _. exists c. split; [done|]. unfold isspace. lia.
  - destruct (Z.eqb_spec c 34); [|destruct (Z.eqb_spec c 39)];
      [eexists; (split; [done|]); cbn; rewrite ?Ep, ?Hd; split_and!; try done; cbn; (lia || congruence)..|].
    apply (Happ 0%nat); try done. cbn. intros [=]. lia.
Qed.

Lemma token_body_progress t :
  sb_ok (t_current t) -> zlen (sb_bytes (t_current t)) + 1 < 2 ^ 61 -> t_done t = false ->
  0 ∈ t_p t -> exists r, token_body t = Some r /\ progress t r.
Proof.
  intros Hok Hsz Hd Hin. destruct (t_p t) as [|c p] eqn:Ep; [by apply elem_of_nil in Hin|].
  destruct (t_inq t) eqn:Hq; [by eapply token_body_inq|].
  destruct (t_insq t) eqn:Hsq; [by eapply token_body_insq|by eapply token_body_plain].
Qed.

Lemma advance_spec p :
  0 ∈ p -> exists p', advance p = Some p' /\ 0 ∈ p' /\ (length p' <= length p)%nat /\
    (head p <> Some 0 -> (length p' < length p)%nat).
Proof.
  intros Hin. destruct p as [|c p]; [by apply elem_of_nil in Hin|].
  unfold advance; cbn [deref lookup list_lookup]; mred. destruct (Z.eqb_spec c 0) as [-> |Hc].
  - eexists. split; [done|]. split_and!; done.
  - eexists. split; [done|]. cbn [drop]. apply elem_of_cons in Hin as [|Hin]; [done|].
    rewrite drop_0. cbn [length]. split_and!; (done || lia).
Qed.

(** The token loop ends, with the pointer moved past at least one byte unless
    it started on a blank or the terminator. *)
Lemma token_loop_total fuel t :
  sb_ok (t_current t) -> 0 ∈ t_p t -> t_done t = false ->
  zlen (sb_bytes (t_current t)) + zlen (t_p t) + 1 < 2 ^ 61 -> (length (t_p t) + 1 < fuel)%nat ->
  exists r, token_loop fuel t = Some r /\
    match r with
    | None => True
    | Some (p', cur) => 0 ∈ p' /\ (length p' <= length (t_p t))%nat /\
        ((forall c, head (t_p t) = Some c -> c <> 0 /\ isspace c = false) ->
         t_inq t = false -> t_insq t = false -> (length p' < length (t_p t))%nat)
    end.
Proof.
  revert t. induction fuel as [|fuel IH]; intros t Hok Hin Hd Hsz Hf; [lia|].
  cbn [token_loop]. rewrite Hd.
  destruct (token_body_progress t Hok) as (r & -> & Hp); [lia|done|done|]. mred.
  destruct r as [t1|]; [|by exists None].
  destruct Hp as (Hin1 & Hok1 & Hlen1 & Hb1 & Hnd & Hdn).
  destruct (advance_spec _ Hin1) as (p' & -> & Hin' & Hlp & Hlt). mred.
  destruct (t_done t1) eqn:Ed1.
  - destruct fuel as [|fuel]; [lia|]. cbn [token_loop t_done]. eexists. split; [done|]. cbn [t_p t_current].
    destruct (Hdn eq_refl) as [Heq Hbl]. split_and!; [done|lia|]. intros Hh Hq Hsq.
    destruct (Hbl Hq Hsq) as (c & Hc & Hc'). destruct (Hh c Hc) as [? Hs]. by destruct Hc'; congruence.
  - specialize (Hlt (Hnd eq_refl)).
    destruct (IH (Tok p' (t_current t1) (t_inq t1) (t_insq t1) false)) as (r & -> & Hr);
      cbn [t_p t_current t_done]; [done|done|done|lia|lia|].
    exists r. split; [done|]. destruct r as [[q cur]|]; [|done].
    cbn [t_p t_current t_done] in Hr. destruct Hr as (? & ? & _). split_and!; [done|lia|lia].
Qed.

Lemma skip_blanks_total p :
  0 ∈ p -> exists c q, skip_blanks p = Some (c :: q) /\ 0 ∈ c :: q /\
    (length (c :: q) <= length p)%nat /\ (c = 0 \/ isspace c = false).
Proof.
  induction p as [|c p IH]; intros Hin; [by apply elem_of_nil in Hin|]. cbn [skip_blanks].
  destruct (Z.eqb_spec c 0) as [-> |Hc]; cbn [negb andb].
  { exists 0, p. split_and!; try done. by left. }
  destruct (isspace c) eqn:Hs.
  - apply elem_of_cons in Hin as [|Hin]; [done|]. destruct (IH Hin) as (d & q & -> & ? & ? & ?).
    exists d, q. cbn [length] in *. split_and!; (done || lia).
  - exists c, p. split_and!; try done. by right.
Qed.

Lemma splitargs_loop_total fuel p vec :
  0 ∈ p -> zlen p < 2 ^ 60 -> (length p < fuel)%nat -> exists r, splitargs_loop fuel p vec = Some r.
Proof.
  revert p vec. induction fuel as [|fuel IH]; intros p vec Hin Hsz Hf; [lia|]. cbn [splitargs_loop].
  destruct (skip_blanks_total p Hin) as (c & q & -> & Hin' & Hlen & Hc). mred.
  cbn [deref lookup list_lookup]. mred. destruct (Z.eqb_spec c 0) as [-> |Hc0]; cbn [negb]; [by eexists|].
  destruct (sb_new_spec []) as (e & He & Hoke & Hbe); [cbn; lia|]. unfold sdsempty. rewrite He. mred.
  destruct (token_loop_total (Datatypes.S (Datatypes.S (length (c :: q)))) (Tok (c :: q) e false false false))
    as (r & -> & Hr); cbn [t_p t_current t_done]; [done|done|done|rewrite Hbe; cbn [length] in *; lia|lia|].
  mred. destruct r as [[p' cur]|]; [|by eexists]. cbn [t_p] in Hr. destruct Hr as (Hin2 & Hl2 & Hlt).
  apply IH; [done|lia|]. enough (length p' < length (c :: q))%nat by lia. apply Hlt; [|done..].
  intros c' [= <-]. by destruct Hc.
Qed.

(** [sdssplitargs] terminates on every C string, never reads behind its
    terminator and never trips an assertion: it returns [NULL] or a vector. *)
Theorem sdssplitargs_total line :
  zlen line < 2 ^ 60 - 1 -> exists r, sdssplitargs line = Some r.
Proof.
  intros Hsz. unfold sdssplitargs. apply splitargs_loop_total.
  - apply elem_of_app. right. by apply list_elem_of_singleton.
  - rewrite length_app. cbn [length]. lia.
  - rewrite length_app. cbn [length]. lia.
Qed.

(** ** Splitting by a separator *)

Definition occurs (sep w : list Z) : Prop := exists a b, w = a ++ sep ++ b.

(** [sep] is found at position [i] of [s]. *)
Definition found (s sep : list Z) (i : nat) : Prop := take (length sep) (drop i s) = sep.

#[local] Instance found_dec s sep i : Decision (found s sep i).
Proof. unfold found. apply _. Defined.

Lemma memcmp_eq a b : length a = length b -> (Sds.memcmp a b =? 0) = bool_decide (a = b).
Proof.
  revert b. induction a as [|x a IH]; intros [|y b] Hl; try done. cbn [Sds.memcmp].
  injection Hl as Hl. destruct (Z.eqb_spec x y) as [-> |Hne].
  - rewrite IH by done. apply bool_decide_ext. split; [by intros ->|by intros [=]].
  - rw_false (x - y =? 0). symmetry. apply bool_decide_eq_false. by intros [=].
Qed.

Lemma here_spec s sep j :
  1 <= zlen sep -> 0 <= j -> j + zlen sep <= zlen s ->
  (if zlen sep =? 1 then
     c ← rd s j; c0 ← rd sep 0;
     if c =? c0 then Some true
     else w ← rdn s j (zlen sep); w' ← rdn sep 0 (zlen sep); Some (Sds.memcmp w w' =? 0)
   else w ← rdn s j (zlen sep); w' ← rdn sep 0 (zlen sep); Some (Sds.memcmp w w' =? 0))
  = Some (bool_decide (found s sep (Z.to_nat j))).
Proof.
  intros Hs Hj Hl. unfold found.
  assert (Hm : (w ← rdn s j (zlen sep); w' ← rdn sep 0 (zlen sep); Some (Sds.memcmp w w' =? 0))
    = Some (bool_decide (take (length sep) (drop (Z.to_nat j) s) = sep))).
  { unfold rdn. rw_true ((0 <=? j) && (0 <=? zlen sep) && (j + zlen sep <=? zlen s)).
    rw_true ((0 <=? 0) && (0 <=? zlen sep) && (0 + zlen sep <=? zlen sep)). mred.
    rewrite Nat2Z.id. cbn [Z.to_nat drop]. rewrite drop_0, (take_ge sep) by lia.
    rewrite memcmp_eq; [done|]. rewrite length_take, length_drop. lia. }
  destruct (Z.eqb_spec (zlen sep) 1) as [H1|]; [|done].
  destruct sep as [|x [|? ?]]; cbn [length] in *; try lia.
  destruct (lookup_lt_is_Some_2 s (Z.to_nat j)) as [c Hc]; [lia|].
  rewrite (rd_lookup s j) by lia. rewrite Hc. change (rd [x] 0) with (Some x). mred.
  destruct (Z.eqb_spec c x) as [-> |]; [|exact Hm]. f_equal. symmetry. apply bool_decide_eq_true.
  apply drop_S in Hc as ->. done.
Qed.

(** A word cut out of [s] contains [sep] only where [s] does. *)
Lemma occurs_cut s sep start n :
  occurs sep (take n (drop start s)) ->
  exists i, (start <= i)%nat /\ (i + length sep <= start + n)%nat /\ found s sep i.
Proof.
  intros (a & b & Hab). exists (start + length a)%nat.
  assert (Hl : (length a + length sep + length b <= n)%nat).
  { pose proof (f_equal length Hab) as Hl. rewrite length_take, !length_app in Hl. lia. }
  split_and!; [lia|lia|]. unfold found. rewrite <- drop_drop.
  rewrite <- (take_drop n (drop start s)), Hab, <- !app_assoc.
  by rewrite drop_app_length, take_app_length.
Qed.

Definition with_sep (sep : list Z) (tokens : list S) : list Z :=
  concat (map (fun t => sb_bytes t ++ sep) tokens).

Lemma with_sep_snoc sep tokens t :
  with_sep sep (tokens ++ [t]) = with_sep sep tokens ++ sb_bytes t ++ sep.
Proof. unfold with_sep. rewrite map_app, concat_app. cbn. by rewrite app_nil_r. Qed.

Definition scanned (s sep : list Z) (start j : nat) : Prop :=
  forall i, (start <= i < j)%nat -> ~ found s sep i.

(** The next token, up to a match at [j]. *)
Lemma next_token s sep start j :
  (start <= j)%nat -> found s sep j -> (j + length sep <= length s)%nat -> scanned s sep start j ->
  (1 <= length sep)%nat ->
  ~ occurs sep (take (j - start) (drop start s)) /\
  take start s ++ take (j - start) (drop start s) ++ sep = take (j + length sep) s /\
  scanned s sep (j + length sep) (j + length sep).
Proof.
  intros Hsj Hf Hl Hsc H1. split_and!.
  - intros (i & Hi1 & Hi2 & Hfi)%occurs_cut. apply (Hsc i); [lia|done].
  - rewrite app_assoc, take_take_drop. rewrite <- Hf at 1.
    replace (start + (j - start))%nat with j by lia. apply take_take_drop.
  - intros i Hi. lia.
Qed.

Lemma splitlen_loop_spec s sep fuel start j tokens :
  1 <= zlen sep -> zlen s < 2 ^ 61 -> 0 <= start <= j -> j <= zlen s -> zlen s - j < Z.of_nat fuel ->
  with_sep sep tokens = take (Z.to_nat start) s ->
  Forall (fun t => ~ occurs sep (sb_bytes t)) tokens ->
  scanned s sep (Z.to_nat start) (Z.to_nat j) ->
  exists start' tokens', splitlen_loop fuel s (zlen s) sep (zlen sep) start j tokens
      = Some (start', tokens') /\ 0 <= start' <= zlen s /\
    with_sep sep tokens' = take (Z.to_nat start') s /\
    Forall (fun t => ~ occurs sep (sb_bytes t)) tokens' /\
    (forall i, (Z.to_nat start' <= i)%nat -> (i + length sep <= length s)%nat -> ~ found s sep i).
Proof.
  intros Hsep Hs. revert start j tokens.
  induction fuel as [|fuel IH]; intros start j tokens Hst Hj Hf Hw Ho Hsc; [lia|]. cbn [splitlen_loop].
  destruct (Z.ltb_spec j (zlen s - (zlen sep - 1))) as [Hlt|Hge].
  - rewrite here_spec by lia. mred. destruct (bool_decide_reflect (found s sep (Z.to_nat j))) as [Hfd|Hnf].
    + destruct (next_token s sep (Z.to_nat start) (Z.to_nat j)) as (Hno & Hcat & Hsc'); [lia|done|lia|done|lia|].
      assert (Hr : rdn s start (j - start)
        = Some (take (Z.to_nat j - Z.to_nat start) (drop (Z.to_nat start) s))).
      { apply rdn_Some. rewrite Z2Nat.inj_sub by lia. split_and!; (lia || done). }
      rewrite Hr. mred.
      destruct (sb_new_spec (take (Z.to_nat j - Z.to_nat start) (drop (Z.to_nat start) s))) as (t & -> & Hok & Hb).
      { rewrite length_take, length_drop. lia. }
      mred. replace (j + zlen sep - 1 + 1) with (j + zlen sep) by lia.
      assert (Hn : Z.to_nat (j + zlen sep) = (Z.to_nat j + length sep)%nat) by lia.
      apply IH; try lia.
      * by rewrite with_sep_snoc, Hb, Hw, Hcat, Hn.
      * apply Forall_app_2; [done|]. constructor; [by rewrite Hb|constructor].
      * by rewrite Hn.
    + apply IH; try done; try lia. intros i Hi. destruct (decide (i = Z.to_nat j)) as [-> |]; [done|].
      apply Hsc. lia.
  - exists start, tokens. split_and!; try done; try lia. intros i Hi1 Hi2. apply Hsc. lia.
Qed.

Lemma joined_snoc sep (tokens : list S) w :
  joined sep (map sb_bytes tokens ++ [w]) = with_sep sep tokens ++ w.
Proof.
  induction tokens as [|t tokens IH]; [done|]. cbn [map app].
  unfold with_sep in *. cbn [map concat]. rewrite <- !app_assoc, <- IH.
  by destruct tokens.
Qed.

(** Splitting by a non-empty separator and joining the tokens with it gives
    back the string, and no token contains the separator. *)
Theorem sdssplitlen_correct s sep :
  1 <= zlen sep -> 1 <= zlen s < 2 ^ 61 ->
  exists tokens joined_s, sdssplitlen s (zlen s) sep (zlen sep) = Some (Some tokens) /\
    Forall (fun t => ~ occurs sep (sb_bytes t)) tokens /\
    sdsjoinsds tokens sep = Some joined_s /\ sb_bytes joined_s = s.
Proof.
  intros Hsep Hs. unfold sdssplitlen. rw_false ((zlen sep <? 1) || (zlen s <=? 0)).
  destruct (splitlen_loop_spec s sep (Datatypes.S (Z.to_nat (zlen s))) 0 0 [])
    as (start & tokens & -> & Hst & Hw & Ho & Hsc); try done; try lia.
  { intros i Hi. lia. }
  mred. assert (Hr : rdn s start (zlen s - start) = Some (drop (Z.to_nat start) s)).
  { apply rdn_Some. split_and!; try lia. rewrite take_ge; [done|]. rewrite length_drop. lia. }
  rewrite Hr. mred. destruct (sb_new_spec (drop (Z.to_nat start) s)) as (t & -> & Hok & Hb);
    [rewrite length_drop; lia|]. mred.
  assert (Hj : joined sep (map sb_bytes (tokens ++ [t])) = s).
  { rewrite map_app. cbn [map]. by rewrite joined_snoc, Hw, Hb, take_drop. }
  destruct (joinsds_spec (tokens ++ [t]) sep) as (js & Hjs & _ & Hbj); [rewrite Hj; lia|].
  exists (tokens ++ [t]), js. split_and!; try done; [|by rewrite Hbj, Hj].
  apply Forall_app_2; [done|]. constructor; [|constructor]. rewrite Hb. intros Hocc.
  rewrite <- (take_ge (drop (Z.to_nat start) s) (length s)) in Hocc by (rewrite length_drop; lia).
  destruct (occurs_cut s sep (Z.to_nat start) (length s) Hocc) as (i & Hi1 & Hi2 & Hfi).
  apply (Hsc i Hi1); [|done]. apply (f_equal length) in Hfi. rewrite length_take, length_drop in Hfi. lia.
Qed.

(** ** Templates *)

(** A template as its author means it: characters, quoted braces, variables. *)
Inductive atom := Ch (c : Z) | Brace | Var (name : list Z).

Definition render (a : atom) : list Z :=
  match a with Ch c => [c] | Brace => [123; 123] | Var n => 123 :: n ++ [125] end.

Definition atom_ok (a : atom) : Prop :=
  match a with
  | Ch c => c <> 123
  | Brace => True
  | Var n => (125 ∉ n) /\ head n <> Some 123
  end.

Section Template.
Context (cb : list Z -> option (list Z)).

Definition expand (a : atom) : option (list Z) :=
  match a with
  | Ch c => Some [c]
  | Brace => Some [123]
  | Var n => v ← cb n; Some (cstr v)
  end.

Fixpoint expand_all (l : list atom) : option (list Z) :=
  match l with
  | [] => Some []
  | a :: l => x ← expand a; y ← expand_all l; Some (x ++ y)
  end.

(** Room an atom may need. *)
Definition cost (a : atom) : Z :=
  zlen (render a) + match expand a with Some x => zlen x | None => 0 end.
Definition costs (l : list atom) : Z := foldr (fun a z => cost a + z) 0 l.

Lemma strchr_app p c q : c ∉ p -> strchr (p ++ c :: q) c = Some (p, c :: q).
Proof.
  induction p as [|x p IH]; intros Hp; cbn [app strchr]; [by rewrite Z.eqb_refl|].
  apply not_elem_of_cons in Hp as [Hx Hp]. rw_false (x =? c). by rewrite IH.
Qed.

Lemma strchr_none p c : c ∉ p -> strchr p c = None.
Proof.
  induction p as [|x p IH]; intros Hp; cbn [strchr]; [done|].
  apply not_elem_of_cons in Hp as [Hx Hp]. rw_false (x =? c). by rewrite IH.
Qed.

(** The leading run of plain characters. *)
Lemma leading_run l :
  Forall atom_ok l ->
  exists t rest, l = map Ch t ++ rest /\ (123 ∉ t) /\
    (rest = [] \/ exists a rest', rest = a :: rest' /\ (a = Brace \/ exists n, a = Var n)).
Proof.
  induction 1 as [|a l Ha Hl (t & rest & -> & Ht & Hr)].
  { exists [], []. split; [done|]. split; [apply not_elem_of_nil|by left]. }
  destruct a as [c| |n].
  - exists (c :: t), rest. split; [done|]. split; [|done]. apply not_elem_of_cons. cbn in Ha. done.
  - exists [], (Brace :: map Ch t ++ rest). split; [done|]. split; [apply not_elem_of_nil|]. right. eauto.
  - exists [], (Var n :: map Ch t ++ rest). split; [done|]. split; [apply not_elem_of_nil|]. right. eauto 6.
Qed.

Lemma render_run t : concat (map render (map Ch t)) = t.
Proof. induction t as [|c t IH]; [done|]. cbn. by rewrite IH. Qed.

Lemma expand_run t rest : expand_all (map Ch t ++ rest) = y ← expand_all rest; Some (t ++ y).
Proof.
  induction t as [|c t IH]; [cbn [map app]; by destruct (expand_all rest)|]. cbn [map app expand_all expand]. mred.
  rewrite IH. by destruct (expand_all rest).
Qed.

Lemma costs_run t rest : costs (map Ch t ++ rest) = 2 * zlen t + costs rest.
Proof.
  induction t as [|c t IH]; [done|]. cbn [map app].
  change (costs (Ch c :: map Ch t ++ rest)) with (2 + costs (map Ch t ++ rest)).
  rewrite IH, length_cons. lia.
Qed.

Lemma cost_ge a : zlen (render a) <= cost a.
Proof. unfold cost. destruct (expand a); lia. Qed.

Lemma costs_nonneg l : 0 <= costs l.
Proof.
  induction l as [|a l IH]; [done|].
  change (costs (a :: l)) with (cost a + costs l). pose proof (cost_ge a). lia.
Qed.

Lemma cat_run res t :
  sb_ok res -> zlen (sb_bytes res) + zlen t < 2 ^ 61 ->
  exists res', match t with [] => Some res | _ => sb_cat res t end = Some res' /\ sb_ok res' /\
    sb_bytes res' = sb_bytes res ++ t.
Proof.
  intros Hok Hsz. destruct t as [|c t]; [|by apply sb_cat_spec]. exists res. by rewrite app_nil_r.
Qed.

Definition outcome (r : option S) (bytes : option (list Z)) : Prop :=
  match bytes with
  | None => r = None
  | Some b => exists s, r = Some s /\ sb_bytes s = b
  end.

Lemma template_step fuel t res a rest :
  123 ∉ t -> a = Brace \/ (exists n, a = Var n) -> atom_ok a ->
  sb_ok res -> zlen (sb_bytes res) + zlen t + cost a < 2 ^ 61 ->
  exists res', sb_ok res' /\ 
    template_loop (Datatypes.S fuel) cb (t ++ render a ++ rest) res
    = match expand a with
      | None => Some None
      | Some x => template_loop fuel cb rest res'
      end /\
    forall x, expand a = Some x -> sb_bytes res' = sb_bytes res ++ t ++ x.
Proof.
  intros Ht Ha Hok Hokr Hsz. cbn [template_loop].
  assert (Hch : exists u, t ++ render a ++ rest = t ++ 123 :: u /\ drop 1 (render a ++ rest) = u)
    by (destruct Ha as [-> |[n ->]]; eexists; split; reflexivity).
  destruct Hch as (u & Hu1 & Hu2). rewrite Hu1. clear Hu1.
  destruct (t ++ 123 :: u) as [|z l] eqn:E; [by destruct t|]. rewrite <- E. clear E z l.
  rewrite strchr_app by done. pose proof (cost_ge a).
  destruct (cat_run res t Hokr) as (res1 & -> & Hok1 & Hb1); [lia|]. mred. cbn [drop]. rewrite drop_0.
  assert (Hr : zlen (render a) < 2 ^ 61) by lia. clear H. unfold cost in Hsz. subst u. destruct Ha as [-> |[n ->]].
  - cbn in Hsz. cbn [render app drop Z.eqb Pos.eqb]. 
    destruct (sb_cat_spec res1 [123] Hok1) as (res2 & -> & Hok2 & Hb2); [rewrite Hb1, length_app; cbn; lia|].
    mred. exists res2. split; [done|]. split; [done|]. intros x [= <-]. by rewrite Hb2, Hb1, app_assoc.
  - destruct Hok as [Hn1 Hn2]. cbn [render app drop] in *. rewrite drop_0, <- app_assoc. cbn [app].
    assert (Hc : exists c w, n ++ 125 :: rest = c :: w /\ c <> 123).
    { destruct n as [|c n]; [by exists 125, rest|]. exists c, (n ++ 125 :: rest). split; [done|].
      cbn in Hn2. congruence. }
    destruct Hc as (c & w & Hcw & Hc). rewrite Hcw. rw_false (c =? 123). rewrite <- Hcw.
    rewrite strchr_app by done. cbn [length] in Hsz. rewrite length_app in Hsz.
    destruct (sb_new_spec n) as (vn & -> & _ & Hvn); [cbn [render length] in Hr; rewrite length_app in Hr; lia|]. mred. rewrite Hvn. cbn [expand].
    destruct (cb n) as [v|] eqn:Ecb; mred; [|by exists res1].
    cbn [expand] in Hsz. rewrite Ecb in Hsz. cbn [mbind option_bind] in Hsz.
    destruct (sb_cat_spec res1 (cstr v) Hok1) as (res2 & -> & Hok2 & Hb2); [rewrite Hb1, length_app; lia|].
    mred. exists res2. split; [done|]. cbn [drop]. rewrite drop_0. split; [done|]. intros x [= <-].
    by rewrite Hb2, Hb1, app_assoc.
Qed.

Lemma template_loop_spec fuel l res :
  Forall atom_ok l -> sb_ok res -> zlen (sb_bytes res) + costs l < 2 ^ 61 -> (length l < fuel)%nat ->
  exists r, template_loop fuel cb (concat (map render l)) res = Some r /\
    outcome r (y ← expand_all l; Some (sb_bytes res ++ y)).
Proof.
  revert l res. induction fuel as [|fuel IH]; intros l res Hl Hok Hsz Hf; [lia|].
  destruct (leading_run l Hl) as (t & rest & -> & Ht & Hr).
  rewrite map_app, concat_app, render_run, expand_run. rewrite costs_run in Hsz.
  rewrite length_app, length_map in Hf. apply Forall_app in Hl as [_ Hl].
  destruct Hr as [-> |(a & rest' & -> & Ha)].
  - cbn [map concat expand_all] in *. rewrite !app_nil_r. mred. change (costs []) with 0 in Hsz.
    cbn [template_loop]. destruct (cat_run res t Hok) as (res1 & Hc & Hok1 & Hb1); [lia|].
    rewrite strchr_none by done. destruct t as [|c t].
    + injection Hc as <-. eexists. split; [done|]. cbn. eauto.
    + rewrite Hc. mred. eexists. split; [done|]. exists res1. by rewrite Hb1, app_nil_r.
  - apply Forall_cons in Hl as [Hal Hl]. pose proof (costs_nonneg rest'). 
    change (costs (a :: rest')) with (cost a + costs rest') in Hsz. cbn [map concat expand_all].
    destruct (template_step fuel t res a (concat (map render rest')) Ht Ha Hal Hok) as (res1 & Hok1 & -> & Hb1); [lia|].
    destruct (expand a) as [x|] eqn:Ex; mred; [|by eexists]. specialize (Hb1 x eq_refl).
    destruct (IH rest' res1 Hl Hok1) as (r & -> & Ho).
    + rewrite Hb1, !length_app. unfold cost in Hsz. rewrite Ex in Hsz. lia.
    + cbn [length] in Hf. lia.
    + exists r. split; [done|]. destruct (expand_all rest') as [y|]; [|done]. revert Ho. mred. cbn.
      rewrite Hb1. by rewrite <- !app_assoc.
Qed.

(** Expanding a template gives the text with every quoted brace and every
    variable replaced, and [NULL] exactly when the callback refuses one. *)
Theorem sdstemplate_correct l :
  Forall atom_ok l -> costs l < 2 ^ 61 ->
  exists r, sdstemplate (concat (map render l)) cb = Some r /\ outcome r (expand_all l).
Proof.
  intros Hl Hsz. unfold sdstemplate, sdsempty.
  destruct (sb_new_spec []) as (e & -> & Hok & Hb); [cbn; lia|]. mred.
  destruct (template_loop_spec (Datatypes.S (length (concat (map render l)))) l e Hl Hok)
    as (r & -> & Ho); [rewrite Hb; cbn; lia| |].
  - enough (length l <= length (concat (map render l)))%nat by lia.
    clear. induction l as [|a l IH]; [done|]. cbn [map concat]. rewrite length_app.
    destruct a; cbn [render length] in *; lia.
  - exists r. split; [done|]. rewrite Hb in Ho. by destruct (expand_all l).
Qed.

End Template.
End Text.

(** ** Concrete instances *)

Definition al8 : allocator :=
  {| al_usable := Sds.usable8; al_junk := fun _ => 7; al_usable_ok := Sds.usable8_ok |}.

Definition buf8 : StringBuffer Sds.sds := sds_buffer al8.

Lemma sdssplitargs_roundtrip_witness :
  exists rs line toks, reprs (SB := buf8) [str "a b"; [34; 0; 255]; []] = Some rs /\
    sdsjoinsds (SB := buf8) rs [32] = Some line /\
    sdssplitargs (SB := buf8) (Sds.content line) = Some (Some toks) /\
    map Sds.content toks = [str "a b"; [34; 0; 255]; []].
Proof.
  apply (sdssplitargs_roundtrip (SB := buf8) [str "a b"; [34; 0; 255]; []]); [|cbn; lia].
  repeat constructor; unfold byte_ok; cbn; lia.
Defined.

Lemma sdssplitargs_total_witness :
  exists r, sdssplitargs (SB := buf8) (str "set 'k") = Some r.
Proof. apply (sdssplitargs_total (SB := buf8) (str "set 'k")). cbn. lia. Defined.

Lemma sdssplitlen_correct_witness :
  exists tokens joined_s, sdssplitlen (SB := buf8) (str "a--b---c") 8 (str "--") 2 = Some (Some tokens) /\
    Forall (fun t => ~ occurs (str "--") (Sds.content t)) tokens /\
    sdsjoinsds (SB := buf8) tokens (str "--") = Some joined_s /\ Sds.content joined_s = str "a--b---c".
Proof. apply (sdssplitlen_correct (SB := buf8) (str "a--b---c") (str "--")); cbn; lia. Defined.

Lemma sdstemplate_correct_witness :
  let cb n := if bool_decide (n = str "port") then Some (str "6379") else None in
  let l := [Ch 58; Var (str "port"); Brace] in
  exists r, sdstemplate (SB := buf8) (str ":{port}{{") cb = Some r /\ outcome (SB := buf8) r (expand_all cb l).
Proof.
  intros cb l. apply (sdstemplate_correct (SB := buf8) cb l).
  - repeat constructor; cbn; [done|apply (bool_decide_unpack _); by vm_compute|done].
  - vm_compute. done.
Defined.

End SdsText.
