(* ===== verification/Listpack.v ===== *)
(** * Listpacks ([redis-stable/src/listpack.c], [listpack.h])

    The serialized list: encoding and decoding of entries, navigation in both
    directions, insertion, replacement, deletion, merging and validation.

    A listpack is a block of memory [lp]; the length of the block is what
    [lp_malloc_size] reports, so it may exceed the total bytes of the header.
    Element pointers are offsets from [lp].  An operation is [None] when it
    reads or writes outside the block or trips an assertion. *)

From S2P Require Import Prelude Numbers.

Module Listpack.

Definition LP_HDR_SIZE : Z := 6.
Definition LP_HDR_NUMELE_UNKNOWN : Z := 65535.
Definition LP_EOF : Z := 255.
Definition UINT32_MAX : Z := 2 ^ 32 - 1.
Definition UINT64_MAX : Z := 2 ^ 64 - 1.
Definition LISTPACK_MAX_SAFETY_SIZE : Z := Z.shiftl 1 30.
Definition LP_INTBUF_SIZE : Z := 21.

(** ** Encodings *)

Definition IS_7BIT_UINT (b : Z) : bool := Z.land b 128 =? 0.
Definition IS_6BIT_STR (b : Z) : bool := Z.land b 192 =? 128.
Definition IS_13BIT_INT (b : Z) : bool := Z.land b 224 =? 192.
Definition IS_12BIT_STR (b : Z) : bool := Z.land b 240 =? 224.
Definition IS_16BIT_INT (b : Z) : bool := Z.land b 255 =? 241.
Definition IS_24BIT_INT (b : Z) : bool := Z.land b 255 =? 242.
Definition IS_32BIT_INT (b : Z) : bool := Z.land b 255 =? 243.
Definition IS_64BIT_INT (b : Z) : bool := Z.land b 255 =? 244.
Definition IS_32BIT_STR (b : Z) : bool := Z.land b 255 =? 240.

(** The header: a 32 bit total and a 16 bit number of elements. *)
Definition lpGetTotalBytes (lp : list Z) : option Z := bs ← rdn lp 0 4; Some (le_val bs).
Definition lpGetNumElements (lp : list Z) : option Z := bs ← rdn lp 4 2; Some (le_val bs).
Definition lpSetTotalBytes (lp : list Z) (v : Z) : option (list Z) := wrn lp 0 (le_bytes 4 v).
Definition lpSetNumElements (lp : list Z) (v : Z) : option (list Z) := wrn lp 4 (le_bytes 2 v).

Definition lpBytes (lp : list Z) : option Z := lpGetTotalBytes lp.

(** [lp] is [None] for the null pointer. *)
Definition lpSafeToAdd (lp : option (list Z)) (add : Z) : option bool :=
  len ← (match lp with Some lp => lpGetTotalBytes lp | None => Some 0 end);
  Some (negb (uwrap 64 (len + add) >? LISTPACK_MAX_SAFETY_SIZE)).

Definition lpStringToInt64 (s : list Z) : option Z :=
  let slen := zlen s in
  if (slen =? 0) || (slen >=? Numbers.LONG_STR_SIZE) then None
  else if (slen =? 1) && (bool_decide (head s = Some 48)) then Some 0
  else
    let '(negative, p) := match s with 45 :: p => (true, p) | _ => (false, s) end in
    Numbers.string2ll_digits negative p.

(** The bytes written to [intenc]; a store into [unsigned char] keeps the low
    eight bits. *)
Definition u8 (v : Z) : Z := uwrap 8 v.

Definition lpEncodeIntegerGetType (v : Z) : list Z :=
  if (v >=? 0) && (v <=? 127) then [u8 v]
  else if (v >=? -4096) && (v <=? 4095) then
    let v := if v <? 0 then Z.shiftl 1 13 + v else v in
    [u8 (Z.lor (Z.shiftr v 8) 192); Z.land v 255]
  else if (v >=? -32768) && (v <=? 32767) then
    let v := if v <? 0 then Z.shiftl 1 16 + v else v in
    [241; Z.land v 255; u8 (Z.shiftr v 8)]
  else if (v >=? -8388608) && (v <=? 8388607) then
    let v := if v <? 0 then Z.shiftl 1 24 + v else v in
    [242; Z.land v 255; Z.land (Z.shiftr v 8) 255; u8 (Z.shiftr v 16)]
  else if (v >=? -2147483648) && (v <=? 2147483647) then
    let v := if v <? 0 then Z.shiftl 1 32 + v else v in
    [243; Z.land v 255; Z.land (Z.shiftr v 8) 255; Z.land (Z.shiftr v 16) 255; u8 (Z.shiftr v 24)]
  else
    let uv := uwrap 64 v in
    [244; Z.land uv 255; Z.land (Z.shiftr uv 8) 255; Z.land (Z.shiftr uv 16) 255;
     Z.land (Z.shiftr uv 24) 255; Z.land (Z.shiftr uv 32) 255; Z.land (Z.shiftr uv 40) 255;
     Z.land (Z.shiftr uv 48) 255; u8 (Z.shiftr uv 56)].

(** Either the integer encoding of the element, or the length its string
    encoding needs. *)
Inductive enctype := LP_ENCODING_INT (intenc : list Z) | LP_ENCODING_STRING (enclen : Z).

Definition lpEncodeGetType (ele : list Z) : enctype :=
  match lpStringToInt64 ele with
  | Some v => LP_ENCODING_INT (lpEncodeIntegerGetType v)
  | None =>
    let size := zlen ele in
    LP_ENCODING_STRING (if size <? 64 then 1 + size else if size <? 4096 then 2 + size else 5 + size)
  end.

Definition lpEncodeBacklen (l : Z) : list Z :=
  if l <=? 127 then [u8 l]
  else if l <? 16383 then [u8 (Z.shiftr l 7); Z.lor (Z.land l 127) 128]
  else if l <? 2097151 then
    [u8 (Z.shiftr l 14); Z.lor (Z.land (Z.shiftr l 7) 127) 128; Z.lor (Z.land l 127) 128]
  else if l <? 268435455 then
    [u8 (Z.shiftr l 21); Z.lor (Z.land (Z.shiftr l 14) 127) 128;
     Z.lor (Z.land (Z.shiftr l 7) 127) 128; Z.lor (Z.land l 127) 128]
  else
    [u8 (Z.shiftr l 28); Z.lor (Z.land (Z.shiftr l 21) 127) 128;
     Z.lor (Z.land (Z.shiftr l 14) 127) 128; Z.lor (Z.land (Z.shiftr l 7) 127) 128;
     Z.lor (Z.land l 127) 128].

Definition lpEncodeBacklenBytes (l : Z) : Z :=
  if l <=? 127 then 1
  else if l <? 16383 then 2
  else if l <? 2097151 then 3
  else if l <? 268435455 then 4
  else 5.

(** [p] is the last byte of the field. *)
Definition lpDecodeBacklen (lp : list Z) (p : Z) : option Z :=
  b0 ← rd lp p;
  if Z.land b0 128 =? 0 then Some (Z.land b0 127) else
  let val := Z.land b0 127 in
  b1 ← rd lp (p - 1);
  if Z.land b1 128 =? 0 then Some (Z.lor val (Z.shiftl (Z.land b1 127) 7)) else
  let val := Z.lor val (Z.shiftl (Z.land b1 127) 7) in
  b2 ← rd lp (p - 2);
  if Z.land b2 128 =? 0 then Some (Z.lor val (Z.shiftl (Z.land b2 127) 14)) else
  let val := Z.lor val (Z.shiftl (Z.land b2 127) 14) in
  b3 ← rd lp (p - 3);
  if Z.land b3 128 =? 0 then Some (Z.lor val (Z.shiftl (Z.land b3 127) 21)) else
  let val := Z.lor val (Z.shiftl (Z.land b3 127) 21) in
  b4 ← rd lp (p - 4);
  if Z.land b4 128 =? 0 then Some (Z.lor val (Z.shiftl (Z.land b4 127) 28)) else
  Some UINT64_MAX.

(** The bytes [lpEncodeString] writes. *)
Definition lpEncodeString (s : list Z) : list Z :=
  let len := zlen s in
  if len <? 64 then Z.lor len 128 :: s
  else if len <? 4096 then Z.lor (Z.shiftr len 8) 224 :: Z.land len 255 :: s
  else [240; Z.land len 255; Z.land (Z.shiftr len 8) 255; Z.land (Z.shiftr len 16) 255;
        Z.land (Z.shiftr len 24) 255] ++ s.

Definition STR_LEN6 (lp : list Z) (p : Z) : option Z := b ← rd lp p; Some (Z.land b 63).
Definition STR_LEN12 (lp : list Z) (p : Z) : option Z :=
  b ← rd lp p; b1 ← rd lp (p + 1); Some (Z.lor (Z.shiftl (Z.land b 15) 8) b1).
Definition STR_LEN32 (lp : list Z) (p : Z) : option Z := bs ← rdn lp (p + 1) 4; Some (le_val bs).

(** The result is a [uint32_t]. *)
Definition lpCurrentEncodedSizeUnsafe (lp : list Z) (p : Z) : option Z :=
  b ← rd lp p;
  if IS_7BIT_UINT b then Some 1
  else if IS_6BIT_STR b then n ← STR_LEN6 lp p; Some (1 + n)
  else if IS_13BIT_INT b then Some 2
  else if IS_16BIT_INT b then Some 3
  else if IS_24BIT_INT b then Some 4
  else if IS_32BIT_INT b then Some 5
  else if IS_64BIT_INT b then Some 9
  else if IS_12BIT_STR b then n ← STR_LEN12 lp p; Some (2 + n)
  else if IS_32BIT_STR b then n ← STR_LEN32 lp p; Some (uwrap 32 (5 + n))
  else if b =? LP_EOF then Some 1
  else Some 0.

Definition lpCurrentEncodedSizeBytes (encoding : Z) : Z :=
  if IS_7BIT_UINT encoding then 1
  else if IS_6BIT_STR encoding then 1
  else if IS_13BIT_INT encoding then 1
  else if IS_16BIT_INT encoding then 1
  else if IS_24BIT_INT encoding then 1
  else if IS_32BIT_INT encoding then 1
  else if IS_64BIT_INT encoding then 1
  else if IS_12BIT_STR encoding then 2
  else if IS_32BIT_STR encoding then 5
  else if encoding =? LP_EOF then 1
  else 0.

(** ** Navigation

    A pointer result [Some None] is the null pointer. *)

Definition lpSkip (lp : list Z) (p : Z) : option Z :=
  entrylen ← lpCurrentEncodedSizeUnsafe lp p;
  Some (p + (entrylen + lpEncodeBacklenBytes entrylen)).

(** [Some None] is the return value 0; [Some (Some q)] is 1 with [*pp = q]. *)
Definition lpValidateNext (lp : list Z) (p : Z) (lpbytes : Z) : option (option (option Z)) :=
  let OUT_OF_RANGE p := (p <? LP_HDR_SIZE) || (p >? lpbytes - 1) in
  if OUT_OF_RANGE p then Some None
  else
    b ← rd lp p;
    if b =? LP_EOF then Some (Some None)
    else
      let lenbytes := lpCurrentEncodedSizeBytes b in
      if lenbytes =? 0 then Some None
      else if OUT_OF_RANGE (p + lenbytes) then Some None
      else
        entrylen ← lpCurrentEncodedSizeUnsafe lp p;
        let encodedBacklen := lpEncodeBacklenBytes entrylen in
        let entrylen := entrylen + encodedBacklen in
        if OUT_OF_RANGE (p + entrylen) then Some None
        else
          let p := p + entrylen in
          prevlen ← lpDecodeBacklen lp (p - 1);
          if negb (uwrap 64 (prevlen + encodedBacklen) =? entrylen) then Some None
          else Some (Some (Some p)).

Definition lpAssertValidEntry (lp : list Z) (lpbytes p : Z) : option unit :=
  r ← lpValidateNext lp p lpbytes;
  match r with Some _ => Some tt | None => None end.

Definition lpNextWithBytes (lp : list Z) (p lpbytes : Z) : option (option Z) :=
  p ← lpSkip lp p;
  b ← rd lp p;
  if b =? LP_EOF then Some None
  else _ ← lpAssertValidEntry lp lpbytes p; Some (Some p).

Definition lpNext (lp : list Z) (p : Z) : option (option Z) :=
  p ← lpSkip lp p;
  b ← rd lp p;
  if b =? LP_EOF then Some None
  else
    lpbytes ← lpBytes lp;
    _ ← lpAssertValidEntry lp lpbytes p; Some (Some p).

Definition lpPrev (lp : list Z) (p : Z) : option (option Z) :=
  if p =? LP_HDR_SIZE then Some None
  else
    let p := p - 1 in
    prevlen ← lpDecodeBacklen lp p;
    let prevlen := uwrap 64 (prevlen + lpEncodeBacklenBytes prevlen) in
    let p := p - (prevlen - 1) in
    lpbytes ← lpBytes lp;
    _ ← lpAssertValidEntry lp lpbytes p; Some (Some p).

Definition lpFirst (lp : list Z) : option (option Z) :=
  let p := LP_HDR_SIZE in
  b ← rd lp p;
  if b =? LP_EOF then Some None
  else
    lpbytes ← lpBytes lp;
    _ ← lpAssertValidEntry lp lpbytes p; Some (Some p).

Definition lpLast (lp : list Z) : option (option Z) :=
  bytes ← lpGetTotalBytes lp; lpPrev lp (bytes - 1).

(** [while(p) { count++; p = lpNext(lp,p); }] *)
Fixpoint lpLength_loop (fuel : nat) (lp : list Z) (p : option Z) (count : Z) : option Z :=
  match fuel with
  | O => None
  | S fuel =>
    match p with
    | None => Some count
    | Some p => p ← lpNext lp p; lpLength_loop fuel lp p (uwrap 32 (count + 1))
    end
  end.

(** The count, and the listpack with the header field perhaps updated. *)
Definition lpLength (lp : list Z) : option (Z * list Z) :=
  numele ← lpGetNumElements lp;
  if negb (numele =? LP_HDR_NUMELE_UNKNOWN) then Some (numele, lp)
  else
    p ← lpFirst lp;
    count ← lpLength_loop (S (length lp)) lp p 0;
    lp ← (if count <? LP_HDR_NUMELE_UNKNOWN then lpSetNumElements lp count else Some lp);
    Some (count, lp).

Fixpoint seek_forward (fuel : nat) (lp : list Z) (index : Z) (ele : option Z) : option (option Z) :=
  match fuel with
  | O => None
  | S fuel =>
    match ele with
    | Some p => if index >? 0 then ele ← lpNext lp p; seek_forward fuel lp (index - 1) ele
                else Some ele
    | None => Some None
    end
  end.

Fixpoint seek_backward (fuel : nat) (lp : list Z) (index : Z) (ele : option Z) : option (option Z) :=
  match fuel with
  | O => None
  | S fuel =>
    match ele with
    | Some p => if index <? -1 then ele ← lpPrev lp p; seek_backward fuel lp (index + 1) ele
                else Some ele
    | None => Some None
    end
  end.

Definition lpSeek (lp : list Z) (index : Z) : option (option Z) :=
  numele ← lpGetNumElements lp;
  let forward_from index := ele ← lpFirst lp; seek_forward (S (length lp)) lp index ele in
  let backward_from index := ele ← lpLast lp; seek_backward (S (length lp)) lp index ele in
  if negb (numele =? LP_HDR_NUMELE_UNKNOWN) then
    let index := if index <? 0 then numele + index else index in
    if index <? 0 then Some None
    else if index >=? numele then Some None
    else if index >? Z.quot numele 2 then backward_from (index - numele)
    else forward_from index
  else if index <? 0 then backward_from index else forward_from index.

(** ** Reading an element *)

(** What [lpGet] without [intbuf] returns: [NULL] with the integer in [*count],
    or a pointer into the listpack with the length in [*count]. *)
Inductive lpvalue := VInt (v : Z) | VStr (off len : Z).

(** The three-step conversion from the unsigned value. *)
Definition signed_value (uval negstart negmax : Z) : Z :=
  if uval >=? negstart then
    let uval := uwrap 64 (negmax - uval) in
    let val := swrap 64 uval in
    - val - 1
  else swrap 64 uval.

(** The value and the entry size ([None] where the source leaves it unset). *)
Definition lpGetWithSize (lp : list Z) (p : Z) : option (lpvalue * option Z) :=
  b ← rd lp p;
  if IS_7BIT_UINT b then
    Some (VInt (signed_value (Z.land b 127) UINT64_MAX 0), Some 2)
  else if IS_6BIT_STR b then
    count ← STR_LEN6 lp p;
    Some (VStr (p + 1) count, Some (1 + count + lpEncodeBacklenBytes (count + 1)))
  else if IS_13BIT_INT b then
    b1 ← rd lp (p + 1);
    Some (VInt (signed_value (Z.lor (Z.shiftl (Z.land b 31) 8) b1) (Z.shiftl 1 12) 8191), Some 3)
  else if IS_16BIT_INT b then
    bs ← rdn lp (p + 1) 2; Some (VInt (signed_value (le_val bs) (Z.shiftl 1 15) 65535), Some 4)
  else if IS_24BIT_INT b then
    bs ← rdn lp (p + 1) 3;
    Some (VInt (signed_value (le_val bs) (Z.shiftl 1 23) (Z.shiftr UINT32_MAX 8)), Some 5)
  else if IS_32BIT_INT b then
    bs ← rdn lp (p + 1) 4; Some (VInt (signed_value (le_val bs) (Z.shiftl 1 31) UINT32_MAX), Some 6)
  else if IS_64BIT_INT b then
    bs ← rdn lp (p + 1) 8; Some (VInt (signed_value (le_val bs) (Z.shiftl 1 63) UINT64_MAX), Some 10)
  else if IS_12BIT_STR b then
    count ← STR_LEN12 lp p;
    Some (VStr (p + 2) count, Some (2 + count + lpEncodeBacklenBytes (count + 2)))
  else if IS_32BIT_STR b then
    count ← STR_LEN32 lp p;
    Some (VStr (p + 5) count, Some (5 + count + lpEncodeBacklenBytes (count + 5)))
  else Some (VInt (signed_value (12345678900000000 + b) UINT64_MAX 0), None).

Definition lpGetWithBuf (lp : list Z) (p : Z) : option lpvalue :=
  b ← rd lp p;
  if IS_6BIT_STR b then count ← STR_LEN6 lp p; Some (VStr (p + 1) count)
  else if IS_12BIT_STR b then count ← STR_LEN12 lp p; Some (VStr (p + 2) count)
  else if IS_32BIT_STR b then count ← STR_LEN32 lp p; Some (VStr (p + 5) count)
  else if IS_7BIT_UINT b then Some (VInt (signed_value (Z.land b 127) UINT64_MAX 0))
  else if IS_13BIT_INT b then
    b1 ← rd lp (p + 1);
    Some (VInt (signed_value (Z.lor (Z.shiftl (Z.land b 31) 8) b1) (Z.shiftl 1 12) 8191))
  else if IS_16BIT_INT b then
    bs ← rdn lp (p + 1) 2; Some (VInt (signed_value (le_val bs) (Z.shiftl 1 15) 65535))
  else if IS_24BIT_INT b then
    bs ← rdn lp (p + 1) 3;
    Some (VInt (signed_value (le_val bs) (Z.shiftl 1 23) (Z.shiftr UINT32_MAX 8)))
  else if IS_32BIT_INT b then
    bs ← rdn lp (p + 1) 4; Some (VInt (signed_value (le_val bs) (Z.shiftl 1 31) UINT32_MAX))
  else if IS_64BIT_INT b then
    bs ← rdn lp (p + 1) 8; Some (VInt (signed_value (le_val bs) (Z.shiftl 1 63) UINT64_MAX))
  else Some (VInt (signed_value (12345678900000000 + b) UINT64_MAX 0)).

Definition lpGet (lp : list Z) (p : Z) : option lpvalue := lpGetWithBuf lp p.

(** [lpGet] with [intbuf]: the element as a string. *)
Definition lpGetString (lp : list Z) (p : Z) (intbuf : list Z) : option (list Z) :=
  v ← lpGet lp p;
  match v with
  | VStr off len => rdn lp off len
  | VInt v => '(buf, count) ← Numbers.ll2string intbuf v; rdn buf 0 count
  end.

(** 1 with the integer, or 0. *)
Definition lpGetIntegerValue (lp : list Z) (p : Z) : option (option Z) :=
  v ← lpGet lp p;
  match v with VInt v => Some (Some v) | VStr _ _ => Some None end.

(** ** Modification *)

(** [where] *)
Inductive position := LP_BEFORE | LP_AFTER | LP_REPLACE.

#[global] Instance position_eq_dec : EqDecision position.
Proof. solve_decision. Defined.

(** The element passed to [lpInsert]: a string, an encoded integer, or neither
    (deletion). *)
Inductive element := EleStr (s : list Z) | EleInt (intenc : list Z) | EleNone.

Definition is_delete (e : element) : bool := match e with EleNone => true | _ => false end.

Section Alloc.
(** [usable n]: the usable size of a block allocated with [n] bytes; [junk] the
    content of fresh memory. *)
Context (usable : Z -> Z) (junk : nat -> Z).

Definition lp_realloc (lp : list Z) (n : Z) : list Z := zrealloc junk lp (usable n).

Definition lpNew (capacity : Z) : option (list Z) :=
  let lp := zrealloc junk [] (usable (if capacity >? LP_HDR_SIZE + 1 then capacity else LP_HDR_SIZE + 1)) in
  lp ← lpSetTotalBytes lp (LP_HDR_SIZE + 1);
  lp ← lpSetNumElements lp 0;
  wrn lp LP_HDR_SIZE [LP_EOF].

Definition lpShrinkToFit (lp : list Z) : option (list Z) :=
  size ← lpGetTotalBytes lp;
  if size <? zlen lp then Some (lp_realloc lp size) else Some lp.

(** [Some None] is the null pointer returned when the total would not fit;
    otherwise the new listpack and [*newp]. *)
Definition lpInsert (lp : list Z) (ele : element) (p : Z) (where_ : position)
    : option (option (list Z * option Z)) :=
  let delete := is_delete ele in
  let where_ := if delete then LP_REPLACE else where_ in
  '(p, where_) ←
    (if decide (where_ = LP_AFTER) then
       p ← lpSkip lp p;
       total ← lpGetTotalBytes lp;
       if (p >=? LP_HDR_SIZE) && (p <? total) then Some (p, LP_BEFORE) else None
     else Some (p, where_));
  let poff := p in
  let enc :=
    match ele with
    | EleStr s => match lpEncodeGetType s with
                  | LP_ENCODING_INT intenc => intenc
                  | LP_ENCODING_STRING _ => lpEncodeString s
                  end
    | EleInt intenc => intenc
    | EleNone => []
    end in
  let enclen :=
    match ele with
    | EleStr s => match lpEncodeGetType s with
                  | LP_ENCODING_INT intenc => zlen intenc
                  | LP_ENCODING_STRING enclen => enclen
                  end
    | EleInt intenc => zlen intenc
    | EleNone => 0
    end in
  let backlen := if delete then [] else lpEncodeBacklen enclen in
  let backlen_size := zlen backlen in
  old_listpack_bytes ← lpGetTotalBytes lp;
  replaced_len ←
    (if decide (where_ = LP_REPLACE) then
       n ← lpCurrentEncodedSizeUnsafe lp p;
       let n := uwrap 32 (n + lpEncodeBacklenBytes n) in
       if (p >=? LP_HDR_SIZE) && (p + n <? old_listpack_bytes) then Some n else None
     else Some 0);
  let new_listpack_bytes := uwrap 64 (old_listpack_bytes + enclen + backlen_size - replaced_len) in
  if new_listpack_bytes >? UINT32_MAX then Some None
  else
    let dst := poff in
    let lp := if (new_listpack_bytes >? old_listpack_bytes) && (new_listpack_bytes >? zlen lp)
              then lp_realloc lp new_listpack_bytes else lp in
    lp ← (if decide (where_ = LP_BEFORE) then
            memmove lp (dst + enclen + backlen_size) dst (old_listpack_bytes - poff)
          else
            memmove lp (dst + enclen + backlen_size) (dst + replaced_len)
              (old_listpack_bytes - poff - replaced_len));
    let lp := if new_listpack_bytes <? old_listpack_bytes then lp_realloc lp new_listpack_bytes else lp in
    newp ← (if delete then b ← rd lp dst; Some (if b =? LP_EOF then None else Some dst)
            else Some (Some dst));
    lp ← (if delete then Some lp
          else lp ← wrn lp dst enc; wrn lp (dst + enclen) backlen);
    lp ← (if negb (bool_decide (where_ = LP_REPLACE)) || delete then
            num_elements ← lpGetNumElements lp;
            if negb (num_elements =? LP_HDR_NUMELE_UNKNOWN) then
              if negb delete then lpSetNumElements lp (num_elements + 1)
              else lpSetNumElements lp (uwrap 32 (num_elements - 1))
            else Some lp
          else Some lp);
    lp ← lpSetTotalBytes lp new_listpack_bytes;
    Some (Some (lp, newp)).

Definition lpInsertString (lp s : list Z) (p : Z) (where_ : position) :=
  lpInsert lp (EleStr s) p where_.

Definition lpInsertInteger (lp : list Z) (lval p : Z) (where_ : position) :=
  lpInsert lp (EleInt (lpEncodeIntegerGetType lval)) p where_.

Definition lpAppend (lp ele : list Z) : option (option (list Z * option Z)) :=
  listpack_bytes ← lpGetTotalBytes lp; lpInsert lp (EleStr ele) (listpack_bytes - 1) LP_BEFORE.

Definition lpAppendInteger (lp : list Z) (lval : Z) : option (option (list Z * option Z)) :=
  listpack_bytes ← lpGetTotalBytes lp; lpInsertInteger lp lval (listpack_bytes - 1) LP_BEFORE.

Definition lpPrepend (lp s : list Z) : option (option (list Z * option Z)) :=
  p ← lpFirst lp;
  match p with
  | None => lpAppend lp s
  | Some p => lpInsert lp (EleStr s) p LP_BEFORE
  end.

Definition lpPrependInteger (lp : list Z) (lval : Z) : option (option (list Z * option Z)) :=
  p ← lpFirst lp;
  match p with
  | None => lpAppendInteger lp lval
  | Some p => lpInsertInteger lp lval p LP_BEFORE
  end.

Definition lpReplace (lp : list Z) (p : Z) (s : list Z) := lpInsert lp (EleStr s) p LP_REPLACE.
Definition lpReplaceInteger (lp : list Z) (p lval : Z) := lpInsertInteger lp lval p LP_REPLACE.
Definition lpDelete (lp : list Z) (p : Z) := lpInsert lp EleNone p LP_REPLACE.

(** [while (num--) ...]: the number of entries deleted and the tail. *)
Fixpoint delete_range_loop (fuel : nat) (lp : list Z) (bytes num deleted tail : Z) : option (Z * Z) :=
  match fuel with
  | O => None
  | S fuel =>
    if num =? 0 then Some (deleted, tail)
    else
      let deleted := deleted + 1 in
      tail ← lpSkip lp tail;
      b ← rd lp tail;
      if b =? LP_EOF then Some (deleted, tail)
      else
        _ ← lpAssertValidEntry lp bytes tail;
        delete_range_loop fuel lp bytes (num - 1) deleted tail
  end.

(** The new listpack and the new value of [*p]. *)
Definition lpDeleteRangeWithEntry (lp : list Z) (p num : Z) : option (list Z * option Z) :=
  bytes ← lpBytes lp;
  let eofptr := bytes - 1 in
  let first := p in
  if num =? 0 then Some (lp, Some p)
  else
    '(deleted, tail) ← delete_range_loop (S (length lp)) lp bytes num 0 p;
    lp ← memmove lp first tail (eofptr - tail + 1);
    lp ← lpSetTotalBytes lp (bytes - (tail - first));
    numele ← lpGetNumElements lp;
    lp ← (if negb (numele =? LP_HDR_NUMELE_UNKNOWN)
          then lpSetNumElements lp (uwrap 64 (numele - deleted)) else Some lp);
    lp ← lpShrinkToFit lp;
    b ← rd lp first;
    Some (lp, if b =? LP_EOF then None else Some first).

Definition lpDeleteRange (lp : list Z) (index num : Z) : option (list Z) :=
  numele ← lpGetNumElements lp;
  if num =? 0 then Some lp
  else
    q ← lpSeek lp index;
    match q with
    | None => Some lp
    | Some p =>
      let known := negb (numele =? LP_HDR_NUMELE_UNKNOWN) in
      let index := if known && (index <? 0) then numele + index else index in
      if known && (uwrap 64 (numele - uwrap 64 index) <=? num) then
        lp ← wrn lp p [LP_EOF];
        lp ← lpSetTotalBytes lp (p + 1);
        lp ← lpSetNumElements lp index;
        lpShrinkToFit lp
      else '(lp, _) ← lpDeleteRangeWithEntry lp p num; Some lp
    end.

(** The result, or [None] at an assertion; merging is refused by the caller's
    side for null or identical pointers. *)
Definition lpMerge (first second : list Z) : option (list Z) :=
  first_bytes ← lpBytes first;
  '(first_len, first) ← lpLength first;
  second_bytes ← lpBytes second;
  '(second_len, second) ← lpLength second;
  let append := first_bytes >=? second_bytes in
  let '(target, target_bytes, source, source_bytes) :=
    if append then (first, first_bytes, second, second_bytes)
    else (second, second_bytes, first, first_bytes) in
  let lpbytes := first_bytes + second_bytes - LP_HDR_SIZE - 1 in
  if negb (lpbytes <? UINT32_MAX) then None
  else
    let lplength := first_len + second_len in
    let lplength := if lplength <? 65535 then lplength else 65535 in
    let target := lp_realloc target lpbytes in
    target ←
      (if append then
         bs ← rdn source LP_HDR_SIZE (source_bytes - LP_HDR_SIZE);
         wrn target (target_bytes - 1) bs
       else
         target ← memmove target (source_bytes - 1) LP_HDR_SIZE (target_bytes - LP_HDR_SIZE);
         bs ← rdn source 0 (source_bytes - 1);
         wrn target 0 bs);
    target ← lpSetNumElements target lplength;
    lpSetTotalBytes target lpbytes.

Definition lpDup (lp : list Z) : option (list Z) :=
  lpbytes ← lpBytes lp;
  bs ← rdn lp 0 lpbytes;
  wrn (zrealloc junk [] (usable lpbytes)) 0 bs.

End Alloc.

(** ** Validation *)

Definition lpValidateFirst (lp : list Z) : option (option Z) :=
  b ← rd lp LP_HDR_SIZE; Some (if b =? LP_EOF then None else Some LP_HDR_SIZE).

(** The loop of the deep check, [entry_cb p numele] being the caller's check of
    one entry; [Some None] is [return 0]. *)
Fixpoint validate_loop (fuel : nat) (lp : list Z) (bytes numele : Z)
    (entry_cb : option (Z -> Z -> bool)) (p : Z) (count : Z) : option (option (Z * Z)) :=
  match fuel with
  | O => None
  | S fuel =>
    b ← rd lp p;
    if b =? LP_EOF then Some (Some (p, count))
    else
      r ← lpValidateNext lp p bytes;
      match r with
      | None => Some None
      | Some q =>
        let refused := match entry_cb with Some cb => negb (cb p numele) | None => false end in
        if refused then Some None
        else match q with
             | Some q => validate_loop fuel lp bytes numele entry_cb q (uwrap 32 (count + 1))
             | None => None
             end
      end
  end.

Definition lpValidateIntegrity (lp : list Z) (size : Z) (deep : bool)
    (entry_cb : option (Z -> Z -> bool)) : option bool :=
  if size <? LP_HDR_SIZE + 1 then Some false
  else
    bytes ← lpGetTotalBytes lp;
    if negb (bytes =? size) then Some false
    else
      b ← rd lp (size - 1);
      if negb (b =? LP_EOF) then Some false
      else if negb deep then Some true
      else
        numele ← lpGetNumElements lp;
        r ← validate_loop (S (length lp)) lp bytes numele entry_cb LP_HDR_SIZE 0;
        match r with
        | None => Some false
        | Some (p, count) =>
          if negb (p =? size - 1) then Some false
          else if negb (numele =? LP_HDR_NUMELE_UNKNOWN) && negb (numele =? count) then Some false
          else Some true
        end.

(** ** Comparison and search *)

(** [lpCompare] without the cache. *)
Definition lpCompare (lp : list Z) (p : Z) (s : list Z) : option bool :=
  b ← rd lp p;
  if b =? LP_EOF then Some false
  else
    v ← lpGet lp p;
    match v with
    | VStr off len => if zlen s =? len then w ← rdn lp off len; Some (bool_decide (w = s)) else Some false
    | VInt v => Some (match lpStringToInt64 s with Some sval => v =? sval | None => false end)
    end.

(** [lpFindCmp]: whether the entry's value equals the searched string; the
    conversion of the string is the same at every call. *)
Definition lpFindCmp (lp : list Z) (arg : list Z) (v : lpvalue) : option bool :=
  match v with
  | VStr off len =>
    if len =? zlen arg then w ← rdn lp off len; Some (bool_decide (w = arg)) else Some false
  | VInt v =>
    if (zlen arg >=? 32) || (zlen arg =? 0) then Some false
    else Some (match lpStringToInt64 arg with Some vll => v =? vll | None => false end)
  end.

(** [entry_size] keeps its previous value when [lpGetWithSize] leaves it unset. *)
Fixpoint find_loop (fuel : nat) (lp : list Z) (lp_bytes : Z) (cmp : lpvalue -> option bool)
    (skip : Z) (p skipcnt entry_size : Z) : option (option Z) :=
  match fuel with
  | O => None
  | S fuel =>
    r ←
      (if skipcnt =? 0 then
         '(value, sz) ← lpGetWithSize lp p;
         let entry_size := match sz with Some n => n | None => entry_size end in
         _ ← (match value with
              | VStr _ _ => if (p >=? LP_HDR_SIZE) && (p + entry_size <? lp_bytes) then Some tt else None
              | VInt _ => Some tt
              end);
         found ← cmp value;
         if (found : bool) then Some (inl p)
         else Some (inr (p + entry_size, skip, entry_size))
       else
         p ← lpSkip lp p; Some (inr (p, skipcnt - 1, entry_size)));
    match r with
    | inl p => Some (Some p)
    | inr (p, skipcnt, entry_size) =>
      _ ← (if p + 8 >=? lp_bytes then lpAssertValidEntry lp lp_bytes p
           else if (p >=? LP_HDR_SIZE) && (p <? lp_bytes) then Some tt else None);
      b ← rd lp p;
      if b =? LP_EOF then Some None
      else find_loop fuel lp lp_bytes cmp skip p skipcnt entry_size
    end
  end.

Definition lpFind (lp : list Z) (p : option Z) (s : list Z) (skip : Z) : option (option Z) :=
  lp_bytes ← lpBytes lp;
  p ← (match p with Some p => Some (Some p) | None => lpFirst lp end);
  match p with
  | None => Some None
  | Some p => find_loop (S (length lp)) lp lp_bytes (lpFindCmp lp s) skip p 0 123456789
  end.

Definition lpEntrySizeInteger (lval : Z) : Z :=
  let enclen := zlen (lpEncodeIntegerGetType lval) in enclen + lpEncodeBacklenBytes enclen.

Definition lpEstimateBytesRepeatedInteger (lval rep : Z) : Z :=
  LP_HDR_SIZE + lpEntrySizeInteger lval * rep + 1.

(** ** Encodings: lemmas *)

(** The encoding classes are ranges of the first byte. *)
Lemma classes b :
  byte_ok b ->
  IS_7BIT_UINT b = (b <? 128) /\ IS_6BIT_STR b = (128 <=? b) && (b <? 192) /\
  IS_13BIT_INT b = (192 <=? b) && (b <? 224) /\ IS_12BIT_STR b = (224 <=? b) && (b <? 240) /\
  IS_32BIT_STR b = (b =? 240) /\ IS_16BIT_INT b = (b =? 241) /\ IS_24BIT_INT b = (b =? 242) /\
  IS_32BIT_INT b = (b =? 243) /\ IS_64BIT_INT b = (b =? 244).
Proof.
  intros Hb. split_and!; apply eqb_prop;
    [exact (byte_forall (fun b => Bool.eqb (IS_7BIT_UINT b) (b <? 128)) eq_refl b Hb)
    |exact (byte_forall (fun b => Bool.eqb (IS_6BIT_STR b) ((128 <=? b) && (b <? 192))) eq_refl b Hb)
    |exact (byte_forall (fun b => Bool.eqb (IS_13BIT_INT b) ((192 <=? b) && (b <? 224))) eq_refl b Hb)
    |exact (byte_forall (fun b => Bool.eqb (IS_12BIT_STR b) ((224 <=? b) && (b <? 240))) eq_refl b Hb)
    |exact (byte_forall (fun b => Bool.eqb (IS_32BIT_STR b) (b =? 240)) eq_refl b Hb)
    |exact (byte_forall (fun b => Bool.eqb (IS_16BIT_INT b) (b =? 241)) eq_refl b Hb)
    |exact (byte_forall (fun b => Bool.eqb (IS_24BIT_INT b) (b =? 242)) eq_refl b Hb)
    |exact (byte_forall (fun b => Bool.eqb (IS_32BIT_INT b) (b =? 243)) eq_refl b Hb)
    |exact (byte_forall (fun b => Bool.eqb (IS_64BIT_INT b) (b =? 244)) eq_refl b Hb)].
Qed.

(** Rewrite the classes of the byte [b] into ranges. *)
Ltac by_class Hb :=
  let H1 := fresh in let H2 := fresh in let H3 := fresh in let H4 := fresh in let H5 := fresh in
  let H6 := fresh in let H7 := fresh in let H8 := fresh in let H9 := fresh in
  destruct (classes _ Hb) as (H1 & H2 & H3 & H4 & H5 & H6 & H7 & H8 & H9);
  rewrite ?H1, ?H2, ?H3, ?H4, ?H5, ?H6, ?H7, ?H8, ?H9;
  clear H1 H2 H3 H4 H5 H6 H7 H8 H9.

(** A continuation byte of the backlen field. *)
Lemma cont_byte x :
  0 <= x < 128 -> Z.land (Z.lor x 128) 128 <> 0 /\ Z.land (Z.lor x 128) 127 = x /\ byte_ok (Z.lor x 128).
Proof.
  intros Hx. assert (Hb : byte_ok x) by (unfold byte_ok; lia).
  pose proof (byte_forall (fun x => (127 <? x) || ((128 <=? Z.land (Z.lor x 128) 128)
    && (Z.land (Z.lor x 128) 127 =? x) && (0 <=? Z.lor x 128) && (Z.lor x 128 <? 256))) eq_refl x Hb) as H.
  cbv beta in H. unfold byte_ok. lia.
Qed.

Lemma first_byte x : 0 <= x < 128 -> u8 x = x /\ Z.land x 128 = 0 /\ Z.land x 127 = x.
Proof.
  intros Hx. assert (Hb : byte_ok x) by (unfold byte_ok; lia).
  pose proof (byte_forall (fun x => (127 <? x) || ((u8 x =? x) && (Z.land x 128 =? 0)
    && (Z.land x 127 =? x))) eq_refl x Hb) as H. cbv beta in H. lia.
Qed.

Lemma land127 x : Z.land x 127 = x mod 128.
Proof. by apply (land_ones_mod x 7). Qed.

Lemma backlen_length l : 0 <= l -> zlen (lpEncodeBacklen l) = lpEncodeBacklenBytes l.
Proof. intros. unfold lpEncodeBacklen, lpEncodeBacklenBytes. repeat case_match; done. Qed.

Lemma backlen_bytes_range l : 1 <= lpEncodeBacklenBytes l <= 5.
Proof. unfold lpEncodeBacklenBytes. repeat case_match; lia. Qed.

Lemma backlen_bytes_ok l : 0 <= l < 2 ^ 32 -> bytes_ok (lpEncodeBacklen l).
Proof.
  intros Hl. unfold lpEncodeBacklen. rewrite !land127.
  assert (Hc : forall x, byte_ok (Z.lor (x mod 128) 128)) by (intros; apply cont_byte; apply Z.mod_pos_bound; lia).
  assert (Hu : forall x, byte_ok (u8 x)) by (intros; apply (uwrap_range 8); lia).
  repeat case_match; repeat constructor; (apply Hc || apply Hu).
Qed.

(** Read byte [k] of the list [m] inside [pre ++ m ++ post]. *)
Ltac rd_at k :=
  match goal with
  | |- context [rd (?pre ++ ?m ++ ?post) ?p] =>
    replace p with (zlen pre + k) by (cbn [length]; lia);
    erewrite (rd_shift pre m post k) by reflexivity; mred
  end.

Lemma lor_first val x k : 0 <= k -> 0 <= val < 2 ^ k -> 0 <= x < 128 ->
  Z.lor val (Z.shiftl (Z.land x 127) k) = val + x * 2 ^ k.
Proof.
  intros Hk Hv Hx. destruct (first_byte x Hx) as (_ & _ & ->). by apply lor_shiftl_add.
Qed.

Lemma lor_cont val x k : 0 <= k -> 0 <= val < 2 ^ k ->
  Z.lor val (Z.shiftl (Z.land (Z.lor (x mod 128) 128) 127) k) = val + (x mod 128) * 2 ^ k.
Proof.
  intros Hk Hv. destruct (cont_byte (x mod 128)) as (_ & -> & _); [apply Z.mod_pos_bound; lia|].
  by apply lor_shiftl_add.
Qed.

(** Decoding the backlen field gives back the length, whatever surrounds it. *)
Lemma backlen_roundtrip pre post l :
  0 <= l < 2 ^ 32 ->
  lpDecodeBacklen (pre ++ lpEncodeBacklen l ++ post) (zlen pre + lpEncodeBacklenBytes l - 1) = Some l.
Proof.
  intros Hl. unfold lpEncodeBacklen, lpEncodeBacklenBytes. rewrite !land127, !Z.shiftr_div_pow2 by lia.
  assert (Hc : forall x, (Z.land (Z.lor (x mod 128) 128) 128 =? 0) = false /\
                         Z.land (Z.lor (x mod 128) 128) 127 = x mod 128).
  { intros x. destruct (cont_byte (x mod 128)) as (? & ? & _); [apply Z.mod_pos_bound; lia|]. split; [lia|done]. }
  assert (Hf : forall x, 0 <= x < 128 -> u8 x = x /\ (Z.land x 128 =? 0) = true /\ Z.land x 127 = x).
  { intros x Hx. destruct (first_byte x Hx) as (-> & H1 & H2). by rewrite H1. }
  change (2 ^ 7) with 128. change (2 ^ 14) with (128 * 128). change (2 ^ 21) with (128 * 128 * 128).
  change (2 ^ 28) with (128 * 128 * 128 * 128). rewrite <- !Z.div_div by lia.
  set (q1 := l / 128). set (q2 := q1 / 128). set (q3 := q2 / 128). set (q4 := q3 / 128).
  assert (E : forall x, x = 128 * (x / 128) + x mod 128 /\ 0 <= x mod 128 < 128)
    by (intros; split; [apply Z.div_mod; lia|apply Z.mod_pos_bound; lia]).
  pose proof (E l) as E0. fold q1 in E0. pose proof (E q1) as E1. fold q2 in E1.
  pose proof (E q2) as E2. fold q3 in E2. pose proof (E q3) as E3. fold q4 in E3.
  clear E. clearbody q1 q2 q3 q4. unfold lpDecodeBacklen.
  destruct (Z.leb_spec l 127); [|destruct (Z.ltb_spec l 16383); [|destruct (Z.ltb_spec l 2097151);
    [|destruct (Z.ltb_spec l 268435455)]]].
  - destruct (Hf l) as (-> & Hz & Hv); [lia|]. rd_at 0. by rewrite Hz, Hv.
  - destruct (Hf q1) as (-> & Hz & _); [lia|].
    rd_at 1. rewrite (proj1 (Hc l)). rd_at 0. rewrite Hz, (proj2 (Hc l)).
    rewrite lor_first by lia. f_equal. lia.
  - destruct (Hf q2) as (-> & Hz & _); [lia|].
    rd_at 2. rewrite (proj1 (Hc l)). rd_at 1. rewrite (proj1 (Hc q1)). rd_at 0.
    rewrite Hz, (proj2 (Hc l)), lor_cont by lia. rewrite lor_first by lia. f_equal. lia.
  - destruct (Hf q3) as (-> & Hz & _); [lia|].
    rd_at 3. rewrite (proj1 (Hc l)). rd_at 2. rewrite (proj1 (Hc q1)).
    rd_at 1. rewrite (proj1 (Hc q2)). rd_at 0.
    rewrite Hz, (proj2 (Hc l)), (lor_cont (l mod 128) q1 7), (lor_cont _ q2 14) by lia. rewrite lor_first by lia. f_equal. lia.
  - destruct (Hf q4) as (-> & Hz & _); [lia|].
    rd_at 4. rewrite (proj1 (Hc l)). rd_at 3. rewrite (proj1 (Hc q1)).
    rd_at 2. rewrite (proj1 (Hc q2)). rd_at 1. rewrite (proj1 (Hc q3)). rd_at 0.
    rewrite Hz, (proj2 (Hc l)), (lor_cont (l mod 128) q1 7), (lor_cont _ q2 14), (lor_cont _ q3 21) by lia. rewrite lor_first by lia. f_equal. lia.
Qed.

(** ** Representation

    [enc_ok e]: the bytes [e] are one encoded element, in any of the encodings
    (not only the shortest one), without its backlen. *)
Record enc_ok (e : list Z) : Prop := {
  eo_bytes : bytes_ok e;
  eo_size : lpCurrentEncodedSizeUnsafe e 0 = Some (zlen e);
  eo_head : head e <> Some LP_EOF
}.

Definition chunk (e : list Z) : list Z := e ++ lpEncodeBacklen (zlen e).
Definition chunks (es : list (list Z)) : list Z := concat (map chunk es).

(** The block [lp] holds the elements [es]; the count of the header is exact or
    unknown; anything may follow the end marker. *)
Record layout (lp : list Z) (es : list (list Z)) (num : Z) (tail : list Z) : Prop := Layout {
  ly_eq : lp = le_bytes 4 (zlen (chunks es) + 7) ++ le_bytes 2 num ++ chunks es ++ LP_EOF :: tail;
  ly_total : zlen (chunks es) + 7 < 2 ^ 32;
  ly_num : num = LP_HDR_NUMELE_UNKNOWN \/ (num = zlen es /\ zlen es < LP_HDR_NUMELE_UNKNOWN);
  ly_encs : Forall enc_ok es
}.

Definition rep (lp : list Z) (es : list (list Z)) : Prop := exists num tail, layout lp es num tail.

(** Offset of element number [length a] when the elements before it are [a]. *)
Definition off (a : list (list Z)) : Z := LP_HDR_SIZE + zlen (chunks a).

Lemma chunks_app a b : chunks (a ++ b) = chunks a ++ chunks b.
Proof. unfold chunks. by rewrite map_app, concat_app. Qed.

Lemma chunks_cons e b : chunks (e :: b) = e ++ lpEncodeBacklen (zlen e) ++ chunks b.
Proof. unfold chunks, chunk. cbn. by rewrite <- app_assoc. Qed.

Lemma chunk_length e : zlen (chunk e) = zlen e + lpEncodeBacklenBytes (zlen e).
Proof. unfold chunk. rewrite length_app, Nat2Z.inj_add, backlen_length by lia. done. Qed.

Lemma chunks_cons_length e b : zlen (chunks (e :: b)) = zlen (chunk e) + zlen (chunks b).
Proof. unfold chunks. cbn [map concat]. rewrite length_app. lia. Qed.

Lemma off_snoc a e : off (a ++ [e]) = off a + zlen (chunk e).
Proof. unfold off. rewrite chunks_app, length_app. unfold chunks at 2. cbn [map concat]. rewrite app_nil_r. lia. Qed.

(** Reads inside a part of memory carry over to the whole. *)
Definition inside (m m' : list Z) (d : Z) : Prop :=
  (forall i x, rd m i = Some x -> rd m' (d + i) = Some x) /\
  (forall i n x, rdn m i n = Some x -> rdn m' (d + i) n = Some x).

Lemma inside_app pre m post : inside m (pre ++ m ++ post) (zlen pre).
Proof. split; intros; [by apply rd_shift|by apply rdn_shift]. Qed.

Lemma size_mono m m' d p n :
  inside m m' d -> lpCurrentEncodedSizeUnsafe m p = Some n ->
  lpCurrentEncodedSizeUnsafe m' (d + p) = Some n.
Proof.
  intros [H1 H2]. unfold lpCurrentEncodedSizeUnsafe, STR_LEN6, STR_LEN12, STR_LEN32.
  rewrite <- !Z.add_assoc. destruct (rd m p) as [b|] eqn:Eb; [|done]. rewrite (H1 _ _ Eb). mred.
  destruct (rd m (p + 1)) as [b1|] eqn:E1; [rewrite (H1 _ _ E1)|];
    (destruct (rdn m (p + 1) 4) as [bs|] eqn:E4; [rewrite (H2 _ _ _ E4)|]);
    mred; repeat case_match; done.
Qed.

Definition shift_value (d : Z) (v : lpvalue) : lpvalue :=
  match v with VInt v => VInt v | VStr o n => VStr (d + o) n end.

Lemma get_mono m m' d p v :
  inside m m' d -> lpGetWithBuf m p = Some v -> lpGetWithBuf m' (d + p) = Some (shift_value d v).
Proof.
  intros [H1 H2]. unfold lpGetWithBuf, STR_LEN6, STR_LEN12, STR_LEN32.
  rewrite <- !Z.add_assoc. destruct (rd m p) as [b|] eqn:Eb; [|done]. rewrite (H1 _ _ Eb). mred.
  destruct (rd m (p + 1)) as [b1|] eqn:E1; [rewrite (H1 _ _ E1)|];
    (destruct (rdn m (p + 1) 8) as [bs8|] eqn:E8; [rewrite (H2 _ _ _ E8)|]);
    (destruct (rdn m (p + 1) 4) as [bs4|] eqn:E4; [rewrite (H2 _ _ _ E4)|]);
    (destruct (rdn m (p + 1) 3) as [bs3|] eqn:E3; [rewrite (H2 _ _ _ E3)|]);
    (destruct (rdn m (p + 1) 2) as [bs2|] eqn:E2; [rewrite (H2 _ _ _ E2)|]);
    mred; repeat case_match; intros; simplify_eq; done.
Qed.

(** The first byte of an element announces how many bytes hold its length. *)
Lemma enc_first e :
  enc_ok e -> exists b, head e = Some b /\ byte_ok b /\ b <> LP_EOF /\
    1 <= lpCurrentEncodedSizeBytes b <= zlen e.
Proof.
  intros [Hb Hs Hh]. destruct e as [|b e]; [done|]. exists b. cbn in Hh.
  apply Forall_cons in Hb as [Hb He]. split_and!; [done|done|congruence|..];
    revert Hs; unfold lpCurrentEncodedSizeUnsafe, lpCurrentEncodedSizeBytes, STR_LEN6, STR_LEN12, STR_LEN32;
    change (rd (b :: e) 0) with (Some b); mred; by_class Hb.
  - repeat case_match; try lia. all: intros [= ?]; cbn [length] in *; lia.
  - repeat case_match; try (cbn [length]; lia).
    + destruct (rd (b :: e) (0 + 1)) eqn:E; [|done]. intros _.
      rewrite rd_lookup in E by lia. apply lookup_lt_Some in E. lia.
    + destruct (rdn (b :: e) (0 + 1) 4) eqn:E; [|done]. intros _. apply rdn_Some in E. lia.
Qed.

(** *** Integer elements *)

Lemma signed_value_spec k v :
  1 <= k <= 64 -> in_s k v -> signed_value (v mod 2 ^ k) (2 ^ (k - 1)) (2 ^ k - 1) = v.
Proof.
  intros Hk Hv. unfold signed_value, in_s in *. pose proof (pow2_half k ltac:(lia)) as Hh.
  pose proof (Z.pow_le_mono_r 2 k 64). pose proof (pow2_pos (k - 1)).
  destruct (Z.lt_ge_cases v 0).
  - assert (v mod 2 ^ k = v + 2 ^ k) as ->.
    { rewrite <- (Z.mod_add v 1) by lia. rewrite Z.mod_small; lia. }
    destruct (Z.geb_spec (v + 2 ^ k) (2 ^ (k - 1))); [|lia].
    rewrite uwrap_id by (unfold in_u; lia). rewrite swrap_id by (unfold in_s; lia). lia.
  - rewrite Z.mod_small by lia. destruct (Z.geb_spec v (2 ^ (k - 1))); [lia|].
    apply swrap_id; [lia|]. unfold in_s. lia.
Qed.

Lemma byte_of v : Z.land v 255 = v mod 256 /\ u8 v = v mod 256.
Proof. split; [by apply (land_ones_mod v 8)|done]. Qed.

Lemma shiftr_bytes v : Z.shiftr v 8 = v / 256 /\ Z.shiftr v 16 = v / 256 / 256 /\
  Z.shiftr v 24 = v / 256 / 256 / 256 /\ Z.shiftr v 32 = v / 256 / 256 / 256 / 256 /\
  Z.shiftr v 40 = v / 256 / 256 / 256 / 256 / 256 /\
  Z.shiftr v 48 = v / 256 / 256 / 256 / 256 / 256 / 256 /\
  Z.shiftr v 56 = v / 256 / 256 / 256 / 256 / 256 / 256 / 256.
Proof. rewrite !Z.div_div, !Z.shiftr_div_pow2 by lia. done. Qed.

Lemma le_bytes_wrap n v k : k = 2 ^ (8 * Z.of_nat n) -> le_bytes n (if v <? 0 then k + v else v) = le_bytes n v.
Proof.
  intros ->. destruct (v <? 0); [|done]. rewrite <- le_bytes_mod, Z.add_comm.
  rewrite <- (Z.mul_1_l (2 ^ _)) at 1. rewrite Z.mod_add by (pose proof (pow2_pos (8 * Z.of_nat n)); lia).
  apply le_bytes_mod.
Qed.

(** The encodings of integers, with the payload as a little-endian number. *)
Lemma encode_integer v :
  lpEncodeIntegerGetType v =
  if (v >=? 0) && (v <=? 127) then [v mod 256]
  else if (v >=? -4096) && (v <=? 4095) then [192 + v mod 8192 / 256; v mod 256]
  else if (v >=? -32768) && (v <=? 32767) then 241 :: le_bytes 2 v
  else if (v >=? -8388608) && (v <=? 8388607) then 242 :: le_bytes 3 v
  else if (v >=? -2147483648) && (v <=? 2147483647) then 243 :: le_bytes 4 v
  else 244 :: le_bytes 8 v.
Proof.
  unfold lpEncodeIntegerGetType.
  case_match; [done|]. case_match.
  { change (Z.shiftl 1 13) with 8192. set (w := if v <? 0 then 8192 + v else v).
    assert (Hw : w = v mod 8192 /\ 0 <= w < 8192) by (unfold w; case_match; dlia).
    destruct Hw as [Hw1 Hw2]. rewrite (proj1 (byte_of w)), (proj1 (shiftr_bytes w)).
    assert (Hc : 0 <= w / 256 < 32) by dlia.
    pose proof (byte_forall (fun x => (31 <? x) || (u8 (Z.lor x 192) =? 192 + x)) eq_refl (w / 256)) as Hx.
    cbv beta in Hx. rewrite <- Hw1. f_equal; [unfold byte_ok in Hx; lia|].
    f_equal. unfold w. case_match; [|done].
    replace (8192 + v) with (v + 32 * 256) by lia. apply Z.mod_add. lia. }
  assert (Hle : forall w,
    [Z.land w 255; u8 (Z.shiftr w 8)] = le_bytes 2 w /\
    [Z.land w 255; Z.land (Z.shiftr w 8) 255; u8 (Z.shiftr w 16)] = le_bytes 3 w /\
    [Z.land w 255; Z.land (Z.shiftr w 8) 255; Z.land (Z.shiftr w 16) 255; u8 (Z.shiftr w 24)]
      = le_bytes 4 w /\
    [Z.land w 255; Z.land (Z.shiftr w 8) 255; Z.land (Z.shiftr w 16) 255; Z.land (Z.shiftr w 24) 255;
     Z.land (Z.shiftr w 32) 255; Z.land (Z.shiftr w 40) 255; Z.land (Z.shiftr w 48) 255;
     u8 (Z.shiftr w 56)] = le_bytes 8 w).
  { intros w. destruct (shiftr_bytes w) as (-> & -> & -> & -> & -> & -> & ->).
    rewrite !(proj1 (byte_of _)), !(proj2 (byte_of _)). done. }
  case_match; [|case_match; [|case_match]].
  - f_equal. rewrite (proj1 (Hle _)). by apply le_bytes_wrap.
  - f_equal. rewrite (proj1 (proj2 (Hle _))). by apply le_bytes_wrap.
  - f_equal. rewrite (proj1 (proj2 (proj2 (Hle _)))). by apply le_bytes_wrap.
  - f_equal. rewrite (proj2 (proj2 (proj2 (Hle _)))). apply (le_bytes_mod 8).
Qed.

(** What an encoded element stands for. *)
Inductive value := Int (v : Z) | Str (s : list Z).

Definition stands_for (e : list Z) (x : value) : Prop :=
  match x with
  | Int v => lpGetWithBuf e 0 = Some (VInt v) /\ in_s 64 v
  | Str s => exists o, lpGetWithBuf e 0 = Some (VStr o (zlen s)) /\ rdn e o (zlen s) = Some s
  end.

(** The multi-byte integer encodings. *)
Lemma tagged_int tag n v :
  In (tag, n) [(241, 2%nat); (242, 3%nat); (243, 4%nat); (244, 8%nat)] ->
  in_s (8 * Z.of_nat n) v ->
  enc_ok (tag :: le_bytes n v) /\ lpGetWithBuf (tag :: le_bytes n v) 0 = Some (VInt v).
Proof.
  intros Hin Hv.
  assert (Hr : rdn (tag :: le_bytes n v) (0 + 1) (Z.of_nat n) = Some (le_bytes n v)).
  { pose proof (rdn_app [tag] (le_bytes n v) [] 1 (Z.of_nat n)) as H. rewrite app_nil_r in H.
    apply H; [done|]. by rewrite le_bytes_length. }
  pose proof (signed_value_spec (8 * Z.of_nat n) v) as Hs.
  rewrite <- le_val_bytes in Hs.
  destruct Hin as [[= <- <-]|[[= <- <-]|[[= <- <-]|[[= <- <-]|[]]]]];
    (split; [split; [constructor; [unfold byte_ok; lia|apply le_bytes_ok]|reflexivity|done]|]);
    unfold lpGetWithBuf; change (rd (?x :: _) 0) with (Some x); mred;
    lazy beta zeta iota delta [IS_7BIT_UINT IS_6BIT_STR IS_13BIT_INT IS_12BIT_STR IS_32BIT_STR
      IS_16BIT_INT IS_24BIT_INT IS_32BIT_INT IS_64BIT_INT Z.land Pos.land Z.of_N Pos.Nsucc_double Pos.Ndouble
      Z.eqb Pos.eqb]; first [change (Z.of_nat 2) with 2 in Hr; rewrite Hr
      |change (Z.of_nat 3) with 3 in Hr; rewrite Hr|change (Z.of_nat 4) with 4 in Hr; rewrite Hr
      |change (Z.of_nat 8) with 8 in Hr; rewrite Hr]; mred; do 2 f_equal; apply Hs; lia || done.
Qed.

Lemma small_int v :
  0 <= v <= 127 -> enc_ok [v] /\ lpGetWithBuf [v] 0 = Some (VInt v).
Proof.
  intros Hv. assert (Hb : byte_ok v) by (unfold byte_ok; lia).
  assert (IS_7BIT_UINT v = true /\ IS_6BIT_STR v = false /\ IS_12BIT_STR v = false /\
    IS_32BIT_STR v = false) as (H1 & H2 & H3 & H4) by (by_class Hb; lia).
  split; [split|].
  - constructor; [done|constructor].
  - unfold lpCurrentEncodedSizeUnsafe. change (rd [v] 0) with (Some v). mred. by rewrite H1.
  - cbn. unfold LP_EOF. intros [=]. lia.
  - unfold lpGetWithBuf. change (rd [v] 0) with (Some v). mred. rewrite H2, H3, H4, H1.
    rewrite (proj2 (proj2 (first_byte v ltac:(lia)))). do 2 f_equal. unfold signed_value, UINT64_MAX.
    destruct (Z.geb_spec v (2 ^ 64 - 1)); [lia|]. apply swrap_id; [lia|]. unfold in_s. lia.
Qed.

Lemma int13 v :
  in_s 13 v -> let e := [192 + v mod 8192 / 256; v mod 256] in
  enc_ok e /\ lpGetWithBuf e 0 = Some (VInt v).
Proof.
  intros Hv e. unfold e. assert (Hd : 0 <= v mod 8192 / 256 < 32) by dlia.
  set (b := 192 + v mod 8192 / 256) in *. assert (Hb : byte_ok b) by (unfold byte_ok; lia).
  assert (IS_7BIT_UINT b = false /\ IS_6BIT_STR b = false /\ IS_12BIT_STR b = false /\
    IS_32BIT_STR b = false /\ IS_13BIT_INT b = true) as (H1 & H2 & H3 & H4 & H5) by (by_class Hb; lia).
  split; [split|].
  - constructor; [done|]. constructor; [apply Z.mod_pos_bound; lia|constructor].
  - unfold lpCurrentEncodedSizeUnsafe. change (rd (b :: _) 0) with (Some b). mred. by rewrite H1, H2, H5.
  - cbn. unfold LP_EOF. intros [=]. lia.
  - unfold lpGetWithBuf. change (rd (b :: _) 0) with (Some b). mred. rewrite H2, H3, H4, H1, H5.
    change (rd [b; v mod 256] (0 + 1)) with (Some (v mod 256)). mred. do 2 f_equal.
    pose proof (byte_forall (fun x => (x <? 192) || (223 <? x) || (Z.land x 31 =? x - 192)) eq_refl b Hb) as Hx.
    cbv beta in Hx. replace (Z.land b 31) with (v mod 8192 / 256) by lia.
    rewrite Z.lor_comm, lor_shiftl_add by (try lia; apply Z.mod_pos_bound; lia).
    replace (v mod 256 + v mod 8192 / 256 * 2 ^ 8) with (v mod 2 ^ 13);
      [by apply (signed_value_spec 13)|].
    change (2 ^ 13) with 8192. change (2 ^ 8) with 256. rewrite (Z.div_mod (v mod 8192) 256) at 1 by lia.
    replace (v mod 8192 mod 256) with (v mod 256); [lia|]. change 8192 with (256 * 32).
    rewrite Z.rem_mul_r by lia. rewrite (Z.mul_comm 256), Z.mod_add, Z.mod_mod by lia. done.
Qed.

Lemma encode_integer_ok v :
  in_s 64 v -> enc_ok (lpEncodeIntegerGetType v) /\ stands_for (lpEncodeIntegerGetType v) (Int v).
Proof.
  intros Hv. rewrite encode_integer. cbn [stands_for].
  assert (Hin : forall k, in_s k v <-> - 2 ^ (k - 1) <= v < 2 ^ (k - 1)) by done.
  destruct (_ && (v <=? 127)) eqn:E1; [|destruct (_ && (v <=? 4095)) eqn:E2;
    [|destruct (_ && (v <=? 32767)) eqn:E3; [|destruct (_ && (v <=? 8388607)) eqn:E4;
    [|destruct (_ && (v <=? 2147483647)) eqn:E5]]]].
  - rewrite Z.mod_small by lia. destruct (small_int v); [lia|done].
  - destruct (int13 v); [apply Hin; lia|done].
  - destruct (tagged_int 241 2 v) as [? ?]; [by left|apply Hin; cbn; lia|done].
  - destruct (tagged_int 242 3 v) as [? ?]; [right; by left|apply Hin; cbn; lia|done].
  - destruct (tagged_int 243 4 v) as [? ?]; [do 2 right; by left|apply Hin; cbn; lia|done].
  - destruct (tagged_int 244 8 v) as [? ?]; [do 3 right; by left|done|done].
Qed.

(** *** String elements *)

Lemma str6 s :
  bytes_ok s -> zlen s < 64 -> let e := Z.lor (zlen s) 128 :: s in enc_ok e /\ stands_for e (Str s).
Proof.
  intros Hs Hl e. unfold e. set (b := Z.lor (zlen s) 128).
  pose proof (byte_forall (fun x => (63 <? x) || ((Z.lor x 128 =? 128 + x) && (Z.land (128 + x) 63 =? x)))
    eq_refl (zlen s)) as Hx. cbv beta in Hx. unfold byte_ok in Hx.
  assert (Hb : b = 128 + zlen s) by lia. assert (Hl6 : Z.land b 63 = zlen s) by (rewrite Hb; lia).
  assert (Hbo : byte_ok b) by (unfold byte_ok; lia).
  assert (IS_7BIT_UINT b = false /\ IS_6BIT_STR b = true) as (H1 & H2) by (by_class Hbo; lia).
  split; [split|].
  - by constructor.
  - unfold lpCurrentEncodedSizeUnsafe, STR_LEN6. change (rd (b :: s) 0) with (Some b). mred.
    rewrite H1, H2, Hl6, length_cons. f_equal. lia.
  - cbn. unfold LP_EOF. intros [=]. lia.
  - exists 1. unfold lpGetWithBuf, STR_LEN6. change (rd (b :: s) 0) with (Some b). mred.
    rewrite H2, Hl6. split; [done|].
    pose proof (rdn_app [b] s [] 1 (zlen s)) as Hr. rewrite app_nil_r in Hr. by apply Hr.
Qed.

Lemma str12 s :
  bytes_ok s -> 64 <= zlen s < 4096 ->
  let e := Z.lor (Z.shiftr (zlen s) 8) 224 :: Z.land (zlen s) 255 :: s in enc_ok e /\ stands_for e (Str s).
Proof.
  intros Hs Hl e. unfold e. set (b := Z.lor _ 224). rewrite (proj1 (byte_of (zlen s))).
  pose proof (byte_forall (fun x => (15 <? x) || ((Z.lor x 224 =? 224 + x) && (Z.land (224 + x) 15 =? x)))
    eq_refl (zlen s / 256)) as Hx. cbv beta in Hx. unfold byte_ok in Hx.
  assert (Hq : 0 <= zlen s / 256 < 16) by dlia.
  assert (Hb : b = 224 + zlen s / 256) by (unfold b; rewrite (proj1 (shiftr_bytes _)); lia).
  assert (Hl4 : Z.land b 15 = zlen s / 256) by (rewrite Hb; lia).
  assert (Hbo : byte_ok b) by (unfold byte_ok; lia).
  assert (IS_7BIT_UINT b = false /\ IS_6BIT_STR b = false /\ IS_13BIT_INT b = false /\
    IS_16BIT_INT b = false /\ IS_24BIT_INT b = false /\ IS_32BIT_INT b = false /\ IS_64BIT_INT b = false /\
    IS_12BIT_STR b = true) as (H1 & H2 & H3 & H4 & H5 & H6 & H7 & H8) by (by_class Hbo; lia).
  assert (Hlen : Z.lor (Z.shiftl (Z.land b 15) 8) (zlen s mod 256) = zlen s).
  { rewrite Hl4, Z.lor_comm, lor_shiftl_add by (try lia; apply Z.mod_pos_bound; lia).
    change (2 ^ 8) with 256. dlia. }
  split; [split|].
  - constructor; [done|]. constructor; [apply Z.mod_pos_bound; lia|done].
  - unfold lpCurrentEncodedSizeUnsafe, STR_LEN12. change (rd (b :: _) 0) with (Some b).
    change (rd (b :: ?x :: _) (0 + 1)) with (Some x). mred.
    rewrite H1, H2, H3, H4, H5, H6, H7, H8, Hlen, !length_cons. f_equal. lia.
  - cbn. unfold LP_EOF. intros [=]. lia.
  - exists 2. unfold lpGetWithBuf, STR_LEN12. change (rd (b :: _) 0) with (Some b).
    change (rd (b :: ?x :: _) (0 + 1)) with (Some x). mred. rewrite H2, H8, Hlen. split; [done|].
    pose proof (rdn_app [b; zlen s mod 256] s [] 2 (zlen s)) as Hr. rewrite app_nil_r in Hr. by apply Hr.
Qed.

Lemma str32 s :
  bytes_ok s -> 4096 <= zlen s < 2 ^ 32 - 5 ->
  let e := 240 :: le_bytes 4 (zlen s) ++ s in enc_ok e /\ stands_for e (Str s).
Proof.
  intros Hs Hl e. unfold e.
  assert (Hr : rdn (240 :: le_bytes 4 (zlen s) ++ s) (0 + 1) 4 = Some (le_bytes 4 (zlen s)))
    by (apply (rdn_app [240] (le_bytes 4 (zlen s)) s); [done|by rewrite le_bytes_length]).
  assert (Hv : le_val (le_bytes 4 (zlen s)) = zlen s) by (rewrite le_val_bytes; apply Z.mod_small; lia).
  split; [split|].
  - constructor; [unfold byte_ok; lia|]. by apply Forall_app_2; [apply le_bytes_ok|].
  - unfold lpCurrentEncodedSizeUnsafe, STR_LEN32. change (rd (240 :: _) 0) with (Some 240). mred.
    rewrite Hr. mred. rewrite Hv.
    change (Some (uwrap 32 (5 + zlen s)) = Some (zlen (240 :: le_bytes 4 (zlen s) ++ s))).
    rewrite uwrap_id by (unfold in_u; lia). rewrite length_cons, length_app, le_bytes_length. f_equal. lia.
  - done.
  - exists 5. unfold lpGetWithBuf, STR_LEN32. change (rd (240 :: _) 0) with (Some 240). mred.
    rewrite Hr. mred. rewrite Hv. split; [done|].
    pose proof (rdn_app (240 :: le_bytes 4 (zlen s)) s [] 5 (zlen s)) as Hr5. rewrite app_nil_r in Hr5.
    by apply Hr5.
Qed.

Lemma encode_string_ok s :
  bytes_ok s -> zlen s < 2 ^ 32 - 5 ->
  enc_ok (lpEncodeString s) /\ stands_for (lpEncodeString s) (Str s).
Proof.
  intros Hs Hl. unfold lpEncodeString. destruct (Z.ltb_spec (zlen s) 64); [by apply str6|].
  destruct (Z.ltb_spec (zlen s) 4096); [by apply str12|].
  destruct (shiftr_bytes (zlen s)) as (-> & -> & -> & _). rewrite !(proj1 (byte_of _)). by apply str32.
Qed.

(** ** Navigation: lemmas *)

Lemma layout_split lp a b num tail :
  layout lp (a ++ b) num tail ->
  exists pre, lp = pre ++ chunks b ++ LP_EOF :: tail /\ zlen pre = off a /\
    pre = le_bytes 4 (zlen (chunks (a ++ b)) + 7) ++ le_bytes 2 num ++ chunks a.
Proof.
  intros [-> _ _ _]. eexists. split_and!; [|..|reflexivity].
  - rewrite (chunks_app a b) at 2. by rewrite <- !app_assoc.
  - unfold off. rewrite !length_app, !le_bytes_length. unfold LP_HDR_SIZE. lia.
Qed.

Lemma layout_header lp es num tail :
  layout lp es num tail ->
  lpGetTotalBytes lp = Some (zlen (chunks es) + 7) /\ lpGetNumElements lp = Some num /\
  zlen (chunks es) + 7 <= zlen lp.
Proof.
  intros [-> Ht Hn _]. unfold lpGetTotalBytes, lpGetNumElements.
  rewrite (rdn_0 (le_bytes 4 _)) by by rewrite le_bytes_length. mred.
  rewrite (rdn_app (le_bytes 4 _) (le_bytes 2 _)) by by rewrite le_bytes_length. mred.
  rewrite !le_val_bytes, !Z.mod_small by (unfold LP_HDR_NUMELE_UNKNOWN in *; cbn; lia). split_and!; [done|done|].
  rewrite !length_app, !le_bytes_length. cbn [length]. lia.
Qed.

Lemma off_total a b : off a + zlen (chunks b) + 1 = zlen (chunks (a ++ b)) + 7.
Proof. unfold off, LP_HDR_SIZE. rewrite chunks_app, length_app. lia. Qed.

Lemma rd_eof lp es num tail : layout lp es num tail -> rd lp (off es) = Some LP_EOF.
Proof.
  intros Hly. destruct (layout_split lp es [] num tail) as (pre & -> & Hp & _); [by rewrite app_nil_r|].
  cbn. by rewrite (rd_app_r pre _ _ Hp).
Qed.

Section At.
(** The element [e] with [a] before it and [b] behind it. *)
Context (lp : list Z) (a : list (list Z)) (e : list Z) (b : list (list Z)) (num : Z) (tail : list Z).
Context (Hly : layout lp (a ++ e :: b) num tail).

Lemma elem_ok : enc_ok e.
Proof using Hly. pose proof (ly_encs _ _ _ _ Hly) as He. by apply Forall_app in He as [_ [He _]%Forall_cons]. Qed.

Lemma elem_split :
  exists pre, lp = pre ++ e ++ lpEncodeBacklen (zlen e) ++ chunks b ++ LP_EOF :: tail /\ zlen pre = off a.
Proof using Hly.
  destruct (layout_split _ _ _ _ _ Hly) as (pre & -> & Hp & _). exists pre. split; [|done].
  by rewrite chunks_cons, <- !app_assoc.
Qed.

Lemma elem_inside : inside e lp (off a).
Proof using Hly. destruct elem_split as (pre & -> & <-). apply inside_app. Qed.

Lemma elem_size : lpCurrentEncodedSizeUnsafe lp (off a) = Some (zlen e).
Proof using Hly.
  rewrite <- (Z.add_0_r (off a)). apply (size_mono e); [apply elem_inside|]. apply elem_ok.
Qed.

Lemma elem_bounds : off a + zlen (chunk e) <= zlen (chunks (a ++ e :: b)) + 6 /\ 1 <= zlen e < 2 ^ 32 - 7.
Proof using Hly.
  pose proof (off_total a (e :: b)). pose proof (chunks_cons_length e b). pose proof (chunk_length e).
  pose proof (ly_total _ _ _ _ Hly). pose proof (backlen_bytes_range (zlen e)).
  destruct (enc_first e elem_ok) as (? & _ & _ & _ & ?). unfold off, LP_HDR_SIZE in *. lia.
Qed.

Lemma skip_at : lpSkip lp (off a) = Some (off (a ++ [e])).
Proof using Hly. unfold lpSkip. rewrite elem_size. mred. by rewrite off_snoc, chunk_length. Qed.

Lemma first_at : exists c, rd lp (off a) = Some c /\ byte_ok c /\ c <> LP_EOF /\
  1 <= lpCurrentEncodedSizeBytes c <= zlen e.
Proof using Hly.
  destruct (enc_first e elem_ok) as (c & Hc & Hb & Hne & Hl). exists c. split_and!; try done; try lia.
  rewrite <- (Z.add_0_r (off a)). apply elem_inside. by destruct e; simplify_eq.
Qed.

(** The byte before the next element ends the backlen of this one. *)
Lemma backlen_at : lpDecodeBacklen lp (off (a ++ [e]) - 1) = Some (zlen e).
Proof using Hly.
  pose proof elem_bounds. destruct elem_split as (pre & -> & Hp).
  rewrite app_assoc, off_snoc, chunk_length.
  replace (off a + (zlen e + lpEncodeBacklenBytes (zlen e)) - 1)
    with (zlen (pre ++ e) + lpEncodeBacklenBytes (zlen e) - 1) by (rewrite length_app; lia).
  apply backlen_roundtrip. lia.
Qed.

Lemma validate_at :
  lpValidateNext lp (off a) (zlen (chunks (a ++ e :: b)) + 7) = Some (Some (Some (off (a ++ [e])))).
Proof using Hly.
  unfold lpValidateNext. destruct first_at as (c & Hc & Hcb & Hne & Hl).
  pose proof elem_bounds as Hbd. pose proof (chunk_length e) as Hcl.
  pose proof (backlen_bytes_range (zlen e)).
  assert (Ho : 6 <= off a) by (unfold off, LP_HDR_SIZE; lia). unfold LP_HDR_SIZE.
  rw_false ((off a <? 6) || (off a >? zlen (chunks (a ++ e :: b)) + 7 - 1)). rewrite Hc. mred.
  rw_false (c =? LP_EOF). rw_false (lpCurrentEncodedSizeBytes c =? 0).
  rw_false ((off a + lpCurrentEncodedSizeBytes c <? 6) || (off a + lpCurrentEncodedSizeBytes c >? zlen (chunks (a ++ e :: b)) + 7 - 1)).
  rewrite elem_size. mred. rewrite <- Hcl.
  rw_false ((off a + zlen (chunk e) <? 6) || (off a + zlen (chunk e) >? zlen (chunks (a ++ e :: b)) + 7 - 1)).
  rewrite <- off_snoc, backlen_at. mred. rewrite uwrap_id by (unfold in_u; lia).
  by rw_false (negb (zlen e + lpEncodeBacklenBytes (zlen e) =? zlen (chunk e))).
Qed.

Lemma assert_valid_at : lpAssertValidEntry lp (zlen (chunks (a ++ e :: b)) + 7) (off a) = Some tt.
Proof using Hly. unfold lpAssertValidEntry. by rewrite validate_at. Qed.

End At.

(** Pointer to the element behind the elements [a], null at the end. *)
Definition ptr (a b : list (list Z)) : option Z := match b with [] => None | _ => Some (off a) end.

Lemma at_or_eof lp a b num tail :
  layout lp (a ++ b) num tail ->
  (c ← rd lp (off a);
   if c =? LP_EOF then Some None
   else lpbytes ← lpBytes lp; _ ← lpAssertValidEntry lp lpbytes (off a); Some (Some (off a)))
  = Some (ptr a b).
Proof.
  intros Hly. destruct b as [|e b].
  - rewrite app_nil_r in Hly. by rewrite (rd_eof _ _ _ _ Hly).
  - destruct (first_at _ _ _ _ _ _ Hly) as (c & -> & _ & Hne & _). mred. rw_false (c =? LP_EOF).
    unfold lpBytes. rewrite (proj1 (layout_header _ _ _ _ Hly)). mred.
    by rewrite (assert_valid_at _ _ _ _ _ _ Hly).
Qed.

Lemma first_spec lp es num tail : layout lp es num tail -> lpFirst lp = Some (ptr [] es).
Proof. intros Hly. apply (at_or_eof lp [] es num tail Hly). Qed.

Lemma next_spec lp a e b num tail :
  layout lp (a ++ e :: b) num tail -> lpNext lp (off a) = Some (ptr (a ++ [e]) b).
Proof.
  intros Hly. unfold lpNext. rewrite (skip_at _ _ _ _ _ _ Hly). mred.
  apply (at_or_eof lp (a ++ [e]) b num tail). by rewrite <- app_assoc.
Qed.

(** Going back from the element behind [a ++ [e]], which may be the end. *)
Lemma prev_spec lp a e b num tail :
  layout lp (a ++ e :: b) num tail -> lpPrev lp (off (a ++ [e])) = Some (Some (off a)).
Proof.
  intros Hly. unfold lpPrev. pose proof (elem_bounds _ _ _ _ _ _ Hly) as Hb.
  pose proof (chunk_length e). pose proof (off_snoc a e). pose proof (backlen_bytes_range (zlen e)).
  assert (6 <= off a) by (unfold off, LP_HDR_SIZE; lia).
  rewrite (proj2 (Z.eqb_neq _ LP_HDR_SIZE)) by (unfold LP_HDR_SIZE; lia).
  rewrite (backlen_at _ _ _ _ _ _ Hly). mred. unfold lpBytes.
  rewrite (proj1 (layout_header _ _ _ _ Hly)). mred. rewrite uwrap_id by (unfold in_u; lia).
  replace (off (a ++ [e]) - 1 - (zlen e + lpEncodeBacklenBytes (zlen e) - 1)) with (off a) by lia.
  by rewrite (assert_valid_at _ _ _ _ _ _ Hly).
Qed.

Lemma prev_first lp : lpPrev lp (off []) = Some None.
Proof. done. Qed.

Lemma last_spec lp es num tail :
  layout lp es num tail ->
  lpLast lp = Some (match es with [] => None | _ => Some (off (take (length es - 1) es)) end).
Proof.
  intros Hly. unfold lpLast. rewrite (proj1 (layout_header _ _ _ _ Hly)). mred.
  replace (zlen (chunks es) + 7 - 1) with (off es) by (unfold off, LP_HDR_SIZE; lia).
  destruct es as [|x es] using rev_ind; [apply prev_first|]. rewrite (prev_spec lp es x [] num tail Hly).
  rewrite length_app, Nat.add_sub, take_app_length. by destruct es.
Qed.

Lemma chunks_count es : zlen es <= zlen (chunks es).
Proof.
  induction es as [|e es IH]; [done|]. rewrite chunks_cons_length, length_cons, chunk_length.
  pose proof (backlen_bytes_range (zlen e)). lia.
Qed.

Lemma elems_fuel lp es num tail : layout lp es num tail -> (length es < length lp)%nat.
Proof.
  intros Hly. pose proof (layout_header _ _ _ _ Hly) as (_ & _ & Hl).
  pose proof (chunks_count es). lia.
Qed.

Lemma seek_forward_spec lp b a num tail fuel index :
  layout lp (a ++ b) num tail -> 0 <= index -> (length b < fuel)%nat ->
  seek_forward fuel lp index (ptr a b)
  = Some (ptr (a ++ take (Z.to_nat index) b) (drop (Z.to_nat index) b)).
Proof.
  revert a fuel index. induction b as [|e b IH]; intros a [|fuel] index Hly Hi Hf; cbn [length] in Hf; try lia.
  { cbn. by rewrite drop_nil. }
  cbn [seek_forward ptr]. rewrite Z.gtb_ltb. destruct (Z.ltb_spec 0 index).
  - rewrite (next_spec _ _ _ _ _ _ Hly). mred. rewrite (IH (a ++ [e]) fuel (index - 1)).
    + replace (Z.to_nat index) with (S (Z.to_nat (index - 1))) by lia. cbn [take drop].
      by rewrite <- app_assoc.
    + by rewrite <- app_assoc.
    + lia.
    + lia.
  - replace (Z.to_nat index) with 0%nat by lia. cbn. by rewrite app_nil_r.
Qed.

Lemma seek_backward_spec lp a e b num tail fuel (m : nat) :
  layout lp (a ++ e :: b) num tail -> (S (length a) < fuel)%nat ->
  seek_backward fuel lp (-1 - Z.of_nat m) (Some (off a))
  = Some (if decide (m <= length a)%nat then Some (off (take (length a - m) a)) else None).
Proof.
  revert fuel e b m. induction a as [|x a IH] using rev_ind; intros [|fuel] e b m Hly Hf; try lia;
    cbn [seek_backward].
  - destruct m as [|m]; [done|]. rewrite (proj2 (Z.ltb_lt (-1 - Z.of_nat (S m)) (-1))) by lia. rewrite prev_first. mred.
    destruct fuel; [cbn in Hf; lia|]. done.
  - rewrite length_app in *. cbn [length] in *. destruct m as [|m].
    + change (-1 - Z.of_nat 0 <? -1) with false. cbv iota. rewrite decide_True by lia. rewrite Nat.sub_0_r, take_ge; [done|].
      rewrite length_app. cbn [length]. lia.
    + rewrite (proj2 (Z.ltb_lt (-1 - Z.of_nat (S m)) (-1))) by lia.
      assert (Hly' : layout lp (a ++ x :: e :: b) num tail) by (rewrite (cons_middle x) ; by rewrite app_assoc).
      rewrite (prev_spec lp a x (e :: b) num tail Hly'). mred.
      replace (-1 - Z.of_nat (S m) + 1) with (-1 - Z.of_nat m) by lia.
      rewrite (IH fuel x (e :: b) m Hly') by lia. f_equal.
      destruct (decide (m <= length a)%nat); [rewrite decide_True by lia|rewrite decide_False by lia; done].
      rewrite take_app_le by lia. do 3 f_equal. lia.
Qed.

Lemma seek_last lp es num tail (m : nat) fuel :
  layout lp es num tail -> (length es < fuel)%nat ->
  (ele ← lpLast lp; seek_backward fuel lp (-1 - Z.of_nat m) ele)
  = Some (if decide (m < length es)%nat then Some (off (take (length es - 1 - m) es)) else None).
Proof.
  intros Hly Hf. rewrite (last_spec _ _ _ _ Hly). mred. destruct es as [|x es] using rev_ind.
  { destruct fuel; [lia|]. by rewrite decide_False by (cbn; lia). }
  rewrite length_app, Nat.add_sub in *. cbn [length] in *. rewrite take_app_length.
  assert (Hne : match es ++ [x] with [] => None | _ => Some (off es) end = Some (off es)) by by destruct es.
  rewrite Hne. clear Hne. rewrite (seek_backward_spec lp es x [] num tail fuel m Hly) by lia. f_equal.
  destruct (decide (m <= length es)%nat); [rewrite decide_True by lia|rewrite decide_False by lia; done].
  rewrite take_app_le by lia. done.
Qed.

Lemma seek_from_first lp es num tail j :
  layout lp es num tail -> 0 <= j ->
  (ele ← lpFirst lp; seek_forward (S (length lp)) lp j ele)
  = Some (if j <? zlen es then Some (off (take (Z.to_nat j) es)) else None).
Proof.
  intros Hly Hj. pose proof (elems_fuel _ _ _ _ Hly). rewrite (first_spec _ _ _ _ Hly). mred.
  rewrite (seek_forward_spec lp es [] num tail) by (done || lia). cbn [app]. f_equal.
  destruct (Z.ltb_spec j (zlen es)); [|by rewrite drop_ge by lia].
  destruct (drop (Z.to_nat j) es) eqn:E; [|done]. apply (f_equal length) in E. rewrite length_drop in E.
  cbn in E. lia.
Qed.

Lemma seek_from_last lp es num tail j :
  layout lp es num tail -> j < 0 ->
  (ele ← lpLast lp; seek_backward (S (length lp)) lp j ele)
  = Some (if 0 <=? zlen es + j then Some (off (take (Z.to_nat (zlen es + j)) es)) else None).
Proof.
  intros Hly Hj. pose proof (elems_fuel _ _ _ _ Hly).
  pose proof (seek_last lp es num tail (Z.to_nat (-1 - j)) (S (length lp)) Hly ltac:(lia)) as H'.
  replace (-1 - Z.of_nat (Z.to_nat (-1 - j))) with j in H' by lia. rewrite H'. f_equal.
  destruct (Z.leb_spec 0 (zlen es + j)); [rewrite decide_True by lia|by rewrite decide_False by lia].
  do 3 f_equal. lia.
Qed.

Lemma seek_spec lp es index :
  rep lp es ->
  let i := if index <? 0 then zlen es + index else index in
  lpSeek lp index
  = Some (if (0 <=? i) && (i <? zlen es) then Some (off (take (Z.to_nat i) es)) else None).
Proof.
  intros (num & tail & Hly) i. unfold lpSeek.
  rewrite (proj1 (proj2 (layout_header _ _ _ _ Hly))). mred. cbv zeta.
  destruct (ly_num _ _ _ _ Hly) as [-> |[-> Hn]].
  - change (negb (LP_HDR_NUMELE_UNKNOWN =? LP_HDR_NUMELE_UNKNOWN)) with false.
    unfold i. destruct (Z.ltb_spec index 0).
    + rewrite (seek_from_last _ _ _ _ _ Hly) by lia.
      by rw_true (zlen es + index <? zlen es); rewrite andb_true_r.
    + rewrite (seek_from_first _ _ _ _ _ Hly) by lia. by rw_true (0 <=? index).
  - rw_true (negb (zlen es =? LP_HDR_NUMELE_UNKNOWN)). fold i. rewrite Z.geb_leb, Z.gtb_ltb.
    destruct (Z.ltb_spec i 0); [by rw_false (0 <=? i)|]. rw_true (0 <=? i).
    destruct (Z.leb_spec (zlen es) i); [by rw_false (i <? zlen es)|]. rw_true (i <? zlen es). cbn [andb].
    destruct (Z.quot (zlen es) 2 <? i).
    + rewrite (seek_from_last _ _ _ _ _ Hly) by lia.
      replace (zlen es + (i - zlen es)) with i by lia. by rw_true (0 <=? i).
    + rewrite (seek_from_first _ _ _ _ _ Hly) by lia. by rw_true (i <? zlen es).
Qed.

(** [lpSeek] finds the element at a position, from the head for an index
    from 0, from the tail for a negative one, in either scan direction and also
    when the header count is unknown; out of range it returns [NULL]. *)
Theorem lpSeek_correct lp es index :
  rep lp es ->
  let i := if index <? 0 then zlen es + index else index in
  lpSeek lp index
  = Some (if (0 <=? i) && (i <? zlen es) then Some (off (take (Z.to_nat i) es)) else None).
Proof. apply seek_spec. Qed.

(** ** Modification: lemmas *)

Lemma zrealloc_prefix junk m r n :
  zlen m <= n -> exists r', zrealloc junk (m ++ r) n = m ++ r' /\ zlen (m ++ r') = n.
Proof.
  intros Hn. pose proof (zrealloc_length junk (m ++ r) n ltac:(lia)) as Hl. unfold zrealloc in *.
  rewrite take_app_ge in * by lia. rewrite <- app_assoc in *. eauto.
Qed.

(** [memmove] of [tl] so that [k] bytes are free between [pre] and [tl]. *)
Lemma memmove_gap pre c tl r k :
  0 <= k -> zlen pre + k + zlen tl <= zlen (pre ++ c ++ tl ++ r) ->
  exists x r', memmove (pre ++ c ++ tl ++ r) (zlen pre + k) (zlen pre + zlen c) (zlen tl)
    = Some (pre ++ x ++ tl ++ r') /\ zlen x = k /\
    zlen (pre ++ x ++ tl ++ r') = zlen (pre ++ c ++ tl ++ r).
Proof.
  intros Hk Hl. unfold memmove.
  assert (Hr : rdn (pre ++ c ++ tl ++ r) (zlen pre + zlen c) (zlen tl) = Some tl).
  { rewrite (app_assoc pre c). apply rdn_app; [rewrite length_app; lia|done]. }
  rewrite Hr. mred. set (m := c ++ tl ++ r) in *.
  assert (Hm : zlen m >= k + zlen tl) by (rewrite length_app in Hl; lia).
  exists (take (Z.to_nat k) m), (drop (Z.to_nat k + length tl) m).
  assert (Hx : zlen (take (Z.to_nat k) m) = k) by (rewrite length_take; lia). split_and!; [|done|].
  - rewrite (list_split3 (Z.to_nat k) (length tl) m) at 1. rewrite (app_assoc pre).
    rewrite (wrn_app (pre ++ take (Z.to_nat k) m) _ _ tl); [by rewrite <- app_assoc| |].
    + rewrite length_app. lia.
    + rewrite length_take, length_drop. lia.
  - rewrite !length_app, length_drop in *. lia.
Qed.

(** Fill the gap with an element. *)
Lemma write_chunk pre x rest e :
  zlen x = zlen (chunk e) ->
  (m ← wrn (pre ++ x ++ rest) (zlen pre) e; wrn m (zlen pre + zlen e) (lpEncodeBacklen (zlen e)))
  = Some (pre ++ chunk e ++ rest).
Proof.
  intros Hx. unfold chunk in *. rewrite length_app in Hx.
  rewrite <- (take_drop (length e) x), <- app_assoc.
  rewrite (wrn_app pre) by (rewrite ?length_take; lia). mred. rewrite (app_assoc pre).
  rewrite (wrn_app (pre ++ e)); [by rewrite <- !app_assoc|rewrite length_app; lia|rewrite length_drop; lia].
Qed.

(** The fields of the header. *)
Lemma set_total t num body t' :
  lpSetTotalBytes (le_bytes 4 t ++ le_bytes 2 num ++ body) t' = Some (le_bytes 4 t' ++ le_bytes 2 num ++ body).
Proof. apply wrn_0. by rewrite !le_bytes_length. Qed.

Lemma set_num t num body num' :
  lpSetNumElements (le_bytes 4 t ++ le_bytes 2 num ++ body) num'
  = Some (le_bytes 4 t ++ le_bytes 2 num' ++ body).
Proof. apply (wrn_app (le_bytes 4 t)); by rewrite !le_bytes_length. Qed.

Lemma get_num t num body :
  0 <= num < 65536 -> lpGetNumElements (le_bytes 4 t ++ le_bytes 2 num ++ body) = Some num.
Proof.
  intros Hn. unfold lpGetNumElements. rewrite (rdn_app (le_bytes 4 t) (le_bytes 2 num)) by by rewrite le_bytes_length.
  mred. rewrite le_val_bytes, Z.mod_small by (cbn; lia). done.
Qed.

(** The encoded form of the element passed to [lpInsert]. *)
Definition string_enc (s : list Z) : list Z :=
  match lpStringToInt64 s with
  | Some v => lpEncodeIntegerGetType v
  | None => lpEncodeString s
  end.

Definition news (ele : element) : list (list Z) :=
  match ele with EleStr s => [string_enc s] | EleInt i => [i] | EleNone => [] end.

Definition element_ok (ele : element) : Prop :=
  match ele with
  | EleStr s => bytes_ok s /\ zlen s < 2 ^ 32
  | EleInt i => exists v, i = lpEncodeIntegerGetType v /\ in_s 64 v
  | EleNone => True
  end.

(** Where the pointer [p] and the mode say to work: [es = a ++ old ++ b], and the
    new element goes between [a] and [b]. *)
Inductive spot (es : list (list Z)) (ele : element) :
    position -> Z -> list (list Z) -> list (list Z) -> list (list Z) -> Prop :=
| spot_before a b : es = a ++ b -> ele <> EleNone -> spot es ele LP_BEFORE (off a) a [] b
| spot_after a x b : es = a ++ x :: b -> ele <> EleNone -> spot es ele LP_AFTER (off a) (a ++ [x]) [] b
| spot_replace a x b : es = a ++ x :: b -> ele <> EleNone -> spot es ele LP_REPLACE (off a) a [x] b
| spot_delete w a x b : es = a ++ x :: b -> ele = EleNone -> spot es ele w (off a) a [x] b.

Lemma string_length s : lpStringToInt64 s = None ->
  lpEncodeGetType s = LP_ENCODING_STRING (zlen (lpEncodeString s)).
Proof.
  intros H. unfold lpEncodeGetType, lpEncodeString. rewrite H. f_equal.
  repeat case_match; rewrite ?length_app, ?length_cons; cbn [length]; lia.
Qed.

Lemma enclen_of ele :
  match ele with
  | EleStr s => match lpEncodeGetType s with
                | LP_ENCODING_INT intenc => zlen intenc
                | LP_ENCODING_STRING enclen => enclen
                end
  | EleInt intenc => zlen intenc
  | EleNone => 0
  end = zlen (concat (news ele)).
Proof.
  destruct ele as [s|i|]; cbn [news concat]; rewrite ?app_nil_r; try done. unfold string_enc.
  destruct (lpStringToInt64 s) as [v|] eqn:E; [unfold lpEncodeGetType; by rewrite E|].
  by rewrite string_length.
Qed.

Lemma enc_of ele :
  match ele with
  | EleStr s => match lpEncodeGetType s with
                | LP_ENCODING_INT intenc => intenc
                | LP_ENCODING_STRING _ => lpEncodeString s
                end
  | EleInt intenc => intenc
  | EleNone => []
  end = concat (news ele).
Proof.
  destruct ele as [s|i|]; cbn [news concat]; rewrite ?app_nil_r; try done.
  unfold string_enc, lpEncodeGetType. by destruct (lpStringToInt64 s).
Qed.

(** The room the new element needs. *)
Lemma new_room ele :
  zlen (concat (news ele)) + zlen (if is_delete ele then [] else lpEncodeBacklen (zlen (concat (news ele))))
  = zlen (chunks (news ele)).
Proof.
  destruct ele as [s|i|]; cbn [news concat is_delete]; rewrite ?app_nil_r; [..|done];
    rewrite chunks_cons, !length_app; cbn; lia.
Qed.

Lemma integer_length v : zlen (lpEncodeIntegerGetType v) <= 9.
Proof. rewrite encode_integer. repeat case_match; cbn [length]; rewrite ?le_bytes_length; lia. Qed.

Lemma news_length ele : element_ok ele -> zlen (chunks (news ele)) < 2 ^ 33.
Proof.
  destruct ele as [s|i|]; cbn [news element_ok]; intros H; [..|done];
    rewrite chunks_cons_length, chunk_length; change (zlen (chunks [])) with 0.
  - pose proof (backlen_bytes_range (zlen (string_enc s))). destruct H as [_ H]. unfold string_enc in *.
    destruct (lpStringToInt64 s) as [v|]; [pose proof (integer_length v); lia|].
    assert (zlen (lpEncodeString s) <= zlen s + 5); [|lia]. unfold lpEncodeString.
    repeat case_match; rewrite ?length_app, ?length_cons; cbn [length]; lia.
  - destruct H as (v & -> & _). pose proof (integer_length v).
    pose proof (backlen_bytes_range (zlen (lpEncodeIntegerGetType v))). lia.
Qed.

Lemma lpStringToInt64_iff s v : lpStringToInt64 s = Some v <-> s = Numbers.dec v /\ in_s 64 v.
Proof. apply Numbers.string2ll_iff. Qed.

(** A string stands for itself: as bytes, or as the integer it is the notation of. *)
Definition as_value (s : list Z) : value :=
  match lpStringToInt64 s with Some v => Int v | None => Str s end.

Lemma string_enc_ok s :
  bytes_ok s -> zlen s < 2 ^ 32 - 5 ->
  enc_ok (string_enc s) /\ stands_for (string_enc s) (as_value s).
Proof.
  intros Hs Hl. unfold string_enc, as_value. destruct (lpStringToInt64 s) as [v|] eqn:E.
  - apply lpStringToInt64_iff in E as [_ Hv]. by apply encode_integer_ok.
  - by apply encode_string_ok.
Qed.

Lemma news_ok ele : element_ok ele -> zlen (chunks (news ele)) < 2 ^ 32 -> Forall enc_ok (news ele).
Proof.
  destruct ele as [s|i|]; cbn [news element_ok]; intros H Hl; [..|constructor]; (constructor; [|constructor]).
  - destruct H as [Hs _]. apply string_enc_ok; [done|].
    rewrite chunks_cons_length, chunk_length in Hl. change (zlen (chunks [])) with 0 in Hl.
    pose proof (backlen_bytes_range (zlen (string_enc s))). unfold string_enc in *.
    destruct (lpStringToInt64 s) as [v|] eqn:E.
    + apply lpStringToInt64_iff in E as [-> Hv].
      pose proof (Numbers.dec_length v Hv). lia.
    + unfold lpEncodeString in *. repeat case_match; try lia.
      rewrite length_app in *. cbn [length] in *. lia.
  - destruct H as (v & -> & Hv). by apply encode_integer_ok.
Qed.

Section Insert.
Context (usable : Z -> Z) (junk : nat -> Z).
Context (usable_ok : forall n, 0 <= n < 2 ^ 33 -> n <= usable n).

(** Making room: reallocation before the move when the block is too small,
    after it when the listpack shrinks. *)
Lemma make_gap lp pre c tl r k :
  lp = pre ++ c ++ tl ++ r -> 0 <= k -> zlen pre + k + zlen tl < 2 ^ 33 ->
  let new := zlen pre + k + zlen tl in
  let old := zlen pre + zlen c + zlen tl in
  exists lp2 x r',
    memmove (if (new >? old) && (new >? zlen lp) then lp_realloc usable junk lp new else lp)
      (zlen pre + k) (zlen pre + zlen c) (zlen tl) = Some lp2 /\
    (if new <? old then lp_realloc usable junk lp2 new else lp2) = pre ++ x ++ tl ++ r' /\ zlen x = k.
Proof using usable_ok.
  intros Hlp Hk Hsz new old.
  assert (exists r1, (if (new >? old) && (new >? zlen lp) then lp_realloc usable junk lp new else lp)
    = pre ++ c ++ tl ++ r1 /\ new <= zlen (pre ++ c ++ tl ++ r1)) as (r1 & -> & Hr1).
  { pose proof (usable_ok new ltac:(lia)) as Hu.
    destruct ((new >? old) && (new >? zlen lp)) eqn:E.
    - destruct (zrealloc_prefix junk (pre ++ c ++ tl) r (usable new)) as (r1 & Hz & Hl).
      { rewrite !length_app. lia. }
      exists r1. unfold lp_realloc. rewrite Hlp. rewrite <- !app_assoc in *. split; [done|lia].
    - exists r. split; [done|]. rewrite <- Hlp. assert (old <= zlen lp) by (rewrite Hlp, !length_app; lia). lia. }
  destruct (memmove_gap pre c tl r1 k Hk) as (x & r2 & -> & Hx & _); [lia|].
  exists (pre ++ x ++ tl ++ r2), x.
  destruct (new <? old); [|by exists r2].
  destruct (zrealloc_prefix junk (pre ++ x ++ tl) r2 (usable new)) as (r3 & Hz & _).
  { rewrite !length_app. pose proof (usable_ok new). lia. }
  exists r3. unfold lp_realloc. rewrite <- !app_assoc in Hz. done.
Qed.

(** The new header count. *)
Definition new_num (ele : element) (replace : bool) (num : Z) : Z :=
  if negb replace || is_delete ele then
    if num =? LP_HDR_NUMELE_UNKNOWN then num else if is_delete ele then num - 1 else num + 1
  else num.

Lemma num_range num (es : list (list Z)) :
  num = LP_HDR_NUMELE_UNKNOWN \/ (num = zlen es /\ zlen es < LP_HDR_NUMELE_UNKNOWN) -> 0 <= num < 65536.
Proof. unfold LP_HDR_NUMELE_UNKNOWN. lia. Qed.

Lemma update_num t num body ele (replace : bool) :
  0 <= num < 65536 -> (is_delete ele = true -> num <> 0) ->
  (if negb replace || is_delete ele then
     n ← lpGetNumElements (le_bytes 4 t ++ le_bytes 2 num ++ body);
     if negb (n =? LP_HDR_NUMELE_UNKNOWN) then
       if negb (is_delete ele) then lpSetNumElements (le_bytes 4 t ++ le_bytes 2 num ++ body) (n + 1)
       else lpSetNumElements (le_bytes 4 t ++ le_bytes 2 num ++ body) (uwrap 32 (n - 1))
     else Some (le_bytes 4 t ++ le_bytes 2 num ++ body)
   else Some (le_bytes 4 t ++ le_bytes 2 num ++ body))
  = Some (le_bytes 4 t ++ le_bytes 2 (new_num ele replace num) ++ body).
Proof.
  intros Hn Hd. unfold new_num. destruct (negb replace || is_delete ele); [|done].
  rewrite get_num by done. mred. destruct (num =? LP_HDR_NUMELE_UNKNOWN); [done|]. cbn [negb].
  destruct (is_delete ele); cbn [negb]; [|apply set_num].
  rewrite uwrap_id by (unfold in_u; lia). apply set_num.
Qed.

Lemma new_num_ok ele (replace : bool) num (a old b : list (list Z)) :
  num = LP_HDR_NUMELE_UNKNOWN \/ (num = zlen (a ++ old ++ b) /\ zlen (a ++ old ++ b) < LP_HDR_NUMELE_UNKNOWN) ->
  zlen old = (if replace then 1 else 0) -> (is_delete ele = true -> replace = true) ->
  let num' := new_num ele replace num in
  num' = LP_HDR_NUMELE_UNKNOWN \/
  (num' = zlen (a ++ news ele ++ b) /\ zlen (a ++ news ele ++ b) < LP_HDR_NUMELE_UNKNOWN).
Proof.
  unfold new_num, LP_HDR_NUMELE_UNKNOWN. rewrite !length_app. intros Hn Ho Hd.
  destruct ele; cbn [is_delete news length] in *; destruct replace; cbn [negb orb];
    try (specialize (Hd eq_refl); done); destruct (Z.eqb_spec num 65535); lia.
Qed.

(** The pointer to what follows a deleted element. *)
Lemma next_ptr pre a b r :
  zlen pre = off a -> Forall enc_ok b ->
  (c ← rd (pre ++ (chunks b ++ [LP_EOF]) ++ r) (off a); Some (if c =? LP_EOF then None else Some (off a)))
  = Some (ptr a b).
Proof.
  intros Hp Hb. rewrite (rd_app_r pre _ _ Hp). destruct b as [|e b]; [done|].
  apply Forall_cons in Hb as [He _]. destruct (enc_first e He) as (c & Hc & _ & Hne & _).
  destruct e as [|c' e]; [done|]. injection Hc as ->. cbn. by rw_false (c =? LP_EOF).
Qed.

Definition mode (old : list (list Z)) : position := match old with [] => LP_BEFORE | _ => LP_REPLACE end.

Lemma spot_resolve lp es ele w p a old b num tail :
  layout lp es num tail -> spot es ele w p a old b ->
  es = a ++ old ++ b /\ (length old <= 1)%nat /\ (is_delete ele = true -> old <> []) /\
  (let w := if is_delete ele then LP_REPLACE else w in
   if decide (w = LP_AFTER) then
     p ← lpSkip lp p; total ← lpGetTotalBytes lp;
     if (p >=? LP_HDR_SIZE) && (p <? total) then Some (p, LP_BEFORE) else None
   else Some (p, w)) = Some (off a, mode old).
Proof.
  intros Hly Hsp. destruct Hsp as [a b -> He|a x b -> He|a x b -> He|w a x b -> ->].
  - split_and!; [done|cbn; lia|by destruct ele|]. by destruct ele.
  - split_and!; [by rewrite <- app_assoc|cbn; lia|by destruct ele|].
    assert (is_delete ele = false) as -> by by destruct ele. cbv zeta. rewrite decide_True by done.
    rewrite (skip_at _ _ _ _ _ _ Hly). mred. rewrite (proj1 (layout_header _ _ _ _ Hly)). mred.
    pose proof (elem_bounds _ _ _ _ _ _ Hly). pose proof (off_snoc a x).
    assert (6 <= off (a ++ [x])) by (unfold off, LP_HDR_SIZE; lia). unfold LP_HDR_SIZE.
    by rw_true ((off (a ++ [x]) >=? 6) && (off (a ++ [x]) <? zlen (chunks (a ++ x :: b)) + 7)).
  - split_and!; [done|cbn; lia|by destruct ele|]. by destruct ele.
  - split_and!; [done|cbn; lia|done|]. done.
Qed.

Lemma replaced_spec lp a old b num tail :
  layout lp (a ++ old ++ b) num tail -> (length old <= 1)%nat ->
  (if decide (mode old = LP_REPLACE) then
     n ← lpCurrentEncodedSizeUnsafe lp (off a);
     let n := uwrap 32 (n + lpEncodeBacklenBytes n) in
     if (off a >=? LP_HDR_SIZE) && (off a + n <? zlen (chunks (a ++ old ++ b)) + 7) then Some n else None
   else Some 0) = Some (zlen (chunks old)).
Proof.
  intros Hly Ho. destruct old as [|x [|? ?]]; cbn [length] in Ho; try lia; [done|]. cbn [app] in *.
  rewrite decide_True by done. rewrite (elem_size _ _ _ _ _ _ Hly). mred. cbv zeta.
  pose proof (elem_bounds _ _ _ _ _ _ Hly). pose proof (chunk_length x) as Hx.
  rewrite <- Hx. rewrite uwrap_id by (unfold in_u, off, LP_HDR_SIZE in *; pose proof (ly_total _ _ _ _ Hly); lia).
  assert (6 <= off a) by (unfold off, LP_HDR_SIZE; lia). unfold LP_HDR_SIZE.
  rw_true ((off a >=? 6) && (off a + zlen (chunk x) <? zlen (chunks (a ++ x :: b)) + 7)).
  rewrite chunks_cons_length. f_equal. cbn. lia.
Qed.

(** The block while the element is stored: the parts of the old block, with the
    room for the new element between them. *)
Lemma store_element pre x tl r ele a :
  zlen pre = off a -> zlen x = zlen (chunks (news ele)) ->
  (if is_delete ele then Some (pre ++ x ++ tl ++ r)
   else lp ← wrn (pre ++ x ++ tl ++ r) (off a) (concat (news ele));
        wrn lp (off a + zlen (concat (news ele)))
          (if is_delete ele then [] else lpEncodeBacklen (zlen (concat (news ele)))))
  = Some (pre ++ chunks (news ele) ++ tl ++ r).
Proof.
  intros Hp Hx. rewrite <- Hp. destruct ele as [s|i|]; cbn [is_delete news concat] in *; rewrite ?app_nil_r.
  - rewrite chunks_cons_length in Hx. change (zlen (chunks [])) with 0 in Hx.
    rewrite write_chunk by lia. by rewrite chunks_cons; cbn; rewrite app_nil_r.
  - rewrite chunks_cons_length in Hx. change (zlen (chunks [])) with 0 in Hx.
    rewrite write_chunk by lia. by rewrite chunks_cons; cbn; rewrite app_nil_r.
  - destruct x; [done|cbn in Hx; lia].
Qed.

(** The last phase: store the element, update the header. *)
Lemma insert_finish a old b ele num pre x r T :
  let total := zlen (chunks (a ++ news ele ++ b)) + 7 in
  let L := pre ++ x ++ (chunks b ++ [LP_EOF]) ++ r in
  pre = le_bytes 4 T ++ le_bytes 2 num ++ chunks a -> zlen pre = off a ->
  zlen x = zlen (chunks (news ele)) -> (length old <= 1)%nat -> (is_delete ele = true -> old <> []) ->
  num = LP_HDR_NUMELE_UNKNOWN \/
    (num = zlen (a ++ old ++ b) /\ zlen (a ++ old ++ b) < LP_HDR_NUMELE_UNKNOWN) ->
  Forall enc_ok (a ++ news ele ++ b) -> total < 2 ^ 32 ->
  exists lp',
    (newp ← (if is_delete ele then c ← rd L (off a); Some (if c =? LP_EOF then None else Some (off a))
             else Some (Some (off a)));
     lp ← (if is_delete ele then Some L
           else lp ← wrn L (off a) (concat (news ele));
                wrn lp (off a + zlen (concat (news ele)))
                  (if is_delete ele then [] else lpEncodeBacklen (zlen (concat (news ele)))));
     lp ← (if negb (bool_decide (mode old = LP_REPLACE)) || is_delete ele then
             n ← lpGetNumElements lp;
             if negb (n =? LP_HDR_NUMELE_UNKNOWN) then
               if negb (is_delete ele) then lpSetNumElements lp (n + 1)
               else lpSetNumElements lp (uwrap 32 (n - 1))
             else Some lp
           else Some lp);
     lp ← lpSetTotalBytes lp total;
     Some (Some (lp, newp)))
    = Some (Some (lp', if is_delete ele then ptr a b else Some (off a))) /\
    rep lp' (a ++ news ele ++ b).
Proof.
  intros total L Hpre Hpl Hx Hold Hdel Hnum Hencs Htot.
  assert (Hmode : bool_decide (mode old = LP_REPLACE) = negb (bool_decide (old = []))) by by destruct old.
  pose proof (num_range _ _ Hnum) as Hnr.
  assert (Hnew : (if is_delete ele then c ← rd L (off a); Some (if c =? LP_EOF then None else Some (off a))
      else Some (Some (off a))) = Some (if is_delete ele then ptr a b else Some (off a))).
  { destruct ele as [s|i|]; cbn [is_delete news] in *; try done. unfold L.
    destruct x; [|cbn in Hx; lia]. apply next_ptr; [done|].
    by apply Forall_app in Hencs as [_ ?]. }
  rewrite Hnew. mred. unfold L. rewrite (store_element pre x _ r ele a Hpl Hx). mred.
  rewrite Hpre, <- !app_assoc.
  rewrite (update_num T num _ ele (bool_decide (mode old = LP_REPLACE))); [|done|].
  2: { intros Hd. specialize (Hdel Hd). destruct old; [done|]. destruct Hnum as [-> |[-> _]]; [done|].
       rewrite !length_app. cbn [length]. lia. }
  mred. rewrite set_total. mred. eexists. split; [done|].
  exists (new_num ele (bool_decide (mode old = LP_REPLACE)) num), r. split; [|done|..].
  - unfold total. rewrite !chunks_app. by rewrite <- !app_assoc.
  - apply (new_num_ok _ _ _ _ old); [done|..].
    + destruct old as [|? [|? ?]]; cbn [length] in Hold; try lia; done.
    + intros Hd. rewrite Hmode. destruct old; [by apply Hdel in Hd|done].
  - done.
Qed.

Lemma insert_spec lp es ele w p a old b :
  rep lp es -> element_ok ele -> spot es ele w p a old b ->
  let total := zlen (chunks (a ++ news ele ++ b)) + 7 in
  if total >? UINT32_MAX then lpInsert usable junk lp ele p w = Some None
  else exists lp', lpInsert usable junk lp ele p w
         = Some (Some (lp', if is_delete ele then ptr a b else Some (off a))) /\
       rep lp' (a ++ news ele ++ b).
Proof using usable_ok.
  intros (num & tail & Hly) Hele Hsp total.
  destruct (spot_resolve _ _ _ _ _ _ _ _ _ _ Hly Hsp) as (-> & Hold & Hdel & Hpos).
  pose proof (layout_header _ _ _ _ Hly) as (Htot & _ & _).
  pose proof (news_length ele Hele) as Hnl. pose proof (ly_total _ _ _ _ Hly) as Hlt.
  pose proof (num_range _ _ (ly_num _ _ _ _ Hly)) as Hnr.
  set (T := zlen (chunks (a ++ old ++ b)) + 7) in *.
  assert (Hnew : uwrap 64 (T + zlen (chunks (news ele)) - zlen (chunks old)) = total).
  { unfold T, total in *. rewrite !chunks_app, !length_app in *. rewrite uwrap_id by (unfold in_u; lia). lia. }
  unfold lpInsert. cbv zeta in Hpos |- *. rewrite Hpos. mred. rewrite enclen_of, enc_of, Htot. mred. fold T.
  pose proof (replaced_spec _ _ _ _ _ _ Hly Hold) as Hrep. cbv zeta in Hrep. fold T in Hrep.
  rewrite Hrep. mred. rewrite <- (Z.add_assoc T), new_room, Hnew.
  destruct (total >? UINT32_MAX) eqn:Ebig; [done|].
  destruct (layout_split lp a (old ++ b) num tail Hly) as (pre & Hlp & Hpl & Hpre).
  rewrite chunks_app in Hlp. set (tl := chunks b ++ [LP_EOF]).
  assert (Htl : zlen tl = T - off a - zlen (chunks old)).
  { unfold tl, T, off, LP_HDR_SIZE. rewrite !chunks_app, !length_app. cbn [length]. lia. }
  assert (Hsum : off a + zlen (chunks (news ele)) + zlen tl = total)
    by (unfold total, T, off, LP_HDR_SIZE in *; rewrite !chunks_app, !length_app in *; lia).
  destruct (make_gap lp pre (chunks old) tl tail (zlen (chunks (news ele)))) as (lp2 & x & r & Hmm & Hre & Hx).
  { rewrite Hlp. unfold tl. by rewrite <- !app_assoc. }
  { lia. }
  { unfold UINT32_MAX in Ebig. lia. }
  rewrite Hpl in Hmm, Hre.
  rewrite Hsum in Hmm, Hre.
  replace (off a + zlen (chunks old) + zlen tl) with T in Hmm, Hre by lia.
  assert (Hmove : (if decide (mode old = LP_BEFORE) then
      memmove (if (total >? T) && (total >? zlen lp) then lp_realloc usable junk lp total else lp)
        (off a + zlen (chunks (news ele))) (off a) (T - off a)
    else memmove (if (total >? T) && (total >? zlen lp) then lp_realloc usable junk lp total else lp)
        (off a + zlen (chunks (news ele))) (off a + zlen (chunks old)) (T - off a - zlen (chunks old)))
    = Some lp2).
  { rewrite <- Hmm. destruct old; cbn [mode]; [rewrite decide_True by done|rewrite decide_False by done];
      f_equal; try lia; cbn in *; lia. }
  rewrite <- !Z.add_assoc, !new_room. rewrite Hmove. mred. rewrite Hre.
  apply (insert_finish a old b ele num pre x r T); try done.
  - apply (ly_num _ _ _ _ Hly).
  - apply Forall_app; split; [|apply Forall_app; split].
    + pose proof (ly_encs _ _ _ _ Hly) as He. by apply Forall_app in He as [? _].
    + apply news_ok; [done|]. unfold UINT32_MAX in Ebig. lia.
    + pose proof (ly_encs _ _ _ _ Hly) as He. by apply Forall_app in He as [_ [_ ?]%Forall_app].
  - unfold UINT32_MAX in Ebig. lia.
Qed.

(** C16: [lpInsert] puts the element before or after the one pointed to, or in
    its place, or deletes it; the other elements keep their encodings and their
    order, the header count stays exact or unknown, [*newp] points to the new
    element (the next one after a deletion), no byte outside the block is
    touched, and the only failure is a total above 32 bits, reported as [NULL]. *)
Theorem lpInsert_correct lp es ele w p a old b :
  rep lp es -> element_ok ele -> spot es ele w p a old b ->
  let total := zlen (chunks (a ++ news ele ++ b)) + 7 in
  if total >? UINT32_MAX then lpInsert usable junk lp ele p w = Some None
  else exists lp', lpInsert usable junk lp ele p w
         = Some (Some (lp', if is_delete ele then ptr a b else Some (off a))) /\
       rep lp' (a ++ news ele ++ b).
Proof using usable_ok. apply insert_spec. Qed.

Lemma new_spec capacity :
  0 <= capacity < 2 ^ 33 -> exists lp, lpNew usable junk capacity = Some lp /\ rep lp [].
Proof using usable_ok.
  intros Hc. unfold lpNew, LP_HDR_SIZE.
  set (n := if capacity >? 6 + 1 then capacity else 6 + 1).
  assert (Hn : 7 <= n < 2 ^ 33) by (unfold n; rewrite Z.gtb_ltb; zbool; lia).
  pose proof (usable_ok n ltac:(lia)) as Hu.
  pose proof (zrealloc_length junk [] (usable n) ltac:(lia)) as Hl.
  set (m := zrealloc junk [] (usable n)) in *. clearbody m.
  do 7 (destruct m as [|? m]; [cbn in Hl; lia|]).
  match goal with |- context [lpSetTotalBytes (?a :: ?b :: ?c :: ?d :: ?e :: ?f :: ?g :: m) _] =>
    change (a :: b :: c :: d :: e :: f :: g :: m) with ([a; b; c; d] ++ [e; f] ++ [g] ++ m) end.
  unfold lpSetTotalBytes. rewrite wrn_0 by done. mred. unfold lpSetNumElements.
  rewrite (wrn_app (le_bytes 4 (6 + 1))) by done. mred. rewrite (app_assoc (le_bytes 4 _)).
  rewrite (wrn_app (le_bytes 4 (6 + 1) ++ le_bytes 2 0)) by done. eexists. split; [done|].
  exists 0, m. split; [done|done|by right|constructor].
Qed.

Lemma append_spec lp es s :
  rep lp es -> bytes_ok s -> zlen (chunks (es ++ [string_enc s])) + 7 < 2 ^ 32 -> zlen s < 2 ^ 32 ->
  exists lp', lpAppend usable junk lp s = Some (Some (lp', Some (off es))) /\ rep lp' (es ++ [string_enc s]).
Proof using usable_ok.
  intros Hrep Hs Hsz Hl. pose proof Hrep as (num & tail & Hly). unfold lpAppend.
  rewrite (proj1 (layout_header _ _ _ _ Hly)). mred.
  replace (zlen (chunks es) + 7 - 1) with (off es) by (unfold off, LP_HDR_SIZE; lia).
  pose proof (insert_spec lp es (EleStr s) LP_BEFORE (off es) es [] [] Hrep) as Hi.
  cbn [news] in Hi. rewrite app_nil_r in Hi. cbv zeta in Hi.
  destruct (Z.gtb_spec (zlen (chunks (es ++ [string_enc s])) + 7) UINT32_MAX); [unfold UINT32_MAX in *; lia|].
  apply Hi; [done|]. constructor; [by rewrite app_nil_r|done].
Qed.

(** Reading an element of a listpack. *)
Lemma get_at lp a e b x intbuf :
  rep lp (a ++ e :: b) -> stands_for e x -> zlen intbuf = LP_INTBUF_SIZE ->
  lpGetString lp (off a) intbuf = Some (match x with Int v => Numbers.dec v | Str s => s end).
Proof.
  intros (num & tail & Hly) Hx Hb. pose proof (elem_inside _ _ _ _ _ _ Hly) as Hin.
  unfold lpGetString, lpGet. rewrite <- (Z.add_0_r (off a)). destruct x as [v|s]; cbn [stands_for] in Hx.
  - destruct Hx as [Hg Hv]. rewrite (get_mono _ _ _ _ _ Hin Hg). mred. cbn [shift_value].
    pose proof (Numbers.dec_length v Hv).
    destruct (Numbers.ll2string_ok intbuf v Hv) as (rest & -> & _); [unfold LP_INTBUF_SIZE in Hb; lia|]. mred.
    by apply rdn_0.
  - destruct Hx as (o & Hg & Hr). rewrite (get_mono _ _ _ _ _ Hin Hg). mred. cbn [shift_value].
    by apply Hin.
Qed.

Lemma as_value_text s : match as_value s with Int v => Numbers.dec v | Str s => s end = s.
Proof.
  unfold as_value. destruct (lpStringToInt64 s) as [v|] eqn:E; [|done].
  by apply lpStringToInt64_iff in E as [-> _].
Qed.

(** What is appended can be read back: after [lpAppend], seeking the last
    element finds it and reading it gives the appended bytes, also when they are
    the decimal notation of an integer and are stored as one. *)
Theorem lpAppend_roundtrip lp es s intbuf :
  rep lp es -> bytes_ok s -> zlen (chunks (es ++ [string_enc s])) + 7 < 2 ^ 32 -> zlen s < 2 ^ 32 - 5 ->
  zlen intbuf = LP_INTBUF_SIZE ->
  exists lp' q, lpAppend usable junk lp s = Some (Some (lp', Some q)) /\
    rep lp' (es ++ [string_enc s]) /\ lpSeek lp' (-1) = Some (Some q) /\
    lpGetString lp' q intbuf = Some s.
Proof using usable_ok.
  intros Hrep Hs Hsz Hl Hb. destruct (append_spec lp es s Hrep Hs Hsz) as (lp' & Ha & Hrep'); [lia|].
  exists lp', (off es). split_and!; [done|done|..].
  - rewrite (seek_spec lp' _ (-1) Hrep'). rewrite length_app, Nat2Z.inj_add.
    change (zlen [string_enc s]) with 1. change (-1 <? 0) with true. cbv iota.
    replace (zlen es + 1 + -1) with (zlen es) by lia.
    assert (0 <= zlen es) by lia. rw_true ((0 <=? zlen es) && (zlen es <? zlen es + 1)).
    by rewrite Nat2Z.id, take_app_length.
  - destruct (string_enc_ok s Hs) as [_ Hst]; [lia|].
    rewrite (get_at lp' es _ [] _ intbuf Hrep' Hst Hb). by rewrite as_value_text.
Qed.

(** *** Deletion of ranges *)

Lemma delete_loop_spec lp a c b num tail n d fuel :
  layout lp (a ++ c ++ b) num tail -> b <> [] \/ n = 0 -> 0 <= n -> (length b < fuel)%nat ->
  delete_range_loop fuel lp (zlen (chunks (a ++ c ++ b)) + 7) n d (off (a ++ c))
  = Some (d + Z.min n (zlen b), off (a ++ c ++ take (Z.to_nat n) b)).
Proof.
  revert c n d fuel. induction b as [|e b IH]; intros c n d [|fuel] Hly Hb Hn Hf; cbn [length] in Hf; try lia;
    cbn [delete_range_loop].
  { destruct Hb as [?| ->]; [done|]. cbn. rewrite !app_nil_r. f_equal. f_equal. lia. }
  destruct (Z.eqb_spec n 0) as [-> |Hn0]; [cbn [Z.to_nat take]; rewrite !app_nil_r; do 2 f_equal; lia|].
  assert (Hly' : layout lp ((a ++ c) ++ e :: b) num tail) by by rewrite <- app_assoc.
  rewrite (skip_at _ _ _ _ _ _ Hly'). mred.
  assert (Hly2 : layout lp (a ++ (c ++ [e]) ++ b) num tail) by by rewrite <- !app_assoc.
  assert (Htk : take (Z.to_nat n) (e :: b) = e :: take (Z.to_nat (n - 1)) b).
  { replace (Z.to_nat n) with (S (Z.to_nat (n - 1))) by lia. done. }
  destruct b as [|e2 b].
  - assert (Hend : layout lp ((a ++ c) ++ [e]) num tail) by done.
    rewrite (rd_eof _ _ _ _ Hend). mred. change (LP_EOF =? LP_EOF) with true. cbv iota.
    rewrite Htk, take_nil, <- app_assoc. cbn [length]. do 2 f_equal. lia.
  - assert (Hat : layout lp (((a ++ c) ++ [e]) ++ e2 :: b) num tail) by by rewrite <- !app_assoc in *.
    destruct (first_at _ _ _ _ _ _ Hat) as (ch & -> & _ & Hne & _). mred. rw_false (ch =? LP_EOF).
    pose proof (assert_valid_at _ _ _ _ _ _ Hat) as Hv. rewrite <- !app_assoc in Hv. cbn [app] in Hv.
    rewrite <- app_assoc in *. cbn [app] in *. rewrite Hv. mred.
    pose proof (IH (c ++ [e]) (n - 1) (d + 1) fuel) as IH'. rewrite <- !app_assoc in IH'. cbn [app] in IH'.
    rewrite IH' by (try done; try lia; by left). rewrite Htk. cbn [length]. do 2 f_equal. lia.
Qed.

Lemma shrink_spec lp es num tail :
  layout lp es num tail -> exists lp' tail', lpShrinkToFit usable junk lp = Some lp' /\ layout lp' es num tail'.
Proof using usable_ok.
  intros Hly. unfold lpShrinkToFit. rewrite (proj1 (layout_header _ _ _ _ Hly)). mred.
  destruct Hly as [-> Ht Hn He]. case_match; [|by do 2 eexists].
  set (m := le_bytes 4 (zlen (chunks es) + 7) ++ le_bytes 2 num ++ chunks es ++ [LP_EOF]).
  assert (Hm : forall r, le_bytes 4 (zlen (chunks es) + 7) ++ le_bytes 2 num ++ chunks es ++ LP_EOF :: r = m ++ r)
    by (intros; unfold m; by rewrite <- !app_assoc).
  destruct (zrealloc_prefix junk m tail (usable (zlen (chunks es) + 7))) as (r' & Hz & _).
  { pose proof (usable_ok (zlen (chunks es) + 7) ltac:(lia)).
    unfold m. rewrite !length_app, !le_bytes_length. cbn [length]. lia. }
  exists (m ++ r'), r'. unfold lp_realloc. rewrite Hm, Hz. split; [done|]. split; try done.
Qed.

(** The header count after [d] deletions. *)
Lemma del_num t num body (es : list (list Z)) d :
  num = LP_HDR_NUMELE_UNKNOWN \/ (num = zlen es /\ zlen es < LP_HDR_NUMELE_UNKNOWN) -> 0 <= d <= zlen es ->
  exists num',
    (if negb (num =? LP_HDR_NUMELE_UNKNOWN)
     then lpSetNumElements (le_bytes 4 t ++ le_bytes 2 num ++ body) (uwrap 64 (num - d))
     else Some (le_bytes 4 t ++ le_bytes 2 num ++ body)) = Some (le_bytes 4 t ++ le_bytes 2 num' ++ body) /\
    (num' = LP_HDR_NUMELE_UNKNOWN \/ (num' = zlen es - d /\ zlen es - d < LP_HDR_NUMELE_UNKNOWN)).
Proof.
  intros Hn Hd. destruct (Z.eqb_spec num LP_HDR_NUMELE_UNKNOWN) as [E|E]; cbn [negb].
  - exists num. split; [done|by left].
  - destruct Hn as [|[-> Hn]]; [done|]. rewrite set_num. unfold LP_HDR_NUMELE_UNKNOWN in *.
    rewrite uwrap_id by (unfold in_u; lia). eexists. split; [done|]. right. lia.
Qed.

(** Moving the tail over the elements [c]. *)
Lemma delete_move lp a c b num tail :
  layout lp (a ++ c ++ b) num tail ->
  let T := zlen (chunks (a ++ c ++ b)) + 7 in
  exists r, memmove lp (off a) (off (a ++ c)) (T - 1 - off (a ++ c) + 1)
    = Some (le_bytes 4 T ++ le_bytes 2 num ++ chunks a ++ chunks b ++ LP_EOF :: r).
Proof.
  intros Hly T. destruct (layout_split _ _ _ _ _ Hly) as (pre & Hlp & Hpl & Hpre).
  set (tl := chunks b ++ [LP_EOF]).
  assert (Hm : lp = pre ++ chunks c ++ tl ++ tail).
  { rewrite Hlp, chunks_app. unfold tl. by rewrite <- !app_assoc. }
  assert (Hoff : off (a ++ c) = zlen pre + zlen (chunks c))
    by (unfold off in *; rewrite chunks_app, length_app; lia).
  assert (Htl : T - 1 - off (a ++ c) + 1 = zlen tl).
  { unfold tl, T, off, LP_HDR_SIZE. rewrite !chunks_app, !length_app. cbn [length]. lia. }
  destruct (memmove_gap pre (chunks c) tl tail 0) as (x & r & Hmv & Hx & _);
    [lia|rewrite !length_app; lia|].
  exists r. rewrite Htl, Hoff, <- Hpl, Hm. rewrite Z.add_0_r in Hmv. rewrite Hmv.
  destruct x; [|cbn in Hx; lia]. unfold T, tl. rewrite Hpre. by rewrite <- !app_assoc.
Qed.

Lemma delete_finish a c b num r :
  let T := zlen (chunks (a ++ c ++ b)) + 7 in
  let m := le_bytes 4 T ++ le_bytes 2 num ++ chunks a ++ chunks b ++ LP_EOF :: r in
  num = LP_HDR_NUMELE_UNKNOWN \/ (num = zlen (a ++ c ++ b) /\ zlen (a ++ c ++ b) < LP_HDR_NUMELE_UNKNOWN) ->
  T < 2 ^ 32 -> Forall enc_ok (a ++ c ++ b) ->
  exists lp', (lp ← lpSetTotalBytes m (T - (off (a ++ c) - off a));
    numele ← lpGetNumElements lp;
    lp ← (if negb (numele =? LP_HDR_NUMELE_UNKNOWN)
          then lpSetNumElements lp (uwrap 64 (numele - zlen c)) else Some lp);
    lp ← lpShrinkToFit usable junk lp;
    x ← rd lp (off a);
    Some (lp, if x =? LP_EOF then None else Some (off a))) = Some (lp', ptr a b) /\ rep lp' (a ++ b).
Proof using usable_ok.
  intros T m Hnum HT Henc. unfold m. rewrite set_total. mred.
  assert (HT' : T - (off (a ++ c) - off a) = zlen (chunks (a ++ b)) + 7).
  { unfold T, off. rewrite !chunks_app, !length_app. lia. }
  rewrite HT', get_num by by apply (num_range _ _ Hnum). mred.
  destruct (del_num (zlen (chunks (a ++ b)) + 7) num (chunks a ++ chunks b ++ LP_EOF :: r) (a ++ c ++ b) (zlen c))
    as (num' & -> & Hnum'); [done|rewrite !length_app; lia|]. mred.
  rewrite !Forall_app in Henc. destruct Henc as (Ha & _ & Hb).
  destruct (shrink_spec (le_bytes 4 (zlen (chunks (a ++ b)) + 7) ++ le_bytes 2 num' ++
    chunks a ++ chunks b ++ LP_EOF :: r) (a ++ b) num' r) as (lp' & tail' & -> & Hly2).
  { split.
    - rewrite (chunks_app a b) at 3. by rewrite <- app_assoc.
    - unfold T in HT. rewrite !chunks_app, !length_app in *. lia.
    - rewrite !length_app in *. unfold LP_HDR_NUMELE_UNKNOWN in *. lia.
    - by apply Forall_app. }
  mred. exists lp'. split; [|by exists num', tail'].
  destruct (layout_split _ _ _ _ _ Hly2) as (pre2 & -> & Hpl2 & _).
  change (LP_EOF :: tail') with ([LP_EOF] ++ tail'). rewrite (app_assoc (chunks b)).
  pose proof (next_ptr pre2 a b tail' Hpl2 Hb) as Hnp.
  destruct (rd (pre2 ++ (chunks b ++ [LP_EOF]) ++ tail') (off a)) as [ch|]; [|done].
  revert Hnp. mred. by intros [= ->].
Qed.

Lemma delete_range_spec lp a b n :
  rep lp (a ++ b) -> b <> [] -> 1 <= n ->
  exists lp', lpDeleteRangeWithEntry usable junk lp (off a) n = Some (lp', ptr a (drop (Z.to_nat n) b)) /\
    rep lp' (a ++ drop (Z.to_nat n) b).
Proof using usable_ok.
  intros (num & tail & Hly) Hb Hn. unfold lpDeleteRangeWithEntry, lpBytes.
  rewrite (proj1 (layout_header _ _ _ _ Hly)). mred. rw_false (n =? 0).
  pose proof (elems_fuel _ _ _ _ Hly) as Hf. rewrite length_app in Hf.
  pose proof (delete_loop_spec lp a [] b num tail n 0 (S (length lp))) as Hloop.
  cbn [app] in Hloop. rewrite app_nil_r in Hloop. rewrite Hloop by (try done; try lia; by left). clear Hloop.
  mred. assert (Hd : 0 + Z.min n (zlen b) = zlen (take (Z.to_nat n) b)) by (rewrite length_take; lia).
  rewrite Hd. rewrite <- (take_drop (Z.to_nat n) b) in Hly.
  set (c := take (Z.to_nat n) b) in *. set (b' := drop (Z.to_nat n) b) in *.
  assert (Hbc : b = c ++ b') by (symmetry; apply take_drop). rewrite Hbc.
  destruct (delete_move _ _ _ _ _ _ Hly) as (r & ->). mred.
  apply delete_finish; apply Hly.
Qed.

(** Cutting the listpack at the first element of [b]. *)
Lemma cut_spec lp a b num tail :
  layout lp (a ++ b) num tail -> b <> [] -> zlen a < LP_HDR_NUMELE_UNKNOWN ->
  exists lp', (lp ← wrn lp (off a) [LP_EOF];
    lp ← lpSetTotalBytes lp (off a + 1);
    lp ← lpSetNumElements lp (zlen a);
    lpShrinkToFit usable junk lp) = Some lp' /\ rep lp' a.
Proof using usable_ok.
  intros Hly Hb Ha. destruct (layout_split _ _ _ _ _ Hly) as (pre & Hlp & Hpl & Hpre).
  assert (exists c r, chunks b ++ LP_EOF :: tail = [c] ++ r) as (c & r & Hc).
  { destruct (chunks b ++ LP_EOF :: tail) as [|c r] eqn:E; [by destruct (chunks b)|by exists c, r]. }
  rewrite Hlp, Hc, (wrn_app pre [c] r [LP_EOF]) by (done || lia). mred.
  rewrite Hpre, <- !app_assoc, set_total. mred. rewrite set_num. mred.
  edestruct (shrink_spec (le_bytes 4 (off a + 1) ++ le_bytes 2 (zlen a) ++ chunks a ++ [LP_EOF] ++ r) a (zlen a) r)
    as (lp' & tail' & -> & Hly'); [|by exists lp'; split; [|exists (zlen a), tail']].
  pose proof (ly_total _ _ _ _ Hly) as Ht. rewrite chunks_app, length_app in Ht. split.
  - unfold off, LP_HDR_SIZE. do 2 f_equal. lia.
  - lia.
  - by right.
  - pose proof (ly_encs _ _ _ _ Hly) as He. by apply Forall_app in He as [? _].
Qed.

Lemma range_index_spec lp es index n :
  rep lp es -> 0 <= n ->
  let i := if index <? 0 then zlen es + index else index in
  exists lp', lpDeleteRange usable junk lp index n = Some lp' /\
    rep lp' (if (0 <=? i) && (i <? zlen es)
             then take (Z.to_nat i) es ++ drop (Z.to_nat (i + n)) es else es).
Proof using usable_ok.
  intros Hrep Hn i. pose proof Hrep as (num & tail & Hly). unfold lpDeleteRange.
  rewrite (proj1 (proj2 (layout_header _ _ _ _ Hly))). mred.
  destruct (Z.eqb_spec n 0) as [-> |Hn0].
  { exists lp. split; [done|]. destruct (_ && _); [|done]. rewrite Z.add_0_r, take_drop. done. }
  rewrite (seek_spec lp es index Hrep). fold i. mred.
  destruct ((0 <=? i) && (i <? zlen es)) eqn:Ei; [|by eexists].
  set (a := take (Z.to_nat i) es). set (b := drop (Z.to_nat i) es).
  assert (Hes : es = a ++ b) by (symmetry; apply take_drop).
  assert (Hla : zlen a = i) by (unfold a; rewrite length_take; lia).
  assert (Hb : b <> []).
  { intros E. apply (f_equal length) in E. unfold b in E. rewrite length_drop in E. cbn in E. lia. }
  assert (Hdr : drop (Z.to_nat n) b = drop (Z.to_nat (i + n)) es).
  { unfold b. rewrite drop_drop. f_equal. lia. }
  rewrite <- Hdr. rewrite Hes in Hly, Hrep.
  assert (Hmove : exists lp', ('(lp0, _) ← lpDeleteRangeWithEntry usable junk lp (off a) n; Some lp0) = Some lp' /\
    rep lp' (a ++ drop (Z.to_nat n) b)).
  { destruct (delete_range_spec lp a b n Hrep Hb) as (lp' & -> & Hr); [lia|]. by exists lp'. }
  pose proof (ly_num _ _ _ _ Hly) as [-> |[Hnum Hlt]]; [done|]. rewrite <- Hes in Hnum, Hlt.
  rewrite Hnum. rw_true (negb (zlen es =? LP_HDR_NUMELE_UNKNOWN)). cbn [andb]. fold i.
  rewrite !uwrap_id by (unfold in_u, LP_HDR_NUMELE_UNKNOWN in *; rewrite ?uwrap_id by (unfold in_u; lia); lia).
  destruct (Z.leb_spec (zlen es - i) n); [|done].
  rewrite drop_ge, app_nil_r by (unfold b; rewrite length_drop; lia).
  rewrite <- Hla. by apply (cut_spec lp a b num tail); [| |lia].
Qed.

(** [lpDeleteRange] removes the elements with the given positions and keeps
    all others, whether it cuts the listpack at the first of them or moves the
    rest down; an index out of range removes nothing. *)
Theorem lpDeleteRange_correct lp es index n :
  rep lp es -> 0 <= n ->
  let i := if index <? 0 then zlen es + index else index in
  exists lp', lpDeleteRange usable junk lp index n = Some lp' /\
    rep lp' (if (0 <=? i) && (i <? zlen es)
             then take (Z.to_nat i) es ++ drop (Z.to_nat (i + n)) es else es).
Proof using usable_ok. apply range_index_spec. Qed.

(** *** Length and merging *)

Lemma length_loop_spec lp a b num tail fuel count :
  layout lp (a ++ b) num tail -> (length b < fuel)%nat -> 0 <= count -> count + zlen b < 2 ^ 32 ->
  lpLength_loop fuel lp (ptr a b) count = Some (count + zlen b).
Proof.
  revert a fuel count. induction b as [|e b IH]; intros a [|fuel] count Hly Hf Hc Hb; cbn [length] in Hf; try lia;
    cbn [lpLength_loop ptr].
  { f_equal. cbn. lia. }
  rewrite length_cons in Hb. rewrite (next_spec _ _ _ _ _ _ Hly). mred. rewrite uwrap_id by (unfold in_u; lia).
  rewrite IH; [rewrite length_cons; f_equal; lia|by rewrite <- app_assoc|lia..].
Qed.

Lemma length_spec lp es num tail :
  layout lp es num tail ->
  exists lp' num', lpLength lp = Some (zlen es, lp') /\ layout lp' es num' tail.
Proof.
  intros Hly. pose proof (layout_header _ _ _ _ Hly) as (_ & Hn & _). unfold lpLength. rewrite Hn. mred.
  pose proof (elems_fuel _ _ _ _ Hly) as Hf. pose proof (ly_num _ _ _ _ Hly) as [-> |[-> Hlt]].
  2: { rw_true (negb (zlen es =? LP_HDR_NUMELE_UNKNOWN)). by exists lp, (zlen es). }
  cbn [negb Z.eqb Pos.eqb LP_HDR_NUMELE_UNKNOWN]. rewrite (first_spec _ _ _ _ Hly). mred.
  assert (Hes : zlen es < 2 ^ 32).
  { pose proof (ly_total _ _ _ _ Hly). pose proof (chunks_count es). lia. }
  rewrite (length_loop_spec lp [] es _ tail) by (done || lia). mred.
  rewrite Z.add_0_l. destruct (Z.ltb_spec (zlen es) LP_HDR_NUMELE_UNKNOWN) as [Hlt|].
  - destruct Hly as [-> Ht _ He]. rewrite set_num. mred. do 2 eexists. split; [done|].
    split; [done|done|by right|done].
  - by exists lp, LP_HDR_NUMELE_UNKNOWN.
Qed.

Lemma merge_num n1 n2 :
  0 <= n1 -> 0 <= n2 -> let n := if n1 + n2 <? 65535 then n1 + n2 else 65535 in
  n = LP_HDR_NUMELE_UNKNOWN \/ (n = n1 + n2 /\ n1 + n2 < LP_HDR_NUMELE_UNKNOWN).
Proof. intros. unfold n, LP_HDR_NUMELE_UNKNOWN. destruct (Z.ltb_spec (n1 + n2) 65535); lia. Qed.

(** The two ways to combine the blocks. *)
Lemma merge_append t1 es1 n1 tail1 t2 es2 n2 tail2 lpbytes :
  layout t1 es1 n1 tail1 -> layout t2 es2 n2 tail2 ->
  lpbytes = zlen (chunks es1) + zlen (chunks es2) + 7 -> lpbytes < 2 ^ 32 ->
  exists r, (bs ← rdn t2 6 (zlen (chunks es2) + 7 - 6);
    wrn (lp_realloc usable junk t1 lpbytes) (zlen (chunks es1) + 7 - 1) bs)
  = Some (le_bytes 4 (zlen (chunks es1) + 7) ++ le_bytes 2 n1 ++ chunks (es1 ++ es2) ++ LP_EOF :: r).
Proof using usable_ok.
  intros [-> _ _ _] [-> _ _ _] -> Hb. pose proof (usable_ok (zlen (chunks es1) + zlen (chunks es2) + 7) ltac:(lia)) as Hu.
  set (bs := chunks es2 ++ [LP_EOF]).
  assert (Hrd : rdn (le_bytes 4 (zlen (chunks es2) + 7) ++ le_bytes 2 n2 ++ chunks es2 ++ LP_EOF :: tail2) 6
    (zlen (chunks es2) + 7 - 6) = Some bs).
  { change (LP_EOF :: tail2) with ([LP_EOF] ++ tail2). rewrite (app_assoc (chunks es2)), (app_assoc (le_bytes 4 _)).
    apply rdn_app; [by rewrite length_app, !le_bytes_length|]. unfold bs. rewrite length_app. cbn [length]. lia. }
  rewrite Hrd. mred. set (m := le_bytes 4 (zlen (chunks es1) + 7) ++ le_bytes 2 n1 ++ chunks es1).
  assert (Hm : zlen m = zlen (chunks es1) + 7 - 1) by (unfold m; rewrite !length_app, !le_bytes_length; lia).
  destruct (zrealloc_prefix junk m (LP_EOF :: tail1) (usable (zlen (chunks es1) + zlen (chunks es2) + 7)))
    as (r & Hz & Hzl); [lia|].
  unfold lp_realloc. replace (le_bytes 4 _ ++ le_bytes 2 n1 ++ chunks es1 ++ LP_EOF :: tail1) with (m ++ LP_EOF :: tail1)
    by (unfold m; by rewrite <- !app_assoc).
  rewrite Hz. assert (Hbs : zlen bs = zlen (chunks es2) + 1) by (unfold bs; rewrite length_app; cbn [length]; lia).
  rewrite length_app in Hzl. rewrite <- (take_drop (length bs) r).
  rewrite (wrn_app m) by (rewrite ?length_take; lia). exists (drop (length bs) r).
  unfold m, bs. rewrite chunks_app. by rewrite <- !app_assoc.
Qed.

Lemma merge_prepend t1 es1 n1 tail1 t2 es2 n2 tail2 lpbytes :
  layout t1 es1 n1 tail1 -> layout t2 es2 n2 tail2 ->
  lpbytes = zlen (chunks es1) + zlen (chunks es2) + 7 -> lpbytes < 2 ^ 32 ->
  exists r, (target ← memmove (lp_realloc usable junk t2 lpbytes) (zlen (chunks es1) + 7 - 1) 6
               (zlen (chunks es2) + 7 - 6);
    bs ← rdn t1 0 (zlen (chunks es1) + 7 - 1);
    wrn target 0 bs)
  = Some (le_bytes 4 (zlen (chunks es1) + 7) ++ le_bytes 2 n1 ++ chunks (es1 ++ es2) ++ LP_EOF :: r).
Proof using usable_ok.
  intros [-> _ _ _] [-> _ _ _] -> Hb. pose proof (usable_ok (zlen (chunks es1) + zlen (chunks es2) + 7) ltac:(lia)) as Hu.
  set (h := le_bytes 4 (zlen (chunks es2) + 7) ++ le_bytes 2 n2). set (tl := chunks es2 ++ [LP_EOF]).
  assert (Hh : zlen h = 6) by (unfold h; by rewrite length_app, !le_bytes_length).
  assert (Htl : zlen tl = zlen (chunks es2) + 1) by (unfold tl; rewrite length_app; cbn [length]; lia).
  destruct (zrealloc_prefix junk (h ++ tl) tail2 (usable (zlen (chunks es1) + zlen (chunks es2) + 7)))
    as (r & Hz & Hzl); [rewrite length_app; lia|].
  unfold lp_realloc. replace (le_bytes 4 _ ++ le_bytes 2 n2 ++ chunks es2 ++ LP_EOF :: tail2) with ((h ++ tl) ++ tail2)
    by (unfold h, tl; by rewrite <- !app_assoc).
  rewrite Hz, <- app_assoc. rewrite <- app_assoc in Hzl.
  destruct (memmove_gap h [] tl r (zlen (chunks es1))) as (x & r' & Hmv & Hx & _);
    [lia|change ([] ++ tl ++ r) with (tl ++ r); rewrite Hzl; lia|].
  change ([] ++ tl ++ r) with (tl ++ r) in Hmv. change (zlen []) with 0 in Hmv. rewrite Hh, Htl in Hmv.
  replace (zlen (chunks es1) + 7 - 1) with (6 + zlen (chunks es1)) by lia.
  replace (zlen (chunks es2) + 7 - 6) with (zlen (chunks es2) + 1) by lia.
  rewrite Z.add_0_r in Hmv. rewrite Hmv. mred.
  set (m := le_bytes 4 (zlen (chunks es1) + 7) ++ le_bytes 2 n1 ++ chunks es1).
  replace (le_bytes 4 _ ++ le_bytes 2 n1 ++ chunks es1 ++ LP_EOF :: tail1) with (m ++ LP_EOF :: tail1)
    by (unfold m; by rewrite <- !app_assoc).
  assert (Hm : zlen m = 6 + zlen (chunks es1)) by (unfold m; rewrite !length_app, !le_bytes_length; lia).
  rewrite rdn_0 by done. mred. rewrite (app_assoc h), wrn_0 by (rewrite length_app; lia).
  exists r'. unfold m, tl. rewrite chunks_app. by rewrite <- !app_assoc.
Qed.

(** [lpMerge] gives the elements of the first listpack followed by those of
    the second, whichever of the two blocks it grows; it aborts exactly when
    the combined size does not fit below 32 bits. *)
Theorem lpMerge_correct lp1 es1 lp2 es2 :
  rep lp1 es1 -> rep lp2 es2 ->
  if zlen (chunks (es1 ++ es2)) + 7 <? UINT32_MAX
  then exists lp', lpMerge usable junk lp1 lp2 = Some lp' /\ rep lp' (es1 ++ es2)
  else lpMerge usable junk lp1 lp2 = None.
Proof using usable_ok.
  intros (n1 & tail1 & Hly1) (n2 & tail2 & Hly2). unfold lpMerge, lpBytes.
  rewrite (proj1 (layout_header _ _ _ _ Hly1)). mred.
  destruct (length_spec _ _ _ _ Hly1) as (t1 & m1 & -> & H1). mred.
  rewrite (proj1 (layout_header _ _ _ _ Hly2)). mred.
  destruct (length_spec _ _ _ _ Hly2) as (t2 & m2 & -> & H2). mred. unfold LP_HDR_SIZE.
  set (L := zlen (chunks es1) + 7 + (zlen (chunks es2) + 7) - 6 - 1).
  assert (HL : zlen (chunks (es1 ++ es2)) + 7 = L) by (unfold L; rewrite chunks_app, length_app; lia).
  rewrite HL. destruct (zlen (chunks es1) + 7 >=? zlen (chunks es2) + 7);
    destruct (Z.ltb_spec L UINT32_MAX) as [Hlt|]; try done; cbn [negb]; unfold UINT32_MAX in Hlt.
  - destruct (merge_append t1 es1 m1 tail1 t2 es2 m2 tail2 L H1 H2) as (r & ->); [lia..|]. mred.
    rewrite set_num. mred. rewrite set_total, <- HL. eexists. split; [done|]. eexists _, r.
    split; [done|lia|rewrite length_app, Nat2Z.inj_add; apply merge_num; lia|].
    apply Forall_app; split; [apply H1|apply H2].
  - destruct (merge_prepend t1 es1 m1 tail1 t2 es2 m2 tail2 L H1 H2) as (r & Hr); [lia..|].
    destruct (memmove _ _ _ _) as [tg|]; [|done]. revert Hr. mred. intros Hr.
    destruct (rdn t1 0 _) as [bs|]; [|done]. revert Hr. mred. intros ->. mred.
    rewrite set_num. mred. rewrite set_total, <- HL. eexists. split; [done|]. eexists _, r.
    split; [done|lia|rewrite length_app, Nat2Z.inj_add; apply merge_num; lia|].
    apply Forall_app; split; [apply H1|apply H2].
Qed.

End Insert.

(** ** Validation *)

(** The caller's check of every entry. *)
Fixpoint accepted (cb : option (Z -> Z -> bool)) (num : Z) (a b : list (list Z)) : bool :=
  match b with
  | [] => true
  | e :: b => match cb with Some cb => cb (off a) num | None => true end && accepted cb num (a ++ [e]) b
  end.

Lemma lp_validate_spec lp a b num tail cb count fuel :
  layout lp (a ++ b) num tail -> (length b < fuel)%nat -> 0 <= count -> count + zlen b < 2 ^ 32 ->
  validate_loop fuel lp (zlen (chunks (a ++ b)) + 7) num cb (off a) count
  = Some (if accepted cb num a b then Some (off (a ++ b), count + zlen b) else None).
Proof.
  revert a count fuel. induction b as [|e b IH]; intros a count [|fuel] Hly Hf Hc Hb; cbn [length] in Hf; try lia;
    cbn [validate_loop accepted].
  { rewrite app_nil_r in *. rewrite (rd_eof _ _ _ _ Hly). mred. do 3 f_equal. cbn. lia. }
  rewrite length_cons in Hb. destruct (first_at _ _ _ _ _ _ Hly) as (c & -> & _ & Hne & _). mred.
  rw_false (c =? LP_EOF). rewrite (validate_at _ _ _ _ _ _ Hly). mred.
  assert (Hly' : layout lp ((a ++ [e]) ++ b) num tail) by by rewrite <- app_assoc.
  rewrite uwrap_id by (unfold in_u; lia).
  pose proof (IH (a ++ [e]) (count + 1) fuel Hly' ltac:(lia) ltac:(lia) ltac:(lia)) as H.
  rewrite <- !app_assoc in H. cbn [app] in H. rewrite H. rewrite length_cons.
  replace (count + 1 + zlen b) with (count + Z.of_nat (S (length b))) by lia.
  destruct cb as [cb|]; [destruct (cb (off a) num)|]; done.
Qed.

(** Validation accepts every well-formed listpack: with [deep] it accepts
    exactly when the caller's check accepts each of its entries, whose
    offsets it is given, and it stays inside the block. *)
Theorem lpValidateIntegrity_complete lp es size deep cb :
  rep lp es -> lpBytes lp = Some size ->
  exists num, lpGetNumElements lp = Some num /\
    lpValidateIntegrity lp size deep cb = Some (if deep then accepted cb num [] es else true).
Proof.
  intros (num & tail & Hly) Hsz. exists num.
  pose proof (layout_header _ _ _ _ Hly) as (Ht & Hn & _). unfold lpBytes in Hsz.
  split; [done|]. unfold lpValidateIntegrity. rewrite Hsz, Hn. rewrite Hsz in Ht. injection Ht as ->.
  unfold LP_HDR_SIZE. assert (0 <= zlen (chunks es)) by lia.
  rw_false (zlen (chunks es) + 7 <? 6 + 1). mred. rewrite Z.eqb_refl. cbn [negb].
  replace (zlen (chunks es) + 7 - 1) with (off es) by (unfold off, LP_HDR_SIZE; lia).
  rewrite (rd_eof _ _ _ _ Hly). mred. change (negb (LP_EOF =? LP_EOF)) with false. cbv iota.
  destruct deep; [|done]. cbn [negb]. pose proof (elems_fuel _ _ _ _ Hly).
  assert (Hes : zlen es < 2 ^ 32).
  { pose proof (ly_total _ _ _ _ Hly). pose proof (chunks_count es). lia. }
  pose proof (lp_validate_spec lp [] es num tail cb 0 (S (length lp)) Hly) as Hv.
  change (off []) with 6 in Hv. cbn [app] in Hv. rewrite Hv by lia. mred.
  destruct (accepted cb num [] es); [|done]. rewrite Z.eqb_refl. cbn [negb].
  destruct (ly_num _ _ _ _ Hly) as [-> |[-> _]]; [done|].
  rewrite Z.add_0_l, Z.eqb_refl. by rewrite andb_false_r.
Qed.

(** Validation also accepts a listpack whose backlen field is longer than
    its canonical form and is only readable because of the byte before it:
    after an element is prepended, the same entry no longer validates and
    [lpLast] fails its assertion. *)
Theorem lpValidateIntegrity_context :
  let lp := le_bytes 4 9 ++ le_bytes 2 1 ++ [128; 129] ++ [LP_EOF] in
  lpValidateIntegrity lp (zlen lp) true None = Some true /\
  exists lp', lpPrepend (fun n => n) (fun _ => 0) lp (str "a") = Some (Some (lp', Some LP_HDR_SIZE)) /\
    lpValidateIntegrity lp' (zlen lp') true None = Some false /\ lpLast lp' = None.
Proof.
  split; [by vm_compute|]. exists (le_bytes 4 12 ++ le_bytes 2 2 ++ [129; 97; 2] ++ [128; 129] ++ [LP_EOF]).
  split_and!; by vm_compute.
Qed.

(** ** Concrete instances *)

Definition lp_example : list Z :=
  [20; 0; 0; 0; 3; 0] ++ [133; 104; 101; 108; 108; 111; 6] ++ [241; 255; 239; 3] ++ [12; 1] ++ [255].
Definition es_example : list (list Z) := [[133; 104; 101; 108; 108; 111]; [241; 255; 239]; [12]].

Lemma lp_example_rep : rep lp_example es_example.
Proof.
  exists 3, []. split; [done|by vm_compute|by right|].
  repeat (constructor; [split; [repeat (constructor; [unfold byte_ok; lia|]); constructor|done|done]|]). constructor.
Qed.

Definition id_usable (n : Z) : Z := n.
Lemma id_usable_ok n : 0 <= n < 2 ^ 33 -> n <= id_usable n.
Proof. unfold id_usable. lia. Qed.

Lemma lpSeek_correct_witness : lpSeek lp_example (-1) = Some (Some 17).
Proof. apply (lpSeek_correct lp_example es_example (-1) lp_example_rep). Defined.

Lemma lpInsert_correct_witness :
  exists lp', lpInsert id_usable (fun _ => 7) lp_example (EleStr (str "-1")) 13 LP_AFTER
    = Some (Some (lp', Some 17)) /\ rep lp' (take 2 es_example ++ [[223; 255]] ++ drop 2 es_example).
Proof.
  apply (lpInsert_correct id_usable (fun _ => 7) id_usable_ok lp_example es_example (EleStr (str "-1"))
    LP_AFTER 13 (take 2 es_example) [] (drop 2 es_example) lp_example_rep).
  - split; [|by vm_compute]. repeat (constructor; [unfold byte_ok; cbn; lia|]). constructor.
  - apply (spot_after es_example (EleStr (str "-1")) (take 1 es_example) [241; 255; 239] (drop 2 es_example)); done.
Defined.

Lemma lpAppend_roundtrip_witness :
  exists lp' q, lpAppend id_usable (fun _ => 7) lp_example (str "77") = Some (Some (lp', Some q)) /\
    rep lp' (es_example ++ [[77]]) /\ lpSeek lp' (-1) = Some (Some q) /\
    lpGetString lp' q (replicate 21 0) = Some (str "77").
Proof.
  apply (lpAppend_roundtrip id_usable (fun _ => 7) id_usable_ok lp_example es_example (str "77")
    (replicate 21 0) lp_example_rep); [|by vm_compute..].
  repeat (constructor; [unfold byte_ok; cbn; lia|]). constructor.
Defined.

Lemma lpDeleteRange_correct_witness :
  exists lp', lpDeleteRange id_usable (fun _ => 7) lp_example (-2) 1 = Some lp' /\
    rep lp' [[133; 104; 101; 108; 108; 111]; [12]].
Proof. by apply (lpDeleteRange_correct id_usable (fun _ => 7) id_usable_ok lp_example es_example (-2) 1 lp_example_rep). Defined.

Lemma lpMerge_correct_witness :
  exists lp', lpMerge id_usable (fun _ => 7) lp_example lp_example = Some lp' /\
    rep lp' (es_example ++ es_example).
Proof.
  apply (lpMerge_correct id_usable (fun _ => 7) id_usable_ok lp_example es_example lp_example es_example
    lp_example_rep lp_example_rep).
Defined.

Lemma lpValidateIntegrity_complete_witness :
  exists num, lpGetNumElements lp_example = Some num /\
    lpValidateIntegrity lp_example 20 true None = Some (accepted None num [] es_example).
Proof. apply (lpValidateIntegrity_complete lp_example es_example 20 true None lp_example_rep). by vm_compute. Defined.

End Listpack.
