(* ===== verification/Lzf.v ===== *)
(** * LZF compression ([redis-stable/src/lzf_c.c], [lzf_d.c], [lzfP.h])

    The configuration is the one of the header: [HLOG] 16, [VERY_FAST], a hash
    table that is not initialised ([INIT_HTAB] 0) and holds pointers.  Pointers
    into the input are offsets from [in_data]; a slot of the table may hold any
    pointer at the start, so the initial table is an arbitrary function. *)

From S2P Require Import Prelude.

Module Lzf.

Definition HLOG : Z := 16.
Definition HSIZE : Z := Z.shiftl 1 HLOG.
Definition MAX_LIT : Z := Z.shiftl 1 5.
Definition MAX_OFF : Z := Z.shiftl 1 13.
Definition MAX_REF : Z := Z.shiftl 1 8 + Z.shiftl 1 3.

Section Compress.
(** The input, [in_len] being its length. *)
Context (s : list Z).

(** [hval] is an [unsigned int]. *)
Definition FRST (p : Z) : option Z :=
  a ← rd s p; b ← rd s (p + 1); Some (Z.lor (Z.shiftl a 8) b).
Definition NEXT (v p : Z) : option Z := c ← rd s (p + 2); Some (uwrap 32 (Z.lor (Z.shiftl v 8) c)).
Definition IDX (h : Z) : Z :=
  Z.land (uwrap 32 (Z.shiftr h (3 * 8 - HLOG) - uwrap 32 (h * 5))) (HSIZE - 1).

(** A slot holds a pointer, [None] being the null pointer. *)
Definition htab := Z -> option Z.
Definition set_slot (t : htab) (i p : Z) : htab := fun k => if k =? i then Some p else t k.

Record state := St {
  ip : Z;
  out : list Z;
  op : Z;
  lit : Z;
  hval : Z;
  table : htab
}.

(** [op[-lit-1] = lit - 1], stored into a byte. *)
Definition stop_run (o : list Z) (op lit : Z) : option (list Z) :=
  wrn o (op - lit - 1) [uwrap 8 (lit - 1)].

Definition not_lit (lit : Z) : Z := if lit =? 0 then 1 else 0.

(** [n] copies of [len++; if (ref[len] != ip[len]) break;]: whether the loop was
    left, and [len]. *)
Fixpoint unrolled (n : nat) (ref ip len : Z) : option (bool * Z) :=
  match n with
  | O => Some (false, len)
  | S n =>
    let len := len + 1 in
    a ← rd s (ref + len);
    b ← rd s (ip + len);
    if negb (a =? b) then Some (true, len) else unrolled n ref ip len
  end.

(** [do len++; while (len < maxlen && ref[len] == ip[len]);] *)
Fixpoint extend (fuel : nat) (ref ip len maxlen : Z) : option Z :=
  match fuel with
  | O => None
  | S fuel =>
    let len := len + 1 in
    if len <? maxlen then
      a ← rd s (ref + len);
      b ← rd s (ip + len);
      if a =? b then extend fuel ref ip len maxlen else Some len
    else Some len
  end.

Definition match_length (ref ip maxlen : Z) : option Z :=
  let len := 2 in
  '(broke, len) ← (if maxlen >? 16 then unrolled 16 ref ip len else Some (false, len));
  if (broke : bool) then Some len else extend (S (length s)) ref ip len maxlen.

(** The condition of the match, with the offset. *)
Definition candidate (ip : Z) (slot : option Z) : option (option (Z * Z)) :=
  match slot with
  | None => Some None
  | Some ref =>
    let off := uwrap 64 (ip - ref - 1) in
    if (off <? MAX_OFF) && (ref >? 0) then
      r2 ← rd s (ref + 2);
      i2 ← rd s (ip + 2);
      if negb (r2 =? i2) then Some None else
      r ← rdn s ref 2;
      i ← rdn s ip 2;
      if negb (le_val r =? le_val i) then Some None else Some (Some (ref, off))
    else Some None
  end.

(** What one iteration leads to: [return 0] with what the output holds, [break],
    or the next one. *)
Inductive step := Fail (o : list Z) | Break (st : state) | Cont (st : state).

(** The octets of a back reference: [*op++ = ...]. *)
Definition emit (o : list Z) (p off len : Z) : option (list Z * Z) :=
  '(o, p) ←
    (if len <? 7 then
       o ← wrn o p [uwrap 8 (Z.shiftr off 8 + Z.shiftl len 5)]; Some (o, p + 1)
     else
       o ← wrn o p [uwrap 8 (Z.shiftr off 8 + Z.shiftl 7 5)];
       o ← wrn o (p + 1) [uwrap 8 (len - 7)]; Some (o, p + 2));
  o ← wrn o p [uwrap 8 off];
  Some (o, p + 1).

(** From [lit = 0; op++] to the end of the iteration, [i] being the new [ip]. *)
Definition after_match (i : Z) (o : list Z) (p hv : Z) (t : htab) : option step :=
  let p := p + 1 in
  if i >=? zlen s - 2 then Some (Break (St i o p 0 hv t))
  else
    let i := i - 1 - 1 in
    hv ← FRST i;
    hv ← NEXT hv i;
    let t := set_slot t (IDX hv) i in
    let i := i + 1 in
    hv ← NEXT hv i;
    let t := set_slot t (IDX hv) i in
    let i := i + 1 in
    Some (Cont (St i o p 0 hv t)).

Definition take_match (out_len : Z) (st : state) (hv : Z) (t : htab) (ref off : Z) : option step :=
  let in_end := zlen s in
  let maxlen := in_end - ip st - 2 in
  let maxlen := if maxlen >? MAX_REF then MAX_REF else maxlen in
  if (op st + 3 + 1 >=? out_len) && (op st - not_lit (lit st) + 3 + 1 >=? out_len)
  then Some (Fail (out st))
  else
    o ← stop_run (out st) (op st) (lit st);
    let p := op st - not_lit (lit st) in
    len ← match_length ref (ip st) maxlen;
    let len := len - 2 in
    let i := ip st + 1 in
    '(o, p) ← emit o p off len;
    after_match (i + (len + 1)) o p hv t.

(** [lit++; *op++ = *ip++;] and the end of a full run. *)
Definition take_literal (st : state) (hv : Z) (t : htab) : option state :=
  c ← rd s (ip st);
  o ← wrn (out st) (op st) [c];
  let l := lit st + 1 in
  let p := op st + 1 in
  if l =? MAX_LIT then
    o ← stop_run o p l; Some (St (ip st + 1) o (p + 1) 0 hv t)
  else Some (St (ip st + 1) o p l hv t).

Definition body (out_len : Z) (st : state) : option step :=
  hv ← NEXT (hval st) (ip st);
  let slot := table st (IDX hv) in
  let t := set_slot (table st) (IDX hv) (ip st) in
  m ← candidate (ip st) slot;
  match m with
  | Some (ref, off) => take_match out_len st hv t ref off
  | None =>
    if op st >=? out_len then Some (Fail (out st))
    else st ← take_literal st hv t; Some (Cont st)
  end.

(** [inl] is [return 0]. *)
Fixpoint loop (fuel : nat) (out_len : Z) (st : state) : option (list Z + state) :=
  match fuel with
  | O => None
  | S fuel =>
    if ip st <? zlen s - 2 then
      r ← body out_len st;
      match r with
      | Fail o => Some (inl o)
      | Break st => Some (inr st)
      | Cont st => loop fuel out_len st
      end
    else Some (inr st)
  end.

(** [while (ip < in_end) ...] *)
Fixpoint tail_loop (fuel : nat) (st : state) : option state :=
  match fuel with
  | O => None
  | S fuel =>
    if ip st <? zlen s then
      st ← take_literal st (hval st) (table st); tail_loop fuel st
    else Some st
  end.

(** [out_data] is the buffer [buf]; the result is the buffer after the call and
    the return value. *)
Definition lzf_compress (buf : list Z) (t0 : htab) : option (list Z * Z) :=
  let in_len := zlen s in
  let out_len := zlen buf in
  if (in_len =? 0) || (out_len =? 0) then Some (buf, 0)
  else
    hv ← FRST 0;
    r ← loop (S (length s)) out_len (St 0 buf 1 0 hv t0);
    match r with
    | inl o => Some (o, 0)
    | inr st =>
      if op st + 3 >? out_len then Some (out st, 0)
      else
        st ← tail_loop (S (length s)) st;
        o ← stop_run (out st) (op st) (lit st);
        Some (o, op st - not_lit (lit st))
    end.

End Compress.

(** ** Decompression

    [out] is the whole output block, [op] the offset of the next octet. *)

(** The two values of [errno] that come with the return value 0. *)
Inductive errno := E2BIG | EINVAL.

(** [*op++ = *ref++], [n] times: octet by octet, the areas may overlap. *)
Fixpoint copy_ref (n : nat) (out : list Z) (op ref : Z) : option (list Z) :=
  match n with
  | O => Some out
  | S n =>
    c ← rd out ref;
    out ← wrn out op [c];
    copy_ref n out (op + 1) (ref + 1)
  end.

(** The [switch (len)] of a back reference. *)
Definition back_reference (out : list Z) (op ref len : Z) : option (list Z * Z) :=
  if (0 <=? len) && (len <=? 9) then
    out ← copy_ref (Z.to_nat (len + 2)) out op ref; Some (out, op + (len + 2))
  else
    let len := len + 2 in
    if op >=? ref + len then
      w ← rdn out ref len;
      out ← wrn out op w;
      Some (out, op + len)
    else
      out ← copy_ref (Z.to_nat len) out op ref; Some (out, op + len).

(** One pass of the loop after [ctrl = *ip++]: the error, or the new [ip], output
    and [op]. *)
Definition literal_run (d out : list Z) (p op ctrl : Z) : option (errno + Z * list Z * Z) :=
  let ctrl := ctrl + 1 in
  if op + ctrl >? zlen out then Some (inl E2BIG)
  else if p + ctrl >? zlen d then Some (inl EINVAL)
  else
    w ← rdn d p ctrl;
    out ← wrn out op w;
    Some (inr (p + ctrl, out, op + ctrl)).

Definition copy_back (d out : list Z) (p op len ref : Z) : option (errno + Z * list Z * Z) :=
  c ← rd d p;
  let p := p + 1 in
  let ref := ref - c in
  if op + len + 2 >? zlen out then Some (inl E2BIG)
  else if ref <? 0 then Some (inl EINVAL)
  else
    '(out, op) ← back_reference out op ref len;
    Some (inr (p, out, op)).

Definition back_ref_token (d out : list Z) (p op ctrl : Z) : option (errno + Z * list Z * Z) :=
  let len := Z.shiftr ctrl 5 in
  let ref := op - Z.shiftl (Z.land ctrl 31) 8 - 1 in
  if p >=? zlen d then Some (inl EINVAL)
  else if len =? 7 then
    c ← rd d p;
    let len := len + c in
    let p := p + 1 in
    if p >=? zlen d then Some (inl EINVAL) else copy_back d out p op len ref
  else copy_back d out p op len ref.

Definition token (d out : list Z) (p op : Z) : option (errno + Z * list Z * Z) :=
  ctrl ← rd d p;
  let p := p + 1 in
  if ctrl <? Z.shiftl 1 5 then literal_run d out p op ctrl
  else back_ref_token d out p op ctrl.

Fixpoint decompress_loop (fuel : nat) (d out : list Z) (p op : Z) : option (list Z * (errno + Z)) :=
  match fuel with
  | O => None
  | S fuel =>
    if p <? zlen d then
      r ← token d out p op;
      match r with
      | inl e => Some (out, inl e)
      | inr (p, out, op) => decompress_loop fuel d out p op
      end
    else Some (out, inr op)
  end.

(** [out_len] is the length of the block [out]; the result is the block after the
    call with the return value, [inl] being 0 with [errno] set. *)
Definition lzf_decompress (d out : list Z) : option (list Z * (errno + Z)) :=
  decompress_loop (S (length d)) d out 0 0.

(** ** The format, and that decompression reads it *)

(** [w] is what copying from distance [off + 1] behind the end of [acc] gives. *)
Definition copies (acc w : list Z) (off : nat) : Prop :=
  (off < length acc)%nat /\
  forall i, (i < length w)%nat ->
  (acc ++ w) !! (length acc + i)%nat = (acc ++ w) !! (length acc - off - 1 + i)%nat.

Definition literal_bytes (l : list Z) : list Z := (zlen l - 1) :: l.

Definition backref_bytes (off n : Z) : list Z :=
  let len := n - 2 in
  if len <? 7 then [off / 256 + len * 32; off mod 256]
  else [off / 256 + 224; len - 7; off mod 256].

(** [Enc d a]: [d] is a sequence of tokens that stands for [a]. *)
Inductive Enc : list Z -> list Z -> Prop :=
| Enc_nil : Enc [] []
| Enc_literal d a l :
  Enc d a -> 1 <= zlen l <= 32 -> Enc (d ++ literal_bytes l) (a ++ l)
| Enc_backref d a w off :
  Enc d a -> 0 <= off < MAX_OFF -> 3 <= zlen w <= MAX_REF ->
  copies a w (Z.to_nat off) -> Enc (d ++ backref_bytes off (zlen w)) (a ++ w).

Lemma copy_ref_spec w : forall acc junk off,
  copies acc w off -> (length w <= length junk)%nat ->
  copy_ref (length w) (acc ++ junk) (zlen acc) (zlen acc - Z.of_nat off - 1) =
  Some (acc ++ w ++ drop (length w) junk).
Proof.
  induction w as [|x w IH]; intros acc junk off [Hoff Hc] Hj; [done|].
  destruct junk as [|j junk]; [simpl in Hj; lia|].
  assert (Hx : rd (acc ++ j :: junk) (zlen acc - Z.of_nat off - 1) = Some x).
  { rewrite rd_lookup by lia.
    specialize (Hc 0%nat ltac:(simpl; lia)). rewrite Nat.add_0_r in Hc.
    rewrite lookup_app_r in Hc by lia. rewrite Nat.sub_diag in Hc. simpl in Hc.
    rewrite lookup_app_l in Hc by lia. rewrite Hc, lookup_app_l by lia. f_equal. lia. }
  cbn [copy_ref length]. rewrite Hx. mred.
  rewrite (wrn_app acc [j] junk [x]) by done. mred.
  rewrite (app_assoc acc [x] junk).
  replace (zlen acc + 1) with (zlen (acc ++ [x])) by (rewrite length_app; simpl; lia).
  replace (zlen acc - Z.of_nat off - 1 + 1) with (zlen (acc ++ [x]) - Z.of_nat off - 1)
    by (rewrite length_app; simpl; lia).
  rewrite IH; [by rewrite <- !app_assoc| |simpl in Hj; lia].
  split; [rewrite length_app; simpl; lia|]. intros i Hi.
  specialize (Hc (S i) ltac:(simpl; lia)).
  rewrite length_app, <- !app_assoc. simpl.
  replace (length acc + 1 + i)%nat with (length acc + S i)%nat by lia.
  replace (length acc + 1 - off - 1 + i)%nat with (length acc - off - 1 + S i)%nat by lia. done.
Qed.

(** The two areas of a copy are disjoint: [memcpy] copies the same octets. *)
Lemma memcpy_spec acc junk w off :
  copies acc w off -> (length w <= off + 1)%nat ->
  rdn (acc ++ junk) (zlen acc - Z.of_nat off - 1) (zlen w) = Some w.
Proof.
  intros [Hoff Hc] Hw. apply rdn_Some. rewrite length_app. split_and!; try lia.
  apply list_eq. intros i. destruct (decide (i < length w)%nat) as [Hi|Hi].
  - rewrite lookup_take_lt by lia. rewrite lookup_drop, lookup_app_l by lia.
    specialize (Hc i Hi). rewrite lookup_app_r in Hc by lia.
    replace (length acc + i - length acc)%nat with i in Hc by lia.
    rewrite Hc, lookup_app_l by lia. f_equal. lia.
  - rewrite !lookup_ge_None_2; [done| |lia]. rewrite length_take. lia.
Qed.

Lemma back_reference_spec acc junk w off :
  copies acc w off -> 2 <= zlen w -> (length w <= length junk)%nat ->
  back_reference (acc ++ junk) (zlen acc) (zlen acc - Z.of_nat off - 1) (zlen w - 2) =
  Some (acc ++ w ++ drop (length w) junk, zlen (acc ++ w)).
Proof.
  intros Hc Hw Hj. unfold back_reference. cbv zeta. rewrite length_app, Nat2Z.inj_add.
  replace (zlen w - 2 + 2) with (zlen w) by lia. rewrite Nat2Z.id.
  pose proof (copy_ref_spec w acc junk off Hc Hj) as Hcp.
  destruct ((0 <=? zlen w - 2) && (zlen w - 2 <=? 9)); [by rewrite Hcp|].
  rewrite Z.geb_leb. destruct (Z.leb_spec (zlen acc - Z.of_nat off - 1 + zlen w) (zlen acc)).
  - rewrite (memcpy_spec _ _ _ _ Hc) by lia. mred.
    rewrite <- (take_drop (length w) junk) at 1.
    rewrite wrn_app; [done|done|rewrite length_take; lia].
  - by rewrite Hcp.
Qed.

Lemma token_literal d a l r junk :
  1 <= zlen l <= 32 -> (length l <= length junk)%nat ->
  token (d ++ literal_bytes l ++ r) (a ++ junk) (zlen d) (zlen a) =
  Some (inr (zlen (d ++ literal_bytes l), a ++ l ++ drop (length l) junk, zlen (a ++ l))).
Proof.
  intros Hl Hj. unfold token, literal_bytes. rewrite rd_app_r by done. simpl. mred.
  rewrite (proj2 (Z.ltb_lt _ _)) by (change (Z.shiftl 1 5) with 32; lia).
  unfold literal_run. replace (zlen l - 1 + 1) with (zlen l) by lia.
  rewrite !length_app. cbn [length]. rewrite !length_app.
  rewrite !Z.gtb_ltb, !(proj2 (Z.ltb_ge _ _)) by lia.
  change (d ++ zlen l - 1 :: l ++ r) with (d ++ [zlen l - 1] ++ l ++ r).
  rewrite (app_assoc d).
  rewrite (rdn_app (d ++ [zlen l - 1]) l r) by (rewrite ?length_app; simpl; lia). mred.
  rewrite <- (take_drop (length l) junk) at 1.
  rewrite (wrn_app a (take (length l) junk)) by (rewrite ?length_take; lia). mred.
  do 3 f_equal; [f_equal|]; lia.
Qed.

(** The fields of the first octet of a back reference. *)
Lemma ctrl_fields hi len :
  0 <= hi < 32 -> 0 <= len ->
  Z.shiftr (hi + len * 32) 5 = len /\ Z.land (hi + len * 32) 31 = hi.
Proof.
  intros Hh Hl. rewrite Z.shiftr_div_pow2 by lia.
  rewrite (land_ones_mod _ 5 31) by lia. change (2 ^ 5) with 32. split; dlia.
Qed.

Lemma copy_back_spec d a w off r junk c :
  copies a w (Z.to_nat off) -> 0 <= off -> 2 <= zlen w ->
  (length w <= length junk)%nat -> c = off mod 256 ->
  copy_back (d ++ c :: r) (a ++ junk) (zlen d) (zlen a) (zlen w - 2)
    (zlen a - Z.shiftl (off / 256) 8 - 1) =
  Some (inr (zlen d + 1, a ++ w ++ drop (length w) junk, zlen (a ++ w))).
Proof.
  intros Hc Ho Hw Hj ->. unfold copy_back. rewrite rd_app_r by done. cbn [head]. mred.
  rewrite Z.shiftl_mul_pow2 by lia. change (2 ^ 8) with 256.
  replace (zlen a - off / 256 * 256 - 1 - off mod 256) with (zlen a - Z.of_nat (Z.to_nat off) - 1)
    by (pose proof (Z.div_mod off 256 ltac:(lia)); lia).
  destruct (Hc) as [Hoff _].
  rewrite length_app, Z.gtb_ltb, (proj2 (Z.ltb_ge _ _)) by lia.
  rewrite (proj2 (Z.ltb_ge _ _)) by lia.
  rewrite back_reference_spec by done. done.
Qed.

Lemma token_backref d a w off r junk :
  0 <= off < MAX_OFF -> 3 <= zlen w <= MAX_REF -> copies a w (Z.to_nat off) ->
  (length w <= length junk)%nat ->
  let tok := backref_bytes off (zlen w) in
  token (d ++ tok ++ r) (a ++ junk) (zlen d) (zlen a) =
  Some (inr (zlen (d ++ tok), a ++ w ++ drop (length w) junk, zlen (a ++ w))).
Proof.
  intros Ho Hw Hc Hj. change MAX_OFF with 8192 in Ho. change MAX_REF with 264 in Hw.
  assert (Hhi : 0 <= off / 256 < 32) by dlia.
  unfold backref_bytes, token. cbv zeta. destruct (Z.ltb_spec (zlen w - 2) 7).
  - destruct (ctrl_fields (off / 256) (zlen w - 2)) as [Hsh Hla]; [lia|lia|].
    rewrite rd_app_r by done. cbn [app head]. mred.
    rewrite (proj2 (Z.ltb_ge _ _)) by (change (Z.shiftl 1 5) with 32; lia).
    unfold back_ref_token. rewrite Hsh, Hla, length_app, Z.geb_leb. cbn [length].
    rewrite (proj2 (Z.leb_gt _ _)) by lia. rewrite (proj2 (Z.eqb_neq _ _)) by lia.
    rewrite (cons_middle (off / 256 + (zlen w - 2) * 32) d), app_assoc.
    replace (zlen d + 1) with (zlen (d ++ [off / 256 + (zlen w - 2) * 32]))
      by (rewrite length_app; simpl; lia).
    rewrite (copy_back_spec _ a w off) by (done || lia).
    rewrite !length_app. simpl. do 4 f_equal. lia.
  - destruct (ctrl_fields (off / 256) 7) as [Hsh Hla]; [lia|lia|]. change (7 * 32) with 224 in *.
    rewrite rd_app_r by done. cbn [app head]. mred.
    rewrite (proj2 (Z.ltb_ge _ _)) by (change (Z.shiftl 1 5) with 32; lia).
    unfold back_ref_token. rewrite Hsh, Hla, length_app, !Z.geb_leb. cbn [length].
    rewrite (proj2 (Z.leb_gt _ _)) by lia. rewrite Z.eqb_refl.
    rewrite (cons_middle (off / 256 + 224) d), app_assoc.
    replace (zlen d + 1) with (zlen (d ++ [off / 256 + 224])) by (rewrite length_app; simpl; lia).
    rewrite rd_app_r by done. cbn [head]. mred.
    rewrite (proj2 (Z.leb_gt _ _)) by (rewrite length_app; simpl; lia).
    rewrite (cons_middle (zlen w - 2 - 7)), app_assoc.
    match goal with |- copy_back (?e ++ _) _ ?p _ _ _ = _ =>
      replace p with (zlen e) by (rewrite !length_app; simpl; lia) end.
    replace (7 + (zlen w - 2 - 7)) with (zlen w - 2) by lia.
    rewrite (copy_back_spec _ a w off) by (done || lia).
    rewrite !length_app. simpl. do 4 f_equal. lia.
Qed.

(** Reading a sequence of tokens at the front of the input. *)
Lemma decompress_tokens d a :
  Enc d a -> forall r out, zlen a <= zlen out -> exists k, (k <= length d)%nat /\
  forall fuel, decompress_loop (k + fuel) (d ++ r) out 0 0 =
    decompress_loop fuel (d ++ r) (a ++ drop (length a) out) (zlen d) (zlen a).
Proof.
  induction 1 as [|d a l He IH Hl|d a w off He IH Ho Hw Hc]; intros r out Hout.
  - by exists 0%nat.
  - rewrite length_app in Hout. rewrite <- app_assoc.
    destruct (IH (literal_bytes l ++ r) out) as (k & Hk & Hrun); [lia|].
    exists (k + 1)%nat. split; [rewrite length_app; simpl; lia|]. intros fuel.
    rewrite <- Nat.add_assoc, Hrun. cbn [Nat.add decompress_loop].
    rewrite (proj2 (Z.ltb_lt _ _)) by (rewrite length_app; simpl; lia).
    rewrite token_literal by (try rewrite length_drop; lia). mred.
    rewrite !length_app, drop_drop, <- app_assoc. done.
  - rewrite length_app in Hout. rewrite <- app_assoc.
    set (tok := backref_bytes off (zlen w)) in *.
    assert (Htok : (1 <= length tok)%nat)
      by (unfold tok, backref_bytes; destruct (_ <? _); simpl; lia).
    destruct (IH (tok ++ r) out) as (k & Hk & Hrun); [lia|].
    exists (k + 1)%nat. split; [rewrite length_app; lia|]. intros fuel.
    rewrite <- Nat.add_assoc, Hrun. cbn [Nat.add decompress_loop].
    rewrite (proj2 (Z.ltb_lt _ _)) by (rewrite !length_app; lia).
    unfold tok. rewrite token_backref by (try rewrite length_drop; (done || lia)). mred.
    rewrite !length_app, drop_drop, <- app_assoc. done.
Qed.

Lemma decompress_enc d a out :
  Enc d a -> zlen a <= zlen out ->
  lzf_decompress d out = Some (a ++ drop (length a) out, inr (zlen a)).
Proof.
  intros He Hout. destruct (decompress_tokens d a He [] out Hout) as (k & Hk & Hrun).
  unfold lzf_decompress. rewrite app_nil_r in Hrun.
  replace (S (length d)) with (k + S (length d - k))%nat by lia. rewrite Hrun. simpl.
  by rewrite Z.ltb_irrefl.
Qed.

(** ** Compression writes the format *)

Section CompressProofs.
Context (s : list Z) (Hs : bytes_ok s) (Hlen : zlen s < 2 ^ 62).

Definition equal_upto (ref ip len : Z) : Prop :=
  forall i, 0 <= i < len -> rd s (ref + i) = rd s (ip + i).

Lemma rd_in i : 0 <= i < zlen s -> exists b, rd s i = Some b /\ byte_ok b.
Proof.
  intros Hi. rewrite rd_lookup by lia.
  destruct (lookup_lt_is_Some_2 s (Z.to_nat i)) as [b Hb]; [lia|].
  exists b. split; [done|]. by eapply Forall_lookup_1 in Hb.
Qed.

Lemma equal_upto_succ ref ip len b :
  equal_upto ref ip len -> rd s (ref + len) = Some b -> rd s (ip + len) = Some b ->
  equal_upto ref ip (len + 1).
Proof.
  intros He Hr Hi i Hb. destruct (decide (i = len)) as [->|]; [congruence|]. apply He. lia.
Qed.

Lemma unrolled_spec n : forall ref ip len,
  0 <= ref < ip -> 0 <= len -> ip + len + Z.of_nat n < zlen s ->
  equal_upto ref ip (len + 1) ->
  exists b len', unrolled s n ref ip len = Some (b, len') /\ equal_upto ref ip len' /\
    len' <= len + Z.of_nat n /\
    if b : bool then len < len' else len' = len + Z.of_nat n /\ equal_upto ref ip (len' + 1).
Proof.
  induction n as [|n IH]; intros ref ip len Hr Hl Hn He.
  - exists false, len. split_and!; try done; try lia. intros i Hi. apply He. lia.
  - cbn [unrolled].
    destruct (rd_in (ref + (len + 1))) as (a & Ha & _); [lia|].
    destruct (rd_in (ip + (len + 1))) as (b & Hb & _); [lia|].
    rewrite Ha, Hb. mred. destruct (Z.eqb_spec a b) as [->|Hne]; cbn [negb].
    + destruct (IH ref ip (len + 1)) as (f & len' & -> & He' & Hle & Hf); try lia.
      { by apply (equal_upto_succ _ _ _ b). }
      exists f, len'. split_and!; try done; try lia. destruct f; [lia|].
      destruct Hf. split; [lia|done].
    + exists true, (len + 1). split_and!; try done; lia.
Qed.

Lemma extend_spec fuel : forall ref ip len maxlen,
  0 <= ref < ip -> 0 <= len -> ip + maxlen <= zlen s -> maxlen - len <= Z.of_nat fuel ->
  (0 < fuel)%nat -> equal_upto ref ip (len + 1) ->
  exists len', extend s fuel ref ip len maxlen = Some len' /\ equal_upto ref ip len' /\
    len < len' <= Z.max (len + 1) maxlen.
Proof.
  induction fuel as [|fuel IH]; intros ref ip len maxlen Hr Hl Hm Hf Hp He; [lia|].
  cbn [extend]. destruct (Z.ltb_spec (len + 1) maxlen).
  - destruct (rd_in (ref + (len + 1))) as (a & Ha & _); [lia|].
    destruct (rd_in (ip + (len + 1))) as (b & Hb & _); [lia|].
    rewrite Ha, Hb. mred. destruct (Z.eqb_spec a b) as [->|Hne].
    + destruct (IH ref ip (len + 1) maxlen) as (len' & -> & He' & Hle); try lia.
      { by apply (equal_upto_succ _ _ _ b). }
      exists len'. split_and!; try done; lia.
    + exists (len + 1). split_and!; try done; lia.
  - exists (len + 1). split_and!; try done; lia.
Qed.

Lemma match_length_spec ref ip maxlen :
  0 <= ref < ip -> ip + 3 <= zlen s -> ip + maxlen + 2 <= zlen s -> maxlen <= MAX_REF ->
  equal_upto ref ip 3 ->
  exists len, match_length s ref ip maxlen = Some len /\ equal_upto ref ip len /\
    3 <= len <= MAX_REF /\ ip + len <= zlen s.
Proof.
  intros Hr Hi Hm Hmax He. unfold match_length. cbv zeta. change MAX_REF with 264 in *.
  rewrite Z.gtb_ltb. destruct (Z.ltb_spec 16 maxlen).
  - destruct (unrolled_spec 16 ref ip 2) as (b & len & -> & Hq & Hle & Hb); [lia..|done|].
    mred. destruct b; [exists len; split_and!; (done || lia)|]. destruct Hb as [-> Hq'].
    destruct (extend_spec (S (length s)) ref ip (2 + Z.of_nat 16) maxlen)
      as (len & -> & ? & ?); [lia..|done|]. exists len. split_and!; (done || lia).
  - mred. destruct (extend_spec (S (length s)) ref ip 2 maxlen)
      as (len & -> & ? & ?); [lia..|done|]. exists len. split_and!; (done || lia).
Qed.

(** A pointer that the table may hold, as a distance from [in_data]. *)
Definition pointer_ok (slot : option Z) : Prop :=
  forall r, slot = Some r -> - 2 ^ 62 <= r < 2 ^ 62.

Lemma rdn2 i : 0 <= i -> i + 2 <= zlen s ->
  exists a b, rd s i = Some a /\ rd s (i + 1) = Some b /\ rdn s i 2 = Some [a; b] /\
    byte_ok a /\ byte_ok b.
Proof.
  intros Hi Hn. destruct (rd_in i) as (a & Ha & Hba); [lia|].
  destruct (rd_in (i + 1)) as (b & Hb & Hbb); [lia|].
  exists a, b. split_and!; try done. apply rdn_Some. split_and!; try lia.
  rewrite rd_lookup in Ha, Hb by lia. rewrite Z2Nat.inj_add in Hb by lia.
  rewrite (drop_S s a) by done.
  rewrite (drop_S s b) by (by rewrite Nat.add_1_r in Hb). done.
Qed.

Lemma candidate_spec ip slot :
  0 <= ip -> ip + 3 <= zlen s -> pointer_ok slot ->
  exists m, candidate s ip slot = Some m /\
    forall ref off, m = Some (ref, off) ->
      off = ip - ref - 1 /\ 0 <= off < MAX_OFF /\ 0 < ref /\ equal_upto ref ip 3.
Proof.
  intros Hi Hn Hp. destruct slot as [ref|]; [|by exists None]. cbn [candidate]. cbv zeta.
  specialize (Hp ref eq_refl). change (2 ^ 62) with 4611686018427387904 in *.
  destruct ((uwrap 64 (ip - ref - 1) <? MAX_OFF) && (ref >? 0)) eqn:Hg; [|by exists None].
  apply andb_true_iff in Hg as [Ho Hr]. rewrite Z.gtb_ltb in Hr.
  apply Z.ltb_lt in Ho, Hr. change MAX_OFF with 8192 in *.
  assert (Hoff : 0 <= ip - ref - 1 < 8192).
  { unfold uwrap in Ho. change (2 ^ 64) with 18446744073709551616 in Ho.
    destruct (decide (ip - ref - 1 < 0)); [|rewrite Z.mod_small in Ho by lia; lia].
    rewrite <- (Z_mod_plus_full _ 1), Z.mod_small in Ho by lia. lia. }
  rewrite uwrap_id by (unfold in_u; lia).
  destruct (rd_in (ref + 2)) as (r2 & Hr2 & _); [lia|].
  destruct (rd_in (ip + 2)) as (i2 & Hi2 & _); [lia|].
  rewrite Hr2, Hi2. mred. destruct (Z.eqb_spec r2 i2) as [->|]; [|by exists None]. cbn [negb].
  destruct (rdn2 ref) as (a & b & Ha & Hb & -> & Hba & Hbb); [lia..|].
  destruct (rdn2 ip) as (a' & b' & Ha' & Hb' & -> & Hba' & Hbb'); [lia..|].
  mred. destruct (Z.eqb_spec (le_val [a; b]) (le_val [a'; b'])) as [Hv|]; [|by exists None].
  unfold byte_ok in *. cbn [le_val negb] in *. eexists. split; [done|]. intros ? ? [= <- <-].
  split_and!; try done; try lia. intros i Hb3.
  assert (a = a' /\ b = b') as [<- <-] by lia.
  assert (i = 0 \/ i = 1 \/ i = 2) as [->|[->| ->]] by lia; rewrite ?Z.add_0_r; congruence.
Qed.

(** Equal octets from a match are what the back reference copies. *)
Lemma equal_upto_copies ref ip len :
  0 <= ref < ip -> 0 <= len -> ip + len <= zlen s -> equal_upto ref ip len ->
  copies (take (Z.to_nat ip) s) (take (Z.to_nat len) (drop (Z.to_nat ip) s))
    (Z.to_nat (ip - ref - 1)).
Proof.
  intros Hr Hl Hn He. split; [rewrite length_take; lia|]. intros i.
  rewrite length_take, length_drop, length_take. intros Hi.
  rewrite take_take_drop. rewrite !lookup_take_lt by lia.
  specialize (He (Z.of_nat i) ltac:(lia)). rewrite !rd_lookup in He by lia.
  etrans; [|etrans; [symmetry; exact He|]]; f_equal; lia.
Qed.

Context (n : Z).

(** What holds between two iterations: the output is the tokens of [a], the octet
    that will head the run, the run [lits] of literals, and the rest of the block;
    [a] and [lits] are the input up to [ip].  At the very end of the block there may
    be no octet left for the head of a new run. *)
Definition inv (st : state) : Prop :=
  exists done a gap lits rest,
    out st = done ++ gap ++ lits ++ rest /\ Enc done a /\
    take (Z.to_nat (ip st)) s = a ++ lits /\
    (length gap = 1%nat \/ gap = [] /\ lits = [] /\ rest = []) /\
    zlen (out st) = n /\ 0 <= ip st <= zlen s /\
    zlen lits = lit st /\ lit st < 32 /\ op st = zlen done + 1 + lit st /\
    32 * (op st - 1) <= 33 * ip st - lit st /\
    forall k, pointer_ok (table st k).

Lemma emit_spec d rest off m :
  0 <= off < MAX_OFF -> 3 <= m <= MAX_REF -> (3 <= length rest)%nat ->
  let tok := backref_bytes off m in
  emit (d ++ rest) (zlen d) off (m - 2) =
  Some (d ++ tok ++ drop (length tok) rest, zlen (d ++ tok)).
Proof.
  intros Ho Hm Hr. change MAX_OFF with 8192 in Ho. change MAX_REF with 264 in Hm.
  destruct rest as [|x [|y [|z rest]]]; try (simpl in Hr; lia).
  unfold emit, backref_bytes. cbv zeta.
  rewrite Z.shiftr_div_pow2, !Z.shiftl_mul_pow2 by lia.
  change (2 ^ 8) with 256. change (2 ^ 5) with 32.
  assert (Hhi : 0 <= off / 256 < 32) by dlia.
  change (uwrap 8 off) with (off mod 256).
  destruct (Z.ltb_spec (m - 2) 7).
  - rewrite uwrap_id by (unfold in_u; lia).
    rewrite (wrn_app d [x] (y :: z :: rest)) by done. mred. rewrite app_assoc.
    rewrite (wrn_app _ [y] (z :: rest)) by (rewrite ?length_app; simpl; lia). mred.
    rewrite <- !app_assoc, ?length_app. simpl. do 2 f_equal. rewrite ?length_app; simpl; lia.
  - rewrite !uwrap_id by (unfold in_u; lia).
    rewrite (wrn_app d [x] (y :: z :: rest)) by done. mred. rewrite app_assoc.
    rewrite (wrn_app _ [y] (z :: rest)) by (rewrite ?length_app; simpl; lia). mred.
    rewrite app_assoc.
    rewrite (wrn_app _ [z] rest) by (rewrite ?length_app; simpl; lia). mred.
    rewrite <- !app_assoc, ?length_app. simpl. do 2 f_equal. rewrite ?length_app; simpl; lia.
Qed.

Lemma stop_run_spec st :
  inv st -> op st - lit st <= n ->
  exists done rest, stop_run (out st) (op st) (lit st) = Some (done ++ rest) /\
    Enc done (take (Z.to_nat (ip st)) s) /\ zlen done = op st - not_lit (lit st) /\
    zlen (done ++ rest) = n.
Proof.
  intros (d & a & gap & lits & rest & Ho & He & Ht & Hg & Hn & Hi & Hl & H32 & Hp & _) Hroom.
  assert (length gap = 1%nat) as Hgap.
  { destruct Hg as [|(-> & -> & ->)]; [done|]. rewrite Ho in Hn. rewrite !length_app in Hn.
    simpl in *. lia. }
  unfold stop_run, not_lit. rewrite Ho, Ht in *. rewrite !length_app in Hn.
  rewrite (wrn_app d gap) by (try done; lia).
  destruct (Z.eqb_spec (lit st) 0) as [H0|H0].
  - destruct lits; [|simpl in Hl; lia]. exists d, (uwrap 8 (lit st - 1) :: rest).
    rewrite app_nil_r, length_app. simpl in *. split_and!; try done; lia.
  - exists (d ++ literal_bytes lits), rest. rewrite uwrap_id by (unfold in_u; lia).
    unfold literal_bytes. rewrite Hl, <- app_assoc. split_and!; try done.
    + pose proof (Enc_literal d a lits He ltac:(lia)) as Hlit.
      unfold literal_bytes in Hlit. by rewrite Hl in Hlit.
    + rewrite length_app. simpl. lia.
    + simplify_list_eq. rewrite !length_app in *. simpl in *. rewrite ?length_app in *. lia.
Qed.

Lemma set_slot_ok t i r :
  (forall k, pointer_ok (t k)) -> 0 <= r <= zlen s -> forall k, pointer_ok (set_slot t i r k).
Proof.
  intros Ht Hr k. unfold set_slot. destruct (k =? i); [|done]. intros ? [= <-]. lia.
Qed.

Lemma NEXT_ok hv p : 0 <= p -> p + 3 <= zlen s -> exists h, NEXT s hv p = Some h.
Proof.
  intros. unfold NEXT. destruct (rd_in (p + 2)) as (c & -> & _); [lia|]. eauto.
Qed.

Lemma FRST_ok p : 0 <= p -> p + 2 <= zlen s -> exists h, FRST s p = Some h.
Proof.
  intros. unfold FRST. destruct (rd_in p) as (a & -> & _); [lia|].
  destruct (rd_in (p + 1)) as (b & -> & _); [lia|]. mred. eauto.
Qed.

Lemma after_match_spec i o p hv t d rest :
  o = d ++ rest -> zlen o = n -> Enc d (take (Z.to_nat i) s) -> zlen d = p ->
  (0 < length rest)%nat -> 3 <= i <= zlen s -> 32 * p <= 33 * i ->
  (forall k, pointer_ok (t k)) ->
  exists r, after_match s i o p hv t = Some r /\
    match r with
    | Fail _ => False
    | Break st => inv st /\ zlen s - 2 <= ip st
    | Cont st => inv st /\ ip st = i
    end.
Proof.
  intros Ho Hn He Hp Hr Hi Hb Ht. unfold after_match. cbv zeta.
  assert (Hinv : forall j h t', j = i -> (forall k, pointer_ok (t' k)) ->
    inv (St j o (p + 1) 0 h t')).
  { intros j h t' -> Ht'. destruct rest as [|x rest]; [simpl in Hr; lia|].
    exists d, (take (Z.to_nat i) s), [x], [], rest. cbn [ip out op lit table].
    rewrite app_nil_r. split_and!; try done; try lia. by left. }
  rewrite Z.geb_leb. destruct (Z.leb_spec (zlen s - 2) i).
  - eexists. split; [done|]. split; [by apply Hinv|done].
  - destruct (FRST_ok (i - 1 - 1)) as [h1 ->]; [lia..|]. mred.
    destruct (NEXT_ok h1 (i - 1 - 1)) as [h2 ->]; [lia..|]. mred.
    destruct (NEXT_ok h2 (i - 1 - 1 + 1)) as [h3 ->]; [lia..|]. mred.
    eexists. split; [done|]. split; [|cbn [ip]; lia].
    apply Hinv; [lia|]. repeat (apply set_slot_ok; [|lia]). done.
Qed.

(** The back reference of a match of [len] octets, after the run was closed. *)
Lemma emit_match_spec i d rest ref off len hv t :
  Enc d (take (Z.to_nat i) s) -> zlen (d ++ rest) = n -> (4 <= length rest)%nat ->
  off = i - ref - 1 -> 0 <= off < MAX_OFF -> 0 < ref -> 3 <= len <= MAX_REF ->
  i + len <= zlen s -> equal_upto ref i len -> 32 * zlen d <= 33 * i + 32 ->
  (forall k, pointer_ok (t k)) ->
  exists r,
    ('(o, p) ← emit (d ++ rest) (zlen d) off (len - 2);
     after_match s (i + 1 + (len - 2 + 1)) o p hv t) = Some r /\
    match r with
    | Fail _ => False
    | Break st => inv st /\ zlen s - 2 <= ip st
    | Cont st => inv st /\ ip st = i + len
    end.
Proof.
  intros Hd Hn Hr Hoff Ho Href Hlr Hle Heq Hb Ht.
  rewrite emit_spec by (done || lia). mred. rewrite length_app in Hn.
  set (w := take (Z.to_nat len) (drop (Z.to_nat i) s)).
  assert (Hw : zlen w = len) by (unfold w; rewrite length_take, length_drop; lia).
  set (tok := backref_bytes off len).
  assert (Htok : (length tok = 2 \/ length tok = 3 /\ 9 <= Z.to_nat len)%nat)
    by (unfold tok, backref_bytes; destruct (Z.ltb_spec (len - 2) 7); simpl; lia).
  replace (i + 1 + (len - 2 + 1)) with (i + len) by lia.
  apply (after_match_spec _ _ _ hv t (d ++ tok) (drop (length tok) rest)); try done; try lia.
  - by rewrite <- app_assoc.
  - rewrite !length_app, length_drop. lia.
  - unfold tok. rewrite <- Hw at 1.
    replace (take (Z.to_nat (i + len)) s) with (take (Z.to_nat i) s ++ w)
      by (unfold w; rewrite take_take_drop; f_equal; lia).
    apply Enc_backref; [done|lia|lia|]. rewrite Hoff. apply equal_upto_copies; (done || lia).
  - rewrite length_drop. lia.
  - rewrite length_app. lia.
Qed.

Definition step_ok (i : Z) (r : step) : Prop :=
  match r with
  | Fail o => zlen o = n /\ 32 * n < 33 * zlen s + 128
  | Break st => inv st /\ zlen s - 2 <= ip st
  | Cont st => inv st /\ i < ip st
  end.

Lemma take_match_spec st hv t ref off :
  inv st -> ip st + 3 <= zlen s -> off = ip st - ref - 1 -> 0 <= off < MAX_OFF -> 0 < ref ->
  equal_upto ref (ip st) 3 -> (forall k, pointer_ok (t k)) ->
  exists r, take_match s n st hv t ref off = Some r /\ step_ok (ip st) r.
Proof.
  intros Hinv Hi3 Hoff Ho Href He Ht. unfold take_match. cbv zeta.
  pose proof Hinv as (d0 & a & gap & lits & rest0 & _ & _ & _ & _ & Hn & Hi & Hl & H32 & Hp & Hb & _).
  set (maxlen := if zlen s - ip st - 2 >? MAX_REF then MAX_REF else zlen s - ip st - 2).
  assert (Hmax : maxlen <= MAX_REF /\ maxlen <= zlen s - ip st - 2)
    by (unfold maxlen; rewrite Z.gtb_ltb; destruct (Z.ltb_spec MAX_REF (zlen s - ip st - 2)); lia).
  assert (Hnl : 0 <= not_lit (lit st) <= 1 /\ (lit st = 0 -> not_lit (lit st) = 1) /\
    (lit st <> 0 -> not_lit (lit st) = 0))
    by (unfold not_lit; destruct (Z.eqb_spec (lit st) 0); lia).
  rewrite !Z.geb_leb.
  destruct ((n <=? op st + 3 + 1) && (n <=? op st - not_lit (lit st) + 3 + 1)) eqn:Hg.
  { exists (Fail (out st)). split; [done|]. split; [done|]. lia. }
  assert (Hroom : op st - not_lit (lit st) + 4 < n)
    by (apply andb_false_iff in Hg; rewrite !Z.leb_gt in Hg; lia).
  destruct (stop_run_spec st Hinv) as (d & rest & -> & Hd & Hdl & Hdn); [lia|]. mred.
  destruct (match_length_spec ref (ip st) maxlen) as (len & -> & Heq & Hlr & Hle); [lia..|done|].
  mred. rewrite <- Hdl.
  destruct (emit_match_spec (ip st) d rest ref off len hv t) as (r & -> & Hr); try done; try lia.
  { rewrite length_app in Hdn. lia. }
  exists r. split; [done|]. destruct r; simpl in *; [done..|]. destruct Hr. split; [done|lia].
Qed.

Lemma take_next i c a lits :
  take (Z.to_nat i) s = a ++ lits -> rd s i = Some c -> 0 <= i ->
  take (Z.to_nat (i + 1)) s = a ++ lits ++ [c].
Proof.
  intros Ht Hc Hi. rewrite rd_lookup in Hc by lia. rewrite Z2Nat.inj_add by lia.
  rewrite Nat.add_1_r, (take_S_r _ _ c), Ht by done. by rewrite app_assoc.
Qed.

Lemma inv_literal o hv t d a gap lits rest i c :
  o = d ++ gap ++ (lits ++ [c]) ++ rest -> Enc d a -> length gap = 1%nat -> zlen o = n ->
  take (Z.to_nat i) s = a ++ lits -> rd s i = Some c -> 0 <= i < zlen s ->
  zlen lits + 1 < 32 -> 32 * (zlen d + zlen lits) <= 33 * i - zlen lits ->
  (forall k, pointer_ok (t k)) ->
  inv (St (i + 1) o (zlen d + 1 + zlen lits + 1) (zlen lits + 1) hv t).
Proof.
  intros Ho He Hg Hn Ht Hc Hi H32 Hb Hk. exists d, a, gap, (lits ++ [c]), rest.
  cbn [ip out op lit table]. rewrite length_app. cbn [length]. split_and!; try done; try lia.
  apply take_next; (done || lia).
Qed.

(** The same literal when it fills the run, which is closed. *)
Lemma inv_full_run hv t d a lits rest i c :
  Enc d a -> zlen (d ++ [31] ++ (lits ++ [c]) ++ rest) = n ->
  take (Z.to_nat i) s = a ++ lits -> rd s i = Some c -> 0 <= i < zlen s ->
  zlen lits = 31 -> 32 * (zlen d + zlen lits) <= 33 * i - zlen lits ->
  (forall k, pointer_ok (t k)) ->
  inv (St (i + 1) (d ++ [31] ++ (lits ++ [c]) ++ rest) (zlen d + 1 + zlen lits + 1 + 1) 0 hv t).
Proof.
  intros He Hn Ht Hc Hi H31 Hb Hk.
  assert (He' : Enc (d ++ literal_bytes (lits ++ [c])) (a ++ lits ++ [c]))
    by (apply Enc_literal; [done|]; rewrite length_app; simpl; lia).
  unfold literal_bytes in He'. rewrite length_app, Nat2Z.inj_add, H31 in He'.
  exists (d ++ 31 :: lits ++ [c]), (a ++ lits ++ [c]), (take 1 rest), [], (drop 1 rest).
  cbn [ip out op lit table]. rewrite !app_nil_r.
  rewrite !length_app in *. cbn [length app] in *. rewrite !length_app in *. cbn [length] in *.
  split_and!; try done; try lia.
  - rewrite <- !app_assoc. cbn [app]. rewrite <- !app_assoc. by rewrite take_drop.
  - apply take_next; (done || lia).
  - destruct rest; [by right|by left].
Qed.

Lemma take_literal_spec st hv t :
  inv st -> ip st < zlen s -> op st < n -> (forall k, pointer_ok (t k)) ->
  exists st', take_literal s st hv t = Some st' /\ inv st' /\ ip st' = ip st + 1 /\
    (op st' = op st + 1 /\ lit st' = lit st + 1 \/
     lit st = 31 /\ op st' = op st + 2 /\ lit st' = 0).
Proof.
  intros Hinv Hi Hroom Htab.
  pose proof Hinv as (d & a & gap & lits & rest & Ho & He & Ht & Hg & Hn & Hi0 & Hl & H32 & Hp & Hb & _).
  unfold take_literal. destruct (rd_in (ip st)) as (c & Hc & Hcb); [lia|]. rewrite Hc. mred.
  assert (exists x rest', rest = x :: rest' /\ length gap = 1%nat) as (x & rest' & -> & Hg1).
  { rewrite Ho, !length_app in Hn. destruct rest as [|x rest']; [|exists x, rest'].
    - destruct Hg as [|(-> & -> & _)]; simpl in *; lia.
    - by destruct Hg as [|(_ & _ & ?)]. }
  assert (Hw : wrn (out st) (op st) [c] = Some (d ++ gap ++ (lits ++ [c]) ++ rest')).
  { rewrite Ho, !app_assoc. change (x :: rest') with ([x] ++ rest').
    rewrite wrn_app; [by rewrite <- !app_assoc| |done]. rewrite !length_app. lia. }
  rewrite Hw. mred. change MAX_LIT with 32. apply wrn_length in Hw. rewrite <- Hw in Hn.
  destruct (Z.eqb_spec (lit st + 1) 32) as [Hfull|Hfull].
  - unfold stop_run. rewrite (wrn_app d gap) by (simpl; lia). mred.
    rewrite uwrap_id by (unfold in_u; lia). replace (lit st + 1 - 1) with 31 by lia.
    eexists. split; [done|]. cbn [ip op lit]. split_and!; try done; [|right; lia].
    rewrite Hp, <- Hl. apply (inv_full_run _ _ d a); try done; try lia.
    rewrite !length_app in *. simpl in *. lia.
  - eexists. split; [done|]. cbn [ip op lit]. split_and!; [|done|left; lia].
    rewrite Hp, <- Hl. eapply inv_literal; try done; lia.
Qed.

Lemma body_spec st :
  inv st -> ip st + 3 <= zlen s -> exists r, body s n st = Some r /\ step_ok (ip st) r.
Proof.
  intros Hinv Hi. pose proof Hinv as (d & a & gap & lits & rest & _ & _ & _ & _ & Hn & Hi0 & Hl & H32 & Hp & Hb & Ht).
  unfold body. destruct (NEXT_ok (hval st) (ip st)) as [hv ->]; [lia..|]. mred.
  assert (Ht' : forall k, pointer_ok (set_slot (table st) (IDX hv) (ip st) k))
    by (apply set_slot_ok; [done|lia]).
  destruct (candidate_spec (ip st) (table st (IDX hv))) as (m & -> & Hm); [lia..|apply Ht|].
  mred. destruct m as [[ref off]|].
  - destruct (Hm ref off eq_refl) as (? & ? & ? & ?). by apply take_match_spec.
  - rewrite Z.geb_leb. destruct (Z.leb_spec n (op st)).
    + eexists. split; [done|]. simpl. split; [done|]. lia.
    + destruct (take_literal_spec st hv (set_slot (table st) (IDX hv) (ip st)))
        as (st' & -> & ? & ? & _); [done|lia|done|done|]. mred.
      eexists. split; [done|]. simpl. split; [done|lia].
Qed.

Lemma loop_spec fuel : forall st,
  inv st -> zlen s - ip st < Z.of_nat fuel ->
  exists r, loop s fuel n st = Some r /\
    match r with
    | inl o => zlen o = n /\ 32 * n < 33 * zlen s + 128
    | inr st' => inv st' /\ zlen s - 2 <= ip st'
    end.
Proof.
  induction fuel as [|fuel IH]; intros st Hinv Hf.
  { destruct Hinv as (? & ? & ? & ? & ? & _ & _ & _ & _ & _ & ? & _). lia. }
  cbn [loop]. destruct (Z.ltb_spec (ip st) (zlen s - 2)); [|by exists (inr st)].
  destruct (body_spec st Hinv) as (r & -> & Hr); [lia|]. mred.
  destruct r as [o|st'|st']; simpl in Hr; [by exists (inl o)|by exists (inr st')|].
  apply IH; [apply Hr|lia].
Qed.

Lemma tail_loop_spec fuel : forall st,
  inv st -> zlen s - 2 <= ip st -> zlen s - ip st < Z.of_nat fuel ->
  op st + (zlen s - ip st) + (if 32 <=? lit st + (zlen s - ip st) then 1 else 0) <= n ->
  exists st', tail_loop s fuel st = Some st' /\ inv st' /\ ip st' = zlen s /\ op st' <= n.
Proof.
  induction fuel as [|fuel IH]; intros st Hinv Hi Hf Hroom;
    pose proof Hinv as (d & a & gap & lits & rest & _ & _ & _ & _ & _ & Hi0 & Hl & H32 & _ & _ & Ht); [lia|].
  cbn [tail_loop]. destruct (Z.ltb_spec (ip st) (zlen s)).
  - destruct (take_literal_spec st (hval st) (table st)) as (st' & -> & Hinv' & Hip & Hcase);
      [done|lia|destruct (_ <=? _); lia|done|]. mred.
    apply IH; [done|lia|lia|]. rewrite Hip.
    destruct Hcase as [[-> ->]|(H31 & -> & ->)].
    + replace (lit st + 1 + (zlen s - (ip st + 1))) with (lit st + (zlen s - ip st)) by lia. lia.
    + rewrite H31 in Hroom. rewrite (proj2 (Z.leb_le _ _)) in Hroom by lia.
      rewrite (proj2 (Z.leb_gt _ _)) by lia. lia.
  - exists st. split_and!; try done; [lia|]. rewrite (proj2 (Z.leb_gt _ _)) in Hroom by lia. lia.
Qed.

End CompressProofs.

Lemma Enc_nonempty d a : Enc d a -> a <> [] -> 0 < zlen d.
Proof.
  destruct 1 as [|d a l He Hl|d a w off]; intros Ha; [done| |]; rewrite length_app.
  - simpl. lia.
  - unfold backref_bytes. destruct (_ <? _); simpl; lia.
Qed.

(** What [lzf_compress] leaves: a return value of 0 only when the block is small, or
    a sequence of tokens for the whole input. *)
Lemma compress_spec s buf t0 :
  bytes_ok s -> 2 <= zlen s < 2 ^ 62 -> (forall k, pointer_ok (t0 k)) ->
  exists o n, lzf_compress s buf t0 = Some (o, n) /\ zlen o = zlen buf /\
    (n = 0 /\ 32 * zlen buf < 33 * zlen s + 128 \/
     exists d rest, o = d ++ rest /\ zlen d = n /\ Enc d s /\ 32 * n <= 33 * zlen s + 32).
Proof.
  intros Hs Hlen Ht. unfold lzf_compress. cbv zeta.
  rewrite (proj2 (Z.eqb_neq (zlen s) 0)) by lia. cbn [orb].
  destruct (Z.eqb_spec (zlen buf) 0) as [H0|H0].
  { exists buf, 0. split_and!; try done. left. lia. }
  destruct (FRST_ok s Hs 0) as [hv ->]; [lia..|]. mred.
  assert (Hinit : inv s (zlen buf) (St 0 buf 1 0 hv t0)).
  { exists [], [], (take 1 buf), [], (drop 1 buf). cbn [ip out op lit table app].
    rewrite take_drop. split_and!; try done; try lia; [constructor|].
    destruct buf; [simpl in H0; lia|by left]. }
  destruct (loop_spec s Hs ltac:(lia) (zlen buf) (S (length s)) _ Hinit) as (r & -> & Hr);
    [cbn [ip]; lia|]. mred.
  destruct r as [o|st]; [exists o, 0; destruct Hr; by auto|].
  destruct Hr as [Hinv Hi].
  pose proof Hinv as (d & a & gap & lits & rest & _ & _ & _ & _ & Hn & Hi0 & Hl & H32 & Hp & Hb & _).
  rewrite Z.gtb_ltb. destruct (Z.ltb_spec (zlen buf) (op st + 3)).
  { exists (out st), 0. split_and!; try done. left. lia. }
  destruct (tail_loop_spec s Hs (zlen buf) (S (length s)) st) as (st' & -> & Hinv' & Hip & Hop);
    [done|done|lia|destruct (Z.leb_spec 32 (lit st + (zlen s - ip st))); lia|]. mred.
  pose proof Hinv' as (_ & _ & _ & l' & _ & _ & _ & _ & _ & _ & _ & Hl' & _ & _ & Hb' & _).
  destruct (stop_run_spec s (zlen buf) st' Hinv') as (d' & rest' & -> & He & Hdl & Hdn); [lia|].
  mred. eexists _, _. split; [done|]. split; [done|]. right. exists d', rest'.
  rewrite Hip, Nat2Z.id, firstn_all in He. split_and!; try done.
  rewrite Hip in Hb'. unfold not_lit. destruct (lit st' =? 0); lia.
Qed.

(** C22: compressing any input of at least two and fewer than 2^62 octets, with whatever the uninitialised
    hash table holds and into a block of any size, ends without an access outside the
    blocks; the result is 0 only if the block is smaller than 33/32 of the input plus
    four octets, and otherwise at most 33/32 of the input plus one octet, and
    decompressing it into any block that is large enough gives the input back. *)
Theorem lzf_roundtrip s buf t0 :
  bytes_ok s -> 2 <= zlen s < 2 ^ 62 -> (forall k, pointer_ok (t0 k)) ->
  exists o n, lzf_compress s buf t0 = Some (o, n) /\ zlen o = zlen buf /\ 0 <= n <= zlen buf /\
    32 * n <= 33 * zlen s + 32 /\
    (33 * zlen s + 128 <= 32 * zlen buf -> 0 < n) /\
    (0 < n -> forall dst, zlen s <= zlen dst ->
     lzf_decompress (take (Z.to_nat n) o) dst =
     Some (s ++ drop (length s) dst, inr (zlen s))).
Proof.
  intros Hs Hlen Ht. destruct (compress_spec s buf t0 Hs Hlen Ht) as (o & n & Hc & Ho & Hr).
  exists o, n. split; [done|]. split; [done|].
  destruct Hr as [[-> Hn]|(d & rest & -> & Hd & He & Hn)]; [split_and!; lia|].
  assert (0 < zlen d) by (apply (Enc_nonempty d s He); intros ->; simpl in Hlen; lia).
  rewrite length_app in Ho. split_and!; try lia. intros _ dst Hdst.
  rewrite take_app_length' by lia. by apply decompress_enc.
Qed.

Lemma lzf_roundtrip_witness :
  let s := str "abcabcabcabcabcabcabcabc" in
  let t0 := fun k => Some (k mod HSIZE - 30000) in
  exists o n, lzf_compress s (replicate 40 0) t0 = Some (o, n) /\
    0 < n /\ lzf_decompress (take (Z.to_nat n) o) (replicate 24 0) = Some (s, inr 24).
Proof.
  intros s t0. destruct (lzf_roundtrip s (replicate 40 0) t0) as (o & n & Hc & _ & _ & _ & Hpos & Hd).
  - cbv; repeat constructor; done.
  - by vm_compute.
  - intros k r [= <-]. pose proof (Z.mod_pos_bound k HSIZE ltac:(done)) as Hk.
    change HSIZE with 65536 in *. lia.
  - exists o, n. split; [exact Hc|]. assert (Hn : 0 < n) by (apply Hpos; by vm_compute).
    split; [exact Hn|]. apply (Hd Hn (replicate 24 0)). by vm_compute.
Defined.

(** ** Decompression of arbitrary input *)

Lemma rd_total m i : 0 <= i < zlen m -> exists b, rd m i = Some b.
Proof. intros Hi. rewrite rd_lookup by lia. apply lookup_lt_is_Some_2. lia. Qed.

Lemma rdn_total m i k : 0 <= i -> 0 <= k -> i + k <= zlen m -> exists w, rdn m i k = Some w /\ zlen w = k.
Proof.
  intros. eexists. split; [by apply rdn_Some|]. rewrite length_take, length_drop. lia.
Qed.

Lemma wrn_total m i w : 0 <= i -> i + zlen w <= zlen m -> exists m', wrn m i w = Some m' /\ length m' = length m.
Proof.
  intros Hi Hw. destruct (wrn m i w) as [m'|] eqn:E; [eauto using wrn_length|].
  unfold wrn in E. zbool; simpl in *; try done; lia.
Qed.

Lemma copy_ref_total k : forall out op ref,
  0 <= ref < op -> op + Z.of_nat k <= zlen out ->
  exists o, copy_ref k out op ref = Some o /\ length o = length out.
Proof.
  induction k as [|k IH]; intros out op ref Hr Hk; [by exists out|]. cbn [copy_ref].
  destruct (rd_total out ref) as [c ->]; [lia|]. mred.
  destruct (wrn_total out op [c]) as (o & -> & Ho); [lia|simpl; lia|]. mred.
  destruct (IH o (op + 1) (ref + 1)) as (o' & -> & Ho'); [lia..|].
  exists o'. split; [done|lia].
Qed.

Lemma back_reference_total out op ref len :
  0 <= ref < op -> 0 <= len -> op + len + 2 <= zlen out ->
  exists o, back_reference out op ref len = Some (o, op + (len + 2)) /\ length o = length out.
Proof.
  intros Hr Hl Hroom. unfold back_reference. cbv zeta.
  destruct (copy_ref_total (Z.to_nat (len + 2)) out op ref) as (o & Hc & Ho); [lia..|].
  destruct ((0 <=? len) && (len <=? 9)); [rewrite Hc; by exists o|].
  rewrite Z.geb_leb. destruct (Z.leb_spec (ref + (len + 2)) op); [|rewrite Hc; by exists o].
  destruct (rdn_total out ref (len + 2)) as (w & -> & Hw); [lia..|]. mred.
  destruct (wrn_total out op w) as (o' & -> & Ho'); [lia..|]. by exists o'.
Qed.

(** A token is read without leaving the blocks, and makes progress. *)
Definition progress (d out : list Z) (p op : Z) (r : errno + Z * list Z * Z) : Prop :=
  match r with
  | inl _ => True
  | inr (p', out', op') => p < p' <= zlen d /\ length out' = length out /\ op <= op' <= zlen out
  end.

Lemma copy_back_total d out p op len ref :
  bytes_ok d -> 0 <= p < zlen d -> 0 <= op -> 0 <= len -> ref < op ->
  exists r, copy_back d out p op len ref = Some r /\ progress d out p op r.
Proof.
  intros Hd Hp Ho Hl Hr. unfold copy_back. destruct (rd_in d Hd p Hp) as (c & -> & Hc). mred.
  unfold byte_ok in Hc. rewrite Z.gtb_ltb.
  destruct (Z.ltb_spec (zlen out) (op + len + 2)); [by exists (inl E2BIG)|].
  destruct (Z.ltb_spec (ref - c) 0); [by exists (inl EINVAL)|].
  destruct (back_reference_total out op (ref - c) len) as (o & -> & Hlo); [lia..|]. mred.
  eexists. split; [done|]. simpl. lia.
Qed.

Lemma token_total d out p op :
  bytes_ok d -> 0 <= p < zlen d -> 0 <= op <= zlen out ->
  exists r, token d out p op = Some r /\ progress d out p op r.
Proof.
  intros Hd Hp Ho. unfold token. destruct (rd_in d Hd p Hp) as (c & -> & Hc). mred.
  unfold byte_ok in Hc. destruct (Z.ltb_spec c (Z.shiftl 1 5)) as [Hlt|Hge].
  - unfold literal_run. rewrite !Z.gtb_ltb.
    destruct (Z.ltb_spec (zlen out) (op + (c + 1))); [by exists (inl E2BIG)|].
    destruct (Z.ltb_spec (zlen d) (p + 1 + (c + 1))); [by exists (inl EINVAL)|].
    destruct (rdn_total d (p + 1) (c + 1)) as (w & -> & Hw); [lia..|]. mred.
    destruct (wrn_total out op w) as (o & -> & Hlo); [lia..|]. mred.
    eexists. split; [done|]. simpl. lia.
  - unfold back_ref_token. cbv zeta.
    assert (0 <= Z.shiftr c 5) by (apply Z.shiftr_nonneg; lia).
    assert (0 <= Z.shiftl (Z.land c 31) 8) by (apply Z.shiftl_nonneg, Z.land_nonneg; lia).
    rewrite !Z.geb_leb. destruct (Z.leb_spec (zlen d) (p + 1)); [by exists (inl EINVAL)|].
    destruct (Z.shiftr c 5 =? 7).
    + destruct (rd_in d Hd (p + 1)) as (c' & -> & Hc'); [lia|]. mred. unfold byte_ok in Hc'.
      destruct (Z.leb_spec (zlen d) (p + 1 + 1)); [by exists (inl EINVAL)|].
      edestruct (copy_back_total d out (p + 1 + 1) op) as (r & -> & Hr); [done|lia..| |].
      2: { exists r. split; [done|]. destruct r as [|[[??]?]]; simpl in *; [done|lia]. }
      lia.
    + edestruct (copy_back_total d out (p + 1) op) as (r & -> & Hr); [done|lia..| |].
      2: { exists r. split; [done|]. destruct r as [|[[??]?]]; simpl in *; [done|lia]. }
      lia.
Qed.

Lemma decompress_loop_total fuel d : forall out p op,
  bytes_ok d -> 0 <= p <= zlen d -> 0 <= op <= zlen out -> zlen d - p < Z.of_nat fuel ->
  exists o r, decompress_loop fuel d out p op = Some (o, r) /\ length o = length out /\
    forall k, r = inr k -> 0 <= k <= zlen out.
Proof.
  induction fuel as [|fuel IH]; intros out p op Hd Hp Ho Hf; [lia|]. cbn [decompress_loop].
  destruct (Z.ltb_spec p (zlen d)).
  - destruct (token_total d out p op Hd) as (r & -> & Hr); [lia..|]. mred.
    destruct r as [e|[[p' o] op']]; simpl in Hr; [by exists out, (inl e)|].
    destruct (IH o p' op') as (o' & r & -> & Ho' & Hk); [done|lia..|].
    exists o', r. split_and!; [done|lia|]. intros k Hr'. specialize (Hk k Hr'). lia.
  - exists out, (inr op). split_and!; try done. intros k [= <-]. lia.
Qed.

(** C39: decompressing any octets whatsoever into any block ends, never reads or writes
    outside the two blocks, and returns an error or a length that fits the block. *)
Theorem lzf_decompress_safe d out :
  bytes_ok d ->
  exists o r, lzf_decompress d out = Some (o, r) /\ length o = length out /\
    forall k, r = inr k -> 0 <= k <= zlen out.
Proof. intros Hd. apply decompress_loop_total; [done|lia..]. Qed.

Lemma lzf_decompress_safe_witness :
  exists o r, lzf_decompress [255; 7; 0; 1] [0; 0] = Some (o, r) /\ length o = 2%nat.
Proof.
  destruct (lzf_decompress_safe [255; 7; 0; 1] [0; 0]) as (o & r & H & Hl & _).
  - repeat constructor; done.
  - exists o, r. split; [exact H|exact Hl].
Defined.

(** [lzf_compress] of a single octet reads the octet after the input:
    [hval = FRST (ip)] comes before the test [ip < in_end - 2]. *)
Theorem lzf_compress_overread x y buf t0 : lzf_compress [x] (y :: buf) t0 = None.
Proof. reflexivity. Qed.

End Lzf.
