(* ===== verification/Dict.v ===== *)
(** * Hash tables with incremental rehashing ([redis-stable/src/dict.c], [dict.h])

    A chain of entries is a list; a bucket array is a list of chains and [NULL] is
    [None].  A [dictEntryLink] is the table, the bucket and the position in the
    chain.  How an entry is laid out (a tagged key pointer, an entry without value or
    a full entry) is not modelled: every entry has a stored key and a value.  The
    callbacks that watch a dictionary ([rehashingStarted], [rehashingCompleted],
    [bucketChanged]) append to a list of events.  [None] is a failed assertion or
    the use of a null or out-of-range pointer. *)

From stdpp Require Import gmap.
From S2P Require Import Prelude.

Module Dict.

Inductive dictResizeEnable := DICT_RESIZE_ENABLE | DICT_RESIZE_AVOID | DICT_RESIZE_FORBID.
#[export] Instance dictResizeEnable_eq_dec : EqDecision dictResizeEnable.
Proof. solve_decision. Defined.

Inductive status := DICT_OK | DICT_ERR.
#[export] Instance status_eq_dec : EqDecision status.
Proof. solve_decision. Defined.

Definition HASHTABLE_MIN_FILL : Z := 8.
Definition DICT_HT_INITIAL_EXP : Z := 2.
Definition DICT_HT_INITIAL_SIZE : Z := Z.shiftl 1 DICT_HT_INITIAL_EXP.
Definition dict_force_resize_ratio : Z := 4.

Definition DICTHT_SIZE (exp : Z) : Z := if exp =? -1 then 0 else Z.shiftl 1 exp.
Definition DICTHT_SIZE_MASK (exp : Z) : Z := if exp =? -1 then 0 else DICTHT_SIZE exp - 1.

(** [8*sizeof(long) - __builtin_clzl(x)] is the number of significant bits of [x]. *)
Definition _dictNextExp (size : Z) : Z :=
  if size <=? DICT_HT_INITIAL_SIZE then DICT_HT_INITIAL_EXP
  else if size >=? 2 ^ 63 - 1 then 63
  else Z.log2 (size - 1) + 1.

(** A call of a callback; [from] is the size of the first table at that time, which
    the callbacks ask for with [dictRehashingInfo]. *)
Inductive event := RehashingStarted (from : Z) | RehashingCompleted (from : Z) | BucketChanged (delta : Z).

(** Which of the two tables. *)
Inductive table := T0 | T1.
#[export] Instance table_eq_dec : EqDecision table.
Proof. solve_decision. Defined.

Section Dict.
Context {K SK V : Type}.

(** The callbacks and flags of a [dictType].  [keyCompare] is the test
    [key == he_key || cmpFunc(...)]; [resizeAllowed] gets the size in bytes and the
    two numbers of the fill ratio. *)
Record dictType := DictType {
  hashFunction : K -> Z;
  keyCompare : K -> K -> bool;
  keyFromStoredKey : SK -> K;
  resizeAllowed : Z -> Z -> Z -> bool;
  force_full_rehash : bool
}.

(** An entry is the stored key with the value; a chain is followed through [next]. *)
Abbreviation entry := (SK * V)%type.
Abbreviation chain := (list (SK * V)).

Record ht := Ht {
  ht_table : option (list chain);
  ht_size_exp : Z;
  ht_used : Z
}.

Record dict := Dict {
  ht0 : ht;
  ht1 : ht;
  rehashidx : Z;
  pauserehash : Z;
  pauseAutoResize : Z;
  events : list event
}.

(** A [dictEntryLink]: a bucket is the link with position 0. *)
Record link := Link { l_table : table; l_idx : Z; l_pos : nat }.

Context (ty : dictType) (can_resize : dictResizeEnable).

Definition dictIsRehashing (d : dict) : bool := negb (rehashidx d =? -1).
Definition dictSize (d : dict) : Z := ht_used (ht0 d) + ht_used (ht1 d).
Definition dictBuckets (d : dict) : Z :=
  DICTHT_SIZE (ht_size_exp (ht0 d)) + DICTHT_SIZE (ht_size_exp (ht1 d)).
Definition dictPauseRehashing (d : dict) : dict :=
  Dict (ht0 d) (ht1 d) (rehashidx d) (pauserehash d + 1) (pauseAutoResize d) (events d).
Definition dictResumeRehashing (d : dict) : dict :=
  Dict (ht0 d) (ht1 d) (rehashidx d) (pauserehash d - 1) (pauseAutoResize d) (events d).
Definition key_of (e : entry) : K := keyFromStoredKey ty (fst e).

(** *** Access to the tables *)

Definition get_ht (d : dict) (t : table) : ht := match t with T0 => ht0 d | T1 => ht1 d end.
Definition set_ht (d : dict) (t : table) (h : ht) : dict :=
  match t with
  | T0 => Dict h (ht1 d) (rehashidx d) (pauserehash d) (pauseAutoResize d) (events d)
  | T1 => Dict (ht0 d) h (rehashidx d) (pauserehash d) (pauseAutoResize d) (events d)
  end.
Definition set_rehashidx (d : dict) (i : Z) : dict :=
  Dict (ht0 d) (ht1 d) i (pauserehash d) (pauseAutoResize d) (events d).
Definition notify (d : dict) (e : list event) : dict :=
  Dict (ht0 d) (ht1 d) (rehashidx d) (pauserehash d) (pauseAutoResize d) (events d ++ e).

Definition bucket_at (h : ht) (idx : Z) : option chain :=
  t ← ht_table h; if 0 <=? idx then t !! Z.to_nat idx else None.
Definition set_bucket (h : ht) (idx : Z) (c : chain) (used : Z) : option ht :=
  t ← ht_table h;
  if (0 <=? idx) && (idx <? zlen t)
  then Some (Ht (Some (<[Z.to_nat idx := c]> t)) (ht_size_exp h) used) else None.

(** *** Creation, rehashing *)

Definition _dictReset : ht := Ht None (-1) 0.
Definition _dictInit : dict := Dict _dictReset _dictReset (-1) 0 0 [].
Definition dictCreate : dict := _dictInit.

(** The loop over the chain of bucket [idx]. *)
Fixpoint rehash_chain (de : chain) (h0 h1 : ht) (idx : Z) : option (ht * ht) :=
  match de with
  | [] => Some (h0, h1)
  | e :: nextde =>
    let h := if ht_size_exp h1 >? ht_size_exp h0
             then Z.land (hashFunction ty (key_of e)) (DICTHT_SIZE_MASK (ht_size_exp h1))
             else Z.land idx (DICTHT_SIZE_MASK (ht_size_exp h1)) in
    c ← bucket_at h1 h;
    h1 ← set_bucket h1 h (e :: c) (ht_used h1 + 1);
    rehash_chain nextde (Ht (ht_table h0) (ht_size_exp h0) (ht_used h0 - 1)) h1 idx
  end.

Definition rehashEntriesInBucketAtIndex (d : dict) (idx : Z) : option dict :=
  de ← bucket_at (ht0 d) idx;
  '(h0, h1) ← rehash_chain de (ht0 d) (ht1 d) idx;
  h0 ← set_bucket h0 idx [] (ht_used h0);
  Some (set_ht (set_ht d T0 h0) T1 h1).

Definition dictCheckRehashingCompleted (d : dict) : dict * bool :=
  if negb (ht_used (ht0 d) =? 0) then (d, false)
  else
    let from := DICTHT_SIZE (ht_size_exp (ht0 d)) in
    let d := notify d [RehashingCompleted from; BucketChanged (- from)] in
    (Dict (ht1 d) _dictReset (-1) (pauserehash d) (pauseAutoResize d) (events d), true).

(** The guard of [DICT_RESIZE_AVOID]. *)
Definition rehash_avoided (s0 s1 : Z) : bool :=
  bool_decide (can_resize = DICT_RESIZE_AVOID) &&
  (((s1 >? s0) && (s1 <? dict_force_resize_ratio * s0)) ||
   ((s1 <? s0) && (s0 <? HASHTABLE_MIN_FILL * dict_force_resize_ratio * s1))).

Definition rehash_disabled (d : dict) : bool :=
  let s0 := DICTHT_SIZE (ht_size_exp (ht0 d)) in
  let s1 := DICTHT_SIZE (ht_size_exp (ht1 d)) in
  (bool_decide (can_resize = DICT_RESIZE_FORBID) || negb (dictIsRehashing d)) || rehash_avoided s0 s1.

(** [while(d->ht_table[0][d->rehashidx] == NULL) ...]: [None] of the inner option is
    [return 1], otherwise the remaining [empty_visits]. *)
Fixpoint skip_empty (fuel : nat) (d : dict) (empty_visits : Z) : option (dict * option Z) :=
  match fuel with
  | O => None
  | S fuel =>
    c ← bucket_at (ht0 d) (rehashidx d);
    match c with
    | [] =>
      let d := set_rehashidx d (rehashidx d + 1) in
      let empty_visits := empty_visits - 1 in
      if empty_visits =? 0 then Some (d, None) else skip_empty fuel d empty_visits
    | _ => Some (d, Some empty_visits)
    end
  end.

(** [true] of the result is [return 1] out of the loop. *)
Fixpoint rehash_loop (n : nat) (d : dict) (empty_visits : Z) : option (dict * bool) :=
  match n with
  | O => Some (d, false)
  | S n =>
    if ht_used (ht0 d) =? 0 then Some (d, false)
    else if negb (DICTHT_SIZE (ht_size_exp (ht0 d)) >? rehashidx d) then None
    else
      let fuel := match ht_table (ht0 d) with Some t => S (length t) | None => 1%nat end in
      '(d, ev) ← skip_empty fuel d empty_visits;
      match ev with
      | None => Some (d, true)
      | Some empty_visits =>
        d ← rehashEntriesInBucketAtIndex d (rehashidx d);
        rehash_loop n (set_rehashidx d (rehashidx d + 1)) empty_visits
      end
  end.

(** [n] is positive in every call; [n*10] is an [int]. *)
Definition dictRehash (d : dict) (n : Z) : option (dict * bool) :=
  empty_visits ← schk 32 (n * 10);
  if rehash_disabled d then Some (d, false)
  else
    '(d, more) ← rehash_loop (Z.to_nat n) d empty_visits;
    if (more : bool) then Some (d, true)
    else let '(d, completed) := dictCheckRehashingCompleted d in Some (d, negb completed).

(** [clock n] is what the [n]-th call of [getMonotonicUs] returns; the last component of
    the result is the number of the next call. *)
Fixpoint rehash_time_loop (fuel : nat) (clock : nat -> Z) (n : nat) (start us : Z) (d : dict) (rehashes : Z)
    : option (dict * Z * nat) :=
  match fuel with
  | O => None
  | S fuel =>
    '(d, more) ← dictRehash d 100;
    if (more : bool) then
      let rehashes := rehashes + 100 in
      if uwrap 64 (clock n - start) >=? us then Some (d, rehashes, S n)
      else rehash_time_loop fuel clock (S n) start us d rehashes
    else Some (d, rehashes, n)
  end.

Definition dictRehashMicroseconds (clock : nat -> Z) (n : nat) (d : dict) (us : Z) : option (dict * Z * nat) :=
  if pauserehash d >? 0 then Some (d, 0, n)
  else rehash_time_loop (S (S (Z.to_nat (DICTHT_SIZE (ht_size_exp (ht0 d)))))) clock (S n) (clock n) us d 0.

Definition _dictRehashStep (d : dict) : option dict :=
  if pauserehash d =? 0 then '(d, _) ← dictRehash d 1; Some d else Some d.

Definition _dictBucketRehash (d : dict) (idx : Z) : option (dict * bool) :=
  if negb (pauserehash d =? 0) then Some (d, false)
  else if rehash_disabled d then Some (d, false)
  else
    d ← rehashEntriesInBucketAtIndex d idx;
    Some ((dictCheckRehashingCompleted d).1, true).

(** [while (dictRehash(d, 1000))] *)
Fixpoint rehash_fully (fuel : nat) (d : dict) : option dict :=
  match fuel with
  | O => None
  | S fuel =>
    '(d, more) ← dictRehash d 1000;
    if (more : bool) then rehash_fully fuel d else Some d
  end.

Definition _dictRehashStepIfNeeded (d : dict) (visitedIdx : Z) : option dict :=
  if negb (dictIsRehashing d) || negb (pauserehash d =? 0) then Some d
  else
    here ← (if visitedIdx >=? rehashidx d
            then c ← bucket_at (ht0 d) visitedIdx; Some (match c with [] => false | _ => true end)
            else Some false);
    if (here : bool) then '(d, _) ← _dictBucketRehash d visitedIdx; Some d
    else '(d, _) ← dictRehash d 1; Some d.

(** *** Resizing *)

(** [alloc]: whether [ztrycalloc] succeeds; [None] when [malloc_failed] is [NULL].
    The result is the status and [*malloc_failed]. *)
Definition _dictResize (d : dict) (size : Z) (alloc : option bool) : option (dict * status * bool) :=
  if dictIsRehashing d then None
  else
    let new_ht_size_exp := _dictNextExp size in
    let newsize := DICTHT_SIZE new_ht_size_exp in
    if (newsize <? size) || (uwrap 64 (newsize * 8) <? newsize) then Some (d, DICT_ERR, false)
    else if new_ht_size_exp =? ht_size_exp (ht0 d) then Some (d, DICT_ERR, false)
    else if bool_decide (alloc = Some false) then Some (d, DICT_ERR, true)
    else
      let new := Ht (Some (replicate (Z.to_nat newsize) [])) new_ht_size_exp 0 in
      let d := set_rehashidx (set_ht d T1 new) 0 in
      let from := DICTHT_SIZE (ht_size_exp (ht0 d)) in
      let d := notify d [RehashingStarted from; BucketChanged newsize] in
      if bool_decide (ht_table (ht0 d) = None) || (ht_used (ht0 d) =? 0) then
        let d := notify d [RehashingCompleted from; BucketChanged (- from)] in
        Some (Dict new _dictReset (-1) (pauserehash d) (pauseAutoResize d) (events d), DICT_OK, false)
      else
        d ← (if force_full_rehash ty
             then rehash_fully (S (Z.to_nat (DICTHT_SIZE (ht_size_exp (ht0 d))))) d else Some d);
        Some (d, DICT_OK, false).

Definition _dictExpand (d : dict) (size : Z) (alloc : option bool) : option (dict * status * bool) :=
  if dictIsRehashing d || (ht_used (ht0 d) >? size) || (DICTHT_SIZE (ht_size_exp (ht0 d)) >=? size)
  then Some (d, DICT_ERR, false)
  else _dictResize d size alloc.

Definition dictExpand (d : dict) (size : Z) : option (dict * status) :=
  '(d, st, _) ← _dictExpand d size None; Some (d, st).

Definition dictTryExpand (d : dict) (size : Z) (alloc : bool) : option (dict * status) :=
  '(d, _, malloc_failed) ← _dictExpand d size (Some alloc);
  Some (d, if (malloc_failed : bool) then DICT_ERR else DICT_OK).

Definition dictShrink (d : dict) (size : Z) : option (dict * status) :=
  if dictIsRehashing d || (ht_used (ht0 d) >? size) || (DICTHT_SIZE (ht_size_exp (ht0 d)) <=? size)
  then Some (d, DICT_ERR)
  else '(d, st, _) ← _dictResize d size None; Some (d, st).

Definition dictTypeResizeAllowed (d : dict) (size : Z) : bool :=
  resizeAllowed ty (DICTHT_SIZE (_dictNextExp size) * 8) (ht_used (ht0 d)) (DICTHT_SIZE (ht_size_exp (ht0 d))).

Definition dictExpandIfNeeded (d : dict) : option (dict * status) :=
  let used := ht_used (ht0 d) in
  let size := DICTHT_SIZE (ht_size_exp (ht0 d)) in
  if dictIsRehashing d then Some (d, DICT_OK)
  else if size =? 0 then '(d, _) ← dictExpand d DICT_HT_INITIAL_SIZE; Some (d, DICT_OK)
  else if (bool_decide (can_resize = DICT_RESIZE_ENABLE) && (used >=? size)) ||
          (negb (bool_decide (can_resize = DICT_RESIZE_FORBID)) &&
           (used >=? dict_force_resize_ratio * size))
  then
    d ← (if dictTypeResizeAllowed d (used + 1) then '(d, _) ← dictExpand d (used + 1); Some d
         else Some d);
    Some (d, DICT_OK)
  else Some (d, DICT_ERR).

Definition _dictExpandIfNeeded (d : dict) : option (dict * status) :=
  if pauseAutoResize d >? 0 then Some (d, DICT_ERR) else dictExpandIfNeeded d.

Definition dictShrinkIfNeeded (d : dict) : option (dict * status) :=
  let used := ht_used (ht0 d) in
  let size := DICTHT_SIZE (ht_size_exp (ht0 d)) in
  if dictIsRehashing d then Some (d, DICT_OK)
  else if size <=? DICT_HT_INITIAL_SIZE then Some (d, DICT_OK)
  else if (bool_decide (can_resize = DICT_RESIZE_ENABLE) && (used * HASHTABLE_MIN_FILL <=? size)) ||
          (negb (bool_decide (can_resize = DICT_RESIZE_FORBID)) &&
           (used * HASHTABLE_MIN_FILL * dict_force_resize_ratio <=? size))
  then
    d ← (if dictTypeResizeAllowed d used then '(d, _) ← dictShrink d used; Some d else Some d);
    Some (d, DICT_OK)
  else Some (d, DICT_ERR).

Definition _dictShrinkIfNeeded (d : dict) : option dict :=
  if pauseAutoResize d >? 0 then Some d else '(d, _) ← dictShrinkIfNeeded d; Some d.

(** *** Searching *)

(** The first entry of a chain with the key: its position. *)
Fixpoint chain_find (key : K) (c : chain) : option nat :=
  match c with
  | [] => None
  | e :: c => if keyCompare ty key (key_of e) then Some O else S <$> chain_find key c
  end.

Definition index_in (h : ht) (hash : Z) : Z := Z.land hash (DICTHT_SIZE_MASK (ht_size_exp h)).

(** One pass of the loop of [dictFindLinkInternal]: the link, and the bucket. *)
Definition search_table (d : dict) (t : table) (hash : Z) (key : K) : option (option link * option link) :=
  let idx := index_in (get_ht d t) hash in
  match ht_table (get_ht d t) with
  | None => if idx =? 0 then Some (None, None) else None
  | Some _ =>
    c ← bucket_at (get_ht d t) idx;
    Some (Link t idx <$> chain_find key c, Some (Link t idx 0))
  end.

(** [want]: whether the caller passes [bucket]. *)
Definition dictFindLinkInternal (d : dict) (key : K) (want : bool)
    : option (dict * option link * option link) :=
  if negb want && (dictSize d =? 0) then Some (d, None, None)
  else
    let hash := hashFunction ty key in
    let idx := index_in (ht0 d) hash in
    d ← _dictRehashStepIfNeeded d idx;
    '(found, bucket) ← (if idx <? rehashidx d then Some (None, None) else search_table d T0 hash key);
    match found with
    | Some l => Some (d, Some l, bucket)
    | None =>
      if dictIsRehashing d then
        '(found, bucket) ← search_table d T1 hash key; Some (d, found, bucket)
      else Some (d, None, bucket)
    end.

Definition dictFindLink (d : dict) (key : K) (want : bool) : option (dict * option link * option link) :=
  if dictSize d =? 0 then Some (d, None, None) else dictFindLinkInternal d key want.

Definition entry_at (d : dict) (l : link) : option entry :=
  c ← bucket_at (get_ht d (l_table l)) (l_idx l); c !! l_pos l.

Definition dictFind (d : dict) (key : K) : option (dict * option entry) :=
  '(d, found, _) ← dictFindLink d key false;
  match found with
  | None => Some (d, None)
  | Some l => e ← entry_at d l; Some (d, Some e)
  end.

Definition dictFetchValue (d : dict) (key : K) : option (dict * option V) :=
  '(d, he) ← dictFind d key; Some (d, option_map snd he).

(** *** Insertion *)

(** One pass of the loop over the tables in [dictFindLinkForInsert],
    [dictGenericDelete] and [dictTwoPhaseUnlinkFind]. *)
Definition search_for_insert (d : dict) (t : table) (hash : Z) (key : K) : option (option link) :=
  let idx := index_in (get_ht d t) hash in
  c ← bucket_at (get_ht d t) idx;
  Some (Link t idx <$> chain_find key c).

(** [for (table = 0; table <= 1; table++)]; [idx] is what the first test compares with
    [rehashidx]. *)
Definition search_tables (d : dict) (idx hash : Z) (key : K) : option (option link) :=
  found ← (if idx <? rehashidx d then Some None else search_for_insert d T0 hash key);
  match found with
  | Some l => Some (Some l)
  | None => if negb (dictIsRehashing d) then Some None else search_for_insert d T1 hash key
  end.

(** [inl] is the existing entry with the return value [NULL], [inr] the bucket. *)
Definition dictFindLinkForInsert (d : dict) (key : K) : option (dict * (link + link)) :=
  let hash := hashFunction ty key in
  let idx := index_in (ht0 d) hash in
  d ← _dictRehashStepIfNeeded d idx;
  '(d, _) ← _dictExpandIfNeeded d;
  found ← search_tables d idx hash key;
  match found with
  | Some l => Some (d, inl l)
  | None =>
    let t := if dictIsRehashing d then T1 else T0 in
    Some (d, inr (Link t (index_in (get_ht d t) hash) 0))
  end.

(** The new entry is the head of the bucket; [v] stands for the value it holds before
    it is set. *)
Definition dictInsertKeyAtLink (d : dict) (key : SK) (v : V) (bucket : link) : option (dict * link) :=
  let htidx := if dictIsRehashing d then T1 else T0 in
  let h := get_ht d htidx in
  if negb (bool_decide (l_table bucket = htidx)) then None
  else if negb ((0 <=? l_idx bucket) && (l_idx bucket <=? DICTHT_SIZE_MASK (ht_size_exp h))) then None
  else
    c ← bucket_at h (l_idx bucket);
    h ← set_bucket h (l_idx bucket) ((key, v) :: c) (ht_used h + 1);
    Some (set_ht d htidx h, Link htidx (l_idx bucket) 0).

(** [inl] is [NULL] with [*existing], [inr] the new entry. *)
Definition dictAddRaw (d : dict) (key : SK) (v : V) : option (dict * (link + link)) :=
  '(d, position) ← dictFindLinkForInsert d (keyFromStoredKey ty key);
  match position with
  | inl existing => Some (d, inl existing)
  | inr bucket => '(d, l) ← dictInsertKeyAtLink d key v bucket; Some (d, inr l)
  end.

Definition set_entry (d : dict) (l : link) (f : entry -> entry) : option dict :=
  let h := get_ht d (l_table l) in
  c ← bucket_at h (l_idx l);
  e ← c !! l_pos l;
  h ← set_bucket h (l_idx l) (<[l_pos l := f e]> c) (ht_used h);
  Some (set_ht d (l_table l) h).

Definition dictSetVal (d : dict) (l : link) (val : V) : option dict :=
  set_entry d l (fun e => (fst e, val)).

(** [junk] is what a fresh entry holds. *)
Definition dictAdd (junk : V) (d : dict) (key : SK) (val : V) : option (dict * status) :=
  '(d, r) ← dictAddRaw d key junk;
  match r with
  | inl _ => Some (d, DICT_ERR)
  | inr l => d ← dictSetVal d l val; Some (d, DICT_OK)
  end.

(** 1 (a new entry) is [true]. *)
Definition dictReplace (junk : V) (d : dict) (key : SK) (val : V) : option (dict * bool) :=
  '(d, r) ← dictAddRaw d key junk;
  match r with
  | inr l => d ← dictSetVal d l val; Some (d, true)
  | inl existing => d ← dictSetVal d existing val; Some (d, false)
  end.

Definition dictAddOrFind (d : dict) (key : SK) (v : V) : option (dict * link) :=
  '(d, r) ← dictAddRaw d key v;
  Some (d, match r with inl l | inr l => l end).

(** [newItem] set: [lk] is the bucket of the key, or [None].  Not set: the link of the
    key, or [None]; the search of the key is then done with the stored key itself,
    and [as_key] is what the stored key is as a key. *)
Definition dictSetKeyAtLink (as_key : SK -> K) (d : dict) (key : SK) (v : V) (lk : option link) (newItem : bool)
    : option (dict * option link) :=
  if newItem then
    let snap := (ht_size_exp (ht0 d), ht_size_exp (ht1 d)) in
    '(d, _) ← dictExpandIfNeeded d;
    if negb (bool_decide (snap = (ht_size_exp (ht0 d), ht_size_exp (ht1 d)))) ||
       bool_decide (lk = None) then
      '(d, found, bucket) ← dictFindLinkInternal d (keyFromStoredKey ty key) true;
      match found, bucket with
      | None, Some b => '(d, _) ← dictInsertKeyAtLink d key v b; Some (d, Some b)
      | _, _ => None
      end
    else
      b ← lk; '(d, _) ← dictInsertKeyAtLink d key v b; Some (d, Some b)
  else
    '(d, l) ←
      match lk with
      | Some l => Some (d, l)
      | None => '(d, found, _) ← dictFindLink d (as_key key) false; l ← found; Some (d, l)
      end;
    d ← set_entry d l (fun e => (key, snd e)); Some (d, Some l).

(** *** Deletion *)

(** Take the entry at a link out of its chain. *)
Definition unlink (d : dict) (l : link) : option (dict * entry) :=
  let h := get_ht d (l_table l) in
  c ← bucket_at h (l_idx l);
  he ← c !! l_pos l;
  h ← set_bucket h (l_idx l) (take (l_pos l) c ++ drop (S (l_pos l)) c) (ht_used h - 1);
  Some (set_ht d (l_table l) h, he).

Definition dictGenericDelete (d : dict) (key : K) : option (dict * option entry) :=
  if dictSize d =? 0 then Some (d, None)
  else
    let h := hashFunction ty key in
    let idx := index_in (ht0 d) h in
    d ← _dictRehashStepIfNeeded d idx;
    found ← search_tables d idx h key;
    match found with
    | None => Some (d, None)
    | Some l =>
      '(d, he) ← unlink d l;
      d ← _dictShrinkIfNeeded d;
      Some (d, Some he)
    end.

Definition dictDelete (d : dict) (key : K) : option (dict * status) :=
  '(d, he) ← dictGenericDelete d key;
  Some (d, match he with Some _ => DICT_OK | None => DICT_ERR end).

Definition dictUnlink (d : dict) (key : K) : option (dict * option entry) := dictGenericDelete d key.

Definition dictTwoPhaseUnlinkFind (d : dict) (key : K) : option (dict * option link) :=
  if dictSize d =? 0 then Some (d, None)
  else
    d ← (if dictIsRehashing d then _dictRehashStep d else Some d);
    let h := hashFunction ty key in
    found ← search_tables d (index_in (ht0 d) h) h key;
    match found with
    | None => Some (d, None)
    | Some l => Some (dictPauseRehashing d, Some l)
    end.

Definition dictTwoPhaseUnlinkFree (d : dict) (plink : option link) : option (dict * option entry) :=
  match plink with
  | None => Some (d, None)
  | Some l =>
    '(d, de) ← unlink d l;
    d ← _dictShrinkIfNeeded d;
    Some (dictResumeRehashing d, Some de)
  end.

(** *** Emptying *)

(** The loop of [_dictClear]: the entries freed, in order, and the final [ht_used]. *)
Fixpoint clear_loop (buckets : list chain) (used : Z) : list entry * Z :=
  match buckets with
  | [] => ([], used)
  | he :: rest =>
    if used >? 0 then
      let '(freed, used) := clear_loop rest (used - zlen he) in (he ++ freed, used)
    else ([], used)
  end.

Definition _dictClear (d : dict) (t : table) : dict * list entry :=
  let h := get_ht d t in
  let '(freed, _) := clear_loop (default [] (ht_table h)) (ht_used h) in
  (set_ht d t _dictReset, freed).

Definition dictEmpty (d : dict) : dict * list entry :=
  let d := if dictIsRehashing d
           then notify d [RehashingCompleted (DICTHT_SIZE (ht_size_exp (ht0 d)))] else d in
  let d := notify d [BucketChanged (- dictBuckets d)] in
  let '(d, freed0) := _dictClear d T0 in
  let '(d, freed1) := _dictClear d T1 in
  (Dict (ht0 d) (ht1 d) (-1) 0 0 (events d), freed0 ++ freed1).

(** The callbacks of [dictRelease], and the entries it frees with the dictionary. *)
Definition dictRelease (d : dict) : list event * list entry :=
  let d := if dictIsRehashing d
           then notify d [RehashingCompleted (DICTHT_SIZE (ht_size_exp (ht0 d)))] else d in
  let d := notify d [BucketChanged (- dictBuckets d)] in
  let '(d, freed0) := _dictClear d T0 in
  let '(d, freed1) := _dictClear d T1 in
  (events d, freed0 ++ freed1).

End Dict.

#[global] Arguments dictType : clear implicits.
#[global] Arguments dict : clear implicits.
#[global] Arguments ht : clear implicits.

(** ** The invariant *)

Section Proofs.
Context {K SK V : Type} `{Countable K}.
Context (ty : dictType K SK) (can_resize : dictResizeEnable).
Context (Hcmp : forall a b, keyCompare ty a b = true <-> a = b).
Context (Hhash : forall k, 0 <= hashFunction ty k).

Abbreviation entry := (SK * V)%type.
Abbreviation chain := (list (SK * V)).
Abbreviation dict := (dict SK V).
Abbreviation ht := (ht SK V).
Abbreviation key_of := (key_of (V := V) ty).

Definition elems (h : ht) : list entry := concat (default [] (ht_table h)).
Definition all (d : dict) : list entry := elems (ht0 d) ++ elems (ht1 d).

(** The size is the power of two of the exponent, the count is right, and every entry
    is in the bucket of its hash. *)
Definition ht_ok (h : ht) : Prop :=
  match ht_table h with
  | None => ht_size_exp h = -1 /\ ht_used h = 0
  | Some t =>
    0 <= ht_size_exp h <= 60 /\ zlen t = 2 ^ ht_size_exp h /\ ht_used h = zlen (concat t) /\
    forall i c e, t !! i = Some c -> e ∈ c ->
      index_in h (hashFunction ty (key_of e)) = Z.of_nat i
  end.

(** Rehashing is off and the second table empty, or both tables exist and the buckets
    before [rehashidx] have been moved. *)
Definition phase_ok (d : dict) : Prop :=
  rehashidx d = -1 /\ ht1 d = _dictReset \/
  exists t0, ht_table (ht0 d) = Some t0 /\ is_Some (ht_table (ht1 d)) /\
    0 <= rehashidx d <= zlen t0 /\
    forall i, (i < Z.to_nat (rehashidx d))%nat -> t0 !! i = Some [].

(** What a watcher of the callbacks knows: whether rehashing goes on, the buckets of the
    tables being moved, and all the buckets.  Starting twice or completing what was not
    started is an error. *)
Definition watch_step (s : bool * Z * Z) (e : event) : option (bool * Z * Z) :=
  let '(on, from, buckets) := s in
  match e with
  | RehashingStarted x => if on then None else Some (true, from + x, buckets)
  | RehashingCompleted x => if on then Some (false, from - x, buckets) else None
  | BucketChanged x => Some (on, from, buckets + x)
  end.
Definition watch_from (s : option (bool * Z * Z)) (l : list event) : option (bool * Z * Z) :=
  foldl (fun s e => s ≫= fun s => watch_step s e) s l.
Definition watch : list event -> option (bool * Z * Z) := watch_from (Some (false, 0, 0)).

Definition watched (d : dict) : bool * Z * Z :=
  (dictIsRehashing d, if dictIsRehashing d then DICTHT_SIZE (ht_size_exp (ht0 d)) else 0, dictBuckets d).

Lemma watch_app l m : watch (l ++ m) = watch_from (watch l) m.
Proof. apply foldl_app. Qed.

Record wf (d : dict) : Prop := Wf {
  wf_ht0 : ht_ok (ht0 d);
  wf_ht1 : ht_ok (ht1 d);
  wf_phase : phase_ok d;
  wf_nodup : NoDup (key_of <$> all d);
  wf_watch : watch (events d) = Some (watched d)
}.

Lemma SIZE_pow e : 0 <= e -> DICTHT_SIZE e = 2 ^ e.
Proof.
  intros. unfold DICTHT_SIZE. rewrite (proj2 (Z.eqb_neq _ _)) by lia.
  rewrite Z.shiftl_mul_pow2 by lia. lia.
Qed.

Lemma index_in_mod (h : ht) x : 0 <= ht_size_exp h -> index_in h x = x mod 2 ^ ht_size_exp h.
Proof.
  intros He. unfold index_in, DICTHT_SIZE_MASK. rewrite (proj2 (Z.eqb_neq _ _)) by lia.
  rewrite SIZE_pow by lia. apply land_ones_mod; lia.
Qed.

(** What the concatenation of the chains is when one bucket is singled out. *)
Lemma concat_bucket (t : list (list entry)) i c :
  t !! i = Some c -> exists rest, concat t ≡ₚ c ++ rest /\
    forall c', concat (<[i := c']> t) ≡ₚ c' ++ rest.
Proof.
  intros Hi. exists (concat (take i t) ++ concat (drop (S i) t)). split.
  - rewrite <- (take_drop_middle t i c Hi) at 1. rewrite concat_app. simpl. solve_Permutation.
  - intros c'. rewrite (list_insert_split i c' t). 2: { by apply lookup_lt_Some in Hi. }
    rewrite concat_app. simpl. solve_Permutation.
Qed.

Lemma bucket_at_Some (h : ht) i c :
  bucket_at h i = Some c <-> exists t, ht_table h = Some t /\ 0 <= i /\ t !! Z.to_nat i = Some c.
Proof.
  unfold bucket_at. destruct (ht_table h) as [t|]; simpl.
  - destruct (Z.leb_spec 0 i); split; intros Hx; simplify_eq; eauto.
    + by destruct Hx as (? & [= <-] & _ & ?).
    + destruct Hx as (? & [= <-] & ? & ?). lia.
  - split; [done|]. by intros (? & ? & _).
Qed.

Lemma ht_ok_Some (h : ht) t : ht_table h = Some t -> ht_ok h ->
  0 <= ht_size_exp h <= 60 /\ zlen t = 2 ^ ht_size_exp h /\ ht_used h = zlen (concat t) /\
  forall i c e, t !! i = Some c -> e ∈ c ->
      index_in h (hashFunction ty (key_of e)) = Z.of_nat i.
Proof. unfold ht_ok. by intros ->. Qed.

Lemma index_in_range (h : ht) t x :
  ht_table h = Some t -> ht_ok h -> 0 <= index_in h x < zlen t.
Proof.
  intros Ht Hok. destruct (ht_ok_Some h t Ht Hok) as (He & Hl & _).
  rewrite index_in_mod, Hl by lia. apply Z.mod_pos_bound. lia.
Qed.

Lemma bucket_of (h : ht) t x :
  ht_table h = Some t -> ht_ok h ->
  exists c, bucket_at h (index_in h x) = Some c /\ t !! Z.to_nat (index_in h x) = Some c.
Proof.
  intros Ht Hok. pose proof (index_in_range h t x Ht Hok) as Hr.
  destruct (lookup_lt_is_Some_2 t (Z.to_nat (index_in h x))) as [c Hc]; [lia|].
  exists c. split; [|done]. apply bucket_at_Some. exists t. split_and!; (done || lia).
Qed.

Lemma set_bucket_spec (h : ht) t i c c' used :
  ht_table h = Some t -> 0 <= i -> t !! Z.to_nat i = Some c -> ht_ok h ->
  (forall e, e ∈ c' -> index_in h (hashFunction ty (key_of e)) = i) ->
  used = ht_used h - zlen c + zlen c' ->
  let h' := Ht (Some (<[Z.to_nat i := c']> t)) (ht_size_exp h) used in
  set_bucket h i c' used = Some h' /\ ht_ok h' /\
  exists rest, elems h ≡ₚ c ++ rest /\ elems h' ≡ₚ c' ++ rest.
Proof.
  intros Ht Hi Hc Hok Hidx Hu. destruct (ht_ok_Some h t Ht Hok) as (He & Hl & Hus & Hix).
  destruct (concat_bucket t _ c Hc) as (rest & Hr & Hr'). specialize (Hr' c').
  assert (Hlt : (Z.to_nat i < length t)%nat) by (by apply lookup_lt_Some in Hc).
  cbv zeta. split_and!.
  - unfold set_bucket. rewrite Ht. mred. rewrite (proj2 (Z.leb_le _ _)) by lia.
    rewrite (proj2 (Z.ltb_lt _ _)) by lia. done.
  - unfold ht_ok. cbn [ht_table ht_size_exp ht_used]. rewrite length_insert. split_and!; try lia.
    + apply Permutation_length in Hr, Hr'. rewrite length_app in Hr, Hr'. lia.
    + intros j c1 e Hj Hin. destruct (decide (j = Z.to_nat i)) as [->|Hne].
      * rewrite list_lookup_insert_eq in Hj by lia. simplify_eq.
        rewrite Z2Nat.id by done. by apply Hidx.
      * rewrite list_lookup_insert_ne in Hj by lia. by apply (Hix j c1).
  - exists rest. unfold elems. cbn [ht_table]. by rewrite Ht.
Qed.

Lemma elems_index (h : ht) e :
  ht_ok h -> e ∈ elems h -> exists c, e ∈ c /\
    bucket_at h (index_in h (hashFunction ty (key_of e))) = Some c.
Proof.
  intros Hok Hin. unfold elems in Hin. destruct (ht_table h) as [t|] eqn:Ht; [|by apply not_elem_of_nil in Hin].
  simpl in Hin. rewrite list_elem_of_In in Hin. apply in_concat in Hin as (c & Hc & Hin).
  rewrite <- list_elem_of_In in Hc. rewrite <- list_elem_of_In in Hin. apply list_elem_of_lookup in Hc as [i Hc].
  destruct (ht_ok_Some h t Ht Hok) as (_ & _ & _ & Hix). exists c. split; [done|].
  rewrite (Hix i c e Hc Hin). apply bucket_at_Some. exists t. rewrite Nat2Z.id.
  split_and!; (done || lia).
Qed.

Lemma bucket_at_elems (h : ht) i c e : bucket_at h i = Some c -> e ∈ c -> e ∈ elems h.
Proof.
  intros (t & Ht & _ & Hc)%bucket_at_Some Hin. unfold elems. rewrite Ht. simpl.
  rewrite list_elem_of_In. apply in_concat. exists c. rewrite <- !list_elem_of_In.
  split; [|done]. by eapply list_elem_of_lookup_2.
Qed.

(** *** Moving a bucket *)

(** The bucket in the second table is the one of the hash in both cases. *)
Lemma rehash_index (h0 h1 : ht) e idx :
  0 <= ht_size_exp h0 -> 0 <= ht_size_exp h1 ->
  index_in h0 (hashFunction ty (key_of e)) = idx ->
  (if ht_size_exp h1 >? ht_size_exp h0
   then Z.land (hashFunction ty (key_of e)) (DICTHT_SIZE_MASK (ht_size_exp h1))
   else Z.land idx (DICTHT_SIZE_MASK (ht_size_exp h1))) =
  index_in h1 (hashFunction ty (key_of e)).
Proof.
  intros H0 H1 <-. rewrite Z.gtb_ltb.
  destruct (Z.ltb_spec (ht_size_exp h0) (ht_size_exp h1)); [done|].
  change (index_in h1 (index_in h0 (hashFunction ty (key_of e))) = index_in h1 (hashFunction ty (key_of e))).
  rewrite !index_in_mod by lia. apply Z.mod_mod_divide.
  exists (2 ^ (ht_size_exp h0 - ht_size_exp h1)). rewrite <- Z.pow_add_r by lia. f_equal. lia.
Qed.

Lemma rehash_chain_spec de : forall (h0 h1 : ht) t1 idx,
  ht_table h1 = Some t1 -> ht_ok h1 -> 0 <= ht_size_exp h0 ->
  (forall e, e ∈ de -> index_in h0 (hashFunction ty (key_of e)) = idx) ->
  exists h1', rehash_chain ty de h0 h1 idx =
      Some (Ht (ht_table h0) (ht_size_exp h0) (ht_used h0 - zlen de), h1') /\
    ht_ok h1' /\ is_Some (ht_table h1') /\ ht_size_exp h1' = ht_size_exp h1 /\
    elems h1' ≡ₚ de ++ elems h1.
Proof.
  induction de as [|e de IH]; intros h0 h1 t1 idx Ht Hok He0 Hidx.
  - exists h1. simpl. rewrite Z.sub_0_r. destruct h0. by split_and!.
  - cbn [rehash_chain]. destruct (ht_ok_Some h1 t1 Ht Hok) as (He1 & _).
    rewrite rehash_index by (try lia; apply Hidx; left).
    set (x := hashFunction ty (key_of e)).
    destruct (bucket_of h1 t1 x Ht Hok) as (c & Hb & Hc). rewrite Hb. mred.
    pose proof (index_in_range h1 t1 x Ht Hok) as Hr.
    destruct (set_bucket_spec h1 t1 (index_in h1 x) c (e :: c) (ht_used h1 + 1))
      as (-> & Hok' & rest & Hp & Hp'); try done; try lia.
    { intros e' [->|Hin]%elem_of_cons; [done|].
      destruct (ht_ok_Some h1 t1 Ht Hok) as (_ & _ & _ & Hix).
      rewrite (Hix _ _ _ Hc Hin). lia. }
    { simpl. lia. }
    mred. edestruct IH as (h1' & -> & Hok1 & Hs & Hexp & Hperm);
      [reflexivity|exact Hok'| |intros e' Hin; cbn; apply Hidx; by right|]; [done|].
    exists h1'. cbn [ht_table ht_size_exp ht_used] in *. split_and!; try done.
    + do 3 f_equal. simpl. lia.
    + rewrite Hperm, Hp', Hp. solve_Permutation.
Qed.

(** [d'] is well formed and has the entries of [d]: what every step of rehashing and
    resizing does. *)
Record same (d d' : dict) : Prop := Same {
  same_wf : wf d';
  same_all : all d' ≡ₚ all d;
  same_pause : pauserehash d' = pauserehash d;
  same_auto : pauseAutoResize d' = pauseAutoResize d;
  same_table : is_Some (ht_table (ht0 d)) -> is_Some (ht_table (ht0 d'));
  same_events : events d `prefix_of` events d'
}.

Lemma same_refl d : wf d -> same d d.
Proof. by constructor. Qed.

Lemma same_trans d1 d2 d3 : same d1 d2 -> same d2 d3 -> same d1 d3.
Proof. intros [] []. constructor; [done|by etrans|congruence|congruence|auto|by etrans]. Qed.

(** *** Rehashing *)

(** The state during rehashing, with the first table at hand. *)
Definition rehashing (d : dict) (t0 : list chain) : Prop :=
  ht_table (ht0 d) = Some t0 /\ is_Some (ht_table (ht1 d)) /\
  0 <= rehashidx d <= zlen t0 /\
  forall i, (i < Z.to_nat (rehashidx d))%nat -> t0 !! i = Some [].

Lemma wf_rehashing d : wf d -> dictIsRehashing d = true -> exists t0, rehashing d t0.
Proof.
  intros Hwf Hr. unfold dictIsRehashing in Hr. destruct (Z.eqb_spec (rehashidx d) (-1)); [done|].
  destruct (wf_phase d Hwf) as [[? _]|(t0 & ?)]; [done|]. by exists t0.
Qed.

Lemma rehashing_is d t0 : rehashing d t0 -> dictIsRehashing d = true.
Proof.
  intros (_ & _ & Hi & _). unfold dictIsRehashing. by rewrite (proj2 (Z.eqb_neq _ _)) by lia.
Qed.

Definition sizes (d : dict) : Z * Z := (ht_size_exp (ht0 d), ht_size_exp (ht1 d)).

Lemma rehashEntries_spec d t0 idx :
  wf d -> rehashing d t0 -> 0 <= idx < zlen t0 ->
  exists d', rehashEntriesInBucketAtIndex ty d idx = Some d' /\ same d d' /\
    rehashing d' (<[Z.to_nat idx := []]> t0) /\ rehashidx d' = rehashidx d /\ sizes d' = sizes d.
Proof.
  intros Hwf (Ht0 & [t1 Ht1] & Hri & Hempty) Hidx.
  destruct (ht_ok_Some _ _ Ht0 (wf_ht0 d Hwf)) as (He0 & Hl0 & Hu0 & Hix).
  destruct (lookup_lt_is_Some_2 t0 (Z.to_nat idx)) as [de Hde]; [lia|].
  unfold rehashEntriesInBucketAtIndex.
  rewrite (proj2 (bucket_at_Some (ht0 d) idx de)) by (exists t0; split_and!; (done || lia)). mred.
  destruct (rehash_chain_spec de (ht0 d) (ht1 d) t1 idx) as (h1 & -> & Hok1 & Hs1 & Hexp1 & Hp1);
    [done|apply Hwf|lia|intros e Hin; rewrite (Hix _ _ _ Hde Hin); lia|]. mred.
  destruct (set_bucket_spec (ht0 d) t0 idx de [] (ht_used (ht0 d) - zlen de))
    as (Hset & Hok0 & rest & Hp & Hp'); try done; try lia.
  { apply Hwf. } { by intros e ?%not_elem_of_nil. } { simpl. lia. }
  unfold set_bucket in *. cbn [ht_table ht_size_exp ht_used] in *. rewrite Hset. mred.
  eexists. split; [done|].
  assert (Hall : elems (Ht (Some (<[Z.to_nat idx:=[]]> t0)) (ht_size_exp (ht0 d))
    (ht_used (ht0 d) - zlen de)) ++ elems h1 ≡ₚ all d).
  { unfold all. rewrite Hp', Hp1, Hp. solve_Permutation. }
  assert (Hreh : forall i, (i < Z.to_nat (rehashidx d))%nat -> <[Z.to_nat idx := []]> t0 !! i = Some []).
  { intros i Hi. destruct (decide (i = Z.to_nat idx)) as [->|];
      [by rewrite list_lookup_insert_eq by lia|by rewrite list_lookup_insert_ne by lia; apply Hempty]. }
  assert (Hr' : rehashing (set_ht (set_ht d T0 (Ht (Some (<[Z.to_nat idx:=[]]> t0))
    (ht_size_exp (ht0 d)) (ht_used (ht0 d) - zlen de))) T1 h1) (<[Z.to_nat idx := []]> t0))
    by (split_and!; cbn; rewrite ?length_insert; (done || lia)).
  split_and!; [|done|done|by unfold sizes; cbn; rewrite Hexp1].
  constructor; try done. constructor; try done.
  - right. by eexists.
  - unfold all. cbn. rewrite Hall. apply Hwf.
  - unfold watched, dictBuckets. cbn. rewrite Hexp1. apply Hwf.
Qed.

Lemma dictCheckRehashingCompleted_spec d t0 :
  wf d -> rehashing d t0 ->
  let r := dictCheckRehashingCompleted d in
  same d r.1 /\ (r.2 = false -> r.1 = d /\ ht_used (ht0 d) <> 0) /\
  (r.2 = true -> dictIsRehashing r.1 = false).
Proof.
  intros Hwf Hr. pose proof (rehashing_is d t0 Hr) as Hreh. destruct Hr as (Ht0 & [t1 Ht1] & _).
  unfold dictCheckRehashingCompleted.
  destruct (Z.eqb_spec (ht_used (ht0 d)) 0) as [H0|H0]; cbn [negb fst snd].
  2: { split_and!; try done; try lia; by apply same_refl. }
  destruct (ht_ok_Some _ _ Ht0 (wf_ht0 d Hwf)) as (He0 & Hl0 & Hu0 & Hix).
  destruct (ht_ok_Some _ _ Ht1 (wf_ht1 d Hwf)) as (He1 & _).
  assert (Hall : all d = elems (ht1 d)).
  { unfold all, elems at 1. rewrite Ht0. simpl. by rewrite (nil_length_inv (concat t0)) by lia. }
  split_and!; [|done|done]. constructor; try done.
  - constructor; cbn.
    + apply Hwf.
    + done.
    + by left.
    + unfold all. cbn. rewrite app_nil_r, <- Hall. apply Hwf.
    + rewrite watch_app, (wf_watch d Hwf). unfold watched. rewrite Hreh. cbn.
      unfold dictBuckets. cbn. change (DICTHT_SIZE (-1)) with 0. f_equal; f_equal; [f_equal|]; lia.
  - by rewrite Hall; unfold all; cbn; rewrite app_nil_r.
  - cbn. by apply prefix_app_r.
Qed.

Lemma concat_empty (t : list chain) : (forall i, (i < length t)%nat -> t !! i = Some []) -> concat t = [].
Proof.
  induction t as [|c t IH]; intros Ht; [done|]. specialize (Ht 0%nat ltac:(simpl; lia)) as H0.
  simplify_eq/=. apply IH. intros i Hi. apply (Ht (S i)). simpl. lia.
Qed.

Lemma rehashing_room d t0 :
  wf d -> rehashing d t0 -> ht_used (ht0 d) <> 0 -> rehashidx d < zlen t0.
Proof.
  intros Hwf (Ht0 & _ & Hri & Hempty) Hu. destruct (decide (rehashidx d < zlen t0)); [done|].
  destruct (ht_ok_Some _ _ Ht0 (wf_ht0 d Hwf)) as (_ & _ & Hu0 & _).
  rewrite concat_empty in Hu0 by (intros i Hi; apply Hempty; lia). simpl in Hu0. lia.
Qed.

Lemma set_rehashidx_same d t0 i :
  wf d -> rehashing d t0 -> rehashing (set_rehashidx d i) t0 -> same d (set_rehashidx d i).
Proof.
  intros Hwf Hr Hr'. constructor; try done. destruct Hwf as [H0 H1 _ Hn Hw].
  constructor; try done; [right; by exists t0|]. unfold watched in *.
  rewrite (rehashing_is _ _ Hr) in Hw. by rewrite (rehashing_is _ _ Hr').
Qed.

(** The bucket at [rehashidx] is empty: it counts as moved. *)
Lemma rehashing_next d t0 :
  rehashing d t0 -> t0 !! Z.to_nat (rehashidx d) = Some [] ->
  rehashing (set_rehashidx d (rehashidx d + 1)) t0.
Proof.
  intros (Ht0 & Ht1 & Hri & Hempty) Hb. pose proof (lookup_lt_Some _ _ _ Hb).
  split_and!; cbn; try done; try lia. intros i Hi.
  destruct (decide (i = Z.to_nat (rehashidx d))) as [->|]; [done|]. apply Hempty. lia.
Qed.

Lemma skip_empty_spec fuel t0 : forall d ev,
  wf d -> rehashing d t0 -> ht_used (ht0 d) <> 0 -> zlen t0 - rehashidx d < Z.of_nat fuel ->
  exists d' r, skip_empty fuel d ev = Some (d', r) /\ same d d' /\ rehashing d' t0 /\
    sizes d' = sizes d /\ rehashidx d <= rehashidx d' /\
    match r with
    | None => rehashidx d < rehashidx d'
    | Some _ => rehashidx d' < zlen t0
    end.
Proof.
  induction fuel as [|fuel IH]; intros d ev Hwf Hr Hu Hf;
    pose proof (rehashing_room d t0 Hwf Hr Hu) as Hroom; [lia|].
  pose proof Hr as (Ht0 & _ & Hri & _). cbn [skip_empty].
  destruct (lookup_lt_is_Some_2 t0 (Z.to_nat (rehashidx d))) as [c Hc]; [lia|].
  rewrite (proj2 (bucket_at_Some (ht0 d) _ c)) by (exists t0; split_and!; (done || lia)). mred.
  destruct c as [|e c].
  2: { exists d, (Some ev). split_and!; try done; try lia; by apply same_refl. }
  pose proof (rehashing_next d t0 Hr Hc) as Hr'.
  pose proof (set_rehashidx_same d t0 _ Hwf Hr Hr') as Hs.
  destruct (ev - 1 =? 0).
  - eexists _, None. split; [done|]. split_and!; try done; cbn; lia.
  - destruct (IH (set_rehashidx d (rehashidx d + 1)) (ev - 1)) as (d' & r & -> & Hs' & Hr2 & Hsz & Hle & Hm);
      [apply Hs|done|done|cbn; lia|].
    exists d', r. cbn in Hle. split_and!; try done; [by eapply same_trans|lia|].
    destruct r; cbn in Hm; lia.
Qed.

Lemma rehash_loop_spec n : forall d t0 ev,
  wf d -> rehashing d t0 ->
  exists d' more t0', rehash_loop ty n d ev = Some (d', more) /\ same d d' /\ rehashing d' t0' /\
    sizes d' = sizes d /\ rehashidx d <= rehashidx d' /\
    (ht_used (ht0 d) = 0 -> d' = d /\ more = false) /\
    ((0 < n)%nat -> ht_used (ht0 d) <> 0 -> rehashidx d < rehashidx d').
Proof.
  induction n as [|n IH]; intros d t0 ev Hwf Hr; cbn [rehash_loop].
  { exists d, false, t0. by split_and!; (done || lia). }
  destruct (Z.eqb_spec (ht_used (ht0 d)) 0) as [H0|H0].
  { exists d, false, t0. by split_and!; (done || lia). }
  pose proof (rehashing_room d t0 Hwf Hr H0) as Hroom. pose proof Hr as (Ht0 & _ & Hri & _).
  destruct (ht_ok_Some _ _ Ht0 (wf_ht0 d Hwf)) as (He0 & Hl0 & _).
  rewrite SIZE_pow, <- Hl0, Z.gtb_ltb, (proj2 (Z.ltb_lt _ _)) by lia. cbn [negb]. rewrite Ht0.
  destruct (skip_empty_spec (S (length t0)) t0 d ev) as (d1 & r & -> & Hs1 & Hr1 & Hsz1 & Hle1 & Hm);
    [done..|lia|]. mred.
  destruct r as [ev1|].
  2: { exists d1, true, t0. split_and!; (done || lia). }
  destruct (rehashEntries_spec d1 t0 (rehashidx d1)) as (d2 & -> & Hs2 & Hr2 & Hi2 & Hsz2);
    [apply Hs1|done|destruct Hr1 as (_ & _ & ? & _); lia|]. mred.
  assert (Hr3 : rehashing (set_rehashidx d2 (rehashidx d2 + 1)) (<[Z.to_nat (rehashidx d1):=[]]> t0)).
  { apply rehashing_next; [done|]. rewrite Hi2. apply list_lookup_insert_eq.
    destruct Hr1 as (_ & _ & ? & _). lia. }
  pose proof (set_rehashidx_same _ _ _ (same_wf _ _ Hs2) Hr2 Hr3) as Hs3.
  edestruct IH as (d4 & more & t4 & Hrun & Hs4 & Hr4 & Hsz4 & Hle4 & _ & _); [apply Hs3|exact Hr3|].
  exists d4, more, t4. split; [exact Hrun|]. cbn in Hle4.
  split_and!; try done; try lia; [eauto using same_trans|].
  rewrite Hsz4. change (sizes d2 = sizes d). congruence.
Qed.

Lemma dictRehash_spec d n :
  in_s 32 (n * 10) -> wf d -> exists d' more, dictRehash ty can_resize d n = Some (d', more) /\ same d d' /\
    (rehash_disabled can_resize d = true -> d' = d /\ more = false) /\
    (more = true -> dictIsRehashing d' = true /\ sizes d' = sizes d /\
       (0 < n -> rehashidx d < rehashidx d')) /\
    (rehash_disabled can_resize d = false -> more = false -> dictIsRehashing d' = false).
Proof.
  intros Hb Hwf. unfold dictRehash. rewrite schk_id by done. mred.
  destruct (rehash_disabled can_resize d) eqn:Hdis.
  { exists d, false. by split_and!. }
  unfold rehash_disabled in Hdis. destruct (dictIsRehashing d) eqn:Hreh.
  2: { by rewrite orb_true_r in Hdis. }
  destruct (wf_rehashing d Hwf Hreh) as [t0 Hr].
  destruct (rehash_loop_spec (Z.to_nat n) d t0 (n * 10) Hwf Hr)
    as (d1 & more & t1 & -> & Hs & Hr1 & Hsz & Hle & H0 & Hlt). mred.
  assert (Hprog : more = true \/ ht_used (ht0 d1) <> 0 -> 0 < n -> rehashidx d < rehashidx d1).
  { intros Hm Hn. apply Hlt; [lia|]. intros Hz. destruct (H0 Hz) as [-> ->]. by destruct Hm. }
  destruct more; [exists d1, true; split_and!; try done; intros _; split_and!; eauto using rehashing_is|].
  pose proof (dictCheckRehashingCompleted_spec d1 t1 (same_wf _ _ Hs) Hr1) as (Hs2 & Hf & Ht).
  destruct (dictCheckRehashingCompleted d1) as [d2 completed]. cbn [fst snd] in *.
  exists d2, (negb completed). split_and!; [done|by eapply same_trans|done| |].
  - intros Hc. destruct completed; [done|]. destruct Hf as [-> Hu]; [done|].
    split_and!; eauto using rehashing_is.
  - intros _ Hc. destruct completed; [by apply Ht|done].
Qed.

Lemma rehash_disabled_sizes d d' :
  sizes d' = sizes d -> dictIsRehashing d' = dictIsRehashing d ->
  rehash_disabled can_resize d' = rehash_disabled can_resize d.
Proof. unfold sizes, rehash_disabled. by intros [= -> ->] ->. Qed.

Lemma rehashing_length d t0 : wf d -> rehashing d t0 -> zlen t0 = 2 ^ (sizes d).1.
Proof.
  intros Hwf (Ht0 & _). by destruct (ht_ok_Some _ _ Ht0 (wf_ht0 d Hwf)) as (_ & -> & _).
Qed.

Lemma rehash_fully_spec fuel : forall d t0,
  wf d -> rehashing d t0 -> zlen t0 - rehashidx d < Z.of_nat fuel ->
  exists d', rehash_fully ty can_resize fuel d = Some d' /\ same d d' /\
    (rehash_disabled can_resize d = true /\ d' = d \/ dictIsRehashing d' = false).
Proof.
  induction fuel as [|fuel IH]; intros d t0 Hwf Hr Hf.
  { destruct Hr as (_ & _ & ? & _). lia. }
  cbn [rehash_fully].
  destruct (dictRehash_spec d 1000 ltac:(by vm_compute) Hwf) as (d1 & more & -> & Hs & Hdis & Hm & Hend). mred.
  destruct (rehash_disabled can_resize d) eqn:Hd.
  { destruct Hdis as [-> ->]; [done|]. exists d. split_and!; try done. by left. }
  destruct more; [|exists d1; split_and!; auto].
  destruct Hm as (Hreh & Hsz & Hlt); [done|].
  destruct (wf_rehashing d1 (same_wf _ _ Hs) Hreh) as [t1 Hr1].
  destruct (IH d1 t1 (same_wf _ _ Hs) Hr1) as (d' & -> & Hs' & Hor).
  { rewrite (rehashing_length d1 t1 (same_wf _ _ Hs) Hr1), Hsz.
    rewrite (rehashing_length d t0 Hwf Hr) in Hf. lia. }
  exists d'. split_and!; [done|by eapply same_trans|]. right. destruct Hor as [[Hd1 _]|]; [|done].
  rewrite (rehash_disabled_sizes d d1) in Hd1; [congruence|done|].
  by rewrite Hreh, (rehashing_is d t0).
Qed.

Lemma dictBucketRehash_spec d t0 idx :
  wf d -> rehashing d t0 -> 0 <= idx < zlen t0 ->
  exists d' r, _dictBucketRehash ty can_resize d idx = Some (d', r) /\ same d d' /\
    (dictIsRehashing d' = true -> sizes d' = sizes d).
Proof.
  intros Hwf Hr Hidx. unfold _dictBucketRehash.
  destruct (negb (pauserehash d =? 0)); [exists d, false; by split_and!|].
  destruct (rehash_disabled can_resize d); [exists d, false; by split_and!|].
  destruct (rehashEntries_spec d t0 idx Hwf Hr Hidx) as (d1 & -> & Hs & Hr1 & _ & Hsz). mred.
  pose proof (dictCheckRehashingCompleted_spec d1 _ (same_wf _ _ Hs) Hr1) as (Hs2 & Hf & Ht).
  destruct (dictCheckRehashingCompleted d1) as [d2 completed]. cbn [fst snd] in *.
  exists d2, true. split_and!; [done|by eapply same_trans|]. intros Hreh.
  destruct completed; [rewrite Ht in Hreh; done|]. destruct Hf as [-> _]; done.
Qed.

(** Whether the bucket of a hash has been moved is decided as before the step. *)
Lemma dictRehashStepIfNeeded_spec d k :
  wf d -> exists d', _dictRehashStepIfNeeded ty can_resize d (index_in (ht0 d) k) = Some d' /\
    same d d' /\
    (dictIsRehashing d' = true -> index_in (ht0 d') k = index_in (ht0 d) k).
Proof.
  intros Hwf. unfold _dictRehashStepIfNeeded.
  destruct (dictIsRehashing d) eqn:Hreh; [|by exists d]. cbn [negb orb].
  destruct (negb (pauserehash d =? 0)); [by exists d|].
  destruct (wf_rehashing d Hwf Hreh) as [t0 Hr]. pose proof Hr as (Ht0 & _).
  destruct (bucket_of (ht0 d) t0 k Ht0 (wf_ht0 d Hwf)) as (c & Hb & _).
  pose proof (index_in_range (ht0 d) t0 k Ht0 (wf_ht0 d Hwf)) as Hrange.
  assert (Hidx : forall d', sizes d' = sizes d -> index_in (ht0 d') k = index_in (ht0 d) k)
    by (unfold sizes, index_in; by intros d' [= -> _]).
  set (here := (if index_in (ht0 d) k >=? rehashidx d then _ else _)).
  assert (Hhere : exists b, here = Some b) by (unfold here; rewrite Hb; destruct (_ >=? _); eauto).
  destruct Hhere as [b ->]. mred. destruct b.
  - destruct (dictBucketRehash_spec d t0 (index_in (ht0 d) k)) as (d' & r & -> & Hs & Hz); [done..|].
    mred. exists d'. split_and!; auto.
  - destruct (dictRehash_spec d 1 ltac:(by vm_compute) Hwf) as (d' & more & -> & Hs & Hdis & Hm & Hend). mred.
    exists d'. split_and!; [done|done|]. intros Hr'. destruct more; [apply Hidx, Hm; done|].
    destruct (rehash_disabled can_resize d); [by destruct Hdis as [-> _]|].
    by rewrite Hend in Hr'.
Qed.

(** *** Resizing *)

Lemma _dictNextExp_range size : 2 <= _dictNextExp size <= 63.
Proof.
  unfold _dictNextExp. change DICT_HT_INITIAL_SIZE with 4. change DICT_HT_INITIAL_EXP with 2.
  rewrite Z.geb_leb. destruct (Z.leb_spec size 4); [lia|].
  destruct (Z.leb_spec (2 ^ 63 - 1) size); [lia|].
  assert (1 <= Z.log2 (size - 1)) by (apply Z.log2_le_pow2; simpl; lia).
  assert (Z.log2 (size - 1) < 63) by (apply Z.log2_lt_pow2; lia). lia.
Qed.

(** The test for overflow of the size in bytes. *)
Lemma alloc_fits e : 2 <= e <= 63 -> (uwrap 64 (2 ^ e * 8) <? 2 ^ e) = false -> e <= 60.
Proof.
  intros He Hb. destruct (decide (e <= 60)); [done|].
  assert (e = 61 \/ e = 62 \/ e = 63) as [->|[->| ->]] by lia; by vm_compute in Hb.
Qed.

Lemma new_ht_ok e : 0 <= e <= 60 -> ht_ok (Ht (Some (replicate (Z.to_nat (2 ^ e)) [])) e 0).
Proof.
  intros He. unfold ht_ok. cbn [ht_table ht_size_exp ht_used]. rewrite length_replicate.
  assert (0 < 2 ^ e) by (apply pow2_pos; lia). split_and!; try lia.
  - rewrite concat_empty; [done|]. intros i Hi. rewrite length_replicate in Hi.
    by apply lookup_replicate.
  - intros i c x Hc Hin. apply lookup_replicate in Hc as [-> _]. by apply not_elem_of_nil in Hin.
Qed.

Lemma replicate_elems (n : nat) (e u : Z) : elems (Ht (Some (replicate n [])) e u) = [].
Proof.
  change (concat (replicate n ([] : chain)) = []). apply concat_empty. intros i Hi.
  rewrite length_replicate in Hi. by apply lookup_replicate.
Qed.

Lemma not_rehashing d : wf d -> dictIsRehashing d = false -> rehashidx d = -1 /\ ht1 d = _dictReset.
Proof.
  intros Hwf Hr. destruct (wf_phase d Hwf) as [?|(t0 & Hreh)]; [done|].
  by rewrite (rehashing_is d t0 Hreh) in Hr.
Qed.

Abbreviation new_ht e := (Ht (Some (replicate (Z.to_nat (2 ^ e)) [])) e 0).

Lemma not_rehashing_all d : ht1 d = _dictReset -> all d = elems (ht0 d).
Proof. intros Hh1. unfold all. rewrite Hh1. apply app_nil_r. Qed.

Lemma table0_Some d : wf d -> all d <> [] -> is_Some (ht_table (ht0 d)).
Proof.
  intros Hwf Ha. destruct (wf_phase d Hwf) as [[_ Hh1]|(t0 & Ht0 & _)]; [|by exists t0].
  rewrite (not_rehashing_all d Hh1) in Ha. unfold elems in Ha.
  destruct (ht_table (ht0 d)); [by eexists|done].
Qed.

Lemma watch_idle d :
  wf d -> ht1 d = _dictReset ->
  watch (events d) = Some (false, 0, DICTHT_SIZE (ht_size_exp (ht0 d))).
Proof.
  intros Hwf Hh1. rewrite (wf_watch d Hwf). unfold watched, dictBuckets.
  assert (dictIsRehashing d = false) as ->.
  { destruct (dictIsRehashing d) eqn:Hr; [|done].
    destruct (wf_rehashing d Hwf Hr) as (t0 & _ & [t1 Ht1] & _). by rewrite Hh1 in Ht1. }
  rewrite Hh1. cbn. change (DICTHT_SIZE (-1)) with 0. by rewrite Z.add_0_r.
Qed.

(** A resize of a table without entries replaces it. *)
Lemma resize_first_same d e :
  wf d -> ht1 d = _dictReset -> ht_used (ht0 d) = 0 -> 0 <= e <= 60 ->
  same d (Dict (new_ht e) _dictReset (-1) (pauserehash d) (pauseAutoResize d)
    ((events d ++ [RehashingStarted (DICTHT_SIZE (ht_size_exp (ht0 d))); BucketChanged (2 ^ e)]) ++
     [RehashingCompleted (DICTHT_SIZE (ht_size_exp (ht0 d)));
      BucketChanged (- DICTHT_SIZE (ht_size_exp (ht0 d)))])).
Proof.
  intros Hwf Hh1 Hu He. pose proof (watch_idle d Hwf Hh1) as Hb.
  assert (Hnil : elems (ht0 d) = []).
  { pose proof (wf_ht0 d Hwf) as Hok. unfold elems, ht_ok in *.
    destruct (ht_table (ht0 d)) as [t|]; [|done]. destruct Hok as (_ & _ & Hu' & _).
    apply nil_length_inv. simpl. lia. }
  pose proof (replicate_elems (Z.to_nat (2 ^ e)) e 0) as Hne.
  constructor; try done.
  - constructor; cbn [ht0 ht1 events]; [by apply new_ht_ok|done|by left| |].
    + unfold all. cbn [ht0 ht1]. rewrite Hne. by constructor.
    + rewrite !watch_app, Hb. unfold watched, dictBuckets. cbn. rewrite (SIZE_pow e) by lia.
      change (DICTHT_SIZE (-1)) with 0. f_equal; f_equal; [f_equal|]; lia.
  - rewrite (not_rehashing_all d), Hnil by done. unfold all. cbn [ht0 ht1]. by rewrite Hne.
  - cbn [events]. rewrite <- app_assoc. by apply prefix_app_r.
Qed.

(** Any other resize starts rehashing. *)
Lemma resize_start_same d e t0 :
  wf d -> ht1 d = _dictReset -> ht_table (ht0 d) = Some t0 -> 0 <= e <= 60 ->
  let d1 := Dict (ht0 d) (new_ht e) 0 (pauserehash d) (pauseAutoResize d)
    (events d ++ [RehashingStarted (DICTHT_SIZE (ht_size_exp (ht0 d))); BucketChanged (2 ^ e)]) in
  same d d1 /\ rehashing d1 t0.
Proof.
  intros Hwf Hh1 Ht0 He d1. pose proof (watch_idle d Hwf Hh1) as Hb.
  pose proof (replicate_elems (Z.to_nat (2 ^ e)) e 0) as Hne.
  assert (Hr1 : rehashing d1 t0) by (split_and!; cbn; (done || lia)).
  assert (Ha : all d1 = all d).
  { rewrite (not_rehashing_all d) by done. unfold all, d1. cbn [ht0 ht1]. by rewrite Hne, app_nil_r. }
  split; [|done]. constructor; [|by rewrite Ha|done|done|done|by apply prefix_app_r].
  constructor; cbn [ht0 ht1 events d1]; [apply Hwf|by apply new_ht_ok|right; by exists t0| |].
  - rewrite Ha. apply Hwf.
  - rewrite watch_app, Hb. unfold watched, dictBuckets. cbn. by rewrite (SIZE_pow e) by lia.
Qed.

Lemma dictResize_spec d size alloc :
  wf d -> dictIsRehashing d = false ->
  exists d' st f, _dictResize ty can_resize d size alloc = Some (d', st, f) /\ same d d' /\
    rehashidx d' <= 0 /\ (is_Some (ht_table (ht0 d)) \/ st = DICT_OK -> is_Some (ht_table (ht0 d'))).
Proof.
  intros Hwf Hnr. destruct (not_rehashing d Hwf Hnr) as [Hri Hh1].
  unfold _dictResize. rewrite Hnr. cbv zeta. set (e := _dictNextExp size).
  pose proof (_dictNextExp_range size) as He. fold e in He. rewrite (SIZE_pow e) by lia.
  assert (Herr : forall f : bool, exists d' st f', Some (d, DICT_ERR, f) = Some (d', st, f') /\ same d d' /\
    rehashidx d' <= 0 /\ (is_Some (ht_table (ht0 d)) \/ st = DICT_OK -> is_Some (ht_table (ht0 d')))).
  { intros f. eexists _, _, _. split_and!; [done|by apply same_refl|lia|by intros [?|?]]. }
  destruct (2 ^ e <? size); [apply Herr|]. cbn [orb].
  destruct (uwrap 64 (2 ^ e * 8) <? 2 ^ e) eqn:Hfit; [apply Herr|].
  apply alloc_fits in Hfit; [|done].
  destruct (e =? ht_size_exp (ht0 d)); [apply Herr|].
  destruct (bool_decide (alloc = Some false)); [apply Herr|]. clear Herr.
  cbn [ht0 notify set_rehashidx set_ht].
  destruct (bool_decide (ht_table (ht0 d) = None) || (ht_used (ht0 d) =? 0)) eqn:Hfirst.
  - eexists _, _, _. split_and!; [done| |done|by eexists].
    apply (resize_first_same d e); [done|done| |lia].
    pose proof (wf_ht0 d Hwf) as Hok. unfold ht_ok in Hok.
    destruct (ht_table (ht0 d)) as [t|]; [|by destruct Hok].
    rewrite bool_decide_false in Hfirst by done. by apply Z.eqb_eq in Hfirst.
  - destruct (ht_table (ht0 d)) as [t0|] eqn:Ht0; [|done].
    destruct (resize_start_same d e t0) as [Hs1 Hr1]; [done|done|done|lia|].
    cbv zeta in Hs1, Hr1. unfold notify, set_rehashidx, set_ht.
    cbn [ht0 ht1 rehashidx pauserehash pauseAutoResize events].
    set (d1 := Dict (ht0 d) _ 0 _ _ _) in *. destruct (force_full_rehash ty).
    + rewrite SIZE_pow by (destruct (ht_ok_Some _ _ Ht0 (wf_ht0 d Hwf)); lia).
      destruct (rehash_fully_spec (S (Z.to_nat (2 ^ ht_size_exp (ht0 d)))) d1 t0) as (d2 & -> & Hs2 & Hor);
        [apply Hs1|done|rewrite (rehashing_length d1 t0 (same_wf _ _ Hs1) Hr1); cbn; lia|].
      mred. eexists _, _, _. split_and!; [done|by eapply same_trans| |].
      * destruct Hor as [[_ ->]|Hor]; [done|]. destruct (not_rehashing d2 (same_wf _ _ Hs2) Hor); lia.
      * intros _. apply table0_Some; [apply Hs2|]. intros Hnil.
        assert (Ha : all d = []) by (apply Permutation_nil_r; by rewrite <- Hnil, (same_all _ _ Hs2), (same_all _ _ Hs1)).
        rewrite (not_rehashing_all d Hh1) in Ha. unfold elems in Ha. rewrite Ht0 in Ha. cbn in Ha.
        destruct (ht_ok_Some _ _ Ht0 (wf_ht0 d Hwf)) as (_ & _ & Hu & _). rewrite Ha in Hu.
        rewrite Hu in Hfirst. by rewrite orb_true_r in Hfirst.
    + eexists _, _, _. split_and!; [done|done|done|by eexists].
Qed.

Lemma table0_None d : wf d -> ht_table (ht0 d) = None ->
  dictIsRehashing d = false /\ ht_size_exp (ht0 d) = -1 /\ ht_used (ht0 d) = 0.
Proof.
  intros Hwf Ht. pose proof (wf_ht0 d Hwf) as Hok. unfold ht_ok in Hok. rewrite Ht in Hok.
  split; [|done]. destruct (dictIsRehashing d) eqn:Hr; [|done].
  destruct (wf_rehashing d Hwf Hr) as (t0 & ? & _). congruence.
Qed.

Lemma dictExpand_spec d size :
  wf d -> exists d' st, dictExpand ty can_resize d size = Some (d', st) /\ same d d' /\
    (d' = d \/ dictIsRehashing d = false /\ rehashidx d' <= 0) /\
    (is_Some (ht_table (ht0 d)) \/ size = 4 -> is_Some (ht_table (ht0 d'))).
Proof.
  intros Hwf. unfold dictExpand, _dictExpand. destruct (dictIsRehashing d) eqn:Hnr; cbn [orb].
  { exists d, DICT_ERR. split_and!; [done|by apply same_refl|by left|].
    intros _. destruct (wf_rehashing d Hwf Hnr) as (t0 & ? & _). by exists t0. }
  destruct (ht_used (ht0 d) >? size) eqn:Hu; cbn [orb].
  - exists d, DICT_ERR. split_and!; [done|by apply same_refl|by left|]. intros [?| ->]; [done|].
    destruct (ht_table (ht0 d)) as [t|] eqn:Ht; [by eexists|].
    destruct (table0_None d Hwf Ht) as (_ & _ & Hz). by rewrite Hz in Hu.
  - destruct (DICTHT_SIZE (ht_size_exp (ht0 d)) >=? size) eqn:Hsz.
    + exists d, DICT_ERR. split_and!; [done|by apply same_refl|by left|]. intros [?| ->]; [done|].
      destruct (ht_table (ht0 d)) as [t|] eqn:Ht; [by eexists|].
      destruct (table0_None d Hwf Ht) as (_ & Hz & _). by rewrite Hz in Hsz.
    + destruct (dictResize_spec d size None Hwf Hnr) as (d' & st & f & Heq & Hs & Hri & Hsome).
      rewrite Heq. mred. exists d', st. split_and!; [done|done|by right|]. intros Hor.
      apply Hsome. destruct Hor as [?| ->]; [by left|].
      destruct (ht_table (ht0 d)) as [t|] eqn:Ht; [left; by eexists|right].
      destruct (table0_None d Hwf Ht) as (_ & Hz & Hz').
      unfold _dictResize in Heq. rewrite Hnr, Hz in Heq. cbn [ht0 notify set_rehashidx set_ht] in Heq.
      rewrite Ht in Heq. change (_dictNextExp 4) with 2 in Heq. change (DICTHT_SIZE 2) with 4 in Heq.
      change (uwrap 64 (4 * 8) <? 4) with false in Heq. cbn [Z.ltb Z.compare Pos.compare] in Heq.
      rewrite !bool_decide_false, bool_decide_true in Heq by done. cbn in Heq. by simplify_eq.
Qed.

Lemma dictShrink_spec d size :
  wf d -> exists d' st, dictShrink ty can_resize d size = Some (d', st) /\ same d d'.
Proof.
  intros Hwf. unfold dictShrink. destruct (dictIsRehashing d) eqn:Hnr; cbn [orb].
  { exists d, DICT_ERR. split_and!; [done|by apply same_refl]. }
  destruct ((ht_used (ht0 d) >? size) || (DICTHT_SIZE (ht_size_exp (ht0 d)) <=? size)).
  { exists d, DICT_ERR. split_and!; [done|by apply same_refl]. }
  destruct (dictResize_spec d size None Hwf Hnr) as (d' & st & f & -> & Hs & _).
  mred. by exists d', st.
Qed.

Lemma dictExpandIfNeeded_spec d :
  wf d -> exists d' st, dictExpandIfNeeded ty can_resize d = Some (d', st) /\ same d d' /\
    (d' = d \/ dictIsRehashing d = false /\ rehashidx d' <= 0) /\
    is_Some (ht_table (ht0 d')).
Proof.
  intros Hwf. unfold dictExpandIfNeeded. cbv zeta. destruct (dictIsRehashing d) eqn:Hnr.
  { exists d, DICT_OK. split_and!; [done|by apply same_refl|by left|].
    destruct (wf_rehashing d Hwf Hnr) as (t0 & ? & _). by exists t0. }
  destruct (Z.eqb_spec (DICTHT_SIZE (ht_size_exp (ht0 d))) 0) as [Hz|Hz].
  { destruct (dictExpand_spec d DICT_HT_INITIAL_SIZE Hwf) as (d' & st & -> & Hs & Hor & Hsome).
    mred. exists d', DICT_OK. split_and!; [done|done| |apply Hsome; by right].
    destruct Hor as [->|[_ ?]]; [by left|by right]. }
  assert (Ht : is_Some (ht_table (ht0 d))).
  { destruct (ht_table (ht0 d)) as [t|] eqn:Ht; [by eexists|].
    destruct (table0_None d Hwf Ht) as (_ & He & _). by rewrite He in Hz. }
  destruct (_ || _).
  2: { exists d, DICT_ERR. split_and!; [done|by apply same_refl|by left|done]. }
  destruct (dictTypeResizeAllowed ty d (ht_used (ht0 d) + 1)).
  2: { exists d, DICT_OK. split_and!; [done|by apply same_refl|by left|done]. }
  destruct (dictExpand_spec d (ht_used (ht0 d) + 1) Hwf) as (d' & st & -> & Hs & Hor & Hsome).
  mred. exists d', DICT_OK. split_and!; [done|done| |apply Hsome; by left].
  destruct Hor as [->|[_ ?]]; [by left|by right].
Qed.

Lemma shrinkIfNeeded_spec d :
  wf d -> exists d' st, dictShrinkIfNeeded ty can_resize d = Some (d', st) /\ same d d'.
Proof.
  intros Hwf. unfold dictShrinkIfNeeded. cbv zeta. destruct (dictIsRehashing d) eqn:Hnr; [by exists d, DICT_OK|].
  destruct (_ <=? DICT_HT_INITIAL_SIZE); [by exists d, DICT_OK|]. destruct (_ || _); [|by exists d, DICT_ERR].
  destruct (dictTypeResizeAllowed ty d (ht_used (ht0 d))); [|by exists d, DICT_OK].
  destruct (dictShrink_spec d (ht_used (ht0 d)) Hwf) as (d' & st & -> & Hs). mred. by exists d', DICT_OK.
Qed.

Lemma dictShrinkIfNeeded_spec d :
  wf d -> exists d', _dictShrinkIfNeeded ty can_resize d = Some d' /\ same d d'.
Proof.
  intros Hwf. unfold _dictShrinkIfNeeded. destruct (pauseAutoResize d >? 0); [by exists d|].
  destruct (shrinkIfNeeded_spec d Hwf) as (d' & st & -> & Hs). mred. by exists d'.
Qed.

Lemma tryExpand_spec d size alloc :
  wf d -> exists d' st, dictTryExpand ty can_resize d size alloc = Some (d', st) /\ same d d'.
Proof.
  intros Hwf. unfold dictTryExpand, _dictExpand. destruct (dictIsRehashing d) eqn:Hnr; cbn [orb].
  { by exists d, DICT_OK. }
  destruct (_ || _); [by exists d, DICT_OK|].
  destruct (dictResize_spec d size (Some alloc) Hwf Hnr) as (d' & st & f & -> & Hs & _).
  mred. by exists d', (if f then DICT_ERR else DICT_OK).
Qed.

(** *** Searching *)

Lemma chain_find_Some key (c : chain) i :
  chain_find ty key c = Some i -> exists e, c !! i = Some e /\ key_of e = key.
Proof.
  revert i. induction c as [|e c IH]; intros i; [done|]. cbn [chain_find].
  destruct (keyCompare ty key (key_of e)) eqn:Hk.
  - intros [= <-]. exists e. split; [done|]. symmetry. by apply Hcmp.
  - destruct (chain_find ty key c) as [j|]; [|done]. intros [= <-]. by apply IH.
Qed.

Lemma chain_find_None key (c : chain) e :
  chain_find ty key c = None -> e ∈ c -> key_of e <> key.
Proof.
  induction c as [|e' c IH]; intros Hf Hin; [by apply not_elem_of_nil in Hin|]. cbn [chain_find] in Hf.
  destruct (keyCompare ty key (key_of e')) eqn:Hk; [done|].
  apply elem_of_cons in Hin as [->|Hin].
  - intros Hx. apply not_true_iff_false in Hk. by apply Hk, Hcmp.
  - apply IH; [|done]. by destruct (chain_find ty key c).
Qed.

(** [l] is a link to an entry with the key. *)
Definition points_to (d : dict) (l : link) (key : K) : Prop :=
  exists e, entry_at d l = Some e /\ key_of e = key.

Lemma get_ht_ok d t : wf d -> ht_ok (get_ht d t).
Proof. intros []. by destruct t. Qed.

Lemma search_for_insert_spec d t tb key :
  wf d -> ht_table (get_ht d t) = Some tb ->
  let idx := index_in (get_ht d t) (hashFunction ty key) in
  exists r, search_for_insert ty d t (hashFunction ty key) key = Some r /\
    search_table ty d t (hashFunction ty key) key = Some (r, Some (Link t idx 0)) /\
    match r with
    | None => forall e, e ∈ elems (get_ht d t) -> key_of e <> key
    | Some l => points_to d l key
    end.
Proof.
  intros Hwf Ht. pose proof (get_ht_ok d t Hwf) as Hok. cbv zeta.
  destruct (bucket_of (get_ht d t) tb (hashFunction ty key) Ht Hok) as (c & Hb & _).
  unfold search_for_insert, search_table. rewrite Ht, Hb. mred.
  destruct (chain_find ty key c) as [i|] eqn:Hf; cbn [fmap option_fmap option_map].
  - eexists. split_and!; [done|done|]. destruct (chain_find_Some key c i Hf) as (e & He & Hk).
    exists e. split; [|done]. unfold entry_at. cbn [l_table l_idx l_pos]. by rewrite Hb.
  - exists None. split_and!; [done|done|]. intros e Hin Hk.
    destruct (elems_index _ e Hok Hin) as (c' & Hin' & Hb'). rewrite Hk, Hb in Hb'. simplify_eq.
    by eapply chain_find_None.
Qed.

(** A bucket before [rehashidx] holds nothing. *)
Lemma moved_bucket d key e :
  wf d -> index_in (ht0 d) (hashFunction ty key) < rehashidx d ->
  e ∈ elems (ht0 d) -> key_of e <> key.
Proof.
  intros Hwf Hlt Hin Hk. destruct (elems_index _ e (wf_ht0 d Hwf) Hin) as (c & Hc & Hb).
  apply bucket_at_Some in Hb as (t0 & Ht0 & Hpos & Hb). rewrite Hk in *.
  destruct (wf_phase d Hwf) as [[? _]|(t0' & Ht0' & _ & _ & Hempty)]; [lia|]. simplify_eq.
  rewrite Hempty in Hb by lia. simplify_eq. by apply not_elem_of_nil in Hc.
Qed.

Lemma elem_of_all d e : e ∈ all d <-> e ∈ elems (ht0 d) \/ e ∈ elems (ht1 d).
Proof. apply elem_of_app. Qed.

(** The index that is compared with [rehashidx] may be of an earlier state. *)
Definition idx_ok (d : dict) (idx : Z) (key : K) : Prop :=
  idx < rehashidx d -> index_in (ht0 d) (hashFunction ty key) = idx.

Lemma search_tables_spec d idx key :
  wf d -> is_Some (ht_table (ht0 d)) -> idx_ok d idx key ->
  exists r, search_tables ty d idx (hashFunction ty key) key = Some r /\
    match r with
    | None => forall e, e ∈ all d -> key_of e <> key
    | Some l => points_to d l key
    end.
Proof.
  intros Hwf [t0 Ht0] Hidx. unfold search_tables.
  destruct (search_for_insert_spec d T0 t0 key Hwf Ht0) as (r0 & Hr0 & _ & Hm0).
  assert (exists r, (if idx <? rehashidx d then Some None
      else search_for_insert ty d T0 (hashFunction ty key) key) = Some r /\
    match r with None => forall e, e ∈ elems (ht0 d) -> key_of e <> key | Some l => points_to d l key end)
    as (r & -> & Hm).
  { destruct (Z.ltb_spec idx (rehashidx d)) as [Hlt|Hge]; [|by exists r0].
    exists None. split; [done|]. intros e. apply moved_bucket; [done|]. rewrite Hidx; done. }
  mred. destruct r as [l|]; [by exists (Some l)|].
  destruct (dictIsRehashing d) eqn:Hreh; cbn [negb].
  - destruct (wf_rehashing d Hwf Hreh) as (t0' & _ & [t1 Ht1] & _).
    destruct (search_for_insert_spec d T1 t1 key Hwf Ht1) as (r1 & -> & _ & Hm1).
    exists r1. split; [done|]. destruct r1; [done|].
    intros e [?|?]%elem_of_all; [by apply Hm|by apply Hm1].
  - exists None. split; [done|]. intros e. destruct (not_rehashing d Hwf Hreh) as [_ Hh1].
    rewrite not_rehashing_all by done. apply Hm.
Qed.

(** *** Changing one bucket *)

Lemma put_spec d t tb i c c' :
  wf d -> ht_table (get_ht d t) = Some tb -> 0 <= i -> tb !! Z.to_nat i = Some c ->
  (c = [] -> t = T0 -> dictIsRehashing d = false) ->
  (forall e, e ∈ c' -> index_in (get_ht d t) (hashFunction ty (key_of e)) = i) ->
  (forall rest, all d ≡ₚ c ++ rest -> NoDup (key_of <$> (c' ++ rest))) ->
  exists h', set_bucket (get_ht d t) i c' (ht_used (get_ht d t) - zlen c + zlen c') = Some h' /\
    wf (set_ht d t h') /\ bucket_at h' i = Some c' /\
    exists rest, all d ≡ₚ c ++ rest /\ all (set_ht d t h') ≡ₚ c' ++ rest.
Proof.
  intros Hwf Htb Hi Hc Hreh Hidx Hnd. pose proof (lookup_lt_Some _ _ _ Hc) as Hlt.
  destruct (set_bucket_spec (get_ht d t) tb i c c' (ht_used (get_ht d t) - zlen c + zlen c'))
    as (Hset & Hok & rest & Hp & Hp'); try done; [by apply get_ht_ok|].
  rewrite Hset. eexists. split; [done|]. set (h' := Ht _ _ _) in *.
  assert (Hrest : exists rest', all d ≡ₚ c ++ rest' /\ all (set_ht d t h') ≡ₚ c' ++ rest').
  { destruct t; unfold all; cbn [set_ht ht0 ht1] in *.
    - exists (rest ++ elems (ht1 d)). rewrite Hp, Hp'. split; solve_Permutation.
    - exists (rest ++ elems (ht0 d)). rewrite Hp, Hp'. split; solve_Permutation. }
  assert (Hb : bucket_at h' i = Some c').
  { apply bucket_at_Some. eexists. split_and!; [done|done|]. by apply list_lookup_insert_eq. }
  split_and!; try done. destruct Hrest as (rest' & Ha & Ha'). destruct Hwf as [H0 H1 Hph Hn Hbk].
  constructor; [by destruct t|by destruct t| |rewrite Ha'; by apply Hnd|by destruct t].
  destruct t; cbn [get_ht] in *.
  - destruct Hph as [?|(t0 & Ht0 & Hs1 & Hri & Hempty)]; [by left|right]. simplify_eq.
    exists (<[Z.to_nat i := c']> t0). cbn. rewrite length_insert. split_and!; try done; try lia.
    intros j Hj. rewrite list_lookup_insert_ne; [by apply Hempty|]. intros <-.
    rewrite Hempty in Hc by done. simplify_eq.
    unfold dictIsRehashing in Hreh. specialize (Hreh eq_refl eq_refl).
    destruct (Z.eqb_spec (rehashidx d) (-1)); [lia|done].
  - destruct Hph as [[_ Hh1]|(t0 & Ht0 & Hs1 & Hri & Hempty)]; [by rewrite Hh1 in Htb|].
    right. exists t0. cbn. split_and!; (done || lia || by eexists).
Qed.

Lemma get_set_ht (d : dict) t h : get_ht (set_ht d t h) t = h.
Proof. by destruct t. Qed.

Lemma NoDup_replace (c c' rest l : list entry) :
  NoDup (key_of <$> l) -> l ≡ₚ c ++ rest -> (key_of <$> c') = (key_of <$> c) ->
  NoDup (key_of <$> (c' ++ rest)).
Proof.
  intros Hn Hp He. rewrite fmap_app, He, <- fmap_app, <- Hp. done.
Qed.

Lemma dictInsertKeyAtLink_spec d sk v :
  wf d -> is_Some (ht_table (ht0 d)) ->
  (forall e, e ∈ all d -> key_of e <> keyFromStoredKey ty sk) ->
  let t := if dictIsRehashing d then T1 else T0 in
  let l := Link t (index_in (get_ht d t) (hashFunction ty (keyFromStoredKey ty sk))) 0 in
  exists d', dictInsertKeyAtLink d sk v l = Some (d', l) /\ wf d' /\
    all d' ≡ₚ (sk, v) :: all d /\ entry_at d' l = Some (sk, v) /\
    pauserehash d' = pauserehash d /\ pauseAutoResize d' = pauseAutoResize d /\ events d' = events d.
Proof.
  intros Hwf [t0 Ht0] Hnew. cbv zeta. set (k := keyFromStoredKey ty sk).
  set (t := if dictIsRehashing d then T1 else T0).
  assert (exists tb, ht_table (get_ht d t) = Some tb) as [tb Ht].
  { unfold t. destruct (dictIsRehashing d) eqn:Hr; [|by exists t0].
    destruct (wf_rehashing d Hwf Hr) as (? & _ & Hs & _). exact Hs. }
  pose proof (get_ht_ok d t Hwf) as Hok.
  pose proof (index_in_range _ tb (hashFunction ty k) Ht Hok) as Hr.
  destruct (bucket_of _ tb (hashFunction ty k) Ht Hok) as (c & Hb & Hc).
  destruct (ht_ok_Some _ _ Ht Hok) as (He & Hl & _ & Hix).
  destruct (put_spec d t tb (index_in (get_ht d t) (hashFunction ty k)) c ((sk, v) :: c))
    as (h' & Hset & Hwf' & Hb' & rest & Ha & Ha'); try done; try lia.
  - unfold t. intros _. by destruct (dictIsRehashing d).
  - intros e [->|Hin]%elem_of_cons; [done|]. rewrite (Hix _ _ _ Hc Hin). lia.
  - intros rest Ha. change (NoDup (k :: (key_of <$> (c ++ rest)))). rewrite <- Ha.
    constructor; [|apply Hwf]. intros (e & Hk & Hin)%list_elem_of_fmap. by apply (Hnew e Hin).
  - exists (set_ht d t h'). split_and!; try done.
    + unfold dictInsertKeyAtLink. fold t. cbn [l_table l_idx].
      rewrite bool_decide_true by done. cbn [negb]. unfold DICTHT_SIZE_MASK.
      rewrite (proj2 (Z.eqb_neq _ _)) by lia. rewrite SIZE_pow by lia.
      rewrite !(proj2 (Z.leb_le _ _)) by lia. cbn [andb negb]. rewrite Hb. mred.
      replace (ht_used (get_ht d t) + 1) with (ht_used (get_ht d t) - zlen c + zlen ((sk, v) :: c))
        by (simpl; lia).
      by rewrite Hset.
    + rewrite Ha', Ha. done.
    + unfold entry_at. cbn [l_table l_idx l_pos]. rewrite get_set_ht, Hb'. done.
    + by destruct t.
    + by destruct t.
    + by destruct t.
Qed.

Lemma entry_at_Some d l e :
  wf d -> entry_at d l = Some e ->
  exists tb c, ht_table (get_ht d (l_table l)) = Some tb /\ 0 <= l_idx l /\
    tb !! Z.to_nat (l_idx l) = Some c /\ bucket_at (get_ht d (l_table l)) (l_idx l) = Some c /\
    c !! l_pos l = Some e /\
    (forall x, x ∈ c -> index_in (get_ht d (l_table l)) (hashFunction ty (key_of x)) = l_idx l).
Proof.
  unfold entry_at. intros Hwf He. destruct (bucket_at _ _) as [c|] eqn:Hb; [|done]. cbn in He.
  pose proof Hb as (tb & Htb & Hi & Hc)%bucket_at_Some. exists tb, c. split_and!; try done.
  intros x Hin. destruct (ht_ok_Some _ _ Htb (get_ht_ok d (l_table l) Hwf)) as (_ & _ & _ & Hix).
  rewrite (Hix _ _ _ Hc Hin). lia.
Qed.

Lemma set_entry_spec d l e f :
  wf d -> entry_at d l = Some e -> key_of (f e) = key_of e ->
  exists d', set_entry d l f = Some d' /\ wf d' /\ entry_at d' l = Some (f e) /\
    (exists rest, all d ≡ₚ e :: rest /\ all d' ≡ₚ f e :: rest) /\
    pauserehash d' = pauserehash d /\ pauseAutoResize d' = pauseAutoResize d.
Proof.
  intros Hwf He Hk.
  destruct (entry_at_Some d l e Hwf He) as (tb & c & Htb & Hi & Hc & Hb & Hpos & Hix).
  set (c' := <[l_pos l := f e]> c).
  assert (Hc' : exists r, c ≡ₚ e :: r /\ c' ≡ₚ f e :: r).
  { exists (take (l_pos l) c ++ drop (S (l_pos l)) c). split.
    - rewrite <- (take_drop_middle c _ e Hpos) at 1. solve_Permutation.
    - unfold c'. rewrite list_insert_split by (by eapply lookup_lt_Some). solve_Permutation. }
  assert (Hkeys : key_of <$> c' = key_of <$> c).
  { unfold c'. rewrite list_fmap_insert, Hk. apply list_insert_id. by rewrite list_lookup_fmap, Hpos. }
  destruct (put_spec d (l_table l) tb (l_idx l) c c') as (h' & Hset & Hwf' & Hb' & rest & Ha & Ha');
    try done.
  - intros ->. by rewrite lookup_nil in Hpos.
  - intros x (j & Hj)%list_elem_of_lookup. unfold c' in Hj.
    apply list_lookup_insert_Some in Hj as [(<- & <- & _)|[_ Hj]].
    + rewrite Hk. apply Hix. by eapply list_elem_of_lookup_2.
    + apply Hix. by eapply list_elem_of_lookup_2.
  - intros rest Ha. eapply NoDup_replace; [apply Hwf|done|done].
  - exists (set_ht d (l_table l) h'). destruct Hc' as (r & Hr & Hr').
    unfold set_entry. rewrite Hb. mred. rewrite Hpos. mred. fold c'.
    replace (ht_used (get_ht d (l_table l))) with
      (ht_used (get_ht d (l_table l)) - zlen c + zlen c') by (unfold c'; rewrite length_insert; lia).
    rewrite Hset. split_and!; [done|done| | |by destruct (l_table l)|by destruct (l_table l)].
    + unfold entry_at. rewrite get_set_ht, Hb'. cbn. apply list_lookup_insert_eq.
      by eapply lookup_lt_Some.
    + exists (r ++ rest). rewrite Ha, Ha', Hr, Hr'. done.
Qed.

Lemma unlink_spec d l e :
  wf d -> entry_at d l = Some e ->
  exists d', unlink d l = Some (d', e) /\ wf d' /\ all d ≡ₚ e :: all d' /\
    pauserehash d' = pauserehash d /\ pauseAutoResize d' = pauseAutoResize d /\ events d' = events d.
Proof.
  intros Hwf He.
  destruct (entry_at_Some d l e Hwf He) as (tb & c & Htb & Hi & Hc & Hb & Hpos & Hix).
  set (c' := take (l_pos l) c ++ drop (S (l_pos l)) c).
  assert (Hp : c ≡ₚ e :: c').
  { rewrite <- (take_drop_middle c _ e Hpos) at 1. unfold c'. solve_Permutation. }
  destruct (put_spec d (l_table l) tb (l_idx l) c c') as (h' & Hset & Hwf' & _ & rest & Ha & Ha');
    try done.
  - intros ->. by rewrite lookup_nil in Hpos.
  - intros x Hin. apply Hix. rewrite Hp. by right.
  - intros rest Ha. pose proof (wf_nodup d Hwf) as Hn. rewrite Ha, Hp in Hn. cbn in Hn.
    by apply NoDup_cons in Hn as [_ Hn].
  - exists (set_ht d (l_table l) h'). unfold unlink. rewrite Hb. mred. rewrite Hpos. mred. fold c'.
    apply Permutation_length in Hp as Hlen. simpl in Hlen.
    replace (ht_used (get_ht d (l_table l)) - 1) with
      (ht_used (get_ht d (l_table l)) - zlen c + zlen c') by lia.
    rewrite Hset. split_and!; [done|done| |by destruct (l_table l)..].
    rewrite Ha, Ha', Hp. done.
Qed.

(** *** The dictionary as a map *)

Definition map_of (l : list entry) : gmap K entry := list_to_map ((fun e => (key_of e, e)) <$> l).
Definition to_map (d : dict) : gmap K entry := map_of (all d).

Lemma map_of_keys (l : list entry) : ((fun e => (key_of e, e)) <$> l).*1 = key_of <$> l.
Proof. by rewrite <- list_fmap_compose. Qed.

Lemma map_of_perm l l' : NoDup (key_of <$> l) -> l ≡ₚ l' -> map_of l = map_of l'.
Proof.
  intros Hn Hp. apply list_to_map_proper; [by rewrite map_of_keys|by apply fmap_Permutation].
Qed.

Lemma to_map_Some d k e : wf d -> to_map d !! k = Some e <-> e ∈ all d /\ key_of e = k.
Proof.
  intros Hwf. unfold to_map, map_of. rewrite <- elem_of_list_to_map by (rewrite map_of_keys; apply Hwf).
  rewrite list_elem_of_fmap. split; [by intros (? & [= -> ->] & ?)|intros [? <-]; eauto].
Qed.

Lemma to_map_None d k : wf d -> to_map d !! k = None <-> forall e, e ∈ all d -> key_of e <> k.
Proof.
  intros Hwf. split.
  - intros Hn e Hin Hk. by rewrite (proj2 (to_map_Some d k e Hwf) (conj Hin Hk)) in Hn.
  - intros Hn. destruct (to_map d !! k) as [e|] eqn:He; [|done].
    apply to_map_Some in He as [? ?]; [|done]. by destruct (Hn e).
Qed.

Lemma same_map d d' : same d d' -> to_map d' = to_map d.
Proof. intros []. apply map_of_perm; [apply same_wf0|done]. Qed.

(** What an operation on one dictionary does, as its owner sees it: the map it leaves,
    the pause counters kept, the callbacks appended. *)
Record upd (d d' : dict) (m : gmap K entry) : Prop := Upd {
  upd_wf : wf d';
  upd_map : to_map d' = m;
  upd_pause : pauserehash d' = pauserehash d;
  upd_auto : pauseAutoResize d' = pauseAutoResize d;
  upd_events : events d `prefix_of` events d'
}.

Lemma same_upd d d' : same d d' -> upd d d' (to_map d).
Proof. intros Hs. pose proof (same_map _ _ Hs). by destruct Hs. Qed.

Lemma upd_trans d1 d2 d3 m m' : upd d1 d2 m -> upd d2 d3 m' -> upd d1 d3 m'.
Proof. intros [] []. constructor; [done|done|congruence|congruence|by etrans]. Qed.

Lemma to_map_cons d l e :
  wf d -> all d ≡ₚ e :: l -> to_map d = <[key_of e := e]> (map_of l) /\ map_of l !! key_of e = None.
Proof.
  intros Hwf Hp. split; [unfold to_map; by rewrite (map_of_perm (all d) (e :: l)); [|apply Hwf|]|].
  pose proof (wf_nodup d Hwf) as Hn. rewrite Hp in Hn. cbn in Hn. apply NoDup_cons in Hn as [Hni _].
  apply not_elem_of_list_to_map. by rewrite map_of_keys.
Qed.

Lemma dictSize_all d : wf d -> dictSize d = zlen (all d).
Proof.
  intros [H0 H1 _ _ _]. unfold dictSize, all. rewrite length_app.
  assert (Hh : forall h, ht_ok h -> ht_used h = zlen (elems h)).
  { intros h Hok. unfold ht_ok, elems in *. destruct (ht_table h); [by destruct Hok as (_ & _ & ? & _)|].
    by destruct Hok. }
  rewrite (Hh _ H0), (Hh _ H1). lia.
Qed.

Lemma dictSize_zero d : wf d -> dictSize d = 0 -> all d = [].
Proof. intros Hwf Hz. rewrite dictSize_all in Hz by done. apply nil_length_inv. lia. Qed.

(** *** The operations *)

(** The table that receives new entries, and the bucket of a key in it. *)
Definition home (d : dict) (key : K) : link :=
  let t := if dictIsRehashing d then T1 else T0 in
  Link t (index_in (get_ht d t) (hashFunction ty key)) 0.

Lemma dictFindLinkInternal_spec d key want :
  wf d -> is_Some (ht_table (ht0 d)) -> want = true \/ dictSize d <> 0 ->
  exists d' found bucket, dictFindLinkInternal ty can_resize d key want = Some (d', found, bucket) /\
    same d d' /\
    match found with
    | None => bucket = Some (home d' key) /\ forall e, e ∈ all d' -> key_of e <> key
    | Some l => points_to d' l key
    end.
Proof.
  intros Hwf Hsome Hw. unfold dictFindLinkInternal.
  replace (negb want && (dictSize d =? 0)) with false
    by (destruct Hw as [->|Hw]; [done|rewrite (proj2 (Z.eqb_neq _ _)) by done; by destruct want]).
  destruct (dictRehashStepIfNeeded_spec d (hashFunction ty key) Hwf) as (d' & -> & Hs & Hidx). mred.
  destruct (same_table _ _ Hs Hsome) as [t0 Ht0]. pose proof (same_wf _ _ Hs) as Hwf'.
  destruct (search_for_insert_spec d' T0 t0 key Hwf' Ht0) as (r0 & _ & Hr0 & Hm0).
  destruct (dictIsRehashing d') eqn:Hreh.
  - rewrite <- Hidx by done. destruct (wf_rehashing d' Hwf' Hreh) as (t0' & _ & [t1 Ht1] & _).
    destruct (search_for_insert_spec d' T1 t1 key Hwf' Ht1) as (r1 & _ & Hr1 & Hm1). rewrite Hr0, Hr1.
    assert (Hhome : Link T1 (index_in (get_ht d' T1) (hashFunction ty key)) 0 = home d' key)
      by (unfold home; by rewrite Hreh).
    destruct (Z.ltb_spec (index_in (ht0 d') (hashFunction ty key)) (rehashidx d')) as [Hlt|Hge]; mred.
    + eexists _, _, _. split_and!; [done|done|]. destruct r1; [done|]. rewrite Hhome. split; [done|].
      intros e [Hin|Hin]%elem_of_all; [by eapply moved_bucket|by apply Hm1].
    + destruct r0 as [l|]; [by eexists _, _, _|]. eexists _, _, _. split_and!; [done|done|].
      destruct r1; [done|]. rewrite Hhome. split; [done|].
      intros e [Hin|Hin]%elem_of_all; [by apply Hm0|by apply Hm1].
  - destruct (not_rehashing d' Hwf' Hreh) as [Hri Hh1].
    rewrite (proj2 (Z.ltb_ge _ _)), Hr0.
    2: { rewrite Hri. unfold index_in. pose proof (Z.land_nonneg (hashFunction ty key)
           (DICTHT_SIZE_MASK (ht_size_exp (ht0 d)))) as [_ Hnn]. specialize (Hhash key). lia. }
    mred. destruct r0 as [l|]; eexists _, _, _; (split_and!; [done|done|]); [done|].
    split; [unfold home; by rewrite Hreh|]. intros e. rewrite not_rehashing_all by done. apply Hm0.
Qed.

Lemma dictFindLink_spec d key want :
  wf d ->
  exists d' found bucket, dictFindLink ty can_resize d key want = Some (d', found, bucket) /\
    same d d' /\
    match found with
    | None => (bucket = None \/ bucket = Some (home d' key)) /\ forall e, e ∈ all d' -> key_of e <> key
    | Some l => points_to d' l key
    end.
Proof.
  intros Hwf. unfold dictFindLink. destruct (Z.eqb_spec (dictSize d) 0) as [Hz|Hz].
  - exists d, None, None. split_and!; [done|by apply same_refl|by left|].
    intros e. rewrite (dictSize_zero d Hwf Hz). by intros ?%not_elem_of_nil.
  - destruct (dictFindLinkInternal_spec d key want) as (d' & found & bucket & -> & Hs & Hm);
      [done| |by right|].
    + apply table0_Some; [done|]. intros Hnil. rewrite dictSize_all, Hnil in Hz by done. done.
    + eexists _, _, _. split_and!; [done|done|]. destruct found; [done|]. destruct Hm. auto.
Qed.

Lemma points_to_map d l key :
  wf d -> points_to d l key -> exists e, entry_at d l = Some e /\ key_of e = key /\ to_map d !! key = Some e.
Proof.
  intros Hwf (e & He & Hk). exists e. split_and!; try done. apply to_map_Some; [done|]. split; [|done].
  unfold entry_at in He. destruct (bucket_at _ _) as [c|] eqn:Hb; [|done]. cbn in He.
  apply list_elem_of_lookup_2 in He. pose proof (bucket_at_elems _ _ _ _ Hb He) as Hin.
  apply elem_of_all. destruct (l_table l); [by left|by right].
Qed.

Lemma index_in_nonneg (h : ht) key : 0 <= index_in h (hashFunction ty key).
Proof. unfold index_in. apply Z.land_nonneg. left. apply Hhash. Qed.

Lemma step_idx_ok (d d' : dict) key :
  wf d' -> (dictIsRehashing d' = true -> index_in (ht0 d') (hashFunction ty key) = index_in (ht0 d) (hashFunction ty key)) ->
  idx_ok d' (index_in (ht0 d) (hashFunction ty key)) key.
Proof.
  intros Hwf Hidx Hlt. pose proof (index_in_nonneg (ht0 d) key).
  destruct (dictIsRehashing d') eqn:Hr; [by apply Hidx|].
  destruct (not_rehashing d' Hwf Hr). lia.
Qed.

Lemma dictFindLinkForInsert_spec d key :
  wf d -> is_Some (ht_table (ht0 d)) \/ pauseAutoResize d <= 0 ->
  exists d' r, dictFindLinkForInsert ty can_resize d key = Some (d', r) /\ same d d' /\
    is_Some (ht_table (ht0 d')) /\
    match r with
    | inl l => points_to d' l key
    | inr b => b = home d' key /\ forall e, e ∈ all d' -> key_of e <> key
    end.
Proof.
  intros Hwf Hor. unfold dictFindLinkForInsert. cbv zeta.
  destruct (dictRehashStepIfNeeded_spec d (hashFunction ty key) Hwf) as (d1 & -> & Hs1 & Hidx). mred.
  pose proof (same_wf _ _ Hs1) as Hwf1. pose proof (step_idx_ok d d1 key Hwf1 Hidx) as Hok1.
  set (idx := index_in (ht0 d) (hashFunction ty key)) in *.
  assert (exists d2 st, _dictExpandIfNeeded ty can_resize d1 = Some (d2, st) /\ same d1 d2 /\
    idx_ok d2 idx key /\ is_Some (ht_table (ht0 d2))) as (d2 & st & -> & Hs2 & Hok2 & Hsome2).
  { unfold _dictExpandIfNeeded. rewrite (same_auto _ _ Hs1), Z.gtb_ltb.
    destruct (Z.ltb_spec 0 (pauseAutoResize d)).
    - exists d1, DICT_ERR. split_and!; [done|by apply same_refl|done|].
      destruct Hor; [by apply (same_table _ _ Hs1)|lia].
    - destruct (dictExpandIfNeeded_spec d1 Hwf1) as (d2 & st & -> & Hs2 & Hd2 & Hsome2).
      exists d2, st. split_and!; try done. destruct Hd2 as [->|[_ Hri]]; [done|].
      intros Hlt. pose proof (index_in_nonneg (ht0 d) key). unfold idx in Hlt. lia. }
  mred. pose proof (same_wf _ _ Hs2) as Hwf2.
  destruct (search_tables_spec d2 idx key Hwf2 Hsome2 Hok2) as (r & -> & Hm). mred.
  destruct r as [l|]; eexists _, _; (split_and!; [done|by eapply same_trans|done|done]).
Qed.

Lemma set_entry_map d l e f :
  wf d -> entry_at d l = Some e -> key_of (f e) = key_of e ->
  exists d', set_entry d l f = Some d' /\ wf d' /\ to_map d' = <[key_of e := f e]> (to_map d) /\
    pauserehash d' = pauserehash d /\ pauseAutoResize d' = pauseAutoResize d.
Proof.
  intros Hwf He Hk.
  destruct (set_entry_spec d l e f Hwf He Hk) as (d' & Hset & Hwf' & _ & (rest & Ha & Ha') & Hp & Hq).
  exists d'. split_and!; try done. destruct (to_map_cons d rest e Hwf Ha) as [-> _].
  destruct (to_map_cons d' rest (f e) Hwf' Ha') as [-> _]. by rewrite insert_insert_eq, Hk.
Qed.

Lemma dictAddRaw_spec d sk v :
  wf d -> is_Some (ht_table (ht0 d)) \/ pauseAutoResize d <= 0 ->
  let key := keyFromStoredKey ty sk in
  exists d' r, dictAddRaw ty can_resize d sk v = Some (d', r) /\ wf d' /\
    pauserehash d' = pauserehash d /\ pauseAutoResize d' = pauseAutoResize d /\
    events d `prefix_of` events d' /\
    match r with
    | inl l => points_to d' l key /\ to_map d' = to_map d
    | inr l => entry_at d' l = Some (sk, v) /\ to_map d !! key = None /\
               to_map d' = <[key := (sk, v)]> (to_map d)
    end.
Proof.
  intros Hwf Hor. cbv zeta. unfold dictAddRaw. set (key := keyFromStoredKey ty sk).
  destruct (dictFindLinkForInsert_spec d key Hwf Hor) as (d1 & r & -> & Hs & Hsome & Hm). mred.
  pose proof (same_map _ _ Hs) as Hmap. destruct Hs as [Hwf1 Ha Hp Hq _ Hev].
  destruct r as [l|b].
  - exists d1, (inl l). by split_and!.
  - destruct Hm as [-> Hnew].
    destruct (dictInsertKeyAtLink_spec d1 sk v Hwf1 Hsome Hnew) as (d2 & Hins & Hwf2 & Ha2 & He2 & Hp2 & Hq2 & Hev2).
    change (dictInsertKeyAtLink d1 sk v (home d1 key) = Some (d2, home d1 key)) in Hins.
    rewrite Hins. mred. exists d2, (inr (home d1 key)). split_and!; try done; try congruence.
    + rewrite <- Hmap. by apply to_map_None.
    + rewrite <- Hmap. by destruct (to_map_cons d2 (all d1) (sk, v) Hwf2 Ha2).
Qed.

Lemma dict_find_spec d key :
  wf d -> exists d', dictFind ty can_resize d key = Some (d', to_map d !! key) /\ same d d'.
Proof.
  intros Hwf. unfold dictFind.
  destruct (dictFindLink_spec d key false Hwf) as (d' & found & bucket & -> & Hs & Hm). mred.
  pose proof (same_map _ _ Hs) as Hmap. pose proof (same_wf _ _ Hs) as Hwf'.
  exists d'. split; [|done]. rewrite <- Hmap. destruct found as [l|].
  - destruct (points_to_map d' l key Hwf' Hm) as (e & -> & _ & ->). done.
  - destruct Hm as [_ Hm]. by rewrite (proj2 (to_map_None d' key Hwf') Hm).
Qed.

(** A lookup answers from the map whatever step of rehashing it makes, and leaves
    the same map. *)
Theorem dictFind_correct d key :
  wf d -> exists d', dictFind ty can_resize d key = Some (d', to_map d !! key) /\ wf d' /\
    to_map d' = to_map d.
Proof.
  intros Hwf. destruct (dict_find_spec d key Hwf) as (d' & Hf & Hs).
  exists d'. split_and!; [done|apply Hs|by apply same_map].
Qed.

(** C37: [dictAdd] binds a new key and leaves the map alone when the key is present,
    whatever rehashing and resizing it triggers; the dictionary must have a table or
    be allowed to create one. *)
Theorem dictAdd_correct junk d sk val :
  wf d -> is_Some (ht_table (ht0 d)) \/ pauseAutoResize d <= 0 ->
  let key := keyFromStoredKey ty sk in
  exists d' st, dictAdd ty can_resize junk d sk val = Some (d', st) /\ wf d' /\
    match to_map d !! key with
    | None => st = DICT_OK /\ to_map d' = <[key := (sk, val)]> (to_map d)
    | Some _ => st = DICT_ERR /\ to_map d' = to_map d
    end.
Proof.
  intros Hwf Hor key. unfold dictAdd.
  destruct (dictAddRaw_spec d sk junk Hwf Hor) as (d1 & r & -> & Hwf1 & _ & _ & _ & Hm). mred.
  fold key in Hm. destruct r as [l|l].
  - destruct Hm as [Hp Hmap]. destruct (points_to_map d1 l key Hwf1 Hp) as (e & _ & _ & He).
    rewrite <- Hmap, He. exists d1, DICT_ERR. by split_and!.
  - destruct Hm as (He & Hnone & Hmap).
    destruct (set_entry_map d1 l (sk, junk) (fun e => (fst e, val)) Hwf1 He eq_refl)
      as (d2 & Hset & Hwf2 & Hmap2 & _).
    unfold dictSetVal. rewrite Hset. mred. exists d2, DICT_OK. rewrite Hnone. split_and!; try done.
    rewrite Hmap2, Hmap. apply insert_insert_eq.
Qed.

(** [dictReplace] binds the key to the value; a present entry keeps its stored key. *)
Theorem dictReplace_correct junk d sk val :
  wf d -> is_Some (ht_table (ht0 d)) \/ pauseAutoResize d <= 0 ->
  let key := keyFromStoredKey ty sk in
  exists d', dictReplace ty can_resize junk d sk val =
      Some (d', match to_map d !! key with None => true | Some _ => false end) /\ wf d' /\
    to_map d' = <[key := (match to_map d !! key with None => sk | Some e => fst e end, val)]> (to_map d).
Proof.
  intros Hwf Hor key. unfold dictReplace.
  destruct (dictAddRaw_spec d sk junk Hwf Hor) as (d1 & r & -> & Hwf1 & _ & _ & _ & Hm). mred.
  fold key in Hm. unfold dictSetVal. destruct r as [l|l].
  - destruct Hm as [Hp Hmap]. destruct (points_to_map d1 l key Hwf1 Hp) as (e & He & Hk & Hl).
    rewrite <- Hmap, Hl.
    destruct (set_entry_map d1 l e (fun e => (fst e, val)) Hwf1 He eq_refl) as (d2 & -> & Hwf2 & Hmap2 & _).
    mred. exists d2. rewrite Hk in Hmap2. by split_and!.
  - destruct Hm as (He & Hnone & Hmap). rewrite Hnone.
    destruct (set_entry_map d1 l (sk, junk) (fun e => (fst e, val)) Hwf1 He eq_refl)
      as (d2 & -> & Hwf2 & Hmap2 & _).
    mred. exists d2. split_and!; try done. rewrite Hmap2, Hmap. apply insert_insert_eq.
Qed.

(** Taking out the entry of a key, and the resize that may follow. *)
Lemma unlink_shrink_spec d l key :
  wf d -> points_to d l key ->
  exists d1 d' e, unlink d l = Some (d1, e) /\ _dictShrinkIfNeeded ty can_resize d1 = Some d' /\
    to_map d !! key = Some e /\ wf d' /\ to_map d' = delete key (to_map d) /\
    pauserehash d' = pauserehash d /\ pauseAutoResize d' = pauseAutoResize d /\
    events d `prefix_of` events d'.
Proof.
  intros Hwf Hp. destruct (points_to_map d l key Hwf Hp) as (e & He & Hk & Hl).
  destruct (unlink_spec d l e Hwf He) as (d1 & Hun & Hwf1 & Ha & Hp1 & Hq1 & Hev1).
  destruct (dictShrinkIfNeeded_spec d1 Hwf1) as (d2 & Hsh & Hs).
  exists d1, d2, e. split_and!; try done.
  - apply Hs.
  - rewrite (same_map _ _ Hs). destruct (to_map_cons d (all d1) e Hwf Ha) as [-> Hn].
    rewrite Hk in *. by rewrite delete_insert_id.
  - by rewrite (same_pause _ _ Hs).
  - by rewrite (same_auto _ _ Hs).
  - rewrite <- Hev1. apply Hs.
Qed.

Lemma delete_spec d key :
  wf d -> exists d', dictDelete ty can_resize d key =
      Some (d', match to_map d !! key with Some _ => DICT_OK | None => DICT_ERR end) /\ wf d' /\
    to_map d' = delete key (to_map d) /\
    pauserehash d' = pauserehash d /\ pauseAutoResize d' = pauseAutoResize d /\ events d `prefix_of` events d'.
Proof.
  intros Hwf. unfold dictDelete, dictGenericDelete.
  destruct (Z.eqb_spec (dictSize d) 0) as [Hz|Hz].
  { exists d. unfold to_map. rewrite (dictSize_zero d Hwf Hz). cbn. by split_and!. }
  destruct (dictRehashStepIfNeeded_spec d (hashFunction ty key) Hwf) as (d1 & -> & Hs1 & Hidx). mred.
  pose proof (same_wf _ _ Hs1) as Hwf1. pose proof (step_idx_ok d d1 key Hwf1 Hidx) as Hok1.
  assert (Hsome : is_Some (ht_table (ht0 d1))).
  { apply (same_table _ _ Hs1), table0_Some; [done|]. intros Hnil.
    by rewrite dictSize_all, Hnil in Hz by done. }
  destruct (search_tables_spec d1 _ key Hwf1 Hsome Hok1) as (r & -> & Hm). mred.
  rewrite <- (same_map _ _ Hs1). destruct r as [l|].
  - destruct (unlink_shrink_spec d1 l key Hwf1 Hm) as (d2 & d' & e & -> & Hsh & -> & Hwf' & Hmap & Hp & Hq & Hev).
    mred. rewrite Hsh. mred. exists d'. destruct Hs1. split_and!; try done; try congruence. by etrans.
  - mred. apply to_map_None in Hm as Hn; [|done]. rewrite Hn. exists d1. destruct Hs1. split_and!; try done.
    symmetry. by apply delete_id.
Qed.

(** C38: [dictDelete] removes the key and tells whether it was present. *)
Theorem dictDelete_correct d key :
  wf d -> exists d', dictDelete ty can_resize d key =
      Some (d', match to_map d !! key with Some _ => DICT_OK | None => DICT_ERR end) /\ wf d' /\
    to_map d' = delete key (to_map d).
Proof.
  intros Hwf. destruct (delete_spec d key Hwf) as (d' & Hd & Hwf' & Hmap & _). by exists d'.
Qed.

Lemma pause_wf d n : wf d -> wf (Dict (ht0 d) (ht1 d) (rehashidx d) (pauserehash d + n) (pauseAutoResize d) (events d)).
Proof. by intros []. Qed.

Lemma unlink_find_spec d key :
  wf d -> exists d1 l, dictTwoPhaseUnlinkFind ty can_resize d key = Some (d1, l) /\
    wf d1 /\ to_map d1 = to_map d /\ pauseAutoResize d1 = pauseAutoResize d /\
    events d `prefix_of` events d1 /\
    match l with
    | Some l => points_to d1 l key /\ pauserehash d1 = pauserehash d + 1
    | None => to_map d !! key = None /\ pauserehash d1 = pauserehash d
    end.
Proof.
  intros Hwf. unfold dictTwoPhaseUnlinkFind. destruct (Z.eqb_spec (dictSize d) 0) as [Hz|Hz].
  { exists d, None. unfold to_map. rewrite (dictSize_zero d Hwf Hz). by split_and!. }
  assert (exists d0, (if dictIsRehashing d then _dictRehashStep ty can_resize d else Some d) = Some d0 /\
    same d d0) as (d0 & -> & Hs).
  { destruct (dictIsRehashing d); [|by exists d]. unfold _dictRehashStep.
    destruct (pauserehash d =? 0); [|by exists d].
    destruct (dictRehash_spec d 1 ltac:(by vm_compute) Hwf) as (d0 & more & -> & Hs & _). mred. by exists d0. }
  mred. pose proof (same_wf _ _ Hs) as Hwf0.
  assert (Hsome : is_Some (ht_table (ht0 d0))).
  { apply (same_table _ _ Hs), table0_Some; [done|]. intros Hnil.
    by rewrite dictSize_all, Hnil in Hz by done. }
  destruct (search_tables_spec d0 (index_in (ht0 d0) (hashFunction ty key)) key Hwf0 Hsome ltac:(done))
    as (r & -> & Hm). mred. destruct (same_upd _ _ Hs) as [_ Hmap Hp Hq Hev]. destruct r as [l|].
  - exists (dictPauseRehashing d0), (Some l). split_and!; try done; [by apply (pause_wf d0 1)|].
    cbn. lia.
  - exists d0, None. split_and!; try done. rewrite <- Hmap. by apply to_map_None.
Qed.

Lemma unlink_free_spec d l key :
  wf d -> points_to d l key ->
  exists d', dictTwoPhaseUnlinkFree ty can_resize d (Some l) = Some (d', to_map d !! key) /\
    is_Some (to_map d !! key) /\ wf d' /\ to_map d' = delete key (to_map d) /\
    pauserehash d' = pauserehash d - 1 /\ pauseAutoResize d' = pauseAutoResize d /\
    events d `prefix_of` events d'.
Proof.
  intros Hwf Hpt.
  destruct (unlink_shrink_spec d l key Hwf Hpt) as (d1 & d2 & e & Hun & Hsh & Hl & Hwf2 & Hmap & Hp & Hq & Hev).
  cbn [dictTwoPhaseUnlinkFree]. rewrite Hun. mred. rewrite Hsh, Hl. mred.
  exists (dictResumeRehashing d2). split_and!; try done; [by apply (pause_wf d2 (-1))|].
  cbn. lia.
Qed.

(** [dictTwoPhaseUnlinkFind] and [dictTwoPhaseUnlinkFree] together delete the key;
    rehashing is paused in between and resumed at the end. *)
Theorem dictTwoPhaseUnlink_correct d key :
  wf d -> exists d1 l, dictTwoPhaseUnlinkFind ty can_resize d key = Some (d1, l) /\
    to_map d1 = to_map d /\
    pauserehash d1 = pauserehash d + (match l with Some _ => 1 | None => 0 end) /\
    exists d2, dictTwoPhaseUnlinkFree ty can_resize d1 l = Some (d2, to_map d !! key) /\ wf d2 /\
      to_map d2 = delete key (to_map d) /\ pauserehash d2 = pauserehash d.
Proof.
  intros Hwf. destruct (unlink_find_spec d key Hwf) as (d1 & l & Hf & Hwf1 & Hmap & _ & _ & Hl).
  exists d1, l. rewrite <- Hmap. destruct l as [l|]; destruct Hl as [Hl Hp]; (split_and!; [done|done|lia|]).
  - destruct (unlink_free_spec d1 l key Hwf1 Hl) as (d2 & -> & _ & Hwf2 & Hmap2 & Hp2 & _).
    exists d2. split_and!; try done. lia.
  - rewrite <- Hmap in Hl. exists d1. rewrite Hl. split_and!; try done. symmetry. by apply delete_id.
Qed.

(** C40: a call of [dictRehash] keeps the map.  While resizing is allowed
    ([rehash_disabled] is false) it reports completion exactly when rehashing is
    over, and otherwise it has advanced, so that repeated calls finish.  When
    [dict_can_resize] is FORBID, or is AVOID with the sizes not far enough apart,
    the call does nothing and returns 0, also with keys left to move.  [n] is
    small enough for [n*10] to be an [int]. *)
Theorem dictRehash_correct d n :
  wf d -> 0 < n -> n * 10 < 2 ^ 31 ->
  exists d' more, dictRehash ty can_resize d n = Some (d', more) /\ wf d' /\
    to_map d' = to_map d /\
    (if rehash_disabled can_resize d then d' = d /\ more = false else more = dictIsRehashing d') /\
    (more = true -> rehashidx d < rehashidx d' <= DICTHT_SIZE (ht_size_exp (ht0 d')) /\
       sizes d' = sizes d).
Proof.
  intros Hwf Hn Hb.
  destruct (dictRehash_spec d n ltac:(unfold in_s; lia) Hwf) as (d' & more & -> & Hs & Hdis & Hm & Hend).
  exists d', more. pose proof (same_wf _ _ Hs) as Hwf'.
  split_and!; [done|done|by apply same_map| |].
  - destruct (rehash_disabled can_resize d); [by apply Hdis|].
    destruct more; [by destruct Hm as [-> _]|by rewrite Hend].
  - intros ->. destruct Hm as (Hreh & Hsz & Hlt); [done|]. split; [|done]. split; [by apply Hlt|].
    destruct (wf_rehashing d' Hwf' Hreh) as (t0 & Ht0 & _ & Hri & _).
    destruct (ht_ok_Some _ _ Ht0 (wf_ht0 d' Hwf')) as (He & Hl & _).
    rewrite SIZE_pow by lia. lia.
Qed.

Lemma rehash_time_loop_spec clock start us fuel : forall d n rehashes,
  wf d -> (Z.to_nat (DICTHT_SIZE (ht_size_exp (ht0 d)) - rehashidx d) < fuel)%nat ->
  exists d' r n', rehash_time_loop ty can_resize fuel clock n start us d rehashes = Some (d', r, n') /\
    same d d' /\ (n <= n')%nat.
Proof.
  induction fuel as [|fuel IH]; intros d n rehashes Hwf Hf; [lia|]. cbn [rehash_time_loop].
  destruct (dictRehash_spec d 100 ltac:(by vm_compute) Hwf) as (d' & more & -> & Hs & Hdis & Hm & Hend). mred.
  destruct more; [|by eexists _, _, _].
  destruct Hm as (Hreh & Hsz & Hlt); [done|]. specialize (Hlt ltac:(lia)).
  pose proof (same_wf _ _ Hs) as Hwf'. destruct (_ >=? us); [eexists _, _, _; split_and!; (done || lia)|].
  destruct (wf_rehashing d' Hwf' Hreh) as (t0 & Ht0 & _ & Hri & _).
  destruct (ht_ok_Some _ _ Ht0 (wf_ht0 d' Hwf')) as (He & Hl & _).
  destruct (IH d' (S n) (rehashes + 100) Hwf') as (d2 & r & n' & -> & Hs2 & Hn).
  { injection Hsz as Hs0 _. rewrite <- Hs0 in Hf. rewrite SIZE_pow in * by lia. lia. }
  eexists _, _, _. split_and!; [done|by eapply same_trans|lia].
Qed.

Lemma dictRehashMicroseconds_spec clock n d us :
  wf d -> exists d' r n', dictRehashMicroseconds ty can_resize clock n d us = Some (d', r, n') /\
    same d d' /\ (n <= n')%nat.
Proof.
  intros Hwf. unfold dictRehashMicroseconds. destruct (pauserehash d >? 0); [by eexists _, _, _|].
  destruct (rehash_time_loop_spec clock (clock n) us
    (S (S (Z.to_nat (DICTHT_SIZE (ht_size_exp (ht0 d)))))) d (S n) 0 Hwf) as (d' & r & n' & -> & Hs & Hn).
  - assert (-1 <= rehashidx d) by (destruct (wf_phase d Hwf) as [[? _]|(t0 & _ & _ & ? & _)]; lia). lia.
  - eexists _, _, _. split_and!; [done|done|lia].
Qed.

Lemma clear_loop_spec (t : list chain) used :
  used = zlen (concat t) -> (clear_loop t used).1 = concat t.
Proof.
  revert used. induction t as [|c t IH]; intros used Hu; [done|]. cbn [clear_loop concat] in *.
  rewrite length_app in Hu. rewrite Z.gtb_ltb. destruct (Z.ltb_spec 0 used).
  - specialize (IH (used - zlen c) ltac:(lia)). destruct (clear_loop t (used - zlen c)) as [f u].
    cbn in *. by rewrite IH.
  - cbn. symmetry. apply nil_length_inv. rewrite length_app. lia.
Qed.

Lemma _dictClear_freed d t : ht_ok (get_ht d t) -> (_dictClear d t).2 = elems (get_ht d t).
Proof.
  intros Hok. unfold _dictClear, elems.
  assert (Hu : ht_used (get_ht d t) = zlen (concat (default [] (ht_table (get_ht d t))))).
  { unfold ht_ok in Hok. destruct (ht_table (get_ht d t)); cbn; [by destruct Hok as (_ & _ & ? & _)|].
    by destruct Hok. }
  pose proof (clear_loop_spec _ _ Hu) as Hc. by destruct (clear_loop _ _).
Qed.

(** Both ways to drop the entries, up to the state that is left. *)
Lemma clear_both_spec d :
  wf d -> let d1 := if dictIsRehashing d
           then notify d [RehashingCompleted (DICTHT_SIZE (ht_size_exp (ht0 d)))] else d in
  let d2 := notify d1 [BucketChanged (- dictBuckets d1)] in
  watch (events d2) = Some (false, 0, 0) /\
  let r0 := _dictClear d2 T0 in let r1 := _dictClear r0.1 T1 in
  r0.2 ++ r1.2 = all d /\ r1.1 = Dict _dictReset _dictReset (rehashidx d) (pauserehash d) (pauseAutoResize d) (events d2).
Proof.
  intros Hwf d1 d2.
  assert (Hd1 : dictBuckets d1 = dictBuckets d /\ ht0 d1 = ht0 d /\ ht1 d1 = ht1 d /\
    rehashidx d1 = rehashidx d /\ pauserehash d1 = pauserehash d /\ pauseAutoResize d1 = pauseAutoResize d /\
    watch (events d1) = Some (false, 0, dictBuckets d)).
  { unfold d1. pose proof (wf_watch d Hwf) as Hw. unfold watched in Hw. destruct (dictIsRehashing d); [|done].
    split_and!; try done. cbn [events notify]. rewrite watch_app, Hw. cbn. by rewrite Z.sub_diag. }
  destruct Hd1 as (Hb & H0 & H1 & Hri & Hp & Hq & Hw). split.
  { unfold d2. cbn [events notify]. rewrite watch_app, Hw, Hb. cbn. by rewrite Z.add_opp_diag_r. }
  pose proof (_dictClear_freed d2 T0) as Hf0. cbn [get_ht] in Hf0.
  change (ht0 d2) with (ht0 d1) in Hf0. rewrite H0 in Hf0. specialize (Hf0 (wf_ht0 d Hwf)).
  pose proof (_dictClear_freed (set_ht d2 T0 _dictReset) T1) as Hf1. cbn [get_ht] in Hf1.
  change (ht1 (set_ht d2 T0 _dictReset)) with (ht1 d1) in Hf1. rewrite H1 in Hf1.
  specialize (Hf1 (wf_ht1 d Hwf)).
  assert (Hset : forall (x : dict) t, (_dictClear x t).1 = set_ht x t _dictReset)
    by (intros x t; unfold _dictClear; by destruct (clear_loop _ _)).
  cbv zeta. rewrite (Hset d2 T0), Hf0, Hf1, Hset. split; [done|].
  cbn. by rewrite Hri, Hp, Hq.
Qed.

Lemma empty_spec d :
  wf d -> (dictEmpty d).2 = all d /\ wf (dictEmpty d).1 /\ all (dictEmpty d).1 = [] /\
    watched (dictEmpty d).1 = (false, 0, 0) /\ pauserehash (dictEmpty d).1 = 0 /\ pauseAutoResize (dictEmpty d).1 = 0 /\
    events d `prefix_of` events (dictEmpty d).1.
Proof.
  intros Hwf. destruct (clear_both_spec d Hwf) as (Hw & Hf & Hd). unfold dictEmpty. cbv zeta in *.
  set (d2 := notify _ [BucketChanged _]) in *.
  assert (Hev : events d `prefix_of` events d2).
  { unfold d2. destruct (dictIsRehashing d); cbn; rewrite <- ?app_assoc; by apply prefix_app_r. }
  clearbody d2. destruct (_dictClear d2 T0) as [d3 f0]. cbn [fst snd] in *.
  destruct (_dictClear d3 T1) as [d4 f1]. cbn [fst snd] in *. subst d4.
  split_and!; try done. constructor; cbn; try done; [by left|by constructor].
Qed.

Lemma release_spec d :
  wf d -> (dictRelease d).2 = all d /\ events d `prefix_of` (dictRelease d).1 /\
    watch (dictRelease d).1 = Some (false, 0, 0).
Proof.
  intros Hwf. destruct (clear_both_spec d Hwf) as (Hw & Hf & Hd). unfold dictRelease. cbv zeta in *.
  set (d2 := notify _ [BucketChanged _]) in *.
  assert (Hev : events d `prefix_of` events d2).
  { unfold d2. destruct (dictIsRehashing d); cbn; rewrite <- ?app_assoc; by apply prefix_app_r. }
  clearbody d2. destruct (_dictClear d2 T0) as [d3 f0]. cbn [fst snd] in *.
  destruct (_dictClear d3 T1) as [d4 f1]. cbn [fst snd] in *. by subst d4.
Qed.

(** [dictEmpty] frees every entry once and leaves an empty dictionary; what the
    callbacks reported adds up to no rehashing and no buckets. *)
Theorem dictEmpty_correct d :
  wf d -> (dictEmpty d).2 = all d /\ wf (dictEmpty d).1 /\ to_map (dictEmpty d).1 = ∅ /\
    watch (events (dictEmpty d).1) = Some (false, 0, 0).
Proof.
  intros Hwf. destruct (empty_spec d Hwf) as (Hf & Hwf' & Ha & Hw & _).
  split_and!; [done|done|unfold to_map; by rewrite Ha|]. by rewrite (wf_watch _ Hwf'), Hw.
Qed.

Lemma rehashing_exp d : wf d -> dictIsRehashing d = negb (ht_size_exp (ht1 d) =? -1).
Proof.
  intros Hwf. destruct (dictIsRehashing d) eqn:Hr.
  - destruct (wf_rehashing d Hwf Hr) as (_ & _ & [t1 Ht1] & _).
    destruct (ht_ok_Some _ _ Ht1 (wf_ht1 d Hwf)) as (He & _).
    by rewrite (proj2 (Z.eqb_neq _ _)) by lia.
  - destruct (not_rehashing d Hwf Hr) as [_ ->]. done.
Qed.

Lemma home_sizes d d' key : wf d -> wf d' -> sizes d' = sizes d -> home d key = home d' key.
Proof.
  intros Hwf Hwf' [= H0 H1]. unfold home. rewrite !rehashing_exp, H1 by done. unfold index_in.
  destruct (negb _); cbn [get_ht]; by rewrite ?H0, ?H1.
Qed.

Lemma insert_home d sk v :
  wf d -> is_Some (ht_table (ht0 d)) ->
  let key := keyFromStoredKey ty sk in to_map d !! key = None ->
  exists d', dictInsertKeyAtLink d sk v (home d key) = Some (d', home d key) /\
    upd d d' (<[key := (sk, v)]> (to_map d)).
Proof.
  intros Hwf Hsome key Hnew. pose proof (proj1 (to_map_None d key Hwf) Hnew) as Hn.
  destruct (dictInsertKeyAtLink_spec d sk v Hwf Hsome Hn) as (d' & Hi & Hwf' & Ha & _ & Hp & Hq & Hev).
  exists d'. split; [done|]. constructor; try done; [|by rewrite Hev].
  by destruct (to_map_cons d' (all d) (sk, v) Hwf' Ha).
Qed.

(** A new item at the bucket that a search has returned, or at none. *)
Lemma set_new_spec as_key d sk v bucket :
  wf d -> let key := keyFromStoredKey ty sk in to_map d !! key = None ->
  bucket = None \/ bucket = Some (home d key) ->
  exists d' l, dictSetKeyAtLink ty can_resize as_key d sk v bucket true = Some (d', l) /\
    upd d d' (<[key := (sk, v)]> (to_map d)).
Proof.
  intros Hwf key Hnone Hbucket. unfold dictSetKeyAtLink. cbv zeta.
  destruct (dictExpandIfNeeded_spec d Hwf) as (d2 & st & -> & Hs2 & _ & Hsome2). mred.
  pose proof (same_wf _ _ Hs2) as Hwf2. pose proof (same_upd _ _ Hs2) as Hu2.
  rewrite <- (same_map _ _ Hs2) in *. destruct (negb _ || _) eqn:Hlook.
  - destruct (dictFindLinkInternal_spec d2 key true) as (d3 & found & b & Hf3 & Hs3 & Hm3);
      [done|done|by left|]. unfold key in Hf3. rewrite Hf3. mred.
    pose proof (same_wf _ _ Hs3) as Hwf3. pose proof (same_upd _ _ Hs3) as Hu3.
    rewrite <- (same_map _ _ Hs3) in *. destruct found as [l|].
    { destruct (points_to_map d3 l key Hwf3 Hm3) as (e & _ & _ & He). congruence. }
    destruct Hm3 as [-> Hnew3].
    destruct (insert_home d3 sk v Hwf3 (same_table _ _ Hs3 Hsome2) Hnone) as (d4 & Hi & Hu4).
    fold key in Hi. rewrite Hi. mred. eexists _, _. split; [done|].
    by eapply upd_trans, upd_trans.
  - apply orb_false_iff in Hlook as [Hsz Hb]. apply negb_false_iff, bool_decide_eq_true in Hsz.
    apply bool_decide_eq_false in Hb. destruct Hbucket as [?| ->]; [done|]. cbn [mbind option_bind].
    destruct (insert_home d2 sk v Hwf2 Hsome2 Hnone) as (d4 & Hi & Hu4).
    fold key in Hi. rewrite (home_sizes d2 d key Hwf2 Hwf Hsz) in Hi. rewrite Hi. mred.
    eexists _, _. split; [done|]. by eapply upd_trans.
Qed.

(** A key that [dictFindLink] did not find is added by [dictSetKeyAtLink] with the
    bucket it returned, also when the dictionary had no table and when the addition
    resizes it. *)
Theorem dictSetKeyAtLink_correct as_key d sk v :
  wf d -> let key := keyFromStoredKey ty sk in to_map d !! key = None ->
  exists d1 bucket, dictFindLink ty can_resize d key true = Some (d1, None, bucket) /\
    exists d2 l, dictSetKeyAtLink ty can_resize as_key d1 sk v bucket true = Some (d2, l) /\ wf d2 /\
      to_map d2 = <[key := (sk, v)]> (to_map d).
Proof.
  intros Hwf key Hnone.
  destruct (dictFindLink_spec d key true Hwf) as (d1 & found & bucket & Hf & Hs & Hm).
  pose proof (same_wf _ _ Hs) as Hwf1. rewrite <- (same_map _ _ Hs) in *.
  destruct found as [l|].
  { destruct (points_to_map d1 l key Hwf1 Hm) as (e & _ & _ & He). congruence. }
  exists d1, bucket. split; [done|].
  destruct (set_new_spec as_key d1 sk v bucket Hwf1 Hnone (proj1 Hm)) as (d2 & l & Hset & Hu).
  exists d2, l. by destruct Hu.
Qed.

End Proofs.

(** ** A dictionary of numbers, for concrete runs *)

Module Sample.
Definition ty : dictType Z Z :=
  DictType (fun k => Z.abs k * 7 mod 2 ^ 64) Z.eqb id (fun _ _ _ => true) false.

Definition add_all (ks : list Z) (d : dict Z Z) : option (dict Z Z) :=
  foldl (fun od k => d ← od; '(d, _) ← dictAdd ty DICT_RESIZE_ENABLE 0 d k (k * 10); Some d) (Some d) ks.

(** Five keys: the fifth has started the move from four buckets to eight. *)
Definition d5 : dict Z Z := default dictCreate (add_all [1; 2; 3; 4; 5] dictCreate).

Lemma cmp_ok a b : keyCompare ty a b = true <-> a = b.
Proof. apply Z.eqb_eq. Qed.

Lemma hash_ok k : 0 <= hashFunction ty k.
Proof. apply Z.mod_pos_bound. done. Qed.

Definition s5 : dict Z Z :=
  Dict (Ht (Some [[(4, 40)]; [(3, 30)]; [(2, 20)]; [(1, 10)]]) 2 4)
    (Ht (Some [[]; []; []; [(5, 50)]; []; []; []; []]) 3 1) 0 0 0
    [RehashingStarted 0; BucketChanged 4; RehashingCompleted 0; BucketChanged 0;
     RehashingStarted 4; BucketChanged 8].

Example d5_state : d5 = s5.
Proof. by vm_compute. Qed.

(** Go through the buckets of a concrete table. *)
Ltac buckets :=
  let i := fresh "i" in let c := fresh "c" in let e := fresh "e" in
  let Hc := fresh "Hc" in let Hin := fresh "Hin" in
  intros i c e Hc Hin;
  repeat (destruct i as [|i]; [cbn in Hc; injection Hc as <-;
    repeat (apply elem_of_cons in Hin as [->|Hin]; [by vm_compute|]); by apply not_elem_of_nil in Hin|]);
  cbn in Hc; done.

Lemma wf_s5 : wf ty s5.
Proof.
  constructor.
  - unfold ht_ok. cbn [ht_table s5 ht0]. split_and!; [by vm_compute..|buckets].
  - unfold ht_ok. cbn [ht_table s5 ht1]. split_and!; [by vm_compute..|buckets].
  - right. eexists. split_and!; [done|by eexists|done|done|]. cbn. lia.
  - apply (bool_decide_unpack _). by vm_compute.
  - by vm_compute.
Qed.
End Sample.

Lemma dictFind_correct_witness :
  exists d', dictFind Sample.ty DICT_RESIZE_ENABLE Sample.s5 3 = Some (d', Some (3, 30)) /\
    wf Sample.ty d'.
Proof.
  destruct (dictFind_correct Sample.ty DICT_RESIZE_ENABLE Sample.cmp_ok Sample.hash_ok Sample.s5 3 Sample.wf_s5)
    as (d' & Hf & Hwf & _).
  exists d'. split; [exact Hf|exact Hwf].
Defined.

Lemma dictAdd_correct_witness :
  exists d' st, dictAdd Sample.ty DICT_RESIZE_ENABLE 0 Sample.s5 6 60 = Some (d', st) /\
    to_map Sample.ty d' = <[6 := (6, 60)]> (to_map Sample.ty Sample.s5).
Proof.
  destruct (dictAdd_correct Sample.ty DICT_RESIZE_ENABLE Sample.cmp_ok Sample.hash_ok 0 Sample.s5 6 60 Sample.wf_s5)
    as (d' & st & Hf & Hwf & Hm); [right; by vm_compute|].
  exists d', st. split; [exact Hf|]. apply Hm.
Defined.

Lemma dictReplace_correct_witness :
  exists d', dictReplace Sample.ty DICT_RESIZE_ENABLE 0 Sample.s5 2 21 = Some (d', false) /\
    to_map Sample.ty d' = <[2 := (2, 21)]> (to_map Sample.ty Sample.s5).
Proof.
  destruct (dictReplace_correct Sample.ty DICT_RESIZE_ENABLE Sample.cmp_ok Sample.hash_ok 0 Sample.s5 2 21 Sample.wf_s5)
    as (d' & Hf & Hwf & Hm); [right; by vm_compute|].
  exists d'. split; [exact Hf|exact Hm].
Defined.

Lemma dictDelete_correct_witness :
  exists d', dictDelete Sample.ty DICT_RESIZE_ENABLE Sample.s5 5 = Some (d', DICT_OK) /\
    to_map Sample.ty d' = delete 5 (to_map Sample.ty Sample.s5).
Proof.
  destruct (dictDelete_correct Sample.ty DICT_RESIZE_ENABLE Sample.cmp_ok Sample.hash_ok Sample.s5 5 Sample.wf_s5)
    as (d' & Hf & Hwf & Hm).
  exists d'. split; [exact Hf|exact Hm].
Defined.

Lemma dictTwoPhaseUnlink_correct_witness :
  exists d1 l, dictTwoPhaseUnlinkFind Sample.ty DICT_RESIZE_ENABLE Sample.s5 4 = Some (d1, l) /\
    exists d2, dictTwoPhaseUnlinkFree Sample.ty DICT_RESIZE_ENABLE d1 l = Some (d2, Some (4, 40)).
Proof.
  destruct (dictTwoPhaseUnlink_correct Sample.ty DICT_RESIZE_ENABLE Sample.cmp_ok Sample.s5 4 Sample.wf_s5)
    as (d1 & l & Hf & _ & _ & d2 & Hd & _).
  exists d1, l. split; [exact Hf|]. exists d2. exact Hd.
Defined.

Lemma dictRehash_correct_witness :
  exists d', dictRehash Sample.ty DICT_RESIZE_ENABLE Sample.s5 1 = Some (d', true) /\
    to_map Sample.ty d' = to_map Sample.ty Sample.s5.
Proof.
  destruct (dictRehash_correct Sample.ty DICT_RESIZE_ENABLE Sample.s5 1 Sample.wf_s5 eq_refl eq_refl)
    as (d' & more & Hf & _ & Hm & _).
  exists d'. split; [|exact Hm]. rewrite Hf. vm_compute in Hf. by injection Hf as <- <-.
Defined.

(** Keys are left in the old table and the call returns 0. *)
Example dictRehash_forbidden :
  dictRehash Sample.ty DICT_RESIZE_FORBID Sample.s5 1 = Some (Sample.s5, false) /\
    dictIsRehashing Sample.s5 = true /\ ht_used (ht0 Sample.s5) <> 0.
Proof. by vm_compute. Qed.

Lemma dictEmpty_correct_witness :
  (dictEmpty Sample.s5).2 = all Sample.s5 /\ to_map Sample.ty (dictEmpty Sample.s5).1 = ∅.
Proof.
  destruct (dictEmpty_correct Sample.ty Sample.s5 Sample.wf_s5) as (Hf & _ & Hm & _).
  split; [exact Hf|exact Hm].
Defined.

Lemma dictSetKeyAtLink_correct_witness :
  exists d1 b, dictFindLink Sample.ty DICT_RESIZE_ENABLE Sample.s5 6 true = Some (d1, None, b) /\
    exists d2 l, dictSetKeyAtLink Sample.ty DICT_RESIZE_ENABLE id d1 6 60 b true = Some (d2, l) /\
      to_map Sample.ty d2 = <[6 := (6, 60)]> (to_map Sample.ty Sample.s5).
Proof.
  destruct (dictSetKeyAtLink_correct Sample.ty DICT_RESIZE_ENABLE Sample.cmp_ok Sample.hash_ok id Sample.s5 6 60 Sample.wf_s5)
    as (d1 & b & Hf & d2 & l & Hd & _ & Hm); [by vm_compute|].
  exists d1, b. split; [exact Hf|]. exists d2, l. split; [exact Hd|exact Hm].
Defined.

End Dict.
