(* ===== verification/DictScan.v ===== *)
(** * Stateless iteration over a dictionary ([dictScan] of [redis-stable/src/dict.c])

    [rev], the cursor and the two cases of [dictScanDefrag] with a callback that only
    collects the entries (no [defragfns]); the pause of rehashing around the callback
    then has no effect. *)

From S2P Require Import Prelude Dict.

Module DictScan.
Import Dict.

(** [while ((s >>= 1) > 0)]; the bit size is 64. *)
Fixpoint rev_loop (fuel : nat) (s mask v : Z) : Z :=
  match fuel with
  | O => v
  | S fuel =>
    let s := Z.shiftr s 1 in
    if s >? 0 then
      let mask := Z.lxor mask (uwrap 64 (Z.shiftl mask s)) in
      let v := Z.lor (Z.land (Z.shiftr v s) mask)
                     (Z.land (uwrap 64 (Z.shiftl v s)) (uwrap 64 (Z.lnot mask))) in
      rev_loop fuel s mask v
    else v
  end.

Definition rev (v : Z) : Z := rev_loop 7 64 (uwrap 64 (Z.lnot 0)) v.

(** Set the unmasked bits, and increment the reversed cursor. *)
Definition next_cursor (v m : Z) : Z :=
  let v := Z.lor v (uwrap 64 (Z.lnot m)) in
  let v := rev v in
  let v := uwrap 64 (v + 1) in
  rev v.

Section Scan.
Context {K SK V : Type}.
Abbreviation entry := (SK * V)%type.

(** [dictScanDefragBucket] *)
Definition scan_bucket (h : ht SK V) (idx : Z) : option (list entry) := bucket_at h idx.

(** The [do ... while] loop over the larger table. *)
Fixpoint expansions (fuel : nat) (big : ht SK V) (m0 m1 v : Z) : option (Z * list entry) :=
  match fuel with
  | O => None
  | S fuel =>
    out ← scan_bucket big (Z.land v m1);
    let v := next_cursor v m1 in
    if negb (Z.land v (Z.lxor m0 m1) =? 0) then
      '(v, more) ← expansions fuel big m0 m1 v; Some (v, out ++ more)
    else Some (v, out)
  end.

(** The new cursor, and the entries given to the callback. *)
Definition dictScan (d : dict SK V) (v : Z) : option (Z * list entry) :=
  if dictSize d =? 0 then Some (0, [])
  else if negb (dictIsRehashing d) then
    let m0 := DICTHT_SIZE_MASK (ht_size_exp (ht0 d)) in
    out ← scan_bucket (ht0 d) (Z.land v m0);
    Some (next_cursor v m0, out)
  else
    let '(small, big) :=
      if DICTHT_SIZE (ht_size_exp (ht0 d)) >? DICTHT_SIZE (ht_size_exp (ht1 d))
      then (ht1 d, ht0 d) else (ht0 d, ht1 d) in
    let m0 := DICTHT_SIZE_MASK (ht_size_exp small) in
    let m1 := DICTHT_SIZE_MASK (ht_size_exp big) in
    out0 ← scan_bucket small (Z.land v m0);
    '(v, out1) ← expansions (S (Z.to_nat (m1 + 1))) big m0 m1 v;
    Some (v, out0 ++ out1).

End Scan.

(** ** [rev] reverses the 64 bits *)

Definition rev_step (s mask v : Z) : Z :=
  Z.lor (Z.land (Z.shiftr v s) mask)
        (Z.land (uwrap 64 (Z.shiftl v s)) (uwrap 64 (Z.lnot mask))).

Lemma rev_steps v :
  rev v =
  rev_step 1 6148914691236517205 (rev_step 2 3689348814741910323
  (rev_step 4 1085102592571150095 (rev_step 8 71777214294589695
  (rev_step 16 281470681808895 (rev_step 32 4294967295 v))))).
Proof. reflexivity. Qed.

(** The bits below 64, as a list to go through. *)
Definition positions : list Z := map Z.of_nat (seq 0 64).

Lemma positions_spec (P : Z -> bool) : forallb P positions = true -> forall i, 0 <= i < 64 -> P i = true.
Proof.
  intros H i Hi. rewrite forallb_forall in H. apply H. unfold positions. apply in_map_iff.
  exists (Z.to_nat i). split; [lia|]. apply in_seq. lia.
Qed.

Lemma uwrap_bit v i : 0 <= i < 64 -> Z.testbit (uwrap 64 v) i = Z.testbit v i.
Proof. intros. unfold uwrap. apply Z.mod_pow2_bits_low. lia. Qed.

(** A step moves bit [i xor s] to bit [i]. *)
Lemma rev_step_bit s mask v i :
  0 < s ->
  forallb (fun j => if Z.testbit mask j then j + s =? Z.lxor j s
                    else (0 <=? j - s) && (j - s =? Z.lxor j s)) positions = true ->
  0 <= i < 64 -> Z.testbit (rev_step s mask v) i = Z.testbit v (Z.lxor i s).
Proof.
  intros Hs Hm Hi. apply (positions_spec _ Hm) in Hi as Hb. unfold rev_step.
  rewrite Z.lor_spec, !Z.land_spec, !uwrap_bit, Z.lnot_spec, Z.shiftr_spec, Z.shiftl_spec by lia.
  destruct (Z.testbit mask i).
  - apply Z.eqb_eq in Hb. cbn. by rewrite Hb, andb_true_r, andb_false_r, orb_false_r.
  - apply andb_true_iff in Hb as [_ Hb]. apply Z.eqb_eq in Hb. cbn.
    by rewrite Hb, andb_false_r, andb_true_r.
Qed.

Lemma rev_bit v i : 0 <= i < 64 -> Z.testbit (rev v) i = Z.testbit v (63 - i).
Proof.
  intros Hi. rewrite rev_steps.
  assert (Hx : forall s j, In s [1; 2; 4; 8; 16; 32] -> 0 <= j < 64 -> 0 <= Z.lxor j s < 64).
  { intros s j Hs Hj.
    pose proof (positions_spec (fun j => forallb (fun s => (0 <=? Z.lxor j s) && (Z.lxor j s <? 64)) [1; 2; 4; 8; 16; 32])
      ltac:(by vm_compute) j Hj) as Hall.
    rewrite forallb_forall in Hall. specialize (Hall s Hs). lia. }
  do 6 (rewrite rev_step_bit; [|done|by vm_compute|repeat (apply Hx; [simpl; tauto|]); done]).
  f_equal. apply Z.eqb_eq.
  apply (positions_spec (fun i => Z.lxor (Z.lxor (Z.lxor (Z.lxor (Z.lxor (Z.lxor i 1) 2) 4) 8) 16) 32 =? 63 - i)
    ltac:(by vm_compute) i Hi).
Qed.

Lemma in_u_bits x : 0 <= x -> (forall i, 64 <= i -> Z.testbit x i = false) -> in_u 64 x.
Proof.
  intros Hx Hb. split; [done|]. replace x with (x mod 2 ^ 64); [apply Z.mod_pos_bound; lia|].
  apply Z.bits_inj'. intros i Hi. destruct (decide (i < 64)).
  - by rewrite Z.mod_pow2_bits_low by lia.
  - rewrite Z.mod_pow2_bits_high by lia. symmetry. apply Hb. lia.
Qed.

Lemma in_u_high x i : in_u 64 x -> 64 <= i -> Z.testbit x i = false.
Proof.
  intros Hx Hi. rewrite <- (uwrap_id 64 x Hx). unfold uwrap. apply Z.mod_pow2_bits_high. lia.
Qed.

Lemma rev_step_range s mask v : 0 < s -> 0 <= v -> in_u 64 mask -> in_u 64 (rev_step s mask v).
Proof.
  intros Hs Hv Hm. unfold rev_step. apply in_u_bits.
  - apply Z.lor_nonneg. split; apply Z.land_nonneg; left; [by apply Z.shiftr_nonneg|].
    apply uwrap_range. lia.
  - intros i Hi. rewrite Z.lor_spec, !Z.land_spec, (in_u_high mask) by done.
    rewrite (in_u_high (uwrap 64 _)) by (try apply uwrap_range; lia).
    by rewrite andb_false_r.
Qed.

Lemma rev_step_nonneg s mask v : 0 < s -> 0 <= v -> in_u 64 mask -> 0 <= rev_step s mask v.
Proof. intros. by apply rev_step_range. Qed.

Lemma rev_range v : in_u 64 v -> in_u 64 (rev v).
Proof.
  intros [Hv _]. rewrite rev_steps.
  apply rev_step_range; [done| |by vm_compute].
  do 5 (apply rev_step_nonneg; [done| |by vm_compute]). done.
Qed.

Lemma rev_involutive v : in_u 64 v -> rev (rev v) = v.
Proof.
  intros Hv. apply Z.bits_inj'. intros i Hi. destruct (decide (i < 64)).
  - rewrite !rev_bit by lia. f_equal. lia.
  - rewrite !in_u_high by (try lia; auto using rev_range). done.
Qed.

Lemma rev_0 : rev 0 = 0.
Proof. by vm_compute. Qed.

#[local] Opaque rev.

(** ** The cursor in reversed order

    Read backwards, a table of [2 ^ e] buckets divides the hashes into intervals of
    [2 ^ (64 - e)]; a cursor is a point, and the next cursor the end of its interval. *)

Abbreviation mask_of e := (2 ^ e - 1).

Lemma lor_ones a k : 0 <= a -> 0 <= k -> Z.lor a (2 ^ k - 1) = a / 2 ^ k * 2 ^ k + 2 ^ k - 1.
Proof.
  intros Ha Hk. assert (0 < 2 ^ k) by (by apply pow2_pos).
  replace (a / 2 ^ k * 2 ^ k + 2 ^ k - 1) with (2 ^ k - 1 + a / 2 ^ k * 2 ^ k) by lia.
  rewrite <- (lor_shiftl_add (2 ^ k - 1) (a / 2 ^ k) k), (Z.lor_comm _ (Z.shiftl _ _)) by lia.
  replace (2 ^ k - 1) with (Z.ones k) by (rewrite Z.ones_equiv; lia).
  apply Z.bits_inj'. intros i Hi. rewrite !Z.lor_spec. destruct (decide (i < k)).
  - by rewrite Z.ones_spec_low, !orb_true_r by lia.
  - rewrite Z.shiftl_spec, Z.div_pow2_bits by lia. f_equal. f_equal. lia.
Qed.

Lemma ones_mask e : 0 <= e -> Z.ones e = mask_of e.
Proof. intros. rewrite Z.ones_equiv. lia. Qed.

Lemma lor_range a b : in_u 64 a -> in_u 64 b -> in_u 64 (Z.lor a b).
Proof.
  intros Ha Hb. apply in_u_bits; [apply Z.lor_nonneg; split; [apply Ha|apply Hb]|].
  intros i Hi. by rewrite Z.lor_spec, !in_u_high.
Qed.

Lemma rev_set_high v e :
  in_u 64 v -> 0 <= e <= 64 ->
  rev (Z.lor v (uwrap 64 (Z.lnot (mask_of e)))) = Z.lor (rev v) (mask_of (64 - e)).
Proof.
  intros Hv He. rewrite <- !ones_mask by lia. apply Z.bits_inj'. intros i Hi.
  rewrite Z.lor_spec. destruct (decide (i < 64)).
  - rewrite !rev_bit, Z.lor_spec, uwrap_bit, Z.lnot_spec by lia. f_equal.
    destruct (decide (i < 64 - e)).
    + by rewrite (Z.ones_spec_low (64 - e)), (Z.ones_spec_high e) by lia.
    + by rewrite (Z.ones_spec_high (64 - e)), (Z.ones_spec_low e) by lia.
  - assert (in_u 64 (Z.lor v (uwrap 64 (Z.lnot (Z.ones e)))))
      by (apply lor_range; [done|apply uwrap_range; lia]).
    by rewrite !in_u_high, Z.ones_spec_high by (try lia; auto using rev_range).
Qed.

(** The end of the interval of [c]. *)
Definition interval_end (c k : Z) : Z := (c / 2 ^ k + 1) * 2 ^ k.

Lemma next_cursor_rev v e :
  in_u 64 v -> 0 <= e <= 64 ->
  rev (next_cursor v (mask_of e)) = interval_end (rev v) (64 - e) mod 2 ^ 64 /\
  in_u 64 (next_cursor v (mask_of e)).
Proof.
  intros Hv He. pose proof (rev_range v Hv) as [Hr _]. unfold next_cursor. cbv zeta.
  rewrite rev_set_high, lor_ones by (done || lia). set (k := 64 - e).
  pose proof (uwrap_range 64 (rev v / 2 ^ k * 2 ^ k + 2 ^ k - 1 + 1) ltac:(lia)) as Hu.
  split; [|by apply rev_range]. rewrite rev_involutive by done. unfold uwrap, interval_end. f_equal. lia.
Qed.

#[local] Opaque next_cursor.

(** Hashes of one interval are in one bucket. *)
Lemma same_interval v h e :
  in_u 64 v -> in_u 64 h -> 0 <= e <= 64 ->
  rev h / 2 ^ (64 - e) = rev v / 2 ^ (64 - e) -> h mod 2 ^ e = v mod 2 ^ e.
Proof.
  intros Hv Hh He Heq. apply Z.bits_inj'. intros i Hi. destruct (decide (i < e)).
  - rewrite !Z.mod_pow2_bits_low by lia.
    assert (Hb : forall x, in_u 64 x -> Z.testbit x i = Z.testbit (rev x / 2 ^ (64 - e)) (e - 1 - i)).
    { intros x Hx. rewrite Z.div_pow2_bits by lia. rewrite rev_bit by lia. f_equal. lia. }
    rewrite (Hb h Hh), (Hb v Hv). by rewrite Heq.
  - by rewrite !Z.mod_pow2_bits_high by lia.
Qed.

(** The test of the [do ... while]: the cursor is at the end of an interval of the
    smaller table. *)
Lemma ones_xor_bit e0 e1 i :
  0 <= e0 <= e1 -> 0 <= i ->
  Z.testbit (Z.lxor (mask_of e0) (mask_of e1)) i = (e0 <=? i) && (i <? e1).
Proof.
  intros He Hi. rewrite <- !ones_mask, Z.lxor_spec, !Z.testbit_ones by lia.
  destruct (Z.leb_spec 0 i); [|lia]. destruct (Z.ltb_spec i e0), (Z.ltb_spec i e1), (Z.leb_spec e0 i);
    cbn; (done || lia).
Qed.

Lemma expansion_test w e0 e1 :
  in_u 64 w -> 0 <= e0 <= e1 -> e1 <= 64 -> rev w mod 2 ^ (64 - e1) = 0 ->
  Z.land w (Z.lxor (mask_of e0) (mask_of e1)) = 0 <-> rev w mod 2 ^ (64 - e0) = 0.
Proof.
  intros Hw He He1 Hlow. split; intros Hz; apply Z.bits_inj'; intros i Hi; rewrite Z.bits_0.
  - destruct (decide (i < 64 - e0)); [|by rewrite Z.mod_pow2_bits_high by lia].
    rewrite Z.mod_pow2_bits_low by lia. destruct (decide (i < 64 - e1)).
    + rewrite <- (Z.mod_pow2_bits_low (rev w) (64 - e1)) by lia. by rewrite Hlow, Z.bits_0.
    + rewrite rev_bit by lia. assert (Hb : Z.testbit (Z.land w (Z.lxor (mask_of e0) (mask_of e1))) (63 - i) = false)
        by (by rewrite Hz, Z.bits_0).
      rewrite Z.land_spec, ones_xor_bit in Hb by lia.
      destruct (Z.leb_spec e0 (63 - i)), (Z.ltb_spec (63 - i) e1); try lia.
      by rewrite andb_true_r in Hb.
  - rewrite Z.land_spec, ones_xor_bit by lia.
    destruct (Z.leb_spec e0 i), (Z.ltb_spec i e1); rewrite ?andb_false_r; try done.
    replace i with (63 - (63 - i)) by lia. rewrite <- rev_bit by lia.
    rewrite <- (Z.mod_pow2_bits_low (rev w) (64 - e0)) by lia. by rewrite Hz, Z.bits_0.
Qed.

(** Points of an interval. *)
Lemma interval_points c x k :
  0 <= k -> c <= x < interval_end c k -> x / 2 ^ k = c / 2 ^ k.
Proof.
  unfold interval_end. intros Hk Hx. assert (0 < 2 ^ k) by (by apply pow2_pos).
  assert (c / 2 ^ k <= x / 2 ^ k) by (apply Z.div_le_mono; lia).
  assert (x / 2 ^ k < c / 2 ^ k + 1) by (apply Z.div_lt_upper_bound; lia). lia.
Qed.

Lemma interval_end_gt c k : 0 <= k -> c < interval_end c k.
Proof.
  intros Hk. assert (0 < 2 ^ k) by (by apply pow2_pos). unfold interval_end.
  pose proof (Z.mul_succ_div_gt c (2 ^ k) ltac:(lia)). lia.
Qed.

(** An interval of the larger table ends inside or with that of the smaller one. *)
Lemma interval_end_le c k0 k1 T :
  0 <= k1 <= k0 -> c < T -> T mod 2 ^ k0 = 0 -> interval_end c k1 <= T.
Proof.
  intros Hk Hc HT. assert (0 < 2 ^ k1) by (apply pow2_pos; lia).
  assert (0 < 2 ^ k0) by (apply pow2_pos; lia).
  assert (Hsplit : 2 ^ k0 = 2 ^ (k0 - k1) * 2 ^ k1) by (rewrite <- Z.pow_add_r by lia; f_equal; lia).
  apply Z.mod_divide in HT as [q HT]; [|lia]. unfold interval_end.
  rewrite HT, Hsplit in *. clear HT.
  assert (c / 2 ^ k1 < q * 2 ^ (k0 - k1)) by (apply Z.div_lt_upper_bound; lia).
  assert ((c / 2 ^ k1 + 1) * 2 ^ k1 <= q * 2 ^ (k0 - k1) * 2 ^ k1) by (apply Z.mul_le_mono_nonneg_r; lia).
  lia.
Qed.

Lemma interval_end_max c k : 0 <= k <= 64 -> 0 <= c < 2 ^ 64 -> interval_end c k <= 2 ^ 64.
Proof.
  intros Hk Hc. apply (interval_end_le c 64 k); [lia|lia|]. apply Z.mod_same. lia.
Qed.

Lemma interval_end_same c x k : 0 <= k -> c <= x < interval_end c k -> interval_end x k = interval_end c k.
Proof. intros Hk Hx. unfold interval_end. by rewrite (interval_points c x k Hk Hx). Qed.

Lemma interval_end_aligned c k0 k1 :
  0 <= k1 <= k0 -> interval_end c k1 mod 2 ^ k0 = 0 -> interval_end c k1 = interval_end c k0.
Proof.
  intros Hk Hm. apply Z.le_antisymm.
  - apply (interval_end_le c k0 k1); [done|apply interval_end_gt; lia|].
    unfold interval_end. apply Z.mod_mul. pose proof (pow2_pos k0). lia.
  - apply (interval_end_le c k0 k0); [lia|apply interval_end_gt; lia|done].
Qed.

Section ScanProofs.
Context {K SK V : Type} (ty : dictType K SK).
Context (Hhash : forall k, in_u 64 (hashFunction ty k)).
Abbreviation entry := (SK * V)%type.
Abbreviation point e := (rev (hashFunction ty (key_of (V := V) ty e))).

Lemma mask_eq e : 0 <= e -> DICTHT_SIZE_MASK e = mask_of e.
Proof.
  intros He. unfold DICTHT_SIZE_MASK. rewrite (proj2 (Z.eqb_neq _ _)) by lia. by rewrite SIZE_pow.
Qed.

(** The bucket of a cursor holds the entries of its interval, and only entries. *)
Lemma scan_bucket_spec (h : ht SK V) t v :
  ht_ok ty h -> ht_table h = Some t -> in_u 64 v ->
  let e := ht_size_exp h in
  exists c, scan_bucket h (Z.land v (mask_of e)) = Some c /\ (forall x, x ∈ c -> x ∈ elems h) /\
    forall x, x ∈ elems h -> point x / 2 ^ (64 - e) = rev v / 2 ^ (64 - e) -> x ∈ c.
Proof.
  intros Hok Ht Hv. cbv zeta. destruct (ht_ok_Some ty h t Ht Hok) as (He & _).
  assert (Hi : Z.land v (mask_of (ht_size_exp h)) = index_in h v)
    by (unfold index_in; by rewrite mask_eq by lia).
  rewrite Hi. destruct (bucket_of ty h t v Ht Hok) as (c & Hb & _). exists c.
  split_and!; [done|intros x; by apply bucket_at_elems with (1 := Hb)|].
  intros x Hin Heq. destruct (elems_index ty h x Hok Hin) as (c' & Hc' & Hb').
  replace c with c'; [done|]. apply (same_interval v) in Heq; [|done|apply Hhash|lia].
  rewrite index_in_mod in * by lia. rewrite Heq in Hb'. congruence.
Qed.

(** Where the cursor [v] has got to; 0 is the end. *)
Definition fin (v : Z) : Z := if v =? 0 then 2 ^ 64 else rev v.

Lemma fin_of v T : in_u 64 v -> rev v = T mod 2 ^ 64 -> 0 < T <= 2 ^ 64 -> fin v = T.
Proof.
  intros Hv Hr HT. unfold fin. destruct (Z.eqb_spec v 0) as [->|Hne].
  - rewrite rev_0 in Hr. destruct (decide (T = 2 ^ 64)) as [->|]; [done|].
    rewrite Z.mod_small in Hr by lia. lia.
  - rewrite Hr. destruct (decide (T = 2 ^ 64)) as [->|]; [|apply Z.mod_small; lia].
    rewrite Z.mod_same in Hr by lia. rewrite <- (rev_involutive v Hv), Hr, rev_0 in Hne. done.
Qed.

Lemma mod_2_64 a k : 0 <= k <= 64 -> (a mod 2 ^ 64) mod 2 ^ k = a mod 2 ^ k.
Proof.
  intros Hk. apply Z.mod_mod_divide. exists (2 ^ (64 - k)).
  rewrite <- Z.pow_add_r by lia. f_equal. lia.
Qed.

Lemma interval_end_mult c k : 0 <= k -> interval_end c k mod 2 ^ k = 0.
Proof. intros Hk. unfold interval_end. apply Z.mod_mul. pose proof (pow2_pos k Hk). lia. Qed.

(** A cursor at the end of an interval only has bits below the exponent. *)
Lemma aligned_small w e : in_u 64 w -> 0 <= e <= 64 -> rev w mod 2 ^ (64 - e) = 0 -> w < 2 ^ e.
Proof.
  intros Hw He Hz. assert (w = w mod 2 ^ e) as ->; [|apply Z.mod_pos_bound, pow2_pos; lia].
  apply Z.bits_inj'. intros i Hi. destruct (decide (i < e)); [by rewrite Z.mod_pow2_bits_low by lia|].
  rewrite Z.mod_pow2_bits_high by lia. destruct (decide (i < 64)); [|apply in_u_high; [done|lia]].
  rewrite <- (Z.bits_0 (63 - i)), <- Hz, Z.mod_pow2_bits_low by lia.
  rewrite rev_bit by lia. f_equal. lia.
Qed.

Lemma interval_small w c e :
  in_u 64 w -> 0 <= e <= 64 -> rev w = interval_end c (64 - e) mod 2 ^ 64 -> w < 2 ^ e.
Proof.
  intros Hw He Hr. apply aligned_small; [done|done|]. rewrite Hr, mod_2_64 by lia.
  apply interval_end_mult. lia.
Qed.

(** The exponent of the larger table. *)
Definition max_exp (d : dict SK V) : Z := Z.max 0 (Z.max (ht_size_exp (ht0 d)) (ht_size_exp (ht1 d))).

Lemma max_exp_le d w e :
  w < 2 ^ e -> e <= ht_size_exp (ht0 d) \/ e <= ht_size_exp (ht1 d) -> w < 2 ^ max_exp d.
Proof.
  intros Hw He. eapply Z.lt_le_trans; [done|]. apply Z.pow_le_mono_r; [lia|]. unfold max_exp. lia.
Qed.

(** One step of the cursor over the larger table: the loop ends exactly at the end of
    the interval of the smaller one. *)
Lemma expansion_step v e0 e1 :
  in_u 64 v -> 0 <= e0 <= e1 -> e1 <= 64 ->
  let w := next_cursor v (mask_of e1) in
  let c1 := interval_end (rev v) (64 - e1) in
  let T := interval_end (rev v) (64 - e0) in
  in_u 64 w /\ rev w = c1 mod 2 ^ 64 /\ rev v < c1 <= T /\ T <= 2 ^ 64 /\
  (Z.land w (Z.lxor (mask_of e0) (mask_of e1)) = 0 <-> c1 = T).
Proof.
  intros Hv He He1. cbv zeta. destruct (next_cursor_rev v e1 Hv ltac:(lia)) as [Hrev Hw].
  set (w := next_cursor v (mask_of e1)) in *. set (c1 := interval_end (rev v) (64 - e1)) in *.
  set (T := interval_end (rev v) (64 - e0)).
  assert (HT : T mod 2 ^ (64 - e0) = 0) by (apply interval_end_mult; lia).
  assert (Hgt : rev v < T) by (apply interval_end_gt; lia).
  assert (Hlow : rev w mod 2 ^ (64 - e1) = 0)
    by (rewrite Hrev, mod_2_64 by lia; apply interval_end_mult; lia).
  split_and!; try done.
  - apply interval_end_gt. lia.
  - apply (interval_end_le _ (64 - e0)); [lia|done|done].
  - apply interval_end_max; [lia|by apply rev_range].
  - rewrite expansion_test by done. rewrite Hrev, mod_2_64 by lia. split; [|by intros ->].
    apply interval_end_aligned. lia.
Qed.

Lemma expansions_spec fuel (big : ht SK V) t e0 e1 : forall v,
  ht_ok ty big -> ht_table big = Some t -> ht_size_exp big = e1 -> in_u 64 v -> 0 <= e0 <= e1 ->
  let T := interval_end (rev v) (64 - e0) in
  T <= (rev v / 2 ^ (64 - e1) + Z.of_nat fuel) * 2 ^ (64 - e1) ->
  exists v' out, expansions fuel big (mask_of e0) (mask_of e1) v = Some (v', out) /\ in_u 64 v' /\
    rev v' = T mod 2 ^ 64 /\ (forall x, x ∈ out -> x ∈ elems big) /\
    forall x, x ∈ elems big -> rev v <= point x < T -> x ∈ out.
Proof.
  induction fuel as [|fuel IH]; intros v Hok Ht Hexp Hv He0 T Hf;
    destruct (ht_ok_Some ty big t Ht Hok) as (He & _); rewrite Hexp in He;
    pose proof (pow2_pos (64 - e1) ltac:(lia)) as Hpos.
  { pose proof (interval_end_gt (rev v) (64 - e0) ltac:(lia)). fold T in H.
    pose proof (Z.mul_div_le (rev v) (2 ^ (64 - e1)) Hpos). lia. }
  cbn [expansions]. destruct (scan_bucket_spec big t v Hok Ht Hv) as (c & Hsc & Hc & Hcov).
  rewrite Hexp in Hsc, Hcov. rewrite Hsc. mred.
  destruct (expansion_step v e0 e1 Hv He0 ltac:(lia)) as (Hw & Hrw & Hc1 & HT & Htest).
  set (w := next_cursor v (mask_of e1)) in *. fold T in Hc1, HT, Htest.
  set (c1 := interval_end (rev v) (64 - e1)) in *.
  assert (Hfirst : forall x, x ∈ elems big -> rev v <= point x < c1 -> x ∈ c).
  { intros x Hin Hx. apply Hcov; [done|]. apply interval_points; [lia|done]. }
  destruct (Z.eqb_spec (Z.land w (Z.lxor (mask_of e0) (mask_of e1))) 0) as [Hz|Hz]; cbn [negb].
  - apply Htest in Hz. exists w, c. rewrite <- Hz. by split_and!.
  - assert (Hlt : c1 < T) by (destruct (decide (c1 = T)); [by apply Htest in e|lia]).
    pose proof (rev_range v Hv) as [Hr0 _].
    rewrite Z.mod_small in Hrw by lia.
    assert (HTw : interval_end (rev w) (64 - e0) = T) by (rewrite Hrw; apply interval_end_same; [lia|fold T; lia]).
    destruct (IH w) as (v' & out & -> & Hv' & Hrv' & Hsub & Hall); try done.
    { rewrite HTw, Hrw. unfold c1 at 1, interval_end at 1. rewrite Z.div_mul by lia. lia. }
    mred. rewrite HTw in *. exists v', (c ++ out). split_and!; try done.
    + intros x [?|?]%elem_of_app; auto.
    + intros x Hin Hx. apply elem_of_app. destruct (decide (point x < c1)).
      * left. apply Hfirst; [done|lia].
      * right. apply Hall; [done|lia].
Qed.

(** One call: the entries of [d] whose point lies between the two cursors. *)
Definition scan_covers (d : dict SK V) (v : Z) : Prop :=
  exists v' out, dictScan d v = Some (v', out) /\ in_u 64 v' /\ v' < 2 ^ max_exp d /\ rev v < fin v' /\
    (forall x, x ∈ out -> x ∈ all d) /\
    forall x, x ∈ all d -> rev v <= point x < fin v' -> x ∈ out.

Lemma scan_one_table d v t :
  wf ty d -> dictSize d <> 0 -> dictIsRehashing d = false -> ht_table (ht0 d) = Some t ->
  in_u 64 v -> scan_covers d v.
Proof.
  intros Hwf Hz Hreh Ht Hv. destruct (not_rehashing ty d Hwf Hreh) as [_ Hh1].
  destruct (ht_ok_Some ty _ t Ht (wf_ht0 ty d Hwf)) as (He & _).
  unfold scan_covers, dictScan. rewrite (proj2 (Z.eqb_neq _ _)), Hreh by done. cbn [negb].
  rewrite mask_eq by lia.
  destruct (scan_bucket_spec (ht0 d) t v (wf_ht0 ty d Hwf) Ht Hv) as (c & -> & Hc & Hcov). mred.
  set (e := ht_size_exp (ht0 d)) in *.
  destruct (next_cursor_rev v e Hv ltac:(lia)) as [Hrev Hw].
  pose proof (interval_end_gt (rev v) (64 - e) ltac:(lia)) as Hgt.
  pose proof (rev_range v Hv) as Hrv.
  pose proof (interval_end_max (rev v) (64 - e) ltac:(lia) Hrv) as Hmax.
  assert (Hfin : fin (next_cursor v (mask_of e)) = interval_end (rev v) (64 - e))
    by (apply fin_of; [done|done|unfold in_u in Hrv; lia]).
  eexists _, _. split; [done|]. rewrite Hfin, (not_rehashing_all d Hh1).
  split_and!; try done; [apply (max_exp_le _ _ e); [by apply interval_small with (rev v); [|lia|]|left; lia]|].
  intros x Hin Hx. apply Hcov; [done|]. apply interval_points; [lia|done].
Qed.

(** The two tables, the smaller one first. *)
Lemma scan_two_tables (small big : ht SK V) ts tb v :
  ht_ok ty small -> ht_ok ty big -> ht_table small = Some ts -> ht_table big = Some tb ->
  ht_size_exp small <= ht_size_exp big -> in_u 64 v ->
  let m0 := DICTHT_SIZE_MASK (ht_size_exp small) in
  let m1 := DICTHT_SIZE_MASK (ht_size_exp big) in
  exists v' out0 out1, scan_bucket small (Z.land v m0) = Some out0 /\
    expansions (S (Z.to_nat (m1 + 1))) big m0 m1 v = Some (v', out1) /\
    in_u 64 v' /\ v' < 2 ^ ht_size_exp small /\ rev v < fin v' /\
    (forall x, x ∈ out0 ++ out1 -> x ∈ elems small \/ x ∈ elems big) /\
    forall x, x ∈ elems small \/ x ∈ elems big -> rev v <= point x < fin v' -> x ∈ out0 ++ out1.
Proof.
  intros Hoks Hokb Hts Htb Hle Hv. destruct (ht_ok_Some ty _ ts Hts Hoks) as (He0 & _).
  destruct (ht_ok_Some ty _ tb Htb Hokb) as (He1 & _). cbv zeta. rewrite !mask_eq by lia.
  set (e0 := ht_size_exp small) in *. set (e1 := ht_size_exp big) in *.
  destruct (scan_bucket_spec small ts v Hoks Hts Hv) as (out0 & H0 & Hsub0 & Hcov0).
  pose proof (interval_end_gt (rev v) (64 - e0) ltac:(lia)) as Hgt.
  pose proof (rev_range v Hv) as Hrv.
  pose proof (interval_end_max (rev v) (64 - e0) ltac:(lia) Hrv) as Hmax.
  destruct (expansions_spec (S (Z.to_nat (mask_of e1 + 1))) big tb e0 e1 v)
    as (v' & out1 & H1 & Hv' & Hrv' & Hsub1 & Hcov1); try done; try lia.
  { etrans; [exact Hmax|]. pose proof (pow2_pos e1 ltac:(lia)). pose proof (pow2_pos (64 - e1) ltac:(lia)).
    assert (2 ^ 64 = 2 ^ e1 * 2 ^ (64 - e1)) as -> by (rewrite <- Z.pow_add_r by lia; f_equal; lia).
    assert (0 <= rev v / 2 ^ (64 - e1)) by (apply Z.div_pos; unfold in_u in Hrv; lia).
    apply Z.mul_le_mono_nonneg_r; lia. }
  assert (Hfin : fin v' = interval_end (rev v) (64 - e0))
    by (apply fin_of; [done|done|unfold in_u in Hrv; lia]).
  exists v', out0, out1. rewrite Hfin. split_and!; try done; [by apply interval_small with (rev v); [|lia|]|..].
  - intros x [?|?]%elem_of_app; auto.
  - intros x [Hin|Hin] Hx; apply elem_of_app; [left|right; by apply Hcov1].
    apply Hcov0; [done|]. apply interval_points; [lia|done].
Qed.

Lemma dictScan_covers d v : wf ty d -> in_u 64 v -> scan_covers d v.
Proof.
  intros Hwf Hv. destruct (decide (dictSize d = 0)) as [Hz|Hz].
  { exists 0, []. unfold dictScan. rewrite Hz, (dictSize_zero ty d Hwf Hz).
    pose proof (rev_range v Hv) as [_ Hlt]. split_and!; try done. apply pow2_pos. unfold max_exp. lia. }
  destruct (dictIsRehashing d) eqn:Hreh.
  - destruct (wf_rehashing ty d Hwf Hreh) as (t0 & Ht0 & [t1 Ht1] & _).
    destruct (ht_ok_Some ty _ t0 Ht0 (wf_ht0 ty d Hwf)) as (He0 & _).
    destruct (ht_ok_Some ty _ t1 Ht1 (wf_ht1 ty d Hwf)) as (He1 & _).
    unfold scan_covers, dictScan. rewrite (proj2 (Z.eqb_neq _ _)), Hreh by done. cbn [negb].
    rewrite !SIZE_pow, Z.gtb_ltb by lia.
    destruct (Z.ltb_spec (2 ^ ht_size_exp (ht1 d)) (2 ^ ht_size_exp (ht0 d))) as [Hs|Hs].
    + apply Z.pow_lt_mono_r_iff in Hs; [|lia..].
      destruct (scan_two_tables (ht1 d) (ht0 d) t1 t0 v) as (v' & o0 & o1 & -> & H1 & Hv' & Hb & Hf & Hsub & Hcov);
        [apply Hwf|apply Hwf|done|done|lia|done|]. mred. rewrite H1. mred.
      eexists _, _. split_and!; try done; [apply (max_exp_le _ _ _ Hb); by right|..].
      * intros x Hx. apply elem_of_all. apply Hsub in Hx. tauto.
      * intros x Hx. apply Hcov. apply elem_of_all in Hx. tauto.
    + apply Z.pow_le_mono_r_iff in Hs; [|lia..].
      destruct (scan_two_tables (ht0 d) (ht1 d) t0 t1 v) as (v' & o0 & o1 & -> & H1 & Hv' & Hb & Hf & Hsub & Hcov);
        [apply Hwf|apply Hwf|done|done|lia|done|]. mred. rewrite H1. mred.
      eexists _, _. split_and!; try done; [apply (max_exp_le _ _ _ Hb); by left|..].
      * intros x Hx. apply elem_of_all. by apply Hsub.
      * intros x Hx. apply Hcov. by apply elem_of_all.
  - destruct (ht_table (ht0 d)) as [t|] eqn:Ht; [by apply (scan_one_table d v t)|].
    destruct (table0_None ty d Hwf Ht) as (_ & _ & Hu). destruct (not_rehashing ty d Hwf Hreh) as [_ Hh1].
    unfold dictSize in Hz. rewrite Hu, Hh1 in Hz. done.
Qed.

(** A complete iteration from the cursor [v]: the dictionaries it met and what was
    given to the callback.  Between two calls the dictionary may be anything. *)
Inductive scans : Z -> list (dict SK V * list entry) -> Prop :=
| scans_last d v out : dictScan d v = Some (0, out) -> scans v [(d, out)]
| scans_next d v v' out rest :
  dictScan d v = Some (v', out) -> v' <> 0 -> scans v' rest -> scans v ((d, out) :: rest).

Lemma scans_from v (run : list (dict SK V * list entry)) key :
  scans v run -> in_u 64 v -> (forall d out, (d, out) ∈ run -> wf ty d) ->
  (forall d out, (d, out) ∈ run -> exists e, e ∈ all d /\ key_of ty e = key) ->
  rev v <= rev (hashFunction ty key) ->
  exists d out e, (d, out) ∈ run /\ e ∈ out /\ key_of ty e = key.
Proof.
  induction 1 as [d v out Hs|d v v' out rest Hs Hne Hrun IH]; intros Hv Hwf Hkey Hle.
  - destruct (dictScan_covers d v (Hwf d out ltac:(left)) Hv) as (v' & out' & Hs' & _ & _ & _ & _ & Hcov).
    rewrite Hs in Hs'. injection Hs' as <- <-.
    destruct (Hkey d out ltac:(left)) as (e & Hin & Hk). exists d, out, e. split_and!; [left| |done].
    apply Hcov; [done|]. rewrite Hk. pose proof (rev_range _ (Hhash key)) as [_ Hlt]. done.
  - destruct (dictScan_covers d v (Hwf d out ltac:(left)) Hv) as (v2 & out' & Hs' & Hv' & _ & _ & _ & Hcov).
    rewrite Hs in Hs'. injection Hs' as <- <-.
    destruct (Hkey d out ltac:(left)) as (e & Hin & Hk).
    unfold fin in Hcov. rewrite (proj2 (Z.eqb_neq _ _)) in Hcov by done.
    destruct (decide (rev (hashFunction ty key) < rev v')) as [Hlt|Hge].
    + exists d, out, e. split_and!; [left| |done]. apply Hcov; [done|]. by rewrite Hk.
    + destruct IH as (d2 & out2 & e2 & Hin2 & He2 & Hk2); [done| | |lia|].
      * intros d2 o2 Hin2. apply (Hwf d2 o2). by right.
      * intros d2 o2 Hin2. apply (Hkey d2 o2). by right.
      * exists d2, out2, e2. split_and!; [by right|done|done].
Qed.

(** C18: the guarantee of [dictScan]: in a complete iteration from the cursor 0, with
    any changes of the dictionary between the calls (insertions, deletions, resizing
    and rehashing in both directions), every key that is present at each call is given
    to the callback at least once. *)
Theorem dictScan_complete (run : list (dict SK V * list entry)) key :
  scans 0 run -> (forall d out, (d, out) ∈ run -> wf ty d) ->
  (forall d out, (d, out) ∈ run -> exists e, e ∈ all d /\ key_of ty e = key) ->
  exists d out e, (d, out) ∈ run /\ e ∈ out /\ key_of ty e = key.
Proof.
  intros Hs Hwf Hkey. apply (scans_from 0 run key Hs); [by vm_compute|done|done|].
  rewrite rev_0. apply rev_range, Hhash.
Qed.

(** One call of [dictScan] returns, gives the callback only entries of the
    dictionary, and either ends the iteration or moves the cursor strictly forward in
    the order of reversed bits. *)
Theorem dictScan_progress (d : dict SK V) v :
  wf ty d -> in_u 64 v ->
  exists v' out, dictScan d v = Some (v', out) /\ in_u 64 v' /\ (v' = 0 \/ rev v < rev v') /\
    forall x, x ∈ out -> x ∈ all d.
Proof.
  intros Hwf Hv. destruct (dictScan_covers d v Hwf Hv) as (v' & out & Hs & Hv' & _ & Hf & Hsub & _).
  exists v', out. split_and!; try done. unfold fin in Hf. destruct (Z.eqb_spec v' 0); auto.
Qed.

End ScanProofs.

(** ** A concrete run *)

Module ScanSample.
Lemma hash_u64 k : in_u 64 (hashFunction Sample.ty k).
Proof. apply Z.mod_pos_bound. done. Qed.

(** The four calls on one dictionary in the middle of rehashing. *)
Definition run : list (dict Z Z * list (Z * Z)) :=
  [(Sample.s5, [(4, 40)]); (Sample.s5, [(2, 20)]); (Sample.s5, [(3, 30)]);
   (Sample.s5, [(1, 10); (5, 50)])].

Lemma run_scans : scans 0 run.
Proof.
  apply (scans_next _ 0 2); [by vm_compute|done|]. apply (scans_next _ 2 1); [by vm_compute|done|].
  apply (scans_next _ 1 3); [by vm_compute|done|]. apply (scans_last _ 3). by vm_compute.
Qed.

Lemma run_dict d out : (d, out) ∈ run -> d = Sample.s5.
Proof.
  intros Hin. assert (Hd : Forall (fun p => p.1 = Sample.s5) run) by (by repeat constructor).
  exact (proj1 (Forall_forall _ _) Hd _ Hin).
Qed.

Lemma five_present : (5, 50) ∈ all Sample.s5.
Proof. apply (bool_decide_unpack _). by vm_compute. Qed.
End ScanSample.

Lemma dictScan_complete_witness :
  exists d out e, (d, out) ∈ ScanSample.run /\ e ∈ out /\ key_of Sample.ty e = 5.
Proof.
  apply (dictScan_complete Sample.ty ScanSample.hash_u64 ScanSample.run 5).
  - exact ScanSample.run_scans.
  - intros d out ->%ScanSample.run_dict. exact Sample.wf_s5.
  - intros d out ->%ScanSample.run_dict. exists (5, 50). split; [exact ScanSample.five_present|reflexivity].
Defined.

Lemma dictScan_progress_witness :
  exists v' out, dictScan Sample.s5 0 = Some (v', out) /\ (v' = 0 \/ rev 0 < rev v').
Proof.
  destruct (dictScan_progress Sample.ty ScanSample.hash_u64 Sample.s5 0 Sample.wf_s5) as (v' & out & Hs & _ & Hp & _).
  - by vm_compute.
  - exists v', out. split; [exact Hs|exact Hp].
Defined.

End DictScan.
