(* ===== verification/Kvstore.v ===== *)
(** * The array of dictionaries of a database ([redis-stable/src/kvstore.c])

    One dictionary per hash slot ([Dict]), counters over all of them, and the Fenwick
    tree ([FwTree]) that finds the slot of the n-th key.  A pointer in [dicts] is an
    [option]; the list of rehashing dictionaries holds their indexes, and a dictionary
    has a [rehashing_node] exactly when its index is in the list.  The callbacks that a
    dictionary calls during an operation are the events it has logged; they only touch
    the fields of the store.  The metadata callbacks ([onDictEmpty], [onKvstoreEmpty])
    are not modelled. *)

From stdpp Require Import gmap.
From S2P Require Import Prelude FwTree Dict DictScan.

Module Kvstore.
Import FwTree Dict.

Section Kvstore.
Context {K SK V : Type}.
Abbreviation dict := (dict SK V).
Abbreviation entry := (SK * V)%type.
Context (ty : dictType K SK) (can_resize : dictResizeEnable).

(** The callback [canFreeDict] of the [kvstoreType]. *)
Context (canFreeDict : Z -> bool).

Record kvstore := Kv {
  on_demand : bool;   (* KVSTORE_ALLOCATE_DICTS_ON_DEMAND *)
  free_empty : bool;  (* KVSTORE_FREE_EMPTY_DICTS *)
  dicts : list (option dict);
  num_dicts : Z;
  num_dicts_bits : Z;
  rehashing : list Z;
  resize_cursor : Z;
  allocated_dicts : Z;
  non_empty_dicts : Z;
  key_count : Z;
  bucket_count : Z;
  dict_sizes : option fenwickTree;
  overhead_hashtable_rehashing : Z
}.

Definition set_dicts (k : kvstore) (ds : list (option dict)) (alloc : Z) : kvstore :=
  Kv (on_demand k) (free_empty k) ds (num_dicts k) (num_dicts_bits k) (rehashing k) (resize_cursor k)
    alloc (non_empty_dicts k) (key_count k) (bucket_count k) (dict_sizes k) (overhead_hashtable_rehashing k).
Definition set_counts (k : kvstore) (ne kc : Z) (ft : option fenwickTree) : kvstore :=
  Kv (on_demand k) (free_empty k) (dicts k) (num_dicts k) (num_dicts_bits k) (rehashing k) (resize_cursor k)
    (allocated_dicts k) ne kc (bucket_count k) ft (overhead_hashtable_rehashing k).
Definition set_watch (k : kvstore) (rl : list Z) (bc ov : Z) : kvstore :=
  Kv (on_demand k) (free_empty k) (dicts k) (num_dicts k) (num_dicts_bits k) rl (resize_cursor k)
    (allocated_dicts k) (non_empty_dicts k) (key_count k) bc (dict_sizes k) ov.
Definition set_resize_cursor (k : kvstore) (c : Z) : kvstore :=
  Kv (on_demand k) (free_empty k) (dicts k) (num_dicts k) (num_dicts_bits k) (rehashing k) c
    (allocated_dicts k) (non_empty_dicts k) (key_count k) (bucket_count k) (dict_sizes k) (overhead_hashtable_rehashing k).

(** *** Helpers *)

(** [kvs->dicts[didx]]: the inner [None] is [NULL]. *)
Definition kvstoreGetDict (k : kvstore) (didx : Z) : option (option dict) :=
  if 0 <=? didx then dicts k !! Z.to_nat didx else None.

Definition kvstoreSize (k : kvstore) : Z := key_count k.

Definition kvstoreDictSize (k : kvstore) (didx : Z) : option Z :=
  d ← kvstoreGetDict k didx; Some (match d with None => 0 | Some d => dictSize d end).

Definition kvstoreDictIsRehashingPaused (k : kvstore) (didx : Z) : option bool :=
  d ← kvstoreGetDict k didx; Some (match d with None => false | Some d => pauserehash d >? 0 end).

(** The three callbacks that a dictionary calls. *)
Definition kvstoreDictRehashingStarted (didx : Z) (k : kvstore) (from : Z) : kvstore :=
  set_watch k (rehashing k ++ [didx]) (bucket_count k) (uwrap 64 (overhead_hashtable_rehashing k + from)).
Definition kvstoreDictRehashingCompleted (didx : Z) (k : kvstore) (from : Z) : kvstore :=
  set_watch k (filter (fun i => i <> didx) (rehashing k)) (bucket_count k)
    (uwrap 64 (overhead_hashtable_rehashing k - from)).
Definition kvstoreDictBucketChanged (k : kvstore) (delta : Z) : kvstore :=
  set_watch k (rehashing k) (uwrap 64 (bucket_count k + delta)) (overhead_hashtable_rehashing k).

Definition callback (didx : Z) (k : kvstore) (e : event) : kvstore :=
  match e with
  | RehashingStarted from => kvstoreDictRehashingStarted didx k from
  | RehashingCompleted from => kvstoreDictRehashingCompleted didx k from
  | BucketChanged delta => kvstoreDictBucketChanged k delta
  end.

(** The dictionary [d] at [didx] has become [d'] through an operation of [Dict]. *)
Definition update_dict (k : kvstore) (didx : Z) (d d' : dict) : kvstore :=
  foldl (callback didx) (set_dicts k (<[Z.to_nat didx := Some d']> (dicts k)) (allocated_dicts k))
    (drop (length (events d)) (events d')).

Definition cumulativeKeyCountAdd (k : kvstore) (didx delta : Z) : option kvstore :=
  let kc := uwrap 64 (key_count k + delta) in
  od ← kvstoreGetDict k didx;
  d ← od;
  let dsize := dictSize d in
  let non_empty_dicts_delta :=
    if (dsize =? 1) && (delta >? 0) then 1 else if dsize =? 0 then -1 else 0 in
  let ne := non_empty_dicts k + non_empty_dicts_delta in
  if num_dicts k =? 1 then Some (set_counts k ne kc (dict_sizes k))
  else
    ft ← fwTreeUpdate (dict_sizes k) didx delta;
    Some (set_counts k ne kc ft).

Definition createDictIfNeeded (k : kvstore) (didx : Z) : option (kvstore * dict) :=
  od ← kvstoreGetDict k didx;
  match od with
  | Some d => Some (k, d)
  | None =>
    let d := dictCreate in
    Some (set_dicts k (<[Z.to_nat didx := Some d]> (dicts k)) (allocated_dicts k + 1), d)
  end.

Definition freeDictIfNeeded (k : kvstore) (didx : Z) : option kvstore :=
  if negb (free_empty k) then Some k
  else
    od ← kvstoreGetDict k didx;
    match od with
    | None => Some k
    | Some d =>
      if negb (dictSize d =? 0) || (pauserehash d >? 0) then Some k
      else if negb (canFreeDict didx) then Some k
      else
        let k := foldl (callback didx) k (drop (length (events d)) (dictRelease d).1) in
        Some (set_dicts k (<[Z.to_nat didx := None]> (dicts k)) (allocated_dicts k - 1))
    end.

(** *** Creation, emptying *)

Fixpoint create_all (n : nat) (k : kvstore) (i : Z) : option kvstore :=
  match n with
  | O => Some k
  | S n => '(k, _) ← createDictIfNeeded k i; create_all n k (i + 1)
  end.

Definition kvstoreCreate (num_dicts_bits : Z) (on_demand free_empty : bool) : option kvstore :=
  if negb (num_dicts_bits <=? 16) then None
  else
    let n := Z.shiftl 1 num_dicts_bits in
    let ft := if n >? 1 then Some (fwTreeCreate num_dicts_bits) else None in
    let k := Kv on_demand free_empty (replicate (Z.to_nat n) None) n num_dicts_bits [] 0 0 0 0 0 ft 0 in
    if on_demand then Some k else create_all (Z.to_nat n) k 0.

Fixpoint empty_all (n : nat) (k : kvstore) (didx : Z) : option kvstore :=
  match n with
  | O => Some k
  | S n =>
    od ← kvstoreGetDict k didx;
    match od with
    | None => empty_all n k (didx + 1)
    | Some d =>
      let k := update_dict k didx d (dictEmpty d).1 in
      k ← freeDictIfNeeded k didx;
      empty_all n k (didx + 1)
    end
  end.

Definition kvstoreEmpty (k : kvstore) : option kvstore :=
  k ← empty_all (Z.to_nat (num_dicts k)) k 0;
  Some (Kv (on_demand k) (free_empty k) (dicts k) (num_dicts k) (num_dicts_bits k) [] 0
    (allocated_dicts k) 0 0 0 (option_map fwTreeClear (dict_sizes k)) 0).

Definition kvstoreBuckets (k : kvstore) : option Z :=
  if negb (num_dicts k =? 1) then Some (bucket_count k)
  else od ← kvstoreGetDict k 0; Some (match od with Some d => dictBuckets d | None => 0 end).

(** *** Positions *)

Definition kvstoreFindDictIndexByKeyIndex (k : kvstore) (target : Z) : option Z :=
  if (num_dicts k =? 1) || (kvstoreSize k =? 0) then Some 0
  else if negb (target <=? kvstoreSize k) then None
  else ft ← dict_sizes k; fwTreeFindIndex ft target.

Definition kvstoreGetFirstNonEmptyDictIndex (k : kvstore) : option Z :=
  if kvstoreSize k =? 0 then Some (-1)
  else if num_dicts k =? 1 then Some 0
  else ft ← dict_sizes k; fwTreeFindFirstNonEmpty ft.

Definition kvstoreGetNextNonEmptyDictIndex (k : kvstore) (didx : Z) : option Z :=
  if num_dicts k =? 1 then (if didx =? 0 then Some (-1) else None)
  else fwTreeFindNextNonEmpty (dict_sizes k) didx.

(** [rnd] are the numbers that [randomULong] returns. *)
Fixpoint fair_attempts_loop (k : kvstore) (skip : Z -> bool) (rnd : list Z) : option (option Z) :=
  match rnd with
  | [] => Some None
  | r :: rnd =>
    let target := r mod kvstoreSize k + 1 in
    didx ← kvstoreFindDictIndexByKeyIndex k target;
    if negb (skip didx) then Some (Some didx) else fair_attempts_loop k skip rnd
  end.

Fixpoint fallback_loop (k : kvstore) (skip : Z -> bool) (start : Z) (i : Z) (n : nat) : option Z :=
  match n with
  | O => Some (-1)
  | S n =>
    let didx := (start + i) mod num_dicts k in
    od ← kvstoreGetDict k didx;
    if match od with Some _ => negb (skip didx) | None => false end then Some didx
    else fallback_loop k skip start (i + 1) n
  end.

(** One number per attempt, and one for the fallback. *)
Definition kvstoreGetFairRandomDictIndex (k : kvstore) (skip : Z -> bool) (rnd : list Z)
    (slow_fallback : option Z) : option Z :=
  if (num_dicts k =? 1) || (kvstoreSize k =? 0) then Some 0
  else
    r ← fair_attempts_loop k skip rnd;
    match r with
    | Some didx => Some didx
    | None =>
      match slow_fallback with
      | Some r => fallback_loop k skip (r mod num_dicts k) 0 (Z.to_nat (num_dicts k))
      | None => Some (-1)
      end
    end.

(** *** Scanning *)

Definition addDictIndexToCursor (k : kvstore) (didx cursor : Z) : Z :=
  if num_dicts k =? 1 then cursor
  else if didx <? 0 then cursor
  else Z.lor (uwrap 64 (Z.shiftl cursor (num_dicts_bits k))) didx.

Definition getAndClearDictIndexFromCursor (k : kvstore) (cursor : Z) : Z * Z :=
  if num_dicts k =? 1 then (0, cursor)
  else (Z.land cursor (num_dicts k - 1), Z.shiftr cursor (num_dicts_bits k)).

(** The store, the new cursor, and the entries given to the callback.  The callback
    does not change the dictionary. *)
Definition kvstoreScan (k : kvstore) (cursor onlydidx : Z) (skip : Z -> bool)
    : option (kvstore * Z * list entry) :=
  let '(didx, cursor) := getAndClearDictIndexFromCursor k cursor in
  start ←
    (if onlydidx >=? 0 then
       if didx <? onlydidx then (if onlydidx <? num_dicts k then Some (Some (onlydidx, 0)) else None)
       else if didx >? onlydidx then Some None else Some (Some (didx, cursor))
     else Some (Some (didx, cursor)));
  match start with
  | None => Some (k, 0, [])
  | Some (didx, cursor) =>
    od ← kvstoreGetDict k didx;
    '(k, _cursor, out, skipped) ←
      match od with
      | Some d =>
        if skip didx then Some (k, 0, [], true)
        else
          '(c, out) ← DictScan.dictScan d cursor;
          k ← freeDictIfNeeded k didx;
          Some (k, c, out, false)
      | None => Some (k, 0, [], true)
      end;
    if (_cursor =? 0) || (skipped : bool) then
      if onlydidx >=? 0 then Some (k, 0, out)
      else
        didx ← kvstoreGetNextNonEmptyDictIndex k didx;
        if didx =? -1 then Some (k, 0, out)
        else Some (k, addDictIndexToCursor k didx _cursor, out)
    else Some (k, addDictIndexToCursor k didx _cursor, out)
  end.

(** *** Operations on all the dictionaries *)

(** [alloc i] tells whether the allocation for the [i]-th dictionary succeeds, when it
    may fail. *)
Fixpoint expand_all (n : nat) (k : kvstore) (i newsize : Z) (try_expand : bool) (skip alloc : Z -> bool)
    : option (kvstore * bool) :=
  match n with
  | O => Some (k, true)
  | S n =>
    if skip i then expand_all n k (i + 1) newsize try_expand skip alloc
    else
      '(k, d) ← createDictIfNeeded k i;
      '(d', result) ← (if try_expand then dictTryExpand ty can_resize d newsize (alloc i)
                       else dictExpand ty can_resize d newsize);
      let k := update_dict k i d d' in
      if try_expand && bool_decide (result = DICT_ERR) then Some (k, false)
      else expand_all n k (i + 1) newsize try_expand skip alloc
  end.

Definition kvstoreExpand (k : kvstore) (newsize : Z) (try_expand : bool) (skip alloc : Z -> bool)
    : option (kvstore * bool) :=
  expand_all (Z.to_nat (num_dicts k)) k 0 newsize try_expand skip alloc.

Definition resize_one (k : kvstore) (didx : Z) : option kvstore :=
  od ← kvstoreGetDict k didx;
  match od with
  | None => Some k
  | Some d =>
    '(d1, st) ← dictShrinkIfNeeded ty can_resize d;
    let k := update_dict k didx d d1 in
    if bool_decide (st = DICT_ERR) then
      '(d2, _) ← dictExpandIfNeeded ty can_resize d1;
      Some (update_dict k didx d1 d2)
    else Some k
  end.

Fixpoint resize_loop (n : nat) (k : kvstore) : option kvstore :=
  match n with
  | O => Some k
  | S n =>
    let didx := resize_cursor k in
    k ← resize_one k didx;
    resize_loop n (set_resize_cursor k ((didx + 1) mod num_dicts k))
  end.

Definition kvstoreTryResizeDicts (k : kvstore) (limit : Z) : option kvstore :=
  let limit := if limit >? num_dicts k then num_dicts k else limit in
  resize_loop (Z.to_nat limit) k.

(** Both stores, the source first. *)
Definition kvstoreMoveDict (k dst : kvstore) (didx : Z) : option (kvstore * kvstore) :=
  if negb (num_dicts k >? didx) || negb (num_dicts k =? num_dicts dst) then None
  else
    odst ← kvstoreGetDict dst didx;
    match odst with
    | Some _ => None
    | None =>
      od ← kvstoreGetDict k didx;
      match od with
      | None => Some (k, dst)
      | Some d =>
        let from := DICTHT_SIZE (ht_size_exp (ht0 d)) in
        let k := set_dicts k (dicts k) (allocated_dicts k - 1) in
        k ← cumulativeKeyCountAdd k didx (- dictSize d);
        let k := kvstoreDictBucketChanged k (- dictBuckets d) in
        let k := if dictIsRehashing d then kvstoreDictRehashingCompleted didx k from else k in
        let k := set_dicts k (<[Z.to_nat didx := None]> (dicts k)) (allocated_dicts k) in
        k ← (if negb (on_demand k || free_empty k) then '(k, _) ← createDictIfNeeded k didx; Some k
             else Some k);
        let dst := set_dicts dst (<[Z.to_nat didx := Some d]> (dicts dst)) (allocated_dicts dst + 1) in
        dst ← cumulativeKeyCountAdd dst didx (dictSize d);
        let dst := kvstoreDictBucketChanged dst (dictBuckets d) in
        let dst := if dictIsRehashing d then kvstoreDictRehashingStarted didx dst from else dst in
        Some (k, dst)
      end
    end.

(** [clock] as in [dictRehashMicroseconds]. *)
Fixpoint incremental_loop (fuel : nat) (clock : nat -> Z) (n : nat) (start threshold_us elapsed_us : Z)
    (k : kvstore) : option (kvstore * Z * nat) :=
  match fuel with
  | O => None
  | S fuel =>
    match rehashing k with
    | [] => Some (k, elapsed_us, n)
    | didx :: _ =>
      od ← kvstoreGetDict k didx;
      d ← od;
      '(d', _, n) ← dictRehashMicroseconds ty can_resize clock n d (uwrap 64 (threshold_us - elapsed_us));
      let k := update_dict k didx d d' in
      let elapsed_us := uwrap 64 (clock n - start) in
      if elapsed_us >=? threshold_us then Some (k, elapsed_us, S n)
      else incremental_loop fuel clock (S n) start threshold_us elapsed_us k
    end
  end.

Definition kvstoreIncrementallyRehash (fuel : nat) (clock : nat -> Z) (n : nat) (k : kvstore) (threshold_us : Z)
    : option (kvstore * Z * nat) :=
  match rehashing k with
  | [] => Some (k, 0, n)
  | _ => incremental_loop fuel clock (S n) (clock n) threshold_us 0 k
  end.

(** *** Operations on one dictionary *)

Definition kvstoreDictExpand (k : kvstore) (didx size : Z) : option (kvstore * status) :=
  '(k, d) ← createDictIfNeeded k didx;
  '(d', st) ← dictExpand ty can_resize d size;
  Some (update_dict k didx d d', st).

Definition kvstoreDictFind (k : kvstore) (didx : Z) (key : K) : option (kvstore * option entry) :=
  od ← kvstoreGetDict k didx;
  match od with
  | None => Some (k, None)
  | Some d => '(d', e) ← dictFind ty can_resize d key; Some (update_dict k didx d d', e)
  end.

(** The type has values. *)
Definition kvstoreDictFetchValue (k : kvstore) (didx : Z) (key : K) : option (kvstore * option V) :=
  od ← kvstoreGetDict k didx;
  match od with
  | None => Some (k, None)
  | Some d => '(d', v) ← dictFetchValue ty can_resize d key; Some (update_dict k didx d d', v)
  end.

Definition kvstoreDictFindLink (k : kvstore) (didx : Z) (key : K) (want : bool)
    : option (kvstore * option link * option link) :=
  od ← kvstoreGetDict k didx;
  match od with
  | None => Some (k, None, None)
  | Some d =>
    '(d', found, bucket) ← dictFindLink ty can_resize d key want;
    Some (update_dict k didx d d', found, bucket)
  end.

Definition kvstoreDictSetAtLink (as_key : SK -> K) (k : kvstore) (didx : Z) (kv : SK) (v : V)
    (lk : option link) (newItem : bool) : option (kvstore * option link) :=
  if newItem then
    '(k, d) ← createDictIfNeeded k didx;
    '(d', l) ← dictSetKeyAtLink ty can_resize as_key d kv v lk newItem;
    k ← cumulativeKeyCountAdd (update_dict k didx d d') didx 1;
    Some (k, l)
  else
    od ← kvstoreGetDict k didx;
    d ← od;
    '(d', l) ← dictSetKeyAtLink ty can_resize as_key d kv v lk newItem;
    Some (update_dict k didx d d', l).

(** [inl] is the existing entry, [inr] the new one, as in [dictAddRaw]. *)
Definition kvstoreDictAddRaw (k : kvstore) (didx : Z) (key : SK) (v : V) : option (kvstore * (link + link)) :=
  '(k, d) ← createDictIfNeeded k didx;
  '(d', r) ← dictAddRaw ty can_resize d key v;
  let k := update_dict k didx d d' in
  match r with
  | inl l => Some (k, inl l)
  | inr l => k ← cumulativeKeyCountAdd k didx 1; Some (k, inr l)
  end.

Definition kvstoreDictSetVal (k : kvstore) (didx : Z) (l : link) (val : V) : option kvstore :=
  od ← kvstoreGetDict k didx;
  d ← od;
  d' ← dictSetVal d l val;
  Some (update_dict k didx d d').

Definition kvstoreDictTwoPhaseUnlinkFind (k : kvstore) (didx : Z) (key : K) : option (kvstore * option link) :=
  od ← kvstoreGetDict k didx;
  match od with
  | None => Some (k, None)
  | Some d =>
    '(d', l) ← dictTwoPhaseUnlinkFind ty can_resize d key;
    Some (update_dict k didx d d', l)
  end.

Definition kvstoreDictTwoPhaseUnlinkFree (k : kvstore) (didx : Z) (l : option link) : option (kvstore * option entry) :=
  od ← kvstoreGetDict k didx;
  d ← od;
  '(d', e) ← dictTwoPhaseUnlinkFree ty can_resize d l;
  k ← cumulativeKeyCountAdd (update_dict k didx d d') didx (-1);
  k ← freeDictIfNeeded k didx;
  Some (k, e).

Definition kvstoreDictDelete (k : kvstore) (didx : Z) (key : K) : option (kvstore * status) :=
  od ← kvstoreGetDict k didx;
  match od with
  | None => Some (k, DICT_ERR)
  | Some d =>
    '(d', ret) ← dictDelete ty can_resize d key;
    let k := update_dict k didx d d' in
    if bool_decide (ret = DICT_OK) then
      k ← cumulativeKeyCountAdd k didx (-1);
      k ← freeDictIfNeeded k didx;
      Some (k, ret)
    else Some (k, ret)
  end.

End Kvstore.

#[global] Arguments kvstore : clear implicits.

(** ** The invariant *)

Section Proofs.
Context {K SK V : Type} `{Countable K}.
Context (ty : dictType K SK) (can_resize : dictResizeEnable).
Context (Hcmp : forall a b, keyCompare ty a b = true <-> a = b).
Context (Hhash : forall k, 0 <= hashFunction ty k).

Abbreviation dict := (dict SK V).
Abbreviation entry := (SK * V)%type.
Abbreviation kvstore := (kvstore SK V).
Abbreviation wf := (wf (V := V) ty).

(** What an entry of [dicts] contributes to the totals. *)
Definition size_of (o : option dict) : Z := match o with Some d => dictSize d | None => 0 end.
Definition alloc_of (o : option dict) : Z := match o with Some _ => 1 | None => 0 end.
Definition watched_of (o : option dict) : bool * Z * Z :=
  match o with Some d => watched d | None => (false, 0, 0) end.
Definition map_of_dict (o : option dict) : gmap K entry :=
  match o with Some d => to_map ty d | None => ∅ end.
Definition nonzero (x : Z) : Z := if x =? 0 then 0 else 1.

(** The abstract state: one map per dictionary index. *)
Definition slots (k : kvstore) : list (gmap K entry) := map_of_dict <$> dicts k.

Definition dict_ok (o : option dict) : Prop :=
  match o with Some d => wf d /\ pauseAutoResize d <= 0 | None => True end.

(** The list and the two counters that the callbacks of the dictionaries keep. *)
Record watch_ok (ds : list (option dict)) (rl : list Z) (bc ov : Z) : Prop := WatchOk {
  watch_nodup : NoDup rl;
  watch_list : forall i, i ∈ rl <-> 0 <= i /\ exists o, ds !! Z.to_nat i = Some o /\ (watched_of o).1.1 = true;
  watch_over : ov = uwrap 64 (sumZ ((fun o => (watched_of o).1.2) <$> ds));
  watch_buckets : bc = uwrap 64 (sumZ ((fun o => (watched_of o).2) <$> ds))
}.

(** The rest, with [xs] for the sizes as they are accounted. *)
Record core_ok (k : kvstore) (xs : list Z) : Prop := CoreOk {
  core_bits : 0 <= num_dicts_bits k <= 16;
  core_num : num_dicts k = 2 ^ num_dicts_bits k;
  core_len : zlen (dicts k) = num_dicts k;
  core_dicts : Forall dict_ok (dicts k);
  core_alloc : allocated_dicts k = sumZ (alloc_of <$> dicts k);
  core_xs : zlen xs = num_dicts k;
  core_nonneg : Forall (fun x => 0 <= x) xs;
  core_count : key_count k = sumZ xs;
  core_bound : sumZ xs < 2 ^ 63;
  core_nonempty : non_empty_dicts k = sumZ (nonzero <$> xs);
  core_tree : match dict_sizes k with
    | Some ft => num_dicts k <> 1 /\ repr ft xs
    | None => num_dicts k = 1
    end;
  core_cursor : 0 <= resize_cursor k < num_dicts k
}.

Definition watch_inv (k : kvstore) : Prop :=
  watch_ok (dicts k) (rehashing k) (bucket_count k) (overhead_hashtable_rehashing k).

Definition kv_ok (k : kvstore) : Prop := core_ok k (size_of <$> dicts k) /\ watch_inv k.

(** *** Sums over the dictionaries *)

Lemma sumZ_update {A} (f : A -> Z) (l : list A) i o o' :
  l !! i = Some o -> sumZ (f <$> <[i := o']> l) = sumZ (f <$> l) + (f o' - f o).
Proof.
  intros Hi. rewrite list_fmap_insert.
  rewrite <- (sumZ_insert (f <$> l) (Z.of_nat i) (f o) (f o' - f o)); [|lia|].
  - rewrite Nat2Z.id. do 2 f_equal. lia.
  - by rewrite Nat2Z.id, list_lookup_fmap, Hi.
Qed.

Lemma uwrap_add a b : uwrap 64 (uwrap 64 a + b) = uwrap 64 (a + b).
Proof. unfold uwrap. apply Zplus_mod_idemp_l. Qed.

(** *** Callbacks *)

Lemma callback_watch didx k e :
  exists rl bc ov, callback didx k e = set_watch (SK := SK) (V := V) k rl bc ov.
Proof. destruct e; by eexists _, _, _. Qed.

Lemma set_watch_twice (k : kvstore) a b c a' b' c' :
  set_watch (set_watch k a b c) a' b' c' = set_watch k a' b' c'.
Proof. done. Qed.

(** One callback takes the watched state of the slot from [s] to [s']. *)
Lemma callbacks_spec didx l : forall (k : kvstore) on from b on' from' b' B F,
  watch_from (Some (on, from, b)) l = Some (on', from', b') ->
  NoDup (rehashing k) -> (didx ∈ rehashing k <-> on = true) ->
  bucket_count k = uwrap 64 (B + b) -> overhead_hashtable_rehashing k = uwrap 64 (F + from) ->
  exists rl, foldl (callback didx) k l = set_watch k rl (uwrap 64 (B + b')) (uwrap 64 (F + from')) /\
    NoDup rl /\ (didx ∈ rl <-> on' = true) /\ forall i, i <> didx -> i ∈ rl <-> i ∈ rehashing k.
Proof.
  induction l as [|e l IH]; intros k on from b on' from' b' B F Hw Hnd Hin Hb Hf.
  { cbn in Hw. simplify_eq. exists (rehashing k). rewrite <- Hb, <- Hf. by destruct k. }
  cbn [foldl]. unfold watch_from in Hw. cbn [foldl mbind option_bind] in Hw. fold (watch_from) in Hw.
  assert (Hstop : forall s, foldl (fun s e => s ≫= fun s => watch_step s e) None l = Some s -> False).
  { intros s. clear. induction l; [done|exact IHl]. }
  destruct e as [x|x|x]; cbn [watch_step] in Hw.
  - destruct on; [by apply Hstop in Hw|].
    destruct (IH (callback didx k (RehashingStarted x)) _ _ _ _ _ _ B F Hw) as (rl & -> & Hnd' & Hin' & Hoth).
    + cbn. apply NoDup_app. split_and!; [done| |by apply NoDup_singleton].
      intros i Hi ->%list_elem_of_singleton. by apply Hin in Hi.
    + cbn. rewrite elem_of_app, list_elem_of_singleton. split; [done|by right].
    + done.
    + cbn. rewrite Hf, uwrap_add. f_equal. lia.
    + exists rl. split_and!; try done. intros i Hi. rewrite Hoth by done. cbn.
      rewrite elem_of_app, list_elem_of_singleton. split; [by intros [?|?]|by left].
  - destruct on; [|by apply Hstop in Hw].
    destruct (IH (callback didx k (RehashingCompleted x)) _ _ _ _ _ _ B F Hw) as (rl & -> & Hnd' & Hin' & Hoth).
    + cbn. by apply NoDup_filter.
    + cbn. rewrite list_elem_of_filter. split; [by intros [? _]|done].
    + done.
    + cbn. rewrite Hf. rewrite <- Z.add_opp_r, uwrap_add. f_equal. lia.
    + exists rl. split_and!; try done. intros i Hi. rewrite Hoth by done. cbn.
      rewrite list_elem_of_filter. intuition.
  - destruct (IH (callback didx k (BucketChanged x)) _ _ _ _ _ _ B F Hw) as (rl & -> & Hnd' & Hin' & Hoth);
      try done.
    + cbn. rewrite Hb, uwrap_add. f_equal. lia.
    + by exists rl.
Qed.

Lemma watch_update (k : kvstore) ds didx o o' l :
  watch_ok ds (rehashing k) (bucket_count k) (overhead_hashtable_rehashing k) ->
  0 <= didx -> ds !! Z.to_nat didx = Some o ->
  watch_from (Some (watched_of o)) l = Some (watched_of o') ->
  exists rl bc ov, foldl (callback didx) k l = set_watch k rl bc ov /\
    watch_ok (<[Z.to_nat didx := o']> ds) rl bc ov.
Proof.
  intros [Hnd Hl Ho Hb] Hi Hd Hw. destruct (watched_of o) as [[on from] b] eqn:Eo.
  destruct (watched_of o') as [[on' from'] b'] eqn:Eo'.
  destruct (callbacks_spec didx l k on from b on' from' b'
    (sumZ ((fun o => (watched_of o).2) <$> ds) - b) (sumZ ((fun o => (watched_of o).1.2) <$> ds) - from))
    as (rl & Hk & Hnd' & Hin & Hoth); [done|done| |rewrite Hb; f_equal; lia|rewrite Ho; f_equal; lia|].
  { rewrite Hl. split; [intros (_ & o2 & ? & ?); simplify_eq; by rewrite Eo in *|].
    intros ->. split; [done|]. exists o. by rewrite Eo. }
  rewrite Hk. eexists _, _, _. split; [done|]. constructor.
  - done.
  - intros i. destruct (decide (i = didx)) as [->|Hne].
    + rewrite Hin. pose proof (lookup_lt_Some _ _ _ Hd). rewrite list_lookup_insert_eq by done. split.
      * intros ->. split; [done|]. exists o'. by rewrite Eo'.
      * intros (_ & o2 & [= <-] & H2). by rewrite Eo' in H2.
    + rewrite Hoth, Hl by done. split; intros [? H2]; (split; [done|]).
      * by rewrite list_lookup_insert_ne by lia.
      * by rewrite list_lookup_insert_ne in H2 by lia.
  - rewrite (sumZ_update _ ds _ o o' Hd), Eo, Eo'. cbn. f_equal. lia.
  - rewrite (sumZ_update _ ds _ o o' Hd), Eo, Eo'. cbn. f_equal. lia.
Qed.

(** *** Replacing one dictionary *)

Lemma getDict_Some (k : kvstore) didx o :
  kvstoreGetDict k didx = Some o <-> 0 <= didx /\ dicts k !! Z.to_nat didx = Some o.
Proof. unfold kvstoreGetDict. destruct (Z.leb_spec 0 didx); [intuition|split; [done|lia]]. Qed.

Lemma getDict_lt (k : kvstore) xs didx :
  core_ok k xs -> 0 <= didx < num_dicts k -> exists o, kvstoreGetDict k didx = Some o /\ dict_ok o.
Proof.
  intros Hc Hi. destruct (lookup_lt_is_Some_2 (dicts k) (Z.to_nat didx)) as [o Ho].
  { pose proof (core_len _ _ Hc). lia. }
  exists o. split; [apply getDict_Some; split; [lia|done]|]. eapply Forall_lookup_1; [apply Hc|done].
Qed.

Lemma core_replace (k : kvstore) xs didx o o' alloc :
  core_ok k xs -> kvstoreGetDict k didx = Some o -> dict_ok o' ->
  alloc = allocated_dicts k + (alloc_of o' - alloc_of o) ->
  core_ok (set_dicts k (<[Z.to_nat didx := o']> (dicts k)) alloc) xs.
Proof.
  intros Hc [Hi Ho]%getDict_Some Hok Ha. destruct Hc. constructor; cbn; try done.
  - by rewrite length_insert.
  - by apply Forall_insert.
  - rewrite (sumZ_update _ _ _ o o' Ho). lia.
Qed.

Lemma core_watch (k : kvstore) xs rl bc ov : core_ok k xs -> core_ok (set_watch k rl bc ov) xs.
Proof. by intros []. Qed.

(** The dictionary at an index replaced, with the callbacks it made on the way. *)
Lemma replace_spec (k : kvstore) xs didx o o' l alloc :
  core_ok k xs -> watch_inv k -> kvstoreGetDict k didx = Some o -> dict_ok o' ->
  watch_from (Some (watched_of o)) l = Some (watched_of o') ->
  alloc = allocated_dicts k + (alloc_of o' - alloc_of o) ->
  let k' := set_dicts (foldl (callback didx) k l) (<[Z.to_nat didx := o']> (dicts k)) alloc in
  core_ok k' xs /\ watch_inv k' /\
  foldl (callback didx) (set_dicts k (<[Z.to_nat didx := o']> (dicts k)) alloc) l = k' /\
  dicts (foldl (callback didx) k l) = dicts k /\
  allocated_dicts (foldl (callback didx) k l) = allocated_dicts k.
Proof.
  intros Hc Hw Ho Hok Hl Ha k'. pose proof Ho as [Hi Hd]%getDict_Some.
  destruct (watch_update k (dicts k) didx o o' l Hw Hi Hd Hl) as (rl & bc & ov & Hk & Hw').
  destruct (watch_update (set_dicts k (<[Z.to_nat didx := o']> (dicts k)) alloc) (dicts k) didx o o' l Hw Hi Hd Hl)
    as (rl2 & bc2 & ov2 & Hk2 & _).
  assert (Heq : forall (k1 k2 : kvstore), rehashing k1 = rehashing k2 -> bucket_count k1 = bucket_count k2 ->
    overhead_hashtable_rehashing k1 = overhead_hashtable_rehashing k2 ->
    let f k := (rehashing k, bucket_count k, overhead_hashtable_rehashing k) in
    f (foldl (callback didx) k1 l) = f (foldl (callback didx) k2 l)).
  { clear. induction l as [|[] l IH]; intros k1 k2 H1 H2 H3; cbn [foldl]; [cbn; congruence|..];
      apply IH; cbn; congruence. }
  specialize (Heq k (set_dicts k (<[Z.to_nat didx := o']> (dicts k)) alloc) eq_refl eq_refl eq_refl).
  rewrite Hk, Hk2 in Heq. cbn in Heq. injection Heq as -> -> ->.
  unfold k'. rewrite Hk, Hk2. split_and!; try done.
  by apply (core_watch (set_dicts k _ alloc)), (core_replace k xs didx o).
Qed.

Lemma watch_suffix (d : dict) l m s :
  wf d -> l = events d ++ m -> watch l = Some s -> watch_from (Some (watched d)) m = Some s.
Proof. intros Hwf -> Hl. by rewrite watch_app, (wf_watch ty d Hwf) in Hl. Qed.

(** A dictionary replaced by what an operation of [Dict] has made of it. *)
Lemma update_dict_spec (k : kvstore) xs didx (d d' : dict) m :
  core_ok k xs -> watch_inv k -> kvstoreGetDict k didx = Some (Some d) -> wf d ->
  wf d' -> pauseAutoResize d' <= 0 -> events d `prefix_of` events d' -> to_map ty d' = m ->
  let k' := update_dict k didx d d' in
  core_ok k' xs /\ watch_inv k' /\ dicts k' = <[Z.to_nat didx := Some d']> (dicts k) /\
  slots k' = <[Z.to_nat didx := m]> (slots k) /\ kvstoreGetDict k' didx = Some (Some d').
Proof.
  intros Hc Hw Ho Hwf Hwf' Hp [l Hl] <- k'. unfold k', update_dict. rewrite Hl, drop_app_length.
  destruct (replace_spec k xs didx (Some d) (Some d') l (allocated_dicts k)) as (Hc' & Hw' & -> & Hds & _);
    try done; [by eapply watch_suffix; [|done|apply (wf_watch ty)]|cbn; lia|].
  split_and!; try done.
  - unfold slots. cbn. by rewrite list_fmap_insert.
  - apply getDict_Some in Ho as [Hi Ho]. pose proof (lookup_lt_Some _ _ _ Ho).
    apply getDict_Some. split; [done|]. cbn. by apply list_lookup_insert_eq.
Qed.

Lemma dictSize_map (d : dict) : wf d -> dictSize d = Z.of_nat (size (to_map ty d)).
Proof.
  intros Hwf. rewrite (dictSize_all ty d Hwf). unfold to_map, map_of.
  rewrite map_size_list_to_map, length_fmap; [done|]. rewrite map_of_keys. apply Hwf.
Qed.

Lemma size_of_map o : dict_ok o -> size_of o = Z.of_nat (size (map_of_dict o)).
Proof. destruct o as [d|]; [|done]. intros [Hwf _]. by apply dictSize_map. Qed.

Lemma slot_dict (k : kvstore) didx m :
  0 <= didx -> slots k !! Z.to_nat didx = Some m ->
  exists o, kvstoreGetDict k didx = Some o /\ m = map_of_dict o.
Proof.
  intros Hi Hm. unfold slots in Hm. rewrite list_lookup_fmap in Hm.
  destruct (dicts k !! Z.to_nat didx) as [o|] eqn:Ho; [|done]. injection Hm as <-.
  exists o. split; [by apply getDict_Some|done].
Qed.

Lemma slot_ok (k : kvstore) xs didx o : core_ok k xs -> kvstoreGetDict k didx = Some o -> dict_ok o.
Proof. intros Hc [_ Ho]%getDict_Some. eapply Forall_lookup_1; [apply Hc|done]. Qed.

(** The store after [createDictIfNeeded]: the same maps, and a dictionary at the index. *)
Lemma create_spec (k : kvstore) didx m :
  kv_ok k -> 0 <= didx -> slots k !! Z.to_nat didx = Some m ->
  exists k' d, createDictIfNeeded k didx = Some (k', d) /\ kv_ok k' /\ slots k' = slots k /\
    size_of <$> dicts k' = size_of <$> dicts k /\ num_dicts k' = num_dicts k /\
    key_count k' = key_count k /\
    kvstoreGetDict k' didx = Some (Some d) /\ wf d /\ pauseAutoResize d <= 0 /\ to_map ty d = m.
Proof.
  intros [Hc Hw] Hi Hm. destruct (slot_dict k didx m Hi Hm) as (o & Ho & ->).
  unfold createDictIfNeeded. rewrite Ho. mred. pose proof (slot_ok k _ didx o Hc Ho) as Hok.
  destruct o as [d|]; [destruct Hok; exists k, d; split_and!; done|].
  assert (Hwf : wf dictCreate) by (constructor; try done; [by left|constructor]).
  pose proof Ho as [_ Hd]%getDict_Some.
  destruct (replace_spec k _ didx None (Some dictCreate) [] (allocated_dicts k + 1) Hc Hw Ho)
    as (Hc' & Hw' & _ & _); try done. cbn [foldl] in Hc', Hw'.
  eexists _, _. split; [done|].
  assert (Hs : size_of <$> <[Z.to_nat didx := Some dictCreate]> (dicts k) = size_of <$> dicts k).
  { rewrite list_fmap_insert. apply list_insert_id. by rewrite list_lookup_fmap, Hd. }
  split_and!; try done.
  - split; [|done]. cbn [dicts set_dicts]. by rewrite Hs.
  - unfold slots. cbn [dicts set_dicts]. rewrite list_fmap_insert. apply list_insert_id.
    by rewrite list_lookup_fmap, Hd.
  - apply getDict_Some. split; [done|]. cbn. apply list_lookup_insert_eq. by eapply lookup_lt_Some.
Qed.

Context (canFreeDict : Z -> bool).

(** [freeDictIfNeeded] at most replaces an empty dictionary by none. *)
Lemma free_core (k : kvstore) xs didx o :
  core_ok k xs -> watch_inv k -> kvstoreGetDict k didx = Some o ->
  exists k' o' rl bc ov alloc, freeDictIfNeeded canFreeDict k didx = Some k' /\ core_ok k' xs /\ watch_inv k' /\
    k' = set_dicts (set_watch k rl bc ov) (<[Z.to_nat didx := o']> (dicts k)) alloc /\
    map_of_dict o' = map_of_dict o /\ (o' = o \/ o' = None).
Proof.
  intros Hc Hw Ho. pose proof Ho as [Hi Hd]%getDict_Some.
  assert (Hid : exists k' o' rl bc ov alloc, Some k = Some k' /\ core_ok k' xs /\ watch_inv k' /\
    k' = set_dicts (set_watch k rl bc ov) (<[Z.to_nat didx := o']> (dicts k)) alloc /\
    map_of_dict o' = map_of_dict o /\ (o' = o \/ o' = None)).
  { exists k, o, (rehashing k), (bucket_count k), (overhead_hashtable_rehashing k), (allocated_dicts k).
    split_and!; try done; [|by left]. rewrite list_insert_id by done. by destruct k. }
  unfold freeDictIfNeeded. destruct (free_empty k); cbn [negb]; [|done].
  rewrite Ho. mred. pose proof (slot_ok k _ didx o Hc Ho) as Hok. destruct o as [d|]; [|done].
  destruct (Z.eqb_spec (dictSize d) 0) as [Hz|]; cbn [negb orb]; [|done].
  destruct (pauserehash d >? 0); [done|]. destruct (canFreeDict didx); cbn [negb]; [|done]. clear Hid.
  destruct Hok as [Hwf Hp]. destruct (release_spec ty d Hwf) as (_ & [l Hl] & Hrel).
  rewrite Hl, drop_app_length.
  destruct (watch_update k (dicts k) didx (Some d) None l Hw Hi Hd) as (rl & bc & ov & Hk & _);
    [by eapply watch_suffix|].
  destruct (replace_spec k _ didx (Some d) None l (allocated_dicts k - 1) Hc Hw Ho)
    as (Hc' & Hw' & _ & Hds & Hal); try done; [by eapply watch_suffix|].
  rewrite Hds, Hal. eexists _, None, rl, bc, ov, _. split_and!; try done; [by rewrite Hk| |by right].
  cbn. unfold to_map. by rewrite (dictSize_zero ty d Hwf Hz).
Qed.

Lemma slots_insert (k : kvstore) didx o o' rl bc ov alloc :
  kvstoreGetDict k didx = Some o -> map_of_dict o' = map_of_dict o ->
  slots (set_dicts (set_watch k rl bc ov) (<[Z.to_nat didx := o']> (dicts k)) alloc) = slots k.
Proof.
  intros [Hi Hd]%getDict_Some Hm. unfold slots. cbn [dicts set_dicts]. rewrite list_fmap_insert, Hm.
  apply list_insert_id. by rewrite list_lookup_fmap, Hd.
Qed.

Lemma free_spec (k : kvstore) didx o :
  kv_ok k -> kvstoreGetDict k didx = Some o ->
  exists k', freeDictIfNeeded canFreeDict k didx = Some k' /\ kv_ok k' /\ slots k' = slots k /\
    num_dicts k' = num_dicts k /\ num_dicts_bits k' = num_dicts_bits k /\
    key_count k' = key_count k /\ non_empty_dicts k' = non_empty_dicts k.
Proof.
  intros [Hc Hw] Ho. destruct (free_core k _ didx o Hc Hw Ho) as (k' & o' & rl & bc & ov & al & Hf & Hc' & Hw' & -> & Hm & Hor).
  eexists. split; [done|]. split_and!; try done; [|by apply (slots_insert k didx o)]. split; [|done].
  pose proof Ho as [Hi Hd]%getDict_Some. pose proof (slot_ok k _ didx o Hc Ho) as Hok.
  assert (Hok' : dict_ok o') by (by destruct Hor; subst o').
  assert (Hs : size_of <$> <[Z.to_nat didx := o']> (dicts k) = size_of <$> dicts k); [|by cbn [dicts set_dicts]; rewrite Hs].
  rewrite list_fmap_insert. apply list_insert_id. rewrite list_lookup_fmap, Hd. cbn. f_equal.
  rewrite !size_of_map by done. by rewrite Hm.
Qed.

(** The change of [non_empty_dicts] for a dictionary of the given size. *)
Definition non_empty_delta (dsize delta : Z) : Z :=
  if (dsize =? 1) && (delta >? 0) then 1 else if dsize =? 0 then -1 else 0.

(** What [cumulativeKeyCountAdd] does to the counters, whatever the dictionary holds. *)
Lemma count_any (k : kvstore) xs didx x (d : dict) delta :
  kvstoreGetDict k didx = Some (Some d) -> xs !! Z.to_nat didx = Some x ->
  Forall (fun x => 0 <= x) xs -> key_count k = sumZ xs -> sumZ xs < 2 ^ 63 ->
  match dict_sizes k with Some ft => num_dicts k <> 1 /\ repr ft xs | None => num_dicts k = 1 end ->
  - 2 ^ 63 < delta -> 0 <= x + delta -> sumZ xs + delta < 2 ^ 63 ->
  exists ft, cumulativeKeyCountAdd k didx delta =
      Some (set_counts k (non_empty_dicts k + non_empty_delta (dictSize d) delta) (key_count k + delta) ft) /\
    match ft with
    | Some ft => num_dicts k <> 1 /\ repr ft (<[Z.to_nat didx := x + delta]> xs)
    | None => num_dicts k = 1
    end.
Proof.
  intros Ho Hx Hn Hkc Hbd Ht Hlo Hnn Hb. pose proof Ho as [Hi Hd]%getDict_Some.
  unfold cumulativeKeyCountAdd. rewrite Ho. mred.
  pose proof (sumZ_insert xs didx x delta Hi Hx) as Hsum.
  assert (Hn' : Forall (fun x => 0 <= x) (<[Z.to_nat didx := x + delta]> xs)) by (by apply Forall_insert).
  pose proof (sumZ_nonneg _ Hn') as Hpos. rewrite uwrap_id by (unfold in_u; lia).
  destruct (dict_sizes k) as [ft|] eqn:Hft.
  - destruct Ht as [Hn1 Hr]. rewrite (proj2 (Z.eqb_neq _ _) Hn1).
    destruct (update_spec ft xs didx x delta Hr Hi Hx) as (ft' & -> & Hr'); [lia|lia|lia|]. mred.
    by exists (Some ft').
  - rewrite (proj2 (Z.eqb_eq _ _) Ht). by exists None.
Qed.

(** The counters after one key more or one less. *)
Lemma count_spec (k : kvstore) xs didx x (d : dict) delta :
  core_ok k xs -> kvstoreGetDict k didx = Some (Some d) -> xs !! Z.to_nat didx = Some x ->
  dictSize d = x + delta -> delta = 1 \/ delta = -1 -> 0 <= dictSize d -> sumZ xs + delta < 2 ^ 63 ->
  exists k' ne ft, cumulativeKeyCountAdd k didx delta = Some k' /\
    k' = set_counts k ne (key_count k + delta) ft /\ core_ok k' (<[Z.to_nat didx := x + delta]> xs).
Proof.
  intros Hc Ho Hx Hsz Hdelta Hnn Hb. pose proof Ho as [Hi Hd]%getDict_Some.
  destruct Hc as [Hbits Hnum Hlen Hds Hal Hxs Hn Hkc Hbd Hne Ht Hcur].
  destruct (count_any k xs didx x d delta Ho Hx Hn Hkc Hbd Ht) as (ft & -> & Hft); [lia..|].
  pose proof (sumZ_insert xs didx x delta Hi Hx) as Hsum.
  assert (Hx0 : 0 <= x) by (by apply (Forall_lookup_1 _ _ _ _ Hn Hx)).
  eexists _, _, _. split_and!; [done|done|]. constructor; cbn; rewrite ?length_insert; try done; try lia.
  - apply Forall_insert; [done|lia].
  - rewrite (sumZ_update _ _ _ x _ Hx), Hne. unfold non_empty_delta, nonzero. rewrite Hsz. zbool; cbn; lia.
Qed.

(** [d'] is what an operation has made of the dictionary [d] at an index. *)
Record evolves (d d' : dict) (m : gmap K entry) : Prop := Evolves {
  ev_wf : wf d';
  ev_map : to_map ty d' = m;
  ev_auto : pauseAutoResize d' <= 0;
  ev_events : events d `prefix_of` events d'
}.

Lemma upd_evolves (d d' : dict) m : upd ty d d' m -> pauseAutoResize d <= 0 -> evolves d d' m.
Proof. intros [] ?. constructor; try done. lia. Qed.

Lemma update_dict_count (k : kvstore) didx (d d' : dict) :
  key_count (update_dict k didx d d') = key_count k.
Proof.
  unfold update_dict. generalize (drop (length (events d)) (events d')). intros l.
  change (key_count k) with (key_count (set_dicts k (<[Z.to_nat didx := Some d']> (dicts k)) (allocated_dicts k))).
  generalize (set_dicts k (<[Z.to_nat didx := Some d']> (dicts k)) (allocated_dicts k)). intros k2.
  revert k2. induction l as [|e l IH]; intros k2; [done|]. cbn [foldl]. rewrite IH. by destruct e.
Qed.

(** An operation that keeps the map of the index. *)
Lemma update_same (k : kvstore) didx (d d' : dict) :
  kv_ok k -> kvstoreGetDict k didx = Some (Some d) -> evolves d d' (to_map ty d) ->
  kv_ok (update_dict k didx d d') /\ slots (update_dict k didx d d') = slots k /\
  kvstoreGetDict (update_dict k didx d d') didx = Some (Some d').
Proof.
  intros [Hc Hw] Ho [Hwf' Hmap Ha Hev]. destruct (slot_ok _ _ _ _ Hc Ho) as [Hwf _].
  pose proof Ho as [Hi Hd]%getDict_Some.
  destruct (update_dict_spec k _ didx d d' (to_map ty d) Hc Hw Ho Hwf Hwf' Ha Hev Hmap)
    as (Hc' & Hw' & Hds & Hsl & Ho').
  assert (Hs : size_of <$> dicts (update_dict k didx d d') = size_of <$> dicts k).
  { rewrite Hds, list_fmap_insert. apply list_insert_id. rewrite list_lookup_fmap, Hd. cbn.
    by rewrite !dictSize_map, Hmap by done. }
  split_and!; [split; [by rewrite Hs|done]| |done].
  rewrite Hsl. apply list_insert_id. unfold slots. by rewrite list_lookup_fmap, Hd.
Qed.

(** An operation that adds or removes one key, and the counters that follow it. *)
Lemma update_count (k : kvstore) didx (d d' : dict) m delta :
  kv_ok k -> kvstoreGetDict k didx = Some (Some d) -> evolves d d' m ->
  Z.of_nat (size m) = Z.of_nat (size (to_map ty d)) + delta -> delta = 1 \/ delta = -1 ->
  key_count k + delta < 2 ^ 63 ->
  exists k', cumulativeKeyCountAdd (update_dict k didx d d') didx delta = Some k' /\ kv_ok k' /\
    slots k' = <[Z.to_nat didx := m]> (slots k) /\ key_count k' = key_count k + delta /\
    kvstoreGetDict k' didx = Some (Some d').
Proof.
  intros [Hc Hw] Ho [Hwf' Hmap Ha Hev] Hsz Hdelta Hb. destruct (slot_ok _ _ _ _ Hc Ho) as [Hwf _].
  pose proof Ho as [Hi Hd]%getDict_Some.
  destruct (update_dict_spec k _ didx d d' m Hc Hw Ho Hwf Hwf' Ha Hev Hmap) as (Hc' & Hw' & Hds & Hsl & Ho').
  rewrite <- Hmap in Hsz. rewrite <- !dictSize_map in Hsz by done. rewrite (core_count _ _ Hc) in Hb.
  destruct (count_spec _ _ didx (dictSize d) d' delta Hc' Ho') as (k' & ne & ft & Hk & -> & Hc2);
    [by rewrite list_lookup_fmap, Hd|done|done|rewrite (dictSize_map d') by done; lia|done|].
  rewrite update_dict_count in *. eexists. split; [done|]. cbn [key_count set_counts].
  split_and!; try done. split; [|done]. cbn [dicts set_counts]. rewrite Hds, list_fmap_insert.
  cbn [size_of]. by rewrite Hsz.
Qed.

(** ** Operations *)

Lemma addRaw_spec (k : kvstore) didx sk v m :
  kv_ok k -> 0 <= didx -> slots k !! Z.to_nat didx = Some m -> kvstoreSize k < 2 ^ 63 - 1 ->
  let key := keyFromStoredKey ty sk in
  exists k' r, kvstoreDictAddRaw ty can_resize k didx sk v = Some (k', r) /\ kv_ok k' /\
    match m !! key with
    | Some _ => (exists l, r = inl l) /\ slots k' = slots k /\ kvstoreSize k' = kvstoreSize k
    | None => (exists l, r = inr l) /\ slots k' = <[Z.to_nat didx := <[key := (sk, v)]> m]> (slots k) /\
        kvstoreSize k' = kvstoreSize k + 1
    end.
Proof.
  intros Hk Hi Hm Hb key. unfold kvstoreSize in *. unfold kvstoreDictAddRaw.
  destruct (create_spec k didx m Hk Hi Hm) as (k1 & d & -> & Hk1 & Hs1 & _ & _ & Hc1 & Ho & Hwf & Ha & <-). mred.
  destruct (dictAddRaw_spec ty can_resize Hcmp Hhash d sk v Hwf ltac:(by right))
    as (d' & r & -> & Hwf' & _ & Ha' & Hev & Hr). mred. fold key in Hr. rewrite <- Hs1, <- Hc1.
  destruct r as [l|l].
  - destruct Hr as [Hpt Hmap]. destruct (points_to_map ty d' l key Hwf' Hpt) as (e & _ & _ & He).
    rewrite Hmap in He. rewrite He. eexists _, _. split; [done|].
    destruct (update_same k1 didx d d' Hk1 Ho) as (Hk2 & Hs2 & _); [constructor; (done || lia)|].
    rewrite update_dict_count. split_and!; try done. by exists l.
  - destruct Hr as (_ & Hnone & Hmap). rewrite Hnone.
    destruct (update_count k1 didx d d' (<[key := (sk, v)]> (to_map ty d)) 1 Hk1 Ho) as (k2 & -> & Hk2 & Hs2 & Hc2 & _);
      [constructor; [done|exact Hmap|lia|done]|rewrite map_size_insert_None by done; lia|by left|lia|].
    mred. eexists _, _. split; [done|]. split_and!; try done. by exists l.
Qed.

(** C35: adding a key to a dictionary of the store creates the dictionary if needed,
    changes exactly that map, and keeps every counter of the store right: the number of
    keys, of non-empty and of allocated dictionaries, the Fenwick tree, the bucket count,
    the list of rehashing dictionaries and their overhead. *)
Theorem kvstoreDictAddRaw_correct (k : kvstore) didx sk v m :
  kv_ok k -> 0 <= didx -> slots k !! Z.to_nat didx = Some m -> kvstoreSize k < 2 ^ 63 - 1 ->
  let key := keyFromStoredKey ty sk in
  exists k' r, kvstoreDictAddRaw ty can_resize k didx sk v = Some (k', r) /\ kv_ok k' /\
    match m !! key with
    | Some _ => (exists l, r = inl l) /\ slots k' = slots k /\ kvstoreSize k' = kvstoreSize k
    | None => (exists l, r = inr l) /\ slots k' = <[Z.to_nat didx := <[key := (sk, v)]> m]> (slots k) /\
        kvstoreSize k' = kvstoreSize k + 1
    end.
Proof. by apply addRaw_spec. Qed.

(** Deleting a key changes exactly the map of that index, tells whether the key was
    there, and keeps every counter right, also when the emptied dictionary is freed. *)
Theorem kvstoreDictDelete_correct (k : kvstore) didx key m :
  kv_ok k -> 0 <= didx -> slots k !! Z.to_nat didx = Some m ->
  exists k', kvstoreDictDelete ty can_resize canFreeDict k didx key =
      Some (k', match m !! key with Some _ => DICT_OK | None => DICT_ERR end) /\ kv_ok k' /\
    slots k' = <[Z.to_nat didx := delete key m]> (slots k) /\
    kvstoreSize k' = kvstoreSize k - (match m !! key with Some _ => 1 | None => 0 end).
Proof.
  intros Hk Hi Hm. unfold kvstoreDictDelete, kvstoreSize.
  destruct (slot_dict k didx m Hi Hm) as (o & Ho & ->). rewrite Ho. mred.
  destruct o as [d|]; cbn [map_of_dict] in *.
  2: { exists k. rewrite delete_empty, lookup_empty. split_and!; try done; [|lia].
       symmetry. by apply list_insert_id. }
  destruct (slot_ok _ _ _ _ (proj1 Hk) Ho) as [Hwf Ha].
  destruct (delete_spec ty can_resize Hcmp Hhash d key Hwf) as (d' & -> & Hwf' & Hmap & Hp & Hq & Hev). mred.
  destruct (to_map ty d !! key) as [e|] eqn:He.
  - rewrite bool_decide_true by done.
    destruct (update_count k didx d d' (delete key (to_map ty d)) (-1) Hk Ho) as (k1 & -> & Hk1 & Hs1 & Hc1 & Ho1).
    + constructor; [done|exact Hmap|lia|done].
    + pose proof (map_size_delete_Some key (to_map ty d) (mk_is_Some _ _ He)) as Hsz.
      assert (size (to_map ty d) <> 0%nat) by (intros Hz%map_size_empty_inv; by rewrite Hz in He).
      lia.
    + by right.
    + destruct Hk as [Hc _]. pose proof (core_count _ _ Hc). pose proof (core_bound _ _ Hc). lia.
    + mred. destruct (free_spec k1 didx _ Hk1 Ho1) as (k2 & -> & Hk2 & Hs2 & _ & _ & Hc2 & _). mred.
      exists k2. split_and!; try done; [by rewrite Hs2|lia].
  - rewrite bool_decide_false by done. exists (update_dict k didx d d'). rewrite delete_id by done.
    rewrite delete_id in Hmap by done.
    destruct (update_same k didx d d' Hk Ho) as (Hk2 & Hs2 & _); [constructor; (done || lia)|].
    rewrite update_dict_count, Hs2. split_and!; try done; [|lia]. symmetry. by apply list_insert_id.
Qed.

Theorem kvstoreDictFind_correct (k : kvstore) didx key m :
  kv_ok k -> 0 <= didx -> slots k !! Z.to_nat didx = Some m ->
  exists k', kvstoreDictFind ty can_resize k didx key = Some (k', m !! key) /\ kv_ok k' /\ slots k' = slots k.
Proof.
  intros Hk Hi Hm. unfold kvstoreDictFind. destruct (slot_dict k didx m Hi Hm) as (o & Ho & ->).
  rewrite Ho. mred. destruct o as [d|]; [|by exists k].
  destruct (slot_ok _ _ _ _ (proj1 Hk) Ho) as [Hwf Ha].
  destruct (dict_find_spec ty can_resize Hcmp Hhash d key Hwf) as (d' & -> & Hs). mred.
  destruct (update_same k didx d d' Hk Ho) as (Hk2 & Hs2 & _); [by apply upd_evolves; [apply same_upd|]|].
  by exists (update_dict k didx d d').
Qed.

(** A key that [kvstoreDictFindLink] did not find is stored by
    [kvstoreDictSetAtLink] at the bucket it returned, with all counters adjusted (the
    way [dbAdd] stores a key). *)
Theorem kvstoreDictSetAtLink_correct as_key (k : kvstore) didx sk v m :
  kv_ok k -> 0 <= didx -> slots k !! Z.to_nat didx = Some m -> kvstoreSize k < 2 ^ 63 - 1 ->
  let key := keyFromStoredKey ty sk in m !! key = None ->
  exists k1 bucket, kvstoreDictFindLink ty can_resize k didx key true = Some (k1, None, bucket) /\
    exists k2 l, kvstoreDictSetAtLink ty can_resize as_key k1 didx sk v bucket true = Some (k2, l) /\ kv_ok k2 /\
      slots k2 = <[Z.to_nat didx := <[key := (sk, v)]> m]> (slots k) /\ kvstoreSize k2 = kvstoreSize k + 1.
Proof.
  intros Hk Hi Hm Hb key Hnone. unfold kvstoreSize in *. unfold kvstoreDictFindLink.
  destruct (slot_dict k didx m Hi Hm) as (o & Ho & ->). rewrite Ho. mred.
  assert (Hins : forall (k1 : kvstore) bucket, kv_ok k1 -> slots k1 = slots k -> key_count k1 = key_count k ->
    (forall d, kvstoreGetDict k1 didx = Some (Some d) -> bucket = None \/ bucket = Some (home ty d key)) ->
    (kvstoreGetDict k1 didx = Some None -> bucket = None) ->
    exists k2 l, kvstoreDictSetAtLink ty can_resize as_key k1 didx sk v bucket true = Some (k2, l) /\ kv_ok k2 /\
      slots k2 = <[Z.to_nat didx := <[key := (sk, v)]> (map_of_dict o)]> (slots k) /\
      key_count k2 = key_count k + 1).
  { intros k1 bucket Hk1 Hs1 Hc1 Hbk Hbn. unfold kvstoreDictSetAtLink.
    destruct (create_spec k1 didx (map_of_dict o) Hk1 Hi ltac:(by rewrite Hs1))
      as (k2 & d & Hcr & Hk2 & Hs2 & _ & _ & Hc2 & Ho2 & Hwf & Ha & Hmap). rewrite Hcr. mred.
    destruct (set_new_spec ty can_resize Hcmp Hhash as_key d sk v bucket Hwf) as (d' & l & -> & Hu).
    { by rewrite Hmap. }
    { unfold createDictIfNeeded in Hcr.
      destruct (kvstoreGetDict k1 didx) as [[d1|]|] eqn:Ho1; [|left; by apply Hbn|done].
      cbn in Hcr. simplify_eq. by apply Hbk. }
    mred. destruct (update_count k2 didx d d' (<[key := (sk, v)]> (to_map ty d)) 1 Hk2 Ho2)
      as (k3 & -> & Hk3 & Hs3 & Hc3 & _);
      [by apply upd_evolves|rewrite map_size_insert_None by (by rewrite Hmap); lia|by left|lia|].
    mred. eexists _, _. split; [done|]. split_and!; [done| |lia]. by rewrite Hs3, Hmap, Hs2, Hs1. }
  destruct o as [d|].
  - destruct (slot_ok _ _ _ _ (proj1 Hk) Ho) as [Hwf Ha].
    destruct (dictFindLink_spec ty can_resize Hcmp Hhash d key true Hwf) as (d1 & found & bucket & -> & Hs & Hf). mred.
    pose proof (same_wf _ _ _ Hs) as Hwf1. destruct found as [l|].
    { destruct (points_to_map ty d1 l key Hwf1 Hf) as (e & _ & _ & He).
      rewrite (same_map _ _ _ Hs) in He. cbn in Hnone. congruence. }
    destruct (update_same k didx d d1 Hk Ho) as (Hk1 & Hs1 & Ho1); [by apply upd_evolves; [apply same_upd|]|].
    eexists _, _. split; [done|]. apply Hins; try done; [by apply update_dict_count| |by rewrite Ho1].
    rewrite Ho1. intros ? [= <-]. apply Hf.
  - eexists _, _. split; [done|]. apply Hins; try done. by rewrite Ho.
Qed.

(** The search and the removal in two phases delete the key and adjust all the
    counters; the search alone changes no map (the way [dbGenericDelete] removes a
    key). *)
Theorem kvstoreDictTwoPhaseUnlink_correct (k : kvstore) didx key m :
  kv_ok k -> 0 <= didx -> slots k !! Z.to_nat didx = Some m ->
  exists k1 l, kvstoreDictTwoPhaseUnlinkFind ty can_resize k didx key = Some (k1, l) /\ kv_ok k1 /\
    slots k1 = slots k /\ kvstoreSize k1 = kvstoreSize k /\
    match l with
    | None => m !! key = None
    | Some _ => exists k2, kvstoreDictTwoPhaseUnlinkFree ty can_resize canFreeDict k1 didx l = Some (k2, m !! key) /\
        kv_ok k2 /\ slots k2 = <[Z.to_nat didx := delete key m]> (slots k) /\ kvstoreSize k2 = kvstoreSize k - 1
    end.
Proof.
  intros Hk Hi Hm. unfold kvstoreDictTwoPhaseUnlinkFind, kvstoreSize.
  destruct (slot_dict k didx m Hi Hm) as (o & Ho & ->). rewrite Ho. mred.
  destruct o as [d|]; [|by exists k, None]. cbn [map_of_dict]. destruct (slot_ok _ _ _ _ (proj1 Hk) Ho) as [Hwf Ha].
  destruct (unlink_find_spec ty can_resize Hcmp d key Hwf) as (d1 & l & -> & Hwf1 & Hmap & Ha1 & Hev & Hl). mred.
  destruct (update_same k didx d d1 Hk Ho) as (Hk1 & Hs1 & Ho1); [constructor; (done || lia)|].
  exists (update_dict k didx d d1), l. rewrite update_dict_count. split_and!; try done.
  destruct l as [l|]; [|by destruct Hl]. destruct Hl as [Hl _].
  unfold kvstoreDictTwoPhaseUnlinkFree. rewrite Ho1. mred.
  destruct (unlink_free_spec ty can_resize d1 l key Hwf1 Hl) as (d2 & -> & [e He] & Hwf2 & Hmap2 & _ & Ha2 & Hev2).
  mred. rewrite Hmap in *.
  destruct (update_count _ didx d1 d2 (delete key (to_map ty d)) (-1) Hk1 Ho1) as (k2 & -> & Hk2 & Hs2 & Hc2 & Ho2).
  + constructor; try done. lia.
  + rewrite Hmap. pose proof (map_size_delete_Some key (to_map ty d) (mk_is_Some _ _ He)).
    assert (size (to_map ty d) <> 0%nat) by (intros Hz%map_size_empty_inv; by rewrite Hz in He). lia.
  + by right.
  + destruct Hk as [Hc _]. pose proof (core_count _ _ Hc). pose proof (core_bound _ _ Hc).
    rewrite update_dict_count. lia.
  + mred. destruct (free_spec k2 didx _ Hk2 Ho2) as (k3 & -> & Hk3 & Hs3 & _ & _ & Hc3 & _). mred.
    exists k3. rewrite Hs3, Hs2, Hs1, Hc3, Hc2, update_dict_count. split_and!; (done || lia).
Qed.

(** ** All the dictionaries *)

Lemma sumZ_const (n : nat) x : sumZ (replicate n x) = Z.of_nat n * x.
Proof. unfold sumZ. induction n as [|n IH]; cbn [replicate foldr]; lia. Qed.

(** A store whose dictionaries are all without keys and buckets, and its counters. *)
Lemma empty_ok (k : kvstore) :
  0 <= num_dicts_bits k <= 16 -> num_dicts k = 2 ^ num_dicts_bits k -> zlen (dicts k) = num_dicts k ->
  Forall dict_ok (dicts k) -> allocated_dicts k = sumZ (alloc_of <$> dicts k) ->
  Forall (fun o => map_of_dict o = ∅ /\ watched_of o = (false, 0, 0)) (dicts k) ->
  key_count k = 0 -> non_empty_dicts k = 0 ->
  match dict_sizes k with
  | Some ft => num_dicts k <> 1 /\ repr ft (replicate (Z.to_nat (num_dicts k)) 0)
  | None => num_dicts k = 1
  end ->
  resize_cursor k = 0 -> rehashing k = [] -> bucket_count k = 0 -> overhead_hashtable_rehashing k = 0 ->
  kv_ok k /\ slots k = replicate (Z.to_nat (num_dicts k)) ∅.
Proof.
  intros Hb Hn Hl Hd Ha He Hkc Hne Ht Hc Hrl Hbc Hov. pose proof (pow2_pos (num_dicts_bits k) ltac:(lia)) as Hp.
  assert (Hrep : forall A (f : option dict -> A) x, (forall o, dict_ok o -> map_of_dict o = ∅ -> watched_of o = (false, 0, 0) -> f o = x) ->
    f <$> dicts k = replicate (Z.to_nat (num_dicts k)) x).
  { intros A f x Hf. replace (Z.to_nat (num_dicts k)) with (length (f <$> dicts k)) by (rewrite length_fmap; lia).
    symmetry. apply replicate_as_Forall. split; [done|]. apply Forall_fmap, Forall_forall. intros o Hin. cbn.
    pose proof (proj1 (Forall_forall _ _) He o Hin) as [? ?]. symmetry. by apply Hf; [apply (proj1 (Forall_forall _ _) Hd)| |]. }
  assert (Hs : size_of <$> dicts k = replicate (Z.to_nat (num_dicts k)) 0).
  { apply Hrep. intros o Hok Hm _. rewrite size_of_map, Hm by done. by rewrite map_size_empty. }
  split; [|apply Hrep; done]. split; [constructor; rewrite ?Hs, ?fmap_replicate, ?sumZ_const, ?length_replicate; try done; try lia|].
  - by apply Forall_replicate.
  - rewrite Hne. change (nonzero 0) with 0. lia.
  - unfold watch_inv. rewrite Hrl, Hbc, Hov. constructor.
    + constructor.
    + intros i. split; [by intros ?%not_elem_of_nil|]. intros (Hi & o & Ho & Hw).
      by rewrite (proj2 (Forall_lookup_1 _ _ _ _ He Ho)) in Hw.
    + rewrite (Hrep _ (fun o => (watched_of o).1.2) 0), sumZ_const by (by intros o _ _ ->). by rewrite Z.mul_0_r.
    + rewrite (Hrep _ (fun o => (watched_of o).2) 0), sumZ_const by (by intros o _ _ ->). by rewrite Z.mul_0_r.
Qed.

Lemma create_all_spec (n : nat) : forall (k : kvstore) i,
  0 <= i -> i + Z.of_nat n <= zlen (dicts k) ->
  Forall (fun o => o = None \/ o = Some dictCreate) (dicts k) -> allocated_dicts k = sumZ (alloc_of <$> dicts k) ->
  exists ds alloc, create_all n k i = Some (set_dicts k ds alloc) /\ length ds = length (dicts k) /\
    Forall (fun o => o = None \/ o = Some dictCreate) ds /\ alloc = sumZ (alloc_of <$> ds).
Proof.
  induction n as [|n IH]; intros k i Hi Hl Hd Ha.
  { exists (dicts k), (allocated_dicts k). split_and!; try done. by destruct k. }
  cbn [create_all]. unfold createDictIfNeeded, kvstoreGetDict. rewrite (proj2 (Z.leb_le _ _) Hi).
  destruct (lookup_lt_is_Some_2 (dicts k) (Z.to_nat i)) as [o Ho]; [lia|]. rewrite Ho. mred.
  destruct o as [d|]; mred; [apply IH; (done || lia)|].
  match goal with |- exists ds alloc, create_all n ?k1 _ = _ /\ _ =>
    destruct (IH k1 (i + 1)) as (ds & al & -> & Hl' & Hd' & Ha'); cbn in * end.
  - lia.
  - rewrite length_insert. lia.
  - apply Forall_insert; [done|by right].
  - rewrite (sumZ_update _ _ _ None _ Ho). cbn. lia.
  - rewrite length_insert in Hl'. by exists ds, al.
Qed.

Lemma createStore_spec bits od fe :
  0 <= bits ->
  match kvstoreCreate (SK := SK) (V := V) bits od fe with
  | Some k => bits <= 16 /\ kv_ok k /\ slots k = replicate (Z.to_nat (2 ^ bits)) ∅
  | None => 16 < bits
  end.
Proof.
  intros Hb. unfold kvstoreCreate. destruct (Z.leb_spec bits 16) as [H16|]; cbn [negb]; [|done].
  rewrite Z.shiftl_1_l. set (n := 2 ^ bits). pose proof (pow2_pos bits Hb) as Hp. fold n in Hp.
  set (ft := if n >? 1 then Some (fwTreeCreate bits) else None).
  assert (Hft : match ft with Some ft => n <> 1 /\ repr ft (replicate (Z.to_nat n) 0) | None => n = 1 end).
  { unfold ft. rewrite Z.gtb_ltb. destruct (Z.ltb_spec 1 n); [|lia].
    split; [lia|]. by apply create_repr; lia. }
  set (k0 := Kv od fe (replicate (Z.to_nat n) None) n bits [] 0 0 0 0 0 ft 0).
  assert (Hend : forall ds alloc, length ds = Z.to_nat n ->
    Forall (fun o => o = None \/ o = Some dictCreate) ds -> alloc = sumZ (alloc_of <$> ds) ->
    kv_ok (set_dicts k0 ds alloc) /\ slots (set_dicts k0 ds alloc) = replicate (Z.to_nat n) ∅).
  { intros ds alloc Hl Hds Ha. apply (empty_ok (set_dicts k0 ds alloc)); cbn; try done; try lia;
      (eapply Forall_impl; [exact Hds|]); intros o [-> | ->]; try done.
    split; [|cbn; lia]. constructor; try done; [by left|constructor]. }
  assert (Hal : sumZ (alloc_of <$> replicate (Z.to_nat n) None) = 0)
    by (rewrite fmap_replicate, sumZ_const; cbn; lia).
  assert (Hnone : Forall (fun o : option dict => o = None \/ o = Some dictCreate) (replicate (Z.to_nat n) None))
    by (apply Forall_replicate; by left).
  destruct od.
  - split; [done|]. change k0 with (set_dicts k0 (replicate (Z.to_nat n) None) 0).
    apply Hend; [by rewrite length_replicate|done|by rewrite Hal].
  - destruct (create_all_spec (Z.to_nat n) k0 0) as (ds & al & -> & Hl & Hds & Ha);
      cbn [k0 dicts allocated_dicts]; rewrite ?length_replicate; try done; try lia.
    split; [done|]. apply Hend; [by cbn in Hl; rewrite length_replicate in Hl|done|done].
Qed.

(** A store of [2 ^ bits] dictionaries is created with all counters right for
    every combination of the flags; the assertion refuses exactly more than 16 bits,
    which the cursor of [kvstoreScan] could not hold. *)
Theorem kvstoreCreate_correct bits od fe :
  0 <= bits ->
  match kvstoreCreate (SK := SK) (V := V) bits od fe with
  | Some k => bits <= 16 /\ kv_ok k /\ slots k = replicate (Z.to_nat (2 ^ bits)) ∅
  | None => 16 < bits
  end.
Proof. by apply createStore_spec. Qed.

(** No keys, no buckets, no rehashing. *)
Definition cleared (o : option dict) : Prop := map_of_dict o = ∅ /\ watched_of o = (false, 0, 0).

Lemma update_dict_num (k : kvstore) didx (d d' : dict) :
  num_dicts (update_dict k didx d d') = num_dicts k.
Proof.
  unfold update_dict. generalize (drop (length (events d)) (events d')). intros l.
  change (num_dicts k) with (num_dicts (set_dicts k (<[Z.to_nat didx := Some d']> (dicts k)) (allocated_dicts k))).
  generalize (set_dicts k (<[Z.to_nat didx := Some d']> (dicts k)) (allocated_dicts k)). intros k2.
  revert k2. induction l as [|e l IH]; intros k2; [done|]. cbn [foldl]. rewrite IH. by destruct e.
Qed.

(** One round of the loop of [kvstoreEmpty]. *)
Lemma empty_one (k : kvstore) xs didx (d : dict) :
  core_ok k xs -> watch_inv k -> kvstoreGetDict k didx = Some (Some d) ->
  exists k' o, freeDictIfNeeded canFreeDict (update_dict k didx d (dictEmpty d).1) didx = Some k' /\
    core_ok k' xs /\ watch_inv k' /\ dicts k' = <[Z.to_nat didx := o]> (dicts k) /\ cleared o /\
    num_dicts k' = num_dicts k.
Proof.
  intros Hc Hw Ho. destruct (slot_ok _ _ _ _ Hc Ho) as [Hwf Hp].
  destruct (empty_spec ty d Hwf) as (_ & Hwf' & Ha & Hwd & _ & Hq & Hev).
  assert (Hm : to_map ty (dictEmpty d).1 = ∅) by (unfold to_map; by rewrite Ha).
  destruct (update_dict_spec k xs didx d (dictEmpty d).1 ∅ Hc Hw Ho Hwf Hwf' ltac:(lia) Hev Hm)
    as (Hc1 & Hw1 & Hd1 & _ & Ho1).
  destruct (free_core _ xs didx _ Hc1 Hw1 Ho1) as (k' & o' & rl & bc & ov & al & Hf & Hc' & Hw' & -> & Hmo & Hor).
  eexists _, o'. split; [done|]. cbn [dicts set_dicts num_dicts set_watch]. rewrite update_dict_num. rewrite Hd1 in *.
  split_and!; try done; [by rewrite list_insert_insert_eq|]. split; [by rewrite Hmo|].
  by destruct Hor as [-> | ->].
Qed.

Lemma empty_all_spec (n : nat) : forall (k : kvstore) xs i,
  core_ok k xs -> watch_inv k -> 0 <= i -> i + Z.of_nat n = zlen (dicts k) ->
  Forall cleared (take (Z.to_nat i) (dicts k)) ->
  exists k', empty_all canFreeDict n k i = Some k' /\ core_ok k' xs /\ watch_inv k' /\
    Forall cleared (dicts k') /\ num_dicts k' = num_dicts k.
Proof.
  induction n as [|n IH]; intros k xs i Hc Hw Hi Hl Hcl.
  { exists k. split_and!; try done. by rewrite take_ge in Hcl by lia. }
  cbn [empty_all]. destruct (lookup_lt_is_Some_2 (dicts k) (Z.to_nat i)) as [o Ho]; [lia|].
  rewrite (proj2 (getDict_Some k i o) (conj Hi Ho)). mred.
  assert (Hto : Z.to_nat (i + 1) = S (Z.to_nat i)) by lia. destruct o as [d|].
  - destruct (empty_one k xs i d Hc Hw) as (k1 & o & -> & Hc1 & Hw1 & Hd1 & Ho1 & Hn1); [by apply getDict_Some|].
    mred. destruct (IH k1 xs (i + 1)) as (k' & -> & ? & ? & ? & Hn); try done; try lia.
    + rewrite Hd1, length_insert. lia.
    + rewrite Hd1, Hto. rewrite (take_S_r _ _ o) by (apply list_lookup_insert_eq; lia).
      rewrite take_insert_ge by lia. apply Forall_app. by split; [|constructor].
    + exists k'. split_and!; try done. congruence.
  - apply IH; try done; try lia. rewrite Hto, (take_S_r _ _ None) by done.
    apply Forall_app. by split; [|constructor].
Qed.

(** Emptying a store leaves one empty map per index and counters that agree. *)
Theorem kvstoreEmpty_correct (k : kvstore) :
  kv_ok k -> exists k', kvstoreEmpty canFreeDict k = Some k' /\ kv_ok k' /\
    slots k' = replicate (Z.to_nat (num_dicts k)) ∅ /\ kvstoreSize k' = 0.
Proof.
  intros [Hc Hw]. unfold kvstoreEmpty. pose proof (core_len _ _ Hc) as Hl. pose proof (core_cursor _ _ Hc).
  destruct (empty_all_spec (Z.to_nat (num_dicts k)) k _ 0 Hc Hw) as (k1 & -> & Hc1 & Hw1 & Hcl & Hn);
    [lia|lia|constructor|]. mred. eexists. split; [done|].
  match goal with |- kv_ok ?k2 /\ _ => destruct (empty_ok k2) as [Hk2 Hs2]; cbn; try apply Hc1; try done end.
  - pose proof (core_tree _ _ Hc1) as Ht. destruct (dict_sizes k1) as [ft|]; cbn; [|done].
    destruct Ht as [Hn1 Hr]. split; [done|]. pose proof (core_xs _ _ Hc1) as Hx.
    replace (Z.to_nat (num_dicts k1)) with (length (size_of <$> dicts k)) by lia. by apply clear_repr.
  - rewrite <- Hn. by split_and!.
Qed.

(** Resizing changes no map. *)
Lemma same_update (k : kvstore) didx (d d' : dict) :
  kv_ok k -> kvstoreGetDict k didx = Some (Some d) -> same ty d d' ->
  kv_ok (update_dict k didx d d') /\ slots (update_dict k didx d d') = slots k /\
  kvstoreGetDict (update_dict k didx d d') didx = Some (Some d').
Proof.
  intros Hk Ho Hs. destruct (slot_ok _ _ _ _ (proj1 Hk) Ho) as [Hwf Ha].
  apply update_same; [done|done|]. by apply upd_evolves; [apply same_upd|].
Qed.

Lemma resize_one_spec (k : kvstore) didx :
  kv_ok k -> 0 <= didx < num_dicts k ->
  exists k', resize_one ty can_resize k didx = Some k' /\ kv_ok k' /\ slots k' = slots k.
Proof.
  intros Hk Hi. unfold resize_one.
  destruct (getDict_lt k _ didx (proj1 Hk) Hi) as (o & Ho & Hok). rewrite Ho. mred.
  destruct o as [d|]; [|by exists k]. destruct Hok as [Hwf _].
  destruct (shrinkIfNeeded_spec ty can_resize d Hwf) as (d1 & st & -> & Hs1). mred.
  destruct (same_update k _ d d1 Hk Ho Hs1) as (Hk1 & Hsl1 & Ho1).
  case_bool_decide; [|by eexists].
  destruct (dictExpandIfNeeded_spec ty can_resize d1 (same_wf _ _ _ Hs1)) as (d2 & st2 & -> & Hs2 & _). mred.
  destruct (same_update _ _ d1 d2 Hk1 Ho1 Hs2) as (Hk2 & Hsl2 & _).
  eexists. split_and!; [done|done|by rewrite Hsl2].
Qed.

Lemma resize_loop_spec (n : nat) : forall k : kvstore,
  kv_ok k -> exists k', resize_loop ty can_resize n k = Some k' /\ kv_ok k' /\ slots k' = slots k.
Proof.
  induction n as [|n IH]; intros k Hk; [by exists k|]. cbn [resize_loop].
  destruct (resize_one_spec k (resize_cursor k) Hk) as (k1 & -> & Hk1 & Hs1); [apply Hk|]. mred.
  destruct (IH (set_resize_cursor k1 ((resize_cursor k + 1) mod num_dicts k1))) as (k' & -> & Hk' & Hs').
  { destruct Hk1 as [Hc1 Hw1]. split; [|done]. destruct Hc1. constructor; try done. cbn.
    apply Z.mod_pos_bound. lia. }
  exists k'. split_and!; try done. by rewrite Hs'.
Qed.

Theorem kvstoreTryResizeDicts_correct (k : kvstore) limit :
  kv_ok k -> exists k', kvstoreTryResizeDicts ty can_resize k limit = Some k' /\ kv_ok k' /\ slots k' = slots k.
Proof. intros Hk. by apply resize_loop_spec. Qed.

Lemma expand_all_spec (n : nat) newsize try skip alloc : forall (k : kvstore) i,
  kv_ok k -> 0 <= i -> i + Z.of_nat n <= num_dicts k ->
  exists k' ok, expand_all ty can_resize n k i newsize try skip alloc = Some (k', ok) /\ kv_ok k' /\
    slots k' = slots k /\ (try = false -> ok = true).
Proof.
  induction n as [|n IH]; intros k i Hk Hi Hn; [by exists k, true|]. cbn [expand_all].
  destruct (skip i); [apply IH; (done || lia)|].
  destruct (lookup_lt_is_Some_2 (slots k) (Z.to_nat i)) as [m Hm].
  { unfold slots. rewrite length_fmap. pose proof (core_len _ _ (proj1 Hk)). lia. }
  destruct (create_spec k i m Hk Hi Hm) as (k1 & d & -> & Hk1 & Hs1 & _ & Hn1 & _ & Ho & Hwf & Ha & _). mred.
  assert (exists d' st, (if try then dictTryExpand ty can_resize d newsize (alloc i)
    else dictExpand ty can_resize d newsize) = Some (d', st) /\ same ty d d') as (d' & st & -> & Hs).
  { destruct try; [by apply tryExpand_spec|].
    destruct (dictExpand_spec ty can_resize d newsize Hwf) as (d' & st & ? & ? & _). by exists d', st. }
  mred. destruct (same_update k1 i d d' Hk1 Ho Hs) as (Hk2 & Hs2 & _). rewrite <- Hs1, <- Hs2.
  destruct (try && bool_decide (st = DICT_ERR)) eqn:Hstop.
  { exists (update_dict k1 i d d'), false. split_and!; try done. by intros ->. }
  apply IH; [done|lia|rewrite update_dict_num; lia].
Qed.

(** Expansion changes no map, and only reports a failed allocation. *)
Theorem kvstoreExpand_correct (k : kvstore) newsize try skip alloc :
  kv_ok k -> exists k' ok, kvstoreExpand ty can_resize k newsize try skip alloc = Some (k', ok) /\ kv_ok k' /\
    slots k' = slots k /\ (try = false -> ok = true).
Proof.
  intros Hk. apply expand_all_spec; [done|lia|]. pose proof (core_cursor _ _ (proj1 Hk)). lia.
Qed.

Section Clock.
Context (clock : nat -> Z) (Hclock : forall i j, (i <= j)%nat -> clock i <= clock j).
Context (Hu64 : forall i, in_u 64 (clock i)).

Lemma incremental_loop_spec start threshold N fuel : forall n elapsed (k : kvstore),
  kv_ok k -> start + threshold <= clock N -> (N - n < fuel)%nat ->
  start <= clock n -> 0 <= start -> elapsed < threshold ->
  exists k' el n', incremental_loop ty can_resize fuel clock n start threshold elapsed k = Some (k', el, n') /\
    kv_ok k' /\ slots k' = slots k /\ (rehashing k' = [] \/ threshold <= el).
Proof.
  induction fuel as [|fuel IH]; intros n elapsed k Hk HN Hf Hstart H0 Hel; [lia|]. cbn [incremental_loop].
  destruct (rehashing k) as [|didx rl] eqn:Hrl.
  { eexists _, _, _. split_and!; [done|done|done|]. by left. }
  destruct (proj1 (watch_list _ _ _ _ (proj2 Hk) didx)) as (Hi & o & Ho & Hon).
  { rewrite Hrl. left. }
  rewrite (proj2 (getDict_Some k didx o) (conj Hi Ho)). mred. destruct o as [d|]; [|done]. mred.
  assert (Hod : kvstoreGetDict k didx = Some (Some d)) by (by apply getDict_Some).
  destruct (slot_ok _ _ _ _ (proj1 Hk) Hod) as [Hwf _].
  destruct (dictRehashMicroseconds_spec ty can_resize clock n d (uwrap 64 (threshold - elapsed)) Hwf)
    as (d' & r & n' & -> & Hs & Hn). mred.
  destruct (same_update k didx d d' Hk Hod Hs) as (Hk1 & Hs1 & _).
  pose proof (Hclock n n' Hn). pose proof (Hu64 n') as Hu.
  rewrite uwrap_id by (unfold in_u in *; lia). rewrite Z.geb_leb.
  destruct (Z.leb_spec threshold (clock n' - start)).
  - eexists _, _, _. split_and!; [done|done|done|]. by right.
  - rewrite <- Hs1. apply IH; try done.
    + destruct (decide (N <= n')%nat); [|lia]. pose proof (Hclock N n'). lia.
    + pose proof (Hclock n' (S n')). lia.
Qed.

(** C36: with a clock that does not go back and reaches the limit at the latest at its
    call [N], the rehashing of the cron job returns, keeps every map, and has used its
    time or finished the rehashing of all dictionaries. *)
Theorem kvstoreIncrementallyRehash_live fuel n N (k : kvstore) threshold :
  kv_ok k -> 0 < threshold -> clock n + threshold <= clock N -> (N - n <= fuel)%nat ->
  exists k' el n', kvstoreIncrementallyRehash ty can_resize fuel clock n k threshold = Some (k', el, n') /\
    kv_ok k' /\ slots k' = slots k /\ (rehashing k' = [] \/ threshold <= el).
Proof.
  intros Hk Ht HN Hf. unfold kvstoreIncrementallyRehash. destruct (rehashing k) eqn:Hrl.
  { eexists _, _, _. split_and!; [done|done|done|]. by left. }
  assert (n < N)%nat.
  { destruct (decide (N <= n)%nat); [|lia]. pose proof (Hclock N n). lia. }
  apply (incremental_loop_spec (clock n) threshold N); try done; [lia|by apply Hclock; lia|apply Hu64].
Qed.

End Clock.

(** *** Moving a dictionary *)

(** The store with the counter of non-empty dictionaries replaced. *)
Definition with_non_empty (k : kvstore) (ne : Z) : kvstore :=
  set_counts k ne (key_count k) (dict_sizes k).

(** The callbacks that a dictionary would make to take leave of its store. *)
Definition leave (d : dict) : list event :=
  BucketChanged (- dictBuckets d) ::
  (if dictIsRehashing d then [RehashingCompleted (DICTHT_SIZE (ht_size_exp (ht0 d)))] else []).
Definition enter (d : dict) : list event :=
  BucketChanged (dictBuckets d) ::
  (if dictIsRehashing d then [RehashingStarted (DICTHT_SIZE (ht_size_exp (ht0 d)))] else []).

Lemma leave_watch (d : dict) : watch_from (Some (watched_of (Some d))) (leave d) = Some (watched_of None).
Proof.
  unfold leave, watched_of, watched, watch_from. destruct (dictIsRehashing d); cbn;
    rewrite ?Z.add_opp_diag_r, ?Z.sub_diag; done.
Qed.

Lemma enter_watch (d : dict) : watch_from (Some (watched_of None)) (enter d) = Some (watched_of (Some d)).
Proof. unfold enter, watched_of, watched, watch_from. by destruct (dictIsRehashing d). Qed.

(** A dictionary [o] replaced by [o'] with all the counters adjusted, but for the number
    of non-empty dictionaries, which is right when it is [ne]. *)
Lemma exchange_spec (k : kvstore) didx o o' ne kc ft rl bc ov alloc :
  kv_ok k -> kvstoreGetDict k didx = Some o -> dict_ok o' ->
  watch_ok (<[Z.to_nat didx := o']> (dicts k)) rl bc ov ->
  match ft with
  | Some ft => num_dicts k <> 1 /\ repr ft (<[Z.to_nat didx := size_of o']> (size_of <$> dicts k))
  | None => num_dicts k = 1
  end ->
  kc = key_count k + (size_of o' - size_of o) -> kc < 2 ^ 63 -> 0 <= size_of o' ->
  ne = non_empty_dicts k + (nonzero (size_of o') - nonzero (size_of o)) ->
  alloc = allocated_dicts k + (alloc_of o' - alloc_of o) ->
  kv_ok (set_dicts (set_watch (set_counts k ne kc ft) rl bc ov) (<[Z.to_nat didx := o']> (dicts k)) alloc).
Proof.
  intros [Hc _] Ho Hok Hw Hft -> Hkc Hnn -> ->. pose proof Ho as [Hi Hd]%getDict_Some.
  assert (Hs : (size_of <$> dicts k) !! Z.to_nat didx = Some (size_of o)) by (by rewrite list_lookup_fmap, Hd).
  destruct Hc as [Hbits Hnum Hlen Hds Hal Hxs Hn Hkey Hbd Hne Ht Hcur].
  split; [|exact Hw]. cbn [dicts set_dicts]. rewrite list_fmap_insert.
  constructor; cbn; rewrite ?length_insert; try done.
  - by apply Forall_insert.
  - rewrite (sumZ_update _ _ _ o _ Hd). lia.
  - by apply Forall_insert.
  - rewrite <- (list_fmap_id (<[_ := _]> (size_of <$> _))), (sumZ_update id _ _ (size_of o) _ Hs), list_fmap_id.
    cbn. lia.
  - rewrite <- (list_fmap_id (<[_ := _]> (size_of <$> _))), (sumZ_update id _ _ (size_of o) _ Hs), list_fmap_id.
    cbn. lia.
  - rewrite (sumZ_update _ _ _ (size_of o) _ Hs). lia.
Qed.

(** The source of a move, up to the dictionary that may replace the moved one. *)
Lemma move_source (k : kvstore) didx (d : dict) :
  kv_ok k -> kvstoreGetDict k didx = Some (Some d) ->
  exists k1, cumulativeKeyCountAdd (set_dicts k (dicts k) (allocated_dicts k - 1)) didx (- dictSize d) = Some k1 /\
    let k2 := foldl (callback didx) k1 (leave d) in
    let k3 := set_dicts k2 (<[Z.to_nat didx := None]> (dicts k2)) (allocated_dicts k2) in
    kv_ok (with_non_empty k3 (non_empty_dicts k - nonzero (dictSize d))) /\
    slots k3 = <[Z.to_nat didx := ∅]> (slots k) /\ key_count k3 = key_count k - dictSize d /\
    non_empty_dicts k3 = non_empty_dicts k + non_empty_delta (dictSize d) (- dictSize d) /\
    kvstoreGetDict k3 didx = Some None /\ on_demand k3 = on_demand k /\ free_empty k3 = free_empty k.
Proof.
  intros Hk Ho. pose proof Ho as [Hi Hd]%getDict_Some. pose proof Hk as [Hc Hw].
  destruct (slot_ok _ _ _ _ Hc Ho) as [Hwf _]. pose proof (dictSize_map d Hwf) as Hnn.
  assert (Hs : (size_of <$> dicts k) !! Z.to_nat didx = Some (dictSize d)) by (by rewrite list_lookup_fmap, Hd).
  pose proof (core_count _ _ Hc) as Hkc. pose proof (core_bound _ _ Hc) as Hb.
  pose proof (sumZ_insert _ didx _ (- dictSize d) Hi Hs) as Hsum.
  assert (Hpos : 0 <= sumZ (size_of <$> dicts k) + - dictSize d).
  { rewrite <- Hsum. apply sumZ_nonneg, Forall_insert; [apply Hc|lia]. }
  destruct (count_any (set_dicts k (dicts k) (allocated_dicts k - 1)) _ didx _ d (- dictSize d) Ho Hs)
    as (ft & -> & Hft); [apply Hc|done|lia|apply Hc|lia|lia|lia|].
  eexists. split; [done|]. cbv zeta. rewrite Z.add_opp_diag_r in Hft.
  match goal with |- context [foldl (callback didx) ?k1 (leave d)] =>
    destruct (watch_update k1 (dicts k) didx (Some d) None (leave d) Hw Hi Hd (leave_watch d))
      as (rl & bc & ov & -> & Hw') end.
  split_and!; try done; [|by unfold slots; cbn; rewrite list_fmap_insert|].
  - apply (exchange_spec k didx (Some d) None (non_empty_dicts k - nonzero (dictSize d))
      (key_count k + - dictSize d) ft rl bc ov (allocated_dicts k - 1)); try done;
      cbn [size_of alloc_of]; try change (nonzero 0) with 0; lia.
  - apply getDict_Some. split; [done|]. cbn. apply list_lookup_insert_eq. by eapply lookup_lt_Some.
Qed.

Lemma move_target (k : kvstore) didx (d : dict) :
  kv_ok k -> kvstoreGetDict k didx = Some None -> dict_ok (Some d) -> key_count k + dictSize d < 2 ^ 63 ->
  exists k1, cumulativeKeyCountAdd
      (set_dicts k (<[Z.to_nat didx := Some d]> (dicts k)) (allocated_dicts k + 1)) didx (dictSize d) = Some k1 /\
    let k2 := foldl (callback didx) k1 (enter d) in
    kv_ok (with_non_empty k2 (non_empty_dicts k + nonzero (dictSize d))) /\
    slots k2 = <[Z.to_nat didx := to_map ty d]> (slots k) /\ key_count k2 = key_count k + dictSize d /\
    non_empty_dicts k2 = non_empty_dicts k + non_empty_delta (dictSize d) (dictSize d).
Proof.
  intros Hk Ho Hok Hb. pose proof Ho as [Hi Hd]%getDict_Some. pose proof Hk as [Hc Hw].
  pose proof (dictSize_map d (proj1 Hok)) as Hnn.
  assert (Hs : (size_of <$> dicts k) !! Z.to_nat didx = Some 0) by (by rewrite list_lookup_fmap, Hd).
  pose proof (core_count _ _ Hc) as Hkc.
  set (k0 := set_dicts k (<[Z.to_nat didx := Some d]> (dicts k)) (allocated_dicts k + 1)).
  assert (Ho0 : kvstoreGetDict k0 didx = Some (Some d)).
  { apply getDict_Some. split; [done|]. cbn. apply list_lookup_insert_eq. by eapply lookup_lt_Some. }
  destruct (count_any k0 _ didx 0 d (dictSize d) Ho0 Hs) as (ft & -> & Hft);
    [apply Hc|done|apply Hc|apply Hc|lia|lia|lia|].
  eexists. split; [done|]. cbv zeta.
  match goal with |- context [foldl (callback didx) ?k1 (enter d)] =>
    destruct (watch_update k1 (dicts k) didx None (Some d) (enter d) Hw Hi Hd (enter_watch d))
      as (rl & bc & ov & -> & Hw') end.
  split_and!; try done; [|by unfold slots; cbn; rewrite list_fmap_insert].
  apply (exchange_spec k didx None (Some d) (non_empty_dicts k + nonzero (dictSize d))
    (key_count k + dictSize d) ft rl bc ov (allocated_dicts k + 1)); try done;
    cbn [size_of alloc_of]; try change (nonzero 0) with 0; lia.
Qed.

(** A move takes the map over with all the counters right but one: the number of
    non-empty dictionaries is computed as if one key had been added or removed, so the
    source is not decremented, the destination is only incremented for a dictionary of
    exactly one key, and an empty dictionary is subtracted from both. *)
Theorem kvstoreMoveDict_correct (k dst : kvstore) didx (d : dict) :
  kv_ok k -> kv_ok dst -> num_dicts k = num_dicts dst ->
  kvstoreGetDict k didx = Some (Some d) -> kvstoreGetDict dst didx = Some None ->
  kvstoreSize dst + dictSize d < 2 ^ 63 ->
  exists k' dst', kvstoreMoveDict k dst didx = Some (k', dst') /\
    kv_ok (with_non_empty k' (non_empty_dicts k - nonzero (dictSize d))) /\
    kv_ok (with_non_empty dst' (non_empty_dicts dst + nonzero (dictSize d))) /\
    slots k' = <[Z.to_nat didx := ∅]> (slots k) /\ slots dst' = <[Z.to_nat didx := to_map ty d]> (slots dst) /\
    kvstoreSize k' = kvstoreSize k - dictSize d /\ kvstoreSize dst' = kvstoreSize dst + dictSize d /\
    non_empty_dicts k' = non_empty_dicts k - (if dictSize d =? 0 then 1 else 0) /\
    non_empty_dicts dst' = non_empty_dicts dst + (if dictSize d =? 1 then 1 else if dictSize d =? 0 then -1 else 0).
Proof.
  intros Hk Hdst Hn Ho Hod Hb. unfold kvstoreSize in *. unfold kvstoreMoveDict.
  pose proof Ho as [Hi Hd]%getDict_Some. pose proof (core_len _ _ (proj1 Hk)) as Hlen.
  pose proof (lookup_lt_Some _ _ _ Hd) as Hlt. pose proof (slot_ok _ _ _ _ (proj1 Hk) Ho) as Hok.
  pose proof (dictSize_map d (proj1 Hok)) as Hnn.
  rewrite Z.gtb_ltb, (proj2 (Z.ltb_lt _ _)), (proj2 (Z.eqb_eq _ _) Hn) by lia. cbn [negb orb].
  rewrite Hod. mred. rewrite Ho. mred. cbv zeta.
  destruct (move_source k didx d Hk Ho) as (k1 & -> & Hk3 & Hs3 & Hc3 & Hn3 & Ho3 & Hod3 & Hfe3). mred.
  replace (if dictIsRehashing d then _ else kvstoreDictBucketChanged k1 (- dictBuckets d))
    with (foldl (callback didx) k1 (leave d)) by (unfold leave; by destruct (dictIsRehashing d)).
  set (k2 := foldl (callback didx) k1 (leave d)) in *.
  set (k3 := set_dicts k2 _ _) in *.
  assert (Hfin : exists k4, (if negb (on_demand k3 || free_empty k3)
      then '(k, _) ← createDictIfNeeded k3 didx; Some k else Some k3) = Some k4 /\
    kv_ok (with_non_empty k4 (non_empty_dicts k - nonzero (dictSize d))) /\ slots k4 = slots k3 /\
    key_count k4 = key_count k3 /\ non_empty_dicts k4 = non_empty_dicts k3).
  { destruct (negb _); [|by exists k3].
    assert (Hsl : slots (with_non_empty k3 (non_empty_dicts k - nonzero (dictSize d))) !! Z.to_nat didx = Some ∅).
    { change (slots (with_non_empty k3 _)) with (slots k3). rewrite Hs3. apply list_lookup_insert_eq.
      unfold slots. by rewrite length_fmap. }
    destruct (create_spec (with_non_empty k3 (non_empty_dicts k - nonzero (dictSize d))) didx ∅ Hk3 Hi Hsl)
      as (k4 & d4 & Hcr & Hk4 & Hs4 & _). unfold createDictIfNeeded in Hcr |- *.
    change (kvstoreGetDict (with_non_empty k3 _) didx) with (kvstoreGetDict k3 didx) in Hcr.
    rewrite Ho3 in *. cbn [mbind option_bind] in *. injection Hcr as <- <-. by eexists. }
  destruct Hfin as (k4 & -> & Hk4 & Hs4 & Hc4 & Hn4). mred.
  destruct (move_target dst didx d Hdst Hod Hok Hb) as (dst1 & -> & Hdst2 & Hsd2 & Hcd2 & Hnd2). mred.
  replace (if dictIsRehashing d then _ else kvstoreDictBucketChanged dst1 (dictBuckets d))
    with (foldl (callback didx) dst1 (enter d)) by (unfold enter; by destruct (dictIsRehashing d)).
  eexists _, _. split; [done|]. unfold non_empty_delta in *. split_and!; try done.
  - by rewrite Hs4.
  - lia.
  - rewrite Hn4, Hn3. zbool; cbn; lia.
  - rewrite Hnd2. zbool; cbn; lia.
Qed.

(** ** Positions *)

Lemma slots_length (k : kvstore) xs : core_ok k xs -> zlen (slots k) = num_dicts k.
Proof. intros Hc. unfold slots. rewrite length_fmap. apply Hc. Qed.

Lemma sizes_slots (k : kvstore) xs :
  core_ok k xs -> size_of <$> dicts k = (fun m => Z.of_nat (size m)) <$> slots k.
Proof.
  intros Hc. unfold slots. rewrite <- list_fmap_compose. pose proof (core_dicts _ _ Hc) as Hd.
  induction Hd as [|o ds Ho Hds IH]; [done|]. cbn. by rewrite IH, (size_of_map o Ho).
Qed.

(** The counters as a list of map sizes. *)
Definition counts (k : kvstore) : list Z := (fun m => Z.of_nat (size m)) <$> slots k.

Lemma kv_counts (k : kvstore) : kv_ok k -> core_ok k (counts k).
Proof. intros [Hc _]. unfold counts. by rewrite <- (sizes_slots k _ Hc). Qed.

Lemma find_by_key_index (k : kvstore) target :
  kv_ok k -> 1 <= target <= key_count k ->
  exists didx m, kvstoreFindDictIndexByKeyIndex k target = Some didx /\ 0 <= didx < num_dicts k /\
    slots k !! Z.to_nat didx = Some m /\ m <> ∅ /\
    psum (counts k) didx < target <= psum (counts k) didx + Z.of_nat (size m).
Proof.
  intros Hk%kv_counts Ht. unfold kvstoreFindDictIndexByKeyIndex, kvstoreSize.
  pose proof (slots_length k _ Hk) as Hlen. pose proof (core_count _ _ Hk) as Hkc.
  rewrite (proj2 (Z.eqb_neq (key_count k) 0)), orb_false_r by lia.
  assert (Hend : forall r m, 0 <= r -> slots k !! Z.to_nat r = Some m ->
    psum (counts k) r < target <= psum (counts k) r + Z.of_nat (size m) -> 0 <= r < num_dicts k /\ m <> ∅).
  { intros r m Hr Hm Hp. pose proof (lookup_lt_Some _ _ _ Hm). split; [lia|]. intros ->.
    rewrite map_size_empty in Hp. lia. }
  pose proof (core_tree _ _ Hk) as Htree. destruct (dict_sizes k) as [ft|].
  - destruct Htree as [Hn Hr]. rewrite (proj2 (Z.eqb_neq _ _) Hn).
    rewrite (proj2 (Z.leb_le _ _)) by lia. mred.
    destruct (findIndex_spec ft (counts k) target Hr) as (r & -> & Hr1 & Hr2).
    { rewrite (repr_total _ _ Hr). lia. }
    destruct (lookup_lt_is_Some_2 (slots k) (Z.to_nat r)) as [m Hm].
    { pose proof (repr_len _ _ Hr) as Hl. unfold counts in Hl. rewrite length_fmap in Hl. lia. }
    assert (Hs : psum (counts k) (r + 1) = psum (counts k) r + Z.of_nat (size m)).
    { apply psum_succ; [lia|]. unfold counts. by rewrite list_lookup_fmap, Hm. }
    exists r, m. destruct (Hend r m); [lia|done|lia|]. split_and!; (done || lia).
  - rewrite (proj2 (Z.eqb_eq _ _) Htree). unfold counts in *.
    destruct (slots k) as [|m [|]] eqn:Hsl; cbn [length] in Hlen; [lia| |lia].
    unfold sumZ in Hkc. cbn [fmap list_fmap foldr] in Hkc. exists 0, m.
    assert (Hp : psum ((fun m : gmap K entry => Z.of_nat (size m)) <$> [m]) 0 = 0) by (by apply psum_0).
    destruct (Hend 0 m); [lia|done|lia|]. split_and!; (done || lia).
Qed.

(** The dictionary of the [target]-th key, in the order of the indexes. *)
Theorem kvstoreFindDictIndexByKeyIndex_correct (k : kvstore) target :
  kv_ok k -> 1 <= target <= kvstoreSize k ->
  exists didx m, kvstoreFindDictIndexByKeyIndex k target = Some didx /\ 0 <= didx /\
    slots k !! Z.to_nat didx = Some m /\
    psum (counts k) didx < target <= psum (counts k) didx + Z.of_nat (size m).
Proof.
  intros Hk Ht. destruct (find_by_key_index k target Hk Ht) as (didx & m & ? & [? _] & ? & _ & ?).
  by exists didx, m.
Qed.

Lemma findNext_slots (k : kvstore) didx :
  kv_ok k -> 0 <= didx < num_dicts k ->
  exists r, kvstoreGetNextNonEmptyDictIndex k didx = Some r /\
    ((r = -1 /\ forall j m, didx < j -> slots k !! Z.to_nat j = Some m -> m = ∅) \/
     (didx < r < num_dicts k /\ (exists m, slots k !! Z.to_nat r = Some m /\ m <> ∅) /\
      forall j m, didx < j < r -> slots k !! Z.to_nat j = Some m -> m = ∅)).
Proof.
  intros Hk%kv_counts Hi. unfold kvstoreGetNextNonEmptyDictIndex.
  pose proof (slots_length k _ Hk) as Hlen. pose proof (core_tree _ _ Hk) as Htree.
  assert (Hempty : forall j m, (slots k !! Z.to_nat j = Some m) ->
    (forall y, counts k !! Z.to_nat j = Some y -> y = 0) -> m = ∅).
  { intros j m Hm Hy. apply map_size_empty_inv.
    specialize (Hy (Z.of_nat (size m))). unfold counts in Hy. rewrite list_lookup_fmap, Hm in Hy.
    specialize (Hy eq_refl). lia. }
  destruct (dict_sizes k) as [ft|].
  - destruct Htree as [Hn Hr]. rewrite (proj2 (Z.eqb_neq _ _) Hn).
    assert (Hsz : ft_size ft = num_dicts k).
    { rewrite <- (repr_len _ _ Hr). unfold counts. by rewrite length_fmap. }
    destruct (findNext_spec ft (counts k) didx Hr) as (r & -> & Hcase);
      [lia|pose proof (core_bound _ _ Hk); lia|].
    exists r. split; [done|]. destruct Hcase as [[-> Hz]|(Hlt & (x & Hx & Hpos) & Hz)]; [left|right].
    + split; [done|]. intros j m Hj Hm. apply (Hempty j m Hm). intros y. by apply Hz.
    + pose proof (lookup_lt_Some _ _ _ Hx) as Hl. unfold counts in Hl, Hx. rewrite length_fmap in Hl.
      rewrite list_lookup_fmap in Hx. destruct (slots k !! Z.to_nat r) as [m|] eqn:Hm; [|done].
      injection Hx as <-. split_and!; [done|lia| |].
      * exists m. split; [done|]. intros ->. by rewrite map_size_empty in Hpos.
      * intros j m' Hj Hm'. apply (Hempty j m' Hm'). intros y. by apply Hz.
  - rewrite (proj2 (Z.eqb_eq _ _) Htree). assert (didx = 0) as -> by lia. exists (-1). split; [done|].
    left. split; [done|]. intros j m Hj Hm. apply lookup_lt_Some in Hm. lia.
Qed.

(** *** Cursors *)

Lemma cursor_roundtrip (k : kvstore) xs didx c :
  core_ok k xs -> 0 <= didx < num_dicts k -> 0 <= c < 2 ^ (64 - num_dicts_bits k) ->
  getAndClearDictIndexFromCursor k (addDictIndexToCursor k didx c) = (didx, c) /\
  in_u 64 (addDictIndexToCursor k didx c) /\
  (addDictIndexToCursor k didx c = 0 -> c = 0 /\ didx = 0).
Proof.
  intros Hk Hi Hc. unfold addDictIndexToCursor, getAndClearDictIndexFromCursor.
  pose proof (core_bits _ _ Hk) as Hb. pose proof (core_num _ _ Hk) as Hn. set (b := num_dicts_bits k) in *.
  destruct (Z.eqb_spec (num_dicts k) 1) as [H1|H1].
  { assert (didx = 0) as -> by lia.
    assert (2 ^ (64 - b) <= 2 ^ 64) by (apply Z.pow_le_mono_r; lia). unfold in_u. split_and!; (done || lia). }
  rewrite (proj2 (Z.ltb_ge _ _)) by lia. pose proof (pow2_pos b ltac:(lia)) as Hp.
  assert (Hlt : c * 2 ^ b + didx < 2 ^ 64).
  { replace (2 ^ 64) with (2 ^ (64 - b) * 2 ^ b) by (rewrite <- Z.pow_add_r by lia; f_equal; lia). nia. }
  rewrite Z.shiftl_mul_pow2 by lia. rewrite uwrap_id by (unfold in_u; nia).
  rewrite <- Z.shiftl_mul_pow2, Z.lor_comm, lor_shiftl_add by lia.
  rewrite (land_ones_mod _ b), Z.shiftr_div_pow2 by lia. unfold in_u.
  rewrite Z.mod_add, Z.mod_small, Z.div_add, Z.div_small by lia.
  split_and!; [done|nia|lia|nia].
Qed.

(** The index and the cursor of a dictionary, packed into 64 bits and taken apart
    again, for a cursor that leaves the bits of the index free; only the start of the
    iteration is packed to 0. *)
Theorem kvstoreCursor_roundtrip (k : kvstore) didx c :
  kv_ok k -> 0 <= didx < num_dicts k -> 0 <= c < 2 ^ (64 - num_dicts_bits k) ->
  getAndClearDictIndexFromCursor k (addDictIndexToCursor k didx c) = (didx, c) /\
  in_u 64 (addDictIndexToCursor k didx c) /\
  (addDictIndexToCursor k didx c = 0 -> c = 0 /\ didx = 0).
Proof. intros [Hc _]. by apply (cursor_roundtrip k (size_of <$> dicts k)). Qed.

(** *** Random dictionaries *)

Lemma fair_attempts_spec (k : kvstore) skip rnd :
  kv_ok k -> 0 < key_count k -> Forall (fun r => 0 <= r) rnd ->
  exists r, fair_attempts_loop k skip rnd = Some r /\
    match r with
    | Some didx => 0 <= didx < num_dicts k /\ skip didx = false /\
        exists m, slots k !! Z.to_nat didx = Some m /\ m <> ∅
    | None => True
    end.
Proof.
  intros Hk Hpos. induction 1 as [|r rnd Hr Hrnd IH]; [by exists None|]. cbn [fair_attempts_loop].
  unfold kvstoreSize. pose proof (Z.mod_pos_bound r (key_count k) Hpos).
  destruct (find_by_key_index k (r mod key_count k + 1) Hk ltac:(lia)) as (didx & m & -> & Hi & Hm & Hne & _). mred.
  destruct (skip didx) eqn:Hskip; cbn [negb]; [done|]. exists (Some didx). split_and!; try done; try lia. by exists m.
Qed.

Lemma fallback_spec (k : kvstore) skip start (n : nat) : forall i,
  kv_ok k -> exists r, fallback_loop k skip start i n = Some r /\
    (r = -1 /\ (forall j, i <= j < i + Z.of_nat n ->
       let didx := (start + j) mod num_dicts k in
       kvstoreGetDict k didx = Some None \/ skip didx = true) \/
     0 <= r < num_dicts k /\ skip r = false /\ exists d, kvstoreGetDict k r = Some (Some d)).
Proof.
  induction n as [|n IH]; intros i Hk.
  { exists (-1). split; [done|]. left. split; [done|]. lia. }
  cbn [fallback_loop]. pose proof (core_cursor _ _ (proj1 Hk)).
  pose proof (Z.mod_pos_bound (start + i) (num_dicts k) ltac:(lia)) as Hmod.
  destruct (getDict_lt k _ _ (proj1 Hk) Hmod) as (o & Ho & _). rewrite Ho. mred.
  assert (Hgo : kvstoreGetDict k ((start + i) mod num_dicts k) = Some None \/ skip ((start + i) mod num_dicts k) = true ->
    exists r, fallback_loop k skip start (i + 1) n = Some r /\
      (r = -1 /\ (forall j, i <= j < i + Z.of_nat (S n) ->
         let didx := (start + j) mod num_dicts k in
         kvstoreGetDict k didx = Some None \/ skip didx = true) \/
       0 <= r < num_dicts k /\ skip r = false /\ exists d, kvstoreGetDict k r = Some (Some d))).
  { intros Hthis. destruct (IH (i + 1) Hk) as (r & -> & Hr). exists r. split; [done|].
    destruct Hr as [[-> Hall]|Hr]; [left|by right]. split; [done|]. intros j Hj.
    destruct (decide (j = i)) as [->|]; [done|]. apply Hall. lia. }
  destruct o as [d|]; [|apply Hgo; by left].
  destruct (skip ((start + i) mod num_dicts k)) eqn:Hskip; cbn [negb]; [apply Hgo; by right|].
  eexists. split; [done|]. right. split_and!; try done; try lia. by exists d.
Qed.

(** The dictionary drawn is not one to be skipped; it holds a key when one of the fair
    attempts has found it, and is allocated when the fallback has.  With the fallback, -1
    means that every allocated dictionary is to be skipped. *)
Theorem kvstoreGetFairRandomDictIndex_correct (k : kvstore) skip rnd slow :
  kv_ok k -> num_dicts k <> 1 -> 0 < kvstoreSize k -> Forall (fun r => 0 <= r) rnd ->
  exists didx, kvstoreGetFairRandomDictIndex k skip rnd slow = Some didx /\
    (didx = -1 /\ (slow <> None -> forall i d, kvstoreGetDict k i = Some (Some d) -> skip i = true) \/
     0 <= didx < num_dicts k /\ skip didx = false /\
     ((exists m, slots k !! Z.to_nat didx = Some m /\ m <> ∅) \/
      slow <> None /\ exists d, kvstoreGetDict k didx = Some (Some d))).
Proof.
  intros Hk Hn Hpos Hrnd. unfold kvstoreGetFairRandomDictIndex, kvstoreSize in *.
  rewrite (proj2 (Z.eqb_neq _ _) Hn), (proj2 (Z.eqb_neq (key_count k) 0)) by lia. cbn [orb].
  destruct (fair_attempts_spec k skip rnd Hk Hpos Hrnd) as (r & -> & Hr). mred.
  destruct r as [didx|].
  { destruct Hr as (Hi & Hskip & Hm). exists didx. split; [done|]. right. split_and!; [lia|lia|done|by left]. }
  destruct slow as [r|]; [|exists (-1); split; [done|left; by split]].
  destruct (fallback_spec k skip (r mod num_dicts k) (Z.to_nat (num_dicts k)) 0 Hk) as (didx & -> & Hd).
  exists didx. split; [done|]. destruct Hd as [[-> Hall]|(Hi & Hskip & Hd)]; [left|right; split_and!; try lia; auto].
  split; [done|]. intros _ i d Ho. pose proof Ho as [Hi Hdi]%getDict_Some.
  pose proof (lookup_lt_Some _ _ _ Hdi). pose proof (core_len _ _ (proj1 Hk)).
  set (n := num_dicts k) in *. assert (0 < n) by lia.
  pose proof (Z.mod_pos_bound (i - r mod n) n ltac:(lia)) as Hj.
  destruct (Hall ((i - r mod n) mod n)) as [Hno|Hskip]; [lia|..];
    replace ((r mod n + (i - r mod n) mod n) mod n) with i in *
      by (rewrite Zplus_mod_idemp_r; replace (r mod n + (i - r mod n)) with i by lia;
          symmetry; apply Z.mod_small; lia); [congruence|done].
Qed.

(** ** Scanning *)

Definition no_skip (_ : Z) : bool := false.

(** The tables are small enough for the bits that the cursor leaves them: 48 bits with
    the largest number of dictionaries. *)
Definition cursor_fits (k : kvstore) : Prop :=
  forall i (d : dict), dicts k !! i = Some (Some d) -> DictScan.max_exp d <= 64 - num_dicts_bits k.

Lemma add_cursor_same (k k' : kvstore) didx c :
  num_dicts k' = num_dicts k -> num_dicts_bits k' = num_dicts_bits k ->
  addDictIndexToCursor k' didx c = addDictIndexToCursor k didx c.
Proof. intros Hn Hb. unfold addDictIndexToCursor. by rewrite Hn, Hb. Qed.

Context (Hhash64 : forall k, in_u 64 (hashFunction ty k)).

(** One call, for the cursor of dictionary [didx] at [c]: it goes on in the same
    dictionary, or to the next one that has a key, or it is the last. *)
Lemma scan_step (k : kvstore) v didx c :
  kv_ok k -> cursor_fits k -> getAndClearDictIndexFromCursor k v = (didx, c) ->
  0 <= didx < num_dicts k -> in_u 64 c ->
  exists k' v' out, kvstoreScan canFreeDict k v (-1) no_skip = Some (k', v', out) /\
    ((exists c' d, v' = addDictIndexToCursor k didx c' /\ c' <> 0 /\ 0 <= c' < 2 ^ (64 - num_dicts_bits k) /\
        kvstoreGetDict k didx = Some (Some d) /\ DictScan.dictScan d c = Some (c', out)) \/
     ((forall d, kvstoreGetDict k didx = Some (Some d) -> DictScan.dictScan d c = Some (0, out)) /\
      ((v' = 0 /\ forall j m, didx < j -> slots k !! Z.to_nat j = Some m -> m = ∅) \/
       exists r, didx < r < num_dicts k /\ v' = addDictIndexToCursor k r 0 /\
         forall j m, didx < j < r -> slots k !! Z.to_nat j = Some m -> m = ∅))).
Proof.
  intros Hk Hfit Hv Hi Hc. unfold kvstoreScan. rewrite Hv. mred. change (-1 >=? 0) with false. cbv iota. mred.
  destruct (getDict_lt k _ didx (proj1 Hk) Hi) as (o & Ho & Hok). rewrite Ho. mred.
  destruct o as [d|].
  - change (no_skip didx) with false. cbv iota. destruct Hok as [Hwf _].
    destruct (DictScan.dictScan_covers ty Hhash64 d c Hwf Hc) as (c' & out & Hs & Hc' & Hb & _).
    rewrite Hs. mred. destruct (free_spec k didx _ Hk Ho) as (k1 & -> & Hk1 & Hs1 & Hn1 & Hb1 & _). mred.
    rewrite orb_false_r. destruct (Z.eqb_spec c' 0) as [->|Hne].
    + destruct (findNext_slots k1 didx Hk1 ltac:(lia)) as (r & -> & Hr). mred. rewrite Hs1, Hn1 in Hr.
      destruct Hr as [[-> Hlater]|(Hlt & _ & Hlater)].
      * eexists _, _, _. split; [done|]. right. split; [intros ? [= <-]; exact Hs|by left].
      * rewrite (proj2 (Z.eqb_neq _ _)) by lia. eexists _, _, _. split; [done|]. right.
        split; [intros ? [= <-]; exact Hs|right]. exists r. rewrite (add_cursor_same k k1) by done. split_and!; (done || lia).
    + eexists _, _, _. split; [done|]. left. exists c', d. rewrite (add_cursor_same k k1) by done.
      split_and!; try done; [apply Hc'|]. eapply Z.lt_le_trans; [done|]. apply Z.pow_le_mono_r; [lia|].
      apply getDict_Some in Ho as [_ Ho]. by apply (Hfit (Z.to_nat didx)).
  - mred. cbn [orb Z.eqb]. destruct (findNext_slots k didx Hk Hi) as (r & -> & Hr). mred.
    destruct Hr as [[-> Hlater]|(Hlt & _ & Hlater)].
    + eexists _, _, _. split; [done|]. right. split; [done|by left].
    + rewrite (proj2 (Z.eqb_neq _ _)) by lia. eexists _, _, _. split; [done|]. right.
      split; [done|right]. by exists r.
Qed.

(** A complete iteration: the stores met and what was given to the callback.  Between
    two calls the store may be anything. *)
Inductive kv_scans : Z -> list (kvstore * list entry) -> Prop :=
| kv_scans_last k v k' out :
  kvstoreScan canFreeDict k v (-1) no_skip = Some (k', 0, out) -> kv_scans v [(k, out)]
| kv_scans_next k v k' v' out rest :
  kvstoreScan canFreeDict k v (-1) no_skip = Some (k', v', out) -> v' <> 0 ->
  kv_scans v' rest -> kv_scans v ((k, out) :: rest).

(** A store of [2 ^ bits] dictionaries that holds [key] at [t]. *)
Definition holds (bits t : Z) (key : K) (k : kvstore) : Prop :=
  kv_ok k /\ cursor_fits k /\ num_dicts_bits k = bits /\
  exists m, slots k !! Z.to_nat t = Some m /\ is_Some (m !! key).

Definition before (bits t : Z) (key : K) (v : Z) : Prop :=
  forall k : kvstore, holds bits t key k ->
  exists didx c, getAndClearDictIndexFromCursor k v = (didx, c) /\ 0 <= didx < num_dicts k /\ in_u 64 c /\
    (didx < t \/ didx = t /\ DictScan.rev c <= DictScan.rev (hashFunction ty key)).

Lemma before_add (k : kvstore) bits t key didx c :
  holds bits t key k -> 0 <= didx < num_dicts k -> 0 <= c < 2 ^ (64 - bits) ->
  didx < t \/ didx = t /\ DictScan.rev c <= DictScan.rev (hashFunction ty key) ->
  before bits t key (addDictIndexToCursor k didx c).
Proof.
  intros (Hk & _ & Hb & _) Hi Hc Hor k2 (Hk2 & _ & Hb2 & _).
  destruct Hk as [Hk _], Hk2 as [Hk2 _].
  assert (Hn : num_dicts k2 = num_dicts k) by (rewrite (core_num _ _ Hk), (core_num _ _ Hk2); congruence).
  exists didx, c. rewrite (add_cursor_same k2 k) by congruence.
  destruct (cursor_roundtrip k2 _ didx c Hk2) as (Hrt & _); [lia|by rewrite Hb2|].
  pose proof (core_bits _ _ Hk2). assert (2 ^ (64 - bits) <= 2 ^ 64) by (apply Z.pow_le_mono_r; lia).
  unfold in_u. split_and!; (done || lia).
Qed.

(** The dictionary of the key: a call reports it, or the cursor stays before it. *)
Lemma scan_at_key (k : kvstore) bits t key c c' (d : dict) out :
  holds bits t key k -> 0 <= t -> kvstoreGetDict k t = Some (Some d) -> in_u 64 c ->
  DictScan.rev c <= DictScan.rev (hashFunction ty key) -> DictScan.dictScan d c = Some (c', out) ->
  (exists e, e ∈ out /\ key_of ty e = key) \/
  c' <> 0 /\ DictScan.rev c' <= DictScan.rev (hashFunction ty key).
Proof.
  intros (Hk & _ & _ & m & Hm & [e He]) Ht Ho Hc Hle Hs. destruct (slot_ok _ _ _ _ (proj1 Hk) Ho) as [Hwf _].
  destruct (slot_dict k t m Ht Hm) as (o & Ho' & ->). rewrite Ho in Ho'. injection Ho' as <-.
  apply (to_map_Some ty d key e Hwf) in He as [Hin Hkey].
  destruct (DictScan.dictScan_covers ty Hhash64 d c Hwf Hc) as (c2 & out2 & Hs2 & _ & _ & _ & _ & Hcov).
  rewrite Hs in Hs2. injection Hs2 as <- <-. specialize (Hcov e Hin). unfold DictScan.fin in Hcov.
  rewrite Hkey in Hcov. pose proof (DictScan.rev_range _ (Hhash64 key)) as [_ Hlt].
  destruct (Z.eqb_spec c' 0) as [->|Hne]; [left; exists e; split; [apply Hcov; lia|done]|].
  destruct (decide (DictScan.rev (hashFunction ty key) < DictScan.rev c')) as [Hin2|Hge].
  - left. exists e. split; [apply Hcov; lia|done].
  - right. split; [done|lia].
Qed.

Lemma scan_step_key (k k' : kvstore) bits t key v v' out :
  holds bits t key k -> 0 <= t -> before bits t key v ->
  kvstoreScan canFreeDict k v (-1) no_skip = Some (k', v', out) ->
  (exists e, e ∈ out /\ key_of ty e = key) \/ v' <> 0 /\ before bits t key v'.
Proof.
  intros Hh Ht Hb Hs. destruct (Hb k Hh) as (didx & c & Hv & Hi & Hc & Hpos).
  pose proof Hh as (Hk & Hfit & Hbits & m & Hm & Hkey).
  destruct (scan_step k v didx c Hk Hfit Hv Hi Hc) as (k2 & v2 & out2 & Hs2 & Hcase).
  rewrite Hs in Hs2. injection Hs2 as <- <- <-.
  assert (Hne : m <> ∅) by (intros ->; rewrite lookup_empty in Hkey; by destruct Hkey).
  pose proof (slots_length k _ (proj1 Hk)) as Hlen. pose proof (lookup_lt_Some _ _ _ Hm) as Htlt.
  assert (Hnz : forall c', 0 <= c' < 2 ^ (64 - num_dicts_bits k) -> forall r, 0 <= r < num_dicts k ->
    addDictIndexToCursor k r c' = 0 -> c' = 0 /\ r = 0).
  { intros c' Hc' r Hr. by apply (cursor_roundtrip k _ r c' (proj1 Hk)). }
  destruct Hcase as [(c' & d & -> & Hc0 & Hcr & Ho & Hscan)|[Hscan [[-> Hlater]|(r & Hr & -> & Hlater)]]].
  - assert (Hz : addDictIndexToCursor k didx c' <> 0) by (intros Hz; by destruct (Hnz c' Hcr didx Hi Hz)).
    destruct Hpos as [Hlt|[-> Hle]].
    + right. split; [done|]. apply before_add; [done|done|by rewrite <- Hbits|by left].
    + destruct (scan_at_key k bits t key c c' d out Hh Ht Ho Hc Hle Hscan) as [?|[_ Hle']]; [by left|].
      right. split; [done|]. apply before_add; [done|done|by rewrite <- Hbits|by right].
  - destruct Hpos as [Hlt|[-> Hle]]; [by destruct (Hne (Hlater t m Hlt Hm))|]. left.
    destruct (slot_dict k t m Ht Hm) as (o & Ho & ->). destruct o as [d|]; [|done].
    destruct (scan_at_key k bits t key c 0 d out Hh Ht Ho Hc Hle (Hscan d Ho)) as [?|[? _]]; done.
  - assert (Hz : addDictIndexToCursor k r 0 <> 0).
    { intros Hz. destruct (Hnz 0 ltac:(split; [lia|apply pow2_pos; destruct (core_bits _ _ (proj1 Hk)); lia]) r ltac:(lia) Hz). lia. }
    destruct Hpos as [Hlt|[-> Hle]].
    + right. split; [done|]. apply before_add; [done|lia|split; [lia|apply pow2_pos; destruct (core_bits _ _ (proj1 Hk)); lia]|].
      destruct (decide (r <= t)) as [Hrt|Hrt].
      * destruct (decide (r = t)) as [->|]; [right|left; lia]. split; [done|].
        change (DictScan.rev 0) with 0. apply DictScan.rev_range, Hhash64.
      * destruct (Hne (Hlater t m ltac:(lia) Hm)).
    + left. destruct (slot_dict k t m Ht Hm) as (o & Ho & ->). destruct o as [d|]; [|done].
      destruct (scan_at_key k bits t key c 0 d out Hh Ht Ho Hc Hle (Hscan d Ho)) as [?|[? _]]; done.
Qed.

Lemma kv_scans_from v run bits t key :
  kv_scans v run -> 0 <= t -> before bits t key v ->
  (forall k out, (k, out) ∈ run -> holds bits t key k) ->
  exists k out e, (k, out) ∈ run /\ e ∈ out /\ key_of ty e = key.
Proof.
  induction 1 as [k v k' out Hs|k v k' v' out rest Hs Hne Hrun IH]; intros Ht Hb Hh.
  - destruct (scan_step_key k k' bits t key v 0 out (Hh k out ltac:(left)) Ht Hb Hs) as [(e & He)|[? _]]; [|done].
    exists k, out, e. split; [left|done].
  - destruct (scan_step_key k k' bits t key v v' out (Hh k out ltac:(left)) Ht Hb Hs) as [(e & He)|[_ Hb']].
    + exists k, out, e. split; [left|done].
    + destruct IH as (k2 & out2 & e & Hin & He); [done|done| |].
      * intros k2 o2 Hin. apply (Hh k2 o2). by right.
      * exists k2, out2, e. split; [by right|done].
Qed.

(** C34: in a complete iteration with [kvstoreScan], with any changes of the store between
    the calls, every key that is in the same dictionary at each call is given to the
    callback at least once: the next non-empty dictionary of the Fenwick tree skips no
    dictionary that holds it, and the cursor of the dictionary survives its encoding. *)
Theorem kvstoreScan_complete (run : list (kvstore * list entry)) bits t key :
  kv_scans 0 run -> 0 <= t -> (forall k out, (k, out) ∈ run -> holds bits t key k) ->
  exists k out e, (k, out) ∈ run /\ e ∈ out /\ key_of ty e = key.
Proof.
  intros Hrun Ht Hh. apply (kv_scans_from 0 run bits t key Hrun Ht); [|done].
  intros k ((Hk & _) & _ & Hb & _). exists 0, 0. pose proof (core_bits _ _ Hk) as Hbits.
  pose proof (pow2_pos (num_dicts_bits k) ltac:(lia)) as Hp. rewrite <- (core_num _ _ Hk) in Hp.
  split_and!; [|lia|lia|by vm_compute|].
  - unfold getAndClearDictIndexFromCursor. destruct (_ =? 1); [done|]. by rewrite Z.shiftr_0_l.
  - destruct (decide (t = 0)) as [->|]; [right|left; lia]. split; [done|].
    change (DictScan.rev 0) with 0. apply DictScan.rev_range, Hhash64.
Qed.

End Proofs.

(** ** Two dictionaries of numbers, for concrete runs *)

Module KvSample.
Import Sample.

Definition always (_ : Z) : bool := true.
Definition empty2 : kvstore Z Z :=
  default (Kv false true [] 0 0 [] 0 0 0 0 0 None 0) (kvstoreCreate 1 false true).

(** The key 5 in dictionary 0 and the key 7 in dictionary 1. *)
Definition one : kvstore Z Z :=
  default empty2 (fst <$> kvstoreDictAddRaw ty DICT_RESIZE_ENABLE empty2 0 5 50).
Definition store : kvstore Z Z :=
  default one (fst <$> kvstoreDictAddRaw ty DICT_RESIZE_ENABLE one 1 7 70).

Lemma empty2_ok : kv_ok ty empty2.
Proof.
  assert (He : kvstoreCreate 1 false true = Some empty2) by (by vm_compute).
  pose proof (createStore_spec (SK := Z) (V := Z) ty 1 false true ltac:(lia)) as Hc.
  rewrite He in Hc. by destruct Hc as (_ & Hk & _).
Qed.

Lemma one_ok : kv_ok ty one.
Proof.
  destruct (addRaw_spec ty DICT_RESIZE_ENABLE cmp_ok hash_ok empty2 0 5 50 ∅ empty2_ok) as (k' & r & Hadd & Hk & _);
    [lia|by vm_compute|by vm_compute|]. unfold one. by rewrite Hadd.
Qed.

Lemma store_ok : kv_ok ty store.
Proof.
  destruct (addRaw_spec ty DICT_RESIZE_ENABLE cmp_ok hash_ok one 1 7 70 ∅ one_ok) as (k' & r & Hadd & Hk & _);
    [lia|by vm_compute|by vm_compute|]. unfold store. by rewrite Hadd.
Qed.

Definition m5 : gmap Z (Z * Z) := {[5 := (5, 50)]}.
Definition m7 : gmap Z (Z * Z) := {[7 := (7, 70)]}.

Lemma store_slots : slots ty store = [m5; m7].
Proof. by vm_compute. Qed.

Definition d5 : dict Z Z := default dictCreate (default None (kvstoreGetDict store 0)).
Definition free : kvstore Z Z := default empty2 (kvstoreCreate 1 true false).

Lemma free_ok : kv_ok ty free.
Proof.
  assert (He : kvstoreCreate 1 true false = Some free) by (by vm_compute).
  pose proof (createStore_spec (SK := Z) (V := Z) ty 1 true false ltac:(lia)) as Hc.
  rewrite He in Hc. by destruct Hc as (_ & Hk & _).
Qed.

Definition clock (n : nat) : Z := Z.min (Z.of_nat n) 1000.
Lemma clock_mono i j : (i <= j)%nat -> clock i <= clock j.
Proof. unfold clock. lia. Qed.
Lemma clock_u64 i : in_u 64 (clock i).
Proof. unfold clock, in_u. lia. Qed.

(** The calls of an iteration over [store]. *)
Definition run : list (kvstore Z Z * list (Z * Z)) :=
  [(store, []); (store, []); (store, []); (store, [(5, 50)]);
   (store, []); (store, []); (store, [(7, 70)]); (store, [])].

Lemma kv_run_scans : kv_scans always 0 run.
Proof.
  apply (kv_scans_next _ _ 0 store 4); [by vm_compute|done|].
  apply (kv_scans_next _ _ 4 store 2); [by vm_compute|done|].
  apply (kv_scans_next _ _ 2 store 6); [by vm_compute|done|].
  apply (kv_scans_next _ _ 6 store 1); [by vm_compute|done|].
  apply (kv_scans_next _ _ 1 store 5); [by vm_compute|done|].
  apply (kv_scans_next _ _ 5 store 3); [by vm_compute|done|].
  apply (kv_scans_next _ _ 3 store 7); [by vm_compute|done|].
  apply (kv_scans_last _ _ 7 store). by vm_compute.
Qed.

Lemma run_holds k out : (k, out) ∈ run -> holds ty 1 1 7 k.
Proof.
  intros Hin. assert (Hk : Forall (fun p => p.1 = store) run) by (by repeat constructor).
  pose proof (proj1 (Forall_forall _ _) Hk _ Hin) as E. change (k = store) in E. rewrite E. clear Hin Hk E.
  split; [exact store_ok|]. split; [|split; [by vm_compute|exists m7; split; [by vm_compute|by eexists]]].
  intros i d Hd.
  assert (Hall : Forall (fun o => match o with Some d => DictScan.max_exp d <= 63 | None => True end) (dicts store))
    by (repeat constructor; by vm_compute).
  exact (Forall_lookup_1 _ _ _ _ Hall Hd).
Qed.

End KvSample.

Lemma kvstoreDictAddRaw_correct_witness :
  exists k' r, kvstoreDictAddRaw Sample.ty DICT_RESIZE_ENABLE KvSample.store 1 9 90 = Some (k', r) /\
    kvstoreSize k' = 3.
Proof.
  destruct (kvstoreDictAddRaw_correct Sample.ty DICT_RESIZE_ENABLE Sample.cmp_ok Sample.hash_ok
    KvSample.store 1 9 90 KvSample.m7 KvSample.store_ok) as (k' & r & Hadd & _ & Hr);
    [lia|by rewrite KvSample.store_slots|by vm_compute|].
  exists k', r. split; [exact Hadd|]. destruct Hr as (_ & _ & Hs). exact Hs.
Defined.

Lemma kvstoreDictDelete_correct_witness :
  exists k', kvstoreDictDelete Sample.ty DICT_RESIZE_ENABLE KvSample.always KvSample.store 0 5 = Some (k', DICT_OK) /\
    slots Sample.ty k' = [∅; KvSample.m7].
Proof.
  destruct (kvstoreDictDelete_correct Sample.ty DICT_RESIZE_ENABLE Sample.cmp_ok Sample.hash_ok
    KvSample.always KvSample.store 0 5 KvSample.m5 KvSample.store_ok) as (k' & Hdel & _ & Hs & _);
    [lia|by rewrite KvSample.store_slots|].
  exists k'. split; [exact Hdel|]. rewrite Hs, KvSample.store_slots. by vm_compute.
Defined.

Lemma kvstoreDictSetAtLink_correct_witness :
  exists k1 bucket, kvstoreDictFindLink Sample.ty DICT_RESIZE_ENABLE KvSample.store 0 9 true = Some (k1, None, bucket) /\
    exists k2 l, kvstoreDictSetAtLink Sample.ty DICT_RESIZE_ENABLE id k1 0 9 90 bucket true = Some (k2, l) /\
      kvstoreSize k2 = 3.
Proof.
  destruct (kvstoreDictSetAtLink_correct Sample.ty DICT_RESIZE_ENABLE Sample.cmp_ok Sample.hash_ok
    id KvSample.store 0 9 90 KvSample.m5 KvSample.store_ok) as (k1 & b & Hf & k2 & l & Hset & _ & _ & Hs);
    [lia|by rewrite KvSample.store_slots|by vm_compute|by vm_compute|].
  exists k1, b. split; [exact Hf|]. exists k2, l. split; [exact Hset|exact Hs].
Defined.

Lemma kvstoreDictTwoPhaseUnlink_correct_witness :
  exists k1 l, kvstoreDictTwoPhaseUnlinkFind Sample.ty DICT_RESIZE_ENABLE KvSample.store 1 7 = Some (k1, l) /\
    kvstoreSize k1 = 2.
Proof.
  destruct (kvstoreDictTwoPhaseUnlink_correct Sample.ty DICT_RESIZE_ENABLE Sample.cmp_ok
    KvSample.always KvSample.store 1 7 KvSample.m7 KvSample.store_ok) as (k1 & l & Hf & _ & _ & Hs & _);
    [lia|by rewrite KvSample.store_slots|].
  exists k1, l. split; [exact Hf|exact Hs].
Defined.

Lemma kvstoreEmpty_correct_witness :
  exists k', kvstoreEmpty KvSample.always KvSample.store = Some k' /\ slots Sample.ty k' = [∅; ∅].
Proof.
  destruct (kvstoreEmpty_correct Sample.ty KvSample.always KvSample.store KvSample.store_ok) as (k' & He & _ & Hs & _).
  exists k'. split; [exact He|exact Hs].
Defined.

Lemma kvstoreCreate_correct_witness :
  match kvstoreCreate (SK := Z) (V := Z) 17 true true with Some _ => False | None => 16 < 17 end.
Proof. exact (kvstoreCreate_correct (SK := Z) (V := Z) Sample.ty 17 true true ltac:(lia)). Defined.

Lemma kvstoreIncrementallyRehash_live_witness :
  exists k' el n', kvstoreIncrementallyRehash Sample.ty DICT_RESIZE_ENABLE 100 KvSample.clock 0 KvSample.store 50 =
    Some (k', el, n') /\ slots Sample.ty k' = [KvSample.m5; KvSample.m7].
Proof.
  destruct (kvstoreIncrementallyRehash_live Sample.ty DICT_RESIZE_ENABLE KvSample.clock
    KvSample.clock_mono KvSample.clock_u64 100 0 60 KvSample.store 50 KvSample.store_ok)
    as (k' & el & n' & Hr & _ & Hs & _); [lia|by vm_compute|lia|].
  exists k', el, n'. split; [exact Hr|]. by rewrite Hs, KvSample.store_slots.
Defined.

Lemma kvstoreMoveDict_correct_witness :
  exists k' dst', kvstoreMoveDict KvSample.store KvSample.free 0 = Some (k', dst') /\
    slots Sample.ty dst' = [KvSample.m5; ∅] /\ non_empty_dicts k' = 2.
Proof.
  destruct (kvstoreMoveDict_correct Sample.ty KvSample.store KvSample.free 0 KvSample.d5 KvSample.store_ok KvSample.free_ok)
    as (k' & dst' & Hm & _ & _ & _ & Hs & _ & _ & Hn & _); [by vm_compute..|].
  exists k', dst'. split; [exact Hm|]. split; [rewrite Hs; by vm_compute|]. rewrite Hn. by vm_compute.
Defined.

Lemma kvstoreFindDictIndexByKeyIndex_correct_witness :
  exists didx m, kvstoreFindDictIndexByKeyIndex KvSample.store 2 = Some didx /\
    slots Sample.ty KvSample.store !! Z.to_nat didx = Some m.
Proof.
  destruct (kvstoreFindDictIndexByKeyIndex_correct Sample.ty KvSample.store 2 KvSample.store_ok)
    as (didx & m & Hf & _ & Hm & _); [by vm_compute|].
  exists didx, m. split; [exact Hf|exact Hm].
Defined.

Lemma kvstoreScan_complete_witness :
  exists k out e, (k, out) ∈ KvSample.run /\ e ∈ out /\ key_of Sample.ty e = 7.
Proof.
  apply (kvstoreScan_complete Sample.ty KvSample.always DictScan.ScanSample.hash_u64 KvSample.run 1 1 7).
  - exact KvSample.kv_run_scans.
  - lia.
  - exact KvSample.run_holds.
Defined.

(** The fallback may return an empty dictionary: here dictionary 0 is allocated without
    keys and the only dictionary that has one is skipped. *)
Example fallback_empty_dict :
  let k := default KvSample.empty2
    (fst <$> kvstoreDictAddRaw Sample.ty DICT_RESIZE_ENABLE KvSample.empty2 1 7 70) in
  kvstoreGetFairRandomDictIndex k (Z.eqb 1) [3] (Some 0) = Some 0 /\ kvstoreDictSize k 0 = Some 0.
Proof. by vm_compute. Qed.

Lemma kvstoreCursor_roundtrip_witness :
  getAndClearDictIndexFromCursor KvSample.store (addDictIndexToCursor KvSample.store 1 12) = (1, 12).
Proof.
  destruct (kvstoreCursor_roundtrip Sample.ty KvSample.store 1 12 KvSample.store_ok) as (Hrt & _);
    [by vm_compute|by vm_compute|exact Hrt].
Defined.

End Kvstore.
