(* ===== verification/Multi.v ===== *)
(** * Transactions and optimistic locking ([redis-stable/src/multi.c])

    MULTI, EXEC, DISCARD, WATCH and UNWATCH, with SELECT and RESET, the queue of a
    transaction, and the watched keys.  A [watchedKey] is shared between the list of its client and the list
    of its key, so it is a cell of a store and both lists hold its address; [None] is the
    use of a freed cell or a failed assertion.  The clients, the keys with their expire
    times and the clock are the part of [struct redisServer] that this code uses.  What a
    data command does to the keys, and the answer of the ACL check, are parameters; the
    accounting of argument memory is left out.  [touched] is a history variable: the
    calls of [touchWatchedKey] so far. *)

From stdpp Require Import gmap.
From S2P Require Import Prelude.

Module Multi.

Definition INT_MAX : Z := 2147483647.

Section Multi.
Context {key cmd : Type} `{Countable key}.

Record watchedKey := WatchedKey { wk_key : key; wk_db : Z; wk_client : Z; wk_expired : bool }.

Inductive command := MULTI | EXEC | DISCARD | WATCH (keys : list key) | UNWATCH
  | SELECT (db : Z) | RESET | DATA (x : cmd).

Inductive reply :=
| Ok | Queued | NestedMulti | DiscardWithoutMulti | ExecWithoutMulti | WatchInsideMulti
| ExecAbortErr | ExecAbort | NullArray | ArrayLen (n : Z) | NoPerm | Rejected | DbRange | ResetStatus
| DataReply (x : cmd).

(** [mstate] with [count] as the length of [ms_commands]. *)
Record multiState := MultiState { ms_commands : list command; ms_alloc_count : Z; ms_executing_cmd : Z }.

Record client := Client {
  f_multi : bool; f_dirty_cas : bool; f_dirty_exec : bool; f_deny_blocking : bool;
  c_db : Z; mstate : multiState; watched_keys : list nat; replies : list reply
}.

Record server := Server {
  keys : gmap (Z * key) (option Z);   (* with the expire time *)
  now : Z;
  loading : bool; allow_access_expired : bool;
  clients : gmap Z client;
  wks : gmap nat watchedKey; next_wk : nat;
  watched : gmap (Z * key) (list nat); (* the [watched_keys] of all databases *)
  watching_clients : Z; in_exec : bool;
  touched : list (Z * key)
}.

(** *** Assignments *)

Definition set_keys (s : server) ks : server :=
  Server ks (now s) (loading s) (allow_access_expired s) (clients s) (wks s) (next_wk s) (watched s)
    (watching_clients s) (in_exec s) (touched s).
Definition set_now (s : server) t : server :=
  Server (keys s) t (loading s) (allow_access_expired s) (clients s) (wks s) (next_wk s) (watched s)
    (watching_clients s) (in_exec s) (touched s).
Definition set_clients (s : server) cs : server :=
  Server (keys s) (now s) (loading s) (allow_access_expired s) cs (wks s) (next_wk s) (watched s)
    (watching_clients s) (in_exec s) (touched s).
Definition set_watch (s : server) ws nx w : server :=
  Server (keys s) (now s) (loading s) (allow_access_expired s) (clients s) ws nx w
    (watching_clients s) (in_exec s) (touched s).
Definition set_watching (s : server) n : server :=
  Server (keys s) (now s) (loading s) (allow_access_expired s) (clients s) (wks s) (next_wk s) (watched s)
    n (in_exec s) (touched s).
Definition set_in_exec (s : server) b : server :=
  Server (keys s) (now s) (loading s) (allow_access_expired s) (clients s) (wks s) (next_wk s) (watched s)
    (watching_clients s) b (touched s).
Definition set_touched (s : server) l : server :=
  Server (keys s) (now s) (loading s) (allow_access_expired s) (clients s) (wks s) (next_wk s) (watched s)
    (watching_clients s) (in_exec s) l.

Definition set_flags (c : client) m dc de db : client :=
  Client m dc de db (c_db c) (mstate c) (watched_keys c) (replies c).
Definition set_mstate (c : client) ms : client :=
  Client (f_multi c) (f_dirty_cas c) (f_dirty_exec c) (f_deny_blocking c) (c_db c) ms (watched_keys c) (replies c).
Definition set_watched_keys (c : client) l : client :=
  Client (f_multi c) (f_dirty_cas c) (f_dirty_exec c) (f_deny_blocking c) (c_db c) (mstate c) l (replies c).
Definition set_db (c : client) db : client :=
  Client (f_multi c) (f_dirty_cas c) (f_dirty_exec c) (f_deny_blocking c) db (mstate c) (watched_keys c) (replies c).
Definition add_reply (c : client) r : client :=
  Client (f_multi c) (f_dirty_cas c) (f_dirty_exec c) (f_deny_blocking c) (c_db c) (mstate c) (watched_keys c)
    (replies c ++ [r]).

Definition upd_client (s : server) (id : Z) (f : client -> client) : option server :=
  c ← clients s !! id; Some (set_clients s (<[id := f c]> (clients s))).
Definition addReply (s : server) (id : Z) (r : reply) : option server := upd_client s id (fun c => add_reply c r).

(** *** The queue *)

Definition initClientMultiState : multiState := MultiState [] 0 (-1).

Definition queueMultiCommand (c : client) (x : command) : client :=
  if f_dirty_cas c || f_dirty_exec c then c
  else
    let ms := mstate c in
    let count := zlen (ms_commands ms) in
    let alloc := if count =? 0 then 2 else ms_alloc_count ms in
    let alloc := if count =? alloc then (if alloc <? INT_MAX / 2 then alloc * 2 else INT_MAX) else alloc in
    set_mstate c (MultiState (ms_commands ms ++ [x]) alloc (ms_executing_cmd ms)).

Definition flagTransaction (c : client) : client :=
  if f_multi c then set_flags c (f_multi c) (f_dirty_cas c) true (f_deny_blocking c) else c.

(** *** Keys *)

Definition dbFind (s : server) (db : Z) (k : key) : bool :=
  match keys s !! (db, k) with Some _ => true | None => false end.

(** [getExpire] is -1 for a key without expire time. *)
Definition keyIsExpired (s : server) (db : Z) (k : key) : bool :=
  if loading s || allow_access_expired s then false
  else match keys s !! (db, k) with
       | Some (Some t) => if t <? 0 then false else now s >? t
       | _ => false
       end.

(** *** Watching *)

Fixpoint already_watched (s : server) (l : list nat) (db : Z) (k : key) : option bool :=
  match l with
  | [] => Some false
  | w :: l =>
    wk ← wks s !! w;
    if (wk_db wk =? db) && bool_decide (k = wk_key wk) then Some true else already_watched s l db k
  end.

Definition watchForKey (s : server) (id : Z) (k : key) : option server :=
  c ← clients s !! id;
  let s := if zlen (watched_keys c) =? 0 then set_watching s (watching_clients s + 1) else s in
  b ← already_watched s (watched_keys c) (c_db c) k;
  if (b : bool) then Some s
  else
    let cl := default [] (watched s !! (c_db c, k)) in
    let w := next_wk s in
    let wk := WatchedKey k (c_db c) id (keyIsExpired s (c_db c) k) in
    let s := set_watch s (<[w := wk]> (wks s)) (S w) (<[(c_db c, k) := cl ++ [w]]> (watched s)) in
    upd_client s id (fun c => set_watched_keys c (watched_keys c ++ [w])).

Fixpoint watch_all (s : server) (id : Z) (ks : list key) : option server :=
  match ks with
  | [] => Some s
  | k :: ks => s ← watchForKey s id k; watch_all s id ks
  end.

(** The loop of [unwatchAllKeys]: [listUnlinkNode] from the list of the key, which goes
    when it is empty, and [listDelNode] from the list of the client. *)
Fixpoint unwatch_loop (s : server) (id : Z) (l : list nat) : option server :=
  match l with
  | [] => Some s
  | w :: l =>
    wk ← wks s !! w;
    cl ← watched s !! (wk_db wk, wk_key wk);
    let cl := filter (fun x => x <> w) cl in
    let m := if zlen cl =? 0 then delete (wk_db wk, wk_key wk) (watched s)
             else <[(wk_db wk, wk_key wk) := cl]> (watched s) in
    s ← upd_client s id (fun c => set_watched_keys c (filter (fun x => x <> w) (watched_keys c)));
    unwatch_loop (set_watch s (delete w (wks s)) (next_wk s) m) id l
  end.

Definition unwatchAllKeys (s : server) (id : Z) : option server :=
  c ← clients s !! id;
  if zlen (watched_keys c) =? 0 then Some s
  else s ← unwatch_loop s id (watched_keys c); Some (set_watching s (watching_clients s - 1)).

Fixpoint expired_loop (s : server) (l : list nat) : option bool :=
  match l with
  | [] => Some false
  | w :: l =>
    wk ← wks s !! w;
    if wk_expired wk then expired_loop s l
    else if keyIsExpired s (wk_db wk) (wk_key wk) then Some true
    else expired_loop s l
  end.

Definition isWatchedKeyExpired (s : server) (id : Z) : option bool :=
  c ← clients s !! id; expired_loop s (watched_keys c).

(** [listNext]: the node after the current one, in the list as it is now. *)
Fixpoint node_after (l : list nat) (w : nat) : option nat :=
  match l with
  | [] => None
  | x :: l => if (x =? w)%nat then head l else node_after l w
  end.

(** The iterator has already moved on to [nx] when the body runs. *)
Fixpoint touch_loop (fuel : nat) (s : server) (db : Z) (k : key) (cur : option nat) : option server :=
  match fuel, cur with
  | _, None => Some s
  | O, _ => None
  | S fuel, Some w =>
    wk ← wks s !! w;
    cl ← watched s !! (db, k);
    let nx := node_after cl w in
    if wk_expired wk then
      if (db =? wk_db wk) && bool_decide (k = wk_key wk) && negb (dbFind s db k) then
        let wk := WatchedKey (wk_key wk) (wk_db wk) (wk_client wk) false in
        touch_loop fuel (set_watch s (<[w := wk]> (wks s)) (next_wk s) (watched s)) db k nx
      else Some s
    else
      s ← upd_client s (wk_client wk) (fun c => set_flags c (f_multi c) true (f_dirty_exec c) (f_deny_blocking c));
      s ← unwatchAllKeys s (wk_client wk);
      touch_loop fuel s db k nx
  end.

Definition touchWatchedKey (s : server) (db : Z) (k : key) : option server :=
  let s := set_touched s (touched s ++ [(db, k)]) in
  match watched s !! (db, k) with
  | None => Some s
  | Some cl => touch_loop (length cl) s db k (head cl)
  end.

(** What happens to one watched key of a database that is emptied or replaced. *)
Definition touch_one_in_db (s : server) (replaced : option Z) (exists_in_emptied : bool) (k : key) (w : nat)
    : option server :=
  wk ← wks s !! w;
  let exists_in_replaced := match replaced with Some r => dbFind s r k | None => false end in
  let expired_in_replaced := match replaced with Some r => keyIsExpired s r k | None => false end in
  let set_expired b :=
    set_watch s (<[w := WatchedKey (wk_key wk) (wk_db wk) (wk_client wk) b]> (wks s)) (next_wk s) (watched s) in
  let dirty := upd_client s (wk_client wk)
    (fun c => set_flags c (f_multi c) true (f_dirty_exec c) (f_deny_blocking c)) in
  if wk_expired wk then
    if negb exists_in_replaced then Some (set_expired false)
    else if expired_in_replaced then Some s
    else dirty
  else if negb exists_in_emptied && expired_in_replaced then Some (set_expired true)
  else dirty.

Fixpoint touch_list_in_db (s : server) (replaced : option Z) (ex : bool) (k : key) (l : list nat) : option server :=
  match l with
  | [] => Some s
  | w :: l => s ← touch_one_in_db s replaced ex k w; touch_list_in_db s replaced ex k l
  end.

Fixpoint touch_keys_in_db (s : server) (emptied : Z) (replaced : option Z) (in_slots : key -> bool)
    (l : list (Z * key * list nat)) : option server :=
  match l with
  | [] => Some s
  | ((db, k), cl) :: l =>
    if negb (db =? emptied) || negb (in_slots k) then touch_keys_in_db s emptied replaced in_slots l
    else
      let ex := dbFind s emptied k in
      if ex || (match replaced with Some r => dbFind s r k | None => false end) then
        s ← touch_list_in_db s replaced ex k cl; touch_keys_in_db s emptied replaced in_slots l
      else touch_keys_in_db s emptied replaced in_slots l
  end.

(** [in_slots] is constantly true when [slots] is [NULL]. *)
Definition touchAllWatchedKeysInDb (s : server) (emptied : Z) (replaced : option Z) (in_slots : key -> bool)
    : option server :=
  touch_keys_in_db s emptied replaced in_slots (map_to_list (watched s)).

(** *** Commands *)

Definition discardTransaction (s : server) (id : Z) : option server :=
  s ← upd_client s id (fun c =>
    set_flags (set_mstate c initClientMultiState) false false false (f_deny_blocking c));
  unwatchAllKeys s id.

Definition multiCommand (s : server) (id : Z) : option server :=
  c ← clients s !! id;
  if f_multi c then addReply s id NestedMulti
  else
    s ← upd_client s id (fun c => set_flags c true (f_dirty_cas c) (f_dirty_exec c) (f_deny_blocking c));
    addReply s id Ok.

Definition discardCommand (s : server) (id : Z) : option server :=
  c ← clients s !! id;
  if negb (f_multi c) then addReply s id DiscardWithoutMulti
  else s ← discardTransaction s id; addReply s id Ok.

Definition execCommandAbort (s : server) (id : Z) : option server :=
  s ← discardTransaction s id; addReply s id ExecAbort.

Definition watchCommand (s : server) (id : Z) (ks : list key) : option server :=
  c ← clients s !! id;
  if f_multi c then addReply s id WatchInsideMulti
  else if f_dirty_cas c then addReply s id Ok
  else s ← watch_all s id ks; addReply s id Ok.

Definition unwatchCommand (s : server) (id : Z) : option server :=
  s ← unwatchAllKeys s id;
  s ← upd_client s id (fun c => set_flags c (f_multi c) false (f_dirty_exec c) (f_deny_blocking c));
  addReply s id Ok.

(** What the data commands do: the keys they write, each with the value it gets
    ([None]: deleted; otherwise the expire time), and whether the ACL admits them. *)
Context (effects : server -> Z -> cmd -> list (Z * key * option (option Z))).
Context (acl : server -> Z -> command -> bool).
(** [server.dbnum]. *)
Context (dbnum : Z).

(** One write, with the [keyModified] that follows it. *)
Definition change_key (s : server) (db : Z) (k : key) (v : option (option Z)) : option server :=
  let s := set_keys s (match v with None => delete (db, k) (keys s) | Some e => <[(db, k) := e]> (keys s) end) in
  touchWatchedKey s db k.

Fixpoint change_keys (s : server) (l : list (Z * key * option (option Z))) : option server :=
  match l with
  | [] => Some s
  | (db, k, v) :: l => s ← change_key s db k v; change_keys s l
  end.

Definition data_command (s : server) (id : Z) (x : cmd) : option server :=
  s ← change_keys s (effects s id x); addReply s id (DataReply x).

(** [selectDb] and the reply, outside cluster mode. *)
Definition selectCommand (s : server) (id db : Z) : option server :=
  if (db <? 0) || (db >=? dbnum) then addReply s id DbRange
  else s ← upd_client s id (fun c => set_db c db); addReply s id Ok.

(** RESET of a normal client: [clearClientConnectionState], as far as the state here
    goes. *)
Definition resetCommand (s : server) (id : Z) : option server :=
  s ← upd_client s id (fun c => set_db c 0);
  s ← discardTransaction s id;
  addReply s id ResetStatus.

(** A queued command; the others are never queued. *)
Definition call_queued (s : server) (id : Z) (x : command) : option server :=
  match x with
  | UNWATCH => unwatchCommand s id
  | SELECT db => selectCommand s id db
  | DATA x => data_command s id x
  | _ => None
  end.

Fixpoint exec_loop (s : server) (id : Z) (j : Z) (l : list command) : option server :=
  match l with
  | [] => Some s
  | x :: l =>
    s ← (if negb (acl s id x) then addReply s id NoPerm
         else
           s ← upd_client s id (fun c => set_mstate c (MultiState (ms_commands (mstate c)) (ms_alloc_count (mstate c)) j));
           call_queued s id x);
    exec_loop s id (j + 1) l
  end.

Definition execCommand (s : server) (id : Z) : option server :=
  c ← clients s !! id;
  if negb (f_multi c) then addReply s id ExecWithoutMulti
  else
    ex ← isWatchedKeyExpired s id;
    s ← (if (ex : bool)
         then upd_client s id (fun c => set_flags c (f_multi c) true (f_dirty_exec c) (f_deny_blocking c))
         else Some s);
    c ← clients s !! id;
    if f_dirty_cas c || f_dirty_exec c then
      s ← addReply s id (if f_dirty_exec c then ExecAbortErr else NullArray);
      discardTransaction s id
    else
      let old_deny_blocking := f_deny_blocking c in
      s ← upd_client s id (fun c => set_flags c (f_multi c) (f_dirty_cas c) (f_dirty_exec c) true);
      s ← unwatchAllKeys s id;
      let s := set_in_exec s true in
      s ← addReply s id (ArrayLen (zlen (ms_commands (mstate c))));
      s ← exec_loop s id 0 (ms_commands (mstate c));
      s ← (if old_deny_blocking then Some s
           else upd_client s id (fun c => set_flags c (f_multi c) (f_dirty_cas c) (f_dirty_exec c) false));
      s ← discardTransaction s id;
      Some (set_in_exec s false).

Definition queueable (x : command) : bool := match x with UNWATCH | SELECT _ | DATA _ => true | _ => false end.

(** The end of [processCommand]. *)
Definition processCommand (s : server) (id : Z) (x : command) : option server :=
  c ← clients s !! id;
  if f_multi c && queueable x then
    s ← upd_client s id (fun c => queueMultiCommand c x);
    addReply s id Queued
  else
    match x with
    | MULTI => multiCommand s id
    | EXEC => execCommand s id
    | DISCARD => discardCommand s id
    | WATCH ks => watchCommand s id ks
    | UNWATCH => unwatchCommand s id
    | SELECT db => selectCommand s id db
    | RESET => resetCommand s id
    | DATA x => data_command s id x
    end.

Definition rejectCommand (s : server) (id : Z) (x : command) : option server :=
  s ← upd_client s id flagTransaction;
  match x with
  | EXEC => execCommandAbort s id
  | _ => addReply s id Rejected
  end.

(** *** Whole databases *)

Fixpoint touch_dbs (n : nat) (s : server) (j : Z) (in_slots : key -> bool) : option server :=
  match n with
  | O => Some s
  | S n => s ← touchAllWatchedKeysInDb s j None in_slots; touch_dbs n s (j + 1) in_slots
  end.

(** -1 stands for all databases. *)
Definition startdb (dbid : Z) : Z := if dbid =? -1 then 0 else dbid.
Definition enddb (dbid : Z) : Z := if dbid =? -1 then dbnum - 1 else dbid.

Definition signalFlushedDb (s : server) (dbid : Z) (in_slots : key -> bool) : option server :=
  touch_dbs (Z.to_nat (enddb dbid - startdb dbid + 1)) s (startdb dbid) in_slots.

(** The number of keys removed, or -1 (EINVAL). *)
Definition emptyData (s : server) (dbid : Z) : option (server * Z) :=
  if (dbid <? -1) || (dbid >=? dbnum) then Some (s, -1)
  else
    s ← signalFlushedDb s dbid (fun _ => true);
    let gone (p : Z * key * option Z) := startdb dbid <= p.1.1 <= enddb dbid in
    Some (set_keys s (filter (fun p => ~ gone p) (keys s)), Z.of_nat (size (filter gone (keys s)))).

Definition swap_db (id1 id2 d : Z) : Z := if d =? id1 then id2 else if d =? id2 then id1 else d.

(** SWAPDB: the keys change places, the watched keys stay; [false]: [C_ERR]. *)
Definition dbSwapDatabases (s : server) (id1 id2 : Z) : option (server * bool) :=
  if (id1 <? 0) || (id1 >=? dbnum) || (id2 <? 0) || (id2 >=? dbnum) then Some (s, false)
  else if id1 =? id2 then Some (s, true)
  else
    s ← touchAllWatchedKeysInDb s id1 (Some id2) (fun _ => true);
    s ← touchAllWatchedKeysInDb s id2 (Some id1) (fun _ => true);
    Some (set_keys s (kmap (fun p => (swap_db id1 id2 p.1, p.2)) (keys s)), true).

(** [unwatchAllKeys] in [freeClient]. *)
Definition freeClient (s : server) (id : Z) : option server :=
  s ← unwatchAllKeys s id; Some (set_clients s (delete id (clients s))).

Definition createClient : client := Client false false false false 0 initClientMultiState [] [].

(** ** The server as a transition system *)

(** What happens: a command of a client, its rejection, a client that comes or goes, or
    something of the server itself (expiry, the replication link, FLUSHDB, the clock). *)
Inductive label := Cmd (id : Z) (x : command) | Reject (id : Z) (x : command) | Connect (id : Z) | Free (id : Z) | Internal.

Inductive step : server -> label -> server -> Prop :=
| step_command s id x s' : processCommand s id x = Some s' -> step s (Cmd id x) s'
| step_reject s id x s' : rejectCommand s id x = Some s' -> step s (Reject id x) s'
| step_connect s id :
  clients s !! id = None -> step s (Connect id) (set_clients s (<[id := createClient]> (clients s)))
| step_free s id s' : freeClient s id = Some s' -> step s (Free id) s'
| step_change s db k v s' : change_key s db k v = Some s' -> step s Internal s'
| step_flush s db s' r : emptyData s db = Some (s', r) -> step s Internal s'
| step_swap s db1 db2 s' r : dbSwapDatabases s db1 db2 = Some (s', r) -> step s Internal s'
| step_time s t : now s <= t -> step s Internal (set_now s t).

Definition init : server := Server ∅ 0 false false ∅ ∅ 0 ∅ 0 false [].

Inductive reachable : server -> Prop :=
| reachable_init : reachable init
| reachable_step s l s' : reachable s -> step s l s' -> reachable s'.

End Multi.

#[global] Arguments watchedKey : clear implicits.
#[global] Arguments command : clear implicits.
#[global] Arguments reply : clear implicits.
#[global] Arguments client : clear implicits.
#[global] Arguments label : clear implicits.
#[global] Arguments server _ _ {_ _}.

(** ** The watched keys *)

Section Proofs.
Context {key cmd : Type} `{Countable key}.
Abbreviation server := (server key cmd).
Abbreviation client := (client key cmd).

(** What a cell is linked to: its key and its client. *)
Definition cell (wk : watchedKey key) : Z * key * Z := (wk_db wk, wk_key wk, wk_client wk).
Definition cells (s : server) : gmap nat (Z * key * Z) := cell <$> wks s.
Definition lists (s : server) : gmap Z (list nat) := watched_keys <$> clients s.

(** Both lists name exactly the cells that belong to them; no client watches a key twice,
    and no key has an empty list. *)
Record winv (wl : gmap Z (list nat)) (cs : gmap nat (Z * key * Z)) (wd : gmap (Z * key) (list nat)) (nx : nat)
    : Prop := Winv {
  w_client : forall id l, wl !! id = Some l -> NoDup l /\ forall w, w ∈ l <-> exists p, cs !! w = Some (p, id);
  w_owner : forall w p id, cs !! w = Some (p, id) -> is_Some (wl !! id) /\ exists l, wd !! p = Some l /\ w ∈ l;
  w_key : forall p l, wd !! p = Some l -> l <> [] /\ NoDup l /\ forall w, w ∈ l -> exists id, cs !! w = Some (p, id);
  w_unique : forall w1 w2 p id, cs !! w1 = Some (p, id) -> cs !! w2 = Some (p, id) -> w1 = w2;
  w_fresh : forall w, (nx <= w)%nat -> cs !! w = None
}.

(** The number of clients with a list. *)
Definition watching (wl : gmap Z (list nat)) : Z := Z.of_nat (size (filter (fun p => p.2 <> []) wl)).

Record inv (s : server) : Prop := Inv {
  inv_watch : winv (lists s) (cells s) (watched s) (next_wk s);
  inv_count : watching_clients s = watching (lists s);
  inv_queue : forall id c, clients s !! id = Some c ->
    Forall (fun x => queueable x = true) (ms_commands (mstate c)) /\
    (f_multi c = false -> ms_commands (mstate c) = [])
}.

(** *** Removing one cell *)

Definition without (w : nat) (l : list nat) : list nat := filter (fun x => x <> w) l.

Lemma elem_of_without w x l : x ∈ without w l <-> x <> w /\ x ∈ l.
Proof. unfold without. by rewrite list_elem_of_filter. Qed.

(** The map of the keys after the cell [w] has left the list of [p]. *)
Definition unlinked (wd : gmap (Z * key) (list nat)) (p : Z * key) (cl : list nat) (w : nat) : gmap (Z * key) (list nat) :=
  if zlen (without w cl) =? 0 then delete p wd else <[p := without w cl]> wd.

Lemma unlinked_Some wd p cl w q l :
  unlinked wd p cl w !! q = Some l <->
  (q = p /\ l = without w cl /\ without w cl <> []) \/ (q <> p /\ wd !! q = Some l).
Proof.
  unfold unlinked. destruct (Z.eqb_spec (zlen (without w cl)) 0) as [Hz|Hz].
  - assert (Hnil : without w cl = []) by (apply nil_length_inv; lia). rewrite lookup_delete_Some, Hnil.
    split; [intros [? ?]; right; by split|]. intros [(_ & _ & ?)|[? ?]]; done.
  - rewrite lookup_insert_Some. split.
    + intros [[<- <-]|[? ?]]; [left|by right]. split_and!; try done. intros Hnil. by rewrite Hnil in Hz.
    + intros [(-> & -> & _)|[? ?]]; [by left|by right].
Qed.

Lemma unlink_winv wl cs wd nx w p id l cl :
  winv wl cs wd nx -> cs !! w = Some (p, id) -> wl !! id = Some l -> wd !! p = Some cl ->
  winv (<[id := without w l]> wl) (delete w cs) (unlinked wd p cl w) nx.
Proof.
  intros [Hc Ho Hk Hu Hf] Hw Hl Hcl. destruct (Hk p cl Hcl) as (Hne & Hnd & Hin). constructor.
  - intros id' l'. rewrite lookup_insert_Some. intros [[<- <-]|[Hid Hl']].
    + destruct (Hc id l Hl) as [Hnd' Hm]. split; [by apply NoDup_filter|]. intros x.
      rewrite elem_of_without, Hm. split.
      * intros [Hx [q Hq]]. exists q. by rewrite lookup_delete_ne.
      * intros [q Hq]. apply lookup_delete_Some in Hq as [? Hq]. split; [done|by exists q].
    + destruct (Hc id' l' Hl') as [Hnd' Hm]. split; [done|]. intros x. rewrite Hm. split.
      * intros [q Hq]. exists q. rewrite lookup_delete_ne; [done|]. intros ->. congruence.
      * intros [q Hq]. apply lookup_delete_Some in Hq as [? Hq]. by exists q.
  - intros x q id' Hx. apply lookup_delete_Some in Hx as [Hxw Hx]. destruct (Ho x q id' Hx) as (Hsome & l' & Hl' & Hin').
    split; [destruct (decide (id = id')) as [->|]; [rewrite lookup_insert_eq; by eexists|by rewrite lookup_insert_ne]|].
    destruct (decide (q = p)) as [->|Hqp].
    + exists (without w cl). rewrite Hl' in Hcl. injection Hcl as ->.
      assert (Hx' : x ∈ without w cl) by (by apply elem_of_without). split; [|done].
      apply unlinked_Some. left. split_and!; try done. intros Hnil. rewrite Hnil in Hx'. by apply not_elem_of_nil in Hx'.
    + exists l'. split; [|done]. apply unlinked_Some. by right.
  - intros q l' Hq. apply unlinked_Some in Hq as [(-> & -> & Hne')|[Hqp Hq]].
    + split_and!; [done|by apply NoDup_filter|]. intros x [Hx Hxin]%elem_of_without.
      destruct (Hin x Hxin) as [id' Hid']. exists id'. by rewrite lookup_delete_ne.
    + destruct (Hk q l' Hq) as (? & ? & Hin'). split_and!; try done. intros x Hx.
      destruct (Hin' x Hx) as [id' Hid']. exists id'. rewrite lookup_delete_ne; [done|]. intros ->. congruence.
  - intros w1 w2 q id' H1 H2. apply lookup_delete_Some in H1 as [_ H1], H2 as [_ H2]. by eapply Hu.
  - intros x Hx. destruct (decide (x = w)) as [->|]; [by rewrite lookup_delete_eq|].
    rewrite lookup_delete_ne by done. by apply Hf.
Qed.

(** *** Adding a cell *)

Lemma link_winv wl cs wd nx p id l :
  winv wl cs wd nx -> wl !! id = Some l -> (forall w, cs !! w <> Some (p, id)) ->
  winv (<[id := l ++ [nx]]> wl) (<[nx := (p, id)]> cs) (<[p := default [] (wd !! p) ++ [nx]]> wd) (S nx).
Proof.
  intros [Hc Ho Hk Hu Hf] Hl Hnew. pose proof (Hf nx (le_n nx)) as Hnx.
  assert (Hold : forall w q i, cs !! w = Some (q, i) -> w <> nx) by (intros w q i Hw ->; congruence).
  assert (Hdef : NoDup (default [] (wd !! p)) /\ forall w, w ∈ default [] (wd !! p) -> exists i, cs !! w = Some (p, i)).
  { destruct (wd !! p) as [cl|] eqn:Hcl; cbn; [by destruct (Hk p cl Hcl) as (_ & ? & ?)|].
    split; [constructor|]. by intros w ?%not_elem_of_nil. }
  destruct Hdef as [Hdnd Hdin]. constructor.
  - intros id' l'. rewrite lookup_insert_Some. intros [[<- <-]|[Hid Hl']].
    + destruct (Hc id l Hl) as [Hnd Hm]. split.
      * apply NoDup_app. split_and!; [done| |by apply NoDup_singleton].
        intros w [q Hq]%Hm ->%list_elem_of_singleton. congruence.
      * intros w. rewrite elem_of_app, list_elem_of_singleton, Hm. split.
        -- intros [[q Hq]| ->]; [exists q; rewrite lookup_insert_ne; [done|by intros <-; congruence]|].
           exists p. by rewrite lookup_insert_eq.
        -- intros [q Hq]. apply lookup_insert_Some in Hq as [[<- _]|[_ Hq]]; [by right|left; by exists q].
    + destruct (Hc id' l' Hl') as [Hnd Hm]. split; [done|]. intros w. rewrite Hm. split.
      * intros [q Hq]. exists q. rewrite lookup_insert_ne; [done|by intros <-; congruence].
      * intros [q Hq]. apply lookup_insert_Some in Hq as [[_ [= _ ?]]|[_ Hq]]; [done|by exists q].
  - intros w q id' Hw. apply lookup_insert_Some in Hw as [[<- [= <- <-]]|[Hne Hw]].
    + rewrite !lookup_insert_eq. split; [by eexists|]. eexists. split; [done|].
      apply elem_of_app. right. by apply list_elem_of_singleton.
    + destruct (Ho w q id' Hw) as (Hsome & l' & Hl' & Hin). split.
      * destruct (decide (id = id')) as [->|]; [rewrite lookup_insert_eq; by eexists|by rewrite lookup_insert_ne].
      * destruct (decide (p = q)) as [->|]; [|exists l'; by rewrite lookup_insert_ne].
        rewrite lookup_insert_eq. eexists. split; [done|]. rewrite Hl'. cbn. apply elem_of_app. by left.
  - intros q l' Hq. apply lookup_insert_Some in Hq as [[<- <-]|[Hne Hq]].
    + split_and!; [by destruct (default [] _)| |].
      * apply NoDup_app. split_and!; [done| |by apply NoDup_singleton].
        intros w [i Hi]%Hdin ->%list_elem_of_singleton. congruence.
      * intros w [Hw| ->%list_elem_of_singleton]%elem_of_app; [|exists id; by rewrite lookup_insert_eq].
        destruct (Hdin w Hw) as [i Hi]. exists i. rewrite lookup_insert_ne; [done|by intros <-; congruence].
    + destruct (Hk q l' Hq) as (? & ? & Hin). split_and!; try done. intros w Hw. destruct (Hin w Hw) as [i Hi].
      exists i. rewrite lookup_insert_ne; [done|by intros <-; congruence].
  - intros w1 w2 q i H1 H2. apply lookup_insert_Some in H1 as [[<- H1]|[? H1]], H2 as [[<- H2]|[? H2]]; try done.
    + injection H1 as <- <-. by apply Hnew in H2.
    + injection H2 as <- <-. by apply Hnew in H1.
    + by eapply Hu.
  - intros w Hw. rewrite lookup_insert_ne by lia. apply Hf. lia.
Qed.

(** *** Unwatching *)

Definition minus (l m : list nat) : list nat := filter (fun x => x ∉ m) l.

Lemma elem_of_minus x l m : x ∈ minus l m <-> (x ∉ m) /\ x ∈ l.
Proof. unfold minus. by rewrite list_elem_of_filter. Qed.

Lemma minus_nil l : minus l [] = l.
Proof.
  unfold minus. induction l as [|x l IH]; [done|]. rewrite filter_cons_True by apply not_elem_of_nil. by rewrite IH.
Qed.

Lemma minus_cons l w m : minus l (w :: m) = minus (without w l) m.
Proof.
  unfold minus, without. rewrite list_filter_filter. apply list_filter_iff. intros x. rewrite not_elem_of_cons. tauto.
Qed.

Lemma minus_self l : minus l l = [].
Proof.
  destruct (minus l l) as [|x r] eqn:Hm; [done|]. assert (Hx : x ∈ minus l l) by (rewrite Hm; left).
  by apply elem_of_minus in Hx as [? ?].
Qed.

Lemma minus_disjoint l m : (forall x, x ∈ m -> x ∉ l) -> minus l m = l.
Proof.
  intros Hd. unfold minus. induction l as [|x l IH]; [done|].
  rewrite filter_cons_True; [|intros Hx; apply (Hd x Hx); left]. f_equal. apply IH. intros y Hy Hin.
  apply (Hd y Hy). by right.
Qed.

(** The list of a key after its cells in [m] are gone. *)
Definition pruned (o : option (list nat)) (m : list nat) : option (list nat) :=
  match o with
  | None => None
  | Some cl => if decide (minus cl m = []) then None else Some (minus cl m)
  end.

Lemma pruned_unlinked wd p cl w q m :
  wd !! p = Some cl -> (forall l, wd !! q = Some l -> w ∈ l -> q = p) ->
  (forall l, wd !! q = Some l -> l <> []) ->
  pruned (unlinked wd p cl w !! q) m = pruned (wd !! q) (w :: m).
Proof.
  intros Hp Hw Hne. destruct (decide (q = p)) as [->|Hqp].
  - rewrite Hp. cbn. rewrite minus_cons. destruct (decide (without w cl = [])) as [Hnil|Hnil].
    + assert (unlinked wd p cl w !! p = None) as ->.
      { unfold unlinked. rewrite Hnil. cbn. apply lookup_delete_eq. }
      rewrite Hnil. by rewrite decide_True by done.
    + by rewrite (proj2 (unlinked_Some wd p cl w p (without w cl)) (or_introl (conj eq_refl (conj eq_refl Hnil)))).
  - assert (Hsame : unlinked wd p cl w !! q = wd !! q).
    { unfold unlinked. destruct (_ =? 0); [by rewrite lookup_delete_ne|by rewrite lookup_insert_ne]. }
    rewrite Hsame. destruct (wd !! q) as [l|] eqn:Hq; [|done]. cbn. rewrite minus_cons.
    assert (without w l = l) as ->; [|done]. unfold without.
    assert (Hnin : w ∉ l) by (intros Hin; by destruct (Hqp (Hw l eq_refl Hin))). clear -Hnin.
    induction l as [|x l IH]; [done|]. apply not_elem_of_cons in Hnin as [? ?].
    rewrite filter_cons_True by congruence. by rewrite IH.
Qed.

Lemma cells_Some (s : server) w wk : wks s !! w = Some wk -> cells s !! w = Some (wk_db wk, wk_key wk, wk_client wk).
Proof. intros Hw. unfold cells. by rewrite lookup_fmap, Hw. Qed.

Lemma cells_inv (s : server) w p id :
  cells s !! w = Some (p, id) -> exists wk, wks s !! w = Some wk /\ p = (wk_db wk, wk_key wk) /\ id = wk_client wk.
Proof.
  unfold cells. rewrite lookup_fmap. destruct (wks s !! w) as [wk|]; [|done]. cbn. intros [= <- <-]. by exists wk.
Qed.

(** The state with one client, the cells and the lists of the keys replaced. *)
Definition unwatched (s : server) (id : Z) (c : client) ws wd : server :=
  set_watch (set_clients s (<[id := c]> (clients s))) ws (next_wk s) wd.

Lemma lists_insert (s : server) id c :
  lists (set_clients s (<[id := c]> (clients s))) = <[id := watched_keys c]> (lists s).
Proof. unfold lists. cbn. by rewrite fmap_insert. Qed.

Lemma unwatch_loop_spec l : forall (s : server) id c,
  winv (lists s) (cells s) (watched s) (next_wk s) -> clients s !! id = Some c ->
  NoDup l -> (forall w, w ∈ l -> w ∈ watched_keys c) ->
  exists ws wd, let s' := unwatched s id (set_watched_keys c (minus (watched_keys c) l)) ws wd in
    unwatch_loop s id l = Some s' /\ winv (lists s') (cells s') wd (next_wk s) /\
    (forall w, ws !! w = if decide (w ∈ l) then None else wks s !! w) /\
    (forall p, wd !! p = pruned (watched s !! p) l).
Proof.
  induction l as [|w l IH]; intros s id c Hi Hc Hnd Hin.
  { exists (wks s), (watched s). cbv zeta. rewrite minus_nil.
    assert (unwatched s id (set_watched_keys c (watched_keys c)) (wks s) (watched s) = s) as ->.
    { unfold unwatched. rewrite insert_id by (by destruct c). by destruct s. }
    split_and!; [done|exact Hi| |].
    - intros w. rewrite decide_False by apply not_elem_of_nil. done.
    - intros p. destruct (watched s !! p) as [cl|] eqn:Hp; [|done]. cbn. rewrite minus_nil.
      rewrite decide_False by (by destruct (w_key _ _ _ _ Hi p cl Hp)). done. }
  apply NoDup_cons in Hnd as [Hwl Hnd]. cbn [unwatch_loop].
  assert (Hlist : lists s !! id = Some (watched_keys c)) by (unfold lists; by rewrite lookup_fmap, Hc).
  destruct (w_client _ _ _ _ Hi id _ Hlist) as [Hndc Hm].
  destruct (proj1 (Hm w) (Hin w ltac:(left))) as [p Hp]. destruct (cells_inv s w p id Hp) as (wk & Hwk & -> & ->).
  rewrite Hwk. mred. destruct (w_owner _ _ _ _ Hi w _ _ Hp) as (_ & cl & Hcl & Hwcl). rewrite Hcl. mred.
  unfold upd_client. rewrite Hc. mred. cbv zeta.
  change (set_watch (set_clients s _) (delete w (wks _)) (next_wk _) _)
    with (unwatched s (wk_client wk) (set_watched_keys c (without w (watched_keys c))) (delete w (wks s))
            (unlinked (watched s) (wk_db wk, wk_key wk) cl w)).
  set (c1 := set_watched_keys c (without w (watched_keys c))). set (s1 := unwatched s (wk_client wk) c1 _ _).
  assert (Hl1 : lists s1 = <[wk_client wk := without w (watched_keys c)]> (lists s)) by apply lists_insert.
  assert (Hc1 : cells s1 = delete w (cells s)) by (unfold cells; cbn; by rewrite fmap_delete).
  destruct (IH s1 (wk_client wk) c1) as (ws & wd & -> & Hi' & Hws & Hwd).
  - rewrite Hl1, Hc1. by apply unlink_winv.
  - cbn. by rewrite lookup_insert_eq.
  - done.
  - intros x Hx. apply elem_of_without. split; [by intros ->|]. apply Hin. by right.
  - exists ws, wd. cbv zeta. rewrite minus_cons.
    assert (Heq : unwatched s1 (wk_client wk) (set_watched_keys c1 (minus (watched_keys c1) l)) ws wd =
      unwatched s (wk_client wk) (set_watched_keys c (minus (without w (watched_keys c)) l)) ws wd).
    { unfold unwatched, s1, unwatched. cbn. by rewrite insert_insert_eq. }
    rewrite <- Heq. split_and!; [done|done| |].
    + intros x. rewrite Hws. cbn. destruct (decide (x = w)) as [->|Hxw].
      * rewrite decide_False by done. rewrite decide_True by left. apply lookup_delete_eq.
      * rewrite lookup_delete_ne by done. destruct (decide (x ∈ l)) as [Hx|Hx].
        -- rewrite decide_True by (by right). done.
        -- rewrite decide_False by (by apply not_elem_of_cons). done.
    + intros q. rewrite Hwd. apply pruned_unlinked; [done| |].
      * intros l' Hq Hwin. destruct (w_key _ _ _ _ Hi q l' Hq) as (_ & _ & Hk). destruct (Hk w Hwin) as [i Hi2]. congruence.
      * intros l' Hq. by destruct (w_key _ _ _ _ Hi q l' Hq).
Qed.

Definition nonempty (l : list nat) : Z := match l with [] => 0 | _ => 1 end.

Lemma watching_delete wl id :
  watching (delete id wl) = watching wl - match wl !! id with Some l => nonempty l | None => 0 end.
Proof.
  unfold watching. rewrite map_filter_delete, map_size_delete.
  destruct (filter (fun p => p.2 <> []) wl !! id) as [l|] eqn:Hf.
  - apply map_lookup_filter_Some in Hf as [Hl Hne]. rewrite Hl. cbn in Hne.
    assert (size (filter (fun p => p.2 <> []) wl) <> 0%nat).
    { intros Hz%map_size_empty_inv. assert (Hf : filter (fun p => p.2 <> []) wl !! id = Some l)
        by (by apply map_lookup_filter_Some). rewrite Hz in Hf. done. }
    destruct l; [done|]. cbn [nonempty]. lia.
  - unfold Datatypes.id. destruct (wl !! id) as [l|] eqn:Hl; [|lia].
    assert (Hnil : l = []); [|subst l; cbn [nonempty]; lia]. destruct l; [done|].
    apply map_lookup_filter_None in Hf as [Hf|Hf]; [congruence|]. exfalso. by apply (Hf _ Hl).
Qed.

Lemma watching_insert wl id l :
  watching (<[id := l]> wl) =
  watching wl - (match wl !! id with Some l => nonempty l | None => 0 end) + nonempty l.
Proof.
  rewrite <- watching_delete, <- insert_delete_eq. unfold watching. destruct l as [|w l].
  - rewrite map_filter_insert_False by (cbn; intros Hn; by apply Hn). rewrite delete_delete_eq. cbn [nonempty]. lia.
  - rewrite map_filter_insert_True by done. rewrite map_size_insert_None; [cbn [nonempty]; lia|].
    apply map_lookup_filter_None. left. apply lookup_delete_eq.
Qed.

Lemma unwatch_spec (s : server) id c :
  inv s -> clients s !! id = Some c ->
  exists ws wd n, let s' := set_watching (unwatched s id (set_watched_keys c []) ws wd) n in
    unwatchAllKeys s id = Some s' /\ inv s' /\
    (forall w, ws !! w = if decide (w ∈ watched_keys c) then None else wks s !! w) /\
    (forall p, wd !! p = pruned (watched s !! p) (watched_keys c)).
Proof.
  intros [Hw Hn Hq] Hc. unfold unwatchAllKeys. rewrite Hc. mred.
  assert (Hl : lists s !! id = Some (watched_keys c)) by (unfold lists; by rewrite lookup_fmap, Hc).
  destruct (unwatch_loop_spec (watched_keys c) s id c Hw Hc) as (ws & wd & Hloop & Hw' & Hws & Hwd);
    [by destruct (w_client _ _ _ _ Hw id _ Hl)|done|]. rewrite minus_self in *.
  assert (Hqueue : forall id' c', clients (unwatched s id (set_watched_keys c []) ws wd) !! id' = Some c' ->
    Forall (fun x => queueable x = true) (ms_commands (mstate c')) /\ (f_multi c' = false -> ms_commands (mstate c') = [])).
  { intros id' c'. cbn. rewrite lookup_insert_Some. intros [[<- <-]|[_ Hc']]; [by apply (Hq id c)|by apply (Hq id' c')]. }
  assert (Hlists : lists (unwatched s id (set_watched_keys c []) ws wd) = <[id := []]> (lists s))
    by (unfold unwatched, lists; cbn; by rewrite fmap_insert).
  destruct (Z.eqb_spec (zlen (watched_keys c)) 0) as [Hz|Hz].
  - assert (Hnil : watched_keys c = []) by (apply nil_length_inv; lia). rewrite Hnil in *.
    injection Hloop as Hloop. exists ws, wd, (watching_clients s). cbv zeta.
    assert (Heq : set_watching (unwatched s id (set_watched_keys c []) ws wd) (watching_clients s) = s)
      by (rewrite <- Hloop; by destruct s). rewrite Heq. by split_and!.
  - rewrite Hloop. mred. exists ws, wd, (watching_clients s - 1). cbv zeta. split_and!; try done.
    constructor; [exact Hw'| |exact Hqueue]. change (lists (set_watching ?a _)) with (lists a).
    rewrite Hlists, watching_insert, Hl, <- Hn. cbn. destruct (watched_keys c); [done|]. cbn [nonempty]. lia.
Qed.

(** *** Dirty clients *)

(** A client that is marked, or still watches the key. *)
Definition dirty (s : server) (id : Z) : Prop := exists c, clients s !! id = Some c /\ f_dirty_cas c = true.
Definition watches (s : server) (id : Z) (p : Z * key) : Prop :=
  exists c w, clients s !! id = Some c /\ w ∈ watched_keys c /\ cells s !! w = Some (p, id).
Definition safe (s : server) (id : Z) (p : Z * key) : Prop := dirty s id \/ watches s id p.

(** No client watches the key since it was already expired. *)
Definition clean (p : Z * key) (s : server) : Prop :=
  forall w wk, wks s !! w = Some wk -> (wk_db wk, wk_key wk) = p -> wk_expired wk = false.

(** What one client may see of the work of others: marks stay, and a watched key stays
    watched unless the client is marked. *)
Record evol (P : Z -> Prop) (s s' : server) : Prop := Evol {
  ev_client : forall id c, P id -> clients s !! id = Some c -> exists c', clients s' !! id = Some c' /\
    f_multi c' = f_multi c /\ f_dirty_exec c' = f_dirty_exec c /\ c_db c' = c_db c /\ mstate c' = mstate c /\
    replies c' = replies c /\ (f_dirty_cas c = true -> f_dirty_cas c' = true);
  ev_safe : forall id p, P id -> safe s id p -> safe s' id p
}.

Lemma evol_refl P s : evol P s s.
Proof. constructor; [|done]. intros id c _ Hc. exists c. by split_and!. Qed.

Lemma evol_trans P s1 s2 s3 : evol P s1 s2 -> evol P s2 s3 -> evol P s1 s3.
Proof.
  intros [H1 H2] [H3 H4]. constructor; [|intros id p Hid Hs; by apply H4, H2].
  intros id c Hid Hc. destruct (H1 id c Hid Hc) as (c1 & Hc1 & ? & ? & ? & ? & ? & Hd1).
  destruct (H3 id c1 Hid Hc1) as (c2 & Hc2 & ? & ? & ? & ? & ? & Hd2). exists c2. split_and!; try congruence. auto.
Qed.

Lemma evol_dirty P s s' id : evol P s s' -> P id -> dirty s id -> dirty s' id.
Proof.
  intros [Hc _] Hid (c & Hc0 & Hd). destruct (Hc id c Hid Hc0) as (c' & Hc' & _ & _ & _ & _ & _ & Hd').
  exists c'. auto.
Qed.

(** A change of the clients outside [P] that leaves the cells alone. *)
Lemma evol_clients (P : Z -> Prop) (s s' : server) :
  cells s' = cells s -> (forall id, P id -> clients s' !! id = clients s !! id) -> evol P s s'.
Proof.
  intros Hcells Hc. constructor.
  - intros id c Hid Hc0. exists c. rewrite Hc by done. by split_and!.
  - intros id p Hid [(c & Hc0 & Hd)|(c & w & Hc0 & Hw & Hp)].
    + left. exists c. by rewrite Hc.
    + right. exists c, w. by rewrite Hc, Hcells.
Qed.

Lemma inv_upd (s : server) id c c' :
  inv s -> clients s !! id = Some c -> watched_keys c' = watched_keys c ->
  Forall (fun x => queueable x = true) (ms_commands (mstate c')) /\ (f_multi c' = false -> ms_commands (mstate c') = []) ->
  inv (set_clients s (<[id := c']> (clients s))).
Proof.
  intros [Hw Hn Hq] Hc Hl Hq'. assert (Heq : lists (set_clients s (<[id := c']> (clients s))) = lists s).
  { rewrite lists_insert, Hl. apply insert_id. unfold lists. by rewrite lookup_fmap, Hc. }
  constructor; [by rewrite Heq|by rewrite Heq|]. intros id' c2. cbn. rewrite lookup_insert_Some.
  intros [[<- <-]|[_ Hc2]]; [done|by apply (Hq id')].
Qed.

Lemma clean_sub p (s s' : server) :
  (forall w wk, wks s' !! w = Some wk -> wks s !! w = Some wk) -> clean p s -> clean p s'.
Proof. intros Hsub Hcl w wk Hw. apply Hcl with w. by apply Hsub. Qed.

(** Marking a client and unwatching its keys. *)
Lemma mark_spec (s : server) id c :
  inv s -> clients s !! id = Some c ->
  let c1 := set_flags c (f_multi c) true (f_dirty_exec c) (f_deny_blocking c) in
  exists ws wd n, let s' := set_watching (unwatched s id (set_watched_keys c1 []) ws wd) n in
    unwatchAllKeys (set_clients s (<[id := c1]> (clients s))) id = Some s' /\ inv s' /\
    (forall w, ws !! w = if decide (w ∈ watched_keys c) then None else wks s !! w) /\
    (forall p, wd !! p = pruned (watched s !! p) (watched_keys c)) /\
    evol (fun _ => True) s s' /\ dirty s' id.
Proof.
  intros Hi Hc c1. pose proof (inv_upd s id c c1 Hi Hc eq_refl (inv_queue s Hi id c Hc)) as Hi1.
  destruct (unwatch_spec _ id c1 Hi1) as (ws & wd & n & Hun & Hi2 & Hws & Hwd); [cbn; by rewrite lookup_insert_eq|].
  exists ws, wd, n. cbv zeta.
  assert (Heq : set_watching (unwatched (set_clients s (<[id := c1]> (clients s))) id (set_watched_keys c1 []) ws wd) n =
    set_watching (unwatched s id (set_watched_keys c1 []) ws wd) n) by (unfold unwatched; cbn; by rewrite insert_insert_eq).
  cbv zeta in Hun, Hi2. rewrite Heq in *. split_and!; try done.
  2: { eexists. cbn. rewrite lookup_insert_eq. by split. }
  constructor.
  - intros id' c' _ Hc'. cbn. destruct (decide (id = id')) as [<-|Hne].
    + rewrite lookup_insert_eq. eexists. split; [done|]. rewrite Hc in Hc'. injection Hc' as <-. by split_and!.
    + rewrite lookup_insert_ne by done. exists c'. by split_and!.
  - intros id' p _ Hs. destruct (decide (id = id')) as [<-|Hne].
    { left. eexists. cbn. rewrite lookup_insert_eq. by split. }
    destruct Hs as [(c' & Hc' & Hd)|(c' & w & Hc' & Hw & Hp)].
    + left. exists c'. cbn. by rewrite lookup_insert_ne.
    + right. exists c', w. cbn. rewrite lookup_insert_ne by done. split_and!; try done.
      unfold cells in *. cbn. rewrite lookup_fmap, Hws in *. rewrite decide_False; [done|]. intros Hin.
      assert (Hl : lists s !! id = Some (watched_keys c)) by (unfold lists; by rewrite lookup_fmap, Hc).
      destruct (w_client _ _ _ _ (inv_watch s Hi) id _ Hl) as [_ Hm]. apply Hm in Hin as [q Hq].
      unfold cells in Hq. rewrite lookup_fmap in Hq. congruence.
Qed.

(** *** Touching a key *)

Lemma node_after_app pre w suf : w ∉ pre -> node_after (pre ++ w :: suf) w = head suf.
Proof.
  induction pre as [|x pre IH]; intros Hn; cbn; [by rewrite Nat.eqb_refl|].
  apply not_elem_of_cons in Hn as [Hne Hn]. rewrite (proj2 (Nat.eqb_neq _ _)) by congruence. by apply IH.
Qed.

(** Of the cells of one client, the list of a key has only one. *)
Lemma minus_client (s : server) p w id c pre suf :
  inv s -> clients s !! id = Some c -> watched s !! p = Some (pre ++ w :: suf) -> cells s !! w = Some (p, id) ->
  minus (pre ++ w :: suf) (watched_keys c) = pre ++ suf.
Proof.
  intros [Hi _ _] Hc Hp Hw. destruct (w_key _ _ _ _ Hi p _ Hp) as (_ & Hnd & Hin).
  assert (Hl : lists s !! id = Some (watched_keys c)) by (unfold lists; by rewrite lookup_fmap, Hc).
  destruct (w_client _ _ _ _ Hi id _ Hl) as [_ Hm].
  assert (Hother : forall x, x ∈ pre ++ suf -> x ∉ watched_keys c).
  { intros x Hx [q Hq]%Hm. assert (Hx' : x ∈ pre ++ w :: suf)
      by (apply elem_of_app in Hx as [?|?]; apply elem_of_app; [by left|right; by right]).
    destruct (Hin x Hx') as [i Hi']. assert (q = p) as -> by congruence. assert (x = w) as -> by (by apply (w_unique _ _ _ _ Hi x w p id)).
    rewrite NoDup_app in Hnd. destruct Hnd as (_ & Hd & Hnd). apply NoDup_cons in Hnd as [Hns _].
    apply elem_of_app in Hx as [Hx|Hx]; [apply (Hd w Hx); left|done]. }
  unfold minus. rewrite filter_app, filter_cons_False by (intros Hn; apply Hn, Hm; by exists p).
  rewrite <- filter_app. fold (minus (pre ++ suf) (watched_keys c)). apply minus_disjoint. intros x Hx Hin'.
  by apply (Hother x).
Qed.

Lemma cells_expired (s : server) w wk b :
  wks s !! w = Some wk ->
  cells (set_watch s (<[w := WatchedKey (wk_key wk) (wk_db wk) (wk_client wk) b]> (wks s)) (next_wk s) (watched s)) = cells s.
Proof. intros Hw. unfold cells. cbn. rewrite fmap_insert. apply insert_id. by rewrite lookup_fmap, Hw. Qed.

Lemma inv_expired (s : server) w wk b :
  inv s -> wks s !! w = Some wk ->
  inv (set_watch s (<[w := WatchedKey (wk_key wk) (wk_db wk) (wk_client wk) b]> (wks s)) (next_wk s) (watched s)).
Proof. intros [Hi Hn Hq] Hw. constructor; [rewrite (cells_expired s w wk b Hw); exact Hi|exact Hn|exact Hq]. Qed.

(** The rest of the loop, from the node [w] on. *)
Record touch_result (p : Z * key) (suf : list nat) (s s' : server) : Prop := TouchResult {
  tr_inv : inv s';
  tr_keys : keys s' = keys s;
  tr_now : now s' = now s;
  tr_touched : touched s' = touched s;
  tr_evol : evol (fun _ => True) s s';
  tr_clean : forall q, clean q s -> clean q s';
  tr_dirty : clean p s -> forall w id, w ∈ suf -> cells s !! w = Some (p, id) -> dirty s' id
}.

Lemma touch_loop_spec db k suf : forall fuel (s : server) pre,
  inv s -> (length suf <= fuel)%nat -> (suf <> [] -> watched s !! (db, k) = Some (pre ++ suf)) ->
  exists s', touch_loop fuel s db k (head suf) = Some s' /\ touch_result (db, k) suf s s'.
Proof.
  induction suf as [|w suf IH]; intros fuel s pre Hi Hf Hp.
  { exists s. split; [by destruct fuel|]. constructor; try done; [apply evol_refl|]. by intros _ w id ?%not_elem_of_nil. }
  destruct fuel as [|fuel]; [cbn in Hf; lia|]. cbn [touch_loop head]. specialize (Hp ltac:(done)). cbn in Hf.
  destruct (w_key _ _ _ _ (inv_watch s Hi) _ _ Hp) as (_ & Hnd & Hin).
  destruct (Hin w) as [id Hcell]; [apply elem_of_app; right; left|].
  destruct (cells_inv s w _ id Hcell) as (wk & Hwk & [= Hdb Hk] & Hid). rewrite Hwk, Hp. mred. cbv zeta.
  assert (Hwpre : w ∉ pre).
  { rewrite NoDup_app in Hnd. destruct Hnd as (_ & Hd & _). intros Hx. apply (Hd w Hx). left. }
  rewrite node_after_app by done. destruct (wk_expired wk) eqn:Hexp.
  - assert (Hnc : ~ clean (db, k) s) by (intros Hcl; rewrite (Hcl w wk Hwk) in Hexp; [done|by rewrite Hdb, Hk]).
    destruct (_ && negb (dbFind s db k)).
    + set (s1 := set_watch s _ _ _). pose proof (cells_expired s w wk false Hwk) as Hc1. fold s1 in Hc1.
      destruct (IH fuel s1 (pre ++ [w])) as (s' & -> & [Hi' Hk' Hn' Ht' He' Hcl' _]);
        [by apply inv_expired|lia|intros _; cbn; by rewrite <- app_assoc|].
      exists s'. split; [done|]. constructor; try done.
      * eapply evol_trans; [|exact He']. by apply evol_clients.
      * intros q Hq. apply Hcl'. intros x xk Hx. cbn in Hx. apply lookup_insert_Some in Hx as [[<- <-]|[_ Hx]]; [done|].
        by apply (Hq x).
    + exists s. split; [done|]. constructor; try done. apply evol_refl.
  - destruct (w_owner _ _ _ _ (inv_watch s Hi) w _ _ Hcell) as ([l Hl] & _).
    unfold lists in Hl. rewrite lookup_fmap in Hl. destruct (clients s !! id) as [c|] eqn:Hc; [|done]. clear Hl.
    rewrite <- Hid. unfold upd_client. rewrite Hc. mred.
    destruct (mark_spec s id c Hi Hc) as (ws & wd & n & -> & Hi2 & Hws & Hwd & Hev & Hdirty). mred.
    set (s2 := set_watching _ n) in *.
    destruct (IH fuel s2 pre) as (s' & -> & [Hi' Hk' Hn' Ht' He' Hcl' Hd']); [done|lia| |].
    { intros Hne. change (watched s2) with wd. rewrite Hwd, Hp. cbn [pruned].
      rewrite (minus_client s (db, k) w id c pre suf Hi Hc Hp Hcell).
      rewrite decide_False; [done|]. by destruct pre. }
    assert (Hsub : forall x xk, wks s2 !! x = Some xk -> wks s !! x = Some xk).
    { intros x xk. change (wks s2) with ws. rewrite Hws. by destruct (decide _). }
    exists s'. split; [done|]. constructor; try done.
    + by eapply evol_trans.
    + intros q Hq. apply Hcl'. by eapply clean_sub.
    + intros Hcl x i Hx Hxc. apply elem_of_cons in Hx as [->|Hx].
      * assert (i = id) as -> by congruence. by apply (evol_dirty (fun _ => True) s2).
      * apply (Hd' (clean_sub _ s s2 Hsub Hcl) x); [done|]. unfold cells in Hxc |- *. change (wks s2) with ws.
        rewrite lookup_fmap, Hws in *. rewrite decide_False; [done|]. intros Hxin.
        assert (Hm : x ∈ minus (pre ++ w :: suf) (watched_keys c)).
        { rewrite (minus_client s (db, k) w id c pre suf Hi Hc Hp Hcell). apply elem_of_app. by right. }
        by apply elem_of_minus in Hm as [? _].
Qed.

Lemma touch_spec (s : server) db k :
  inv s -> exists s', touchWatchedKey s db k = Some s' /\ inv s' /\ keys s' = keys s /\ now s' = now s /\
    touched s' = touched s ++ [(db, k)] /\ evol (fun _ => True) s s' /\ (forall q, clean q s -> clean q s') /\
    (clean (db, k) s -> forall id, safe s id (db, k) -> dirty s' id).
Proof.
  intros Hi. unfold touchWatchedKey. set (s1 := set_touched s _).
  assert (Hi1 : inv s1) by (by destruct Hi).
  assert (He1 : evol (fun _ => True) s s1) by (by apply evol_clients).
  change (watched s1) with (watched s). destruct (watched s !! (db, k)) as [cl|] eqn:Hp.
  - destruct (touch_loop_spec db k cl (length cl) s1 []) as (s' & -> & [Hi' Hk' Hn' Ht' He' Hcl' Hd']);
      [done|lia|done|].
    exists s'. split_and!; try done; [by eapply evol_trans|].
    intros Hcl id [Hd|(c & w & Hc & Hw & Hcell)]; [by apply (evol_dirty _ s1 s' id He')|].
    destruct (w_owner _ _ _ _ (inv_watch s Hi) w _ _ Hcell) as (_ & l & Hl & Hin). apply (Hd' Hcl w); [congruence|done].
  - exists s1. split_and!; try done. intros Hcl id [Hd|(c & w & Hc & Hw & Hcell)]; [done|].
    destruct (w_owner _ _ _ _ (inv_watch s Hi) w _ _ Hcell) as (_ & l & Hl & Hin). congruence.
Qed.

(** *** What an operation of one client does to the others *)

(** The client [id] keeps its mark and its watch on [p], and is marked when [p] is
    touched. *)
Record guard (id : Z) (p : Z * key) (s s' : server) : Prop := Guard {
  g_touched : exists new, touched s' = touched s ++ new /\ (p ∈ new -> clean p s -> safe s id p -> dirty s' id);
  g_dirty : dirty s id -> dirty s' id;
  g_safe : safe s id p -> safe s' id p
}.

(** An operation of client [a]; [own]: it also keeps the watches of [a] itself. *)
Record op (a : Z) (own : bool) (s s' : server) : Prop := Op {
  op_inv : inv s';
  op_guard : forall id p, id <> a \/ own = true -> guard id p s s';
  op_tidy : forall q, clean q s -> clean q s'
}.

Lemma guard_trans id p s1 s2 s3 :
  (clean p s1 -> clean p s2) -> guard id p s1 s2 -> guard id p s2 s3 -> guard id p s1 s3.
Proof.
  intros Ht [(n1 & Hn1 & Hd1) Hk1 Hs1] [(n2 & Hn2 & Hd2) Hk2 Hs2]. constructor; [|auto|auto].
  exists (n1 ++ n2). split; [by rewrite Hn2, Hn1, app_assoc|]. intros [Hp|Hp]%elem_of_app Hc Hs; auto.
Qed.

Lemma op_trans a own s1 s2 s3 : op a own s1 s2 -> op a own s2 s3 -> op a own s1 s3.
Proof.
  intros [H1 G1 T1] [H2 G2 T2]. constructor; [done| |auto]. intros id p Hid.
  eapply guard_trans; [apply T1|by apply G1|by apply G2].
Qed.

Lemma op_weaken a s s' : op a true s s' -> op a false s s'.
Proof. intros [Hi Hg Ht]. constructor; try done. intros id p [?|?]; [apply Hg; by left|done]. Qed.

Lemma op_refl a own s : inv s -> op a own s s.
Proof. intros Hi. constructor; try done. intros id p _. constructor; try done. exists []. split; [by rewrite app_nil_r|]. by intros ?%not_elem_of_nil. Qed.

Lemma evol_guard id p s s' new :
  evol (fun i => i = id) s s' -> touched s' = touched s ++ new ->
  (p ∈ new -> clean p s -> safe s id p -> dirty s' id) -> guard id p s s'.
Proof.
  intros He Ht Hd. constructor; [by exists new| |].
  - intros Hdirty. by apply (evol_dirty _ s s' id He).
  - intros Hs. by apply (ev_safe _ _ _ He).
Qed.

(** Marks, flags, queue and replies of a client. *)
Lemma upd_op (s : server) a c f own :
  inv s -> clients s !! a = Some c -> watched_keys (f c) = watched_keys c ->
  Forall (fun x => queueable x = true) (ms_commands (mstate (f c))) /\
    (f_multi (f c) = false -> ms_commands (mstate (f c)) = []) ->
  (own = true -> f_dirty_cas c = true -> f_dirty_cas (f c) = true) ->
  upd_client s a f = Some (set_clients s (<[a := f c]> (clients s))) /\
  op a own s (set_clients s (<[a := f c]> (clients s))).
Proof.
  intros Hi Hc Hl Hq Hd. unfold upd_client. rewrite Hc. mred. split; [done|].
  constructor; [by apply (inv_upd s a c)| |done]. intros id p Hid.
  assert (Hclient : forall i c0, clients s !! i = Some c0 -> i = id -> exists c',
    <[a := f c]> (clients s) !! i = Some c' /\ watched_keys c' = watched_keys c0 /\
    (f_dirty_cas c0 = true -> f_dirty_cas c' = true)).
  { intros i c0 Hc0 ->. destruct (decide (a = id)) as [->|Hne].
    - rewrite lookup_insert_eq. rewrite Hc in Hc0. injection Hc0 as <-. exists (f c). split_and!; try done.
      destruct Hid as [?|Hown]; [done|by apply Hd].
    - rewrite lookup_insert_ne by done. by exists c0. }
  constructor.
  - exists []. split; [by rewrite app_nil_r|]. by intros ?%not_elem_of_nil.
  - intros (c0 & Hc0 & Hd0). destruct (Hclient id c0 Hc0 eq_refl) as (c' & Hc' & _ & Hd'). exists c'. auto.
  - intros [(c0 & Hc0 & Hd0)|(c0 & w & Hc0 & Hw & Hp)];
      destruct (Hclient id c0 Hc0 eq_refl) as (c' & Hc' & Hl' & Hd'); [left; exists c'; auto|right].
    exists c', w. rewrite Hl'. by split_and!.
Qed.

Lemma unwatch_op (s : server) a c :
  inv s -> clients s !! a = Some c ->
  exists s', unwatchAllKeys s a = Some s' /\ op a false s s' /\ keys s' = keys s /\ now s' = now s /\
    clients s' = <[a := set_watched_keys c []]> (clients s).
Proof.
  intros Hi Hc. destruct (unwatch_spec s a c Hi Hc) as (ws & wd & n & -> & Hi' & Hws & Hwd).
  eexists. split; [done|]. split_and!; try done. constructor; [done| |].
  - intros id p [Hne|?]; [|done]. apply evol_guard with (new := []); [|by rewrite app_nil_r|by intros ?%not_elem_of_nil].
    constructor.
    + intros i c0 -> Hc0. exists c0. cbn. rewrite lookup_insert_ne by done. by split_and!.
    + intros i q -> [(c0 & Hc0 & Hd)|(c0 & w & Hc0 & Hw & Hq)].
      * left. exists c0. cbn. by rewrite lookup_insert_ne.
      * right. exists c0, w. cbn. rewrite lookup_insert_ne by done. split_and!; try done.
        unfold cells in *. cbn. rewrite lookup_fmap, Hws in *. rewrite decide_False; [done|]. intros Hin.
        assert (Hl : lists s !! a = Some (watched_keys c)) by (unfold lists; by rewrite lookup_fmap, Hc).
        destruct (w_client _ _ _ _ (inv_watch s Hi) a _ Hl) as [_ Hm]. apply Hm in Hin as [q' Hq'].
        unfold cells in Hq'. rewrite lookup_fmap in Hq'. congruence.
  - intros q. apply clean_sub. intros w wk. cbn. rewrite Hws. by destruct (decide _).
Qed.

Lemma touch_op (s : server) a db k :
  inv s -> exists s', touchWatchedKey s db k = Some s' /\ op a true s s' /\ keys s' = keys s /\ now s' = now s /\
    evol (fun _ => True) s s'.
Proof.
  intros Hi. destruct (touch_spec s db k Hi) as (s' & -> & Hi' & Hk & Hn & Ht & He & Hcl & Hd).
  exists s'. split_and!; try done. constructor; try done. intros id p _.
  apply evol_guard with (new := [(db, k)]); [|done|].
  - destruct He as [He1 He2]. constructor; [intros i c _; by apply He1|intros i q _; by apply He2].
  - intros ->%list_elem_of_singleton Hc Hs. by apply Hd.
Qed.

(** ** Commands *)

Context (effects : server -> Z -> cmd -> list (Z * key * option (option Z))).
Context (acl : server -> Z -> command key cmd -> bool) (dbnum : Z).

Lemma keys_op (s : server) a ks : inv s -> op a true s (set_keys s ks).
Proof.
  intros Hi. constructor; [by destruct Hi| |done]. intros id p _.
  apply evol_guard with (new := []); [by apply evol_clients|by rewrite app_nil_r|by intros ?%not_elem_of_nil].
Qed.

Lemma change_op (s : server) a db k v :
  inv s -> exists s', change_key s db k v = Some s' /\ op a true s s' /\ evol (fun _ => True) s s'.
Proof.
  intros Hi. unfold change_key. cbv zeta. set (s1 := set_keys s _).
  assert (H1 : op a true s s1) by (by apply keys_op).
  destruct (touch_op s1 a db k (op_inv _ _ _ _ H1)) as (s' & -> & H2 & _ & _ & He).
  exists s'. split_and!; [done|by eapply op_trans|]. eapply evol_trans; [|exact He]. by apply evol_clients.
Qed.

Lemma change_keys_op l : forall (s : server) a,
  inv s -> exists s', change_keys s l = Some s' /\ op a true s s' /\ evol (fun _ => True) s s'.
Proof.
  induction l as [|[[db k] v] l IH]; intros s a Hi; cbn [change_keys].
  { exists s. split_and!; [done|by apply op_refl|apply evol_refl]. }
  destruct (change_op s a db k v Hi) as (s1 & -> & H1 & He1). mred.
  destruct (IH s1 a (op_inv _ _ _ _ H1)) as (s' & -> & H2 & He2).
  exists s'. split_and!; [done|by eapply op_trans|by eapply evol_trans].
Qed.

(** The client after an operation: a reply more, and otherwise as [kept] says. *)
Definition kept (c c' : client) (rs : list (reply cmd)) : Prop :=
  replies c' = replies c ++ rs /\ f_multi c' = f_multi c /\ ms_commands (mstate c') = ms_commands (mstate c).

Lemma reply_op (s : server) a c r :
  inv s -> clients s !! a = Some c ->
  exists s', addReply s a r = Some s' /\ op a true s s' /\ keys s' = keys s /\
    clients s' = <[a := add_reply c r]> (clients s).
Proof.
  intros Hi Hc. unfold addReply.
  destruct (upd_op s a c (fun c => add_reply c r) true Hi Hc) as [-> Hop]; try done; [exact (inv_queue s Hi a c Hc)|].
  by eexists.
Qed.

Lemma data_op (s : server) a c x :
  inv s -> clients s !! a = Some c ->
  exists s' c', data_command effects s a x = Some s' /\ op a true s s' /\ clients s' !! a = Some c' /\
    kept c c' [DataReply x].
Proof.
  intros Hi Hc. unfold data_command.
  destruct (change_keys_op (effects s a x) s a Hi) as (s1 & -> & H1 & He). mred.
  destruct (ev_client _ _ _ He a c I Hc) as (c1 & Hc1 & Hm & _ & _ & Hms & Hr & _).
  destruct (reply_op s1 a c1 (DataReply x) (op_inv _ _ _ _ H1) Hc1) as (s' & -> & H2 & _ & Hcl).
  exists s', (add_reply c1 (DataReply x)). split_and!; [done|by eapply op_trans|by rewrite Hcl, lookup_insert_eq|].
  unfold kept. cbn. by rewrite Hr, Hm, Hms.
Qed.

Lemma unwatchCommand_op (s : server) a c :
  inv s -> clients s !! a = Some c ->
  exists s' c', unwatchCommand s a = Some s' /\ op a false s s' /\ clients s' !! a = Some c' /\ kept c c' [Ok].
Proof.
  intros Hi Hc. unfold unwatchCommand. destruct (unwatch_op s a c Hi Hc) as (s1 & -> & H1 & _ & _ & Hcl1). mred.
  assert (Hc1 : clients s1 !! a = Some (set_watched_keys c [])) by (by rewrite Hcl1, lookup_insert_eq).
  destruct (upd_op s1 a _ (fun c => set_flags c (f_multi c) false (f_dirty_exec c) (f_deny_blocking c)) false
    (op_inv _ _ _ _ H1) Hc1) as [-> H2]; try done; [exact (inv_queue s Hi a c Hc)|]. mred.
  edestruct reply_op as (s' & -> & H3 & _ & Hcl3); [apply H2|cbn; by rewrite lookup_insert_eq|].
  eexists _, _. split_and!; [done| |by rewrite Hcl3, lookup_insert_eq|done].
  eapply op_trans; [exact H1|]. eapply op_trans; [exact H2|]. by apply op_weaken.
Qed.

Lemma discard_op (s : server) a c :
  inv s -> clients s !! a = Some c ->
  exists s' c', discardTransaction s a = Some s' /\ op a false s s' /\ keys s' = keys s /\
    clients s' = <[a := c']> (clients s) /\ replies c' = replies c /\ f_multi c' = false /\ f_dirty_cas c' = false /\
    f_dirty_exec c' = false /\ watched_keys c' = [] /\ ms_commands (mstate c') = [].
Proof.
  intros Hi Hc. unfold discardTransaction.
  destruct (upd_op s a c (fun c => set_flags (set_mstate c initClientMultiState) false false false (f_deny_blocking c)) false
    Hi Hc) as [-> H1]; try done. mred.
  edestruct unwatch_op as (s' & -> & H2 & Hk2 & _ & Hcl2); [apply H1|cbn; by rewrite lookup_insert_eq|].
  eexists _, _. split_and!; [done|by eapply op_trans|done|rewrite Hcl2; cbn; by rewrite insert_insert_eq|done..].
Qed.

Lemma select_op (s : server) a c db :
  inv s -> clients s !! a = Some c ->
  exists s' c' r, selectCommand dbnum s a db = Some s' /\ op a true s s' /\ clients s' !! a = Some c' /\ kept c c' [r].
Proof.
  intros Hi Hc. unfold selectCommand. destruct (_ || _).
  - destruct (reply_op s a c DbRange Hi Hc) as (s' & -> & H1 & _ & Hcl). eexists _, _, _.
    split_and!; [done|done|by rewrite Hcl, lookup_insert_eq|done].
  - destruct (upd_op s a c (fun c => set_db c db) true Hi Hc) as [-> H1]; try done; [exact (inv_queue s Hi a c Hc)|]. mred.
    edestruct reply_op as (s' & -> & H2 & _ & Hcl); [apply H1|cbn; by rewrite lookup_insert_eq|].
    eexists _, _, _. split_and!; [done|by eapply op_trans|by rewrite Hcl, lookup_insert_eq|done].
Qed.

Lemma reset_op (s : server) a c :
  inv s -> clients s !! a = Some c -> exists s', resetCommand s a = Some s' /\ op a false s s'.
Proof.
  intros Hi Hc. unfold resetCommand.
  destruct (upd_op s a c (fun c => set_db c 0) true Hi Hc) as [-> H1]; try done; [exact (inv_queue s Hi a c Hc)|]. mred.
  edestruct discard_op as (s2 & c2 & -> & H2 & _ & Hcl2 & _); [apply H1|cbn; by rewrite lookup_insert_eq|]. mred.
  edestruct reply_op as (s' & -> & H3 & _); [apply H2|by rewrite Hcl2, lookup_insert_eq|].
  exists s'. split; [done|]. eapply op_trans; [by apply op_weaken|]. eapply op_trans; [done|by apply op_weaken].
Qed.

(** Every queued command gives one reply. *)
Lemma exec_loop_op l : forall (s : server) a c j,
  inv s -> clients s !! a = Some c -> Forall (fun x => queueable x = true) l ->
  exists s' c' rs, exec_loop effects acl dbnum s a j l = Some s' /\ op a false s s' /\ clients s' !! a = Some c' /\
    kept c c' rs /\ length rs = length l.
Proof.
  induction l as [|x l IH]; intros s a c j Hi Hc Hq; cbn [exec_loop].
  { exists s, c, []. split_and!; try done; [by apply op_refl|unfold kept; by rewrite app_nil_r]. }
  apply Forall_cons in Hq as [Hx Hq].
  assert (Hone : exists s1 c1 r, (if negb (acl s a x) then addReply s a NoPerm
      else s ← upd_client s a (fun c => set_mstate c (MultiState (ms_commands (mstate c)) (ms_alloc_count (mstate c)) j));
           call_queued effects dbnum s a x) = Some s1 /\ op a false s s1 /\ clients s1 !! a = Some c1 /\ kept c c1 [r]).
  { destruct (negb (acl s a x)).
    - destruct (reply_op s a c NoPerm Hi Hc) as (s1 & -> & H1 & _ & Hcl). eexists _, _, _.
      split_and!; [done|by apply op_weaken|by rewrite Hcl, lookup_insert_eq|done].
    - destruct (upd_op s a c (fun c => set_mstate c (MultiState (ms_commands (mstate c)) (ms_alloc_count (mstate c)) j)) true
        Hi Hc) as [-> H1]; try done; [exact (inv_queue s Hi a c Hc)|]. mred.
      set (s1 := set_clients s _). assert (Hc1 : clients s1 !! a = Some (set_mstate c (MultiState (ms_commands (mstate c))
        (ms_alloc_count (mstate c)) j))) by (cbn; by rewrite lookup_insert_eq).
      destruct x; try done; cbn [call_queued].
      + destruct (unwatchCommand_op s1 a _ (op_inv _ _ _ _ H1) Hc1) as (s2 & c2 & -> & H2 & Hc2 & Hk2).
        exists s2, c2, Ok. split_and!; [done|eapply op_trans; [by apply op_weaken|done]|done|done].
      + destruct (select_op s1 a _ db (op_inv _ _ _ _ H1) Hc1) as (s2 & c2 & r & -> & H2 & Hc2 & Hk2).
        exists s2, c2, r. split_and!; [done|by apply op_weaken; eapply op_trans|done|done].
      + destruct (data_op s1 a _ x (op_inv _ _ _ _ H1) Hc1) as (s2 & c2 & -> & H2 & Hc2 & Hk2).
        exists s2, c2, (DataReply x). split_and!; [done|by apply op_weaken; eapply op_trans|done|done]. }
  destruct Hone as (s1 & c1 & r & -> & H1 & Hc1 & Hr1 & Hm1 & Hq1). mred.
  destruct (IH s1 a c1 (j + 1) (op_inv _ _ _ _ H1) Hc1 Hq) as (s' & c' & rs & -> & H2 & Hc' & (Hr2 & Hm2 & Hq2) & Hlen).
  exists s', c', (r :: rs). split_and!; [done|by eapply op_trans|done| |cbn; by rewrite Hlen].
  unfold kept. rewrite Hr2, Hr1, Hm2, Hq2, <- app_assoc. by split_and!.
Qed.

(** *** EXEC *)

Lemma expired_loop_spec (s : server) l :
  (forall w, w ∈ l -> is_Some (wks s !! w)) -> exists b, expired_loop s l = Some b.
Proof.
  induction l as [|w l IH]; intros Hl; [by exists false|]. cbn [expired_loop].
  destruct (Hl w ltac:(left)) as [wk ->]. mred.
  destruct (IH ltac:(intros x Hx; apply Hl; by right)) as [b Hb]. rewrite Hb.
  destruct (wk_expired wk); [by exists b|]. destruct (keyIsExpired _ _ _); [by exists true|by exists b].
Qed.

Lemma client_cells (s : server) id c w :
  inv s -> clients s !! id = Some c -> w ∈ watched_keys c -> is_Some (wks s !! w).
Proof.
  intros Hi Hc Hw. assert (Hl : lists s !! id = Some (watched_keys c)) by (unfold lists; by rewrite lookup_fmap, Hc).
  destruct (w_client _ _ _ _ (inv_watch s Hi) id _ Hl) as [_ Hm]. apply Hm in Hw as [p Hp].
  destruct (cells_inv s w p id Hp) as (wk & -> & _). by eexists.
Qed.

Lemma isWatchedKeyExpired_spec (s : server) id c :
  inv s -> clients s !! id = Some c -> exists b, isWatchedKeyExpired s id = Some b.
Proof.
  intros Hi Hc. unfold isWatchedKeyExpired. rewrite Hc. mred. apply expired_loop_spec.
  intros w Hw. by apply (client_cells s id c).
Qed.

Lemma exec_abort_op (s : server) a c b :
  inv s -> clients s !! a = Some c -> f_multi c = true -> isWatchedKeyExpired s a = Some b ->
  f_dirty_cas c || f_dirty_exec c || b = true ->
  exists s' c', execCommand effects acl dbnum s a = Some s' /\ op a false s s' /\ keys s' = keys s /\
    clients s' !! a = Some c' /\
    replies c' = replies c ++ [if f_dirty_exec c then ExecAbortErr else NullArray] /\
    f_multi c' = false /\ ms_commands (mstate c') = [].
Proof.
  intros Hi Hc Hm Hb Hd. unfold execCommand. rewrite Hc. mred. rewrite Hm, Hb. cbn [negb]. mred.
  assert (Hmark : exists s1 c1, (if b then upd_client s a (fun c => set_flags c (f_multi c) true (f_dirty_exec c) (f_deny_blocking c))
      else Some s) = Some s1 /\ op a true s s1 /\ keys s1 = keys s /\ clients s1 !! a = Some c1 /\
      f_dirty_cas c1 = f_dirty_cas c || b /\ f_dirty_exec c1 = f_dirty_exec c /\ replies c1 = replies c).
  { destruct b.
    - destruct (upd_op s a c (fun c => set_flags c (f_multi c) true (f_dirty_exec c) (f_deny_blocking c)) true Hi Hc)
        as [-> H1]; try done; [exact (inv_queue s Hi a c Hc)|].
      eexists _, _. split_and!; [done|done|done|cbn; by rewrite lookup_insert_eq|by rewrite orb_true_r|done|done].
    - exists s, c. rewrite orb_false_r. by split_and!; [|apply op_refl|..]. }
  destruct Hmark as (s1 & c1 & -> & H1 & Hk1 & Hc1 & Hcas & Hex & Hr). mred. rewrite Hc1. mred.
  rewrite Hcas, Hex. replace (f_dirty_cas c || b || f_dirty_exec c) with true
    by (rewrite <- Hd; by destruct (f_dirty_cas c), b, (f_dirty_exec c)).
  destruct (reply_op s1 a c1 (if f_dirty_exec c then ExecAbortErr else NullArray) (op_inv _ _ _ _ H1) Hc1)
    as (s2 & -> & H2 & Hk2 & Hcl2). mred.
  destruct (discard_op s2 a (add_reply c1 (if f_dirty_exec c then ExecAbortErr else NullArray)))
    as (s3 & c3 & -> & H3 & Hk3 & Hcl3 & Hr3 & Hm3 & _ & _ & _ & Hms3);
    [apply H2|by rewrite Hcl2, lookup_insert_eq|].
  exists s3, c3. split_and!; try done; try congruence.
  - eapply op_trans; [by apply op_weaken|]. eapply op_trans; [by apply op_weaken|done].
  - by rewrite Hcl3, lookup_insert_eq.
  - rewrite Hr3. cbn. by rewrite Hr.
Qed.

Lemma in_exec_op (s : server) a own b : inv s -> op a own s (set_in_exec s b).
Proof.
  intros Hi. constructor; [by destruct Hi| |done]. intros id p _.
  apply evol_guard with (new := []); [by apply evol_clients|by rewrite app_nil_r|by intros ?%not_elem_of_nil].
Qed.

Lemma exec_run_op (s : server) a c :
  inv s -> clients s !! a = Some c -> f_multi c = true -> isWatchedKeyExpired s a = Some false ->
  f_dirty_cas c || f_dirty_exec c = false ->
  exists s' c' rs, execCommand effects acl dbnum s a = Some s' /\ op a false s s' /\ clients s' !! a = Some c' /\
    replies c' = replies c ++ ArrayLen (zlen (ms_commands (mstate c))) :: rs /\
    length rs = length (ms_commands (mstate c)) /\
    f_multi c' = false /\ ms_commands (mstate c') = [] /\ watched_keys c' = [] /\ in_exec s' = false.
Proof.
  intros Hi Hc Hm Hb Hd. unfold execCommand. rewrite Hc. mred. rewrite Hm, Hb. cbn [negb]. mred.
  rewrite Hc. mred. rewrite Hd.
  destruct (upd_op s a c (fun c => set_flags c (f_multi c) (f_dirty_cas c) (f_dirty_exec c) true) true Hi Hc)
    as [-> H1]; try done; [exact (inv_queue s Hi a c Hc)|]. mred. set (s1 := set_clients s _) in *.
  set (c1 := set_flags c _ _ _ true) in *.
  destruct (unwatch_op s1 a c1 (op_inv _ _ _ _ H1)) as (s2 & -> & H2 & _ & _ & Hcl2);
    [cbn; by rewrite lookup_insert_eq|]. mred.
  pose proof (in_exec_op s2 a false true (op_inv _ _ _ _ H2)) as H3. set (s3 := set_in_exec s2 true) in *.
  destruct (reply_op s3 a (set_watched_keys c1 []) (ArrayLen (zlen (ms_commands (mstate c)))) (op_inv _ _ _ _ H3))
    as (s4 & -> & H4 & _ & Hcl4); [cbn; by rewrite Hcl2, lookup_insert_eq|]. mred.
  destruct (exec_loop_op (ms_commands (mstate c)) s4 a _ 0 (op_inv _ _ _ _ H4)
    ltac:(rewrite Hcl4; apply lookup_insert_eq) (proj1 (inv_queue s Hi a c Hc)))
    as (s5 & c5 & rs & -> & H5 & Hc5 & (Hr5 & Hm5 & Hq5) & Hlen). mred.
  assert (Hdb : exists s6 c6, (if f_deny_blocking c then Some s5
      else upd_client s5 a (fun c => set_flags c (f_multi c) (f_dirty_cas c) (f_dirty_exec c) false)) = Some s6 /\
      op a false s5 s6 /\ clients s6 !! a = Some c6 /\ replies c6 = replies c5).
  { destruct (f_deny_blocking c); [exists s5, c5; by split_and!; [|apply op_refl, H5|..]|].
    destruct (upd_op s5 a c5 (fun c => set_flags c (f_multi c) (f_dirty_cas c) (f_dirty_exec c) false) false
      (op_inv _ _ _ _ H5) Hc5) as [-> H6]; try done; [exact (inv_queue s5 (op_inv _ _ _ _ H5) a c5 Hc5)|].
    eexists _, _. split_and!; [done|done|cbn; by rewrite lookup_insert_eq|done]. }
  destruct Hdb as (s6 & c6 & -> & H6 & Hc6 & Hr6). mred.
  destruct (discard_op s6 a c6 (op_inv _ _ _ _ H6) Hc6) as (s7 & c7 & -> & H7 & _ & Hcl7 & Hr7 & Hm7 & _ & _ & Hw7 & Hq7).
  mred. pose proof (in_exec_op s7 a false false (op_inv _ _ _ _ H7)) as H8.
  eexists _, c7, rs. split_and!; try done.
  - eapply op_trans; [apply op_weaken, H1|]. eapply op_trans; [exact H2|]. eapply op_trans; [exact H3|].
    eapply op_trans; [apply op_weaken, H4|]. eapply op_trans; [exact H5|]. eapply op_trans; [exact H6|].
    eapply op_trans; [exact H7|exact H8].
  - cbn. by rewrite Hcl7, lookup_insert_eq.
  - rewrite Hr7, Hr6, Hr5. cbn. by rewrite <- app_assoc.
Qed.

(** *** WATCH *)

(** An operation that touches nothing: marks and watches stay. *)
Record quiet (s s' : server) : Prop := Quiet {
  q_touched : touched s' = touched s;
  q_keys : keys s' = keys s;
  q_dirty : forall id, dirty s id -> dirty s' id;
  q_watches : forall id p, watches s id p -> watches s' id p
}.

Lemma quiet_trans s1 s2 s3 : quiet s1 s2 -> quiet s2 s3 -> quiet s1 s3.
Proof. intros [] []. constructor; auto; congruence. Qed.

Lemma quiet_guard id p s s' : quiet s s' -> guard id p s s'.
Proof.
  intros [Ht _ Hd Hw]. constructor; [|auto|intros [?|?]; [left|right]; auto].
  exists []. split; [by rewrite app_nil_r|]. by intros ?%not_elem_of_nil.
Qed.

Lemma already_watched_spec (s : server) l db k :
  (forall w, w ∈ l -> is_Some (wks s !! w)) ->
  exists b, already_watched s l db k = Some b /\
    (b = true <-> exists w wk, w ∈ l /\ wks s !! w = Some wk /\ wk_db wk = db /\ wk_key wk = k).
Proof.
  induction l as [|w l IH]; intros Hl; cbn [already_watched].
  { exists false. split; [done|]. split; [done|]. by intros (w & wk & ?%not_elem_of_nil & _). }
  destruct (Hl w ltac:(left)) as [wk Hwk]. rewrite Hwk. mred.
  destruct (IH ltac:(intros x Hx; apply Hl; by right)) as (b & -> & Hb).
  destruct ((wk_db wk =? db) && bool_decide (k = wk_key wk)) eqn:Heq.
  - apply andb_true_iff in Heq as [Hdb%Z.eqb_eq Hk%bool_decide_eq_true]. exists true. split; [done|]. split; [|done].
    intros _. exists w, wk. split_and!; try done. left.
  - exists b. split; [done|]. rewrite Hb. split.
    + intros (x & xk & Hx & Hr). exists x, xk. split; [by right|done].
    + intros (x & xk & Hx & Hxk & Hdb & Hk). apply elem_of_cons in Hx as [->|Hx]; [|by exists x, xk].
      assert (xk = wk) as -> by congruence. rewrite Hdb, Hk, Z.eqb_refl, bool_decide_true in Heq; done.
Qed.

(** The state with a new cell for the key [k] of client [a]. *)
Definition linked (s : server) (a : Z) (c : client) (k : key) (n : Z) (b : bool) : server :=
  set_clients
    (set_watch (set_watching s n) (<[next_wk s := WatchedKey k (c_db c) a b]> (wks s)) (S (next_wk s))
      (<[(c_db c, k) := default [] (watched s !! (c_db c, k)) ++ [next_wk s]]> (watched s)))
    (<[a := set_watched_keys c (watched_keys c ++ [next_wk s])]> (clients s)).

Lemma linked_cells (s : server) a c k n b :
  cells (linked s a c k n b) = <[next_wk s := ((c_db c, k), a)]> (cells s).
Proof. unfold cells. cbn. by rewrite fmap_insert. Qed.

Lemma linked_inv (s : server) a c k b :
  inv s -> clients s !! a = Some c -> (forall w, cells s !! w <> Some ((c_db c, k), a)) ->
  inv (linked s a c k (if zlen (watched_keys c) =? 0 then watching_clients s + 1 else watching_clients s) b).
Proof.
  intros [Hw Hn Hq] Hc Hnew.
  assert (Hl : lists s !! a = Some (watched_keys c)) by (unfold lists; by rewrite lookup_fmap, Hc).
  pose proof (link_winv _ _ _ _ (c_db c, k) a _ Hw Hl Hnew) as Hw'. set (n := if _ =? _ then _ else _).
  assert (Hl' : lists (linked s a c k n b) = <[a := watched_keys c ++ [next_wk s]]> (lists s))
    by (unfold lists; cbn; by rewrite fmap_insert).
  constructor; [by rewrite Hl', linked_cells| |].
  - rewrite Hl', watching_insert, Hl, <- Hn. cbn [watching_clients linked set_clients set_watch set_watching].
    unfold n. destruct (watched_keys c) as [|w0 l0]; [cbn [nonempty app]; rewrite Z.eqb_refl; lia|].
    rewrite (proj2 (Z.eqb_neq _ _)) by (rewrite length_cons; lia). cbn [nonempty app]. lia.
  - intros id c0. cbn. rewrite lookup_insert_Some. intros [[<- <-]|[_ Hc0]]; [exact (Hq a c Hc)|by apply (Hq id)].
Qed.

Lemma linked_quiet (s : server) a c k n b :
  inv s -> clients s !! a = Some c -> quiet s (linked s a c k n b).
Proof.
  intros [Hw _ _] Hc. constructor; [done|done| |].
  - intros id (c0 & Hc0 & Hd). destruct (decide (a = id)) as [<-|Hne].
    + eexists. cbn. rewrite lookup_insert_eq. split; [done|]. rewrite Hc in Hc0. by injection Hc0 as <-.
    + exists c0. cbn. by rewrite lookup_insert_ne.
  - intros id p (c0 & w & Hc0 & Hin & Hp).
    assert (Hp' : cells (linked s a c k n b) !! w = Some (p, id)).
    { rewrite linked_cells, lookup_insert_ne; [done|]. intros <-. by rewrite (w_fresh _ _ _ _ Hw) in Hp. }
    destruct (decide (a = id)) as [<-|Hne].
    + exists (set_watched_keys c (watched_keys c ++ [next_wk s])), w. split_and!; [cbn; by rewrite lookup_insert_eq| |done].
      rewrite Hc in Hc0. injection Hc0 as <-. apply elem_of_app. by left.
    + exists c0, w. split_and!; [cbn; by rewrite lookup_insert_ne|done|done].
Qed.

Lemma watchForKey_spec (s : server) a c k :
  inv s -> clients s !! a = Some c ->
  exists s' c', watchForKey s a k = Some s' /\ inv s' /\ quiet s s' /\ clients s' !! a = Some c' /\
    kept c c' [] /\ c_db c' = c_db c /\ watches s' a (c_db c, k).
Proof.
  intros Hi Hc. unfold watchForKey. rewrite Hc. mred. cbv zeta.
  assert (Hl : lists s !! a = Some (watched_keys c)) by (unfold lists; by rewrite lookup_fmap, Hc).
  destruct (w_client _ _ _ _ (inv_watch s Hi) a _ Hl) as [Hnd Hm].
  set (n := if zlen (watched_keys c) =? 0 then watching_clients s + 1 else watching_clients s).
  assert (Hs1 : (if zlen (watched_keys c) =? 0 then set_watching s (watching_clients s + 1) else s) = set_watching s n)
    by (unfold n; destruct (_ =? 0); [done|by destruct s]).
  rewrite Hs1. destruct (already_watched_spec (set_watching s n) (watched_keys c) (c_db c) k) as (b & -> & Hb).
  { intros w Hin. by apply (client_cells s a c). }
  mred. destruct b.
  - destruct (proj1 Hb eq_refl) as (w & wk & Hin & Hwk & Hdb & Hk). exists (set_watching s n), c.
    assert (Hnw : n = watching_clients s).
    { unfold n. destruct (Z.eqb_spec (zlen (watched_keys c)) 0) as [Hz|]; [|done].
      rewrite (nil_length_inv (watched_keys c)) in Hin by lia. by apply not_elem_of_nil in Hin. }
    rewrite Hnw. assert (set_watching s (watching_clients s) = s) as -> by (by destruct s).
    split_and!; try done; [by unfold kept; rewrite app_nil_r|]. exists c, w. split_and!; try done.
    assert (Hcell : exists p, cells s !! w = Some (p, a)) by (by apply Hm). destruct Hcell as [p Hp].
    rewrite Hp. pose proof (cells_Some s w wk Hwk) as Hp2. rewrite Hp in Hp2. congruence.
  - assert (Hnew : forall w, cells s !! w <> Some ((c_db c, k), a)).
    { intros w Hw'. assert (Hin : w ∈ watched_keys c) by (apply Hm; by eexists).
      destruct (cells_inv s w _ a Hw') as (wk' & Hwk' & [= Hdb Hk] & _).
      assert (false = true); [|done]. apply Hb. exists w, wk'. by split_and!. }
    unfold upd_client. cbn [clients set_watch set_watching]. rewrite Hc. mred.
    exists (linked s a c k n (keyIsExpired (set_watching s n) (c_db c) k)), (set_watched_keys c (watched_keys c ++ [next_wk s])).
    split_and!; [done|by apply linked_inv|by apply linked_quiet|cbn; by rewrite lookup_insert_eq|
      unfold kept; by rewrite app_nil_r|done|].
    eexists _, (next_wk s). split_and!; [cbn; by rewrite lookup_insert_eq| |by rewrite linked_cells, lookup_insert_eq].
    apply elem_of_app. right. by apply list_elem_of_singleton.
Qed.

Lemma watch_all_spec ks : forall (s : server) a c,
  inv s -> clients s !! a = Some c ->
  exists s' c', watch_all s a ks = Some s' /\ inv s' /\ quiet s s' /\ clients s' !! a = Some c' /\
    kept c c' [] /\ (forall k, k ∈ ks -> watches s' a (c_db c, k)).
Proof.
  induction ks as [|k ks IH]; intros s a c Hi Hc; cbn [watch_all].
  { exists s, c. split_and!; try done; [unfold kept; by rewrite app_nil_r|]. by intros k ?%not_elem_of_nil. }
  destruct (watchForKey_spec s a c k Hi Hc) as (s1 & c1 & -> & Hi1 & Hq1 & Hc1 & (Hr1 & Hm1 & Hms1) & Hdb & Hw). mred.
  destruct (IH s1 a c1 Hi1 Hc1) as (s' & c' & -> & Hi' & Hq' & Hc' & (Hr' & Hm' & Hms') & Hall).
  exists s', c'. split_and!; try done; [by eapply quiet_trans| |].
  - unfold kept. rewrite Hr', Hr1, Hm', Hms', !app_nil_r. by split_and!.
  - intros k' [->|Hk]%elem_of_cons; [by apply (q_watches _ _ Hq')|]. rewrite <- Hdb. by apply Hall.
Qed.

(** *** The other commands *)

Lemma reply_quiet (s : server) a r s' : addReply s a r = Some s' -> quiet s s'.
Proof.
  unfold addReply, upd_client. destruct (clients s !! a) as [c|] eqn:Hc; mred; [|done]. intros [= <-].
  assert (Hcl : forall id c0, clients s !! id = Some c0 -> exists c', <[a := add_reply c r]> (clients s) !! id = Some c' /\
    f_dirty_cas c' = f_dirty_cas c0 /\ watched_keys c' = watched_keys c0).
  { intros id c0 Hc0. destruct (decide (a = id)) as [<-|Hne].
    - rewrite lookup_insert_eq. eexists. split; [done|]. rewrite Hc in Hc0. by injection Hc0 as <-.
    - rewrite lookup_insert_ne by done. by exists c0. }
  constructor; [done|done| |].
  - intros id (c0 & Hc0 & Hd). destruct (Hcl id c0 Hc0) as (c' & Hc' & Hd' & _). exists c'. split; [done|congruence].
  - intros id p (c0 & w & Hc0 & Hw & Hp). destruct (Hcl id c0 Hc0) as (c' & Hc' & _ & Hl). exists c', w.
    rewrite Hl. by split_and!.
Qed.

(** What a command that keeps the watches of its client does. *)
Definition keeps (s s' : server) : Prop := inv s' /\ forall id p, guard id p s s'.

Lemma op_keeps a s s' : op a true s s' -> keeps s s'.
Proof. intros [Hi Hg _]. split; [done|]. intros id p. apply Hg. by right. Qed.

Lemma multi_op (s : server) a c :
  inv s -> clients s !! a = Some c ->
  exists s' c', multiCommand s a = Some s' /\ op a true s s' /\ keys s' = keys s /\ clients s' !! a = Some c' /\
    f_multi c' = true /\ replies c' = replies c ++ [if f_multi c then NestedMulti else Ok].
Proof.
  intros Hi Hc. unfold multiCommand. rewrite Hc. mred. destruct (f_multi c) eqn:Hm.
  - destruct (reply_op s a c NestedMulti Hi Hc) as (s' & -> & H1 & Hk & Hcl). exists s', (add_reply c NestedMulti).
    split_and!; try done. by rewrite Hcl, lookup_insert_eq.
  - destruct (upd_op s a c (fun c => set_flags c true (f_dirty_cas c) (f_dirty_exec c) (f_deny_blocking c)) true Hi Hc)
      as [-> H1]; try done.
    { split; [apply (inv_queue s Hi a c Hc)|done]. }
    mred. edestruct reply_op as (s' & -> & H2 & Hk & Hcl); [apply H1|cbn; by rewrite lookup_insert_eq|].
    eexists _, _. split_and!; [done|by eapply op_trans|done|by rewrite Hcl, lookup_insert_eq|done|done].
Qed.

Lemma discardCommand_op (s : server) a c :
  inv s -> clients s !! a = Some c -> exists s', discardCommand s a = Some s' /\ op a false s s' /\ keys s' = keys s.
Proof.
  intros Hi Hc. unfold discardCommand. rewrite Hc. mred. destruct (f_multi c); cbn [negb].
  - destruct (discard_op s a c Hi Hc) as (s1 & c1 & -> & H1 & Hk1 & Hcl1 & _). mred.
    edestruct reply_op as (s' & -> & H2 & Hk2 & _); [apply H1|by rewrite Hcl1, lookup_insert_eq|].
    exists s'. split_and!; [done|eapply op_trans; [done|by apply op_weaken]|congruence].
  - destruct (reply_op s a c DiscardWithoutMulti Hi Hc) as (s' & -> & H1 & Hk & _). exists s'.
    split_and!; [done|by apply op_weaken|done].
Qed.

Lemma watchCommand_keeps (s : server) a c ks :
  inv s -> clients s !! a = Some c ->
  exists s', watchCommand s a ks = Some s' /\ keeps s s' /\ keys s' = keys s /\
    (f_multi c = false -> forall k, k ∈ ks -> safe s' a (c_db c, k)).
Proof.
  intros Hi Hc. unfold watchCommand. rewrite Hc. mred. destruct (f_multi c).
  { destruct (reply_op s a c WatchInsideMulti Hi Hc) as (s' & -> & H1 & Hk & _). exists s'.
    split_and!; [done|by eapply op_keeps|done|done]. }
  destruct (f_dirty_cas c) eqn:Hd.
  - destruct (reply_op s a c Ok Hi Hc) as (s' & -> & H1 & Hk & Hcl). exists s'.
    split_and!; [done|by eapply op_keeps|done|]. intros _ k _. left. exists (add_reply c Ok).
    by rewrite Hcl, lookup_insert_eq.
  - destruct (watch_all_spec ks s a c Hi Hc) as (s1 & c1 & -> & Hi1 & Hq1 & Hc1 & _ & Hall). mred.
    destruct (reply_op s1 a c1 Ok Hi1 Hc1) as (s' & Hr & H2 & Hk & _).
    pose proof (quiet_trans _ _ _ Hq1 (reply_quiet _ _ _ _ Hr)) as Hq. rewrite Hr. exists s'.
    split_and!; [done|split; [apply H2|intros id p; by apply quiet_guard]|by rewrite (q_keys _ _ Hq)|].
    intros _ k Hk'. right. apply (q_watches _ _ (reply_quiet _ _ _ _ Hr)). by apply Hall.
Qed.

Lemma queue_op (s : server) a c x :
  inv s -> clients s !! a = Some c -> f_multi c = true -> queueable x = true ->
  exists s', (s ← upd_client s a (fun c => queueMultiCommand c x); addReply s a Queued) = Some s' /\ op a true s s' /\
    keys s' = keys s.
Proof.
  intros Hi Hc Hm Hx. destruct (inv_queue s Hi a c Hc) as [Hq _].
  assert (Hf : watched_keys (queueMultiCommand c x) = watched_keys c /\
    f_dirty_cas (queueMultiCommand c x) = f_dirty_cas c /\ f_multi (queueMultiCommand c x) = true /\
    Forall (fun x => queueable x = true) (ms_commands (mstate (queueMultiCommand c x)))).
  { unfold queueMultiCommand. destruct (_ || _); split_and!; try done. apply Forall_app. by split; [|constructor]. }
  destruct Hf as (Hf1 & Hf2 & Hf3 & Hf4).
  destruct (upd_op s a c (fun c => queueMultiCommand c x) true Hi Hc) as [-> H1]; [done|split; congruence|congruence|]. mred.
  edestruct reply_op as (s' & -> & H2 & Hk & _); [apply H1|cbn; by rewrite lookup_insert_eq|].
  exists s'. split_and!; [done|by eapply op_trans|done].
Qed.

Lemma reject_op (s : server) a c x :
  inv s -> clients s !! a = Some c ->
  exists s', rejectCommand s a x = Some s' /\ op a (match x with EXEC => false | _ => true end) s s' /\ keys s' = keys s.
Proof.
  intros Hi Hc. unfold rejectCommand.
  assert (Hf : watched_keys (flagTransaction c) = watched_keys c /\ mstate (flagTransaction c) = mstate c /\
    f_dirty_cas (flagTransaction c) = f_dirty_cas c /\ f_multi (flagTransaction c) = f_multi c)
    by (unfold flagTransaction; by destruct (f_multi c) eqn:?).
  destruct Hf as (Hf1 & Hf2 & Hf3 & Hf4).
  destruct (upd_op s a c flagTransaction true Hi Hc) as [-> H1];
    [done|rewrite Hf2, Hf4; exact (inv_queue s Hi a c Hc)|congruence|]. mred.
  assert (Hc1 : clients (set_clients s (<[a := flagTransaction c]> (clients s))) !! a = Some (flagTransaction c))
    by (cbn; by rewrite lookup_insert_eq).
  destruct x; try (destruct (reply_op _ a _ Rejected (op_inv _ _ _ _ H1) Hc1) as (s' & -> & H2 & Hk & _); exists s';
    split_and!; [done|by eapply op_trans|done]).
  unfold execCommandAbort. destruct (discard_op _ a _ (op_inv _ _ _ _ H1) Hc1) as (s2 & c2 & -> & H2 & Hk2 & Hcl2 & _). mred.
  edestruct reply_op as (s' & -> & H3 & Hk3 & _); [apply H2|by rewrite Hcl2, lookup_insert_eq|].
  exists s'. split_and!; [done| |by rewrite Hk3, Hk2]. eapply op_trans; [by apply op_weaken|].
  eapply op_trans; [done|by apply op_weaken].
Qed.

(** *** Emptying a database *)

(** What the scan keeps: everything but marks and the flags of expired cells. *)
Record calm (s s' : server) : Prop := Calm {
  cm_inv : inv s';
  cm_keys : keys s' = keys s;
  cm_expired : forall db k, keyIsExpired s' db k = keyIsExpired s db k;
  cm_touched : touched s' = touched s;
  cm_cells : cells s' = cells s;
  cm_lists : lists s' = lists s;
  cm_dirty : forall id, dirty s id -> dirty s' id
}.

Lemma calm_refl s : inv s -> calm s s.
Proof. by constructor. Qed.

Lemma calm_trans s1 s2 s3 : calm s1 s2 -> calm s2 s3 -> calm s1 s3.
Proof. intros [] []. constructor; auto; try congruence. Qed.

Lemma calm_watches s s' id p : calm s s' -> watches s id p -> watches s' id p.
Proof.
  intros Hc (c & w & Hcl & Hw & Hp). pose proof (cm_lists _ _ Hc) as Hl. unfold lists in Hl.
  assert (Hl' : (watched_keys <$> clients s') !! id = Some (watched_keys c)) by (by rewrite Hl, lookup_fmap, Hcl).
  rewrite lookup_fmap in Hl'. destruct (clients s' !! id) as [c'|] eqn:Hc'; [|done]. injection Hl' as Hl'.
  exists c', w. rewrite (cm_cells _ _ Hc), Hl'. by split_and!.
Qed.

Lemma calm_guard s s' id p : calm s s' -> guard id p s s'.
Proof.
  intros Hc. constructor; [|apply Hc|intros [?|?]; [left; by apply Hc|right; by apply (calm_watches s)]].
  exists []. split; [by rewrite app_nil_r, (cm_touched _ _ Hc)|]. by intros ?%not_elem_of_nil.
Qed.

Lemma calm_mark (s : server) a c :
  inv s -> clients s !! a = Some c ->
  let s' := set_clients s (<[a := set_flags c (f_multi c) true (f_dirty_exec c) (f_deny_blocking c)]> (clients s)) in
  calm s s' /\ dirty s' a.
Proof.
  intros Hi Hc s'. split; [|eexists; cbn; rewrite lookup_insert_eq; by split].
  assert (Hl : lists s !! a = Some (watched_keys c)) by (unfold lists; by rewrite lookup_fmap, Hc).
  constructor; try done.
  - by apply (inv_upd s a c); [| |..|exact (inv_queue s Hi a c Hc)].
  - unfold s'. rewrite lists_insert. by apply insert_id.
  - intros id (c0 & Hc0 & Hd). destruct (decide (a = id)) as [<-|Hne].
    + eexists. cbn. rewrite lookup_insert_eq. by split.
    + exists c0. cbn. by rewrite lookup_insert_ne.
Qed.

(** The key exists in one of the two databases, not expired in the second. *)
Definition present (s : server) (ex : bool) (replaced : option Z) (k : key) : Prop :=
  ex = true \/ match replaced with Some r => dbFind s r k = true /\ keyIsExpired s r k = false | None => False end.

Lemma present_calm s s' ex replaced k : calm s s' -> present s ex replaced k -> present s' ex replaced k.
Proof.
  intros Hc [?|Hp]; [by left|right]. destruct replaced; [|done]. unfold dbFind in *.
  by rewrite (cm_keys _ _ Hc), (cm_expired _ _ Hc).
Qed.

Lemma touch_one_spec (s : server) replaced ex k w wk :
  inv s -> wks s !! w = Some wk ->
  exists s', touch_one_in_db s replaced ex k w = Some s' /\ calm s s' /\
    (forall w', w' <> w -> wks s' !! w' = wks s !! w') /\
    (wk_expired wk = false -> present s ex replaced k -> dirty s' (wk_client wk)) /\
    (replaced = None -> forall q, clean q s -> clean q s').
Proof.
  intros Hi Hw. unfold touch_one_in_db. rewrite Hw. mred.
  assert (Hset : forall b, calm s (set_watch s (<[w := WatchedKey (wk_key wk) (wk_db wk) (wk_client wk) b]> (wks s))
    (next_wk s) (watched s))).
  { intros b. constructor; try done; [by apply inv_expired|by apply cells_expired]. }
  assert (Hclean : forall q, clean q s -> clean q (set_watch s
    (<[w := WatchedKey (wk_key wk) (wk_db wk) (wk_client wk) false]> (wks s)) (next_wk s) (watched s))).
  { intros q Hq x xk Hx. cbn in Hx. apply lookup_insert_Some in Hx as [[<- <-]|[_ Hx]]; [done|by apply (Hq x)]. }
  destruct (w_owner _ _ _ _ (inv_watch s Hi) w _ _ (cells_Some s w wk Hw)) as ([l Hl] & _).
  unfold lists in Hl. rewrite lookup_fmap in Hl. destruct (clients s !! wk_client wk) as [c|] eqn:Hc; [|done]. clear Hl.
  destruct (calm_mark s (wk_client wk) c Hi Hc) as [Hmark Hd]. unfold upd_client. rewrite Hc. mred.
  destruct (wk_expired wk) eqn:Hexp.
  - destruct (negb _); [eexists; split_and!; [done|by apply Hset|intros w' ?; cbn; by rewrite lookup_insert_ne|done|done]|].
    destruct (match replaced with Some r => keyIsExpired s r k | None => false end); eexists;
      [split_and!; [done|by apply calm_refl|done..]|by split_and!].
  - destruct (negb ex && _) eqn:Hne; [|eexists; by split_and!].
    apply andb_true_iff in Hne as [->%negb_true_iff He].
    eexists; split_and!; [done|by apply Hset|intros w' ?; cbn; by rewrite lookup_insert_ne| |by intros ->].
    intros _ [?|Hp]; [done|]. destruct replaced; [|done]. destruct Hp. congruence.
Qed.

Lemma touch_list_spec replaced ex k l : forall (s : server),
  inv s -> NoDup l -> (forall w, w ∈ l -> is_Some (wks s !! w)) ->
  exists s', touch_list_in_db s replaced ex k l = Some s' /\ calm s s' /\
    (forall w, w ∉ l -> wks s' !! w = wks s !! w) /\
    (forall w wk, w ∈ l -> wks s !! w = Some wk -> wk_expired wk = false -> present s ex replaced k ->
      dirty s' (wk_client wk)) /\
    (replaced = None -> forall q, clean q s -> clean q s').
Proof.
  induction l as [|w l IH]; intros s Hi Hnd Hl; cbn [touch_list_in_db].
  { exists s. split_and!; [done|by apply calm_refl|done| |done]. by intros w wk ?%not_elem_of_nil. }
  apply NoDup_cons in Hnd as [Hwl Hnd]. destruct (Hl w ltac:(left)) as [wk Hwk].
  destruct (touch_one_spec s replaced ex k w wk Hi Hwk) as (s1 & -> & Hc1 & Hw1 & Hd1 & Ht1). mred.
  destruct (IH s1 (cm_inv _ _ Hc1) Hnd) as (s' & -> & Hc' & Hw' & Hd' & Ht').
  { intros x Hx. rewrite Hw1 by (by intros ->). apply Hl. by right. }
  exists s'. split_and!; [done|by eapply calm_trans| | |auto].
  - intros x [Hx Hxl]%not_elem_of_cons. by rewrite Hw', Hw1.
  - intros x xk [->|Hx]%elem_of_cons Hxk Hexp Hp.
    + apply (cm_dirty _ _ Hc'). assert (xk = wk) as -> by congruence. by apply Hd1.
    + apply (Hd' x); [done| |done|by eapply present_calm]. by rewrite Hw1 by (by intros ->).
Qed.

Lemma touch_keys_spec emptied replaced in_slots L : forall (s : server),
  inv s -> NoDup L.*1 ->
  (forall p cl, (p, cl) ∈ L -> NoDup cl /\ forall w, w ∈ cl -> exists id, cells s !! w = Some (p, id)) ->
  exists s', touch_keys_in_db s emptied replaced in_slots L = Some s' /\ calm s s' /\
    (forall w p id, cells s !! w = Some (p, id) -> p ∉ L.*1 -> wks s' !! w = wks s !! w) /\
    (forall k cl w wk, ((emptied, k), cl) ∈ L -> w ∈ cl -> wks s !! w = Some wk -> wk_expired wk = false ->
      in_slots k = true -> present s (dbFind s emptied k) replaced k -> dirty s' (wk_client wk)) /\
    (replaced = None -> forall q, clean q s -> clean q s').
Proof.
  induction L as [|[[db k] cl] L IH]; intros s Hi Hnd HL; cbn [touch_keys_in_db].
  { exists s. split_and!; [done|by apply calm_refl|done| |done]. by intros k cl w wk ?%not_elem_of_nil. }
  cbn [fmap list_fmap fst] in Hnd. apply NoDup_cons in Hnd as [HpL Hnd]. destruct (HL (db, k) cl ltac:(left)) as [Hcl Hin].
  assert (Hone : exists s1, calm s s1 /\ (forall w, w ∉ cl -> wks s1 !! w = wks s !! w) /\
    (forall w wk, db = emptied -> w ∈ cl -> wks s !! w = Some wk -> wk_expired wk = false ->
      in_slots k = true -> present s (dbFind s emptied k) replaced k -> dirty s1 (wk_client wk)) /\
    (replaced = None -> forall q, clean q s -> clean q s1) /\
    touch_keys_in_db s emptied replaced in_slots (((db, k), cl) :: L) = touch_keys_in_db s1 emptied replaced in_slots L).
  { cbn [touch_keys_in_db]. destruct (negb (db =? emptied) || negb (in_slots k)) eqn:Hskip.
    { exists s. split_and!; [by apply calm_refl|done| |done|done]. intros w wk -> _ _ _ Hs. by rewrite Z.eqb_refl, Hs in Hskip. }
    cbv zeta. destruct (dbFind s emptied k || _) eqn:Hex.
    - destruct (touch_list_spec replaced (dbFind s emptied k) k cl s Hi Hcl) as (s1 & -> & Hc1 & Hw1 & Hd1 & Ht1).
      { intros w Hw. destruct (Hin w Hw) as [id Hid]. destruct (cells_inv s w _ id Hid) as (wk & -> & _). by eexists. }
      mred. exists s1. split_and!; try done. intros w wk _ Hw Hwk He _ Hp. by apply (Hd1 w).
    - exists s. split_and!; [by apply calm_refl|done| |done|done]. intros w wk _ _ _ _ _ Hp.
      apply orb_false_iff in Hex as [Hex Hr]. destruct Hp as [?|Hp]; [congruence|]. destruct replaced; [|done].
      destruct Hp. congruence. }
  destruct Hone as (s1 & Hc1 & Hw1 & Hd1 & Ht1 & Heq). cbn [touch_keys_in_db] in Heq. rewrite Heq. clear Heq.
  destruct (IH s1 (cm_inv _ _ Hc1) Hnd) as (s' & -> & Hc' & Hw' & Hd' & Ht').
  { intros p cl' Hp. rewrite (cm_cells _ _ Hc1). apply HL. by right. }
  assert (Hout : forall w p id, cells s !! w = Some (p, id) -> p <> (db, k) -> w ∉ cl).
  { intros w p id Hw Hp [i Hi']%Hin. congruence. }
  exists s'. split_and!; [done|by eapply calm_trans| | |auto].
  - intros w p id Hw Hp. cbn in Hp. apply not_elem_of_cons in Hp as [Hp HpL'].
    rewrite (Hw' w p id), Hw1; [done|by apply (Hout w p id)|by rewrite (cm_cells _ _ Hc1)|done].
  - intros k' cl' w wk Hk Hw Hwk He Hs Hp. apply elem_of_cons in Hk as [[= -> -> ->]|Hk].
    + apply (cm_dirty _ _ Hc'). by apply (Hd1 w).
    + destruct (HL (emptied, k') cl' ltac:(by right)) as [_ Hin']. destruct (Hin' w Hw) as [id Hid].
      assert (Hne : (emptied, k') <> (db, k)).
      { intros Hx. apply HpL. rewrite <- Hx. by apply (list_elem_of_fmap_2 fst _ ((emptied, k'), cl')). }
      apply (Hd' k' cl' w); [done|done| |done|done|].
      * rewrite Hw1; [done|]. by apply (Hout w (emptied, k') id).
      * unfold dbFind in *. rewrite (cm_keys _ _ Hc1). by eapply present_calm.
Qed.

Lemma touch_db_spec (s : server) emptied replaced in_slots :
  inv s -> exists s', touchAllWatchedKeysInDb s emptied replaced in_slots = Some s' /\ calm s s' /\
    (forall id k, watches s id (emptied, k) -> clean (emptied, k) s -> in_slots k = true ->
      present s (dbFind s emptied k) replaced k -> dirty s' id) /\
    (replaced = None -> forall q, clean q s -> clean q s').
Proof.
  intros Hi. unfold touchAllWatchedKeysInDb.
  destruct (touch_keys_spec emptied replaced in_slots (map_to_list (watched s)) s Hi) as (s' & -> & Hc & _ & Hd & Ht).
  - apply NoDup_fst_map_to_list.
  - intros p cl Hp%elem_of_map_to_list. destruct (w_key _ _ _ _ (inv_watch s Hi) p cl Hp) as (_ & ? & ?). done.
  - exists s'. split_and!; [done|done| |done]. intros id k (c & w & Hcl & Hw & Hcell) Hclean Hs Hp.
    destruct (w_owner _ _ _ _ (inv_watch s Hi) w _ _ Hcell) as (_ & l & Hl & Hin).
    destruct (cells_inv s w _ id Hcell) as (wk & Hwk & Hkey & ->).
    apply (Hd k l w); try done; [by apply elem_of_map_to_list|by apply (Hclean w)].
Qed.


Lemma touch_dbs_spec n : forall (s : server) j in_slots,
  inv s -> exists s', touch_dbs n s j in_slots = Some s' /\ calm s s' /\
    (forall id db k, watches s id (db, k) -> clean (db, k) s -> j <= db < j + Z.of_nat n ->
      in_slots k = true -> dbFind s db k = true -> dirty s' id).
Proof.
  induction n as [|n IH]; intros s j in_slots Hi; cbn [touch_dbs].
  { exists s. split_and!; [done|by apply calm_refl|]. lia. }
  destruct (touch_db_spec s j None in_slots Hi) as (s1 & -> & Hc1 & Hd1 & Ht1). mred.
  destruct (IH s1 (j + 1) in_slots (cm_inv _ _ Hc1)) as (s' & -> & Hc' & Hd'). exists s'.
  split_and!; [done|by eapply calm_trans|]. intros id db k Hw Hcl Hj Hs Hf.
  destruct (decide (db = j)) as [->|Hne].
  - apply (cm_dirty _ _ Hc'), (Hd1 id k); try done. by left.
  - apply (Hd' id db k); [by eapply calm_watches|by apply Ht1|lia|done|].
    unfold dbFind in *. by rewrite (cm_keys _ _ Hc1).
Qed.

(** The keys change after the scan. *)
Lemma keys_calm (s s' : server) ks : calm s s' -> keeps s (set_keys s' ks).
Proof.
  intros Hc. split; [by destruct (cm_inv _ _ Hc)|]. intros id p. destruct (calm_guard s s' id p Hc) as [Ht Hd Hs].
  by constructor.
Qed.

(** The databases that [emptyData] with this number empties. *)
Definition emptied (db d : Z) : bool :=
  (-1 <=? db) && (db <? dbnum) && (if db =? -1 then (0 <=? d) && (d <? dbnum) else d =? db).

Lemma emptied_range db d :
  (db <? -1) || (db >=? dbnum) = false -> emptied db d = true <-> startdb db <= d <= enddb dbnum db.
Proof. intros Hr. unfold emptied, startdb, enddb. destruct (db =? -1) eqn:?; lia. Qed.

Lemma empty_keeps (s : server) db :
  inv s -> exists s' r, emptyData dbnum s db = Some (s', r) /\ keeps s s' /\
    (forall id d k, emptied db d = true -> watches s id (d, k) -> clean (d, k) s -> dbFind s d k = true -> dirty s' id) /\
    (forall d k, keys s' !! (d, k) = if emptied db d then None else keys s !! (d, k)).
Proof.
  intros Hi. unfold emptyData. destruct (_ || _) eqn:Hr.
  { assert (Hno : forall d, emptied db d = false) by (intros d; unfold emptied; destruct (db =? -1) eqn:?; lia).
    exists s, (-1). split_and!; [done|by apply (op_keeps 0), op_refl| |].
    - intros id d k Hd. by rewrite Hno in Hd.
    - intros d k. by rewrite Hno. }
  unfold signalFlushedDb. destruct (touch_dbs_spec (Z.to_nat (enddb dbnum db - startdb db + 1)) s (startdb db)
    (fun _ => true) Hi) as (s1 & -> & Hc1 & Hd1). mred. eexists _, _. split_and!; [done|by apply keys_calm| |].
  - intros id d k Hd Hw Hcl Hf. change (dirty s1 id). apply (Hd1 id d k); try done.
    apply (emptied_range db d Hr) in Hd. lia.
  - intros d k. cbn [keys set_keys]. rewrite (cm_keys _ _ Hc1). pose proof (emptied_range db d Hr) as He.
    destruct (emptied db d).
    + apply map_lookup_filter_None. right. cbn. intros x _. tauto.
    + destruct (keys s !! (d, k)) as [e|] eqn:Hk; [|by apply map_lookup_filter_None; left].
      apply map_lookup_filter_Some. split; [done|]. cbn. intros Hx. by apply He in Hx.
Qed.

Lemma swap_keeps (s : server) db1 db2 :
  inv s -> exists s' r, dbSwapDatabases dbnum s db1 db2 = Some (s', r) /\ keeps s s'.
Proof.
  intros Hi. assert (Hs : keeps s s) by (by apply (op_keeps 0), op_refl). unfold dbSwapDatabases.
  destruct (_ || _); [by exists s, false|]. destruct (db1 =? db2); [by exists s, true|].
  destruct (touch_db_spec s db1 (Some db2) (fun _ => true) Hi) as (s1 & -> & Hc1 & _). mred.
  destruct (touch_db_spec s1 db2 (Some db1) (fun _ => true) (cm_inv _ _ Hc1)) as (s2 & -> & Hc2 & _). mred.
  eexists _, _. split; [done|]. apply keys_calm. by eapply calm_trans.
Qed.

(** *** Clients that come and go *)

Lemma connect_inv (s : server) a :
  inv s -> clients s !! a = None -> inv (set_clients s (<[a := createClient]> (clients s))).
Proof.
  intros [[Hc Ho Hk Hu Hf] Hn Hq] Ha.
  assert (Hla : lists s !! a = None) by (unfold lists; by rewrite lookup_fmap, Ha).
  assert (Hno : forall w p, cells s !! w <> Some (p, a)).
  { intros w p Hw. destruct (Ho w p a Hw) as [[? ?] _]. congruence. }
  assert (Hl : lists (set_clients s (<[a := createClient]> (clients s))) = <[a := []]> (lists s)) by apply lists_insert.
  constructor; [constructor|rewrite Hl, watching_insert, Hla, <- Hn; cbn [nonempty set_clients watching_clients]; lia|]; try done.
  - rewrite Hl. intros id l Hid. apply lookup_insert_Some in Hid as [[<- <-]|[_ Hid]]; [|by apply Hc].
    split; [constructor|]. intros w. split; [by intros ?%not_elem_of_nil|]. intros [p Hp]. by apply Hno in Hp.
  - rewrite Hl. intros w p id Hw. destruct (Ho w p id Hw) as [Hs ?]. split; [|done].
    destruct (decide (a = id)) as [<-|]; [by rewrite lookup_insert_eq|by rewrite lookup_insert_ne].
  - intros id c. cbn. rewrite lookup_insert_Some. intros [[<- <-]|[_ ?]]; [by split|by apply (Hq id)].
Qed.

Lemma free_inv (s : server) a c :
  inv s -> clients s !! a = Some c -> watched_keys c = [] -> inv (set_clients s (delete a (clients s))).
Proof.
  intros [[Hc Ho Hk Hu Hf] Hn Hq] Ha Hnil.
  assert (Hla : lists s !! a = Some []) by (unfold lists; by rewrite lookup_fmap, Ha, <- Hnil).
  assert (Hno : forall w p, cells s !! w <> Some (p, a)).
  { intros w p Hw. destruct (Hc a [] Hla) as [_ Hm]. apply (not_elem_of_nil w), Hm. by exists p. }
  assert (Hl : lists (set_clients s (delete a (clients s))) = delete a (lists s)) by (unfold lists; cbn; by rewrite fmap_delete).
  constructor; [constructor|rewrite Hl, watching_delete, Hla, <- Hn; cbn [nonempty set_clients watching_clients]; lia|]; try done.
  - rewrite Hl. intros id l [? Hid]%lookup_delete_Some. by apply Hc.
  - rewrite Hl. intros w p id Hw. destruct (Ho w p id Hw) as [Hs ?]. split; [|done].
    destruct (decide (a = id)) as [<-|]; [by apply Hno in Hw|by rewrite lookup_delete_ne].
  - intros id c0 Hc0. cbn in Hc0. apply lookup_delete_Some in Hc0 as [? ?]. by apply (Hq id).
Qed.

Lemma freeClient_spec (s : server) a c :
  inv s -> clients s !! a = Some c ->
  exists s', freeClient s a = Some s' /\ inv s' /\ (forall id p, id <> a -> guard id p s s') /\
    (forall w p, cells s' !! w <> Some (p, a)).
Proof.
  intros Hi Hc. unfold freeClient. destruct (unwatch_op s a c Hi Hc) as (s1 & -> & [Hi1 Hg1 Ht1] & _ & _ & Hcl). mred.
  assert (Ha : clients s1 !! a = Some (set_watched_keys c [])) by (by rewrite Hcl, lookup_insert_eq).
  eexists. split; [done|]. split; [by eapply free_inv|]. split.
  - intros id p Hne. eapply guard_trans; [apply Ht1|apply Hg1; by left|].
    eapply evol_guard with (new := []); [|by rewrite app_nil_r|by intros ?%not_elem_of_nil].
    apply evol_clients; [done|]. intros i ->. cbn. by rewrite lookup_delete_ne.
  - intros w p Hw. change (cells s1 !! w = Some (p, a)) in Hw.
    assert (Hl : lists s1 !! a = Some []) by (unfold lists; by rewrite lookup_fmap, Ha).
    destruct (w_client _ _ _ _ (inv_watch s1 Hi1) a [] Hl) as [_ Hm]. apply (not_elem_of_nil w), Hm. by exists p.
Qed.

(** ** Steps *)

(** The steps that end the watches of a client: its own EXEC, DISCARD, RESET and UNWATCH,
    and its end.  UNWATCH inside MULTI is only queued. *)
Definition ends (s : server) (id : Z) (l : label key cmd) : bool :=
  match l with
  | Cmd a (EXEC | DISCARD | RESET) | Reject a EXEC | Free a => a =? id
  | Cmd a UNWATCH => (a =? id) && match clients s !! a with Some c => negb (f_multi c) | None => true end
  | _ => false
  end.

Lemma execCommand_op (s : server) a c :
  inv s -> clients s !! a = Some c -> exists s', execCommand effects acl dbnum s a = Some s' /\ op a false s s'.
Proof.
  intros Hi Hc. destruct (f_multi c) eqn:Hm.
  - destruct (isWatchedKeyExpired_spec s a c Hi Hc) as [b Hb].
    destruct (f_dirty_cas c || f_dirty_exec c || b) eqn:Hd.
    + destruct (exec_abort_op s a c b Hi Hc Hm Hb Hd) as (s' & c' & -> & Hop & _). by exists s'.
    + apply orb_false_iff in Hd as [Hd ->].
      destruct (exec_run_op s a c Hi Hc Hm Hb Hd) as (s' & c' & rs & -> & Hop & _). by exists s'.
  - unfold execCommand. rewrite Hc. mred. rewrite Hm. cbn [negb].
    destruct (reply_op s a c ExecWithoutMulti Hi Hc) as (s' & -> & Hop & _). exists s'. by split; [|apply op_weaken].
Qed.

Lemma processCommand_spec (s : server) a c x :
  inv s -> clients s !! a = Some c ->
  exists s', processCommand effects acl dbnum s a x = Some s' /\ inv s' /\
    (forall id p, ends s id (Cmd a x) = false -> guard id p s s').
Proof.
  intros Hi Hc. unfold processCommand. rewrite Hc. mred. destruct (f_multi c && queueable x) eqn:Hq.
  { apply andb_true_iff in Hq as [Hm Hx]. destruct (queue_op s a c x Hi Hc Hm Hx) as (s' & -> & Hop & _). exists s'.
    destruct (op_keeps _ _ _ Hop). auto. }
  destruct x as [| | |ks| |db| |x].
  - destruct (multi_op s a c Hi Hc) as (s' & c' & -> & Hop & _). exists s'. destruct (op_keeps _ _ _ Hop). auto.
  - destruct (execCommand_op s a c Hi Hc) as (s' & -> & [Hi' Hg _]). exists s'. split_and!; [done|done|].
    intros id p Hne%Z.eqb_neq. apply Hg. by left.
  - destruct (discardCommand_op s a c Hi Hc) as (s' & -> & [Hi' Hg _] & _). exists s'. split_and!; [done|done|].
    intros id p Hne%Z.eqb_neq. apply Hg. by left.
  - destruct (watchCommand_keeps s a c ks Hi Hc) as (s' & -> & [Hi' Hg] & _). exists s'. auto.
  - destruct (unwatchCommand_op s a c Hi Hc) as (s' & c' & -> & [Hi' Hg _] & _). exists s'. split_and!; [done|done|].
    intros id p. cbn [ends]. rewrite Hc. cbn [queueable] in Hq. rewrite andb_true_r in Hq. rewrite Hq, andb_true_r.
    intros Hne%Z.eqb_neq. apply Hg. by left.
  - destruct (select_op s a c db Hi Hc) as (s' & c' & r & -> & Hop & _). exists s'. destruct (op_keeps _ _ _ Hop). auto.
  - destruct (reset_op s a c Hi Hc) as (s' & -> & [Hi' Hg _]). exists s'. split_and!; [done|done|].
    intros id p Hne%Z.eqb_neq. apply Hg. by left.
  - destruct (data_op s a c x Hi Hc) as (s' & c' & -> & Hop & _). exists s'. destruct (op_keeps _ _ _ Hop). auto.
Qed.

Lemma step_spec (s : server) l s' :
  inv s -> step effects acl dbnum s l s' -> inv s' /\ forall id p, ends s id l = false -> guard id p s s'.
Proof.
  intros Hi Hs. destruct Hs as [s a x s' Hs|s a x s' Hs|s a Ha|s a s' Hs|s db k v s' Hs|s db s' r Hs|s db1 db2 s' r Hs|s t Ht].
  - destruct (clients s !! a) as [c|] eqn:Hc; [|unfold processCommand in Hs; by rewrite Hc in Hs].
    destruct (processCommand_spec s a c x Hi Hc) as (s2 & Hs2 & Hi' & Hg). rewrite Hs2 in Hs. by injection Hs as ->.
  - destruct (clients s !! a) as [c|] eqn:Hc; [|unfold rejectCommand, upd_client in Hs; by rewrite Hc in Hs].
    destruct (reject_op s a c x Hi Hc) as (s2 & Hs2 & [Hi' Hg _] & _). rewrite Hs2 in Hs. injection Hs as ->.
    split; [done|]. intros id p He. apply Hg. destruct x; try by right. left. cbn in He. by apply Z.eqb_neq in He.
  - split; [by apply connect_inv|]. intros id p _. destruct (decide (id = a)) as [->|Hne].
    + assert (~ dirty s a) by (intros (c & ? & _); congruence).
      assert (~ safe s a p) by (intros [?|(c & w & ? & _)]; [done|congruence]). constructor; [|done|done].
      exists []. split; [by rewrite app_nil_r|]. by intros ?%not_elem_of_nil.
    + eapply evol_guard with (new := []); [|by rewrite app_nil_r|by intros ?%not_elem_of_nil].
      apply evol_clients; [done|]. intros i ->. cbn. by rewrite lookup_insert_ne.
  - destruct (clients s !! a) as [c|] eqn:Hc; [|unfold freeClient, unwatchAllKeys in Hs; by rewrite Hc in Hs].
    destruct (freeClient_spec s a c Hi Hc) as (s2 & Hs2 & Hi' & Hg & _). rewrite Hs2 in Hs. injection Hs as ->.
    split; [done|]. intros id p He%Z.eqb_neq. by apply Hg.
  - destruct (change_op s 0 db k v Hi) as (s2 & Hs2 & Hop & _). rewrite Hs2 in Hs. injection Hs as ->.
    destruct (op_keeps _ _ _ Hop). auto.
  - destruct (empty_keeps s db Hi) as (s2 & r2 & Hs2 & [? ?] & _). rewrite Hs2 in Hs. injection Hs as -> ->. auto.
  - destruct (swap_keeps s db1 db2 Hi) as (s2 & r2 & Hs2 & [? ?]). rewrite Hs2 in Hs. injection Hs as -> ->. auto.
  - split; [by destruct Hi|]. intros id p _.
    eapply evol_guard with (new := []); [by apply evol_clients|by rewrite app_nil_r|by intros ?%not_elem_of_nil].
Qed.

Lemma init_inv : inv init.
Proof.
  constructor; [constructor|reflexivity|]; try done.
Qed.

Lemma reachable_inv (s : server) : reachable effects acl dbnum s -> inv s.
Proof. induction 1 as [|s l s' _ IH Hs]; [apply init_inv|by destruct (step_spec s l s' IH Hs)]. Qed.

(** *** Runs *)





(** What an aborted EXEC leaves. *)
Definition aborted (s : server) (id : Z) (c : client) (s' : server) : Prop :=
  keys s' = keys s /\ exists c', clients s' !! id = Some c' /\
    replies c' = replies c ++ [if f_dirty_exec c then ExecAbortErr else NullArray] /\
    f_multi c' = false /\ ms_commands (mstate c') = [].

Lemma exec_aborted (s : server) id c b :
  inv s -> clients s !! id = Some c -> f_multi c = true -> isWatchedKeyExpired s id = Some b ->
  f_dirty_cas c || f_dirty_exec c || b = true ->
  exists s', processCommand effects acl dbnum s id EXEC = Some s' /\ aborted s id c s'.
Proof.
  intros Hi Hc Hm Hb Hd. unfold processCommand. rewrite Hc. mred. rewrite Hm. cbn [andb queueable].
  destruct (exec_abort_op s id c b Hi Hc Hm Hb Hd) as (s' & c' & -> & _ & Hk & Hc' & Hr & Hm' & Hms).
  exists s'. split; [done|]. split; [done|]. by exists c'.
Qed.

(** ** The theorems *)


(** C33: The watched keys stay consistent in every reachable state: the list of a client and
    the lists of the keys name exactly the cells that belong to them, so no list holds a freed
    cell, no client watches a key twice, no key keeps an empty list, [watching_clients] counts
    the clients with a list, and only queueable commands are queued, none outside MULTI.  So
    every command and every rejection of a connected client, and its end, return. *)
Theorem multi_invariant (s : server) :
  reachable effects acl dbnum s ->
  inv s /\
  (forall id c x, clients s !! id = Some c ->
    (exists s', processCommand effects acl dbnum s id x = Some s' /\ reachable effects acl dbnum s') /\
    (exists s', rejectCommand s id x = Some s' /\ reachable effects acl dbnum s') /\
    (exists s', freeClient s id = Some s' /\ reachable effects acl dbnum s' /\ forall w p, cells s' !! w <> Some (p, id))).
Proof.
  intros Hr. pose proof (reachable_inv s Hr) as Hi. split; [done|]. intros id c x Hc. split_and!.
  - destruct (processCommand_spec s id c x Hi Hc) as (s' & Hs & _). exists s'. split; [done|].
    eapply reachable_step; [done|by apply step_command].
  - destruct (reject_op s id c x Hi Hc) as (s' & Hs & _). exists s'. split; [done|].
    eapply reachable_step; [done|by eapply step_reject].
  - destruct (freeClient_spec s id c Hi Hc) as (s' & Hs & _ & _ & Hno). exists s'. split_and!; [done| |done].
    eapply reachable_step; [done|by eapply step_free].
Qed.

(** An EXEC that is not aborted announces as many replies as there are queued commands
    and gives exactly one for each, also when the ACL refuses it; the client then has left
    MULTI, with an empty queue, watches nothing, and [in_exec] is reset. *)
Theorem exec_replies (s : server) id c :
  reachable effects acl dbnum s -> clients s !! id = Some c -> f_multi c = true ->
  f_dirty_cas c = false -> f_dirty_exec c = false -> isWatchedKeyExpired s id = Some false ->
  exists s' c' rs, processCommand effects acl dbnum s id EXEC = Some s' /\ clients s' !! id = Some c' /\
    replies c' = replies c ++ ArrayLen (zlen (ms_commands (mstate c))) :: rs /\
    length rs = length (ms_commands (mstate c)) /\
    f_multi c' = false /\ ms_commands (mstate c') = [] /\ watched_keys c' = [] /\ in_exec s' = false.
Proof.
  intros Hr Hc Hm Hd1 Hd2 Hb. pose proof (reachable_inv s Hr) as Hi. unfold processCommand. rewrite Hc. mred.
  rewrite Hm. cbn [andb queueable].
  destruct (exec_run_op s id c Hi Hc Hm Hb ltac:(by rewrite Hd1, Hd2)) as (s' & c' & rs & -> & _ & Hrest).
  by exists s', c', rs.
Qed.

(** A command of a transaction that is refused before it is queued (and is not EXEC)
    makes the EXEC that follows fail with EXECABORT, and no key changes. *)
Theorem reject_aborts (s : server) id c x :
  reachable effects acl dbnum s -> clients s !! id = Some c -> f_multi c = true -> x <> EXEC ->
  exists s1 c1 s2, rejectCommand s id x = Some s1 /\ clients s1 !! id = Some c1 /\ replies c1 = replies c ++ [Rejected] /\
    processCommand effects acl dbnum s1 id EXEC = Some s2 /\ aborted s1 id c1 s2 /\ f_dirty_exec c1 = true /\ keys s2 = keys s.
Proof.
  intros Hr Hc Hm Hx. pose proof (reachable_inv s Hr) as Hi.
  destruct (reject_op s id c x Hi Hc) as (s1 & Hs1 & [Hi1 _ _] & Hk1).
  assert (Hc1 : clients s1 !! id = Some (add_reply (flagTransaction c) Rejected)).
  { assert (Hs : rejectCommand s id x = Some (set_clients s (<[id := add_reply (flagTransaction c) Rejected]> (clients s)))).
    { unfold rejectCommand, addReply, upd_client. rewrite Hc. mred. destruct x; try done; cbn [clients set_clients];
        rewrite lookup_insert_eq; mred; unfold set_clients; cbn; by rewrite insert_insert_eq. }
    rewrite Hs1 in Hs. injection Hs as ->. cbn. by rewrite lookup_insert_eq. }
  assert (Hd : f_dirty_exec (add_reply (flagTransaction c) Rejected) = true) by (unfold flagTransaction; by rewrite Hm).
  destruct (isWatchedKeyExpired_spec s1 id _ Hi1 Hc1) as [b Hb].
  destruct (exec_aborted s1 id _ b Hi1 Hc1) as (s2 & Hs2 & Hab); try done.
  { unfold flagTransaction. by rewrite Hm. }
  { by rewrite Hd, orb_true_r. }
  exists s1, (add_reply (flagTransaction c) Rejected), s2. split_and!; try done.
  - cbn. unfold flagTransaction. by destruct (f_multi c).
  - destruct Hab as [Hk2 _]. congruence.
Qed.

(** FLUSHDB and FLUSHALL mark every client that watches a key of an emptied database that
    exists there (and was not watched as an expired key), and remove exactly the keys of these
    databases; a number out of range changes nothing. *)
Theorem emptyData_marks (s : server) db :
  reachable effects acl dbnum s ->
  exists s' r, emptyData dbnum s db = Some (s', r) /\
    (forall id d k, emptied db d = true -> watches s id (d, k) -> clean (d, k) s -> dbFind s d k = true -> dirty s' id) /\
    (forall d k, keys s' !! (d, k) = if emptied db d then None else keys s !! (d, k)).
Proof.
  intros Hr. destruct (empty_keeps s db (reachable_inv s Hr)) as (s' & r & Hs & _ & Hd & Hk). by exists s', r.
Qed.

(** A write to a key that exists marks nobody when the first client in the list of the
    key watches it since a time at which it was expired: the loop ends there, and the clients
    further on in the list, which watch the key as it is now, are not marked either. *)
Theorem touch_stops_at_expired (s : server) db k w cl wk :
  watched s !! (db, k) = Some (w :: cl) -> wks s !! w = Some wk -> wk_expired wk = true -> dbFind s db k = true ->
  exists s', touchWatchedKey s db k = Some s' /\ clients s' = clients s /\ wks s' = wks s.
Proof.
  intros Hp Hw He Hf. unfold touchWatchedKey. set (s1 := set_touched s _). change (watched s1) with (watched s).
  rewrite Hp. cbn [touch_loop length head]. change (wks s1) with (wks s). change (watched s1) with (watched s).
  rewrite Hw, Hp. mred. rewrite He. change (dbFind s1 db k) with (dbFind s db k). rewrite Hf, andb_false_r.
  by exists s1.
Qed.


End Proofs.

(** ** A sample server *)

Module Sample.

(** The data commands are lists of writes; all are allowed. *)
Definition writes := list (Z * Z * option (option Z)).
Definition effects (s : server Z writes) (id : Z) (x : writes) : writes := x.
Definition acl (s : server Z writes) (id : Z) (x : command Z writes) : bool := true.

Definition connect (s : server Z writes) (id : Z) : server Z writes := set_clients s (<[id := createClient]> (clients s)).
Definition send (s : server Z writes) (id : Z) (x : command Z writes) : server Z writes :=
  default s (processCommand effects acl 16 s id x).

Definition s0 : server Z writes := connect (connect init 1) 2.
(** Client 1 watches the key 7 and queues a write of the key 8; client 2 writes 7. *)
Definition s1 : server Z writes := send s0 1 (WATCH [7]).
Definition s2 : server Z writes := send s1 1 MULTI.
Definition s3 : server Z writes := send s2 1 (DATA [((0, 8), Some None)]).
Definition s4 : server Z writes := send s3 2 (DATA [((0, 7), Some None)]).

Definition client_of (s : server Z writes) (id : Z) : client Z writes := default createClient (clients s !! id).

(** A command that returns is a step. *)
Lemma send_ok s id x :
  match processCommand effects acl 16 s id x with Some _ => true | None => false end = true ->
  step effects acl 16 s (Cmd id x) (send s id x).
Proof. intros Hp. unfold send. destruct (processCommand _ _ _ _ _) as [s'|] eqn:Hs; [by apply step_command|done]. Qed.

Lemma s0_reachable : reachable effects acl 16 s0.
Proof. repeat (eapply reachable_step; [|by apply step_connect]). apply reachable_init. Qed.

Lemma s3_reachable : reachable effects acl 16 s3.
Proof.
  eapply reachable_step; [|apply send_ok; vm_compute; reflexivity].
  eapply reachable_step; [|apply send_ok; vm_compute; reflexivity].
  eapply reachable_step; [apply s0_reachable|apply send_ok; vm_compute; reflexivity].
Qed.



Lemma multi_invariant_witness : inv s3 /\ watched s3 !! (0, 7) = Some [0%nat].
Proof. split; [exact (proj1 (multi_invariant effects acl 16 s3 s3_reachable))|vm_compute; reflexivity]. Defined.

Lemma exec_replies_witness :
  exists s' c' rs, processCommand effects acl 16 s3 1 EXEC = Some s' /\ clients s' !! 1 = Some c' /\
    replies c' = replies (client_of s3 1) ++ ArrayLen (zlen (ms_commands (mstate (client_of s3 1)))) :: rs /\
    length rs = length (ms_commands (mstate (client_of s3 1))) /\
    f_multi c' = false /\ ms_commands (mstate c') = [] /\ watched_keys c' = [] /\ in_exec s' = false.
Proof.
  apply (exec_replies effects acl 16 s3 1 (client_of s3 1) s3_reachable); vm_compute; reflexivity.
Defined.

Lemma reject_aborts_witness :
  exists x c1 y, rejectCommand s3 1 (DATA []) = Some x /\ clients x !! 1 = Some c1 /\
    replies c1 = replies (client_of s3 1) ++ [Rejected] /\
    processCommand effects acl 16 x 1 EXEC = Some y /\ aborted x 1 c1 y /\ f_dirty_exec c1 = true /\ keys y = keys s3.
Proof.
  apply (reject_aborts effects acl 16 s3 1 (client_of s3 1) (DATA []) s3_reachable);
    [vm_compute; reflexivity|vm_compute; reflexivity|discriminate].
Defined.

Lemma emptyData_marks_witness :
  exists s' r, emptyData 16 s4 0 = Some (s', r) /\
    (forall id d k, emptied 16 0 d = true -> watches s4 id (d, k) -> clean (d, k) s4 -> dbFind s4 d k = true -> dirty s' id) /\
    (forall d k, keys s' !! (d, k) = if emptied 16 0 d then None else keys s4 !! (d, k)).
Proof.
  apply (emptyData_marks effects acl 16 s4 0). eapply reachable_step; [apply s3_reachable|].
  apply send_ok. vm_compute. reflexivity.
Defined.

(** Client 1 watches the expired key 7, which stays in the database; it is written, client
    2 watches it as it is now, and it is written again: client 2 is not marked. *)
Definition e0 : server Z writes := set_now (send s0 1 (DATA [((0, 7), Some (Some 5))])) 10.
Definition e1 : server Z writes := send e0 1 (WATCH [7]).
Definition e2 : server Z writes := send e1 2 (DATA [((0, 7), Some None)]).
Definition e3 : server Z writes := send e2 2 (WATCH [7]).

Lemma touch_stops_at_expired_witness :
  exists s', touchWatchedKey e3 0 7 = Some s' /\ clients s' = clients e3 /\ wks s' = wks e3.
Proof.
  apply (touch_stops_at_expired e3 0 7 0 [1%nat] (WatchedKey 7 0 1 true)); vm_compute; reflexivity.
Defined.

Example later_watcher_runs :
  let s := send (send (send e3 1 (DATA [((0, 7), Some (Some 99))])) 2 MULTI) 2 EXEC in
  replies (client_of s 2) = [DataReply [((0, 7), Some None)]; Ok; Ok; ArrayLen 0].
Proof. vm_compute. reflexivity. Qed.

End Sample.
End Multi.
