(* ===== verification/Request.v ===== *)
(** * The request parser ([redis-stable/src/networking.c])

    [processMultibulkBuffer] and [processInlineBuffer] take commands out of the query buffer of
    a client, [processInputBuffer] parses ahead and runs them, and [readQueryFromClient]
    receives a piece of the stream.  The buffer is the list of its bytes (an sds string, with a
    terminator behind it), a position that runs out of it or a failed assertion is [None].
    Numbers are read by [Numbers.string2ll], inline lines by [SdsText.sdssplitargs].

    What the commands do is a parameter: whether the client needs to authenticate and whether
    it is to be closed are functions of the commands run so far ([executed]).  So are the
    capacity of the argument vector that the pool of commands hands out, and the offset of a
    master that has been applied.  Blocked clients, I/O threads, prefetching, the lookup of
    commands and the growth of the buffer are not modelled. *)

From Stdlib Require Import ZifyBool.
From S2P Require Import Prelude Numbers Sds SdsText.

Module Request.
Import Numbers SdsText.

Definition PROTO_INLINE_MAX_SIZE : Z := 1024 * 64.
Definition PROTO_MBULK_BIG_ARG : Z := 1024 * 32.
Definition INT_MAX : Z := 2147483647.

(** The fatal values of [read_error]. *)
Inductive readError :=
| TOO_BIG_INLINE_REQUEST | UNBALANCED_QUOTES | MASTER_USING_INLINE_PROTOCAL | TOO_BIG_MBULK_COUNT_STRING
| TOO_BIG_BUCK_COUNT_STRING | EXPECTED_DOLLAR | INVALID_BUCK_LENGTH | UNAUTH_BUCK_LENGTH
| INVALID_MULTIBUCK_LENGTH | UNAUTH_MBUCK_COUNT | REACHED_MAX_QUERYBUF.

Definition is_error (e : option readError) : bool := match e with Some _ => true | None => false end.

Inductive request_type := REQ_UNKNOWN | REQ_INLINE | REQ_MULTIBULK.

(** [argc] is the length of [argv], [argv_len] the capacity of the vector. *)
Record pendingCommand := PendingCommand {
  argv : list (list Z); argv_len : Z; argv_len_sum : Z; input_bytes : Z;
  incomplete : bool; read_error : option readError
}.
Definition argc (p : pendingCommand) : Z := zlen (argv p).

Record client := Client {
  querybuf : list Z; qb_pos : Z; querybuf_peak : Z;
  reqtype : request_type; multibulklen : Z; bulklen : Z;
  all_argv_len_sum : Z; pending_cmds : list pendingCommand;
  c_read_error : option readError; close_after_reply : bool;
  executed : list (list (list Z))
}.

(** *** Assignments *)

Definition set_buf (c : client) b pos : client :=
  Client b pos (querybuf_peak c) (reqtype c) (multibulklen c) (bulklen c) (all_argv_len_sum c) (pending_cmds c)
    (c_read_error c) (close_after_reply c) (executed c).
Definition set_pos (c : client) pos : client := set_buf c (querybuf c) pos.
Definition set_peak (c : client) n : client :=
  Client (querybuf c) (qb_pos c) n (reqtype c) (multibulklen c) (bulklen c) (all_argv_len_sum c) (pending_cmds c)
    (c_read_error c) (close_after_reply c) (executed c).
Definition set_request (c : client) t ml bl : client :=
  Client (querybuf c) (qb_pos c) (querybuf_peak c) t ml bl (all_argv_len_sum c) (pending_cmds c)
    (c_read_error c) (close_after_reply c) (executed c).
Definition set_sum (c : client) n : client :=
  Client (querybuf c) (qb_pos c) (querybuf_peak c) (reqtype c) (multibulklen c) (bulklen c) n (pending_cmds c)
    (c_read_error c) (close_after_reply c) (executed c).
Definition set_pending (c : client) l : client :=
  Client (querybuf c) (qb_pos c) (querybuf_peak c) (reqtype c) (multibulklen c) (bulklen c) (all_argv_len_sum c) l
    (c_read_error c) (close_after_reply c) (executed c).
Definition set_error (c : client) e : client :=
  Client (querybuf c) (qb_pos c) (querybuf_peak c) (reqtype c) (multibulklen c) (bulklen c) (all_argv_len_sum c)
    (pending_cmds c) e (close_after_reply c) (executed c).
Definition set_close (c : client) : client :=
  Client (querybuf c) (qb_pos c) (querybuf_peak c) (reqtype c) (multibulklen c) (bulklen c) (all_argv_len_sum c)
    (pending_cmds c) (c_read_error c) true (executed c).
Definition add_executed (c : client) x : client :=
  Client (querybuf c) (qb_pos c) (querybuf_peak c) (reqtype c) (multibulklen c) (bulklen c) (all_argv_len_sum c)
    (pending_cmds c) (c_read_error c) (close_after_reply c) (executed c ++ [x]).

Definition fail (p : pendingCommand) e : pendingCommand :=
  PendingCommand (argv p) (argv_len p) (argv_len_sum p) (input_bytes p) (incomplete p) (Some e).
Definition set_vector (p : pendingCommand) cap sum : pendingCommand :=
  PendingCommand (argv p) cap sum (input_bytes p) (incomplete p) (read_error p).
Definition push_arg (p : pendingCommand) a : pendingCommand :=
  PendingCommand (argv p ++ [a]) (argv_len p) (argv_len_sum p + zlen a) (input_bytes p) (incomplete p) (read_error p).
Definition set_input (p : pendingCommand) n inc : pendingCommand :=
  PendingCommand (argv p) (argv_len p) (argv_len_sum p) n inc (read_error p).

(** *** Searching *)

(** The offset of a byte: in [n] bytes, or in the C string. *)
Fixpoint memchr (ch : Z) (s : list Z) : option Z :=
  match s with
  | [] => None
  | x :: s => if x =? ch then Some 0 else i ← memchr ch s; Some (i + 1)
  end.

Fixpoint strchr (ch : Z) (s : list Z) : option Z :=
  match s with
  | [] => None
  | x :: s => if x =? ch then Some 0 else if x =? 0 then None else i ← strchr ch s; Some (i + 1)
  end.

(** What is left of the buffer. *)
Definition unread (c : client) : list Z := drop (Z.to_nat (qb_pos c)) (querybuf c).
Definition buf_left (c : client) : Z := uwrap 64 (zlen (querybuf c) - qb_pos c).

(** Both [\r] and [\n] are in the buffer: not
    [newline-(c->querybuf+c->qb_pos) > (ssize_t)(querybuf_len-c->qb_pos-2)]. *)
Definition whole_line (c : client) (newline : Z) : bool :=
  negb (newline >? swrap 64 (uwrap 64 (zlen (querybuf c) - qb_pos c - 2))).

Section Request.
Context {S : Type} {SB : StringBuffer S}.
(** The client is a master; [server.proto_max_bulk_len], [client_max_querybuf_len],
    [lookahead]. *)
Context (master : bool) (proto_max_bulk_len client_max_querybuf_len lookahead : Z).
Context (authRequired closing : list (list (list Z)) -> bool).
Context (pool_argv_len repl_applied : client -> Z).

(** *** RESP *)

(** The argument vector of a new command, for [ll] arguments. *)
Definition setup_argv (p : pendingCommand) (ll : Z) : pendingCommand :=
  if ll >? argv_len p then set_vector p (Z.min ll 1024) 0 else p.

Inductive progress := Return (ok : bool) | Continue.

(** The first line, when [c->multibulklen == 0]. *)
Definition read_multibulklen (c : client) (p : pendingCommand) : option (client * pendingCommand * progress) :=
  if negb (argc p =? 0) then None
  else
    match strchr 13 (unread c) with
    | None =>
      if buf_left c >? PROTO_INLINE_MAX_SIZE then Some (c, fail p TOO_BIG_MBULK_COUNT_STRING, Return false)
      else Some (c, p, Return false)
    | Some newline =>
      if negb (whole_line c newline) then Some (c, p, Return false)
      else
        star ← rd (querybuf c) (qb_pos c);
        if negb (star =? 42) then None
        else
          digits ← rdn (querybuf c) (qb_pos c + 1) (newline - 1);
          match string2ll digits with
          | None => Some (c, fail p INVALID_MULTIBUCK_LENGTH, Return false)
          | Some ll =>
            if ll >? INT_MAX then Some (c, fail p INVALID_MULTIBUCK_LENGTH, Return false)
            else if (ll >? 10) && authRequired (executed c) then Some (c, fail p UNAUTH_MBUCK_COUNT, Return false)
            else
              let c := set_pos c (qb_pos c + newline + 2) in
              if ll <=? 0 then Some (c, p, Return true)
              else
                let c := set_request c (reqtype c) ll (-1) in
                let p := setup_argv p ll in
                Some (c, set_input p (input_bytes p + (newline - 1 + 3)) (incomplete p), Continue)
          end
    end.

Inductive step := Go | Break | Error.

(** The big argument: the buffer is made to begin with it. *)
Definition align_big_arg (c : client) (ll : Z) : client :=
  if negb master && (ll >=? PROTO_MBULK_BIG_ARG) && (buf_left c <=? uwrap 64 (ll + 2)) then
    let c := set_buf c (unread c) 0 in
    if querybuf_peak c <? uwrap 64 (ll + 2) then set_peak c (ll + 2) else c
  else c.

(** The length of an argument, when [c->bulklen == -1]. *)
Definition read_bulklen (c : client) (p : pendingCommand) : option (client * pendingCommand * step) :=
  match memchr 13 (unread c) with
  | None =>
    if buf_left c >? PROTO_INLINE_MAX_SIZE then Some (c, fail p TOO_BIG_BUCK_COUNT_STRING, Error)
    else Some (c, p, Break)
  | Some newline =>
    if negb (whole_line c newline) then Some (c, p, Break)
    else
      dollar ← rd (querybuf c) (qb_pos c);
      if negb (dollar =? 36) then Some (c, fail p EXPECTED_DOLLAR, Error)
      else
        digits ← rdn (querybuf c) (qb_pos c + 1) (newline - 1);
        match string2ll digits with
        | None => Some (c, fail p INVALID_BUCK_LENGTH, Error)
        | Some ll =>
          if (ll <? 0) || (negb master && (ll >? proto_max_bulk_len)) then Some (c, fail p INVALID_BUCK_LENGTH, Error)
          else if (ll >? 16384) && authRequired (executed c) then Some (c, fail p UNAUTH_BUCK_LENGTH, Error)
          else
            let c := align_big_arg (set_pos c (qb_pos c + newline + 2)) ll in
            Some (set_request c (reqtype c) (multibulklen c) ll,
                  set_input p (input_bytes p + (newline - 1 + 3)) (incomplete p), Go)
        end
  end.

(** Grow the vector when it is full. *)
Definition grow_argv (c : client) (p : pendingCommand) : pendingCommand :=
  if argc p >=? argv_len p then
    set_vector p (Z.min (if argv_len p <? INT_MAX / 2 then argv_len p * 2 else INT_MAX) (argc p + multibulklen c)) (argv_len_sum p)
  else p.

(** An argument that is in the buffer; when the buffer is exactly this argument it becomes
    the string of the argument itself. *)
Definition read_arg (c : client) (p : pendingCommand) : option (client * pendingCommand) :=
  let p := grow_argv c p in
  if argc p >=? argv_len p then None
  else
    arg ← rdn (querybuf c) (qb_pos c) (bulklen c);
    let c' :=
      if negb master && (qb_pos c =? 0) && (bulklen c >=? PROTO_MBULK_BIG_ARG) &&
         (zlen (querybuf c) =? uwrap 64 (bulklen c + 2))
      then set_buf c [] 0
      else set_pos c (qb_pos c + bulklen c + 2) in
    Some (set_request (set_sum c' (all_argv_len_sum c + bulklen c)) (reqtype c) (multibulklen c - 1) (-1), push_arg p arg).

(** The arguments; [false]: [C_ERR]. *)
Fixpoint bulk_loop (fuel : nat) (c : client) (p : pendingCommand) : option (client * pendingCommand * bool) :=
  match fuel with
  | O => None
  | Datatypes.S fuel =>
    if multibulklen c =? 0 then Some (c, p, true)
    else
      '(c, p, st) ← (if bulklen c =? -1 then read_bulklen c p
                     else if incomplete p then Some (c, p, Go) else None);
      match st with
      | Error => Some (c, p, false)
      | Break => Some (c, p, true)
      | Go =>
        if buf_left c <? uwrap 64 (bulklen c + 2) then Some (c, p, true)
        else '(c, p) ← read_arg c p; bulk_loop fuel c p
      end
  end.

Definition processMultibulkBuffer (c : client) (p : pendingCommand) : option (client * pendingCommand * bool) :=
  '(c, p, r) ← (if multibulklen c =? 0 then read_multibulklen c p else Some (c, p, Continue));
  match r with
  | Return ok => Some (c, p, ok)
  | Continue =>
    if negb (multibulklen c >? 0) then None
    else
      '(c, p, ok) ← bulk_loop (Datatypes.S (length (querybuf c))) c p;
      if negb ok then Some (c, p, false)
      else if multibulklen c =? 0
      then Some (c, set_input p (input_bytes p + (argv_len_sum p + argc p * 2)) false, true)
      else Some (c, set_input p (input_bytes p) true, true)
  end.

(** *** Inline requests *)

Definition total_len (args : list (list Z)) : Z := zlen (concat args).

Definition processInlineBuffer (c : client) (p : pendingCommand) : option (client * pendingCommand * bool) :=
  match strchr 10 (unread c) with
  | None =>
    if buf_left c >? PROTO_INLINE_MAX_SIZE then Some (c, fail p TOO_BIG_INLINE_REQUEST, false) else Some (c, p, false)
  | Some newline =>
    before ← (if newline =? 0 then Some 0 else rd (querybuf c) (qb_pos c + newline - 1));
    let '(querylen, linefeed_chars) := if before =? 13 then (newline - 1, 2) else (newline, 1) in
    line ← rdn (querybuf c) (qb_pos c) querylen;
    aux ← sb_new line;
    args ← sdssplitargs (sb_bytes aux);
    match args with
    | None => Some (c, fail p UNBALANCED_QUOTES, false)
    | Some args =>
      if negb (querylen =? 0) && master then Some (c, fail p MASTER_USING_INLINE_PROTOCAL, false)
      else
        let args := map sb_bytes args in
        let n := zlen args in
        let p := if negb (n =? 0) && (n >? argv_len p) then set_vector p n 0 else p in
        let sum := argv_len_sum p + total_len args in
        let c := set_sum (set_pos c (qb_pos c + (querylen + linefeed_chars))) (all_argv_len_sum c + total_len args) in
        Some (c, PendingCommand args (argv_len p) sum (sum + (n - 1) + 2) (incomplete p) (read_error p), true)
    end
  end.

(** *** Pending commands *)

Definition ready_len (c : client) : Z := zlen (filter (fun p => incomplete p = false) (pending_cmds c)).

Definition acquirePendingCommand (c : client) : pendingCommand := PendingCommand [] (pool_argv_len c) 0 0 false None.

Definition freePendingCommand (c : client) (p : pendingCommand) : option client :=
  if all_argv_len_sum c >=? argv_len_sum p then Some (set_sum c (all_argv_len_sum c - argv_len_sum p)) else None.

Definition addPendingCommand (c : client) (p : pendingCommand) : client := set_pending c (pending_cmds c ++ [p]).

Definition popPendingCommandFromTail (c : client) : option (client * pendingCommand) :=
  p ← last (pending_cmds c); Some (set_pending c (removelast (pending_cmds c)), p).

Definition popPendingCommandFromHead (c : client) : option (client * pendingCommand) :=
  match pending_cmds c with [] => None | p :: l => Some (set_pending c l, p) end.

Definition resetClientQbufState (c : client) : client := set_request c REQ_UNKNOWN 0 (-1).

(** [resetClientInternal] as far as it is about pending commands. *)
Definition resetClient (c : client) : option client :=
  '(c, p) ← popPendingCommandFromHead c;
  c ← freePendingCommand c p;
  if (zlen (pending_cmds c) =? 0) && negb (all_argv_len_sum c =? 0) then None else Some c.

(** *** Parsing ahead *)

(** One turn of the inner loop of [processInputBuffer]; [true]: the loop goes on. *)
Definition parse_one (c : client) : option (client * bool) :=
  first ← rd (querybuf c) (qb_pos c);
  let t := match reqtype c with
           | REQ_UNKNOWN => if first =? 42 then REQ_MULTIBULK else REQ_INLINE
           | t => t
           end in
  let c := set_request c t (multibulklen c) (bulklen c) in
  '(c, p, ok) ← match t with
                | REQ_INLINE => processInlineBuffer c (acquirePendingCommand c)
                | REQ_MULTIBULK =>
                  '(c, p) ← (if negb (zlen (pending_cmds c) =? ready_len c) then popPendingCommandFromTail c
                             else Some (c, acquirePendingCommand c));
                  processMultibulkBuffer c p
                | REQ_UNKNOWN => None
                end;
  if negb ok && negb (is_error (read_error p)) then c ← freePendingCommand c p; Some (c, false)
  else
    let c := addPendingCommand c p in
    if is_error (read_error p) || incomplete p then Some (c, false)
    else Some (resetClientQbufState c, true).

Fixpoint parse_loop (fuel : nat) (ahead : Z) (c : client) : option client :=
  match fuel with
  | O => None
  | Datatypes.S fuel =>
    if (ready_len c <? ahead) && (qb_pos c <? zlen (querybuf c)) then
      '(c, more) ← parse_one c;
      if (more : bool) then parse_loop fuel ahead c else Some c
    else Some c
  end.

(** The outer loop. *)
Fixpoint input_loop (fuel : nat) (ahead : Z) (c : client) : option client :=
  match fuel with
  | O => None
  | Datatypes.S fuel =>
    if (qb_pos c <? zlen (querybuf c)) || (ready_len c >? 0) then
      if close_after_reply c || closing (executed c) then Some c
      else
        c ← (if ready_len c =? 0 then parse_loop (Datatypes.S (length (querybuf c))) ahead c else Some c);
        if ready_len c =? 0 then Some c
        else
          curcmd ← head (pending_cmds c);
          let c := set_error c (read_error curcmd) in
          if is_error (read_error curcmd) then Some c
          else if argc curcmd =? 0 then c ← resetClient c; input_loop fuel ahead c
          else c ← resetClient (add_executed c (argv curcmd)); input_loop fuel ahead c
    else Some c
  end.

Definition trim_querybuf (c : client) : option client :=
  if master then
    let a := repl_applied c in
    if a =? 0 then Some c
    else if qb_pos c >=? a then Some (set_buf c (drop (Z.to_nat a) (querybuf c)) (qb_pos c - a)) else None
  else Some (set_buf c (unread c) 0).

Definition processInputBuffer (c : client) : option client :=
  let ahead := if authRequired (executed c) then 1 else lookahead in
  c ← input_loop (Datatypes.S (length (querybuf c) + length (pending_cmds c))) ahead c;
  trim_querybuf c.

(** [nread] bytes have arrived; [queued]: [c->mstate.argv_len_sums]. *)
Definition readQueryFromClient (c : client) (queued : Z) (data : list Z) : option client :=
  let c := set_error c None in
  let c := set_buf c (querybuf c ++ data) (qb_pos c) in
  let qblen := zlen (querybuf c) in
  let c := if querybuf_peak c <? qblen then set_peak c qblen else c in
  if negb master && ((queued + qblen >? client_max_querybuf_len) ||
                     ((queued + qblen >? 1024 * 1024) && authRequired (executed c)))
  then Some (set_close (set_error c (Some REACHED_MAX_QUERYBUF)))
  else
    c ← processInputBuffer c;
    if is_error (c_read_error c) then Some (set_close c) else Some c.

Fixpoint read_all (c : client) (chunks : list (list Z)) : option client :=
  match chunks with
  | [] => Some c
  | d :: chunks => c ← readQueryFromClient c 0 d; read_all c chunks
  end.

Definition createClient : client := Client [] 0 0 REQ_UNKNOWN 0 (-1) 0 [] None false [].

End Request.

(** ** The unread part of the buffer *)

Definition pos_ok (c : client) : Prop := 0 <= qb_pos c <= zlen (querybuf c) /\ zlen (querybuf c) < 2 ^ 60.

Lemma unread_length c : pos_ok c -> zlen (unread c) = zlen (querybuf c) - qb_pos c.
Proof. intros [Hp _]. unfold unread. rewrite length_drop. lia. Qed.

Lemma buf_left_spec c : pos_ok c -> buf_left c = zlen (unread c).
Proof.
  intros Hc. rewrite (unread_length c Hc). destruct Hc as [Hp Hl]. unfold buf_left. apply uwrap_id.
  unfold in_u. change (2 ^ 64) with 18446744073709551616. change (2 ^ 60) with 1152921504606846976 in Hl. lia.
Qed.

Lemma whole_line_spec c n : pos_ok c -> whole_line c n = (n + 2 <=? zlen (unread c)).
Proof.
  intros Hc. rewrite (unread_length c Hc). destruct Hc as [Hp Hl]. unfold whole_line. rewrite swrap_uwrap by lia.
  rewrite swrap_id; [zbool; cbn; lia|lia|]. unfold in_s. change (2 ^ (64 - 1)) with 9223372036854775808.
  change (2 ^ 60) with 1152921504606846976 in Hl. lia.
Qed.

Lemma unread_split c : pos_ok c -> querybuf c = take (Z.to_nat (qb_pos c)) (querybuf c) ++ unread c.
Proof. intros _. unfold unread. by rewrite take_drop. Qed.

Lemma rd_unread c : pos_ok c -> rd (querybuf c) (qb_pos c) = head (unread c).
Proof.
  intros Hc. rewrite (unread_split c Hc) at 1. apply rd_app_r. rewrite length_take. destruct Hc. lia.
Qed.

Lemma rdn_unread c a b x n :
  pos_ok c -> unread c = a ++ b ++ x -> n = zlen b -> rdn (querybuf c) (qb_pos c + zlen a) n = Some b.
Proof.
  intros Hc Hu ->. rewrite (unread_split c Hc), Hu. rewrite app_assoc. apply rdn_app; [|done].
  rewrite length_app, length_take. destruct Hc. lia.
Qed.

Lemma unread_advance c a x n :
  pos_ok c -> unread c = a ++ x -> n = qb_pos c + zlen a -> unread (set_pos c n) = x /\ pos_ok (set_pos c n).
Proof.
  intros Hc Hu ->. pose proof (unread_length c Hc) as Hl. rewrite Hu, length_app in Hl. destruct Hc as [Hp Hs].
  split; [|split; cbn; lia]. unfold unread in *. cbn [querybuf qb_pos set_pos set_buf].
  replace (Z.to_nat (qb_pos c + zlen a)) with (Z.to_nat (qb_pos c) + length a)%nat by lia.
  rewrite <- drop_drop, Hu. apply drop_app_length.
Qed.

Lemma memchr_None ch s : memchr ch s = None <-> ch ∉ s.
Proof.
  induction s as [|x s IH]; cbn [memchr]; [split; [intros _; apply not_elem_of_nil|done]|].
  rewrite not_elem_of_cons. destruct (Z.eqb_spec x ch) as [->|Hne]; [split; [done|tauto]|].
  destruct (memchr ch s); mred; [split; [done|intros [_ Hn]; by apply IH in Hn]|].
  split; [|done]. intros _. split; [congruence|by apply IH].
Qed.

Lemma memchr_Some ch s i :
  memchr ch s = Some i <-> exists a x, s = a ++ ch :: x /\ (ch ∉ a) /\ i = zlen a.
Proof.
  revert i. induction s as [|x s IH]; intros i; cbn [memchr].
  { split; [done|]. by intros ([|] & ? & ? & _). }
  destruct (Z.eqb_spec x ch) as [->|Hne].
  - split.
    + intros [= <-]. exists [], s. split_and!; [done|apply not_elem_of_nil|done].
    + intros ([|y a] & z & Hs & Hn & ->); [done|]. exfalso. simplify_eq/=. apply Hn. left.
  - destruct (memchr ch s) as [j|] eqn:Hm; mred.
    + destruct (proj1 (IH j) eq_refl) as (a & z & -> & Hn & ->). split.
      * intros [= <-]. exists (x :: a), z. split_and!; [done|by apply not_elem_of_cons|rewrite length_cons; lia].
      * intros ([|y b] & z' & Hs & Hn' & ->); simplify_eq/=. apply not_elem_of_cons in Hn' as [_ Hn'].
        assert (Hb : Some (zlen a) = Some (zlen b)) by (apply IH; by exists b, z'). injection Hb as Hb.
        f_equal. lia.
    + split; [done|]. intros ([|y b] & z' & Hs & Hn' & ->); simplify_eq/=.
      assert (Hb : None = Some (zlen b)); [|done]. apply IH. apply not_elem_of_cons in Hn' as [_ ?]. by exists b, z'.
Qed.

Lemma strchr_memchr ch s :
  0 ∉ s -> strchr ch s = memchr ch s.
Proof.
  induction s as [|x s IH]; intros Hn; [done|]. apply not_elem_of_cons in Hn as [Hx Hn]. cbn [strchr memchr].
  rewrite IH by done. destruct (x =? ch); [done|]. by rewrite (proj2 (Z.eqb_neq x 0)) by congruence.
Qed.

Lemma strchr_found ch a x : 0 ∉ a -> ch ∉ a -> strchr ch (a ++ ch :: x) = Some (zlen a).
Proof.
  induction a as [|y a IH]; intros H0 Hn; cbn [strchr app]; [by rewrite Z.eqb_refl|].
  apply not_elem_of_cons in H0 as [Hy H0], Hn as [Hc Hn]. rewrite (proj2 (Z.eqb_neq y ch)), (proj2 (Z.eqb_neq y 0)) by congruence.
  rewrite IH by done. mred. rewrite length_cons. f_equal. lia.
Qed.

Lemma strchr_Some ch s i : strchr ch s = Some i -> exists a x, s = a ++ ch :: x /\ i = zlen a.
Proof.
  revert i. induction s as [|y s IH]; intros i; cbn [strchr]; [done|]. destruct (Z.eqb_spec y ch) as [->|Hne].
  - intros [= <-]. by exists [], s.
  - destruct (y =? 0); [done|]. destruct (strchr ch s) as [j|] eqn:Hs; mred; [|done]. intros [= <-].
    destruct (IH j eq_refl) as (a & x & -> & ->). exists (y :: a), x. split; [done|]. rewrite length_cons. lia.
Qed.

(** ** Every input is parsed without leaving the buffer *)

Section Proofs.
Context {S : Type} {SB : StringBuffer S}.
Context (proto_max_bulk_len client_max_querybuf_len lookahead : Z).
Context (authRequired closing : list (list (list Z)) -> bool).
Context (pool_argv_len repl_applied : client -> Z).
Context (Hbulk : 0 <= proto_max_bulk_len < 2 ^ 60) (Hmax : client_max_querybuf_len < 2 ^ 60 - 1).
Context (Hpool : forall c, 0 <= pool_argv_len c).

(** What parsing leaves alone. *)
Record kept (c c' : client) : Prop := Kept {
  k_reqtype : reqtype c' = reqtype c;
  k_pending : pending_cmds c' = pending_cmds c;
  k_error : c_read_error c' = c_read_error c;
  k_close : close_after_reply c' = close_after_reply c;
  k_executed : executed c' = executed c
}.

Lemma kept_refl c : kept c c.
Proof. by constructor. Qed.

Lemma kept_trans c1 c2 c3 : kept c1 c2 -> kept c2 c3 -> kept c1 c3.
Proof. intros [] []. constructor; congruence. Qed.

Lemma align_spec c ll :
  pos_ok c -> let c' := align_big_arg false c ll in
  unread c' = unread c /\ pos_ok c' /\ kept c c' /\ multibulklen c' = multibulklen c /\ all_argv_len_sum c' = all_argv_len_sum c.
Proof.
  intros Hc. unfold align_big_arg. cbn [negb andb].
  destruct ((ll >=? PROTO_MBULK_BIG_ARG) && (buf_left c <=? uwrap 64 (ll + 2))); [|cbv zeta; split_and!; by try apply kept_refl].
  cbv zeta. assert (Hs : unread (set_buf c (unread c) 0) = unread c /\ pos_ok (set_buf c (unread c) 0)).
  { split; [done|]. pose proof (unread_length c Hc). destruct Hc. split; cbn; lia. }
  destruct Hs as [Hs1 Hs2]. destruct (_ <? _); split_and!; try done.
Qed.

Lemma uwrap_small n : 0 <= n < 2 ^ 61 -> uwrap 64 n = n.
Proof. intros Hn. apply uwrap_id. unfold in_u. change (2 ^ 64) with 18446744073709551616. change (2 ^ 61) with 2305843009213693952 in Hn. lia. Qed.

(** A line that ends inside the buffer. *)
Lemma line_split c a x :
  pos_ok c -> unread c = a ++ 13 :: x -> whole_line c (zlen a) = true -> exists y z, unread c = a ++ [13; y] ++ z.
Proof.
  intros Hc Hu. rewrite whole_line_spec by done. rewrite Hu, length_app, length_cons. intros Hl.
  destruct x as [|y z]; [cbn [length] in Hl; lia|]. by exists y, z.
Qed.

(** What reading the length of an argument does. *)
Record bulklen_result (c : client) (p : pendingCommand) (c' : client) (p' : pendingCommand) (st : step) : Prop := BulklenResult {
  bl_pos : pos_ok c';
  bl_less : zlen (unread c') <= zlen (unread c);
  bl_kept : kept c c';
  bl_multi : multibulklen c' = multibulklen c;
  bl_sum : all_argv_len_sum c' = all_argv_len_sum c;
  bl_argv : argv p' = argv p /\ argv_len p' = argv_len p /\ argv_len_sum p' = argv_len_sum p /\ incomplete p' = incomplete p;
  bl_go : st = Go -> 0 <= bulklen c' < 2 ^ 60 /\ read_error p' = read_error p;
  bl_break : st = Break -> c' = c /\ p' = p;
  bl_bad : st = Error -> c' = c /\ is_error (read_error p') = true
}.

Lemma bulklen_same c p st :
  pos_ok c -> st = Break -> bulklen_result c p c p st.
Proof. intros Hc ->. constructor; try done; apply kept_refl. Qed.

Lemma bulklen_fail c p e : pos_ok c -> bulklen_result c p c (fail p e) Error.
Proof. intros Hc. constructor; try done; apply kept_refl. Qed.

Lemma read_bulklen_spec c p :
  pos_ok c -> exists c' p' st, read_bulklen false proto_max_bulk_len authRequired c p = Some (c', p', st) /\
    bulklen_result c p c' p' st.
Proof.
  intros Hc. unfold read_bulklen. destruct (memchr 13 (unread c)) as [n|] eqn:Hm.
  2: { destruct (_ >? _); eexists _, _, _; (split; [done|]); [by apply bulklen_fail|by apply bulklen_same]. }
  apply memchr_Some in Hm as (a & x & Hu & Hna & ->).
  destruct (whole_line c (zlen a)) eqn:Hw; cbn [negb]; [|eexists _, _, _; split; [done|by apply bulklen_same]].
  destruct (line_split c a x Hc Hu Hw) as (y & z & Hu').
  rewrite rd_unread, Hu' by done. destruct a as [|d a]; cbn [app head]; mred.
  { eexists _, _, _. split; [done|by apply bulklen_fail]. }
  destruct (Z.eqb_spec d 36) as [->|Hd]; cbn [negb]; [|eexists _, _, _; split; [done|by apply bulklen_fail]].
  rewrite (rdn_unread c [36] a ([13; y] ++ z)) by (try done; rewrite length_cons; lia). mred.
  destruct (string2ll a) as [ll|] eqn:Hll; [|eexists _, _, _; split; [done|by apply bulklen_fail]].
  cbn [negb andb]. destruct ((ll <? 0) || (ll >? proto_max_bulk_len)) eqn:Hr; [eexists _, _, _; split; [done|by apply bulklen_fail]|].
  destruct (_ && _); [eexists _, _, _; split; [done|by apply bulklen_fail]|].
  eexists _, _, _. split; [done|].
  destruct (unread_advance c ((36 :: a) ++ [13; y]) z (qb_pos c + zlen (36 :: a) + 2) Hc) as [Hu1 Hp1].
  { by rewrite Hu', <- app_assoc. } { rewrite length_app. cbn [length]. lia. }
  destruct (align_spec _ ll Hp1) as (Hu2 & Hp2 & Hk2 & Hm2 & Hs2).
  constructor; try done; cbn.
  - unfold unread in *. cbn in *. rewrite Hu2, Hu1, Hu'. rewrite length_cons, !length_app. cbn [length]. lia.
  - destruct Hk2. by constructor.
  - intros _. split; [lia|done].
Qed.

(** The vector has room for the arguments that are left. *)
Definition vec_ok (c : client) (p : pendingCommand) : Prop :=
  argc p <= argv_len p /\ 1 <= argv_len p /\ argc p + multibulklen c <= INT_MAX.

Lemma grow_spec c p :
  vec_ok c p -> 0 < multibulklen c -> let p' := grow_argv c p in
  argc p' < argv_len p' /\ argv p' = argv p /\ argv_len_sum p' = argv_len_sum p /\ incomplete p' = incomplete p /\
  read_error p' = read_error p.
Proof.
  intros (Ha & H1 & Hb) Hm. unfold grow_argv. cbv zeta. destruct (Z.geb_spec (argc p) (argv_len p)); cbn; [|done].
  split_and!; try done. unfold argc in *. cbn [argv set_vector argv_len]. unfold INT_MAX in *.
  destruct (Z.ltb_spec (argv_len p) (2147483647 / 2)); lia.
Qed.

(** An argument that is complete in the buffer. *)
Record arg_result (c : client) (p : pendingCommand) (c' : client) (p' : pendingCommand) : Prop := ArgResult {
  ar_pos : pos_ok c';
  ar_unread : unread c' = drop (Z.to_nat (bulklen c + 2)) (unread c);
  ar_kept : kept c c';
  ar_multi : multibulklen c' = multibulklen c - 1 /\ bulklen c' = -1;
  ar_argv : argv p' = argv p ++ [take (Z.to_nat (bulklen c)) (unread c)];
  ar_sum : argv_len_sum p' = argv_len_sum p + bulklen c /\ all_argv_len_sum c' = all_argv_len_sum c + bulklen c;
  ar_same : incomplete p' = incomplete p /\ read_error p' = read_error p;
  ar_vec : vec_ok c' p'
}.

Lemma read_arg_spec c p :
  pos_ok c -> vec_ok c p -> 0 < multibulklen c -> 0 <= bulklen c < 2 ^ 60 -> bulklen c + 2 <= zlen (unread c) ->
  exists c' p', read_arg false c p = Some (c', p') /\ arg_result c p c' p'.
Proof.
  intros Hc Hv Hm Hb Hl. unfold read_arg. cbv zeta.
  destruct (grow_spec c p Hv Hm) as (Hroom & Hargv & Hsum & Hinc & Herr). set (p1 := grow_argv c p) in *.
  rewrite Z.geb_leb. replace (argv_len p1 <=? argc p1) with false by (symmetry; lia).
  pose proof (unread_length c Hc) as Hul.
  assert (Harg : rdn (querybuf c) (qb_pos c) (bulklen c) = Some (take (Z.to_nat (bulklen c)) (unread c))).
  { rewrite <- (Z.add_0_r (qb_pos c)). apply (rdn_unread c [] _ (drop (Z.to_nat (bulklen c)) (unread c)) _ Hc).
    - by rewrite app_nil_l, take_drop.
    - rewrite length_take. lia. }
  rewrite Harg. mred. rewrite uwrap_small by (change (2 ^ 61) with (2 * 2 ^ 60); lia). eexists _, _. split; [done|].
  assert (Hlen : zlen (take (Z.to_nat (bulklen c)) (unread c)) = bulklen c) by (rewrite length_take; lia).
  set (b := negb false && _ && _ && _). assert (Hc' : exists c1, (if b then set_buf c [] 0 else set_pos c (qb_pos c + bulklen c + 2)) = c1 /\
    pos_ok c1 /\ unread c1 = drop (Z.to_nat (bulklen c + 2)) (unread c) /\ kept c c1).
  { destruct b eqn:Hbig.
    - eexists. split; [done|]. unfold b in Hbig. cbn [negb andb] in Hbig.
      apply andb_true_iff in Hbig as [[Hq _]%andb_true_iff Hlb]. split_and!; [split; cbn; lia| |by constructor].
      rewrite drop_ge by lia. done.
    - eexists. split; [done|].
      destruct (unread_advance c (take (Z.to_nat (bulklen c + 2)) (unread c)) (drop (Z.to_nat (bulklen c + 2)) (unread c))
        (qb_pos c + bulklen c + 2) Hc) as [Hu1 Hp1]; [by rewrite take_drop|rewrite length_take; lia|].
      split_and!; [done|done|by constructor]. }
  destruct Hc' as (c1 & -> & Hp1 & Hu1 & Hk1). destruct Hk1. constructor; try done; cbn.
  - by rewrite Hargv.
  - rewrite Hlen, Hsum. done.
  - destruct Hv as (? & ? & ?). unfold vec_ok, argc in *. cbn [argv push_arg argv_len multibulklen set_request].
    rewrite length_app, Hargv in *. cbn [length]. lia.
Qed.

(** The state inside a command. *)
Definition inside (c : client) (p : pendingCommand) : Prop :=
  0 < multibulklen c /\ vec_ok c p /\ (bulklen c = -1 \/ 0 <= bulklen c < 2 ^ 60).

Record loop_result (c : client) (p : pendingCommand) (c' : client) (p' : pendingCommand) (ok : bool) : Prop := LoopResult {
  lr_pos : pos_ok c';
  lr_less : zlen (unread c') <= zlen (unread c);
  lr_done : 0 < multibulklen c -> multibulklen c' = 0 -> zlen (unread c') < zlen (unread c);
  lr_kept : kept c c';
  lr_inside : multibulklen c' = 0 \/ inside c' p';
  lr_sum : all_argv_len_sum c' - argv_len_sum p' = all_argv_len_sum c - argv_len_sum p /\ argv_len_sum p <= argv_len_sum p';
  lr_inc : incomplete p' = incomplete p;
  lr_ok : ok = true -> read_error p' = read_error p;
  lr_bad : ok = false -> is_error (read_error p') = true /\ 0 < multibulklen c'
}.

Lemma bulk_loop_total fuel : forall c p,
  pos_ok c -> multibulklen c = 0 \/ inside c p -> (bulklen c = -1 \/ incomplete p = true) ->
  (length (unread c) < fuel)%nat ->
  exists c' p' ok, bulk_loop false proto_max_bulk_len authRequired fuel c p = Some (c', p', ok) /\ loop_result c p c' p' ok.
Proof.
  induction fuel as [|fuel IH]; intros c p Hc Hin Hinc Hf; [lia|]. cbn [bulk_loop].
  destruct (Z.eqb_spec (multibulklen c) 0) as [Hz|Hz].
  { exists c, p, true. split; [done|]. constructor; try done; try lia; apply kept_refl. }
  destruct Hin as [?|(Hm & Hv & Hbl)]; [done|].
  assert (Hread : exists c1 p1 st, (if bulklen c =? -1 then read_bulklen false proto_max_bulk_len authRequired c p
      else if incomplete p then Some (c, p, Go) else None) = Some (c1, p1, st) /\ bulklen_result c p c1 p1 st).
  { destruct (Z.eqb_spec (bulklen c) (-1)); [by apply read_bulklen_spec|]. destruct Hinc as [?|Hi]; [done|]. rewrite Hi.
    exists c, p, Go. split; [done|]. constructor; try done. intros _. split; [lia|done]. }
  destruct Hread as (c1 & p1 & st & -> & [Hp1 Hl1 Hk1 Hm1 Hs1 (Ha1 & Hal1 & Hls1 & Hi1) Hgo Hbr Hbad]). mred.
  assert (Hv1 : vec_ok c1 p1) by (unfold vec_ok, argc in *; by rewrite Ha1, Hal1, Hm1). destruct st.
  - destruct (Hgo eq_refl) as [Hb1 He1]. rewrite buf_left_spec by done.
    rewrite uwrap_small by (change (2 ^ 61) with (2 * 2 ^ 60); lia).
    destruct (Z.ltb_spec (zlen (unread c1)) (bulklen c1 + 2)).
    + exists c1, p1, true. split; [done|]. constructor; try done; [lia| |lia]. right. split_and!; [lia|done|by right].
    + destruct (read_arg_spec c1 p1 Hp1 Hv1 ltac:(lia) Hb1 ltac:(lia)) as (c2 & p2 & -> & [Hp2 Hu2 Hk2 [Hm2 Hbl2] _ [Hs2 Hall2] [Hi2 He2] Hv2]).
      mred. assert (Hlen : zlen (unread c2) + 2 <= zlen (unread c1)) by (rewrite Hu2, length_drop; lia).
      destruct (IH c2 p2 Hp2) as (c' & p' & ok & Heq & [Hp' Hl' Hd' Hk' Hin' Hs' Hi' Hok' Hbad']); [|by left|lia|].
      { destruct (decide (multibulklen c2 = 0)); [by left|right]. split_and!; [lia|done|by left]. }
      exists c', p', ok. split; [done|]. constructor; try done; try lia.
      * eapply kept_trans; [done|by eapply kept_trans].
      * intros Hok. by rewrite (Hok' Hok), He2, He1.
  - destruct (Hbr eq_refl) as [-> ->]. exists c, p, true. split; [done|].
    constructor; try done; try lia. right. split_and!; [lia|done|lia].
  - destruct (Hbad eq_refl) as [-> He]. exists c, p1, false. split; [done|]. constructor; try done; try lia.
    right. split_and!; [lia|done|lia].
Qed.

(** *** The parser of multibulk requests *)

(** A new command, before its first line, or one inside its arguments. *)
Definition fresh (c : client) (p : pendingCommand) : Prop :=
  multibulklen c = 0 /\ bulklen c = -1 /\ head (unread c) = Some 42 /\ argv p = [] /\ 0 <= argv_len p /\
  argv_len_sum p = 0 /\ incomplete p = false /\ read_error p = None.

Record parse_result (c : client) (p : pendingCommand) (c' : client) (p' : pendingCommand) (ok : bool) : Prop := ParseResult {
  pr_pos : pos_ok c';
  pr_less : zlen (unread c') <= zlen (unread c);
  pr_done : ok = true -> incomplete p' = false -> zlen (unread c') < zlen (unread c);
  pr_kept : kept c c';
  pr_inside : incomplete p' = true -> inside c' p';
  pr_sum : all_argv_len_sum c' - argv_len_sum p' = all_argv_len_sum c - argv_len_sum p /\ argv_len_sum p <= argv_len_sum p';
  pr_wait : ok = false -> is_error (read_error p') = false -> c' = c /\ p' = p /\ incomplete p = false;
  pr_inc : ok = false -> incomplete p' = incomplete p
}.

Lemma parse_wait c p : pos_ok c -> incomplete p = false -> parse_result c p c p false.
Proof. intros Hc Hi. constructor; try done; congruence. Qed.

Lemma parse_fail c p e : pos_ok c -> (incomplete p = true -> inside c p) -> parse_result c p c (fail p e) false.
Proof. intros Hc Hi. constructor; try done; apply kept_refl. Qed.

(** The first line. *)
Lemma read_multibulklen_spec c p :
  pos_ok c -> fresh c p -> exists c' p' r, read_multibulklen authRequired c p = Some (c', p', r) /\
    match r with
    | Return ok => parse_result c p c' p' ok
    | Continue => pos_ok c' /\ kept c c' /\ inside c' p' /\ bulklen c' = -1 /\ zlen (unread c') < zlen (unread c) /\
        all_argv_len_sum c' = all_argv_len_sum c /\ argv_len_sum p' = 0 /\ incomplete p' = false /\ read_error p' = None
    end.
Proof.
  intros Hc (Hm & Hb & Hstar & Hargv & Hcap & Hsum & Hinc & Herr). unfold read_multibulklen, argc. rewrite Hargv. cbn [length Z.of_nat Z.eqb negb].
  assert (Hni : incomplete p = true -> inside c p) by congruence.
  destruct (strchr 13 (unread c)) as [n|] eqn:Hs.
  2: { destruct (_ >? _); eexists _, _, _; (split; [done|]); [by apply parse_fail|by apply parse_wait]. }
  destruct (strchr_Some 13 (unread c) n Hs) as (a & x & Hu & ->).
  destruct (whole_line c (zlen a)) eqn:Hw; cbn [negb]; [|eexists _, _, _; split; [done|by apply parse_wait]].
  destruct (line_split c a x Hc Hu Hw) as (y & z & Hu'). rewrite rd_unread by done. rewrite Hstar. mred. cbn [Z.eqb Pos.eqb negb].
  destruct a as [|d a]; [rewrite Hu' in Hstar; done|].
  assert (d = 42) as -> by (rewrite Hu' in Hstar; by injection Hstar).
  rewrite (rdn_unread c [42] a ([13; y] ++ z)) by (try done; rewrite length_cons; lia). mred.
  destruct (string2ll a) as [ll|] eqn:Hll; [|eexists _, _, _; split; [done|by apply parse_fail]].
  destruct (Z.gtb_spec ll INT_MAX) as [Hbig|Hbig]; [eexists _, _, _; split; [done|by apply parse_fail]|].
  destruct (_ && _); [eexists _, _, _; split; [done|by apply parse_fail]|].
  destruct (unread_advance c ((42 :: a) ++ [13; y]) z (qb_pos c + zlen (42 :: a) + 2) Hc) as [Hu1 Hp1].
  { by rewrite Hu', <- app_assoc. } { rewrite length_app. cbn [length]. lia. }
  assert (Hless : zlen z < zlen (unread c)) by (rewrite Hu', !length_app; cbn [length]; lia).
  destruct (Z.leb_spec ll 0) as [Hle|Hle].
  - eexists _, _, _. split; [done|]. constructor; try done; rewrite ?Hu1; try lia; congruence.
  - eexists _, _, _. split; [done|]. unfold unread in *. cbn in *.
    assert (Hcap' : argv_len (setup_argv p ll) >= 1 /\ argv_len_sum (setup_argv p ll) = 0 /\ argv (setup_argv p ll) = [] /\
      incomplete (setup_argv p ll) = false /\ read_error (setup_argv p ll) = None).
    { unfold setup_argv. destruct (Z.gtb_spec ll (argv_len p)); cbn; split_and!; try done; lia. }
    destruct Hcap' as (H1 & H2 & H3 & H4 & H5). split_and!; try done; rewrite ?Hu1; try lia; try by constructor.
    unfold inside, vec_ok, argc. cbn. rewrite H3. cbn [length]. split_and!; lia.
Qed.

Lemma processMultibulkBuffer_spec c p :
  pos_ok c -> fresh c p \/ (inside c p /\ incomplete p = true) ->
  exists c' p' ok, processMultibulkBuffer false proto_max_bulk_len authRequired c p = Some (c', p', ok) /\
    parse_result c p c' p' ok.
Proof.
  intros Hc Hp. unfold processMultibulkBuffer.
  assert (Hhead : exists c1 p1 r, (if multibulklen c =? 0 then read_multibulklen authRequired c p else Some (c, p, Continue)) =
    Some (c1, p1, r) /\ match r with
    | Return ok => parse_result c p c1 p1 ok
    | Continue => pos_ok c1 /\ kept c c1 /\ inside c1 p1 /\ (bulklen c1 = -1 \/ incomplete p1 = true) /\
        zlen (unread c1) <= zlen (unread c) /\
        all_argv_len_sum c1 - argv_len_sum p1 = all_argv_len_sum c - argv_len_sum p /\ argv_len_sum p1 = argv_len_sum p /\
        incomplete p1 = incomplete p
    end).
  { destruct Hp as [Hp|[Hp Hi]].
    - rewrite (proj2 (Z.eqb_eq (multibulklen c) 0) (proj1 Hp)).
      destruct (read_multibulklen_spec c p Hc Hp) as (c1 & p1 & r & Hr & H1). exists c1, p1, r. split; [done|].
      destruct r; [done|]. destruct H1 as (? & ? & ? & ? & ? & ? & Hsum & Hinc & _). destruct Hp as (_ & _ & _ & _ & _ & Hs0 & Hi0 & _).
      split_and!; try done; [by left|lia|lia|lia|congruence].
    - destruct Hp as (Hm & Hv & Hb). rewrite (proj2 (Z.eqb_neq (multibulklen c) 0)) by lia.
      exists c, p, Continue. split; [done|]. split_and!; try done; try lia; by right. }
  destruct Hhead as (c1 & p1 & r & -> & H1). mred. destruct r as [ok|]; [by exists c1, p1, ok|].
  destruct H1 as (Hp1 & Hk1 & Hin1 & Hb1 & Hl1 & Hs1 & Hs1' & Hi1).
  assert (Hm1 : 0 < multibulklen c1) by apply Hin1.
  rewrite (proj2 (Z.gtb_lt _ _) Hm1). cbn [negb].
  destruct (bulk_loop_total (Datatypes.S (length (querybuf c1))) c1 p1 Hp1 (or_intror Hin1) Hb1) as
    (c2 & p2 & ok & -> & [Hp2 Hl2 Hd2 Hk2 Hin2 Hs2 Hi2 Hok2 Hbad2]); [unfold unread; rewrite length_drop; lia|]. mred.
  destruct ok; cbn [negb].
  - destruct (Z.eqb_spec (multibulklen c2) 0) as [Hz|Hz]; eexists _, _, true; (split; [done|]);
      constructor; try done; cbn; try lia; try (by eapply kept_trans).
    intros _. destruct Hin2 as [?|?]; [done|done].
  - destruct (Hbad2 eq_refl) as [He Hm2]. eexists _, _, false. split; [done|].
    constructor; try done; cbn; try lia; try (by eapply kept_trans); try (intros; congruence).
    intros _. destruct Hin2 as [?|?]; [lia|done].
Qed.

(** *** Inline requests *)

Definition empty_cmd (p : pendingCommand) : Prop :=
  argv p = [] /\ 0 <= argv_len p /\ argv_len_sum p = 0 /\ incomplete p = false /\ read_error p = None.

Lemma rd_unread_at c a b x : pos_ok c -> unread c = a ++ b :: x -> rd (querybuf c) (qb_pos c + zlen a) = Some b.
Proof.
  intros Hc Hu. rewrite (unread_split c Hc), Hu, app_assoc. rewrite rd_app_r; [done|].
  rewrite length_app, length_take. destruct Hc. lia.
Qed.

(** The line without its end: [\n] or [\r\n]. *)
Lemma inline_line c a x :
  pos_ok c -> unread c = a ++ 10 :: x ->
  exists before line lf, (if zlen a =? 0 then Some 0 else rd (querybuf c) (qb_pos c + zlen a - 1)) = Some before /\
    (if before =? 13 then (zlen a - 1, 2) else (zlen a, 1)) = (zlen line, zlen lf) /\ unread c = line ++ lf ++ x /\
    1 <= zlen lf /\ rdn (querybuf c) (qb_pos c) (zlen line) = Some line.
Proof.
  intros Hc Hu.
  assert (Hrd : forall line lf, unread c = line ++ lf ++ x -> rdn (querybuf c) (qb_pos c) (zlen line) = Some line).
  { intros line lf Hl. rewrite <- (Z.add_0_r (qb_pos c)). by apply (rdn_unread c [] line (lf ++ x)). }
  destruct a as [|b a _] using rev_ind.
  { exists 0, [], [10]. split_and!; try done. by apply (Hrd [] [10]). }
  rewrite length_app. cbn [length]. rewrite (proj2 (Z.eqb_neq _ 0)) by lia.
  replace (qb_pos c + Z.of_nat (length a + 1) - 1) with (qb_pos c + zlen a) by lia.
  rewrite <- app_assoc in Hu. rewrite (rd_unread_at c a b (10 :: x) Hc Hu). exists b.
  destruct (Z.eqb_spec b 13) as [->|Hb].
  - exists a, [13; 10]. split_and!; try done; [f_equal; lia|]. by apply (Hrd a [13; 10]).
  - exists (a ++ [b]), [10]. rewrite length_app. cbn [length]. rewrite <- app_assoc. split_and!; try done.
    rewrite <- (Hrd (a ++ [b]) [10]); [by rewrite length_app|by rewrite <- app_assoc].
Qed.

Lemma processInlineBuffer_spec c p :
  pos_ok c -> empty_cmd p -> exists c' p' ok, processInlineBuffer false c p = Some (c', p', ok) /\ parse_result c p c' p' ok /\
    incomplete p' = false.
Proof.
  intros Hc (Hargv & Hcap & Hsum & Hinc & Herr). unfold processInlineBuffer.
  assert (Hni : incomplete p = true -> inside c p) by congruence.
  destruct (strchr 10 (unread c)) as [n|] eqn:Hs.
  2: { destruct (_ >? _); eexists _, _, _; (split; [done|]); (split; [|done]); [by apply parse_fail|by apply parse_wait]. }
  destruct (strchr_Some 10 (unread c) n Hs) as (a & x & Hu & ->).
  destruct (inline_line c a x Hc Hu) as (before & line & lf & -> & Hlen & Hu' & Hlf & Hrd). mred. rewrite Hlen, Hrd. mred.
  assert (Hsz : zlen line < 2 ^ 60 - 1).
  { pose proof (unread_length c Hc) as Hul. rewrite Hu', !length_app in Hul. destruct Hc. lia. }
  destruct (sb_new_spec line) as (aux & -> & _ & Haux); [change (2 ^ 61) with (2 * 2 ^ 60); lia|]. mred. rewrite Haux.
  destruct (splitargs_loop_total (Datatypes.S (Datatypes.S (length line))) (line ++ [0]) []) as [r Hr].
  { apply elem_of_app. right. by apply list_elem_of_singleton. }
  { rewrite length_app. cbn [length]. lia. } { rewrite length_app. cbn [length]. lia. }
  unfold sdssplitargs. rewrite Hr. mred. destruct r as [args|]; [|eexists _, _, _; split_and!; [done|by apply parse_fail|done]].
  rewrite andb_false_r. cbv zeta. set (args' := map sb_bytes args). eexists _, _, true. split; [done|].
  destruct (unread_advance c (line ++ lf) x (qb_pos c + (zlen line + zlen lf)) Hc) as [Hu1 Hp1];
    [by rewrite Hu', app_assoc|rewrite length_app; lia|].
  assert (Hless : zlen x < zlen (unread c)) by (rewrite Hu', !length_app; lia).
  set (p1 := if _ && _ then set_vector p (zlen args') 0 else p).
  assert (Hp1s : argv_len_sum p1 = 0 /\ incomplete p1 = false /\ read_error p1 = None) by (unfold p1; by destruct (_ && _)).
  destruct Hp1s as (H1 & H2 & H3). unfold unread in *. cbn in *. split; [|done]. constructor; try done; unfold unread; cbn; rewrite ?Hu1; try lia; try by constructor.
  rewrite Hsum, H1. unfold total_len. lia.
Qed.

(** *** Pending commands *)

Fixpoint sums (l : list pendingCommand) : Z :=
  match l with [] => 0 | p :: l => argv_len_sum p + sums l end.

Lemma sums_app l1 l2 : sums (l1 ++ l2) = sums l1 + sums l2.
Proof. induction l1 as [|p l1 IH]; cbn [sums app]; lia. Qed.

Lemma sums_nonneg l : Forall (fun p => 0 <= argv_len_sum p) l -> 0 <= sums l.
Proof. induction 1 as [|p l Hp _ IH]; cbn [sums]; lia. Qed.

(** The ready commands [Q] come first, a command that is not complete is the last; the
    account of argument bytes is right. *)
Record wfq (c : client) (Q tail : list pendingCommand) : Prop := Wfq {
  wf_pos : pos_ok c;
  wf_pending : pending_cmds c = Q ++ tail;
  wf_ready : Forall (fun p => incomplete p = false) Q;
  wf_sum : all_argv_len_sum c = sums (pending_cmds c);
  wf_nonneg : Forall (fun p => 0 <= argv_len_sum p) (pending_cmds c);
  wf_tail : match tail with
            | [] => Forall (fun p => read_error p = None) Q -> multibulklen c = 0 /\ bulklen c = -1
            | [p] => incomplete p = true /\ reqtype c = REQ_MULTIBULK /\ inside c p
            | _ => False
            end;
  wf_star : Forall (fun p => read_error p = None) Q -> reqtype c = REQ_MULTIBULK -> multibulklen c = 0 ->
    head (unread c) = Some 42
}.

Lemma ready_spec c Q tail : wfq c Q tail -> ready_len c = zlen Q.
Proof.
  intros [_ Hp Hr _ _ Ht _]. unfold ready_len. rewrite Hp, filter_app.
  assert (HQ : filter (fun p => incomplete p = false) Q = Q).
  { clear -Hr. induction Hr as [|p Q Hp _ IH]; [done|]. by rewrite filter_cons_True, IH. }
  assert (Htl : filter (fun p => incomplete p = false) tail = []).
  { destruct tail as [|p [|? ?]]; [done| |done]. destruct Ht as (Hi & _). rewrite filter_cons_False; [done|congruence]. }
  by rewrite HQ, Htl, app_nil_r.
Qed.

Lemma acquire_empty c : empty_cmd (acquirePendingCommand pool_argv_len c).
Proof. unfold empty_cmd. cbn. by split_and!. Qed.

(** What the loops leave alone. *)
Definition same_run (c c' : client) : Prop :=
  c_read_error c' = c_read_error c /\ close_after_reply c' = close_after_reply c /\ executed c' = executed c.

(** The state after one turn of the inner loop. *)
Record turn (c : client) (Q : list pendingCommand) (c' : client) (more : bool) : Prop := Turn {
  t_same : same_run c c';
  t_less : zlen (unread c') <= zlen (unread c);
  t_state : if more then exists q, wfq c' (Q ++ [q]) [] /\ read_error q = None /\ zlen (unread c') < zlen (unread c)
            else (exists tail, wfq c' Q tail) \/ (exists q, wfq c' (Q ++ [q]) [] /\ is_error (read_error q) = true)
}.

(** A parsed command is put at the end of the list. *)
Lemma add_wf c p c1 p1 ok Q :
  parse_result c p c1 p1 ok -> pending_cmds c = Q -> Forall (fun p => incomplete p = false) Q ->
  all_argv_len_sum c = sums Q + argv_len_sum p -> Forall (fun p => 0 <= argv_len_sum p) Q -> 0 <= argv_len_sum p ->
  pending_cmds (addPendingCommand c1 p1) = Q ++ [p1] /\
  all_argv_len_sum (addPendingCommand c1 p1) = sums (pending_cmds (addPendingCommand c1 p1)) /\
  Forall (fun p => 0 <= argv_len_sum p) (pending_cmds (addPendingCommand c1 p1)) /\
  pos_ok (addPendingCommand c1 p1) /\ same_run c (addPendingCommand c1 p1).
Proof.
  intros [Hp1 _ _ [_ Hpend He Hc Hx] _ [Hs1 Hs2] _ _] HQ Hrdy Hsum Hnn Hnp.
  assert (Heq : pending_cmds (addPendingCommand c1 p1) = Q ++ [p1]) by (cbn; by rewrite Hpend, HQ).
  rewrite Heq, sums_app, Forall_app, Forall_singleton. cbn [sums].
  change (all_argv_len_sum (addPendingCommand c1 p1)) with (all_argv_len_sum c1).
  split_and!; [done|lia|done|lia|done|by split_and!].
Qed.

Lemma finish_spec c p c1 p1 ok Q :
  pos_ok c -> parse_result c p c1 p1 ok -> pending_cmds c = Q -> Forall (fun p => incomplete p = false) Q ->
  Forall (fun p => read_error p = None) Q ->
  all_argv_len_sum c = sums Q + argv_len_sum p -> Forall (fun p => 0 <= argv_len_sum p) Q -> 0 <= argv_len_sum p ->
  (incomplete p = false -> multibulklen c = 0 /\ bulklen c = -1) ->
  (reqtype c = REQ_MULTIBULK -> multibulklen c = 0 -> head (unread c) = Some 42) ->
  (reqtype c = REQ_MULTIBULK \/ incomplete p1 = false) ->
  exists c' more,
    (if negb ok && negb (is_error (read_error p1)) then c ← freePendingCommand c1 p1; Some (c, false)
     else
       let c := addPendingCommand c1 p1 in
       if is_error (read_error p1) || incomplete p1 then Some (c, false) else Some (resetClientQbufState c, true))
    = Some (c', more) /\ turn c Q c' more.
Proof.
  intros Hpos Hr HQ Hrdy Hne Hsum HnQ Hnp Hfresh Hstar Hty.
  destruct (add_wf c p c1 p1 ok Q Hr HQ Hrdy Hsum HnQ Hnp) as (Hpend & Hsums & Hnn & Hpos1 & Hsame).
  destruct Hr as [Hp1 Hl1 Hd1 Hk1 Hin1 Hs1 Hw1 Hi1].
  destruct (negb ok && negb (is_error (read_error p1))) eqn:Hwait.
  { destruct ok, (is_error (read_error p1)) eqn:He; try done. destruct (Hw1 eq_refl eq_refl) as (-> & -> & Hfr).
    unfold freePendingCommand. pose proof (sums_nonneg Q HnQ). rewrite (proj2 (Z.geb_le _ _)) by lia. mred.
    eexists _, false. split; [done|]. constructor; [done|done|]. left. exists [].
    constructor; cbn; rewrite ?app_nil_r, ?HQ; try done; [lia|]. intros _. by apply Hfresh. }
  cbv zeta. destruct (incomplete p1) eqn:Hi.
  - rewrite orb_true_r. eexists _, false. split; [done|]. constructor; [done|done|]. left. exists [p1].
    destruct (Hin1 eq_refl) as (Hm & Hv & Hb). destruct Hty as [Hty|]; [|done]. constructor; try done.
    + split_and!; [done|cbn; by rewrite (k_reqtype _ _ Hk1)|done].
    + cbn. lia.
  - rewrite orb_false_r. assert (Hrdy1 : Forall (fun p => incomplete p = false) (Q ++ [p1]))
      by (rewrite Forall_app, Forall_singleton; by split).
    destruct (is_error (read_error p1)) eqn:He.
    + eexists _, false. split; [done|]. constructor; [done|done|]. right. exists p1. split; [|done].
      assert (Hno : ~ Forall (fun p => read_error p = None) (Q ++ [p1])).
      { rewrite Forall_app, Forall_singleton. intros [_ Hn]. by rewrite Hn in He. }
      constructor; try done. by rewrite app_nil_r.
    + destruct ok; [|done]. eexists _, true. split; [done|]. constructor; [done|done|]. exists p1.
      split_and!; [|by destruct (read_error p1)|by apply Hd1]. constructor; try done. by rewrite app_nil_r.
Qed.

Lemma last_snoc_tail c Q p :
  pending_cmds c = Q ++ [p] -> popPendingCommandFromTail c = Some (set_pending c Q, p).
Proof.
  intros Hp. unfold popPendingCommandFromTail. rewrite Hp, last_snoc. mred. by rewrite removelast_last.
Qed.

Lemma parse_one_spec c Q tail :
  wfq c Q tail -> Forall (fun p => read_error p = None) Q -> unread c <> [] ->
  exists c' more, parse_one false proto_max_bulk_len authRequired pool_argv_len c = Some (c', more) /\ turn c Q c' more.
Proof.
  intros Hwf Hne Hun. pose proof (ready_spec c Q tail Hwf) as Hready. destruct Hwf as [Hpos Hpend Hrdy Hsum Hnn Htail Hstar].
  unfold parse_one. rewrite rd_unread by done. destruct (unread c) as [|first rest] eqn:Hu; [done|]. cbn [head]. mred.
  set (t := match reqtype c with REQ_UNKNOWN => if first =? 42 then REQ_MULTIBULK else REQ_INLINE | t => t end).
  cbv zeta. set (c0 := set_request c t (multibulklen c) (bulklen c)).
  assert (Hpos0 : pos_ok c0) by done. assert (Hu0 : unread c0 = first :: rest) by done.
  assert (Hready0 : ready_len c0 = zlen Q) by done. rewrite Hpend in Hnn. apply Forall_app in Hnn as [HnQ Hnt].
  assert (Hstar0 : reqtype c0 = REQ_MULTIBULK -> multibulklen c0 = 0 -> head (unread c0) = Some 42).
  { cbn. unfold t. rewrite Hu0. destruct (reqtype c) eqn:Ht; cbn [head].
    - destruct (Z.eqb_spec first 42); [by subst|done].
    - done.
    - intros _ Hz. by apply Hstar. }
  destruct tail as [|p [|? ?]]; [| |done].
  - rewrite app_nil_r in Hpend. destruct (Htail Hne) as [Hm0 Hb0].
    assert (Hsum0 : all_argv_len_sum c0 = sums Q + argv_len_sum (acquirePendingCommand pool_argv_len c0))
      by (cbn; rewrite Hsum, Hpend; lia).
    destruct t eqn:Ht.
    + exfalso. unfold t in Ht. destruct (reqtype c); try done. by destruct (first =? 42).
    + destruct (processInlineBuffer_spec c0 (acquirePendingCommand pool_argv_len c0) Hpos0 (acquire_empty c0))
        as (c1 & p1 & ok & -> & Hr & Hi). mred.
      destruct (finish_spec c0 _ c1 p1 ok Q Hpos0 Hr) as (c' & more & Heq & [Hs Hl Hst]); try done; [by right|].
      exists c', more. split; [exact Heq|]. by constructor.
    + rewrite Hready0. change (pending_cmds c0) with (pending_cmds c). rewrite Hpend, Z.eqb_refl. cbn [negb]. mred.
      destruct (processMultibulkBuffer_spec c0 (acquirePendingCommand pool_argv_len c0) Hpos0) as (c1 & p1 & ok & -> & Hr).
      { left. unfold fresh. destruct (acquire_empty c0) as (? & ? & ? & ? & ?). split_and!; try done. by apply Hstar0. }
      mred. destruct (finish_spec c0 _ c1 p1 ok Q Hpos0 Hr) as (c' & more & Heq & [Hs Hl Hst]); try done; [by left|].
      exists c', more. split; [exact Heq|]. by constructor.
  - destruct Htail as (Hi & Hty & Hin). rewrite Forall_singleton in Hnt.
    assert (Ht : t = REQ_MULTIBULK) by (unfold t; by rewrite Hty). rewrite Ht.
    rewrite Hready0. change (pending_cmds c0) with (pending_cmds c). rewrite Hpend, length_app. cbn [length].
    rewrite (proj2 (Z.eqb_neq _ _)) by lia. cbn [negb]. rewrite (last_snoc_tail c0 Q p Hpend). mred.
    destruct (processMultibulkBuffer_spec (set_pending c0 Q) p) as (c1 & p1 & ok & -> & Hr); [done|by right|]. mred.
    destruct (finish_spec (set_pending c0 Q) p c1 p1 ok Q) as (c' & more & Heq & [Hs Hl Hst]); try done.
    + cbn. rewrite Hsum, Hpend, sums_app. cbn [sums]. lia.
    + intros Hi'. congruence.
    + by left.
    + exists c', more. split; [exact Heq|]. by constructor.
Qed.

(** *** The loops *)

(** The ready commands are without error, but possibly for a last one that ends the
    parsing. *)
Definition wfe (c : client) (Q E tail : list pendingCommand) : Prop :=
  wfq c (Q ++ E) tail /\ Forall (fun p => read_error p = None) Q /\
  (E = [] \/ exists q, E = [q] /\ is_error (read_error q) = true).

Definition wf (c : client) : Prop := exists Q E tail, wfe c Q E tail.

Lemma wfe_nil c Q tl : wfq c Q tl -> Forall (fun p => read_error p = None) Q -> wfe c Q [] tl.
Proof. intros Hw Hn. split; [by rewrite app_nil_r|]. split; [done|by left]. Qed.

Lemma parse_loop_spec ahead fuel : forall c Q tail,
  wfq c Q tail -> Forall (fun p => read_error p = None) Q -> (length (unread c) < fuel)%nat ->
  exists c' Q' E tail', parse_loop false proto_max_bulk_len authRequired pool_argv_len fuel ahead c = Some c' /\
    wfe c' Q' E tail' /\ same_run c c' /\ zlen (unread c') + zlen Q' <= zlen (unread c) + zlen Q.
Proof.
  induction fuel as [|fuel IH]; intros c Q tl Hwf Hne Hf; [lia|]. cbn [parse_loop].
  destruct ((ready_len c <? ahead) && (qb_pos c <? zlen (querybuf c))) eqn:Hgo.
  2: { exists c, Q, [], tl. split; [done|]. split; [by apply wfe_nil|done]. }
  pose proof (unread_length c (wf_pos _ _ _ Hwf)) as Hlen.
  destruct (parse_one_spec c Q tl Hwf Hne) as (c1 & more & -> & [Hs Hl Hst]); [intros Hn; rewrite Hn in Hlen; cbn [length] in Hlen; lia|].
  mred. destruct more.
  - destruct Hst as (q & Hwf1 & Hq & Hlt). destruct (IH c1 (Q ++ [q]) [] Hwf1) as (c' & Q' & E & tl' & -> & Hwf' & Hs' & Hm').
    { rewrite Forall_app, Forall_singleton. by split. } { lia. }
    exists c', Q', E, tl'. split_and!; try done; [|rewrite length_app in Hm'; cbn [length] in Hm'; lia].
    destruct Hs as (? & ? & ?), Hs' as (? & ? & ?). split_and!; congruence.
  - destruct Hst as [[tl' Hwf']|(q & Hwf' & Hq)].
    + exists c1, Q, [], tl'. split; [done|]. split; [by apply wfe_nil|]. split; [done|lia].
    + exists c1, Q, [q], []. split; [done|]. split; [|split; [done|lia]]. split; [done|]. split; [done|]. right. by exists q.
Qed.

Lemma wfq_fields c c' Q tl :
  wfq c Q tl -> querybuf c' = querybuf c -> qb_pos c' = qb_pos c -> reqtype c' = reqtype c -> multibulklen c' = multibulklen c ->
  bulklen c' = bulklen c -> all_argv_len_sum c' = all_argv_len_sum c -> pending_cmds c' = pending_cmds c -> wfq c' Q tl.
Proof.
  intros [Hp Hq Hr Hs Hn Ht Hst] H1 H2 H3 H4 H5 H6 H7. unfold pos_ok, unread, inside, vec_ok in *.
  constructor; unfold pos_ok, unread, inside, vec_ok; rewrite ?H1, ?H2, ?H3, ?H4, ?H5, ?H6, ?H7; done.
Qed.

Lemma resetClient_spec c q Q tl :
  wfq c (q :: Q) tl -> read_error q = None ->
  exists c', resetClient c = Some c' /\ wfq c' Q tl /\ unread c' = unread c /\ same_run c c' /\
    reqtype c' = reqtype c /\ multibulklen c' = multibulklen c /\ bulklen c' = bulklen c.
Proof.
  intros [Hp Hq Hr Hs Hn Ht Hst] Hne. unfold resetClient, popPendingCommandFromHead. rewrite Hq in *. cbn [app] in *. mred.
  unfold freePendingCommand. cbn [all_argv_len_sum set_pending sums] in *. apply Forall_cons in Hn as [Hnq Hn], Hr as [_ Hr].
  pose proof (sums_nonneg _ Hn). rewrite (proj2 (Z.geb_le _ _)) by lia. mred. cbn [pending_cmds set_sum set_pending all_argv_len_sum].
  rewrite Hs. replace (argv_len_sum q + sums (Q ++ tl) - argv_len_sum q) with (sums (Q ++ tl)) by lia.
  destruct ((zlen (Q ++ tl) =? 0) && negb (sums (Q ++ tl) =? 0)) eqn:Hz.
  { exfalso. apply andb_true_iff in Hz as [Hz%Z.eqb_eq Hz']. rewrite (nil_length_inv (Q ++ tl)) in Hz' by lia. done. }
  eexists. split; [done|]. split_and!; try done. constructor; try done; cbn.
  - destruct tl as [|p [|? ?]]; [|done|done]. intros HQ. apply Ht. by constructor.
  - intros HQ. apply Hst. by constructor.
Qed.

Lemma input_loop_spec ahead fuel : forall c Q E tl,
  wfe c Q E tl -> zlen (unread c) + zlen Q < Z.of_nat fuel ->
  exists c', input_loop false proto_max_bulk_len authRequired closing pool_argv_len fuel ahead c = Some c' /\ wf c' /\
    close_after_reply c' = close_after_reply c /\ executed c `prefix_of` executed c'.
Proof.
  induction fuel as [|fuel IH]; intros c Q E tl Hwf Hf; [lia|]. cbn [input_loop].
  destruct (_ || _); [|exists c; split_and!; try done; by exists Q, E, tl].
  destruct (_ || _); [exists c; split_and!; try done; by exists Q, E, tl|].
  assert (Hparse : exists c1 Q1 E1 tl1, (if ready_len c =? 0 then
      parse_loop false proto_max_bulk_len authRequired pool_argv_len (Datatypes.S (length (querybuf c))) ahead c else Some c) =
      Some c1 /\ wfe c1 Q1 E1 tl1 /\ same_run c c1 /\ zlen (unread c1) + zlen Q1 <= zlen (unread c) + zlen Q).
  { destruct Hwf as (Hwf & Hne & HE). rewrite (ready_spec _ _ _ Hwf). destruct (Z.eqb_spec (zlen (Q ++ E)) 0) as [Hz|].
    - assert (HQE : Q ++ E = []) by (apply nil_length_inv; lia). apply app_eq_nil in HQE as [-> ->].
      destruct (parse_loop_spec ahead (Datatypes.S (length (querybuf c))) c [] tl Hwf Hne) as (c1 & Q1 & E1 & tl1 & ? & ? & ? & ?);
        [unfold unread; rewrite length_drop; lia|]. by exists c1, Q1, E1, tl1.
    - exists c, Q, E, tl. by split_and!. }
  destruct Hparse as (c1 & Q1 & E1 & tl1 & -> & (Hwf1 & Hne1 & HE1) & (Hs1 & Hs2 & Hs3) & Hm1). mred. rewrite (ready_spec _ _ _ Hwf1).
  destruct (Z.eqb_spec (zlen (Q1 ++ E1)) 0) as [Hz|Hz].
  { exists c1. split_and!; [done|by exists Q1, E1, tl1|done|by rewrite Hs3]. }
  rewrite (wf_pending _ _ _ Hwf1). destruct Q1 as [|q Q1]; cbn [app head].
  - destruct HE1 as [->|(q & -> & Hq)]; [done|]. cbn [app head]. mred. rewrite Hq. eexists. split; [done|].
    split_and!; [|done|cbn; by rewrite Hs3]. exists [], [q], tl1. split_and!; [by eapply wfq_fields|done|right; by exists q].
  - mred. apply Forall_cons in Hne1 as [Hq Hne1]. rewrite Hq. cbn [is_error].
    assert (Hgo : forall c2, wfq c2 (q :: Q1 ++ E1) tl1 -> unread c2 = unread c1 -> close_after_reply c2 = close_after_reply c ->
      executed c `prefix_of` executed c2 ->
      exists c', (c ← resetClient c2; input_loop false proto_max_bulk_len authRequired closing pool_argv_len fuel ahead c) = Some c' /\
        wf c' /\ close_after_reply c' = close_after_reply c /\ executed c `prefix_of` executed c').
    { intros c2 Hwf2 Hu2 Hcl2 Hx2. destruct (resetClient_spec c2 q (Q1 ++ E1) tl1 Hwf2 Hq) as (c3 & -> & Hwf3 & Hu3 & (_ & Hcl3 & Hx3) & _).
      mred. destruct (IH c3 Q1 E1 tl1) as (c' & -> & Hwf' & Hcl' & Hx'); [by split_and!|rewrite length_cons in Hm1; rewrite Hu3, Hu2; lia|].
      exists c'. split_and!; [done|done|congruence|]. etrans; [done|]. by rewrite <- Hx3. }
    destruct (argc q =? 0); apply Hgo; try done; try (by eapply wfq_fields); cbn; rewrite ?Hs3; try done.
    by apply prefix_app_r.
Qed.

(** C31: Whatever bytes arrive, in whatever pieces, the parser of a client (not the master)
    stays inside its buffer, trips no assertion (the first byte, the room in the argument vector, the account
    of argument bytes) and returns; it keeps its invariant, never takes back a command it has
    run, and closes the connection when it reports an error. *)
Theorem readQueryFromClient_total c queued data :
  wf c -> 0 <= queued ->
  exists c', readQueryFromClient false proto_max_bulk_len client_max_querybuf_len lookahead authRequired closing
      pool_argv_len repl_applied c queued data = Some c' /\
    (wf c' \/ c_read_error c' = Some REACHED_MAX_QUERYBUF) /\ executed c `prefix_of` executed c' /\
    (is_error (c_read_error c') = true -> close_after_reply c' = true).
Proof.
  intros (Q & E & tl & Hwf & Hne & HE) Hq. unfold readQueryFromClient. cbv zeta.
  set (c1 := set_buf (set_error c None) (querybuf (set_error c None) ++ data) (qb_pos (set_error c None))).
  set (c2 := if querybuf_peak c1 <? zlen (querybuf c1) then set_peak c1 (zlen (querybuf c1)) else c1).
  assert (Hc2 : querybuf c2 = querybuf c1 /\ qb_pos c2 = qb_pos c1 /\ reqtype c2 = reqtype c /\ multibulklen c2 = multibulklen c /\
    bulklen c2 = bulklen c /\ all_argv_len_sum c2 = all_argv_len_sum c /\ pending_cmds c2 = pending_cmds c /\ executed c2 = executed c)
    by (unfold c2; by destruct (_ <? _)).
  destruct Hc2 as (H1 & H2 & H3 & H4 & H5 & H6 & H7 & H8). cbn [negb andb].
  destruct (_ || _) eqn:Hbig.
  { eexists. split; [done|]. split_and!; [by right| |done].
    change (executed c `prefix_of` executed c2). by rewrite H8. }
  assert (Hsz : zlen (querybuf c1) < 2 ^ 60 - 1).
  { apply orb_false_iff in Hbig as [Hbig _]. lia. }
  assert (Hwf2 : wfq c2 (Q ++ E) tl).
  { destruct Hwf as [Hp Hpd Hr Hs Hn Ht Hst].
    assert (Hu : unread c2 = unread c ++ data).
    { unfold unread. rewrite H1, H2. cbn. apply drop_app_le. destruct Hp. lia. }
    constructor; unfold inside, vec_ok in *; rewrite ?H3, ?H4, ?H5, ?H6, ?H7; try done.
    - unfold pos_ok. rewrite H1, H2. split; [|lia]. unfold c1. cbn [querybuf qb_pos set_buf set_error].
      rewrite length_app. destruct Hp. lia.
    - intros Hno Hty Hz. rewrite Hu. specialize (Hst Hno Hty Hz). by destruct (unread c). }
  unfold processInputBuffer.
  destruct (input_loop_spec (if authRequired (executed c2) then 1 else lookahead)
    (Datatypes.S (length (querybuf c2) + length (pending_cmds c2))) c2 Q E tl) as (c3 & Hc3 & Hwf3 & _ & Hx3); [by split_and!| |].
  { rewrite H7, (wf_pending _ _ _ Hwf), !length_app. unfold unread. rewrite length_drop. lia. }
  rewrite Hc3. mred. cbn [trim_querybuf]. mred.
  assert (Hwf4 : wf (set_buf c3 (unread c3) 0)).
  { destruct Hwf3 as (Q3 & E3 & tl3 & Hw3 & ?). exists Q3, E3, tl3. split; [|done]. destruct Hw3 as [Hp Hpd Hr Hs Hn Ht Hst].
    constructor; try done. pose proof (unread_length c3 Hp). destruct Hp. split; cbn; lia. }
  rewrite H8 in Hx3. destruct (is_error (c_read_error (set_buf c3 (unread c3) 0))) eqn:He; eexists; (split; [done|]).
  2: { split_and!; [by left|exact Hx3|congruence]. }
  split_and!; [left|exact Hx3|done]. destruct Hwf4 as (Q4 & E4 & tl4 & Hw4 & ?). exists Q4, E4, tl4. split; [|done]. by eapply wfq_fields.
Qed.

(** ** Well-formed streams *)

Definition CRLF : list Z := [13; 10].
Definition enc_bulk (a : list Z) : list Z := (36 :: dec (zlen a) ++ CRLF) ++ a ++ CRLF.
Definition enc_bulks (args : list (list Z)) : list Z := concat (map enc_bulk args).
Definition enc_cmd (args : list (list Z)) : list Z := (42 :: dec (zlen args) ++ CRLF) ++ enc_bulks args.
Definition enc (cmds : list (list (list Z))) : list Z := concat (map enc_cmd cmds).

Definition valid (args : list (list Z)) : Prop :=
  1 <= zlen args <= INT_MAX /\ Forall (fun a => zlen a <= proto_max_bulk_len) args.

Lemma dec_digits n : 0 <= n < 2 ^ 60 -> Forall (fun d => 48 <= d <= 57) (dec n) /\ string2ll (dec n) = Some n /\ zlen (dec n) <= 20.
Proof.
  intros Hn. assert (Hs : in_s 64 n) by (unfold in_s; change (2 ^ (64 - 1)) with (8 * 2 ^ 60); lia).
  split_and!; [|by apply string2ll_iff|by apply dec_length]. unfold dec. rewrite (proj2 (Z.ltb_ge n 0)) by lia.
  destruct (decide (n = 0)) as [->|]; [by repeat constructor; cbn|].
  destruct (udec_digits n) as (d & ds & -> & Hd & Hds & _); [change (2 ^ 64) with (16 * 2 ^ 60); lia|]. constructor; [lia|done].
Qed.

(** A line of the protocol: the tag and a number. *)
Definition line (tag n : Z) : list Z := tag :: dec n ++ CRLF.

Lemma line_chars tag n : tag <> 13 -> tag <> 0 -> 0 <= n < 2 ^ 60 -> (13 ∉ tag :: dec n) /\ (0 ∉ tag :: dec n).
Proof.
  intros H1 H2 Hn. destruct (dec_digits n Hn) as (Hd & _ & _). rewrite Forall_forall in Hd.
  split; apply not_elem_of_cons; (split; [congruence|]); intros Hx%Hd; lia.
Qed.

(** A part of a line: no end, or [\r] without [\n]. *)
Lemma line_part tag n B X :
  tag <> 13 -> tag <> 0 -> 0 <= n < 2 ^ 60 -> line tag n = B ++ X -> X <> [] ->
  zlen B <= 22 /\ (0 ∉ B) /\ (memchr 13 B = None \/ memchr 13 B = Some (zlen B - 1)).
Proof.
  intros H1 H2 Hn HL HX. destruct (line_chars tag n H1 H2 Hn) as [H13 H0]. destruct (dec_digits n Hn) as (_ & _ & Hl20).
  assert (Hlen : zlen (line tag n) <= 23) by (unfold line, CRLF; rewrite length_cons, length_app; cbn [length]; lia).
  assert (HXl : 1 <= zlen X) by (destruct X; [done|rewrite length_cons; lia]).
  rewrite HL, length_app in Hlen. split; [lia|].
  unfold line, CRLF in HL. change (tag :: dec n ++ [13; 10]) with ((tag :: dec n) ++ [13; 10]) in HL.
  apply app_eq_inv in HL as [(k & Htd & _)|(k & -> & Hk)]; [rewrite Htd in *|].
  - (* B is a prefix of the tag and the digits *)
    split; [intros Hin; apply H0; apply elem_of_app; by left|]. left. apply memchr_None. intros Hin. apply H13, elem_of_app. by left.
  - destruct k as [|y [|z k]]; cbn [app] in *.
    + rewrite app_nil_r. split; [done|]. left. by apply memchr_None.
    + injection Hk as <- <-. split.
      * change (tag :: dec n ++ [13]) with ((tag :: dec n) ++ [13]). intros [?|Hin]%elem_of_app; [done|]. apply list_elem_of_singleton in Hin. lia.
      * right. apply memchr_Some. exists (tag :: dec n), []. split_and!; [done|done|]. cbn [length]. rewrite length_app. cbn [length]. lia.
    + injection Hk as _ _ Hk. symmetry in Hk. by apply app_eq_nil in Hk as [_ ->].
Qed.

(** A line in the buffer, or only a part of it. *)
Lemma line_cases c R tag n Y :
  unread c ++ R = line tag n ++ Y ->
  (exists B, unread c = line tag n ++ B /\ B ++ R = Y) \/ (exists X, line tag n = unread c ++ X /\ X <> [] /\ R <> []).
Proof.
  intros Heq. apply app_eq_inv in Heq as [(k & -> & ->)|(k & Hl & ->)].
  - left. by exists k.
  - destruct k as [|x k]; [left; exists []; rewrite app_nil_r in *; by split|]. right. exists (x :: k). by split_and!.
Qed.

Lemma line_memchr tag n B :
  tag <> 13 -> tag <> 0 -> 0 <= n < 2 ^ 60 ->
  memchr 13 (line tag n ++ B) = Some (zlen (dec n) + 1) /\ strchr 13 (line tag n ++ B) = Some (zlen (dec n) + 1).
Proof.
  intros H1 H2 Hn. destruct (line_chars tag n H1 H2 Hn) as [H13 H0].
  replace (line tag n ++ B) with ((tag :: dec n) ++ 13 :: 10 :: B) by (unfold line, CRLF; cbn; by rewrite <- app_assoc).
  replace (zlen (dec n) + 1) with (zlen (tag :: dec n)) by (rewrite length_cons; lia). split.
  - apply memchr_Some. by exists (tag :: dec n), (10 :: B).
  - by apply strchr_found.
Qed.

(** The end of a line, in any state of the buffer. *)
Lemma line_whole c tag n B :
  pos_ok c -> unread c = line tag n ++ B ->
  whole_line c (zlen (dec n) + 1) = true /\ rd (querybuf c) (qb_pos c) = Some tag /\
  rdn (querybuf c) (qb_pos c + 1) (zlen (dec n) + 1 - 1) = Some (dec n) /\
  unread (set_pos c (qb_pos c + (zlen (dec n) + 1) + 2)) = B /\ pos_ok (set_pos c (qb_pos c + (zlen (dec n) + 1) + 2)).
Proof.
  intros Hc Hu. split_and!.
  - rewrite whole_line_spec, Hu by done. unfold line, CRLF. cbn [app]. rewrite length_cons, !length_app. cbn [length]. lia.
  - rewrite rd_unread, Hu by done. done.
  - apply (rdn_unread c [tag] (dec n) (CRLF ++ B) _ Hc); [|lia]. rewrite Hu. unfold line. cbn. by rewrite <- app_assoc.
  - apply (unread_advance c (line tag n) B _ Hc Hu). unfold line, CRLF. rewrite length_cons, length_app. cbn [length]. lia.
  - apply (unread_advance c (line tag n) B _ Hc Hu). unfold line, CRLF. rewrite length_cons, length_app. cbn [length]. lia.
Qed.

Lemma read_bulklen_line c p n B :
  pos_ok c -> authRequired (executed c) = false -> 0 <= n <= proto_max_bulk_len -> unread c = line 36 n ++ B ->
  exists c' p', read_bulklen false proto_max_bulk_len authRequired c p = Some (c', p', Go) /\ unread c' = B /\ bulklen c' = n.
Proof.
  intros Hc Hauth Hn Hu. unfold read_bulklen. rewrite Hu. destruct (line_memchr 36 n B) as [-> _]; [lia..|].
  destruct (line_whole c 36 n B Hc Hu) as (-> & -> & -> & Hu1 & Hp1). cbn [negb]. mred. cbn [Z.eqb Pos.eqb negb].
  destruct (dec_digits n) as (_ & -> & _); [lia|]. rewrite (proj2 (Z.ltb_ge n 0)) by lia. cbn [orb andb].
  rewrite Z.gtb_ltb, (proj2 (Z.ltb_ge proto_max_bulk_len n)) by lia. rewrite Hauth, andb_false_r.
  eexists _, _. split; [done|]. split; [|done]. destruct (align_spec _ n Hp1) as (Hu2 & _).
  unfold unread in *. cbn in *. by rewrite Hu2.
Qed.

Lemma read_bulklen_part c p n X :
  pos_ok c -> 0 <= n < 2 ^ 60 -> line 36 n = unread c ++ X -> X <> [] ->
  read_bulklen false proto_max_bulk_len authRequired c p = Some (c, p, Break).
Proof.
  intros Hc Hn HL HX. destruct (line_part 36 n (unread c) X) as (Hl & _ & Hm); [lia|lia|done|done|done|]. unfold read_bulklen.
  destruct Hm as [-> | ->].
  - rewrite buf_left_spec by done. unfold PROTO_INLINE_MAX_SIZE. rewrite Z.gtb_ltb, (proj2 (Z.ltb_ge _ _)) by lia. done.
  - rewrite whole_line_spec by done. by rewrite (proj2 (Z.leb_gt _ _)) by lia.
Qed.

(** The first line of a command. *)
Lemma read_multibulklen_line c p n B :
  pos_ok c -> fresh c p -> authRequired (executed c) = false -> 1 <= n <= INT_MAX -> unread c = line 42 n ++ B ->
  exists c' p', read_multibulklen authRequired c p = Some (c', p', Continue) /\ unread c' = B /\ multibulklen c' = n /\
    argv p' = [] /\ executed c' = executed c.
Proof.
  intros Hc Hf Hauth Hn Hu. unfold INT_MAX in Hn. assert (Hn' : 0 <= n < 2 ^ 60) by lia.
  unfold read_multibulklen. destruct Hf as (_ & _ & _ & Hargv & _). unfold argc. rewrite Hargv. cbn [length Z.of_nat Z.eqb negb].
  rewrite Hu. destruct (line_memchr 42 n B) as [_ ->]; [lia..|].
  destruct (line_whole c 42 n B Hc Hu) as (-> & -> & -> & Hu1 & Hp1). cbn [negb]. mred. cbn [Z.eqb Pos.eqb negb].
  destruct (dec_digits n Hn') as (_ & -> & _). unfold INT_MAX. rewrite Z.gtb_ltb, (proj2 (Z.ltb_ge _ n)) by lia.
  rewrite Hauth, andb_false_r, (proj2 (Z.leb_gt n 0)) by lia. eexists _, _. split; [done|].
  split_and!; [exact Hu1|done| |done]. cbn. unfold setup_argv. by destruct (_ >? _).
Qed.

Lemma read_multibulklen_part c p n X :
  pos_ok c -> fresh c p -> 0 <= n < 2 ^ 60 -> line 42 n = unread c ++ X -> X <> [] ->
  read_multibulklen authRequired c p = Some (c, p, Return false).
Proof.
  intros Hc Hf Hn HL HX. destruct (line_part 42 n (unread c) X) as (Hl & H0 & Hm); [lia|lia|done|done|done|].
  unfold read_multibulklen. destruct Hf as (_ & _ & _ & Hargv & _). unfold argc. rewrite Hargv. cbn [length Z.of_nat Z.eqb negb].
  rewrite strchr_memchr by done. destruct Hm as [-> | ->].
  - rewrite buf_left_spec by done. unfold PROTO_INLINE_MAX_SIZE. rewrite Z.gtb_ltb, (proj2 (Z.ltb_ge _ _)) by lia. done.
  - rewrite whole_line_spec by done. by rewrite (proj2 (Z.leb_gt _ _)) by lia.
Qed.

(** The buffer and the rest [R] of the stream hold the arguments [todo] and then [more]. *)
Definition mid (c : client) (todo : list (list Z)) (more R : list Z) : Prop :=
  multibulklen c = zlen todo /\
  ((bulklen c = -1 /\ unread c ++ R = enc_bulks todo ++ more) \/
   (exists a todo', todo = a :: todo' /\ bulklen c = zlen a /\ unread c ++ R = a ++ CRLF ++ enc_bulks todo' ++ more)).

Lemma app_long {A} (l R x Y : list A) :
  l ++ R = x ++ Y -> (length x <= length l)%nat -> exists B, l = x ++ B /\ B ++ R = Y.
Proof.
  intros Heq Hl. apply app_eq_inv in Heq as [(k & -> & ->)|(k & -> & ->)]; [by exists k|].
  rewrite length_app in Hl. rewrite (nil_length_inv k) by lia. exists []. by rewrite !app_nil_r.
Qed.

(** The next argument: its length is not in the buffer yet, or it is known. *)
Lemma next_arg_sync c p a todo more R :
  pos_ok c -> authRequired (executed c) = false -> zlen a <= proto_max_bulk_len ->
  (bulklen c = -1 /\ unread c ++ R = enc_bulks (a :: todo) ++ more) \/
    (exists a' todo', a :: todo = a' :: todo' /\ bulklen c = zlen a' /\ unread c ++ R = a' ++ CRLF ++ enc_bulks todo' ++ more) ->
  (bulklen c = -1 \/ incomplete p = true) ->
  let next := if bulklen c =? -1 then read_bulklen false proto_max_bulk_len authRequired c p
              else if incomplete p then Some (c, p, Go) else None in
  (exists X, next = Some (c, p, Break) /\ line 36 (zlen a) = unread c ++ X /\ R <> [] /\ bulklen c = -1) \/
  (exists c1 p1, next = Some (c1, p1, Go) /\ unread c1 ++ R = a ++ CRLF ++ enc_bulks todo ++ more /\ bulklen c1 = zlen a /\
    bulklen_result c p c1 p1 Go).
Proof.
  intros Hc Hauth Ha Hmid Hinc next. unfold next. destruct Hmid as [[Hbl Hun]|(a' & todo' & [= <- <-] & Hbl & Hun)].
  - rewrite Hbl. cbn [Z.eqb Pos.eqb]. unfold enc_bulks in Hun. cbn [map concat] in Hun. unfold enc_bulk in Hun.
    rewrite <- !app_assoc in Hun. destruct (line_cases c R 36 (zlen a) _ Hun) as [(B & HB & HBR)|(X & HX & HXn & HR)].
    + right. destruct (read_bulklen_line c p (zlen a) B Hc Hauth ltac:(lia) HB) as (c1 & p1 & H1 & Hu1 & Hb1).
      destruct (read_bulklen_spec c p Hc) as (c2 & p2 & st & H2 & Hr2). rewrite H1 in H2. injection H2 as <- <- <-.
      exists c1, p1. split_and!; try done. by rewrite Hu1.
    + left. exists X. split_and!; try done. apply (read_bulklen_part c p (zlen a) X); try done. lia.
  - right. rewrite (proj2 (Z.eqb_neq (bulklen c) (-1))) by lia. destruct Hinc as [?|Hi]; [lia|]. rewrite Hi. exists c, p.
    split_and!; try done. constructor; try done. intros _. split; [lia|done].
Qed.

Lemma bulk_loop_sync more R todo : forall fuel c p,
  pos_ok c -> vec_ok c p -> authRequired (executed c) = false -> Forall (fun a => zlen a <= proto_max_bulk_len) todo ->
  mid c todo more R -> (bulklen c = -1 \/ incomplete p = true) -> (length (unread c) < fuel)%nat ->
  exists c' p' done todo', bulk_loop false proto_max_bulk_len authRequired fuel c p = Some (c', p', true) /\
    todo = done ++ todo' /\ argv p' = argv p ++ done /\ mid c' todo' more R /\ (todo' <> [] -> R <> []).
Proof.
  induction todo as [|a todo IH]; intros fuel c p Hc Hv Hauth Hval [Hm Hmid] Hinc Hf; (destruct fuel as [|fuel]; [lia|]); cbn [bulk_loop].
  { rewrite (proj2 (Z.eqb_eq (multibulklen c) 0)) by done. exists c, p, [], []. rewrite (app_nil_r (argv p)).
    split; [done|]. split; [done|]. split; [done|]. split; [by split|done]. }
  apply Forall_cons in Hval as [Ha Hval]. rewrite length_cons in Hm. rewrite (proj2 (Z.eqb_neq (multibulklen c) 0)) by lia.
  destruct (next_arg_sync c p a todo more R Hc Hauth Ha Hmid Hinc) as
    [(X & -> & HX & HR & Hbl)|(c1 & p1 & -> & Hun1 & Hbl1 & [Hp1 Hl1 Hk1 Hm1 Hs1 (Ha1 & Hal1 & Hls1 & Hi1) Hgo _ _])]; mred.
  { exists c, p, [], (a :: todo). rewrite (app_nil_r (argv p)).
    split; [done|]. split; [done|]. split; [done|]. split; [|done]. split; [by rewrite length_cons|].
    destruct Hmid as [?|(? & ? & ? & ? & _)]; [by left|lia]. }
  destruct (Hgo eq_refl) as [Hb1 He1]. rewrite buf_left_spec by done.
  rewrite uwrap_small by (change (2 ^ 61) with (2 * 2 ^ 60); lia). rewrite Hbl1.
  assert (Hv1 : vec_ok c1 p1) by (unfold vec_ok, argc in *; by rewrite Ha1, Hal1, Hm1).
  destruct (Z.ltb_spec (zlen (unread c1)) (zlen a + 2)) as [Hsh|Hsh].
  - exists c1, p1, [], (a :: todo). rewrite (app_nil_r (argv p)).
    split; [done|]. split; [done|]. split; [done|]. split.
    + split; [by rewrite Hm1, Hm, length_cons|]. right. by exists a, todo.
    + intros _ ->. rewrite app_nil_r in Hun1. rewrite Hun1, !length_app in Hsh. cbn [length CRLF] in Hsh. lia.
  - destruct (read_arg_spec c1 p1 Hp1 Hv1 ltac:(lia) Hb1 ltac:(lia)) as (c2 & p2 & -> & [Hp2 Hu2 Hk2 [Hm2 Hbl2] Hargv2 _ [Hi2 He2] Hv2]). mred.
    rewrite app_assoc in Hun1. destruct (app_long _ _ _ _ Hun1) as (B & HB & HBR); [rewrite length_app; cbn [length CRLF]; lia|].
    assert (Hu2' : unread c2 = B) by (rewrite Hu2, HB, Hbl1; apply drop_app_length'; rewrite length_app; cbn [length CRLF]; lia).
    assert (Harg : argv p2 = argv p ++ [a]).
    { rewrite Hargv2, Ha1, HB, Hbl1, <- app_assoc. do 2 f_equal. apply take_app_length'. lia. }
    destruct (IH fuel c2 p2 Hp2 Hv2) as (c' & p' & done & todo' & -> & -> & Hdone & Hmid' & HR').
    + rewrite (k_executed _ _ Hk2), (k_executed _ _ Hk1). done.
    + done.
    + split; [lia|]. left. split; [done|]. by rewrite Hu2', HBR.
    + by left.
    + rewrite Hu2, length_drop. lia.
    + exists c', p', (a :: done), todo'. split_and!; try done. by rewrite Hdone, Harg, <- app_assoc.
Qed.

Lemma mid_nil c more R : mid c [] more R -> multibulklen c = 0 /\ unread c ++ R = more.
Proof. intros [Hm [[_ Hu]|(a & t & ? & _)]]; [by split|done]. Qed.

(** The parser of multibulk requests on a stream of commands. *)
Lemma processMultibulkBuffer_sync c p more R cmd done todo :
  pos_ok c -> authRequired (executed c) = false -> valid cmd -> cmd = done ++ todo ->
  (done = [] /\ fresh c p /\ unread c ++ R = enc_cmd cmd ++ more) \/
    (todo <> [] /\ argv p = done /\ inside c p /\ incomplete p = true /\ mid c todo more R) ->
  exists c' p' ok, processMultibulkBuffer false proto_max_bulk_len authRequired c p = Some (c', p', ok) /\
    parse_result c p c' p' ok /\ read_error p' = read_error p /\
    ((ok = true /\ incomplete p' = false /\ argv p' = cmd /\ unread c' ++ R = more) \/
     (R <> [] /\ ok = true /\ incomplete p' = true /\ exists done' todo', cmd = done' ++ todo' /\ todo' <> [] /\ argv p' = done' /\ mid c' todo' more R) \/
     (R <> [] /\ ok = false /\ c' = c /\ p' = p /\ multibulklen c = 0)).
Proof.
  intros Hc Hauth [Hlen Hval] Hcmd Hst.
  destruct (processMultibulkBuffer_spec c p Hc) as (c' & p' & ok & Heq & Hr).
  { destruct Hst as [(_ & Hf & _)|(_ & _ & Hin & Hi & _)]; [by left|right; by split]. }
  exists c', p', ok. split; [done|]. split; [done|]. revert Heq Hr. unfold processMultibulkBuffer.
  assert (Hhead : (R <> [] /\ multibulklen c = 0 /\ (if multibulklen c =? 0 then read_multibulklen authRequired c p else Some (c, p, Continue)) = Some (c, p, Return false)) \/
    exists c1 p1, (if multibulklen c =? 0 then read_multibulklen authRequired c p else Some (c, p, Continue)) = Some (c1, p1, Continue) /\
      pos_ok c1 /\ inside c1 p1 /\ authRequired (executed c1) = false /\ argv p1 = done /\ mid c1 todo more R /\
      (bulklen c1 = -1 \/ incomplete p1 = true) /\ read_error p1 = read_error p).
  { destruct Hst as [(-> & Hf & Hu)|(Hne & Hargv & Hin & Hi & Hmid)].
    - cbn [app] in Hcmd. subst todo. rewrite (proj2 (Z.eqb_eq (multibulklen c) 0) (proj1 Hf)). unfold enc_cmd in Hu. rewrite <- app_assoc in Hu.
      destruct (line_cases c R 42 (zlen cmd) _ Hu) as [(B & HB & HBR)|(X & HX & HXn & HR)].
      + right. destruct (read_multibulklen_line c p (zlen cmd) B Hc Hf Hauth Hlen HB) as (c1 & p1 & H1 & Hu1 & Hm1 & Ha1 & Hx1).
        destruct (read_multibulklen_spec c p Hc Hf) as (c2 & p2 & r & H2 & Hr2). rewrite H1 in H2. injection H2 as <- <- <-.
        destruct Hr2 as (Hp1 & Hk1 & Hin1 & Hb1 & _ & _ & _ & _ & He1). exists c1, p1. split_and!; try done; [by rewrite Hx1|split| by left|].
        * done. * left. split; [done|]. by rewrite Hu1. * rewrite He1. destruct Hf as (_ & _ & _ & _ & _ & _ & _ & Hpe). done.
      + left. split_and!; [done|apply Hf|]. apply (read_multibulklen_part c p (zlen cmd) X); try done. unfold INT_MAX in Hlen. lia.
    - right. rewrite (proj2 (Z.eqb_neq (multibulklen c) 0)) by (destruct Hin; lia). exists c, p. split_and!; try done; try apply Hin. by right. }
  destruct Hhead as [(HR & Hd & ->)|(c1 & p1 & -> & Hp1 & Hin1 & Hauth1 & Ha1 & Hmid1 & Hb1 & He1)]; mred.
  { intros [= <- <- <-] _. split; [done|]. right. right. by split_and!. }
  destruct Hin1 as (Hm1 & Hv1 & Hbl1). rewrite (proj2 (Z.gtb_lt _ _) Hm1). cbn [negb].
  assert (Htodo : Forall (fun a => zlen a <= proto_max_bulk_len) todo) by (rewrite Hcmd, Forall_app in Hval; by destruct Hval).
  destruct (bulk_loop_sync more R todo (Datatypes.S (length (querybuf c1))) c1 p1 Hp1 Hv1 Hauth1 Htodo Hmid1 Hb1)
    as (c2 & p2 & done2 & todo2 & Hloop & Ht2 & Ha2 & Hmid2 & HR2); [unfold unread; rewrite length_drop; lia|].
  destruct (bulk_loop_total (Datatypes.S (length (querybuf c1))) c1 p1 Hp1) as (c3 & p3 & ok3 & Hloop' & Hlr);
    [right; by split_and!|done|unfold unread; rewrite length_drop; lia|].
  rewrite Hloop in Hloop'. injection Hloop' as <- <- <-. pose proof (lr_ok _ _ _ _ _ Hlr eq_refl) as He2. rewrite Hloop. mred. cbn [negb].
  destruct todo2 as [|a2 todo2].
  - destruct (mid_nil c2 more R Hmid2) as [Hz Hu2]. rewrite (proj2 (Z.eqb_eq _ _) Hz). intros [= <- <- <-] _. cbn [read_error set_input].
    split; [congruence|]. left. split_and!; try done. cbn. rewrite app_nil_r in Ht2. by rewrite Ha2, Ha1, Hcmd, Ht2.
  - rewrite (proj2 (Z.eqb_neq (multibulklen c2) 0)) by (destruct Hmid2 as [-> _]; rewrite length_cons; lia).
    intros [= <- <- <-] _. cbn [read_error set_input]. split; [congruence|]. right. left. split_and!; try done; [by apply HR2|].
    exists (done ++ done2), (a2 :: todo2). split_and!; try done; [by rewrite Hcmd, Ht2, app_assoc|cbn; by rewrite Ha2, Ha1].
Qed.

(** The state of the client and the rest [R] of the stream hold the commands [rest]. *)
Definition sync (c : client) (tl : list pendingCommand) (rest : list (list (list Z))) (R : list Z) : Prop :=
  reqtype c <> REQ_INLINE /\
  match tl with
  | [] => unread c ++ R = enc rest
  | p :: _ => exists done todo rest', rest = (done ++ todo) :: rest' /\ todo <> [] /\ argv p = done /\ read_error p = None /\
      mid c todo (enc rest') R
  end.

(** A turn of the inner loop, with the commands that are left. *)
Record turn_sync (c : client) (Q : list pendingCommand) (rest : list (list (list Z))) (R : list Z) (c' : client) (more : bool)
    : Prop := TurnSync {
  ts_turn : turn c Q c' more;
  ts_sync : if more then exists q rest', rest = argv q :: rest' /\ pending_cmds c' = Q ++ [q] /\ sync c' [] rest' R
            else R <> [] /\ exists tl, wfq c' Q tl /\ sync c' tl rest R
}.

(** The end of a turn. *)
Lemma finish_sync c p c1 p1 ok Q rest R cmd rest' :
  parse_result c p c1 p1 ok -> pending_cmds c = Q -> read_error p1 = None -> 0 <= argv_len_sum p -> sums Q >= 0 ->
  all_argv_len_sum c = sums Q + argv_len_sum p -> reqtype c = REQ_MULTIBULK -> rest = cmd :: rest' ->
  (multibulklen c = 0 -> unread c ++ R = enc rest) ->
  ((ok = true /\ incomplete p1 = false /\ argv p1 = cmd /\ unread c1 ++ R = enc rest') \/
   (R <> [] /\ ok = true /\ incomplete p1 = true /\ exists done' todo', cmd = done' ++ todo' /\ todo' <> [] /\ argv p1 = done' /\
     mid c1 todo' (enc rest') R) \/
   (R <> [] /\ ok = false /\ c1 = c /\ p1 = p /\ multibulklen c = 0)) ->
  exists c' (more : bool),
    (if negb ok && negb (is_error (read_error p1)) then c ← freePendingCommand c1 p1; Some (c, false)
     else
       let c := addPendingCommand c1 p1 in
       if is_error (read_error p1) || incomplete p1 then Some (c, false) else Some (resetClientQbufState c, true))
    = Some (c', more) /\
    if more then exists (q : pendingCommand) rest', rest = argv q :: rest' /\ pending_cmds c' = Q ++ [q] /\ sync c' [] rest' R
    else R <> [] /\ exists tl, pending_cmds c' = Q ++ tl /\ sync c' tl rest R /\ Forall (fun p => read_error p = None) tl.
Proof.
  intros Hr HQ He Hnp HnQ Hsum Hty Hrest Hidle Hst. rewrite He. cbn [is_error negb orb]. destruct Hr as [_ _ _ [Hkt Hkp _ _ _] _ _ _ _].
  destruct Hst as [(-> & -> & Hargv & Hu)|[(HR & -> & -> & d & td & Hcmd & Htd & Hargv & Hmid)|(HR & -> & -> & -> & Hd)]]; cbn [negb andb].
  - eexists _, true. split; [done|]. exists p1, rest'. split_and!; [by rewrite Hargv|cbn; by rewrite Hkp, HQ|].
    split; [done|]. exact Hu.
  - eexists _, false. split; [done|]. split; [done|]. exists [p1]. split_and!; [cbn; by rewrite Hkp, HQ| |by constructor].
    split; [cbn; by rewrite Hkt, Hty|]. exists d, td, rest'. split_and!; try done. by rewrite Hrest, Hcmd.
  - unfold freePendingCommand. rewrite (proj2 (Z.geb_le _ _)) by lia. mred. eexists _, false. split; [done|]. split; [done|].
    exists []. split_and!; [cbn; by rewrite app_nil_r|split; [cbn; by rewrite Hty|by apply Hidle]|by constructor].
Qed.

(** A turn that ends with commands without error leaves a well-formed state. *)
Lemma turn_tail c Q c' tl :
  turn c Q c' false -> pending_cmds c' = Q ++ tl -> Forall (fun p => read_error p = None) tl -> wfq c' Q tl.
Proof.
  intros [_ _ [(tl' & Hw)|(q & Hw & Hq)]] Hp Hne; pose proof (wf_pending _ _ _ Hw) as Hp'; rewrite Hp in Hp'.
  - apply app_inv_head in Hp'. by subst.
  - rewrite app_nil_r in Hp'. apply app_inv_head in Hp'. subst tl. rewrite Forall_singleton in Hne. by rewrite Hne in Hq.
Qed.

Lemma enc_nil_inv rest : Forall valid rest -> enc rest = [] -> rest = [].
Proof. destruct rest as [|cmd rest]; [done|]. by intros _ ?. Qed.

Lemma stream_first c rest R : Forall valid rest -> unread c ++ R = enc rest -> unread c <> [] ->
  head (unread c) = Some 42 /\ exists cmd rest', rest = cmd :: rest'.
Proof.
  intros _ Hu Hne. destruct rest as [|cmd rest]; [by apply app_eq_nil in Hu as [? _]|]. split; [|by exists cmd, rest].
  destruct (unread c) as [|x u]; [done|]. cbn in Hu. by injection Hu as ->.
Qed.

Lemma parse_one_sync c Q tl rest R :
  wfq c Q tl -> Forall (fun p => read_error p = None) Q -> unread c <> [] -> sync c tl rest R -> Forall valid rest ->
  authRequired (executed c) = false ->
  exists c' more, parse_one false proto_max_bulk_len authRequired pool_argv_len c = Some (c', more) /\ turn_sync c Q rest R c' more.
Proof.
  intros Hwf Hne Hun Hsync Hval Hauth. pose proof (ready_spec c Q tl Hwf) as Hready.
  destruct (parse_one_spec c Q tl Hwf Hne Hun) as (c' & more & Heq & Hturn). exists c', more. split; [done|].
  cut (if more then exists q rest', rest = argv q :: rest' /\ pending_cmds c' = Q ++ [q] /\ sync c' [] rest' R
    else R <> [] /\ exists tl, pending_cmds c' = Q ++ tl /\ sync c' tl rest R /\ Forall (fun p => read_error p = None) tl).
  { intros Hs. constructor; [done|]. destruct more; [done|]. destruct Hs as (HR & tl' & Hp & Hs & Hn). split; [done|].
    exists tl'. split; [by apply (turn_tail c)|done]. }
  clear Hturn. revert Heq. destruct Hwf as [Hpos Hpend Hrdy Hsum Hnn Htail Hstar]. rewrite Hpend in Hnn. apply Forall_app in Hnn as [HnQ Hnt].
  pose proof (sums_nonneg Q HnQ) as HsQ. destruct Hsync as [Hty Hsync]. unfold parse_one. rewrite rd_unread by done.
  destruct tl as [|p [|? ?]]; [| |done].
  - destruct (stream_first c rest R Hval Hsync Hun) as (Hhd & cmd & rest' & Hrest). rewrite Hhd. mred.
    replace (match reqtype c with REQ_UNKNOWN => if 42 =? 42 then REQ_MULTIBULK else REQ_INLINE | t => t end) with REQ_MULTIBULK
      by (by destruct (reqtype c)).
    set (c0 := set_request c REQ_MULTIBULK (multibulklen c) (bulklen c)). rewrite app_nil_r in Hpend.
    change (ready_len c0) with (ready_len c). change (pending_cmds c0) with (pending_cmds c). rewrite Hready, Hpend, Z.eqb_refl. cbn [negb]. mred.
    destruct (Htail Hne) as [Hm0 Hb0]. pose proof (Forall_inv (eq_ind _ (Forall valid) Hval _ Hrest)) as Hvc.
    destruct (processMultibulkBuffer_sync c0 (acquirePendingCommand pool_argv_len c0) (enc rest') R cmd [] cmd) as (c1 & p1 & ok & -> & Hr & He & Hst); try done.
    { left. split; [done|]. split; [|by rewrite Hrest in Hsync].
      unfold fresh. destruct (acquire_empty c0) as (? & ? & ? & ? & ?). by split_and!. }
    mred. intros Heq.
    destruct (finish_sync c0 _ c1 p1 ok Q rest R cmd rest' Hr) as (c2 & more2 & Heq2 & Hs2); try done; [lia|cbn; rewrite Hsum, Hpend; lia|].
    cbv zeta in Heq, Heq2. rewrite Heq2 in Heq. by injection Heq as -> ->.
  - destruct Htail as (Hi & Ht & Hin). destruct Hsync as (done & todo & rest' & Hrest & Htd & Hargv & Hpe & Hmid).
    destruct (unread c) as [|x u] eqn:Hu; [done|]. cbn [head]. mred. rewrite Ht. cbv zeta.
    set (c0 := set_request c REQ_MULTIBULK (multibulklen c) (bulklen c)).
    change (ready_len c0) with (ready_len c). change (pending_cmds c0) with (pending_cmds c). rewrite Hready, Hpend, length_app. cbn [length].
    rewrite (proj2 (Z.eqb_neq _ _)) by lia. cbn [negb]. rewrite (last_snoc_tail c0 Q p Hpend). mred. rewrite Forall_singleton in Hnt.
    pose proof (Forall_inv (eq_ind _ (Forall valid) Hval _ Hrest)) as Hvc.
    destruct (processMultibulkBuffer_sync (set_pending c0 Q) p (enc rest') R (done ++ todo) done todo) as (c1 & p1 & ok & -> & Hr & He & Hst); try done.
    { right. by split_and!. }
    mred. intros Heq. destruct (finish_sync (set_pending c0 Q) p c1 p1 ok Q rest R (done ++ todo) rest' Hr) as (c2 & more2 & Heq2 & Hs2); try done.
    + congruence.
    + lia.
    + cbn. rewrite Hsum, Hpend, sums_app. cbn [sums]. lia.
    + destruct Hin as [Hm _]. cbn. lia.
    + cbv zeta in Heq, Heq2. rewrite Heq2 in Heq. by injection Heq as -> ->.
Qed.

Lemma sync_fields c c' tl rest R :
  sync c tl rest R -> unread c' = unread c -> reqtype c' = reqtype c -> multibulklen c' = multibulklen c ->
  bulklen c' = bulklen c -> sync c' tl rest R.
Proof. unfold sync, mid. by intros Hs -> -> -> ->. Qed.

Lemma parse_loop_sync ahead R fuel : forall c Q tl rest,
  wfq c Q tl -> Forall (fun p => read_error p = None) Q -> (length (unread c) < fuel)%nat ->
  sync c tl rest R -> Forall valid rest -> authRequired (executed c) = false ->
  exists c' Q2 tl' rest', parse_loop false proto_max_bulk_len authRequired pool_argv_len fuel ahead c = Some c' /\
    wfq c' (Q ++ Q2) tl' /\ Forall (fun p => read_error p = None) (Q ++ Q2) /\ same_run c c' /\
    zlen (unread c') + zlen (Q ++ Q2) <= zlen (unread c) + zlen Q /\ sync c' tl' rest' R /\ rest = map argv Q2 ++ rest' /\
    (R <> [] \/ unread c' = [] \/ ahead <= zlen (Q ++ Q2)).
Proof.
  induction fuel as [|fuel IH]; intros c Q tl rest Hwf Hne Hf Hsync Hval Hauth; [lia|]. cbn [parse_loop].
  pose proof (unread_length c (wf_pos _ _ _ Hwf)) as Hlen. rewrite (ready_spec _ _ _ Hwf).
  destruct ((zlen Q <? ahead) && (qb_pos c <? zlen (querybuf c))) eqn:Hgo.
  2: { exists c, [], tl, rest. rewrite !app_nil_r. split_and!; try done. right.
       apply andb_false_iff in Hgo as [Hgo|Hgo]; [right; lia|left]. apply nil_length_inv. lia. }
  destruct (parse_one_sync c Q tl rest R Hwf Hne) as (c1 & more & -> & [[Hs Hl Hst] Hsync1]); try done.
  { intros Hn. rewrite Hn in Hlen. cbn [length] in Hlen. lia. }
  mred. destruct more.
  - destruct Hst as (q & Hwf1 & Hq & Hlt). destruct Hsync1 as (q' & rest1 & Hrest & Hp1 & Hs1).
    assert (q' = q) as ->. { rewrite (wf_pending _ _ _ Hwf1), app_nil_r in Hp1. apply app_inv_head in Hp1. by injection Hp1 as ->. }
    rewrite Hrest in Hval. apply Forall_cons in Hval as [_ Hval].
    destruct (IH c1 (Q ++ [q]) [] rest1 Hwf1) as (c' & Q2 & tl' & rest' & -> & Hw' & Hn' & Hs' & Hm' & Hy' & Hr' & Hend); try done.
    { rewrite Forall_app, Forall_singleton. by split. } { lia. } { destruct Hs as (_ & _ & ->). done. }
    exists c', (q :: Q2), tl', rest'. rewrite <- app_assoc in *. cbn [app] in *. split_and!; try done.
    + destruct Hs as (? & ? & ?), Hs' as (? & ? & ?). split_and!; congruence.
    + rewrite !length_app in *. cbn [length] in *. lia.
    + cbn [map app]. by rewrite Hrest, Hr'.
  - destruct Hsync1 as (HR & tl' & Hw' & Hs'). exists c1, [], tl', rest. rewrite app_nil_r. split_and!; try done; [lia|by left].
Qed.

(** The commands of a stream are run in their order. *)
Lemma input_loop_sync ahead R all fuel : forall c Q tl rest,
  (forall l, l `prefix_of` all -> authRequired l = false /\ closing l = false) -> 1 <= ahead ->
  wfq c Q tl -> Forall (fun p => read_error p = None) Q -> zlen (unread c) + zlen Q < Z.of_nat fuel ->
  sync c tl rest R -> Forall valid rest -> Forall (fun p => argv p <> []) Q -> executed c ++ map argv Q ++ rest = all ->
  c_read_error c = None -> close_after_reply c = false ->
  exists c' tl' rest', input_loop false proto_max_bulk_len authRequired closing pool_argv_len fuel ahead c = Some c' /\
    wfq c' [] tl' /\ sync c' tl' rest' R /\ Forall valid rest' /\ executed c' ++ rest' = all /\ c_read_error c' = None /\
    close_after_reply c' = false /\ (R <> [] \/ unread c' = []).
Proof.
  intros c Q tl rest Hp Ha. revert c Q tl rest. induction fuel as [|fuel IH]; intros c Q tl rest Hwf Hne Hf Hsync Hval HQ Hall Herr Hcl; [lia|].
  cbn [input_loop]. rewrite (ready_spec _ _ _ Hwf). pose proof (unread_length c (wf_pos _ _ _ Hwf)) as Hlen.
  destruct ((qb_pos c <? zlen (querybuf c)) || (zlen Q >? 0)) eqn:Hgo.
  2: { assert (Q = []) as -> by (apply nil_length_inv; lia). exists c, tl, rest. split_and!; try done. right. apply nil_length_inv. lia. }
  destruct (Hp (executed c)) as [Hauth Hclose]; [exists (map argv Q ++ rest); done|]. rewrite Hcl, Hclose. cbn [orb].
  assert (Hparse : exists c1 Q1 tl1 rest1, (if zlen Q =? 0 then
      parse_loop false proto_max_bulk_len authRequired pool_argv_len (Datatypes.S (length (querybuf c))) ahead c else Some c) = Some c1 /\
      wfq c1 Q1 tl1 /\ Forall (fun p => read_error p = None) Q1 /\ same_run c c1 /\ zlen (unread c1) + zlen Q1 <= zlen (unread c) + zlen Q /\
      sync c1 tl1 rest1 R /\ map argv Q ++ rest = map argv Q1 ++ rest1 /\ (Q1 = [] -> R <> [] \/ unread c1 = []) /\
      Forall valid rest1 /\ Forall (fun p => argv p <> []) Q1).
  { destruct (Z.eqb_spec (zlen Q) 0) as [Hz|Hz].
    - assert (Q = []) as -> by (apply nil_length_inv; lia).
      destruct (parse_loop_sync ahead R (Datatypes.S (length (querybuf c))) c [] tl rest Hwf Hne) as
        (c1 & Q2 & tl1 & rest1 & ? & ? & ? & ? & ? & ? & ? & Hend); try done; [unfold unread; rewrite length_drop; lia|].
      subst rest. apply Forall_app in Hval as [Hv2 Hv1]. exists c1, Q2, tl1, rest1. split_and!; try done.
      + intros ->. cbn [app length] in Hend. destruct Hend as [?|[?|?]]; [by left|by right|lia].
      + rewrite Forall_map in Hv2. eapply Forall_impl; [exact Hv2|]. intros q [Hq _] Hn. cbn in Hq. rewrite Hn in Hq. cbn in Hq. lia.
    - exists c, Q, tl, rest. split_and!; try done. by intros ->. }
  destruct Hparse as (c1 & Q1 & tl1 & rest1 & -> & Hwf1 & Hne1 & (He1 & Hcl1 & Hx1) & Hm1 & Hsync1 & Hrest1 & Hend1 & Hval1 & HQ1). mred.
  rewrite (ready_spec _ _ _ Hwf1). rewrite Hrest1 in Hall. destruct Q1 as [|q Q1].
  { cbn [length Z.of_nat Z.eqb]. exists c1, tl1, rest1. cbn [map app] in Hall. split_and!; try done; try congruence. by apply Hend1. }
  rewrite (proj2 (Z.eqb_neq _ _)) by (rewrite length_cons; lia). rewrite (wf_pending _ _ _ Hwf1). cbn [app head]. mred.
  apply Forall_cons in Hne1 as [Hq Hne1]. apply Forall_cons in HQ1 as [Hargv HQ1]. rewrite Hq. cbn [is_error].
  rewrite (proj2 (Z.eqb_neq (argc q) 0)) by (unfold argc; destruct (argv q); [done|rewrite length_cons; lia]).
  set (c2 := add_executed (set_error c1 None) (argv q)).
  destruct (resetClient_spec c2 q Q1 tl1) as (c3 & -> & Hwf3 & Hu3 & (He3 & Hcl3 & Hx3) & Ht3 & Hm3 & Hb3);
    [by eapply wfq_fields|done|]. mred.
  destruct (IH c3 Q1 tl1 rest1 Hwf3 Hne1) as (c' & tl' & rest' & -> & Hres); try done.
  - rewrite Hu3. change (unread c2) with (unread c1). rewrite length_cons in Hm1. lia.
  - by eapply sync_fields.
  - rewrite Hx3. cbn. rewrite Hx1, <- app_assoc. done.
  - rewrite Hcl3. cbn. congruence.
  - by exists c', tl', rest'.
Qed.

Lemma enc_bulks_cons a args : zlen (enc_bulks (a :: args)) >= 3 + zlen a + 2 + zlen (enc_bulks args).
Proof.
  unfold enc_bulks. cbn [map concat]. unfold enc_bulk, CRLF. rewrite !length_app, length_cons, length_app. cbn [length]. lia.
Qed.

Lemma enc_bulks_app l1 l2 : enc_bulks (l1 ++ l2) = enc_bulks l1 ++ enc_bulks l2.
Proof. unfold enc_bulks. by rewrite map_app, concat_app. Qed.

(** What is left of the stream is not longer than the commands that are left. *)
Lemma sync_length c tl rest R : sync c tl rest R -> zlen (unread c) + zlen R <= zlen (enc rest).
Proof.
  intros [_ Hs]. destruct tl as [|p tl].
  - rewrite <- Hs, length_app. lia.
  - destruct Hs as (d & td & rest' & -> & _ & _ & _ & _ & Hmid). unfold enc. cbn [map concat]. fold (enc rest'). unfold enc_cmd.
    rewrite enc_bulks_app, !length_app.
    destruct Hmid as [[_ Hu]|(a & td' & -> & _ & Hu)]; apply (f_equal length) in Hu; rewrite !length_app in Hu; [lia|].
    pose proof (enc_bulks_cons a td'). cbn [length CRLF] in Hu. lia.
Qed.

(** Nothing is left at the end of the stream. *)
Lemma sync_end c tl rest : sync c tl rest [] -> Forall valid rest -> unread c = [] -> tl = [] /\ rest = [].
Proof.
  intros [_ Hs] Hval Hu. rewrite Hu in Hs. destruct tl as [|p tl]; [split; [done|by apply enc_nil_inv]|].
  destruct Hs as (d & td & rest' & _ & Htd & _ & _ & _ & Hmid). rewrite Hu in Hmid. exfalso.
  destruct Hmid as [[_ Hx]|(a & td' & _ & _ & Hx)]; apply (f_equal length) in Hx; rewrite !length_app in Hx; cbn [length CRLF] in Hx; [|lia].
  destruct td as [|a td]; [done|]. pose proof (enc_bulks_cons a td). lia.
Qed.

Lemma read_sync c tl rest R data all :
  (forall l, l `prefix_of` all -> authRequired l = false /\ closing l = false) -> 1 <= lookahead ->
  zlen (enc all) <= client_max_querybuf_len -> wfq c [] tl -> qb_pos c = 0 -> sync c tl rest (data ++ R) -> Forall valid rest ->
  executed c ++ rest = all -> close_after_reply c = false ->
  exists c' tl' rest', readQueryFromClient false proto_max_bulk_len client_max_querybuf_len lookahead authRequired closing
      pool_argv_len repl_applied c 0 data = Some c' /\ wfq c' [] tl' /\ qb_pos c' = 0 /\ sync c' tl' rest' R /\ Forall valid rest' /\
    executed c' ++ rest' = all /\ close_after_reply c' = false /\ c_read_error c' = None /\ (R <> [] \/ unread c' = []).
Proof.
  intros Hp Hla Hsz Hwf Hpos Hsync Hval Hall Hcl. unfold readQueryFromClient. cbv zeta.
  set (c1 := set_buf (set_error c None) (querybuf (set_error c None) ++ data) (qb_pos (set_error c None))).
  set (c2 := if querybuf_peak c1 <? zlen (querybuf c1) then set_peak c1 (zlen (querybuf c1)) else c1).
  assert (Hc2 : querybuf c2 = querybuf c ++ data /\ qb_pos c2 = 0 /\ reqtype c2 = reqtype c /\ multibulklen c2 = multibulklen c /\
    bulklen c2 = bulklen c /\ all_argv_len_sum c2 = all_argv_len_sum c /\ pending_cmds c2 = pending_cmds c /\ executed c2 = executed c /\
    close_after_reply c2 = close_after_reply c /\ c_read_error c2 = None)
    by (unfold c2; destruct (_ <? _); by split_and!).
  destruct Hc2 as (H1 & H2 & H3 & H4 & H5 & H6 & H7 & H8 & H9 & H10).
  assert (Hu : unread c2 = unread c ++ data) by (unfold unread; by rewrite H1, H2, Hpos).
  assert (Hub : querybuf c = unread c) by (unfold unread; by rewrite Hpos).
  assert (Hlen : zlen (querybuf c1) <= client_max_querybuf_len).
  { change (querybuf c1) with (querybuf c ++ data). pose proof (sync_length _ _ _ _ Hsync) as Hl. rewrite Hub, length_app.
    rewrite length_app in Hl. rewrite <- Hall in Hsz. unfold enc in Hsz. rewrite map_app, concat_app, length_app in Hsz. unfold enc in Hl. lia. }
  destruct (Hp (executed c)) as [Hauth _]; [by exists rest|]. rewrite H8, Hauth, andb_false_r, orb_false_r. cbn [negb andb].
  rewrite Z.gtb_ltb, (proj2 (Z.ltb_ge _ _)) by lia. unfold processInputBuffer. rewrite H8, Hauth.
  assert (Hwf2 : wfq c2 [] tl).
  { destruct Hwf as [Hpo Hpd Hr Hs Hn Ht Hst]. constructor; unfold inside, vec_ok in *; rewrite ?H3, ?H4, ?H5, ?H6, ?H7; try done.
    - unfold pos_ok. rewrite H1, H2. change (querybuf c1) with (querybuf c ++ data) in Hlen. lia.
    - intros Hno Hty Hz. rewrite Hu. specialize (Hst Hno Hty Hz). by destruct (unread c). }
  destruct (input_loop_sync lookahead R all (Datatypes.S (length (querybuf c2) + length (pending_cmds c2))) c2 [] tl rest Hp Hla Hwf2)
    as (c3 & tl' & rest' & -> & Hwf3 & Hsync3 & Hval3 & Hall3 & He3 & Hcl3 & Hend3); try done.
  - cbn [length]. unfold unread. rewrite length_drop. lia.
  - destruct Hsync as [Hty Hs]. split; [by rewrite H3|]. unfold mid in *. rewrite Hu, H4, H5.
    by rewrite <- (app_assoc (unread c) data R).
  - by rewrite H8.
  - by rewrite H9.
  - mred. cbn [trim_querybuf]. mred. cbn [c_read_error set_buf]. rewrite He3. cbn [is_error].
    exists (set_buf c3 (unread c3) 0), tl', rest'. split_and!; try done.
    destruct Hwf3 as [Hpo Hpd Hr Hs Hn Ht Hst]. constructor; try done. pose proof (unread_length c3 Hpo). destruct Hpo. split; cbn; lia.
Qed.

Lemma read_all_sync all chunks : forall c tl rest,
  (forall l, l `prefix_of` all -> authRequired l = false /\ closing l = false) -> 1 <= lookahead ->
  zlen (enc all) <= client_max_querybuf_len -> wfq c [] tl -> qb_pos c = 0 -> sync c tl rest (concat chunks) -> Forall valid rest ->
  executed c ++ rest = all -> close_after_reply c = false -> (chunks = [] -> unread c = []) -> c_read_error c = None ->
  exists c', read_all false proto_max_bulk_len client_max_querybuf_len lookahead authRequired closing
      pool_argv_len repl_applied c chunks = Some c' /\ executed c' = all /\ querybuf c' = [] /\ pending_cmds c' = [] /\
    c_read_error c' = None /\ close_after_reply c' = false.
Proof.
  induction chunks as [|d chunks IH]; intros c tl rest Hp Hla Hsz Hwf Hpos Hsync Hval Hall Hcl Hend Herr; cbn [read_all].
  - destruct (sync_end c tl rest Hsync Hval (Hend eq_refl)) as [-> ->]. exists c. rewrite app_nil_r in Hall.
    split_and!; try done; [|by rewrite (wf_pending _ _ _ Hwf)]. specialize (Hend eq_refl). unfold unread in Hend. by rewrite Hpos in Hend.
  - cbn [concat] in Hsync.
    destruct (read_sync c tl rest (concat chunks) d all) as (c1 & tl1 & rest1 & -> & Hwf1 & Hpos1 & Hsync1 & Hval1 & Hall1 & Hcl1 & He1 & Hend1); try done.
    mred. apply (IH c1 tl1 rest1); try done. intros ->. by destruct Hend1.
Qed.

(** C30: However a stream of commands is cut into pieces, the parser runs exactly these commands,
    in their order and with their exact arguments, and has then consumed the stream, without
    an error: for all commands with at least one argument and arguments within
    [proto_max_bulk_len], of a client that is authenticated, that is not the master and that
    no command closes; the whole stream is within [client_max_querybuf_len]. *)
Theorem read_all_commands cmds chunks :
  concat chunks = enc cmds -> Forall valid cmds -> zlen (enc cmds) <= client_max_querybuf_len -> 1 <= lookahead ->
  (forall l, l `prefix_of` cmds -> authRequired l = false /\ closing l = false) ->
  exists c', read_all false proto_max_bulk_len client_max_querybuf_len lookahead authRequired closing
      pool_argv_len repl_applied createClient chunks = Some c' /\ executed c' = cmds /\ querybuf c' = [] /\ pending_cmds c' = [] /\
    c_read_error c' = None /\ close_after_reply c' = false.
Proof.
  intros Hc Hval Hsz Hla Hp. apply (read_all_sync cmds chunks createClient [] cmds); try done.
Qed.

(** ** An error inside a command that came in pieces *)

(** A command is not complete, and the next line of the buffer does not begin with [$]. *)
Definition bad_line (buf : list Z) : Prop :=
  exists a y z, buf = a ++ [13; y] ++ z /\ (13 ∉ a) /\ head (a ++ [13]) <> Some 36.

Record stuck (c : client) : Prop := Stuck {
  st_pending : exists p, pending_cmds c = [p] /\ incomplete p = true;
  st_type : reqtype c = REQ_MULTIBULK;
  st_multi : 0 < multibulklen c;
  st_bulk : bulklen c = -1;
  st_pos : qb_pos c = 0;
  st_line : bad_line (querybuf c);
  st_open : close_after_reply c = false
}.

Lemma read_bulklen_bad c p :
  pos_ok c -> bad_line (unread c) ->
  read_bulklen false proto_max_bulk_len authRequired c p = Some (c, fail p EXPECTED_DOLLAR, Error).
Proof.
  intros Hc (a & y & z & Hu & Hn & Hh). unfold read_bulklen.
  assert (Hm : memchr 13 (unread c) = Some (zlen a)) by (apply memchr_Some; by exists a, (y :: z)). rewrite Hm.
  rewrite whole_line_spec by done. rewrite (proj2 (Z.leb_le _ _)) by (rewrite Hu, !length_app; cbn [length]; lia). cbn [negb].
  rewrite rd_unread, Hu by done. destruct a as [|d a]; cbn [app head] in *; mred; [done|].
  rewrite (proj2 (Z.eqb_neq d 36)) by congruence. done.
Qed.

Lemma parse_one_stuck c :
  pos_ok c -> stuck c -> exists p', parse_one false proto_max_bulk_len authRequired pool_argv_len c = Some (set_pending c [p'], false) /\
    incomplete p' = true /\ is_error (read_error p') = true.
Proof.
  intros Hc [(p & Hp & Hi) Ht Hm Hb Hpos Hl _]. assert (Hu : unread c = querybuf c) by (unfold unread; by rewrite Hpos).
  unfold parse_one. rewrite rd_unread, Hu by done. pose proof Hl as (a & y & z & Hbuf & _).
  assert (Hf : exists f, head (querybuf c) = Some f) by (rewrite Hbuf; destruct a; cbn; eauto). destruct Hf as [f ->]. mred.
  rewrite Ht. cbv zeta. set (c0 := set_request c REQ_MULTIBULK (multibulklen c) (bulklen c)).
  assert (c0 = c) as -> by (unfold c0; rewrite <- Ht; by destruct c). unfold ready_len. rewrite Hp.
  rewrite filter_cons_False by congruence. cbn [length filter list_filter].
  change (Z.of_nat 1 =? Z.of_nat 0) with false. cbn [negb].
  rewrite (last_snoc_tail c [] p Hp). mred. unfold processMultibulkBuffer. cbn [multibulklen set_pending].
  rewrite (proj2 (Z.eqb_neq (multibulklen c) 0)) by lia. mred. cbn [multibulklen set_pending]. rewrite (proj2 (Z.gtb_lt _ _) Hm). cbn [negb bulk_loop].
  cbn [multibulklen set_pending bulklen]. rewrite (proj2 (Z.eqb_neq (multibulklen c) 0)) by lia. rewrite Hb. cbn [Z.eqb Pos.eqb].
  rewrite (read_bulklen_bad (set_pending c []) p Hc) by (unfold unread; cbn [querybuf qb_pos set_pending]; by rewrite Hpos).
  mred. cbn [negb is_error read_error fail andb orb]. eexists. split; [done|]. done.
Qed.

Lemma read_stuck c data :
  stuck c -> authRequired (executed c) = false -> closing (executed c) = false -> 1 <= lookahead ->
  zlen (querybuf c ++ data) <= client_max_querybuf_len ->
  exists c', readQueryFromClient false proto_max_bulk_len client_max_querybuf_len lookahead authRequired closing
      pool_argv_len repl_applied c 0 data = Some c' /\ stuck c' /\ executed c' = executed c /\ c_read_error c' = None /\
    querybuf c' = querybuf c ++ data.
Proof.
  intros Hs Hauth Hclose Hla Hsz. unfold readQueryFromClient. cbv zeta.
  set (c1 := set_buf (set_error c None) (querybuf (set_error c None) ++ data) (qb_pos (set_error c None))).
  set (c2 := if querybuf_peak c1 <? zlen (querybuf c1) then set_peak c1 (zlen (querybuf c1)) else c1).
  assert (Hc2 : querybuf c2 = querybuf c ++ data /\ executed c2 = executed c /\ c_read_error c2 = None /\ stuck c2).
  { assert (H1 : stuck c1 /\ stuck (set_peak c1 (zlen (querybuf c1)))).
    { destruct Hs as [? ? ? ? ? (a & y & z & Hb & ? & ?) ?]. split; constructor; try done; exists a, y, (z ++ data); cbn; rewrite Hb, <- !app_assoc; done. }
    unfold c2. destruct H1, (_ <? _); by split_and!. }
  destruct Hc2 as (Hb2 & Hx2 & He2 & Hs2). rewrite Hx2, Hauth, andb_false_r, orb_false_r. cbn [negb andb].
  change (querybuf c1) with (querybuf c ++ data). rewrite Z.gtb_ltb, (proj2 (Z.ltb_ge _ _)) by lia.
  unfold processInputBuffer. rewrite Hx2, Hauth.
  assert (Hpo : pos_ok c2) by (unfold pos_ok; rewrite (st_pos _ Hs2), Hb2; lia).
  destruct (parse_one_stuck c2 Hpo Hs2) as (p' & Hone & Hi' & He').
  assert (Hpos2 : (qb_pos c2 <? zlen (querybuf c2)) = true).
  { rewrite (st_pos _ Hs2). destruct (st_line _ Hs2) as (a & y & z & -> & _). rewrite !length_app. cbn [length]. lia. }
  assert (Hr2 : ready_len c2 = 0 /\ ready_len (set_pending c2 [p']) = 0).
  { destruct (st_pending _ Hs2) as (p & Hp & Hi). unfold ready_len. rewrite Hp. cbn [pending_cmds set_pending].
    rewrite !filter_cons_False by congruence. done. }
  destruct Hr2 as [Hr2 Hr2']. cbn [input_loop]. rewrite Hpos2, (st_open _ Hs2), Hx2, Hclose, Hr2. cbn [orb Z.eqb]. cbn [parse_loop].
  rewrite Hr2, Hpos2, (proj2 (Z.ltb_lt 0 lookahead)) by lia. cbn [andb]. rewrite Hone. mred. rewrite Hr2'. cbn [Z.eqb]. mred.
  cbn [trim_querybuf]. mred. cbn [c_read_error set_buf set_pending]. rewrite He2. cbn [is_error].
  assert (Hun : unread (set_pending c2 [p']) = querybuf c2) by (unfold unread; cbn; by rewrite (st_pos _ Hs2)). rewrite Hun.
  eexists. split; [done|]. split_and!; try done. destruct Hs2. constructor; try done. by exists p'.
Qed.

(** An error in the middle of a command that arrived in pieces is not reported: when the
    buffer holds the beginning of a command and then a line that does not begin with [$], the
    connection is neither answered nor closed, no command is run any more, and all that
    arrives is kept, until the buffer reaches its limit. *)
Theorem fragmented_error_silent c chunks :
  stuck c -> c_read_error c = None -> authRequired (executed c) = false -> closing (executed c) = false -> 1 <= lookahead ->
  zlen (querybuf c ++ concat chunks) <= client_max_querybuf_len ->
  exists c', read_all false proto_max_bulk_len client_max_querybuf_len lookahead authRequired closing
      pool_argv_len repl_applied c chunks = Some c' /\
    executed c' = executed c /\ c_read_error c' = None /\ close_after_reply c' = false /\ querybuf c' = querybuf c ++ concat chunks.
Proof.
  revert c. induction chunks as [|d chunks IH]; intros c Hs He Hauth Hclose Hla Hsz; cbn [read_all concat] in *.
  { exists c. rewrite app_nil_r. split_and!; try done. apply Hs. }
  rewrite app_assoc, length_app in Hsz.
  destruct (read_stuck c d Hs Hauth Hclose Hla ltac:(lia)) as (c1 & -> & Hs1 & Hx1 & He1 & Hb1). mred.
  destruct (IH c1 Hs1 He1) as (c' & -> & Hx' & He' & Hcl' & Hb'); rewrite ?Hx1; try done; [rewrite Hb1, length_app; lia|].
  exists c'. split_and!; try done; [congruence|]. by rewrite Hb', Hb1, app_assoc.
Qed.

(** ** Inline requests *)

Lemma esc_plain c : byte_ok c -> (10 ∉ esc c) /\ (0 ∉ esc c).
Proof.
  intros Hc. pose proof (byte_forall (fun c => forallb (fun x => negb (x =? 10) && negb (x =? 0)) (esc c))
    ltac:(by vm_compute) c Hc) as Hb. cbn beta in Hb. rewrite forallb_forall in Hb.
  split; intros Hin%list_elem_of_In%Hb; lia.
Qed.

Lemma quoted_plain p : bytes_ok p -> (10 ∉ quoted p) /\ (0 ∉ quoted p).
Proof.
  intros Hp. assert (He : (10 ∉ concat (map esc p)) /\ (0 ∉ concat (map esc p))).
  { induction Hp as [|c p Hc _ [IH1 IH2]]; cbn [map concat]; [split; apply not_elem_of_nil|].
    destruct (esc_plain c Hc). split; by apply not_elem_of_app. }
  destruct He. unfold quoted. split; (apply not_elem_of_cons; split; [done|]); apply not_elem_of_app; (split; [done|]);
    by apply not_elem_of_cons; split; [|apply not_elem_of_nil].
Qed.

Lemma joined_plain args :
  Forall bytes_ok args -> (10 ∉ joined [32] (map quoted args)) /\ (0 ∉ joined [32] (map quoted args)).
Proof.
  induction 1 as [|a args Ha _ [IH1 IH2]]; [split; apply not_elem_of_nil|]. destruct (quoted_plain a Ha) as [H1 H2].
  destruct args as [|a2 args].
  - cbn [map joined]. split; done.
  - change (joined [32] (map quoted (a :: a2 :: args))) with (quoted a ++ 32 :: joined [32] (map quoted (a2 :: args))).
    split; apply not_elem_of_app; (split; [done|]); by apply not_elem_of_cons.
Qed.

(** An inline request in the buffer of an idle client. *)
Lemma processInlineBuffer_line c p L toks :
  pos_ok c -> empty_cmd p -> unread c = L ++ [13; 10] -> (10 ∉ L) -> (0 ∉ L) -> sdssplitargs L = Some (Some toks) ->
  exists c' p', processInlineBuffer false c p = Some (c', p', true) /\ argv p' = map sb_bytes toks /\ read_error p' = None /\
    incomplete p' = false /\ unread c' = [].
Proof.
  intros Hc (Hargv & Hcap & Hsum & Hinc & Herr) Hu H10 H0 Hsp. unfold processInlineBuffer.
  assert (Hs : strchr 10 (unread c) = Some (zlen (L ++ [13]))).
  { rewrite Hu. replace (L ++ [13; 10]) with ((L ++ [13]) ++ 10 :: []) by (by rewrite <- app_assoc). apply strchr_found.
    - apply not_elem_of_app. split; [done|]. by apply not_elem_of_cons; split; [|apply not_elem_of_nil].
    - apply not_elem_of_app. split; [done|]. by apply not_elem_of_cons; split; [|apply not_elem_of_nil]. }
  rewrite Hs, length_app. cbn [length]. rewrite (proj2 (Z.eqb_neq _ 0)) by lia.
  replace (qb_pos c + Z.of_nat (length L + 1) - 1) with (qb_pos c + zlen L) by lia. rewrite (rd_unread_at c L 13 [10] Hc Hu). mred.
  cbn [Z.eqb Pos.eqb]. replace (Z.of_nat (length L + 1) - 1) with (zlen L) by lia.
  assert (Hrd : rdn (querybuf c) (qb_pos c) (zlen L) = Some L).
  { rewrite <- (Z.add_0_r (qb_pos c)). by apply (rdn_unread c [] L [13; 10]). }
  rewrite Hrd. mred. assert (Hsz : zlen L < 2 ^ 61).
  { pose proof (unread_length c Hc) as Hul. rewrite Hu, length_app in Hul. destruct Hc. change (2 ^ 61) with (2 * 2 ^ 60). lia. }
  destruct (sb_new_spec L Hsz) as (aux & -> & _ & Haux). mred. rewrite Haux, Hsp. mred. rewrite andb_false_r. cbv zeta.
  eexists _, _. split; [done|]. cbn. split_and!; try done; try (by destruct (_ && _)).
  destruct (unread_advance c (L ++ [13; 10]) [] (qb_pos c + (zlen L + 2)) Hc) as [Hu1 _];
    [by rewrite app_nil_r|rewrite length_app; cbn [length]; lia|]. exact Hu1.
Qed.

Lemma parse_one_inline c L toks x :
  wfq c [] [] -> reqtype c = REQ_UNKNOWN -> unread c = L ++ CRLF -> head L = Some x -> x <> 42 -> (10 ∉ L) -> (0 ∉ L) ->
  sdssplitargs L = Some (Some toks) ->
  exists c' q, parse_one false proto_max_bulk_len authRequired pool_argv_len c = Some (c', true) /\ wfq c' [q] [] /\
    argv q = map sb_bytes toks /\ read_error q = None /\ unread c' = [] /\ same_run c c'.
Proof.
  intros Hwf Ht Hu Hh Hx H10 H0 Hsp. assert (Hne : unread c <> []) by (rewrite Hu; by destruct L).
  destruct (parse_one_spec c [] [] Hwf ltac:(done) Hne) as (c' & more & Heq & [Hs _ Hst]).
  destruct Hwf as [Hpos _ _ _ _ _ _]. rewrite Heq. revert Heq. unfold parse_one. rewrite rd_unread, Ht by done.
  assert (Hhd : head (unread c) = Some x) by (rewrite Hu; by destruct L). rewrite Hhd. mred. rewrite (proj2 (Z.eqb_neq x 42) Hx).
  set (c0 := set_request c REQ_INLINE (multibulklen c) (bulklen c)).
  destruct (processInlineBuffer_line c0 (acquirePendingCommand pool_argv_len c0) L toks Hpos (acquire_empty c0) Hu H10 H0 Hsp)
    as (c1 & p1 & -> & Hargv & He & Hi & Hu1). mred. rewrite He, Hi. cbn [negb is_error orb andb]. intros [= <- <-].
  destruct Hst as (q & Hwq & Hq & _). pose proof (wf_pending _ _ _ Hwq) as Hp.
  eexists _, q. split_and!; try done. cbn [pending_cmds resetClientQbufState set_request addPendingCommand set_pending app] in Hp.
  assert (q = p1) as ->; [|done].
  assert (Hlast : last (pending_cmds c1 ++ [p1]) = last ([] ++ [q] ++ [])) by (f_equal; exact Hp).
  rewrite last_snoc in Hlast. by injection Hlast.
Qed.

(** One command that the parser has ready is run. *)
Lemma run_one c q fuel ahead :
  wfq c [q] [] -> unread c = [] -> read_error q = None -> argv q <> [] -> closing (executed c) = false -> close_after_reply c = false ->
  exists c', input_loop false proto_max_bulk_len authRequired closing pool_argv_len (Datatypes.S (Datatypes.S fuel)) ahead c = Some c' /\
    executed c' = executed c ++ [argv q] /\ unread c' = [] /\ pending_cmds c' = [] /\ c_read_error c' = None.
Proof.
  intros Hwf Hu Hq Hargv Hclose Hcl. cbn [input_loop]. rewrite (ready_spec _ _ _ Hwf). cbn [length].
  change (Z.of_nat 1 >? 0) with true. change (Z.of_nat 1 =? 0) with false. rewrite orb_true_r, Hcl, Hclose. cbn [orb]. mred.
  rewrite (ready_spec _ _ _ Hwf), (wf_pending _ _ _ Hwf). cbn [length app head]. change (Z.of_nat 1 =? 0) with false. mred.
  rewrite Hq. cbn [is_error]. rewrite (proj2 (Z.eqb_neq (argc q) 0)) by (unfold argc; destruct (argv q); [done|rewrite length_cons; lia]).
  set (c2 := add_executed (set_error c None) (argv q)).
  destruct (resetClient_spec c2 q [] []) as (c3 & -> & Hwf3 & Hu3 & (He3 & Hcl3 & Hx3) & _); [by eapply wfq_fields|done|]. mred.
  pose proof (unread_length c3 (wf_pos _ _ _ Hwf3)) as Hl3. rewrite Hu3 in Hl3. change (unread c2) with (unread c) in Hl3. rewrite Hu in Hl3.
  cbn [length] in Hl3. rewrite (ready_spec _ _ _ Hwf3). rewrite (proj2 (Z.ltb_ge (qb_pos c3) _)) by lia.
  change (zlen ([] : list pendingCommand) >? 0) with false. cbn [orb]. exists c3. split_and!; try done.
  - by rewrite Hu3.
  - by rewrite (wf_pending _ _ _ Hwf3).
Qed.

(** A command that is parsed is run in the same turn. *)
Lemma input_loop_parse c c1 fuel ahead :
  qb_pos c < zlen (querybuf c) -> close_after_reply c = false -> closing (executed c) = false -> ready_len c = 0 ->
  parse_loop false proto_max_bulk_len authRequired pool_argv_len (Datatypes.S (length (querybuf c))) ahead c = Some c1 ->
  0 < ready_len c1 -> close_after_reply c1 = false -> closing (executed c1) = false ->
  input_loop false proto_max_bulk_len authRequired closing pool_argv_len (Datatypes.S fuel) ahead c =
  input_loop false proto_max_bulk_len authRequired closing pool_argv_len (Datatypes.S fuel) ahead c1.
Proof.
  intros Hp Hcl Hclose Hr Hparse Hr1 Hcl1 Hclose1. cbn [input_loop]. rewrite Hcl, Hclose, Hr, Hcl1, Hclose1, Hparse.
  rewrite (proj2 (Z.ltb_lt _ _) Hp), (proj2 (Z.gtb_lt _ _) Hr1), orb_true_r. cbn [orb Z.eqb]. mred.
  rewrite (proj2 (Z.eqb_neq (ready_len c1) 0)) by lia. mred.
  by rewrite (proj2 (Z.eqb_neq (ready_len c1) 0)) by lia.
Qed.

(** An inline request: the line that quotes any arguments with [sdscatrepr], ended with
    [\r\n], makes a new client run exactly the command with these arguments, byte for byte. *)
Theorem inline_request args :
  args <> [] -> Forall bytes_ok args -> 4 * zlen (concat args) + 3 * zlen args + 2 <= client_max_querybuf_len ->
  1 <= lookahead -> authRequired [] = false -> closing [] = false ->
  exists rs line c', reprs args = Some rs /\ sdsjoinsds rs [32] = Some line /\
    readQueryFromClient false proto_max_bulk_len client_max_querybuf_len lookahead authRequired closing
      pool_argv_len repl_applied createClient 0 (sb_bytes line ++ CRLF) = Some c' /\
    executed c' = [args] /\ querybuf c' = [] /\ pending_cmds c' = [].
Proof.
  intros Hargs Hb Hsz Hla Hauth Hclose.
  destruct (quoted_line_spec args Hb ltac:(lia)) as (rs & line & toks & Hrs & Hj & Hsp & Htoks & Hline).
  exists rs, line. rewrite Hline in *. clear Hline. destruct (joined_plain args Hb) as [H10 H0].
  pose proof (joined_quoted_length args) as HlL.
  assert (HL : head (joined [32] (map quoted args)) = Some 34).
  { destruct args as [|a [|a2 args]]; [done|done|].
    by change (joined [32] (map quoted (a :: a2 :: args))) with (quoted a ++ 32 :: joined [32] (map quoted (a2 :: args))). }
  set (L := joined [32] (map quoted args)) in *.
  assert (Hlen : zlen (L ++ CRLF) = zlen L + 2) by (rewrite length_app; cbn [length CRLF]; lia).
  unfold readQueryFromClient. cbv zeta. set (c1 := set_buf (set_error createClient None) _ _).
  set (c2 := if querybuf_peak c1 <? zlen (querybuf c1) then set_peak c1 (zlen (querybuf c1)) else c1).
  assert (Hc2 : exists n, c2 = set_peak c1 n) by (unfold c2; destruct (_ <? _); by eexists).
  destruct Hc2 as [n ->]. change (executed (set_peak c1 n)) with (@nil (list (list Z))). rewrite Hauth, andb_false_r, orb_false_r. cbn [negb andb].
  change (querybuf c1) with (L ++ CRLF). rewrite Z.gtb_ltb, (proj2 (Z.ltb_ge _ _)) by lia.
  unfold processInputBuffer. change (executed (set_peak c1 n)) with (@nil (list (list Z))). rewrite Hauth.
  assert (Hwf : wfq (set_peak c1 n) [] []).
  { constructor; try done. split; [cbn; lia|]. change (querybuf (set_peak c1 n)) with (L ++ CRLF). lia. }
  destruct (parse_one_inline (set_peak c1 n) L toks 34 Hwf) as (c3 & q & Hone & Hwf3 & Hargv & Hq & Hu3 & _ & Hcl3 & Hx3); try done.
  change (querybuf (set_peak c1 n)) with (L ++ CRLF).
  assert (Hfuel : exists f, length (L ++ CRLF) = Datatypes.S (Datatypes.S f)) by (exists (length L); rewrite length_app; cbn [length CRLF]; lia).
  destruct Hfuel as [f Hf]. assert (Hr3 : ready_len c3 = 1) by (by rewrite (ready_spec _ _ _ Hwf3)).
  assert (Hparse : parse_loop false proto_max_bulk_len authRequired pool_argv_len (Datatypes.S (length (querybuf (set_peak c1 n)))) lookahead
    (set_peak c1 n) = Some c3).
  { change (querybuf (set_peak c1 n)) with (L ++ CRLF). rewrite Hf. cbn [parse_loop]. rewrite (ready_spec _ _ _ Hwf).
    change (qb_pos (set_peak c1 n)) with 0. change (querybuf (set_peak c1 n)) with (L ++ CRLF).
    rewrite (proj2 (Z.ltb_lt 0 (zlen (L ++ CRLF)))) by lia. rewrite (proj2 (Z.ltb_lt _ lookahead)) by (cbn; lia). cbn [andb].
    rewrite Hone. mred. pose proof (unread_length c3 (wf_pos _ _ _ Hwf3)) as Hl3. rewrite Hu3 in Hl3. cbn [length] in Hl3.
    rewrite (proj2 (Z.ltb_ge (qb_pos c3) _)) by lia. by rewrite andb_false_r. }
  rewrite (input_loop_parse (set_peak c1 n) c3); try done.
  2: { change (querybuf (set_peak c1 n)) with (L ++ CRLF). change (qb_pos (set_peak c1 n)) with 0. lia. }
  2: { lia. } 2: { by rewrite Hx3. }
  rewrite Hf. cbn [Nat.add]. destruct (run_one c3 q (Datatypes.S (f + length (pending_cmds (set_peak c1 n)))) lookahead Hwf3 Hu3 Hq) as (c' & -> & Hx' & Hu' & Hp' & He').
  { rewrite Hargv, Htoks. done. } { by rewrite Hx3. } { done. }
  mred. cbn [trim_querybuf]. mred. cbn [c_read_error set_buf]. rewrite He'. cbn [is_error].
  exists (set_buf c' (unread c') 0). split_and!; try done. cbn. by rewrite Hx', Hx3, Hargv, Htoks.
Qed.

End Proofs.

(** ** Examples *)

Definition no (l : list (list (list Z))) : bool := false.
Definition zero (c : client) : Z := 0.

(** The defaults of the configuration. *)
Definition read (c : client) (chunks : list (list Z)) : option client :=
  read_all (SB := buf8) false (512 * 1024 * 1024) (1024 * 1024 * 1024) 16 no no zero zero c chunks.

Definition two_commands : list (list (list Z)) := [[str "SET"; [13; 10; 0]; []]; [str "PING"]].
Definition cut : list (list Z) :=
  [take 2 (enc two_commands); take 15 (drop 2 (enc two_commands)); []; drop 17 (enc two_commands)].

Lemma read_all_commands_witness :
  exists c', read createClient cut = Some c' /\ executed c' = two_commands /\ querybuf c' = [] /\ pending_cmds c' = [] /\
    c_read_error c' = None /\ close_after_reply c' = false.
Proof.
  apply (read_all_commands (SB := buf8) (512 * 1024 * 1024) (1024 * 1024 * 1024) 16 no no zero zero); try lia.
  - intros c. unfold zero. lia.
  - vm_compute. reflexivity.
  - repeat constructor; vm_compute; congruence.
  - vm_compute. congruence.
  - intros l _. split; reflexivity.
Defined.

Lemma readQueryFromClient_total_witness :
  exists c', readQueryFromClient (SB := buf8) false (512 * 1024 * 1024) (1024 * 1024 * 1024) 16 no no zero zero createClient 0
      [42; 0; 255; 13] = Some c' /\
    (wf c' \/ c_read_error c' = Some REACHED_MAX_QUERYBUF) /\ executed createClient `prefix_of` executed c' /\
    (is_error (c_read_error c') = true -> close_after_reply c' = true).
Proof.
  apply (readQueryFromClient_total (SB := buf8) (512 * 1024 * 1024) (1024 * 1024 * 1024) 16 no no zero zero); try lia.
  - intros c. unfold zero. lia.
  - exists [], [], []. split; [|split; [constructor|left; reflexivity]].
    constructor; done.
Defined.

Lemma inline_request_witness :
  exists rs line c', reprs (SB := buf8) [str "SET"; [34; 0; 10]] = Some rs /\ sdsjoinsds (SB := buf8) rs [32] = Some line /\
    readQueryFromClient (SB := buf8) false (512 * 1024 * 1024) (1024 * 1024 * 1024) 16 no no zero zero createClient 0
      (Sds.content line ++ CRLF) = Some c' /\
    executed c' = [[str "SET"; [34; 0; 10]]] /\ querybuf c' = [] /\ pending_cmds c' = [].
Proof.
  apply (inline_request (SB := buf8) (512 * 1024 * 1024) (1024 * 1024 * 1024) 16 no no zero zero); try lia; try reflexivity.
  - discriminate.
  - repeat constructor; unfold byte_ok; cbn; lia.
  - vm_compute. congruence.
Defined.

(** The beginning of a command, and a line that is not an argument. *)
Definition begin : list Z := enc_cmd [str "PING"; []].
Definition half : list Z := take 14 begin.
Definition bad : list Z := str "foo" ++ CRLF.

(** In one piece, the client is closed with an error; in two pieces, it is not. *)
Example error_in_one_piece :
  option_map (fun c => (c_read_error c, close_after_reply c)) (read createClient [half ++ bad]) = Some (Some EXPECTED_DOLLAR, true).
Proof. vm_compute. reflexivity. Qed.

Definition after_bad : client := default createClient (read createClient [half; bad]).

Lemma fragmented_error_silent_witness :
  exists c', read after_bad [enc two_commands; bad] = Some c' /\ executed c' = executed after_bad /\ c_read_error c' = None /\
    close_after_reply c' = false /\ querybuf c' = querybuf after_bad ++ concat [enc two_commands; bad].
Proof.
  apply (fragmented_error_silent (SB := buf8) (512 * 1024 * 1024) (1024 * 1024 * 1024) 16 no no zero zero); try lia; try (vm_compute; reflexivity).
  - constructor; try (vm_compute; reflexivity).
    + exists (default (PendingCommand [] 0 0 0 false None) (head (pending_cmds after_bad))). split; vm_compute; reflexivity.
    + exists (str "foo"), 10, []. split; [vm_compute; reflexivity|]. split; [|vm_compute; discriminate].
      intros Hin%list_elem_of_In. vm_compute in Hin. intuition discriminate.
  - vm_compute. congruence.
Defined.

End Request.
