(* ===== verification/Bits.v ===== *)
(** * Bit operations, low level ([redis-stable/src/bitops.c])

    Counting and searching bits of a byte string with word-wide loops
    ([redisPopcount], [redisBitpos]), reading and writing integers of 1 to 64
    bits at any bit offset ([getUnsignedBitfield] and the others), and the
    overflow policies of [BITFIELD].

    The specifications speak of [bits_of s], the bits of a string with the most
    significant bit of the first byte at position 0.  Words are loaded from
    little-endian memory of 64-bit machines; an address matters only through
    its alignment.  A read outside the string is [None]. *)

From S2P Require Import Prelude Numbers.
From Stdlib Require Import ZifyBool.

Module Bits.

(** ** The bits of a string *)

Definition byte_bits (b : Z) : list bool :=
  map (fun i => Z.testbit b i) [7; 6; 5; 4; 3; 2; 1; 0].
Definition bits_of (s : list Z) : list bool := concat (map byte_bits s).
Definition count_true (l : list bool) : Z := zlen (filter (fun b => b = true) l).

(** ** redisPopcount *)

Definition B2 (n : Z) : list Z := [n; n + 1; n + 1; n + 2].
Definition B4 (n : Z) : list Z := B2 n ++ B2 (n + 1) ++ B2 (n + 1) ++ B2 (n + 2).
Definition B6 (n : Z) : list Z := B4 n ++ B4 (n + 1) ++ B4 (n + 1) ++ B4 (n + 2).
Definition bitsinbyte : list Z := B6 0 ++ B6 1 ++ B6 1 ++ B6 2.

(** The [n] low bits of [x] that are set; [popn 64] is [__builtin_popcountll]. *)
Fixpoint popn (n : nat) (x : Z) : Z :=
  match n with
  | O => 0
  | S n => x mod 2 + popn n (x / 2)
  end.

(** [while ((unsigned long)p & align && count)]; [addr] is the address of the
    block [m]. *)
Fixpoint popcount_align (fuel : nat) (addr align : Z) (m : list Z) (p count bits : Z)
    : option (Z * Z * Z) :=
  if (Z.land (addr + p) align =? 0) || (count =? 0) then Some (p, count, bits)
  else
    match fuel with
    | O => None
    | S fuel =>
      b ← rd m p;
      n ← rd bitsinbyte b;
      popcount_align fuel addr align m (p + 1) (count - 1) (bits + n)
    end.

(** [while (count >= 32)], with its four counters. *)
Fixpoint popcount_words (fuel : nat) (m : list Z) (p count : Z) (cnt : Z * Z * Z * Z)
    : option (Z * Z * (Z * Z * Z * Z)) :=
  if count <? 32 then Some (p, count, cnt)
  else
    match fuel with
    | O => None
    | S fuel =>
      let '(c0, c1, c2, c3) := cnt in
      w0 ← rdn m p 8;
      w1 ← rdn m (p + 8) 8;
      w2 ← rdn m (p + 16) 8;
      w3 ← rdn m (p + 24) 8;
      popcount_words fuel m (p + 32) (count - 32)
        (uwrap 64 (c0 + popn 64 (le_val w0)), uwrap 64 (c1 + popn 64 (le_val w1)),
         uwrap 64 (c2 + popn 64 (le_val w2)), uwrap 64 (c3 + popn 64 (le_val w3)))
    end.

Definition swar_step (aux : Z) : Z :=
  let aux := uwrap 32 (aux - Z.land (Z.shiftr aux 1) 0x55555555) in
  uwrap 32 (Z.land aux 0x33333333 + Z.land (Z.shiftr aux 2) 0x33333333).

Definition swar_fold (aux : Z) : Z := Z.land (uwrap 32 (aux + Z.shiftr aux 4)) 0x0F0F0F0F.

(** [while (count >= 28)]: seven 32-bit words at a time. *)
Fixpoint popcount_swar (fuel : nat) (m : list Z) (p count bits : Z) : option (Z * Z * Z) :=
  if count <? 28 then Some (p, count, bits)
  else
    match fuel with
    | O => None
    | S fuel =>
      w1 ← rdn m p 4;
      w2 ← rdn m (p + 4) 4;
      w3 ← rdn m (p + 8) 4;
      w4 ← rdn m (p + 12) 4;
      w5 ← rdn m (p + 16) 4;
      w6 ← rdn m (p + 20) 4;
      w7 ← rdn m (p + 24) 4;
      let aux1 := swar_step (le_val w1) in
      let aux2 := swar_step (le_val w2) in
      let aux3 := swar_step (le_val w3) in
      let aux4 := swar_step (le_val w4) in
      let aux5 := swar_step (le_val w5) in
      let aux6 := swar_step (le_val w6) in
      let aux7 := swar_step (le_val w7) in
      let sum := uwrap 32 (swar_fold aux1 + swar_fold aux2 + swar_fold aux3 + swar_fold aux4
                           + swar_fold aux5 + swar_fold aux6 + swar_fold aux7) in
      popcount_swar fuel m (p + 28) (count - 28)
        (bits + Z.shiftr (uwrap 32 (sum * 0x01010101)) 24)
    end.

(** [while(count--) bits += bitsinbyte[*p++];] *)
Fixpoint popcount_remain (fuel : nat) (m : list Z) (p count bits : Z) : option Z :=
  if count =? 0 then Some bits
  else
    match fuel with
    | O => None
    | S fuel =>
      b ← rd m p;
      n ← rd bitsinbyte b;
      popcount_remain fuel m (p + 1) (count - 1) (bits + n)
    end.

Definition redisPopcount (use_popcnt : bool) (addr : Z) (m : list Z) (p count : Z) : option Z :=
  let fuel := Z.to_nat count in
  let align := if use_popcnt then 7 else 3 in
  '(p, count, bits) ← popcount_align fuel addr align m p count 0;
  if use_popcnt then
    '(p, count, cnt) ← popcount_words fuel m p count (0, 0, 0, 0);
    let '(c0, c1, c2, c3) := cnt in
    popcount_remain fuel m p count (bits + uwrap 64 (c0 + c1 + c2 + c3))
  else
    '(p, count, bits) ← popcount_swar fuel m p count bits;
    popcount_remain fuel m p count bits.

(** ** redisBitpos *)

Definition UCHAR_MAX : Z := 255.
Definition ULONG_MAX : Z := 2 ^ 64 - 1.

(** The bytes before the first aligned address; the flag is [found]. *)
Fixpoint bitpos_align (fuel : nat) (addr : Z) (m : list Z) (skipval c count pos : Z)
    : option (Z * Z * Z * bool) :=
  if (Z.land (addr + c) 7 =? 0) || (count =? 0) then Some (c, count, pos, false)
  else
    match fuel with
    | O => None
    | S fuel =>
      b ← rd m c;
      if negb (b =? skipval) then Some (c, count, pos, true)
      else bitpos_align fuel addr m skipval (c + 1) (count - 1) (pos + 8)
    end.

Fixpoint bitpos_words (fuel : nat) (m : list Z) (skipval l count pos : Z)
    : option (Z * Z * Z) :=
  if count <? 8 then Some (l, count, pos)
  else
    match fuel with
    | O => None
    | S fuel =>
      w ← rdn m l 8;
      if negb (le_val w =? skipval) then Some (l, count, pos)
      else bitpos_words fuel m skipval (l + 8) (count - 8) (pos + 64)
    end.

(** [for (j = 0; j < sizeof( *l); j++)]: the next bytes, the first one as the
    most significant, padded with zero on the right. *)
Fixpoint bitpos_load (j : nat) (m : list Z) (c count word : Z) : option Z :=
  match j with
  | O => Some word
  | S j =>
    let word := uwrap 64 (Z.shiftl word 8) in
    if negb (count =? 0) then
      b ← rd m c;
      bitpos_load j m (c + 1) (count - 1) (Z.lor word b)
    else bitpos_load j m c count word
  end.

(** [while(one)]; falling out of it is [serverPanic]. *)
Fixpoint bitpos_scan (fuel : nat) (word bit one pos : Z) : option Z :=
  if one =? 0 then None
  else
    match fuel with
    | O => None
    | S fuel =>
      if Numbers.b2z (negb (Z.land one word =? 0)) =? bit then Some pos
      else bitpos_scan fuel word bit (Z.shiftr one 1) (pos + 1)
    end.

Definition redisBitpos (addr : Z) (m : list Z) (s count bit : Z) : option Z :=
  let fuel := Z.to_nat count in
  let skipval := if negb (bit =? 0) then 0 else UCHAR_MAX in
  '(c, count, pos, found) ← bitpos_align fuel addr m skipval s count 0;
  '(l, count, pos) ←
    (if found : bool then Some (c, count, pos)
     else bitpos_words fuel m (if negb (bit =? 0) then 0 else ULONG_MAX) c count pos);
  word ← bitpos_load 8 m l count 0;
  if (bit =? 1) && (word =? 0) then Some (-1)
  else
    let one := uwrap 64 (Z.lnot (Z.shiftr ULONG_MAX 1)) in
    bitpos_scan 64 word bit one pos.

(** ** Bit fields *)

Fixpoint setUnsignedBitfield_loop (n : nat) (p : list Z) (offset bits value j : Z)
    : option (list Z) :=
  match n with
  | O => Some p
  | S n =>
    let bitval := Numbers.b2z (negb (Z.land value (Z.shiftl 1 (bits - 1 - j)) =? 0)) in
    let byte := Z.shiftr offset 3 in
    let bit := 7 - Z.land offset 7 in
    byteval ← rd p byte;
    let byteval := Z.land byteval (Z.lnot (Z.shiftl 1 bit)) in
    let byteval := Z.lor byteval (Z.shiftl bitval bit) in
    p ← wrn p byte [Z.land byteval 0xff];
    setUnsignedBitfield_loop n p (uwrap 64 (offset + 1)) bits value (j + 1)
  end.

Definition setUnsignedBitfield (p : list Z) (offset bits value : Z) : option (list Z) :=
  setUnsignedBitfield_loop (Z.to_nat bits) p offset bits value 0.

Definition setSignedBitfield (p : list Z) (offset bits value : Z) : option (list Z) :=
  setUnsignedBitfield p offset bits (uwrap 64 value).

Fixpoint getUnsignedBitfield_loop (n : nat) (p : list Z) (offset value : Z) : option Z :=
  match n with
  | O => Some value
  | S n =>
    let byte := Z.shiftr offset 3 in
    let bit := 7 - Z.land offset 7 in
    byteval ← rd p byte;
    let bitval := Z.land (Z.shiftr byteval bit) 1 in
    let value := Z.lor (uwrap 64 (Z.shiftl value 1)) bitval in
    getUnsignedBitfield_loop n p (uwrap 64 (offset + 1)) value
  end.

Definition getUnsignedBitfield (p : list Z) (offset bits : Z) : option Z :=
  getUnsignedBitfield_loop (Z.to_nat bits) p offset 0.

Definition getSignedBitfield (p : list Z) (offset bits : Z) : option Z :=
  u ← getUnsignedBitfield p offset bits;
  let value := swrap 64 u in
  Some (if (bits <? 64) && negb (Z.land (uwrap 64 value) (Z.shiftl 1 (bits - 1)) =? 0)
        then swrap 64 (Z.lor (uwrap 64 value) (uwrap 64 (Z.shiftl (uwrap 64 (-1)) bits)))
        else value).

(** ** Overflow policies *)

Inductive owtype := BFOVERFLOW_WRAP | BFOVERFLOW_SAT | BFOVERFLOW_FAIL.

Definition UINT64_MAX : Z := 2 ^ 64 - 1.
Definition INT64_MAX : Z := 2 ^ 63 - 1.

(** The result and what [*limit] holds afterwards, from what it held before;
    the callers always pass it. *)
Definition checkUnsignedBitfieldOverflow (value incr bits : Z) (ow : owtype) (limit : Z)
    : Z * Z :=
  let max := if bits =? 64 then UINT64_MAX else uwrap 64 (Z.shiftl 1 bits - 1) in
  let maxincr := swrap 64 (max - value) in
  let minincr := swrap 64 (- value) in
  let handle_wrap :=
    let mask := uwrap 64 (Z.shiftl (uwrap 64 (-1)) bits) in
    let res := uwrap 64 (value + incr) in
    (1, Z.land res (uwrap 64 (Z.lnot mask))) in
  if (max <? value) || ((0 <? incr) && (maxincr <? incr)) then
    match ow with
    | BFOVERFLOW_WRAP => handle_wrap
    | BFOVERFLOW_SAT => (1, max)
    | BFOVERFLOW_FAIL => (1, limit)
    end
  else if (incr <? 0) && (incr <? minincr) then
    match ow with
    | BFOVERFLOW_WRAP => handle_wrap
    | BFOVERFLOW_SAT => (-1, 0)
    | BFOVERFLOW_FAIL => (-1, limit)
    end
  else (0, limit).

(** [max-value] is computed in [uint64_t] and converted back; [min-value] is
    signed, and [undefined] stands for what an overflow of it leaves in
    [minincr]. *)
Definition checkSigned_with (undefined value incr bits : Z) (ow : owtype) (limit : Z)
    : Z * Z :=
  let max := if bits =? 64 then INT64_MAX else Z.shiftl 1 (bits - 1) - 1 in
  let min := - max - 1 in
  let maxincr := swrap 64 (max - value) in
  let minincr := default undefined (schk 64 (min - value)) in
  let handle_wrap :=
    let msb := uwrap 64 (Z.shiftl 1 (bits - 1)) in
    let c := uwrap 64 (uwrap 64 value + uwrap 64 incr) in
    let c :=
      if bits <? 64 then
        let mask := uwrap 64 (Z.shiftl (uwrap 64 (-1)) bits) in
        if negb (Z.land c msb =? 0) then Z.lor c mask
        else Z.land c (uwrap 64 (Z.lnot mask))
      else c in
    (1, swrap 64 c) in
  if (max <? value) || (negb (bits =? 64) && (maxincr <? incr))
     || ((0 <=? value) && (0 <? incr) && (maxincr <? incr)) then
    match ow with
    | BFOVERFLOW_WRAP => handle_wrap
    | BFOVERFLOW_SAT => (1, max)
    | BFOVERFLOW_FAIL => (1, limit)
    end
  else if (value <? min) || (negb (bits =? 64) && (incr <? minincr))
     || ((value <? 0) && (incr <? 0) && (incr <? minincr)) then
    match ow with
    | BFOVERFLOW_WRAP => handle_wrap
    | BFOVERFLOW_SAT => (-1, min)
    | BFOVERFLOW_FAIL => (-1, limit)
    end
  else (0, limit).

(** The result does not depend on [undefined] ([checkSigned_with_spec]). *)
Definition checkSignedBitfieldOverflow (value incr bits : Z) (ow : owtype) (limit : Z)
    : Z * Z :=
  checkSigned_with 0 value incr bits ow limit.

(** ** Correctness of the count *)

Lemma count_true_app a b : count_true (a ++ b) = count_true a + count_true b.
Proof. unfold count_true. rewrite filter_app, length_app. lia. Qed.

Lemma bits_of_app a b : bits_of (a ++ b) = bits_of a ++ bits_of b.
Proof. unfold bits_of. by rewrite map_app, concat_app. Qed.

Lemma bits_of_cons b s : bits_of (b :: s) = byte_bits b ++ bits_of s.
Proof. done. Qed.

Definition pop (s : list Z) : Z := count_true (bits_of s).

Lemma pop_app a b : pop (a ++ b) = pop a + pop b.
Proof. unfold pop. by rewrite bits_of_app, count_true_app. Qed.

Lemma pop_cons b s : pop (b :: s) = pop [b] + pop s.
Proof. apply (pop_app [b] s). Qed.

Lemma pop_byte b : byte_ok b -> rd bitsinbyte b = Some (pop [b]) /\ popn 8 b = pop [b].
Proof.
  intros Hb. pose proof (byte_forall (fun b => bool_decide
    (rd bitsinbyte b = Some (pop [b]) /\ popn 8 b = pop [b]))) as H.
  specialize (H ltac:(vm_compute; reflexivity) b Hb). by apply bool_decide_eq_true_1 in H.
Qed.

Lemma bits_of_length s : length (bits_of s) = (8 * length s)%nat.
Proof. induction s as [|b s IH]; [done|]. rewrite bits_of_cons, length_app, IH. simpl. lia. Qed.

Lemma pop_range s : 0 <= pop s <= 8 * zlen s.
Proof.
  unfold pop, count_true. split; [lia|].
  pose proof (length_filter (fun b : bool => b = true) (bits_of s)) as H.
  rewrite bits_of_length in H. lia.
Qed.

(** The bytes of a block from offset [p] on. *)
Lemma rdn_split m p k n x :
  rdn m p (k + n) = Some x -> 0 <= k -> 0 <= n ->
  exists a b, x = a ++ b /\ rdn m p k = Some a /\ rdn m (p + k) n = Some b.
Proof.
  intros (H1 & H2 & H3 & ->)%rdn_Some Hk Hn.
  exists (take (Z.to_nat k) (drop (Z.to_nat p) m)),
    (take (Z.to_nat n) (drop (Z.to_nat (p + k)) m)).
  split_and!; [|(apply rdn_Some; split_and!; (lia || done))..].
  rewrite !Z2Nat.inj_add by lia. rewrite <- drop_drop. by rewrite take_take_drop.
Qed.

Lemma rdn_rd m p x : rdn m p 1 = Some x -> exists b, x = [b] /\ rd m p = Some b.
Proof.
  intros (H1 & _ & H3 & ->)%rdn_Some. rewrite rd_lookup by lia.
  destruct (lookup_lt_is_Some_2 m (Z.to_nat p)) as [b Hb]; [lia|].
  exists b. split; [|done]. erewrite drop_S by done. done.
Qed.

Lemma rdn_bytes_ok m p n x : bytes_ok m -> rdn m p n = Some x -> bytes_ok x.
Proof. intros Hm (_&_&_&->)%rdn_Some. by apply Forall_take, Forall_drop. Qed.

Lemma popn_mod n x : popn n (x mod 2 ^ Z.of_nat n) = popn n x.
Proof.
  revert x. induction n as [|n IH]; intros x; [done|]. cbn [popn].
  rewrite Nat2Z.inj_succ, Z.pow_succ_r, Z.rem_mul_r by lia.
  rewrite (Z.mul_comm 2 (_ mod _)), Z_div_plus, Z_mod_plus by lia.
  rewrite Z.mod_mod, (Z.div_small (x mod 2)), Z.add_0_l by dlia. by rewrite IH.
Qed.

Lemma popn_add a b x : popn (a + b) x = popn a x + popn b (x / 2 ^ Z.of_nat a).
Proof.
  revert x. induction a as [|a IH]; intros x; cbn [popn Nat.add].
  - by rewrite Z.div_1_r.
  - rewrite IH, Z.div_div, <- Z.pow_succ_r, Nat2Z.inj_succ by lia. lia.
Qed.

Lemma popn_le_val w : bytes_ok w -> popn (8 * length w) (le_val w) = pop w.
Proof.
  induction 1 as [|b w Hb _ IH]; [done|]. cbn [length le_val].
  replace (8 * S (length w))%nat with (8 + 8 * length w)%nat by lia.
  rewrite popn_add, <- popn_mod, pop_cons. change (2 ^ Z.of_nat 8) with 256.
  unfold byte_ok in Hb. rewrite (Z.mul_comm 256), Z_mod_plus, Z_div_plus by lia.
  rewrite Z.mod_small, (Z.div_small b), Z.add_0_l, IH by lia. f_equal. by apply pop_byte.
Qed.

(** *** Bytes side by side in a word

    The masks of the 32-bit steps keep the bytes of a word apart: each step
    is the same step on every byte. *)

Lemma land_le_cons b r c q :
  byte_ok b -> byte_ok c -> Z.land (b + 256 * r) (c + 256 * q) = Z.land b c + 256 * Z.land r q.
Proof.
  intros Hb Hc. apply Z.bits_inj'. intros i Hi. unfold byte_ok in *.
  assert (0 <= Z.land b c < 2 ^ 8) as Hbc.
  { replace (Z.land b c) with (Z.land b c mod 2 ^ 8); [apply Z.mod_pos_bound; lia|].
    rewrite <- Z.land_ones, <- Z.land_assoc, (Z.land_ones c), (Z.mod_small c) by lia. done. }
  rewrite !(Z.mul_comm 256), <- !(lor_shiftl_add _ _ 8) by lia.
  rewrite Z.land_spec, !Z.lor_spec, Z.land_spec.
  destruct (Z.lt_ge_cases i 8).
  - by rewrite !Z.shiftl_spec_low, !orb_false_r by lia.
  - rewrite !Z.shiftl_spec, Z.land_spec by lia.
    rewrite (Z.bits_above_log2 b), (Z.bits_above_log2 c); [done|..];
      try lia; (eapply Z.le_lt_trans; [apply (Z.log2_le_mono _ 255)|simpl]; lia).
Qed.

Lemma land_le_val (m : Z) bs :
  byte_ok m -> bytes_ok bs ->
  Z.land (le_val bs) (le_val (replicate (length bs) m)) = le_val (map (fun b => Z.land b m) bs).
Proof.
  intros Hm. induction 1 as [|b bs Hb _ IH]; [done|].
  cbn [length replicate le_val map]. by rewrite land_le_cons, IH.
Qed.

Lemma land_mod_small x m k : 0 <= k -> 0 <= m < 2 ^ k -> Z.land (x mod 2 ^ k) m = Z.land x m.
Proof.
  intros Hk Hm. rewrite <- Z.land_ones, <- Z.land_assoc by lia. f_equal.
  rewrite Z.land_comm, Z.land_ones by lia. by apply Z.mod_small.
Qed.

Lemma land_shiftr_le_val (k m : Z) bs :
  0 < k < 8 -> 0 <= m < 2 ^ (8 - k) -> bytes_ok bs ->
  Z.land (Z.shiftr (le_val bs) k) (le_val (replicate (length bs) m))
  = le_val (map (fun b => Z.land (Z.shiftr b k) m) bs).
Proof.
  intros Hk Hm. induction 1 as [|b bs Hb _ IH]; [by rewrite Z.shiftr_0_l|].
  cbn [length replicate le_val map]. rewrite <- IH.
  assert (256 = 2 ^ (8 - k) * 2 ^ k) as H256.
  { rewrite <- Z.pow_add_r by lia. by replace (8 - k + k) with 8 by lia. }
  assert (0 < 2 ^ k) by lia. assert (0 < 2 ^ (8 - k)) by lia.
  assert (1 <= 2 ^ k) by lia. unfold byte_ok in Hb.
  rewrite !Z.shiftr_div_pow2 by lia.
  set (r := le_val bs). set (q := le_val _).
  assert ((b + 256 * r) / 2 ^ k
          = (b / 2 ^ k + 2 ^ (8 - k) * (r mod 2 ^ k)) + 256 * (r / 2 ^ k)) as ->.
  { replace (b + 256 * r) with (b + (2 ^ (8 - k) * r) * 2 ^ k) by (rewrite H256; ring).
    rewrite Z.div_add by lia. rewrite (Z.div_mod r (2 ^ k)) at 1 by lia. rewrite H256. ring. }
  assert (0 <= b / 2 ^ k < 2 ^ (8 - k)) as Hd.
  { split; [apply Z.div_pos; lia|]. apply Z.div_lt_upper_bound; [lia|]. nia. }
  pose proof (Z.mod_pos_bound r (2 ^ k)) as Hr.
  rewrite land_le_cons by (unfold byte_ok; nia). f_equal.
  rewrite <- (land_mod_small (b / 2 ^ k + _) _ (8 - k)) by lia.
  by rewrite (Z.mul_comm (2 ^ (8 - k))), Z_mod_plus_full, Z.mod_small by lia.
Qed.

Lemma le_val_map_add (f g : Z -> Z) bs :
  le_val (map f bs) + le_val (map g bs) = le_val (map (fun b => f b + g b) bs).
Proof. induction bs as [|b bs IH]; [done|]. cbn [map le_val]. rewrite <- IH. lia. Qed.

Lemma le_val_map_sub (g : Z -> Z) bs :
  le_val bs - le_val (map g bs) = le_val (map (fun b => b - g b) bs).
Proof. induction bs as [|b bs IH]; [done|]. cbn [map le_val]. rewrite <- IH. lia. Qed.

Definition step1 (b : Z) : Z := b - Z.land (Z.shiftr b 1) 0x55.
Definition step2 (b : Z) : Z := Z.land b 0x33 + Z.land (Z.shiftr b 2) 0x33.

Lemma step1_ok b : byte_ok b -> byte_ok (step1 b).
Proof.
  intros Hb. pose proof (byte_forall (fun b => bool_decide (0 <= step1 b /\ step1 b < 256))) as H.
  specialize (H ltac:(vm_compute; reflexivity) b Hb). by apply bool_decide_eq_true_1 in H.
Qed.

Lemma step2_nibbles b :
  byte_ok b ->
  let v := step2 (step1 b) in
  exists l h, v = l + 16 * h /\ 0 <= l <= 4 /\ 0 <= h <= 4 /\ l + h = pop [b].
Proof.
  intros Hb v. exists (v mod 16), (v / 16).
  pose proof (byte_forall (fun b => let v := step2 (step1 b) in bool_decide
    (v mod 16 <= 4 /\ v / 16 <= 4 /\ 0 <= v /\ v mod 16 + v / 16 = pop [b]))) as H.
  specialize (H ltac:(vm_compute; reflexivity) b Hb). cbv zeta in H.
  apply bool_decide_eq_true_1 in H. fold v in H.
  pose proof (Z.div_mod v 16). pose proof (Z.mod_pos_bound v 16).
  pose proof (Z.div_pos v 16). lia.
Qed.

Lemma step2_ok b : byte_ok b -> byte_ok (step2 (step1 b)).
Proof. intros Hb. destruct (step2_nibbles b Hb) as (l & h & -> & H). unfold byte_ok. lia. Qed.

Lemma bytes_ok_map (f : Z -> Z) bs : (forall b, byte_ok b -> byte_ok (f b)) -> bytes_ok bs -> bytes_ok (map f bs).
Proof. intros Hf. induction 1; cbn; constructor; auto. Qed.

Lemma le_val_u32 bs : bytes_ok bs -> zlen bs = 4 -> in_u 32 (le_val bs).
Proof. intros Hb Hl. pose proof (le_val_range bs Hb) as H. rewrite Hl in H. exact H. Qed.

Lemma swar_step_spec bs :
  bytes_ok bs -> zlen bs = 4 ->
  swar_step (le_val bs) = le_val (map (fun b => step2 (step1 b)) bs).
Proof.
  intros Hb Hl. unfold swar_step.
  change 0x55555555 with (le_val (replicate 4 0x55)).
  change 0x33333333 with (le_val (replicate 4 0x33)).
  assert (length bs = 4%nat) as Hl4 by lia. rewrite <- Hl4.
  rewrite land_shiftr_le_val, le_val_map_sub by (done || lia).
  fold step1. change (fun b => b - _) with step1.
  assert (bytes_ok (map step1 bs)) as H1 by (apply bytes_ok_map; auto using step1_ok).
  rewrite (uwrap_id 32 (le_val (map step1 bs))) by (apply le_val_u32; rewrite ?length_map; done).
  rewrite <- (length_map step1 bs).
  rewrite land_le_val, land_shiftr_le_val, le_val_map_add by (done || lia).
  rewrite map_map. apply uwrap_id, le_val_u32; [|by rewrite length_map].
  apply bytes_ok_map; auto using step2_ok.
Qed.

Lemma div_low n lo hi x : 0 <= lo < n -> x = lo + n * hi -> x / n = hi.
Proof. intros Hlo ->. rewrite Z.mul_comm, Z_div_plus, Z.div_small by lia. lia. Qed.

Lemma swar_fold_spec bs :
  bytes_ok bs -> zlen bs = 4 ->
  swar_fold (swar_step (le_val bs)) = le_val (map (fun b => pop [b]) bs).
Proof.
  intros Hb Hl. rewrite swar_step_spec by done. unfold swar_fold.
  destruct bs as [|b0 [|b1 [|b2 [|b3 [|]]]]]; try (simpl in Hl; lia).
  repeat match goal with H : bytes_ok (_ :: _) |- _ => inversion_clear H end.
  change 0x0F0F0F0F with (le_val (replicate 4 15)). cbn [map le_val].
  destruct (step2_nibbles b0) as (l0 & h0 & -> & ? & ? & <-); [done|].
  destruct (step2_nibbles b1) as (l1 & h1 & -> & ? & ? & <-); [done|].
  destruct (step2_nibbles b2) as (l2 & h2 & -> & ? & ? & <-); [done|].
  destruct (step2_nibbles b3) as (l3 & h3 & -> & ? & ? & <-); [done|].
  rewrite Z.shiftr_div_pow2 by lia. change (2 ^ 4) with 16.
  erewrite (div_low 16 l0 (h0 + 16 * (l1 + 16 * h1 + 256 * (l2 + 16 * h2 + 256 * (l3 + 16 * h3)))))
    by first [lia | ring].
  replace (uwrap 32 _) with (le_val [l0 + h0 + 16 * (h0 + l1); l1 + h1 + 16 * (h1 + l2);
    l2 + h2 + 16 * (h2 + l3); l3 + h3 + 16 * h3]).
  2: { rewrite uwrap_id by (unfold in_u; lia). cbn [le_val]. lia. }
  change (replicate 4 15) with (replicate (length [l0 + h0 + 16 * (h0 + l1);
    l1 + h1 + 16 * (h1 + l2); l2 + h2 + 16 * (h2 + l3); l3 + h3 + 16 * h3]) 15).
  rewrite land_le_val by (repeat constructor; unfold byte_ok; lia). cbn [map le_val].
  rewrite !(land_ones_mod _ 4 15) by lia. change (2 ^ 4) with 16.
  rewrite !(Z.mul_comm 16), !Z_mod_plus_full, !Z.mod_small by lia. done.
Qed.

Lemma sum_bytes a b c d :
  0 <= a -> 0 <= b -> 0 <= c -> 0 <= d -> a + b + c + d < 256 ->
  Z.shiftr (uwrap 32 (le_val [a; b; c; d] * 0x01010101)) 24 = a + b + c + d.
Proof.
  intros. rewrite Z.shiftr_div_pow2 by lia. unfold uwrap. cbn [le_val].
  replace (_ * 0x01010101) with
    (a + 256 * (a + b) + 65536 * (a + b + c) + 2 ^ 24 * (a + b + c + d)
     + (b + c + d + 256 * (c + d) + 65536 * d) * 2 ^ 32) by lia.
  rewrite Z_mod_plus_full, Z.mod_small by lia.
  apply (div_low _ (a + 256 * (a + b) + 65536 * (a + b + c))); lia.
Qed.

(** The four loops consume the head of the bytes that are left and add its
    bits. *)
Section Popcount.
Context (m : list Z) (Hm : bytes_ok m).

Lemma rdn_cons p b x :
  rdn m p (zlen (b :: x)) = Some (b :: x) ->
  rd m p = Some b /\ byte_ok b /\ rdn m (p + 1) (zlen x) = Some x.
Proof.
  intros Hx. pose proof (rdn_bytes_ok _ _ _ _ Hm Hx) as Hok.
  replace (zlen (b :: x)) with (1 + zlen x) in Hx by (simpl; lia).
  destruct (rdn_split _ _ _ _ _ Hx) as (a & x' & He & Ha & Hx'); [lia..|].
  destruct (rdn_rd _ _ _ Ha) as (b' & -> & Hb). simplify_eq/=. split_and!; [done| |done].
  by inversion Hok.
Qed.

Lemma popcount_remain_spec fuel p x bits :
  rdn m p (zlen x) = Some x -> (length x <= fuel)%nat ->
  popcount_remain fuel m p (zlen x) bits = Some (bits + pop x).
Proof.
  revert p x bits. induction fuel as [|fuel IH]; intros p x bits Hx Hf;
    destruct x as [|b x]; simpl in Hf; try lia.
  1,2: simpl; f_equal; unfold pop, count_true; simpl; lia.
  cbn [popcount_remain]. replace (zlen (b :: x) =? 0) with false by (simpl; lia).
  destruct (rdn_cons _ _ _ Hx) as (-> & Hb & Hx'). mred.
  destruct (pop_byte b) as [-> _]; [done|]. mred.
  replace (zlen (b :: x) - 1) with (zlen x) by (simpl; lia).
  rewrite IH, (pop_cons b x) by (done || lia). f_equal. lia.
Qed.

Lemma popcount_align_spec addr align fuel p x bits :
  rdn m p (zlen x) = Some x -> (length x <= fuel)%nat ->
  exists a y, x = a ++ y /\
    popcount_align fuel addr align m p (zlen x) bits
    = Some (p + zlen a, zlen y, bits + pop a) /\ rdn m (p + zlen a) (zlen y) = Some y.
Proof.
  revert p x bits. induction fuel as [|fuel IH]; intros p x bits Hx Hf; cbn [popcount_align].
  { destruct x; [|simpl in Hf; lia]. rewrite orb_true_r. exists [], [].
    split_and!; [done| |by rewrite Z.add_0_r]. f_equal. f_equal; [f_equal; simpl; lia|].
    unfold pop, count_true; simpl; lia. }
  destruct ((Z.land (addr + p) align =? 0) || (zlen x =? 0)) eqn:Ht.
  { exists [], x. split_and!; [done| |by rewrite Z.add_0_r].
    f_equal. f_equal; [f_equal; simpl; lia|]. unfold pop, count_true; simpl; lia. }
  destruct x as [|b x]; [rewrite orb_true_r in Ht; done|].
  destruct (rdn_cons _ _ _ Hx) as (-> & Hb & Hx'). mred.
  destruct (pop_byte b) as [-> _]; [done|]. mred.
  replace (zlen (b :: x) - 1) with (zlen x) by (simpl; lia).
  destruct (IH (p + 1) x (bits + pop [b])) as (a & y & -> & -> & Hy); [done|simpl in Hf; lia|].
  exists (b :: a), y. replace (p + zlen (b :: a)) with (p + 1 + zlen a) by (simpl; lia).
  split_and!; [done| |done]. rewrite (pop_cons b a). do 2 f_equal. lia.
Qed.

Lemma rdn_chunk k p x :
  rdn m p (zlen x) = Some x -> 0 <= k <= zlen x ->
  exists a y, x = a ++ y /\ zlen a = k /\ bytes_ok a /\
    rdn m p k = Some a /\ rdn m (p + k) (zlen y) = Some y.
Proof.
  intros Hx Hk. pose proof (rdn_bytes_ok _ _ _ _ Hm Hx) as Hok.
  replace (zlen x) with (k + (zlen x - k)) in Hx by lia.
  destruct (rdn_split _ _ _ _ _ Hx) as (a & y & -> & Ha & Hy); [lia..|].
  exists a, y. apply Forall_app in Hok as [Hok _]. pose proof (rdn_length _ _ _ _ Ha).
  split_and!; [done..|]. rewrite length_app in Hy.
  by replace (zlen y) with (Z.of_nat (length a + length y) - k) by lia.
Qed.

Definition cnt_sum (cnt : Z * Z * Z * Z) : Z :=
  let '(c0, c1, c2, c3) := cnt in c0 + c1 + c2 + c3.
Definition cnt_pos (cnt : Z * Z * Z * Z) : Prop :=
  let '(c0, c1, c2, c3) := cnt in 0 <= c0 /\ 0 <= c1 /\ 0 <= c2 /\ 0 <= c3.

Lemma pop_nil : pop [] = 0.
Proof. done. Qed.

Lemma popn64_word w : zlen w = 8 -> bytes_ok w -> popn 64 (le_val w) = pop w.
Proof.
  intros Hw Hok. rewrite <- popn_le_val by done.
  by replace (length w) with 8%nat by lia.
Qed.

Lemma popcount_words_spec fuel p x cnt :
  rdn m p (zlen x) = Some x -> (length x <= fuel)%nat ->
  cnt_pos cnt -> cnt_sum cnt + pop x < 2 ^ 64 ->
  exists a y cnt', x = a ++ y /\
    popcount_words fuel m p (zlen x) cnt = Some (p + zlen a, zlen y, cnt') /\
    cnt_pos cnt' /\ cnt_sum cnt' = cnt_sum cnt + pop a /\ rdn m (p + zlen a) (zlen y) = Some y.
Proof.
  revert p x cnt. induction fuel as [|fuel IH]; intros p x cnt Hx Hf Hp Hs; cbn [popcount_words].
  { destruct x; [|simpl in Hf; lia]. exists [], [], cnt.
    rewrite Z.add_0_r, pop_nil. split_and!; (done || lia). }
  destruct (Z.ltb_spec (zlen x) 32).
  { exists [], x, cnt. rewrite Z.add_0_r, pop_nil. split_and!; (done || lia). }
  destruct cnt as [[[c0 c1] c2] c3].
  destruct (rdn_chunk 8 p x Hx) as (w0 & x0 & -> & Hl0 & Hb0 & -> & Hx0); [lia|].
  rewrite length_app in *.
  destruct (rdn_chunk 8 _ x0 Hx0) as (w1 & x1 & -> & Hl1 & Hb1 & -> & Hx1); [lia|].
  rewrite length_app in *. replace (p + 8 + 8) with (p + 16) in Hx1 by lia.
  destruct (rdn_chunk 8 _ x1 Hx1) as (w2 & x2 & -> & Hl2 & Hb2 & -> & Hx2); [lia|].
  rewrite length_app in *. replace (p + 16 + 8) with (p + 24) in Hx2 by lia.
  destruct (rdn_chunk 8 _ x2 Hx2) as (w3 & y & -> & Hl3 & Hb3 & -> & Hy); [lia|].
  rewrite length_app in *. replace (p + 24 + 8) with (p + 32) in Hy by lia. mred.
  rewrite !popn64_word by done. rewrite !pop_app in Hs. cbn [cnt_sum cnt_pos] in Hs, Hp.
  pose proof (pop_range w0); pose proof (pop_range w1); pose proof (pop_range w2);
    pose proof (pop_range w3); pose proof (pop_range y).
  rewrite !uwrap_id by (unfold in_u; lia).
  match goal with |- context [popcount_words fuel m (p + 32) ?n _] =>
    replace n with (zlen y) by lia end.
  edestruct (IH (p + 32) y) as (a & z & cnt' & -> & -> & Hp' & Hs' & Hz);
    [exact Hy|lia|..|exists (w0 ++ w1 ++ w2 ++ w3 ++ a), z, cnt'].
  { cbn. lia. }
  { cbn. lia. }
  rewrite !length_app, !pop_app, Hs'. cbn [cnt_sum]. rewrite <- !app_assoc.
  replace (p + Z.of_nat (length w0 + (length w1 + (length w2 + (length w3 + length a)))))
    with (p + 32 + zlen a) by lia.
  split_and!; (done || lia).
Qed.

Lemma fold_word w :
  zlen w = 4 -> bytes_ok w ->
  exists a b c d, swar_fold (swar_step (le_val w)) = le_val [a; b; c; d] /\
    a + b + c + d = pop w /\ 0 <= a <= 8 /\ 0 <= b <= 8 /\ 0 <= c <= 8 /\ 0 <= d <= 8.
Proof.
  intros Hw Hb. rewrite swar_fold_spec by done.
  destruct w as [|b0 [|b1 [|b2 [|b3 [|]]]]]; try (simpl in Hw; lia).
  exists (pop [b0]), (pop [b1]), (pop [b2]), (pop [b3]).
  pose proof (pop_range [b0]); pose proof (pop_range [b1]); pose proof (pop_range [b2]);
    pose proof (pop_range [b3]). cbn [length] in *.
  split; [done|]. rewrite (pop_cons b0 [b1; b2; b3]), (pop_cons b1 [b2; b3]), (pop_cons b2 [b3]). lia.
Qed.

(** The seven partial sums stay below 256 in every byte of the word. *)
Lemma swar_seven ws :
  length ws = 7%nat -> Forall (fun w => zlen w = 4 /\ bytes_ok w) ws ->
  let sum := uwrap 32 (foldr Z.add 0 (map (fun w => swar_fold (swar_step (le_val w))) ws)) in
  Z.shiftr (uwrap 32 (sum * 0x01010101)) 24 = pop (concat ws).
Proof.
  intros Hl Hws sum.
  assert (exists a b c d, foldr Z.add 0 (map (fun w => swar_fold (swar_step (le_val w))) ws)
    = le_val [a; b; c; d] /\ a + b + c + d = pop (concat ws) /\
    0 <= a <= 8 * zlen ws /\ 0 <= b <= 8 * zlen ws /\ 0 <= c <= 8 * zlen ws /\
    0 <= d <= 8 * zlen ws) as (a & b & c & d & Hs & Hp & Ha & Hb & Hc & Hd).
  { clear Hl sum. induction Hws as [|w ws [Hw Hb] _ (a & b & c & d & IH)].
    - exists 0, 0, 0, 0. split; [done|]. cbn. rewrite pop_nil. lia.
    - destruct (fold_word w Hw Hb) as (a' & b' & c' & d' & Hf & Hr).
      exists (a + a'), (b + b'), (c + c'), (d + d').
      cbn [map foldr concat length]. rewrite Hf, pop_app.
      destruct IH as (-> & IH). cbn [le_val]. split; [lia|]. lia. }
  rewrite Hl in *. unfold sum. rewrite Hs.
  rewrite (uwrap_id 32 (le_val _)) by (unfold in_u; cbn [le_val]; lia).
  rewrite sum_bytes; lia.
Qed.

Lemma rdn_ws w p :
  rdn m p (zlen w) = Some w -> zlen w = 28 ->
  exists w1 w2 w3 w4 w5 w6 w7,
    w = concat [w1; w2; w3; w4; w5; w6; w7] /\
    rdn m p 4 = Some w1 /\ rdn m (p + 4) 4 = Some w2 /\ rdn m (p + 8) 4 = Some w3 /\
    rdn m (p + 12) 4 = Some w4 /\ rdn m (p + 16) 4 = Some w5 /\ rdn m (p + 20) 4 = Some w6 /\
    rdn m (p + 24) 4 = Some w7 /\
    Forall (fun w => zlen w = 4 /\ bytes_ok w) [w1; w2; w3; w4; w5; w6; w7].
Proof.
  intros Hw Hl.
  destruct (rdn_chunk 4 p w Hw) as (w1 & x1 & -> & ? & ? & ? & Hx1); [lia|]. rewrite length_app in Hl.
  destruct (rdn_chunk 4 _ x1 Hx1) as (w2 & x2 & -> & ? & ? & ? & Hx2); [lia|]. rewrite length_app in Hl.
  destruct (rdn_chunk 4 _ x2 Hx2) as (w3 & x3 & -> & ? & ? & ? & Hx3); [lia|]. rewrite length_app in Hl.
  destruct (rdn_chunk 4 _ x3 Hx3) as (w4 & x4 & -> & ? & ? & ? & Hx4); [lia|]. rewrite length_app in Hl.
  destruct (rdn_chunk 4 _ x4 Hx4) as (w5 & x5 & -> & ? & ? & ? & Hx5); [lia|]. rewrite length_app in Hl.
  destruct (rdn_chunk 4 _ x5 Hx5) as (w6 & x6 & -> & ? & ? & ? & Hx6); [lia|]. rewrite length_app in Hl.
  destruct (rdn_chunk 4 _ x6 Hx6) as (w7 & x7 & -> & ? & ? & ? & Hx7); [lia|]. rewrite length_app in Hl.
  destruct x7; [|simpl in Hl; lia]. exists w1, w2, w3, w4, w5, w6, w7.
  rewrite <- !Z.add_assoc in *. cbn [Z.add Pos.add Pos.succ Pos.add_carry] in *.
  split_and!; try done. repeat constructor; done.
Qed.

Lemma popcount_swar_spec fuel p x bits :
  rdn m p (zlen x) = Some x -> (length x <= fuel)%nat ->
  exists a y, x = a ++ y /\
    popcount_swar fuel m p (zlen x) bits = Some (p + zlen a, zlen y, bits + pop a) /\
    rdn m (p + zlen a) (zlen y) = Some y.
Proof.
  revert p x bits. induction fuel as [|fuel IH]; intros p x bits Hx Hf; cbn [popcount_swar].
  { destruct x; [|simpl in Hf; lia]. exists [], []. by rewrite !Z.add_0_r. }
  destruct (Z.ltb_spec (zlen x) 28).
  { exists [], x. by rewrite !Z.add_0_r. }
  destruct (rdn_chunk 28 p x Hx) as (w & y & -> & Hl & Hb & Hw & Hy); [lia|].
  destruct (rdn_ws w p) as (w1 & w2 & w3 & w4 & w5 & w6 & w7 & He & -> & -> & -> & -> & -> & -> & -> & Hws);
    [congruence|done|]. mred. cbv zeta. rewrite length_app in *.
  match goal with |- context [uwrap 32 (?a + ?b + ?c + ?d + ?e + ?f + ?g)] =>
    replace (a + b + c + d + e + f + g) with (foldr Z.add 0 (map (fun w =>
      swar_fold (swar_step (le_val w))) [w1; w2; w3; w4; w5; w6; w7])) by (cbn [map foldr]; lia) end.
  rewrite swar_seven by done. rewrite <- He.
  replace (Z.of_nat (length w + length y) - 28) with (zlen y) by lia.
  destruct (IH (p + 28) y (bits + pop w)) as (a & z & -> & -> & Hz); [done|lia|].
  exists (w ++ a), z. rewrite length_app, pop_app, app_assoc, Nat2Z.inj_add, Hl.
  rewrite !Z.add_assoc. done.
Qed.
End Popcount.

(** The bits set in the [count] bytes at [p]. *)
Lemma redisPopcount_spec use_popcnt addr m p count :
  bytes_ok m -> 0 <= p -> 0 <= count -> p + count <= zlen m -> count < 2 ^ 60 ->
  redisPopcount use_popcnt addr m p count
  = Some (pop (take (Z.to_nat count) (drop (Z.to_nat p) m))).
Proof.
  intros Hm Hp Hc Hpc Hmax. set (x := take _ _).
  assert (rdn m p count = Some x) as Hx by (apply rdn_Some; done).
  pose proof (rdn_length _ _ _ _ Hx) as Hlx. rewrite <- Hlx in Hx. rewrite <- Hlx.
  unfold redisPopcount. rewrite Nat2Z.id.
  destruct (popcount_align_spec m Hm addr (if use_popcnt then 7 else 3) (length x) p x 0 Hx)
    as (a & y & Ha & -> & Hy); [lia|]. mred.
  assert (length y <= length x)%nat by (rewrite Ha, length_app; lia).
  destruct use_popcnt.
  - destruct (popcount_words_spec m Hm (length x) (p + zlen a) y (0, 0, 0, 0) Hy)
      as (b & z & [[[c0 c1] c2] c3] & Hb & -> & Hc0 & Hs & Hz); [lia|cbn; lia| |].
    { cbn [cnt_sum]. pose proof (pop_range y). lia. }
    mred. cbn [cnt_sum] in Hs. cbn [cnt_pos] in Hc0.
    assert (length z <= length y)%nat by (rewrite Hb, length_app; lia).
    rewrite uwrap_id by (unfold in_u; pose proof (pop_range b);
      rewrite Hb, length_app in *; lia).
    rewrite popcount_remain_spec by (done || lia).
    rewrite Ha, Hb, !pop_app. f_equal. lia.
  - destruct (popcount_swar_spec m Hm (length x) (p + zlen a) y (0 + pop a) Hy)
      as (b & z & Hb & -> & Hz); [lia|]. mred.
    assert (length z <= length y)%nat by (rewrite Hb, length_app; lia).
    rewrite popcount_remain_spec by (done || lia).
    rewrite Ha, Hb, !pop_app. f_equal. lia.
Qed.

(** ** Correctness of the search *)

(** The first position of [b]. *)
Fixpoint index_of (b : bool) (l : list bool) : option Z :=
  match l with
  | [] => None
  | x :: l => if Bool.eqb x b then Some 0 else Z.succ <$> index_of b l
  end.

Lemma index_of_app b l1 l2 :
  index_of b (l1 ++ l2) =
  match index_of b l1 with
  | Some k => Some k
  | None => Z.add (zlen l1) <$> index_of b l2
  end.
Proof.
  induction l1 as [|x l1 IH]; cbn [app index_of length].
  - by destruct (index_of b l2).
  - destruct (Bool.eqb x b); [done|]. rewrite IH. destruct (index_of b l1); [done|].
    destruct (index_of b l2); [|done]. cbn. f_equal. lia.
Qed.

Lemma index_of_Some b l k :
  index_of b l = Some k <->
  0 <= k /\ l !! Z.to_nat k = Some b /\ forall i, 0 <= i < k -> l !! Z.to_nat i = Some (negb b).
Proof.
  revert k. induction l as [|x l IH]; intros k; cbn [index_of].
  { split; [done|]. intros (_ & H & _). done. }
  destruct (Bool.eqb_spec x b) as [-> |Hx].
  { split.
    - intros [= <-]. split_and!; [lia|done|lia].
    - intros (Hk & Hl & Hi). destruct (decide (k = 0)) as [-> |]; [done|].
      specialize (Hi 0 ltac:(lia)). cbn in Hi. by destruct b. }
  assert (x = negb b) as -> by by destruct x, b. split.
  - intros Hk. destruct (index_of b l) as [j|]; [|done]. cbn in Hk. simplify_eq.
    destruct (proj1 (IH j) eq_refl) as (Hj & Hl & Hi). split; [lia|].
    rewrite Z2Nat.inj_succ by lia. split; [done|]. intros i Hr.
    destruct (decide (i = 0)) as [-> |]; [done|].
    replace (Z.to_nat i) with (S (Z.to_nat (i - 1))) by lia. apply Hi. lia.
  - intros (Hk & Hl & Hi). destruct (decide (k = 0)) as [-> |]; [by destruct b|].
    rewrite (proj2 (IH (k - 1))); [cbn; f_equal; lia|]. split; [lia|].
    replace (Z.to_nat k) with (S (Z.to_nat (k - 1))) in Hl by lia. split; [done|].
    intros i Hr. specialize (Hi (i + 1) ltac:(lia)).
    by replace (Z.to_nat (i + 1)) with (S (Z.to_nat i)) in Hi by lia.
Qed.

Lemma index_of_range b l k : index_of b l = Some k -> 0 <= k < zlen l.
Proof. intros (? & Hl & _)%index_of_Some. apply lookup_lt_Some in Hl. lia. Qed.

(** The [n] low bits of a number, the most significant first. *)
Fixpoint bits_be (n : nat) (x : Z) : list bool :=
  match n with
  | O => []
  | S n => Z.testbit x (Z.of_nat n) :: bits_be n x
  end.

Lemma bits_be_length n x : length (bits_be n x) = n.
Proof. induction n; simpl; lia. Qed.

Lemma bits_be_ext n x y :
  (forall i, 0 <= i < Z.of_nat n -> Z.testbit x i = Z.testbit y i) -> bits_be n x = bits_be n y.
Proof.
  induction n as [|n IH]; intros H; [done|]. cbn [bits_be]. f_equal; [apply H; lia|].
  apply IH. intros. apply H. lia.
Qed.

Lemma bits_be_split n k x :
  bits_be (n + k) x = bits_be n (Z.shiftr x (Z.of_nat k)) ++ bits_be k x.
Proof.
  induction n as [|n IH]; [done|]. cbn [Nat.add bits_be app]. rewrite IH. f_equal.
  rewrite Z.shiftr_spec by lia. f_equal. lia.
Qed.

Lemma testbit_small x k i : 0 <= x < 2 ^ k -> k <= i -> Z.testbit x i = false.
Proof.
  intros Hx Hi. destruct (decide (x = 0)) as [-> |]; [apply Z.bits_0|].
  assert (0 <= k) by (destruct (Z.lt_ge_cases k 0); [rewrite Z.pow_neg_r in Hx; lia|lia]).
  apply Z.bits_above_log2; [lia|]. apply Z.lt_le_trans with k; [|done].
  apply Z.log2_lt_pow2; lia.
Qed.

Lemma bits_be_byte b : bits_be 8 b = byte_bits b.
Proof. done. Qed.

Lemma bits_be_mod n x : bits_be n (x mod 2 ^ Z.of_nat n) = bits_be n x.
Proof. apply bits_be_ext. intros i Hi. by rewrite Z.mod_pow2_bits_low by lia. Qed.

Lemma bits_be_snoc_byte n x b :
  byte_ok b -> bits_be (n + 8) (b + x * 2 ^ 8) = bits_be n x ++ byte_bits b.
Proof.
  intros Hb. unfold byte_ok in Hb. rewrite bits_be_split, Z.shiftr_div_pow2 by lia.
  change (Z.of_nat 8) with 8. rewrite Z.div_add, Z.div_small, Z.add_0_l by lia. f_equal.
  transitivity (bits_be 8 ((b + x * 2 ^ 8) mod 2 ^ Z.of_nat 8)); [by rewrite bits_be_mod|].
  change (Z.of_nat 8) with 8. by rewrite Z_mod_plus_full, Z.mod_small by lia.
Qed.

Definition padded (j : nat) (y : list Z) : list Z := take j y ++ replicate (j - length y) 0.

Lemma bitpos_load_spec m (Hm : bytes_ok m) j k c y word :
  rdn m c (zlen y) = Some y -> (k + j <= 8)%nat -> 0 <= word < 2 ^ (8 * Z.of_nat k) ->
  exists w, bitpos_load j m c (zlen y) word = Some w /\
    0 <= w < 2 ^ (8 * Z.of_nat (k + j)) /\
    bits_be (8 * (k + j)) w = bits_be (8 * k) word ++ bits_of (padded j y).
Proof.
  revert k c y word. induction j as [|j IH]; intros k c y word Hy Hj Hw; cbn [bitpos_load].
  { exists word. rewrite Nat.add_0_r. cbn. by rewrite app_nil_r. }
  assert (0 <= 8 * Z.of_nat k <= 56) by lia.
  assert (2 ^ (8 * Z.of_nat k) * 2 ^ 8 = 2 ^ (8 * Z.of_nat (k + 1))) as Hp.
  { rewrite <- Z.pow_add_r by lia. f_equal. lia. }
  assert (2 ^ (8 * Z.of_nat (k + 1)) <= 2 ^ 64) by (apply Z.pow_le_mono_r; lia).
  rewrite uwrap_id by (unfold in_u; rewrite Z.shiftl_mul_pow2 by lia; nia).
  assert (exists b y', byte_ok b /\ rdn m (if negb (zlen y =? 0) then c + 1 else c) (zlen y') = Some y'
    /\ padded (S j) y = b :: padded j y' /\
    (if negb (zlen y =? 0) then b ← rd m c;
       bitpos_load j m (c + 1) (zlen y - 1) (Z.lor (word ≪ 8) b)
     else bitpos_load j m c (zlen y) (word ≪ 8))
    = bitpos_load j m (if negb (zlen y =? 0) then c + 1 else c) (zlen y') (b + word * 2 ^ 8))
    as (b & y' & Hb & Hy' & -> & ->).
  { destruct y as [|b y].
    - exists 0, []. split_and!; [unfold byte_ok; lia|done| |].
      + unfold padded. cbn. by rewrite take_nil, Nat.sub_0_r.
      + cbn [length]. by rewrite Z.shiftl_mul_pow2.
    - destruct (rdn_cons m Hm _ _ _ Hy) as (-> & Hb & Hy'). exists b, y. mred.
      replace (zlen (b :: y) =? 0) with false by (simpl; lia). cbn [negb].
      split_and!; [done..|]. rewrite Z.lor_comm, lor_shiftl_add by (unfold byte_ok in Hb; lia).
      f_equal. simpl. lia. }
  unfold byte_ok in Hb.
  destruct (IH (k + 1)%nat (if negb (zlen y =? 0) then c + 1 else c) y' (b + word * 2 ^ 8)) as (w & -> & Hr & Hbits);
    [done|lia|nia|].
  exists w. replace (k + S j)%nat with (k + 1 + j)%nat by lia. split; [done|]. split; [done|].
  rewrite Hbits, bits_of_cons. replace (8 * (k + 1))%nat with (8 * k + 8)%nat by lia.
  by rewrite bits_be_snoc_byte, app_assoc.
Qed.

Lemma land_pow2_testbit k x : 0 <= k -> (Z.land (2 ^ k) x =? 0) = negb (Z.testbit x k).
Proof.
  intros Hk. destruct (Z.testbit x k) eqn:Hb; cbn [negb].
  - apply Z.eqb_neq. intros H. apply (f_equal (fun z => Z.testbit z k)) in H.
    rewrite Z.land_spec, Z.pow2_bits_true, Hb, Z.bits_0 in H by done. done.
  - apply Z.eqb_eq, Z.bits_inj'. intros i Hi. rewrite Z.land_spec, Z.bits_0.
    destruct (decide (i = k)) as [-> |]; [by rewrite Hb, andb_false_r|].
    by rewrite Z.pow2_bits_false by lia.
Qed.

Lemma bitpos_scan_spec (b : bool) word n fuel pos k :
  (n < fuel)%nat -> index_of b (bits_be (S n) word) = Some k ->
  bitpos_scan fuel word (Numbers.b2z b) (2 ^ Z.of_nat n) pos = Some (pos + k).
Proof.
  revert fuel pos k. induction n as [|n IH]; intros [|fuel] pos k Hf Hk; try lia;
    cbn [bitpos_scan]; replace (2 ^ _ =? 0) with false by lia;
    rewrite land_pow2_testbit, negb_involutive by lia; cbn [bits_be index_of] in Hk.
  - destruct (Z.testbit word (Z.of_nat 0)), b; cbn in Hk |- *; simplify_eq; f_equal; lia.
  - replace (Numbers.b2z (Z.testbit word (Z.of_nat (S n))) =? Numbers.b2z b)
      with (Bool.eqb (Z.testbit word (Z.of_nat (S n))) b)
      by by destruct (Z.testbit word (Z.of_nat (S n))), b.
    destruct (Bool.eqb (Z.testbit word (Z.of_nat (S n))) b); [simplify_eq; f_equal; lia|].
    replace (Z.shiftr (2 ^ Z.of_nat (S n)) 1) with (2 ^ Z.of_nat n).
    2: { rewrite Nat2Z.inj_succ, Z.pow_succ_r, Z.mul_comm, Z.shiftr_div_pow2 by lia.
         by rewrite Z.div_mul by lia. }
    apply fmap_Some in Hk as (j & Hj & ->).
    rewrite (IH fuel (pos + 1) j) by (exact Hj || lia). f_equal. lia.
Qed.

(** Bytes equal to [skipval] hold no bit [b]. *)
Definition skipbyte (b : bool) : Z := if b then 0 else 255.

Lemma index_of_skipbyte b x : byte_ok x -> index_of b (byte_bits x) = None <-> x = skipbyte b.
Proof.
  intros Hx. pose proof (byte_forall (fun x => bool_decide
    ((index_of true (byte_bits x) = None <-> x = skipbyte true) /\
     (index_of false (byte_bits x) = None <-> x = skipbyte false)))) as H.
  specialize (H ltac:(vm_compute; reflexivity) x Hx). apply bool_decide_eq_true_1 in H.
  destruct b; apply H.
Qed.

Lemma index_of_skip b x y :
  index_of b (bits_of x) = None ->
  index_of b (bits_of (x ++ y)) = Z.add (8 * zlen x) <$> index_of b (bits_of y).
Proof. intros Hx. rewrite bits_of_app, index_of_app, Hx, bits_of_length. do 2 f_equal. lia. Qed.

Lemma index_of_none_cons b x y :
  byte_ok x -> index_of b (bits_of (x :: y)) = None <-> x = skipbyte b /\ index_of b (bits_of y) = None.
Proof.
  intros Hx. rewrite bits_of_cons, index_of_app, <- index_of_skipbyte by done.
  destruct (index_of b (byte_bits x)); [by split; [|intros []]|]. rewrite fmap_None.
  by split; [|intros []].
Qed.

(** A word is all zeros, or all ones, when its bytes are. *)
Lemma index_of_word b w :
  bytes_ok w -> zlen w = 8 ->
  index_of b (bits_of w) = None <-> le_val w = (if b then 0 else ULONG_MAX).
Proof.
  intros Hw Hl. transitivity (w = replicate 8 (skipbyte b)).
  - replace 8%nat with (length w) by lia. clear Hl.
    induction Hw as [|x w Hx _ IH]; [done|]. rewrite index_of_none_cons, IH by done.
    cbn [length replicate].
    by split; [intros [-> He]; f_equal|intros [= He1 He2]].
  - split; [intros ->; by destruct b|]. intros He.
    rewrite <- (le_bytes_val w Hw). replace (length w) with 8%nat by lia.
    rewrite He. by destruct b.
Qed.

Section Bitpos.
Context (m : list Z) (Hm : bytes_ok m) (b : bool).

Lemma bitpos_align_spec addr fuel c x pos :
  rdn m c (zlen x) = Some x -> (length x <= fuel)%nat ->
  exists a y found, x = a ++ y /\ index_of b (bits_of a) = None /\
    bitpos_align fuel addr m (skipbyte b) c (zlen x) pos
    = Some (c + zlen a, zlen y, pos + 8 * zlen a, found) /\
    rdn m (c + zlen a) (zlen y) = Some y /\
    (found = true -> index_of b (bits_of (take 8 y)) <> None).
Proof.
  revert c x pos. induction fuel as [|fuel IH]; intros c x pos Hx Hf; cbn [bitpos_align].
  { destruct x; [|simpl in Hf; lia]. rewrite orb_true_r. exists [], [], false.
    rewrite !Z.add_0_r. by split_and!. }
  destruct ((Z.land (addr + c) 7 =? 0) || (zlen x =? 0)) eqn:Ht.
  { exists [], x, false. rewrite !Z.add_0_r. by split_and!. }
  destruct x as [|x0 x]; [by rewrite orb_true_r in Ht|].
  destruct (rdn_cons m Hm _ _ _ Hx) as (-> & Hb & Hx'). mred.
  destruct (Z.eqb_spec x0 (skipbyte b)) as [He|Hne]; cbn [negb].
  - replace (zlen (x0 :: x) - 1) with (zlen x) by (simpl; lia).
    destruct (IH (c + 1) x (pos + 8)) as (a & y & found & -> & Ha & -> & Hy & Hfd);
      [done|simpl in Hf; lia|].
    exists (x0 :: a), y, found. split; [done|]. split; [by apply index_of_none_cons|].
    replace (c + zlen (x0 :: a)) with (c + 1 + zlen a) by (simpl; lia).
    split_and!; [|done..]. do 3 f_equal. simpl. lia.
  - exists [], (x0 :: x), true. rewrite !Z.add_0_r. split_and!; try done. intros _.
    rewrite firstn_cons. by intros []%index_of_none_cons.
Qed.

Lemma bitpos_words_spec fuel l x pos :
  rdn m l (zlen x) = Some x -> (length x <= fuel)%nat ->
  exists a y, x = a ++ y /\ index_of b (bits_of a) = None /\
    bitpos_words fuel m (if b then 0 else ULONG_MAX) l (zlen x) pos
    = Some (l + zlen a, zlen y, pos + 8 * zlen a) /\
    rdn m (l + zlen a) (zlen y) = Some y /\
    (zlen y < 8 \/ index_of b (bits_of (take 8 y)) <> None).
Proof.
  revert l x pos. induction fuel as [|fuel IH]; intros l x pos Hx Hf; cbn [bitpos_words].
  { destruct x; [|simpl in Hf; lia]. exists [], [].
    rewrite !Z.add_0_r. split_and!; try done. left. simpl. lia. }
  destruct (Z.ltb_spec (zlen x) 8).
  { exists [], x. rewrite !Z.add_0_r. split_and!; try done. by left. }
  destruct (rdn_chunk m Hm 8 l x Hx) as (w & y & -> & Hl & Hb & -> & Hy); [lia|]. mred.
  rewrite length_app in *.
  destruct (Z.eqb_spec (le_val w) (if b then 0 else ULONG_MAX)) as [He|Hne]; cbn [negb].
  - replace (Z.of_nat (length w + length y) - 8) with (zlen y) by lia.
    destruct (IH (l + 8) y (pos + 64)) as (a & z & -> & Ha & -> & Hz & Hd); [done|lia|].
    exists (w ++ a), z. rewrite app_assoc, length_app. split; [done|]. split.
    { rewrite index_of_skip by (by apply index_of_word). by rewrite Ha. }
    replace (l + Z.of_nat (length w + length a)) with (l + 8 + zlen a) by lia.
    split_and!; [|done..]. do 2 f_equal. lia.
  - exists [], (w ++ y). rewrite !Z.add_0_r, length_app. split_and!; try done.
    right. rewrite take_app_length' by lia. by intros ?%index_of_word.
Qed.

(** When a search for the padded word succeeds, it gives the position in the
    bytes that are left. *)
Lemma index_of_padded y :
  bytes_ok y -> zlen y < 8 \/ index_of b (bits_of (take 8 y)) <> None ->
  match index_of b (bits_of (padded 8 y)) with
  | Some k => match index_of b (bits_of y) with Some j => j = k | None => b = false /\ k = 8 * zlen y end
  | None => b = true /\ index_of b (bits_of y) = None
  end.
Proof.
  intros Hy Hd. unfold padded. rewrite bits_of_app, index_of_app.
  destruct (index_of b (bits_of (take 8 y))) as [k|] eqn:Ht.
  { pose proof (bits_of_app (take 8 y) (drop 8 y)) as He. rewrite take_drop in He.
    by rewrite He, index_of_app, Ht. }
  destruct Hd as [Hd|]; [|done]. rewrite take_ge in Ht |- * by lia. rewrite Ht.
  destruct b.
  - replace (index_of true _) with (@None Z); [done|]. symmetry. clear.
    induction (8 - length y)%nat as [|n IH]; [done|].
    cbn [replicate]. rewrite bits_of_cons, index_of_app, IH. done.
  - replace (8 - length y)%nat with (S (7 - length y)) by lia.
    cbn [replicate]. rewrite bits_of_cons. cbn. rewrite bits_of_length. lia.
Qed.
End Bitpos.

Definition bitpos_result (b : bool) (x : list Z) : Z :=
  match index_of b (bits_of x) with
  | Some k => k
  | None => if b then -1 else 8 * zlen x
  end.

Lemma word_zero w : 0 <= w < 2 ^ 64 -> w = 0 <-> index_of true (bits_be 64 w) = None.
Proof.
  intros Hw. split; [by intros ->|]. intros Hn. apply Z.bits_inj'. intros i Hi.
  rewrite Z.bits_0. destruct (Z.lt_ge_cases i 64); [|by apply (testbit_small w 64)].
  revert Hn. change 64 with (Z.of_nat 64) in H. revert H. generalize 64%nat. clear Hw.
  induction n as [|n IH]; intros H Hn; [lia|]. cbn [bits_be index_of] in Hn.
  destruct (Z.testbit w (Z.of_nat n)) eqn:Hb; [done|].
  apply fmap_None in Hn. destruct (decide (i = Z.of_nat n)) as [-> |]; [done|]. apply IH; [lia|done].
Qed.

Lemma redisBitpos_spec addr m s count (b : bool) :
  bytes_ok m -> 0 <= s -> 0 <= count -> s + count <= zlen m ->
  redisBitpos addr m s count (Numbers.b2z b)
  = Some (bitpos_result b (take (Z.to_nat count) (drop (Z.to_nat s) m))).
Proof.
  intros Hm Hs Hc Hsc. set (x := take _ _).
  assert (rdn m s count = Some x) as Hx by (apply rdn_Some; done).
  pose proof (rdn_length _ _ _ _ Hx) as Hlx. rewrite <- Hlx in Hx. rewrite <- Hlx.
  unfold redisBitpos. rewrite Nat2Z.id.
  replace (if negb (Numbers.b2z b =? 0) then 0 else UCHAR_MAX) with (skipbyte b) by by destruct b.
  replace (if negb (Numbers.b2z b =? 0) then 0 else ULONG_MAX) with (if b then 0 else ULONG_MAX)
    by by destruct b.
  destruct (bitpos_align_spec m Hm b addr (length x) s x 0 Hx)
    as (a & y & found & Hay & Ha & -> & Hy & Hfd); [lia|]. mred.
  assert (exists a' z, y = a' ++ z /\ index_of b (bits_of a') = None /\
    (if found : bool then Some (s + zlen a, zlen y, 0 + 8 * zlen a)
     else bitpos_words (length x) m (if b then 0 else ULONG_MAX) (s + zlen a) (zlen y)
            (0 + 8 * zlen a))
    = Some (s + zlen a + zlen a', zlen z, 8 * zlen a + 8 * zlen a') /\
    rdn m (s + zlen a + zlen a') (zlen z) = Some z /\
    (zlen z < 8 \/ index_of b (bits_of (take 8 z)) <> None)) as (a' & z & -> & Ha' & -> & Hz & Hd).
  { destruct found.
    - exists [], y. rewrite !Z.add_0_r. split_and!; try done. right. by apply Hfd.
    - destruct (bitpos_words_spec m Hm b (length x) (s + zlen a) y (0 + 8 * zlen a) Hy)
        as (a' & z & ? & ? & ? & ? & ?); [rewrite Hay, length_app; lia|]. exists a', z. done. }
  mred. destruct (bitpos_load_spec m Hm 8 0 _ z 0 Hz) as (w & -> & Hw & Hbits); [lia|lia|]. mred.
  change (8 * (0 + 8))%nat with 64%nat in Hbits. change (bits_be (8 * 0) 0) with (@nil bool) in Hbits.
  rewrite app_nil_l in Hbits. change (8 * Z.of_nat (0 + 8)) with 64 in Hw.
  pose proof (index_of_padded b z (rdn_bytes_ok _ _ _ _ Hm Hz) Hd) as Hp. rewrite <- Hbits in Hp.
  assert (index_of b (bits_of x) = Z.add (8 * zlen a + 8 * zlen a') <$> index_of b (bits_of z)) as Hix.
  { rewrite Hay, index_of_skip, index_of_skip by done.
    destruct (index_of b (bits_of z)); [|done]. cbn. f_equal. lia. }
  unfold bitpos_result. rewrite Hix, Hay, !length_app.
  destruct (index_of b (bits_be 64 w)) as [k|] eqn:Hk.
  - replace ((Numbers.b2z b =? 1) && (w =? 0)) with false.
    2: { symmetry. apply andb_false_iff. destruct b; [|by left]. right.
         apply Z.eqb_neq. intros H0. apply word_zero in H0; [|done]. congruence. }
    cbv zeta. change (uwrap 64 (Z.lnot (Z.shiftr ULONG_MAX 1))) with (2 ^ Z.of_nat 63).
    rewrite (bitpos_scan_spec b w 63 64 _ k) by (done || lia).
    destruct (index_of b (bits_of z)) as [j|]; cbn [fmap option_fmap option_map]; [by rewrite Hp|].
    destruct Hp as [-> ->]. f_equal. lia.
  - destruct Hp as [-> Hz0]. rewrite Hz0. apply word_zero in Hk as ->; [|done]. done.
Qed.

(** [redisPopcount] returns the number of bits set in the [count] bytes
    from [p], on the POPCNT path and on the 28-bytes-at-a-time path, whatever
    the alignment of the string. *)
Theorem redisPopcount_correct use_popcnt addr m p count :
  bytes_ok m -> 0 <= p -> 0 <= count -> p + count <= zlen m -> count < 2 ^ 60 ->
  redisPopcount use_popcnt addr m p count
  = Some (count_true (bits_of (take (Z.to_nat count) (drop (Z.to_nat p) m)))).
Proof. apply redisPopcount_spec. Qed.

Definition sample : list Z := map (fun i => (37 * Z.of_nat i + 11) mod 256) (seq 0 50).

Lemma sample_ok : bytes_ok sample.
Proof. apply Forall_forall. intros x (i & -> & _)%list_elem_of_fmap. apply Z.mod_pos_bound. lia. Qed.

Lemma redisPopcount_correct_witness :
  redisPopcount false 5 sample 2 45 = Some 182 /\ redisPopcount true 5 sample 2 45 = Some 182.
Proof.
  split.
  - rewrite (redisPopcount_correct false 5 sample 2 45 sample_ok) by (vm_compute; congruence).
    vm_compute. reflexivity.
  - rewrite (redisPopcount_correct true 5 sample 2 45 sample_ok) by (vm_compute; congruence).
    vm_compute. reflexivity.
Defined.

(** [redisBitpos] never reaches its panic: it returns the position of the
    first bit equal to [b] in the [count] bytes from [s]; when there is none,
    -1 for a set bit and the position just after the string for a clear one. *)
Theorem redisBitpos_correct addr m s count (b : bool) :
  bytes_ok m -> 0 <= s -> 0 <= count -> s + count <= zlen m ->
  let x := take (Z.to_nat count) (drop (Z.to_nat s) m) in
  exists pos, redisBitpos addr m s count (Numbers.b2z b) = Some pos /\
    (0 <= pos < 8 * count ->
       bits_of x !! Z.to_nat pos = Some b /\
       forall i, 0 <= i < pos -> bits_of x !! Z.to_nat i = Some (negb b)) /\
    (~ 0 <= pos < 8 * count -> pos = (if b then -1 else 8 * count) /\ ~ b ∈ bits_of x).
Proof.
  intros Hm Hs Hc Hsc x. rewrite redisBitpos_spec by done. fold x. eexists. split; [done|].
  assert (zlen x = count) as Hx by (unfold x; rewrite length_take, length_drop; lia).
  unfold bitpos_result. destruct (index_of b (bits_of x)) as [k|] eqn:Hk.
  - pose proof (index_of_range _ _ _ Hk) as Hr. rewrite bits_of_length in Hr.
    apply index_of_Some in Hk as (_ & Hk & Hi). split; [done|lia].
  - split; [destruct b; lia|]. intros _. split; [by rewrite Hx|].
    intros (i & Hi)%list_elem_of_lookup. revert Hk Hi. generalize (bits_of x), i. clear.
    induction l as [|y l IH]; intros i Hn Hi; [done|]. cbn in Hn.
    destruct (Bool.eqb_spec y b) as [|Hy]; [done|]. apply fmap_None in Hn.
    destruct i; [cbn in Hi; congruence|]. by eapply IH.
Qed.

Lemma redisBitpos_correct_witness :
  exists pos, redisBitpos 3 (replicate 13 255 ++ [0xF7; 1]) 0 15 0 = Some pos /\ pos = 108.
Proof.
  destruct (redisBitpos_correct 3 (replicate 13 255 ++ [0xF7; 1]) 0 15 false) as (pos & He & _).
  - repeat constructor; lia.
  - lia.
  - lia.
  - vm_compute. congruence.
  - exists pos. split; [exact He|]. vm_compute in He. congruence.
Defined.

(** ** Correctness of bit fields *)

(** The number whose digits are [l], the most significant first. *)
Definition be_num (l : list bool) : Z := foldl (fun v b => 2 * v + Numbers.b2z b) 0 l.

Lemma be_num_snoc l b : be_num (l ++ [b]) = 2 * be_num l + Numbers.b2z b.
Proof. unfold be_num. by rewrite foldl_app. Qed.

Lemma be_num_range l : 0 <= be_num l < 2 ^ zlen l.
Proof.
  induction l as [|b l IH] using rev_ind; [done|].
  rewrite be_num_snoc, length_app, Nat2Z.inj_add, Z.pow_add_r by lia. cbn [length].
  change (2 ^ Z.of_nat 1) with 2. destruct b; cbn [Numbers.b2z]; lia.
Qed.

Lemma bits_be_num l : bits_be (length l) (be_num l) = l.
Proof.
  induction l as [|b l IH] using rev_ind; [done|].
  rewrite be_num_snoc, length_app. cbn [length]. rewrite bits_be_split. cbn [bits_be].
  change (Z.of_nat 1) with 1. change (Z.of_nat 0) with 0.
  rewrite Z.shiftr_div_pow2, Z.add_comm, (Z.mul_comm 2) by lia. change (2 ^ 1) with 2.
  rewrite Z.div_add by lia. f_equal.
  - transitivity (bits_be (length l) (be_num l)); [|done]. f_equal. by destruct b.
  - f_equal. rewrite Z.bit0_odd, Z.odd_add, Z.mul_comm, Z.odd_mul. by destruct b.
Qed.

Lemma be_num_bits n x : be_num (bits_be n x) = x mod 2 ^ Z.of_nat n.
Proof.
  apply Z.bits_inj'. intros i Hi.
  pose proof (be_num_range (bits_be n x)) as Hr. rewrite bits_be_length in Hr.
  destruct (Z.lt_ge_cases i (Z.of_nat n)) as [Hlt|Hge].
  2: { rewrite Z.mod_pow2_bits_high by lia. by apply (testbit_small _ (Z.of_nat n)). }
  rewrite Z.mod_pow2_bits_low by lia.
  pose proof (bits_be_num (bits_be n x)) as He. rewrite bits_be_length in He.
  clear Hr. revert He. generalize (be_num (bits_be n x)). intros y He.
  induction n as [|n IH]; [lia|]. cbn [bits_be] in He. injection He as H1 H2.
  destruct (decide (i = Z.of_nat n)) as [-> |]; [done|]. apply IH; [lia|done].
Qed.

(** The byte and the bit inside it of a position. *)
Lemma bit_pos_split p off :
  0 <= off < 8 * zlen p ->
  exists (pre : list Z) (b : Z) (post : list Z), p = pre ++ b :: post /\ zlen pre = Z.shiftr off 3 /\
    off = 8 * zlen pre + Z.land off 7 /\ 0 <= Z.land off 7 < 8.
Proof.
  intros Hoff. rewrite Z.shiftr_div_pow2, (land_ones_mod _ 3 7) by lia. change (2 ^ 3) with 8.
  destruct (lookup_lt_is_Some_2 p (Z.to_nat (off / 8))) as [b Hb]; [dlia|].
  exists (take (Z.to_nat (off / 8)) p), b, (drop (S (Z.to_nat (off / 8))) p).
  rewrite take_drop_middle by done. rewrite length_take. apply lookup_lt_Some in Hb.
  split; [done|]. rewrite Nat.min_l by lia. dlia.
Qed.

Lemma byte_bits_lookup b i :
  0 <= i < 8 -> byte_bits b !! Z.to_nat i = Some (Z.testbit b (7 - i)).
Proof.
  intros Hi. assert (i = 0 \/ i = 1 \/ i = 2 \/ i = 3 \/ i = 4 \/ i = 5 \/ i = 6 \/ i = 7) as H by lia.
  by destruct H as [-> |[-> |[-> |[-> |[-> |[-> |[-> | ->]]]]]]].
Qed.

Lemma rd_bit p off :
  0 <= off < 8 * zlen p ->
  exists b, rd p (Z.shiftr off 3) = Some b /\
    bits_of p !! Z.to_nat off = Some (Z.testbit b (7 - Z.land off 7)).
Proof.
  intros Hoff. destruct (bit_pos_split p off Hoff) as (pre & b & post & -> & Hpre & Ho & Hi).
  exists b. rewrite rd_app_r by done. split; [done|].
  rewrite bits_of_app, bits_of_cons, lookup_app_r by (rewrite bits_of_length; lia).
  rewrite bits_of_length, lookup_app_l by (cbn [length byte_bits map]; lia).
  rewrite <- byte_bits_lookup by done. f_equal. lia.
Qed.

Lemma land_shiftr_1 b k : 0 <= k -> Z.land (Z.shiftr b k) 1 = Numbers.b2z (Z.testbit b k).
Proof.
  intros Hk. rewrite (land_ones_mod _ 1 1) by lia. change (2 ^ 1) with 2.
  rewrite <- Z.bit0_mod, Z.shiftr_spec by lia. by destruct (Z.testbit b (0 + k)) eqn:He;
    rewrite Z.add_0_l in He; rewrite He.
Qed.

Lemma getUnsignedBitfield_loop_spec n p off l :
  0 <= off -> off + Z.of_nat n <= 8 * zlen p -> 8 * zlen p < 2 ^ 64 -> (length l + n <= 64)%nat ->
  getUnsignedBitfield_loop n p off (be_num l)
  = Some (be_num (l ++ take n (drop (Z.to_nat off) (bits_of p)))).
Proof.
  revert off l. induction n as [|n IH]; intros off l Ho Hn Hp Hl; cbn [getUnsignedBitfield_loop].
  { by rewrite app_nil_r. }
  destruct (rd_bit p off) as (b & -> & Hb); [lia|]. mred.
  pose proof (Z.land_nonneg off 7) as Hland.
  assert (Z.land off 7 < 8) by (rewrite (land_ones_mod _ 3 7) by lia; apply Z.mod_pos_bound; lia).
  rewrite land_shiftr_1 by lia.
  pose proof (be_num_range l) as Hr.
  assert (2 ^ zlen l * 2 <= 2 ^ 64).
  { rewrite <- (Z.mul_comm 2), <- Z.pow_succ_r by lia. apply Z.pow_le_mono_r; lia. }
  rewrite (uwrap_id 64 (Z.shiftl _ 1)) by (unfold in_u; rewrite Z.shiftl_mul_pow2; lia).
  rewrite Z.lor_comm, lor_shiftl_add by (try lia; by destruct (Z.testbit _ _)).
  replace (Numbers.b2z _ + be_num l * 2 ^ 1) with (be_num (l ++ [Z.testbit b (7 - Z.land off 7)]))
    by (rewrite be_num_snoc; lia).
  rewrite uwrap_id by (unfold in_u; lia).
  rewrite IH by (rewrite ?length_app; cbn [length]; lia). f_equal. f_equal.
  rewrite <- app_assoc. f_equal. rewrite (drop_S _ _ _ Hb). cbn [app firstn].
  by replace (Z.to_nat (off + 1)) with (S (Z.to_nat off)) by lia.
Qed.

Lemma uwrap_shift w z y k : in_u w y -> z = y + k * 2 ^ w -> uwrap w z = y.
Proof. intros Hy ->. unfold uwrap. rewrite Z_mod_plus_full. by apply Z.mod_small. Qed.

Lemma swrap_shift w z y k : 0 < w -> in_s w y -> z = y + k * 2 ^ w -> swrap w z = y.
Proof.
  intros Hw Hy ->. unfold swrap, in_s in *. pose proof (pow2_half w Hw).
  replace (y + k * 2 ^ w + 2 ^ (w - 1)) with (y + 2 ^ (w - 1) + k * 2 ^ w) by lia.
  rewrite Z_mod_plus_full, Z.mod_small by lia. lia.
Qed.

(** [((uint64_t)-1) << bits] and its complement. *)
Lemma mask_high bits :
  0 <= bits < 64 ->
  uwrap 64 (Z.shiftl (uwrap 64 (-1)) bits) = Z.shiftl (2 ^ (64 - bits) - 1) bits.
Proof.
  intros Hb. rewrite !Z.shiftl_mul_pow2 by lia.
  assert (2 ^ 64 = 2 ^ (64 - bits) * 2 ^ bits) as H64
    by (rewrite <- Z.pow_add_r by lia; f_equal; lia).
  assert (0 < 2 ^ bits) by lia. assert (0 < 2 ^ (64 - bits)) by lia.
  apply (uwrap_shift _ _ _ (2 ^ bits - 1)); [unfold in_u; nia|].
  replace (uwrap 64 (-1)) with (2 ^ 64 - 1) by reflexivity.
  rewrite Z.mul_sub_distr_r. nia.
Qed.

Lemma mask_low bits :
  0 <= bits < 64 ->
  uwrap 64 (Z.lnot (uwrap 64 (Z.shiftl (uwrap 64 (-1)) bits))) = 2 ^ bits - 1.
Proof.
  intros Hb. rewrite mask_high, Z.shiftl_mul_pow2 by lia.
  assert (2 ^ 64 = 2 ^ (64 - bits) * 2 ^ bits) as H64
    by (rewrite <- Z.pow_add_r by lia; f_equal; lia).
  assert (0 < 2 ^ bits) by lia. assert (1 < 2 ^ (64 - bits)) by (apply Z.pow_gt_1; lia).
  apply (uwrap_shift _ _ _ (-1)); [unfold in_u; nia|]. unfold Z.lnot.
  rewrite Z.mul_sub_distr_r. lia.
Qed.

Lemma testbit_top u n :
  1 <= n -> 0 <= u < 2 ^ n -> Z.testbit u (n - 1) = (2 ^ (n - 1) <=? u).
Proof.
  intros Hn Hu. pose proof (pow2_half n). destruct (Z.leb_spec (2 ^ (n - 1)) u).
  - rewrite Z.testbit_true by lia. replace (u / 2 ^ (n - 1)) with 1; [done|].
    symmetry. apply (div_low _ (u - 2 ^ (n - 1))); lia.
  - apply (testbit_small _ (n - 1)); lia.
Qed.

Lemma swrap_small u n :
  1 <= n -> 0 <= u < 2 ^ n -> swrap n u = if 2 ^ (n - 1) <=? u then u - 2 ^ n else u.
Proof.
  intros Hn Hu. pose proof (pow2_half n). destruct (Z.leb_spec (2 ^ (n - 1)) u).
  - apply (swrap_shift _ _ _ 1); [lia| |lia]. unfold in_s. lia.
  - apply swrap_id; [lia|]. unfold in_s. lia.
Qed.

Definition field (p : list Z) (off bits : Z) : list bool :=
  take (Z.to_nat bits) (drop (Z.to_nat off) (bits_of p)).

Lemma field_length p off bits :
  0 <= off -> 0 <= bits -> off + bits <= 8 * zlen p -> zlen (field p off bits) = bits.
Proof.
  intros. unfold field. rewrite length_take, length_drop, bits_of_length. lia.
Qed.

(** Writing one bit. *)
Definition set_bit_byte (b k v : Z) : Z :=
  Z.land (Z.lor (Z.land b (Z.lnot (Z.shiftl 1 k))) (Z.shiftl v k)) 0xff.

Lemma set_bit_byte_spec b i (v : bool) :
  byte_ok b -> 0 <= i < 8 ->
  byte_ok (set_bit_byte b (7 - i) (Numbers.b2z v)) /\
  byte_bits (set_bit_byte b (7 - i) (Numbers.b2z v)) = <[Z.to_nat i := v]> (byte_bits b).
Proof.
  intros Hb Hi.
  pose proof (byte_forall (fun b => forallb (fun i => forallb (fun v =>
    let x := set_bit_byte b (7 - i) (Numbers.b2z v) in
    bool_decide ((0 <= x /\ x < 256) /\ byte_bits x = <[Z.to_nat i := v]> (byte_bits b)))
    [true; false]) [0; 1; 2; 3; 4; 5; 6; 7])) as H.
  specialize (H ltac:(vm_compute; reflexivity) b Hb). cbv zeta in H.
  rewrite forallb_forall in H. specialize (H i). rewrite forallb_forall in H.
  eapply bool_decide_eq_true_1, H; [|by destruct v; cbn; auto].
  assert (i = 0 \/ i = 1 \/ i = 2 \/ i = 3 \/ i = 4 \/ i = 5 \/ i = 6 \/ i = 7) as Hc by lia.
  cbn. intuition.
Qed.

Lemma write_bit p off (v : bool) :
  bytes_ok p -> 0 <= off < 8 * zlen p ->
  exists b p', rd p (Z.shiftr off 3) = Some b /\
    bits_of p !! Z.to_nat off = Some (Z.testbit b (7 - Z.land off 7)) /\
    wrn p (Z.shiftr off 3) [set_bit_byte b (7 - Z.land off 7) (Numbers.b2z v)] = Some p' /\
    bytes_ok p' /\ length p' = length p /\ bits_of p' = <[Z.to_nat off := v]> (bits_of p).
Proof.
  intros Hp Hoff. destruct (rd_bit p off Hoff) as (b0 & Hrd & Hlk).
  destruct (bit_pos_split p off Hoff) as (pre & b & post & -> & Hpre & Ho & Hi).
  rewrite rd_app_r in Hrd by done. cbn in Hrd. simplify_eq.
  pose proof Hp as Hp'. apply Forall_app in Hp' as [Hp1 [Hb Hp2]%Forall_cons].
  destruct (set_bit_byte_spec b0 (Z.land off 7) v Hb Hi) as [Hok Hbb].
  exists b0, (pre ++ set_bit_byte b0 (7 - Z.land off 7) (Numbers.b2z v) :: post).
  split_and!.
  - by rewrite rd_app_r.
  - done.
  - by apply (wrn_app pre [b0] post).
  - by apply Forall_app_2; [|constructor].
  - by rewrite !length_app.
  - rewrite !bits_of_app, !bits_of_cons, Hbb, insert_app_r_alt by (rewrite bits_of_length; lia).
    f_equal. rewrite bits_of_length, insert_app_l by (cbn [length byte_bits map]; lia).
    do 2 f_equal. lia.
Qed.

Lemma setUnsignedBitfield_loop_spec n p off bits value j :
  bytes_ok p -> 0 <= off -> off + Z.of_nat n <= 8 * zlen p -> 8 * zlen p < 2 ^ 64 ->
  bits - j = Z.of_nat n ->
  exists p', setUnsignedBitfield_loop n p off bits value j = Some p' /\
    bytes_ok p' /\ length p' = length p /\
    bits_of p' = take (Z.to_nat off) (bits_of p) ++ bits_be n value
                 ++ drop (Z.to_nat off + n) (bits_of p).
Proof.
  revert p off j. induction n as [|n IH]; intros p off j Hp Ho Hn Hmax Hj;
    cbn [setUnsignedBitfield_loop].
  { exists p. cbn. by rewrite Nat.add_0_r, take_drop. }
  destruct (write_bit p off (Z.testbit value (Z.of_nat n))) as (b & p' & -> & Hb & Hw & Hp' & Hl & Hbits);
    [done|lia|]. mred.
  replace (negb (Z.land value (Z.shiftl 1 (bits - 1 - j)) =? 0)) with (Z.testbit value (Z.of_nat n)).
  2: { replace (bits - 1 - j) with (Z.of_nat n) by lia.
       by rewrite Z.shiftl_1_l, Z.land_comm, land_pow2_testbit, negb_involutive by lia. }
  fold (set_bit_byte b (7 - Z.land off 7) (Numbers.b2z (Z.testbit value (Z.of_nat n)))).
  rewrite Hw. mred. rewrite uwrap_id by (unfold in_u; lia).
  destruct (IH p' (off + 1) (j + 1)) as (p'' & -> & Hok & Hl' & Hb'); [done|lia|rewrite Hl; lia|lia..|].
  exists p''. split_and!; [done|done|congruence|]. rewrite Hb', Hbits. cbn [bits_be app].
  assert (Z.to_nat off < length (bits_of p))%nat by (rewrite bits_of_length; lia).
  replace (Z.to_nat (off + 1)) with (S (Z.to_nat off)) by lia.
  rewrite (take_S_r _ _ (Z.testbit value (Z.of_nat n))) by by apply list_lookup_insert_eq.
  rewrite take_insert_ge, drop_insert_lt, <- app_assoc by lia. cbn [app].
  by replace (S (Z.to_nat off) + n)%nat with (Z.to_nat off + S n)%nat by lia.
Qed.

Section Field.
Context (p : list Z) (off bits : Z).
Context (Hoff : 0 <= off) (Hbits : 1 <= bits <= 64) (Hend : off + bits <= 8 * zlen p)
  (Hmax : 8 * zlen p < 2 ^ 64).

Lemma getUnsignedBitfield_spec : getUnsignedBitfield p off bits = Some (be_num (field p off bits)).
Proof.
  unfold getUnsignedBitfield. change 0 with (be_num []) at 1.
  by rewrite getUnsignedBitfield_loop_spec by (cbn [length]; lia).
Qed.

(** The value of a field in two's complement. *)
Lemma getSignedBitfield_spec :
  getSignedBitfield p off bits = Some (swrap bits (be_num (field p off bits))).
Proof.
  unfold getSignedBitfield. rewrite getUnsignedBitfield_spec. mred. f_equal.
  pose proof (be_num_range (field p off bits)) as Hr. rewrite field_length in Hr by lia.
  set (u := be_num _) in *.
  assert (2 ^ bits <= 2 ^ 64) by (apply Z.pow_le_mono_r; lia).
  rewrite uwrap_swrap, (uwrap_id 64 u) by (unfold in_u; lia).
  pose proof (pow2_half bits) as Hh. assert (0 < 2 ^ (bits - 1)) by lia.
  rewrite Z.shiftl_1_l, Z.land_comm, land_pow2_testbit, negb_involutive by lia.
  rewrite testbit_top, (swrap_small u bits) by lia.
  destruct (Z.ltb_spec bits 64) as [Hlt|].
  2: { cbn [andb]. replace bits with 64 in * by lia. by rewrite swrap_small. }
  cbn [andb]. destruct (Z.leb_spec (2 ^ (bits - 1)) u).
  2: { apply swrap_id; [lia|]. unfold in_s.
       assert (2 ^ (bits - 1) <= 2 ^ (64 - 1)) by (apply Z.pow_le_mono_r; lia). lia. }
  rewrite mask_high, lor_shiftl_add by lia.
  assert (2 ^ 64 = 2 ^ (64 - bits) * 2 ^ bits) as H64
    by (rewrite <- Z.pow_add_r by lia; f_equal; lia).
  assert (2 ^ bits <= 2 ^ 63) by (apply Z.pow_le_mono_r; lia).
  apply (swrap_shift _ _ _ 1); [lia|unfold in_s; change (64 - 1) with 63; lia|].
  rewrite Z.mul_sub_distr_r. lia.
Qed.

Lemma field_set p' l :
  zlen l = bits -> bits_of p' = take (Z.to_nat off) (bits_of p) ++ l
                                ++ drop (Z.to_nat off + Z.to_nat bits) (bits_of p) ->
  field p' off bits = l.
Proof.
  intros Hl Hb. unfold field. rewrite Hb, drop_app_length', take_app_length'; [done|lia|].
  rewrite length_take, bits_of_length. lia.
Qed.

Lemma frame_set p' l i :
  zlen l = bits -> bits_of p' = take (Z.to_nat off) (bits_of p) ++ l
                                ++ drop (Z.to_nat off + Z.to_nat bits) (bits_of p) ->
  0 <= i -> ~ (off <= i < off + bits) -> bits_of p' !! Z.to_nat i = bits_of p !! Z.to_nat i.
Proof.
  intros Hl Hb Hi Hout. rewrite Hb.
  assert (length (take (Z.to_nat off) (bits_of p)) = Z.to_nat off) as Ht
    by (rewrite length_take, bits_of_length; lia).
  destruct (Z.lt_ge_cases i off).
  - rewrite lookup_app_l, lookup_take_lt by (rewrite ?Ht; lia). done.
  - rewrite !lookup_app_r, lookup_drop by (rewrite ?Ht; lia). rewrite Ht. f_equal. lia.
Qed.

Lemma setUnsignedBitfield_spec value :
  bytes_ok p ->
  exists p', setUnsignedBitfield p off bits value = Some p' /\ bytes_ok p' /\
    length p' = length p /\
    bits_of p' = take (Z.to_nat off) (bits_of p) ++ bits_be (Z.to_nat bits) value
                 ++ drop (Z.to_nat off + Z.to_nat bits) (bits_of p).
Proof. intros Hp. apply setUnsignedBitfield_loop_spec; (done || lia). Qed.

Lemma setSignedBitfield_spec value :
  bytes_ok p ->
  exists p', setSignedBitfield p off bits value = Some p' /\ bytes_ok p' /\
    length p' = length p /\
    bits_of p' = take (Z.to_nat off) (bits_of p) ++ bits_be (Z.to_nat bits) value
                 ++ drop (Z.to_nat off + Z.to_nat bits) (bits_of p).
Proof.
  intros Hp. unfold setSignedBitfield.
  destruct (setUnsignedBitfield_spec (uwrap 64 value) Hp) as (p' & -> & Hok & Hl & Hb).
  exists p'. split_and!; try done. rewrite Hb. do 2 f_equal. apply bits_be_ext.
  intros i Hi. unfold uwrap. by rewrite Z.mod_pow2_bits_low by lia.
Qed.
End Field.

Lemma get_after_set p p' off bits value :
  0 <= off -> 1 <= bits <= 64 -> off + bits <= 8 * zlen p -> 8 * zlen p < 2 ^ 64 ->
  length p' = length p ->
  bits_of p' = take (Z.to_nat off) (bits_of p) ++ bits_be (Z.to_nat bits) value
               ++ drop (Z.to_nat off + Z.to_nat bits) (bits_of p) ->
  getUnsignedBitfield p' off bits = Some (uwrap bits value) /\
  getSignedBitfield p' off bits = Some (swrap bits value).
Proof.
  intros Ho Hb He Hm Hl Hbits. assert (zlen (bits_be (Z.to_nat bits) value) = bits) as Hlen
    by (rewrite bits_be_length; lia).
  rewrite getUnsignedBitfield_spec, getSignedBitfield_spec by lia.
  rewrite (field_set p off bits Ho Hb He p' _ Hlen Hbits), be_num_bits, Z2Nat.id by lia.
  fold (uwrap bits value). by rewrite swrap_uwrap by lia.
Qed.

(** A value written to a field of 1 to 64 bits at any bit offset is read
    back, truncated to the width of the field: without sign modulo [2^bits],
    with sign in two's complement.  The string keeps its length and every bit
    outside the field its value. *)
Theorem bitfield_roundtrip p off bits value :
  bytes_ok p -> 0 <= off -> 1 <= bits <= 64 -> off + bits <= 8 * zlen p -> 8 * zlen p < 2 ^ 64 ->
  Forall (fun set => exists p', set p off bits value = Some p' /\ bytes_ok p' /\
      length p' = length p /\
      getUnsignedBitfield p' off bits = Some (uwrap bits value) /\
      getSignedBitfield p' off bits = Some (swrap bits value) /\
      (forall i, 0 <= i -> ~ (off <= i < off + bits) ->
         bits_of p' !! Z.to_nat i = bits_of p !! Z.to_nat i))
    [setUnsignedBitfield; setSignedBitfield].
Proof.
  intros Hp Ho Hb He Hm. assert (zlen (bits_be (Z.to_nat bits) value) = bits) as Hlen
    by (rewrite bits_be_length; lia).
  repeat apply Forall_cons_2; [| |by apply Forall_nil].
  - destruct (setUnsignedBitfield_spec p off bits Ho Hb He Hm value Hp) as (p' & -> & Hok & Hl & Hbits).
    destruct (get_after_set p p' off bits value) as [Hu Hs]; try done.
    exists p'. split_and!; try done. intros i Hi Hout. eapply (frame_set p off bits); eassumption.
  - destruct (setSignedBitfield_spec p off bits Ho Hb He Hm value Hp) as (p' & -> & Hok & Hl & Hbits).
    destruct (get_after_set p p' off bits value) as [Hu Hs]; try done.
    exists p'. split_and!; try done. intros i Hi Hout. eapply (frame_set p off bits); eassumption.
Qed.

Lemma bitfield_roundtrip_witness :
  setUnsignedBitfield [0; 0] 7 5 23 = Some [1; 112] /\
  exists p', setUnsignedBitfield [0; 0] 7 5 23 = Some p' /\ getSignedBitfield p' 7 5 = Some (-9).
Proof.
  split; [vm_compute; reflexivity|].
  assert (bytes_ok [0; 0]) as Hok by (repeat constructor; lia).
  pose proof (bitfield_roundtrip [0; 0] 7 5 23 Hok) as H.
  specialize (H ltac:(lia) ltac:(lia) ltac:(cbn [length]; lia) ltac:(cbn [length]; lia)).
  apply Forall_cons in H as [(p' & Hs & _ & _ & _ & Hg & _) _].
  exists p'. split; [exact Hs|exact Hg].
Defined.

(** ** Correctness of the overflow checks *)

(** Decides the two sides of a check from where the sum lies. *)
Ltac decide_if b :=
  match goal with |- (if ?c then _ else _) = _ => replace c with b by lia end.
Ltac over := decide_if true; symmetry; decide_if false;
  match goal with |- context [?h <? ?s] => replace (h <? s) with true by lia end.
Ltac under := decide_if false; decide_if true; symmetry; decide_if false;
  match goal with |- context [?h <? ?s] => replace (h <? s) with false by lia end.
Ltac within := decide_if false; decide_if false; symmetry; decide_if true.
Ltac ow_cases lo hi sum ow :=
  destruct (Z.lt_ge_cases hi sum); [over; by destruct ow|];
  destruct (Z.lt_ge_cases sum lo); [under; by destruct ow|within; done].

(** The sum of an old value and an increment, stored in [lo..hi]. *)
Definition ow_spec (lo hi : Z) (wrap : Z -> Z) (sum : Z) (ow : owtype) (limit : Z) : Z * Z :=
  if (lo <=? sum) && (sum <=? hi) then (0, limit)
  else
    match ow with
    | BFOVERFLOW_WRAP => (1, wrap sum)
    | BFOVERFLOW_SAT => if hi <? sum then (1, hi) else (-1, lo)
    | BFOVERFLOW_FAIL => (if hi <? sum then 1 else -1, limit)
    end.

Lemma uwrap_narrow bits z : 0 <= bits <= 64 -> uwrap 64 z mod 2 ^ bits = uwrap bits z.
Proof.
  intros Hb. apply Z.mod_mod_divide. exists (2 ^ (64 - bits)).
  rewrite <- Z.pow_add_r by lia. f_equal. lia.
Qed.

Lemma checkUnsignedBitfieldOverflow_spec value incr bits ow limit :
  1 <= bits <= 63 -> in_u 64 value -> in_s 64 incr -> in_u bits value \/ incr = 0 ->
  checkUnsignedBitfieldOverflow value incr bits ow limit
  = ow_spec 0 (2 ^ bits - 1) (uwrap bits) (value + incr) ow limit.
Proof.
  intros Hb Hv Hi Hd. unfold checkUnsignedBitfieldOverflow.
  assert (2 ^ bits <= 2 ^ 63) by (apply Z.pow_le_mono_r; lia). assert (1 < 2 ^ bits) by (apply Z.pow_gt_1; lia).
  replace (bits =? 64) with false by lia.
  rewrite Z.shiftl_1_l, (uwrap_id 64 (2 ^ bits - 1)) by (unfold in_u; lia).
  rewrite mask_low, (land_ones_mod _ bits) by lia. rewrite uwrap_narrow by lia.
  unfold ow_spec, in_u, in_s in *. change (64 - 1) with 63 in Hi.
  destruct (Z.le_gt_cases value (2 ^ bits - 1)).
  - rewrite !swrap_id by (unfold in_s; change (64 - 1) with 63; lia).
    ow_cases 0 (2 ^ bits - 1) (value + incr) ow.
  - ow_cases 0 (2 ^ bits - 1) (value + incr) ow.
Qed.

(** The unsigned check compares the mathematical sum with the range of
    the field, for an old value in range and any 64-bit increment, and for any
    64-bit value that is set; its 64-bit arithmetic never wraps. *)
Theorem checkUnsignedBitfieldOverflow_correct value incr bits ow limit :
  1 <= bits <= 63 -> in_u 64 value -> in_s 64 incr -> in_u bits value \/ incr = 0 ->
  checkUnsignedBitfieldOverflow value incr bits ow limit
  = ow_spec 0 (2 ^ bits - 1) (uwrap bits) (value + incr) ow limit.
Proof. apply checkUnsignedBitfieldOverflow_spec. Qed.

Lemma checkUnsignedBitfieldOverflow_correct_witness :
  checkUnsignedBitfieldOverflow 250 10 8 BFOVERFLOW_WRAP 0 = (1, 4) /\
  checkUnsignedBitfieldOverflow 250 (-251) 8 BFOVERFLOW_SAT 0 = (-1, 0).
Proof.
  split;
    (rewrite checkUnsignedBitfieldOverflow_correct by (unfold in_u, in_s; lia); reflexivity).
Defined.

(** The sign extension of the wrapped sum. *)
Lemma signed_wrap c bits :
  1 <= bits < 64 -> in_u 64 c ->
  swrap 64 (if negb (Z.land c (uwrap 64 (Z.shiftl 1 (bits - 1))) =? 0)
            then Z.lor c (uwrap 64 (Z.shiftl (uwrap 64 (-1)) bits))
            else Z.land c (uwrap 64 (Z.lnot (uwrap 64 (Z.shiftl (uwrap 64 (-1)) bits)))))
  = swrap bits c.
Proof.
  intros Hb Hc. unfold in_u in Hc. assert (2 ^ bits <= 2 ^ 63) by (apply Z.pow_le_mono_r; lia).
  assert (2 ^ 64 = 2 ^ (64 - bits) * 2 ^ bits) as H64
    by (rewrite <- Z.pow_add_r by lia; f_equal; lia).
  pose proof (pow2_half bits) as Hh. assert (0 < 2 ^ (bits - 1)) by lia.
  rewrite Z.shiftl_1_l, uwrap_id, Z.land_comm, land_pow2_testbit, negb_involutive
    by (unfold in_u; lia).
  rewrite mask_low, mask_high, (land_ones_mod _ bits) by lia.
  rewrite <- (swrap_uwrap bits c) by lia. unfold uwrap.
  pose proof (Z.mod_pos_bound c (2 ^ bits) ltac:(lia)) as Hr.
  rewrite <- (Z.mod_pow2_bits_low c bits (bits - 1)), testbit_top, (swrap_small (c mod _) bits) by lia.
  destruct (Z.leb_spec (2 ^ (bits - 1)) (c mod 2 ^ bits)).
  2: { apply swrap_id; [lia|]. unfold in_s. change (64 - 1) with 63. lia. }
  rewrite (Z.div_mod c (2 ^ bits)) at 1 by lia.
  assert (0 <= c / 2 ^ bits < 2 ^ (64 - bits)) as Hq.
  { split; [apply Z.div_pos; lia|]. apply Z.div_lt_upper_bound; nia. }
  rewrite Z.add_comm, (Z.mul_comm (2 ^ bits)), <- lor_shiftl_add, <- Z.lor_assoc by lia.
  rewrite <- Z.shiftl_lor. replace (2 ^ (64 - bits) - 1) with (Z.ones (64 - bits))
    by (rewrite Z.ones_equiv; lia).
  rewrite Z.lor_ones_low; [|lia|].
  2: { destruct (decide (c / 2 ^ bits = 0)) as [-> |]; [cbn; lia|]. apply Z.log2_lt_pow2; lia. }
  rewrite lor_shiftl_add, Z.ones_equiv by lia.
  apply (swrap_shift _ _ _ 1); [lia|unfold in_s; change (64 - 1) with 63; lia|].
  rewrite <- Z.sub_1_r, Z.mul_sub_distr_r. lia.
Qed.

(** Whether a value lies so close to [INT64_MIN] that [max - value] wraps. *)
Definition near_min (bits value : Z) : Prop := bits < 64 /\ value < - 2 ^ 63 + 2 ^ (bits - 1).

Lemma checkSigned_wrap value incr bits :
  1 <= bits <= 64 ->
  swrap 64
    (let c := uwrap 64 (uwrap 64 value + uwrap 64 incr) in
     if bits <? 64 then
       if negb (Z.land c (uwrap 64 (Z.shiftl 1 (bits - 1))) =? 0)
       then Z.lor c (uwrap 64 (Z.shiftl (uwrap 64 (-1)) bits))
       else Z.land c (uwrap 64 (Z.lnot (uwrap 64 (Z.shiftl (uwrap 64 (-1)) bits))))
     else c)
  = swrap bits (value + incr).
Proof.
  intros Hb. cbv zeta.
  replace (uwrap 64 (uwrap 64 value + uwrap 64 incr)) with (uwrap 64 (value + incr))
    by (unfold uwrap; by rewrite <- Z.add_mod by lia).
  destruct (Z.ltb_spec bits 64).
  - rewrite signed_wrap by (try lia; apply Z.mod_pos_bound; lia).
    rewrite <- (swrap_uwrap bits (uwrap 64 _)) by lia. unfold uwrap at 1.
    by rewrite uwrap_narrow, swrap_uwrap by lia.
  - replace bits with 64 by lia. by apply swrap_uwrap.
Qed.

(** A value that is set near [INT64_MIN] is reported as an overflow. *)
Definition near_min_spec (bits value : Z) (ow : owtype) (limit : Z) : Z * Z :=
  match ow with
  | BFOVERFLOW_WRAP => (1, swrap bits value)
  | BFOVERFLOW_SAT => (1, 2 ^ (bits - 1) - 1)
  | BFOVERFLOW_FAIL => (1, limit)
  end.

Ltac fits64 := unfold in_s; change (64 - 1) with 63; lia.

(** The field is narrower than 64 bits; [h] is [2^(bits-1)]. *)
Ltac checkSigned_setup undefined value incr bits Hb :=
  unfold checkSigned_with;
  let Hw := fresh "Hw" in
  pose proof (checkSigned_wrap value incr bits Hb) as Hw; cbv zeta in Hw |- *; rewrite Hw; clear Hw;
  assert (2 ^ (bits - 1) <= 2 ^ 63) by (apply Z.pow_le_mono_r; lia);
  assert (0 < 2 ^ (bits - 1)) by lia;
  replace (if bits =? 64 then INT64_MAX else Z.shiftl 1 (bits - 1) - 1) with (2 ^ (bits - 1) - 1)
    by (destruct (Z.eqb_spec bits 64) as [-> |]; [done|by rewrite Z.shiftl_1_l]);
  replace (- (2 ^ (bits - 1) - 1) - 1) with (- 2 ^ (bits - 1)) by lia;
  assert (bits < 64 -> 2 * 2 ^ (bits - 1) <= 2 ^ 63)
    by (intros; rewrite <- Z.pow_succ_r by lia; apply Z.pow_le_mono_r; lia).

Lemma checkSigned_with_spec undefined value incr bits ow limit :
  1 <= bits <= 64 -> in_s 64 value -> in_s 64 incr ->
  in_s bits value \/ incr = 0 /\ ~ near_min bits value ->
  checkSigned_with undefined value incr bits ow limit
  = ow_spec (- 2 ^ (bits - 1)) (2 ^ (bits - 1) - 1) (swrap bits) (value + incr) ow limit.
Proof.
  intros Hb Hv Hi Hd. checkSigned_setup undefined value incr bits Hb.
  unfold ow_spec, near_min in *. unfold in_s in Hv, Hi, Hd. change (64 - 1) with 63 in *.
  destruct (Z.eqb_spec bits 64) as [-> |Hne]; cbn [negb andb].
  - change (64 - 1) with 63 in *.
    destruct (Z.le_gt_cases 0 value).
    + rewrite (swrap_id 64 (2 ^ 63 - 1 - value)) by (try lia; fits64). generalize (default undefined (schk 64 (- 2 ^ 63 - value))). intros m.
      ow_cases (- 2 ^ 63) (2 ^ 63 - 1) (value + incr) ow.
    + rewrite (schk_id 64 (- 2 ^ 63 - value)) by fits64. cbn [default from_option id].
      ow_cases (- 2 ^ 63) (2 ^ 63 - 1) (value + incr) ow.
  - generalize dependent (2 ^ (bits - 1)). intros h Hd Hh Hpos Hh2. specialize (Hh2 ltac:(lia)).
    destruct (Z.le_gt_cases value (h - 1)).
    + rewrite (swrap_id 64 (h - 1 - value)) by (try lia; fits64).
      rewrite (schk_id 64 (- h - value)) by fits64. cbn [default from_option id].
      ow_cases (- h) (h - 1) (value + incr) ow.
    + ow_cases (- h) (h - 1) (value + incr) ow.
Qed.

Lemma checkSigned_near_min undefined value bits ow limit :
  1 <= bits <= 64 -> in_s 64 value -> near_min bits value ->
  checkSigned_with undefined value 0 bits ow limit = near_min_spec bits value ow limit.
Proof.
  intros Hb Hv [Hlt Hn]. checkSigned_setup undefined value 0 bits Hb. rewrite Z.add_0_r.
  unfold in_s in Hv. change (64 - 1) with 63 in *. replace (bits =? 64) with false by lia. cbn [negb andb].
  rewrite (swrap_shift 64 (2 ^ (bits - 1) - 1 - value) (2 ^ (bits - 1) - 1 - value - 2 ^ 64) 1)
    by (unfold in_s; lia).
  replace (_ || _) with true by lia. by destruct ow.
Qed.

Lemma in_s_not_near_min bits value : 1 <= bits -> in_s bits value -> ~ near_min bits value.
Proof.
  unfold in_s, near_min. intros Hb Hv [Hlt Hn].
  assert (2 * 2 ^ (bits - 1) <= 2 ^ 63) by (rewrite <- Z.pow_succ_r by lia; apply Z.pow_le_mono_r; lia).
  lia.
Qed.

Lemma near_min_dec bits value : near_min bits value \/ ~ near_min bits value.
Proof. unfold near_min. lia. Qed.

(** C28: the signed check compares the mathematical sum with the range of the
    field, for an old value in range and any 64-bit increment, up to fields of
    64 bits, and for any 64-bit value that is set.  It returns 0 when the sum
    fits, 1 when it is too large and, under SAT and FAIL, -1 when it is too
    small; under WRAP it returns 1 also for a sum that is too small, where the
    comment on the function says -1.  [limit] becomes the nearest bound under
    SAT and the sum modulo [2^bits] under WRAP.  The exception is a value
    within [2^(bits-1)] of the smallest 64-bit integer that is set in a
    narrower field: it is reported as too large.  Where the signed subtraction
    [min-value] overflows, whatever it yields does not change the result. *)
Theorem checkSignedBitfieldOverflow_correct undefined value incr bits ow limit :
  1 <= bits <= 64 -> in_s 64 value -> in_s 64 incr -> in_s bits value \/ incr = 0 ->
  checkSigned_with undefined value incr bits ow limit
  = checkSignedBitfieldOverflow value incr bits ow limit /\
  (~ near_min bits value ->
   checkSignedBitfieldOverflow value incr bits ow limit
   = ow_spec (- 2 ^ (bits - 1)) (2 ^ (bits - 1) - 1) (swrap bits) (value + incr) ow limit) /\
  (near_min bits value ->
   checkSignedBitfieldOverflow value incr bits ow limit = near_min_spec bits value ow limit).
Proof.
  intros Hb Hv Hi Hd. unfold checkSignedBitfieldOverflow.
  destruct (near_min_dec bits value) as [Hn|Hn].
  - assert (incr = 0) as ->.
    { destruct Hd as [Hd|]; [|done]. by apply in_s_not_near_min in Hd; [|lia]. }
    rewrite !checkSigned_near_min by done. done.
  - rewrite !checkSigned_with_spec by (try done; destruct Hd; auto). done.
Qed.

Lemma checkSignedBitfieldOverflow_correct_witness :
  checkSignedBitfieldOverflow 127 (2 ^ 63 - 1) 8 BFOVERFLOW_WRAP 0 = (1, 126) /\
  checkSignedBitfieldOverflow (- 2 ^ 63) (-1) 64 BFOVERFLOW_SAT 0 = (-1, - 2 ^ 63) /\
  checkSignedBitfieldOverflow (-128) (-1) 8 BFOVERFLOW_WRAP 0 = (1, 127) /\
  checkSignedBitfieldOverflow (- 2 ^ 63) 0 8 BFOVERFLOW_SAT 0 = (1, 127).
Proof.
  split_and!.
  - destruct (checkSignedBitfieldOverflow_correct 7 127 (2 ^ 63 - 1) 8 BFOVERFLOW_WRAP 0) as (_ & -> & _);
      unfold in_s, near_min; (lia || reflexivity).
  - destruct (checkSignedBitfieldOverflow_correct 7 (- 2 ^ 63) (-1) 64 BFOVERFLOW_SAT 0) as (_ & -> & _);
      unfold in_s, near_min; (lia || reflexivity).
  - destruct (checkSignedBitfieldOverflow_correct 7 (-128) (-1) 8 BFOVERFLOW_WRAP 0) as (_ & -> & _);
      unfold in_s, near_min; (lia || reflexivity).
  - destruct (checkSignedBitfieldOverflow_correct 7 (- 2 ^ 63) 0 8 BFOVERFLOW_SAT 0) as (_ & _ & ->);
      unfold in_s, near_min; (lia || reflexivity).
Defined.
End Bits.
