(* ===== verification/Popcount.v ===== *)
(** * The vector variants of the bit count ([redis-stable/src/bitops.c])

    [redisPopcountAuto] calls, by what the processor offers, the AVX512, the
    AVX2, the AArch64 NEON or the portable [redisPopcount] of [Bits].  A vector
    register is the list of its lanes, and the lanes wrap at their width.

    All of them count the bits set, the NEON variant on fewer than 2^18 bytes:
    it adds up the whole input in lanes of 16 bits before it widens them, and
    256 KiB of ones make every lane wrap to zero ([redisPopCountAarch64_wraps]). *)

From S2P Require Import Prelude Numbers Bits.
From Stdlib Require Import ZifyBool.

Module Popcount.
Import Bits.
#[local] Open Scope Z_scope.

(** ** Operations *)

(** The processor the count runs on; [Scalar] has the POPCNT instruction or not. *)
Inductive cpu := Scalar (use_popcnt : bool) | AVX2 | AVX512 | AARCH64_NEON.

(** [while (count >= k)] over blocks of [k] bytes, adding [f] of each. *)
Fixpoint block_loop (k : Z) (f : list Z -> Z) (fuel : nat) (m : list Z) (p count bits : Z)
    : option (Z * Z * Z) :=
  if count <? k then Some (p, count, bits)
  else
    match fuel with
    | O => None
    | S fuel =>
      x ← rdn m p k;
      block_loop k f fuel m (p + k) (count - k) (bits + f x)
    end.

(** [__builtin_popcountll] of a word. *)
Definition popcountll (x : list Z) : Z := popn 64 (le_val x).

(** The [n] 64-bit lanes of a block. *)
Fixpoint lanes64 (n : nat) (x : list Z) : list (list Z) :=
  match n with
  | O => []
  | S n => take 8 x :: lanes64 n (drop 8 x)
  end.

(** [_mm512_reduce_add_epi64] of [_mm512_popcnt_epi64]. *)
Definition avx512_block (x : list Z) : Z :=
  swrap 64 (foldr Z.add 0 (map popcountll (lanes64 8 x))).

Definition redisPopCountAvx512 (addr : Z) (m : list Z) (p count : Z) : option Z :=
  let fuel := Z.to_nat count in
  '(p, count, bits) ← popcount_align fuel addr 63 m p count 0;
  '(p, count, bits) ← block_loop 64 avx512_block fuel m p count bits;
  '(p, count, bits) ← block_loop 8 popcountll fuel m p count bits;
  popcount_remain fuel m p count bits.

Definition redisPopCountAvx2 (addr : Z) (m : list Z) (p count : Z) : option Z :=
  let fuel := Z.to_nat count in
  '(p, count, bits) ← popcount_align fuel addr 7 m p count 0;
  '(p, count, cnt) ← popcount_words fuel m p count (0, 0, 0, 0);
  let '(c0, c1, c2, c3) := cnt in
  '(p, count, bits) ← block_loop 8 popcountll fuel m p count (bits + uwrap 64 (c0 + c1 + c2 + c3));
  popcount_remain fuel m p count bits.

(** *** NEON *)

Definition vcntq_u8 (d : list Z) : list Z := map (popn 8) d.

(** [vpaddlq]: the sums of neighbours, in lanes of [w] bits. *)
Fixpoint vpaddlq (w : Z) (l : list Z) : list Z :=
  match l with
  | a :: b :: l => uwrap w (a + b) :: vpaddlq w l
  | _ => []
  end.

Definition vaddq (w : Z) (a b : list Z) : list Z := zip_with (fun x y => uwrap w (x + y)) a b.
Definition vpadalq_u8 (acc c : list Z) : list Z := vaddq 16 acc (vpaddlq 16 c).

(** [vgetq_lane_u64(s, 0) + vgetq_lane_u64(s, 1)] as a [long long]. *)
Definition lane_sum (s : list Z) : Z := swrap 64 (uwrap 64 (nth 0 s 0 + nth 1 s 0)).

(** [vpaddlq_u32(vpaddlq_u16(vpaddlq_u8(c)))] *)
Definition widen (c : list Z) : list Z := vpaddlq 64 (vpaddlq 32 (vpaddlq 16 c)).

(** [while (count >= 128)], with its four accumulators. *)
Fixpoint neon_loop (fuel : nat) (m : list Z) (p count : Z) (acc : list Z * list Z * list Z * list Z)
    : option (Z * Z * (list Z * list Z * list Z * list Z)) :=
  if count <? 128 then Some (p, count, acc)
  else
    match fuel with
    | O => None
    | S fuel =>
      let '(acc0, acc1, acc2, acc3) := acc in
      d0 ← rdn m p 16;
      d1 ← rdn m (p + 16) 16;
      d2 ← rdn m (p + 32) 16;
      d3 ← rdn m (p + 48) 16;
      d4 ← rdn m (p + 64) 16;
      d5 ← rdn m (p + 80) 16;
      d6 ← rdn m (p + 96) 16;
      d7 ← rdn m (p + 112) 16;
      neon_loop fuel m (p + 128) (count - 128)
        (vpadalq_u8 (vpadalq_u8 acc0 (vcntq_u8 d0)) (vcntq_u8 d4),
         vpadalq_u8 (vpadalq_u8 acc1 (vcntq_u8 d1)) (vcntq_u8 d5),
         vpadalq_u8 (vpadalq_u8 acc2 (vcntq_u8 d2)) (vcntq_u8 d6),
         vpadalq_u8 (vpadalq_u8 acc3 (vcntq_u8 d3)) (vcntq_u8 d7))
    end.

Definition neon_reduce (acc : list Z * list Z * list Z * list Z) : Z :=
  let '(acc0, acc1, acc2, acc3) := acc in
  let s01 := vaddq 32 (vpaddlq 32 acc0) (vpaddlq 32 acc1) in
  let s23 := vaddq 32 (vpaddlq 32 acc2) (vpaddlq 32 acc3) in
  lane_sum (vpaddlq 64 (vaddq 32 s01 s23)).

Definition neon_block64 (x : list Z) : Z :=
  let t0 := widen (vcntq_u8 (take 16 x)) in
  let t1 := widen (vcntq_u8 (take 16 (drop 16 x))) in
  let t2 := widen (vcntq_u8 (take 16 (drop 32 x))) in
  let t3 := widen (vcntq_u8 (take 16 (drop 48 x))) in
  lane_sum (vaddq 64 (vaddq 64 t0 t1) (vaddq 64 t2 t3)).

Definition neon_block16 (x : list Z) : Z := lane_sum (widen (vcntq_u8 x)).

Definition redisPopCountAarch64 (addr : Z) (m : list Z) (p count : Z) : option Z :=
  let fuel := Z.to_nat count in
  let zero := replicate 8 0 in
  '(p, count, bits) ← popcount_align fuel addr 15 m p count 0;
  '(p, count, acc) ← neon_loop fuel m p count (zero, zero, zero, zero);
  let bits := bits + neon_reduce acc in
  '(p, count, bits) ← block_loop 64 neon_block64 fuel m p count bits;
  '(p, count, bits) ← block_loop 16 neon_block16 fuel m p count bits;
  popcount_remain fuel m p count bits.

Definition redisPopcountAuto (c : cpu) (addr : Z) (m : list Z) (p count : Z) : option Z :=
  match c with
  | AVX512 => redisPopCountAvx512 addr m p count
  | AVX2 => redisPopCountAvx2 addr m p count
  | AARCH64_NEON => redisPopCountAarch64 addr m p count
  | Scalar use_popcnt => redisPopcount use_popcnt addr m p count
  end.

(** ** Vectors *)

Definition sum (l : list Z) : Z := foldr Z.add 0 l.

(** [vec n b l]: [n] lanes of at most [b]. *)
Definition vec (n : nat) (b : Z) (l : list Z) : Prop :=
  length l = n /\ Forall (fun x => 0 <= x <= b) l.

Lemma vpaddlq_spec w n b l :
  vec (2 * n) b l -> 2 * b < 2 ^ w -> vec n (2 * b) (vpaddlq w l) /\ sum (vpaddlq w l) = sum l.
Proof.
  revert l. induction n as [|n IH]; intros l [Hl Hb] Hw.
  { destruct l; [|done]. done. }
  destruct l as [|x [|y l]]; cbn in Hl; try lia.
  apply Forall_cons in Hb as [Hx Hb]. apply Forall_cons in Hb as [Hy Hb].
  destruct (IH l) as [[Hl' Hb'] Hs]; [split; [lia|done]|done|].
  cbn [vpaddlq sum foldr]. rewrite uwrap_id by (unfold in_u; lia). unfold sum in *.
  rewrite Hs. repeat split; [cbn; lia|constructor; [lia|done]|lia].
Qed.

Lemma vaddq_spec w n a b x y :
  vec n a x -> vec n b y -> a + b < 2 ^ w ->
  vec n (a + b) (vaddq w x y) /\ sum (vaddq w x y) = sum x + sum y.
Proof.
  revert x y. induction n as [|n IH]; intros x y [Hx Hxb] [Hy Hyb] Hw.
  { destruct x, y; done. }
  destruct x as [|u x], y as [|v y]; cbn in Hx, Hy; try lia.
  apply Forall_cons in Hxb as [Hu Hxb]. apply Forall_cons in Hyb as [Hv Hyb].
  destruct (IH x y) as [[Hl Hb] Hs]; [split; (done || lia)..|done|].
  unfold vaddq in *. cbn [zip_with sum foldr]. rewrite uwrap_id by (unfold in_u; lia). unfold sum in *.
  rewrite Hs. repeat split; [cbn; lia|constructor; [lia|done]|lia].
Qed.

Lemma vcntq_spec d : bytes_ok d -> vec (length d) 8 (vcntq_u8 d) /\ sum (vcntq_u8 d) = pop d.
Proof.
  induction 1 as [|b d Hb _ [[Hl Hf] Hs]]; [done|].
  unfold vcntq_u8 in *. cbn [map sum foldr]. destruct (pop_byte b Hb) as [_ ->]. rewrite (pop_cons b d).
  pose proof (pop_range [b]). cbn [length] in *. unfold sum in *.
  repeat split; [cbn [length]; lia|constructor; [lia|done]|lia].
Qed.

Lemma vpadalq_spec a acc d :
  vec 8 a acc -> zlen d = 16 -> bytes_ok d -> a + 16 < 2 ^ 16 ->
  vec 8 (a + 16) (vpadalq_u8 acc (vcntq_u8 d)) /\ sum (vpadalq_u8 acc (vcntq_u8 d)) = sum acc + pop d.
Proof.
  intros Ha Hl Hd Hw. destruct (vcntq_spec d Hd) as [Hv Hs].
  replace (length d) with (2 * 8)%nat in Hv by lia.
  destruct (vpaddlq_spec 16 8 8 _ Hv ltac:(lia)) as [Hv' Hs'].
  destruct (vaddq_spec 16 8 a 16 _ _ Ha Hv' Hw) as [Hv2 Hs2]. unfold vpadalq_u8. split; [done|lia].
Qed.

Lemma lane_sum_spec b s : vec 2 b s -> b < 2 ^ 62 -> lane_sum s = sum s.
Proof.
  intros [Hl Hb] Hw. destruct s as [|x [|y [|]]]; try done.
  apply Forall_cons in Hb as [Hx Hb]. apply Forall_cons in Hb as [Hy _].
  unfold lane_sum. cbn [nth sum foldr]. rewrite uwrap_id by (unfold in_u; lia).
  rewrite swrap_id by (unfold in_s; lia). lia.
Qed.

Lemma widen_spec d :
  zlen d = 16 -> bytes_ok d -> vec 2 64 (widen (vcntq_u8 d)) /\ sum (widen (vcntq_u8 d)) = pop d.
Proof.
  intros Hl Hd. destruct (vcntq_spec d Hd) as [Hv Hs].
  replace (length d) with (2 * 8)%nat in Hv by lia.
  destruct (vpaddlq_spec 16 8 8 _ Hv ltac:(lia)) as [Hv1 Hs1].
  destruct (vpaddlq_spec 32 4 16 _ Hv1 ltac:(lia)) as [Hv2 Hs2].
  destruct (vpaddlq_spec 64 2 32 _ Hv2 ltac:(lia)) as [Hv3 Hs3]. unfold widen. split; [done|lia].
Qed.

Lemma neon_block16_spec x : zlen x = 16 -> bytes_ok x -> neon_block16 x = pop x.
Proof.
  intros Hl Hx. destruct (widen_spec x Hl Hx) as [Hv Hs]. unfold neon_block16.
  by rewrite (lane_sum_spec 64) by done.
Qed.

(** A block cut after its first [k] bytes. *)
Lemma block_cut (k : nat) x :
  (k <= length x)%nat -> bytes_ok x ->
  length (take k x) = k /\ bytes_ok (take k x) /\ bytes_ok (drop k x) /\
  length (drop k x) = (length x - k)%nat /\ pop x = pop (take k x) + pop (drop k x).
Proof.
  intros Hk Hx. rewrite length_take, length_drop, <- pop_app, take_drop.
  split_and!; [lia|by apply Forall_take|by apply Forall_drop|done|done].
Qed.

Lemma neon_block64_spec x : zlen x = 64 -> bytes_ok x -> neon_block64 x = pop x.
Proof.
  intros Hl Hx. unfold neon_block64.
  destruct (block_cut 16 x ltac:(lia) Hx) as (L0 & O0 & Hx1 & L1 & ->).
  destruct (block_cut 16 (drop 16 x) ltac:(lia) Hx1) as (L2 & O2 & Hx2 & L3 & ->).
  rewrite drop_drop in *. cbn [Nat.add] in *.
  destruct (block_cut 16 (drop 32 x) ltac:(lia) Hx2) as (L4 & O4 & Hx3 & L5 & ->).
  rewrite drop_drop in *. cbn [Nat.add] in *.
  assert (take 16 (drop 48 x) = drop 48 x) as Hlast by (apply take_ge; lia).
  rewrite Hlast.
  destruct (widen_spec (take 16 x)) as [V0 <-]; [lia|done|].
  destruct (widen_spec (take 16 (drop 16 x))) as [V1 <-]; [lia|done|].
  destruct (widen_spec (take 16 (drop 32 x))) as [V2 <-]; [lia|done|].
  destruct (widen_spec (drop 48 x)) as [V3 <-]; [lia|done|].
  destruct (vaddq_spec 64 2 64 64 _ _ V0 V1 ltac:(lia)) as [V01 S01].
  destruct (vaddq_spec 64 2 64 64 _ _ V2 V3 ltac:(lia)) as [V23 S23].
  destruct (vaddq_spec 64 2 128 128 _ _ V01 V23 ltac:(lia)) as [V S].
  rewrite (lane_sum_spec 256) by (exact V || lia). lia.
Qed.

Lemma popcountll_spec x : zlen x = 8 -> bytes_ok x -> popcountll x = pop x.
Proof. apply popn64_word. Qed.

Lemma lanes64_spec n x :
  length x = (8 * n)%nat -> bytes_ok x -> foldr Z.add 0 (map popcountll (lanes64 n x)) = pop x.
Proof.
  revert x. induction n as [|n IH]; intros x Hl Hx; [by destruct x; [|cbn in Hl; lia]|].
  destruct (block_cut 8 x ltac:(lia) Hx) as (L0 & O0 & Hx1 & L1 & ->).
  cbn [lanes64 map foldr]. rewrite popcountll_spec, IH by (done || lia). done.
Qed.

Lemma avx512_block_spec x : zlen x = 64 -> bytes_ok x -> avx512_block x = pop x.
Proof.
  intros Hl Hx. unfold avx512_block. rewrite lanes64_spec by (done || lia).
  pose proof (pop_range x). apply swrap_id; [lia|]. unfold in_s. lia.
Qed.

(** ** Loops *)

Section Loops.
Context (m : list Z) (Hm : bytes_ok m).

Lemma block_loop_spec k f fuel p x bits :
  0 < k -> (forall y, zlen y = k -> bytes_ok y -> f y = pop y) ->
  rdn m p (zlen x) = Some x -> (length x <= fuel)%nat ->
  exists a y, x = a ++ y /\
    block_loop k f fuel m p (zlen x) bits = Some (p + zlen a, zlen y, bits + pop a) /\
    rdn m (p + zlen a) (zlen y) = Some y.
Proof using Hm.
  intros Hk Hf0. revert p x bits. induction fuel as [|fuel IH]; intros p x bits Hx Hf; cbn [block_loop].
  { destruct x; [|simpl in Hf; lia]. exists [], []. cbn [length]. rewrite !Z.add_0_r.
    by destruct (Z.ltb_spec (Z.of_nat 0) k); [|lia]. }
  destruct (Z.ltb_spec (zlen x) k).
  { exists [], x. by rewrite !Z.add_0_r. }
  destruct (rdn_chunk m Hm k p x Hx) as (w & y & -> & Hl & Hb & -> & Hy); [lia|]. mred.
  rewrite Hf0 by done. rewrite length_app in *.
  replace (Z.of_nat (length w + length y) - k) with (zlen y) by lia.
  destruct (IH (p + k) y (bits + pop w)) as (a & z & -> & -> & Hz); [done|lia|].
  exists (w ++ a), z. rewrite length_app, pop_app, app_assoc, Nat2Z.inj_add, Hl.
  rewrite !Z.add_assoc. done.
Qed.

Definition accs (f : list Z -> Prop) (acc : list Z * list Z * list Z * list Z) : Prop :=
  let '(a0, a1, a2, a3) := acc in f a0 /\ f a1 /\ f a2 /\ f a3.
Definition acc_sum (acc : list Z * list Z * list Z * list Z) : Z :=
  let '(a0, a1, a2, a3) := acc in sum a0 + sum a1 + sum a2 + sum a3.

(** The eight vectors of a turn. *)
Lemma rdn_eight w p :
  rdn m p (zlen w) = Some w -> zlen w = 128 ->
  exists d0 d1 d2 d3 d4 d5 d6 d7,
    w = concat [d0; d1; d2; d3; d4; d5; d6; d7] /\
    rdn m p 16 = Some d0 /\ rdn m (p + 16) 16 = Some d1 /\ rdn m (p + 32) 16 = Some d2 /\
    rdn m (p + 48) 16 = Some d3 /\ rdn m (p + 64) 16 = Some d4 /\ rdn m (p + 80) 16 = Some d5 /\
    rdn m (p + 96) 16 = Some d6 /\ rdn m (p + 112) 16 = Some d7 /\
    Forall (fun d => zlen d = 16 /\ bytes_ok d) [d0; d1; d2; d3; d4; d5; d6; d7].
Proof using Hm.
  intros Hw Hl.
  destruct (rdn_chunk m Hm 16 p w Hw) as (d0 & x0 & -> & ? & ? & ? & Hx0); [lia|]. rewrite length_app in Hl.
  destruct (rdn_chunk m Hm 16 _ x0 Hx0) as (d1 & x1 & -> & ? & ? & ? & Hx1); [lia|]. rewrite length_app in Hl.
  destruct (rdn_chunk m Hm 16 _ x1 Hx1) as (d2 & x2 & -> & ? & ? & ? & Hx2); [lia|]. rewrite length_app in Hl.
  destruct (rdn_chunk m Hm 16 _ x2 Hx2) as (d3 & x3 & -> & ? & ? & ? & Hx3); [lia|]. rewrite length_app in Hl.
  destruct (rdn_chunk m Hm 16 _ x3 Hx3) as (d4 & x4 & -> & ? & ? & ? & Hx4); [lia|]. rewrite length_app in Hl.
  destruct (rdn_chunk m Hm 16 _ x4 Hx4) as (d5 & x5 & -> & ? & ? & ? & Hx5); [lia|]. rewrite length_app in Hl.
  destruct (rdn_chunk m Hm 16 _ x5 Hx5) as (d6 & x6 & -> & ? & ? & ? & Hx6); [lia|]. rewrite length_app in Hl.
  destruct (rdn_chunk m Hm 16 _ x6 Hx6) as (d7 & x7 & -> & ? & ? & ? & Hx7); [lia|]. rewrite length_app in Hl.
  destruct x7; [|simpl in Hl; lia]. exists d0, d1, d2, d3, d4, d5, d6, d7.
  rewrite <- !Z.add_assoc in *. cbn [Z.add Pos.add Pos.succ Pos.add_carry] in *.
  split_and!; try done. repeat constructor; done.
Qed.

(** One turn of the loop. *)
Lemma neon_turn b a d d' :
  vec 8 b a -> zlen d = 16 /\ bytes_ok d -> zlen d' = 16 /\ bytes_ok d' -> b + 32 < 2 ^ 16 ->
  let a' := vpadalq_u8 (vpadalq_u8 a (vcntq_u8 d)) (vcntq_u8 d') in
  vec 8 (b + 32) a' /\ sum a' = sum a + pop d + pop d'.
Proof.
  intros Ha [Hd Hdo] [Hd' Hdo'] Hb.
  destruct (vpadalq_spec b a d Ha Hd Hdo ltac:(lia)) as [V1 S1].
  destruct (vpadalq_spec (b + 16) _ d' V1 Hd' Hdo' ltac:(lia)) as [V2 S2].
  cbv zeta. replace (b + 32) with (b + 16 + 16) by lia. split; [done|lia].
Qed.

Lemma neon_loop_spec fuel p x acc b :
  rdn m p (zlen x) = Some x -> (length x <= fuel)%nat -> 0 <= b ->
  accs (vec 8 b) acc -> b + 32 * (zlen x / 128) < 2 ^ 16 ->
  exists a y acc', x = a ++ y /\
    neon_loop fuel m p (zlen x) acc = Some (p + zlen a, zlen y, acc') /\
    accs (vec 8 (2 ^ 16 - 1)) acc' /\ acc_sum acc' = acc_sum acc + pop a /\
    rdn m (p + zlen a) (zlen y) = Some y.
Proof using Hm.
  assert (Hmono : forall b acc, b < 2 ^ 16 -> accs (vec 8 b) acc -> accs (vec 8 (2 ^ 16 - 1)) acc).
  { intros b' [[[a0 a1] a2] a3] Hb (H0 & H1 & H2 & H3).
    assert (forall l, vec 8 b' l -> vec 8 (2 ^ 16 - 1) l) as Hv.
    { intros l [? Hl]. split; [done|]. eapply Forall_impl; [exact Hl|]. cbn. lia. }
    split_and!; by apply Hv. }
  revert p x acc b. induction fuel as [|fuel IH]; intros p x acc b Hx Hf Hb0 Hacc Hb; cbn [neon_loop].
  { destruct x; [|simpl in Hf; lia]. exists [], [], acc. rewrite !Z.add_0_r.
    split_and!; try done. apply (Hmono b); [dlia|done]. }
  destruct (Z.ltb_spec (zlen x) 128).
  { exists [], x, acc. rewrite !Z.add_0_r. split_and!; try done. apply (Hmono b); [dlia|done]. }
  destruct (rdn_chunk m Hm 128 p x Hx) as (w & y & -> & Hl & Hwb & Hw & Hy); [lia|].
  destruct (rdn_eight w p) as (d0 & d1 & d2 & d3 & d4 & d5 & d6 & d7 & He & -> & -> & -> & -> & -> & -> & -> & -> & Hd);
    [congruence|done|]. mred. rewrite length_app in *.
  destruct acc as [[[a0 a1] a2] a3]. destruct Hacc as (H0 & H1 & H2 & H3).
  rewrite !Forall_cons in Hd. destruct Hd as (D0 & D1 & D2 & D3 & D4 & D5 & D6 & D7 & _).
  assert (b + 32 < 2 ^ 16) as Hb32 by dlia.
  destruct (neon_turn b a0 d0 d4 H0 D0 D4 Hb32) as [V0 S0].
  destruct (neon_turn b a1 d1 d5 H1 D1 D5 Hb32) as [V1 S1].
  destruct (neon_turn b a2 d2 d6 H2 D2 D6 Hb32) as [V2 S2].
  destruct (neon_turn b a3 d3 d7 H3 D3 D7 Hb32) as [V3 S3].
  replace (Z.of_nat (length w + length y) - 128) with (zlen y) by lia.
  edestruct (IH (p + 128) y) as (a & z & acc' & -> & -> & Ha' & Hs' & Hz); [exact Hy|lia| | | |].
  2: { split_and!; [exact V0|exact V1|exact V2|exact V3]. }
  { lia. } { dlia. }
  exists (w ++ a), z, acc'. rewrite length_app, pop_app, app_assoc, Nat2Z.inj_add, Hl, Z.add_assoc.
  split_and!; try done. rewrite Hs'. cbn [acc_sum]. rewrite S0, S1, S2, S3, He. cbn [concat].
  rewrite !pop_app, pop_nil. lia.
Qed.

Lemma neon_reduce_spec acc : accs (vec 8 (2 ^ 16 - 1)) acc -> neon_reduce acc = acc_sum acc.
Proof.
  destruct acc as [[[a0 a1] a2] a3]. intros (V0 & V1 & V2 & V3). unfold neon_reduce.
  destruct (vpaddlq_spec 32 4 _ _ V0 ltac:(lia)) as [W0 T0].
  destruct (vpaddlq_spec 32 4 _ _ V1 ltac:(lia)) as [W1 T1].
  destruct (vpaddlq_spec 32 4 _ _ V2 ltac:(lia)) as [W2 T2].
  destruct (vpaddlq_spec 32 4 _ _ V3 ltac:(lia)) as [W3 T3].
  destruct (vaddq_spec 32 4 _ _ _ _ W0 W1 ltac:(lia)) as [W01 T01].
  destruct (vaddq_spec 32 4 _ _ _ _ W2 W3 ltac:(lia)) as [W23 T23].
  destruct (vaddq_spec 32 4 _ _ _ _ W01 W23 ltac:(lia)) as [W T].
  destruct (vpaddlq_spec 64 2 _ _ W ltac:(lia)) as [W' T'].
  rewrite (lane_sum_spec _ _ W') by lia. cbn [acc_sum]. lia.
Qed.
End Loops.

(** ** The variants count the bits set *)

(** Below 2^18 bytes no 16-bit lane of the NEON variant can wrap. *)
Definition in_reach (c : cpu) (count : Z) : Prop :=
  match c with AARCH64_NEON => count < 2 ^ 18 | _ => count < 2 ^ 60 end.

Section Variants.
Context (addr : Z) (m : list Z) (Hm : bytes_ok m).

Lemma avx512_spec p x :
  rdn m p (zlen x) = Some x -> redisPopCountAvx512 addr m p (zlen x) = Some (pop x).
Proof using Hm.
  intros Hx. unfold redisPopCountAvx512. rewrite Nat2Z.id.
  destruct (popcount_align_spec m Hm addr 63 (length x) p x 0 Hx) as (a & y & -> & -> & Hy); [lia|]. mred.
  rewrite length_app.
  destruct (block_loop_spec m Hm 64 avx512_block (length a + length y) _ y (0 + pop a) ltac:(lia)
    avx512_block_spec Hy) as (b & z & -> & -> & Hz); [lia|]. mred. rewrite length_app.
  destruct (block_loop_spec m Hm 8 popcountll (length a + (length b + length z)) _ z (0 + pop a + pop b)
    ltac:(lia) popcountll_spec Hz) as (c & u & -> & -> & Hu); [lia|]. mred. rewrite length_app.
  rewrite popcount_remain_spec by (done || lia). rewrite !pop_app. f_equal. lia.
Qed.

Lemma avx2_spec p x :
  rdn m p (zlen x) = Some x -> zlen x < 2 ^ 60 -> redisPopCountAvx2 addr m p (zlen x) = Some (pop x).
Proof using Hm.
  intros Hx Hmax. unfold redisPopCountAvx2. rewrite Nat2Z.id.
  destruct (popcount_align_spec m Hm addr 7 (length x) p x 0 Hx) as (a & y & -> & -> & Hy); [lia|]. mred.
  rewrite length_app in *. pose proof (pop_range y).
  destruct (popcount_words_spec m Hm (length a + length y) _ y (0, 0, 0, 0) Hy)
    as (b & z & [[[c0 c1] c2] c3] & -> & -> & Hc & Hs & Hz); [lia|cbn; lia|cbn [cnt_sum]; lia|]. mred.
  cbn [cnt_sum cnt_pos] in Hs, Hc. rewrite length_app in *. pose proof (pop_range b).
  rewrite uwrap_id by (unfold in_u; lia).
  destruct (block_loop_spec m Hm 8 popcountll (length a + (length b + length z)) _ z
    (0 + pop a + (c0 + c1 + c2 + c3)) ltac:(lia) popcountll_spec Hz) as (c & u & -> & -> & Hu); [lia|]. mred.
  rewrite length_app. rewrite popcount_remain_spec by (done || lia). rewrite !pop_app. f_equal. lia.
Qed.

Lemma aarch64_spec p x :
  rdn m p (zlen x) = Some x -> zlen x < 2 ^ 18 -> redisPopCountAarch64 addr m p (zlen x) = Some (pop x).
Proof using Hm.
  intros Hx Hmax. unfold redisPopCountAarch64. rewrite Nat2Z.id.
  destruct (popcount_align_spec m Hm addr 15 (length x) p x 0 Hx) as (a & y & -> & -> & Hy); [lia|]. mred.
  rewrite length_app in *. set (zero := replicate 8 0).
  assert (vec 8 0 zero) as Hzero by (split; [done|by apply Forall_replicate]).
  destruct (neon_loop_spec m Hm (length a + length y) _ y (zero, zero, zero, zero) 0 Hy)
    as (b & z & acc & -> & -> & Ha & Hs & Hz); [lia|lia|done|dlia|]. mred.
  rewrite neon_reduce_spec, Hs by done. rewrite length_app.
  replace (acc_sum (zero, zero, zero, zero)) with 0 by done.
  destruct (block_loop_spec m Hm 64 neon_block64 (length a + (length b + length z)) _ z (0 + pop a + (0 + pop b))
    ltac:(lia) neon_block64_spec Hz) as (c & u & -> & -> & Hu); [lia|]. mred. rewrite length_app.
  destruct (block_loop_spec m Hm 16 neon_block16 (length a + (length b + (length c + length u))) _ u
    (0 + pop a + (0 + pop b) + pop c) ltac:(lia) neon_block16_spec Hu) as (d & v & -> & -> & Hv); [lia|]. mred.
  rewrite length_app. rewrite popcount_remain_spec by (done || lia). rewrite !pop_app. f_equal. lia.
Qed.
End Variants.

Lemma redisPopcountAuto_spec c addr m p count :
  bytes_ok m -> 0 <= p -> 0 <= count -> p + count <= zlen m -> in_reach c count ->
  redisPopcountAuto c addr m p count
  = Some (pop (take (Z.to_nat count) (drop (Z.to_nat p) m))).
Proof.
  intros Hm Hp Hc Hpc Hr. set (x := take _ _).
  assert (rdn m p count = Some x) as Hx by (by apply rdn_Some).
  pose proof (rdn_length _ _ _ _ Hx) as Hlx. rewrite <- Hlx in Hx. unfold redisPopcountAuto, in_reach in *.
  destruct c; [by apply redisPopcount_spec|rewrite <- Hlx in *..];
    [by apply avx2_spec|by apply avx512_spec|by apply aarch64_spec].
Qed.

(** ** 256 KiB of ones *)

Definition lanes16 (a : Z) : list Z := replicate 8 (uwrap 16 a).

Lemma vpadalq_ones a : vpadalq_u8 (lanes16 a) (vcntq_u8 (replicate 16 255)) = lanes16 (a + 16).
Proof.
  assert (vpaddlq 16 (vcntq_u8 (replicate 16 255)) = replicate 8 16) as Hc by done.
  unfold vpadalq_u8. rewrite Hc. unfold vaddq, lanes16. rewrite zip_with_replicate by lia.
  cbn [Nat.min]. f_equal. unfold uwrap. by rewrite Zplus_mod_idemp_l.
Qed.

Lemma rdn_ones n p k : 0 <= p -> 0 <= k -> p + k <= Z.of_nat n ->
  rdn (replicate n 255) p k = Some (replicate (Z.to_nat k) 255).
Proof.
  intros Hp Hk Hn. apply rdn_Some. rewrite length_replicate. split_and!; try lia.
  rewrite drop_replicate, take_replicate. f_equal. lia.
Qed.

Lemma neon_loop_ones n k : forall fuel p a,
  (k <= fuel)%nat -> 0 <= p -> p + 128 * Z.of_nat k <= Z.of_nat n ->
  let v := lanes16 a in let v' := lanes16 (a + 32 * Z.of_nat k) in
  neon_loop fuel (replicate n 255) p (128 * Z.of_nat k) (v, v, v, v)
  = Some (p + 128 * Z.of_nat k, 0, (v', v', v', v')).
Proof.
  induction k as [|k IH]; intros fuel p a Hf Hp Hn v v'; unfold v, v'.
  { rewrite !Z.mul_0_r, !Z.add_0_r. by destruct fuel. }
  destruct fuel as [|fuel]; [lia|]. cbn [neon_loop].
  replace (128 * Z.of_nat (S k) <? 128) with false by lia.
  rewrite !rdn_ones by lia. mred. change (Z.to_nat 16) with 16%nat. rewrite !vpadalq_ones.
  replace (128 * Z.of_nat (S k) - 128) with (128 * Z.of_nat k) by lia.
  replace (a + 16 + 16) with (a + 32) by lia. rewrite IH by lia.
  replace (a + 32 + 32 * Z.of_nat k) with (a + 32 * Z.of_nat (S k)) by lia.
  by replace (p + 128 + 128 * Z.of_nat k) with (p + 128 * Z.of_nat (S k)) by lia.
Qed.

Lemma pop_ones n : pop (replicate n 255) = 8 * Z.of_nat n.
Proof.
  induction n as [|n IH]; [done|]. cbn [replicate]. rewrite (pop_cons 255), IH.
  change (pop [255]) with 8. lia.
Qed.

Lemma aarch64_ones n addr :
  Z.of_nat n = 2 ^ 18 -> addr mod 16 = 0 ->
  redisPopCountAarch64 addr (replicate n 255) 0 (2 ^ 18) = Some 0.
Proof.
  intros Hn Ha. unfold redisPopCountAarch64. replace (Z.to_nat (2 ^ 18)) with n by lia.
  assert (popcount_align n addr 15 (replicate n 255) 0 (2 ^ 18) 0 = Some (0, 2 ^ 18, 0)) as ->.
  { assert (Z.land (addr + 0) 15 = 0) as Hl.
    { rewrite Z.add_0_r. change 15 with (Z.ones 4). by rewrite Z.land_ones by lia. }
    destruct n; cbn [popcount_align]; by rewrite Hl. }
  mred. destruct (Z_of_nat_complete 2048) as [k Hk]; [lia|].
  pose proof (neon_loop_ones n k n 0 0 ltac:(lia) ltac:(lia) ltac:(lia)) as Hloop. cbv zeta in Hloop.
  rewrite <- Hk in Hloop. change (128 * 2048) with (2 ^ 18) in Hloop.
  change (lanes16 0) with (replicate 8 0) in Hloop.
  change (lanes16 (0 + 32 * 2048)) with (replicate 8 0) in Hloop. rewrite Hloop. mred.
  change (neon_reduce _) with 0. clear. by destruct n.
Qed.

(** The NEON variant finds no bit in an aligned string of 2^18 bytes 255, all of
    whose 2^21 bits are set: the lanes count to 2^16 and wrap. *)
Theorem redisPopCountAarch64_wraps addr :
  addr mod 16 = 0 ->
  redisPopcountAuto AARCH64_NEON addr (replicate (Z.to_nat (2 ^ 18)) 255) 0 (2 ^ 18) = Some 0 /\
  pop (replicate (Z.to_nat (2 ^ 18)) 255) = 2 ^ 21.
Proof.
  intros Ha. pose proof (Z2Nat.id (2 ^ 18) ltac:(lia)) as Hn. generalize dependent (Z.to_nat (2 ^ 18)).
  intros n Hn. split; [by apply aarch64_ones|]. rewrite pop_ones, Hn. reflexivity.
Qed.

Lemma redisPopCountAarch64_wraps_witness :
  redisPopcountAuto AARCH64_NEON 512 (replicate (Z.to_nat (2 ^ 18)) 255) 0 (2 ^ 18) = Some 0.
Proof. apply (redisPopCountAarch64_wraps 512). reflexivity. Defined.
End Popcount.
