(* ===== verification/Bitops.v ===== *)
(** * Bitmap commands ([redis-stable/src/bitops.c])

    SETBIT, GETBIT, BITCOUNT, BITPOS, BITFIELD, BITFIELD_RO and BITOP: parsing
    of the arguments, error replies, the effect on the database and the reply.

    The keyspace is a finite map from keys to string objects, with their raw or
    integer encoding, and objects of other types; the keys it holds are not
    expired.  A command runs in the monad [M]: it changes the state, may return
    early after an error reply, and is stuck ([None]) where the C code would
    access memory outside a string or fail an assertion. *)

From S2P Require Import Prelude Numbers SdsText Bits Popcount.
From stdpp Require Import gmap.
From Stdlib Require Import ZifyBool.

Module Bitops.
Import Bits Popcount.
#[local] Open Scope Z_scope.

(** ** State and monad *)

Abbreviation key := (list Z).

Inductive obj := OStr (s : list Z) | OInt (v : Z) | OOther.

Inductive ritem := RInt (v : Z) | RErr (msg : list Z) | RArrayLen (n : Z) | RNull.

Record st := St {
  db : gmap key obj;
  dirty : Z;
  modified : list key;               (** [keyModified] calls *)
  events : list (list Z * key);      (** [notifyKeyspaceEvent] calls *)
  out : list ritem                   (** replies, oldest first *)
}.

Definition M (A : Type) := st -> option (option A * st).
Definition stop {A} : M A := fun s => Some (None, s).
Definition stuck {A} : M A := fun _ => None.
Definition lift {A} (o : option A) : M A := fun s => a ← o; Some (Some a, s).
Definition reads {A} (f : st -> A) : M A := fun s => Some (Some (f s), s).
Definition updates (f : st -> st) : M unit := fun s => Some (Some tt, f s).

#[export] Instance M_mret : MRet M := fun A a s => Some (Some a, s).
#[export] Instance M_bind : MBind M := fun A B f m s =>
  match m s with
  | Some (Some a, s) => f a s
  | Some (None, s) => Some (None, s)
  | None => None
  end.

Definition addReply (r : ritem) : M unit :=
  updates (fun s => St (db s) (dirty s) (modified s) (events s) (out s ++ [r])).
Definition fail {A} (msg : list Z) : M A := addReply (RErr msg);; stop.
Definition keyModified (k : key) : M unit :=
  updates (fun s => St (db s) (dirty s) (modified s ++ [k]) (events s) (out s)).
Definition notifyKeyspaceEvent (e : list Z) (k : key) : M unit :=
  updates (fun s => St (db s) (dirty s) (modified s) (events s ++ [(e, k)]) (out s)).
Definition add_dirty (n : Z) : M unit :=
  updates (fun s => St (db s) (dirty s + n) (modified s) (events s) (out s)).
Definition put (k : key) (o : obj) : M unit :=
  updates (fun s => St (<[k := o]> (db s)) (dirty s) (modified s) (events s) (out s)).
Definition lookupKey (k : key) : M (option obj) := reads (fun s => db s !! k).

(** The string a key holds, through the pointer the command keeps. *)
Definition contents (k : key) : M (list Z) := fun s =>
  match db s !! k with
  | Some (OStr x) => Some (Some x, s)
  | _ => None
  end.

(** ** Arguments *)

Definition err_offset : list Z := str "bit offset is not an integer or out of range".
Definition err_bit : list Z := str "bit is not an integer or out of range".
Definition err_int : list Z := str "value is not an integer or out of range".
Definition err_syntax : list Z := str "syntax error".
Definition err_type : list Z :=
  str "WRONGTYPE Operation against a key holding the wrong kind of value".
Definition err_bftype : list Z :=
  str "Invalid bitfield type. Use something like i16 u8. Note that u64 is not supported but i64 is.".
Definition err_overflow : list Z := str "Invalid OVERFLOW type specified".
Definition err_readonly : list Z := str "BITFIELD_RO only supports the GET subcommand".
Definition err_bit01 : list Z := str "The bit argument must be 1 or 0.".
Definition err_not : list Z := str "BITOP NOT must be called with a single source key.".

Definition strcasecmp_eq (a b : list Z) : bool := Numbers.strcaseeq (SdsText.cstr a) b.

(** [getLongLongFromObjectOrReply] on an argument, which is a string. *)
Definition getLongLongFromObjectOrReply (o : list Z) (msg : option (list Z)) : M Z :=
  match Numbers.string2ll o with
  | Some v => mret v
  | None => fail (default err_int msg)
  end.

(** [long] is [long long] here, so the range check of this function passes. *)
Definition getLongFromObjectOrReply (o : list Z) (msg : option (list Z)) : M Z :=
  getLongLongFromObjectOrReply o msg.

Definition arg (argv : list (list Z)) (n : Z) : M (list Z) :=
  lift (if 0 <=? n then argv !! Z.to_nat n else None).

Section Server.
Context (obey : bool) (proto_max_bulk_len : Z).

(** [obey] is [mustObeyClient].  The product is a 64-bit multiplication; its
    overflow is not checked. *)
Definition getBitOffsetFromArgument (p : list Z) (hash : bool) (bits : Z) : M Z :=
  let usehash := bool_decide (head p = Some 35) && hash && (0 <? bits) in
  match Numbers.string2ll (drop (if usehash then 1 else 0) p) with
  | None => fail err_offset
  | Some loffset =>
    let loffset := if usehash then swrap 64 (loffset * bits) else loffset in
    if (loffset <? 0) || (negb obey && (proto_max_bulk_len <=? Z.shiftr loffset 3))
    then fail err_offset
    else mret loffset
  end.

Definition getBitfieldTypeFromArgument (p : list Z) : M (bool * Z) :=
  sign ← (if bool_decide (head p = Some 105) then mret true
          else if bool_decide (head p = Some 117) then mret false
          else fail err_bftype);
  match Numbers.string2ll (SdsText.cstr (drop 1 p)) with
  | None => fail err_bftype
  | Some llbits =>
    if (llbits <? 1) || (sign && (64 <? llbits)) || (negb sign && (63 <? llbits))
    then fail err_bftype
    else mret (sign, llbits)
  end.

(** ** Objects *)

(** [ll2string] of an integer object into a buffer of [n] bytes. *)
Definition int_string (n : nat) (v : Z) : option (list Z) :=
  '(buf, len) ← Numbers.ll2string (replicate n 0) v;
  Some (take (Z.to_nat len) buf).

(** The result is [strOldSize] and [strGrowSize]; the object is the one the
    key now holds. *)
Definition lookupStringForBitCommand (k : key) (maxbit : Z) : M (Z * Z) :=
  let byte := Z.shiftr maxbit 3 in
  o ← lookupKey k;
  match o with
  | Some OOther => fail err_type
  | None =>
    put k (OStr (replicate (Z.to_nat (byte + 1)) 0));;
    notifyKeyspaceEvent (str "new") k;;
    mret (0, byte + 1)
  | Some o =>
    s ← (match o with OInt v => lift (int_string 32 v) | OStr s => mret s | OOther => stuck end);
    let grown := s ++ replicate (Z.to_nat (byte + 1) - length s) 0 in
    put k (OStr grown);;
    mret (zlen s, zlen grown - zlen s)
  end.

Definition getObjectReadOnlyString (o : option obj) : M (list Z) :=
  match o with
  | Some (OInt v) => lift (int_string 21 v)
  | Some (OStr s) => mret s
  | None => mret []
  | Some OOther => stuck
  end.

Definition checkType (o : option obj) : M unit :=
  match o with
  | Some OOther => fail err_type
  | _ => mret tt
  end.

(** ** SETBIT and GETBIT *)

Definition setbitCommand (argv : list (list Z)) : M unit :=
  k ← arg argv 1;
  a2 ← arg argv 2;
  bitoffset ← getBitOffsetFromArgument a2 false 0;
  a3 ← arg argv 3;
  on ← getLongFromObjectOrReply a3 (Some err_bit);
  if negb (Z.land on (Z.lnot 1) =? 0) then fail err_bit
  else
    '(strOldSize, strGrowSize) ← lookupStringForBitCommand k bitoffset;
    s ← contents k;
    let byte := Z.shiftr bitoffset 3 in
    byteval ← lift (rd s byte);
    let bit := 7 - Z.land bitoffset 7 in
    let bitval := Z.land byteval (Z.shiftl 1 bit) in
    (if negb (strGrowSize =? 0) || negb (Numbers.b2z (negb (bitval =? 0)) =? on) then
       let byteval := Z.land byteval (Z.lnot (Z.shiftl 1 bit)) in
       let byteval := Z.lor byteval (Z.shiftl (Z.land on 1) bit) in
       s ← lift (wrn s byte [Z.land byteval 0xff]);
       put k (OStr s);;
       keyModified k;;
       notifyKeyspaceEvent (str "setbit") k;;
       add_dirty 1
     else mret tt);;
    addReply (RInt (if negb (bitval =? 0) then 1 else 0)).

Definition getbitCommand (argv : list (list Z)) : M unit :=
  k ← arg argv 1;
  a2 ← arg argv 2;
  bitoffset ← getBitOffsetFromArgument a2 false 0;
  kv ← lookupKey k;
  match kv with
  | None => addReply (RInt 0)
  | Some o =>
    checkType (Some o);;
    let byte := Z.shiftr bitoffset 3 in
    let bit := 7 - Z.land bitoffset 7 in
    s ← (match o with OInt v => lift (int_string 32 v) | OStr s => mret s | OOther => stuck end);
    bitval ← (if byte <? zlen s then b ← lift (rd s byte); mret (Z.land b (Z.shiftl 1 bit))
               else mret 0);
    addReply (RInt (if negb (bitval =? 0) then 1 else 0))
  end.

(** ** BITCOUNT *)

(** The vector instructions of the processor; the addresses of strings and of small
    buffers on the stack matter only for their alignment. *)
Context (on : cpu) (addr stack : Z).

(** The range of a command that takes [start] and [end], clamped to the
    string, and the masks of the bits of its first and last byte that are
    outside it. *)
Definition clamp_range (isbit : bool) (totlen start end_ : Z) : Z * Z * Z * Z :=
  let start := if start <? 0 then totlen + start else start in
  let end_ := if end_ <? 0 then totlen + end_ else end_ in
  let start := if start <? 0 then 0 else start in
  let end_ := if end_ <? 0 then 0 else end_ in
  let end_ := if totlen <=? end_ then totlen - 1 else end_ in
  if isbit && (start <=? end_) then
    (Z.shiftr start 3, Z.shiftr end_ 3,
     Z.land (Z.lnot (Z.shiftl 1 (8 - Z.land start 7) - 1)) 0xff,
     Z.shiftl 1 (7 - Z.land end_ 7) - 1)
  else (start, end_, 0, 0).

Definition parse_unit (o : list Z) : M bool :=
  if strcasecmp_eq o (str "bit") then mret true
  else if strcasecmp_eq o (str "byte") then mret false
  else fail err_syntax.

Definition bitcount_range (argv : list (list Z)) (k : key)
    : M (option obj * list Z * (Z * Z * Z * Z)) :=
  let argc := zlen argv in
  if (argc =? 4) || (argc =? 5) then
    a2 ← arg argv 2; start ← getLongLongFromObjectOrReply a2 None;
    a3 ← arg argv 3; end_ ← getLongLongFromObjectOrReply a3 None;
    isbit ← (if argc =? 5 then a4 ← arg argv 4; parse_unit a4 else mret false);
    o ← lookupKey k;
    checkType o;;
    p ← getObjectReadOnlyString o;
    let totlen := zlen p in
    if negb (totlen <=? Z.shiftr Numbers.LLONG_MAX 3) then stuck
    else if (start <? 0) && (end_ <? 0) && (end_ <? start) then
      addReply (RInt 0);; stop
    else
      let totlen := if isbit : bool then Z.shiftl totlen 3 else totlen in
      mret (o, p, clamp_range isbit totlen start end_)
  else if argc =? 2 then
    o ← lookupKey k;
    checkType o;;
    p ← getObjectReadOnlyString o;
    mret (o, p, (0, zlen p - 1, 0, 0))
  else fail err_syntax.

Definition bitcount_reply (o : option obj) (p : list Z) (range : Z * Z * Z * Z) : M unit :=
  let '(start, end_, first_byte_neg_mask, last_byte_neg_mask) := range in
  match o with
  | None => addReply (RInt 0)
  | Some _ =>
    if end_ <? start then addReply (RInt 0)
    else
      let bytes := end_ - start + 1 in
      count ← lift (redisPopcountAuto on addr p start bytes);
      count ← (if negb (first_byte_neg_mask =? 0) || negb (last_byte_neg_mask =? 0) then
                 f ← (if negb (first_byte_neg_mask =? 0)
                      then b ← lift (rd p start); mret (Z.land b first_byte_neg_mask) else mret 0);
                 l ← (if negb (last_byte_neg_mask =? 0)
                      then b ← lift (rd p end_); mret (Z.land b last_byte_neg_mask) else mret 0);
                 n ← lift (redisPopcountAuto on stack [f; l] 0 2);
                 mret (count - n)
               else mret count);
      addReply (RInt count)
  end.

Definition bitcountCommand (argv : list (list Z)) : M unit :=
  k ← arg argv 1;
  '(o, p, range) ← bitcount_range argv k;
  bitcount_reply o p range.

(** ** BITPOS *)

Definition bitpos_range (argv : list (list Z)) (k : key)
    : M (option obj * list Z * (Z * Z * Z * Z) * bool) :=
  let argc := zlen argv in
  if (argc =? 4) || (argc =? 5) || (argc =? 6) then
    a3 ← arg argv 3; start ← getLongLongFromObjectOrReply a3 None;
    isbit ← (if argc =? 6 then a5 ← arg argv 5; parse_unit a5 else mret false);
    end_ ← (if 5 <=? argc then
              a4 ← arg argv 4; e ← getLongLongFromObjectOrReply a4 None; mret (Some e)
            else mret None);
    o ← lookupKey k;
    checkType o;;
    p ← getObjectReadOnlyString o;
    let totlen := zlen p in
    if negb (totlen <=? Z.shiftr Numbers.LLONG_MAX 3) then stuck
    else
      let e := match end_ with
               | Some e => e
               | None => if isbit : bool then Z.shiftl totlen 3 + 7 else totlen - 1
               end in
      let totlen := if isbit : bool then Z.shiftl totlen 3 else totlen in
      mret (o, p, clamp_range isbit totlen start e, bool_decide (is_Some end_))
  else if argc =? 3 then
    o ← lookupKey k;
    checkType o;;
    p ← getObjectReadOnlyString o;
    mret (o, p, (0, zlen p - 1, 0, 0), false)
  else fail err_syntax.

(** [tmpchar]: the bits under [mask] cannot match. *)
Definition mask_out (bit c mask : Z) : Z :=
  if negb (bit =? 0) then Z.land c (Z.land (Z.lnot mask) 0xff) else Z.lor c mask.

(** The bytes after the first one and the last byte, of which only some bits
    are in the range. *)
Definition bitpos_rest (p : list Z) (bit start bytes end_ last_byte_neg_mask : Z)
    : option (Z * Z * Z) :=
  let curbytes := bytes - (if negb (last_byte_neg_mask =? 0) then 1 else 0) in
  second ← (if 0 <? curbytes then
              pos ← redisBitpos addr p start curbytes bit;
              if (bytes =? curbytes) || (negb (pos =? -1) && negb (pos =? Z.shiftl curbytes 3))
              then Some (inl (pos, start, bytes))
              else Some (inr (start + curbytes, bytes - curbytes))
            else Some (inr (start, bytes)));
  match second with
  | inl r => Some r
  | inr (start, bytes) =>
    c ← rd p end_;
    pos ← redisBitpos stack [mask_out bit c last_byte_neg_mask] 0 1 bit;
    Some (pos, start, bytes)
  end.

(** The search of a non-empty range: [pos], with [start] and [bytes] as they
    are at the label [result]. *)
Definition bitpos_search (p : list Z) (bit start end_ first_byte_neg_mask last_byte_neg_mask : Z)
    : option (Z * Z * Z) :=
  let bytes := end_ - start + 1 in
  if negb (first_byte_neg_mask =? 0) then
    c ← rd p start;
    let tmpchar := mask_out bit c first_byte_neg_mask in
    let tmpchar := if negb (last_byte_neg_mask =? 0) && (bytes =? 1)
                   then mask_out bit tmpchar last_byte_neg_mask else tmpchar in
    pos ← redisBitpos stack [tmpchar] 0 1 bit;
    if (bytes =? 1) || (negb (pos =? -1) && negb (pos =? 8)) then Some (pos, start, bytes)
    else bitpos_rest p bit (start + 1) (bytes - 1) end_ last_byte_neg_mask
  else bitpos_rest p bit start bytes end_ last_byte_neg_mask.

Definition bitpos_reply (bit : Z) (o : option obj) (p : list Z) (range : Z * Z * Z * Z)
    (end_given : bool) : M unit :=
  let '(start, end_, first_byte_neg_mask, last_byte_neg_mask) := range in
  match o with
  | None => addReply (RInt (if negb (bit =? 0) then -1 else 0))
  | Some _ =>
    if end_ <? start then addReply (RInt (-1))
    else
      '(pos, start, bytes) ←
        lift (bitpos_search p bit start end_ first_byte_neg_mask last_byte_neg_mask);
      if end_given && (bit =? 0) && (pos =? Z.shiftl bytes 3) then addReply (RInt (-1))
      else addReply (RInt (if negb (pos =? -1) then pos + Z.shiftl start 3 else pos))
  end.

Definition bitposCommand (argv : list (list Z)) : M unit :=
  k ← arg argv 1;
  a2 ← arg argv 2; bit ← getLongFromObjectOrReply a2 None;
  if negb (bit =? 0) && negb (bit =? 1) then fail err_bit01
  else
    '(o, p, range, end_given) ← bitpos_range argv k;
    bitpos_reply bit o p range end_given.

(** ** BITFIELD *)

Inductive opcode := BITFIELDOP_GET | BITFIELDOP_SET | BITFIELDOP_INCRBY.

Record bitfieldOp := BitfieldOp {
  bf_offset : Z; bf_i64 : Z; bf_opcode : opcode; bf_owtype : owtype; bf_bits : Z; bf_sign : bool
}.

Definition is_get (o : opcode) : bool := match o with BITFIELDOP_GET => true | _ => false end.

Definition parse_owtype (o : list Z) : M owtype :=
  if strcasecmp_eq o (str "wrap") then mret BFOVERFLOW_WRAP
  else if strcasecmp_eq o (str "sat") then mret BFOVERFLOW_SAT
  else if strcasecmp_eq o (str "fail") then mret BFOVERFLOW_FAIL
  else fail err_overflow.

(** [for (j = 2; j < c->argc; j++)]: the operations, whether they only read,
    and the highest bit written. *)
Fixpoint bitfield_parse (fuel : nat) (argv : list (list Z)) (j : Z) (ow : owtype)
    (ops : list bitfieldOp) (readonly : bool) (highest : Z) : M (list bitfieldOp * bool * Z) :=
  let argc := zlen argv in
  if argc <=? j then mret (ops, readonly, highest)
  else
    match fuel with
    | O => stuck
    | S fuel =>
      let remargs := argc - j - 1 in
      subcmd ← arg argv j;
      sub ← (if strcasecmp_eq subcmd (str "get") && (2 <=? remargs)
             then mret (Some BITFIELDOP_GET)
             else if strcasecmp_eq subcmd (str "set") && (3 <=? remargs)
             then mret (Some BITFIELDOP_SET)
             else if strcasecmp_eq subcmd (str "incrby") && (3 <=? remargs)
             then mret (Some BITFIELDOP_INCRBY)
             else if strcasecmp_eq subcmd (str "overflow") && (1 <=? remargs) then mret None
             else fail err_syntax);
      match sub with
      | None =>
        owtypename ← arg argv (j + 1);
        ow ← parse_owtype owtypename;
        bitfield_parse fuel argv (j + 2) ow ops readonly highest
      | Some opcode =>
        a1 ← arg argv (j + 1);
        '(sign, bits) ← getBitfieldTypeFromArgument a1;
        a2 ← arg argv (j + 2);
        bitoffset ← getBitOffsetFromArgument a2 true bits;
        '(readonly, highest, i64) ←
          (if negb (is_get opcode) then
             let last := uwrap 64 (bitoffset + bits - 1) in
             a3 ← arg argv (j + 3);
             i64 ← getLongLongFromObjectOrReply a3 None;
             mret (false, if highest <? last then last else highest, i64)
           else mret (readonly, highest, 0));
        bitfield_parse fuel argv (j + (3 - Numbers.b2z (is_get opcode)) + 1) ow
          (ops ++ [BitfieldOp bitoffset i64 opcode ow bits sign]) readonly highest
      end
    end.

(** The signed and the unsigned branch of SET and INCRBY on the string [p]:
    the reply, [None] for a null, the new string, and whether the value
    changed.  [wrapped] is what the variable holds before the check. *)
Definition bitfield_write_signed (p : list Z) (op : bitfieldOp) (wrapped : Z)
    : option (option Z * list Z * bool) :=
  oldval ← getSignedBitfield p (bf_offset op) (bf_bits op);
  let '(newval, overflow, retval) :=
    match bf_opcode op with
    | BITFIELDOP_INCRBY =>
      let '(overflow, wrapped) :=
        checkSignedBitfieldOverflow oldval (bf_i64 op) (bf_bits op) (bf_owtype op) wrapped in
      let newval := if negb (overflow =? 0) then wrapped else oldval + bf_i64 op in
      (newval, overflow, newval)
    | _ =>
      let '(overflow, wrapped) :=
        checkSignedBitfieldOverflow (bf_i64 op) 0 (bf_bits op) (bf_owtype op) wrapped in
      (if negb (overflow =? 0) then wrapped else bf_i64 op, overflow, oldval)
    end in
  match bf_owtype op with
  | BFOVERFLOW_FAIL =>
    if negb (overflow =? 0) then Some (None, p, false)
    else
      p ← setSignedBitfield p (bf_offset op) (bf_bits op) newval;
      Some (Some retval, p, negb (oldval =? newval))
  | _ =>
    p ← setSignedBitfield p (bf_offset op) (bf_bits op) newval;
    Some (Some retval, p, negb (oldval =? newval))
  end.

Definition bitfield_write_unsigned (p : list Z) (op : bitfieldOp)
    : option (option Z * list Z * bool) :=
  oldval ← getUnsignedBitfield p (bf_offset op) (bf_bits op);
  let '(newval, overflow, retval) :=
    match bf_opcode op with
    | BITFIELDOP_INCRBY =>
      let newval := uwrap 64 (oldval + bf_i64 op) in
      let '(overflow, wrapped) :=
        checkUnsignedBitfieldOverflow oldval (bf_i64 op) (bf_bits op) (bf_owtype op) 0 in
      let newval := if negb (overflow =? 0) then wrapped else newval in
      (newval, overflow, newval)
    | _ =>
      let newval := uwrap 64 (bf_i64 op) in
      let '(overflow, wrapped) :=
        checkUnsignedBitfieldOverflow newval 0 (bf_bits op) (bf_owtype op) 0 in
      (if negb (overflow =? 0) then wrapped else newval, overflow, oldval)
    end in
  match bf_owtype op with
  | BFOVERFLOW_FAIL =>
    if negb (overflow =? 0) then Some (None, p, false)
    else
      p ← setUnsignedBitfield p (bf_offset op) (bf_bits op) newval;
      Some (Some (swrap 64 retval), p, negb (oldval =? newval))
  | _ =>
    p ← setUnsignedBitfield p (bf_offset op) (bf_bits op) newval;
    Some (Some (swrap 64 retval), p, negb (oldval =? newval))
  end.

(** GET works on a copy of up to 9 bytes, padded with zeros. *)
Definition bitfield_get (src : list Z) (op : bitfieldOp) : option Z :=
  let byte := Z.shiftr (bf_offset op) 3 in
  let chunk := take 9 (drop (Z.to_nat byte) src) in
  let buf := chunk ++ replicate (9 - length chunk) 0 in
  if bf_sign op then getSignedBitfield buf (bf_offset op - byte * 8) (bf_bits op)
  else
    val ← getUnsignedBitfield buf (bf_offset op - byte * 8) (bf_bits op);
    Some (swrap 64 val).

(** [for (j = 0; j < numops; j++)]: the number of changes.  [found] tells
    whether [o] is not [NULL]; [wrapped] is the indeterminate variable of the
    signed branch. *)
Fixpoint bitfield_exec (k : key) (found : bool) (strGrowSize wrapped : Z) (ops : list bitfieldOp)
    (changes : Z) : M Z :=
  match ops with
  | [] => mret changes
  | op :: ops =>
    if is_get (bf_opcode op) then
      o ← (if found then lookupKey k else mret None);
      src ← getObjectReadOnlyString o;
      val ← lift (bitfield_get src op);
      addReply (RInt val);;
      bitfield_exec k found strGrowSize wrapped ops changes
    else
      p ← contents k;
      '(r, p, changed) ← lift (if bf_sign op then bitfield_write_signed p op wrapped
                               else bitfield_write_unsigned p op);
      match r with
      | Some v =>
        addReply (RInt v);;
        put k (OStr p);;
        bitfield_exec k found strGrowSize wrapped ops
          (if negb (strGrowSize =? 0) || changed then changes + 1 else changes)
      | None =>
        addReply RNull;;
        bitfield_exec k found strGrowSize wrapped ops changes
      end
  end.

Definition bitfieldGeneric (wrapped : Z) (argv : list (list Z)) (flag_readonly : bool) : M unit :=
  k ← arg argv 1;
  '(ops, readonly, highest_write_offset) ←
    bitfield_parse (length argv) argv 2 BFOVERFLOW_WRAP [] true 0;
  '(found, strGrowSize) ←
    (if readonly : bool then
       o ← lookupKey k;
       checkType o;;
       mret (bool_decide (is_Some o), 0)
     else if flag_readonly then fail err_readonly
     else
       '(_, strGrowSize) ← lookupStringForBitCommand k highest_write_offset;
       mret (true, strGrowSize));
  addReply (RArrayLen (zlen ops));;
  changes ← bitfield_exec k found strGrowSize wrapped ops 0;
  if negb (changes =? 0) then
    keyModified k;;
    notifyKeyspaceEvent (str "setbit") k;;
    add_dirty changes
  else mret tt.

Definition bitfieldCommand (wrapped : Z) (argv : list (list Z)) : M unit :=
  bitfieldGeneric wrapped argv false.
Definition bitfieldroCommand (wrapped : Z) (argv : list (list Z)) : M unit :=
  bitfieldGeneric wrapped argv true.
End Server.

(** ** Running commands *)

Section Run.
Context {A B C : Type}.

Lemma bind_ret (a : A) (f : A -> M B) s : (mret a ≫= f) s = f a s.
Proof. done. Qed.
Lemma bind_lift (a : A) (f : A -> M B) s : (lift (Some a) ≫= f) s = f a s.
Proof. done. Qed.
Lemma bind_reads (g : st -> A) (f : A -> M B) s : (reads g ≫= f) s = f (g s) s.
Proof. done. Qed.
Lemma bind_updates g (f : unit -> M B) s : (updates g ≫= f) s = f tt (g s).
Proof. done. Qed.
Lemma bind_stop (f : A -> M B) s : (stop ≫= f) s = Some (None, s).
Proof. done. Qed.
Lemma bind_assoc (m : M A) (f : A -> M B) (g : B -> M C) s :
  ((m ≫= f) ≫= g) s = (m ≫= fun x => f x ≫= g) s.
Proof. unfold mbind, M_bind. by destruct (m s) as [[[a|] s']|]. Qed.
Lemma bind_run (m : M A) (f : A -> M B) s a s' :
  m s = Some (Some a, s') -> (m ≫= f) s = f a s'.
Proof. unfold mbind, M_bind. by intros ->. Qed.
Lemma bind_early (m : M A) (f : A -> M B) s s' :
  m s = Some (None, s') -> (m ≫= f) s = Some (None, s').
Proof. unfold mbind, M_bind. by intros ->. Qed.
End Run.

Create Rewrite HintDb bitcmd.
#[export] Hint Rewrite @bind_ret @bind_lift @bind_reads @bind_updates @bind_stop @bind_assoc : bitcmd.

(** Runs the steps whose outcome is known. *)
Ltac mrun :=
  unfold addReply, keyModified, notifyKeyspaceEvent, add_dirty, put, lookupKey;
  autorewrite with bitcmd; cbn [db dirty modified events out].

Lemma bind_arg {B} argv n a (f : list Z -> M B) s :
  (if 0 <=? n then argv !! Z.to_nat n else None) = Some a -> (arg argv n ≫= f) s = f a s.
Proof. intros H. unfold arg. by rewrite H. Qed.

(** Fetches an argument of a command line of known length. *)
Ltac marg := erewrite bind_arg by reflexivity.

(** Evaluates the tests on the number of arguments. *)
Ltac margc :=
  cbn [length];
  repeat match goal with
  | |- context [Z.of_nat ?n =? ?m] =>
    let v := eval vm_compute in (Z.of_nat n =? m) in change (Z.of_nat n =? m) with v
  | |- context [?m <=? Z.of_nat ?n] =>
    let v := eval vm_compute in (m <=? Z.of_nat n) in change (m <=? Z.of_nat n) with v
  end; cbn [orb andb].

(** What a key holds, as the commands see it. *)
Definition stored (o : option obj) : option (list Z) :=
  match o with
  | None => Some []
  | Some (OStr s) => Some s
  | Some (OInt v) => Some (Numbers.dec v)
  | Some OOther => None
  end.

(** Strings are shorter than [2^58] bytes; integer objects hold a [long]. *)
Definition obj_ok (o : obj) : Prop :=
  match o with
  | OStr s => bytes_ok s /\ zlen s < 2 ^ 58
  | OInt v => in_s 64 v
  | OOther => True
  end.
Definition db_ok (d : gmap key obj) : Prop := map_Forall (fun _ o => obj_ok o) d.

Lemma int_string_spec n v : in_s 64 v -> (21 <= n)%nat -> int_string n v = Some (Numbers.dec v).
Proof.
  intros Hv Hn. unfold int_string. pose proof (Numbers.dec_length v Hv).
  destruct (Numbers.ll2string_ok (replicate n 0) v) as (rest & -> & _); [done|rewrite length_replicate; lia|].
  mred. rewrite Nat2Z.id. by rewrite take_app_length.
Qed.

Lemma dec_bytes v : in_s 64 v -> bytes_ok (Numbers.dec v).
Proof.
  intros Hv. unfold in_s in Hv. change (64 - 1) with 63 in Hv.
  assert (forall u, 0 <= u < 2 ^ 64 -> bytes_ok (Numbers.udec u)) as Hu.
  { intros u Hu. destruct (decide (u = 0)) as [-> |]; [repeat constructor; lia|].
    destruct (Numbers.udec_digits u) as (d & ds & -> & Hd & Hds & _); [lia|].
    constructor; [unfold byte_ok; lia|]. eapply Forall_impl; [exact Hds|].
    intros c Hc. unfold byte_ok. cbn in Hc. lia. }
  unfold Numbers.dec. destruct (Z.ltb_spec v 0); [constructor; [unfold byte_ok; lia|]|]; apply Hu; lia.
Qed.

(** Arguments that are integers. *)
Lemma getLongLong_ok v msg : in_s 64 v -> getLongLongFromObjectOrReply (Numbers.dec v) msg = mret v.
Proof.
  intros Hv. unfold getLongLongFromObjectOrReply.
  by rewrite (proj2 (Numbers.string2ll_iff (Numbers.dec v) v)).
Qed.

Section Args.
Context (obey : bool) (proto_max_bulk_len : Z).

Definition offset_ok (off : Z) : Prop :=
  0 <= off < 2 ^ 60 /\ (obey = true \/ off / 8 < proto_max_bulk_len).

Lemma getBitOffset_ok off :
  offset_ok off ->
  getBitOffsetFromArgument obey proto_max_bulk_len (Numbers.dec off) false 0 = mret off.
Proof.
  intros [Ho Hm]. unfold getBitOffsetFromArgument. rewrite andb_false_r. cbn [andb]. rewrite drop_0.
  rewrite (proj2 (Numbers.string2ll_iff (Numbers.dec off) off)) by (split; [done|unfold in_s; lia]).
  rewrite Z.shiftr_div_pow2 by lia. change (2 ^ 3) with 8.
  replace (_ || _) with false; [done|]. destruct obey, Hm; lia.
Qed.
End Args.

(** A string extended with zero bytes up to [n] bytes. *)
Definition grown (x : list Z) (n : Z) : list Z := x ++ replicate (Z.to_nat n - length x) 0.

Lemma grown_length x n : 0 <= n -> zlen (grown x n) = Z.max (zlen x) n.
Proof. intros. unfold grown. rewrite length_app, length_replicate. lia. Qed.

Lemma zeros_ok n : bytes_ok (replicate n 0).
Proof. apply Forall_replicate. unfold byte_ok. lia. Qed.

Lemma grown_ok x n : bytes_ok x -> bytes_ok (grown x n).
Proof. intros. apply Forall_app_2; [done|]. apply zeros_ok. Qed.

Lemma bits_of_zeros n : bits_of (replicate n 0) = replicate (8 * n) false.
Proof.
  induction n as [|n IH]; [done|]. cbn [replicate]. rewrite bits_of_cons, IH.
  replace (8 * S n)%nat with (8 + 8 * n)%nat by lia. done.
Qed.

Lemma grown_bits x n :
  bits_of (grown x n) = bits_of x ++ replicate (8 * (Z.to_nat n - length x)) false.
Proof. unfold grown. by rewrite bits_of_app, bits_of_zeros. Qed.

(** The bit at a position, zero after the end of the string. *)
Definition bit_at (x : list Z) (i : Z) : bool := default false (bits_of x !! Z.to_nat i).

Lemma bit_at_grown x n i : 0 <= i -> bit_at (grown x n) i = bit_at x i.
Proof.
  intros Hi. unfold bit_at. rewrite grown_bits.
  destruct (Nat.lt_ge_cases (Z.to_nat i) (length (bits_of x))).
  - by rewrite lookup_app_l.
  - rewrite lookup_app_r, (lookup_ge_None_2 (bits_of x)) by lia.
    by destruct (replicate _ false !! _) as [b|] eqn:He; [apply lookup_replicate in He as [-> _]|].
Qed.

Lemma bit_at_lookup x i :
  0 <= i < 8 * zlen x -> bits_of x !! Z.to_nat i = Some (bit_at x i).
Proof.
  intros Hi. unfold bit_at. destruct (lookup_lt_is_Some_2 (bits_of x) (Z.to_nat i)) as [b ->]; [|done].
  rewrite bits_of_length. lia.
Qed.

Lemma stored_ok d k x :
  db_ok d -> stored (d !! k) = Some x -> bytes_ok x /\ zlen x < 2 ^ 58.
Proof.
  intros Hd Hx. destruct (d !! k) as [o|] eqn:Ho; cbn in Hx.
  2: { simplify_eq. split; [constructor|]. cbn. lia. }
  apply (map_Forall_lookup_1 _ _ _ _ Hd) in Ho. destruct o; simplify_eq; cbn in Ho; [done| ].
  split; [by apply dec_bytes|]. pose proof (Numbers.dec_length v Ho). lia.
Qed.

Lemma lookupString_spec k maxbit s x :
  db_ok (db s) -> stored (db s !! k) = Some x -> 0 <= maxbit ->
  let x1 := grown x (Z.shiftr maxbit 3 + 1) in
  lookupStringForBitCommand k maxbit s
  = Some (Some (zlen x, zlen x1 - zlen x),
      St (<[k := OStr x1]> (db s)) (dirty s) (modified s)
         (events s ++ (if db s !! k is Some _ then [] else [(str "new", k)])) (out s)).
Proof.
  intros Hd Hx Hm x1. unfold lookupStringForBitCommand. mrun.
  assert (0 <= Z.shiftr maxbit 3) as Hs by by apply Z.shiftr_nonneg.
  destruct (db s !! k) as [o|] eqn:Ho.
  - pose proof (map_Forall_lookup_1 _ _ _ _ Hd Ho) as Hok. rewrite app_nil_r.
    destruct o as [y|v|]; cbn in Hx; simplify_eq; [done|].
    by rewrite int_string_spec by (done || lia).
  - cbn in Hx. simplify_eq. unfold x1, grown. rewrite app_nil_l. cbn [length].
    by rewrite Nat.sub_0_r, length_replicate, Z2Nat.id, Z.sub_0_r by lia.
Qed.

(** ** SETBIT and GETBIT *)

Lemma land_bit b i : 0 <= i < 8 -> negb (Z.land b (Z.shiftl 1 (7 - i)) =? 0) = Z.testbit b (7 - i).
Proof. intros. by rewrite Z.shiftl_1_l, Z.land_comm, land_pow2_testbit, negb_involutive by lia. Qed.

Lemma land7_range off : 0 <= Z.land off 7 < 8.
Proof. rewrite (land_ones_mod _ 3 7) by lia. apply Z.mod_pos_bound. lia. Qed.

(** The value read for the reply of GETBIT. *)
Lemma getbit_byte {B} x off (f : Z -> M B) (g : bool -> M B) s :
  0 <= off -> (forall v, f v s = g (negb (v =? 0)) s) ->
  ((if off / 8 <? zlen x
    then b ← lift (rd x (off / 8)); mret (Z.land b (Z.shiftl 1 (7 - Z.land off 7)))
    else mret 0) ≫= f) s
  = g (bit_at x off) s.
Proof.
  intros Ho Hf. assert (Z.shiftr off 3 = off / 8) as Hsh by by rewrite Z.shiftr_div_pow2 by lia.
  destruct (Z.ltb_spec (off / 8) (zlen x)).
  - assert (0 <= off < 8 * zlen x) as Hin by dlia.
    destruct (rd_bit x off Hin) as (b & Hb & Hbit). rewrite Hsh in Hb. rewrite Hb. mrun.
    rewrite Hf, land_bit by apply land7_range. rewrite bit_at_lookup in Hbit by done. congruence.
  - mrun. rewrite Hf. unfold bit_at. rewrite lookup_ge_None_2; [done|]. rewrite bits_of_length. dlia.
Qed.

Lemma getbit_reply x off s :
  0 <= off ->
  ((if off / 8 <? zlen x
    then b ← lift (rd x (off / 8)); mret (Z.land b (Z.shiftl 1 (7 - Z.land off 7)))
    else mret 0) ≫= fun v => addReply (RInt (if negb (v =? 0) then 1 else 0))) s
  = addReply (RInt (Numbers.b2z (bit_at x off))) s.
Proof. intros Ho. by apply (getbit_byte x off _ (fun b => addReply (RInt (Numbers.b2z b)))). Qed.

Lemma setbit_bit_at x x' off i (on : bool) :
  0 <= off -> bits_of x' = <[Z.to_nat off := on]> (bits_of (grown x (off / 8 + 1))) -> 0 <= i ->
  bit_at x' i = if i =? off then on else bit_at x i.
Proof.
  intros Ho Hb Hi. rewrite <- (bit_at_grown x (off / 8 + 1)) by done. unfold bit_at. rewrite Hb.
  pose proof (grown_length x (off / 8 + 1) ltac:(dlia)) as Hgl.
  destruct (Z.eqb_spec i off) as [-> |Hne].
  - rewrite list_lookup_insert_eq; [done|]. rewrite bits_of_length. dlia.
  - by rewrite list_lookup_insert_ne by lia.
Qed.

Section BitCommands.
Context (obey : bool) (proto_max_bulk_len : Z).

(** What SETBIT does once its arguments are parsed: [x1] is the string made
    long enough, [b] its byte. *)
Lemma setbit_run c k off (on : bool) s x :
  db_ok (db s) -> stored (db s !! k) = Some x -> offset_ok obey proto_max_bulk_len off ->
  let changed := (zlen x <? off / 8 + 1) || negb (Bool.eqb (bit_at x off) on) in
  exists x', bytes_ok x' /\ zlen x' = Z.max (zlen x) (off / 8 + 1) /\
    bits_of x' = <[Z.to_nat off := on]> (bits_of (grown x (off / 8 + 1))) /\
    setbitCommand obey proto_max_bulk_len
      [c; k; Numbers.dec off; Numbers.dec (Numbers.b2z on)] s
    = Some (Some tt, St (<[k := OStr x']> (db s)) (dirty s + Numbers.b2z changed)
        (modified s ++ (if changed then [k] else []))
        (events s ++ (if db s !! k is Some _ then [] else [(str "new", k)])
                  ++ (if changed then [(str "setbit", k)] else []))
        (out s ++ [RInt (Numbers.b2z (bit_at x off))])).
Proof.
  intros Hd Hx Hoff changed. destruct (stored_ok _ _ _ Hd Hx) as [Hxok Hxl]. pose proof Hoff as [Hr _].
  unfold setbitCommand. do 2 marg. rewrite getBitOffset_ok by done. mrun. marg.
  unfold getLongFromObjectOrReply. rewrite getLongLong_ok by (destruct on; unfold in_s; cbn; lia). mrun.
  replace (negb (Z.land (Numbers.b2z on) (Z.lnot 1) =? 0)) with false by by destruct on.
  rewrite (bind_run _ _ _ _ _ (lookupString_spec k off s x Hd Hx ltac:(lia))).
  assert (Z.shiftr off 3 = off / 8) as Hsh by by rewrite Z.shiftr_div_pow2 by lia.
  assert (0 <= off / 8) by (apply Z.div_pos; lia).
  pose proof (grown_length x (off / 8 + 1) ltac:(lia)) as Hgl.
  pose proof (grown_ok x (off / 8 + 1) Hxok) as Hgok.
  rewrite Hsh in *. set (x1 := grown x (off / 8 + 1)) in *. mrun.
  assert (0 <= off < 8 * zlen x1) as Hin by dlia.
  destruct (write_bit x1 off on Hgok Hin) as (b & x' & Hrd & Hb & Hw & Hok' & Hl' & Hbits').
  rewrite Hsh in *.
  assert (contents k (St (<[k:=OStr x1]> (db s)) (dirty s) (modified s)
    (events s ++ (if db s !! k is Some _ then [] else [(str "new", k)])) (out s)) =
    Some (Some x1, St (<[k:=OStr x1]> (db s)) (dirty s) (modified s)
    (events s ++ (if db s !! k is Some _ then [] else [(str "new", k)])) (out s))) as Hcont.
  { unfold contents. cbn [db]. by rewrite lookup_insert_eq. }
  rewrite (bind_run _ _ _ _ _ Hcont), Hrd. mrun.
  pose proof (land7_range off) as H7. rewrite land_bit by done.
  replace (Z.land (Numbers.b2z on) 1) with (Numbers.b2z on) by by destruct on.
  fold (set_bit_byte b (7 - Z.land off 7) (Numbers.b2z on)). rewrite Hw.
  assert (Z.testbit b (7 - Z.land off 7) = bit_at x off) as Hbt.
  { rewrite bit_at_lookup in Hb by done. rewrite <- (bit_at_grown x (off / 8 + 1)) by lia.
    fold x1. congruence. }
  rewrite Hbt. replace (_ || _) with changed.
  2: { unfold changed. f_equal; [lia|]. by destruct (bit_at x off), on. }
  destruct changed eqn:Hch.
  - mrun. exists x'. split_and!; [done|lia|done|]. unfold updates. cbn.
    rewrite insert_insert_eq, <- !app_assoc. by destruct (bit_at x off).
  - mrun. exists x1. split_and!; [done|lia| |].
    + symmetry. apply list_insert_id. unfold changed in Hch. apply orb_false_iff in Hch as [_ Hch].
      rewrite Hb, Hbt. apply negb_false_iff, Bool.eqb_prop in Hch. by rewrite Hch.
    + unfold updates. cbn. rewrite Z.add_0_r, !app_nil_r. by destruct (bit_at x off).
Qed.

(** C25: SETBIT on a missing key or a string, for an offset within the limit:
    it replies the old bit; the string is extended with zeros as far as needed
    and exactly that bit takes the new value; the change is propagated
    ([dirty], [keyModified], the event) exactly when the string has grown or
    the bit has changed.  The other keys are untouched. *)
Theorem setbit_correct c k off (on : bool) s x :
  db_ok (db s) -> stored (db s !! k) = Some x -> offset_ok obey proto_max_bulk_len off ->
  let changed := (zlen x <? off / 8 + 1) || negb (Bool.eqb (bit_at x off) on) in
  exists x' s', setbitCommand obey proto_max_bulk_len
      [c; k; Numbers.dec off; Numbers.dec (Numbers.b2z on)] s = Some (Some tt, s') /\
    out s' = out s ++ [RInt (Numbers.b2z (bit_at x off))] /\
    db s' = <[k := OStr x']> (db s) /\ zlen x' = Z.max (zlen x) (off / 8 + 1) /\
    (forall i, 0 <= i -> bit_at x' i = if i =? off then on else bit_at x i) /\
    dirty s' = dirty s + Numbers.b2z changed /\
    modified s' = modified s ++ (if changed then [k] else []).
Proof.
  intros Hd Hx Hoff changed. pose proof Hoff as [Hr _].
  destruct (setbit_run c k off on s x Hd Hx Hoff) as (x' & Hok & Hl & Hb & Hrun).
  exists x'. eexists. split; [exact Hrun|]. cbn [out db dirty modified]. split_and!; try done.
  intros i Hi. apply setbit_bit_at; (done || lia).
Qed.

Lemma getbit_run c k off s x :
  db_ok (db s) -> stored (db s !! k) = Some x -> offset_ok obey proto_max_bulk_len off ->
  getbitCommand obey proto_max_bulk_len [c; k; Numbers.dec off] s
  = Some (Some tt, St (db s) (dirty s) (modified s) (events s)
      (out s ++ [RInt (Numbers.b2z (bit_at x off))])).
Proof.
  intros Hd Hx Hoff. destruct (stored_ok _ _ _ Hd Hx) as [Hxok Hxl]. pose proof Hoff as [Hr _].
  unfold getbitCommand. do 2 marg. rewrite getBitOffset_ok by done. mrun.
  destruct (db s !! k) as [o|] eqn:Ho.
  2: { cbn in Hx. simplify_eq. replace (bit_at [] off) with false; [done|]. unfold bit_at. by destruct (Z.to_nat off). }
  destruct o as [y|v|]; cbn in Hx; simplify_eq; unfold checkType; mrun.
  - rewrite Z.shiftr_div_pow2 by lia. change (2 ^ 3) with 8. apply (getbit_reply x off s); lia.
  - pose proof (map_Forall_lookup_1 _ _ _ _ Hd Ho) as Hv. cbn in Hv.
    rewrite int_string_spec by (done || lia). mrun.
    rewrite Z.shiftr_div_pow2 by lia. change (2 ^ 3) with 8. apply (getbit_reply (Numbers.dec v) off s); lia.
Qed.

(** GETBIT after SETBIT replies the bit that was set at that offset, and
    at any other offset the bit it would have replied before. *)
Theorem setbit_getbit c c' k off off' (on : bool) s :
  db_ok (db s) -> is_Some (stored (db s !! k)) ->
  offset_ok obey proto_max_bulk_len off -> offset_ok obey proto_max_bulk_len off' ->
  exists old s1 s2 s3,
    getbitCommand obey proto_max_bulk_len [c'; k; Numbers.dec off'] s = Some (Some tt, s1) /\
    out s1 = out s ++ [RInt old] /\
    setbitCommand obey proto_max_bulk_len
      [c; k; Numbers.dec off; Numbers.dec (Numbers.b2z on)] s = Some (Some tt, s2) /\
    getbitCommand obey proto_max_bulk_len [c'; k; Numbers.dec off'] s2 = Some (Some tt, s3) /\
    out s3 = out s2 ++ [RInt (if off' =? off then Numbers.b2z on else old)].
Proof.
  intros Hd [x Hx] Hoff Hoff'. destruct (stored_ok _ _ _ Hd Hx) as [_ Hxl].
  destruct (setbit_run c k off on s x Hd Hx Hoff) as (x' & Hok & Hl & Hb & Hrun).
  exists (Numbers.b2z (bit_at x off')). do 3 eexists.
  split; [by apply getbit_run|]. split; [done|]. split; [exact Hrun|].
  pose proof Hoff as [Hr _]. pose proof Hoff' as [Hr' _].
  split; [apply (getbit_run c' k off' _ x'); [| |done]|].
  - cbn [db]. apply map_Forall_insert_2; [|done]. split; [done|]. rewrite Hl. dlia.
  - cbn [db]. by rewrite lookup_insert_eq.
  - cbn [out]. do 3 f_equal. rewrite (setbit_bit_at x x' off off' on) by (done || lia).
    by destruct (off' =? off).
Qed.
End BitCommands.

Lemma setbit_correct_witness :
  exists x' s', setbitCommand false 512 [[]; [107]; Numbers.dec 9; Numbers.dec 1] (St ∅ 0 [] [] [])
    = Some (Some tt, s') /\ out s' = [RInt 0] /\ db s' = <[[107] := OStr x']> ∅ /\ zlen x' = 2 /\
    dirty s' = 1.
Proof.
  destruct (setbit_correct false 512 [] [107] 9 true (St ∅ 0 [] [] []) []) as (x' & s' & H1 & H2 & H3 & H4 & H5 & H6 & H7).
  - apply map_Forall_empty.
  - reflexivity.
  - split; [lia|right; reflexivity].
  - exists x', s'. split; [exact H1|]. split; [exact H2|]. split; [exact H3|]. split; [exact H4|exact H6].
Defined.

Lemma setbit_getbit_witness :
  exists old s1 s2 s3,
    getbitCommand false 512 [[]; [107]; Numbers.dec 2] (St {[ [107] := OInt 12 ]} 0 [] [] [])
      = Some (Some tt, s1) /\ out s1 = [RInt old] /\
    setbitCommand false 512 [[]; [107]; Numbers.dec 9; Numbers.dec 1] (St {[ [107] := OInt 12 ]} 0 [] [] [])
      = Some (Some tt, s2) /\
    getbitCommand false 512 [[]; [107]; Numbers.dec 2] s2 = Some (Some tt, s3) /\
    out s3 = out s2 ++ [RInt old].
Proof.
  apply (setbit_getbit false 512 [] [] [107] 9 2 true (St {[ [107] := OInt 12 ]} 0 [] [] [])).
  - apply map_Forall_singleton. unfold obj_ok, in_s. lia.
  - eexists. vm_compute. reflexivity.
  - split; [lia|right; reflexivity].
  - split; [lia|right; reflexivity].
Defined.

(** ** Slices of bits *)

Definition bslice (x : list Z) (i j : Z) : list bool :=
  take (Z.to_nat (j - i)) (drop (Z.to_nat i) (bits_of x)).

Lemma bslice_nil i j : bslice [] i j = [].
Proof. unfold bslice. change (bits_of []) with (@nil bool). by rewrite drop_nil, take_nil. Qed.

Lemma bslice_length x i j : 0 <= i <= j -> j <= 8 * zlen x -> zlen (bslice x i j) = j - i.
Proof. intros. unfold bslice. rewrite length_take, length_drop, bits_of_length. lia. Qed.

Lemma bslice_app x i j k : 0 <= i <= j -> j <= k -> bslice x i k = bslice x i j ++ bslice x j k.
Proof.
  intros. unfold bslice. replace (Z.to_nat (k - i)) with (Z.to_nat (j - i) + Z.to_nat (k - j))%nat by lia.
  rewrite <- take_take_drop, drop_drop. do 3 f_equal. lia.
Qed.

Lemma bits_of_take n x : bits_of (take n x) = take (8 * n) (bits_of x).
Proof.
  revert n. induction x as [|b x IH]; intros n; [by destruct n|].
  destruct n as [|n]; [done|]. rewrite firstn_cons, !bits_of_cons, IH.
  replace (8 * S n)%nat with (length (byte_bits b) + 8 * n)%nat by (simpl; lia).
  by rewrite take_app_add.
Qed.

Lemma bits_of_drop n x : bits_of (drop n x) = drop (8 * n) (bits_of x).
Proof.
  revert n. induction x as [|b x IH]; intros n; [by destruct n|].
  destruct n as [|n]; [done|]. rewrite skipn_cons, bits_of_cons, IH.
  replace (8 * S n)%nat with (length (byte_bits b) + 8 * n)%nat by (simpl; lia).
  by rewrite drop_app_add.
Qed.

Lemma bslice_bytes x i n :
  0 <= i -> 0 <= n ->
  bits_of (take (Z.to_nat n) (drop (Z.to_nat i) x)) = bslice x (8 * i) (8 * (i + n)).
Proof.
  intros. unfold bslice. rewrite bits_of_take, bits_of_drop. f_equal; [lia|]. f_equal. lia.
Qed.

Lemma bslice_byte x i c :
  rd x i = Some c -> 0 <= i -> bslice x (8 * i) (8 * i + 8) = byte_bits c.
Proof.
  intros Hc Hi. rewrite rd_lookup in Hc by done. replace (8 * i + 8) with (8 * (i + 1)) by lia.
  rewrite <- bslice_bytes by lia. rewrite (drop_S _ _ _ Hc). change (Z.to_nat 1) with 1%nat.
  cbn [firstn]. unfold bits_of. cbn [map concat]. apply app_nil_r.
Qed.

(** The two parts of a byte. *)
Lemma bslice_byte_parts x i c t :
  rd x i = Some c -> 0 <= i -> 0 <= t <= 8 ->
  bslice x (8 * i) (8 * i + t) = take (Z.to_nat t) (byte_bits c) /\
  bslice x (8 * i + t) (8 * i + 8) = drop (Z.to_nat t) (byte_bits c).
Proof.
  intros Hc Hi Hr. pose proof (bslice_byte x i c Hc Hi) as Hb.
  assert (i < zlen x). { rewrite rd_lookup in Hc by done. apply lookup_lt_Some in Hc. lia. }
  rewrite (bslice_app x (8 * i) (8 * i + t)) in Hb by lia. rewrite <- Hb.
  pose proof (bslice_length x (8 * i) (8 * i + t)).
  rewrite take_app_length', drop_app_length' by lia. done.
Qed.

(** ** BITCOUNT *)

Definition norm_start (len start : Z) : Z := if start <? 0 then Z.max 0 (len + start) else start.
Definition norm_end (len end_ : Z) : Z :=
  Z.min (len - 1) (Z.max 0 (if end_ <? 0 then len + end_ else end_)).

(** The masks of the bits of a byte before position [t], and after it. *)
Definition high_mask (t : Z) : Z := Z.land (Z.lnot (Z.shiftl 1 (8 - t) - 1)) 0xff.
Definition low_mask (t : Z) : Z := Z.shiftl 1 (7 - t) - 1.

Lemma clamp_range_spec isbit len start end_ :
  let s := norm_start len start in
  let e := norm_end len end_ in
  clamp_range isbit len start end_
  = if isbit && (s <=? e)
    then (s / 8, e / 8, high_mask (s mod 8), low_mask (e mod 8)) else (s, e, 0, 0).
Proof.
  unfold clamp_range, norm_start, norm_end, high_mask, low_mask.
  replace (if (if start <? 0 then len + start else start) <? 0 then 0
           else if start <? 0 then len + start else start)
    with (if start <? 0 then Z.max 0 (len + start) else start) by (zbool; lia).
  set (e1 := if _ <? 0 then 0 else if end_ <? 0 then len + end_ else end_).
  replace (if len <=? e1 then len - 1 else e1)
    with (Z.min (len - 1) (Z.max 0 (if end_ <? 0 then len + end_ else end_)))
    by (unfold e1; zbool; lia).
  rewrite !Z.shiftr_div_pow2, !(land_ones_mod _ 3 7) by lia. done.
Qed.

Lemma masks_spec c t :
  byte_ok c -> 0 <= t < 8 ->
  byte_ok (Z.land c (high_mask t)) /\ byte_ok (Z.land c (low_mask t)) /\
  pop [Z.land c (high_mask t)] = count_true (take (Z.to_nat t) (byte_bits c)) /\
  pop [Z.land c (low_mask t)] = count_true (drop (Z.to_nat (t + 1)) (byte_bits c)).
Proof.
  intros Hc Hr. pose proof (byte_forall (fun c => forallb (fun t => bool_decide (
    (0 <= Z.land c (high_mask t) /\ Z.land c (high_mask t) < 256) /\
    (0 <= Z.land c (low_mask t) /\ Z.land c (low_mask t) < 256) /\
    pop [Z.land c (high_mask t)] = count_true (take (Z.to_nat t) (byte_bits c)) /\
    pop [Z.land c (low_mask t)] = count_true (drop (Z.to_nat (t + 1)) (byte_bits c))))
    [0; 1; 2; 3; 4; 5; 6; 7])) as H.
  specialize (H ltac:(vm_compute; reflexivity) c Hc). cbv beta in H.
  rewrite forallb_forall in H. eapply bool_decide_eq_true_1, (H t).
  assert (t = 0 \/ t = 1 \/ t = 2 \/ t = 3 \/ t = 4 \/ t = 5 \/ t = 6 \/ t = 7) by lia.
  cbn. intuition.
Qed.

Lemma masked_read {B} p i c mask (f : Z -> M B) s :
  rd p i = Some c ->
  ((if negb (mask =? 0) then b ← lift (rd p i); mret (Z.land b mask) else mret 0) ≫= f) s
  = f (Z.land c mask) s.
Proof.
  intros Hc. destruct (Z.eqb_spec mask 0) as [-> |]; cbn [negb].
  - by rewrite Z.land_0_r.
  - by rewrite Hc.
Qed.

Lemma rd_byte m i : 0 <= i < zlen m -> exists b, rd m i = Some b.
Proof.
  intros Hi. rewrite rd_lookup by lia. apply lookup_lt_is_Some_2. lia.
Qed.

Section BitCount.
Context (on : cpu) (addr stack : Z).

(** The bytes of [p] are counted right: on NEON, the string is short enough. *)
Definition countable (p : list Z) : Prop :=
  zlen p < 2 ^ 58 /\ (on = AARCH64_NEON -> zlen p < 2 ^ 18).

Lemma countable_reach p n : countable p -> n <= zlen p -> in_reach on n.
Proof. intros [H1 H2] Hn. destruct on; cbn; try lia. specialize (H2 eq_refl). lia. Qed.

Lemma two_reach : in_reach on 2.
Proof. by destruct on. Qed.

(** The part of BITCOUNT after the range is known. *)
Lemma bitcount_masked p a b :
  bytes_ok p -> countable p -> 0 <= a <= b -> b < 8 * zlen p ->
  exists n c d, redisPopcountAuto on addr p (a / 8) (b / 8 - a / 8 + 1) = Some n /\
    rd p (a / 8) = Some c /\ rd p (b / 8) = Some d /\
    redisPopcountAuto on stack [Z.land c (high_mask (a mod 8)); Z.land d (low_mask (b mod 8))] 0 2
    = Some (n - count_true (bslice p a (b + 1))).
Proof.
  intros Hp Hl Hab Hb.
  destruct (rd_byte p (a / 8)) as [c Hc]; [dlia|]. destruct (rd_byte p (b / 8)) as [d Hd]; [dlia|].
  assert (byte_ok c) as Hcok by (rewrite rd_lookup in Hc by dlia; by eapply Forall_lookup_1).
  assert (byte_ok d) as Hdok by (rewrite rd_lookup in Hd by dlia; by eapply Forall_lookup_1).
  pose proof (Z.mod_pos_bound a 8 ltac:(lia)) as Ha8. pose proof (Z.mod_pos_bound b 8 ltac:(lia)) as Hb8.
  destruct (masks_spec c (a mod 8)) as (Hm1 & _ & Hp1 & _); [done..|].
  destruct (masks_spec d (b mod 8)) as (_ & Hm2 & _ & Hp2); [done..|].
  rewrite (redisPopcountAuto_spec _ _ p) by (done || (apply (countable_reach p); [done|dlia]) || dlia).
  eexists _, c, d. split; [done|]. split; [done|]. split; [done|].
  rewrite redisPopcountAuto_spec; [|by apply Forall_cons_2, Forall_singleton|cbn [length]; lia..|apply two_reach].
  f_equal.
  change (take (Z.to_nat 2) (drop (Z.to_nat 0) ?l)) with l.
  rewrite (pop_cons _ [_]), Hp1, Hp2. unfold pop. rewrite bslice_bytes by dlia.
  destruct (bslice_byte_parts p (a / 8) c (a mod 8)) as [<- _]; [done|dlia|lia|].
  destruct (bslice_byte_parts p (b / 8) d (b mod 8 + 1)) as [_ <-]; [done|dlia|lia|].
  replace (8 * (a / 8 + (b / 8 - a / 8 + 1))) with (8 * (b / 8) + 8) by lia.
  replace (8 * (a / 8) + a mod 8) with a by dlia.
  replace (8 * (b / 8) + (b mod 8 + 1)) with (b + 1) by dlia.
  rewrite (bslice_app p (8 * (a / 8)) a (8 * (b / 8) + 8)),
    (bslice_app p a (b + 1) (8 * (b / 8) + 8)), !count_true_app by dlia. lia.
Qed.

(** A range on the command line: start and end, and the unit. *)
Definition range_args (r : option (Z * Z * option bool)) : list (list Z) :=
  match r with
  | None => []
  | Some (a, b, None) => [Numbers.dec a; Numbers.dec b]
  | Some (a, b, Some isbit) => [Numbers.dec a; Numbers.dec b; if isbit : bool then str "BIT" else str "BYTE"]
  end.

Definition range_ok (r : option (Z * Z * option bool)) : Prop :=
  match r with Some (a, b, _) => in_s 64 a /\ in_s 64 b | None => True end.

(** The bits a range selects: from the first to the one after the last. *)
Definition range_bits (len : Z) (r : option (Z * Z * option bool)) : option (Z * Z) :=
  match r with
  | None => if 0 <? len then Some (0, 8 * len) else None
  | Some (a, b, u) =>
    let unit := if u is Some true then 1 else 8 in
    let n := if u is Some true then 8 * len else len in
    let s := norm_start n a in
    let e := norm_end n b in
    if (a <? 0) && (b <? 0) && (b <? a) then None
    else if e <? s then None else Some (unit * s, unit * (e + 1))
  end.

Definition bitcount_spec (x : list Z) (r : option (Z * Z * option bool)) : Z :=
  match range_bits (zlen x) r with
  | None => 0
  | Some (i, j) => count_true (bslice x i j)
  end.

Lemma readonly_spec k s x :
  db_ok (db s) -> stored (db s !! k) = Some x ->
  checkType (db s !! k) = mret tt /\ getObjectReadOnlyString (db s !! k) = lift (Some x).
Proof.
  intros Hd Hx. destruct (db s !! k) as [o|] eqn:Ho; [|cbn in Hx; by simplify_eq].
  pose proof (map_Forall_lookup_1 _ _ _ _ Hd Ho) as Hok.
  destruct o as [y|v|]; cbn in Hx; simplify_eq; [done|]. split; [done|]. cbn.
  by rewrite int_string_spec by (done || lia).
Qed.

(** Reply of BITCOUNT for a key that is missing or a string. *)
Lemma bitcount_tail (o : option obj) p s (start end_ fm lm : Z) n :
  (o = None -> n = 0) ->
  (end_ < start -> n = 0) ->
  (start <= end_ -> exists m c d, redisPopcountAuto on addr p start (end_ - start + 1) = Some m /\
     rd p start = Some c /\ rd p end_ = Some d /\
     redisPopcountAuto on stack [Z.land c fm; Z.land d lm] 0 2 = Some (m - n)) ->
  bitcount_reply on addr stack o p (start, end_, fm, lm) s = addReply (RInt n) s.
Proof.
  intros H0 H1 H2. unfold bitcount_reply. destruct o as [o|]; [|by rewrite H0].
  destruct (Z.ltb_spec end_ start) as [Hlt|Hge]; [by rewrite H1|].
  destruct (H2 Hge) as (m & c & d & Hm & Hc & Hd & Hn). cbv zeta. rewrite Hm. mrun.
  destruct (negb (fm =? 0) || negb (lm =? 0)) eqn:Hz.
  - rewrite bind_assoc, (masked_read p start c) by done.
    rewrite bind_assoc, (masked_read p end_ d) by done. rewrite Hn. mrun.
    by replace (m - (m - n)) with n by lia.
  - apply orb_false_iff in Hz as [->%negb_false_iff%Z.eqb_eq ->%negb_false_iff%Z.eqb_eq].
    rewrite !Z.land_0_r in Hn. mrun.
    assert (redisPopcountAuto on stack [0; 0] 0 2 = Some 0) as Hz.
    { rewrite redisPopcountAuto_spec; [done|apply (zeros_ok 2)|cbn [length]; lia..|apply two_reach]. }
    rewrite Hz in Hn. injection Hn as Hn. by replace m with n by lia.
Qed.

Lemma bitcount_bytes p s e :
  bytes_ok p -> countable p -> 0 <= s <= e -> e < zlen p ->
  exists n c d, redisPopcountAuto on addr p s (e - s + 1) = Some n /\
    rd p s = Some c /\ rd p e = Some d /\
    redisPopcountAuto on stack [Z.land c 0; Z.land d 0] 0 2
    = Some (n - count_true (bslice p (8 * s) (8 * (e + 1)))).
Proof.
  intros Hp Hl Hs He. destruct (bitcount_masked p (8 * s) (8 * e + 7)) as (n & c & d & H); [done|done|lia..|].
  replace (8 * s / 8) with s in H by dlia. replace ((8 * e + 7) / 8) with e in H by dlia.
  replace (8 * s mod 8) with 0 in H by dlia. replace ((8 * e + 7) mod 8) with 7 in H by dlia.
  replace (8 * (e + 1)) with (8 * e + 7 + 1) by lia. exists n, c, d. exact H.
Qed.

(** Both kinds of range, once [start] and [end] are normalised. *)
Lemma bitcount_units (isbit : bool) p a b fm lm start end_ :
  bytes_ok p -> countable p ->
  clamp_range isbit (if isbit then 8 * zlen p else zlen p) a b = (start, end_, fm, lm) ->
  let n := if isbit then 8 * zlen p else zlen p in
  let s := norm_start n a in
  let e := norm_end n b in
  let unit := if isbit then 1 else 8 in
  (end_ < start <-> e < s) /\
  (s <= e -> 0 <= s /\ e < n /\ exists m c d,
     redisPopcountAuto on addr p start (end_ - start + 1) = Some m /\
     rd p start = Some c /\ rd p end_ = Some d /\
     redisPopcountAuto on stack [Z.land c fm; Z.land d lm] 0 2
     = Some (m - count_true (bslice p (unit * s) (unit * (e + 1))))).
Proof.
  intros Hp Hl Hc n s e unit. rewrite clamp_range_spec in Hc. fold n s e in Hc.
  assert (0 <= n -> e < n) as He by (unfold e, norm_end; lia).
  assert (0 <= n) by (unfold n; destruct isbit; lia).
  assert (0 <= s) by (unfold s, norm_start; zbool; lia).
  destruct isbit; cbn [andb] in Hc.
  - destruct (Z.leb_spec s e); simplify_eq; [|lia]. split; [dlia|]. intros _. split_and!; [done|lia|].
    unfold unit. rewrite !Z.mul_1_l. apply bitcount_masked; (done || lia).
  - simplify_eq. split; [lia|]. intros Hse. split_and!; [done|lia|].
    apply bitcount_bytes; (done || lia).
Qed.

Lemma range_unit_spec (isbit : bool) : parse_unit (if isbit then str "BIT" else str "BYTE") = mret isbit.
Proof. by destruct isbit. Qed.

(** The reply for a range that is given. *)
Lemma bitcount_ranged (isbit : bool) a b o s x (u : option bool) :
  bytes_ok x -> countable x -> (o = None -> x = []) -> isbit = (if u is Some true then true else false) ->
  exists r, ((if (a <? 0) && (b <? 0) && (b <? a) then addReply (RInt 0);; stop
              else mret (o, x, clamp_range isbit (if isbit then Z.shiftl (zlen x) 3 else zlen x) a b))
             ≫= fun '(o, p, range) => bitcount_reply on addr stack o p range) s
    = Some (r, St (db s) (dirty s) (modified s) (events s)
        (out s ++ [RInt (bitcount_spec x (Some (a, b, u)))])).
Proof.
  intros Hok Hlen Hnone Hu. unfold bitcount_spec, range_bits.
  rewrite Z.shiftl_mul_pow2, (Z.mul_comm (zlen x)) by lia. change (2 ^ 3) with 8.
  destruct ((a <? 0) && (b <? 0) && (b <? a)) eqn:He; [by exists None|]. mrun.
  destruct (clamp_range isbit _ a b) as [[[start end_] fm] lm] eqn:Hc. exists (Some tt).
  destruct (bitcount_units isbit x a b fm lm start end_ Hok Hlen Hc) as [Hlt Hle].
  replace (if u is Some true then 1 else 8) with (if isbit then 1 else 8) by by destruct u as [[]|]; subst.
  replace (if u is Some true then 8 * zlen x else zlen x)
    with (if isbit then 8 * zlen x else zlen x) by by destruct u as [[]|]; subst.
  cbv zeta in Hlt, Hle. set (n := if isbit then 8 * zlen x else zlen x) in *.
  apply bitcount_tail.
  - intros ->%Hnone. destruct (norm_end n b <? norm_start n a); [done|]. by rewrite bslice_nil.
  - intros ?%Hlt. by replace (norm_end n b <? norm_start n a) with true by lia.
  - intros Hse. assert (norm_start n a <= norm_end n b) as Hse' by lia.
    destruct (Hle Hse') as (_ & _ & H). by replace (norm_end n b <? norm_start n a) with false by lia.
Qed.

(** C26: BITCOUNT replies the number of bits set in the range, in bytes or in
    bits; negative indexes count from the end and the range is cut to the
    string, an empty range or a missing key gives 0.  It changes nothing.
    This holds for the portable count, with or without POPCNT, and for the
    AVX2 and AVX512 counts on every string, for the AArch64 NEON count on
    strings of fewer than 2^18 bytes; on longer ones its 16-bit lanes can wrap
    ([redisPopCountAarch64_wraps]). *)
Theorem bitcount_correct c k r s x :
  db_ok (db s) -> stored (db s !! k) = Some x -> range_ok r ->
  (on = AARCH64_NEON -> zlen x < 2 ^ 18) ->
  exists u, bitcountCommand on addr stack (c :: k :: range_args r) s
    = Some (u, St (db s) (dirty s) (modified s) (events s) (out s ++ [RInt (bitcount_spec x r)])).
Proof.
  intros Hd Hx Hr Hneon. destruct (stored_ok _ _ _ Hd Hx) as [Hok Hlen].
  assert (countable x) as Hcount by done.
  destruct (readonly_spec k s x Hd Hx) as [Hct Hro].
  assert (db s !! k = None -> x = []) as Hnone.
  { intros H. rewrite H in Hx. cbn in Hx. congruence. }
  assert ((zlen x <=? Z.shiftr Numbers.LLONG_MAX 3) = true) as Hmax.
  { change (Z.shiftr Numbers.LLONG_MAX 3) with (2 ^ 60 - 1). lia. }
  unfold bitcountCommand, bitcount_range. marg. destruct r as [[[a b] u]|].
  - destruct Hr as [Ha Hb]. destruct u as [u|]; cbn [range_args]; margc; mrun; marg;
      rewrite getLongLong_ok by done; mrun; marg; rewrite getLongLong_ok by done; mrun.
    + marg. rewrite range_unit_spec. mrun. rewrite Hct. mrun. rewrite Hro. mrun. rewrite Hmax.
      apply (bitcount_ranged u a b (db s !! k) s x (Some u)); (done || by destruct u).
    + rewrite Hct. mrun. rewrite Hro. mrun. rewrite Hmax.
      by apply (bitcount_ranged false a b (db s !! k) s x None).
  - cbn [range_args]. margc. mrun. rewrite Hct. mrun. rewrite Hro. mrun. exists (Some tt).
    unfold bitcount_spec, range_bits. apply (bitcount_tail (db s !! k) x s).
    + intros ->%Hnone. done.
    + intros Hlt. by replace (0 <? zlen x) with false by lia.
    + intros Hle. replace (0 <? zlen x) with true by lia.
      pose proof (bitcount_bytes x 0 (zlen x - 1) Hok Hcount ltac:(lia) ltac:(lia)) as H.
      by replace (8 * (zlen x - 1 + 1)) with (8 * zlen x) in H by lia.
Qed.
End BitCount.

(** ** BITPOS *)

Lemma byte_bits_length c : length (byte_bits c) = 8%nat.
Proof. done. Qed.

Lemma mask_out_spec (b : bool) c t :
  byte_ok c -> 0 <= t < 8 ->
  byte_ok (mask_out (Numbers.b2z b) c (high_mask t)) /\
  byte_ok (mask_out (Numbers.b2z b) c (low_mask t)) /\
  byte_bits (mask_out (Numbers.b2z b) c (high_mask t))
  = replicate (Z.to_nat t) (negb b) ++ drop (Z.to_nat t) (byte_bits c) /\
  byte_bits (mask_out (Numbers.b2z b) c (low_mask t))
  = take (Z.to_nat (t + 1)) (byte_bits c) ++ replicate (Z.to_nat (7 - t)) (negb b).
Proof.
  intros Hc Hr. pose proof (byte_forall (fun c => forallb (fun b => forallb (fun t =>
    let h := mask_out (Numbers.b2z b) c (high_mask t) in
    let l := mask_out (Numbers.b2z b) c (low_mask t) in
    bool_decide ((0 <= h /\ h < 256) /\ (0 <= l /\ l < 256) /\
    byte_bits h = replicate (Z.to_nat t) (negb b) ++ drop (Z.to_nat t) (byte_bits c) /\
    byte_bits l = take (Z.to_nat (t + 1)) (byte_bits c) ++ replicate (Z.to_nat (7 - t)) (negb b)))
    [0; 1; 2; 3; 4; 5; 6; 7]) [true; false])) as H.
  specialize (H ltac:(vm_compute; reflexivity) c Hc). cbv beta zeta in H.
  rewrite forallb_forall in H. specialize (H b ltac:(destruct b; cbn; auto)).
  rewrite forallb_forall in H. eapply bool_decide_eq_true_1, (H t).
  assert (t = 0 \/ t = 1 \/ t = 2 \/ t = 3 \/ t = 4 \/ t = 5 \/ t = 6 \/ t = 7) by lia.
  cbn. intuition.
Qed.

Lemma index_of_replicate b n : index_of b (replicate n (negb b)) = None.
Proof. induction n as [|n IH]; [done|]. cbn [replicate index_of]. rewrite IH. by destruct b. Qed.

Lemma mask_zero t : 0 <= t < 8 -> (high_mask t = 0 <-> t = 0) /\ (low_mask t = 0 <-> t = 7).
Proof.
  intros Hr. assert (t = 0 \/ t = 1 \/ t = 2 \/ t = 3 \/ t = 4 \/ t = 5 \/ t = 6 \/ t = 7) as H by lia.
  destruct H as [-> |[-> |[-> |[-> |[-> |[-> |[-> | ->]]]]]]]; vm_compute; split; split; congruence.
Qed.

Lemma bslice_in_byte x i c t u :
  rd x i = Some c -> 0 <= i -> 0 <= t <= u -> u <= 8 ->
  bslice x (8 * i + t) (8 * i + u) = take (Z.to_nat (u - t)) (drop (Z.to_nat t) (byte_bits c)).
Proof.
  intros Hc Hi Ht Hu. rewrite <- (bslice_byte x i c) by done. unfold bslice.
  rewrite skipn_firstn_comm, take_take, drop_drop. f_equal; [lia|]. f_equal. lia.
Qed.

Section BitPos.
Context (addr stack : Z) (p : list Z) (Hp : bytes_ok p) (b : bool).
Abbreviation bit := (Numbers.b2z b).

Lemma bitpos_byte c :
  byte_ok c ->
  redisBitpos stack [c] 0 1 bit
  = Some (match index_of b (byte_bits c) with Some k => k | None => if b then -1 else 8 end).
Proof.
  intros Hc. rewrite redisBitpos_spec; [|by apply Forall_singleton|cbn [length]; lia..].
  unfold bitpos_result. change (take (Z.to_nat 1) (drop (Z.to_nat 0) [c])) with [c].
  unfold bits_of. cbn [map concat]. by rewrite app_nil_r.
Qed.

(** The outcome of searching the bits [l], the first of which is bit [a] of
    the string and the last of which lies in byte [end_]. *)
Definition search_ok (l : list bool) (a end_ : Z) (r : Z * Z * Z) : Prop :=
  let '(pos, start, bytes) := r in
  match index_of b l with
  | Some k => 0 <= pos < 8 * bytes /\ pos + 8 * start = a + k
  | None => pos = (if b then -1 else 8 * bytes) /\ start + bytes = end_ + 1 /\ 0 < bytes
  end.

(** A search of some whole bytes. *)
Lemma bitpos_whole start n :
  0 <= start -> 0 < n -> start + n <= zlen p ->
  redisBitpos addr p start n bit
  = Some (match index_of b (bslice p (8 * start) (8 * (start + n))) with
          | Some k => k | None => if b then -1 else 8 * n end).
Proof.
  intros. rewrite redisBitpos_spec by (done || lia). unfold bitpos_result.
  rewrite bslice_bytes by lia. rewrite length_take, length_drop.
  by replace (Z.of_nat (Z.to_nat n `min` (length p - Z.to_nat start))) with n by lia.
Qed.

Lemma bitpos_rest_spec start e :
  0 <= start <= e / 8 -> e < 8 * zlen p ->
  exists r, bitpos_rest addr stack p bit start (e / 8 - start + 1) (e / 8) (low_mask (e mod 8)) = Some r /\
    search_ok (bslice p (8 * start) (e + 1)) (8 * start) (e / 8) r.
Proof.
  intros Hs He. unfold bitpos_rest. assert (0 <= e mod 8 < 8) as Hr by (apply Z.mod_pos_bound; lia).
  destruct (mask_zero (e mod 8) Hr) as [_ Hz].
  destruct (rd_byte p (e / 8)) as [d Hd]; [dlia|].
  assert (byte_ok d) as Hdok by (rewrite rd_lookup in Hd by lia; by eapply Forall_lookup_1).
  destruct (Z.eqb_spec (low_mask (e mod 8)) 0) as [Hm|Hm]; cbn [negb].
  - apply Hz in Hm. rewrite Z.sub_0_r. replace (0 <? e / 8 - start + 1) with true by lia.
    rewrite bitpos_whole by dlia. mred. rewrite Z.eqb_refl. cbn [orb].
    eexists. split; [done|]. unfold search_ok.
    replace (8 * (start + (e / 8 - start + 1))) with (e + 1) by dlia.
    destruct (index_of b (bslice p (8 * start) (e + 1))) as [k|] eqn:Hk; [|split; [done|lia]].
    apply index_of_range in Hk. rewrite bslice_length in Hk by dlia. dlia.
  - destruct (mask_out_spec b d (e mod 8) Hdok Hr) as (_ & Hok & _ & Hbits).
    rewrite Hd. mred. rewrite (bitpos_byte _ Hok), Hbits, index_of_app, index_of_replicate.
    cbn [fmap option_fmap option_map].
    pose proof (bslice_in_byte p (e / 8) d 0 (e mod 8 + 1) Hd ltac:(lia) ltac:(lia) ltac:(lia)) as Hlast.
    rewrite drop_0, Z.add_0_r, Z.sub_0_r in Hlast. rewrite <- Hlast.
    replace (8 * (e / 8) + (e mod 8 + 1)) with (e + 1) in * by dlia.
    set (l2 := bslice p (8 * (e / 8)) (e + 1)) in *.
    assert (zlen l2 <= 7) by (unfold l2; rewrite bslice_length; dlia).
    rewrite (bslice_app p (8 * start) (8 * (e / 8)) (e + 1)) by dlia. fold l2.
    set (l1 := bslice p (8 * start) (8 * (e / 8))) in *. unfold search_ok. rewrite index_of_app.
    destruct (Z.ltb_spec 0 (e / 8 - start + 1 - 1)).
    + rewrite bitpos_whole by dlia. mred.
      replace (8 * (start + (e / 8 - start + 1 - 1))) with (8 * (e / 8)) by lia. fold l1.
      assert (zlen l1 = 8 * (e / 8 - start)) as Hl1 by (unfold l1; rewrite bslice_length; dlia).
      destruct (index_of b l1) as [k|] eqn:Hk.
      * apply index_of_range in Hk. rewrite Z.shiftl_mul_pow2 by lia.
        replace (negb (k =? -1) && negb (k =? (e / 8 - start + 1 - 1) * 2 ^ 3)) with true by lia.
        rewrite orb_true_r. eexists. split; [done|]. cbn. lia.
      * rewrite Z.shiftl_mul_pow2 by lia.
        replace (_ || _) with false by (destruct b; lia). mred. eexists. split; [done|].
        destruct (index_of b l2) as [k|] eqn:Hk2; cbn [fmap option_fmap option_map].
        -- apply index_of_range in Hk2. lia.
        -- destruct b; lia.
    + assert (start = e / 8) as -> by lia. mred. eexists. split; [done|].
      replace l1 with (@nil bool) by (unfold l1, bslice; by rewrite Z.sub_diag).
      cbn [index_of length]. destruct (index_of b l2) as [k|] eqn:Hk2; cbn [fmap option_fmap option_map].
      * apply index_of_range in Hk2. lia.
      * destruct b; lia.
Qed.

Lemma mask_out_zero c : byte_ok c -> mask_out bit c 0 = c.
Proof.
  intros Hc. unfold mask_out. destruct b; cbn [Numbers.b2z Z.eqb negb]; [|apply Z.lor_0_r].
  change (Z.land (Z.lnot 0) 0xff) with 255. rewrite (land_ones_mod _ 8 255) by lia.
  apply Z.mod_small. exact Hc.
Qed.

(** A range inside one byte. *)
Lemma bitpos_one_byte a e c :
  0 <= a <= e -> e / 8 = a / 8 -> e < 8 * zlen p -> rd p (a / 8) = Some c -> byte_ok c ->
  let tmp := mask_out bit c (high_mask (a mod 8)) in
  exists pos, redisBitpos stack
      [if negb (low_mask (e mod 8) =? 0) then mask_out bit tmp (low_mask (e mod 8)) else tmp] 0 1 bit
    = Some pos /\ search_ok (bslice p a (e + 1)) a (e / 8) (pos, a / 8, 1).
Proof.
  intros Ha Hae He Hc Hcok tmp.
  assert (0 <= a mod 8 < 8) as Hr by (apply Z.mod_pos_bound; lia).
  assert (0 <= e mod 8 < 8) as Hr' by (apply Z.mod_pos_bound; lia).
  destruct (mask_out_spec b c (a mod 8) Hcok Hr) as (Hok & _ & Hbits & _). fold tmp in Hok, Hbits.
  destruct (mask_out_spec b tmp (e mod 8) Hok Hr') as (_ & Hok2 & _ & Hbits2).
  replace (if negb (low_mask (e mod 8) =? 0) then mask_out bit tmp (low_mask (e mod 8)) else tmp)
    with (mask_out bit tmp (low_mask (e mod 8))).
  2: { destruct (Z.eqb_spec (low_mask (e mod 8)) 0) as [-> |]; [by apply mask_out_zero|done]. }
  rewrite (bitpos_byte _ Hok2), Hbits2, Hbits. eexists. split; [done|].
  rewrite take_app_ge by (rewrite length_replicate; dlia). rewrite length_replicate.
  pose proof (bslice_in_byte p (a / 8) c (a mod 8) (e mod 8 + 1) Hc ltac:(dlia) ltac:(dlia) ltac:(lia)) as Hl.
  replace (8 * (a / 8) + a mod 8) with a in Hl by dlia.
  replace (8 * (a / 8) + (e mod 8 + 1)) with (e + 1) in Hl by dlia.
  replace (Z.to_nat (e mod 8 + 1) - Z.to_nat (a mod 8))%nat with (Z.to_nat (e mod 8 + 1 - a mod 8)) by lia.
  rewrite <- Hl, !index_of_app, !index_of_replicate. unfold search_ok. rewrite length_replicate.
  destruct (index_of b (bslice p a (e + 1))) as [k|] eqn:Hk; cbn [fmap option_fmap option_map].
  - apply index_of_range in Hk. rewrite bslice_length in Hk by dlia. dlia.
  - destruct b; lia.
Qed.

(** The search of the bits from [a] to [e]. *)
Lemma bitpos_search_spec a e :
  0 <= a <= e -> e < 8 * zlen p ->
  exists r, bitpos_search addr stack p bit (a / 8) (e / 8) (high_mask (a mod 8)) (low_mask (e mod 8))
      = Some r /\ search_ok (bslice p a (e + 1)) a (e / 8) r.
Proof.
  intros Ha He. unfold bitpos_search. assert (0 <= a mod 8 < 8) as Hr by (apply Z.mod_pos_bound; lia).
  destruct (mask_zero (a mod 8) Hr) as [Hz _].
  destruct (rd_byte p (a / 8)) as [c Hc]; [dlia|].
  assert (byte_ok c) as Hcok by (rewrite rd_lookup in Hc by dlia; by eapply Forall_lookup_1).
  destruct (Z.eqb_spec (high_mask (a mod 8)) 0) as [Hm|Hm]; cbn [negb].
  { apply Hz in Hm. pose proof (bitpos_rest_spec (a / 8) e ltac:(dlia) He) as H.
    by replace (8 * (a / 8)) with a in H by dlia. }
  rewrite Hc. mred. cbv zeta.
  destruct (Z.eqb_spec (e / 8 - a / 8 + 1) 1) as [H1|H1].
  { destruct (bitpos_one_byte a e c) as (pos & Hpos & Hok); [done|lia|done..|].
    rewrite andb_true_r, Hpos. mred. cbn [orb]. eexists. split; [done|]. by rewrite H1. }
  destruct (mask_out_spec b c (a mod 8) Hcok Hr) as (Hok & _ & Hbits & _).
  rewrite andb_false_r, (bitpos_byte _ Hok), Hbits, index_of_app, index_of_replicate. mred.
  destruct (bslice_byte_parts p (a / 8) c (a mod 8) Hc ltac:(dlia) ltac:(lia)) as [_ Hl].
  replace (8 * (a / 8) + a mod 8) with a in Hl by dlia. rewrite <- Hl, length_replicate.
  rewrite (bslice_app p a (8 * (a / 8) + 8) (e + 1)) by dlia.
  replace (8 * (a / 8) + 8) with (8 * (a / 8 + 1)) by lia.
  pose proof (bslice_length p a (8 * (a / 8 + 1)) ltac:(dlia) ltac:(dlia)) as Hlen.
  unfold search_ok at 1. rewrite index_of_app.
  destruct (index_of b (bslice p a (8 * (a / 8 + 1)))) as [k|] eqn:Hk; cbn [fmap option_fmap option_map].
  - apply index_of_range in Hk. replace (_ || _) with true by dlia. eexists. split; [done|]. cbn. dlia.
  - replace (_ || _) with false by (destruct b; lia).
    replace (e / 8 - a / 8 + 1 - 1) with (e / 8 - (a / 8 + 1) + 1) by lia.
    destruct (bitpos_rest_spec (a / 8 + 1) e) as ([[pos st] bs] & -> & Hs); [dlia|done|].
    eexists. split; [done|]. unfold search_ok in Hs.
    destruct (index_of b (bslice p (8 * (a / 8 + 1)) (e + 1))); cbn [fmap option_fmap option_map]; [dlia|done].
Qed.
End BitPos.

(** Start, end and unit on the command line of BITPOS. *)
Definition bitpos_args (r : option (Z * option (Z * option bool))) : list (list Z) :=
  match r with
  | None => []
  | Some (a, None) => [Numbers.dec a]
  | Some (a, Some (b, u)) => range_args (Some (a, b, u))
  end.

Definition bitpos_args_ok (r : option (Z * option (Z * option bool))) : Prop :=
  match r with
  | None => True
  | Some (a, None) => in_s 64 a
  | Some (a, Some (b, _)) => in_s 64 a /\ in_s 64 b
  end.

(** The bits searched, from the first to the one after the last. *)
Definition bitpos_bits (len : Z) (r : option (Z * option (Z * option bool))) : option (Z * Z) :=
  let '(a, b, isbit) :=
    match r with
    | None => (0, len - 1, false)
    | Some (a, None) => (a, len - 1, false)
    | Some (a, Some (b, u)) => (a, b, if u is Some true then true else false)
    end in
  let unit := if isbit : bool then 1 else 8 in
  let n := if isbit then 8 * len else len in
  if norm_end n b <? norm_start n a then None
  else Some (unit * norm_start n a, unit * (norm_end n b + 1)).

Definition bitpos_spec (o : option obj) (x : list Z) (b : bool)
    (r : option (Z * option (Z * option bool))) : Z :=
  match o with
  | None => if b then -1 else 0
  | Some _ =>
    match bitpos_bits (zlen x) r with
    | None => -1
    | Some (i, j) =>
      match index_of b (bslice x i j) with
      | Some k => i + k
      | None => if b || (if r is Some (_, Some _) then true else false) then -1 else j
      end
    end
  end.

Section BitPosCommand.
Context (addr stack : Z).

(** The reply once the range is known, in either unit. *)
Lemma bitpos_reply_spec (b isbit given : bool) o x s a e :
  bytes_ok x ->
  let n := if isbit then 8 * zlen x else zlen x in
  let unit := if isbit then 1 else 8 in
  (isbit = true -> given = true) ->
  bitpos_reply addr stack (Numbers.b2z b) o x (clamp_range isbit n a e) given s
  = addReply (RInt
      match o with
      | None => if b then -1 else 0
      | Some _ =>
        if norm_end n e <? norm_start n a then -1
        else match index_of b (bslice x (unit * norm_start n a) (unit * (norm_end n e + 1))) with
             | Some k => unit * norm_start n a + k
             | None => if b || given then -1 else unit * (norm_end n e + 1)
             end
      end) s.
Proof.
  intros Hok n unit Hgiven. rewrite clamp_range_spec. set (i := norm_start n a). set (j := norm_end n e).
  assert (0 <= i) by (unfold i, norm_start; zbool; lia).
  assert (0 <= n) by (unfold n; destruct isbit; lia). assert (j < n) by (unfold j, norm_end; lia).
  destruct o as [o|]; [|destruct (isbit && (i <=? j)); by destruct b].
  destruct (Z.ltb_spec j i) as [Hji|Hij].
  { replace (isbit && (i <=? j)) with false by (destruct isbit; lia).
    cbn [bitpos_reply]. by replace (j <? i) with true by lia. }
  destruct (bitpos_search_spec addr stack x Hok b (unit * i) (unit * (j + 1) - 1)) as ([[pos st] bs] & Hs & Hr).
  { unfold unit; destruct isbit; lia. }
  { unfold unit, n in *; destruct isbit; lia. }
  assert ((if isbit && (i <=? j) then (i / 8, j / 8, high_mask (i mod 8), low_mask (j mod 8)) else (i, j, 0, 0))
    = (unit * i / 8, (unit * (j + 1) - 1) / 8, high_mask (unit * i mod 8), low_mask ((unit * (j + 1) - 1) mod 8))) as ->.
  { unfold unit. destruct isbit; cbn [andb].
    - replace (i <=? j) with true by lia. rewrite !Z.mul_1_l. by replace (j + 1 - 1) with j by lia.
    - replace (8 * i / 8) with i by dlia. replace ((8 * (j + 1) - 1) / 8) with j by dlia.
      replace (8 * i mod 8) with 0 by dlia. by replace ((8 * (j + 1) - 1) mod 8) with 7 by dlia. }
  cbn [bitpos_reply]. replace (_ <? _) with false by (unfold unit; destruct isbit; dlia).
  rewrite Hs. mrun. rewrite !Z.shiftl_mul_pow2 by lia. unfold search_ok in Hr.
  replace (unit * (j + 1) - 1 + 1) with (unit * (j + 1)) in Hr by lia.
  destruct (index_of b (bslice x (unit * i) (unit * (j + 1)))) as [k|].
  - replace (given && (Numbers.b2z b =? 0) && (pos =? bs * 2 ^ 3)) with false by (destruct given, b; lia).
    replace (pos =? -1) with false by lia. cbn [negb]. by replace (pos + st * 2 ^ 3) with (unit * i + k) by lia.
  - destruct Hr as (-> & Hst & Hbs). destruct b; cbn [Numbers.b2z orb].
    + by rewrite andb_false_r.
    + replace (8 * bs =? bs * 2 ^ 3) with true by lia. rewrite !andb_true_r.
      destruct given; [done|]. replace (8 * bs =? -1) with false by lia. cbn [negb].
      destruct isbit; [by specialize (Hgiven eq_refl)|].
      replace (8 * bs + st * 2 ^ 3) with (unit * (j + 1)); [done|]. unfold unit in *. dlia.
Qed.

Lemma norm_start_0 n : norm_start n 0 = 0.
Proof. done. Qed.

Lemma norm_end_last n : 0 <= n -> norm_end n (n - 1) = n - 1.
Proof. intros. unfold norm_end. zbool; lia. Qed.

(** C27: BITPOS replies the position of the first bit with the value asked for
    in the range, in bytes or in bits; -1 when there is none, except that a
    clear bit is looked for past the end of the string when no end is given.
    A missing key is an endless sequence of clear bits.  It changes nothing. *)
Theorem bitpos_correct c k (b : bool) r s x :
  db_ok (db s) -> stored (db s !! k) = Some x -> bitpos_args_ok r ->
  bitposCommand addr stack (c :: k :: Numbers.dec (Numbers.b2z b) :: bitpos_args r) s
  = Some (Some tt, St (db s) (dirty s) (modified s) (events s)
      (out s ++ [RInt (bitpos_spec (db s !! k) x b r)])).
Proof.
  intros Hd Hx Hr. destruct (stored_ok _ _ _ Hd Hx) as [Hok Hlen].
  destruct (readonly_spec k s x Hd Hx) as [Hct Hro].
  assert ((zlen x <=? Z.shiftr Numbers.LLONG_MAX 3) = true) as Hmax.
  { change (Z.shiftr Numbers.LLONG_MAX 3) with (2 ^ 60 - 1). lia. }
  unfold bitposCommand, bitpos_range. do 2 marg. unfold getLongFromObjectOrReply.
  rewrite getLongLong_ok by (destruct b; unfold in_s; cbn; lia). mrun.
  replace (negb (Numbers.b2z b =? 0) && negb (Numbers.b2z b =? 1)) with false by by destruct b.
  unfold bitpos_spec, bitpos_bits. destruct r as [[a [[e u]|]]|]; cbn [bitpos_args range_args].
  - destruct Hr as [Ha He]. destruct u as [u|]; margc; mrun; marg; rewrite getLongLong_ok by done; mrun.
    + marg. rewrite range_unit_spec. mrun. marg. rewrite getLongLong_ok by done. mrun.
      rewrite Hct. mrun. rewrite Hro. mrun. rewrite Hmax. mrun.
      pose proof (bitpos_reply_spec b u true (db s !! k) x s a e Hok ltac:(done)) as H. cbv zeta in H.
      rewrite Z.shiftl_mul_pow2, (Z.mul_comm (zlen x)) by lia. change (2 ^ 3) with 8.
      destruct u; (etransitivity; [exact H|]); unfold addReply, updates; do 5 f_equal;
        destruct (db s !! k); try done; by destruct (_ <? _).
    + marg. rewrite getLongLong_ok by done. mrun. rewrite Hct. mrun. rewrite Hro. mrun. rewrite Hmax. mrun.
      pose proof (bitpos_reply_spec b false true (db s !! k) x s a e Hok ltac:(done)) as H. cbv zeta in H.
      etransitivity; [exact H|]. unfold addReply, updates. do 5 f_equal.
      destruct (db s !! k); [|done]. by destruct (_ <? _).
  - margc. mrun. marg. rewrite getLongLong_ok by done. mrun.
    rewrite Hct. mrun. rewrite Hro. mrun. rewrite Hmax. mrun.
    pose proof (bitpos_reply_spec b false false (db s !! k) x s a (zlen x - 1) Hok ltac:(done)) as H.
    cbv zeta in H. etransitivity; [exact H|]. unfold addReply, updates. do 5 f_equal.
    destruct (db s !! k); [|done]. by destruct (_ <? _).
  - margc. mrun. rewrite Hct. mrun. rewrite Hro. mrun.
    pose proof (bitpos_reply_spec b false false (db s !! k) x s 0 (zlen x - 1) Hok ltac:(done)) as H.
    cbv zeta in H. rewrite clamp_range_spec, norm_start_0, norm_end_last in H by lia. cbn [andb] in H.
    rewrite norm_start_0, norm_end_last by lia.
    etransitivity; [exact H|]. unfold addReply, updates. do 5 f_equal.
    destruct (db s !! k); [|done]. by destruct (_ <? _).
Qed.
End BitPosCommand.

Definition sample_db : gmap key obj := {[ [107] := OStr [0x0F; 0xF0; 0xFF] ]}.

Lemma sample_db_ok : db_ok sample_db.
Proof. apply map_Forall_singleton. split; [repeat constructor; lia|cbn; lia]. Qed.

Lemma bitcount_correct_witness :
  exists u, bitcountCommand AARCH64_NEON 3 1 [[]; [107]; Numbers.dec 5; Numbers.dec (-7); str "BIT"] (St sample_db 0 [] [] [])
    = Some (u, St sample_db 0 [] [] [RInt 9]).
Proof.
  apply (bitcount_correct AARCH64_NEON 3 1 [] [107] (Some (5, -7, Some true)) (St sample_db 0 [] [] []) [0x0F; 0xF0; 0xFF]).
  - apply sample_db_ok.
  - reflexivity.
  - unfold range_ok, in_s. lia.
  - intros _. reflexivity.
Defined.

Lemma bitpos_correct_witness :
  bitposCommand 3 1 [[]; [107]; Numbers.dec 0; Numbers.dec 5; Numbers.dec (-1); str "BIT"] (St sample_db 0 [] [] [])
  = Some (Some tt, St sample_db 0 [] [] [RInt 12]).
Proof.
  apply (bitpos_correct 3 1 [] [107] false (Some (5, Some (-1, Some true))) (St sample_db 0 [] [] []) [0x0F; 0xF0; 0xFF]).
  - apply sample_db_ok.
  - reflexivity.
  - unfold bitpos_args_ok, in_s. lia.
Defined.

(** ** Computations that only read

    [pure P m]: [m] either returns a value that satisfies [P] and leaves the
    state as it is, or appends one error reply and stops. *)

Definition replied (r : ritem) (s : st) : st :=
  St (db s) (dirty s) (modified s) (events s) (out s ++ [r]).

Definition pure {A} (P : A -> Prop) (m : M A) : Prop :=
  forall s, (exists a, m s = Some (Some a, s) /\ P a) \/
            (exists msg, m s = Some (None, replied (RErr msg) s)).

Lemma pure_ret {A} (P : A -> Prop) a : P a -> pure P (mret a).
Proof. intros Ha s. left. by exists a. Qed.

Lemma pure_fail {A} (P : A -> Prop) msg : pure P (fail msg).
Proof. intros s. right. by exists msg. Qed.

Lemma pure_bind {A B} (P : A -> Prop) (Q : B -> Prop) (m : M A) (f : A -> M B) :
  pure P m -> (forall a, P a -> pure Q (f a)) -> pure Q (m ≫= f).
Proof.
  intros Hm Hf s. destruct (Hm s) as [(a & Hr & Ha)|(msg & Hr)].
  - rewrite (bind_run _ _ _ _ _ Hr). by apply Hf.
  - right. exists msg. by apply bind_early.
Qed.

Lemma pure_if {A} (P : A -> Prop) (b : bool) (m n : M A) :
  (b = true -> pure P m) -> (b = false -> pure P n) -> pure P (if b then m else n).
Proof. destruct b; auto. Qed.

Lemma pure_arg argv n : 0 <= n < zlen argv -> pure (fun _ => True) (arg argv n).
Proof.
  intros Hn s. left. unfold arg. replace (0 <=? n) with true by lia.
  destruct (lookup_lt_is_Some_2 argv (Z.to_nat n)) as [a ->]; [lia|]. by exists a.
Qed.

Create HintDb pure.
#[export] Hint Resolve pure_ret pure_fail pure_if : pure.

Lemma pure_long o msg : pure (in_s 64) (getLongLongFromObjectOrReply o msg).
Proof.
  unfold getLongLongFromObjectOrReply. destruct (Numbers.string2ll o) as [v|] eqn:Hv; [|apply pure_fail].
  apply pure_ret. by apply Numbers.string2ll_iff in Hv as [_ Hv].
Qed.

Lemma pure_type o :
  pure (fun '(sign, bits) => 1 <= bits <= 64 /\ (sign = false -> bits <= 63))
    (getBitfieldTypeFromArgument o).
Proof.
  unfold getBitfieldTypeFromArgument.
  apply (pure_bind (fun _ : bool => True)).
  { auto with pure. }
  intros sign _. destruct (Numbers.string2ll _) as [n|]; [|apply pure_fail].
  apply pure_if; intros Hb; [apply pure_fail|]. apply pure_ret. destruct sign; lia.
Qed.

(** ** BITFIELD: parsing *)

(** What the parser guarantees of an operation. *)
Definition op_ok (limit : Z) (op : bitfieldOp) : Prop :=
  0 <= bf_offset op < 8 * limit /\ 1 <= bf_bits op <= 64 /\
  (bf_sign op = false -> bf_bits op <= 63) /\ in_s 64 (bf_i64 op).

Definition op_end (op : bitfieldOp) : Z := bf_offset op + bf_bits op - 1.
Definition is_write (op : bitfieldOp) : bool := negb (is_get (bf_opcode op)).

(** What it guarantees of its result: the highest bit written is the last bit
    of some write, or 0 when there is none. *)
Definition parse_ok (limit : Z) (r : list bitfieldOp * bool * Z) : Prop :=
  let '(ops, readonly, highest) := r in
  Forall (op_ok limit) ops /\ readonly = negb (existsb is_write ops) /\
  0 <= highest < 8 * limit + 64 /\
  Forall (fun op => is_write op = true -> op_end op <= highest) ops.

Section Parse.
Context (proto_max_bulk_len : Z) (Hmax : 0 < proto_max_bulk_len <= 2 ^ 50).

Lemma pure_offset o bits :
  pure (fun off => 0 <= off < 8 * proto_max_bulk_len)
    (getBitOffsetFromArgument false proto_max_bulk_len o true bits).
Proof.
  unfold getBitOffsetFromArgument. destruct (Numbers.string2ll _) as [v|]; [|apply pure_fail].
  cbv zeta. match goal with |- context [?w <? 0] => generalize w end. intros w.
  apply pure_if; intros Hb; [apply pure_fail|]. apply pure_ret. rewrite Z.shiftr_div_pow2 in Hb by lia. change (2 ^ 3) with 8 in Hb. dlia.
Qed.

Lemma parse_ok_snoc ops readonly highest op highest' :
  parse_ok proto_max_bulk_len (ops, readonly, highest) -> op_ok proto_max_bulk_len op ->
  highest' = (if is_write op then Z.max highest (op_end op) else highest) ->
  parse_ok proto_max_bulk_len (ops ++ [op], readonly && negb (is_write op), highest').
Proof.
  intros (Hops & Hro & Hh & Hle) Hop ->. pose proof Hop as (Ho & Hb & _ & _). split_and!.
  - apply Forall_app_2; [done|by apply Forall_singleton].
  - rewrite existsb_app, Hro. cbn. by rewrite orb_false_r, negb_orb.
  - unfold op_end. destruct (is_write op); lia.
  - unfold op_end. destruct (is_write op); lia.
  - apply Forall_app_2; [|apply Forall_singleton].
    + eapply Forall_impl; [exact Hle|]. intros o Ho' Hw. specialize (Ho' Hw). destruct (is_write op); lia.
    + intros ->. lia.
Qed.

Lemma bitfield_parse_pure fuel argv j ow ops readonly highest :
  0 <= j -> zlen argv - j <= Z.of_nat fuel -> parse_ok proto_max_bulk_len (ops, readonly, highest) ->
  pure (parse_ok proto_max_bulk_len)
    (bitfield_parse false proto_max_bulk_len fuel argv j ow ops readonly highest).
Proof.
  revert j ow ops readonly highest.
  induction fuel as [|fuel IH]; intros j ow ops readonly highest Hj Hf Hok; cbn [bitfield_parse].
  { replace (zlen argv <=? j) with true by lia. by apply pure_ret. }
  apply pure_if; intros Hlt; [by apply pure_ret|].
  eapply pure_bind; [apply pure_arg; lia|]. intros subcmd _.
  apply (pure_bind (fun sub => match sub with
    | Some BITFIELDOP_GET => 2 <= zlen argv - j - 1 | Some _ => 3 <= zlen argv - j - 1
    | None => 1 <= zlen argv - j - 1 end)).
  { repeat (apply pure_if; intros); (apply pure_ret; lia) || apply pure_fail. }
  intros [opc|] Hrem.
  2: { eapply pure_bind; [apply pure_arg; lia|]. intros name _.
       apply (pure_bind (fun _ => True)); [unfold parse_owtype; auto 10 with pure|].
       intros ow' _. apply IH; [lia|lia|done]. }
  assert (2 <= zlen argv - j - 1) as Hrem2 by (destruct opc; lia).
  eapply pure_bind; [apply pure_arg; lia|]. intros a1 _.
  eapply pure_bind; [apply pure_type|]. intros [sign bits] [Hbits Hsign].
  eapply pure_bind; [apply pure_arg; lia|]. intros a2 _.
  eapply pure_bind; [apply pure_offset|]. intros off Hoff. cbv beta in Hoff.
  apply (pure_bind (fun '(ro, h, i64) => in_s 64 i64 /\
    ro = readonly && is_get opc /\
    h = if negb (is_get opc) then Z.max highest (off + bits - 1) else highest)).
  { apply pure_if; intros Hg.
    - eapply pure_bind; [apply pure_arg; destruct opc; [done|lia..]|]. intros a3 _.
      eapply pure_bind; [apply pure_long|]. intros i64 Hi. apply pure_ret.
      split; [done|]. rewrite Hg. apply negb_true_iff in Hg. rewrite Hg, andb_false_r. split; [done|].
      rewrite uwrap_id by (unfold in_u; lia). zbool; lia.
    - apply pure_ret. split; [unfold in_s; lia|]. rewrite Hg. apply negb_false_iff in Hg.
      by rewrite Hg, andb_true_r. }
  intros [[ro h] i64] (Hi & -> & Hh). apply IH; [destruct opc; cbn; lia|destruct opc; cbn; lia|].
  pose proof (parse_ok_snoc ops readonly highest (BitfieldOp off i64 opc ow bits sign) h Hok) as H.
  unfold is_write in H. cbn [bf_opcode bf_offset bf_bits] in H. rewrite negb_involutive in H.
  apply H; [|exact Hh]. unfold op_ok. cbn. done.
Qed.
End Parse.
End Bitops.
