(* ===== verification/Bitop.v ===== *)
(** * BITOP ([redis-stable/src/bitops.c])

    Bitwise operations between strings: the parsing of the command, the loop
    over four 64-bit words at a time as long as every string has data, the
    loop over the remaining bytes, and the effect on the destination key.
    The path with AVX2 instructions is not modelled.

    Shorter strings count as padded with zero bytes, missing keys as empty.
    Words are loaded from and stored to little-endian memory. *)

From S2P Require Import Prelude Numbers SdsText Bits Bitops.
From stdpp Require Import gmap.
From Stdlib Require Import ZifyBool.

Module Bitop.
Import Bits Bitops.
#[local] Open Scope Z_scope.

(** ** Operations *)

Inductive bitop :=
  | BITOP_AND | BITOP_OR | BITOP_XOR | BITOP_NOT | BITOP_DIFF | BITOP_DIFF1 | BITOP_ANDOR | BITOP_ONE.

#[export] Instance bitop_eq_dec : EqDecision bitop.
Proof. solve_decision. Defined.

(** [op] is DIFF, DIFF1 or ANDOR. *)
Definition is_diff (op : bitop) : bool :=
  match op with BITOP_DIFF | BITOP_DIFF1 | BITOP_ANDOR => true | _ => false end.

Definition named (opname : list Z) (c C : Z) (name : list Z) : bool :=
  bool_decide (head opname = Some c \/ head opname = Some C) && strcasecmp_eq opname name.

Definition parse_bitop (opname : list Z) : M bitop :=
  if named opname 97 65 (str "and") then mret BITOP_AND
  else if named opname 111 79 (str "or") then mret BITOP_OR
  else if named opname 120 88 (str "xor") then mret BITOP_XOR
  else if named opname 110 78 (str "not") then mret BITOP_NOT
  else if named opname 100 68 (str "diff") then mret BITOP_DIFF
  else if named opname 100 68 (str "diff1") then mret BITOP_DIFF1
  else if named opname 97 65 (str "andor") then mret BITOP_ANDOR
  else if named opname 111 79 (str "one") then mret BITOP_ONE
  else fail err_syntax.

Definition toupper (c : Z) : Z := if (97 <=? c) && (c <=? 122) then c - 32 else c.
Definition err_two_keys (opname : list Z) : list Z :=
  str "BITOP " ++ map toupper (SdsText.cstr opname) ++ str " must be called with at least two source keys.".

(** The loop that looks the keys up: a missing key is the empty string. *)
Fixpoint bitop_lookup (keys : list key) (first : bool) (maxlen minlen : Z)
    : M (list (list Z) * Z * Z) :=
  match keys with
  | [] => mret ([], maxlen, minlen)
  | k :: keys =>
    kv ← lookupKey k;
    match kv with
    | None =>
      '(src, maxlen, minlen) ← bitop_lookup keys false maxlen 0;
      mret ([] :: src, maxlen, minlen)
    | Some o =>
      checkType (Some o);;
      s ← (match o with OInt v => lift (int_string 32 v) | OStr s => mret s | OOther => stuck end);
      let maxlen := if maxlen <? zlen s then zlen s else maxlen in
      let minlen := if first || (zlen s <? minlen) then zlen s else minlen in
      '(src, maxlen, minlen) ← bitop_lookup keys false maxlen minlen;
      mret (s :: src, maxlen, minlen)
    end
  end.

(** ** Four words at a time *)

(** [res[r] = f(res[r], src[o])] on words at byte offsets. *)
Definition word_upd (f : Z -> Z -> Z) (res : list Z) (r : Z) (src : list Z) (o : Z)
    : option (list Z) :=
  a ← rdn res r 8;
  b ← rdn src o 8;
  wrn res r (le_bytes 8 (f (le_val a) (le_val b))).

Definition words4 (f : Z -> Z -> Z) (res : list Z) (r : Z) (src : list Z) (o : Z)
    : option (list Z) :=
  res ← word_upd f res r src o;
  res ← word_upd f res (r + 8) src (o + 8);
  res ← word_upd f res (r + 16) src (o + 16);
  word_upd f res (r + 24) src (o + 24).

Fixpoint each_key {A} (step : A -> list Z -> option A) (a : A) (keys : list (list Z)) : option A :=
  match keys with
  | [] => Some a
  | src :: keys => a ← step a src; each_key step a keys
  end.

(** [while(minlen >= sizeof(unsigned long)*4)]: [step] handles the 32 bytes at
    [j]; the result has the bytes processed. *)
Fixpoint while_words (fuel : nat) (step : list Z -> Z -> option (list Z)) (res : list Z) (j minlen : Z)
    : option (list Z * Z) :=
  if minlen <? 32 then Some (res, j)
  else
    match fuel with
    | O => None
    | S fuel => res ← step res j; while_words fuel step res (j + 32) (minlen - 32)
    end.

(** [lcommon_bits[t] |= lres[t] & lp[i][k+t]] for the four words. *)
Definition common4 (cb res : list Z) (j : Z) (src : list Z) : option (list Z) :=
  let upd cb t :=
    c ← rdn cb t 8; a ← rdn res (j + t) 8; b ← rdn src (j + t) 8;
    wrn cb t (le_bytes 8 (Z.lor (le_val c) (Z.land (le_val a) (le_val b)))) in
  cb ← upd cb 0; cb ← upd cb 8; cb ← upd cb 16; upd cb 24.

Definition one_step (keys : list (list Z)) (res : list Z) (j : Z) : option (list Z) :=
  '(res, cb) ← each_key (fun '(res, cb) src =>
      cb ← common4 cb res j src;
      res ← words4 Z.lxor res j src j;
      Some (res, cb)) (res, replicate 32 0) keys;
  words4 (fun a c => Z.land a (Z.lnot c)) res j cb 0.

Definition bitop_words (op : bitop) (src0 : list Z) (keys : list (list Z)) (res : list Z) (minlen : Z)
    : option (list Z * Z) :=
  let fuel := Z.to_nat minlen in
  res ← (if is_diff op then Some res else s ← rdn src0 0 minlen; wrn res 0 s);
  let fold f := while_words fuel (fun res j => each_key (fun res src => words4 f res j src j) res keys) res 0 minlen in
  let second f :=
    '(res, processed) ← fold Z.lor;
    '(res, _) ← while_words fuel (fun res j => words4 f res j src0 j) res 0 processed;
    Some (res, processed) in
  match op with
  | BITOP_AND => fold Z.land
  | BITOP_OR => fold Z.lor
  | BITOP_XOR => fold Z.lxor
  | BITOP_NOT => while_words fuel (fun res j => words4 (fun a _ => Z.lnot a) res j res j) res 0 minlen
  | BITOP_DIFF => second (fun l first => Z.land first (Z.lnot l))
  | BITOP_DIFF1 => second (fun l first => Z.land (Z.lnot first) l)
  | BITOP_ANDOR => second (fun l first => Z.land first l)
  | BITOP_ONE => while_words fuel (one_step keys) res 0 minlen
  end.

(** ** One byte at a time *)

Definition byte_of (s : list Z) (j : Z) : Z := if zlen s <=? j then 0 else default 0 (s !! Z.to_nat j).

(** [for (i = 1; i < numkeys; i++)], with its early exit. *)
Fixpoint bitop_byte_loop (op : bitop) (bytes : list Z) (output disjunction common_bits : Z) : Z * Z :=
  match bytes with
  | [] => (output, disjunction)
  | byte :: bytes =>
    let '(output, disjunction, common_bits, skip) :=
      match op with
      | BITOP_AND => let o := Z.land output byte in (o, disjunction, common_bits, o =? 0)
      | BITOP_OR => let o := Z.lor output byte in (o, disjunction, common_bits, o =? 0xff)
      | BITOP_XOR => (Z.lxor output byte, disjunction, common_bits, false)
      | BITOP_DIFF | BITOP_DIFF1 | BITOP_ANDOR =>
        let d := Z.lor disjunction byte in (output, d, common_bits, d =? 0xff)
      | BITOP_ONE =>
        let c := Z.lor common_bits (Z.land output byte) in
        (Z.land (Z.lxor output byte) (Z.lnot c), disjunction, c, c =? 0xff)
      | BITOP_NOT => (output, disjunction, common_bits, false)
      end in
    if skip : bool then (output, disjunction)
    else bitop_byte_loop op bytes output disjunction common_bits
  end.

Definition bitop_byte (op : bitop) (first : Z) (bytes : list Z) : Z :=
  let output := match op with BITOP_NOT => Z.land (Z.lnot first) 0xff | _ => first end in
  let '(output, disjunction) := bitop_byte_loop op bytes output 0 0 in
  match op with
  | BITOP_DIFF => Z.land (Z.land output (Z.lnot disjunction)) 0xff
  | BITOP_DIFF1 => Z.land (Z.land (Z.lnot output) disjunction) 0xff
  | BITOP_ANDOR => Z.land output disjunction
  | _ => output
  end.

(** [for (; j < maxlen; j++)] *)
Fixpoint bitop_bytes (fuel : nat) (op : bitop) (src0 : list Z) (keys : list (list Z)) (maxlen : Z)
    (res : list Z) (j : Z) : option (list Z) :=
  if maxlen <=? j then Some res
  else
    match fuel with
    | O => None
    | S fuel =>
      res ← wrn res j [bitop_byte op (byte_of src0 j) (map (fun s => byte_of s j) keys)];
      bitop_bytes fuel op src0 keys maxlen res (j + 1)
    end.

(** The computation of [res], for [maxlen] not zero. *)
Definition bitop_compute (op : bitop) (src0 : list Z) (keys : list (list Z)) (maxlen minlen : Z)
    : option (list Z) :=
  let res := replicate (Z.to_nat maxlen) 0 in
  '(res, j) ← (if 32 <=? minlen then bitop_words op src0 keys res minlen else Some (res, 0));
  bitop_bytes (Z.to_nat maxlen) op src0 keys maxlen res j.

(** ** The command *)

(** [setKey] with the string object [o]; [existed] decides the events. *)
Definition setKey (k : key) (o : obj) : M unit :=
  old ← lookupKey k;
  put k o;;
  (match old with
   | None => notifyKeyspaceEvent (str "new") k
   | Some old =>
     notifyKeyspaceEvent (str "overwritten") k;;
     match old with OOther => notifyKeyspaceEvent (str "type_changed") k | _ => mret tt end
   end);;
  keyModified k.

Definition dbDelete (k : key) : M bool :=
  old ← lookupKey k;
  match old with
  | None => mret false
  | Some _ => updates (fun s => St (delete k (db s)) (dirty s) (modified s) (events s) (out s));; mret true
  end.

Definition bitopCommand (argv : list (list Z)) : M unit :=
  opname ← arg argv 1;
  targetkey ← arg argv 2;
  op ← parse_bitop opname;
  let argc := zlen argv in
  if bool_decide (op = BITOP_NOT) && negb (argc =? 4) then fail err_not
  else if is_diff op && (argc <? 5) then fail (err_two_keys opname)
  else
    '(src, maxlen, minlen) ← bitop_lookup (drop 3 argv) true 0 0;
    match src with
    | [] => stuck
    | src0 :: keys =>
      (if negb (maxlen =? 0) then
         res ← lift (bitop_compute op src0 keys maxlen minlen);
         setKey targetkey (OStr res);;
         notifyKeyspaceEvent (str "set") targetkey;;
         add_dirty 1
       else
         deleted ← dbDelete targetkey;
         if deleted : bool then
           keyModified targetkey;;
           notifyKeyspaceEvent (str "del") targetkey;;
           add_dirty 1
         else mret tt);;
      addReply (RInt maxlen)
    end.

(** ** Specification: one bit *)

Definition bitop_bit (op : bitop) (first : bool) (rest : list bool) : bool :=
  match op with
  | BITOP_AND => first && forallb id rest
  | BITOP_OR => first || existsb id rest
  | BITOP_XOR => foldl xorb first rest
  | BITOP_NOT => negb first
  | BITOP_DIFF => first && negb (existsb id rest)
  | BITOP_DIFF1 => negb first && existsb id rest
  | BITOP_ANDOR => first && existsb id rest
  | BITOP_ONE => count_true (first :: rest) =? 1
  end.

(** Bit [i] of byte [t], the least significant bit of a byte being bit 0. *)
Definition tb (s : list Z) (t i : Z) : bool := Z.testbit (byte_of s t) i.

(** ** One byte at a time *)

Definition bits_at (i : Z) (bytes : list Z) : list bool := map (fun b => Z.testbit b i) bytes.

Lemma byte_of_ok s t : bytes_ok s -> byte_ok (byte_of s t).
Proof.
  intros Hs. unfold byte_of. destruct (zlen s <=? t); [unfold byte_ok; lia|].
  destruct (s !! Z.to_nat t) eqn:He; cbn; [by eapply Forall_lookup_1|unfold byte_ok; lia].
Qed.

Lemma byte_testbit_high b i : byte_ok b -> 8 <= i -> Z.testbit b i = false.
Proof. intros Hb Hi. by apply (testbit_small b 8). Qed.

(** A number whose bits above bit 7 are clear is a byte. *)
Lemma byte_ok_bits b : (forall i, 8 <= i -> Z.testbit b i = false) -> byte_ok b.
Proof.
  intros H. unfold byte_ok. change 256 with (2 ^ 8).
  replace b with (b mod 2 ^ 8); [apply Z.mod_pos_bound; lia|].
  apply Z.bits_inj'. intros i Hi. destruct (Z.lt_ge_cases i 8).
  - by rewrite Z.mod_pow2_bits_low by lia.
  - rewrite Z.mod_pow2_bits_high by lia. by rewrite H.
Qed.

Lemma testbit_255 i : 0 <= i < 8 -> Z.testbit 255 i = true.
Proof. intros Hi. change 255 with (Z.ones 8). by apply Z.ones_spec_low. Qed.

Lemma count_true_cons b l : count_true (b :: l) = Numbers.b2z b + count_true l.
Proof.
  unfold count_true. destruct b; cbn [Numbers.b2z].
  - rewrite filter_cons_True by done. cbn [length]. lia.
  - rewrite filter_cons_False by done. lia.
Qed.

Lemma count_true_pos l : 0 <= count_true l.
Proof. unfold count_true. lia. Qed.

Section ByteLoop.
Context (i : Z) (Hi : 0 <= i < 8).

Lemma loop_and bytes output d c :
  bytes_ok bytes ->
  Z.testbit (bitop_byte_loop BITOP_AND bytes output d c).1 i
  = Z.testbit output i && forallb id (bits_at i bytes).
Proof using Hi.
  intros Hb. revert output. induction Hb as [|b bytes Hb _ IH]; intros output; cbn; [by rewrite andb_true_r|].
  destruct (Z.eqb_spec (Z.land output b) 0) as [He|].
  - cbn. rewrite He, Z.bits_0. apply (f_equal (fun z => Z.testbit z i)) in He.
    rewrite Z.land_spec, Z.bits_0 in He. unfold id at 1. by rewrite andb_assoc, He.
  - rewrite IH, Z.land_spec, andb_assoc. done.
Qed.

Lemma loop_or bytes output d c :
  bytes_ok bytes ->
  Z.testbit (bitop_byte_loop BITOP_OR bytes output d c).1 i
  = Z.testbit output i || existsb id (bits_at i bytes).
Proof using Hi.
  intros Hb. revert output. induction Hb as [|b bytes Hb _ IH]; intros output; cbn; [by rewrite orb_false_r|].
  destruct (Z.eqb_spec (Z.lor output b) 255) as [He|].
  - cbn. rewrite He, testbit_255 by done. apply (f_equal (fun z => Z.testbit z i)) in He.
    rewrite Z.lor_spec, testbit_255 in He by done. unfold id at 1. by rewrite orb_assoc, He.
  - rewrite IH, Z.lor_spec, orb_assoc. done.
Qed.

Lemma loop_xor bytes output d c :
  Z.testbit (bitop_byte_loop BITOP_XOR bytes output d c).1 i
  = foldl xorb (Z.testbit output i) (bits_at i bytes).
Proof. revert output. induction bytes as [|b bytes IH]; intros output; cbn; [done|]. by rewrite IH, Z.lxor_spec. Qed.

Lemma loop_diff op bytes output d c :
  is_diff op = true -> bytes_ok bytes ->
  (bitop_byte_loop op bytes output d c).1 = output /\
  Z.testbit (bitop_byte_loop op bytes output d c).2 i = Z.testbit d i || existsb id (bits_at i bytes).
Proof using Hi.
  intros Hop Hb. revert d.
  assert (forall d b bytes, bitop_byte_loop op (b :: bytes) output d c =
    if Z.lor d b =? 255 then (output, Z.lor d b) else bitop_byte_loop op bytes output (Z.lor d b) c) as Hstep
    by (intros; by destruct op).
  induction Hb as [|b bytes Hb _ IH]; intros d; [by rewrite orb_false_r|]. rewrite Hstep. cbn [bits_at map existsb].
  destruct (Z.eqb_spec (Z.lor d b) 255) as [He|].
  - cbn. rewrite He, testbit_255 by done. apply (f_equal (fun z => Z.testbit z i)) in He.
    rewrite Z.lor_spec, testbit_255 in He by done. unfold id at 1. by rewrite orb_assoc, He.
  - destruct (IH (Z.lor d b)) as [-> ->]. by rewrite Z.lor_spec, <- orb_assoc.
Qed.

(** [output] has the bits seen in exactly one key so far, [common_bits] those
    seen in more than one. *)
Lemma loop_one bytes output d c n :
  bytes_ok bytes -> 0 <= n ->
  Z.testbit output i = (n =? 1) -> Z.testbit c i = (2 <=? n) ->
  Z.testbit (bitop_byte_loop BITOP_ONE bytes output d c).1 i = (n + count_true (bits_at i bytes) =? 1).
Proof using Hi.
  intros Hb. revert output c n. induction Hb as [|b bytes Hb _ IH]; intros output c n Hn Ho Hc; cbn [bitop_byte_loop].
  { cbn. by rewrite Ho, Z.add_0_r. }
  set (c' := Z.lor c (Z.land output b)). set (o' := Z.land (Z.lxor output b) (Z.lnot c')).
  assert (Z.testbit c' i = (2 <=? n + Numbers.b2z (Z.testbit b i))) as Hc'.
  { unfold c'. rewrite Z.lor_spec, Z.land_spec, Ho, Hc. destruct (Z.testbit b i); cbn; lia. }
  assert (Z.testbit o' i = (n + Numbers.b2z (Z.testbit b i) =? 1)) as Ho'.
  { unfold o'. rewrite Z.land_spec, Z.lxor_spec, Z.lnot_spec, Ho, Hc' by lia. destruct (Z.testbit b i); cbn; lia. }
  cbn [bits_at map]. rewrite count_true_cons. pose proof (count_true_pos (bits_at i bytes)).
  destruct (Z.eqb_spec c' 255) as [He|].
  - cbn [fst]. rewrite Ho'. rewrite He, testbit_255 in Hc' by done. fold (bits_at i bytes). lia.
  - rewrite (IH o' c' (n + Numbers.b2z (Z.testbit b i))); [|destruct (Z.testbit b i); cbn; lia|done|done].
    fold (bits_at i bytes). f_equal. lia.
Qed.

Lemma bitop_byte_bit op first bytes :
  byte_ok first -> bytes_ok bytes ->
  Z.testbit (bitop_byte op first bytes) i = bitop_bit op (Z.testbit first i) (bits_at i bytes).
Proof using Hi.
  intros Hf Hb. unfold bitop_byte.
  assert (forall o d c, bitop_byte_loop BITOP_NOT bytes o d c = (o, d)) as Hnot
    by (clear Hb; induction bytes; intros; cbn; auto).
  destruct op; cbn [bitop_bit].
  - pose proof (loop_and bytes first 0 0 Hb) as H. destruct (bitop_byte_loop _ _ _ _ _). exact H.
  - pose proof (loop_or bytes first 0 0 Hb) as H. destruct (bitop_byte_loop _ _ _ _ _). exact H.
  - pose proof (loop_xor bytes first 0 0) as H. destruct (bitop_byte_loop _ _ _ _ _). exact H.
  - rewrite Hnot, Z.land_spec, Z.lnot_spec, testbit_255, andb_true_r by lia. done.
  - destruct (loop_diff BITOP_DIFF bytes first 0 0 eq_refl Hb) as [H1 H2].
    destruct (bitop_byte_loop _ _ _ _ _) as [o d]. cbn [fst snd] in *. subst o.
    by rewrite !Z.land_spec, Z.lnot_spec, H2, Z.bits_0, testbit_255, andb_true_r by lia.
  - destruct (loop_diff BITOP_DIFF1 bytes first 0 0 eq_refl Hb) as [H1 H2].
    destruct (bitop_byte_loop _ _ _ _ _) as [o d]. cbn [fst snd] in *. subst o.
    by rewrite !Z.land_spec, Z.lnot_spec, H2, Z.bits_0, testbit_255, andb_true_r by lia.
  - destruct (loop_diff BITOP_ANDOR bytes first 0 0 eq_refl Hb) as [H1 H2].
    destruct (bitop_byte_loop _ _ _ _ _) as [o d]. cbn [fst snd] in *. subst o.
    by rewrite Z.land_spec, H2, Z.bits_0.
  - pose proof (loop_one bytes first 0 0 (Numbers.b2z (Z.testbit first i)) Hb) as H.
    destruct (bitop_byte_loop _ _ _ _ _) as [o d]. cbn [fst] in H.
    rewrite count_true_cons. apply H; [by destruct (Z.testbit first i)..|].
    rewrite Z.bits_0. by destruct (Z.testbit first i).
Qed.
End ByteLoop.

Lemma byte_land a b : byte_ok a -> byte_ok (Z.land a b).
Proof. intros Ha. apply byte_ok_bits. intros i Hi. by rewrite Z.land_spec, byte_testbit_high. Qed.
Lemma byte_lor a b : byte_ok a -> byte_ok b -> byte_ok (Z.lor a b).
Proof. intros. apply byte_ok_bits. intros i Hi. by rewrite Z.lor_spec, !byte_testbit_high. Qed.
Lemma byte_lxor a b : byte_ok a -> byte_ok b -> byte_ok (Z.lxor a b).
Proof. intros. apply byte_ok_bits. intros i Hi. by rewrite Z.lxor_spec, !byte_testbit_high. Qed.
Lemma byte_255 : byte_ok 255.
Proof. unfold byte_ok. lia. Qed.
#[local] Hint Resolve byte_land byte_lor byte_lxor byte_255 : bytes.

Lemma loop_byte_ok op bytes o d c :
  bytes_ok bytes -> byte_ok o -> byte_ok d ->
  byte_ok (bitop_byte_loop op bytes o d c).1 /\ byte_ok (bitop_byte_loop op bytes o d c).2.
Proof.
  intros Hb. revert o d c. induction Hb as [|b bytes Hb _ IH]; intros o d c Ho Hd; [done|].
  cbn [bitop_byte_loop].
  destruct op; try (destruct (_ =? _); [cbn|apply IH]; auto with bytes); apply IH; auto with bytes.
Qed.

Lemma bitop_byte_ok op first bytes : byte_ok first -> bytes_ok bytes -> byte_ok (bitop_byte op first bytes).
Proof.
  intros Hf Hb. unfold bitop_byte.
  assert (byte_ok (Z.land (Z.lnot first) 255)) as Hn by (rewrite Z.land_comm; auto with bytes).
  assert (byte_ok 0) as H0 by (unfold byte_ok; lia).
  set (o := match op with BITOP_NOT => _ | _ => first end).
  assert (byte_ok o) as Ho by (unfold o; by destruct op).
  destruct (loop_byte_ok op bytes o 0 0 Hb Ho H0) as [H1 H2].
  destruct (bitop_byte_loop op bytes o 0 0) as [o' d]. cbn [fst snd] in *.
  destruct op; try done; rewrite Z.land_comm; auto with bytes.
Qed.

(** ** Four words at a time *)

(** Goes through the cases of the conditionals of the goal. *)
Ltac if_cases :=
  repeat match goal with |- context [if ?c then _ else _] => destruct c eqn:? end.

Definition bitwise (f : Z -> Z -> Z) (h : bool -> bool -> bool) : Prop :=
  forall x y i, 0 <= i -> Z.testbit (f x y) i = h (Z.testbit x i) (Z.testbit y i).

Lemma byte_of_in s t b : 0 <= t -> s !! Z.to_nat t = Some b -> byte_of s t = b.
Proof.
  intros Ht Hb. unfold byte_of. pose proof (lookup_lt_Some _ _ _ Hb).
  replace (zlen s <=? t) with false by lia. by rewrite Hb.
Qed.

Lemma le_val_testbit a t i :
  bytes_ok a -> 0 <= t < zlen a -> 0 <= i < 8 -> Z.testbit (le_val a) (8 * t + i) = tb a t i.
Proof.
  intros Ha. revert t. induction Ha as [|b a Hb _ IH]; intros t Ht Hi; [cbn in Ht; lia|].
  cbn [le_val]. unfold byte_ok in Hb. rewrite Z.mul_comm, <- (lor_shiftl_add _ _ 8), Z.lor_spec by lia.
  destruct (decide (t = 0)) as [-> |].
  - rewrite Z.shiftl_spec_low, orb_false_r by lia. unfold tb. by rewrite (byte_of_in _ 0 b).
  - rewrite Z.shiftl_spec, (testbit_small b 8), orb_false_l by lia.
    replace (8 * t + i - 8) with (8 * (t - 1) + i) by lia. rewrite IH by (cbn in Ht; lia). unfold tb, byte_of.
    replace (zlen (b :: a) <=? t) with (zlen a <=? t - 1) by (cbn; lia).
    replace (Z.to_nat t) with (S (Z.to_nat (t - 1))) by lia. done.
Qed.

Lemma le_bytes_testbit n z t i :
  0 <= t < Z.of_nat n -> 0 <= i < 8 -> tb (le_bytes n z) t i = Z.testbit z (8 * t + i).
Proof.
  intros Ht Hi. rewrite <- le_val_testbit by (rewrite ?le_bytes_length; auto with bytes).
  rewrite le_val_bytes, Z.mod_pow2_bits_low by lia. done.
Qed.

Lemma tb_rdn m off n bs t i :
  rdn m off n = Some bs -> 0 <= t < n -> tb bs t i = tb m (off + t) i.
Proof.
  intros (H1 & H2 & H3 & ->)%rdn_Some Ht. unfold tb. f_equal. unfold byte_of.
  rewrite length_take, length_drop, lookup_take_lt, lookup_drop by lia.
  replace (Z.of_nat _ <=? t) with false by lia. replace (zlen m <=? off + t) with false by lia.
  do 2 f_equal. lia.
Qed.

Lemma tb_wrn m off bs t i m' :
  wrn m off bs = Some m' -> 0 <= t ->
  tb m' t i = if (off <=? t) && (t <? off + zlen bs) then tb bs (t - off) i else tb m t i.
Proof.
  intros Hw Ht. pose proof (wrn_length _ _ _ _ Hw) as Hl. unfold wrn in Hw.
  destruct ((0 <=? off) && (off + zlen bs <=? zlen m)) eqn:Hc; [|done]. injection Hw as <-.
  unfold tb. unfold byte_of at 1. rewrite Hl.
  assert (length (take (Z.to_nat off) m) = Z.to_nat off) as Htk by (rewrite length_take; lia).
  destruct ((off <=? t) && (t <? off + zlen bs)) eqn:Hin; unfold byte_of.
  - replace (zlen m <=? t) with false by lia. replace (zlen bs <=? t - off) with false by lia.
    rewrite lookup_app_r, lookup_app_l, Htk by lia. do 3 f_equal. lia.
  - destruct (zlen m <=? t) eqn:Hlm; [done|]. f_equal. f_equal.
    destruct (Z.lt_ge_cases t off).
    + rewrite lookup_app_l, lookup_take_lt by lia. done.
    + rewrite !lookup_app_r, lookup_drop, Htk by lia. f_equal. lia.
Qed.

(** The bits of the bytes from [lo] to [hi] change, the others do not. *)
Definition changed (m m' : list Z) (lo hi : Z) (F : Z -> Z -> bool) : Prop :=
  bytes_ok m' /\ length m' = length m /\
  forall t i, 0 <= t -> 0 <= i < 8 -> tb m' t i = if (lo <=? t) && (t <? hi) then F t i else tb m t i.

Lemma word_upd_spec f h res r src o :
  bitwise f h -> bytes_ok res -> bytes_ok src ->
  0 <= r -> r + 8 <= zlen res -> 0 <= o -> o + 8 <= zlen src ->
  exists res', word_upd f res r src o = Some res' /\
    changed res res' r (r + 8) (fun t i => h (tb res t i) (tb src (t - r + o) i)).
Proof.
  intros Hf Hres Hsrc Hr Hrl Ho Hol. unfold word_upd.
  destruct (rdn res r 8) as [a|] eqn:Ha; [|unfold rdn in Ha; destruct (_ && _) eqn:?; [done|lia]].
  destruct (rdn src o 8) as [b|] eqn:Hb; [|unfold rdn in Hb; destruct (_ && _) eqn:?; [done|lia]]. mred.
  pose proof (rdn_length _ _ _ _ Ha) as Hla. pose proof (rdn_length _ _ _ _ Hb) as Hlb.
  pose proof (rdn_bytes_ok _ _ _ _ Hres Ha). pose proof (rdn_bytes_ok _ _ _ _ Hsrc Hb).
  set (w := le_bytes 8 _). assert (zlen w = 8) as Hw by (unfold w; by rewrite le_bytes_length).
  destruct (wrn res r w) as [res'|] eqn:Hres'; [|unfold wrn in Hres'; destruct (_ && _) eqn:?; [done|lia]].
  exists res'. split; [done|]. split_and!.
  - apply (wrn_bytes_ok res r w); [done|apply le_bytes_ok|done].
  - by eapply wrn_length.
  - intros t i Ht Hi. rewrite (tb_wrn _ _ _ _ _ _ Hres') by done. rewrite Hw.
    destruct ((r <=? t) && (t <? r + 8)) eqn:Hin; [|done]. unfold w.
    rewrite le_bytes_testbit, Hf, !le_val_testbit by (done || lia).
    rewrite (tb_rdn _ _ _ _ _ _ Ha), (tb_rdn _ _ _ _ _ _ Hb) by lia. f_equal; f_equal; lia.
Qed.

Lemma words4_spec f h res r src o :
  bitwise f h -> bytes_ok res -> bytes_ok src ->
  0 <= r -> r + 32 <= zlen res -> 0 <= o -> o + 32 <= zlen src ->
  exists res', words4 f res r src o = Some res' /\
    changed res res' r (r + 32) (fun t i => h (tb res t i) (tb src (t - r + o) i)).
Proof.
  intros Hf Hres Hsrc Hr Hrl Ho Hol. unfold words4.
  destruct (word_upd_spec f h res r src o) as (r1 & -> & Hok1 & Hl1 & H1); try (done || lia). mred.
  destruct (word_upd_spec f h r1 (r + 8) src (o + 8)) as (r2 & -> & Hok2 & Hl2 & H2); try (done || lia). mred.
  destruct (word_upd_spec f h r2 (r + 16) src (o + 16)) as (r3 & -> & Hok3 & Hl3 & H3); try (done || lia). mred.
  destruct (word_upd_spec f h r3 (r + 24) src (o + 24)) as (r4 & -> & Hok4 & Hl4 & H4); try (done || lia).
  exists r4. split; [done|]. split_and!; [done|congruence|]. intros t i Ht Hi.
  rewrite H4, H3, H2, H1 by done.
  replace (t - (r + 8) + (o + 8)) with (t - r + o) by lia. replace (t - (r + 16) + (o + 16)) with (t - r + o) by lia.
  replace (t - (r + 24) + (o + 24)) with (t - r + o) by lia.
  if_cases; (done || lia).
Qed.

Lemma changed_id m : bytes_ok m -> changed m m 0 0 (fun _ _ => false).
Proof. intros Hm. split_and!; try done. intros t i Ht Hi. by replace ((0 <=? t) && (t <? 0)) with false by lia. Qed.

(** The fold of one operation over the keys, on 32 bytes. *)
Lemma each_key_spec f h keys res j :
  bitwise f h -> bytes_ok res -> Forall (fun s => bytes_ok s /\ j + 32 <= zlen s) keys ->
  0 <= j -> j + 32 <= zlen res ->
  exists res', each_key (fun res src => words4 f res j src j) res keys = Some res' /\
    changed res res' j (j + 32) (fun t i => foldl h (tb res t i) (map (fun s => tb s t i) keys)).
Proof.
  intros Hf Hres Hk Hj Hl. revert res Hres Hl.
  induction Hk as [|src keys [Hsrc Hsl] _ IH]; intros res Hres Hl; cbn [each_key map foldl].
  { exists res. split; [done|]. split_and!; try done. intros. by destruct (_ && _). }
  destruct (words4_spec f h res j src j) as (r1 & -> & Hok1 & Hl1 & H1); try (done || lia). mred.
  destruct (IH r1 Hok1 ltac:(lia)) as (r2 & -> & Hok2 & Hl2 & H2).
  exists r2. split; [done|]. split_and!; [done|congruence|]. intros t i Ht Hi.
  rewrite H2, H1 by done. replace (t - j + j) with t by lia. by destruct (_ && _).
Qed.

(** [step] turns the bits of its 32 bytes into [F] of what they were. *)
Definition block_step (step : list Z -> Z -> option (list Z)) (len : Z) (F : bool -> Z -> Z -> bool) : Prop :=
  forall res j, bytes_ok res -> 0 <= j -> j + 32 <= zlen res -> j + 32 <= len ->
  exists res', step res j = Some res' /\ changed res res' j (j + 32) (fun t i => F (tb res t i) t i).

Lemma while_words_spec step F fuel res j minlen :
  block_step step (j + minlen) F -> bytes_ok res -> 0 <= j -> 0 <= minlen -> j + minlen <= zlen res ->
  minlen <= Z.of_nat fuel ->
  exists res' j', while_words fuel step res j minlen = Some (res', j') /\ j <= j' <= j + minlen /\
    (j' - j) mod 32 = 0 /\ j + minlen - j' < 32 /\ changed res res' j j' (fun t i => F (tb res t i) t i).
Proof.
  revert res j minlen. induction fuel as [|fuel IH]; intros res j minlen Hst Hok Hj Hm Hl Hf; cbn [while_words].
  all: destruct (Z.ltb_spec minlen 32).
  1,3: exists res, j; split; [done|]; rewrite Z.sub_diag; unfold changed; split_and!; try (done || lia);
    intros t i Ht Hi; by replace ((j <=? t) && (t <? j)) with false by lia.
  { lia. }
  destruct (Hst res j) as (r1 & -> & Hok1 & Hl1 & H1); [done|lia..|]. mred.
  destruct (IH r1 (j + 32) (minlen - 32)) as (r2 & j' & -> & Hj' & Hmod & Hlast & Hok2 & Hl2 & H2);
    [|done|lia..|].
  { intros res' k. replace (j + 32 + (minlen - 32)) with (j + minlen) by lia. apply Hst. }
  exists r2, j'. split; [done|]. split; [lia|]. split; [dlia|]. split; [lia|].
  split_and!; [done|congruence|]. intros t i Ht Hi. rewrite H2, H1 by done.
  if_cases; (done || lia).
Qed.

(** One word of the bits seen more than once. *)
Definition common_upd (cb res : list Z) (j : Z) (src : list Z) (t : Z) : option (list Z) :=
  c ← rdn cb t 8; a ← rdn res (j + t) 8; b ← rdn src (j + t) 8;
  wrn cb t (le_bytes 8 (Z.lor (le_val c) (Z.land (le_val a) (le_val b)))).

Lemma rdn_in m off n : 0 <= off -> 0 <= n -> off + n <= zlen m -> exists bs, rdn m off n = Some bs.
Proof. intros. eexists. by apply rdn_Some. Qed.

Lemma common_upd_spec cb res j src r :
  bytes_ok cb -> bytes_ok res -> bytes_ok src -> zlen cb = 32 ->
  0 <= j -> j + 32 <= zlen res -> j + 32 <= zlen src -> 0 <= r -> r + 8 <= 32 ->
  exists cb', common_upd cb res j src r = Some cb' /\
    changed cb cb' r (r + 8) (fun t i => tb cb t i || tb res (j + t) i && tb src (j + t) i).
Proof.
  intros Hcb Hres Hsrc Hl Hj Hrl Hsl Hr Hr8. unfold common_upd.
  destruct (rdn_in cb r 8) as [c Hc]; [lia..|]. destruct (rdn_in res (j + r) 8) as [a Ha]; [lia..|].
  destruct (rdn_in src (j + r) 8) as [b Hb]; [lia..|]. rewrite Hc, Ha, Hb. mred.
  pose proof (rdn_length _ _ _ _ Ha); pose proof (rdn_length _ _ _ _ Hb); pose proof (rdn_length _ _ _ _ Hc).
  pose proof (rdn_bytes_ok _ _ _ _ Hres Ha); pose proof (rdn_bytes_ok _ _ _ _ Hsrc Hb);
    pose proof (rdn_bytes_ok _ _ _ _ Hcb Hc).
  set (w := le_bytes 8 _). assert (zlen w = 8) as Hw by (unfold w; by rewrite le_bytes_length).
  destruct (wrn cb r w) as [cb'|] eqn:Hcb'; [|unfold wrn in Hcb'; destruct (_ && _) eqn:?; [done|lia]].
  exists cb'. split; [done|]. split_and!.
  - apply (wrn_bytes_ok cb r w); [done|apply le_bytes_ok|done].
  - by eapply wrn_length.
  - intros t i Ht Hi. rewrite (tb_wrn _ _ _ _ _ _ Hcb') by done. rewrite Hw.
    destruct ((r <=? t) && (t <? r + 8)) eqn:Hin; [|done]. unfold w.
    rewrite le_bytes_testbit, Z.lor_spec, Z.land_spec, !le_val_testbit by (done || lia).
    rewrite (tb_rdn _ _ _ _ _ _ Ha), (tb_rdn _ _ _ _ _ _ Hb), (tb_rdn _ _ _ _ _ _ Hc) by lia.
    f_equal; [f_equal; lia|]. f_equal; f_equal; lia.
Qed.

Lemma common4_spec cb res j src :
  bytes_ok cb -> bytes_ok res -> bytes_ok src -> zlen cb = 32 ->
  0 <= j -> j + 32 <= zlen res -> j + 32 <= zlen src ->
  exists cb', common4 cb res j src = Some cb' /\
    changed cb cb' 0 32 (fun t i => tb cb t i || tb res (j + t) i && tb src (j + t) i).
Proof.
  intros Hcb Hres Hsrc Hl Hj Hrl Hsl. unfold common4.
  destruct (common_upd_spec cb res j src 0) as (c1 & He1 & Hok1 & Hl1 & H1); try (done || lia).
  unfold common_upd in He1. rewrite He1. mred. clear He1.
  destruct (common_upd_spec c1 res j src 8) as (c2 & He2 & Hok2 & Hl2 & H2); try (done || lia).
  unfold common_upd in He2. rewrite He2. mred. clear He2.
  destruct (common_upd_spec c2 res j src 16) as (c3 & He3 & Hok3 & Hl3 & H3); try (done || lia).
  unfold common_upd in He3. rewrite He3. mred. clear He3.
  destruct (common_upd_spec c3 res j src 24) as (c4 & He4 & Hok4 & Hl4 & H4); try (done || lia).
  unfold common_upd in He4. rewrite He4. clear He4.
  exists c4. split; [done|]. split_and!; [done|congruence|]. intros t i Ht Hi.
  rewrite H4, H3, H2, H1 by done. if_cases; (done || lia).
Qed.

(** [N t i] counts the keys seen so far with bit [i] of byte [j + t] set. *)
Definition counted (j : Z) (res cb : list Z) (N : Z -> Z -> Z) : Prop :=
  forall t i, 0 <= t < 32 -> 0 <= i < 8 ->
  0 <= N t i /\ tb res (j + t) i = Z.odd (N t i) /\ tb cb t i = (2 <=? N t i).

Abbreviation one_key j := (fun '(res, cb) src =>
  cb ← common4 cb res j src;
  res ← words4 Z.lxor res j src j;
  Some (res, cb)).

Lemma one_keys_spec keys j res cb N :
  bytes_ok res -> bytes_ok cb -> zlen cb = 32 -> 0 <= j -> j + 32 <= zlen res ->
  Forall (fun s => bytes_ok s /\ j + 32 <= zlen s) keys -> counted j res cb N ->
  exists res' cb', each_key (one_key j) (res, cb) keys = Some (res', cb') /\
    bytes_ok res' /\ bytes_ok cb' /\ zlen cb' = 32 /\ length res' = length res /\
    (forall t i, 0 <= t -> 0 <= i < 8 -> ~ j <= t < j + 32 -> tb res' t i = tb res t i) /\
    counted j res' cb' (fun t i => N t i + count_true (map (fun s => tb s (j + t) i) keys)).
Proof.
  intros Hres Hcb Hcl Hj Hrl Hk. revert res cb N Hres Hcb Hcl Hrl.
  induction Hk as [|src keys [Hsrc Hsl] _ IH]; intros res cb N Hres Hcb Hcl Hrl HN; cbn [each_key].
  { exists res, cb. split_and!; try done. intros t i Ht Hi. cbn [map]. change (count_true []) with 0.
    rewrite Z.add_0_r. by apply HN. }
  destruct (common4_spec cb res j src) as (cb1 & -> & Hok1 & Hl1 & H1); try done. mred.
  destruct (words4_spec Z.lxor xorb res j src j) as (r1 & -> & Hok2 & Hl2 & H2); try (done || lia).
  { intros x y i _. apply Z.lxor_spec. } mred.
  destruct (IH r1 cb1 (fun t i => N t i + Numbers.b2z (tb src (j + t) i)))
    as (r' & cb' & -> & ? & ? & ? & Hl' & Hout & Hc); [done|done|lia|lia| |].
  - intros t i Ht Hi. destruct (HN t i Ht Hi) as (Hn & Ho & H2n). rewrite H1, H2 by lia.
    replace ((0 <=? t) && (t <? 32)) with true by lia.
    replace ((j <=? j + t) && (j + t <? j + 32)) with true by lia.
    replace (j + t - j + j) with (j + t) by lia. rewrite Ho, H2n.
    destruct (tb src (j + t) i); cbn [Numbers.b2z]; rewrite ?Z.odd_add, ?Z.add_0_r, ?xorb_false_r, ?andb_true_r, ?andb_false_r;
      (split; [lia|split; [done|]]); [|by rewrite orb_false_r].
    destruct (Z.odd (N t i)) eqn:Hodd; [|rewrite orb_false_r; destruct (decide (N t i = 1)) as [He|]; [rewrite He in Hodd; done|lia]].
    destruct (decide (N t i = 0)) as [He|]; [rewrite He in Hodd; done|lia].
  - exists r', cb'. split_and!; try done; [congruence| |].
    + intros t i Ht Hi Hn. rewrite Hout, H2 by done. by replace ((j <=? t) && (t <? j + 32)) with false by lia.
    + intros t i Ht Hi. cbn [map]. rewrite count_true_cons, Z.add_assoc. by apply Hc.
Qed.

Lemma tb_zeros n t i : tb (replicate n 0) t i = false.
Proof.
  unfold tb, byte_of. destruct (_ <=? t); [apply Z.bits_0|].
  destruct (replicate n 0 !! Z.to_nat t) as [b|] eqn:Hb; cbn; [|apply Z.bits_0].
  apply lookup_replicate in Hb as [-> _]. apply Z.bits_0.
Qed.

Lemma odd_one n : 0 <= n -> Z.odd n && negb (2 <=? n) = (n =? 1).
Proof.
  intros Hn. destruct (decide (n = 0)) as [-> |]; [done|]. destruct (decide (n = 1)) as [-> |]; [done|].
  replace (2 <=? n) with true by lia. rewrite andb_false_r. lia.
Qed.

Section Words.
Context (src0 : list Z) (keys : list (list Z)) (minlen : Z).
Context (H0 : bytes_ok src0 /\ minlen <= zlen src0).
Context (Hk : Forall (fun s => bytes_ok s /\ minlen <= zlen s) keys).

Lemma keys_at j : j + 32 <= minlen -> Forall (fun s => bytes_ok s /\ j + 32 <= zlen s) keys.
Proof using All. intros. eapply Forall_impl; [exact Hk|]. intros s [? ?]. split; [done|lia]. Qed.

Lemma one_step_spec :
  block_step (one_step keys) minlen (fun b t i => count_true (b :: map (fun s => tb s t i) keys) =? 1).
Proof using All.
  intros res j Hok Hj Hl Hm. unfold one_step.
  destruct (one_keys_spec keys j res (replicate 32 0) (fun t i => Numbers.b2z (tb res (j + t) i)))
    as (r1 & cb & -> & Hok1 & Hokc & Hlc & Hl1 & Hout & Hc); try (done || lia).
  { apply zeros_ok. }
  { by apply keys_at. }
  { intros t i Ht Hi. rewrite tb_zeros. by destruct (tb res (j + t) i). }
  mred. destruct (words4_spec (fun a c => Z.land a (Z.lnot c)) (fun a c => a && negb c) r1 j cb 0)
    as (r2 & -> & Hok2 & Hl2 & H2); try (done || lia).
  { intros x y i Hi. by rewrite Z.land_spec, Z.lnot_spec. }
  exists r2. split; [done|]. split_and!; [done|congruence|]. intros t i Ht Hi. rewrite H2 by done.
  destruct ((j <=? t) && (t <? j + 32)) eqn:Hin; [|apply Hout; (done || lia)].
  destruct (Hc (t - j) i) as (Hn & Ho & H2n); [lia|done|].
  replace (j + (t - j)) with t in * by lia. rewrite Z.add_0_r, Ho, H2n, odd_one by done.
  by rewrite count_true_cons.
Qed.

Lemma fold_step_spec f h :
  bitwise f h ->
  block_step (fun res j => each_key (fun res src => words4 f res j src j) res keys) minlen
    (fun b t i => foldl h b (map (fun s => tb s t i) keys)).
Proof using All. intros Hf res j Hok Hj Hl Hm. apply each_key_spec; try done. by apply keys_at. Qed.

Lemma second_step_spec f h len :
  bitwise f h -> len <= minlen ->
  block_step (fun res j => words4 f res j src0 j) len (fun b t i => h b (tb src0 t i)).
Proof using All.
  intros Hf Hlen res j Hok Hj Hl Hm. destruct H0 as [? ?].
  destruct (words4_spec f h res j src0 j) as (r & -> & Hc); try (done || lia).
  exists r. split; [done|]. destruct Hc as (? & ? & Hc). split_and!; try done. intros t i Ht Hi.
  rewrite Hc by done. by replace (t - j + j) with t by lia.
Qed.

Lemma not_step_spec :
  block_step (fun res j => words4 (fun a _ => Z.lnot a) res j res j) minlen (fun b _ _ => negb b).
Proof using All.
  intros res j Hok Hj Hl Hm.
  destruct (words4_spec (fun a _ => Z.lnot a) (fun a _ => negb a) res j res j) as (r & -> & Hc); try (done || lia).
  { intros x y i Hi. by apply Z.lnot_spec. }
  by exists r.
Qed.
End Words.

Lemma foldl_andb b l : foldl andb b l = b && forallb id l.
Proof. revert b. induction l as [|x l IH]; intros b; cbn; [by rewrite andb_true_r|]. by rewrite IH, andb_assoc. Qed.

Lemma foldl_orb b l : foldl orb b l = b || existsb id l.
Proof. revert b. induction l as [|x l IH]; intros b; cbn; [by rewrite orb_false_r|]. by rewrite IH, orb_assoc. Qed.

Lemma words_copy src0 res minlen :
  bytes_ok src0 -> minlen <= zlen src0 -> bytes_ok res -> 0 <= minlen <= zlen res ->
  exists r, (s ← rdn src0 0 minlen; wrn res 0 s) = Some r /\ changed res r 0 minlen (fun t i => tb src0 t i).
Proof.
  intros H0 Hl0 Hok Hl. destruct (rdn_in src0 0 minlen) as [x Hx]; [lia..|]. rewrite Hx. mred.
  pose proof (rdn_length _ _ _ _ Hx) as Hxl.
  destruct (wrn res 0 x) as [r|] eqn:Hr; [|unfold wrn in Hr; destruct (_ && _) eqn:?; [done|lia]].
  exists r. split; [done|]. split_and!; [|by eapply wrn_length|].
  - apply (wrn_bytes_ok res 0 x); [done|by apply (rdn_bytes_ok src0 0 minlen x)|done].
  - intros t i Ht Hi. rewrite (tb_wrn _ _ _ _ _ _ Hr) by done. rewrite Hxl, Z.add_0_l.
    destruct (_ && _) eqn:Hin; [|done]. rewrite (tb_rdn _ _ _ _ _ _ Hx) by lia. f_equal. lia.
Qed.

(** The loop over words: the first [j] bytes hold the result. *)
Definition words_ok (op : bitop) (src0 : list Z) (keys : list (list Z)) (res : list Z) (minlen : Z)
    (r : option (list Z * Z)) : Prop :=
  exists res' j, r = Some (res', j) /\ bytes_ok res' /\
    length res' = length res /\ 0 <= j <= minlen /\
    forall t i, 0 <= t < j -> 0 <= i < 8 ->
      tb res' t i = bitop_bit op (tb src0 t i) (map (fun s => tb s t i) keys).

Lemma while_words_ok op src0 keys res r minlen step F :
  changed res r 0 minlen (fun t i => tb src0 t i) -> 0 <= minlen <= zlen res ->
  block_step step minlen F ->
  (forall b t i, F b t i = bitop_bit op b (map (fun s => tb s t i) keys)) ->
  words_ok op src0 keys res minlen (while_words (Z.to_nat minlen) step r 0 minlen).
Proof.
  intros (Hok & Hl & Hr) Hm Hst HF.
  destruct (while_words_spec step F (Z.to_nat minlen) r 0 minlen) as (r' & j & He & Hj & _ & _ & Hok' & Hl' & H');
    try (done || lia).
  exists r', j. split_and!; [done|done|congruence|lia|lia|]. intros t i Ht Hi. rewrite H', Hr by lia.
  replace ((0 <=? t) && (t <? j)) with true by lia. replace ((0 <=? t) && (t <? minlen)) with true by lia.
  apply HF.
Qed.

Lemma second_words_ok op src0 keys res minlen f h :
  bytes_ok src0 /\ minlen <= zlen src0 -> Forall (fun s => bytes_ok s /\ minlen <= zlen s) keys ->
  (forall t i, tb res t i = false) -> bytes_ok res -> 0 <= minlen <= zlen res -> bitwise f h ->
  (forall b l, h (existsb id l) b = bitop_bit op b l) ->
  words_ok op src0 keys res minlen
    ('(res, processed) ← while_words (Z.to_nat minlen)
       (fun res j => each_key (fun res src => words4 Z.lor res j src j) res keys) res 0 minlen;
     '(res, _) ← while_words (Z.to_nat minlen) (fun res j => words4 f res j src0 j) res 0 processed;
     Some (res, processed)).
Proof.
  intros H0 Hk Hz Hok Hm Hf Hh.
  destruct (while_words_spec (fun res j => each_key (fun res src => words4 Z.lor res j src j) res keys)
    (fun b t i => foldl orb b (map (fun s => tb s t i) keys)) (Z.to_nat minlen) res 0 minlen)
    as (r1 & j & -> & Hj & Hmod & _ & Hok1 & Hl1 & H1); try (done || lia).
  { rewrite Z.add_0_l. apply (fold_step_spec src0); try done. intros x y i _. apply Z.lor_spec. } mred.
  destruct (while_words_spec (fun res j => words4 f res j src0 j) (fun b t i => h b (tb src0 t i))
    (Z.to_nat minlen) r1 0 j) as (r2 & j2 & -> & Hj2 & Hmod2 & Hlast & Hok2 & Hl2 & H2); try (done || lia).
  { rewrite Z.add_0_l. by apply (second_step_spec src0 keys minlen); [..|lia]. } mred.
  assert (j2 = j) as -> by dlia.
  exists r2, j. split_and!; [done|done|congruence|lia|lia|]. intros t i Ht Hi. rewrite H2, H1 by lia.
  replace ((0 <=? t) && (t <? j)) with true by lia. rewrite Hz, foldl_orb. apply Hh.
Qed.

Lemma bitop_words_spec op src0 keys res minlen :
  bytes_ok src0 /\ minlen <= zlen src0 -> Forall (fun s => bytes_ok s /\ minlen <= zlen s) keys ->
  (forall t i, tb res t i = false) -> bytes_ok res -> 0 <= minlen <= zlen res ->
  words_ok op src0 keys res minlen (bitop_words op src0 keys res minlen).
Proof.
  intros H0 Hk Hz Hok Hl. unfold bitop_words. destruct (is_diff op) eqn:Hd.
  - mred. destruct op; try done.
    + apply second_words_ok with (h := fun l b => b && negb l); try done.
      intros x y i Hi. by rewrite Z.land_spec, Z.lnot_spec.
    + apply second_words_ok with (h := fun l b => negb b && l); try done.
      intros x y i Hi. by rewrite Z.land_spec, Z.lnot_spec.
    + apply second_words_ok with (h := fun l b => b && l); try done.
      intros x y i Hi. by rewrite Z.land_spec.
  - destruct H0 as [Ho0 Hl0]. destruct (words_copy src0 res minlen) as (r & -> & Hr); try done. mred.
    assert (bytes_ok src0 /\ minlen <= zlen src0) as H0 by done.
    assert (forall op f h, bitwise f h -> (forall b l, foldl h b l = bitop_bit op b l) ->
      words_ok op src0 keys res minlen (while_words (Z.to_nat minlen)
        (fun res j => each_key (fun res src => words4 f res j src j) res keys) r 0 minlen)) as Hfold.
    { intros op' f h Hf Hh. eapply while_words_ok; [done|done| |].
      - apply (fold_step_spec src0 keys minlen H0 Hk f h Hf).
      - intros b t i. apply Hh. }
    destruct op; try done.
    + apply (Hfold _ _ andb); [|intros; apply foldl_andb]. intros x y i _. apply Z.land_spec.
    + apply (Hfold _ _ orb); [|intros; apply foldl_orb]. intros x y i _. apply Z.lor_spec.
    + apply (Hfold _ _ xorb); [|done]. intros x y i _. apply Z.lxor_spec.
    + eapply while_words_ok; [done|done|apply (not_step_spec src0 keys minlen H0 Hk)|done].
    + eapply while_words_ok; [done|done|apply (one_step_spec src0 keys minlen H0 Hk)|done].
Qed.

(** ** The whole result *)

Lemma byte_of_tb s t i : tb s t i = Z.testbit (byte_of s t) i.
Proof. done. Qed.

Lemma bitop_bytes_spec op src0 keys maxlen fuel res j :
  bytes_ok src0 -> Forall bytes_ok keys -> bytes_ok res -> zlen res = maxlen -> 0 <= j ->
  maxlen - j <= Z.of_nat fuel ->
  (forall t i, 0 <= t < j -> 0 <= i < 8 -> tb res t i = bitop_bit op (tb src0 t i) (map (fun s => tb s t i) keys)) ->
  exists res', bitop_bytes fuel op src0 keys maxlen res j = Some res' /\ bytes_ok res' /\ zlen res' = maxlen /\
    forall t i, 0 <= t < maxlen -> 0 <= i < 8 ->
      tb res' t i = bitop_bit op (tb src0 t i) (map (fun s => tb s t i) keys).
Proof.
  intros H0 Hk. revert res j. induction fuel as [|fuel IH]; intros res j Hok Hl Hj Hf Hdone; cbn [bitop_bytes].
  { replace (maxlen <=? j) with true by lia. exists res. split_and!; try done. intros. apply Hdone; lia. }
  destruct (Z.leb_spec maxlen j); [exists res; split_and!; try done; intros; apply Hdone; lia|].
  set (b := bitop_byte _ _ _).
  assert (bytes_ok (map (fun s => byte_of s j) keys)) as Hbs.
  { apply Forall_fmap. eapply Forall_impl; [exact Hk|]. intros s Hs. by apply byte_of_ok. }
  assert (byte_ok b) as Hb by (apply bitop_byte_ok; [by apply byte_of_ok|done]).
  destruct (wrn res j [b]) as [r|] eqn:Hr; [|unfold wrn in Hr; destruct (_ && _) eqn:?; [done|cbn [length] in *; lia]]. mred.
  pose proof (wrn_length _ _ _ _ Hr) as Hlr. apply IH; [|lia..|].
  - apply (wrn_bytes_ok res j [b]); [done|by apply Forall_singleton|done].
  - intros t i Ht Hi. rewrite (tb_wrn _ _ _ _ _ _ Hr) by lia. cbn [length].
    destruct (decide (t = j)) as [-> |].
    + replace ((j <=? j) && (j <? j + Z.of_nat 1)) with true by lia. rewrite Z.sub_diag.
      change (tb [b] 0 i) with (Z.testbit b i). unfold b.
      rewrite bitop_byte_bit by (done || by apply byte_of_ok). unfold bits_at. by rewrite map_map.
    + replace ((j <=? t) && (t <? j + Z.of_nat 1)) with false by lia. apply Hdone; lia.
Qed.

Lemma bitop_compute_spec op src0 keys maxlen minlen :
  bytes_ok src0 -> Forall bytes_ok keys -> 0 <= minlen <= maxlen ->
  minlen <= zlen src0 -> Forall (fun s => minlen <= zlen s) keys ->
  exists res, bitop_compute op src0 keys maxlen minlen = Some res /\ bytes_ok res /\ zlen res = maxlen /\
    forall t i, 0 <= t < maxlen -> 0 <= i < 8 ->
      tb res t i = bitop_bit op (tb src0 t i) (map (fun s => tb s t i) keys).
Proof.
  intros H0 Hk Hm Hl0 Hlk. unfold bitop_compute. set (z := replicate (Z.to_nat maxlen) 0).
  assert (bytes_ok z) as Hz by apply zeros_ok.
  assert (zlen z = maxlen) as Hzl by (unfold z; rewrite length_replicate; lia).
  assert (exists res j, (if 32 <=? minlen then bitop_words op src0 keys z minlen else Some (z, 0)) = Some (res, j) /\
    bytes_ok res /\ zlen res = maxlen /\ 0 <= j /\
    (forall t i, 0 <= t < j -> 0 <= i < 8 -> tb res t i = bitop_bit op (tb src0 t i) (map (fun s => tb s t i) keys)))
    as (res & j & -> & Hok & Hl & Hj & Hdone).
  { destruct (Z.leb_spec 32 minlen).
    - destruct (bitop_words_spec op src0 keys z minlen) as (res & j & -> & Hok & Hl & Hj & Hd); try (done || lia).
      + apply Forall_and. done.
      + intros. apply tb_zeros.
      + exists res, j. split_and!; (done || lia).
    - exists z, 0. split_and!; (done || lia). }
  mred. apply bitop_bytes_spec; (done || lia).
Qed.

(** ** The command *)

Lemma bit_at_tb x p : bytes_ok x -> 0 <= p -> bit_at x p = tb x (p / 8) (7 - p mod 8).
Proof.
  intros Hx Hp. unfold bit_at, tb. destruct (Z.lt_ge_cases p (8 * zlen x)).
  - destruct (rd_bit x p) as (b & Hb & ->); [lia|]. rewrite Z.shiftr_div_pow2, rd_lookup in Hb by dlia.
    rewrite (byte_of_in x (p / 8) b) by (done || dlia). cbn. by rewrite (land_ones_mod _ 3 7) by lia.
  - rewrite lookup_ge_None_2 by (rewrite bits_of_length; lia). unfold byte_of.
    replace (zlen x <=? p / 8) with true by dlia. by rewrite Z.bits_0.
Qed.

Definition max_len (xs : list (list Z)) : Z := foldr Z.max 0 (map (fun x => zlen x) xs).

Lemma foldr_max a b l : foldr Z.max (Z.max a b) l = Z.max a (foldr Z.max b l).
Proof. induction l as [|x l IH]; cbn; [done|]. rewrite IH. lia. Qed.

Lemma bitop_lookup_spec ks xs first maxlen minlen s :
  db_ok (db s) -> Forall2 (fun k x => stored (db s !! k) = Some x) ks xs -> 0 <= minlen -> 0 <= maxlen ->
  exists minlen', bitop_lookup ks first maxlen minlen s
    = Some (Some (xs, foldr Z.max maxlen (map (fun x => zlen x) xs), minlen'), s) /\
    0 <= minlen' /\ Forall (fun x => minlen' <= zlen x) xs /\ (first = false -> minlen' <= minlen).
Proof.
  intros Hd Hx. revert first maxlen minlen. induction Hx as [|k x ks xs Hx _ IH]; intros first maxlen minlen Hmin Hmax.
  { exists minlen. split_and!; (done || lia). }
  cbn [bitop_lookup map foldr]. mrun. destruct (db s !! k) as [o|] eqn:Ho.
  - destruct (readonly_spec k s x Hd ltac:(by rewrite Ho)) as [Hct _]. rewrite Ho in Hct. rewrite Hct. mrun.
    assert (match o with OInt v => lift (int_string 32 v) | OStr s => mret s | OOther => stuck end = lift (Some x)) as ->.
    { pose proof (map_Forall_lookup_1 _ _ _ _ Hd Ho) as Hok. destruct o as [y|v|]; cbn in Hx; simplify_eq; [done|].
      by rewrite int_string_spec by (done || lia). }
    mrun. set (mx := if maxlen <? zlen x then zlen x else maxlen).
    set (mn := if first || (zlen x <? minlen) then zlen x else minlen).
    destruct (IH false mx mn) as (mn' & He & H0 & Hall & Hle); [unfold mn; destruct (_ || _); lia|unfold mx; destruct (_ <? _); lia|].
    rewrite (bind_run _ _ _ _ _ He). specialize (Hle eq_refl).
    assert (mn <= zlen x /\ (first = false -> mn <= minlen)) as [Hmn1 Hmn2]
      by (unfold mn; destruct first; cbn [orb]; destruct (Z.ltb_spec (zlen x) minlen); split; intros; (done || lia)).
    exists mn'. split; [|split_and!; [done|constructor; (lia || done)|intros Hf; specialize (Hmn2 Hf); lia]].
    unfold mret, M_mret. do 3 f_equal. f_equal. rewrite <- foldr_max.
    replace mx with (Z.max (zlen x) maxlen); [done|]. unfold mx. destruct (Z.ltb_spec maxlen (zlen x)); lia.
  - cbn in Hx. simplify_eq. destruct (IH false maxlen 0) as (mn' & He & H0 & Hall & Hle); [done|done|].
    rewrite (bind_run _ _ _ _ _ He). exists mn'. specialize (Hle eq_refl).
    split; [|split_and!; [done|constructor; (cbn; lia || done)|lia]].
    unfold mret, M_mret. do 3 f_equal. f_equal. rewrite Z.max_r; [done|].
    clear -Hmax. induction xs; cbn; lia.
Qed.

Lemma setKey_run k o s :
  exists evs, setKey k o s
    = Some (Some tt, St (<[k := o]> (db s)) (dirty s) (modified s ++ [k]) (events s ++ evs) (out s)).
Proof.
  unfold setKey. mrun. destruct (db s !! k) as [[]|]; mrun; eexists; unfold updates; cbn;
    rewrite <- ?app_assoc; reflexivity.
Qed.

(** C24: BITOP stores at the destination the bitwise operation of the source
    strings, padded with zeros to the longest, and replies its length: every
    bit of the result is the operation on the bits of the sources at that
    position, whether it is computed 32 bytes or one byte at a time, and the
    early exits of the byte loop do not change it.  When all the sources are
    empty the destination is deleted.  The other keys are untouched. *)
Theorem bitop_correct c opname op target k0 ks s x0 xs :
  db_ok (db s) -> parse_bitop opname s = Some (Some op, s) ->
  (op = BITOP_NOT -> ks = []) -> (is_diff op = true -> ks <> []) ->
  stored (db s !! k0) = Some x0 -> Forall2 (fun k x => stored (db s !! k) = Some x) ks xs ->
  let maxlen := max_len (x0 :: xs) in
  exists s', bitopCommand (c :: opname :: target :: k0 :: ks) s = Some (Some tt, s') /\
    out s' = out s ++ [RInt maxlen] /\
    if maxlen =? 0 then
      db s' = delete target (db s) /\
      dirty s' = dirty s + (if db s !! target is Some _ then 1 else 0)
    else
      exists res, db s' = <[target := OStr res]> (db s) /\ dirty s' = dirty s + 1 /\
        modified s' = modified s ++ [target] /\ zlen res = maxlen /\
        forall p, 0 <= p < 8 * maxlen ->
          bit_at res p = bitop_bit op (bit_at x0 p) (map (fun x => bit_at x p) xs).
Proof.
  intros Hd Hop Hnot Hdiff Hx0 Hxs maxlen.
  assert (Forall2 (fun k x => stored (db s !! k) = Some x) (k0 :: ks) (x0 :: xs)) as Hall by by constructor.
  assert (Forall bytes_ok (x0 :: xs)) as Hok.
  { clear -Hd Hall. revert Hall. generalize (k0 :: ks), (x0 :: xs). intros l l' H. induction H as [|k x l l' Hx _ IH]; constructor; [|done].
    by destruct (stored_ok _ _ _ Hd Hx). }
  unfold bitopCommand. do 2 marg. rewrite (bind_run _ _ _ _ _ Hop). cbv zeta.
  replace (bool_decide (op = BITOP_NOT) && negb (zlen (c :: opname :: target :: k0 :: ks) =? 4)) with false.
  2: { case_bool_decide as He; [|done]. by rewrite (Hnot He). }
  replace (is_diff op && (zlen (c :: opname :: target :: k0 :: ks) <? 5)) with false.
  2: { destruct (is_diff op); [|done]. destruct ks; [by specialize (Hdiff eq_refl)|]. cbn. lia. }
  change (drop 3 (c :: opname :: target :: k0 :: ks)) with (k0 :: ks).
  destruct (bitop_lookup_spec (k0 :: ks) (x0 :: xs) true 0 0 s Hd Hall) as (minlen & Hlk & Hm0 & Hmin & _); [lia..|].
  rewrite (bind_run _ _ _ _ _ Hlk). change (foldr Z.max 0 (map (fun x => zlen x) (x0 :: xs))) with maxlen.
  apply Forall_cons in Hok as [Hok0 Hoks]. apply Forall_cons in Hmin as [Hmin0 Hmins].
  destruct (Z.eqb_spec maxlen 0) as [H0|H0]; cbn [negb].
  - unfold dbDelete. mrun. destruct (db s !! target) eqn:Ht; mrun.
    + eexists. split; [done|]. done.
    + eexists. split; [done|]. cbn. by rewrite delete_id, Z.add_0_r.
  - assert (zlen x0 <= maxlen) by (unfold maxlen, max_len; cbn [map foldr]; lia).
    destruct (bitop_compute_spec op x0 xs maxlen minlen) as (res & -> & Hokr & Hlr & Hr); [done|done|lia|done..|].
    mrun. destruct (setKey_run target (OStr res) s) as [evs Hset]. rewrite (bind_run _ _ _ _ _ Hset). mrun.
    eexists. split; [done|]. split; [done|]. exists res. split_and!; try done.
    intros p Hp. rewrite (bit_at_tb res), (bit_at_tb x0), Hr by (done || dlia). f_equal.
    apply map_ext_Forall. eapply Forall_impl; [exact Hoks|]. intros y Hy. symmetry. apply bit_at_tb; [done|lia].
Qed.

Lemma bitop_correct_witness :
  exists s', bitopCommand [[]; str "One"; [116]; [107]; [109]] (St sample_db 0 [] [] []) = Some (Some tt, s') /\
    out s' = [RInt 3].
Proof.
  destruct (bitop_correct [] (str "One") BITOP_ONE [116] [107] [[109]] (St sample_db 0 [] [] [])
    [0x0F; 0xF0; 0xFF] [[]]) as (s' & H1 & H2 & _).
  - apply sample_db_ok.
  - vm_compute. reflexivity.
  - discriminate.
  - discriminate.
  - reflexivity.
  - repeat constructor.
  - exists s'. split; [exact H1|exact H2].
Defined.
End Bitop.
