(* ===== verification/Bitfield.v ===== *)
(** * BITFIELD against an abstract bitmap ([redis-stable/src/bitops.c])

    A string is an endless sequence of bits, zero after its end.  [bf_spec]
    gives the meaning of the operations of a BITFIELD command on such a
    sequence, with integers of unbounded size; the theorems show that the
    command implements it on the string of its key. *)

From S2P Require Import Prelude Numbers SdsText Bits Popcount Bitops Bitop.
From stdpp Require Import gmap.
From Stdlib Require Import ZifyBool.

Module Bitfield.
Import Bits Popcount Bitops.
#[local] Open Scope Z_scope.

(** ** Specification *)

(** The bits of the field at [off], the most significant first. *)
Definition spec_bits (f : Z -> bool) (off bits : Z) : list bool :=
  map (fun i => f (off + Z.of_nat i)) (seq 0 (Z.to_nat bits)).

Definition spec_value (f : Z -> bool) (op : bitfieldOp) : Z :=
  let u := be_num (spec_bits f (bf_offset op) (bf_bits op)) in
  if bf_sign op then swrap (bf_bits op) u else u.

Definition lo (op : bitfieldOp) : Z := if bf_sign op then - 2 ^ (bf_bits op - 1) else 0.
Definition hi (op : bitfieldOp) : Z :=
  if bf_sign op then 2 ^ (bf_bits op - 1) - 1 else 2 ^ bf_bits op - 1.
Definition wrap (op : bitfieldOp) : Z -> Z :=
  if bf_sign op then swrap (bf_bits op) else uwrap (bf_bits op).

(** The value a SET or INCRBY aims at.  An unsigned SET takes a negative
    argument modulo [2^64]. *)
Definition target (op : bitfieldOp) (old : Z) : Z :=
  match bf_opcode op with
  | BITFIELDOP_INCRBY => old + bf_i64 op
  | _ => if bf_sign op then bf_i64 op else uwrap 64 (bf_i64 op)
  end.

(** A signed SET of a value so close to [INT64_MIN] that the check takes it for
    too large. *)
Definition set_near_min (op : bitfieldOp) : bool :=
  match bf_opcode op with
  | BITFIELDOP_SET => bf_sign op && (bf_bits op <? 64) && (bf_i64 op <? - 2 ^ 63 + 2 ^ (bf_bits op - 1))
  | _ => false
  end.

(** The value stored, none when the operation fails.  Under SAT it is the bound
    that the sum passes, except for [set_near_min]: these values pass the lower
    bound and the upper bound is stored. *)
Definition new_value (op : bitfieldOp) (old : Z) : option Z :=
  let sum := target op old in
  if (lo op <=? sum) && (sum <=? hi op) then Some sum
  else
    match bf_owtype op with
    | BFOVERFLOW_WRAP => Some (wrap op sum)
    | BFOVERFLOW_SAT => Some (if (hi op <? sum) || set_near_min op then hi op else lo op)
    | BFOVERFLOW_FAIL => None
    end.

Definition write_bits (f : Z -> bool) (off bits n : Z) : Z -> bool := fun i =>
  if (off <=? i) && (i <? off + bits) then Z.testbit n (off + bits - 1 - i) else f i.

(** The bits, the replies and the number of changes; [grew] tells that the
    command made the string longer, and then every write is a change. *)
Fixpoint bf_spec (grew : bool) (f : Z -> bool) (ops : list bitfieldOp)
    : (Z -> bool) * list ritem * Z :=
  match ops with
  | [] => (f, [], 0)
  | op :: ops =>
    let old := spec_value f op in
    match bf_opcode op with
    | BITFIELDOP_GET =>
      let '(f, out, n) := bf_spec grew f ops in (f, RInt old :: out, n)
    | opc =>
      match new_value op old with
      | None => let '(f, out, n) := bf_spec grew f ops in (f, RNull :: out, n)
      | Some v =>
        let '(f, out, n) := bf_spec grew (write_bits f (bf_offset op) (bf_bits op) v) ops in
        (f, RInt (match opc with BITFIELDOP_INCRBY => v | _ => old end) :: out,
         n + Numbers.b2z (grew || negb (old =? v)))
      end
    end
  end.

(** A string represents a sequence of bits. *)
Definition repr (x : list Z) (f : Z -> bool) : Prop := forall i, 0 <= i -> bit_at x i = f i.

(** ** One operation *)

Lemma spec_bits_field x f off bits :
  repr x f -> 0 <= off -> 0 <= bits -> off + bits <= 8 * zlen x ->
  field x off bits = spec_bits f off bits.
Proof.
  intros Hr Ho Hb He. apply list_eq. intros i. unfold field, spec_bits.
  rewrite list_lookup_fmap. destruct (Nat.lt_ge_cases i (Z.to_nat bits)).
  - rewrite lookup_seq_lt, lookup_take_lt, lookup_drop by lia. cbn [fmap option_fmap option_map Nat.add].
    replace (Z.to_nat off + i)%nat with (Z.to_nat (off + Z.of_nat i)) by lia.
    rewrite bit_at_lookup by lia. f_equal. apply Hr. lia.
  - rewrite lookup_take_ge, lookup_seq_ge by lia. done.
Qed.

Lemma spec_bits_length f off bits : length (spec_bits f off bits) = Z.to_nat bits.
Proof. unfold spec_bits. by rewrite length_map, length_seq. Qed.

Lemma spec_value_range f op :
  1 <= bf_bits op -> lo op <= spec_value f op <= hi op.
Proof.
  intros Hb. unfold lo, hi, spec_value.
  pose proof (be_num_range (spec_bits f (bf_offset op) (bf_bits op))) as Hr.
  rewrite spec_bits_length, Z2Nat.id in Hr by lia. destruct (bf_sign op); [|lia].
  pose proof (swrap_range (bf_bits op) (be_num (spec_bits f (bf_offset op) (bf_bits op))) ltac:(lia)) as H.
  unfold in_s in H. lia.
Qed.

Lemma bits_be_lookup n v i : (i < n)%nat -> bits_be n v !! i = Some (Z.testbit v (Z.of_nat n - 1 - Z.of_nat i)).
Proof.
  revert i. induction n as [|n IH]; intros i Hi; [lia|]. cbn [bits_be].
  destruct i as [|i]; cbn [lookup list_lookup].
  - do 2 f_equal. lia.
  - change (bits_be n v !! i = Some (Z.testbit v (Z.of_nat (S n) - 1 - Z.of_nat (S i)))).
    rewrite IH by lia. do 2 f_equal. lia.
Qed.

(** Writing a field of the string writes it in the sequence. *)
Lemma repr_write x x' f off bits v :
  repr x f -> 0 <= off -> 1 <= bits -> off + bits <= 8 * zlen x ->
  bits_of x' = take (Z.to_nat off) (bits_of x) ++ bits_be (Z.to_nat bits) v
               ++ drop (Z.to_nat off + Z.to_nat bits) (bits_of x) ->
  repr x' (write_bits f off bits v).
Proof.
  intros Hr Ho Hb He Hx' i Hi. unfold write_bits, bit_at. rewrite Hx'.
  assert (length (take (Z.to_nat off) (bits_of x)) = Z.to_nat off) as Hl
    by (rewrite length_take, bits_of_length; lia).
  pose proof (bits_be_length (Z.to_nat bits) v) as Hbl.
  destruct (Z.lt_ge_cases i off); [|destruct (Z.lt_ge_cases i (off + bits))].
  - replace (_ && _) with false by lia. rewrite lookup_app_l, lookup_take_lt by lia. by apply Hr.
  - replace (_ && _) with true by lia.
    rewrite lookup_app_r, lookup_app_l, Hl, bits_be_lookup by lia. apply (f_equal (Z.testbit v)). lia.
  - replace (_ && _) with false by lia. rewrite !lookup_app_r, lookup_drop, Hl, Hbl by lia.
    replace (Z.to_nat off + Z.to_nat bits + (Z.to_nat i - Z.to_nat off - Z.to_nat bits))%nat
      with (Z.to_nat i) by lia. by apply Hr.
Qed.

(** Conditions on the operations of a command on strings of less than [2^58]
    bytes. *)
Definition op_fine (op : bitfieldOp) : Prop :=
  1 <= bf_bits op <= 64 /\ (bf_sign op = false -> bf_bits op <= 63) /\ 0 <= bf_offset op /\
  in_s 64 (bf_i64 op).

Section Op.
Context (x : list Z) (f : Z -> bool) (op : bitfieldOp).
Context (Hok : bytes_ok x) (Hlen : zlen x < 2 ^ 58) (Hrepr : repr x f) (Hop : op_fine op).

(** GET, also past the end of the string. *)
Lemma bitfield_get_spec : bitfield_get x op = Some (spec_value f op).
Proof using All.
  destruct Hop as (Hb & Hs & Ho & _). unfold bitfield_get, spec_value.
  set (buf := take 9 _ ++ _).
  assert (length (take 9 (drop (Z.to_nat (Z.shiftr (bf_offset op) 3)) x)) <= 9)%nat by (rewrite length_take; lia).
  assert (zlen buf = 9) as Hbuf by (unfold buf; rewrite length_app, length_replicate; lia).
  assert (Z.shiftr (bf_offset op) 3 = bf_offset op / 8) as Hsh by by rewrite Z.shiftr_div_pow2 by lia.
  assert (repr buf (fun i => if i <? 72 then f (8 * (bf_offset op / 8) + i) else false)) as Hrb.
  { intros i Hi. destruct (Z.ltb_spec i 72).
    - rewrite <- Hrepr by dlia. unfold buf. rewrite Hsh. set (chunk := take 9 _).
      change 9%nat with (Z.to_nat 9) at 1. change (chunk ++ replicate (Z.to_nat 9 - length chunk) 0) with (grown chunk 9).
      rewrite bit_at_grown by done. unfold bit_at, chunk.
      rewrite bits_of_take, bits_of_drop, lookup_take_lt, lookup_drop by lia.
      do 2 f_equal. dlia.
    - unfold bit_at. rewrite lookup_ge_None_2; [done|]. rewrite bits_of_length. lia. }
  rewrite Hsh. replace (bf_offset op - bf_offset op / 8 * 8) with (bf_offset op mod 8) by dlia.
  assert (spec_bits (fun i => if i <? 72 then f (8 * (bf_offset op / 8) + i) else false)
            (bf_offset op mod 8) (bf_bits op) = spec_bits f (bf_offset op) (bf_bits op)) as He.
  { unfold spec_bits. apply map_ext_in. intros i Hi%in_seq.
    replace (bf_offset op mod 8 + Z.of_nat i <? 72) with true by dlia. f_equal. dlia. }
  destruct (bf_sign op) eqn:Hsg.
  - rewrite getSignedBitfield_spec, (spec_bits_field buf _ _ _ Hrb) by dlia. by rewrite He.
  - rewrite getUnsignedBitfield_spec, (spec_bits_field buf _ _ _ Hrb) by dlia. rewrite He. mred. f_equal.
    apply swrap_id; [lia|].
    pose proof (be_num_range (spec_bits f (bf_offset op) (bf_bits op))) as Hr.
    rewrite spec_bits_length, Z2Nat.id in Hr by lia.
    assert (2 ^ bf_bits op <= 2 ^ 63) by (apply Z.pow_le_mono_r; lia).
    unfold in_s. change (64 - 1) with 63. lia.
Qed.

Context (Hend : bf_offset op + bf_bits op <= 8 * zlen x) (Hw : is_write op = true).

(** What the check answers: [ow_spec] of the value aimed at, or the exception. *)
Definition check_spec (old limit : Z) : Z * Z :=
  if set_near_min op then near_min_spec (bf_bits op) (bf_i64 op) (bf_owtype op) limit
  else ow_spec (lo op) (hi op) (wrap op) (target op old) (bf_owtype op) limit.

Lemma set_near_min_iff :
  set_near_min op = true <->
  bf_opcode op = BITFIELDOP_SET /\ bf_sign op = true /\ near_min (bf_bits op) (bf_i64 op).
Proof.
  unfold set_near_min, near_min.
  destruct (bf_opcode op); [by split; [|intros (? & _)]| |by split; [|intros (? & _)]].
  destruct (bf_sign op); cbn [andb]; [|by split; [|intros (_ & ? & _)]].
  rewrite andb_true_iff, !Z.ltb_lt. tauto.
Qed.

Lemma new_value_ow limit old :
  new_value op old =
  let '(ov, w) := check_spec old limit in
  if ov =? 0 then Some (target op old)
  else match bf_owtype op with BFOVERFLOW_FAIL => None | _ => Some w end.
Proof using All.
  unfold new_value, check_spec. destruct (set_near_min op) eqn:Hn.
  - apply set_near_min_iff in Hn as (Hopc & Hsg & Hn).
    pose proof Hop as (Hb & _). unfold target, lo, hi, wrap. rewrite Hopc, Hsg.
    assert (~ in_s (bf_bits op) (bf_i64 op)) as Hr by (intros H; by apply in_s_not_near_min in H; [|lia]).
    unfold in_s in Hr. replace (_ && _) with false by lia. rewrite orb_true_r.
    unfold near_min_spec. by destruct (bf_owtype op).
  - unfold ow_spec. rewrite orb_false_r. destruct ((lo op <=? _) && _); [done|].
    destruct (bf_owtype op); [done| |]; by destruct (hi op <? _).
Qed.

(** The range check of the code. *)
Lemma check_signed limit :
  bf_sign op = true ->
  let old := spec_value f op in
  match bf_opcode op with
  | BITFIELDOP_INCRBY =>
    checkSignedBitfieldOverflow old (bf_i64 op) (bf_bits op) (bf_owtype op) limit
  | _ => checkSignedBitfieldOverflow (bf_i64 op) 0 (bf_bits op) (bf_owtype op) limit
  end = check_spec old limit.
Proof using All.
  intros Hsg old. destruct Hop as (Hb & _ & Ho & Hi).
  pose proof (spec_value_range f op ltac:(lia)) as Hr. fold old in Hr.
  unfold check_spec, checkSignedBitfieldOverflow. destruct (set_near_min op) eqn:Hn.
  { apply set_near_min_iff in Hn as (Hopc & _ & Hn). rewrite Hopc. by apply checkSigned_near_min. }
  unfold target, lo, hi, wrap in *. rewrite Hsg in *.
  assert (2 ^ (bf_bits op - 1) <= 2 ^ 63) by (apply Z.pow_le_mono_r; lia).
  unfold is_write in Hw. destruct (bf_opcode op) eqn:Hopc; [done| |].
  - rewrite checkSigned_with_spec; [by rewrite Z.add_0_r|done|done|unfold in_s; lia|].
    right. split; [done|]. intros Hm. assert (set_near_min op = true) by (by apply set_near_min_iff). congruence.
  - apply checkSigned_with_spec; [done| |done|].
    + unfold in_s. change (64 - 1) with 63. lia.
    + left. unfold in_s. lia.
Qed.

Lemma check_unsigned limit :
  bf_sign op = false ->
  let old := spec_value f op in
  match bf_opcode op with
  | BITFIELDOP_INCRBY =>
    checkUnsignedBitfieldOverflow old (bf_i64 op) (bf_bits op) (bf_owtype op) limit
  | _ => checkUnsignedBitfieldOverflow (uwrap 64 (bf_i64 op)) 0 (bf_bits op) (bf_owtype op) limit
  end = ow_spec (lo op) (hi op) (wrap op) (target op old) (bf_owtype op) limit.
Proof using All.
  intros Hsg old. destruct Hop as (Hb & Hu & Ho & Hi). specialize (Hu Hsg).
  pose proof (spec_value_range f op ltac:(lia)) as Hr. fold old in Hr.
  unfold target, lo, hi, wrap in *. rewrite Hsg in *.
  assert (2 ^ bf_bits op <= 2 ^ 63) by (apply Z.pow_le_mono_r; lia).
  assert (in_u 64 (uwrap 64 (bf_i64 op))) as Hw64 by (apply Z.mod_pos_bound; lia).
  unfold is_write in Hw. destruct (bf_opcode op); [done| |].
  - rewrite checkUnsignedBitfieldOverflow_spec; [by rewrite Z.add_0_r|lia|done|unfold in_s; lia|by right].
  - apply checkUnsignedBitfieldOverflow_spec; [lia|unfold in_u; lia|done|]. left. unfold in_u. lia.
Qed.

(** What the check leaves is in the range of the field. *)
Lemma ow_result_range limit old ov w :
  ow_spec (lo op) (hi op) (wrap op) (target op old) (bf_owtype op) limit = (ov, w) ->
  bf_owtype op <> BFOVERFLOW_FAIL \/ ov = 0 ->
  lo op <= (if negb (ov =? 0) then w else target op old) <= hi op.
Proof using All.
  intros How Hd. pose proof Hop as (Hb & _).
  assert (lo op <= wrap op (target op old) <= hi op) as Hwr.
  { unfold lo, hi, wrap. destruct (bf_sign op).
    - pose proof (swrap_range (bf_bits op) (target op old) ltac:(lia)) as H. unfold in_s in H. lia.
    - assert (0 <= uwrap (bf_bits op) (target op old) < 2 ^ bf_bits op) by (apply Z.mod_pos_bound; lia). lia. }
  unfold ow_spec in How.
  destruct ((lo op <=? target op old) && (target op old <=? hi op)) eqn:Hin; [simplify_eq; cbn; lia|].
  destruct (bf_owtype op); [by simplify_eq|destruct (hi op <? target op old); simplify_eq; cbn; lia|].
  destruct Hd as [|Hd]; [done|]. destruct (hi op <? target op old); simplify_eq.
Qed.

Definition write_ok (r : option (option Z * list Z * bool)) : Prop :=
  let old := spec_value f op in
  match new_value op old with
  | None => r = Some (None, x, false)
  | Some v => exists x', r = Some (Some (match bf_opcode op with BITFIELDOP_INCRBY => v | _ => old end),
      x', negb (old =? v)) /\ bytes_ok x' /\ length x' = length x /\
      repr x' (write_bits f (bf_offset op) (bf_bits op) v)
  end.

Lemma write_ok_intro ov w retval (set : list Z -> Z -> Z -> Z -> option (list Z)) newval :
  (forall v, exists x', set x (bf_offset op) (bf_bits op) v = Some x' /\ bytes_ok x' /\
    length x' = length x /\ repr x' (write_bits f (bf_offset op) (bf_bits op) v)) ->
  let old := spec_value f op in
  (exists l, check_spec old l = (ov, w)) ->
  newval = (if negb (ov =? 0) then w else target op old) ->
  (bf_owtype op <> BFOVERFLOW_FAIL \/ ov = 0 ->
   retval = match bf_opcode op with BITFIELDOP_INCRBY => newval | _ => old end) ->
  write_ok (match bf_owtype op with
            | BFOVERFLOW_FAIL =>
              if negb (ov =? 0) then Some (None, x, false)
              else p ← set x (bf_offset op) (bf_bits op) newval; Some (Some retval, p, negb (old =? newval))
            | _ => p ← set x (bf_offset op) (bf_bits op) newval; Some (Some retval, p, negb (old =? newval))
            end).
Proof using All.
  intros Hset old [l Hl] Hnew Hret.
  unfold write_ok. fold old. rewrite (new_value_ow l), Hl.
  destruct (Hset newval) as (x' & Hx' & Hok' & Hl' & Hr').
  destruct (Z.eqb_spec ov 0) as [H0|H0]; cbn [negb] in *.
  - rewrite <- Hnew, Hx', (Hret ltac:(by right)). mred. exists x'. by destruct (bf_owtype op).
  - destruct (bf_owtype op); try done; rewrite <- Hnew, Hx', (Hret ltac:(by left)); mred; by exists x'.
Qed.

Lemma write_signed_spec wrapped :
  bf_sign op = true -> write_ok (bitfield_write_signed x op wrapped).
Proof using All.
  intros Hsg. unfold bitfield_write_signed. pose proof Hop as (Hb & _ & Ho & Hi).
  rewrite getSignedBitfield_spec, (spec_bits_field x f) by (done || lia).
  pose proof (check_signed wrapped Hsg) as Hc. cbv zeta in Hc.
  replace (swrap (bf_bits op) (be_num (spec_bits f (bf_offset op) (bf_bits op)))) with (spec_value f op)
    by (unfold spec_value; by rewrite Hsg).
  mred. destruct (check_spec _ _) as [ov w] eqn:How.
  assert (forall v, exists x', setSignedBitfield x (bf_offset op) (bf_bits op) v = Some x' /\ bytes_ok x' /\
    length x' = length x /\ repr x' (write_bits f (bf_offset op) (bf_bits op) v)) as Hset.
  { intros v. destruct (setSignedBitfield_spec x (bf_offset op) (bf_bits op)) with (value := v)
      as (x' & ? & ? & ? & ?); [lia..|done|]. exists x'. split_and!; try done.
    apply (repr_write x); (done || lia). }
  pose proof Hw as Hw'. unfold is_write in Hw'.
  destruct (bf_opcode op) eqn:Hopc; [done| |]; rewrite Hc;
    (apply (write_ok_intro ov w _ setSignedBitfield _ Hset);
     [by exists wrapped|unfold target; by rewrite Hopc, ?Hsg|by rewrite Hopc]).
Qed.

Lemma write_unsigned_spec : bf_sign op = false -> write_ok (bitfield_write_unsigned x op).
Proof using All.
  intros Hsg. unfold bitfield_write_unsigned. pose proof Hop as (Hb & Hu & Ho & Hi).
  rewrite getUnsignedBitfield_spec, (spec_bits_field x f) by (done || lia).
  pose proof (check_unsigned 0 Hsg) as Hc. cbv zeta in Hc.
  assert (forall old l, check_spec old l = ow_spec (lo op) (hi op) (wrap op) (target op old) (bf_owtype op) l)
    as Hcs by (intros; unfold check_spec, set_near_min; rewrite Hsg; by destruct (bf_opcode op)).
  replace (be_num (spec_bits f (bf_offset op) (bf_bits op))) with (spec_value f op)
    by (unfold spec_value; by rewrite Hsg).
  mred. destruct (ow_spec _ _ _ _ _ _) as [ov w] eqn:How.
  assert (forall v, exists x', setUnsignedBitfield x (bf_offset op) (bf_bits op) v = Some x' /\ bytes_ok x' /\
    length x' = length x /\ repr x' (write_bits f (bf_offset op) (bf_bits op) v)) as Hset.
  { intros v. destruct (setUnsignedBitfield_spec x (bf_offset op) (bf_bits op)) with (value := v)
      as (x' & ? & ? & ? & ?); [lia..|done|]. exists x'. split_and!; try done.
    apply (repr_write x); (done || lia). }
  pose proof (spec_value_range f op ltac:(lia)) as Hr.
  assert (forall u, lo op <= u <= hi op -> swrap 64 u = u /\ uwrap 64 u = u) as Hid.
  { intros u Hlu. unfold lo, hi in Hlu. rewrite Hsg in Hlu. specialize (Hu Hsg).
    assert (2 ^ bf_bits op <= 2 ^ 63) by (apply Z.pow_le_mono_r; lia).
    split; [apply swrap_id; [lia|]; unfold in_s; change (64 - 1) with 63; lia|].
    apply uwrap_id. unfold in_u. lia. }
  assert (bf_owtype op <> BFOVERFLOW_FAIL \/ ov = 0 ->
    lo op <= (if negb (ov =? 0) then w else target op (spec_value f op)) <= hi op) as Hres.
  { intros Hd. eapply ow_result_range; [exact How|..]; (done || lia). }
  pose proof Hw as Hw'. unfold is_write in Hw'.
  destruct (bf_opcode op) eqn:Hopc; [done| |]; rewrite Hc.
  - apply (write_ok_intro ov w _ setUnsignedBitfield _ Hset); [exists 0; by rewrite Hcs|unfold target; by rewrite Hopc, Hsg|].
    intros _. rewrite Hopc. by apply Hid.
  - assert ((if negb (ov =? 0) then w else uwrap 64 (spec_value f op + bf_i64 op))
      = (if negb (ov =? 0) then w else target op (spec_value f op))) as ->.
    { destruct (Z.eqb_spec ov 0) as [-> |]; [|done]. cbn [negb Z.eqb] in *. specialize (Hres ltac:(by right)).
      unfold target in *. rewrite Hopc in *. by apply Hid. }
    apply (write_ok_intro ov w _ setUnsignedBitfield _ Hset); [exists 0; by rewrite Hcs|done|].
    intros Hd. rewrite Hopc. by apply Hid, Hres.
Qed.
End Op.

(** ** All the operations *)

Definition fits (x : list Z) (op : bitfieldOp) : Prop :=
  is_write op = true -> bf_offset op + bf_bits op <= 8 * zlen x.

Lemma write_spec x f op wrapped :
  bytes_ok x -> zlen x < 2 ^ 58 -> repr x f -> op_fine op -> fits x op -> is_write op = true ->
  write_ok x f op (if bf_sign op then bitfield_write_signed x op wrapped else bitfield_write_unsigned x op).
Proof.
  intros Hok Hl Hr Hop Hf Hw. specialize (Hf Hw).
  destruct (bf_sign op) eqn:Hs; [apply write_signed_spec|apply write_unsigned_spec]; done.
Qed.

Lemma bitfield_exec_spec k grow wrapped ops ch s x f :
  db s !! k = Some (OStr x) -> bytes_ok x -> zlen x < 2 ^ 58 -> repr x f ->
  Forall op_fine ops -> Forall (fits x) ops ->
  let '(f', replies, n) := bf_spec (negb (grow =? 0)) f ops in
  exists x', bitfield_exec k true grow wrapped ops ch s
    = Some (Some (ch + n), St (<[k := OStr x']> (db s)) (dirty s) (modified s) (events s) (out s ++ replies)) /\
    bytes_ok x' /\ length x' = length x /\ repr x' f'.
Proof.
  revert ch s x f. induction ops as [|op ops IH]; intros ch s x f Hk Hok Hl Hr Hops Hfits.
  { exists x. cbn. rewrite Z.add_0_r, app_nil_r, insert_id by done. by destruct s. }
  apply Forall_cons in Hops as [Hop Hops]. apply Forall_cons in Hfits as [Hfit Hfits].
  cbn [bf_spec bitfield_exec]. destruct (is_get (bf_opcode op)) eqn:Hg.
  - mrun. rewrite Hk. cbn [getObjectReadOnlyString]. mrun.
    rewrite (bitfield_get_spec x f op Hok Hl Hr Hop). mrun.
    replace (bf_opcode op) with BITFIELDOP_GET by by destruct (bf_opcode op).
    specialize (IH ch (replied (RInt (spec_value f op)) s) x f Hk Hok Hl Hr Hops Hfits).
    destruct (bf_spec _ f ops) as [[f' replies] n]. destruct IH as (x' & IH & H). exists x'. split; [|done].
    etransitivity; [exact IH|]. cbn. by rewrite <- app_assoc.
  - assert (contents k s = Some (Some x, s)) as Hcont by (unfold contents; by rewrite Hk).
    rewrite (bind_run _ _ _ _ _ Hcont).
    assert (is_write op = true) as Hw by (unfold is_write; by rewrite Hg).
    pose proof (write_spec x f op wrapped Hok Hl Hr Hop Hfit Hw) as Hwr. unfold write_ok in Hwr.
    destruct (new_value op (spec_value f op)) as [v|].
    + destruct Hwr as (x1 & -> & Hok1 & Hl1 & Hr1). mrun.
      assert (zlen x1 < 2 ^ 58) as Hl1' by lia.
      assert (Forall (fits x1) ops) as Hfits1 by (unfold fits; by rewrite Hl1).
      set (ch' := if _ || _ then ch + 1 else ch). set (s1 := St _ _ _ _ _).
      specialize (IH ch' s1 x1 _ ltac:(apply lookup_insert_eq) Hok1 Hl1' Hr1 Hops Hfits1).
      assert (ch' = ch + Numbers.b2z (negb (grow =? 0) || negb (spec_value f op =? v))) as Hch
        by (unfold ch'; destruct (_ || _); cbn; lia).
      destruct (bf_spec _ (write_bits _ _ _ _) ops) as [[f' replies] n]. destruct IH as (x' & IH & Hok' & Hl' & Hr').
      destruct (bf_opcode op) eqn:Hopc; [done| |]; exists x'; (split; [|split_and!; [done|lia|done]]);
        (etransitivity; [exact IH|]); unfold s1; cbn [db dirty modified events out];
        by rewrite insert_insert_eq, <- app_assoc, Hch, <- Z.add_assoc, (Z.add_comm (Numbers.b2z _)).
    + rewrite Hwr. mrun. specialize (IH ch (replied RNull s) x f Hk Hok Hl Hr Hops Hfits).
      destruct (bf_spec _ f ops) as [[f' replies] n]. destruct IH as (x' & IH & H).
      destruct (bf_opcode op); [done| |]; exists x'; (split; [|done]);
        (etransitivity; [exact IH|]); cbn; by rewrite <- app_assoc.
Qed.

Lemma bitfield_exec_readonly k wrapped ops ch s x f :
  db_ok (db s) -> stored (db s !! k) = Some x -> bytes_ok x -> zlen x < 2 ^ 58 -> repr x f ->
  Forall op_fine ops -> existsb is_write ops = false ->
  exists replies, bf_spec false f ops = (f, replies, 0) /\
    bitfield_exec k (bool_decide (is_Some (db s !! k))) 0 wrapped ops ch s
    = Some (Some ch, St (db s) (dirty s) (modified s) (events s) (out s ++ replies)).
Proof.
  revert ch s. induction ops as [|op ops IH]; intros ch s Hd Hx Hok Hl Hr Hops Hro.
  { exists []. cbn. rewrite app_nil_r. by destruct s. }
  apply Forall_cons in Hops as [Hop Hops]. cbn [existsb] in Hro. apply orb_false_iff in Hro as [Hw Hro].
  unfold is_write in Hw. apply negb_false_iff in Hw.
  cbn [bf_spec bitfield_exec]. rewrite Hw.
  replace (bf_opcode op) with BITFIELDOP_GET by by destruct (bf_opcode op).
  destruct (readonly_spec k s x Hd Hx) as [_ Hget].
  assert ((if bool_decide (is_Some (db s !! k)) then lookupKey k else mret None) s = Some (Some (db s !! k), s)) as Hlk.
  { destruct (db s !! k) eqn:He; cbn; [|done]. unfold lookupKey, reads. by rewrite He. }
  rewrite (bind_run _ _ _ _ _ Hlk), Hget. mrun. rewrite (bitfield_get_spec x f op Hok Hl Hr Hop). mrun.
  destruct (IH ch (replied (RInt (spec_value f op)) s) Hd Hx Hok Hl Hr Hops Hro) as (replies & Hs & Hrun).
  rewrite Hs. exists (RInt (spec_value f op) :: replies). split; [done|].
  etransitivity; [exact Hrun|]. cbn. by rewrite <- app_assoc.
Qed.

(** ** The command *)

Section Command.
Context (proto_max_bulk_len : Z) (Hmax : 0 < proto_max_bulk_len <= 2 ^ 50).

Abbreviation parse argv :=
  (bitfield_parse false proto_max_bulk_len (length argv) argv 2 BFOVERFLOW_WRAP [] true 0).

Lemma parse_result argv s ops readonly highest s' :
  parse argv s = Some (Some (ops, readonly, highest), s') ->
  s' = s /\ parse_ok proto_max_bulk_len (ops, readonly, highest).
Proof.
  intros Hp. assert (pure (parse_ok proto_max_bulk_len) (parse argv)) as H.
  { apply bitfield_parse_pure; [done|lia|lia|]. split_and!; (done || apply Forall_nil || lia). }
  destruct (H s) as [(r & Hr & Hok)|(msg & Hr)]; rewrite Hr in Hp; [|done].
  injection Hp as Hr' Hs'. subst. done.
Qed.

(** The string made long enough holds every field that is written. *)
Lemma parse_fits x ops readonly highest :
  parse_ok proto_max_bulk_len (ops, readonly, highest) -> Forall (fits (grown x (highest / 8 + 1))) ops.
Proof.
  intros (_ & _ & Hh & Hle). eapply Forall_impl; [exact Hle|]. intros op Hop Hw. specialize (Hop Hw).
  unfold op_end in Hop. rewrite grown_length by dlia. dlia.
Qed.

Lemma op_ok_fine ops : Forall (op_ok proto_max_bulk_len) ops -> Forall op_fine ops.
Proof.
  intros H. eapply Forall_impl; [exact H|]. intros op (Ho & Hb & Hs & Hi).
  unfold op_fine. split_and!; (done || lia).
Qed.

(** *** The arguments

    [args_of ow args ops]: under the overflow policy [ow] the arguments [args]
    stand for the operations [ops]. *)

Definition field_type (t : list Z) (sign : bool) (bits : Z) : Prop :=
  t = (if sign then 105 else 117) :: Numbers.dec bits /\ 1 <= bits <= (if sign then 64 else 63).

(** [<offset>] in bits, or [#<offset>] in fields. *)
Definition field_offset (o : list Z) (bits off : Z) : Prop :=
  0 <= off < 8 * proto_max_bulk_len /\
  (o = Numbers.dec off \/ exists n, o = 35 :: Numbers.dec n /\ off = n * bits).

Definition sub_name (opc : opcode) : list Z :=
  match opc with
  | BITFIELDOP_GET => str "get"
  | BITFIELDOP_SET => str "set"
  | BITFIELDOP_INCRBY => str "incrby"
  end.

Definition policy_name (ow : owtype) : list Z :=
  match ow with
  | BFOVERFLOW_WRAP => str "wrap"
  | BFOVERFLOW_SAT => str "sat"
  | BFOVERFLOW_FAIL => str "fail"
  end.

Inductive args_of : owtype -> list (list Z) -> list bitfieldOp -> Prop :=
  | args_nil ow : args_of ow [] []
  | args_overflow ow ow' name policy args ops :
      strcasecmp_eq name (str "overflow") = true -> strcasecmp_eq policy (policy_name ow') = true ->
      args_of ow' args ops -> args_of ow (name :: policy :: args) ops
  | args_get ow name t o sign bits off args ops :
      strcasecmp_eq name (sub_name BITFIELDOP_GET) = true ->
      field_type t sign bits -> field_offset o bits off ->
      args_of ow args ops ->
      args_of ow (name :: t :: o :: args) (BitfieldOp off 0 BITFIELDOP_GET ow bits sign :: ops)
  | args_write ow opc name t o v sign bits off args ops :
      is_get opc = false -> strcasecmp_eq name (sub_name opc) = true ->
      field_type t sign bits -> field_offset o bits off -> in_s 64 v ->
      args_of ow args ops ->
      args_of ow (name :: t :: o :: Numbers.dec v :: args) (BitfieldOp off v opc ow bits sign :: ops).

(** The last bit written, 0 when nothing is. *)
Definition highest_write (highest : Z) (ops : list bitfieldOp) : Z :=
  foldl (fun h op => if is_write op then Z.max h (op_end op) else h) highest ops.

Lemma dec_no_zero v : Forall (fun c => c <> 0) (Numbers.dec v) -> SdsText.cstr (Numbers.dec v) = Numbers.dec v.
Proof.
  induction 1 as [|c l Hc _ IH]; [done|]. cbn [SdsText.cstr].
  by rewrite (proj2 (Z.eqb_neq c 0) Hc), IH.
Qed.

Lemma parse_type t sign bits s :
  field_type t sign bits -> getBitfieldTypeFromArgument t s = Some (Some (sign, bits), s).
Proof.
  intros [-> Hb]. unfold getBitfieldTypeFromArgument.
  change (drop 1 (?c :: ?l)) with l. change (head (?c :: ?l)) with (Some c).
  rewrite dec_no_zero.
  2: { unfold Numbers.dec. replace (bits <? 0) with false by lia.
       destruct (Numbers.udec_digits bits) as (d & ds & -> & Hd & Hds & _); [destruct sign; lia|].
       constructor; [lia|]. eapply Forall_impl; [exact Hds|]. cbn. lia. }
  rewrite (proj2 (Numbers.string2ll_iff (Numbers.dec bits) bits))
    by (split; [done|unfold in_s; destruct sign; lia]).
  destruct sign; [change (bool_decide (Some 105 = Some 105)) with true
    |change (bool_decide (Some 117 = Some 105)) with false;
     change (bool_decide (Some 117 = Some 117)) with true];
    unfold mbind, M_bind; cbn; by replace (_ || _ || _) with false by lia.
Qed.

Lemma parse_offset o bits off :
  1 <= bits -> field_offset o bits off ->
  getBitOffsetFromArgument false proto_max_bulk_len o true bits = mret off.
Proof using Hmax.
  intros Hb [Hr Ho]. unfold getBitOffsetFromArgument. rewrite (proj2 (Z.ltb_lt 0 bits)) by lia.
  assert ((off <? 0) || negb false && (proto_max_bulk_len <=? Z.shiftr off 3) = false) as Hok.
  { rewrite Z.shiftr_div_pow2 by lia. change (2 ^ 3) with 8. cbn [negb andb]. zbool; dlia. }
  destruct Ho as [-> |(n & -> & ->)].
  - assert (head (Numbers.dec off) <> Some 35) as Hh.
    { unfold Numbers.dec. replace (off <? 0) with false by lia.
      destruct (decide (off = 0)) as [-> |]; [done|].
      destruct (Numbers.udec_digits off) as (d & ds & -> & Hd & _); [lia|]. cbn. intros [=]. lia. }
    rewrite bool_decide_eq_false_2 by done. cbn [andb]. change (drop 0 ?l) with l.
    rewrite (proj2 (Numbers.string2ll_iff (Numbers.dec off) off)) by (split; [done|unfold in_s; lia]).
    by rewrite Hok.
  - rewrite bool_decide_eq_true_2 by done. cbn [andb]. change (drop 1 (?c :: ?l)) with l.
    rewrite (proj2 (Numbers.string2ll_iff (Numbers.dec n) n)) by (split; [done|unfold in_s; nia]).
    rewrite swrap_id by (unfold in_s; lia). by rewrite Hok.
Qed.

Lemma strcasecmp_ne a b c : strcasecmp_eq a b = true -> map Numbers.lower b <> map Numbers.lower c ->
  strcasecmp_eq a c = false.
Proof.
  unfold strcasecmp_eq, Numbers.strcaseeq. rewrite bool_decide_eq_true, bool_decide_eq_false. congruence.
Qed.

Lemma parse_policy policy ow : strcasecmp_eq policy (policy_name ow) = true -> parse_owtype policy = mret ow.
Proof.
  intros H. unfold parse_owtype. destruct ow; cbn [policy_name] in H; [by rewrite H|..].
  - by rewrite (strcasecmp_ne _ _ _ H), H.
  - by rewrite (strcasecmp_ne _ _ _ H), (strcasecmp_ne _ _ (str "sat") H), H.
Qed.

(** The name of the subcommand, followed by [n] arguments. *)
Lemma parse_sub name n opc :
  strcasecmp_eq name (sub_name opc) = true -> (if is_get opc then 2 else 3) <= n ->
  (if strcasecmp_eq name (str "get") && (2 <=? n) then mret (Some BITFIELDOP_GET)
   else if strcasecmp_eq name (str "set") && (3 <=? n) then mret (Some BITFIELDOP_SET)
   else if strcasecmp_eq name (str "incrby") && (3 <=? n) then mret (Some BITFIELDOP_INCRBY)
   else if strcasecmp_eq name (str "overflow") && (1 <=? n) then mret None
   else fail err_syntax) = mret (Some opc).
Proof.
  intros H Hn. destruct opc; cbn [sub_name is_get] in H, Hn.
  - rewrite H. by replace (2 <=? n) with true by lia.
  - rewrite (strcasecmp_ne _ _ (str "get") H), H by done. by replace (3 <=? n) with true by lia.
  - rewrite (strcasecmp_ne _ _ (str "get") H), (strcasecmp_ne _ _ (str "set") H), H by done.
    by replace (3 <=? n) with true by lia.
Qed.

Lemma parse_overflow name n :
  strcasecmp_eq name (str "overflow") = true -> 1 <= n ->
  (if strcasecmp_eq name (str "get") && (2 <=? n) then mret (Some BITFIELDOP_GET)
   else if strcasecmp_eq name (str "set") && (3 <=? n) then mret (Some BITFIELDOP_SET)
   else if strcasecmp_eq name (str "incrby") && (3 <=? n) then mret (Some BITFIELDOP_INCRBY)
   else if strcasecmp_eq name (str "overflow") && (1 <=? n) then mret None
   else fail err_syntax) = mret None.
Proof.
  intros H Hn. rewrite (strcasecmp_ne _ _ (str "get") H), (strcasecmp_ne _ _ (str "set") H),
    (strcasecmp_ne _ _ (str "incrby") H), H by done. by replace (1 <=? n) with true by lia.
Qed.

Lemma arg_at {B} (pre : list (list Z)) args i a (f : list Z -> M B) s :
  args !! Z.to_nat i = Some a -> 0 <= i ->
  (arg (pre ++ args) (zlen pre + i) ≫= f) s = f a s.
Proof.
  intros Ha Hi. apply bind_arg. replace (0 <=? zlen pre + i) with true by lia.
  rewrite lookup_app_r by lia. by replace (Z.to_nat (zlen pre + i) - length pre)%nat with (Z.to_nat i) by lia.
Qed.

Lemma bitfield_parse_args ow args ops :
  args_of ow args ops -> forall fuel (pre : list (list Z)) acc readonly highest s,
  (length args <= fuel)%nat -> Forall (op_ok proto_max_bulk_len) acc -> 0 <= highest ->
  bitfield_parse false proto_max_bulk_len fuel (pre ++ args) (zlen pre) ow acc readonly highest s
  = Some (Some (acc ++ ops, readonly && negb (existsb is_write ops), highest_write highest ops), s).
Proof using Hmax.
  induction 1 as [ow|ow ow' name policy args ops Hname Hpol Hargs IH
    |ow name t o sign bits off args ops Hname Ht Ho Hargs IH
    |ow opc name t o v sign bits off args ops Hg Hname Ht Ho Hv Hargs IH];
    intros fuel pre acc readonly highest s Hf Hacc Hh.
  - rewrite !app_nil_r. destruct fuel; cbn [bitfield_parse]; rewrite Z.leb_refl; by rewrite andb_true_r.
  - destruct fuel as [|fuel]; cbn [length] in Hf; [lia|]. cbn [bitfield_parse]. rewrite length_app. cbn [length].
    replace (_ <=? zlen pre) with false by lia.
    rewrite <- (Z.add_0_r (zlen pre)) at 1. rewrite (arg_at pre _ 0 name) by done.
    rewrite parse_overflow by (done || lia). mrun. rewrite (arg_at pre _ 1 policy) by done.
    rewrite (parse_policy _ _ Hpol). mrun.
    specialize (IH fuel (pre ++ [name; policy]) acc readonly highest s ltac:(lia) Hacc Hh).
    rewrite <- app_assoc, length_app in IH. cbn [app length] in IH.
    by replace (Z.of_nat (length pre + 2)) with (zlen pre + 2) in IH by lia.
  - destruct fuel as [|fuel]; cbn [length] in Hf; [lia|]. cbn [bitfield_parse]. rewrite length_app. cbn [length].
    replace (_ <=? zlen pre) with false by lia.
    rewrite <- (Z.add_0_r (zlen pre)) at 1. rewrite (arg_at pre _ 0 name) by done.
    rewrite (parse_sub name _ _ Hname) by (cbn; lia). mrun. rewrite (arg_at pre _ 1 t) by done.
    rewrite (bind_run _ _ _ _ _ (parse_type t sign bits s Ht)). rewrite (arg_at pre _ 2 o) by done.
    rewrite (parse_offset o bits off) by (apply Ht || done). mrun. cbn [is_get negb]. mrun.
    specialize (IH fuel (pre ++ [name; t; o]) (acc ++ [BitfieldOp off 0 BITFIELDOP_GET ow bits sign]) readonly highest s).
    rewrite <- !app_assoc, length_app in IH. cbn [app length Numbers.b2z is_get] in IH |- *.
    replace (zlen pre + (3 - 1) + 1) with (Z.of_nat (length pre + 3)) by lia.
    rewrite IH; [done|lia| |done]. apply Forall_app_2; [done|]. apply Forall_singleton.
    destruct Ht as [_ Ht], Ho as [Ho _]. unfold op_ok, in_s. cbn. destruct sign; (split_and!; (done || lia)).
  - destruct fuel as [|fuel]; cbn [length] in Hf; [lia|]. cbn [bitfield_parse]. rewrite length_app. cbn [length].
    replace (_ <=? zlen pre) with false by lia.
    rewrite <- (Z.add_0_r (zlen pre)) at 1. rewrite (arg_at pre _ 0 name) by done.
    rewrite (parse_sub name _ _ Hname) by (rewrite Hg; lia). mrun. rewrite (arg_at pre _ 1 t) by done.
    rewrite (bind_run _ _ _ _ _ (parse_type t sign bits s Ht)). rewrite (arg_at pre _ 2 o) by done.
    rewrite (parse_offset o bits off) by (apply Ht || done). mrun. rewrite Hg. cbn [negb].
    rewrite bind_assoc, (arg_at pre _ 3 (Numbers.dec v)) by done. rewrite getLongLong_ok by done. mrun.
    set (op := BitfieldOp off v opc ow bits sign).
    assert (op_ok proto_max_bulk_len op) as Hop.
    { destruct Ht as [_ Ht], Ho as [Ho _]. unfold op_ok, op. cbn. destruct sign; (split_and!; (done || lia)). }
    pose proof Hop as (Hoff & Hbits & _ & _). cbn [bf_offset bf_bits op] in Hoff, Hbits.
    rewrite uwrap_id by (unfold in_u; lia).
    replace (if highest <? off + bits - 1 then off + bits - 1 else highest) with (Z.max highest (op_end op))
      by (unfold op_end; cbn [bf_offset bf_bits op]; destruct (Z.ltb_spec highest (off + bits - 1)); lia).
    assert (is_write op = true) as Hw by (unfold is_write; cbn; by rewrite Hg).
    specialize (IH fuel (pre ++ [name; t; o; Numbers.dec v]) (acc ++ [op]) false (Z.max highest (op_end op)) s).
    rewrite <- !app_assoc, length_app in IH. cbn [app length Numbers.b2z] in IH |- *.
    replace (zlen pre + (3 - 0) + 1) with (Z.of_nat (length pre + 4)) by lia.
    rewrite IH; [|lia|by apply Forall_app_2; [|apply Forall_singleton]|lia].
    cbn [existsb highest_write foldl]. rewrite Hw. cbn [orb negb andb]. by rewrite andb_false_r.
Qed.

Lemma parse_command cmd k args ops s :
  args_of BFOVERFLOW_WRAP args ops ->
  parse (cmd :: k :: args) s = Some (Some (ops, negb (existsb is_write ops), highest_write 0 ops), s).
Proof using Hmax.
  intros Hargs. apply (bitfield_parse_args _ _ _ Hargs (length (cmd :: k :: args)) [cmd; k] [] true 0 s); [cbn; lia|done|lia].
Qed.

(** C23: BITFIELD and BITFIELD_RO implement the operations on an endless
    sequence of bits.  For arguments that name operations as the documentation
    has it ([args_of]; for an offset [#n] the product of [n] and the width is below the
    limit on the size of a string, so the multiplication does not wrap), the replies
    are those of the specification, whose integers do not wrap; the string is
    extended up to the highest bit written and holds the bits of the
    specification; the number of changes is added to [dirty], and the key is
    signalled when there is any.  A command of GETs changes nothing.  No access
    is outside the string.  The client is not the master, so the limit on the
    size applies.  The specification has the code's exception: a
    signed SET under SAT of a value near [INT64_MIN] stores the upper bound
    ([set_near_min]). *)
Theorem bitfield_correct wrapped (ro : bool) cmd k args s x ops :
  args_of BFOVERFLOW_WRAP args ops -> db_ok (db s) -> stored (db s !! k) = Some x ->
  (ro = true -> existsb is_write ops = false) ->
  let readonly := negb (existsb is_write ops) in
  let highest := highest_write 0 ops in
  let '(f', replies, n) := bf_spec (negb readonly && (zlen x <? highest / 8 + 1)) (bit_at x) ops in
  exists s', bitfieldGeneric false proto_max_bulk_len wrapped (cmd :: k :: args) ro s = Some (Some tt, s') /\
    out s' = out s ++ RArrayLen (zlen ops) :: replies /\ dirty s' = dirty s + n /\
    modified s' = modified s ++ (if n =? 0 then [] else [k]) /\
    if readonly then db s' = db s
    else exists x', db s' = <[k := OStr x']> (db s) /\
      zlen x' = Z.max (zlen x) (highest / 8 + 1) /\ repr x' f'.
Proof using All.
  intros Hargs Hd Hx Hro. destruct (stored_ok _ _ _ Hd Hx) as [Hok Hlen].
  pose proof (parse_command cmd k args ops s Hargs) as Hp.
  destruct (parse_result _ _ _ _ _ _ Hp) as [_ Hpo]. pose proof Hpo as (Hops & Hrd & Hh & _).
  pose proof (op_ok_fine ops Hops) as Hfine. set (highest := highest_write 0 ops) in *.
  cbv zeta. unfold bitfieldGeneric. marg. rewrite (bind_run _ _ _ _ _ Hp).
  clear Hrd. assert (ro = true -> negb (existsb is_write ops) = true) as Hro' by (intros H; by rewrite Hro).
  assert (negb (existsb is_write ops) = true -> existsb is_write ops = false) as Hrd by by destruct (existsb _ _).
  clear Hro. rename Hro' into Hro. destruct (negb (existsb is_write ops)) eqn:Hreadonly.
  all: cbn [negb andb].
  - mrun. destruct (readonly_spec k s x Hd Hx) as [-> _]. mrun.
    destruct (bitfield_exec_readonly k wrapped ops 0 (replied (RArrayLen (zlen ops)) s) x (bit_at x))
      as (replies & -> & Hrun); try done. { by apply Hrd. }
    rewrite (bind_run _ _ _ _ _ Hrun). eexists. split; [done|]. cbn.
    rewrite <- app_assoc, app_nil_r, Z.add_0_r. done.
  - replace ro with false by (destruct ro; [by specialize (Hro eq_refl)|done]).
    mrun. rewrite (bind_run _ _ _ _ _ (lookupString_spec k highest s x Hd Hx ltac:(lia))). mrun.
    rewrite Z.shiftr_div_pow2 by lia. change (2 ^ 3) with 8.
    pose proof (parse_fits x _ _ _ Hpo) as Hfits. set (x1 := grown x (highest / 8 + 1)) in *.
    assert (zlen x1 = Z.max (zlen x) (highest / 8 + 1)) as Hl1 by (apply grown_length; dlia).
    replace (zlen x <? highest / 8 + 1) with (negb (zlen x1 - zlen x =? 0)) by lia.
    set (s1 := St _ _ _ _ (out s ++ [RArrayLen (zlen ops)])).
    pose proof (bitfield_exec_spec k (zlen x1 - zlen x) wrapped ops 0 s1 x1 (bit_at x)
      ltac:(apply lookup_insert_eq) ltac:(by apply grown_ok) ltac:(dlia)
      ltac:(intros i Hi; by apply bit_at_grown) Hfine Hfits) as H.
    destruct (bf_spec _ (bit_at x) ops) as [[f' replies] n]. destruct H as (x' & Hrun & Hok' & Hl' & Hr').
    rewrite (bind_run _ _ _ _ _ Hrun), Z.add_0_l.
    exists (St (<[k := OStr x']> (db s)) (dirty s + n) (modified s ++ (if n =? 0 then [] else [k]))
      (events s1 ++ (if n =? 0 then [] else [(str "setbit", k)])) (out s ++ RArrayLen (zlen ops) :: replies)).
    split_and!; try done; [|exists x'; split_and!; (done || lia)].
    unfold s1. cbn [db dirty modified events out]. rewrite insert_insert_eq, <- app_assoc. cbn [app].
    destruct (Z.eqb_spec n 0) as [-> |]; cbn [negb]; [by rewrite Z.add_0_r, !app_nil_r|]. done.
Qed.
End Command.

Definition sample_args : list (list Z) :=
  [str "overflow"; str "SAT"; str "incrby"; str "i5"; str "3"; str "100";
   str "set"; str "u8"; str "#1"; str "-1"; str "get"; str "u4"; str "14";
   str "set"; str "i8"; str "16"; str "-9223372036854775808"].

Lemma bitfield_correct_witness :
  exists s', bitfieldGeneric false 1000 7 (str "bitfield" :: str "k" :: sample_args) false (St ∅ 0 [] [] [])
      = Some (Some tt, s') /\
    out s' = [RArrayLen 4; RInt 15; RInt 0; RInt 12; RInt 0] /\ dirty s' = 3.
Proof.
  destruct (bitfield_correct 1000 ltac:(lia) 7 false (str "bitfield") (str "k") sample_args (St ∅ 0 [] [] []) []
    [BitfieldOp 3 100 BITFIELDOP_INCRBY BFOVERFLOW_SAT 5 true;
     BitfieldOp 8 (-1) BITFIELDOP_SET BFOVERFLOW_SAT 8 false;
     BitfieldOp 14 0 BITFIELDOP_GET BFOVERFLOW_SAT 4 false;
     BitfieldOp 16 (- 2 ^ 63) BITFIELDOP_SET BFOVERFLOW_SAT 8 true]) as (s' & H1 & H2 & H3 & _).
  - apply (args_overflow _ _ BFOVERFLOW_SAT); [reflexivity..|].
    apply (args_write _ _ BITFIELDOP_INCRBY _ _ _ 100); [reflexivity..| | | |].
    { split; [reflexivity|lia]. } { split; [lia|by left]. } { unfold in_s. lia. }
    apply (args_write _ _ BITFIELDOP_SET _ _ _ (-1)); [reflexivity..| | | |].
    { split; [reflexivity|lia]. } { split; [lia|]. right. by exists 1. } { unfold in_s. lia. }
    apply args_get; [reflexivity|split; [reflexivity|lia]|split; [lia|by left]|].
    apply (args_write _ _ BITFIELDOP_SET _ _ _ (- 2 ^ 63)); [reflexivity..| | | |apply args_nil].
    { split; [reflexivity|lia]. } { split; [lia|by left]. } { unfold in_s. lia. }
  - apply map_Forall_empty.
  - reflexivity.
  - discriminate.
  - exists s'. split; [exact H1|]. split; [exact H2|exact H3].
Defined.

(** ** Errors *)

(** From [s] to [s'] one reply is added and nothing else changes. *)
Definition only_replied (s s' : st) : Prop :=
  exists r, out s' = out s ++ [r] /\ db s' = db s /\ dirty s' = dirty s /\
    modified s' = modified s /\ events s' = events s.

(** [clean m]: when [m] stops early, it has added one reply and nothing else.
    [steady m]: it never stops early. *)
Definition clean {A} (m : M A) : Prop :=
  forall s s', m s = Some (None, s') -> exists r, s' = replied r s.
Definition steady {A} (m : M A) : Prop := forall s s', m s <> Some (None, s').

Lemma bind_stops {A B} (m : M A) (f : A -> M B) s s' :
  (m ≫= f) s = Some (None, s') ->
  m s = Some (None, s') \/ exists a s1, m s = Some (Some a, s1) /\ f a s1 = Some (None, s').
Proof. unfold mbind, M_bind. destruct (m s) as [[[a|] s1]|]; [eauto|intros [= ->]; auto|done]. Qed.

(** [guard m]: moreover it changes nothing when it goes on. *)
Definition guard {A} (m : M A) : Prop :=
  clean m /\ forall s a s', m s = Some (Some a, s') -> s' = s.

Lemma clean_guard {A B} (m : M A) (f : A -> M B) :
  guard m -> (forall a, clean (f a)) -> clean (m ≫= f).
Proof.
  intros [Hc Hs] Hf s s' [H|(a & s1 & H & H')]%bind_stops; [by apply Hc|].
  apply Hs in H as ->. by apply (Hf a).
Qed.

Lemma guard_bind {A B} (m : M A) (f : A -> M B) :
  guard m -> (forall a, guard (f a)) -> guard (m ≫= f).
Proof.
  intros Hm Hf. split; [apply clean_guard; [done|intros a; apply Hf]|]. intros s b s' H.
  unfold mbind, M_bind in H. destruct (m s) as [[[a|] s1]|] eqn:He; [|done..].
  destruct Hm as [_ Hm]. apply Hm in He as ->. by apply Hf in H.
Qed.

Lemma guard_ret {A} (a : A) : guard (mret a).
Proof. split; [done|]. by intros s b s' [= _ <-]. Qed.
Lemma guard_fail {A} msg : guard (@fail A msg).
Proof. split; [|done]. intros s s' [= <-]. by exists (RErr msg). Qed.
Lemma guard_lift {A} (o : option A) : guard (lift o).
Proof. destruct o; split; try done. by intros s b s' [= _ <-]. Qed.
Lemma guard_reads {A} (f : st -> A) : guard (reads f).
Proof. split; [done|]. by intros s b s' [= _ <-]. Qed.
Lemma guard_stuck {A} : guard (@stuck A).
Proof. done. Qed.
Lemma guard_zero {A} : guard (addReply (RInt 0);; @stop A).
Proof. split; [|done]. intros s s' [= <-]. by exists (RInt 0). Qed.
Lemma guard_if {A} (b : bool) (m n : M A) : guard m -> guard n -> guard (if b then m else n).
Proof. by destruct b. Qed.

Create HintDb guard.
#[export] Hint Resolve guard_bind guard_ret guard_fail guard_lift guard_reads guard_stuck guard_zero
  guard_if : guard.

Lemma clean_steady {A B} (m : M A) (f : A -> M B) :
  clean m -> (forall a, steady (f a)) -> clean (m ≫= f).
Proof. intros Hm Hf s s' [Hs|(a & s1 & _ & Hs)]%bind_stops; [by apply Hm|]. by apply Hf in Hs. Qed.

Lemma steady_bind {A B} (m : M A) (f : A -> M B) :
  steady m -> (forall a, steady (f a)) -> steady (m ≫= f).
Proof. intros Hm Hf s s' [Hs|(a & s1 & _ & Hs)]%bind_stops; [by apply Hm in Hs|by apply Hf in Hs]. Qed.

Lemma steady_clean {A} (m : M A) : steady m -> clean m.
Proof. intros Hm s s' Hs. by apply Hm in Hs. Qed.

Lemma steady_if {A} (b : bool) (m n : M A) : steady m -> steady n -> steady (if b then m else n).
Proof. by destruct b. Qed.

Lemma clean_if {A} (b : bool) (m n : M A) : clean m -> clean n -> clean (if b then m else n).
Proof. by destruct b. Qed.

Lemma steady_ret {A} (a : A) : steady (mret a).
Proof. done. Qed.
Lemma steady_lift {A} (o : option A) : steady (lift o).
Proof. intros s s'. by destruct o. Qed.
Lemma steady_updates f : steady (updates f).
Proof. done. Qed.
Lemma steady_reads {A} (f : st -> A) : steady (reads f).
Proof. done. Qed.
Lemma steady_contents k : steady (contents k).
Proof. intros s s'. unfold contents. by destruct (db s !! k) as [[]|]. Qed.
Lemma steady_stuck {A} : steady (@stuck A).
Proof. done. Qed.
#[export] Hint Resolve steady_bind steady_ret steady_lift steady_updates steady_reads steady_contents
  steady_stuck steady_if clean_steady clean_if : guard.
#[export] Hint Extern 2 (steady _) => apply steady_updates : guard.
#[export] Hint Extern 2 (steady _) => apply steady_reads : guard.
#[export] Hint Extern 2 (guard _) => apply guard_reads : guard.

Section Guards.
Context (obey : bool) (proto_max_bulk_len : Z).

Lemma guard_arg argv n : guard (arg argv n).
Proof. apply guard_lift. Qed.
Lemma guard_long o msg : guard (getLongLongFromObjectOrReply o msg).
Proof. unfold getLongLongFromObjectOrReply. destruct (Numbers.string2ll o); auto with guard. Qed.
Lemma guard_offset o hash bits : guard (getBitOffsetFromArgument obey proto_max_bulk_len o hash bits).
Proof. unfold getBitOffsetFromArgument. destruct (Numbers.string2ll _); auto with guard. Qed.
Lemma guard_type o : guard (getBitfieldTypeFromArgument o).
Proof.
  apply guard_bind; [auto with guard|]. intros sign. destruct (Numbers.string2ll _); auto with guard.
Qed.
Lemma guard_checkType o : guard (checkType o).
Proof. destruct o as [[]|]; cbn; auto with guard. Qed.
Lemma guard_readonly o : guard (getObjectReadOnlyString o).
Proof. destruct o as [[]|]; cbn; auto with guard. Qed.
Lemma guard_unit o : guard (parse_unit o).
Proof. unfold parse_unit. auto with guard. Qed.
#[local] Hint Resolve guard_arg guard_long guard_offset guard_type guard_checkType guard_readonly
  guard_unit : guard.

Lemma clean_lookupString k maxbit : clean (lookupStringForBitCommand k maxbit).
Proof.
  apply clean_guard; [apply guard_reads|]. intros [[]|].
  3: apply guard_fail.
  all: apply steady_clean; auto 10 with guard.
Qed.

Lemma guard_parse fuel argv j ow ops readonly highest :
  guard (bitfield_parse obey proto_max_bulk_len fuel argv j ow ops readonly highest).
Proof.
  revert j ow ops readonly highest. induction fuel as [|fuel IH]; intros; cbn [bitfield_parse];
    [auto with guard|].
  apply guard_if; [apply guard_ret|]. apply guard_bind; [apply guard_arg|]. intros subcmd.
  apply guard_bind; [auto 10 with guard|]. intros [opc|].
  - apply guard_bind; [apply guard_arg|]. intros a1. apply guard_bind; [apply guard_type|]. intros [sign bits].
    apply guard_bind; [apply guard_arg|]. intros a2. apply guard_bind; [apply guard_offset|]. intros off.
    apply guard_bind; [destruct (negb _); auto 10 with guard|]. intros [[ro h] i64]. apply IH.
  - apply guard_bind; [apply guard_arg|]. intros name.
    apply guard_bind; [unfold parse_owtype; auto 10 with guard|]. intros ow'. apply IH.
Qed.

Lemma steady_exec k found grow wrapped ops ch : steady (bitfield_exec k found grow wrapped ops ch).
Proof.
  revert ch. induction ops as [|op ops IH]; intros ch; cbn [bitfield_exec]; [auto with guard|].
  apply steady_if; (apply steady_bind; [auto with guard|intros o]).
  - apply steady_bind; [destruct o as [[]|]; cbn; auto with guard|intros src].
    apply steady_bind; [auto with guard|intros val]. apply steady_bind; [apply steady_updates|intros _; apply IH].
  - apply steady_bind; [auto with guard|intros [[[v|] p] chg]];
      repeat (apply steady_bind; [apply steady_updates|intros _]); apply IH.
Qed.

Lemma guard_bitcount_range argv k : guard (bitcount_range argv k).
Proof.
  unfold bitcount_range. apply guard_if; [|auto 10 with guard].
  do 4 (apply guard_bind; [auto with guard|intros ?]). apply guard_bind; [auto 10 with guard|intros isbit].
  do 3 (apply guard_bind; [auto with guard|intros ?]). auto 10 with guard.
Qed.

Lemma guard_bitpos_range argv k : guard (bitpos_range argv k).
Proof.
  unfold bitpos_range. apply guard_if; [|auto 10 with guard].
  do 2 (apply guard_bind; [auto with guard|intros ?]). do 2 (apply guard_bind; [auto 10 with guard|intros ?]).
  do 3 (apply guard_bind; [auto with guard|intros ?]). auto 10 with guard.
Qed.

Lemma guard_bitop_op name : guard (Bitop.parse_bitop name).
Proof. unfold Bitop.parse_bitop. auto 20 with guard. Qed.

Lemma guard_bitop_lookup keys first maxlen minlen : guard (Bitop.bitop_lookup keys first maxlen minlen).
Proof.
  revert first maxlen minlen. induction keys as [|k keys IH]; intros; cbn [Bitop.bitop_lookup]; [auto with guard|].
  apply guard_bind; [auto with guard|]. intros [o|].
  - apply guard_bind; [auto with guard|]. intros _.
    apply guard_bind; [destruct o; auto with guard|]. intros x. cbv zeta.
    apply guard_bind; [apply IH|]. intros [[? ?] ?]. apply guard_ret.
  - apply guard_bind; [apply IH|]. intros [[? ?] ?]. apply guard_ret.
Qed.

(** After the keys are read nothing stops BITOP. *)
Lemma steady_bitop op target src maxlen minlen :
  steady (match src with
          | [] => stuck
          | src0 :: keys =>
            (if negb (maxlen =? 0) then
               res ← lift (Bitop.bitop_compute op src0 keys maxlen minlen);
               Bitop.setKey target (OStr res);;
               notifyKeyspaceEvent (str "set") target;;
               add_dirty 1
             else
               deleted ← Bitop.dbDelete target;
               if deleted : bool then
                 keyModified target;;
                 notifyKeyspaceEvent (str "del") target;;
                 add_dirty 1
               else mret tt);;
            addReply (RInt maxlen)
          end).
Proof.
  destruct src as [|src0 keys]; [auto with guard|].
  apply steady_bind; [|intros _; apply steady_updates]. apply steady_if.
  - apply steady_bind; [auto with guard|intros res]. apply steady_bind; [|intros _; auto 10 with guard].
    unfold Bitop.setKey. apply steady_bind; [auto with guard|intros old]. apply steady_bind; [auto with guard|intros _].
    apply steady_bind; [destruct old as [[]|]; auto 10 with guard|intros _; auto with guard].
  - apply steady_bind.
    + unfold Bitop.dbDelete. apply steady_bind; [auto with guard|intros [o|]]; auto 10 with guard.
    + intros []; auto 10 with guard.
Qed.

(** C29: when one of the bitmap commands SETBIT, GETBIT, BITCOUNT, BITPOS,
    BITFIELD, BITFIELD_RO and BITOP stops early, because of an argument, the
    number of arguments, or the type of a key, it has added exactly one reply
    and changed nothing else: the database, the dirty counter and the signalled
    keys are as before. *)
Theorem bit_commands_errors on addr stack wrapped ro argv s s' :
  setbitCommand obey proto_max_bulk_len argv s = Some (None, s') \/
  getbitCommand obey proto_max_bulk_len argv s = Some (None, s') \/
  bitcountCommand on addr stack argv s = Some (None, s') \/
  bitposCommand addr stack argv s = Some (None, s') \/
  bitfieldGeneric obey proto_max_bulk_len wrapped argv ro s = Some (None, s') \/
  Bitop.bitopCommand argv s = Some (None, s') ->
  only_replied s s'.
Proof.
  intros H. assert (exists r, s' = replied r s) as [r ->]; [|by exists r].
  destruct H as [H|[H|[H|[H|[H|H]]]]]; revert s s' H.
  - apply clean_guard; [auto with guard|intros k]. apply clean_guard; [auto with guard|intros a2].
    apply clean_guard; [auto with guard|intros off]. apply clean_guard; [auto with guard|intros a3].
    apply clean_guard; [apply guard_long|intros v]. apply clean_if; [apply guard_fail|].
    apply clean_steady; [apply clean_lookupString|]. intros [old grow].
    apply steady_bind; [auto with guard|intros x]. apply steady_bind; [auto with guard|intros b].
    apply steady_bind; [auto 20 with guard|intros _]. apply steady_updates.
  - do 4 (apply clean_guard; [auto with guard|intros ?]). destruct a2 as [o|]; [|apply steady_clean, steady_updates].
    apply clean_guard; [auto with guard|intros _]. apply clean_guard; [destruct o; auto with guard|intros x].
    apply steady_clean. auto 10 with guard.
  - apply clean_guard; [auto with guard|intros k]. apply clean_guard; [apply guard_bitcount_range|].
    intros [[o p] [[[start end_] fm] lm]]. apply steady_clean. unfold bitcount_reply.
    destruct o; auto 20 with guard.
  - do 2 (apply clean_guard; [auto with guard|intros ?]). apply clean_guard; [apply guard_long|intros bit].
    apply clean_if; [apply guard_fail|]. apply clean_guard; [apply guard_bitpos_range|].
    intros [[[o p] [[[start end_] fm] lm]] given]. apply steady_clean. unfold bitpos_reply.
    destruct o; [|auto with guard]. apply steady_if; [auto with guard|].
    apply steady_bind; [auto with guard|]. intros [[pos st] bs]. auto with guard.
  - apply clean_guard; [auto with guard|intros k]. apply clean_guard; [apply guard_parse|].
    intros [[ops readonly] highest]. apply clean_steady.
    + apply clean_if; [apply guard_bind; [auto with guard|intros o]; auto 10 with guard|].
      apply clean_if; [apply guard_fail|]. apply clean_steady; [apply clean_lookupString|].
      intros [old grow]. auto with guard.
    + intros [found grow]. apply steady_bind; [auto with guard|intros _].
      apply steady_bind; [apply steady_exec|intros ch]. auto 10 with guard.
  - apply clean_guard; [auto with guard|intros opname]. apply clean_guard; [auto with guard|intros target].
    apply clean_guard; [apply guard_bitop_op|intros op]. apply clean_if; [apply guard_fail|].
    apply clean_if; [apply guard_fail|]. apply clean_guard; [apply guard_bitop_lookup|].
    intros [[src maxlen] minlen]. apply steady_clean. apply steady_bitop.
Qed.
End Guards.

Lemma bit_commands_errors_witness :
  only_replied (St sample_db 0 [] [] []) (St sample_db 0 [] [] [RErr err_offset]).
Proof.
  apply (bit_commands_errors false 512 (Scalar true) 0 0 0 false [str "SETBIT"; str "k"; str "-1"; str "1"]
    (St sample_db 0 [] [] []) (St sample_db 0 [] [] [RErr err_offset])).
  left. vm_compute. reflexivity.
Defined.

(** A SET of a value that does not fit, under OVERFLOW FAIL. *)
Definition set_or_fail : list (list Z) :=
  [str "BITFIELD"; str "k"; str "OVERFLOW"; str "FAIL"; str "SET"; str "u8"; str "0"; str "256"].

(** BITFIELD can create a key, or make a string longer, without
    telling anybody: when the key is missing and the only operation is a SET
    that fails under OVERFLOW FAIL, the key is created, but [dirty] is not
    incremented and the key is not signalled, so the command is not
    propagated to replicas and to the append only file. *)
Theorem bitfield_fail_creates_key wrapped s :
  db s !! str "k" = None ->
  exists s', bitfieldCommand false 1000 wrapped set_or_fail s = Some (Some tt, s') /\
    out s' = out s ++ [RArrayLen 1; RNull] /\ db s' = <[str "k" := OStr [0]]> (db s) /\
    dirty s' = dirty s /\ modified s' = modified s.
Proof.
  intros Hk. unfold bitfieldCommand, bitfieldGeneric, set_or_fail. marg.
  set (argv := [str "BITFIELD"; _; _; _; _; _; _; _]).
  set (op := BitfieldOp 0 256 BITFIELDOP_SET BFOVERFLOW_FAIL 8 false).
  assert (bitfield_parse false 1000 (length argv) argv 2 BFOVERFLOW_WRAP [] true 0 s
    = Some (Some ([op], false, 7), s)) as Hp by (destruct s; vm_compute; reflexivity).
  rewrite (bind_run _ _ _ _ _ Hp). unfold lookupStringForBitCommand. mrun. rewrite Hk. mrun.
  change (Z.to_nat (Z.shiftr 7 3 + 1)) with 1%nat. change (replicate 1 0) with [0].
  cbn [bitfield_exec is_get bf_opcode op].
  assert (forall s1, db s1 = <[str "k" := OStr [0]]> (db s) -> contents (str "k") s1 = Some (Some [0], s1)) as Hc.
  { intros s1 Hs1. unfold contents. rewrite Hs1. by rewrite lookup_insert_eq. }
  rewrite bind_assoc. erewrite bind_run by (by apply Hc). mrun.
  replace (if bf_sign op then _ else _) with (Some (@None Z, [0], false)) by (vm_compute; reflexivity).
  mrun. eexists. split; [reflexivity|]. cbn. by rewrite <- app_assoc.
Qed.

Lemma bitfield_fail_creates_key_witness :
  exists s', bitfieldCommand false 1000 0 set_or_fail (St ∅ 0 [] [] []) = Some (Some tt, s') /\
    out s' = [] ++ [RArrayLen 1; RNull] /\ db s' = <[str "k" := OStr [0]]> ∅ /\ dirty s' = 0 /\ modified s' = [].
Proof. apply (bitfield_fail_creates_key 0 (St ∅ 0 [] [] [])). reflexivity. Defined.

(** The product of [#<offset>] and the width is not checked: an offset of
    [2^61] fields of 8 bits is bit 0. *)
Lemma hash_offset_wraps :
  getBitOffsetFromArgument false (512 * 1024 * 1024) (str "#2305843009213693952") true 8 = mret 0.
Proof. vm_compute. reflexivity. Qed.
End Bitfield.
