(* ===== verification/Skiplist.v ===== *)
(** * The skip list of sorted sets ([t_zset.c])

    Nodes are cells of a heap indexed by their addresses; a freed node is no
    longer in the heap.  A node has a score, an element, a back pointer and an
    array of levels, each with a forward pointer and a span.  Level 0 has no
    span: its place holds the number of levels of the node ([n_levels]) and
    the offset of the element. *)

From Stdlib Require Import SpecFloat.
From stdpp Require Import gmap.
From S2P Require Import Prelude.
From S2P Require Import Sds.

Module Skiplist.

(** ** Scores

    What the code relies on of the type [double]: comparisons that are a
    strict weak order as long as no operand is a NaN. *)
Class Score := {
  double : Type;
  dlt : double -> double -> bool;
  dle : double -> double -> bool;
  deq : double -> double -> bool;
  isnan : double -> bool;
  dzero : double;
  dle_dlt a b : isnan a = false -> isnan b = false -> dle a b = negb (dlt b a);
  deq_dlt a b : isnan a = false -> isnan b = false -> deq a b = negb (dlt a b) && negb (dlt b a);
  dlt_irrefl a : dlt a a = false;
  dlt_trans a b c : dlt a b = true -> dlt b c = true -> dlt a c = true;
  dlt_weak a b c : isnan a = false -> isnan b = false -> isnan c = false ->
    dlt a c = true -> dlt a b = true \/ dlt b c = true;
}.

(** IEEE 754 numbers are such a type.  The key of a number orders numbers of
    different exponents, and the zeros are equal. *)
Definition sf_key (f : spec_float) : Z * Z * Z :=
  match f with
  | S754_nan => (3, 0, 0)
  | S754_infinity s => (if s then -2 else 2, 0, 0)
  | S754_zero _ => (0, 0, 0)
  | S754_finite s m e => if s then (-1, - e, Zneg m) else (1, e, Zpos m)
  end.

Definition key_lt (a b : Z * Z * Z) : Prop :=
  let '(a1, a2, a3) := a in
  let '(b1, b2, b3) := b in
  a1 < b1 \/ a1 = b1 /\ (a2 < b2 \/ a2 = b2 /\ a3 < b3).

Definition sf_nan (f : spec_float) : bool := match f with S754_nan => true | _ => false end.

Lemma SFcompare_key a b : sf_nan a = false -> sf_nan b = false ->
  match SFcompare a b with
  | Some Lt => key_lt (sf_key a) (sf_key b)
  | Some Gt => key_lt (sf_key b) (sf_key a)
  | Some Eq => sf_key a = sf_key b
  | None => False
  end.
Proof.
  intros Ha Hb. destruct a as [[]|[]| |[] m e], b as [[]|[]| |[] m' e'];
    cbn [sf_nan SFcompare sf_key key_lt] in *; try done; try lia.
  all: change (Pos.compare_cont Eq m m') with (Pos.compare m m').
  all: destruct (Z.compare_spec e e'); cbn; try lia.
  all: destruct (Pos.compare_spec m m'); cbn; subst; try done; lia.
Qed.

Lemma SFltb_key a b : SFltb a b = true <->
  sf_nan a = false /\ sf_nan b = false /\ key_lt (sf_key a) (sf_key b).
Proof.
  unfold SFltb. destruct (sf_nan a) eqn:Ha; [destruct a; try done; split; [done|intros [? _]; done]|].
  destruct (sf_nan b) eqn:Hb; [destruct b; try done; destruct a; split; try done; intros (_ & ? & _); done|].
  pose proof (SFcompare_key a b Ha Hb) as H. destruct (SFcompare a b) as [[]|]; split; try done.
  - intros (_ & _ & Hk). rewrite H in Hk. destruct (sf_key b) as [[] ?]. cbn in Hk. lia.
  - intros (_ & _ & Hk). destruct (sf_key a) as [[] ?], (sf_key b) as [[] ?]. cbn in H, Hk. lia.
Qed.

#[export, refine] Instance binary64 : Score := {|
  double := spec_float; dlt := SFltb; dle := SFleb; deq := SFeqb; isnan := sf_nan;
  dzero := S754_zero false |}.
Proof.
  - intros a b Ha Hb. unfold SFleb, SFltb. pose proof (SFcompare_key a b Ha Hb) as H1.
    pose proof (SFcompare_key b a Hb Ha) as H2.
    destruct (sf_key a) as [[] ?], (sf_key b) as [[] ?]; cbn in H1, H2.
    destruct (SFcompare a b) as [[]|], (SFcompare b a) as [[]|]; try done; simplify_eq; lia.
  - intros a b Ha Hb. unfold SFeqb, SFltb. pose proof (SFcompare_key a b Ha Hb) as H1.
    pose proof (SFcompare_key b a Hb Ha) as H2.
    destruct (sf_key a) as [[] ?], (sf_key b) as [[] ?]; cbn in H1, H2.
    destruct (SFcompare a b) as [[]|], (SFcompare b a) as [[]|]; try done; simplify_eq; lia.
  - intros a. apply not_true_is_false. rewrite SFltb_key. intros (_ & _ & H). destruct (sf_key a) as [[] ?]. cbn in H. lia.
  - intros a b c. rewrite !SFltb_key. intros (? & ? & ?) (? & ? & ?). split_and!; try done.
    destruct (sf_key a) as [[] ?], (sf_key b) as [[] ?], (sf_key c) as [[] ?]; cbn in *. lia.
  - intros a b c Ha Hb Hc. rewrite !SFltb_key. intros (_ & _ & H).
    assert (key_lt (sf_key a) (sf_key b) \/ key_lt (sf_key b) (sf_key c)) as [?|?]; [|by left|by right].
    destruct (sf_key a) as [[] ?], (sf_key b) as [[] ?], (sf_key c) as [[] ?]; cbn in *. lia.
Defined.

Abbreviation addr := Z.

Section Model.
Context {SC : Score}.

Record zskiplistLevel := Level { forward : option addr; span : Z }.

(** [n_levels] and the element stand for [zskiplistNodeInfo] and the string
    after the array; the header has no element. *)
Record zskiplistNode := Node {
  n_score : double;
  n_backward : option addr;
  n_level : list zskiplistLevel;
  n_levels : nat;
  n_ele : option (list Z);
  n_usable : Z;
}.

Record zskiplist := Zsl {
  z_header : addr;
  z_tail : option addr;
  z_length : Z;
  z_level : nat;
  z_alloc_size : Z;
}.

Abbreviation heap := (gmap addr zskiplistNode).

Definition ZSKIPLIST_MAXLEVEL : nat := 32.
Definition ZSKIPLIST_MAX_SEARCH : Z := 10.

Definition set_level (n : zskiplistNode) (l : list zskiplistLevel) : zskiplistNode :=
  Node (n_score n) (n_backward n) l (n_levels n) (n_ele n) (n_usable n).
Definition set_backward (b : option addr) (n : zskiplistNode) : zskiplistNode :=
  Node (n_score n) b (n_level n) (n_levels n) (n_ele n) (n_usable n).
Definition set_score (s : double) (n : zskiplistNode) : zskiplistNode :=
  Node s (n_backward n) (n_level n) (n_levels n) (n_ele n) (n_usable n).
Definition set_levels (k : nat) (n : zskiplistNode) : zskiplistNode :=
  Node (n_score n) (n_backward n) (n_level n) k (n_ele n) (n_usable n).

(** Assignments through a pointer: to fields of a node, and to level [i]. *)
Definition upd (h : heap) (a : addr) (f : zskiplistNode -> zskiplistNode) : option heap :=
  n ← h !! a; Some (<[a := f n]> h).
Definition upd_level (h : heap) (a : addr) (i : nat) (f : zskiplistLevel -> zskiplistLevel)
    : option heap :=
  n ← h !! a;
  l ← n_level n !! i;
  Some (<[a := set_level n (<[i := f l]> (n_level n))]> h).
Definition get_level (h : heap) (a : addr) (i : nat) : option zskiplistLevel :=
  n ← h !! a; n_level n !! i.

Definition set_forward (y : option addr) (l : zskiplistLevel) : zskiplistLevel := Level y (span l).
Definition set_span (v : Z) (l : zskiplistLevel) : zskiplistLevel := Level (forward l) v.

(** ** Spans *)

Definition zslGetNodeSpanAtLevel (h : heap) (x : addr) (level : nat) : option Z :=
  if (0 <? level)%nat then l ← get_level h x level; Some (span l)
  else l ← get_level h x 0; Some (match forward l with Some _ => 1 | None => 0 end).

Definition zslSetNodeSpanAtLevel (h : heap) (x : addr) (level : nat) (v : Z) : option heap :=
  if (0 <? level)%nat then upd_level h x level (set_span (uwrap 64 v)) else Some h.

Definition zslIncrNodeSpanAtLevel (h : heap) (x : addr) (level : nat) (incr : Z) : option heap :=
  if (0 <? level)%nat
  then upd_level h x level (fun l => set_span (uwrap 64 (span l + incr)) l) else Some h.

Definition zslDecrNodeSpanAtLevel (h : heap) (x : addr) (level : nat) (decr : Z) : option heap :=
  if (0 <? level)%nat
  then upd_level h x level (fun l => set_span (uwrap 64 (span l - decr)) l) else Some h.

(** ** Comparison *)

(** [sdscmp] on the contents of the strings. *)
Definition sdscmp (a b : list Z) : Z :=
  let minlen := (length a `min` length b)%nat in
  let cmp := Sds.memcmp (take minlen a) (take minlen b) in
  if cmp =? 0 then if zlen a >? zlen b then 1 else if zlen a <? zlen b then -1 else 0 else cmp.

Definition zslGetNodeElement (h : heap) (x : addr) : option (list Z) := n ← h !! x; n_ele n.

Definition zslCompareWithNode (h : heap) (score : double) (ele : list Z) (n : option addr) : option Z :=
  match n with
  | None => Some (-1)
  | Some a =>
    n ← h !! a;
    if dlt score (n_score n) then Some (-1)
    else if dlt (n_score n) score then Some 1
    else e ← zslGetNodeElement h a; Some (sdscmp ele e)
  end.

(** ** Creation and release *)

Definition zslCreateHeaderNode (h : heap) (a : addr) (usable : Z) : heap :=
  <[a := Node dzero None (replicate ZSKIPLIST_MAXLEVEL (Level None 0)) ZSKIPLIST_MAXLEVEL None usable]> h.

(** [a], [usable] and [junk]: the address and the usable size the allocator
    gives, and what the new block contains. *)
Definition zslCreateNode (h : heap) (z : zskiplist) (a usable : Z) (junk : nat -> zskiplistLevel)
    (level : nat) (score : double) (ele : list Z) : heap * zskiplist :=
  (<[a := Node score None (map junk (seq 0 level)) level (Some ele) usable]> h,
   Zsl (z_header z) (z_tail z) (z_length z) (z_level z) (uwrap 64 (z_alloc_size z + usable))).

Definition zslCreate (a usable zsl_size : Z) : heap * zskiplist :=
  (zslCreateHeaderNode ∅ a usable, Zsl a None 0 1 (uwrap 64 (zsl_size + usable))).

Definition zslFreeNode (h : heap) (z : zskiplist) (a : addr) : option (heap * zskiplist) :=
  n ← h !! a;
  Some (delete a h,
        Zsl (z_header z) (z_tail z) (z_length z) (z_level z) (uwrap 64 (z_alloc_size z - n_usable n))).

Fixpoint free_loop (fuel : nat) (h : heap) (z : zskiplist) (node : option addr)
    : option (heap * zskiplist) :=
  match node with
  | None => Some (h, z)
  | Some a =>
    match fuel with
    | O => None
    | S fuel =>
      next ← get_level h a 0;
      '(h, z) ← zslFreeNode h z a;
      free_loop fuel h z (forward next)
    end
  end.

Definition zslFree (h : heap) (z : zskiplist) : option (heap * zskiplist) :=
  first ← get_level h (z_header z) 0;
  '(h, z) ← zslFreeNode h z (z_header z);
  free_loop (size h) h z (forward first).

(** [random() < threshold] with [threshold = ZSKIPLIST_P*RAND_MAX]; [rs] are
    the numbers the generator gives. *)
Definition threshold : Z := 536870911.

Fixpoint random_loop (rs : list Z) (level : nat) : option (nat * list Z) :=
  match rs with
  | [] => None
  | r :: rs => if r <? threshold then random_loop rs (S level) else Some (level, rs)
  end.

Definition zslRandomLevel (rs : list Z) : option (nat * list Z) :=
  '(level, rs) ← random_loop rs 1;
  Some (if (level <? ZSKIPLIST_MAXLEVEL)%nat then level else ZSKIPLIST_MAXLEVEL, rs).

(** ** Searching

    [while (x->level[i].forward && cond) { rank += span; x = forward; }]; the
    condition gets the rank reached by the step and the next node. *)
Fixpoint walk (fuel : nat) (cond : Z -> addr -> option bool) (h : heap) (i : nat) (x : addr) (rank : Z)
    : option (addr * Z) :=
  l ← get_level h x i;
  match forward l with
  | None => Some (x, rank)
  | Some y =>
    sp ← zslGetNodeSpanAtLevel h x i;
    let rank' := uwrap 64 (rank + sp) in
    go ← cond rank' y;
    if go : bool then
      match fuel with
      | O => None
      | S fuel => walk fuel cond h i y rank'
      end
    else Some (x, rank)
  end.

(** [for (i = n-1; i >= 0; i--)]: walk at every level, filling the arrays
    [update] and [rank]. *)
Fixpoint search (n : nat) (cond : Z -> addr -> option bool) (h : heap) (x : addr) (rank : Z)
    : option (list addr * list Z) :=
  match n with
  | O => Some ([], [])
  | S i =>
    '(x, rank) ← walk (size h) cond h i x rank;
    '(us, rs) ← search i cond h x rank;
    Some (us ++ [x], rs ++ [rank])
  end.

(** The condition of the loops that look for a pair of score and element. *)
Definition before (h : heap) (score : double) (ele : list Z) : Z -> addr -> option bool := fun _ y =>
  c ← zslCompareWithNode h score ele (Some y); Some (0 <? c).

(** ** Insertion *)

Fixpoint each {A} (f : nat -> A -> option A) (js : list nat) (a : A) : option A :=
  match js with
  | [] => Some a
  | i :: js => a ← f i a; each f js a
  end.

Definition link_level (node : addr) (update : list addr) (rank : list Z) (i : nat) (h : heap) : option heap :=
  u ← update !! i;
  r0 ← rank !! O;
  ri ← rank !! i;
  l ← get_level h u i;
  h ← upd_level h node i (set_forward (forward l));
  h ← upd_level h u i (set_forward (Some node));
  sp ← zslGetNodeSpanAtLevel h u i;
  h ← zslSetNodeSpanAtLevel h node i (sp - (r0 - ri));
  zslSetNodeSpanAtLevel h u i (r0 - ri + 1).

Definition raise_level (h : heap) (z : zskiplist) (level : nat) (update : list addr) (rank : list Z)
    : option (heap * zskiplist * list addr * list Z) :=
  if (z_level z <? level)%nat then
    let new := seq (z_level z) (level - z_level z) in
    h ← each (fun i h => zslSetNodeSpanAtLevel h (z_header z) i (z_length z)) new h;
    h ← upd h (z_header z) (set_levels level);
    Some (h, Zsl (z_header z) (z_tail z) (z_length z) level (z_alloc_size z),
          update ++ map (fun _ => z_header z) new, rank ++ map (fun _ => 0) new)
  else Some (h, z, update, rank).

Definition zslInsertNode (h : heap) (z : zskiplist) (node : addr) : option (heap * zskiplist) :=
  n ← h !! node;
  ele ← zslGetNodeElement h node;
  let level := n_levels n in
  if isnan (n_score n) then None
  else
    '(update, rank) ← search (z_level z) (before h (n_score n) ele) h (z_header z) 0;
    '(h, z, update, rank) ← raise_level h z level update rank;
    h ← each (link_level node update rank) (seq 0 level) h;
    h ← each (fun i h => u ← update !! i; zslIncrNodeSpanAtLevel h u i 1)
          (seq level (z_level z - level)) h;
    u0 ← update !! O;
    h ← upd h node (set_backward (if u0 =? z_header z then None else Some u0));
    l ← get_level h node 0;
    '(h, tail) ← (match forward l with
                  | Some y => h ← upd h y (set_backward (Some node)); Some (h, z_tail z)
                  | None => Some (h, Some node)
                  end);
    Some (h, Zsl (z_header z) tail (uwrap 64 (z_length z + 1)) (z_level z) (z_alloc_size z)).

Definition zslInsert (h : heap) (z : zskiplist) (rs : list Z) (a usable : Z) (junk : nat -> zskiplistLevel)
    (score : double) (ele : list Z) : option (heap * zskiplist * addr * list Z) :=
  if isnan score then None
  else
    '(level, rs) ← zslRandomLevel rs;
    let '(h, z) := zslCreateNode h z a usable junk level score ele in
    '(h, z) ← zslInsertNode h z a;
    Some (h, z, a, rs).

(** ** Deletion *)

Definition unlink_level (x : addr) (update : list addr) (i : nat) (h : heap) : option heap :=
  u ← update !! i;
  l ← get_level h u i;
  if bool_decide (forward l = Some x) then
    sp ← zslGetNodeSpanAtLevel h x i;
    h ← zslIncrNodeSpanAtLevel h u i (sp - 1);
    lx ← get_level h x i;
    upd_level h u i (set_forward (forward lx))
  else zslDecrNodeSpanAtLevel h u i 1.

(** [while(zsl->level > 1 && header->level[zsl->level-1].forward == NULL)] *)
Fixpoint lower_level (level : nat) (h : heap) (header : addr) : option (heap * nat) :=
  match level with
  | O | S O => Some (h, level)
  | S i =>
    l ← get_level h header i;
    match forward l with
    | Some _ => Some (h, level)
    | None => h ← upd_level h header i (set_span 0); lower_level i h header
    end
  end.

Definition zslUnlinkNode (h : heap) (z : zskiplist) (x : addr) (update : list addr)
    : option (heap * zskiplist) :=
  h ← each (unlink_level x update) (seq 0 (z_level z)) h;
  n ← h !! x;
  l ← get_level h x 0;
  '(h, tail) ← (match forward l with
                | Some y => h ← upd h y (set_backward (n_backward n)); Some (h, z_tail z)
                | None => Some (h, n_backward n)
                end);
  '(h, level) ← lower_level (z_level z) h (z_header z);
  Some (h, Zsl (z_header z) tail (uwrap 64 (z_length z - 1)) level (z_alloc_size z)).

(** The search for the predecessors of [node], with the check that it is found. *)
Definition find_update (h : heap) (z : zskiplist) (node : addr) (score : double) (ele : list Z)
    : option (list addr) :=
  '(update, _) ← search (z_level z) (before h score ele) h (z_header z) 0;
  x ← update !! O;
  l ← get_level h x 0;
  if bool_decide (forward l = Some node) then Some update else None.

Definition zslDelete (h : heap) (z : zskiplist) (node : addr) : option (heap * zskiplist) :=
  n ← h !! node;
  ele ← zslGetNodeElement h node;
  update ← find_update h z node (n_score n) ele;
  '(h, z) ← zslUnlinkNode h z node update;
  zslFreeNode h z node.

(** [p == NULL || cond p] *)
Definition null_or (h : heap) (p : option addr) (cond : double -> bool) : option bool :=
  match p with
  | None => Some true
  | Some a => n ← h !! a; Some (cond (n_score n))
  end.

Definition zslUpdateScore (h : heap) (z : zskiplist) (node : addr) (newscore : double)
    : option (heap * zskiplist) :=
  n ← h !! node;
  l ← get_level h node 0;
  b1 ← null_or h (n_backward n) (fun s => dlt s newscore);
  fast ← (if b1 : bool then null_or h (forward l) (fun s => dlt newscore s) else Some false);
  if fast : bool then h ← upd h node (set_score newscore); Some (h, z)
  else
    ele ← zslGetNodeElement h node;
    update ← find_update h z node (n_score n) ele;
    '(h, z) ← zslUnlinkNode h z node update;
    h ← upd h node (set_score newscore);
    zslInsertNode h z node.

(** ** The abstract list

    The cells of a skip list are described by the list of its entries in
    order, the header first, and by functions [G] and [B] that give the levels
    and the back pointer of the cell at an address. *)

Record ent := Ent {
  e_addr : addr;
  e_score : double;
  e_ele : option (list Z);
  e_height : nat;
  e_info : nat;
  e_usable : Z;
}.

Abbreviation levels_fn := (addr -> nat -> zskiplistLevel).
Abbreviation back_fn := (addr -> option addr).

Definition node_of (G : levels_fn) (B : back_fn) (e : ent) : zskiplistNode :=
  Node (e_score e) (B (e_addr e)) (map (G (e_addr e)) (seq 0 (e_height e)))
    (e_info e) (e_ele e) (e_usable e).

Definition cells (h : heap) (E : list ent) (G : levels_fn) (B : back_fn) : Prop :=
  Forall (fun e => h !! e_addr e = Some (node_of G B e)) E.

(** Only cells of [E] differ, and none is added or removed. *)
Definition frame (E : list ent) (h h' : heap) : Prop :=
  dom h' = dom h /\ forall a, a ∉ map e_addr E -> h' !! a = h !! a.

#[export] Instance frame_preorder E : PreOrder (frame E).
Proof.
  split; [by intros h|]. intros h1 h2 h3 [D1 F1] [D2 F2]. split; [congruence|].
  intros a Ha. rewrite F2, F1 by done. done.
Qed.

Definition setG (G : levels_fn) (a : addr) (i : nat) (v : zskiplistLevel) : levels_fn :=
  fun b j => if decide (b = a /\ j = i) then v else G b j.
Definition setB (B : back_fn) (a : addr) (v : option addr) : back_fn :=
  fun b => if decide (b = a) then v else B b.

Lemma setG_eq G a i v : setG G a i v a i = v.
Proof. unfold setG. by rewrite decide_True. Qed.
Lemma setG_ne G a i v b j : b <> a \/ j <> i -> setG G a i v b j = G b j.
Proof. intros H. unfold setG. rewrite decide_False; [done|]. intros [??]. by destruct H. Qed.

Lemma cells_lookup h E G B e : cells h E G B -> e ∈ E -> h !! e_addr e = Some (node_of G B e).
Proof. unfold cells. rewrite Forall_forall. auto. Qed.

Lemma get_level_cells h E G B e i :
  cells h E G B -> e ∈ E -> (i < e_height e)%nat -> get_level h (e_addr e) i = Some (G (e_addr e) i).
Proof.
  intros Hc He Hi. unfold get_level. rewrite (cells_lookup _ _ _ _ _ Hc He). cbn.
  rewrite list_lookup_fmap, lookup_seq_lt by done. done.
Qed.

Lemma insert_map_seq {A} (f : nat -> A) n i v :
  <[i := v]> (map f (seq 0 n)) = map (fun j => if decide (j = i) then v else f j) (seq 0 n).
Proof.
  apply list_eq. intros j. destruct (decide (j = i)) as [->|Hj].
  - destruct (decide (i < n)%nat).
    + rewrite list_lookup_insert_eq by (rewrite length_map, length_seq; lia).
      rewrite list_lookup_fmap, lookup_seq_lt by lia. cbn. by rewrite decide_True.
    + rewrite !lookup_ge_None_2; [done| |]; rewrite ?length_insert, length_map, length_seq; lia.
  - rewrite list_lookup_insert_ne by done. rewrite !list_lookup_fmap.
    destruct (seq 0 n !! j) eqn:E; cbn; [|done]. apply lookup_seq in E as [-> _].
    by rewrite decide_False by lia.
Qed.

(** Changing one cell. *)
Lemma cells_insert h E G B G' B' e n :
  cells h E G B -> NoDup (map e_addr E) -> e ∈ E -> n = node_of G' B' e ->
  (forall b i, b <> e_addr e -> G' b i = G b i) -> (forall b, b <> e_addr e -> B' b = B b) ->
  cells (<[e_addr e := n]> h) E G' B' /\ frame E h (<[e_addr e := n]> h).
Proof.
  intros Hc Hn He -> HG HB. split.
  - unfold cells in *. rewrite Forall_forall in *. intros e' He'.
    destruct (decide (e_addr e' = e_addr e)) as [Ha|Ha].
    + assert (e' = e) as ->.
      { apply list_elem_of_lookup in He as [p Hp], He' as [p' Hp'].
        assert (p' = p) as ->; [|congruence]. eapply (NoDup_lookup (map e_addr E)); [done| |].
        - by rewrite list_lookup_fmap, Hp'.
        - rewrite list_lookup_fmap, Hp. cbn. congruence. }
      by rewrite lookup_insert_eq.
    + rewrite lookup_insert_ne by done. rewrite Hc by done. f_equal. unfold node_of. f_equal.
      * by rewrite HB.
      * apply map_ext. intros i. by rewrite HG.
  - pose proof (cells_lookup _ _ _ _ _ Hc He) as Hl. split.
    + rewrite dom_insert_L. apply elem_of_dom_2 in Hl. by apply subseteq_union_1_L, singleton_subseteq_l.
    + intros a Ha. rewrite lookup_insert_ne; [done|]. intros <-. apply Ha. by apply list_elem_of_fmap_2.
Qed.

(** A step of the program on the cells, with its effect on [G] and [B]. *)
Definition leads (E : list ent) (h : heap) (r : option heap) (G : levels_fn) (B : back_fn) : Prop :=
  exists h', r = Some h' /\ cells h' E G B /\ frame E h h'.

Lemma upd_level_leads h E G B e i f :
  cells h E G B -> NoDup (map e_addr E) -> e ∈ E -> (i < e_height e)%nat ->
  leads E h (upd_level h (e_addr e) i f) (setG G (e_addr e) i (f (G (e_addr e) i))) B.
Proof.
  intros Hc Hn He Hi. unfold upd_level. rewrite (cells_lookup _ _ _ _ _ Hc He). cbn.
  rewrite list_lookup_fmap, lookup_seq_lt by done. cbn. eexists. split; [done|].
  apply (cells_insert h E G B); try done.
  - unfold node_of, set_level; cbn. f_equal. rewrite insert_map_seq. apply map_ext. intros j.
    unfold setG. destruct (decide (j = i)) as [->|Hj]; [by rewrite decide_True|].
    rewrite decide_False; [done|]. by intros [_ ?].
  - intros b j Hb. apply setG_ne. by left.
Qed.

Lemma upd_backward_leads h E G B e v :
  cells h E G B -> NoDup (map e_addr E) -> e ∈ E ->
  leads E h (upd h (e_addr e) (set_backward v)) G (setB B (e_addr e) v).
Proof.
  intros Hc Hn He. unfold upd. rewrite (cells_lookup _ _ _ _ _ Hc He). cbn. eexists. split; [done|].
  apply (cells_insert h E G B); try done.
  - unfold node_of, set_backward; cbn. f_equal. unfold setB. by rewrite decide_True.
  - intros b Hb. unfold setB. by rewrite decide_False.
Qed.

(** The next entry of height above [i], and the distance to it or to the end. *)
Fixpoint first (i : nat) (l : list ent) : option ent :=
  match l with
  | [] => None
  | e :: l => if (i <? e_height e)%nat then Some e else first i l
  end.
Fixpoint dist (i : nat) (l : list ent) : Z :=
  match l with
  | [] => 0
  | e :: l => if (i <? e_height e)%nat then 1 else 1 + dist i l
  end.

Abbreviation low i := (Forall (fun e => (e_height e <= i)%nat)).

(** Level [i] of a cell that is followed by [l], in a list with [top] levels. *)
Definition lev_ok (top : nat) (l : list ent) (i : nat) (v : zskiplistLevel) : Prop :=
  forward v = e_addr <$> first i l /\ ((0 < i < top)%nat -> span v = dist i l).

Definition linked_at (top i : nat) (N : list ent) (G : levels_fn) : Prop :=
  forall pre e suf, N = pre ++ e :: suf -> (i < e_height e)%nat -> lev_ok top suf i (G (e_addr e) i).

Lemma first_app_low i l1 l2 : low i l1 -> first i (l1 ++ l2) = first i l2.
Proof.
  induction 1 as [|e l He _ IH]; cbn [app first]; [done|]. by rewrite (proj2 (Nat.ltb_ge _ _)) by lia.
Qed.
Lemma dist_app_low i l1 l2 : low i l1 -> dist i (l1 ++ l2) = zlen l1 + dist i l2.
Proof.
  induction 1 as [|e l He _ IH]; cbn [app dist length]; [done|].
  rewrite (proj2 (Nat.ltb_ge _ _)), IH by lia. lia.
Qed.
Lemma dist_low i l : low i l -> dist i l = zlen l.
Proof. intros H. rewrite <- (app_nil_r l) at 1. rewrite dist_app_low by done. cbn. lia. Qed.
Lemma first_low i l : low i l -> first i l = None.
Proof. intros H. rewrite <- (app_nil_r l). by rewrite first_app_low. Qed.
Lemma first_head l : Forall (fun e => (1 <= e_height e)%nat) l -> first 0 l = head l.
Proof. destruct l as [|e l]; [done|]. intros [He _]%Forall_cons. cbn [first]. by rewrite (proj2 (Nat.ltb_lt _ _)) by lia. Qed.

Lemma dist_range i l : 0 <= dist i l <= zlen l.
Proof. induction l as [|e l IH]; cbn [dist length]; [done|]. destruct (_ <? _)%nat; lia. Qed.

(** Either all entries of [l] are low, or the first high one splits it. *)
Lemma low_or i l : low i l \/ exists l1 e l2, l = l1 ++ e :: l2 /\ low i l1 /\ (i < e_height e)%nat.
Proof.
  induction l as [|e l [IH|(l1 & e' & l2 & -> & Hl & He)]]; [by left| |].
  - destruct (decide (i < e_height e)%nat) as [H|H].
    + right. by exists [], e, l.
    + left. constructor; [lia|done].
  - right. destruct (decide (i < e_height e)%nat) as [H|H].
    + by exists [], e, (l1 ++ e' :: l2).
    + exists (e :: l1), e', l2. split; [done|]. split; [|done]. constructor; [lia|done].
Qed.

Lemma first_high i l1 e l2 l3 : low i l1 -> (i < e_height e)%nat -> first i ((l1 ++ e :: l2) ++ l3) = Some e.
Proof.
  intros Hl He. rewrite <- app_assoc, first_app_low by done. cbn [app first]. by rewrite (proj2 (Nat.ltb_lt _ _)).
Qed.
Lemma dist_high i l1 e l2 l3 : low i l1 -> (i < e_height e)%nat -> dist i ((l1 ++ e :: l2) ++ l3) = zlen l1 + 1.
Proof.
  intros Hl He. rewrite <- app_assoc, dist_app_low by done. cbn [app dist]. by rewrite (proj2 (Nat.ltb_lt _ _)).
Qed.

Lemma lev_ok_high top i l1 e l2 l3 l3' v : low i l1 -> (i < e_height e)%nat ->
  lev_ok top ((l1 ++ e :: l2) ++ l3) i v -> lev_ok top ((l1 ++ e :: l2) ++ l3') i v.
Proof.
  intros Hl He [Hf Hs]. split.
  - rewrite Hf. by rewrite !first_high.
  - intros Hi. rewrite Hs by done. by rewrite !dist_high.
Qed.

Lemma linked_at_ext top i N G G' :
  linked_at top i N G -> (forall e, e ∈ N -> G' (e_addr e) i = G (e_addr e) i) -> linked_at top i N G'.
Proof.
  intros H HG pre e suf HN Hi. rewrite HG; [by apply (H pre)|]. rewrite HN. apply elem_of_app. right. left.
Qed.

(** The last entry of height above [i]. *)
Definition last_at (i : nat) (N1 : list ent) (u : addr) (r : Z) : Prop :=
  exists pre e suf, N1 = pre ++ e :: suf /\ (i < e_height e)%nat /\ low i suf /\ u = e_addr e /\ r = zlen pre.

Lemma addr_split (pre pre' : list ent) e e' suf suf' :
  NoDup (map e_addr (pre ++ e :: suf)) -> pre ++ e :: suf = pre' ++ e' :: suf' -> e_addr e = e_addr e' ->
  pre = pre' /\ e = e' /\ suf = suf'.
Proof.
  intros Hn HE Ha. assert (length pre = length pre') as Hl.
  { eapply (NoDup_lookup (map e_addr (pre ++ e :: suf)) _ _ (e_addr e)); [done| |].
    - by rewrite list_lookup_fmap, list_lookup_middle by done.
    - rewrite HE, list_lookup_fmap, list_lookup_middle by done. cbn. congruence. }
  apply app_inj_1 in HE as [-> HE]; [|done]. by simplify_eq.
Qed.

Lemma linked_at_cons top i e N G :
  linked_at top i (e :: N) G <->
  ((i < e_height e)%nat -> lev_ok top N i (G (e_addr e) i)) /\ linked_at top i N G.
Proof.
  split.
  - intros H. split; [by apply (H [])|]. intros pre e' suf -> Hi. by apply (H (e :: pre)).
  - intros [He H] [|e0 pre] e' suf HN Hi; simplify_eq/=; [by apply He|]. by apply (H pre).
Qed.

Lemma linked_at_app_r top i N M G : linked_at top i (N ++ M) G -> linked_at top i M G.
Proof. induction N as [|e N IH]; [done|]. cbn. rewrite linked_at_cons. intros [_ H]. auto. Qed.

Lemma NoDup_addr_app_l (N M : list ent) : NoDup (map e_addr (N ++ M)) -> NoDup (map e_addr N).
Proof. rewrite map_app, NoDup_app. tauto. Qed.

(** Low entries do not matter at level [i]. *)
Lemma linked_at_low top i l M G : low i l -> linked_at top i M G -> linked_at top i (l ++ M) G.
Proof.
  induction 1 as [|e l He _ IH]; [done|]. intros HM. cbn [app]. apply linked_at_cons. split; [lia|auto].
Qed.

(** Above all the entries only the header has levels, and they are empty. *)
Lemma linked_at_top top i hd L G : low i L -> (top <= i)%nat ->
  linked_at top i (hd :: L) G <-> ((i < e_height hd)%nat -> forward (G (e_addr hd) i) = None).
Proof.
  intros Hl Ht. rewrite linked_at_cons. unfold lev_ok. rewrite first_low by done. split.
  - intros [H _] Hi. by apply H.
  - intros H. split; [intros Hi; split; [by apply H|lia]|]. rewrite <- (app_nil_r L).
    apply linked_at_low; [done|]. by intros [].
Qed.

(** Replacing what follows [N1] at level [i]: of the cells of [N1] only the
    last one of height above [i] changes. *)
Lemma relink top i N1 M M' G G' pre eu suf :
  N1 = pre ++ eu :: suf -> low i suf -> (i < e_height eu)%nat -> NoDup (map e_addr N1) ->
  linked_at top i (N1 ++ M) G ->
  (forall e, e ∈ N1 -> e_addr e <> e_addr eu -> G' (e_addr e) i = G (e_addr e) i) ->
  lev_ok top (suf ++ M') i (G' (e_addr eu) i) ->
  linked_at top i M' G' ->
  linked_at top i (N1 ++ M') G'.
Proof.
  intros HN1 Hlow Heu Hnd HG Hsame Hu HM'. induction N1 as [|e N IH] in pre, HN1, Hnd, HG, Hsame |- *.
  { by destruct pre. }
  cbn [app]. apply linked_at_cons. cbn [app] in HG. apply linked_at_cons in HG as [He HG].
  destruct pre as [|e0 pre]; simplify_eq/=; [by auto using linked_at_low|].
  apply NoDup_cons in Hnd as [Hnd HndN]. split.
  - intros Hi. rewrite Hsame; [|by left|].
    + destruct (low_or i (pre ++ eu :: suf)) as [Hl|(l1 & x & l2 & Hx & Hl1 & Hxi)].
      { apply Forall_app in Hl as [_ Hl]. apply Forall_cons in Hl as [Hl _]. lia. }
      rewrite Hx in *. apply (lev_ok_high _ _ _ _ _ M); auto.
    + intros Ha. apply Hnd. rewrite Ha. apply list_elem_of_fmap_2, elem_of_app. right. left.
  - apply (IH pre); [done|done|done|]. intros e' He'. apply Hsame. by right.
Qed.

Lemma first_or i l : first i l = None \/
  exists p y s, l = p ++ y :: s /\ first i l = Some y /\ dist i l = zlen p + 1.
Proof.
  destruct (low_or i l) as [H|(p & y & s & -> & Hl & Hy)]; [left; by apply first_low|].
  right. exists p, y, s. rewrite <- (app_nil_r (p ++ y :: s)). by rewrite first_high, dist_high, app_nil_r.
Qed.

(** ** What a search finds *)

Abbreviation tall := (Forall (fun e => (1 <= e_height e)%nat)).

Lemma dist_0 l : tall l -> dist 0 l = match first 0 l with Some _ => 1 | None => 0 end.
Proof. intros H. destruct l as [|e l]; [done|]. apply Forall_cons in H as [H _]. cbn [dist first].
  by rewrite (proj2 (Nat.ltb_lt _ _)) by lia. Qed.

Lemma getspan_spec h N G B top i pre e suf :
  cells h N G B -> linked_at top i N G -> N = pre ++ e :: suf -> (i < e_height e)%nat -> (i < top)%nat ->
  tall suf -> zslGetNodeSpanAtLevel h (e_addr e) i = Some (dist i suf).
Proof.
  intros Hc HG HN Hi Ht Hs. unfold zslGetNodeSpanAtLevel.
  assert (e ∈ N) as He by (rewrite HN; apply elem_of_app; right; left).
  destruct (HG pre e suf HN Hi) as [Hf Hsp].
  destruct (Nat.ltb_spec 0 i) as [H0|H0].
  - rewrite (get_level_cells _ _ _ _ _ _ Hc He Hi). cbn. by rewrite Hsp by lia.
  - assert (i = O) as -> by lia. rewrite (get_level_cells _ _ _ _ _ _ Hc He Hi). cbn.
    rewrite Hf, dist_0 by done. by destruct (first 0 suf).
Qed.

(** The condition holds for the entries of [N1] after the header, and for none
    of [L2]; its first argument is the position of the entry. *)
Definition splits (cond : Z -> addr -> option bool) (N1 L2 : list ent) : Prop :=
  (forall pre e suf, N1 = pre ++ e :: suf -> pre <> [] -> cond (zlen pre) (e_addr e) = Some true) /\
  (forall pre e suf, L2 = pre ++ e :: suf -> cond (zlen N1 + zlen pre) (e_addr e) = Some false).

Section Search.
Context (h : heap) (N1 L2 : list ent) (G : levels_fn) (B : back_fn) (top : nat).
Context (cond : Z -> addr -> option bool).
Context (Hc : cells h (N1 ++ L2) G B) (Hnd : NoDup (map e_addr (N1 ++ L2))).
Context (Hlen : zlen (N1 ++ L2) < 2 ^ 63).
Context (HG : forall i, (i < top)%nat -> linked_at top i (N1 ++ L2) G).
Context (Htall : tall (N1 ++ L2)) (Hcond : splits cond N1 L2).

(** What one step sees at an entry of [N1]. *)
Lemma walk_at i pre e suf :
  N1 = pre ++ e :: suf -> (i < e_height e)%nat -> (i < top)%nat ->
  get_level h (e_addr e) i = Some (G (e_addr e) i) /\
  forward (G (e_addr e) i) = e_addr <$> first i (suf ++ L2) /\
  zslGetNodeSpanAtLevel h (e_addr e) i = Some (dist i (suf ++ L2)).
Proof using All.
  intros HN Hi Ht.
  assert (N1 ++ L2 = pre ++ e :: (suf ++ L2)) as HN' by (rewrite HN, <- app_assoc; done).
  split; [|split].
  - apply (get_level_cells _ (N1 ++ L2) _ B); [done| |done]. rewrite HN'. apply elem_of_app. right. left.
  - by destruct (HG i Ht _ _ _ HN' Hi).
  - eapply getspan_spec; [done|by apply HG|done|done|done|].
    rewrite HN' in Htall. apply Forall_app in Htall as [_ H]. by apply Forall_cons in H as [_ ?].
Qed.

Lemma walk_stop fuel i pre e suf :
  N1 = pre ++ e :: suf -> (i < e_height e)%nat -> (i < top)%nat -> low i suf ->
  walk fuel cond h i (e_addr e) (zlen pre) = Some (e_addr e, zlen pre).
Proof using All.
  intros HN Hi Ht Hl. destruct (walk_at i pre e suf HN Hi Ht) as (H1 & H2 & H3).
  destruct fuel; cbn [walk]; rewrite H1; cbn [mbind option_bind]; rewrite H2, H3, first_app_low by done.
  all: destruct (first_or i L2) as [->|(p & y & s & HL & -> & Hd)]; [done|]; cbn [fmap option_fmap option_map mbind option_bind].
  all: rewrite dist_app_low, Hd, uwrap_id by (done || (rewrite ?HN, ?HL, !length_app in Hlen; cbn [length] in Hlen;
    unfold in_u; lia)).
  all: replace (zlen pre + (zlen suf + (zlen p + 1))) with (zlen N1 + zlen p)
    by (rewrite HN, length_app; cbn [length]; lia).
  all: destruct Hcond as [_ Hc2]; by rewrite (Hc2 _ _ _ HL).
Qed.

Lemma walk_go fuel i pre e l1 x l2 :
  N1 = pre ++ e :: l1 ++ x :: l2 -> (i < e_height e)%nat -> (i < top)%nat -> low i l1 -> (i < e_height x)%nat ->
  walk (S fuel) cond h i (e_addr e) (zlen pre) = walk fuel cond h i (e_addr x) (zlen (pre ++ e :: l1)).
Proof using All.
  intros HN Hi Ht Hl Hx. destruct (walk_at i pre e (l1 ++ x :: l2) HN Hi Ht) as (H1 & H2 & H3).
  cbn [walk]. rewrite H1. cbn [mbind option_bind]. rewrite H2, H3, first_high, dist_high by done.
  cbn [fmap option_fmap option_map mbind option_bind].
  replace (zlen pre + (zlen l1 + 1)) with (zlen (pre ++ e :: l1)) by (rewrite length_app; cbn [length]; lia).
  rewrite uwrap_id by (rewrite HN, !length_app in Hlen; cbn [length] in Hlen; rewrite !length_app in *; cbn [length] in *;
    unfold in_u; lia).
  destruct Hcond as [Hc1 _]. rewrite (Hc1 _ x l2); [done| |by destruct pre].
  rewrite HN. by rewrite <- app_assoc.
Qed.

Lemma walk_spec fuel i pre e suf :
  N1 = pre ++ e :: suf -> (i < e_height e)%nat -> (i < top)%nat -> (length suf <= fuel)%nat ->
  exists pre' e' suf', N1 = pre' ++ e' :: suf' /\ (i < e_height e')%nat /\ low i suf' /\
    walk fuel cond h i (e_addr e) (zlen pre) = Some (e_addr e', zlen pre').
Proof using All.
  revert pre e suf. induction fuel as [|fuel IH]; intros pre e suf HN Hi Ht Hf.
  all: destruct (low_or i suf) as [Hl|(l1 & x & l2 & -> & Hl1 & Hx)];
    [exists pre, e, suf; split_and!; try done; by eapply walk_stop|].
  - rewrite length_app in Hf. cbn in Hf. lia.
  - rewrite (walk_go fuel i pre e l1 x l2) by done. apply (IH _ _ l2); [|done|done|].
    + rewrite HN. by rewrite <- app_assoc.
    + rewrite length_app in Hf. cbn [length] in Hf. lia.
Qed.

Lemma cells_size : (length (N1 ++ L2) <= size h)%nat.
Proof using Hc Hnd.
  rewrite <- size_dom. rewrite <- (length_map e_addr), <- (size_list_to_set (C := gset Z)) by done.
  apply subseteq_size. intros a Ha. apply elem_of_list_to_set, list_elem_of_fmap in Ha as (e & -> & He).
  apply elem_of_dom. rewrite (cells_lookup _ _ _ _ _ Hc He). done.
Qed.

(** The arrays that a search fills. *)
Lemma descent_spec n pre e suf :
  N1 = pre ++ e :: suf -> (n <= e_height e)%nat -> (n <= top)%nat ->
  exists us rs, search n cond h (e_addr e) (zlen pre) = Some (us, rs) /\ length us = n /\ length rs = n /\
    forall i, (i < n)%nat -> exists u r, us !! i = Some u /\ rs !! i = Some r /\ last_at i N1 u r.
Proof using All.
  revert pre e suf. induction n as [|n IH]; intros pre e suf HN Hi Ht.
  { exists [], []. split_and!; try done. lia. }
  pose proof cells_size as Hsz.
  destruct (walk_spec (size h) n pre e suf) as (pre' & e' & suf' & HN' & He' & Hl' & Hw); try done; try lia.
  { rewrite HN in Hsz. rewrite !length_app in Hsz. cbn in Hsz. lia. }
  destruct (IH pre' e' suf') as (us & rs & Hs & Hu & Hr & Hall); try done; try lia.
  cbn [search]. rewrite Hw. cbn [mbind option_bind]. rewrite Hs. cbn [mbind option_bind].
  exists (us ++ [e_addr e']), (rs ++ [zlen pre']). rewrite !length_app. cbn [length].
  split_and!; [done|lia|lia|]. intros i Hin. destruct (decide (i = n)) as [->|].
  - exists (e_addr e'), (zlen pre'). split_and!; [by apply list_lookup_middle| by apply list_lookup_middle|].
    by exists pre', e', suf'.
  - destruct (Hall i) as (u & r & Hus & Hrs & Hla); [lia|]. exists u, r.
    split_and!; [by apply lookup_app_l_Some|by apply lookup_app_l_Some|done].
Qed.
End Search.

(** ** Changing a level *)

Lemma each_spec {A} (f : nat -> A -> option A) (Inv : nat -> A -> Prop) a n x :
  Inv a x ->
  (forall i x, (a <= i < a + n)%nat -> Inv i x -> exists x', f i x = Some x' /\ Inv (S i) x') ->
  exists x', each f (seq a n) x = Some x' /\ Inv (a + n)%nat x'.
Proof.
  revert a x. induction n as [|n IH]; intros a x Hx Hf; cbn [seq each].
  { exists x. by rewrite Nat.add_0_r. }
  destruct (Hf a x) as (x1 & -> & Hx1); [lia|done|]. cbn [mbind option_bind].
  destruct (IH (S a) x1) as (x2 & H2 & Hi); [done|intros; apply Hf; [lia|done]|].
  exists x2. split; [done|]. by replace (a + S n)%nat with (S a + n)%nat by lia.
Qed.

Lemma cells_ext h E G G' B :
  cells h E G B -> (forall b i, G' b i = G b i) -> cells h E G' B.
Proof.
  intros H HG. eapply Forall_impl; [exact H|]. cbn. intros e ->. f_equal. unfold node_of. f_equal.
  apply map_ext. intros. by rewrite HG.
Qed.

(** The operations on spans do nothing at level 0. *)
Definition at_span (i : nat) (f : zskiplistLevel -> zskiplistLevel) : zskiplistLevel -> zskiplistLevel :=
  if (0 <? i)%nat then f else id.

Lemma span_leads h E G B e i f :
  cells h E G B -> NoDup (map e_addr E) -> e ∈ E -> (i < e_height e)%nat ->
  leads E h (if (0 <? i)%nat then upd_level h (e_addr e) i f else Some h)
    (setG G (e_addr e) i (at_span i f (G (e_addr e) i))) B.
Proof.
  intros Hc Hn He Hi. unfold at_span. destruct (0 <? i)%nat; [by apply upd_level_leads|].
  exists h. split; [done|]. split; [|done]. eapply cells_ext; [exact Hc|]. intros b j. unfold setG.
  case_decide as H; [by destruct H as [-> ->]|done].
Qed.

Lemma link_level_spec h E G B i update rank nd eu r0 ri :
  cells h E G B -> NoDup (map e_addr E) -> nd ∈ E -> eu ∈ E -> e_addr eu <> e_addr nd ->
  (i < e_height nd)%nat -> (i < e_height eu)%nat ->
  update !! i = Some (e_addr eu) -> rank !! O = Some r0 -> rank !! i = Some ri ->
  exists G', leads E h (link_level (e_addr nd) update rank i h) G' B /\
    (forall b j, j <> i -> G' b j = G b j) /\
    (forall b, b <> e_addr nd -> b <> e_addr eu -> G' b i = G b i) /\
    forward (G' (e_addr nd) i) = forward (G (e_addr eu) i) /\
    forward (G' (e_addr eu) i) = Some (e_addr nd) /\
    ((0 < i)%nat -> span (G' (e_addr nd) i) = uwrap 64 (span (G (e_addr eu) i) - (r0 - ri)) /\
                    span (G' (e_addr eu) i) = uwrap 64 (r0 - ri + 1)).
Proof.
  intros Hc Hn Hnd Heu Hne Hi1 Hi2 Hu Hr0 Hri.
  unfold link_level. rewrite Hu, Hr0, Hri. cbn [mbind option_bind].
  rewrite (get_level_cells _ _ _ _ _ _ Hc Heu Hi2). cbn [mbind option_bind].
  destruct (upd_level_leads h E G B nd i (set_forward (forward (G (e_addr eu) i)))) as (h1 & E1 & Hc1 & F1); try done.
  rewrite E1. cbn [mbind option_bind]. set (G1 := setG G (e_addr nd) i _) in *.
  destruct (upd_level_leads h1 E G1 B eu i (set_forward (Some (e_addr nd)))) as (h2 & E2 & Hc2 & F2); try done.
  rewrite E2. cbn [mbind option_bind]. set (G2 := setG G1 (e_addr eu) i _) in *.
  assert (G1 (e_addr eu) i = G (e_addr eu) i) as HG1 by (apply setG_ne; by left).
  assert (G2 (e_addr eu) i = Level (Some (e_addr nd)) (span (G (e_addr eu) i))) as HG2 by (unfold G2; by rewrite setG_eq, HG1).
  assert (zslGetNodeSpanAtLevel h2 (e_addr eu) i = Some (if (0 <? i)%nat then span (G (e_addr eu) i) else 1)) as ->.
  { unfold zslGetNodeSpanAtLevel. destruct (Nat.ltb_spec 0 i); [|assert (i = O) as -> by lia].
    all: rewrite (get_level_cells _ _ _ _ _ _ Hc2 Heu) by done; by rewrite HG2. }
  cbn [mbind option_bind]. unfold zslSetNodeSpanAtLevel.
  destruct (span_leads h2 E G2 B nd i (set_span (uwrap 64 ((if (0 <? i)%nat then span (G (e_addr eu) i) else 1) - (r0 - ri)))))
    as (h3 & E3 & Hc3 & F3); try done.
  rewrite E3. cbn [mbind option_bind]. set (G3 := setG G2 (e_addr nd) i _) in *.
  destruct (span_leads h3 E G3 B eu i (set_span (uwrap 64 (r0 - ri + 1)))) as (h4 & E4 & Hc4 & F4); try done.
  set (G4 := setG G3 (e_addr eu) i _) in *. exists G4. split.
  { exists h4. split; [done|]. split; [done|]. by rewrite F1, F2, F3. }
  assert (G4 (e_addr eu) i = at_span i (set_span (uwrap 64 (r0 - ri + 1))) (G2 (e_addr eu) i)) as H4u.
  { unfold G4. rewrite setG_eq. unfold G3. rewrite (setG_ne G2) by (by left). done. }
  assert (G4 (e_addr nd) i = at_span i (set_span (uwrap 64 ((if (0 <? i)%nat then span (G (e_addr eu) i) else 1) - (r0 - ri)))) (G1 (e_addr nd) i)) as H4a.
  { unfold G4. rewrite setG_ne by (left; congruence). unfold G3. rewrite setG_eq. unfold G2.
    rewrite (setG_ne G1) by (left; congruence). done. }
  split_and!.
  - intros b j Hj. unfold G4, G3, G2, G1. by rewrite !setG_ne by (by right).
  - intros b Hb1 Hb2. unfold G4, G3, G2, G1. by rewrite !setG_ne by (by left).
  - rewrite H4a. unfold G1. rewrite setG_eq. unfold at_span. by destruct (0 <? i)%nat.
  - rewrite H4u, HG2. unfold at_span. by destruct (0 <? i)%nat.
  - intros H0. rewrite H4a, H4u. unfold at_span. by rewrite (proj2 (Nat.ltb_lt _ _) H0).
Qed.

(** ** Linking a node between [N1] and [L2] *)

Section Insert.
Context (N1 L2 : list ent) (nd : ent) (B : back_fn) (top : nat) (update : list addr) (rank : list Z).
Abbreviation E := (N1 ++ nd :: L2).
Context (Hnd : NoDup (map e_addr E)) (Hlen : zlen (N1 ++ L2) < 2 ^ 63) (Htall : tall N1).
Context (Htop : (e_height nd <= top)%nat).
Context (Hupd : forall i, (i < top)%nat -> exists u r, update !! i = Some u /\ rank !! i = Some r /\ last_at i N1 u r).

Lemma addr_ne e : e ∈ N1 \/ e ∈ L2 -> e_addr e <> e_addr nd.
Proof using Hnd.
  rewrite map_app in Hnd. cbn in Hnd. apply NoDup_app in Hnd as (_ & H1 & H2). apply NoDup_cons in H2 as [H2 _].
  intros [He|He] Ha.
  - apply (H1 (e_addr nd)); [|by left]. rewrite <- Ha. by apply list_elem_of_fmap_2.
  - apply H2. rewrite <- Ha. by apply list_elem_of_fmap_2.
Qed.

Lemma addr_disj e e' : e ∈ N1 -> e' ∈ L2 -> e_addr e <> e_addr e'.
Proof using Hnd.
  rewrite map_app in Hnd. cbn in Hnd. apply NoDup_app in Hnd as (_ & H1 & _). intros He He' Ha.
  apply (H1 (e_addr e)); [by apply list_elem_of_fmap_2|]. rewrite Ha. right. by apply list_elem_of_fmap_2.
Qed.

Lemma NoDup_N1 : NoDup (map e_addr N1).
Proof using Hnd. by apply (NoDup_addr_app_l _ (nd :: L2)). Qed.

(** The entry an element of [update] stands for, and its distance to the end. *)
Lemma update_at i : (i < top)%nat -> exists pre eu suf,
  N1 = pre ++ eu :: suf /\ (i < e_height eu)%nat /\ low i suf /\ eu ∈ N1 /\
  update !! i = Some (e_addr eu) /\ exists r0 ri, rank !! O = Some r0 /\ rank !! i = Some ri /\ r0 - ri = zlen suf.
Proof using Htall Htop Hupd L2 N1 SC nd rank top update.
  intros Hi. destruct (Hupd i Hi) as (u & r & Hu & Hr & pre & eu & suf & HN & Hei & Hl & -> & ->).
  destruct (Hupd O) as (u0 & r0 & _ & Hr0 & pre0 & e0 & suf0 & HN0 & _ & Hl0 & _ & ->); [lia|].
  exists pre, eu, suf. split_and!; try done.
  - rewrite HN. apply elem_of_app. right. left.
  - exists (zlen pre0), (zlen pre). split_and!; [done|done|]. assert (suf0 = []) as ->.
    { rewrite HN0 in Htall. apply Forall_app in Htall as [_ Ht]. apply Forall_cons in Ht as [_ Ht].
      destruct suf0 as [|x suf0]; [done|]. apply Forall_cons in Ht as [Ht _], Hl0 as [Hl0 _]. lia. }
    assert (length N1 = length (pre0 ++ [e0])) as H0 by (by rewrite HN0).
    rewrite HN, !length_app in H0. cbn [length] in H0. lia.
Qed.

Lemma link_at i G G' eu pre suf :
  linked_at top i (N1 ++ L2) G -> N1 = pre ++ eu :: suf -> (i < e_height eu)%nat -> low i suf ->
  (i < e_height nd)%nat ->
  (forall b, b <> e_addr nd -> b <> e_addr eu -> G' b i = G b i) ->
  forward (G' (e_addr nd) i) = forward (G (e_addr eu) i) ->
  forward (G' (e_addr eu) i) = Some (e_addr nd) ->
  ((0 < i)%nat -> span (G' (e_addr nd) i) = uwrap 64 (span (G (e_addr eu) i) - zlen suf) /\
                  span (G' (e_addr eu) i) = uwrap 64 (zlen suf + 1)) ->
  linked_at top i E G'.
Proof using Hnd Hlen Htop.
  intros HG HN1 Hi Hl Hin Hsame Hf1 Hf2 Hs.
  destruct (HG pre eu (suf ++ L2)) as [Hfu Hsu]; [by rewrite HN1, <- app_assoc|done|].
  rewrite first_app_low in Hfu by done. rewrite dist_app_low in Hsu by done.
  assert (eu ∈ N1) as Heu by (rewrite HN1; apply elem_of_app; right; left).
  pose proof (dist_range i L2) as Hd. assert (zlen suf + zlen L2 < 2 ^ 63) as Hb.
  { rewrite HN1, !length_app in Hlen. cbn [length] in Hlen. lia. }
  eapply (relink top i N1 L2 (nd :: L2) G G' pre eu suf); try done.
  - apply NoDup_N1.
  - intros e He Hne. apply Hsame; [|done]. apply addr_ne. by left.
  - split.
    + rewrite first_app_low by done. cbn [first]. by rewrite (proj2 (Nat.ltb_lt _ _) Hin).
    + intros [H0 _]. destruct (Hs H0) as [_ ->]. rewrite dist_app_low by done. cbn [dist].
      rewrite (proj2 (Nat.ltb_lt _ _) Hin). apply uwrap_id. unfold in_u. lia.
  - apply linked_at_cons. split.
    + intros _. split; [by rewrite Hf1|]. intros [H0 Ht]. destruct (Hs H0) as [-> _].
      rewrite Hsu by done. rewrite uwrap_id by (unfold in_u; lia). lia.
    + eapply linked_at_ext; [by apply (linked_at_app_r _ _ N1)|]. intros e He. apply Hsame.
      * apply addr_ne. by right.
      * intros Ha. by apply (addr_disj eu e Heu He).
Qed.

Lemma link_loop_spec h G :
  cells h E G B -> (forall i, linked_at top i (N1 ++ L2) G) ->
  exists h' G', each (link_level (e_addr nd) update rank) (seq 0 (e_height nd)) h = Some h' /\
    cells h' E G' B /\ frame E h h' /\
    (forall i, (i < e_height nd)%nat -> linked_at top i E G') /\
    (forall i, (e_height nd <= i)%nat -> linked_at top i (N1 ++ L2) G').
Proof using Hnd Hlen Htall Htop Hupd.
  intros Hc HG. destruct (each_spec (link_level (e_addr nd) update rank)
    (fun k h1 => exists G', cells h1 E G' B /\ frame E h h1 /\
      (forall i, (i < k)%nat -> linked_at top i E G') /\
      (forall i, (k <= i)%nat -> linked_at top i (N1 ++ L2) G')) 0 (e_height nd) h) as (h' & -> & G' & H).
  - exists G. split_and!; try done. lia.
  - intros i h1 [_ Hi] (G1 & Hc1 & F1 & Hlo & Hhi). cbn in Hi.
    destruct (update_at i) as (pre & eu & suf & HN1 & Hei & Hl & Heu & Hu & r0 & ri & Hr0 & Hri & Hr); [lia|].
    destruct (link_level_spec h1 E G1 B i update rank nd eu r0 ri)
      as (G2 & (h2 & E2 & Hc2 & F2) & Hj & Hsame & Hf1 & Hf2 & Hs); try done.
    { apply elem_of_app. right. left. } { apply elem_of_app. by left. } { apply addr_ne. by left. }
    exists h2. split; [done|]. exists G2. rewrite Hr in Hs. split_and!; [done|by rewrite F1| |].
    + intros j Hji. destruct (decide (j = i)) as [->|].
      * eapply (link_at i G1 G2 eu pre suf); try done. by apply Hhi.
      * eapply linked_at_ext; [apply Hlo; lia|]. intros. by apply Hj.
    + intros j Hji. eapply linked_at_ext; [apply Hhi; lia|]. intros. apply Hj. lia.
  - exists h', G'. split; [done|]. destruct H as (? & ? & ? & ?). by split_and!.
Qed.

(** A level the node does not reach: only the span over it grows. *)
Lemma grow_at i G pre eu suf v :
  linked_at top i (N1 ++ L2) G -> N1 = pre ++ eu :: suf -> (i < e_height eu)%nat -> low i suf ->
  (e_height nd <= i)%nat -> forward v = forward (G (e_addr eu) i) ->
  ((0 < i < top)%nat -> span v = span (G (e_addr eu) i) + 1) ->
  linked_at top i E (setG G (e_addr eu) i v).
Proof using Hnd Hlen Htop.
  intros HG HN1 Hi Hl Hin Hf Hs.
  destruct (HG pre eu (suf ++ L2)) as [Hfu Hsu]; [by rewrite HN1, <- app_assoc|done|].
  rewrite first_app_low in Hfu by done. rewrite dist_app_low in Hsu by done.
  assert (eu ∈ N1) as Heu by (rewrite HN1; apply elem_of_app; right; left).
  eapply (relink top i N1 L2 (nd :: L2) G _ pre eu suf); try done.
  - apply NoDup_N1.
  - intros e He Hne. apply setG_ne. by left.
  - rewrite setG_eq. split.
    + rewrite first_app_low by done. cbn [first]. rewrite (proj2 (Nat.ltb_ge _ _) Hin). congruence.
    + intros Hb. rewrite Hs, Hsu, dist_app_low by done. cbn [dist]. rewrite (proj2 (Nat.ltb_ge _ _) Hin). lia.
  - apply linked_at_cons. split; [lia|].
    eapply linked_at_ext; [by apply (linked_at_app_r _ _ N1)|]. intros e He. apply setG_ne. left.
    intros Ha. by apply (addr_disj eu e Heu He).
Qed.

Lemma grow_loop_spec h G :
  cells h E G B ->
  (forall i, (i < e_height nd)%nat -> linked_at top i E G) ->
  (forall i, (e_height nd <= i)%nat -> linked_at top i (N1 ++ L2) G) ->
  exists h' G', each (fun i h => u ← update !! i; zslIncrNodeSpanAtLevel h u i 1)
      (seq (e_height nd) (top - e_height nd)) h = Some h' /\
    cells h' E G' B /\ frame E h h' /\
    (forall i, (i < top)%nat -> linked_at top i E G') /\
    (forall i, (top <= i)%nat -> linked_at top i (N1 ++ L2) G').
Proof using Hnd Hlen Htall Htop Hupd.
  intros Hc Hlo Hhi. destruct (each_spec (fun i h => u ← update !! i; zslIncrNodeSpanAtLevel h u i 1)
    (fun k h1 => exists G', cells h1 E G' B /\ frame E h h1 /\
      (forall i, (i < k)%nat -> linked_at top i E G') /\
      (forall i, (k <= i)%nat -> linked_at top i (N1 ++ L2) G')) (e_height nd) (top - e_height nd) h)
    as (h' & -> & G' & H).
  - by exists G.
  - intros i h1 Hi (G1 & Hc1 & F1 & Hlo1 & Hhi1).
    destruct (update_at i) as (pre & eu & suf & HN1 & Hei & Hl & Heu & Hu & _); [lia|].
    rewrite Hu. cbn [mbind option_bind]. unfold zslIncrNodeSpanAtLevel.
    destruct (span_leads h1 E G1 B eu i (fun l => set_span (uwrap 64 (span l + 1)) l)) as (h2 & E2 & Hc2 & F2);
      try done; [apply elem_of_app; by left|].
    exists h2. split; [done|]. eexists. split; [exact Hc2|]. split; [by rewrite F1|]. split.
    + intros j Hji. destruct (decide (j = i)) as [->|].
      * apply (grow_at i G1 pre eu suf); try done; [by apply Hhi1|lia| |].
        -- unfold at_span. by destruct (0 <? i)%nat.
        -- intros [H0 Ht]. unfold at_span. rewrite (proj2 (Nat.ltb_lt _ _) H0). cbn. apply uwrap_id.
           destruct (Hhi1 i ltac:(lia) pre eu (suf ++ L2)) as [_ Hsp]; [by rewrite HN1, <- app_assoc|done|].
           rewrite Hsp by done. pose proof (dist_range i (suf ++ L2)) as Hd.
           rewrite HN1, !length_app in Hlen. rewrite length_app in Hd. cbn [length] in Hlen. unfold in_u. lia.
      * eapply linked_at_ext; [apply Hlo1; lia|]. intros. apply setG_ne. by right.
    + intros j Hji. eapply linked_at_ext; [apply Hhi1; lia|]. intros. apply setG_ne. right. lia.
  - exists h', G'. split; [done|]. destruct H as (? & ? & Ha & Hb).
    replace (e_height nd + (top - e_height nd))%nat with top in * by lia. by split_and!.
Qed.

End Insert.

Definition with_info (k : nat) (e : ent) : ent :=
  Ent (e_addr e) (e_score e) (e_ele e) (e_height e) k (e_usable e).

Lemma linked_at_info top i hd L G k : linked_at top i (hd :: L) G -> linked_at top i (with_info k hd :: L) G.
Proof. by rewrite !linked_at_cons. Qed.

Lemma upd_info_spec h hd M G B k :
  cells h (hd :: M) G B -> NoDup (map e_addr (hd :: M)) ->
  exists h', upd h (e_addr hd) (set_levels k) = Some h' /\ cells h' (with_info k hd :: M) G B /\ frame (hd :: M) h h'.
Proof.
  intros Hc Hn. unfold upd. pose proof Hc as Hc'. apply Forall_cons in Hc' as [Hhd HM]. rewrite Hhd. cbn.
  eexists. split; [done|]. cbn in Hn. apply NoDup_cons in Hn as [Hn _]. split.
  - apply Forall_cons. split; [by rewrite lookup_insert_eq|]. rewrite Forall_forall in HM |- *.
    intros e He. rewrite lookup_insert_ne; [by apply HM|]. intros Ha. apply Hn. rewrite Ha. by apply list_elem_of_fmap_2.
  - split.
    + rewrite dom_insert_L. apply subseteq_union_1_L, singleton_subseteq_l. by eapply elem_of_dom_2.
    + intros a Ha. rewrite lookup_insert_ne; [done|]. intros <-. apply Ha. left.
Qed.

(** Which levels have spans does not matter where it stays the same. *)
Lemma linked_at_retop top top' i N G :
  (i < top <-> i < top')%nat -> linked_at top i N G -> linked_at top' i N G.
Proof. intros Ht H pre e suf HN Hi. destruct (H pre e suf HN Hi) as [Hf Hs]. split; [done|]. intros. apply Hs. lia. Qed.

(** The entries do not exceed the level of the list. *)
Lemma raise_loop_spec h hd M L G B top level len :
  cells h (hd :: M) G B -> NoDup (map e_addr (hd :: M)) -> (forall i, linked_at top i (hd :: L) G) ->
  low top L -> (1 <= top)%nat -> (top <= level <= e_height hd)%nat -> zlen L = len -> len < 2 ^ 63 ->
  exists h' G', each (fun i h => zslSetNodeSpanAtLevel h (e_addr hd) i len) (seq top (level - top)) h = Some h' /\
    cells h' (hd :: M) G' B /\ frame (hd :: M) h h' /\ forall i, linked_at level i (hd :: L) G'.
Proof.
  intros Hc Hn HG Hlow H1 Hlev Hlen Hb. set (f := fun i h => _).
  destruct (each_spec f (fun k h1 => exists G', cells h1 (hd :: M) G' B /\ frame (hd :: M) h h1 /\
      (forall i, (i < k)%nat -> linked_at level i (hd :: L) G') /\
      (forall i, (k <= i)%nat -> linked_at top i (hd :: L) G')) top (level - top) h) as (h' & -> & G' & H).
  - exists G. split_and!; try done. intros i Hi. apply (linked_at_retop top); [lia|done].
  - intros i h1 Hi (G1 & Hc1 & F1 & Hlo & Hhi). unfold f, zslSetNodeSpanAtLevel.
    destruct (span_leads h1 (hd :: M) G1 B hd i (set_span (uwrap 64 len))) as (h2 & E2 & Hc2 & F2); try done;
      [left|lia|].
    exists h2. split; [done|]. eexists. split; [exact Hc2|]. split; [by rewrite F1|]. split.
    + intros j Hj. destruct (decide (j = i)) as [->|].
      * assert (low i L) as Hl by (eapply Forall_impl; [exact Hlow|]; cbn; lia).
        pose proof (Hhi i ltac:(lia)) as Hi0. rewrite linked_at_top in Hi0 by (done || lia).
        apply linked_at_cons. split.
        -- intros Hih. rewrite setG_eq. unfold at_span. rewrite (proj2 (Nat.ltb_lt _ _)) by lia. split; cbn.
           ++ rewrite first_low by done. by apply Hi0.
           ++ intros _. rewrite dist_low, Hlen by done. apply uwrap_id. unfold in_u. lia.
        -- rewrite <- (app_nil_r L). apply linked_at_low; [done|]. by intros [].
      * eapply linked_at_ext; [apply Hlo; lia|]. intros. apply setG_ne. by right.
    + intros j Hj. eapply linked_at_ext; [apply Hhi; lia|]. intros. apply setG_ne. right. lia.
  - exists h', G'. destruct H as (Hc' & F' & Hlo & Hhi). split_and!; [done..|]. intros i.
    replace (top + (level - top))%nat with level in * by lia.
    destruct (decide (i < level)%nat); [by apply Hlo|]. apply (linked_at_retop top); [lia|]. apply Hhi. lia.
Qed.

Lemma raise_level_spec h z hd M L G B level update rank :
  cells h (hd :: M) G B -> NoDup (map e_addr (hd :: M)) -> (forall i, linked_at (z_level z) i (hd :: L) G) ->
  low (z_level z) L -> (1 <= z_level z)%nat -> (level <= e_height hd)%nat -> e_addr hd = z_header z ->
  z_length z = zlen L -> zlen L < 2 ^ 63 -> length update = z_level z -> length rank = z_level z ->
  (z_level z <= e_height hd)%nat ->
  let top' := (z_level z `max` level)%nat in
  exists h' hd' G' update' rank', raise_level h z level update rank
      = Some (h', Zsl (z_header z) (z_tail z) (z_length z) top' (z_alloc_size z), update', rank') /\
    (exists k, hd' = with_info k hd) /\ cells h' (hd' :: M) G' B /\ frame (hd :: M) h h' /\
    (forall i, linked_at top' i (hd' :: L) G') /\
    (forall i, (i < z_level z)%nat -> update' !! i = update !! i /\ rank' !! i = rank !! i) /\
    (forall i, (z_level z <= i < top')%nat -> update' !! i = Some (e_addr hd) /\ rank' !! i = Some 0).
Proof.
  intros Hc Hn HG Hlow H1 Hlev Ha Hlen Hb Hu Hr Htop. cbn zeta. unfold raise_level.
  destruct (Nat.ltb_spec (z_level z) level) as [Hlt|Hge].
  - rewrite Nat.max_r by lia. rewrite <- Ha.
    destruct (raise_loop_spec h hd M L G B (z_level z) level (z_length z)) as (h1 & G1 & -> & Hc1 & F1 & HG1);
      try done; try lia.
    cbn [mbind option_bind].
    destruct (upd_info_spec h1 hd M G1 B level) as (h2 & -> & Hc2 & F2); try done. cbn [mbind option_bind].
    eexists h2, _, G1, _, _. split; [done|]. split_and!; [by eexists|done|by rewrite F1| | |].
    + intros i. by apply linked_at_info.
    + intros i Hi. split; apply lookup_app_l; lia.
    + intros i Hi. rewrite !lookup_app_r by lia. rewrite !list_lookup_fmap, !lookup_seq_lt by lia. done.
  - rewrite Nat.max_l by lia. exists h, hd, G, update, rank. split_and!; try done;
      [by destruct z|exists (e_info hd); by destruct hd|lia].
Qed.

(** ** The shape of a skip list *)

Fixpoint back_ok (prev : option addr) (L : list ent) (B : back_fn) : Prop :=
  match L with
  | [] => True
  | e :: L => B (e_addr e) = prev /\ back_ok (Some (e_addr e)) L B
  end.

(** The address of the last entry of [L], or [prev] if there is none. *)
Definition last_or (prev : option addr) (L : list ent) : option addr :=
  match last L with Some e => Some (e_addr e) | None => prev end.

Lemma last_or_cons prev e L : last_or prev (e :: L) = last_or (Some (e_addr e)) L.
Proof. unfold last_or. destruct L as [|x L]; [done|]. rewrite last_cons_cons. destruct (last_is_Some (x :: L)) as [_ []]; done || by rewrite H. Qed.

Lemma back_ok_app prev L1 L2 B :
  back_ok prev (L1 ++ L2) B <-> back_ok prev L1 B /\ back_ok (last_or prev L1) L2 B.
Proof.
  revert prev. induction L1 as [|e L1 IH]; intros prev; cbn [app back_ok]; [by unfold last_or; cbn; tauto|].
  rewrite IH, last_or_cons. tauto.
Qed.

Lemma back_ok_ext prev L B B' :
  back_ok prev L B -> (forall e, e ∈ L -> B' (e_addr e) = B (e_addr e)) -> back_ok prev L B'.
Proof.
  revert prev. induction L as [|e L IH]; intros prev; cbn; [done|]. intros [H1 H2] HB. split.
  - rewrite HB; [done|left].
  - apply IH; [done|]. intros. apply HB. by right.
Qed.

Definition top_of (L : list ent) : nat := foldr (fun e m => e_height e `max` m)%nat 1%nat L.

Lemma top_of_cons e L : top_of (e :: L) = (e_height e `max` top_of L)%nat.
Proof. done. Qed.
Lemma top_of_low L : low (top_of L) L.
Proof.
  induction L as [|e L IH]; constructor; rewrite top_of_cons; [lia|].
  eapply Forall_impl; [exact IH|]. cbn. lia.
Qed.
Lemma top_of_pos L : (1 <= top_of L)%nat.
Proof. induction L as [|e L IH]; [done|]. rewrite top_of_cons. lia. Qed.
Lemma top_of_app L1 L2 : top_of (L1 ++ L2) = (top_of L1 `max` top_of L2)%nat.
Proof.
  induction L1 as [|e L1 IH]; cbn [app].
  - pose proof (top_of_pos L2). change (top_of []) with 1%nat. lia.
  - rewrite !top_of_cons, IH. lia.
Qed.
Lemma top_of_le L n : (1 <= n)%nat -> low n L -> (top_of L <= n)%nat.
Proof. intros Hn. induction 1 as [|e L He _ IH]; [done|]. rewrite top_of_cons. lia. Qed.

(** An entry of the list, other than the header. *)
Definition ent_ok (e : ent) : Prop :=
  is_Some (e_ele e) /\ e_info e = e_height e /\ (1 <= e_height e <= ZSKIPLIST_MAXLEVEL)%nat.

Record shape (h : heap) (z : zskiplist) (hd : ent) (L : list ent) (G : levels_fn) (B : back_fn) : Prop := {
  s_cells : cells h (hd :: L) G B;
  s_nodup : NoDup (map e_addr (hd :: L));
  s_linked : forall i, linked_at (z_level z) i (hd :: L) G;
  s_header : e_addr hd = z_header z;
  s_noele : e_ele hd = None;
  s_maxlevel : e_height hd = ZSKIPLIST_MAXLEVEL;
  s_ents : Forall ent_ok L;
  s_back : back_ok None L B;
  s_tail : z_tail z = last_or None L;
  s_length : z_length z = zlen L;
  s_level : z_level z = top_of L;
}.

Lemma tall_ok L : Forall ent_ok L -> tall L.
Proof. intros H. eapply Forall_impl; [exact H|]. intros e (_ & _ & ?). lia. Qed.
Lemma top_ok L : Forall ent_ok L -> (top_of L <= ZSKIPLIST_MAXLEVEL)%nat.
Proof.
  intros H. apply top_of_le; [unfold ZSKIPLIST_MAXLEVEL; lia|]. eapply Forall_impl; [exact H|]. intros e (_ & _ & ?). lia.
Qed.

(** ** Insertion *)

(** The cells of the list and the cell of the node that is not linked yet. *)
Lemma merge_cells h N1 L2 nd G B G0 B0 :
  cells h (N1 ++ L2) G B -> h !! e_addr nd = Some (node_of G0 B0 nd) -> e_addr nd ∉ map e_addr (N1 ++ L2) ->
  NoDup (map e_addr (N1 ++ L2)) ->
  exists G1 B1, cells h (N1 ++ nd :: L2) G1 B1 /\ NoDup (map e_addr (N1 ++ nd :: L2)) /\
    (forall e i, e ∈ N1 ++ L2 -> G1 (e_addr e) i = G (e_addr e) i) /\
    (forall e, e ∈ N1 ++ L2 -> B1 (e_addr e) = B (e_addr e)).
Proof.
  intros Hc Hl Hna Hn. exists (fun b => if decide (b = e_addr nd) then G0 b else G b), (setB B (e_addr nd) (B0 (e_addr nd))).
  assert (forall e, e ∈ N1 ++ L2 -> e_addr e <> e_addr nd) as Hne.
  { intros e He Ha. apply Hna. rewrite <- Ha. by apply list_elem_of_fmap_2. }
  assert (cells h (N1 ++ L2) (fun b => if decide (b = e_addr nd) then G0 b else G b) (setB B (e_addr nd) (B0 (e_addr nd)))) as Hc'.
  { unfold cells in *. rewrite Forall_forall in *. intros e He. rewrite Hc by done. unfold node_of, setB.
    by rewrite !decide_False by (by apply Hne). }
  split_and!.
  - apply Forall_app in Hc' as [H1 H2]. apply Forall_app. split; [done|]. apply Forall_cons. split; [|done].
    rewrite Hl. unfold node_of, setB. by rewrite !decide_True by done.
  - rewrite map_app in *. cbn. apply NoDup_app in Hn as (H1 & H2 & H3). rewrite elem_of_app in Hna.
    apply NoDup_app. split_and!; [done| |apply NoDup_cons; tauto].
    intros x Hx. rewrite elem_of_cons. intros [->|?]; [tauto|]. by apply (H2 x).
  - intros e i He. by rewrite decide_False by (by apply Hne).
  - intros e He. unfold setB. by rewrite decide_False by (by apply Hne).
Qed.

Lemma last_at_info i hd L1 u r k : last_at i (hd :: L1) u r -> last_at i (with_info k hd :: L1) u r.
Proof.
  intros ([|e0 pre] & e & suf & HN & Hi & Hl & -> & ->); simplify_eq/=.
  - by exists [], (with_info k e), suf.
  - by exists (with_info k e0 :: pre), e, suf.
Qed.

Lemma last_at_header i hd L1 : low i L1 -> (i < e_height hd)%nat -> last_at i (hd :: L1) (e_addr hd) 0.
Proof. intros. by exists [], hd, L1. Qed.

Lemma insert_links h z hd L1 nd L2 G B update rank :
  let M := L1 ++ nd :: L2 in
  cells h (hd :: M) G B -> NoDup (map e_addr (hd :: M)) -> (forall i, linked_at (z_level z) i (hd :: L1 ++ L2) G) ->
  z_level z = top_of (L1 ++ L2) -> Forall ent_ok M -> e_height hd = ZSKIPLIST_MAXLEVEL ->
  e_addr hd = z_header z -> z_length z = zlen (L1 ++ L2) -> zlen (hd :: L1 ++ L2) < 2 ^ 63 ->
  length update = z_level z -> length rank = z_level z ->
  (forall i, (i < z_level z)%nat -> exists u r, update !! i = Some u /\ rank !! i = Some r /\ last_at i (hd :: L1) u r) ->
  exists h1 h2 h3 k G' update' rank',
    raise_level h z (e_height nd) update rank
      = Some (h1, Zsl (z_header z) (z_tail z) (z_length z) (top_of M) (z_alloc_size z), update', rank') /\
    each (link_level (e_addr nd) update' rank') (seq 0 (e_height nd)) h1 = Some h2 /\
    each (fun i h => u ← update' !! i; zslIncrNodeSpanAtLevel h u i 1)
      (seq (e_height nd) (top_of M - e_height nd)) h2 = Some h3 /\
    update' !! O = update !! O /\
    cells h3 (with_info k hd :: M) G' B /\ frame (hd :: M) h h3 /\
    forall i, linked_at (top_of M) i (with_info k hd :: M) G'.
Proof.
  cbn zeta. intros Hc Hn HG Htop Hok H32 Ha Hlen Hb Hu Hr Hupd. cbn [length] in Hb.
  assert (ent_ok nd) as Hnd by (apply Forall_app in Hok as [_ H]; by apply Forall_cons in H as [? _]).
  assert (Forall ent_ok (L1 ++ L2)) as HokL.
  { apply Forall_app in Hok as [H1 H2]. apply Forall_cons in H2 as [_ H2]. by apply Forall_app. }
  assert (top_of (L1 ++ nd :: L2) = z_level z `max` e_height nd)%nat as Htop'.
  { rewrite Htop, !top_of_app, top_of_cons. lia. }
  pose proof (top_ok _ HokL) as Ht1. pose proof (top_of_pos (L1 ++ L2)) as Hpos. destruct Hnd as (_ & _ & Hndh).
  destruct (raise_level_spec h z hd (L1 ++ nd :: L2) (L1 ++ L2) G B (e_height nd) update rank)
    as (h1 & hd' & G1 & us & rs & Er & (k & ->) & Hc1 & F1 & HG1 & Hlo & Hhi); try done; try lia.
  { rewrite Htop. apply top_of_low. }
  rewrite <- Htop' in *.
  assert (forall i, (i < top_of (L1 ++ nd :: L2))%nat -> exists u r,
    us !! i = Some u /\ rs !! i = Some r /\ last_at i (with_info k hd :: L1) u r) as Hus.
  { intros i Hi. destruct (decide (i < z_level z)%nat) as [Hiz|Hiz].
    - destruct (Hlo i Hiz) as [-> ->]. destruct (Hupd i Hiz) as (u & r & -> & -> & H). exists u, r. split_and!; try done.
      by apply last_at_info.
    - destruct (Hhi i) as [-> ->]; [lia|]. exists (e_addr hd), 0. split_and!; try done. apply last_at_info, last_at_header; [|lia].
      pose proof (top_of_low (L1 ++ L2)) as Hl. apply Forall_app in Hl as [Hl _].
      eapply Forall_impl; [exact Hl|]. cbn. lia. }
  assert (tall (with_info k hd :: L1)) as Htall.
  { constructor; [cbn; rewrite H32; unfold ZSKIPLIST_MAXLEVEL; lia|]. apply tall_ok. by apply Forall_app in Hok as [? _]. }
  pose proof (top_of_low (L1 ++ nd :: L2)) as Hlow.
  assert (e_height nd <= top_of (L1 ++ nd :: L2))%nat as Hndt by lia.
  destruct (link_loop_spec (with_info k hd :: L1) L2 nd B (top_of (L1 ++ nd :: L2)) us rs Hn Hb Htall Hndt Hus h1 G1 Hc1 HG1)
    as (h2 & G2 & E2 & Hc2 & F2 & Hlo2 & Hhi2).
  destruct (grow_loop_spec (with_info k hd :: L1) L2 nd B (top_of (L1 ++ nd :: L2)) us rs Hn Hb Htall Hndt Hus h2 G2 Hc2 Hlo2 Hhi2)
    as (h3 & G3 & E3 & Hc3 & F3 & Hlo3 & Hhi3).
  exists h1, h2, h3, k, G3, us, rs. split_and!; try done.
  - apply Hlo. lia.
  - by rewrite F1, F2.
  - intros i. destruct (decide (i < top_of (L1 ++ nd :: L2))%nat) as [Hi|Hi]; [by apply Hlo3|].
    assert (low i (L1 ++ nd :: L2)) as Hl by (eapply Forall_impl; [exact Hlow|]; cbn; lia).
    apply linked_at_top; [done|lia|]. apply (linked_at_top (top_of (L1 ++ nd :: L2)) i _ (L1 ++ L2)); [|lia|apply Hhi3; lia].
    apply Forall_app in Hl as [? H2]. apply Forall_cons in H2 as [_ ?]. by apply Forall_app.
Qed.

(** The back pointers after an insertion. *)
Lemma insert_back L1 nd L2 B1 B : NoDup (map e_addr (L1 ++ nd :: L2)) ->
  back_ok None (L1 ++ L2) B -> (forall e, e ∈ L1 ++ L2 -> B1 (e_addr e) = B (e_addr e)) ->
  back_ok None (L1 ++ nd :: L2)
    (match L2 with
     | [] => setB B1 (e_addr nd) (last_or None L1)
     | y :: _ => setB (setB B1 (e_addr nd) (last_or None L1)) (e_addr y) (Some (e_addr nd))
     end).
Proof.
  intros Hn HB Hsame. pose proof (addr_ne L1 L2 nd Hn) as Hne. pose proof (addr_disj L1 L2 nd Hn) as Hdj.
  apply back_ok_app in HB as [HB1 HB2]. apply back_ok_app. split.
  - eapply back_ok_ext; [exact HB1|]. intros e He. rewrite <- Hsame by (apply elem_of_app; by left).
    destruct L2 as [|y L2]; unfold setB; rewrite !decide_False; try done; auto.
    apply Hdj; [done|left].
  - cbn [back_ok]. destruct L2 as [|y L2].
    + split; [|done]. unfold setB. by rewrite decide_True.
    + cbn [back_ok] in *. assert (e_addr y <> e_addr nd) as Hy by (apply Hne; right; left).
      unfold setB. rewrite decide_False by congruence. rewrite !decide_True by done. split; [done|]. split; [done|].
      eapply back_ok_ext; [exact (proj2 HB2)|]. intros e He.
      rewrite map_app in Hn. apply NoDup_app in Hn as (_ & _ & Hn). cbn in Hn.
      apply NoDup_cons in Hn as [_ Hn]. apply NoDup_cons in Hn as [Hn _].
      rewrite !decide_False.
      * apply Hsame, elem_of_app. right. by right.
      * apply Hne. right. by right.
      * intros Ha. apply Hn. rewrite <- Ha. by apply list_elem_of_fmap_2.
Qed.

Lemma last_at_0 hd L1 u r : tall L1 -> last_at 0 (hd :: L1) u r -> Some u = last_or (Some (e_addr hd)) L1.
Proof.
  intros Ht (pre & e & suf & HN & _ & Hl & -> & _).
  assert (suf = []) as ->.
  { destruct suf as [|x suf]; [done|]. assert (x ∈ L1) as Hx.
    { destruct pre as [|p pre]; simplify_eq/=; [left|]. apply elem_of_app. right. right. left. }
    rewrite Forall_forall in Ht. specialize (Ht x Hx). cbn in Ht. apply Forall_cons in Hl as [Hl _]. lia. }
  rewrite <- (last_or_cons None). rewrite HN. unfold last_or. by rewrite last_snoc.
Qed.

(** The last part of an insertion: the back pointers and the tail. *)
Lemma insert_backlink h hd L1 nd L2 G B1 B top tail :
  cells h (hd :: L1 ++ nd :: L2) G B1 -> NoDup (map e_addr (hd :: L1 ++ nd :: L2)) ->
  linked_at top 0 (hd :: L1 ++ nd :: L2) G -> Forall ent_ok (L1 ++ nd :: L2) ->
  back_ok None (L1 ++ L2) B -> (forall e, e ∈ L1 ++ L2 -> B1 (e_addr e) = B (e_addr e)) ->
  tail = last_or None (L1 ++ L2) ->
  exists h1 l h2 B2, upd h (e_addr nd) (set_backward (last_or None L1)) = Some h1 /\
    get_level h1 (e_addr nd) 0 = Some l /\
    match forward l with
    | Some y => h ← upd h1 y (set_backward (Some (e_addr nd))); Some (h, tail)
    | None => Some (h1, Some (e_addr nd))
    end = Some (h2, last_or None (L1 ++ nd :: L2)) /\
    cells h2 (hd :: L1 ++ nd :: L2) G B2 /\ frame (hd :: L1 ++ nd :: L2) h h2 /\
    back_ok None (L1 ++ nd :: L2) B2.
Proof.
  intros Hc Hn HG Hok HB HB1 Ht. set (E := hd :: L1 ++ nd :: L2) in *.
  assert (nd ∈ E) as Hin by (right; apply elem_of_app; right; left).
  assert (1 <= e_height nd)%nat as Hnd.
  { apply Forall_app in Hok as [_ H]. apply Forall_cons in H as [(_ & _ & ?) _]. lia. }
  destruct (upd_backward_leads h E G B1 nd (last_or None L1)) as (h1 & E1 & Hc1 & F1); try done.
  pose proof (insert_back L1 nd L2 B1 B) as Hback. unfold E in Hn. cbn in Hn.
  specialize (Hback (proj2 (proj1 (NoDup_cons _ _) Hn)) HB HB1).
  destruct (HG (hd :: L1) nd L2 eq_refl) as [Hf _]; [lia|].
  exists h1, (G (e_addr nd) O). rewrite Hf, (get_level_cells _ _ _ _ _ _ Hc1 Hin) by lia. destruct L2 as [|y L2].
  - exists h1, (setB B1 (e_addr nd) (last_or None L1)). split_and!; try done. cbn. unfold last_or. by rewrite last_snoc.
  - assert (y ∈ E) as Hy by (right; apply elem_of_app; right; right; left).
    assert (first 0 (y :: L2) = Some y) as ->.
    { cbn [first]. rewrite (proj2 (Nat.ltb_lt _ _)); [done|]. apply Forall_app in Hok as [_ H].
      apply Forall_cons in H as [_ H]. apply Forall_cons in H as [(_ & _ & ?) _]. lia. }
    cbn [fmap option_fmap option_map].
    destruct (upd_backward_leads h1 E G (setB B1 (e_addr nd) (last_or None L1)) y (Some (e_addr nd))) as (h2 & E2 & Hc2 & F2);
      try done.
    exists h2, (setB (setB B1 (e_addr nd) (last_or None L1)) (e_addr y) (Some (e_addr nd))).
    split_and!; try done; [|by rewrite F1]. rewrite E2. cbn [mbind option_bind]. rewrite Ht. do 2 f_equal.
    unfold last_or. replace (L1 ++ nd :: y :: L2) with ((L1 ++ [nd]) ++ y :: L2) by (by rewrite <- app_assoc).
    rewrite !last_app_cons. done.
Qed.

(** Linking a node, which is in the heap but not in the list, at its place. *)
Lemma zslInsertNode_spec h z hd L1 L2 nd G B G0 B0 ele :
  shape h z hd (L1 ++ L2) G B -> h !! e_addr nd = Some (node_of G0 B0 nd) ->
  e_addr nd ∉ map e_addr (hd :: L1 ++ L2) -> ent_ok nd -> e_ele nd = Some ele -> isnan (e_score nd) = false ->
  splits (before h (e_score nd) ele) (hd :: L1) L2 -> zlen (L1 ++ L2) + 1 < 2 ^ 63 ->
  exists h' z' k G' B', zslInsertNode h z (e_addr nd) = Some (h', z') /\
    shape h' z' (with_info k hd) (L1 ++ nd :: L2) G' B' /\ frame (hd :: L1 ++ nd :: L2) h h' /\
    z_alloc_size z' = z_alloc_size z.
Proof.
  intros [Hc Hn HG Hhd Hne H32 Hok HB Htail Hlen Hlev] Hnd Hna Hndok Hele Hnan Hsp Hb.
  destruct (merge_cells h (hd :: L1) L2 nd G B G0 B0) as (G1 & B1 & Hc1 & Hn1 & HG1 & HB1); try done.
  assert (Forall ent_ok (L1 ++ nd :: L2)) as Hok'.
  { apply Forall_app in Hok as [? ?]. apply Forall_app. split; [done|]. by apply Forall_cons. }
  pose proof (top_of_pos (L1 ++ L2)) as Hpos. pose proof (top_ok _ Hok) as Ht.
  assert (tall (L1 ++ L2)) as Htall by (by apply tall_ok).
  destruct (descent_spec h (hd :: L1) L2 G B (z_level z) (before h (e_score nd) ele)) with (n := z_level z)
    (pre := @nil ent) (e := hd) (suf := L1) as (us & rs & Es & Hu & Hr & Hall); try done; try lia.
  { cbn [app length]. lia. } { constructor; [rewrite H32; unfold ZSKIPLIST_MAXLEVEL; lia|done]. }
  destruct (insert_links h z hd L1 nd L2 G1 B1 us rs) as (h1 & h2 & h3 & k & G3 & us' & rs' & E1 & E2 & E3 & Hu0 & Hc3 & F3 & HG3);
    try done.
  { intros i. eapply linked_at_ext; [apply HG|]. intros e He. by apply HG1. } { cbn [length]. lia. }
  destruct (Hall O) as (u0 & r0 & Hus0 & _ & Hl0); [lia|].
  apply last_at_0 in Hl0; [|by apply Forall_app in Htall as [? _]].
  unfold zslInsertNode, zslGetNodeElement. rewrite Hnd. cbn [mbind option_bind node_of n_ele n_levels n_score].
  destruct Hndok as (_ & Hinfo & Hht). rewrite Hele, Hinfo. cbn [mbind option_bind]. rewrite Hnan. rewrite Hhd in Es.
  change (zlen []) with 0 in Es. rewrite Es. cbn [mbind option_bind]. rewrite E1. cbn [mbind option_bind z_level z_header z_tail z_length z_alloc_size].
  rewrite E2. cbn [mbind option_bind]. rewrite E3. cbn [mbind option_bind]. rewrite Hu0, Hus0. cbn [mbind option_bind].
  assert ((if u0 =? z_header z then None else Some u0) = last_or None L1) as ->.
  { rewrite <- Hhd. destruct L1 as [|e L1] using rev_ind; [cbn in Hl0; simplify_eq; by rewrite Z.eqb_refl|].
    unfold last_or in *. rewrite last_snoc in *. simplify_eq. rewrite (proj2 (Z.eqb_neq _ _)); [done|].
    intros Ha. cbn in Hn. apply NoDup_cons in Hn as [Hn _]. apply Hn. rewrite <- Ha.
    apply list_elem_of_fmap_2, elem_of_app. left. apply elem_of_app. right. left. }
  destruct (insert_backlink h3 (with_info k hd) L1 nd L2 G3 B1 B (top_of (L1 ++ nd :: L2)) (z_tail z))
    as (h4 & l & h5 & B5 & -> & E4 & E5 & Hc5 & F5 & HB5); try done.
  { intros e He. apply HB1. by right. }
  cbn [mbind option_bind]. rewrite E4. cbn [mbind option_bind]. rewrite E5. cbn [mbind option_bind].
  eexists h5, _, k, G3, B5. split; [done|]. split; [|split; [by rewrite F3|done]].
  constructor; cbn [z_level z_header z_tail z_length z_alloc_size]; try done.
  rewrite Hlen, uwrap_id by (unfold in_u; lia). rewrite !length_app. cbn [length]. lia.
Qed.

(** ** Unlinking *)

Section Unlink.
Context (N1 L2 : list ent) (nd : ent) (B : back_fn) (top : nat) (update : list addr).
Abbreviation E := (N1 ++ nd :: L2).
Context (Hnd : NoDup (map e_addr E)) (Hlen : zlen E < 2 ^ 63) (Hndtop : (e_height nd <= top)%nat) (Htall : tall L2).
Context (Hupd : forall i, (i < top)%nat -> exists u r, update !! i = Some u /\ last_at i N1 u r).

Lemma unlink_at i G eu pre suf v :
  linked_at top i E G -> N1 = pre ++ eu :: suf -> (i < e_height eu)%nat -> low i suf ->
  lev_ok top (suf ++ L2) i v -> linked_at top i (N1 ++ L2) (setG G (e_addr eu) i v).
Proof using Hnd.
  intros HG HN1 Hi Hl Hv. assert (eu ∈ N1) as Heu by (rewrite HN1; apply elem_of_app; right; left).
  eapply (relink top i N1 (nd :: L2) L2 G _ pre eu suf); try done.
  - by eapply NoDup_N1.
  - intros e He Hne. apply setG_ne. by left.
  - by rewrite setG_eq.
  - eapply linked_at_ext; [apply (linked_at_app_r _ _ (N1 ++ [nd])); by rewrite <- app_assoc|].
    intros e He. apply setG_ne. left. intros Ha. by apply (addr_disj N1 L2 nd Hnd eu e).
Qed.

Lemma unlink_level_spec h G i :
  cells h E G B -> linked_at top i E G -> (i < top)%nat ->
  exists h' G', unlink_level (e_addr nd) update i h = Some h' /\ cells h' E G' B /\ frame E h h' /\
    linked_at top i (N1 ++ L2) G' /\ (forall b j, j <> i -> G' b j = G b j) /\ (forall j, G' (e_addr nd) j = G (e_addr nd) j).
Proof using Hnd Hlen Hndtop Htall Hupd.
  intros Hc HG Hi. destruct (Hupd i Hi) as (u & r & Hu & pre & eu & suf & HN1 & Hei & Hl & -> & _).
  assert (eu ∈ N1) as Heu by (rewrite HN1; apply elem_of_app; right; left).
  assert (eu ∈ E) as HeuE by (apply elem_of_app; by left).
  assert (nd ∈ E) as HndE by (apply elem_of_app; right; left).
  pose proof (addr_ne N1 L2 nd Hnd eu (or_introl Heu)) as Hne.
  destruct (HG pre eu (suf ++ nd :: L2)) as [Hfu Hsu]; [by rewrite HN1, <- app_assoc|done|].
  rewrite first_app_low in Hfu by done. rewrite dist_app_low in Hsu by done. pose proof (dist_range i L2) as Hd.
  assert (zlen suf + zlen L2 + 1 < 2 ^ 63) as Hb by (rewrite HN1, !length_app in Hlen; cbn [length] in Hlen; lia).
  unfold unlink_level. rewrite Hu. cbn [mbind option_bind].
  rewrite (get_level_cells _ _ _ _ _ _ Hc HeuE Hei). cbn [mbind option_bind first dist] in *.
  destruct (Nat.ltb_spec i (e_height nd)) as [Hin|Hin].
  - rewrite bool_decide_true by done. destruct (HG N1 nd L2 eq_refl Hin) as [Hfn Hsn].
    rewrite (getspan_spec h E G B top i N1 nd L2) by done. cbn [mbind option_bind]. unfold zslIncrNodeSpanAtLevel.
    destruct (span_leads h E G B eu i (fun l => set_span (uwrap 64 (span l + (dist i L2 - 1))) l)) as (h1 & -> & Hc1 & F1); try done.
    cbn [mbind option_bind]. rewrite (get_level_cells _ _ _ _ _ _ Hc1 HndE Hin). cbn [mbind option_bind].
    rewrite setG_ne by (left; congruence).
    destruct (upd_level_leads h1 E _ B eu i (set_forward (forward (G (e_addr nd) i))) Hc1) as (h2 & -> & Hc2 & F2); try done.
    rewrite setG_eq in Hc2. set (v := set_forward _ _) in Hc2. exists h2, (setG G (e_addr eu) i v). split_and!; try done.
    + eapply cells_ext; [exact Hc2|]. intros b j. unfold setG. by case_decide.
    + by rewrite F1.
    + apply (unlink_at i G eu pre suf); try done. unfold v, at_span. split; [cbn; by rewrite first_app_low|].
      intros [H0 Ht]. rewrite (proj2 (Nat.ltb_lt _ _) H0). cbn. rewrite Hsu, dist_app_low by done.
      rewrite uwrap_id by (unfold in_u; lia). lia.
    + intros b j Hj. apply setG_ne. by right.
    + intros j. apply setG_ne. left. congruence.
  - rewrite bool_decide_false.
    2: { rewrite Hfu. destruct (first_or i L2) as [->|(p & y & q & HL & -> & _)]; cbn; [done|]. intros [= Ha].
         apply (addr_ne N1 L2 nd Hnd y); [|done]. right. rewrite HL. apply elem_of_app. right. left. }
    unfold zslDecrNodeSpanAtLevel.
    destruct (span_leads h E G B eu i (fun l => set_span (uwrap 64 (span l - 1)) l)) as (h1 & -> & Hc1 & F1); try done.
    eexists h1, _. split; [done|]. split; [exact Hc1|]. split; [done|]. split_and!.
    + apply (unlink_at i G eu pre suf); try done. unfold at_span. split.
      * rewrite first_app_low by done. by destruct (0 <? i)%nat.
      * intros [H0 Ht]. rewrite (proj2 (Nat.ltb_lt _ _) H0). cbn. rewrite Hsu, dist_app_low by done.
        rewrite uwrap_id by (unfold in_u; lia). lia.
    + intros b j Hj. apply setG_ne. by right.
    + intros j. apply setG_ne. left. congruence.
Qed.

Lemma unlink_loop_spec h G :
  cells h E G B -> (forall i, linked_at top i E G) ->
  exists h' G', each (unlink_level (e_addr nd) update) (seq 0 top) h = Some h' /\ cells h' E G' B /\ frame E h h' /\
    (forall i, (i < top)%nat -> linked_at top i (N1 ++ L2) G') /\
    (forall i, (top <= i)%nat -> linked_at top i E G') /\ (forall j, G' (e_addr nd) j = G (e_addr nd) j).
Proof using Hnd Hlen Hndtop Htall Hupd.
  intros Hc HG. destruct (each_spec (unlink_level (e_addr nd) update)
    (fun k h1 => exists G', cells h1 E G' B /\ frame E h h1 /\ (forall i, (i < k)%nat -> linked_at top i (N1 ++ L2) G') /\
      (forall i, (k <= i)%nat -> linked_at top i E G') /\ (forall j, G' (e_addr nd) j = G (e_addr nd) j)) 0 top h)
    as (h' & -> & G' & H).
  - exists G. split_and!; try done. lia.
  - intros i h1 [_ Hi] (G1 & Hc1 & F1 & Hlo & Hhi & Hj1). cbn in Hi.
    destruct (unlink_level_spec h1 G1 i) as (h2 & G2 & -> & Hc2 & F2 & HL2 & Hj & Hj2); try done; [by apply Hhi|].
    exists h2. split; [done|]. exists G2. split_and!; [done|by rewrite F1| | |].
    + intros j Hji. destruct (decide (j = i)) as [->|]; [done|].
      eapply linked_at_ext; [apply Hlo; lia|]. intros. by apply Hj.
    + intros j Hji. eapply linked_at_ext; [apply Hhi; lia|]. intros. apply Hj. lia.
    + intros j. by rewrite Hj2.
  - exists h', G'. split; [done|]. destruct H as (? & ? & ? & ? & ?). by split_and!.
Qed.
End Unlink.

Lemma lower_level_spec level h hd M L G B :
  cells h (hd :: M) G B -> NoDup (map e_addr (hd :: M)) -> (forall i, linked_at level i (hd :: L) G) ->
  low level L -> (1 <= level <= e_height hd)%nat ->
  exists h' G', lower_level level h (e_addr hd) = Some (h', top_of L) /\ cells h' (hd :: M) G' B /\
    frame (hd :: M) h h' /\ (forall i, linked_at (top_of L) i (hd :: L) G').
Proof.
  revert h G. induction level as [|i IH]; intros h G Hc Hn HG Hlow Hlev; [lia|]. pose proof (top_of_pos L) as Hpos.
  destruct i as [|i].
  { pose proof (top_of_le L 1 ltac:(lia) Hlow). assert (top_of L = 1%nat) as -> by lia. by exists h, G. }
  cbn [lower_level]. rewrite (get_level_cells _ _ _ _ _ _ Hc) by (left || lia). cbn [mbind option_bind].
  pose proof (HG (S i)) as HS. apply linked_at_cons in HS as [HS _]. destruct HS as [Hf _]; [lia|]. rewrite Hf.
  destruct (low_or (S i) L) as [Hl|(l1 & x & l2 & HL & Hl1 & Hx)].
  - rewrite first_low by done. cbn [fmap option_fmap option_map].
    destruct (upd_level_leads h (hd :: M) G B hd (S i) (set_span 0)) as (h1 & -> & Hc1 & F1); try done; [left|lia|].
    cbn [mbind option_bind].
    destruct (IH h1 _ Hc1 Hn) as (h2 & G2 & E2 & Hc2 & F2 & HG2); [|done|lia|exists h2, G2; split_and!; [done|done|by rewrite F1|done]].
    intros j. destruct (decide (j < S i)%nat) as [Hj|Hj].
    + apply (linked_at_retop (S (S i))); [lia|]. eapply linked_at_ext; [apply HG|]. intros. apply setG_ne. right. lia.
    + assert (low j L) as Hlj by (eapply Forall_impl; [exact Hl|]; cbn; lia).
      apply linked_at_top; [done|lia|]. intros Hjh. pose proof (HG j) as Hgj. apply linked_at_cons in Hgj as [Hgj _].
      destruct (Hgj Hjh) as [Hfj _]. rewrite first_low in Hfj by done. unfold setG. case_decide as Hd; [|done].
      destruct Hd as [_ ->]. cbn. by rewrite Hf, first_low.
  - replace (first (S i) L) with (Some x) by (rewrite HL, <- (app_nil_r (l1 ++ _)); by rewrite first_high).
    cbn [fmap option_fmap option_map]. assert (top_of L = S (S i)) as ->; [|by exists h, G].
    pose proof (top_of_le L (S (S i)) ltac:(lia) Hlow). rewrite HL, top_of_app, top_of_cons in *. lia.
Qed.

(** The back pointers after a node is unlinked. *)
Lemma unlink_back L1 nd L2 B : NoDup (map e_addr (L1 ++ nd :: L2)) -> back_ok None (L1 ++ nd :: L2) B ->
  B (e_addr nd) = last_or None L1 /\
  back_ok None (L1 ++ L2) (match L2 with [] => B | y :: _ => setB B (e_addr y) (last_or None L1) end).
Proof.
  intros Hn HB. pose proof (addr_disj L1 L2 nd Hn) as Hdj. apply back_ok_app in HB as [HB1 [HBn HB2]]. split; [done|].
  destruct L2 as [|y L2]; [by rewrite app_nil_r|]. apply back_ok_app. split.
  - eapply back_ok_ext; [exact HB1|]. intros e He. unfold setB. rewrite decide_False; [done|]. apply Hdj; [done|left].
  - cbn [back_ok] in *. split; [unfold setB; by rewrite decide_True|].
    eapply back_ok_ext; [exact (proj2 HB2)|]. intros e He. unfold setB. rewrite decide_False; [done|].
    rewrite map_app in Hn. apply NoDup_app in Hn as (_ & _ & Hn). cbn in Hn. apply NoDup_cons in Hn as [_ Hn].
    apply NoDup_cons in Hn as [Hn _]. intros Ha. apply Hn. rewrite <- Ha. by apply list_elem_of_fmap_2.
Qed.

Lemma unlink_finish h hd L1 nd L2 G B top tail :
  cells h (hd :: L1 ++ nd :: L2) G B -> NoDup (map e_addr (hd :: L1 ++ nd :: L2)) ->
  lev_ok top L2 0 (G (e_addr nd) O) -> Forall ent_ok (L1 ++ nd :: L2) -> back_ok None (L1 ++ nd :: L2) B ->
  tail = last_or None (L1 ++ nd :: L2) ->
  exists n l h2 B2, h !! e_addr nd = Some n /\ get_level h (e_addr nd) 0 = Some l /\
    match forward l with
    | Some y => h ← upd h y (set_backward (n_backward n)); Some (h, tail)
    | None => Some (h, n_backward n)
    end = Some (h2, last_or None (L1 ++ L2)) /\
    cells h2 (hd :: L1 ++ nd :: L2) G B2 /\ frame (hd :: L1 ++ nd :: L2) h h2 /\ back_ok None (L1 ++ L2) B2.
Proof.
  intros Hc Hn [Hf _] Hok HB Ht. set (E := hd :: L1 ++ nd :: L2) in *.
  assert (nd ∈ E) as Hin by (right; apply elem_of_app; right; left).
  assert (1 <= e_height nd)%nat as Hnd.
  { apply Forall_app in Hok as [_ H]. apply Forall_cons in H as [(_ & _ & ?) _]. lia. }
  unfold E in Hn. cbn in Hn. destruct (unlink_back L1 nd L2 B (proj2 (proj1 (NoDup_cons _ _) Hn)) HB) as [HBn HB2].
  exists (node_of G B nd), (G (e_addr nd) O). rewrite (cells_lookup _ _ _ _ _ Hc Hin), (get_level_cells _ _ _ _ _ _ Hc Hin) by lia.
  rewrite Hf. cbn [node_of n_backward]. rewrite HBn. destruct L2 as [|y L2].
  - exists h, B. split_and!; try done. by rewrite app_nil_r.
  - assert (first 0 (y :: L2) = Some y) as ->.
    { cbn [first]. rewrite (proj2 (Nat.ltb_lt _ _)); [done|]. apply Forall_app in Hok as [_ H].
      apply Forall_cons in H as [_ H]. apply Forall_cons in H as [(_ & _ & ?) _]. lia. }
    cbn [fmap option_fmap option_map].
    destruct (upd_backward_leads h E G B y (last_or None L1)) as (h2 & -> & Hc2 & F2); try done;
      [right; apply elem_of_app; right; right; left|].
    exists h2, (setB B (e_addr y) (last_or None L1)). split_and!; try done. cbn [mbind option_bind].
    rewrite Ht. do 2 f_equal. unfold last_or.
    replace (L1 ++ nd :: y :: L2) with ((L1 ++ [nd]) ++ y :: L2) by (by rewrite <- app_assoc).
    by rewrite !last_app_cons.
Qed.

Lemma cells_drop h N1 nd L2 G B : cells h (N1 ++ nd :: L2) G B -> cells h (N1 ++ L2) G B.
Proof. intros [H1 H2]%Forall_app. apply Forall_cons in H2 as [_ H2]. by apply Forall_app. Qed.

Lemma NoDup_drop (N1 : list ent) nd L2 : NoDup (map e_addr (N1 ++ nd :: L2)) ->
  NoDup (map e_addr (N1 ++ L2)) /\ e_addr nd ∉ map e_addr (N1 ++ L2).
Proof.
  rewrite !map_app. cbn. rewrite !NoDup_app, NoDup_cons, not_elem_of_app. intros (H1 & H2 & H3 & H4). split_and!; try done.
  - intros x Hx Hx2. apply (H2 x Hx). by right.
  - intros Hx. apply (H2 _ Hx). left.
Qed.

Lemma zslUnlinkNode_spec h z hd L1 nd L2 G B update :
  shape h z hd (L1 ++ nd :: L2) G B -> zlen (L1 ++ nd :: L2) + 1 < 2 ^ 63 ->
  (forall i, (i < z_level z)%nat -> exists u r, update !! i = Some u /\ last_at i (hd :: L1) u r) ->
  exists h' z' G' B', zslUnlinkNode h z (e_addr nd) update = Some (h', z') /\
    shape h' z' hd (L1 ++ L2) G' B' /\ frame (hd :: L1 ++ nd :: L2) h h' /\
    h' !! e_addr nd = Some (node_of G' B' nd) /\ z_alloc_size z' = z_alloc_size z.
Proof.
  intros [Hc Hn HG Hhd Hne H32 Hok HB Htail Hlen Hlev] Hb Hupd.
  assert (e_height nd <= z_level z)%nat as Hndtop by (rewrite Hlev, top_of_app, top_of_cons; lia).
  assert (Forall ent_ok (L1 ++ L2)) as HokL.
  { apply Forall_app in Hok as [H1 H2]. apply Forall_cons in H2 as [_ H2]. by apply Forall_app. }
  destruct (unlink_loop_spec (hd :: L1) L2 nd B (z_level z) update Hn) with (h := h) (G := G)
    as (h1 & G1 & E1 & Hc1 & F1 & Hlo & Hhi & Hnd); try done.
  { cbn [app length]. lia. } { apply tall_ok. by apply Forall_app in HokL as [_ ?]. }
  assert (forall i, linked_at (z_level z) i (hd :: L1 ++ L2) G1) as HG1.
  { intros i. destruct (decide (i < z_level z)%nat) as [Hi|Hi]; [by apply Hlo|].
    pose proof (top_of_low (L1 ++ nd :: L2)) as Hl. rewrite <- Hlev in Hl.
    assert (low i (L1 ++ nd :: L2)) as Hli by (eapply Forall_impl; [exact Hl|]; cbn; lia).
    apply linked_at_top; [|lia|eapply linked_at_top; [exact Hli| |apply Hhi]; lia].
    apply Forall_app in Hli as [? H2]. apply Forall_cons in H2 as [_ ?]. by apply Forall_app. }
  destruct (unlink_finish h1 hd L1 nd L2 G1 B (z_level z) (z_tail z)) as (n & l & h2 & B2 & En & El & E2 & Hc2 & F2 & HB2); try done.
  { rewrite Hnd. apply (HG O (hd :: L1)); [done|]. apply Forall_app in Hok as [_ H].
    apply Forall_cons in H as [(_ & _ & ?) _]. lia. }
  destruct (lower_level_spec (z_level z) h2 hd (L1 ++ nd :: L2) (L1 ++ L2) G1 B2) as (h3 & G3 & E3 & Hc3 & F3 & HG3); try done.
  { rewrite Hlev. pose proof (top_of_low (L1 ++ nd :: L2)) as Hl. apply Forall_app in Hl as [? H2].
    apply Forall_cons in H2 as [_ ?]. by apply Forall_app. }
  { rewrite Hlev, H32. pose proof (top_ok _ Hok). pose proof (top_of_pos (L1 ++ nd :: L2)). lia. }
  unfold zslUnlinkNode. rewrite E1. cbn [mbind option_bind]. rewrite En. cbn [mbind option_bind]. rewrite El.
  cbn [mbind option_bind]. rewrite E2. cbn [mbind option_bind]. rewrite <- Hhd, E3. cbn [mbind option_bind].
  destruct (NoDup_drop (hd :: L1) nd L2 Hn) as [HnL _].
  eexists h3, _, G3, B2. split; [done|]. split; [|split_and!; [by rewrite F1, F2| |done]].
  - constructor; cbn [z_level z_header z_tail z_length z_alloc_size]; try done; [by apply (cells_drop _ (hd :: L1) nd)|].
    rewrite Hlen. rewrite !length_app in *. cbn [length] in *. rewrite uwrap_id by (unfold in_u; lia). lia.
  - apply (cells_lookup _ _ _ _ _ Hc3). right. apply elem_of_app. right. left.
Qed.
End Model.
End Skiplist.
