(* ===== verification/SortedSet.v ===== *)
(** * Sorted sets over skip lists ([t_zset.c])

    The order of the entries, the representation of a sorted list of pairs of
    score and element by a skip list, insertion, deletion and change of score;
    ranks and ranges. *)

From Stdlib Require Import SpecFloat.
From stdpp Require Import gmap sorting.
From S2P Require Import Prelude.
From S2P Require Import Sds.
From S2P Require Import Skiplist.
Import Skiplist.

Module SortedSet.
Section Model.
Context {SC : Score}.
Abbreviation heap := (gmap addr zskiplistNode).
Abbreviation low i := (Forall (fun e => (e_height e <= i)%nat)).
Abbreviation tall := (Forall (fun e => (1 <= e_height e)%nat)).

(** ** The order *)

Abbreviation item := (double * list Z)%type.

Definition ilt (a b : item) : bool :=
  dlt a.1 b.1 || (negb (dlt b.1 a.1) && match Sds.lex a.2 b.2 with Lt => true | _ => false end).

Lemma dlt_asym a b : dlt a b = true -> dlt b a = false.
Proof.
  intros H. apply not_true_is_false. intros H'. pose proof (dlt_trans _ _ _ H H') as Hr.
  by rewrite dlt_irrefl in Hr.
Qed.

Lemma lex_flip a b : Sds.lex b a = CompOpp (Sds.lex a b).
Proof.
  revert b. induction a as [|x a IH]; intros [|y b]; cbn [Sds.lex]; try done.
  rewrite (Z.compare_antisym x y). destruct (x ?= y); cbn; auto.
Qed.

Lemma lex_eq a b : Sds.lex a b = Eq -> a = b.
Proof.
  revert b. induction a as [|x a IH]; intros [|y b]; cbn [Sds.lex]; try done.
  destruct (Z.compare_spec x y) as [->| |]; try done. intros H. f_equal. auto.
Qed.

Lemma lex_refl a : Sds.lex a a = Eq.
Proof. induction a as [|x a IH]; cbn [Sds.lex]; [done|]. by rewrite Z.compare_refl. Qed.

Lemma lex_trans a b c : Sds.lex a b = Lt -> Sds.lex b c = Lt -> Sds.lex a c = Lt.
Proof.
  revert b c. induction a as [|x a IH]; intros [|y b] [|w c]; cbn [Sds.lex]; try done.
  destruct (Z.compare_spec x y), (Z.compare_spec y w), (Z.compare_spec x w); subst; try done; try lia; apply IH.
Qed.

Lemma sdscmp_lex a b : (sdscmp a b ?= 0) = Sds.lex a b.
Proof.
  unfold sdscmp. destruct (Sds.memcmp_lex a b) as [Ha Hb]. set (c := Sds.memcmp _ _) in *.
  destruct (Z.eqb_spec c 0) as [E|E].
  - rewrite Hb by done. rewrite Z.gtb_ltb. destruct (Z.ltb_spec (zlen b) (zlen a)); [symmetry; apply Z.compare_gt_iff; lia|].
    destruct (Z.ltb_spec (zlen a) (zlen b)); [symmetry; by apply Z.compare_lt_iff|]. symmetry. apply Z.compare_eq_iff. lia.
  - rewrite Ha. by destruct (Sds.lex a b).
Qed.

Abbreviation number x := (isnan x.1 = false).

Lemma ilt_irrefl a : ilt a a = false.
Proof. unfold ilt. by rewrite dlt_irrefl, lex_refl. Qed.

Lemma ilt_trans a b c : number a -> number b -> number c -> ilt a b = true -> ilt b c = true -> ilt a c = true.
Proof.
  unfold ilt. intros Ha Hb Hc H1 H2. apply orb_true_iff in H1, H2. apply orb_true_iff.
  rewrite !andb_true_iff, !negb_true_iff in *.
  destruct H1 as [H1|[H1 H1']], H2 as [H2|[H2 H2']].
  - left. by eapply dlt_trans.
  - left. destruct (dlt_weak a.1 c.1 b.1 Ha Hc Hb H1) as [?|?]; [done|]. congruence.
  - left. destruct (dlt_weak b.1 a.1 c.1 Hb Ha Hc H2) as [?|?]; [|done]. congruence.
  - right. split.
    + apply not_true_is_false. intros H. destruct (dlt_weak c.1 b.1 a.1 Hc Hb Ha H); congruence.
    + destruct (Sds.lex a.2 b.2) eqn:E1; try done. destruct (Sds.lex b.2 c.2) eqn:E2; try done.
      by rewrite (lex_trans _ _ _ E1 E2).
Qed.

Lemma ilt_weak a b c : number a -> number b -> number c -> ilt a c = true -> ilt a b = true \/ ilt b c = true.
Proof.
  unfold ilt. intros Ha Hb Hc H. destruct (dlt a.1 b.1) eqn:Hab; [by left|]. destruct (dlt b.1 c.1) eqn:Hbc; [by right|].
  destruct (dlt a.1 c.1) eqn:Hac; [destruct (dlt_weak a.1 b.1 c.1); congruence|]. cbn in H.
  apply andb_true_iff in H as [Hca%negb_true_iff Hl].
  destruct (dlt b.1 a.1) eqn:Hba; [destruct (dlt_weak b.1 c.1 a.1); congruence|].
  destruct (dlt c.1 b.1) eqn:Hcb; [destruct (dlt_weak c.1 a.1 b.1); congruence|]. cbn.
  destruct (Sds.lex a.2 b.2) eqn:E; [|by left|].
  - apply lex_eq in E. rewrite E in Hl. by right.
  - right. destruct (Sds.lex a.2 c.2) eqn:E'; try done. rewrite (lex_trans b.2 a.2 c.2); [done| |done].
    by rewrite lex_flip, E.
Qed.

(** Different elements are comparable. *)
Lemma ilt_total a b : a.2 <> b.2 -> ilt a b = false -> ilt b a = true.
Proof.
  unfold ilt. intros Hne H. apply orb_false_iff in H as [H1 H2]. apply orb_true_iff.
  rewrite H1. destruct (dlt b.1 a.1); [by left|]. cbn in *. right. rewrite lex_flip.
  destruct (Sds.lex a.2 b.2) eqn:E; try done. by apply lex_eq in E.
Qed.

Lemma ilt_asym a b : ilt a b = true -> ilt b a = false.
Proof.
  unfold ilt. rewrite orb_true_iff, andb_true_iff, negb_true_iff. intros [H|[H H']].
  - by rewrite H, (dlt_asym _ _ H).
  - rewrite H. cbn. rewrite lex_flip. destruct (Sds.lex a.2 b.2); try done. by destruct (dlt a.1 b.1).
Qed.

Lemma cmp_sign a b : match Sds.lex a b with Lt => sdscmp a b < 0 | Eq => sdscmp a b = 0 | Gt => 0 < sdscmp a b end.
Proof. rewrite <- sdscmp_lex. destruct (Z.compare_spec (sdscmp a b) 0); lia. Qed.

(** [zslCompareWithNode] decides the order. *)
Definition itm (e : ent) : item := (e_score e, default [] (e_ele e)).

Lemma compare_spec h E G B e score ele :
  cells h E G B -> e ∈ E -> is_Some (e_ele e) ->
  exists c, zslCompareWithNode h score ele (Some (e_addr e)) = Some c /\
    (0 < c <-> ilt (itm e) (score, ele) = true) /\ (c < 0 <-> ilt (score, ele) (itm e) = true).
Proof.
  intros Hc He [el Hel]. unfold zslCompareWithNode, zslGetNodeElement. rewrite (cells_lookup _ _ _ _ _ Hc He).
  cbn [mbind option_bind node_of n_score n_ele]. unfold itm, ilt. rewrite Hel. cbn [fst snd default mbind option_bind].
  destruct (dlt score (e_score e)) eqn:H1.
  - exists (-1). rewrite (dlt_asym _ _ H1). cbn. split; [done|]. split; split; (done || lia).
  - destruct (dlt (e_score e) score) eqn:H2; [exists 1; cbn; split; [done|]; split; split; (done || lia)|].
    exists (sdscmp ele el). cbn. split; [done|]. rewrite (lex_flip ele el). pose proof (cmp_sign ele el) as Hs.
    destruct (Sds.lex ele el); cbn; split; split; (done || lia).
Qed.

(** ** Sorted lists: the specification *)

Abbreviation sorted := (StronglySorted (fun a b => ilt a b = true)).
Abbreviation numbers := (Forall (fun x : item => number x)).

Fixpoint ins (x : item) (l : list item) : list item :=
  match l with
  | [] => [x]
  | y :: l' => if ilt y x then y :: ins x l' else x :: l
  end.

Lemma ins_app x l1 l2 : Forall (fun y => ilt y x = true) l1 -> Forall (fun y => ilt y x = false) l2 ->
  ins x (l1 ++ l2) = l1 ++ x :: l2.
Proof.
  induction 1 as [|y l1 Hy _ IH]; intros H2; cbn [app ins].
  - destruct l2 as [|y l2]; [done|]. apply Forall_cons in H2 as [H2 _]. cbn. by rewrite H2.
  - rewrite Hy. by rewrite IH.
Qed.

(** The entries of a sorted list are split by a downward closed property. *)
Lemma sorted_split {X} (f : X -> item) (P : X -> bool) L : sorted (map f L) ->
  (forall a b, a ∈ L -> b ∈ L -> ilt (f a) (f b) = true -> P b = true -> P a = true) ->
  exists L1 L2, L = L1 ++ L2 /\ Forall (fun e => P e = true) L1 /\ Forall (fun e => P e = false) L2.
Proof.
  induction L as [|e L IH]; intros Hs Hp; [by exists [], []|]. cbn in Hs. apply StronglySorted_inv in Hs as [Hs He].
  destruct (P e) eqn:E.
  - destruct IH as (L1 & L2 & -> & H1 & H2); [done|intros a b Ha Hb; apply Hp; by right|].
    exists (e :: L1), L2. split_and!; [done| |done]. by constructor.
  - exists [], (e :: L). split_and!; [done|constructor|]. constructor; [done|]. apply Forall_forall. intros b Hb.
    apply not_true_is_false. intros Hpb. rewrite (Hp e b) in E; [done|left|by right| |done].
    rewrite Forall_forall in He. apply He. by apply list_elem_of_fmap_2.
Qed.

Lemma item_split L x : sorted (map itm L) -> numbers (map itm L) -> number x ->
  exists L1 L2, L = L1 ++ L2 /\ Forall (fun e => ilt (itm e) x = true) L1 /\ Forall (fun e => ilt (itm e) x = false) L2.
Proof.
  intros Hs Hn Hx. apply (sorted_split itm (fun e => ilt (itm e) x)); [done|]. rewrite Forall_forall in Hn.
  intros a b Ha Hb Hab. apply ilt_trans; try done; apply Hn; by apply list_elem_of_fmap_2.
Qed.

Lemma sorted_insert l1 x l2 : sorted (l1 ++ l2) -> Forall (fun y => ilt y x = true) l1 ->
  Forall (fun y => ilt x y = true) l2 -> sorted (l1 ++ x :: l2).
Proof.
  intros Hs H1 H2. induction H1 as [|y l1 Hy _ IH]; cbn in *; [by constructor|].
  apply StronglySorted_inv in Hs as [Hs Hy']. constructor; [auto|]. apply Forall_app in Hy' as [? ?].
  apply Forall_app. split; [done|]. by constructor.
Qed.

Lemma sorted_drop l1 x l2 : sorted (l1 ++ x :: l2) ->
  sorted (l1 ++ l2) /\ Forall (fun y => ilt y x = true) l1 /\ Forall (fun y => ilt x y = true) l2.
Proof.
  induction l1 as [|y l1 IH]; cbn; intros [Hs Hy]%StronglySorted_inv.
  - split_and!; [done|constructor|done].
  - destruct (IH Hs) as (H1 & H2 & H3). apply Forall_app in Hy as [Hy1 Hy2]. apply Forall_cons in Hy2 as [Hy2 Hy3].
    split_and!; [|by constructor|done]. constructor; [done|]. by apply Forall_app.
Qed.

(** ** The representation *)

(** [L] describes the skip list: the entries are sorted, their elements are
    distinct, and the heap has exactly the cells of the list. *)
Record repr (zsl_size : Z) (h : heap) (z : zskiplist) (L : list ent) : Prop := {
  r_shape : exists hd G B, shape h z hd L G B /\ dom h = list_to_set (map e_addr (hd :: L)) /\
    z_alloc_size z = uwrap 64 (zsl_size + foldr Z.add 0 (map e_usable (hd :: L)));
  r_sorted : sorted (map itm L);
  r_numbers : numbers (map itm L);
  r_elements : NoDup (map snd (map itm L));
}.

(** A condition that is a property of the next entry. *)
Lemma splits_by (cond : Z -> addr -> option bool) (f : ent -> bool) hd L1 L2 :
  (forall e r, e ∈ L1 ++ L2 -> cond r (e_addr e) = Some (f e)) ->
  Forall (fun e => f e = true) L1 -> Forall (fun e => f e = false) L2 -> splits cond (hd :: L1) L2.
Proof.
  intros Hb H1 H2. rewrite Forall_forall in *. split.
  - intros pre e suf HN Hpre. destruct pre as [|p pre]; [done|]. simplify_eq/=.
    rewrite Hb; [|apply elem_of_app; left; apply elem_of_app; right; left].
    rewrite H1; [done|]. apply elem_of_app. right. left.
  - intros pre e suf ->. rewrite Hb; [|apply elem_of_app; right; apply elem_of_app; right; left].
    rewrite H2; [done|]. apply elem_of_app. right. left.
Qed.

(** The condition of a search splits the list at the place of an item. *)
Lemma before_splits h hd L1 L2 G B score ele :
  cells h (hd :: L1 ++ L2) G B -> Forall ent_ok (L1 ++ L2) ->
  Forall (fun e => ilt (itm e) (score, ele) = true) L1 -> Forall (fun e => ilt (itm e) (score, ele) = false) L2 ->
  splits (before h score ele) (hd :: L1) L2.
Proof.
  intros Hc Hok H1 H2. rewrite Forall_forall in *.
  apply (splits_by _ (fun e => ilt (itm e) (score, ele))); [|by apply Forall_forall..].
  intros e r He. destruct (compare_spec h (hd :: L1 ++ L2) G B e score ele) as (c & E & Hc1 & _);
    [done|by right|by apply Hok|]. unfold before. rewrite E. cbn. f_equal.
  destruct (Z.ltb_spec 0 c) as [Hp|Hp]; [symmetry; by apply Hc1|]. symmetry. apply not_true_is_false. rewrite <- Hc1. lia.
Qed.

Definition total (L : list ent) : Z := foldr Z.add 0 (map e_usable L).

Lemma total_app L1 L2 : total (L1 ++ L2) = total L1 + total L2.
Proof. unfold total. induction L1 as [|e L1 IH]; cbn in *; lia. Qed.

Lemma random_loop_ge rs l n rs' : random_loop rs l = Some (n, rs') -> (l <= n)%nat.
Proof.
  revert l. induction rs as [|r rs IH]; intros l; cbn; [done|]. destruct (r <? threshold); intros H; simplify_eq; [|done].
  apply IH in H. lia.
Qed.

Lemma zslRandomLevel_range rs n rs' : zslRandomLevel rs = Some (n, rs') -> (1 <= n <= ZSKIPLIST_MAXLEVEL)%nat.
Proof.
  unfold zslRandomLevel, ZSKIPLIST_MAXLEVEL. destruct (random_loop rs 1) as [[l r]|] eqn:E; cbn [mbind option_bind]; [|done].
  intros H. simplify_eq. apply random_loop_ge in E. destruct (Nat.ltb_spec l 32); lia.
Qed.

(** A shape does not depend on other cells, nor on the accounting of memory. *)
Lemma shape_move h h' z hd L G B s :
  shape h z hd L G B -> (forall a, a ∈ map e_addr (hd :: L) -> h' !! a = h !! a) ->
  shape h' (Zsl (z_header z) (z_tail z) (z_length z) (z_level z) s) hd L G B.
Proof.
  intros [Hc Hn HG Hhd Hne H32 Hok HB Htail Hlen Hlev] Hsame. constructor; cbn [z_header z_tail z_length z_level]; try done.
  unfold cells in *. rewrite Forall_forall in *. intros e He. rewrite Hsame by (by apply list_elem_of_fmap_2). by apply Hc.
Qed.

Lemma insert_ordered L1 L2 x : sorted (map itm (L1 ++ L2)) -> x.2 ∉ map snd (map itm (L1 ++ L2)) ->
  Forall (fun e => ilt (itm e) x = true) L1 -> Forall (fun e => ilt (itm e) x = false) L2 ->
  sorted (map itm L1 ++ x :: map itm L2) /\ ins x (map itm (L1 ++ L2)) = map itm L1 ++ x :: map itm L2.
Proof.
  rewrite map_app. intros Hs Hx H1 H2. split.
  - apply sorted_insert; [done|by apply Forall_map|]. apply Forall_map. rewrite Forall_forall in *. intros e He.
    apply ilt_total; [|by apply H2]. intros Heq. apply Hx. rewrite <- Heq. apply list_elem_of_fmap_2, elem_of_app. right.
    by apply list_elem_of_fmap_2.
  - by apply ins_app; apply Forall_map.
Qed.

Lemma addrs_middle N1 nd L2 :
  list_to_set (map e_addr (N1 ++ nd :: L2)) =@{gset Z} {[e_addr nd]} ∪ list_to_set (map e_addr (N1 ++ L2)).
Proof.
  rewrite !map_app. cbn. rewrite (list_to_set_perm_L _ _ (symmetry (Permutation_middle _ _ _))). done.
Qed.

Lemma NoDup_middle {A} (l1 : list A) x l2 : NoDup (l1 ++ x :: l2) <-> NoDup (l1 ++ l2) /\ x ∉ l1 ++ l2.
Proof. rewrite <- Permutation_middle, NoDup_cons. tauto. Qed.

Lemma zslInsert_spec zs h z L rs a usable junk score ele lv rs' :
  repr zs h z L -> a ∉ dom h -> isnan score = false -> ele ∉ map snd (map itm L) ->
  zslRandomLevel rs = Some (lv, rs') -> zlen L + 1 < 2 ^ 63 ->
  exists h' z' L1 nd L2, zslInsert h z rs a usable junk score ele = Some (h', z', a, rs') /\
    repr zs h' z' (L1 ++ nd :: L2) /\ L = L1 ++ L2 /\ e_addr nd = a /\ itm nd = (score, ele) /\
    map itm (L1 ++ nd :: L2) = ins (score, ele) (map itm L) /\ dom h' = {[a]} ∪ dom h.
Proof.
  intros [(hd & G & B & Hsh & Hdom & Hal) Hs Hn Hd] Ha Hnan Hele Hr Hb.
  destruct (item_split L (score, ele) Hs Hn Hnan) as (L1 & L2 & -> & H1 & H2).
  destruct (insert_ordered L1 L2 (score, ele) Hs Hele H1 H2) as [Hs' Hins].
  set (nd := Ent a score (Some ele) lv lv usable). set (h0 := <[a := node_of (fun _ => junk) (fun _ => None) nd]> h).
  set (z0 := Zsl (z_header z) (z_tail z) (z_length z) (z_level z) (uwrap 64 (z_alloc_size z + usable))).
  assert (a ∉ map e_addr (hd :: L1 ++ L2)) as Hna.
  { intros Hin. apply Ha. rewrite Hdom. by apply elem_of_list_to_set. }
  assert (shape h0 z0 hd (L1 ++ L2) G B) as Hsh0.
  { apply (shape_move h); [done|]. intros b Hb0. apply lookup_insert_ne. by intros ->. }
  pose proof (zslRandomLevel_range _ _ _ Hr) as Hlv.
  destruct (zslInsertNode_spec h0 z0 hd L1 L2 nd G B (fun _ => junk) (fun _ => None) ele)
    as (h' & z' & k & G' & B' & E & Hsh' & [Fd _] & Hal'); try done.
  { apply lookup_insert_eq. }
  { apply (before_splits h0 hd L1 L2 G B); try done; [apply Hsh0|apply Hsh]. }
  exists h', z', L1, nd, L2. unfold zslInsert. rewrite Hnan, Hr. cbn [mbind option_bind].
  change (zslCreateNode h z a usable junk lv score ele) with (h0, z0). cbn iota. change (e_addr nd) with a in E. rewrite E. cbn [mbind option_bind].
  assert (map itm (L1 ++ nd :: L2) = map itm L1 ++ (score, ele) :: map itm L2) as Hmap by (rewrite map_app; done).
  split_and!; try done; [|by rewrite Hmap, Hins|by rewrite Fd; unfold h0; rewrite dom_insert_L]. constructor; rewrite ?Hmap; try done.
  - exists (with_info k hd), G', B'. split_and!; [done| |].
    + rewrite Fd. unfold h0. rewrite dom_insert_L, Hdom. symmetry. apply (addrs_middle (with_info k hd :: L1)).
    + rewrite Hal'. unfold z0. cbn [z_alloc_size]. rewrite Hal. unfold uwrap. rewrite Zplus_mod_idemp_l. f_equal.
      pose proof (total_app L1 L2) as T1. pose proof (total_app L1 (nd :: L2)) as T2. unfold total in *. cbn in *. lia.
  - rewrite map_app in Hn. apply Forall_app in Hn as [? ?]. apply Forall_app. split; [done|]. by constructor.
  - rewrite map_app. cbn. apply NoDup_middle. rewrite <- map_app, <- map_app. done.
Qed.

(** *** Deletion *)

(** The predecessors found for an entry of the list. *)
Lemma find_update_spec h z hd L1 nd L2 G B :
  shape h z hd (L1 ++ nd :: L2) G B -> sorted (map itm (L1 ++ nd :: L2)) -> zlen (L1 ++ nd :: L2) + 1 < 2 ^ 63 ->
  exists ele update, h !! e_addr nd = Some (node_of G B nd) /\ e_ele nd = Some ele /\
    find_update h z (e_addr nd) (e_score nd) ele = Some update /\
    forall i, (i < z_level z)%nat -> exists u r, update !! i = Some u /\ last_at i (hd :: L1) u r.
Proof.
  intros [Hc Hn HG Hhd Hne H32 Hok HB Htail Hlen Hlev] Hs Hb.
  assert (ent_ok nd) as ([ele Hele] & _ & Hht) by (apply Forall_app in Hok as [_ H]; by apply Forall_cons in H as [? _]).
  assert (itm nd = (e_score nd, ele)) as Hitm by (unfold itm; by rewrite Hele).
  rewrite map_app in Hs. cbn in Hs. destruct (sorted_drop _ _ _ Hs) as (_ & H1 & H2). rewrite Hitm in H1, H2.
  pose proof (top_ok _ Hok) as Ht. pose proof (top_of_pos (L1 ++ nd :: L2)) as Hpos.
  destruct (descent_spec h (hd :: L1) (nd :: L2) G B (z_level z) (before h (e_score nd) ele)) with (n := z_level z)
    (pre := @nil ent) (e := hd) (suf := L1) as (us & rs & Es & Hu & Hr & Hall); try done; try lia.
  { cbn [app length]. lia. }
  { constructor; [rewrite H32; unfold ZSKIPLIST_MAXLEVEL; lia|by apply tall_ok]. }
  { apply Forall_map in H1. apply (before_splits h hd L1 (nd :: L2) G B); try done. constructor.
    - by rewrite Hitm, ilt_irrefl.
    - apply Forall_map in H2. eapply Forall_impl; [exact H2|]. cbn. intros e. apply ilt_asym. }
  exists ele, us. split; [apply (cells_lookup _ _ _ _ _ Hc); right; apply elem_of_app; right; left|]. split; [done|]. split.
  - unfold find_update. rewrite Hhd in Es. change (zlen []) with 0 in Es. rewrite Es. cbn [mbind option_bind].
    destruct (Hall O) as (u0 & r0 & -> & _ & pre & e & suf & HN & He & Hl & -> & _); [lia|]. cbn [mbind option_bind].
    assert (hd :: L1 ++ nd :: L2 = pre ++ e :: suf ++ nd :: L2) as HE.
    { change (hd :: L1 ++ nd :: L2) with ((hd :: L1) ++ nd :: L2). rewrite HN, <- app_assoc. done. }
    rewrite (get_level_cells _ _ _ _ e O Hc) by (done || (rewrite HE; apply elem_of_app; right; left)). cbn [mbind option_bind].
    destruct (HG O pre e (suf ++ nd :: L2) HE He) as [-> _]. rewrite first_app_low by done. cbn [first].
    rewrite (proj2 (Nat.ltb_lt _ _)) by lia. cbn. by rewrite bool_decide_true.
  - intros i Hi. destruct (Hall i Hi) as (u & r & ? & _ & ?). by exists u, r.
Qed.

(** Unlinking and releasing an entry whose predecessors are known. *)
Lemma unlink_free zs hd h z L1 nd L2 G B us :
  shape h z hd (L1 ++ nd :: L2) G B -> dom h = list_to_set (map e_addr (hd :: L1 ++ nd :: L2)) ->
  z_alloc_size z = uwrap 64 (zs + foldr Z.add 0 (map e_usable (hd :: L1 ++ nd :: L2))) ->
  zlen (L1 ++ nd :: L2) + 1 < 2 ^ 63 ->
  (forall i, (i < z_level z)%nat -> exists u r, us !! i = Some u /\ last_at i (hd :: L1) u r) ->
  exists h1 z1 h' z' G' B', zslUnlinkNode h z (e_addr nd) us = Some (h1, z1) /\
    zslGetNodeElement h1 (e_addr nd) = e_ele nd /\ zslFreeNode h1 z1 (e_addr nd) = Some (h', z') /\
    shape h' z' hd (L1 ++ L2) G' B' /\ dom h' = list_to_set (map e_addr (hd :: L1 ++ L2)) /\
    z_alloc_size z' = uwrap 64 (zs + foldr Z.add 0 (map e_usable (hd :: L1 ++ L2))).
Proof.
  intros Hsh Hdom Hal Hb Hus.
  destruct (zslUnlinkNode_spec h z hd L1 nd L2 G B us Hsh Hb Hus) as (h1 & z1 & G1 & B1 & E1 & Hsh1 & [Fd _] & Hcell1 & Hal1).
  destruct (NoDup_drop (hd :: L1) nd L2) as [_ Hna]; [apply Hsh|].
  eexists h1, z1, _, _, G1, B1. split; [done|]. split; [unfold zslGetNodeElement; by rewrite Hcell1|].
  unfold zslFreeNode. rewrite Hcell1. cbn [mbind option_bind node_of n_usable]. split; [done|]. split_and!.
  - apply (shape_move h1); [done|]. intros a Ha. apply lookup_delete_ne. intros <-. by apply Hna.
  - rewrite dom_delete_L, Fd, Hdom. change (hd :: L1 ++ nd :: L2) with ((hd :: L1) ++ nd :: L2).
    rewrite addrs_middle, difference_union_distr_l_L, difference_diag_L, union_empty_l_L.
    apply difference_disjoint_L, disjoint_singleton_r. by rewrite elem_of_list_to_set.
  - cbn [z_alloc_size]. rewrite Hal1, Hal. unfold uwrap. rewrite Zminus_mod_idemp_l. f_equal.
    pose proof (total_app L1 L2) as T1. pose proof (total_app L1 (nd :: L2)) as T2. unfold total in *. cbn in *. lia.
Qed.

(** What remains of a sorted list without some of its entries. *)
Lemma ordered_drop {X} (f : X -> item) L1 nd L2 :
  sorted (map f (L1 ++ nd :: L2)) -> numbers (map f (L1 ++ nd :: L2)) -> NoDup (map snd (map f (L1 ++ nd :: L2))) ->
  sorted (map f (L1 ++ L2)) /\ numbers (map f (L1 ++ L2)) /\ NoDup (map snd (map f (L1 ++ L2))).
Proof.
  rewrite !map_app. cbn. intros Hs Hn Hd. split_and!.
  - by destruct (sorted_drop _ _ _ Hs).
  - apply Forall_app in Hn as [? H]. apply Forall_cons in H as [_ ?]. by apply Forall_app.
  - by apply NoDup_middle in Hd as [? _].
Qed.

Lemma ordered_cut {X} (f : X -> item) L1 E L2 :
  sorted (map f (L1 ++ E ++ L2)) -> numbers (map f (L1 ++ E ++ L2)) -> NoDup (map snd (map f (L1 ++ E ++ L2))) ->
  sorted (map f (L1 ++ L2)) /\ numbers (map f (L1 ++ L2)) /\ NoDup (map snd (map f (L1 ++ L2))).
Proof.
  induction E as [|e E IH]; intros Hs Hn Hd; [done|]. cbn [app] in *.
  destruct (ordered_drop f L1 e (E ++ L2) Hs Hn Hd) as (? & ? & ?). by apply IH.
Qed.

Lemma zslDelete_spec zs h z L1 nd L2 :
  repr zs h z (L1 ++ nd :: L2) -> zlen (L1 ++ nd :: L2) + 1 < 2 ^ 63 ->
  exists h' z', zslDelete h z (e_addr nd) = Some (h', z') /\ repr zs h' z' (L1 ++ L2).
Proof.
  intros [(hd & G & B & Hsh & Hdom & Hal) Hs Hn Hd] Hb.
  destruct (find_update_spec h z hd L1 nd L2 G B Hsh Hs Hb) as (ele & us & Hcell & Hele & Ef & Hus).
  destruct (unlink_free zs hd h z L1 nd L2 G B us Hsh Hdom Hal Hb Hus)
    as (h1 & z1 & h' & z' & G' & B' & E1 & _ & E2 & Hsh' & Hdom' & Hal').
  unfold zslDelete, zslGetNodeElement. rewrite Hcell. cbn [mbind option_bind node_of n_ele n_score]. rewrite Hele.
  cbn [mbind option_bind]. rewrite Ef. cbn [mbind option_bind]. rewrite E1. cbn [mbind option_bind].
  exists h', z'. split; [done|]. destruct (ordered_drop itm L1 nd L2 Hs Hn Hd) as (? & ? & ?). constructor; try done.
  by exists hd, G', B'.
Qed.

(** *** Changing a score *)

Definition with_score (s : double) (e : ent) : ent :=
  Ent (e_addr e) s (e_ele e) (e_height e) (e_info e) (e_usable e).

(** Links, heights and back pointers do not depend on the scores. *)
Definition sim (e e' : ent) : Prop := e_addr e = e_addr e' /\ e_height e = e_height e'.

Lemma sim_refl L : Forall2 sim L L.
Proof. induction L; constructor; done. Qed.

Lemma sim_first i L L' : Forall2 sim L L' -> e_addr <$> first i L = e_addr <$> first i L' /\ dist i L = dist i L'.
Proof.
  induction 1 as [|e e' L L' [Ha Hh] _ [IH1 IH2]]; cbn [first dist]; [done|]. rewrite Hh.
  destruct (_ <? _)%nat; cbn; split; congruence.
Qed.

Lemma sim_linked top i N N' G : Forall2 sim N N' -> linked_at top i N G -> linked_at top i N' G.
Proof.
  induction 1 as [|e e' N N' [Ha Hh] HN IH]; [done|]. rewrite !linked_at_cons. intros [H1 H2]. split; [|auto].
  rewrite <- Hh, <- Ha. intros Hi. destruct (H1 Hi) as [Hf Hs]. destruct (sim_first i _ _ HN) as [Ef Ed]. split; [congruence|].
  intros. rewrite <- Ed. auto.
Qed.

Lemma sim_back prev L L' B : Forall2 sim L L' -> back_ok prev L B -> back_ok prev L' B.
Proof.
  intros H. revert prev. induction H as [|e e' L L' [Ha Hh] _ IH]; intros prev; cbn; [done|].
  rewrite <- Ha. intros [? ?]. auto.
Qed.

Lemma sim_top L L' : Forall2 sim L L' -> top_of L = top_of L'.
Proof. induction 1 as [|e e' L L' [Ha Hh] _ IH]; [done|]. rewrite !top_of_cons. congruence. Qed.

Lemma sim_last prev L L' : Forall2 sim L L' -> last_or prev L = last_or prev L'.
Proof.
  intros H. revert prev. induction H as [|e e' L L' [Ha Hh] _ IH]; intros prev; [done|]. rewrite !last_or_cons, IH. congruence.
Qed.

Lemma sim_addr L L' : Forall2 sim L L' -> map e_addr L = map e_addr L'.
Proof. induction 1 as [|e e' L L' [Ha Hh] _ IH]; cbn; congruence. Qed.

Lemma upd_score_shape h z hd L1 nd L2 G B s :
  shape h z hd (L1 ++ nd :: L2) G B ->
  exists h', upd h (e_addr nd) (set_score s) = Some h' /\ shape h' z hd (L1 ++ with_score s nd :: L2) G B /\ dom h' = dom h.
Proof.
  intros [Hc Hn HG Hhd Hne H32 Hok HB Htail Hlen Hlev]. set (N1 := hd :: L1). set (nd' := with_score s nd).
  assert (Forall2 sim (L1 ++ nd :: L2) (L1 ++ nd' :: L2)) as Hsim.
  { apply Forall2_app; [apply sim_refl|]. constructor; [done|apply sim_refl]. }
  unfold upd. pose proof (cells_lookup _ _ _ _ nd Hc) as Hl. rewrite Hl by (right; apply elem_of_app; right; left).
  cbn [mbind option_bind]. eexists. split; [done|]. split.
  - constructor; try done.
    + change (hd :: L1 ++ nd :: L2) with (N1 ++ nd :: L2) in Hc, Hn. destruct (NoDup_drop N1 nd L2 Hn) as [_ Hna].
      apply Forall_app in Hc as [H1 H2]. apply Forall_cons in H2 as [_ H2]. change (cells (<[e_addr nd := node_of G B nd']> h) (N1 ++ nd' :: L2) G B).
      rewrite map_app, not_elem_of_app in Hna. destruct Hna as [Hn1 Hn2]. apply Forall_app. split; [|apply Forall_cons; split].
      * rewrite Forall_forall in H1 |- *. intros e He. rewrite lookup_insert_ne; [by apply H1|].
        intros Ha. apply Hn1. rewrite Ha. by apply list_elem_of_fmap_2.
      * by rewrite lookup_insert_eq.
      * rewrite Forall_forall in H2 |- *. intros e He. rewrite lookup_insert_ne; [by apply H2|].
        intros Ha. apply Hn2. rewrite Ha. by apply list_elem_of_fmap_2.
    + change (map e_addr (hd :: ?l)) with (e_addr hd :: map e_addr l) in *. cbn. by rewrite <- (sim_addr _ _ Hsim).
    + intros i. apply (sim_linked _ _ (hd :: L1 ++ nd :: L2)); [by constructor|done].
    + apply Forall_app in Hok as [? H]. apply Forall_cons in H as [? ?]. apply Forall_app. split; [done|]. by constructor.
    + by eapply sim_back.
    + by rewrite <- (sim_last _ _ _ Hsim).
    + by rewrite <- (Forall2_length _ _ _ Hsim).
    + by rewrite <- (sim_top _ _ Hsim).
  - rewrite dom_insert_L. apply subseteq_union_1_L, singleton_subseteq_l. eapply elem_of_dom_2, Hl.
    right. apply elem_of_app. right. left.
Qed.

(** The test of the fast path, on the neighbours of the node. *)
Lemma fast_path_spec h z hd L1 nd L2 G B s :
  shape h z hd (L1 ++ nd :: L2) G B ->
  let b1 := match last L1 with Some e => dlt (e_score e) s | None => true end in
  let b2 := match head L2 with Some e => dlt s (e_score e) | None => true end in
  exists l, get_level h (e_addr nd) 0 = Some l /\ forward l = e_addr <$> head L2 /\
    null_or h (B (e_addr nd)) (fun x => dlt x s) = Some b1 /\ null_or h (forward l) (fun x => dlt s x) = Some b2.
Proof.
  intros [Hc Hn HG Hhd Hne H32 Hok HB Htail Hlen Hlev] b1 b2.
  assert (nd ∈ hd :: L1 ++ nd :: L2) as Hin by (right; apply elem_of_app; right; left).
  assert (1 <= e_height nd)%nat as Hht.
  { apply Forall_app in Hok as [_ H]. apply Forall_cons in H as [(_ & _ & ?) _]. lia. }
  assert (first 0 L2 = head L2) as Hf.
  { apply first_head, tall_ok. apply Forall_app in Hok as [_ H]. by apply Forall_cons in H as [_ ?]. }
  destruct (HG O (hd :: L1) nd L2 eq_refl) as [Hfw _]; [lia|]. rewrite Hf in Hfw.
  exists (G (e_addr nd) O). rewrite (get_level_cells _ _ _ _ _ _ Hc Hin) by lia. split_and!; try done.
  - apply back_ok_app in HB as [_ [-> _]]. unfold b1, last_or. destruct (last L1) as [e|] eqn:El; [|done]. cbn.
    rewrite (cells_lookup _ _ _ _ e Hc); [done|]. right. apply elem_of_app. left. by apply last_Some_elem_of.
  - rewrite Hfw. unfold b2. destruct L2 as [|y L2]; cbn; [done|].
    rewrite (cells_lookup _ _ _ _ y Hc); [done|]. right. apply elem_of_app. right. right. left.
Qed.

Lemma ilt_score a b : dlt a.1 b.1 = true -> ilt a b = true.
Proof. intros H. unfold ilt. by rewrite H. Qed.

(** When it succeeds the node stays where it is. *)
Lemma fast_path_sorted L1 nd L2 s :
  sorted (map itm (L1 ++ nd :: L2)) -> numbers (map itm (L1 ++ nd :: L2)) -> isnan s = false ->
  match last L1 with Some e => dlt (e_score e) s | None => true end = true ->
  match head L2 with Some e => dlt s (e_score e) | None => true end = true ->
  Forall (fun y => ilt y (itm (with_score s nd)) = true) (map itm L1) /\
  Forall (fun y => ilt (itm (with_score s nd)) y = true) (map itm L2).
Proof.
  rewrite map_app. cbn. intros Hs Hn Hx H1 H2. set (x := itm (with_score s nd)). assert (number x) as Hxn by done.
  apply Forall_app in Hn as [Hn1 Hn2]. apply Forall_cons in Hn2 as [_ Hn2].
  destruct (sorted_drop _ _ _ Hs) as (Hs' & _ & _). split.
  - destruct L1 as [|e L1 _] using rev_ind; [constructor|]. rewrite last_snoc in H1. rewrite map_app in *. cbn in *.
    apply Forall_app in Hn1 as [Hn1 He]. apply Forall_cons in He as [He _]. rewrite <- app_assoc in Hs'. cbn in Hs'.
    destruct (sorted_drop _ _ _ Hs') as (_ & Hl & _). apply Forall_app. split; [|constructor; [by apply ilt_score|done]].
    rewrite Forall_forall in *. intros y Hy. apply (ilt_trans y (itm e)); auto. by apply ilt_score.
  - destruct L2 as [|e L2]; [constructor|]. cbn in *. apply Forall_cons in Hn2 as [He Hn2].
    destruct (sorted_drop _ _ _ Hs') as (_ & _ & Hl). constructor; [by apply ilt_score|].
    rewrite Forall_forall in *. intros y Hy. apply (ilt_trans x (itm e)); auto. by apply ilt_score.
Qed.

Lemma Forall_ilt_flip x l : Forall (fun y => ilt x y = true) l -> Forall (fun y => ilt y x = false) l.
Proof. intros H. eapply Forall_impl; [exact H|]. cbn. intros y. apply ilt_asym. Qed.

(** What does not depend on the place of the node. *)
Lemma rescore_keep L1 nd L2 M1 M2 s ele :
  M1 ++ M2 = L1 ++ L2 -> e_ele nd = Some ele -> isnan s = false ->
  numbers (map itm (L1 ++ nd :: L2)) -> NoDup (map snd (map itm (L1 ++ nd :: L2))) ->
  let M := M1 ++ with_score s nd :: M2 in
  numbers (map itm M) /\ NoDup (map snd (map itm M)) /\ (ele ∉ map snd (map itm (L1 ++ L2))) /\
  total M = total (L1 ++ nd :: L2).
Proof.
  intros HM He Hs Hn Hd M. assert (M ≡ₚ with_score s nd :: (L1 ++ L2)) as HP.
  { unfold M. rewrite <- HM. symmetry. apply Permutation_middle. }
  rewrite <- (Permutation_middle L1 L2 nd) in Hn, Hd. cbn in Hn, Hd. apply Forall_cons in Hn as [_ Hn].
  apply NoDup_cons in Hd as [Hd1 Hd2]. unfold itm in Hd1 at 1. rewrite He in Hd1. split_and!.
  - rewrite HP. cbn. by constructor.
  - rewrite HP. cbn. apply NoDup_cons. unfold itm at 1. cbn. by rewrite He.
  - done.
  - unfold M. pose proof (f_equal total HM) as T. rewrite !total_app in *. unfold total in *. cbn in *. lia.
Qed.

(** The slow path: the node is unlinked and linked again at its new place. *)
Lemma slow_path h z hd L1 nd L2 G B s ele us :
  shape h z hd (L1 ++ nd :: L2) G B -> dom h = list_to_set (map e_addr (hd :: L1 ++ nd :: L2)) ->
  sorted (map itm (L1 ++ nd :: L2)) -> numbers (map itm (L1 ++ nd :: L2)) ->
  NoDup (map snd (map itm (L1 ++ nd :: L2))) -> e_ele nd = Some ele -> isnan s = false ->
  zlen (L1 ++ nd :: L2) + 1 < 2 ^ 63 ->
  (forall i, (i < z_level z)%nat -> exists u r, us !! i = Some u /\ last_at i (hd :: L1) u r) ->
  exists h1 z1 h2 h' z' k G' B' M1 M2, zslUnlinkNode h z (e_addr nd) us = Some (h1, z1) /\
    upd h1 (e_addr nd) (set_score s) = Some h2 /\ zslInsertNode h2 z1 (e_addr nd) = Some (h', z') /\
    shape h' z' (with_info k hd) (M1 ++ with_score s nd :: M2) G' B' /\ M1 ++ M2 = L1 ++ L2 /\
    dom h' = dom h /\ z_alloc_size z' = z_alloc_size z /\
    sorted (map itm (M1 ++ with_score s nd :: M2)) /\
    map itm (M1 ++ with_score s nd :: M2) = ins (itm (with_score s nd)) (map itm (L1 ++ L2)).
Proof.
  intros Hsh Hdom Hs Hn Hd Hele Hnan Hb Hus. set (nd' := with_score s nd).
  assert (itm nd' = (s, ele)) as Hitm by (unfold itm; cbn; by rewrite Hele).
  destruct (zslUnlinkNode_spec h z hd L1 nd L2 G B us Hsh Hb Hus) as (h1 & z1 & G1 & B1 & -> & Hsh1 & [Fd _] & Hcell1 & Hal1).
  destruct (rescore_keep L1 nd L2 L1 L2 s ele) as (_ & _ & Hnotin & _); try done.
  destruct (NoDup_drop (hd :: L1) nd L2) as [_ Hna]; [apply Hsh|]. cbn [app] in Hna.
  assert (sorted (map itm (L1 ++ L2))) as Hs'.
  { rewrite map_app in *. cbn in Hs. by destruct (sorted_drop _ _ _ Hs). }
  assert (numbers (map itm (L1 ++ L2))) as Hn'.
  { rewrite map_app in *. apply Forall_app in Hn as [? H]. apply Forall_cons in H as [_ ?]. by apply Forall_app. }
  destruct (item_split (L1 ++ L2) (s, ele) Hs' Hn' Hnan) as (M1 & M2 & HM & H1 & H2).
  rewrite HM in Hs', Hnotin, Hsh1, Hna. destruct (insert_ordered M1 M2 (s, ele) Hs' Hnotin H1 H2) as [Hsort Hins].
  set (h2 := <[e_addr nd := node_of G1 B1 nd']> h1).
  assert (shape h2 z1 hd (M1 ++ M2) G1 B1) as Hsh2.
  { replace z1 with (Zsl (z_header z1) (z_tail z1) (z_length z1) (z_level z1) (z_alloc_size z1)) by (by destruct z1).
    apply (shape_move h1); [done|]. intros b Hb0. apply lookup_insert_ne. by intros <-. }
  destruct (zslInsertNode_spec h2 z1 hd M1 M2 nd' G1 B1 G1 B1 ele)
    as (h' & z' & k & G' & B' & E & Hsh' & [Fd' _] & Hal'); try done.
  { apply lookup_insert_eq. }
  { destruct Hsh as [_ _ _ _ _ _ Hok _ _ _ _].
    apply Forall_app in Hok as [_ H]. by apply Forall_cons in H as [? _]. }
  { apply (before_splits h2 hd M1 M2 G1 B1); try done; apply Hsh2. }
  { rewrite <- HM. rewrite !length_app in *. cbn [length] in Hb. lia. }
  exists h1, z1, h2, h', z', k, G', B', M1, M2. split_and!; try done.
  - unfold upd. by rewrite Hcell1.
  - rewrite Fd'. unfold h2. rewrite dom_insert_L. rewrite <- Fd. apply subseteq_union_1_L, singleton_subseteq_l.
    by eapply elem_of_dom_2.
  - congruence.
  - rewrite map_app. cbn. by rewrite Hitm.
  - rewrite HM, Hitm, Hins, map_app. cbn. by rewrite Hitm.
Qed.

Lemma zslUpdateScore_spec zs h z L1 nd L2 s :
  repr zs h z (L1 ++ nd :: L2) -> isnan s = false -> zlen (L1 ++ nd :: L2) + 1 < 2 ^ 63 ->
  exists h' z' M1 M2, zslUpdateScore h z (e_addr nd) s = Some (h', z') /\
    repr zs h' z' (M1 ++ with_score s nd :: M2) /\ M1 ++ M2 = L1 ++ L2 /\
    map itm (M1 ++ with_score s nd :: M2) = ins (itm (with_score s nd)) (map itm (L1 ++ L2)).
Proof.
  intros [(hd & G & B & Hsh & Hdom & Hal) Hs Hn Hd] Hnan Hb. set (nd' := with_score s nd).
  destruct (fast_path_spec h z hd L1 nd L2 G B s Hsh) as (l & El & Hf & E1 & E2).
  destruct (find_update_spec h z hd L1 nd L2 G B Hsh Hs Hb) as (ele & us & Hcell & Hele & Ef & Hus).
  assert (itm nd' = (s, ele)) as Hitm by (unfold itm; cbn; by rewrite Hele).
  unfold zslUpdateScore. rewrite Hcell. cbn [mbind option_bind node_of n_backward]. rewrite El. cbn [mbind option_bind].
  rewrite E1. cbn [mbind option_bind].
  set (b1 := match last L1 with Some e => dlt (e_score e) s | None => true end) in *.
  set (b2 := match head L2 with Some e => dlt s (e_score e) | None => true end) in *.
  replace (if b1 then null_or h (forward l) (fun x => dlt s x) else Some false) with (Some (b1 && b2)) by (destruct b1; done).
  cbn [mbind option_bind]. destruct (b1 && b2) eqn:Hfast.
  - apply andb_true_iff in Hfast as [Hb1 Hb2].
    destruct (fast_path_sorted L1 nd L2 s Hs Hn Hnan Hb1 Hb2) as [Hlo Hhi].
    destruct (upd_score_shape h z hd L1 nd L2 G B s Hsh) as (h1 & -> & Hsh1 & Hdom1). cbn [mbind option_bind].
    destruct (rescore_keep L1 nd L2 L1 L2 s ele) as (Hn' & Hd' & _ & Htot); try done.
    exists h1, z, L1, L2. split_and!; try done.
    + constructor; try done.
      * exists hd, G, B. split_and!; [done| |].
        -- rewrite Hdom1, Hdom. cbn. do 2 f_equal. rewrite !map_app. done.
        -- rewrite Hal. do 2 f_equal. cbn [map foldr]. f_equal. symmetry. exact Htot.
      * rewrite map_app in Hs |- *. cbn in Hs |- *. destruct (sorted_drop _ _ _ Hs) as (Hs' & _ & _).
        by apply sorted_insert.
    + rewrite !map_app. cbn. symmetry. apply ins_app; [done|]. by apply Forall_ilt_flip.
  - unfold zslGetNodeElement. rewrite Hcell. cbn [mbind option_bind node_of n_ele n_score]. rewrite Hele.
    cbn [mbind option_bind]. rewrite Ef. cbn [mbind option_bind].
    destruct (slow_path h z hd L1 nd L2 G B s ele us)
      as (h1 & z1 & h2 & h' & z' & k & G' & B' & M1 & M2 & -> & E3 & E4 & Hsh' & HM & Hdom' & Hal' & Hs' & Hins); try done.
    cbn [mbind option_bind]. rewrite E3. cbn [mbind option_bind]. rewrite E4.
    destruct (rescore_keep L1 nd L2 M1 M2 s ele) as (Hn' & Hd' & _ & Htot); try done.
    exists h', z', M1, M2. split_and!; try done. constructor; try done. exists (with_info k hd), G', B'. split_and!; [done| |].
    + rewrite Hdom', Hdom. change (hd :: L1 ++ nd :: L2) with ((hd :: L1) ++ nd :: L2). rewrite addrs_middle.
      change (with_info k hd :: M1 ++ nd' :: M2) with ((with_info k hd :: M1) ++ nd' :: M2). rewrite addrs_middle.
      cbn. by rewrite HM.
    + rewrite Hal', Hal. do 2 f_equal. cbn [map foldr]. f_equal. symmetry. exact Htot.
Qed.

(** *** Creation and release *)

Lemma zslCreate_spec a usable zs : repr zs (zslCreate a usable zs).1 (zslCreate a usable zs).2 [].
Proof.
  constructor; try constructor. exists (Ent a dzero None ZSKIPLIST_MAXLEVEL ZSKIPLIST_MAXLEVEL usable), (fun _ _ => Level None 0), (fun _ => None).
  split_and!; cbn [zslCreate fst snd].
  - constructor; try done.
    + constructor; [|done]. unfold zslCreateHeaderNode. cbn [e_addr]. rewrite lookup_insert_eq. done.
    + apply NoDup_singleton.
    + intros i pre e suf HN Hi. destruct pre as [|p [|]]; simplify_eq/=. done.
  - unfold zslCreateHeaderNode. rewrite dom_insert_L, dom_empty_L. done.
  - cbn [z_alloc_size map foldr e_usable]. f_equal. lia.
Qed.

Lemma dom_release (h : heap) e L : dom h = list_to_set (map e_addr (e :: L)) -> e_addr e ∉ map e_addr L ->
  dom (delete (e_addr e) h) = list_to_set (map e_addr L).
Proof.
  intros Hd Hna. rewrite dom_delete_L, Hd. cbn. apply leibniz_equiv. intros x.
  rewrite elem_of_difference, elem_of_union, !elem_of_singleton, elem_of_list_to_set.
  split; [tauto|]. intros Hx. split; [by right|]. by intros ->.
Qed.

Lemma cells_release h e L G B : cells h L G B -> e_addr e ∉ map e_addr L -> cells (delete (e_addr e) h) L G B.
Proof.
  unfold cells. rewrite !Forall_forall. intros Hc Hna x Hx. rewrite lookup_delete_ne; [by apply Hc|].
  intros Ha. apply Hna. rewrite Ha. by apply list_elem_of_fmap_2.
Qed.

Lemma free_loop_spec fuel h z L G B zs :
  cells h L G B -> NoDup (map e_addr L) -> linked_at (z_level z) 0 L G -> tall L -> dom h = list_to_set (map e_addr L) ->
  z_alloc_size z = uwrap 64 (zs + total L) -> (length L <= fuel)%nat ->
  exists z', free_loop fuel h z (e_addr <$> head L) = Some (∅, z') /\ z_alloc_size z' = uwrap 64 zs.
Proof.
  revert fuel h z. induction L as [|e L IH]; intros fuel h z Hc Hn HG Ht Hd Hal Hf.
  - exists z. cbn in Hd. apply dom_empty_inv_L in Hd as ->. unfold total in Hal. cbn in Hal. rewrite Z.add_0_r in Hal. by destruct fuel.
  - destruct fuel as [|fuel]; [cbn in Hf; lia|]. cbn [head fmap option_fmap option_map free_loop].
    apply Forall_cons in Ht as [He Ht]. rewrite (get_level_cells _ _ _ _ e O Hc) by (left || lia). cbn [mbind option_bind].
    unfold zslFreeNode. rewrite (cells_lookup _ _ _ _ e Hc) by left. cbn [mbind option_bind node_of n_usable].
    apply Forall_cons in Hc as [_ Hc]. cbn in Hn. apply NoDup_cons in Hn as [Hna Hn]. apply linked_at_cons in HG as [HG1 HG].
    destruct (HG1 He) as [-> _]. rewrite first_head by done. apply IH; try done.
    + by apply cells_release.
    + by apply dom_release.
    + cbn [z_alloc_size]. rewrite Hal. unfold uwrap. rewrite Zminus_mod_idemp_l. f_equal. unfold total. cbn. lia.
    + cbn in Hf. lia.
Qed.

(** The counter of memory ends at the size of the structure, which the code
    asserts. *)
Lemma zslFree_spec zs h z L : repr zs h z L -> exists z', zslFree h z = Some (∅, z') /\ z_alloc_size z' = uwrap 64 zs.
Proof.
  intros [(hd & G & B & [Hc Hn HG Hhd Hne H32 Hok HB Htail Hlen Hlev] & Hdom & Hal) _ _ _]. unfold zslFree. rewrite <- Hhd.
  rewrite (get_level_cells _ _ _ _ hd O Hc) by (left || (rewrite H32; unfold ZSKIPLIST_MAXLEVEL; lia)). cbn [mbind option_bind].
  unfold zslFreeNode. rewrite (cells_lookup _ _ _ _ hd Hc) by left. cbn [mbind option_bind node_of n_usable].
  pose proof (tall_ok _ Hok) as Ht. destruct (HG O [] hd L eq_refl) as [-> _]; [rewrite H32; unfold ZSKIPLIST_MAXLEVEL; lia|].
  rewrite first_head by done. apply Forall_cons in Hc as [_ Hc]. cbn in Hn. apply NoDup_cons in Hn as [Hna Hn].
  pose proof (dom_release h hd L Hdom Hna) as Hd'.
  apply (free_loop_spec _ _ _ L G B); try done.
  - by apply cells_release.
  - apply (linked_at_app_r _ _ [hd]), HG.
  - cbn [z_alloc_size]. rewrite Hal. unfold uwrap. rewrite Zminus_mod_idemp_l. f_equal. unfold total. cbn. lia.
  - rewrite <- size_dom, Hd', size_list_to_set by done. by rewrite length_map.
Qed.

(** ** Theorems *)

(** C11: insertion puts the element at its place in the order of score and
    element, whatever height the random numbers give, keeps the skip list well
    formed, and deleting the node it returns gives back the former entries. *)
Theorem zslInsert_correct zs h z L rs a usable junk score ele lv rs' :
  repr zs h z L -> a ∉ dom h -> isnan score = false -> ele ∉ map snd (map itm L) ->
  zslRandomLevel rs = Some (lv, rs') -> zlen L + 2 < 2 ^ 63 ->
  exists h' z' L', zslInsert h z rs a usable junk score ele = Some (h', z', a, rs') /\ repr zs h' z' L' /\
    map itm L' = ins (score, ele) (map itm L) /\
    exists h'' z'', zslDelete h' z' a = Some (h'', z'') /\ repr zs h'' z'' L.
Proof.
  intros Hr Ha Hn He Hl Hb.
  destruct (zslInsert_spec zs h z L rs a usable junk score ele lv rs' Hr Ha Hn He Hl)
    as (h' & z' & L1 & nd & L2 & E & Hr' & -> & <- & Hi & Hm & _); [lia|].
  exists h', z', (L1 ++ nd :: L2). split_and!; try done. apply zslDelete_spec; [done|].
  rewrite length_app in *. cbn [length]. lia.
Qed.

(** A change of score moves the node to its new place (or leaves it where
    it is when its neighbours allow): the node keeps its address and its
    element, the other nodes are kept in order and the result is sorted. *)
Theorem zslUpdateScore_correct zs h z L1 nd L2 s :
  repr zs h z (L1 ++ nd :: L2) -> isnan s = false -> zlen (L1 ++ nd :: L2) + 1 < 2 ^ 63 ->
  exists h' z' M1 M2, zslUpdateScore h z (e_addr nd) s = Some (h', z') /\
    repr zs h' z' (M1 ++ with_score s nd :: M2) /\ M1 ++ M2 = L1 ++ L2 /\
    map itm (M1 ++ with_score s nd :: M2) = ins (s, (itm nd).2) (map itm (L1 ++ L2)).
Proof. apply zslUpdateScore_spec. Qed.

(** C15: freeing a skip list releases every cell once: the walk reads no freed
    cell, the heap is empty after it, and the account of allocated bytes is
    back at the size of the list header. *)
Theorem zslFree_correct zs h z L :
  repr zs h z L -> exists z', zslFree h z = Some (∅, z') /\ z_alloc_size z' = uwrap 64 zs.
Proof. apply zslFree_spec. Qed.
End Model.

(** *** Examples over binary64 *)

Definition one : double := S754_finite false 4503599627370496 (-52).
Definition two : double := S754_finite false 4503599627370496 (-51).
Definition three : double := S754_finite false 6755399441055744 (-51).
Definition no_level (i : nat) : zskiplistLevel := Level None 0.

Lemma fresh_2 : 2 ∉ dom (zslCreate 1 100 24).1.
Proof. by apply not_elem_of_dom. Qed.

Lemma one_entry : exists h z nd,
  zslInsert (zslCreate 1 100 24).1 (zslCreate 1 100 24).2 [2147483647] 2 60 no_level one [97] = Some (h, z, 2, []) /\
  repr 24 h z [nd] /\ e_addr nd = 2 /\ itm nd = (one, [97]) /\ dom h = {[2; 1]}.
Proof.
  destruct (zslInsert_spec 24 (zslCreate 1 100 24).1 (zslCreate 1 100 24).2 [] [2147483647] 2 60 no_level one [97] 1 [])
    as (h & z & L1 & nd & L2 & E & Hr & HL & Ha & Hi & _ & Hd); try done; [apply zslCreate_spec|apply not_elem_of_nil|].
  symmetry in HL. apply app_eq_nil in HL as [-> ->]. by exists h, z, nd.
Qed.

Lemma two_entries : exists h z L, repr 24 h z L /\ map itm L = [(one, [97]); (two, [98])].
Proof.
  destruct one_entry as (h & z & nd & _ & Hr & Ha & Hi & Hd).
  destruct (zslInsert_spec 24 h z [nd] [0; 2147483647] 3 60 no_level two [98] 2 [])
    as (h' & z' & L1 & nd' & L2 & E & Hr' & HL & Ha' & Hi' & Hm & Hd'); try done.
  - rewrite Hd. clear. set_solver.
  - change (map snd (map itm [nd])) with [(itm nd).2]. rewrite Hi. clear. set_solver.
  - exists h', z', (L1 ++ nd' :: L2). split; [done|]. rewrite Hm. cbn [map ins]. by rewrite Hi.
Qed.

Lemma zslInsert_correct_witness : exists h z L,
  zslInsert (zslCreate 1 100 24).1 (zslCreate 1 100 24).2 [0; 2147483647] 2 60 no_level one [97] = Some (h, z, 2, []) /\
  repr 24 h z L /\ map itm L = [(one, [97])] /\
  exists h'' z'', zslDelete h z 2 = Some (h'', z'') /\ repr 24 h'' z'' [].
Proof.
  apply (zslInsert_correct 24 (zslCreate 1 100 24).1 (zslCreate 1 100 24).2 [] [0; 2147483647] 2 60 no_level one [97] 2 []);
    try reflexivity; [apply zslCreate_spec|apply fresh_2|apply not_elem_of_nil].
Defined.

Lemma zslUpdateScore_correct_witness : exists h z h' z' a L', zslUpdateScore h z a three = Some (h', z') /\
  repr 24 h' z' L' /\ map itm L' = [(two, [98]); (three, [97])].
Proof.
  destruct two_entries as (h & z & [|e1 [|e2 [|]]] & Hr & Hm); try discriminate.
  cbn [map] in Hm. apply (inj2 cons) in Hm as [H1 Hm]. apply (inj2 cons) in Hm as [H2 _].
  destruct (zslUpdateScore_correct 24 h z [] e1 [e2] three Hr) as (h' & z' & M1 & M2 & E & Hr' & _ & Hm'); [reflexivity|cbn; lia|].
  exists h, z, h', z', (e_addr e1), (M1 ++ with_score three e1 :: M2). split_and!; [exact E|exact Hr'|].
  rewrite Hm'. cbn [app map]. rewrite H1, H2. reflexivity.
Defined.

Lemma zslFree_correct_witness : exists z', zslFree (zslCreate 1 100 24).1 (zslCreate 1 100 24).2 = Some (∅, z') /\
  z_alloc_size z' = uwrap 64 24.
Proof. apply (zslFree_correct 24 _ _ []). apply zslCreate_spec. Defined.
End SortedSet.
