(* ===== verification/ZslRange.v ===== *)
(** * Ranks and ranges of skip lists ([t_zset.c])

    Ranks of elements and elements of ranks, the n-th element of a range of
    scores or of strings, and the deletion of ranges, which also removes the
    elements from the dictionary of the sorted set. *)

From stdpp Require Import gmap sorting.
From S2P Require Import Prelude.
From S2P Require Import Sds.
From S2P Require Import Skiplist.
From S2P Require Import SortedSet.
Import Skiplist SortedSet.

Module ZslRange.
Section Model.
Context {SC : Score}.
Abbreviation heap := (gmap addr zskiplistNode).

(** ** Ranks *)

(** [zslCompareWithNode(score, ele, forward) >= 0] *)
Definition not_after (h : heap) (score : double) (ele : list Z) : Z -> addr -> option bool := fun _ y =>
  c ← zslCompareWithNode h score ele (Some y); Some (0 <=? c).

Fixpoint rank_loop (n : nat) (h : heap) (z : zskiplist) (score : double) (ele : list Z) (x : addr) (rank : Z)
    : option Z :=
  match n with
  | O => Some 0
  | S i =>
    '(x, rank) ← walk (size h) (not_after h score ele) h i x rank;
    found ← (if x =? z_header z then Some false
             else c ← zslCompareWithNode h score ele (Some x); Some (c =? 0));
    if found : bool then Some rank else rank_loop i h z score ele x rank
  end.

Definition zslGetRank (h : heap) (z : zskiplist) (score : double) (ele : list Z) : option Z :=
  rank_loop (z_level z) h z score ele (z_header z) 0.

Fixpoint distance_to_end (fuel : nat) (h : heap) (x : option addr) (distance : Z) : option Z :=
  match x with
  | None => Some distance
  | Some a =>
    match fuel with
    | O => None
    | S fuel =>
      n ← h !! a;
      let level := (n_levels n - 1)%nat in
      sp ← zslGetNodeSpanAtLevel h a level;
      l ← get_level h a level;
      distance_to_end fuel h (forward l) (uwrap 64 (distance + sp))
    end
  end.

Definition zslGetRankByNode (h : heap) (z : zskiplist) (x : addr) : option Z :=
  d ← distance_to_end (size h) h (Some x) 0;
  Some (uwrap 64 (z_length z - d)).

Fixpoint element_loop (n : nat) (h : heap) (x : addr) (traversed rank : Z) : option (option addr) :=
  match n with
  | O => Some None
  | S i =>
    '(x, traversed) ← walk (size h) (fun r _ => Some (r <=? rank)) h i x traversed;
    if traversed =? rank then Some (Some x) else element_loop i h x traversed rank
  end.

Definition zslGetElementByRankFromNode (h : heap) (start_node : addr) (start_level : nat) (rank : Z)
    : option (option addr) :=
  element_loop (S start_level) h start_node 0 rank.

Definition zslGetElementByRank (h : heap) (z : zskiplist) (rank : Z) : option (option addr) :=
  zslGetElementByRankFromNode h (z_header z) (z_level z - 1) rank.

(** ** Ranges *)

Record zrangespec := Rangespec { r_min : double; r_max : double; r_minex : bool; r_maxex : bool }.

Definition zslValueGteMin (value : double) (spec : zrangespec) : bool :=
  if r_minex spec then dlt (r_min spec) value else dle (r_min spec) value.
Definition zslValueLteMax (value : double) (spec : zrangespec) : bool :=
  if r_maxex spec then dlt value (r_max spec) else dle value (r_max spec).

(** A bound of a range of strings: [shared.minstring], [shared.maxstring] or
    a string. *)
Inductive lexbound := MINSTRING | MAXSTRING | STRING (s : list Z).

Record zlexrangespec := Lexrangespec { l_min : lexbound; l_max : lexbound; l_minex : bool; l_maxex : bool }.

(** An argument of a command: its encoding and its value. *)
Inductive robj := OBJ_INT (v : Z) | OBJ_STR (s : list Z).

(** [strtod] and [of_long]: the conversions of a string, with the rest that
    is not part of the number, and of an integer. *)
Definition parse_bound (strtod : list Z -> double * list Z) (of_long : Z -> double) (o : robj)
    : option (double * bool) :=
  match o with
  | OBJ_INT v => Some (of_long v, false)
  | OBJ_STR s =>
    let '(ex, s) := match s with 40 :: s => (true, s) | _ => (false, s) end in
    let '(v, rest) := strtod s in
    if negb (default 0 (head rest) =? 0) || isnan v then None else Some (v, ex)
  end.

Definition zslParseRange (strtod : list Z -> double * list Z) (of_long : Z -> double) (min max : robj)
    : option zrangespec :=
  '(vmin, minex) ← parse_bound strtod of_long min;
  '(vmax, maxex) ← parse_bound strtod of_long max;
  Some (Rangespec vmin vmax minex maxex).

Definition zslParseLexRangeItem (c : list Z) : option (lexbound * bool) :=
  let c0 := default 0 (c !! 0%nat) in
  let c1 := default 0 (c !! 1%nat) in
  if c0 =? 43 then if negb (c1 =? 0) then None else Some (MAXSTRING, true)
  else if c0 =? 45 then if negb (c1 =? 0) then None else Some (MINSTRING, true)
  else if c0 =? 40 then Some (STRING (drop 1 c), true)
  else if c0 =? 91 then Some (STRING (drop 1 c), false)
  else None.

Definition zslParseLexRange (min max : robj) : option zlexrangespec :=
  match min, max with
  | OBJ_STR min, OBJ_STR max =>
    '(vmin, minex) ← zslParseLexRangeItem min;
    '(vmax, maxex) ← zslParseLexRangeItem max;
    Some (Lexrangespec vmin vmax minex maxex)
  | _, _ => None
  end.

Definition sdscmplex (a b : lexbound) : Z :=
  match a, b with
  | MINSTRING, MINSTRING | MAXSTRING, MAXSTRING => 0
  | MINSTRING, _ | _, MAXSTRING => -1
  | MAXSTRING, _ | _, MINSTRING => 1
  | STRING a, STRING b => sdscmp a b
  end.

Definition zslLexValueGteMin (value : list Z) (spec : zlexrangespec) : bool :=
  let c := sdscmplex (STRING value) (l_min spec) in if l_minex spec then 0 <? c else 0 <=? c.
Definition zslLexValueLteMax (value : list Z) (spec : zlexrangespec) : bool :=
  let c := sdscmplex (STRING value) (l_max spec) in if l_maxex spec then c <? 0 else c <=? 0.

(** The code for the two kinds of range is the same but for the tests of a
    node against the bounds, [gte] and [lte]. *)
Section Range.
Context (gte lte : heap -> addr -> option bool).

(** [zslIsInRange] after the test for empty ranges. *)
Definition touches (h : heap) (z : zskiplist) : option bool :=
  match z_tail z with
  | None => Some false
  | Some t =>
    b ← gte h t;
    if negb b then Some false
    else
      l ← get_level h (z_header z) 0;
      match forward l with
      | None => Some false
      | Some x => lte h x
      end
  end.

Definition below (h : heap) : Z -> addr -> option bool := fun _ y => b ← gte h y; Some (negb b).
Definition within (h : heap) : Z -> addr -> option bool := fun _ y => lte h y.

(** [for (i = n-1; i >= 0; i--)], going forward at every level. *)
Fixpoint descend (n : nat) (cond : Z -> addr -> option bool) (h : heap) (x : addr) (rank : Z)
    : option (addr * Z) :=
  match n with
  | O => Some (x, rank)
  | S i => '(x, rank) ← walk (size h) cond h i x rank; descend i cond h x rank
  end.

Fixpoint forward_steps (k : nat) (h : heap) (x : addr) : option (option addr) :=
  match k with
  | O => Some (Some x)
  | S O => l ← get_level h x 0; Some (forward l)
  | S k => l ← get_level h x 0; y ← forward l; forward_steps k h y
  end.

Fixpoint backward_steps (k : nat) (h : heap) (x : option addr) : option (option addr) :=
  match k with
  | O => Some x
  | S k => a ← x; n ← h !! a; backward_steps k h (n_backward n)
  end.

(** The node and its rank. *)
Definition nth_in_range (isin : option bool) (h : heap) (z : zskiplist) (n : Z) : option (option (addr * Z)) :=
  isin ← isin;
  if negb isin then Some None
  else
    '(hx, hr) ← walk (size h) (below h) h (z_level z - 1) (z_header z) 0;
    if 0 <=? n then
      '(x, edge_rank) ← descend (z_level z - 1) (below h) h hx hr;
      if z_length z <=? uwrap 64 (edge_rank + n) then Some None
      else
        x ← (if n <? ZSKIPLIST_MAX_SEARCH then forward_steps (Z.to_nat (n + 1)) h x
             else zslGetElementByRankFromNode h hx (z_level z - 1) (uwrap 64 (edge_rank + 1 + n - hr)));
        match x with
        | None => Some None
        | Some x => b ← lte h x; Some (if b : bool then Some (x, uwrap 64 (edge_rank + n + 1)) else None)
        end
    else
      '(x, edge_rank) ← descend (z_level z) (within h) h hx hr;
      if edge_rank <? swrap 64 (- n) then Some None
      else
        x ← (if - ZSKIPLIST_MAX_SEARCH <? n + 1 then backward_steps (Z.to_nat (- n - 1)) h (Some x)
             else zslGetElementByRankFromNode h hx (z_level z - 1) (uwrap 64 (edge_rank + 1 + n - hr)));
        match x with
        | None => Some None
        | Some x => b ← gte h x; Some (if b : bool then Some (x, uwrap 64 (edge_rank + n + 1)) else None)
        end.
End Range.

Definition score_gte (range : zrangespec) (h : heap) (x : addr) : option bool :=
  n ← h !! x; Some (zslValueGteMin (n_score n) range).
Definition score_lte (range : zrangespec) (h : heap) (x : addr) : option bool :=
  n ← h !! x; Some (zslValueLteMax (n_score n) range).
Definition lex_gte (range : zlexrangespec) (h : heap) (x : addr) : option bool :=
  e ← zslGetNodeElement h x; Some (zslLexValueGteMin e range).
Definition lex_lte (range : zlexrangespec) (h : heap) (x : addr) : option bool :=
  e ← zslGetNodeElement h x; Some (zslLexValueLteMax e range).

Definition zslIsInRange (h : heap) (z : zskiplist) (range : zrangespec) : option bool :=
  if dlt (r_max range) (r_min range) || (deq (r_min range) (r_max range) && (r_minex range || r_maxex range))
  then Some false
  else touches (score_gte range) (score_lte range) h z.

Definition zslIsInLexRange (h : heap) (z : zskiplist) (range : zlexrangespec) : option bool :=
  let cmp := sdscmplex (l_min range) (l_max range) in
  if (0 <? cmp) || ((cmp =? 0) && (l_minex range || l_maxex range)) then Some false
  else touches (lex_gte range) (lex_lte range) h z.

Definition zslNthInRange (h : heap) (z : zskiplist) (range : zrangespec) (n : Z) : option (option (addr * Z)) :=
  nth_in_range (score_gte range) (score_lte range) (zslIsInRange h z range) h z n.
Definition zslNthInLexRange (h : heap) (z : zskiplist) (range : zlexrangespec) (n : Z) : option (option (addr * Z)) :=
  nth_in_range (lex_gte range) (lex_lte range) (zslIsInLexRange h z range) h z n.

(** ** Deletion of ranges *)

(** The dictionary of the sorted set, from elements to nodes. *)
Abbreviation dict := (gmap (list Z) addr).

(** [while (x && go) { ... removed++; }] *)
Fixpoint delete_loop (fuel : nat) (go : Z -> heap -> addr -> option bool) (h : heap) (z : zskiplist) (d : dict)
    (update : list addr) (x : option addr) (removed : Z) : option (heap * zskiplist * dict * Z) :=
  match x with
  | None => Some (h, z, d, removed)
  | Some a =>
    b ← go removed h a;
    if negb b then Some (h, z, d, removed)
    else
      match fuel with
      | O => None
      | S fuel =>
        next ← get_level h a 0;
        '(h, z) ← zslUnlinkNode h z a update;
        e ← zslGetNodeElement h a;
        let d := delete e d in
        '(h, z) ← zslFreeNode h z a;
        delete_loop fuel go h z d update (forward next) (uwrap 64 (removed + 1))
      end
  end.

Definition delete_from (cond : Z -> addr -> option bool) (go : Z -> Z -> heap -> addr -> option bool)
    (h : heap) (z : zskiplist) (d : dict) : option (heap * zskiplist * dict * Z) :=
  '(update, rank) ← search (z_level z) cond h (z_header z) 0;
  x ← update !! O;
  traversed ← rank !! O;
  l ← get_level h x 0;
  delete_loop (size h) (go traversed) h z d update (forward l) 0.

Definition zslDeleteRangeByScore (h : heap) (z : zskiplist) (range : zrangespec) (d : dict) :=
  delete_from (below (score_gte range) h) (fun _ _ => score_lte range) h z d.
Definition zslDeleteRangeByLex (h : heap) (z : zskiplist) (range : zlexrangespec) (d : dict) :=
  delete_from (below (lex_gte range) h) (fun _ _ => lex_lte range) h z d.
(** [traversed + 1 + removed <= end]; the ranks are passed as [unsigned int]. *)
Definition zslDeleteRangeByRank (h : heap) (z : zskiplist) (start end_ : Z) (d : dict) :=
  let start := uwrap 32 start in
  let end_ := uwrap 32 end_ in
  delete_from (fun r _ => Some (r <? start))
    (fun traversed removed _ _ => Some (uwrap 64 (traversed + 1 + removed) <=? end_)) h z d.

(** ** Ranks: proofs *)

Abbreviation low i := (Forall (fun e => (e_height e <= i)%nat)).
Abbreviation tall := (Forall (fun e => (1 <= e_height e)%nat)).
Abbreviation levels_fn := (addr -> nat -> zskiplistLevel).
Abbreviation back_fn := (addr -> option addr).
Abbreviation item := (double * list Z)%type.
Abbreviation number x := (isnan x.1 = false).

(** What the searches need to know of a list of cells that starts with [N1]. *)
Record searchable (h : heap) (N : list ent) (top : nat) (G : levels_fn) (B : back_fn) : Prop := {
  c_cells : cells h N G B;
  c_nodup : NoDup (map e_addr N);
  c_len : zlen N < 2 ^ 63;
  c_linked : forall i, (i < top)%nat -> linked_at top i N G;
  c_tall : tall N;
}.

Lemma shape_searchable h z hd L G B :
  shape h z hd L G B -> zlen L + 1 < 2 ^ 63 -> searchable h (hd :: L) (z_level z) G B.
Proof.
  intros [Hc Hn HG Hhd Hne H32 Hok HB Htail Hlen Hlev] Hb. constructor; try done.
  - cbn [length]. lia.
  - constructor; [rewrite H32; unfold ZSKIPLIST_MAXLEVEL; lia|by apply tall_ok].
Qed.

(** A search may start at any node. *)
Lemma searchable_suffix h pre N top G B : searchable h (pre ++ N) top G B -> searchable h N top G B.
Proof.
  intros [Hc Hn Hl HG Ht]. apply Forall_app in Hc as [_ Hc], Ht as [_ Ht]. rewrite map_app in Hn.
  apply NoDup_app in Hn as (_ & _ & Hn). rewrite length_app in Hl. constructor; try done; [lia|].
  intros i Hi. by apply (linked_at_app_r _ _ pre), HG.
Qed.

Lemma walk_to h N1 L2 top G B cond i pre e suf :
  searchable h (N1 ++ L2) top G B -> splits cond N1 L2 -> N1 = pre ++ e :: suf -> (i < e_height e)%nat -> (i < top)%nat ->
  exists pre' e' suf', N1 = pre' ++ e' :: suf' /\ (i < e_height e')%nat /\ low i suf' /\
    walk (size h) cond h i (e_addr e) (zlen pre) = Some (e_addr e', zlen pre').
Proof.
  intros [Hc Hn Hl HG Ht] Hsp HN Hi Hit. apply (walk_spec h N1 L2 G B top) with (suf := suf); try done.
  pose proof (cells_size h N1 L2 G B Hc Hn) as Hsz. rewrite HN, !length_app in Hsz. cbn [length] in Hsz. lia.
Qed.

Lemma low_0 (suf : list ent) : low 0 suf -> tall suf -> suf = [].
Proof. destruct suf as [|x suf]; [done|]. intros [H _]%Forall_cons [H' _]%Forall_cons. lia. Qed.

Lemma tall_suffix h N1 L2 top G B pre e suf :
  searchable h (N1 ++ L2) top G B -> N1 = pre ++ e :: suf -> tall suf.
Proof.
  intros [_ _ _ _ Ht] ->. apply Forall_app in Ht as [Ht _]. apply Forall_app in Ht as [_ Ht]. by apply Forall_cons in Ht as [_ ?].
Qed.

Lemma descend_spec h N1 L2 top G B cond n pre e suf :
  searchable h (N1 ++ L2) top G B -> splits cond N1 L2 -> N1 = pre ++ e :: suf ->
  (n <= e_height e)%nat -> (n <= top)%nat ->
  exists pre' e' suf', N1 = pre' ++ e' :: suf' /\ ((1 <= n)%nat -> suf' = []) /\ (n = O -> e' = e /\ pre' = pre) /\
    descend n cond h (e_addr e) (zlen pre) = Some (e_addr e', zlen pre').
Proof.
  intros Hs Hsp. revert pre e suf. induction n as [|n IH]; intros pre e suf HN Hi Ht.
  { exists pre, e, suf. split_and!; try done. lia. }
  destruct (walk_to h N1 L2 top G B cond n pre e suf) as (p1 & e1 & s1 & HN1 & Hi1 & Hl1 & E1); try done; try lia.
  destruct (IH p1 e1 s1) as (p2 & e2 & s2 & HN2 & Hs2 & H0 & E2); try done; try lia.
  exists p2, e2, s2. cbn [descend]. rewrite E1. cbn [mbind option_bind]. split_and!; try done.
  intros _. destruct n as [|n]; [|apply Hs2; lia]. destruct (H0 eq_refl) as [-> ->].
  assert (s2 = s1) as -> by (rewrite HN2 in HN1; by simplify_list_eq).
  by eapply low_0, tall_suffix.
Qed.

(** *** The rank of an element *)

Definition ieq (a b : item) : bool := negb (ilt a b) && negb (ilt b a).

Lemma not_after_splits h hd L1 L2 G B score ele :
  cells h (hd :: L1 ++ L2) G B -> Forall ent_ok (L1 ++ L2) ->
  Forall (fun e => ilt (score, ele) (itm e) = false) L1 -> Forall (fun e => ilt (score, ele) (itm e) = true) L2 ->
  splits (not_after h score ele) (hd :: L1) L2.
Proof.
  intros Hc Hok H1 H2. rewrite Forall_forall in Hok. apply (splits_by _ (fun e => negb (ilt (score, ele) (itm e)))).
  - intros e r He. destruct (compare_spec h (hd :: L1 ++ L2) G B e score ele) as (c & E & _ & Hc1);
      [done|by right|by apply Hok|]. unfold not_after. rewrite E. cbn. f_equal.
    destruct (Z.leb_spec 0 c) as [Hp|Hp]; [|by rewrite (proj1 Hc1 Hp)].
    destruct (ilt (score, ele) (itm e)) eqn:Hi; [|done]. pose proof (proj2 Hc1 eq_refl). lia.
  - eapply Forall_impl; [exact H1|]. cbn. by intros e ->.
  - eapply Forall_impl; [exact H2|]. cbn. by intros e ->.
Qed.

Lemma compare_zero h E G B e score ele :
  cells h E G B -> e ∈ E -> is_Some (e_ele e) ->
  exists c, zslCompareWithNode h score ele (Some (e_addr e)) = Some c /\ (c =? 0) = ieq (itm e) (score, ele).
Proof.
  intros Hc He Hel. destruct (compare_spec h E G B e score ele Hc He Hel) as (c & Ec & H1 & H2). exists c. split; [done|].
  unfold ieq. destruct (Z.eqb_spec c 0) as [->|Hne].
  - destruct (ilt (itm e) (score, ele)); [pose proof (proj2 H1 eq_refl); lia|].
    destruct (ilt (score, ele) (itm e)); [pose proof (proj2 H2 eq_refl); lia|done].
  - destruct (Z.lt_ge_cases 0 c) as [Hp|Hp]; [by rewrite (proj1 H1 Hp)|].
    rewrite (proj1 H2) by lia. by rewrite andb_false_r.
Qed.

Section Rank.
Context (h : heap) (z : zskiplist) (hd : ent) (L1 L2 : list ent) (G : levels_fn) (B : back_fn).
Context (score : double) (ele : list Z).
Context (Hsh : shape h z hd (L1 ++ L2) G B) (Hb : zlen (L1 ++ L2) + 1 < 2 ^ 63).
Context (H1 : Forall (fun e => ilt (score, ele) (itm e) = false) L1).
Context (H2 : Forall (fun e => ilt (score, ele) (itm e) = true) L2).
Abbreviation hit e := (ieq (itm e) (score, ele)).

(** One round of the loop stops at the last entry of [L1] that is high enough. *)
Lemma rank_step i pre e suf : hd :: L1 = pre ++ e :: suf -> (i < e_height e)%nat -> (i < z_level z)%nat ->
  exists pre' e' suf', hd :: L1 = pre' ++ e' :: suf' /\ (i < e_height e')%nat /\ (i = O -> suf' = []) /\
    rank_loop (S i) h z score ele (e_addr e) (zlen pre)
    = if bool_decide (pre' <> []) && hit e' then Some (zlen pre')
      else rank_loop i h z score ele (e_addr e') (zlen pre').
Proof using All.
  intros HN Hi Hit. pose proof (shape_searchable _ _ _ _ _ _ Hsh Hb) as Hse.
  destruct Hsh as [Hc Hn HG Hhd Hne H32 Hok HB Htail Hlen Hlev].
  destruct (walk_to h (hd :: L1) L2 (z_level z) G B (not_after h score ele) i pre e suf)
    as (p1 & e1 & s1 & HN1 & Hi1 & Hl1 & E1); try done; [by eapply not_after_splits|].
  exists p1, e1, s1. split_and!; try done.
  { intros ->. by eapply low_0, (tall_suffix h (hd :: L1) L2). }
  cbn [rank_loop]. rewrite E1. cbn [mbind option_bind]. destruct p1 as [|e0 p1]; cbn [app] in *; simplify_eq.
  - rewrite Hhd, Z.eqb_refl. cbn. done.
  - assert (e1 ∈ (p1 ++ e1 :: s1) ++ L2) as He1 by (apply elem_of_app; left; apply elem_of_app; right; left).
    rewrite (proj2 (Z.eqb_neq _ _)).
    2: { rewrite <- Hhd. intros Ha. apply NoDup_cons in Hn as [Hn _]. apply Hn. rewrite <- Ha. by apply list_elem_of_fmap_2. }
    destruct (compare_zero h (e0 :: (p1 ++ e1 :: s1) ++ L2) G B e1 score ele) as (c & -> & Hc0);
      [done|by right|rewrite Forall_forall in Hok; by apply Hok|].
    cbn [mbind option_bind]. rewrite Hc0. done.
Qed.

Lemma rank_absent n pre e suf : hd :: L1 = pre ++ e :: suf -> (n <= e_height e)%nat -> (n <= z_level z)%nat ->
  Forall (fun e => hit e = false) L1 -> rank_loop n h z score ele (e_addr e) (zlen pre) = Some 0.
Proof using All.
  intros HN Hi Ht Hno. revert pre e suf HN Hi. induction n as [|n IH]; intros pre e suf HN Hi; [done|].
  destruct (rank_step n pre e suf HN) as (p & e' & s & HN' & Hi' & _ & ->); [lia..|].
  destruct p as [|e0 p]; [apply (IH ltac:(lia) [] e' s); try done; lia|].
  assert (hit e' = false) as ->.
  { rewrite Forall_forall in Hno. apply Hno. cbn [app] in HN'. injection HN' as _ ->. apply elem_of_app. right. left. }
  rewrite andb_false_r. apply (IH ltac:(lia) (e0 :: p) e' s); try done; lia.
Qed.

Lemma rank_present n pre e suf L0 nd : hd :: L1 = pre ++ e :: suf -> (1 <= n)%nat -> (n <= e_height e)%nat ->
  (n <= z_level z)%nat -> L1 = L0 ++ [nd] -> hit nd = true -> Forall (fun e => hit e = false) L0 ->
  rank_loop n h z score ele (e_addr e) (zlen pre) = Some (zlen L1).
Proof using All.
  intros HN Hn Hi Ht HL Hnd Hno. revert pre e suf HN Hi. induction n as [|n IH]; intros pre e suf HN Hi; [lia|].
  destruct (rank_step n pre e suf HN) as (p & e' & s & HN' & Hi' & Hlast & ->); [lia..|].
  destruct s as [|y s _] using rev_ind.
  - assert (p = hd :: L0 /\ e' = nd) as [-> ->].
    { rewrite HL in HN'. change (hd :: L0 ++ [nd]) with ((hd :: L0) ++ [nd]) in HN'. by apply app_inj_tail in HN' as [<- <-]. }
    rewrite Hnd, HL, length_app. cbn [length]. cbn. f_equal. lia.
  - assert (n <> O) as Hn0 by (intros ->; specialize (Hlast eq_refl); by apply app_nil in Hlast as [_ ?]).
    destruct p as [|e0 p]; [apply (IH ltac:(lia) ltac:(lia) [] e' (s ++ [y])); try done; lia|].
    assert (hit e' = false) as ->.
    { rewrite Forall_forall in Hno. apply Hno. cbn [app] in HN'. injection HN' as _ HN'. rewrite HL in HN'.
      change (e' :: s ++ [y]) with ((e' :: s) ++ [y]) in HN'. rewrite app_assoc in HN'.
      apply app_inj_tail in HN' as [-> _]. apply elem_of_app. right. left. }
    rewrite andb_false_r. apply (IH ltac:(lia) ltac:(lia) (e0 :: p) e' (s ++ [y])); try done; lia.
Qed.
End Rank.

Abbreviation sorted := (StronglySorted (fun a b => ilt a b = true)).
Abbreviation numbers := (Forall (fun x : item => number x)).

(** The entries not after an item: at most the last of them is equal to it. *)
Lemma rank_split L x : sorted (map itm L) -> numbers (map itm L) -> number x ->
  exists L1 L2, L = L1 ++ L2 /\ Forall (fun e => ilt x (itm e) = false) L1 /\ Forall (fun e => ilt x (itm e) = true) L2 /\
    (Forall (fun e => ieq (itm e) x = false) L1 \/
     exists L0 nd, L1 = L0 ++ [nd] /\ ieq (itm nd) x = true /\ Forall (fun e => ieq (itm e) x = false) L0).
Proof.
  intros Hs Hn Hx. destruct (sorted_split itm (fun e => negb (ilt x (itm e))) L Hs) as (L1 & L2 & -> & H1 & H2).
  { rewrite Forall_forall in Hn. intros a b Ha Hb Hab Hlt. apply negb_true_iff in Hlt. apply negb_true_iff.
    apply not_true_is_false. intros H. rewrite (ilt_trans x (itm a) (itm b)) in Hlt; try done;
    apply Hn; by apply list_elem_of_fmap_2. }
  exists L1, L2. split; [done|]. split; [eapply Forall_impl; [exact H1|]; cbn; intros e; by destruct (ilt x (itm e))|].
  split; [eapply Forall_impl; [exact H2|]; cbn; intros e; by destruct (ilt x (itm e))|].
  rewrite map_app in Hs, Hn. apply Forall_app in Hn as [Hn _].
  destruct L1 as [|nd L0 _] using rev_ind; [left; constructor|].
  assert (Forall (fun e => ieq (itm e) x = false) L0) as H0.
  { rewrite map_app in Hs, Hn. cbn in Hs, Hn. rewrite <- app_assoc in Hs. destruct (sorted_drop _ _ _ Hs) as (_ & Hlt & _).
    apply Forall_app in Hn as [Hn0 Hnd], H1 as [_ H1]. apply Forall_cons in Hnd as [Hnd _], H1 as [H1 _].
    apply Forall_map in Hlt, Hn0. rewrite Forall_forall in *. intros e He. unfold ieq. apply andb_false_iff. left.
    apply negb_false_iff. destruct (ilt_weak (itm e) x (itm nd)) as [?|H]; try done; [by apply Hn0|by apply Hlt|].
    apply negb_true_iff in H1. congruence. }
  destruct (ieq (itm nd) x) eqn:E; [right; by exists L0, nd|left]. apply Forall_app. by split; [|constructor].
Qed.

(** The position of an item, from 1; 0 when it is not in the list. *)
Fixpoint rank_of (x : item) (l : list item) : Z :=
  match l with
  | [] => 0
  | y :: l => if ieq y x then 1 else let r := rank_of x l in if r =? 0 then 0 else r + 1
  end.

Lemma rank_of_absent x l : Forall (fun y => ieq y x = false) l -> rank_of x l = 0.
Proof. induction 1 as [|y l Hy _ IH]; cbn [rank_of]; [done|]. by rewrite Hy, IH. Qed.

Lemma rank_of_present x l0 y l : Forall (fun y => ieq y x = false) l0 -> ieq y x = true ->
  rank_of x (l0 ++ y :: l) = zlen l0 + 1.
Proof.
  intros H0 Hy. induction H0 as [|w l0 Hw _ IH]; cbn [app rank_of]; [by rewrite Hy|].
  rewrite Hw, IH, (proj2 (Z.eqb_neq _ _)) by lia. cbn [length]. lia.
Qed.

Lemma ieq_after x e : ilt x (itm e) = true -> ieq (itm e) x = false.
Proof. intros H. unfold ieq. rewrite H. by rewrite andb_false_r. Qed.

Lemma zslGetRank_spec zs h z L score ele :
  repr zs h z L -> isnan score = false -> zlen L + 1 < 2 ^ 63 ->
  zslGetRank h z score ele = Some (rank_of (score, ele) (map itm L)).
Proof.
  intros [(hd & G & B & Hsh & _ & _) Hs Hn Hd] Hnan Hb.
  destruct (rank_split L (score, ele) Hs Hn Hnan) as (L1 & L2 & -> & H1 & H2 & Hcase).
  assert (Forall (fun y => ieq y (score, ele) = false) (map itm L2)) as Hafter.
  { apply Forall_map. eapply Forall_impl; [exact H2|]. cbn. apply ieq_after. }
  pose proof (s_header _ _ _ _ _ _ Hsh) as Hhd. pose proof (s_maxlevel _ _ _ _ _ _ Hsh) as H32.
  pose proof (s_level _ _ _ _ _ _ Hsh) as Hlev. pose proof (top_ok _ (s_ents _ _ _ _ _ _ Hsh)) as Ht.
  pose proof (top_of_pos (L1 ++ L2)) as Hpos. unfold zslGetRank. rewrite <- Hhd. change 0 with (zlen (@nil ent)) at 1.
  destruct Hcase as [Hno|(L0 & nd & HL & Hnd & Hno)].
  - rewrite (rank_absent h z hd L1 L2 G B score ele Hsh Hb H1 H2 (z_level z) [] hd L1) by (done || lia).
    rewrite rank_of_absent; [done|]. rewrite map_app. apply Forall_app. split; [|done]. by apply Forall_map.
  - rewrite (rank_present h z hd L1 L2 G B score ele Hsh Hb H1 H2 (z_level z) [] hd L1 L0 nd) by (done || lia).
    rewrite HL, !map_app, <- app_assoc. cbn. rewrite rank_of_present; [|by apply Forall_map|done].
    rewrite length_map, length_app. cbn [length]. f_equal. lia.
Qed.

(** *** The rank of a node *)

Lemma distance_spec h N top G B fuel : searchable h N top G B ->
  forall pre e suf d, N = pre ++ e :: suf -> Forall (fun e => (e_info e = e_height e /\ e_height e <= top)%nat) (e :: suf) ->
  0 <= d -> d + zlen suf < 2 ^ 63 -> (length suf < fuel)%nat ->
  distance_to_end fuel h (Some (e_addr e)) d = Some (d + zlen suf).
Proof.
  intros Hse. induction fuel as [|fuel IH]; intros pre e suf d HN Hok Hd0 Hd Hf; [lia|].
  destruct Hse as [Hc Hn Hl HG Ht]. cbn [distance_to_end].
  assert (e ∈ N) as He by (rewrite HN; apply elem_of_app; right; left).
  assert (tall (e :: suf)) as Hts by (rewrite HN in Ht; by apply Forall_app in Ht as [_ ?]).
  apply Forall_cons in Hts as [Hte Hts], Hok as [[Hinfo Htop] Hok].
  rewrite (cells_lookup _ _ _ _ _ Hc He). cbn [mbind option_bind node_of n_levels]. rewrite Hinfo.
  assert (e_height e - 1 < e_height e)%nat as Hi by lia. assert (e_height e - 1 < top)%nat as Hit by lia.
  rewrite (getspan_spec h N G B top _ pre e suf) by auto. cbn [mbind option_bind].
  rewrite (get_level_cells _ _ _ _ _ _ Hc He Hi). cbn [mbind option_bind].
  destruct (HG _ Hit pre e suf HN Hi) as [-> _]. set (i := (e_height e - 1)%nat) in *.
  pose proof (dist_range i suf) as Hdr. rewrite uwrap_id by (unfold in_u; lia).
  destruct (low_or i suf) as [Hlow|(p & y & q & Hsuf & Hp & Hy)].
  - rewrite first_low by done. destruct fuel; cbn; by rewrite dist_low.
  - assert (first i suf = Some y) as -> by (rewrite Hsuf, <- (app_nil_r (p ++ _)); by rewrite first_high).
    assert (dist i suf = zlen p + 1) as Hdist by (rewrite Hsuf, <- (app_nil_r (p ++ _)); by rewrite dist_high).
    assert (zlen suf = zlen p + 1 + zlen q) as Hls by (rewrite Hsuf, length_app; cbn [length]; lia).
    cbn [fmap option_fmap option_map]. rewrite (IH (pre ++ e :: p) y q); [f_equal; lia| | |lia|lia|lia].
    + rewrite HN, Hsuf, <- app_assoc. done.
    + rewrite Hsuf in Hok. by apply Forall_app in Hok as [_ ?].
Qed.

Lemma zslGetRankByNode_spec zs h z L1 nd L2 :
  repr zs h z (L1 ++ nd :: L2) -> zlen (L1 ++ nd :: L2) + 1 < 2 ^ 63 ->
  zslGetRankByNode h z (e_addr nd) = Some (zlen L1 + 1).
Proof.
  intros [(hd & G & B & Hsh & _ & _) Hs Hn Hd] Hb. pose proof (shape_searchable _ _ _ _ _ _ Hsh Hb) as Hse.
  pose proof Hse as [Hc Hnd Hlen _ _]. pose proof (cells_size h [] _ G B Hc Hnd) as Hsz. cbn [app] in Hsz.
  assert (forall e, e ∈ L1 ++ nd :: L2 -> e_height e <= z_level z)%nat as Htop.
  { intros e He. rewrite (s_level _ _ _ _ _ _ Hsh). pose proof (top_of_low (L1 ++ nd :: L2)) as H.
    rewrite Forall_forall in H. by apply H. }
  unfold zslGetRankByNode. rewrite !length_app in Hb. cbn [length] in Hb, Hsz. rewrite length_app in Hsz. cbn [length] in Hsz.
  rewrite (distance_spec h (hd :: L1 ++ nd :: L2) (z_level z) G B (size h) Hse (hd :: L1) nd L2); try done; try lia.
  - cbn [mbind option_bind]. rewrite (s_length _ _ _ _ _ _ Hsh), length_app. cbn [length].
    rewrite uwrap_id by (unfold in_u; lia). f_equal. lia.
  - pose proof (s_ents _ _ _ _ _ _ Hsh) as Hok. rewrite Forall_forall in *. intros e He. split.
    + apply Hok, elem_of_app. by right.
    + apply Htop, elem_of_app. by right.
Qed.

(** *** The element of a rank *)

Section Element.
Context (h : heap) (N : list ent) (top : nat) (G : levels_fn) (B : back_fn) (rank : Z).
Context (Hse : searchable h N top G B) (Hr : 0 <= rank).
Abbreviation N1 := (take (Z.to_nat rank + 1) N).
Abbreviation L2 := (drop (Z.to_nat rank + 1) N).

Lemma rank_splits : splits (fun r _ => Some (r <=? rank)) N1 L2.
Proof using Hr.
  split.
  - intros pre e suf HN _. f_equal. apply Z.leb_le. pose proof (f_equal length HN) as Hl.
    rewrite length_take, length_app in Hl. cbn [length] in Hl. lia.
  - intros pre e suf HN. f_equal. apply Z.leb_gt. pose proof (f_equal length HN) as Hl.
    rewrite length_drop, length_app in Hl. cbn [length] in Hl. rewrite length_take. lia.
Qed.

Lemma element_loop_spec n pre e suf : N1 = pre ++ e :: suf -> (n <= e_height e)%nat -> (n <= top)%nat -> (1 <= n)%nat ->
  element_loop n h (e_addr e) (zlen pre) rank = Some (e_addr <$> N !! Z.to_nat rank).
Proof using All.
  intros HN Hi Ht Hn. revert pre e suf HN Hi. induction n as [|n IH]; intros pre e suf HN Hi; [lia|].
  assert (searchable h (N1 ++ L2) top G B) as Hse' by (by rewrite take_drop).
  destruct (walk_to h N1 L2 top G B _ n pre e suf Hse' rank_splits) as (p & e' & s & HN' & Hi' & Hl & E); try done; try lia.
  cbn [element_loop]. rewrite E. cbn [mbind option_bind]. pose proof (f_equal length HN') as Hlen.
  rewrite length_take, length_app in Hlen. cbn [length] in Hlen.
  assert (N = p ++ e' :: s ++ L2) as HNN by (rewrite <- (take_drop (Z.to_nat rank + 1) N) at 1; rewrite HN', <- app_assoc; done).
  destruct (Z.eqb_spec (zlen p) rank) as [Hp|Hp].
  - rewrite HNN. rewrite list_lookup_middle by lia. done.
  - destruct n as [|n]; [|apply (IH ltac:(lia) ltac:(lia) p e' s); try done; lia].
    assert (s = []) as -> by (by eapply low_0, (tall_suffix h N1 L2)). cbn [element_loop].
    rewrite lookup_ge_None_2; [done|]. cbn [length] in Hlen. lia.
Qed.
End Element.

Lemma element_from_spec h e0 R top G B n rank :
  searchable h (e0 :: R) top G B -> 0 <= rank -> (S n <= e_height e0)%nat -> (S n <= top)%nat ->
  zslGetElementByRankFromNode h (e_addr e0) n rank = Some (e_addr <$> (e0 :: R) !! Z.to_nat rank).
Proof.
  intros Hse Hr Hi Ht. unfold zslGetElementByRankFromNode. change 0 with (zlen (@nil ent)) at 1.
  apply (element_loop_spec h (e0 :: R) top G B rank Hse Hr (S n) [] e0 (take (Z.to_nat rank) R)); try done; [|lia].
  by rewrite Nat.add_1_r.
Qed.

Lemma zslGetElementByRank_spec zs h z L rank :
  repr zs h z L -> zlen L + 1 < 2 ^ 63 -> 0 <= rank ->
  zslGetElementByRank h z rank = Some (if rank =? 0 then Some (z_header z) else e_addr <$> L !! Z.to_nat (rank - 1)).
Proof.
  intros [(hd & G & B & Hsh & _ & _) Hs Hn Hd] Hb Hr. pose proof (shape_searchable _ _ _ _ _ _ Hsh Hb) as Hse.
  pose proof (s_level _ _ _ _ _ _ Hsh) as Hlev. pose proof (top_ok _ (s_ents _ _ _ _ _ _ Hsh)) as Ht.
  pose proof (top_of_pos L) as Hpos. unfold zslGetElementByRank. rewrite <- (s_header _ _ _ _ _ _ Hsh).
  rewrite (element_from_spec h hd L (z_level z) G B) by (done || rewrite ?(s_maxlevel _ _ _ _ _ _ Hsh); lia).
  destruct (Z.eqb_spec rank 0) as [->|Hne]; [done|].
  replace (Z.to_nat rank) with (S (Z.to_nat (rank - 1))) by lia. done.
Qed.

(** ** The n-th element of a range: proofs *)

Lemma forward_steps_spec h N top G B k pre e suf :
  searchable h N top G B -> (1 <= top)%nat -> N = pre ++ e :: suf -> (1 <= k <= length suf)%nat ->
  forward_steps k h (e_addr e) = Some (e_addr <$> suf !! (k - 1)%nat).
Proof.
  intros Hse Htop. revert pre e suf. induction k as [|k IH]; intros pre e suf HN Hk; [lia|].
  destruct suf as [|y suf]; [cbn in Hk; lia|]. pose proof Hse as [Hc _ _ HG Ht].
  assert (e ∈ N) as He by (rewrite HN; apply elem_of_app; right; left).
  rewrite HN in Ht. apply Forall_app in Ht as [_ Ht]. apply Forall_cons in Ht as [Hte Hts]. apply Forall_cons in Hts as [Hty _].
  assert (forward (G (e_addr e) O) = Some (e_addr y)) as Hf.
  { destruct (HG O ltac:(lia) pre e (y :: suf) HN) as [-> _]; [lia|]. cbn [first].
    by rewrite (proj2 (Nat.ltb_lt _ _)) by lia. }
  destruct k as [|k].
  { cbn [forward_steps]. rewrite (get_level_cells _ _ _ _ _ _ Hc He) by lia. cbn [mbind option_bind]. by rewrite Hf. }
  change (forward_steps (S (S k)) h (e_addr e)) with (l ← get_level h (e_addr e) 0; y ← forward l; forward_steps (S k) h y).
  rewrite (get_level_cells _ _ _ _ _ _ Hc He) by lia. cbn [mbind option_bind]. rewrite Hf. cbn [mbind option_bind].
  rewrite (IH (pre ++ [e]) y suf); [|by rewrite <- app_assoc|cbn in Hk; lia]. cbn. by rewrite Nat.sub_0_r.
Qed.

Lemma back_ok_at prev L1 e L2 B : back_ok prev (L1 ++ e :: L2) B -> B (e_addr e) = last_or prev L1.
Proof. intros [_ [H _]]%back_ok_app. done. Qed.

Lemma backward_steps_spec h E G B k L1 e L2 :
  cells h E G B -> (forall x, x ∈ L1 ++ e :: L2 -> x ∈ E) -> back_ok None (L1 ++ e :: L2) B -> (k <= length L1)%nat ->
  backward_steps k h (Some (e_addr e)) = Some (e_addr <$> (L1 ++ [e]) !! (length L1 - k)%nat).
Proof.
  intros Hc Hin HB. revert L1 e L2 Hin HB. induction k as [|k IH]; intros L1 e L2 Hin HB Hk; cbn [backward_steps].
  { rewrite Nat.sub_0_r. by rewrite list_lookup_middle. }
  cbn [mbind option_bind]. rewrite (cells_lookup _ _ _ _ e Hc) by (apply Hin, elem_of_app; right; left).
  cbn [mbind option_bind node_of n_backward]. rewrite (back_ok_at _ _ _ _ _ HB).
  destruct L1 as [|y L1 _] using rev_ind; [cbn in Hk; lia|]. unfold last_or. rewrite last_snoc.
  rewrite length_app in Hk |- *. cbn [length] in *. rewrite <- app_assoc in Hin, HB.
  rewrite (IH L1 y ([e] ++ L2)) by (done || lia). do 2 f_equal.
  replace (length L1 + 1 - S k)%nat with (length L1 - k)%nat by lia. rewrite (lookup_app_l (L1 ++ [y])); [done|].
  rewrite length_app. cbn. lia.
Qed.

(** A list cut in two places. *)
Lemma cut_prefix {X} (A R C D : list X) : A ++ R = C ++ D -> (length A <= length C)%nat -> exists E, C = A ++ E.
Proof.
  intros HCD HAC. exists (take (length C - length A) R). transitivity (take (length C) (A ++ R)).
  - rewrite HCD. by rewrite take_app_length.
  - rewrite take_app_ge by done. done.
Qed.

Section Nth.
Context (gte lte : heap -> addr -> option bool) (fg fl : ent -> bool).
Context (h : heap) (z : zskiplist) (hd : ent) (A R C D : list ent) (G : levels_fn) (B : back_fn).
Abbreviation L := (A ++ R).
Context (Hsh : shape h z hd L G B) (Hb : zlen L + 1 < 2 ^ 63).
Context (Hg : forall e, e ∈ L -> gte h (e_addr e) = Some (fg e)) (Hl : forall e, e ∈ L -> lte h (e_addr e) = Some (fl e)).
Context (HA : Forall (fun e => fg e = false) A) (HR : Forall (fun e => fg e = true) R).
Context (HCD : L = C ++ D) (HC : Forall (fun e => fl e = true) C) (HD : Forall (fun e => fl e = false) D).
Context (HAC : (length A <= length C)%nat).

Lemma below_splits : splits (below gte h) (hd :: A) R.
Proof using Hg HA HR.
  apply (splits_by _ (fun e => negb (fg e))).
  - intros e r He. unfold below. by rewrite Hg.
  - eapply Forall_impl; [exact HA|]. cbn. by intros e ->.
  - eapply Forall_impl; [exact HR|]. cbn. by intros e ->.
Qed.

Lemma within_splits : splits (within lte h) (hd :: C) D.
Proof using Hl HC HD HCD.
  apply (splits_by _ fl); try done. intros e r He. unfold within. rewrite <- HCD in He. by rewrite Hl.
Qed.

Lemma L_at p e : L !! p = Some e -> fg e = (length A <=? p)%nat /\ fl e = (p <? length C)%nat.
Proof using HA HR HCD HC HD.
  intros Hp. rewrite Forall_forall in *. split.
  - destruct (Nat.leb_spec (length A) p) as [H|H].
    + rewrite lookup_app_r in Hp by done. by apply HR, (list_elem_of_lookup_2 _ _ _ Hp).
    + rewrite lookup_app_l in Hp by done. by apply HA, (list_elem_of_lookup_2 _ _ _ Hp).
  - rewrite HCD in Hp. destruct (Nat.ltb_spec p (length C)) as [H|H].
    + rewrite lookup_app_l in Hp by done. by apply HC, (list_elem_of_lookup_2 _ _ _ Hp).
    + rewrite lookup_app_r in Hp by done. by apply HD, (list_elem_of_lookup_2 _ _ _ Hp).
Qed.

(** The entry where the searches of the upper level stop. *)
Lemma phase1 : exists pre e suf, hd :: A = pre ++ e :: suf /\ (z_level z <= e_height e)%nat /\
  walk (size h) (below gte h) h (z_level z - 1) (z_header z) 0 = Some (e_addr e, zlen pre) /\
  (z_level z = 1%nat -> suf = []).
Proof using All.
  pose proof (shape_searchable _ _ _ _ _ _ Hsh Hb) as Hse. pose proof (s_level _ _ _ _ _ _ Hsh) as Hlev.
  pose proof (top_ok _ (s_ents _ _ _ _ _ _ Hsh)) as Ht. pose proof (top_of_pos L) as Hpos.
  pose proof (s_maxlevel _ _ _ _ _ _ Hsh) as H32. rewrite <- (s_header _ _ _ _ _ _ Hsh).
  destruct (walk_to h (hd :: A) R (z_level z) G B (below gte h) (z_level z - 1) [] hd A Hse below_splits)
    as (p & e & s & HN & Hi & Hlow & E); try done; try lia.
  exists p, e, s. split_and!; [done|lia|done|]. intros H1. rewrite H1 in Hlow. by eapply low_0, (tall_suffix h (hd :: A) R).
Qed.

Lemma phase2 pre e suf : hd :: A = pre ++ e :: suf -> (z_level z <= e_height e)%nat -> (z_level z = 1%nat -> suf = []) ->
  exists pre' e', hd :: A = pre' ++ [e'] /\
    descend (z_level z - 1) (below gte h) h (e_addr e) (zlen pre) = Some (e_addr e', zlen A).
Proof using All.
  intros HN Hi H1. pose proof (shape_searchable _ _ _ _ _ _ Hsh Hb) as Hse. pose proof (top_of_pos L) as Hpos.
  pose proof (s_level _ _ _ _ _ _ Hsh) as Hlev.
  destruct (descend_spec h (hd :: A) R (z_level z) G B (below gte h) (z_level z - 1) pre e suf Hse below_splits)
    as (p & e' & s & HN' & Hs & H0 & E); try done; try lia.
  assert (s = []) as ->.
  { destruct (decide (z_level z = 1%nat)) as [Hz|Hz]; [|apply Hs; lia]. destruct H0 as [-> ->]; [lia|].
    rewrite HN in HN'. rewrite (H1 Hz) in HN'. by simplify_list_eq. }
  exists p, e'. split; [done|]. rewrite E. do 2 f_equal. pose proof (f_equal length HN') as Hlen.
  rewrite length_app in Hlen. cbn [length] in Hlen. lia.
Qed.

Lemma phase3 pre e suf : hd :: A = pre ++ e :: suf -> (z_level z <= e_height e)%nat ->
  exists pre' e', hd :: C = pre' ++ [e'] /\ descend (z_level z) (within lte h) h (e_addr e) (zlen pre) = Some (e_addr e', zlen C).
Proof using All.
  intros HN Hi. pose proof (shape_searchable _ _ _ _ _ _ Hsh Hb) as Hse. pose proof (top_of_pos L) as Hpos.
  pose proof (s_level _ _ _ _ _ _ Hsh) as Hlev. destruct (cut_prefix A R C D HCD HAC) as [E0 HE].
  rewrite HCD in Hse. change (hd :: C ++ D) with ((hd :: C) ++ D) in Hse.
  destruct (descend_spec h (hd :: C) D (z_level z) G B (within lte h) (z_level z) pre e (suf ++ E0) Hse within_splits)
    as (p & e' & s & HN' & Hs & _ & E); try done; try lia.
  { rewrite HE. change (hd :: A ++ E0) with ((hd :: A) ++ E0). rewrite HN, <- app_assoc. done. }
  rewrite Hs in HN' by lia. exists p, e'. split; [done|]. rewrite E. do 2 f_equal. pose proof (f_equal length HN') as Hlen.
  rewrite length_app in Hlen. cbn [length] in Hlen. lia.
Qed.

(** Jumping from that entry to the position [t] of the whole list. *)
Lemma jump pre e suf t : hd :: A = pre ++ e :: suf -> (z_level z <= e_height e)%nat -> - 2 ^ 63 <= t - zlen pre < 2 ^ 63 ->
  zslGetElementByRankFromNode h (e_addr e) (z_level z - 1) (uwrap 64 (t - zlen pre))
  = Some (if t <? zlen pre then None else e_addr <$> (hd :: L) !! Z.to_nat t).
Proof using All.
  intros HN Hi Ht. pose proof (shape_searchable _ _ _ _ _ _ Hsh Hb) as Hse. pose proof (top_of_pos L) as Hpos.
  pose proof (s_level _ _ _ _ _ _ Hsh) as Hlev.
  assert (hd :: L = pre ++ e :: (suf ++ R)) as HE.
  { change (hd :: L) with ((hd :: A) ++ R). rewrite HN, <- app_assoc. done. }
  rewrite HE in Hse |- *. pose proof (searchable_suffix _ _ _ _ _ _ Hse) as Hse'. pose proof (c_len _ _ _ _ _ Hse') as Hlen.
  rewrite (element_from_spec h e (suf ++ R) (z_level z) G B) by (try done; try (apply uwrap_range; lia); lia).
  f_equal. destruct (Z.ltb_spec t (zlen pre)) as [Hlt|Hge].
  - rewrite lookup_ge_None_2; [done|]. unfold uwrap. rewrite <- (Z.mod_add _ 1), Z.mod_small by lia.
    apply Nat2Z.inj_le. rewrite Z2Nat.id by lia. lia.
  - rewrite uwrap_id by (unfold in_u; lia). rewrite (lookup_app_r pre) by lia.
    do 2 f_equal. lia.
Qed.

Lemma nth_forward n : 0 <= n < 2 ^ 63 ->
  nth_in_range gte lte (Some true) h z n
  = Some (if zlen A + n <? zlen C then (fun e => (e_addr e, zlen A + n + 1)) <$> L !! Z.to_nat (zlen A + n) else None).
Proof using All.
  intros Hn. pose proof (shape_searchable _ _ _ _ _ _ Hsh Hb) as Hse. pose proof (top_of_pos L) as Hpos.
  pose proof (s_level _ _ _ _ _ _ Hsh) as Hlev. pose proof (f_equal length HCD) as HlenCD. rewrite (length_app C) in HlenCD.
  assert (zlen A <= zlen L) as HlA by (rewrite length_app; lia).
  destruct phase1 as (pre & e & suf & HN & Hi & E1 & Hs1). destruct (phase2 pre e suf HN Hi Hs1) as (pre' & e' & HN' & E2).
  unfold nth_in_range. cbn [mbind option_bind negb]. rewrite E1. cbn [mbind option_bind].
  rewrite (proj2 (Z.leb_le 0 n)) by lia. rewrite E2. cbn [mbind option_bind].
  rewrite (s_length _ _ _ _ _ _ Hsh), !uwrap_id by (unfold in_u; lia).
  destruct (Z.leb_spec (zlen L) (zlen A + n)) as [Hout|Hin].
  { rewrite (proj2 (Z.ltb_ge _ _)) by lia. done. }
  destruct (lookup_lt_is_Some_2 L (Z.to_nat (zlen A + n))) as [x Hx]; [lia|]. destruct (L_at _ _ Hx) as [_ Hfl].
  assert (zlen pre <= zlen A) as Hpre by (pose proof (f_equal length HN) as H; rewrite length_app in H; cbn [length] in H; lia).
  assert ((if n <? ZSKIPLIST_MAX_SEARCH then forward_steps (Z.to_nat (n + 1)) h (e_addr e')
     else zslGetElementByRankFromNode h (e_addr e) (z_level z - 1) (uwrap 64 (zlen A + 1 + n - zlen pre)))
     = Some (Some (e_addr x))) as ->.
  { destruct (n <? ZSKIPLIST_MAX_SEARCH).
    - rewrite (forward_steps_spec h ((hd :: A) ++ R) (z_level z) G B _ pre' e' R); [|done|lia|by rewrite HN', <- app_assoc|].
      + rewrite lookup_app_r in Hx by lia. replace (Z.to_nat (n + 1) - 1)%nat with (Z.to_nat (zlen A + n) - length A)%nat by lia.
        by rewrite Hx.
      + rewrite length_app in Hin. lia.
    - rewrite (jump pre e suf) by (try done; lia). rewrite (proj2 (Z.ltb_ge _ _)) by lia.
      replace (Z.to_nat (zlen A + 1 + n)) with (S (Z.to_nat (zlen A + n))) by lia.
      change ((hd :: L) !! S (Z.to_nat (zlen A + n))) with (L !! Z.to_nat (zlen A + n)). by rewrite Hx. }
  cbn [mbind option_bind]. rewrite Hl by (by eapply list_elem_of_lookup_2). cbn [mbind option_bind]. rewrite Hfl, Hx.
  destruct (Nat.ltb_spec (Z.to_nat (zlen A + n)) (length C)), (Z.ltb_spec (zlen A + n) (zlen C)); try lia; done.
Qed.

Lemma nth_backward n : - 2 ^ 63 <= n < 0 ->
  nth_in_range gte lte (Some true) h z n
  = Some (if zlen A <=? zlen C + n then (fun e => (e_addr e, zlen C + n + 1)) <$> L !! Z.to_nat (zlen C + n) else None).
Proof using All.
  intros Hn. pose proof (s_level _ _ _ _ _ _ Hsh) as Hlev. pose proof (f_equal length HCD) as HlenCD.
  rewrite (length_app C) in HlenCD.
  destruct phase1 as (pre & e & suf & HN & Hi & E1 & Hs1). destruct (phase3 pre e suf HN Hi) as (pre' & e' & HN' & E2).
  assert (zlen pre <= zlen A) as Hpre by (pose proof (f_equal length HN) as H; rewrite length_app in H; cbn [length] in H; lia).
  unfold nth_in_range. cbn [mbind option_bind negb]. rewrite E1. cbn [mbind option_bind].
  rewrite (proj2 (Z.leb_gt 0 n)) by lia. rewrite E2. cbn [mbind option_bind].
  destruct (Z.ltb_spec (zlen C) (swrap 64 (- n))) as [Hout|Hin].
  { rewrite (proj2 (Z.leb_gt _ _)); [done|]. destruct (decide (n = - 2 ^ 63)) as [->|]; [lia|].
    rewrite swrap_id in Hout by (unfold in_s; lia). lia. }
  set (finish := fun x : option addr => match x with None => _ | Some x => _ end).
  assert (forall x, L !! Z.to_nat (zlen C + n) = Some x -> 0 <= zlen C + n -> finish (Some (e_addr x)) =
    Some (if zlen A <=? zlen C + n then (fun e => (e_addr e, zlen C + n + 1)) <$> Some x else None)) as Hfin.
  { intros x Hx H0. unfold finish. rewrite Hg by (by eapply list_elem_of_lookup_2). cbn [mbind option_bind].
    destruct (L_at _ _ Hx) as [-> _]. rewrite uwrap_id by (unfold in_u; lia).
    destruct (Nat.leb_spec (length A) (Z.to_nat (zlen C + n))), (Z.leb_spec (zlen A) (zlen C + n)); try lia; done. }
  destruct (Z.ltb_spec (- ZSKIPLIST_MAX_SEARCH) (n + 1)) as [Hnear|Hfar]; unfold ZSKIPLIST_MAX_SEARCH in *.
  - rewrite swrap_id in Hin by (unfold in_s; lia).
    destruct (lookup_lt_is_Some_2 L (Z.to_nat (zlen C + n))) as [x Hx]; [lia|].
    destruct pre' as [|e0 pre']; [simplify_eq/=; lia|]. injection HN' as <- HC'.
    rewrite (backward_steps_spec h (hd :: L) G B _ pre' e' D); [|apply Hsh| | |].
    + rewrite <- HC'. pose proof (f_equal length HC') as HlC. rewrite length_app in HlC. cbn [length] in HlC.
      replace (length pre' - Z.to_nat (- n - 1))%nat with (Z.to_nat (zlen C + n)) by lia.
      pose proof Hx as Hx'. rewrite HCD, lookup_app_l in Hx' by lia. rewrite Hx'. cbn [mbind option_bind fmap option_fmap option_map].
      rewrite (Hfin x Hx) by lia. by rewrite Hx.
    + intros y Hy. right. rewrite HCD, HC', <- app_assoc. done.
    + pose proof (s_back _ _ _ _ _ _ Hsh) as HB. rewrite HCD, HC', <- app_assoc in HB. done.
    + pose proof (f_equal length HC') as HlC. rewrite length_app in HlC. cbn [length] in HlC. lia.
  - rewrite (jump pre e suf) by (try done; lia). destruct (Z.ltb_spec (zlen C + 1 + n) (zlen pre)) as [Hlt|Hge].
    { cbn [mbind option_bind]. unfold finish. rewrite (proj2 (Z.leb_gt _ _)) by lia. done. }
    destruct (decide (0 <= zlen C + n)) as [H0|H0].
    + destruct (lookup_lt_is_Some_2 L (Z.to_nat (zlen C + n))) as [x Hx]; [lia|].
      replace (Z.to_nat (zlen C + 1 + n)) with (S (Z.to_nat (zlen C + n))) by lia.
      change ((hd :: L) !! S (Z.to_nat (zlen C + n))) with (L !! Z.to_nat (zlen C + n)). rewrite Hx.
      cbn [mbind option_bind fmap option_fmap option_map]. by rewrite (Hfin x Hx) by lia.
    + exfalso. assert (n <> - 2 ^ 63) by (intros ->; lia). rewrite swrap_id in Hin by (unfold in_s; lia). lia.
Qed.
End Nth.

(** *** Bounds in an order *)

Section Bounds.
Context {T : Type} (lt : T -> T -> bool) (ok : T -> Prop).
Context (lt_irrefl : forall a, lt a a = false) (lt_trans : forall a b c, lt a b = true -> lt b c = true -> lt a c = true).
Context (lt_weak : forall a b c, ok a -> ok b -> ok c -> lt a c = true -> lt a b = true \/ lt b c = true).
Context (min max : T) (minex maxex : bool) (Hmin : ok min) (Hmax : ok max).

Definition ge_min (v : T) : bool := if minex then lt min v else negb (lt v min).
Definition le_max (v : T) : bool := if maxex then lt v max else negb (lt max v).
Definition is_empty : bool := lt max min || (negb (lt min max) && negb (lt max min) && (minex || maxex)).

Lemma ge_min_up a b : ok a -> ok b -> lt b a = false -> ge_min a = true -> ge_min b = true.
Proof using All.
  unfold ge_min. intros Ha Hb Hba. destruct minex.
  - intros H. destruct (lt_weak min b a); congruence.
  - rewrite !negb_true_iff. intros H. apply not_true_is_false. intros H'. destruct (lt_weak b a min); congruence.
Qed.

Lemma le_max_down a b : ok a -> ok b -> lt b a = false -> le_max b = true -> le_max a = true.
Proof using All.
  unfold le_max. intros Ha Hb Hba. destruct maxex.
  - intros H. destruct (lt_weak b a max); congruence.
  - rewrite !negb_true_iff. intros H. apply not_true_is_false. intros H'. destruct (lt_weak max b a); congruence.
Qed.

Lemma bounds_cover v : ok v -> is_empty = false -> ge_min v = false -> le_max v = true.
Proof using All.
  unfold is_empty, ge_min, le_max. intros Hv. rewrite orb_false_iff. intros [H1 H2]. rewrite H1 in H2. cbn in H2.
  destruct (lt min max) eqn:Hmm.
  - destruct minex, maxex; rewrite ?negb_false_iff, ?negb_true_iff; intros H.
    + destruct (lt_weak min v max); congruence.
    + apply not_true_is_false. intros H'. destruct (lt_weak max min v); congruence.
    + by apply (lt_trans v min).
    + apply not_true_is_false. intros H'. rewrite (lt_trans max v min) in H1; congruence.
  - cbn in H2. destruct minex, maxex; try done. rewrite negb_false_iff, negb_true_iff. intros H.
    apply not_true_is_false. intros H'. rewrite (lt_trans max v min) in H1; congruence.
Qed.

Lemma bounds_empty v : ok v -> is_empty = true -> ge_min v = true -> le_max v = false.
Proof using All.
  unfold is_empty, ge_min, le_max. intros Hv. rewrite orb_true_iff, !andb_true_iff, !negb_true_iff.
  intros [H|[[Ha Hb] Hex]]; destruct minex, maxex; rewrite ?negb_true_iff, ?negb_false_iff; try done; intros Hg.
  - apply not_true_is_false. intros H'. pose proof (lt_trans _ _ _ (lt_trans _ _ _ Hg H') H). by rewrite lt_irrefl in *.
  - by apply (lt_trans max min).
  - apply not_true_is_false. intros H'. destruct (lt_weak max v min); try done; [|congruence].
    pose proof (lt_trans _ _ _ H' H0). by rewrite lt_irrefl in *.
  - destruct (lt_weak max v min); try done. congruence.
  - apply not_true_is_false. intros H'. rewrite (lt_trans min v max) in Ha; congruence.
  - destruct (lt_weak min max v); try done. congruence.
  - apply not_true_is_false. intros H'. destruct (lt_weak v min max); congruence.
Qed.
End Bounds.

(** *** Ranges of a sorted list *)

Lemma touches_spec gte lte fg fl h z hd A R C D G B :
  shape h z hd (A ++ R) G B ->
  (forall e, e ∈ A ++ R -> gte h (e_addr e) = Some (fg e)) -> (forall e, e ∈ A ++ R -> lte h (e_addr e) = Some (fl e)) ->
  Forall (fun e => fg e = false) A -> Forall (fun e => fg e = true) R ->
  A ++ R = C ++ D -> Forall (fun e => fl e = true) C -> Forall (fun e => fl e = false) D ->
  touches gte lte h z = Some (bool_decide (R <> []) && bool_decide (C <> [])).
Proof.
  intros Hsh Hg Hl HA HR HCD HC HD. destruct Hsh as [Hc Hn HG Hhd Hne H32 Hok HB Htail Hlen Hlev]. unfold touches.
  rewrite Htail. unfold last_or. destruct (last (A ++ R)) as [t|] eqn:Et.
  2: { apply last_None in Et. apply app_nil in Et as [-> ->]. done. }
  assert (t ∈ A ++ R) as Ht by (by apply last_Some_elem_of). rewrite Hg by done. cbn [mbind option_bind].
  assert (fg t = bool_decide (R <> [])) as ->.
  { rewrite Forall_forall in HA, HR. destruct R as [|r R].
    - rewrite app_nil_r in Ht. by apply HA.
    - rewrite last_app_cons in Et. apply HR. by apply last_Some_elem_of. }
  destruct R as [|r R]; [done|]. cbn [bool_decide negb]. rewrite bool_decide_true by done. cbn [negb andb].
  rewrite <- Hhd, (get_level_cells _ _ _ _ _ _ Hc) by (left || (rewrite H32; unfold ZSKIPLIST_MAXLEVEL; lia)).
  cbn [mbind option_bind]. destruct (HG O [] hd (A ++ r :: R) eq_refl) as [-> _]; [rewrite H32; unfold ZSKIPLIST_MAXLEVEL; lia|].
  assert (forall x l, A ++ r :: R = x :: l -> first 0 (A ++ r :: R) = Some x /\ x ∈ A ++ r :: R) as Hfirst.
  { intros x l HL. rewrite HL in *. split; [|left]. cbn [first]. apply Forall_cons in Hok as [(_ & _ & Hx) _].
    by rewrite (proj2 (Nat.ltb_lt _ _)) by lia. }
  destruct C as [|c C].
  - destruct D as [|d D]; [by destruct A|]. destruct (Hfirst d D HCD) as [-> Hd]. cbn [fmap option_fmap option_map].
    rewrite Hl by done. rewrite Forall_forall in HD. rewrite HD by left. done.
  - destruct (Hfirst c (C ++ D) HCD) as [-> Hd]. cbn [fmap option_fmap option_map].
    rewrite Hl by done. rewrite Forall_forall in HC. rewrite HC by left. done.
Qed.

Definition in_range {X} (fg fl : X -> bool) (e : X) : bool := fg e && fl e.

(** The n-th entry of [rng] or, for a negative [n], the n-th from the end,
    with its rank when [a] entries of the list come before. *)
Definition nth_of (a : Z) (rng : list ent) (n : Z) : option (addr * Z) :=
  let i := if 0 <=? n then n else zlen rng + n in
  if i <? 0 then None else (fun e => (e_addr e, a + i + 1)) <$> rng !! Z.to_nat i.

Lemma filter_none {X} (f : X -> bool) l : Forall (fun e => f e = false) l -> filter (fun e => f e = true) l = [].
Proof. induction 1 as [|e l He _ IH]; [done|]. rewrite filter_cons_False by (by rewrite He). done. Qed.
Lemma filter_keep {X} (f : X -> bool) l : Forall (fun e => f e = true) l -> filter (fun e => f e = true) l = l.
Proof. induction 1 as [|e l He _ IH]; [done|]. rewrite filter_cons_True by done. by rewrite IH. Qed.

Lemma filter_out {X} (f : X -> bool) l : Forall (fun e => f e = false) l -> filter (fun e => f e = false) l = l.
Proof. induction 1 as [|e l He _ IH]; [done|]. rewrite filter_cons_True by done. by rewrite IH. Qed.
Lemma filter_out_none {X} (f : X -> bool) l : Forall (fun e => f e = true) l -> filter (fun e => f e = false) l = [].
Proof. induction 1 as [|e l He _ IH]; [done|]. rewrite filter_cons_False by (by rewrite He). done. Qed.

(** The pieces of a list that is cut by two bounds. *)
Lemma cut_filter {X} (fg fl : X -> bool) A R C D :
  Forall (fun e => fg e = false) A -> Forall (fun e => fg e = true) R ->
  A ++ R = C ++ D -> Forall (fun e => fl e = true) C -> Forall (fun e => fl e = false) D -> (length A <= length C)%nat ->
  exists E, C = A ++ E /\ R = E ++ D /\ filter (fun e => in_range fg fl e = true) (A ++ R) = E /\
    filter (fun e => negb (fg e) = true) (A ++ R) = A.
Proof.
  intros HA HR HCD HC HD Hlen. destruct (cut_prefix A R C D HCD Hlen) as [E ->]. exists E.
  assert (R = E ++ D) as -> by (rewrite <- app_assoc in HCD; by apply app_inv_head in HCD).
  apply Forall_app in HC as [_ HE], HR as [HRE HRD]. split_and!; [done..| |].
  - rewrite !filter_app, (filter_none _ A), (filter_keep _ E), (filter_none _ D); [by rewrite app_nil_r| | |].
    + eapply Forall_impl; [exact HD|]. cbn. unfold in_range. intros e ->. by rewrite andb_false_r.
    + apply Forall_forall. intros e He. rewrite Forall_forall in HE, HRE. unfold in_range. by rewrite (HE e He), (HRE e He).
    + eapply Forall_impl; [exact HA|]. cbn. unfold in_range. by intros e ->.
  - rewrite filter_app, (filter_keep _ A), (filter_none _ (E ++ D)), app_nil_r; [done| |].
    + apply Forall_app. split; eapply Forall_impl; [exact HRE| |exact HRD|]; cbn; by intros e ->.
    + eapply Forall_impl; [exact HA|]. cbn. by intros e ->.
Qed.

Lemma nth_in_range_spec gte lte fg fl h z hd A R C D G B n :
  shape h z hd (A ++ R) G B -> zlen (A ++ R) + 1 < 2 ^ 63 ->
  (forall e, e ∈ A ++ R -> gte h (e_addr e) = Some (fg e)) -> (forall e, e ∈ A ++ R -> lte h (e_addr e) = Some (fl e)) ->
  Forall (fun e => fg e = false) A -> Forall (fun e => fg e = true) R ->
  A ++ R = C ++ D -> Forall (fun e => fl e = true) C -> Forall (fun e => fl e = false) D -> (length A <= length C)%nat ->
  in_s 64 n ->
  nth_in_range gte lte (touches gte lte h z) h z n
  = Some (nth_of (zlen (filter (fun e => negb (fg e) = true) (A ++ R)))
                 (filter (fun e => in_range fg fl e = true) (A ++ R)) n).
Proof.
  intros Hsh Hb Hg Hl HA HR HCD HC HD HAC Hn. unfold in_s in Hn.
  destruct (cut_filter fg fl A R C D HA HR HCD HC HD HAC) as (E & HE & HRE & -> & ->).
  rewrite (touches_spec gte lte fg fl h z hd A R C D G B) by done.
  assert (zlen C = zlen A + zlen E) as HlC by (rewrite HE, length_app; lia).
  assert (forall i, 0 <= i < zlen E -> (A ++ R) !! Z.to_nat (zlen A + i) = E !! Z.to_nat i) as Hlook.
  { intros i Hi. rewrite HRE, lookup_app_r, lookup_app_l by lia. f_equal. lia. }
  assert (forall i, zlen E <= i -> E !! Z.to_nat i = None) as Hnone by (intros; apply lookup_ge_None_2; lia).
  unfold nth_of. destruct (bool_decide (R <> []) && bool_decide (C <> [])) eqn:Ht.
  - destruct (Z.leb_spec 0 n) as [H0|H0].
    + rewrite (nth_forward gte lte fg fl h z hd A R C D G B) by (done || lia). rewrite (proj2 (Z.ltb_ge n 0)) by lia.
      destruct (Z.ltb_spec (zlen A + n) (zlen C)); [by rewrite Hlook by lia|]. by rewrite Hnone by lia.
    + rewrite (nth_backward gte lte fg fl h z hd A R C D G B) by (done || lia). rewrite HlC.
      destruct (Z.leb_spec (zlen A) (zlen A + zlen E + n)).
      * rewrite (proj2 (Z.ltb_ge _ _)) by lia. replace (zlen A + zlen E + n) with (zlen A + (zlen E + n)) by lia.
        by rewrite Hlook by lia.
      * by rewrite (proj2 (Z.ltb_lt _ _)) by lia.
  - assert (E = []) as ->.
    { apply andb_false_iff in Ht as [Ht|Ht]; apply bool_decide_eq_false in Ht; apply dec_stable in Ht; rewrite Ht in *.
      - symmetry in HRE. by apply app_nil in HRE as [? _].
      - symmetry in HE. by apply app_nil in HE as [_ ?]. }
    unfold nth_in_range. cbn [mbind option_bind negb]. f_equal. symmetry. destruct (_ <? 0); [done|]. by rewrite lookup_nil.
Qed.

Lemma cut_order {X} (fg fl : X -> bool) A R C D :
  A ++ R = C ++ D -> Forall (fun e => fg e = false) A -> Forall (fun e => fl e = false) D ->
  (forall e, e ∈ A ++ R -> fg e = false -> fl e = true) -> (length A <= length C)%nat.
Proof.
  intros HE HA HD Hc. destruct (decide (length A <= length C)%nat) as [|Hlt]; [done|]. exfalso.
  destruct (lookup_lt_is_Some_2 A (length C)) as [x Hx]; [lia|].
  assert ((A ++ R) !! length C = Some x) as Hx' by (by apply lookup_app_l_Some).
  pose proof (list_elem_of_lookup_2 _ _ _ Hx') as Hin. rewrite Forall_forall in HA, HD.
  pose proof (Hc x Hin (HA x (list_elem_of_lookup_2 _ _ _ Hx))) as Hfl.
  rewrite HE, lookup_app_r in Hx' by lia. rewrite (HD x) in Hfl; [done|]. by eapply list_elem_of_lookup_2.
Qed.

(** Both kinds of range, for bounds in an order that the list is sorted by. *)
(** The entries [L], in order by [f], and two bounds for what [v] gives of
    them; [fg] and [fl] are the tests of the bounds. *)
Record bounded {X T : Type} (lt : T -> T -> bool) (ok : T -> Prop) (min max : T) (minex maxex : bool)
    (f : X -> item) (v : X -> T) (L : list X) (fg fl : X -> bool) : Prop := {
  b_irrefl : forall a, lt a a = false;
  b_trans : forall a b c, lt a b = true -> lt b c = true -> lt a c = true;
  b_weak : forall a b c, ok a -> ok b -> ok c -> lt a c = true -> lt a b = true \/ lt b c = true;
  b_min : ok min;
  b_max : ok max;
  b_ok : forall e, e ∈ L -> ok (v e);
  b_mono : forall a b, a ∈ L -> b ∈ L -> ilt (f a) (f b) = true -> lt (v b) (v a) = false;
  b_sorted : sorted (map f L);
  b_gte : forall e, e ∈ L -> fg e = ge_min lt min minex (v e);
  b_lte : forall e, e ∈ L -> fl e = le_max lt max maxex (v e);
}.

Section OrderedBounds.
Context {X T : Type} (lt : T -> T -> bool) (ok : T -> Prop) (min max : T) (minex maxex : bool).
Context (f : X -> item) (v : X -> T) (L : list X) (fg fl : X -> bool).
Context (HB : bounded lt ok min max minex maxex f v L fg fl).

(** A range with empty bounds has no entries. *)
Lemma range_empty : is_empty lt min max minex maxex = true -> filter (fun e => in_range fg fl e = true) L = [].
Proof using All.
  destruct HB. intros He. apply filter_none, Forall_forall. intros e Hin. unfold in_range. rewrite b_gte0, b_lte0 by done.
  destruct (ge_min lt min minex (v e)) eqn:Hge; [|done]. cbn. apply (bounds_empty lt ok b_irrefl0 b_trans0 b_weak0 min max minex); auto.
Qed.

(** The other ranges cut the list. *)
Lemma range_cut : exists A R C D, L = A ++ R /\ L = C ++ D /\
  Forall (fun e => fg e = false) A /\ Forall (fun e => fg e = true) R /\
  Forall (fun e => fl e = true) C /\ Forall (fun e => fl e = false) D /\
  (is_empty lt min max minex maxex = false -> (length A <= length C)%nat).
Proof using All.
  destruct HB as [Hirr Htr Hwk Hmin Hmax Hok Hmono Hs Hfg Hfl].
  destruct (sorted_split f (fun e => negb (fg e)) L Hs) as (A & R & HAR & HA & HR).
  { intros a b Ha Hb' Hab. rewrite !negb_true_iff, !Hfg by done. intros Hf. apply not_true_is_false. intros Hf'.
    rewrite (ge_min_up lt ok Hirr Htr Hwk min max minex maxex Hmin Hmax (v a) (v b)) in Hf; try done; auto. }
  destruct (sorted_split f fl L Hs) as (C & D & HCD & HC & HD).
  { intros a b Ha Hb' Hab. rewrite !Hfl by done. apply (le_max_down lt ok Hirr Htr Hwk min max minex maxex Hmin Hmax); auto. }
  assert (Forall (fun e => fg e = false) A) as HA' by (eapply Forall_impl; [exact HA|]; cbn; intros e; apply negb_true_iff).
  exists A, R, C, D. split_and!; try done; [eapply Forall_impl; [exact HR|]; cbn; intros e; apply negb_false_iff|].
  intros He. apply (cut_order fg fl A R C D); try done; [congruence|]. rewrite <- HAR. intros e Hin. rewrite Hfg, Hfl by done.
  apply (bounds_cover lt ok Hirr Htr Hwk min max minex maxex Hmin Hmax); auto.
Qed.

(** Below the range, in it, above it; a range with empty bounds has no
    entries, but the entries from its lower bound on are above it. *)
Lemma range_pieces : exists A E D, L = A ++ E ++ D /\ Forall (fun e => fg e = false) A /\ Forall (fun e => fg e = true) (E ++ D) /\
  Forall (fun e => fl e = true) E /\ Forall (fun e => fl e = false) D /\
  (is_empty lt min max minex maxex = true -> E = []) /\
  (is_empty lt min max minex maxex = false -> Forall (fun e => fl e = true) A) /\
  filter (fun e => in_range fg fl e = true) L = E /\ filter (fun e => in_range fg fl e = false) L = A ++ D.
Proof using All.
  destruct range_cut as (A & R & C & D & HAR & HCD & HA & HR & HC & HD & HAC).
  assert (exists E D', R = E ++ D' /\ Forall (fun e => fl e = true) E /\ Forall (fun e => fl e = false) D' /\
    (is_empty lt min max minex maxex = true -> E = []) /\
    (is_empty lt min max minex maxex = false -> Forall (fun e => fl e = true) A)) as (E & D' & -> & HE & HD' & Hemp & HfA).
  { destruct (is_empty lt min max minex maxex) eqn:He.
    - exists [], R. split_and!; [done|constructor| |done|done]. apply Forall_forall. intros e Hin. rewrite Forall_forall in HR.
      assert (e ∈ L) as HinL by (rewrite HAR; apply elem_of_app; by right). destruct HB. rewrite b_lte0 by done.
      apply (bounds_empty lt ok b_irrefl0 b_trans0 b_weak0 min max minex); auto. by rewrite <- b_gte0, HR.
    - destruct (cut_filter fg fl A R C D HA HR ltac:(congruence) HC HD (HAC eq_refl)) as (E & -> & -> & _ & _).
      exists E, D. apply Forall_app in HC as [? ?]. done. }
  exists A, E, D'. apply Forall_app in HR as [HRE HRD]. split_and!; try done; [by apply Forall_app| |]; rewrite HAR.
  - rewrite !filter_app, (filter_none _ A), (filter_keep _ E), (filter_none _ D'); [by rewrite app_nil_r| | |];
      apply Forall_forall; unfold in_range; intros e He; rewrite Forall_forall in *.
    + rewrite HD' by done. apply andb_false_r.
    + by rewrite HRE, HE.
    + by rewrite HA.
  - rewrite !filter_app, (filter_out _ A), (filter_out_none _ E), (filter_out _ D'); [done| | |];
      apply Forall_forall; unfold in_range; intros e He; rewrite Forall_forall in *.
    + rewrite HD' by done. apply andb_false_r.
    + by rewrite HRE, HE.
    + by rewrite HA.
Qed.
End OrderedBounds.

Lemma nth_bounds {T} (lt : T -> T -> bool) ok min max minex maxex v L fg fl gte lte h z hd G B n :
  bounded lt ok min max minex maxex itm v L fg fl ->
  shape h z hd L G B -> zlen L + 1 < 2 ^ 63 -> in_s 64 n ->
  (forall e, e ∈ L -> gte h (e_addr e) = Some (fg e)) -> (forall e, e ∈ L -> lte h (e_addr e) = Some (fl e)) ->
  nth_in_range gte lte (if is_empty lt min max minex maxex then Some false else touches gte lte h z) h z n
  = Some (nth_of (zlen (filter (fun e => negb (fg e) = true) L)) (filter (fun e => in_range fg fl e = true) L) n).
Proof.
  intros HB Hsh Hb Hn Hg Hl. destruct (is_empty lt min max minex maxex) eqn:He.
  - rewrite (range_empty lt ok min max minex maxex itm v) by done. unfold nth_in_range, nth_of. cbn [mbind option_bind negb]. f_equal. symmetry.
    destruct (_ <? 0); [done|]. by rewrite lookup_nil.
  - destruct (range_cut lt ok min max minex maxex itm v L fg fl HB) as (A & R & C & D & HAR & HCD & HA & HR & HC & HD & HAC).
    rewrite HAR in Hsh, Hb, Hg, Hl, HCD |- *.
    apply (nth_in_range_spec gte lte fg fl h z hd A R C D G B); auto.
Qed.

(** *** Scores *)

Lemma scores_bounded {X} (f : X -> item) L range :
  sorted (map f L) -> numbers (map f L) -> isnan (r_min range) = false -> isnan (r_max range) = false ->
  bounded dlt (fun x => isnan x = false) (r_min range) (r_max range) (r_minex range) (r_maxex range) f (fun e => (f e).1) L
    (fun e => zslValueGteMin (f e).1 range) (fun e => zslValueLteMax (f e).1 range).
Proof.
  intros Hs Hn Hmin Hmax.
  assert (forall e, e ∈ L -> isnan (f e).1 = false) as Hnum.
  { intros e He. rewrite Forall_forall in Hn. apply (Hn (f e)). by apply list_elem_of_fmap_2. }
  constructor; try done.
  - intros a. apply dlt_irrefl.
  - intros a b c. apply dlt_trans.
  - intros a b c. apply dlt_weak.
  - intros a b _ _. unfold ilt. rewrite orb_true_iff, andb_true_iff, negb_true_iff. intros [H|[H _]]; [by apply dlt_asym|done].
  - intros e He. unfold zslValueGteMin, ge_min. destruct (r_minex range); [done|]. apply dle_dlt; [done|]. by apply Hnum.
  - intros e He. unfold zslValueLteMax, le_max. destruct (r_maxex range); [done|]. apply dle_dlt; [|done]. by apply Hnum.
Qed.

Lemma score_cells range h z hd L G B e : shape h z hd L G B -> e ∈ L ->
  score_gte range h (e_addr e) = Some (zslValueGteMin (itm e).1 range) /\
  score_lte range h (e_addr e) = Some (zslValueLteMax (itm e).1 range).
Proof.
  intros Hsh He. unfold score_gte, score_lte. rewrite (cells_lookup _ _ _ _ e (s_cells _ _ _ _ _ _ Hsh)) by (by right). done.
Qed.

Lemma zslNthInRange_spec zs h z L range n :
  repr zs h z L -> isnan (r_min range) = false -> isnan (r_max range) = false -> zlen L + 1 < 2 ^ 63 -> in_s 64 n ->
  let fg := fun e => zslValueGteMin (itm e).1 range in
  let fl := fun e => zslValueLteMax (itm e).1 range in
  zslNthInRange h z range n
  = Some (nth_of (zlen (filter (fun e => negb (fg e) = true) L)) (filter (fun e => in_range fg fl e = true) L) n).
Proof.
  intros [(hd & G & B & Hsh & _ & _) Hs Hnum _] Hmin Hmax Hb Hn fg fl. unfold zslNthInRange, zslIsInRange. rewrite deq_dlt by done.
  apply (nth_bounds dlt (fun x => isnan x = false) (r_min range) (r_max range) (r_minex range) (r_maxex range) (fun e => (itm e).1))
    with (hd := hd) (G := G) (B := B); try done.
  - by apply scores_bounded.
  - intros e He. by apply (score_cells range h z hd L G B).
  - intros e He. by apply (score_cells range h z hd L G B).
Qed.

(** *** Strings *)

Definition blt (a b : lexbound) : bool := sdscmplex a b <? 0.

Lemma blt_string a b : blt (STRING a) (STRING b) = match Sds.lex a b with Lt => true | _ => false end.
Proof.
  unfold blt. cbn [sdscmplex]. pose proof (cmp_sign a b) as H. destruct (Sds.lex a b); destruct (Z.ltb_spec (sdscmp a b) 0); try done; lia.
Qed.

Lemma blt_irrefl a : blt a a = false.
Proof. destruct a; try done. by rewrite blt_string, lex_refl. Qed.

Lemma blt_trans a b c : blt a b = true -> blt b c = true -> blt a c = true.
Proof.
  destruct a as [| |a], b as [| |b], c as [| |c]; try done. rewrite !blt_string.
  destruct (Sds.lex a b) eqn:E1; try done. destruct (Sds.lex b c) eqn:E2; try done. by rewrite (lex_trans _ _ _ E1 E2).
Qed.

Lemma blt_weak a b c : True -> True -> True -> blt a c = true -> blt a b = true \/ blt b c = true.
Proof.
  intros _ _ _. destruct a as [| |a], b as [| |b], c as [| |c]; auto. rewrite !blt_string.
  destruct (Sds.lex a c) eqn:E; try done. intros _. destruct (Sds.lex a b) eqn:E1; [|by left|].
  - apply lex_eq in E1 as <-. right. by rewrite E.
  - right. rewrite (lex_trans b a c); [done| |done]. by rewrite lex_flip, E1.
Qed.

(** Comparing the other way round. *)
Lemma blt_flip a b : (0 <? sdscmplex a b) = blt b a.
Proof.
  destruct a as [| |a], b as [| |b]; try done. rewrite blt_string. cbn [sdscmplex]. rewrite (lex_flip a b).
  pose proof (cmp_sign a b) as H. destruct (Sds.lex a b); destruct (Z.ltb_spec 0 (sdscmp a b)); try done; lia.
Qed.

Lemma empty_lex range : ((0 <? sdscmplex (l_min range) (l_max range)) ||
    ((sdscmplex (l_min range) (l_max range) =? 0) && (l_minex range || l_maxex range)))
  = is_empty blt (l_min range) (l_max range) (l_minex range) (l_maxex range).
Proof.
  unfold is_empty. rewrite blt_flip. f_equal. f_equal. rewrite <- (blt_flip (l_min range) (l_max range)). unfold blt.
  destruct (Z.eqb_spec (sdscmplex (l_min range) (l_max range)) 0), (Z.ltb_spec (sdscmplex (l_min range) (l_max range)) 0),
    (Z.ltb_spec 0 (sdscmplex (l_min range) (l_max range))); try done; lia.
Qed.

(** Ranges of strings are for entries with equal scores. *)
Abbreviation same_scores f L := (forall a b, a ∈ L -> b ∈ L -> dlt (f a).1 (f b).1 = false).

Lemma strings_bounded {X} (f : X -> item) L range : sorted (map f L) -> same_scores f L ->
  bounded blt (fun _ => True) (l_min range) (l_max range) (l_minex range) (l_maxex range) f (fun e => STRING (f e).2) L
    (fun e => zslLexValueGteMin (f e).2 range) (fun e => zslLexValueLteMax (f e).2 range).
Proof.
  intros Hs Hsame. constructor; try done.
  - apply blt_irrefl.
  - apply blt_trans.
  - apply blt_weak.
  - intros a b Ha Hb. unfold ilt. rewrite !Hsame by done. cbn [orb negb andb]. rewrite blt_string, (lex_flip (f a).2).
    by destruct (Sds.lex (f a).2 (f b).2).
  - intros e _. unfold zslLexValueGteMin, ge_min. rewrite blt_flip. destruct (l_minex range); [done|]. unfold blt.
    destruct (Z.leb_spec 0 (sdscmplex (STRING (f e).2) (l_min range))), (Z.ltb_spec (sdscmplex (STRING (f e).2) (l_min range)) 0); try done; lia.
  - intros e _. unfold zslLexValueLteMax, le_max. destruct (l_maxex range); [done|]. rewrite <- blt_flip.
    destruct (Z.leb_spec (sdscmplex (STRING (f e).2) (l_max range)) 0), (Z.ltb_spec 0 (sdscmplex (STRING (f e).2) (l_max range))); try done; lia.
Qed.

Lemma lex_cells range h z hd L G B e : shape h z hd L G B -> e ∈ L ->
  lex_gte range h (e_addr e) = Some (zslLexValueGteMin (itm e).2 range) /\
  lex_lte range h (e_addr e) = Some (zslLexValueLteMax (itm e).2 range).
Proof.
  intros Hsh He. unfold lex_gte, lex_lte, zslGetNodeElement. rewrite (cells_lookup _ _ _ _ e (s_cells _ _ _ _ _ _ Hsh)) by (by right).
  cbn [mbind option_bind node_of n_ele]. pose proof (s_ents _ _ _ _ _ _ Hsh) as Hok. rewrite Forall_forall in Hok.
  destruct (Hok e He) as ([el Hel] & _). unfold itm. cbn [snd]. by rewrite Hel.
Qed.

Lemma zslNthInLexRange_spec zs h z L range n :
  repr zs h z L -> same_scores itm L -> zlen L + 1 < 2 ^ 63 -> in_s 64 n ->
  let fg := fun e => zslLexValueGteMin (itm e).2 range in
  let fl := fun e => zslLexValueLteMax (itm e).2 range in
  zslNthInLexRange h z range n
  = Some (nth_of (zlen (filter (fun e => negb (fg e) = true) L)) (filter (fun e => in_range fg fl e = true) L) n).
Proof.
  intros [(hd & G & B & Hsh & _ & _) Hs _ _] Hsame Hb Hn fg fl. unfold zslNthInLexRange, zslIsInLexRange. cbn zeta. rewrite empty_lex.
  apply (nth_bounds blt (fun _ => True) (l_min range) (l_max range) (l_minex range) (l_maxex range) (fun e => STRING (itm e).2))
    with (hd := hd) (G := G) (B := B); try done.
  - by apply strings_bounded.
  - intros e He. by apply (lex_cells range h z hd L G B).
  - intros e He. by apply (lex_cells range h z hd L G B).
Qed.

(** ** Deletion of ranges: proofs *)

(** The dictionary of a sorted set with the entries [L]. *)
Definition dict_of (L : list ent) : gmap (list Z) addr := list_to_map (map (fun e => ((itm e).2, e_addr e)) L).

Lemma dict_keys L : (map (fun e => ((itm e).2, e_addr e)) L).*1 = map snd (map itm L).
Proof. induction L as [|e L IH]; cbn; [done|]. f_equal. exact IH. Qed.

Lemma dict_of_middle L1 nd L2 : NoDup (map snd (map itm (L1 ++ nd :: L2))) ->
  dict_of (L1 ++ nd :: L2) = <[(itm nd).2 := e_addr nd]> (dict_of (L1 ++ L2)) /\ dict_of (L1 ++ L2) !! (itm nd).2 = None.
Proof.
  intros Hd. split.
  - unfold dict_of. rewrite (list_to_map_proper _ (map (fun e => ((itm e).2, e_addr e)) (nd :: L1 ++ L2))); [done| |].
    + by rewrite dict_keys.
    + by rewrite <- Permutation_middle.
  - apply not_elem_of_list_to_map. rewrite dict_keys. rewrite <- Permutation_middle in Hd. cbn in Hd.
    by apply NoDup_cons in Hd as [? _].
Qed.

(** The loop removes [E], when the test holds for the entries of [E] only. *)
Lemma range_loop_spec zs hd A D us go E : forall fuel h z G B k,
  shape h z hd (A ++ E ++ D) G B -> dom h = list_to_set (map e_addr (hd :: A ++ E ++ D)) ->
  z_alloc_size z = uwrap 64 (zs + foldr Z.add 0 (map e_usable (hd :: A ++ E ++ D))) ->
  sorted (map itm (A ++ E ++ D)) -> numbers (map itm (A ++ E ++ D)) -> NoDup (map snd (map itm (A ++ E ++ D))) ->
  zlen (A ++ E ++ D) + 1 < 2 ^ 63 -> 0 <= k -> k + zlen E < 2 ^ 64 -> (length E <= fuel)%nat ->
  (forall i, (i < z_level z)%nat -> exists u r, us !! i = Some u /\ last_at i (hd :: A) u r) ->
  (forall E1 e E2 h z G B, E = E1 ++ e :: E2 -> shape h z hd (A ++ e :: E2 ++ D) G B ->
     go (k + zlen E1) h (e_addr e) = Some true) ->
  (forall e D' h z G B, D = e :: D' -> shape h z hd (A ++ D) G B -> go (k + zlen E) h (e_addr e) = Some false) ->
  exists h' z', delete_loop fuel go h z (dict_of (A ++ E ++ D)) us (e_addr <$> head (E ++ D)) k
      = Some (h', z', dict_of (A ++ D), k + zlen E) /\ repr zs h' z' (A ++ D).
Proof.
  induction E as [|e E IH]; intros fuel h z G B k Hsh Hdom Hal Hs Hn Hd Hb Hk Hk2 Hf Hus Hgo Hstop.
  - exists h, z. split; [|constructor; try done; by exists hd, G, B]. cbn [app length Z.of_nat] in *. rewrite Z.add_0_r in *.
    destruct D as [|y D]; [by destruct fuel|]. cbn [head fmap option_fmap option_map].
    destruct fuel; cbn [delete_loop]; by rewrite (Hstop y D h z G B).
  - destruct fuel as [|fuel]; [cbn in Hf; lia|]. cbn [app head fmap option_fmap option_map delete_loop].
    cbn [app length] in *. pose proof (Hgo [] e E h z G B eq_refl Hsh) as Hge. cbn [length Z.of_nat] in Hge.
    rewrite Z.add_0_r in Hge. rewrite Hge. cbn [mbind option_bind negb].
    pose proof (s_cells _ _ _ _ _ _ Hsh) as Hc. assert (ent_ok e) as ([el Hel] & _ & Hht).
    { pose proof (s_ents _ _ _ _ _ _ Hsh) as Hok. apply Forall_app in Hok as [_ H]. by apply Forall_cons in H as [? _]. }
    rewrite (get_level_cells _ _ _ _ e O Hc) by (lia || (right; apply elem_of_app; right; left)). cbn [mbind option_bind].
    destruct (s_linked _ _ _ _ _ _ Hsh O (hd :: A) e (E ++ D) eq_refl) as [Hfw _]; [lia|].
    destruct (unlink_free zs hd h z A e (E ++ D) G B us Hsh Hdom Hal Hb Hus)
      as (h1 & z1 & h2 & z2 & G2 & B2 & -> & Hel1 & E2 & Hsh2 & Hdom2 & Hal2).
    cbn [mbind option_bind]. rewrite Hel1, Hel. cbn [mbind option_bind]. rewrite E2. cbn [mbind option_bind].
    destruct (dict_of_middle A e (E ++ D) Hd) as [-> Hnone]. replace (itm e).2 with el in * by (unfold itm; by rewrite Hel).
    rewrite delete_insert_id by done. destruct (ordered_drop itm A e (E ++ D) Hs Hn Hd) as (Hs2 & Hn2 & Hd2).
    rewrite uwrap_id by (unfold in_u; lia). rewrite length_app in Hb. cbn [length] in Hb.
    rewrite Hfw, first_head by (apply tall_ok; pose proof (s_ents _ _ _ _ _ _ Hsh2) as Hok; by apply Forall_app in Hok as [_ ?]).
    destruct (IH fuel h2 z2 G2 B2 (k + 1)) as (h' & z' & E' & Hr'); try done; try lia.
    + rewrite length_app. lia.
    + intros i Hi. apply Hus. rewrite (s_level _ _ _ _ _ _ Hsh2) in Hi. rewrite (s_level _ _ _ _ _ _ Hsh).
      rewrite top_of_app in *. rewrite top_of_cons. lia.
    + intros E1 y E2' h3 z3 G3 B3 HE Hsh3. replace (k + 1 + zlen E1) with (k + zlen (e :: E1)) by (cbn [length]; lia).
      eapply (Hgo (e :: E1)); [by rewrite HE|exact Hsh3].
    + intros y D' h3 z3 G3 B3 HD Hsh3. replace (k + 1 + zlen E) with (k + Z.of_nat (S (length E))) by lia. by eapply Hstop.
    + exists h', z'. split; [|done]. rewrite E'. do 2 f_equal. lia.
Qed.

(** The search and the loop together: [A] precedes the range, [E] is in it. *)
Lemma delete_from_spec zs h z cond go A E D :
  repr zs h z (A ++ E ++ D) -> zlen (A ++ E ++ D) + 1 < 2 ^ 63 -> (forall hd, splits cond (hd :: A) (E ++ D)) ->
  (forall E1 e E2 h z hd G B, E = E1 ++ e :: E2 -> shape h z hd (A ++ e :: E2 ++ D) G B ->
     go (zlen A) (zlen E1) h (e_addr e) = Some true) ->
  (forall e D' h z hd G B, D = e :: D' -> shape h z hd (A ++ D) G B -> go (zlen A) (zlen E) h (e_addr e) = Some false) ->
  exists h' z', delete_from cond go h z (dict_of (A ++ E ++ D)) = Some (h', z', dict_of (A ++ D), zlen E) /\
    repr zs h' z' (A ++ D).
Proof.
  intros [(hd & G & B & Hsh & Hdom & Hal) Hs Hn Hd] Hb Hsp Hgo Hstop.
  pose proof (shape_searchable _ _ _ _ _ _ Hsh Hb) as [Hc Hnd Hlen HG Ht].
  pose proof (top_ok _ (s_ents _ _ _ _ _ _ Hsh)) as Htop. rewrite <- (s_level _ _ _ _ _ _ Hsh) in Htop.
  pose proof (top_of_pos (A ++ E ++ D)) as Hpos. rewrite <- (s_level _ _ _ _ _ _ Hsh) in Hpos.
  destruct (descent_spec h (hd :: A) (E ++ D) G B (z_level z) cond) with (n := z_level z) (pre := @nil ent) (e := hd) (suf := A)
    as (us & rs & Es & Hu & Hr & Hall); try done; [rewrite (s_maxlevel _ _ _ _ _ _ Hsh); exact Htop|].
  unfold delete_from. change (zlen []) with 0 in Es. rewrite (s_header _ _ _ _ _ _ Hsh) in Es. rewrite Es. cbn [mbind option_bind].
  destruct (Hall O) as (u0 & r0 & -> & -> & pre & e & suf & HN & He & Hl & -> & ->); [lia|]. cbn [mbind option_bind].
  assert (hd :: A ++ E ++ D = pre ++ e :: suf ++ E ++ D) as HE.
  { change (hd :: A ++ E ++ D) with ((hd :: A) ++ E ++ D). rewrite HN, <- app_assoc. done. }
  assert (suf = []) as ->.
  { apply low_0; [done|]. rewrite HE in Ht. apply Forall_app in Ht as [_ Ht]. apply Forall_cons in Ht as [_ Ht].
    by apply Forall_app in Ht as [? _]. }
  assert (zlen pre = zlen A) as -> by (apply (f_equal (fun l => zlen l)) in HN; rewrite length_app in HN; cbn [length] in HN; lia).
  rewrite (get_level_cells _ _ _ _ e O Hc) by (done || (rewrite HE; apply elem_of_app; right; left)). cbn [mbind option_bind].
  destruct (HG O ltac:(lia) pre e ([] ++ E ++ D) HE He) as [-> _]. cbn [app].
  rewrite first_head by (apply Forall_cons in Ht as [_ Ht]; by apply Forall_app in Ht as [_ ?]).
  rewrite !length_app in Hb. pose proof (cells_size h (hd :: A) (E ++ D) G B Hc Hnd) as Hsz. rewrite !length_app in Hsz.
  destruct (range_loop_spec zs hd A D us (go (zlen A)) E (size h) h z G B 0) as (h' & z' & E' & Hr'); try done; try lia.
  - rewrite !length_app. lia.
  - intros i Hi. destruct (Hall i Hi) as (u & r & ? & _ & ?). by exists u, r.
  - intros E1 y E2 h1 z1 G1 B1 HE1 Hsh1. by eapply Hgo.
  - intros y D' h1 z1 G1 B1 HD Hsh1. by eapply Hstop.
  - by exists h', z'.
Qed.

(** The deletion of a range that is given by tests of the nodes. *)
Lemma delete_tested_spec gte lte fg fl zs h z L A E D :
  repr zs h z L -> zlen L + 1 < 2 ^ 63 ->
  (forall h z hd G B L' e, shape h z hd L' G B -> e ∈ L' -> gte h (e_addr e) = Some (fg e)) ->
  (forall h z hd G B L' e, shape h z hd L' G B -> e ∈ L' -> lte h (e_addr e) = Some (fl e)) ->
  L = A ++ E ++ D -> Forall (fun e => fg e = false) A -> Forall (fun e => fg e = true) (E ++ D) ->
  Forall (fun e => fl e = true) E -> Forall (fun e => fl e = false) D ->
  exists h' z', delete_from (below gte h) (fun _ _ => lte) h z (dict_of L) = Some (h', z', dict_of (A ++ D), zlen E) /\
    repr zs h' z' (A ++ D).
Proof.
  intros Hr Hb Hg Hl -> HA HR HE HD. pose proof Hr as [(hd & G & B & Hsh & _ & _) _ _ _].
  apply delete_from_spec; try done.
  - intros hd'. apply (splits_by _ (fun e => negb (fg e))).
    + intros e r He. unfold below. by rewrite (Hg h z hd G B _ e Hsh He).
    + eapply Forall_impl; [exact HA|]. by intros e ->.
    + eapply Forall_impl; [exact HR|]. by intros e ->.
  - intros E1 e E2 h1 z1 hd1 G1 B1 -> Hsh1. rewrite (Hl _ _ _ _ _ _ e Hsh1) by (apply elem_of_app; right; left).
    rewrite Forall_forall in HE. rewrite HE; [done|]. apply elem_of_app. right. left.
  - intros e D' h1 z1 hd1 G1 B1 -> Hsh1. rewrite (Hl _ _ _ _ _ _ e Hsh1) by (apply elem_of_app; right; left).
    by apply Forall_cons in HD as [-> _].
Qed.

Lemma zslDeleteRangeByScore_spec zs h z L range :
  repr zs h z L -> isnan (r_min range) = false -> isnan (r_max range) = false -> zlen L + 1 < 2 ^ 63 ->
  let inside := in_range (fun e => zslValueGteMin (itm e).1 range) (fun e => zslValueLteMax (itm e).1 range) in
  let rest := filter (fun e => inside e = false) L in
  exists h' z', zslDeleteRangeByScore h z range (dict_of L)
      = Some (h', z', dict_of rest, zlen (filter (fun e => inside e = true) L)) /\ repr zs h' z' rest.
Proof.
  intros Hr Hmin Hmax Hb inside rest. pose proof Hr as [_ Hs Hnum _].
  destruct (range_pieces _ _ _ _ _ _ _ _ _ _ _ (scores_bounded itm L range Hs Hnum Hmin Hmax))
    as (A & E & D & HL & HA & HR & HE & HD & _ & _ & Hin & Hrest).
  unfold rest, inside. rewrite Hin, Hrest.
  apply (delete_tested_spec _ _ (fun e => zslValueGteMin (itm e).1 range) (fun e => zslValueLteMax (itm e).1 range)
    zs h z L A E D); try done; intros h0 z0 hd G B L' e Hsh He; by apply (score_cells range h0 z0 hd L' G B e Hsh He).
Qed.

Lemma zslDeleteRangeByLex_spec zs h z L range :
  repr zs h z L -> same_scores itm L -> zlen L + 1 < 2 ^ 63 ->
  let inside := in_range (fun e => zslLexValueGteMin (itm e).2 range) (fun e => zslLexValueLteMax (itm e).2 range) in
  let rest := filter (fun e => inside e = false) L in
  exists h' z', zslDeleteRangeByLex h z range (dict_of L)
      = Some (h', z', dict_of rest, zlen (filter (fun e => inside e = true) L)) /\ repr zs h' z' rest.
Proof.
  intros Hr Hsame Hb inside rest. pose proof Hr as [_ Hs _ _].
  destruct (range_pieces _ _ _ _ _ _ _ _ _ _ _ (strings_bounded itm L range Hs Hsame))
    as (A & E & D & HL & HA & HR & HE & HD & _ & _ & Hin & Hrest).
  unfold rest, inside. rewrite Hin, Hrest.
  apply (delete_tested_spec _ _ (fun e => zslLexValueGteMin (itm e).2 range) (fun e => zslLexValueLteMax (itm e).2 range)
    zs h z L A E D); try done; intros h0 z0 hd G B L' e Hsh He; by apply (lex_cells range h0 z0 hd L' G B e Hsh He).
Qed.

(** Ranks [start .. end], counted from 1, below 2^32. *)
Lemma zslDeleteRangeByRank_spec zs h z L start end_ :
  repr zs h z L -> zlen L + 1 < 2 ^ 63 -> 1 <= start <= end_ -> end_ < 2 ^ 32 ->
  let s := Z.to_nat (start - 1) in
  let e := Z.to_nat end_ in
  exists h' z', zslDeleteRangeByRank h z start end_ (dict_of L)
      = Some (h', z', dict_of (take s L ++ drop e L), zlen (take (e - s) (drop s L))) /\ repr zs h' z' (take s L ++ drop e L).
Proof.
  intros Hr Hb Hse H32 s e. unfold zslDeleteRangeByRank. rewrite (uwrap_id 32 start), (uwrap_id 32 end_) by (unfold in_u; lia).
  set (A := take s L). set (E := take (e - s) (drop s L)). set (D := drop e L).
  assert (drop (e - s) (drop s L) = D) as HD by (rewrite drop_drop; unfold D; f_equal; lia).
  assert (L = A ++ E ++ D) as HL by (unfold A, E; by rewrite <- HD, !take_drop).
  assert (zlen A = Z.min (zlen L) (start - 1)) as HlA by (unfold A; rewrite length_take; lia).
  assert (zlen E = Z.min (zlen L - zlen A) (end_ - (start - 1))) as HlE.
  { unfold E. rewrite length_take, length_drop. lia. }
  assert (zlen D = Z.max 0 (zlen L - end_)) as HlD by (unfold D; rewrite length_drop; lia).
  rewrite HL in Hr |- *. apply delete_from_spec; [done|by rewrite <- HL| | |].
  - intros hd. split.
    + intros pre x suf HN Hpre. f_equal. apply Z.ltb_lt. destruct pre as [|p pre]; [done|].
      apply (f_equal (fun l => zlen l)) in HN. rewrite length_app in HN. cbn [length] in *. lia.
    + intros pre x suf HN. f_equal. apply Z.ltb_ge. cbn [length]. apply (f_equal (fun l => zlen l)) in HN.
      rewrite !length_app in HN. cbn [length] in HN. lia.
  - intros E1 x E2 h1 z1 hd1 G1 B1 HE _. f_equal. apply (f_equal (fun l => zlen l)) in HE. rewrite length_app in HE.
    cbn [length] in HE. rewrite uwrap_id by (unfold in_u; lia). apply Z.leb_le. lia.
  - intros x D' h1 z1 hd1 G1 B1 HD' _. f_equal. apply (f_equal (fun l => zlen l)) in HD'. cbn [length] in HD'.
    rewrite uwrap_id by (unfold in_u; lia). apply Z.leb_gt. lia.
Qed.

(** ** Theorems *)

(** C12: the three directions between a node and its position agree: the rank
    of the score and element of the i-th entry, the rank of its node and the
    node at that rank. *)
Theorem rank_roundtrip zs h z L i e :
  repr zs h z L -> zlen L + 1 < 2 ^ 63 -> L !! i = Some e ->
  let rank := Z.of_nat i + 1 in
  zslGetRank h z (itm e).1 (itm e).2 = Some rank /\ zslGetRankByNode h z (e_addr e) = Some rank /\
  zslGetElementByRank h z rank = Some (Some (e_addr e)).
Proof.
  intros Hr Hb Hi rank. pose proof Hr as [_ Hs Hn _]. split_and!.
  - rewrite (zslGetRank_spec zs h z L) by (try done; apply (proj1 (Forall_forall _ _) Hn); by apply list_elem_of_fmap_2, (list_elem_of_lookup_2 _ i)).
    f_equal. apply list_elem_of_split_length in Hi as (L1 & L2 & -> & Hi). rewrite map_app. cbn [map].
    rewrite (rank_of_present _ (map itm L1)); [rewrite length_map; lia| |unfold ieq; destruct (itm e); cbn [fst snd]; by rewrite ilt_irrefl].
    rewrite map_app in Hs. apply Forall_forall. intros y Hy. unfold ieq.
    rewrite (StronglySorted_app_1_elem_of _ _ _ y (itm e) Hs Hy); [done|by left].
  - apply list_elem_of_split_length in Hi as (L1 & L2 & -> & Hi). rewrite (zslGetRankByNode_spec zs h z L1 e L2) by done. f_equal. lia.
  - rewrite (zslGetElementByRank_spec zs h z L) by (done || lia). unfold rank. rewrite (proj2 (Z.eqb_neq _ _)) by lia.
    replace (Z.to_nat _) with i by lia. by rewrite Hi.
Qed.

(** C13: [zslNthInRange] finds the n-th entry whose score is within the range,
    from the front or (for a negative n) from the back, with its rank in the
    whole list, and nothing when the range has too few entries, is empty or
    lies outside the list; whichever of its two searches it uses. *)
Theorem zslNthInRange_correct zs h z L range n :
  repr zs h z L -> isnan (r_min range) = false -> isnan (r_max range) = false -> zlen L + 1 < 2 ^ 63 -> in_s 64 n ->
  let fg := fun e => zslValueGteMin (itm e).1 range in
  let fl := fun e => zslValueLteMax (itm e).1 range in
  zslNthInRange h z range n
  = Some (nth_of (zlen (filter (fun e => negb (fg e) = true) L)) (filter (fun e => in_range fg fl e = true) L) n).
Proof. apply zslNthInRange_spec. Qed.

(** Deletion by score removes from the skip list and from the dictionary
    exactly the entries within the range, keeps the others in order and
    returns how many it removed. *)
Theorem zslDeleteRangeByScore_correct zs h z L range :
  repr zs h z L -> isnan (r_min range) = false -> isnan (r_max range) = false -> zlen L + 1 < 2 ^ 63 ->
  let inside := in_range (fun e => zslValueGteMin (itm e).1 range) (fun e => zslValueLteMax (itm e).1 range) in
  let rest := filter (fun e => inside e = false) L in
  exists h' z', zslDeleteRangeByScore h z range (dict_of L)
      = Some (h', z', dict_of rest, zlen (filter (fun e => inside e = true) L)) /\ repr zs h' z' rest.
Proof. apply zslDeleteRangeByScore_spec. Qed.
End Model.

Lemma rank_roundtrip_witness : exists h z a, zslGetRank h z two [98] = Some 2 /\ zslGetRankByNode h z a = Some 2 /\
  zslGetElementByRank h z 2 = Some (Some a).
Proof.
  destruct two_entries as (h & z & [|e1 [|e2 [|]]] & Hr & Hm); try discriminate.
  cbn [map] in Hm. apply (inj2 cons) in Hm as [_ Hm]. apply (inj2 cons) in Hm as [H2 _].
  exists h, z, (e_addr e2). pose proof (rank_roundtrip 24 h z [e1; e2] 1 e2 Hr) as H. rewrite H2 in H.
  apply H; [cbn; lia|reflexivity].
Defined.

Lemma zslNthInRange_correct_witness : exists h z a, zslNthInRange h z (Rangespec two three false true) 0 = Some (Some (a, 2)).
Proof.
  destruct two_entries as (h & z & [|e1 [|e2 [|]]] & Hr & Hm); try discriminate.
  cbn [map] in Hm. apply (inj2 cons) in Hm as [H1 Hm]. apply (inj2 cons) in Hm as [H2 _].
  exists h, z, (e_addr e2).
  rewrite (zslNthInRange_correct 24 h z [e1; e2] (Rangespec two three false true) 0 Hr); [|reflexivity|reflexivity|cbn; lia|unfold in_s; lia].
  unfold in_range. cbn [filter list_filter]. rewrite H1, H2. reflexivity.
Defined.

Lemma zslDeleteRangeByScore_correct_witness : exists h z d h' z' e,
  zslDeleteRangeByScore h z (Rangespec two three false true) d = Some (h', z', dict_of [e], 1) /\ repr 24 h' z' [e] /\ itm e = (one, [97]).
Proof.
  destruct two_entries as (h & z & [|e1 [|e2 [|]]] & Hr & Hm); try discriminate.
  cbn [map] in Hm. apply (inj2 cons) in Hm as [H1 Hm]. apply (inj2 cons) in Hm as [H2 _].
  pose proof (zslDeleteRangeByScore_correct 24 h z [e1; e2] (Rangespec two three false true) Hr) as H.
  unfold in_range in H. cbn [filter list_filter] in H. rewrite H1, H2 in H.
  destruct H as (h' & z' & E & Hr'); [reflexivity|reflexivity|cbn; lia|].
  exists h, z, (dict_of [e1; e2]), h', z', e1. split_and!; [exact E|exact Hr'|exact H1].
Defined.
End ZslRange.
