(* ===== verification/ListpackBatch.v ===== *)
(** * Batches and searches in listpacks ([redis-stable/src/listpack.c])

    The insertion of several entries with one move of the tail, the deletion
    of entries given by their pointers, and the search for an entry, skipping
    the entries in between. *)

From S2P Require Import Prelude Numbers Listpack.
Import Listpack.

Module ListpackBatch.

(** [listpackEntry]: a string when [sval] is not null. *)
Inductive listpackEntry := SVal (s : list Z) | LVal (v : Z).

(** The string [lpGetValue] points to, or the integer. *)
Definition lpGetValue (lp : list Z) (p : Z) : option value :=
  v ← lpGet lp p;
  match v with
  | VInt v => Some (Int v)
  | VStr off len => s ← rdn lp off (uwrap 32 len); Some (Str s)
  end.

(** The type and the length of the encoding. *)
Definition entry_type (e : listpackEntry) : enctype :=
  match e with
  | SVal s => lpEncodeGetType s
  | LVal v => LP_ENCODING_INT (lpEncodeIntegerGetType v)
  end.

Definition entry_enclen (e : listpackEntry) : Z :=
  match entry_type e with LP_ENCODING_INT intenc => zlen intenc | LP_ENCODING_STRING enclen => enclen end.

(** [addedlen]: what the entries take with their backlens. *)
Fixpoint added_len (entries : list listpackEntry) (addedlen : Z) : Z :=
  match entries with
  | [] => addedlen
  | e :: entries =>
    added_len entries (uwrap 64 (uwrap 64 (addedlen + entry_enclen e) + zlen (lpEncodeBacklen (entry_enclen e))))
  end.

(** The bytes stored for an entry. *)
Definition entry_bytes (e : listpackEntry) : list Z :=
  match entry_type e with
  | LP_ENCODING_INT intenc => intenc
  | LP_ENCODING_STRING _ => match e with SVal s => lpEncodeString s | LVal _ => [] end
  end.

(** The loop that stores the entries; the last value of [*newp]. *)
Fixpoint store_entries (entries : list listpackEntry) (lp : list Z) (dst newp : Z) : option (list Z * Z) :=
  match entries with
  | [] => Some (lp, newp)
  | e :: entries =>
    let newp := dst in
    lp ← wrn lp dst (entry_bytes e);
    let dst := dst + entry_enclen e in
    lp ← wrn lp dst (lpEncodeBacklen (entry_enclen e));
    store_entries entries lp (dst + zlen (lpEncodeBacklen (entry_enclen e))) newp
  end.

Section Alloc.
Context (usable : Z -> Z) (junk : nat -> Z).

(** [Some None] is the null pointer. *)
Definition lpBatchInsert (lp : list Z) (p : Z) (where_ : position) (entries : list listpackEntry)
    : option (option (list Z * Z)) :=
  if bool_decide (where_ = LP_REPLACE) || (zlen entries =? 0) then None
  else
    p ← (if decide (where_ = LP_AFTER) then
           p ← lpSkip lp p;
           total ← lpGetTotalBytes lp;
           if (p >=? LP_HDR_SIZE) && (p <? total) then Some p else None
         else Some p);
    let addedlen := added_len entries 0 in
    old_listpack_bytes ← lpGetTotalBytes lp;
    let new_listpack_bytes := uwrap 64 (old_listpack_bytes + addedlen) in
    if new_listpack_bytes >? UINT32_MAX then Some None
    else
      let poff := p in
      let lp := if (new_listpack_bytes >? old_listpack_bytes) && (new_listpack_bytes >? zlen lp)
                then lp_realloc usable junk lp new_listpack_bytes else lp in
      lp ← memmove lp (poff + addedlen) poff (old_listpack_bytes - poff);
      '(lp, newp) ← store_entries entries lp poff poff;
      num_elements ← lpGetNumElements lp;
      lp ← (if negb (num_elements =? LP_HDR_NUMELE_UNKNOWN) then
              if zlen entries >? LP_HDR_NUMELE_UNKNOWN - num_elements
              then lpSetNumElements lp LP_HDR_NUMELE_UNKNOWN
              else lpSetNumElements lp (num_elements + zlen entries)
            else Some lp);
      lp ← lpSetTotalBytes lp new_listpack_bytes;
      Some (Some (lp, newp)).

Definition lpBatchAppend (lp : list Z) (entries : list listpackEntry) : option (option (list Z * Z)) :=
  listpack_bytes ← lpGetTotalBytes lp;
  lpBatchInsert lp (listpack_bytes - 1) LP_BEFORE entries.

(** The loop over the pointers: what is between a deleted entry and the next
    one, or the end, is moved to [dst]. *)
Fixpoint keep_loop (ps : list Z) (lp : list Z) (lp_end dst : Z) : option (list Z * Z) :=
  match ps with
  | [] => Some (lp, dst)
  | skip :: ps =>
    b ← rd lp skip;
    if b =? LP_EOF then None
    else
      keep_start ← lpSkip lp skip;
      let keep_end := match ps with next :: _ => next | [] => lp_end end in
      if bool_decide (ps <> []) && (keep_start =? keep_end) then keep_loop ps lp lp_end dst
      else if negb (keep_end >? keep_start) then None
      else
        let bytes_to_keep := keep_end - keep_start in
        lp ← memmove lp dst keep_start bytes_to_keep;
        keep_loop ps lp lp_end (dst + bytes_to_keep)
  end.

Definition lpBatchDelete (lp : list Z) (ps : list Z) : option (list Z) :=
  match ps with
  | [] => Some lp
  | dst :: _ =>
    total_bytes ← lpGetTotalBytes lp;
    let lp_end := total_bytes in
    b ← rd lp (lp_end - 1);
    if negb (b =? LP_EOF) then None
    else
      '(lp, dst) ← keep_loop ps lp lp_end dst;
      let deleted_bytes := lp_end - dst in
      let total_bytes := total_bytes - deleted_bytes in
      b ← rd lp (total_bytes - 1);
      if negb (b =? LP_EOF) then None
      else
        lp ← lpSetTotalBytes lp total_bytes;
        numele ← lpGetNumElements lp;
        lp ← (if negb (numele =? LP_HDR_NUMELE_UNKNOWN)
              then lpSetNumElements lp (uwrap 64 (numele - zlen ps)) else Some lp);
        lpShrinkToFit usable junk lp
  end.
End Alloc.

(** ** Batches: proofs *)

Definition entry_enc (e : listpackEntry) : list Z :=
  match e with SVal s => string_enc s | LVal v => lpEncodeIntegerGetType v end.

Definition entry_ok (e : listpackEntry) : Prop :=
  match e with SVal s => bytes_ok s /\ zlen s < 2 ^ 32 | LVal v => in_s 64 v end.

(** An entry as the element of [lpInsert]. *)
Definition entry_element (e : listpackEntry) : element :=
  match e with SVal s => EleStr s | LVal v => EleInt (lpEncodeIntegerGetType v) end.

Lemma element_entry_ok e : entry_ok e -> element_ok (entry_element e).
Proof. destruct e as [s|v]; cbn; [done|]. intros Hv. by exists v. Qed.

Lemma entry_news e : news (entry_element e) = [entry_enc e].
Proof. by destruct e. Qed.

Lemma entry_stored e : entry_bytes e = entry_enc e /\ entry_enclen e = zlen (entry_enc e).
Proof.
  unfold entry_bytes, entry_enclen, entry_type, entry_enc. destruct e as [s|v]; [|done].
  unfold string_enc. destruct (lpStringToInt64 s) as [v|] eqn:E.
  - unfold lpEncodeGetType. by rewrite E.
  - by rewrite string_length.
Qed.

Lemma entry_chunk e : entry_ok e -> 0 <= zlen (chunk (entry_enc e)) < 2 ^ 33.
Proof.
  intros He. pose proof (news_length _ (element_entry_ok _ He)) as H. rewrite entry_news in H.
  rewrite chunks_cons_length in H. change (zlen (chunks [])) with 0 in H. lia.
Qed.

Lemma added_len_spec es acc : Forall entry_ok es -> 0 <= acc -> acc + zlen (chunks (map entry_enc es)) < 2 ^ 64 ->
  added_len es acc = acc + zlen (chunks (map entry_enc es)).
Proof.
  revert acc. induction es as [|e es IH]; intros acc Hok Ha Hb; cbn [added_len map].
  { change (zlen (chunks [])) with 0. lia. }
  apply Forall_cons in Hok as [He Hok]. destruct (entry_stored e) as [_ ->]. cbn [map] in Hb.
  rewrite chunks_cons_length in Hb |- *. pose proof (chunk_length (entry_enc e)) as Hc.
  rewrite backlen_length by lia. pose proof (backlen_bytes_range (zlen (entry_enc e))).
  rewrite !uwrap_id by (unfold in_u; rewrite ?uwrap_id by (unfold in_u; lia); lia).
  rewrite IH by (done || lia). lia.
Qed.

Lemma chunks_bound es : Forall entry_ok es -> 0 <= zlen (chunks (map entry_enc es)) <= zlen es * 2 ^ 33.
Proof.
  induction 1 as [|e es He _ IH]; [done|]. cbn [map]. rewrite chunks_cons_length, length_cons.
  pose proof (entry_chunk e He). lia.
Qed.

(** The entries fill the gap. *)
Lemma store_spec es pre x rest newp :
  zlen x = zlen (chunks (map entry_enc es)) ->
  store_entries es (pre ++ x ++ rest) (zlen pre) newp
  = Some (pre ++ chunks (map entry_enc es) ++ rest,
          match es with [] => newp | _ => zlen pre + zlen (chunks (map entry_enc (take (length es - 1) es))) end).
Proof.
  revert pre x newp. induction es as [|e es IH]; intros pre x newp Hx; cbn [store_entries map] in *.
  { destruct x; [done|cbn in Hx; lia]. }
  rewrite chunks_cons_length in Hx. destruct (entry_stored e) as [-> ->].
  set (enc := entry_enc e) in *. set (k := length (chunk enc)).
  pose proof (write_chunk pre (take k x) (drop k x ++ rest) enc) as Hw.
  rewrite (app_assoc (take k x)), take_drop in Hw. specialize (Hw ltac:(rewrite length_take; lia)).
  destruct (wrn (pre ++ x ++ rest) (zlen pre) enc) as [m|] eqn:E1; cbn [mbind option_bind] in Hw |- *; [|done].
  rewrite Hw. cbn [mbind option_bind]. rewrite (app_assoc pre (chunk enc)). pose proof (chunk_length enc) as Hc.
  replace (zlen pre + zlen enc + zlen (lpEncodeBacklen (zlen enc))) with (zlen (pre ++ chunk enc))
    by (rewrite length_app, backlen_length by lia; lia).
  rewrite IH by (rewrite length_drop; lia). f_equal. f_equal.
  - unfold chunks. cbn [map concat]. by rewrite <- !app_assoc.
  - destruct es as [|e' es]; [cbn [length Nat.sub take map]; change (zlen (chunks [])) with 0; lia|].
    cbn [length Nat.sub take map]. rewrite chunks_cons_length, length_app. fold enc. rewrite Nat.sub_0_r. lia.
Qed.

Section Insert.
Context (usable : Z -> Z) (junk : nat -> Z).
Context (usable_ok : forall n, 0 <= n < 2 ^ 33 -> n <= usable n).

(** The header count after [k] more entries. *)
Lemma add_num t num body (es : list (list Z)) k :
  num = LP_HDR_NUMELE_UNKNOWN \/ (num = zlen es /\ zlen es < LP_HDR_NUMELE_UNKNOWN) -> 0 <= k ->
  exists num',
    (if negb (num =? LP_HDR_NUMELE_UNKNOWN) then
       if k >? LP_HDR_NUMELE_UNKNOWN - num then lpSetNumElements (le_bytes 4 t ++ le_bytes 2 num ++ body) LP_HDR_NUMELE_UNKNOWN
       else lpSetNumElements (le_bytes 4 t ++ le_bytes 2 num ++ body) (num + k)
     else Some (le_bytes 4 t ++ le_bytes 2 num ++ body)) = Some (le_bytes 4 t ++ le_bytes 2 num' ++ body) /\
    (num' = LP_HDR_NUMELE_UNKNOWN \/ (num' = zlen es + k /\ zlen es + k < LP_HDR_NUMELE_UNKNOWN)).
Proof.
  intros Hn Hk. destruct (Z.eqb_spec num LP_HDR_NUMELE_UNKNOWN) as [E|E]; cbn [negb].
  - exists num. split; [done|by left].
  - destruct Hn as [|[-> Hn]]; [done|]. rewrite !set_num. destruct (Z.gtb_spec k (LP_HDR_NUMELE_UNKNOWN - zlen es)).
    + exists LP_HDR_NUMELE_UNKNOWN. split; [done|by left].
    + exists (zlen es + k). split; [done|]. unfold LP_HDR_NUMELE_UNKNOWN in *. lia.
Qed.

Lemma batch_encs es a b : Forall entry_ok es -> Forall enc_ok (a ++ b) ->
  zlen (chunks (a ++ map entry_enc es ++ b)) + 7 < 2 ^ 32 -> Forall enc_ok (a ++ map entry_enc es ++ b).
Proof.
  intros Hok Hab Ht. apply Forall_app in Hab as [Ha Hb]. apply Forall_app. split; [done|]. apply Forall_app. split; [|done].
  apply Forall_map, Forall_forall. intros e He. rewrite Forall_forall in Hok.
  pose proof (news_ok _ (element_entry_ok e (Hok e He))) as Hn. rewrite entry_news in Hn.
  enough (Forall enc_ok [entry_enc e]) as H by (by apply Forall_cons in H as [? _]). apply Hn.
  apply list_elem_of_split in He as (l1 & l2 & ->). rewrite map_app, !chunks_app, !length_app, !Nat2Z.inj_add in Ht. cbn [map] in Ht.
  rewrite chunks_cons_length in Ht |- *. change (zlen (chunks [])) with 0. lia.
Qed.

(** The entries go between [a] and [b]. *)
Lemma batch_before lp a b es :
  rep lp (a ++ b) -> Forall entry_ok es -> es <> [] -> zlen es < 2 ^ 30 ->
  let total := zlen (chunks (a ++ map entry_enc es ++ b)) + 7 in
  if total >? UINT32_MAX then lpBatchInsert usable junk lp (off a) LP_BEFORE es = Some None
  else exists lp', lpBatchInsert usable junk lp (off a) LP_BEFORE es
         = Some (Some (lp', off (a ++ map entry_enc (take (length es - 1) es)))) /\
       rep lp' (a ++ map entry_enc es ++ b).
Proof using usable_ok.
  intros (num & tail & Hly) Hok Hne Hlen total. pose proof (chunks_bound es Hok) as Hcb.
  pose proof (layout_header _ _ _ _ Hly) as (Htot & _ & _). pose proof (ly_total _ _ _ _ Hly) as Hlt.
  unfold lpBatchInsert. rewrite (proj2 (Z.eqb_neq (zlen es) 0)) by (destruct es; [done|cbn [length]; lia]).
  change (bool_decide (LP_BEFORE = LP_REPLACE) || false) with false. cbv iota. rewrite decide_False by done. cbn [mbind option_bind].
  rewrite added_len_spec by (done || lia). rewrite Z.add_0_l, Htot. cbn [mbind option_bind].
  set (k := zlen (chunks (map entry_enc es))) in *. set (T := zlen (chunks (a ++ b)) + 7) in *.
  assert (uwrap 64 (T + k) = total) as ->.
  { rewrite uwrap_id by (unfold in_u; lia). unfold total, T, k. rewrite !chunks_app, !length_app. lia. }
  assert (total = T + k) as Htk by (unfold total, T, k; rewrite !chunks_app, !length_app; lia).
  destruct (total >? UINT32_MAX) eqn:Ebig; [done|]. assert (total < 2 ^ 32) as Hb by (unfold UINT32_MAX in Ebig; lia).
  destruct (layout_split lp a b num tail Hly) as (pre & Hlp & Hpl & Hpre). fold T in Hpre. set (tl := chunks b ++ [LP_EOF]).
  assert (zlen tl = T - off a) as Htl.
  { unfold tl, T, off, LP_HDR_SIZE. rewrite !chunks_app, !length_app. cbn [length]. lia. }
  destruct (make_gap usable junk usable_ok lp pre [] tl tail k) as (lp2 & x & r & Hmm & Hre & Hx); [|lia..|].
  { rewrite Hlp. unfold tl. cbn [app]. by rewrite <- app_assoc. }
  cbn [length] in Hmm, Hre. change (Z.of_nat 0) with 0 in Hmm, Hre. rewrite !Z.add_0_r, !Hpl in Hmm, Hre.
  replace (off a + k + zlen tl) with total in Hmm, Hre by lia. replace (off a + zlen tl) with T in Hmm, Hre by lia.
  rewrite Htl in Hmm. rewrite Hmm. cbn [mbind option_bind]. rewrite (proj2 (Z.ltb_ge total T)) in Hre by lia. rewrite Hre.
  rewrite <- Hpl, store_spec by done. cbn [mbind option_bind]. rewrite Hpre, <- !app_assoc.
  rewrite get_num by (by apply (num_range _ _ (ly_num _ _ _ _ Hly))). cbn [mbind option_bind].
  destruct (add_num T num (chunks a ++ chunks (map entry_enc es) ++ tl ++ r) (a ++ b) (zlen es)
    (ly_num _ _ _ _ Hly)) as (num' & -> & Hnum'); [lia|]. cbn [mbind option_bind]. rewrite set_total. cbn [mbind option_bind].
  eexists. split; [do 3 f_equal|].
  - destruct es; [done|]. rewrite <- Hpre, Hpl. unfold off. rewrite chunks_app, length_app. lia.
  - exists num', r. split; [|lia| |by apply batch_encs; [| apply Hly|]].
    + unfold total, tl. rewrite !chunks_app. by rewrite <- !app_assoc.
    + rewrite !length_app, length_map in *. unfold LP_HDR_NUMELE_UNKNOWN in *. lia.
Qed.
Lemma batch_after lp a x b es :
  rep lp (a ++ x :: b) ->
  lpBatchInsert usable junk lp (off a) LP_AFTER es = lpBatchInsert usable junk lp (off (a ++ [x])) LP_BEFORE es.
Proof.
  intros (num & tail & Hly). unfold lpBatchInsert. change (bool_decide (LP_AFTER = LP_REPLACE)) with false.
  change (bool_decide (LP_BEFORE = LP_REPLACE)) with false. destruct (false || (zlen es =? 0)); [done|].
  rewrite decide_True, decide_False by done. rewrite (skip_at _ _ _ _ _ _ Hly). cbn [mbind option_bind].
  rewrite (proj1 (layout_header _ _ _ _ Hly)). cbn [mbind option_bind].
  pose proof (elem_bounds _ _ _ _ _ _ Hly). pose proof (off_snoc a x).
  assert (6 <= off (a ++ [x])) by (unfold off, LP_HDR_SIZE; lia). unfold LP_HDR_SIZE.
  by rw_true ((off (a ++ [x]) >=? 6) && (off (a ++ [x]) <? zlen (chunks (a ++ x :: b)) + 7)).
Qed.

Lemma batch_append lp es0 es :
  rep lp es0 -> Forall entry_ok es -> es <> [] -> zlen es < 2 ^ 30 ->
  let total := zlen (chunks (es0 ++ map entry_enc es)) + 7 in
  if total >? UINT32_MAX then lpBatchAppend usable junk lp es = Some None
  else exists lp', lpBatchAppend usable junk lp es
         = Some (Some (lp', off (es0 ++ map entry_enc (take (length es - 1) es)))) /\
       rep lp' (es0 ++ map entry_enc es).
Proof using usable_ok.
  intros Hrep Hok Hne Hlen total. pose proof Hrep as (num & tail & Hly). unfold lpBatchAppend.
  rewrite (proj1 (layout_header _ _ _ _ Hly)). cbn [mbind option_bind].
  replace (zlen (chunks es0) + 7 - 1) with (off es0) by (unfold off, LP_HDR_SIZE; lia).
  pose proof (batch_before lp es0 [] es) as H. rewrite !app_nil_r in H. by apply H.
Qed.
End Insert.
(** ** Searching: proofs *)

(** The text of a value. *)
Definition text (x : value) : list Z := match x with Int v => Numbers.dec v | Str s => s end.

Lemma getvalue_at lp a e b x :
  rep lp (a ++ e :: b) -> stands_for e x -> lpGetValue lp (off a) = Some x.
Proof.
  intros (num & tail & Hly) Hx. pose proof (elem_inside _ _ _ _ _ _ Hly) as Hin. unfold lpGetValue, lpGet.
  rewrite <- (Z.add_0_r (off a)). destruct x as [v|s]; cbn [stands_for] in Hx.
  - destruct Hx as [Hg Hv]. by rewrite (get_mono _ _ _ _ _ Hin Hg).
  - destruct Hx as (o & Hg & Hr). rewrite (get_mono _ _ _ _ _ Hin Hg). cbn [mbind option_bind shift_value].
    apply rdn_Some in Hr as Hb. pose proof (elem_bounds _ _ _ _ _ _ Hly) as [_ Hl].
    rewrite uwrap_id by (unfold in_u; lia). destruct Hin as [_ Hin]. by rewrite (Hin _ _ _ Hr).
Qed.

(** [lpGetWithSize] agrees with [lpGet], and the size it gives is the one of
    the whole entry. *)
Lemma withsize_enc e x : enc_ok e -> stands_for e x ->
  exists v, lpGetWithBuf e 0 = Some v /\ lpGetWithSize e 0 = Some (v, Some (zlen (chunk e))).
Proof.
  intros Hok Hx. rewrite chunk_length. destruct Hok as [Hb Hs Hh].
  assert (forall o s, lpGetWithBuf e 0 = Some (VStr o s) -> 0 <= s /\ o + s <= zlen e) as Hfit.
  { intros o s Hg. destruct x as [v|t]; [destruct Hx; congruence|]. destruct Hx as (o' & Hg' & Hr). simplify_eq.
    apply rdn_Some in Hr. lia. }
  assert (exists v, lpGetWithBuf e 0 = Some v) as [v Hv] by (destruct x; [destruct Hx|destruct Hx as (? & ? & ?)]; eauto).
  exists v. split; [done|]. specialize (fun o s H => Hfit o s (eq_trans Hv (f_equal Some H))). revert Hs Hv Hfit.
  destruct e as [|b e]; [done|]. apply Forall_cons in Hb as [Hb _]. assert (b <> 255) as Hne by (by intros ->).
  set (n := zlen (b :: e)). assert (1 <= n) as Hn by (unfold n; cbn [length]; lia). clearbody n. clear Hh Hx.
  unfold lpCurrentEncodedSizeUnsafe, lpGetWithBuf, lpGetWithSize, STR_LEN6, STR_LEN12, STR_LEN32.
  change (rd (b :: e) 0) with (Some b). mred. by_class Hb. change (LP_EOF) with 255.
  repeat (case_match; try lia); intros Hs Hv Hfit;
    repeat match type of Hv with
    | (?r ≫= _) = Some _ => destruct r as [bs|]; [|done]; cbn [mbind option_bind] in Hv, Hs |- *
    end; simplify_eq; try done.
  - by rewrite (Z.add_comm (Z.land b 63)).
  - by rewrite (Z.add_comm bs 2).
  - destruct (Hfit _ _ eq_refl) as [Hp Hf]. pose proof (uwrap_range 32 (5 + bs) ltac:(lia)).
    rewrite !uwrap_id by (unfold in_u in *; lia). by rewrite (Z.add_comm bs 5).
Qed.

Lemma withsize_mono m m' d p v n :
  inside m m' d -> lpGetWithSize m p = Some (v, n) -> lpGetWithSize m' (d + p) = Some (shift_value d v, n).
Proof.
  intros [H1 H2]. unfold lpGetWithSize, STR_LEN6, STR_LEN12, STR_LEN32.
  rewrite <- !Z.add_assoc. destruct (rd m p) as [b|] eqn:Eb; [|done]. rewrite (H1 _ _ Eb). mred.
  repeat case_match; try done;
    repeat match goal with
    | |- context [rd m ?q] => destruct (rd m q) as [b1|] eqn:E; [rewrite (H1 _ _ E)|done]; mred; clear E
    | |- context [rdn m ?q ?k] => destruct (rdn m q k) as [bs|] eqn:E; [rewrite (H2 _ _ _ E)|done]; mred; clear E
    end; intros; simplify_eq; done.
Qed.

Lemma withsize_at lp a e b num tail x :
  layout lp (a ++ e :: b) num tail -> stands_for e x ->
  exists v, lpGetWithSize lp (off a) = Some (v, Some (zlen (chunk e))) /\
    match x with
    | Int n => v = VInt n
    | Str s => exists o, v = VStr o (zlen s) /\ rdn lp o (zlen s) = Some s
    end.
Proof.
  intros Hly Hx. pose proof (elem_inside _ _ _ _ _ _ Hly) as Hin. pose proof (elem_ok _ _ _ _ _ _ Hly) as Hok.
  destruct (withsize_enc e x Hok Hx) as (v & Hg & Hs). rewrite <- (Z.add_0_r (off a)).
  rewrite (withsize_mono _ _ _ _ _ _ Hin Hs). exists (shift_value (off a) v). split; [done|].
  destruct x as [n|s]; cbn [stands_for] in Hx; [destruct Hx as [Hx _]; simplify_eq; done|]. destruct Hx as (o & Hx & Hr). simplify_eq.
  exists (off a + o). split; [done|]. by apply Hin.
Qed.

Lemma find_cmp lp arg x v :
  match x with Int n => v = VInt n /\ in_s 64 n | Str s => exists o, v = VStr o (zlen s) /\ rdn lp o (zlen s) = Some s end ->
  lpFindCmp lp arg v = Some (bool_decide (text x = arg)).
Proof.
  destruct x as [n|s]; cbn [text].
  - intros [-> Hn]. cbn [lpFindCmp].
    assert (bool_decide (Numbers.dec n = arg) = match lpStringToInt64 arg with Some v => n =? v | None => false end) as ->.
    { destruct (lpStringToInt64 arg) as [v|] eqn:E.
      - apply lpStringToInt64_iff in E as [-> Hv]. destruct (Z.eqb_spec n v) as [->|Hne]; [by apply bool_decide_true|].
        apply bool_decide_false. intros Hd. apply Hne. assert (lpStringToInt64 (Numbers.dec v) = Some n) as E1 by (by apply lpStringToInt64_iff).
        assert (lpStringToInt64 (Numbers.dec v) = Some v) as E2 by (by apply lpStringToInt64_iff). congruence.
      - apply bool_decide_false. intros <-. assert (lpStringToInt64 (Numbers.dec n) = Some n) as E' by (by apply lpStringToInt64_iff).
        congruence. }
    destruct ((zlen arg >=? 32) || (zlen arg =? 0)) eqn:El; [|done]. destruct (lpStringToInt64 arg) as [v|] eqn:E; [|done].
    exfalso. unfold lpStringToInt64 in E. cbv zeta in E.
    assert ((zlen arg =? 0) || (zlen arg >=? Numbers.LONG_STR_SIZE) = true) as Hl by (unfold Numbers.LONG_STR_SIZE; lia).
    by rewrite Hl in E.
  - intros (o & -> & Hr). cbn [lpFindCmp]. destruct (Z.eqb_spec (zlen s) (zlen arg)) as [El|El].
    + rewrite Hr. done.
    + f_equal. symmetry. apply bool_decide_false. by intros ->.
Qed.

(** The position of the first entry equal to [arg], among those that are
    compared. *)
Fixpoint find_ref (arg : list Z) (skip skipcnt : Z) (vs : list value) : option nat :=
  match vs with
  | [] => None
  | x :: vs =>
    if skipcnt =? 0 then if bool_decide (text x = arg) then Some O else S <$> find_ref arg skip skip vs
    else S <$> find_ref arg skip (skipcnt - 1) vs
  end.

(** The check before the next entry is read. *)
Lemma find_next lp a b num tail :
  layout lp (a ++ b) num tail ->
  let T := zlen (chunks (a ++ b)) + 7 in
  (if off a + 8 >=? T then lpAssertValidEntry lp T (off a)
   else if (off a >=? LP_HDR_SIZE) && (off a <? T) then Some tt else None) = Some tt /\
  exists c, rd lp (off a) = Some c /\ (c =? LP_EOF) = bool_decide (b = []).
Proof.
  intros Hly T. destruct b as [|e b].
  - rewrite app_nil_r in Hly. pose proof (rd_eof _ _ _ _ Hly) as He. split; [|by exists LP_EOF].
    assert (T = off a + 1) as HT by (unfold T, off, LP_HDR_SIZE; rewrite ?app_nil_r; lia). rw_true (off a + 8 >=? T).
    unfold lpAssertValidEntry, lpValidateNext, LP_HDR_SIZE. assert (6 <= off a) by (unfold off, LP_HDR_SIZE; lia).
    rw_false ((off a <? 6) || (off a >? T - 1)). rewrite He. done.
  - split.
    + unfold T. rewrite (assert_valid_at _ _ _ _ _ _ Hly). pose proof (elem_bounds _ _ _ _ _ _ Hly) as [Hb Hl].
      pose proof (chunk_length e). pose proof (backlen_bytes_range (zlen e)). assert (6 <= off a) by (unfold off, LP_HDR_SIZE; lia).
      unfold LP_HDR_SIZE. rw_true ((off a >=? 6) && (off a <? zlen (chunks (a ++ e :: b)) + 7)). by destruct (_ >=? _).
    + destruct (first_at _ _ _ _ _ _ Hly) as (c & Hc & _ & Hne & _). exists c. split; [done|].
      rewrite bool_decide_false by done. by apply Z.eqb_neq.
Qed.

Lemma find_loop_spec lp arg skip num tail : forall vs b a fuel skipcnt sz,
  layout lp (a ++ b) num tail -> Forall2 stands_for b vs -> b <> [] -> (length b <= fuel)%nat ->
  find_loop fuel lp (zlen (chunks (a ++ b)) + 7) (lpFindCmp lp arg) skip (off a) skipcnt sz
  = Some ((fun i => off (a ++ take i b)) <$> find_ref arg skip skipcnt vs).
Proof.
  intros vs b. revert vs. induction b as [|e b IH]; intros vs a fuel skipcnt sz Hly Hvs Hne Hf; [done|].
  destruct vs as [|x vs]; [by inversion Hvs|]. apply Forall2_cons in Hvs as [Hx Hvs].
  destruct fuel as [|fuel]; [cbn in Hf; lia|]. cbn [find_loop find_ref].
  assert (layout lp ((a ++ [e]) ++ b) num tail) as Hly' by (by rewrite <- app_assoc).
  destruct (find_next _ _ _ _ _ Hly') as [Hnext (c & Hc & Hend)]. rewrite <- app_assoc in Hnext. cbn [app] in Hnext.
  assert (forall cnt sz, (_ ← (if off (a ++ [e]) + 8 >=? zlen (chunks (a ++ e :: b)) + 7
             then lpAssertValidEntry lp (zlen (chunks (a ++ e :: b)) + 7) (off (a ++ [e]))
             else if (off (a ++ [e]) >=? LP_HDR_SIZE) && (off (a ++ [e]) <? zlen (chunks (a ++ e :: b)) + 7)
                  then Some tt else None);
           ch ← rd lp (off (a ++ [e]));
           if ch =? LP_EOF then Some None
           else find_loop fuel lp (zlen (chunks (a ++ e :: b)) + 7) (lpFindCmp lp arg) skip (off (a ++ [e])) cnt sz)
          = Some ((fun i => off (a ++ take i (e :: b))) <$> (S <$> find_ref arg skip cnt vs))) as Hstep.
  { intros cnt sz'. rewrite Hnext. mred. rewrite Hc. mred. rewrite Hend. destruct b as [|e2 b].
    - inversion Hvs. done.
    - rewrite bool_decide_false by done. pose proof (IH vs (a ++ [e]) fuel cnt sz' Hly' Hvs) as IH'.
      rewrite <- app_assoc in IH'. cbn [app] in IH'. rewrite IH' by (done || (cbn in Hf |- *; lia)).
      destruct (find_ref arg skip cnt vs); cbn [fmap option_fmap option_map]; [|done]. by rewrite <- app_assoc. }
  destruct (skipcnt =? 0).
  - destruct (withsize_at _ _ _ _ _ _ _ Hly Hx) as (v & -> & Hv). mred.
    assert ((match v with
             | VStr _ _ => if (off a >=? LP_HDR_SIZE) && (off a + zlen (chunk e) <? zlen (chunks (a ++ e :: b)) + 7) then Some tt else None
             | VInt _ => Some tt end) = Some tt) as ->.
    { destruct v; [done|]. pose proof (elem_bounds _ _ _ _ _ _ Hly). assert (6 <= off a) by (unfold off, LP_HDR_SIZE; lia).
      unfold LP_HDR_SIZE. by rw_true ((off a >=? 6) && (off a + zlen (chunk e) <? zlen (chunks (a ++ e :: b)) + 7)). }
    mred. rewrite (find_cmp lp arg x v) by (destruct x; [destruct Hx; done|done]). mred.
    destruct (bool_decide (text x = arg)); [cbn; by rewrite app_nil_r|]. mred. rewrite <- off_snoc. apply Hstep.
  - rewrite (skip_at _ _ _ _ _ _ Hly). mred. apply Hstep.
Qed.

Lemma lookup_spec lp es vs p arg skip :
  rep lp es -> Forall2 stands_for es vs -> p = None \/ p = ptr [] es ->
  lpFind lp p arg skip = Some ((fun i => off (take i es)) <$> find_ref arg skip 0 vs).
Proof.
  intros (num & tail & Hly) Hvs Hp. unfold lpFind, lpBytes. rewrite (proj1 (layout_header _ _ _ _ Hly)). mred.
  assert ((match p with Some p => Some (Some p) | None => lpFirst lp end) = Some (ptr [] es)) as ->.
  { destruct Hp as [-> | ->]; [by rewrite (first_spec _ _ _ _ Hly)|]. destruct (ptr [] es) eqn:E; [done|].
    by rewrite (first_spec _ _ _ _ Hly), E. }
  mred. destruct es as [|e es]; [by inversion Hvs|]. cbn [ptr]. pose proof (elems_fuel _ _ _ _ Hly).
  apply (find_loop_spec lp arg skip num tail vs (e :: es) []); [done|done|done|]. lia.
Qed.
(** *** Comparison *)

Lemma compare_at lp a e b x s :
  rep lp (a ++ e :: b) -> stands_for e x -> lpCompare lp (off a) s = Some (bool_decide (text x = s)).
Proof.
  intros (num & tail & Hly) Hx. destruct (first_at _ _ _ _ _ _ Hly) as (c & Hc & _ & Hne & _). unfold lpCompare.
  rewrite Hc. mred. rw_false (c =? LP_EOF). destruct (withsize_enc e x (elem_ok _ _ _ _ _ _ Hly) Hx) as (v & Hg & _).
  pose proof (elem_inside _ _ _ _ _ _ Hly) as Hin. unfold lpGet. rewrite <- (Z.add_0_r (off a)).
  rewrite (get_mono _ _ _ _ _ Hin Hg). mred.
  assert (match x with Int n => shift_value (off a) v = VInt n /\ in_s 64 n
          | Str t => exists o, shift_value (off a) v = VStr o (zlen t) /\ rdn lp o (zlen t) = Some t end) as Hv.
  { destruct x as [n|t]; cbn [stands_for] in Hx; [destruct Hx as [Hx ?]; by simplify_eq|]. destruct Hx as (o & Hx & Hr). simplify_eq.
    exists (off a + o). split; [done|]. by apply Hin. }
  pose proof (find_cmp lp s x _ Hv) as Hf. destruct (shift_value (off a) v) as [n|o len]; cbn [lpFindCmp] in Hf.
  - rewrite <- Hf. destruct ((zlen s >=? 32) || (zlen s =? 0)) eqn:El; [|done]. unfold lpStringToInt64, Numbers.LONG_STR_SIZE. cbv zeta.
    by rw_true ((zlen s =? 0) || (zlen s >=? 21)).
  - rewrite <- Hf, Z.eqb_sym. done.
Qed.

(** ** Deletion of a batch: proofs *)

Lemma memmove_left pre g tl r :
  exists g', memmove (pre ++ g ++ tl ++ r) (zlen pre) (zlen pre + zlen g) (zlen tl) = Some (pre ++ tl ++ g' ++ r) /\
    zlen g' = zlen g.
Proof.
  unfold memmove. rewrite (app_assoc pre g), (rdn_app (pre ++ g) tl r) by (rewrite ?length_app; lia). mred.
  exists (drop (length tl) (g ++ tl)). split; [|rewrite length_drop, length_app; lia].
  rewrite <- app_assoc, (app_assoc g tl), <- (take_drop (length tl) (g ++ tl)), <- (app_assoc (take _ _)).
  rewrite wrn_app by (rewrite ?length_take, ?length_app; lia). by rewrite take_drop.
Qed.

(** Entries to delete, each with the entries to keep that follow it. *)
Definition seg_all (segs : list (list Z * list (list Z))) : list (list Z) := concat (map (fun s => s.1 :: s.2) segs).
Definition seg_kept (segs : list (list Z * list (list Z))) : list (list Z) := concat (map snd segs).

Fixpoint seg_ptrs (p : Z) (segs : list (list Z * list (list Z))) : list Z :=
  match segs with
  | [] => []
  | s :: segs => p :: seg_ptrs (p + zlen (chunks (s.1 :: s.2))) segs
  end.

Lemma skip_in pre e rest : enc_ok e -> lpSkip (pre ++ chunk e ++ rest) (zlen pre) = Some (zlen pre + zlen (chunk e)) /\
  exists c, rd (pre ++ chunk e ++ rest) (zlen pre) = Some c /\ c <> LP_EOF.
Proof.
  intros He. unfold chunk. rewrite <- app_assoc. pose proof (inside_app pre e (lpEncodeBacklen (zlen e) ++ rest)) as Hin. split.
  - unfold lpSkip. rewrite <- (Z.add_0_r (zlen pre)) at 1. rewrite (size_mono e _ _ _ _ Hin (eo_size _ He)). mred.
    rewrite length_app, Nat2Z.inj_add, backlen_length by lia. done.
  - destruct (enc_first e He) as (c & Hc & _ & Hne & _). exists c. split; [|done].
    rewrite <- (Z.add_0_r (zlen pre)). apply Hin. by destruct e; simplify_eq.
Qed.

(** One turn of the loop: [keep], which starts behind the deleted entry and
    ends at [keep_end], is moved to the entries kept before. *)
Lemma keep_step pre g d keep rest p ps lp_end :
  enc_ok d -> p = zlen pre + zlen g -> match ps with q :: _ => q | [] => lp_end end = p + zlen (chunk d) + zlen keep ->
  (ps <> [] \/ keep <> []) ->
  exists g', keep_loop (p :: ps) (pre ++ g ++ chunk d ++ keep ++ rest) lp_end (zlen pre)
    = keep_loop ps (pre ++ keep ++ g' ++ rest) lp_end (zlen (pre ++ keep)) /\ zlen g' = zlen g + zlen (chunk d).
Proof.
  intros Hd -> Hend Hne. cbn [keep_loop]. rewrite (app_assoc pre g). destruct (skip_in (pre ++ g) d (keep ++ rest) Hd) as [Hskip (c & Hc & Hce)].
  rewrite length_app, Nat2Z.inj_add in Hskip, Hc. rewrite Hc. mred. rw_false (c =? LP_EOF). rewrite Hskip. mred. rewrite <- app_assoc, Hend.
  destruct keep as [|y keep'].
  - destruct Hne as [Hne|]; [|done]. rewrite bool_decide_true by done. cbn [length andb app]. rewrite Z.add_0_r, Z.eqb_refl, app_nil_r.
    exists (g ++ chunk d). split; [by rewrite <- app_assoc|rewrite length_app; lia].
  - set (keep := y :: keep'). assert (1 <= zlen keep) by (cbn [keep length]; lia).
    rw_false (zlen pre + zlen g + zlen (chunk d) =? zlen pre + zlen g + zlen (chunk d) + zlen keep). rewrite andb_false_r.
    rw_true (zlen pre + zlen g + zlen (chunk d) + zlen keep >? zlen pre + zlen g + zlen (chunk d)). cbn [negb].
    replace (zlen pre + zlen g + zlen (chunk d) + zlen keep - (zlen pre + zlen g + zlen (chunk d))) with (zlen keep) by lia.
    destruct (memmove_left pre (g ++ chunk d) keep rest) as (g' & Hm & Hg').
    rewrite length_app, Nat2Z.inj_add, Z.add_assoc, <- !app_assoc in Hm. rewrite Hm. mred. exists g'.
    rewrite !length_app, !Nat2Z.inj_add in *. done.
Qed.

Lemma keep_loop_spec segs : forall pre g tail p lp_end,
  segs <> [] -> Forall enc_ok (seg_all segs) -> p = zlen pre + zlen g -> lp_end = p + zlen (chunks (seg_all segs)) + 1 ->
  exists r, keep_loop (seg_ptrs p segs) (pre ++ g ++ chunks (seg_all segs) ++ LP_EOF :: tail) lp_end (zlen pre)
    = Some (pre ++ chunks (seg_kept segs) ++ LP_EOF :: r, zlen pre + zlen (chunks (seg_kept segs)) + 1).
Proof.
  induction segs as [|[d k] segs IH]; intros pre g tail p lp_end Hne Hok Hp Hend; [done|]. clear Hne.
  unfold seg_all, seg_kept in *. cbn [map concat fst snd seg_ptrs] in *. set (rest := concat (map (fun s => s.1 :: s.2) segs)) in *.
  cbn [app] in *. apply Forall_cons in Hok as [Hd Hok]. apply Forall_app in Hok as [Hk Hok].
  assert (chunks (d :: k ++ rest) = chunk d ++ chunks k ++ chunks rest) as Hch.
  { unfold chunks. cbn [map concat]. by rewrite map_app, concat_app. }
  rewrite chunks_cons_length. rewrite Hch, !length_app in Hend. rewrite Hch, <- !app_assoc. destruct segs as [|s segs].
  - cbn [seg_ptrs]. subst rest. cbn [map concat] in *. change (chunks []) with (@nil Z) in *. cbn [app length] in *. rewrite app_nil_r.
    destruct (keep_step pre g d (chunks k ++ [LP_EOF]) tail p [] lp_end) as (g' & Hs & _); [done|done| |right; by destruct (chunks k)|].
    { rewrite length_app. cbn [length]. lia. }
    rewrite <- !app_assoc in Hs. cbn [app] in Hs. rewrite Hs. cbn [keep_loop]. exists (g' ++ tail).
    rewrite !length_app. cbn [length]. do 2 f_equal. lia.
  - destruct (keep_step pre g d (chunks k) (chunks rest ++ LP_EOF :: tail) p (seg_ptrs (p + (zlen (chunk d) + zlen (chunks k))) (s :: segs)) lp_end)
      as (g' & Hs & Hg'); [done|done|cbn [seg_ptrs]; lia|by left|]. rewrite Hs. rewrite app_assoc.
    destruct (IH (pre ++ chunks k) g' tail (p + (zlen (chunk d) + zlen (chunks k))) lp_end) as (r & Hr); [done|done|rewrite length_app; lia|lia|].
    exists r. rewrite Hr, chunks_app, <- !app_assoc, !length_app. do 2 f_equal. lia.
Qed.

Section Delete.
Context (usable : Z -> Z) (junk : nat -> Z).
Context (usable_ok : forall n, 0 <= n < 2 ^ 33 -> n <= usable n).

Lemma seg_counts segs : zlen (seg_kept segs) + zlen segs = zlen (seg_all segs).
Proof.
  unfold seg_kept, seg_all. induction segs as [|s segs IH]; [done|]. cbn [map concat app length]. rewrite !length_app. lia.
Qed.

Lemma seg_ptrs_length p segs : zlen (seg_ptrs p segs) = zlen segs.
Proof. revert p. induction segs as [|s segs IH]; intros p; cbn [seg_ptrs length]; [done|]. specialize (IH (p + zlen (chunks (s.1 :: s.2)))). lia. Qed.

Lemma seg_kept_ok segs : Forall enc_ok (seg_all segs) -> Forall enc_ok (seg_kept segs) /\ zlen (chunks (seg_kept segs)) <= zlen (chunks (seg_all segs)).
Proof.
  unfold seg_kept, seg_all. induction segs as [|s segs IH]; cbn [map concat]; [done|]. cbn [app]. intros [Hd Hok]%Forall_cons.
  apply Forall_app in Hok as [Hk Hok]. destruct (IH Hok) as [H1 H2]. split; [by apply Forall_app|].
  rewrite chunks_cons_length, !chunks_app, !length_app. lia.
Qed.

Lemma batch_delete_spec lp a segs :
  rep lp (a ++ seg_all segs) ->
  exists lp', lpBatchDelete usable junk lp (seg_ptrs (off a) segs) = Some lp' /\ rep lp' (a ++ seg_kept segs).
Proof using usable_ok.
  intros (num & tail & Hly). destruct segs as [|s segs0]; [exists lp; split; [done|by exists num, tail]|]. set (segs := s :: segs0) in *.
  pose proof (layout_header _ _ _ _ Hly) as (Htot & _ & _). destruct (layout_split _ _ _ _ _ Hly) as (pre & Hlp & Hpl & Hpre).
  pose proof (ly_encs _ _ _ _ Hly) as Hok. apply Forall_app in Hok as [Ha Hok]. destruct (seg_kept_ok segs Hok) as [Hk Hle].
  destruct (keep_loop_spec segs pre [] tail (off a) (zlen (chunks (a ++ seg_all segs)) + 7)) as (r & Hr); [done|done| | |].
  { cbn [length]. lia. }
  { unfold off, LP_HDR_SIZE. rewrite chunks_app, length_app. lia. }
  cbn [app] in Hr. rewrite <- Hlp, Hpl in Hr. unfold lpBatchDelete. unfold segs at 1. cbn [seg_ptrs]. fold segs. rewrite Htot. mred.
  assert (rd lp (zlen (chunks (a ++ seg_all segs)) + 7 - 1) = Some LP_EOF) as ->.
  { rewrite <- (rd_eof _ _ _ _ Hly). f_equal. unfold off, LP_HDR_SIZE. lia. }
  mred. change (negb (LP_EOF =? LP_EOF)) with false. cbv iota. change (off a :: seg_ptrs (off a + zlen (chunks (s.1 :: s.2))) segs0) with (seg_ptrs (off a) segs).
  rewrite Hr. mred. set (K := chunks (seg_kept segs)) in *. set (T := zlen (chunks (a ++ seg_all segs)) + 7) in *.
  replace (T - (T - (off a + zlen K + 1))) with (zlen (chunks (a ++ seg_kept segs)) + 7)
    by (unfold off, LP_HDR_SIZE; rewrite chunks_app, length_app; fold K; lia).
  set (T' := zlen (chunks (a ++ seg_kept segs)) + 7).
  assert (rd (pre ++ K ++ LP_EOF :: r) (T' - 1) = Some LP_EOF) as ->.
  { rewrite app_assoc. rewrite (rd_app_r (pre ++ K)); [done|]. rewrite length_app. unfold T', off, LP_HDR_SIZE in *.
    rewrite chunks_app, length_app. fold K. lia. }
  mred. change (negb (LP_EOF =? LP_EOF)) with false. cbv iota. rewrite Hpre, <- !app_assoc, set_total. mred.
  rewrite get_num by (by apply (num_range _ _ (ly_num _ _ _ _ Hly))). mred. pose proof (seg_counts segs) as Hcnt.
  destruct (del_num T' num (chunks a ++ K ++ LP_EOF :: r) (a ++ seg_all segs) (zlen (seg_ptrs (off a) segs)) (ly_num _ _ _ _ Hly)) as (num' & -> & Hnum').
  { rewrite seg_ptrs_length, length_app. lia. }
  mred. destruct (shrink_spec usable junk usable_ok (le_bytes 4 T' ++ le_bytes 2 num' ++ chunks a ++ K ++ LP_EOF :: r) (a ++ seg_kept segs) num' r)
    as (lp' & tail' & E & Hly'); [|exists lp'; split; [exact E|by exists num', tail']].
  pose proof (ly_total _ _ _ _ Hly) as Ht. rewrite seg_ptrs_length in Hnum'. split.
  - fold T'. rewrite (chunks_app a). fold K. by rewrite <- app_assoc.
  - rewrite chunks_app, length_app in Ht |- *. fold K. lia.
  - rewrite !length_app in *. lia.
  - by apply Forall_app.
Qed.

(** Deleting entries at the given increasing positions, in any number of
    runs and gaps, leaves exactly the other entries, in order, and updates the
    counts of bytes and of entries. *)
Theorem lpBatchDelete_correct lp a segs :
  rep lp (a ++ seg_all segs) ->
  exists lp', lpBatchDelete usable junk lp (seg_ptrs (off a) segs) = Some lp' /\ rep lp' (a ++ seg_kept segs).
Proof using usable_ok. apply batch_delete_spec. Qed.
End Delete.

Lemma lpBatchDelete_correct_witness :
  exists lp', lpBatchDelete id_usable (fun _ => 7) lp_example [6; 17] = Some lp' /\ rep lp' [[241; 255; 239]].
Proof.
  apply (lpBatchDelete_correct id_usable (fun _ => 7) id_usable_ok lp_example [] [([133; 104; 101; 108; 108; 111], [[241; 255; 239]]); ([12], [])]).
  apply lp_example_rep.
Defined.
End ListpackBatch.
