(* ===== verification/Zzl.v ===== *)
(** * Sorted sets in listpacks ([redis-stable/src/t_zset.c])

    A small sorted set is a listpack that holds every element followed by its
    score: reading of scores, comparison, search, insertion at the place the
    order gives, and the first, the last and the deletion of a range. *)

From Stdlib Require Import SpecFloat.
From stdpp Require Import gmap sorting.
From S2P Require Import Prelude Numbers Sds Listpack ListpackBatch.
From S2P Require Import Skiplist SortedSet ZslRange.
Import Listpack ListpackBatch Skiplist SortedSet ZslRange.

Module Zzl.

(** The operations on doubles besides comparison: conversion from and to
    [long long], addition, and the tests of [d2string]. *)
Class Floats (SC : Score) := {
  of_ll : Z -> double;
  to_ll : double -> Z;
  dadd : double -> double -> double;
  isinf : double -> bool;
  recip_neg : double -> bool;  (** [1.0/value < 0] for a zero *)
}.

#[export] Instance binary64_ops : Floats binary64 := {|
  of_ll v := binary_normalize 53 1024 v 0 false;
  to_ll f := match f with
             | S754_finite s m e =>
               let a := if 0 <=? e then Zpos m * 2 ^ e else Zpos m / 2 ^ (- e) in
               if s then - a else a
             | _ => 0
             end;
  dadd := SFadd 53 1024;
  isinf f := match f with S754_infinity _ => true | _ => false end;
  recip_neg f := match f with S754_zero s => s | _ => false end |}.

Section Model.
Context {SC : Score} {FL : Floats SC}.

(** [strtod]: [fast_float_strtod] on the bytes of a buffer; [dtoa]:
    [fpconv_dtoa]; [usable], [junk]: the allocator. *)
Context (strtod : list Z -> double) (dtoa : double -> list Z) (usable : Z -> Z) (junk : nat -> Z).

(** ** Numbers *)

Definition double2ll (d : double) : option Z :=
  if dlt d (of_ll (-4611686018427387903)) || dlt (of_ll 4611686018427387903) d then None
  else let ll := to_ll d in if deq (of_ll ll) d then Some ll else None.

(** The text of an integer, as [ll2string] writes it to a buffer. *)
Definition ll_text (v : Z) : option (list Z) :=
  '(buf, n) ← Numbers.ll2string (replicate 32 0) v; rdn buf 0 n.

Definition d2string (value : double) : option (list Z) :=
  if isnan value then Some [110; 97; 110]
  else if isinf value then Some (if dlt value dzero then [45; 105; 110; 102] else [105; 110; 102])
  else if deq value dzero then Some (if recip_neg value then [45; 48] else [48])
  else match double2ll value with
       | Some lvalue => ll_text lvalue
       | None => Some (dtoa value)
       end.

Definition zzlStrtod (vstr : list Z) : double :=
  let vlen := if zlen vstr >? 127 then 127 else zlen vstr in
  strtod (take (Z.to_nat vlen) vstr).

(** ** Reading *)

Definition zzlGetScore (zl : list Z) (sptr : Z) : option double :=
  v ← lpGetValue zl sptr;
  Some (match v with Str vstr => zzlStrtod vstr | Int vlong => of_ll vlong end).

Definition lpGetObject (zl : list Z) (sptr : Z) : option (list Z) :=
  v ← lpGetValue zl sptr;
  match v with Str vstr => Some vstr | Int vlong => ll_text vlong end.

(** The first [clen] bytes, for a length kept in 32 bits. *)
Definition cut32 (s : list Z) : list Z := take (Z.to_nat (uwrap 32 (zlen s))) s.

Definition zzlCompareElements (zl : list Z) (eptr : Z) (cstr : list Z) : option Z :=
  v ← lpGetValue zl eptr;
  vstr ← (match v with Str vstr => Some vstr | Int vlong => ll_text vlong end);
  let vlen := zlen vstr in
  let clen := zlen cstr in
  let minlen := swrap 32 (if vlen <? clen then vlen else clen) in
  if minlen <? 0 then None
  else
    let cmp := Sds.memcmp (take (Z.to_nat minlen) vstr) (take (Z.to_nat minlen) cstr) in
    Some (if cmp =? 0 then swrap 32 (vlen - clen) else cmp).

(** The length, and the listpack with the count [lpLength] may have stored. *)
Definition zzlLength (zl : list Z) : option (Z * list Z) :=
  '(n, zl) ← lpLength zl; Some (uwrap 32 (n / 2), zl).

(** [serverAssert(p != NULL)] *)
Definition asserted {A} (p : option A) : option A := p.

Definition zzlNext (zl : list Z) (eptr sptr : Z) : option (option (Z * Z)) :=
  e ← lpNext zl sptr;
  match e with
  | None => Some None
  | Some e => s ← lpNext zl e; s ← asserted s; Some (Some (e, s))
  end.

Definition zzlPrev (zl : list Z) (eptr sptr : Z) : option (option (Z * Z)) :=
  s ← lpPrev zl eptr;
  match s with
  | None => Some None
  | Some s => e ← lpPrev zl s; e ← asserted e; Some (Some (e, s))
  end.

(** The element found, with its score when the caller wants it. *)
Definition zzlFind (zl ele : list Z) (want : bool) : option (option (Z * option double)) :=
  first ← lpFirst zl;
  match first with
  | None => Some None
  | Some p =>
    eptr ← lpFind zl (Some p) (cut32 ele) 1;
    match eptr with
    | None => Some None
    | Some eptr =>
      sptr ← lpNext zl eptr;
      sptr ← asserted sptr;
      if want then score ← zzlGetScore zl sptr; Some (Some (eptr, Some score))
      else Some (Some (eptr, None))
    end
  end.

(** ** Modification *)

Definition zzlDelete (zl : list Z) (eptr : Z) : option (list Z) :=
  '(zl, _) ← lpDeleteRangeWithEntry usable junk zl eptr 2; Some zl.

Definition score_entry (score : double) : option listpackEntry :=
  match double2ll score with
  | Some lscore => Some (LVal lscore)
  | None => scorebuf ← d2string score; Some (SVal scorebuf)
  end.

(** [Some None] is the null pointer. *)
Definition zzlInsertAt (zl : list Z) (eptr : option Z) (ele : list Z) (score : double) : option (option (list Z)) :=
  s ← score_entry score;
  let entries := [SVal (cut32 ele); s] in
  r ← (match eptr with
       | None => lpBatchAppend usable junk zl entries
       | Some p => lpBatchInsert usable junk zl p LP_BEFORE entries
       end);
  Some (match r with Some (zl, _) => Some zl | None => None end).

Fixpoint insert_loop (fuel : nat) (zl : list Z) (eptr : option Z) (ele : list Z) (score : double)
    : option (option (list Z)) :=
  match eptr with
  | None => zzlInsertAt zl None ele score
  | Some e =>
    match fuel with
    | O => None
    | S fuel =>
      sptr ← lpNext zl e;
      sptr ← asserted sptr;
      s ← zzlGetScore zl sptr;
      here ← (if dlt score s then Some true
              else if deq s score then c ← zzlCompareElements zl e (cut32 ele); Some (0 <? c)
              else Some false);
      if here : bool then zzlInsertAt zl (Some e) ele score
      else next ← lpNext zl sptr; insert_loop fuel zl next ele score
    end
  end.

Definition zzlInsert (zl ele : list Z) (score : double) : option (option (list Z)) :=
  eptr ← lpSeek zl 0; insert_loop (length zl) zl eptr ele score.

(** ** Ranges

    The functions for scores and for strings differ in the tests of an entry,
    [gte] and [lte], given the pointer to its element. *)

Definition score_at (zl : list Z) (eptr : Z) : option double :=
  sptr ← lpNext zl eptr; sptr ← asserted sptr; zzlGetScore zl sptr.

Definition zzl_score_gte (range : zrangespec) (zl : list Z) (eptr : Z) : option bool :=
  s ← score_at zl eptr; Some (zslValueGteMin s range).
Definition zzl_score_lte (range : zrangespec) (zl : list Z) (eptr : Z) : option bool :=
  s ← score_at zl eptr; Some (zslValueLteMax s range).
Definition zzlLexValueGteMin (spec : zlexrangespec) (zl : list Z) (p : Z) : option bool :=
  value ← lpGetObject zl p; Some (zslLexValueGteMin value spec).
Definition zzlLexValueLteMax (spec : zlexrangespec) (zl : list Z) (p : Z) : option bool :=
  value ← lpGetObject zl p; Some (zslLexValueLteMax value spec).

Definition zzlIsInRange (zl : list Z) (range : zrangespec) : option bool :=
  if dlt (r_max range) (r_min range) || (deq (r_min range) (r_max range) && (r_minex range || r_maxex range))
  then Some false
  else
    p ← lpSeek zl (-1);
    match p with
    | None => Some false
    | Some p =>
      score ← zzlGetScore zl p;
      if negb (zslValueGteMin score range) then Some false
      else
        p ← lpSeek zl 1;
        p ← asserted p;
        score ← zzlGetScore zl p;
        Some (zslValueLteMax score range)
    end.

Definition zzlIsInLexRange (zl : list Z) (range : zlexrangespec) : option bool :=
  let cmp := sdscmplex (l_min range) (l_max range) in
  if (0 <? cmp) || ((cmp =? 0) && (l_minex range || l_maxex range)) then Some false
  else
    p ← lpSeek zl (-2);
    match p with
    | None => Some false
    | Some p =>
      b ← zzlLexValueGteMin range zl p;
      if negb b then Some false
      else
        p ← lpSeek zl 0;
        p ← asserted p;
        zzlLexValueLteMax range zl p
    end.

Section Range.
Context (gte lte : list Z -> Z -> option bool).

Fixpoint first_loop (fuel : nat) (zl : list Z) (eptr : option Z) : option (option Z) :=
  match eptr with
  | None => Some None
  | Some e =>
    match fuel with
    | O => None
    | S fuel =>
      b ← gte zl e;
      if b : bool then c ← lte zl e; Some (if c : bool then Some e else None)
      else
        sptr ← lpNext zl e;
        sptr ← asserted sptr;
        next ← lpNext zl sptr;
        first_loop fuel zl next
    end
  end.

Fixpoint last_loop (fuel : nat) (zl : list Z) (eptr : option Z) : option (option Z) :=
  match eptr with
  | None => Some None
  | Some e =>
    match fuel with
    | O => None
    | S fuel =>
      b ← lte zl e;
      if b : bool then c ← gte zl e; Some (if c : bool then Some e else None)
      else
        sptr ← lpPrev zl e;
        match sptr with
        | None => last_loop fuel zl None
        | Some s => prev ← lpPrev zl s; prev ← asserted prev; last_loop fuel zl (Some prev)
        end
    end
  end.

(** [while (eptr && (sptr = lpNext(zl,eptr)) != NULL)] *)
Fixpoint delete_range_while (fuel : nat) (zl : list Z) (eptr : option Z) (num : Z) : option (list Z * Z) :=
  match eptr with
  | None => Some (zl, num)
  | Some e =>
    match fuel with
    | O => None
    | S fuel =>
      sptr ← lpNext zl e;
      match sptr with
      | None => Some (zl, num)
      | Some _ =>
        b ← lte zl e;
        if b : bool then
          '(zl, eptr) ← lpDeleteRangeWithEntry usable junk zl e 2;
          delete_range_while fuel zl eptr (uwrap 64 (num + 1))
        else Some (zl, num)
      end
    end
  end.

Definition first_in (isin : option bool) (zl : list Z) : option (option Z) :=
  eptr ← lpSeek zl 0;
  isin ← isin;
  if negb isin then Some None else first_loop (length zl) zl eptr.

Definition last_in (isin : option bool) (zl : list Z) : option (option Z) :=
  eptr ← lpSeek zl (-2);
  isin ← isin;
  if negb isin then Some None else last_loop (length zl) zl eptr.

Definition delete_in (isin : option bool) (zl : list Z) : option (list Z * Z) :=
  eptr ← first_in isin zl;
  match eptr with
  | None => Some (zl, 0)
  | Some e => delete_range_while (length zl) zl (Some e) 0
  end.
End Range.

Definition zzlFirstInRange (zl : list Z) (range : zrangespec) : option (option Z) :=
  first_in (zzl_score_gte range) (zzl_score_lte range) (zzlIsInRange zl range) zl.
Definition zzlLastInRange (zl : list Z) (range : zrangespec) : option (option Z) :=
  last_in (zzl_score_gte range) (zzl_score_lte range) (zzlIsInRange zl range) zl.
Definition zzlFirstInLexRange (zl : list Z) (range : zlexrangespec) : option (option Z) :=
  first_in (zzlLexValueGteMin range) (zzlLexValueLteMax range) (zzlIsInLexRange zl range) zl.
Definition zzlLastInLexRange (zl : list Z) (range : zlexrangespec) : option (option Z) :=
  last_in (zzlLexValueGteMin range) (zzlLexValueLteMax range) (zzlIsInLexRange zl range) zl.

(** The listpack and the number of pairs deleted. *)
Definition zzlDeleteRangeByScore (zl : list Z) (range : zrangespec) : option (list Z * Z) :=
  delete_in (zzl_score_gte range) (zzl_score_lte range) (zzlIsInRange zl range) zl.
Definition zzlDeleteRangeByLex (zl : list Z) (range : zlexrangespec) : option (list Z * Z) :=
  delete_in (zzlLexValueGteMin range) (zzlLexValueLteMax range) (zzlIsInLexRange zl range) zl.
Definition zzlDeleteRangeByRank (zl : list Z) (start end_ : Z) : option (list Z * Z) :=
  let num := uwrap 32 (uwrap 32 (end_ - start) + 1) in
  zl ← lpDeleteRange usable junk zl (uwrap 32 (2 * uwrap 32 (start - 1))) (uwrap 32 (2 * num));
  Some (zl, num).
(** ** The pairs in a listpack

    A pair: the two encoded entries and what they stand for. *)
Record pair := Pair { p_ele : list Z; p_score : list Z; p_elev : value; p_scorev : value }.

Definition pair_ok (q : pair) : Prop := stands_for (p_ele q) (p_elev q) /\ stands_for (p_score q) (p_scorev q).
Definition flat (Q : list pair) : list (list Z) := concat (map (fun q => [p_ele q; p_score q]) Q).
Definition values (Q : list pair) : list value := concat (map (fun q => [p_elev q; p_scorev q]) Q).

Definition zrep (zl : list Z) (Q : list pair) : Prop := rep zl (flat Q) /\ Forall pair_ok Q.

Definition score_of (v : value) : double := match v with Str s => zzlStrtod s | Int v => of_ll v end.

Abbreviation item := (double * list Z)%type.
Abbreviation sorted := (StronglySorted (fun a b => ilt a b = true)).
Abbreviation numbers := (Forall (fun x : item => isnan x.1 = false)).
Definition pitem (q : pair) : item := (score_of (p_scorev q), text (p_elev q)).

(** Pointers to the element and to the score behind the pairs [Q1]. *)
Definition epos (Q1 : list pair) : Z := off (flat Q1).
Definition spos (Q1 : list pair) (q : pair) : Z := off (flat Q1 ++ [p_ele q]).
Definition eptr (Q1 Q2 : list pair) : option Z := match Q2 with [] => None | _ => Some (epos Q1) end.

Lemma flat_app Q1 Q2 : flat (Q1 ++ Q2) = flat Q1 ++ flat Q2.
Proof. unfold flat. by rewrite map_app, concat_app. Qed.
Lemma flat_cons q Q : flat (q :: Q) = p_ele q :: p_score q :: flat Q.
Proof. done. Qed.
Lemma flat_length Q : length (flat Q) = (2 * length Q)%nat.
Proof. induction Q as [|q Q IH]; [done|]. rewrite flat_cons. cbn [length]. lia. Qed.

Lemma flat_stands Q : Forall pair_ok Q -> Forall2 stands_for (flat Q) (values Q).
Proof. induction 1 as [|q Q [H1 H2] _ IH]; [constructor|]. unfold values. cbn. by repeat constructor. Qed.

Lemma take_flat Q1 Q2 : take (2 * length Q1) (flat (Q1 ++ Q2)) = flat Q1.
Proof. rewrite flat_app, <- flat_length. apply take_app_length. Qed.

Section Nav.
Context (zl : list Z) (Q1 : list pair) (q : pair) (Q2 : list pair).
Context (Hz : zrep zl (Q1 ++ q :: Q2)).

Lemma nav_rep : rep zl (flat Q1 ++ p_ele q :: p_score q :: flat Q2) /\ pair_ok q.
Proof using Hz.
  destruct Hz as [Hr Hok]. rewrite flat_app, flat_cons in Hr. split; [done|]. by apply Forall_app in Hok as [_ [? _]%Forall_cons].
Qed.

Lemma nav_score : lpNext zl (epos Q1) = Some (Some (spos Q1 q)).
Proof using Hz. destruct nav_rep as [(num & tail & Hly) _]. apply (next_spec _ _ _ _ _ _ Hly). Qed.

Lemma nav_next : lpNext zl (spos Q1 q) = Some (eptr (Q1 ++ [q]) Q2).
Proof using Hz.
  destruct nav_rep as [(num & tail & Hly) _]. rewrite cons_middle, app_assoc in Hly. rewrite cons_middle in Hly.
  unfold spos, eptr, epos. rewrite (next_spec zl (flat Q1 ++ [p_ele q]) (p_score q) (flat Q2) num tail) by exact Hly.
  unfold ptr. rewrite flat_app, flat_cons, <- app_assoc. cbn [app]. destruct Q2 as [|q2 Q3]; [done|]. by rewrite flat_cons.
Qed.

Lemma nav_getscore : zzlGetScore zl (spos Q1 q) = Some (pitem q).1.
Proof using Hz.
  destruct nav_rep as [Hr [_ Hs]]. rewrite cons_middle, app_assoc in Hr. unfold zzlGetScore, spos.
  rewrite (getvalue_at zl (flat Q1 ++ [p_ele q]) (p_score q) (flat Q2) _ Hr Hs). done.
Qed.

Lemma nav_getelement : lpGetValue zl (epos Q1) = Some (p_elev q).
Proof using Hz. destruct nav_rep as [Hr [He _]]. by apply (getvalue_at zl (flat Q1) (p_ele q) (p_score q :: flat Q2)). Qed.

Lemma nav_prev_score : lpPrev zl (spos Q1 q) = Some (Some (epos Q1)).
Proof using Hz. destruct nav_rep as [(num & tail & Hly) _]. by apply (prev_spec _ _ _ _ _ _ Hly). Qed.

Lemma nav_prev : lpPrev zl (epos (Q1 ++ [q])) = Some (Some (spos Q1 q)).
Proof using Hz.
  destruct nav_rep as [(num & tail & Hly) _]. rewrite cons_middle, app_assoc in Hly. unfold epos, spos. rewrite flat_app, flat_cons.
  replace (flat Q1 ++ p_ele q :: p_score q :: flat []) with ((flat Q1 ++ [p_ele q]) ++ [p_score q]) by (by rewrite <- app_assoc).
  by apply (prev_spec _ _ _ _ _ _ Hly).
Qed.

Lemma nav_int v : p_elev q = Int v -> in_s 64 v.
Proof using Hz. destruct nav_rep as [_ [He _]]. intros E. rewrite E in He. by destruct He. Qed.
End Nav.

Lemma ll_text_ok v : in_s 64 v -> ll_text v = Some (Numbers.dec v).
Proof.
  intros Hv. pose proof (Numbers.dec_length v Hv). unfold ll_text.
  destruct (Numbers.ll2string_ok (replicate 32 0) v Hv) as (rest & -> & _); [rewrite length_replicate; lia|]. mred. by apply rdn_0.
Qed.

Lemma element_text zl Q1 q Q2 : zrep zl (Q1 ++ q :: Q2) ->
  match p_elev q with Str s => Some s | Int v => ll_text v end = Some (text (p_elev q)).
Proof. intros Hz. pose proof (nav_int zl Q1 q Q2 Hz) as Hi. destruct (p_elev q); [|done]. by apply ll_text_ok, Hi. Qed.

Lemma object_at zl Q1 q Q2 : zrep zl (Q1 ++ q :: Q2) -> lpGetObject zl (epos Q1) = Some (pitem q).2.
Proof. intros Hz. unfold lpGetObject. rewrite (nav_getelement _ _ _ _ Hz). mred. by apply (element_text zl Q1 q Q2). Qed.

Lemma seek_first zl Q : zrep zl Q -> lpSeek zl 0 = Some (eptr [] Q).
Proof.
  intros [Hr _]. rewrite (seek_spec zl _ 0 Hr). change (0 <? 0) with false. cbv iota. f_equal. destruct Q as [|q Q]; [done|].
  rewrite flat_cons, !length_cons. by rewrite (proj2 (Z.ltb_lt 0 (Z.of_nat _))) by lia.
Qed.

(** Lengths: every pair takes its bytes. *)
Lemma zrep_fuel zl Q : zrep zl Q -> (length Q < length zl)%nat.
Proof. intros [(num & tail & Hly) _]. pose proof (elems_fuel _ _ _ _ Hly) as H. rewrite flat_length in H. lia. Qed.
(** ** Insertion: proofs *)

Lemma deq_lt_l a b c : isnan a = false -> isnan b = false -> isnan c = false -> deq a b = true -> dlt a c = dlt b c.
Proof.
  intros Ha Hb Hc H. rewrite deq_dlt in H by done. apply andb_true_iff in H as [H1%negb_true_iff H2%negb_true_iff].
  destruct (dlt a c) eqn:E1.
  - destruct (dlt_weak a b c Ha Hb Hc E1); congruence.
  - destruct (dlt b c) eqn:E2; [|done]. destruct (dlt_weak b a c Hb Ha Hc E2); congruence.
Qed.
Lemma deq_lt_r a b c : isnan a = false -> isnan b = false -> isnan c = false -> deq a b = true -> dlt c a = dlt c b.
Proof.
  intros Ha Hb Hc H. rewrite deq_dlt in H by done. apply andb_true_iff in H as [H1%negb_true_iff H2%negb_true_iff].
  destruct (dlt c a) eqn:E1.
  - destruct (dlt_weak c b a Hc Hb Ha E1); congruence.
  - destruct (dlt c b) eqn:E2; [|done]. destruct (dlt_weak c a b Hc Ha Hb E2); congruence.
Qed.

Definition entry_value (e : listpackEntry) : value := match e with SVal s => as_value s | LVal v => Int v end.

(** The number read back for a score that was written. *)
Definition stored (score : double) : double :=
  match score_entry score with Some e => score_of (entry_value e) | None => score end.

(** The conversions keep the score: it is written to the buffer and reads back
    as an equal number. *)
Record storable (score : double) : Prop := {
  st_number : isnan score = false;
  st_entry : exists e, score_entry score = Some e /\ entry_ok e /\ match e with SVal s => zlen s <= 128 | LVal _ => True end;
  st_stored : isnan (stored score) = false;
  st_equal : deq (stored score) score = true;
}.

Definition elem_fine (ele : list Z) : Prop := bytes_ok ele /\ zlen ele < 2 ^ 31.

Lemma cut32_id ele : elem_fine ele -> cut32 ele = ele.
Proof. intros [_ H]. unfold cut32. rewrite uwrap_id by (unfold in_u; lia). rewrite take_ge by lia. done. Qed.

Lemma text_as_value s : text (as_value s) = s.
Proof. apply as_value_text. Qed.

Lemma compare_elements zl Q1 q Q2 ele :
  zrep zl (Q1 ++ q :: Q2) -> zlen (pitem q).2 < 2 ^ 31 -> zlen ele < 2 ^ 31 ->
  exists c, zzlCompareElements zl (epos Q1) ele = Some c /\ (0 <? c) = match Sds.lex ele (pitem q).2 with Lt => true | _ => false end.
Proof.
  intros Hz Hl1 Hl2. unfold zzlCompareElements. rewrite (nav_getelement _ _ _ _ Hz). mred. rewrite (element_text _ _ _ _ Hz). mred.
  change (text (p_elev q)) with (pitem q).2. set (v := (pitem q).2) in *.
  assert ((if zlen v <? zlen ele then zlen v else zlen ele) = Z.of_nat (length v `min` length ele)) as -> by (destruct (Z.ltb_spec (zlen v) (zlen ele)); lia).
  rewrite swrap_id by (unfold in_s; lia). rewrite (proj2 (Z.ltb_ge _ 0)), Nat2Z.id by lia.
  destruct (Sds.memcmp_lex v ele) as [Ha Hb]. set (c := Sds.memcmp _ _) in *. eexists. split; [done|]. rewrite (lex_flip v ele).
  destruct (Z.eqb_spec c 0) as [E|E].
  - rewrite (Hb E). rewrite swrap_id by (unfold in_s; lia). destruct (Z.compare_spec (zlen v) (zlen ele)), (Z.ltb_spec 0 (zlen v - zlen ele)); cbn; (done || lia).
  - destruct (Sds.lex v ele), (Z.ltb_spec 0 c), (Z.compare_spec c 0); cbn; (done || lia).
Qed.

(** The pair that is written. *)
Definition new_pair (ele : list Z) (e : listpackEntry) : pair :=
  Pair (string_enc ele) (entry_enc e) (as_value ele) (entry_value e).

Lemma string_enc_length s : zlen (string_enc s) <= zlen s + 9.
Proof.
  unfold string_enc. destruct (lpStringToInt64 s) as [v|]; [pose proof (integer_length v); lia|]. unfold lpEncodeString.
  repeat case_match; rewrite ?length_app, ?length_cons; cbn [length]; lia.
Qed.

Lemma new_pair_ok ele e : elem_fine ele -> entry_ok e -> match e with SVal s => zlen s <= 128 | LVal _ => True end ->
  pair_ok (new_pair ele e) /\ zlen (chunks (flat [new_pair ele e])) <= zlen ele + 170.
Proof.
  intros [Hb Hl] He Hs. cbv iota in Hs. split; [split; cbn [p_ele p_elev p_score p_scorev new_pair]|].
  - apply string_enc_ok; [done|lia].
  - destruct e as [s|v]; cbn [entry_enc entry_value]; [apply string_enc_ok; [by destruct He|lia]|by apply encode_integer_ok].
  - rewrite flat_cons, !chunks_cons_length, !chunk_length. change (zlen (chunks (flat []))) with 0. cbn [p_ele p_score new_pair].
    pose proof (backlen_bytes_range (zlen (string_enc ele))). pose proof (backlen_bytes_range (zlen (entry_enc e))).
    pose proof (string_enc_length ele). destruct e as [s|v]; cbn [entry_enc] in *; [pose proof (string_enc_length s); lia|pose proof (integer_length v); lia].
Qed.

(** Room for a pair with the element [ele]. *)
Definition room (Q : list pair) (ele : list Z) : Prop := zlen (chunks (flat Q)) + zlen ele + 200 < 2 ^ 31.

Context (usable_ok : forall n, 0 <= n < 2 ^ 33 -> n <= usable n).

Lemma insert_at zl Q1 Q2 ele score e :
  zrep zl (Q1 ++ Q2) -> elem_fine ele -> score_entry score = Some e -> entry_ok e ->
  match e with SVal s => zlen s <= 128 | LVal _ => True end -> room (Q1 ++ Q2) ele ->
  exists zl', zzlInsertAt zl (eptr Q1 Q2) ele score = Some (Some zl') /\ zrep zl' (Q1 ++ new_pair ele e :: Q2).
Proof using usable_ok.
  intros [Hr Hok] Hele Hse He Hs Hroom. destruct (new_pair_ok ele e Hele He Hs) as [Hnew Hlen]. unfold zzlInsertAt.
  rewrite Hse. mred. rewrite (cut32_id ele Hele). set (es := [SVal ele; e]).
  assert (Forall entry_ok es) as Hes by (destruct Hele; repeat constructor; try done; lia).
  assert (map entry_enc es = flat [new_pair ele e]) as Hmap by done.
  assert (zlen (chunks (flat Q1 ++ map entry_enc es ++ flat Q2)) + 7 <= UINT32_MAX) as Htot.
  { unfold room in Hroom. rewrite flat_app in Hroom. rewrite Hmap, !chunks_app, !length_app in *. unfold UINT32_MAX. lia. }
  assert (exists zl' p, (match eptr Q1 Q2 with
      | Some p => lpBatchInsert usable junk zl p LP_BEFORE es
      | None => lpBatchAppend usable junk zl es
      end) = Some (Some (zl', p)) /\ rep zl' (flat Q1 ++ map entry_enc es ++ flat Q2)) as (zl' & p & -> & Hr').
  { destruct Q2 as [|q2 Q2]; cbn [eptr].
    - rewrite app_nil_r in Hr. pose proof (batch_append usable junk usable_ok zl (flat Q1) es Hr Hes) as Hb.
      change (flat []) with (@nil (list Z)) in Htot |- *. rewrite app_nil_r in Htot |- *. cbv zeta in Hb.
      destruct (Z.gtb_spec (zlen (chunks (flat Q1 ++ map entry_enc es)) + 7) UINT32_MAX); [lia|].
      destruct Hb as (zl' & H1 & H2); [done|cbn; lia|]. by eexists _, _.
    - rewrite flat_app in Hr. pose proof (batch_before usable junk usable_ok zl (flat Q1) (flat (q2 :: Q2)) es Hr Hes) as Hb. cbv zeta in Hb.
      destruct (Z.gtb_spec (zlen (chunks (flat Q1 ++ map entry_enc es ++ flat (q2 :: Q2))) + 7) UINT32_MAX); [lia|].
      destruct Hb as (zl' & H1 & H2); [done|cbn; lia|]. by eexists _, _. }
  mred. exists zl'. split; [done|]. split.
  - rewrite flat_app. rewrite Hmap in Hr'. exact Hr'.
  - apply Forall_app in Hok as [? ?]. apply Forall_app. split; [done|]. by constructor.
Qed.
Lemma text_length zl Q1 q Q2 : zrep zl (Q1 ++ q :: Q2) -> zlen (pitem q).2 <= zlen (chunks (flat (Q1 ++ q :: Q2))) + 20.
Proof.
  intros Hz. destruct (nav_rep zl Q1 q Q2 Hz) as [_ [He _]]. pose proof (nav_int zl Q1 q Q2 Hz) as Hi.
  rewrite flat_app, chunks_app, length_app, flat_cons, chunks_cons, !length_app. unfold pitem. cbn [snd]. destruct (p_elev q) as [v|s]; cbn [text].
  - pose proof (Numbers.dec_length v (Hi v eq_refl)). lia.
  - destruct He as (o & _ & Hr). apply rdn_Some in Hr. lia.
Qed.

(** The loop stops at the first pair that comes after the new one. *)
Lemma insert_loop_spec zl ele score : elem_fine ele -> isnan score = false -> forall Q2 Q1 fuel,
  zrep zl (Q1 ++ Q2) -> (length Q2 <= fuel)%nat -> room (Q1 ++ Q2) ele -> numbers (map pitem Q2) ->
  exists M1 M2, Q2 = M1 ++ M2 /\ Forall (fun q => ilt (score, ele) (pitem q) = false) M1 /\
    match M2 with q :: _ => ilt (score, ele) (pitem q) = true | [] => True end /\
    insert_loop fuel zl (eptr Q1 Q2) ele score = zzlInsertAt zl (eptr (Q1 ++ M1) M2) ele score.
Proof.
  intros Hele Hnan. induction Q2 as [|q Q2 IH]; intros Q1 fuel Hz Hf Hroom Hnum.
  { exists [], []. split_and!; try done. cbn [eptr]. by destruct fuel. }
  destruct fuel as [|fuel]; [cbn in Hf; lia|]. cbn [map] in Hnum. apply Forall_cons in Hnum as [Hq Hnum].
  cbn [eptr insert_loop]. rewrite (nav_score _ _ _ _ Hz). mred. unfold asserted. mred. rewrite (nav_getscore _ _ _ _ Hz). mred.
  rewrite (cut32_id ele Hele). pose proof (text_length _ _ _ _ Hz) as Hlen.
  destruct (compare_elements zl Q1 q Q2 ele Hz) as (c & Hc & Hsign); [unfold room in Hroom; lia|by destruct Hele|].
  assert ((if dlt score (pitem q).1 then Some true
           else if deq (pitem q).1 score then c ← zzlCompareElements zl (epos Q1) ele; Some (0 <? c) else Some false)
          = Some (ilt (score, ele) (pitem q))) as ->.
  { rewrite Hc. mred. unfold ilt. cbn [fst snd]. rewrite deq_dlt, Hsign by done. destruct (dlt score (pitem q).1); [done|]. cbn [orb].
    rewrite andb_true_r. by destruct (negb (dlt (pitem q).1 score)). }
  mred. destruct (ilt (score, ele) (pitem q)) eqn:Hi.
  - exists [], (q :: Q2). split_and!; try done. by rewrite app_nil_r.
  - rewrite (nav_next _ _ _ _ Hz). mred. destruct (IH (Q1 ++ [q]) fuel) as (M1 & M2 & -> & H1 & H2 & E);
      [by rewrite <- app_assoc|cbn in Hf; lia|by rewrite <- app_assoc|done|].
    exists (q :: M1), M2. split_and!; [done|by constructor|done|]. rewrite E, <- app_assoc. done.
Qed.

Lemma ilt_deq_l a b ele y : isnan a = false -> isnan b = false -> isnan y.1 = false -> deq a b = true -> ilt (a, ele) y = ilt (b, ele) y.
Proof. intros. unfold ilt. cbn [fst snd]. by rewrite (deq_lt_l a b), (deq_lt_r a b). Qed.
Lemma ilt_deq_r a b ele y : isnan a = false -> isnan b = false -> isnan y.1 = false -> deq a b = true -> ilt y (a, ele) = ilt y (b, ele).
Proof. intros. unfold ilt. cbn [fst snd]. by rewrite (deq_lt_l a b), (deq_lt_r a b). Qed.

(** The sorted set a listpack holds. *)
Record zholds (zl : list Z) (Q : list pair) : Prop := {
  z_rep : zrep zl Q;
  z_sorted : sorted (map pitem Q);
  z_numbers : numbers (map pitem Q);
  z_elements : NoDup (map snd (map pitem Q));
}.

(** A new item at its place. *)
Lemma place_item (l1 l2 : list item) (x : item) :
  sorted (l1 ++ l2) -> numbers (l1 ++ l2) -> isnan x.1 = false -> x.2 ∉ map snd (l1 ++ l2) ->
  Forall (fun y => ilt x y = false) l1 -> match l2 with y :: _ => ilt x y = true | [] => True end ->
  sorted (l1 ++ x :: l2) /\ ins x (l1 ++ l2) = l1 ++ x :: l2.
Proof.
  intros Hs Hn Hx Hnotin H1 H2. apply Forall_app in Hn as [Hn1 Hn2].
  assert (Forall (fun y => ilt y x = true) l1) as Hlo.
  { rewrite Forall_forall in H1 |- *. intros y Hy. apply ilt_total; [|by apply H1]. intros E. apply Hnotin. rewrite E.
    apply list_elem_of_fmap_2, elem_of_app. by left. }
  assert (Forall (fun y => ilt x y = true) l2) as Hhi.
  { destruct l2 as [|y l2]; [constructor|]. apply Forall_cons in Hn2 as [Hny Hn2]. destruct (sorted_drop _ _ _ Hs) as (_ & _ & Hy).
    constructor; [done|]. rewrite Forall_forall in Hy, Hn2 |- *. intros w Hw. apply (ilt_trans x y w); auto. }
  split; [by apply sorted_insert|]. apply ins_app; [done|by apply Forall_ilt_flip].
Qed.

Lemma zzlInsert_spec zl Q ele score :
  zholds zl Q -> elem_fine ele -> storable score -> room Q ele -> ele ∉ map snd (map pitem Q) ->
  exists zl' Q1 q Q2, zzlInsert zl ele score = Some (Some zl') /\ zholds zl' (Q1 ++ q :: Q2) /\ Q = Q1 ++ Q2 /\
    pitem q = (stored score, ele) /\ zlen (chunks (flat [q])) <= zlen ele + 170 /\
    map pitem (Q1 ++ q :: Q2) = ins (stored score, ele) (map pitem Q).
Proof using usable_ok.
  intros [Hz Hs Hn Hd] Hele [Hnan (e & Hse & He & Hsz) Hst Heq] Hroom Hnotin. unfold zzlInsert. rewrite (seek_first zl Q Hz). mred.
  destruct (insert_loop_spec zl ele score Hele Hnan Q [] (length zl)) as (M1 & M2 & -> & H1 & H2 & ->); [done|pose proof (zrep_fuel zl Q Hz); lia|done|done|].
  cbn [app]. destruct (insert_at zl M1 M2 ele score e Hz Hele Hse He Hsz Hroom) as (zl' & -> & Hz').
  set (q := new_pair ele e) in *. assert (pitem q = (stored score, ele)) as Hq.
  { unfold pitem, q, stored. cbn [new_pair p_elev p_scorev]. by rewrite Hse, text_as_value. }
  rewrite map_app in Hs, Hn, Hnotin, Hd. destruct (place_item (map pitem M1) (map pitem M2) (stored score, ele)) as [Hs' Hins]; try done.
  { rewrite Forall_map. apply Forall_app in Hn as [Hn1 _]. rewrite Forall_map in Hn1. rewrite Forall_forall in H1, Hn1 |- *. intros y Hy.
    rewrite (ilt_deq_l _ score) by (done || by apply Hn1). by apply H1. }
  { apply Forall_app in Hn as [_ Hn2]. destruct M2 as [|y M2]; [done|]. cbn [map] in *. apply Forall_cons in Hn2 as [Hy _].
    by rewrite (ilt_deq_l _ score). }
  assert (map pitem (M1 ++ q :: M2) = map pitem M1 ++ (stored score, ele) :: map pitem M2) as Hmap by (rewrite map_app; cbn [map]; by rewrite Hq).
  exists zl', M1, q, M2. split_and!; try done.
  - constructor; rewrite ?Hmap; try done.
    + apply Forall_app in Hn as [? ?]. apply Forall_app. split; [done|]. by constructor.
    + rewrite map_app in Hd, Hnotin |- *. cbn [map]. apply NoDup_middle. done.
  - by apply (new_pair_ok ele e).
  - rewrite Hmap, (map_app _ M1 M2). done.
Qed.

(** ** Search and deletion: proofs *)

Fixpoint pair_index (ele : list Z) (Q : list pair) : option nat :=
  match Q with
  | [] => None
  | q :: Q => if bool_decide ((pitem q).2 = ele) then Some O else S <$> pair_index ele Q
  end.

Lemma find_ref_pairs ele Q : find_ref ele 1 0 (values Q) = ((fun i => 2 * i)%nat <$> pair_index ele Q).
Proof.
  induction Q as [|q Q IH]; [done|]. unfold values in *. cbn [map concat app find_ref]. change (0 =? 0) with true.
  change (1 =? 0) with false. cbv iota. change (1 - 1) with 0. rewrite IH. cbn [pair_index]. unfold pitem. cbn [snd].
  destruct (bool_decide (text (p_elev q) = ele)); [done|]. destruct (pair_index ele Q); cbn [fmap option_fmap option_map]; [|done]. f_equal. lia.
Qed.

Lemma pair_index_spec ele Q :
  match pair_index ele Q with
  | Some i => exists Q1 q Q2, Q = Q1 ++ q :: Q2 /\ i = length Q1 /\ (pitem q).2 = ele /\ ele ∉ map snd (map pitem Q1)
  | None => ele ∉ map snd (map pitem Q)
  end.
Proof.
  induction Q as [|q Q IH]; cbn [pair_index map]; [by apply not_elem_of_nil|]. destruct (bool_decide ((pitem q).2 = ele)) eqn:E.
  - apply bool_decide_eq_true in E. exists [], q, Q. split_and!; try done. apply not_elem_of_nil.
  - apply bool_decide_eq_false in E. destruct (pair_index ele Q) as [i|]; cbn [fmap option_fmap option_map].
    + destruct IH as (Q1 & q' & Q2 & -> & -> & <- & Hn). exists (q :: Q1), q', Q2. split_and!; try done. cbn [map]. by apply not_elem_of_cons.
    + by apply not_elem_of_cons.
Qed.

Lemma zzlFind_spec zl Q ele want : zrep zl Q -> elem_fine ele ->
  match pair_index ele Q with
  | None => zzlFind zl ele want = Some None /\ ele ∉ map snd (map pitem Q)
  | Some _ => exists Q1 q Q2, Q = Q1 ++ q :: Q2 /\ (pitem q).2 = ele /\ (ele ∉ map snd (map pitem Q1)) /\
      zzlFind zl ele want = Some (Some (epos Q1, (if want then Some (pitem q).1 else None)))
  end.
Proof.
  intros Hz Hele. pose proof (pair_index_spec ele Q) as Hidx. pose proof Hz as [Hr Hok]. pose proof Hr as (num & tail & Hly).
  unfold zzlFind. rewrite (first_spec _ _ _ _ Hly). mred. destruct Q as [|q0 Q0].
  { cbn [pair_index] in *. done. }
  set (Q := q0 :: Q0) in *. change (ptr [] (flat Q)) with (Some (off [])). cbv iota. rewrite (cut32_id ele Hele).
  rewrite (lookup_spec zl (flat Q) (values Q) (Some (off [])) ele 1 Hr (flat_stands Q Hok)) by (by right). mred.
  rewrite find_ref_pairs. destruct (pair_index ele Q) as [i|]; cbn [fmap option_fmap option_map]; [|done].
  destruct Hidx as (Q1 & q & Q2 & HQ & -> & Hq & Hn). exists Q1, q, Q2. split_and!; try done. rewrite HQ in Hz |- *.
  rewrite take_flat. change (off (flat Q1)) with (epos Q1). rewrite (nav_score _ _ _ _ Hz). mred. unfold asserted. mred.
  destruct want; [|done]. by rewrite (nav_getscore _ _ _ _ Hz).
Qed.

Lemma holds_cut zl zl' A E D : zholds zl (A ++ E ++ D) -> zrep zl' (A ++ D) -> zholds zl' (A ++ D).
Proof. intros [_ Hs Hn Hd] Hz. destruct (ordered_cut pitem A E D Hs Hn Hd) as (? & ? & ?). by constructor. Qed.

Lemma drop_pair zl Q1 q Q2 : zrep zl (Q1 ++ q :: Q2) ->
  exists zl', lpDeleteRangeWithEntry usable junk zl (epos Q1) 2 = Some (zl', eptr Q1 Q2) /\ zrep zl' (Q1 ++ Q2).
Proof using usable_ok.
  intros [Hr Hok]. rewrite flat_app, flat_cons in Hr.
  destruct (delete_range_spec usable junk usable_ok zl (flat Q1) (p_ele q :: p_score q :: flat Q2) 2 Hr) as (zl' & E & Hr'); [done|lia|].
  change (off (flat Q1)) with (epos Q1) in E.
  exists zl'. split; [rewrite E; f_equal; f_equal; by destruct Q2|]. split; [by rewrite flat_app|].
  apply Forall_app in Hok as [? [_ ?]%Forall_cons]. by apply Forall_app.
Qed.

Lemma zzlDelete_spec zl Q1 q Q2 : zholds zl (Q1 ++ q :: Q2) ->
  exists zl', zzlDelete zl (epos Q1) = Some zl' /\ zholds zl' (Q1 ++ Q2).
Proof using usable_ok.
  intros Hh. unfold zzlDelete. destruct (drop_pair zl Q1 q Q2 (z_rep _ _ Hh)) as (zl' & -> & Hz). exists zl'. split; [done|].
  by apply (holds_cut zl _ Q1 [q]).
Qed.

(** ** Ranges: proofs *)

(** The pointer to the last of the pairs [Q]. *)
Definition lastptr (Q : list pair) : option Z := match Q with [] => None | _ => Some (epos (take (length Q - 1) Q)) end.

Lemma lastptr_snoc Q q : lastptr (Q ++ [q]) = Some (epos Q).
Proof. unfold lastptr. rewrite length_app, Nat.add_sub, take_app_length. by destruct Q. Qed.

(** The first and the last pair. *)
Lemma seek_ends zl Q : zrep zl Q ->
  lpSeek zl (-2) = Some (lastptr Q) /\
  lpSeek zl (-1) = Some (match last Q with Some q => Some (spos (take (length Q - 1) Q) q) | None => None end) /\
  lpSeek zl 1 = Some (match Q with q :: _ => Some (spos [] q) | [] => None end).
Proof.
  intros [Hr _]. rewrite !(seek_spec zl _ _ Hr). change (-2 <? 0) with true. change (-1 <? 0) with true. change (1 <? 0) with false. cbv iota.
  rewrite flat_length. split_and!; f_equal.
  - destruct Q as [|q Q _] using rev_ind; [done|]. rewrite length_app. cbn [length]. rewrite lastptr_snoc.
    rewrite (proj2 (Z.leb_le _ _)), (proj2 (Z.ltb_lt _ _)) by lia. cbn [andb]. unfold epos. do 2 f_equal.
    rewrite <- (take_flat Q [q]). f_equal. lia.
  - destruct Q as [|q Q _] using rev_ind; [done|]. rewrite last_snoc, length_app, Nat.add_sub, take_app_length. cbn [length].
    rewrite (proj2 (Z.leb_le _ _)), (proj2 (Z.ltb_lt _ _)) by lia. cbn [andb]. unfold spos. do 2 f_equal.
    rewrite flat_app, flat_cons. replace (flat Q ++ p_ele q :: p_score q :: flat []) with ((flat Q ++ [p_ele q]) ++ [p_score q]) by (by rewrite <- app_assoc).
    rewrite take_app_le by (rewrite length_app, flat_length; cbn [length]; lia). apply take_ge. rewrite length_app, flat_length. cbn [length]. lia.
  - destruct Q as [|q Q]; [done|]. cbn [length]. rewrite (proj2 (Z.ltb_lt _ _)) by lia. done.
Qed.

Section RangeProofs.
Context (gte lte : list Z -> Z -> option bool) (fg fl : pair -> bool).
Context (Hgte : forall zl Q1 q Q2, zrep zl (Q1 ++ q :: Q2) -> gte zl (epos Q1) = Some (fg q)).
Context (Hlte : forall zl Q1 q Q2, zrep zl (Q1 ++ q :: Q2) -> lte zl (epos Q1) = Some (fl q)).

Lemma first_loop_spec zl E D : forall A Q1 fuel,
  zrep zl (Q1 ++ A ++ E ++ D) -> (length (A ++ E ++ D) <= fuel)%nat ->
  Forall (fun q => fg q = false) A -> Forall (fun q => fg q = true) (E ++ D) ->
  Forall (fun q => fl q = true) E -> Forall (fun q => fl q = false) D ->
  first_loop gte lte fuel zl (eptr Q1 (A ++ E ++ D)) = Some (eptr (Q1 ++ A) E).
Proof using Hgte Hlte.
  induction A as [|q A IH]; intros Q1 fuel Hz Hf HA HR HE HD; cbn [app] in *.
  - rewrite app_nil_r. destruct E as [|q E], fuel as [|fuel]; try (cbn in Hf; lia); cbn [app eptr first_loop] in *.
    + by destruct D; [|cbn in Hf; lia].
    + destruct D as [|q D]; [done|]. cbn [eptr first_loop]. rewrite (Hgte _ _ _ _ Hz). mred. apply Forall_cons in HR as [-> _].
      rewrite (Hlte _ _ _ _ Hz). mred. by apply Forall_cons in HD as [-> _].
    + rewrite (Hgte _ _ _ _ Hz). mred. apply Forall_cons in HR as [-> _]. rewrite (Hlte _ _ _ _ Hz). mred. by apply Forall_cons in HE as [-> _].
  - destruct fuel as [|fuel]; [cbn in Hf; lia|]. cbn [eptr first_loop]. rewrite (Hgte _ _ _ _ Hz). mred. apply Forall_cons in HA as [-> HA].
    rewrite (nav_score _ _ _ _ Hz). mred. unfold asserted. mred. rewrite (nav_next _ _ _ _ Hz). mred.
    rewrite IH; [by rewrite <- app_assoc|by rewrite <- app_assoc|cbn in Hf; lia|done..].
Qed.

Lemma last_step zl Q q Q2 fuel : zrep zl ((Q ++ [q]) ++ Q2) -> lte zl (epos Q) = Some false ->
  last_loop gte lte (S fuel) zl (lastptr (Q ++ [q])) = last_loop gte lte fuel zl (lastptr Q).
Proof.
  intros Hz Hf. rewrite lastptr_snoc. cbn [last_loop]. rewrite Hf. mred. destruct Q as [|q' Q _] using rev_ind; [done|].
  assert (zrep zl (Q ++ q' :: q :: Q2)) as Hz' by (by rewrite <- !app_assoc in Hz). rewrite (nav_prev _ _ _ _ Hz'). mred.
  rewrite (nav_prev_score _ _ _ _ Hz'). mred. unfold asserted. mred. by rewrite lastptr_snoc.
Qed.

Lemma last_loop_none zl A Q2 fuel : zrep zl (A ++ Q2) -> (length A <= fuel)%nat -> Forall (fun q => fg q = false) A ->
  last_loop gte lte fuel zl (lastptr A) = Some None.
Proof using Hgte Hlte.
  revert Q2 fuel. induction A as [|q A IH] using rev_ind; intros Q2 fuel Hz Hf HA; [by destruct fuel|].
  rewrite length_app in Hf. cbn in Hf. destruct fuel as [|fuel]; [lia|]. apply Forall_app in HA as [HA [Hq _]%Forall_cons].
  assert (zrep zl (A ++ q :: Q2)) as Hz' by (by rewrite <- app_assoc in Hz). destruct (fl q) eqn:Hl.
  - rewrite lastptr_snoc. cbn [last_loop]. rewrite (Hlte _ _ _ _ Hz'), Hl. mred. by rewrite (Hgte _ _ _ _ Hz'), Hq.
  - rewrite (last_step zl A q Q2) by (done || by rewrite (Hlte _ _ _ _ Hz'), Hl). apply (IH (q :: Q2)); [done|lia|done].
Qed.

Lemma last_loop_spec zl A E D : forall Q2 fuel,
  zrep zl ((A ++ E ++ D) ++ Q2) -> (length (A ++ E ++ D) <= fuel)%nat ->
  Forall (fun q => fg q = false) A -> Forall (fun q => fg q = true) (E ++ D) ->
  Forall (fun q => fl q = true) E -> Forall (fun q => fl q = false) D ->
  last_loop gte lte fuel zl (lastptr (A ++ E ++ D)) = Some (match E with [] => None | _ => lastptr (A ++ E) end).
Proof using Hgte Hlte.
  induction D as [|q D IH] using rev_ind; intros Q2 fuel Hz Hf HA HR HE HD.
  - rewrite app_nil_r in *. destruct E as [|q E _] using rev_ind; [rewrite app_nil_r in *; by apply (last_loop_none zl A Q2)|].
    assert (zrep zl ((A ++ E) ++ q :: Q2)) as Hz' by (by rewrite <- !app_assoc in *). rewrite app_assoc, lastptr_snoc.
    destruct fuel as [|fuel]; [rewrite !length_app in Hf; cbn in Hf; lia|]. cbn [last_loop]. rewrite (Hlte _ _ _ _ Hz'). mred.
    apply Forall_app in HE as [_ [-> _]%Forall_cons]. rewrite (Hgte _ _ _ _ Hz'). mred. apply Forall_app in HR as [_ [-> _]%Forall_cons].
    by destruct E.
  - assert (A ++ E ++ D ++ [q] = (A ++ E ++ D) ++ [q]) as Heq by (by rewrite <- !app_assoc). rewrite Heq in *.
    rewrite length_app in Hf. cbn [length] in Hf. destruct fuel as [|fuel]; [lia|]. rewrite app_assoc in HR. apply Forall_app in HR as [HR _].
    apply Forall_app in HD as [HD [Hq _]%Forall_cons]. assert (zrep zl ((A ++ E ++ D) ++ q :: Q2)) as Hz' by (by rewrite <- app_assoc in Hz).
    rewrite (last_step zl _ q Q2) by (done || by rewrite (Hlte _ _ _ _ Hz'), Hq). apply (IH (q :: Q2)); (done || lia).
Qed.

Lemma delete_while_spec A D E : forall zl fuel n,
  zholds zl (A ++ E ++ D) -> (length (E ++ D) <= fuel)%nat -> 0 <= n -> n + zlen E < 2 ^ 64 ->
  Forall (fun q => fl q = true) E -> Forall (fun q => fl q = false) D ->
  exists zl', delete_range_while lte fuel zl (eptr A (E ++ D)) n = Some (zl', n + zlen E) /\ zholds zl' (A ++ D).
Proof using usable_ok Hlte.
  induction E as [|q E IH]; intros zl fuel n Hh Hf Hn Hn2 HE HD; pose proof (z_rep _ _ Hh) as Hz; cbn [app] in *.
  - exists zl. split; [|done]. cbn [length] in *. rewrite Z.add_0_r. destruct D as [|q D]; [by destruct fuel|].
    destruct fuel as [|fuel]; [cbn in Hf; lia|]. cbn [eptr delete_range_while]. rewrite (nav_score _ _ _ _ Hz). mred.
    rewrite (Hlte _ _ _ _ Hz). mred. by apply Forall_cons in HD as [-> _].
  - cbn [length] in *. destruct fuel as [|fuel]; [lia|]. cbn [eptr delete_range_while]. rewrite (nav_score _ _ _ _ Hz). mred.
    rewrite (Hlte _ _ _ _ Hz). mred. apply Forall_cons in HE as [-> HE].
    destruct (drop_pair zl A q (E ++ D) Hz) as (zl1 & -> & Hz1). mred. rewrite uwrap_id by (unfold in_u; lia).
    destruct (IH zl1 fuel (n + 1)) as (zl' & E' & Hh'); [by apply (holds_cut zl _ A [q])|lia..|done|done|].
    exists zl'. rewrite E'. split; [|done]. do 2 f_equal. lia.
Qed.

Lemma range_fns_spec zl A E D isin :
  zholds zl (A ++ E ++ D) -> (isin = false -> E = []) -> zlen E < 2 ^ 64 ->
  Forall (fun q => fg q = false) A -> Forall (fun q => fg q = true) (E ++ D) ->
  Forall (fun q => fl q = true) E -> Forall (fun q => fl q = false) D ->
  first_in gte lte (Some isin) zl = Some (eptr A E) /\
  last_in gte lte (Some isin) zl = Some (match E with [] => None | _ => lastptr (A ++ E) end) /\
  exists zl', delete_in gte lte (Some isin) zl = Some (zl', zlen E) /\ zholds zl' (A ++ D).
Proof using usable_ok Hgte Hlte.
  intros Hh Hisin Hlen HA HR HE HD. pose proof (z_rep _ _ Hh) as Hz. pose proof (zrep_fuel zl _ Hz) as Hf.
  assert (first_in gte lte (Some isin) zl = Some (eptr A E)) as Hfirst.
  { unfold first_in. rewrite (seek_first zl _ Hz). mred. destruct isin; cbn [negb]; [|by rewrite Hisin].
    apply (first_loop_spec zl E D A []); (done || lia). }
  split_and!; [done| |].
  - unfold last_in. rewrite (proj1 (seek_ends zl _ Hz)).
    mred. destruct isin; cbn [negb]; [|by rewrite Hisin].
    apply (last_loop_spec zl A E D []); [by rewrite app_nil_r|lia|done..].
  - unfold delete_in. rewrite Hfirst. mred. destruct E as [|q E]; [cbn [eptr]; by exists zl|]. cbn [eptr].
    rewrite !length_app in Hf. destruct (delete_while_spec A D (q :: E) zl (length zl) 0) as (zl' & E' & Hh'); try done; [rewrite length_app; lia|].
    by exists zl'.
Qed.
End RangeProofs.
(** A prefix of the pieces of a list bounds what the first and the last pair
    say. *)
Lemma score_tests range zl Q1 q Q2 : zrep zl (Q1 ++ q :: Q2) ->
  zzl_score_gte range zl (epos Q1) = Some (zslValueGteMin (pitem q).1 range) /\
  zzl_score_lte range zl (epos Q1) = Some (zslValueLteMax (pitem q).1 range).
Proof.
  intros Hz. unfold zzl_score_gte, zzl_score_lte, score_at. rewrite (nav_score _ _ _ _ Hz). mred. unfold asserted. mred.
  by rewrite (nav_getscore _ _ _ _ Hz).
Qed.

Lemma lex_tests range zl Q1 q Q2 : zrep zl (Q1 ++ q :: Q2) ->
  zzlLexValueGteMin range zl (epos Q1) = Some (zslLexValueGteMin (pitem q).2 range) /\
  zzlLexValueLteMax range zl (epos Q1) = Some (zslLexValueLteMax (pitem q).2 range).
Proof. intros Hz. unfold zzlLexValueGteMin, zzlLexValueLteMax. by rewrite (object_at _ _ _ _ Hz). Qed.

(** What [IsInRange] tests: not the whole list is below or above. *)
Lemma ends_miss {X} (fg fl : X -> bool) (A E D : list X) :
  Forall (fun q => fg q = true) (E ++ D) -> Forall (fun q => fl q = true) E -> Forall (fun q => fl q = true) A ->
  match last (A ++ E ++ D) with Some q => fg q = false | None => True end \/
  match A ++ E ++ D with q :: _ => fl q = false | [] => True end -> E = [].
Proof.
  intros HR HE HA [H|H].
  - destruct (E ++ D) as [|x l _] eqn:Heq using rev_ind; [by apply app_nil in Heq as [? _]|].
    apply Forall_app in HR as [_ [Hx _]%Forall_cons]. rewrite app_assoc, last_snoc in H. congruence.
  - destruct A as [|x A]; cbn [app] in H; [|apply Forall_cons in HA as [? _]; congruence].
    destruct E as [|x E]; [done|]. apply Forall_cons in HE as [? _]. cbn in H. congruence.
Qed.

(** Position of the pairs of the range, and what the functions return. *)
Definition range_result (first last : option (option Z)) (del : option (list Z * Z)) (Q : list pair) (inside : pair -> bool) : Prop :=
  exists A E D zl', Q = A ++ E ++ D /\ filter (fun q => inside q = true) Q = E /\ filter (fun q => inside q = false) Q = A ++ D /\
    first = Some (eptr A E) /\ last = Some (match E with [] => None | _ => lastptr (A ++ E) end) /\
    del = Some (zl', zlen E) /\ zholds zl' (A ++ D).

Lemma zzl_length_bound zl Q : zrep zl Q -> zlen Q < 2 ^ 32.
Proof.
  intros [(num & tail & Hly) _]. pose proof (ly_total _ _ _ _ Hly). pose proof (chunks_count (flat Q)) as H1. rewrite flat_length in H1. lia.
Qed.

Lemma zzl_score_range zl Q range :
  zholds zl Q -> isnan (r_min range) = false -> isnan (r_max range) = false ->
  range_result (zzlFirstInRange zl range) (zzlLastInRange zl range) (zzlDeleteRangeByScore zl range) Q
    (in_range (fun q => zslValueGteMin (pitem q).1 range) (fun q => zslValueLteMax (pitem q).1 range)).
Proof using usable_ok.
  intros Hh Hmin Hmax. pose proof Hh as [Hz Hs Hn _].
  destruct (range_pieces _ _ _ _ _ _ _ _ _ _ _ (scores_bounded pitem Q range Hs Hn Hmin Hmax))
    as (A & E & D & HQ & HA & HR & HE & HD & Hemp & HfA & Hin & Hout).
  assert (exists b, zzlIsInRange zl range = Some b /\ (b = false -> E = [])) as (b & Hb & Hmiss).
  { unfold zzlIsInRange. rewrite deq_dlt by done. fold (is_empty dlt (r_min range) (r_max range) (r_minex range) (r_maxex range)).
    destruct (is_empty dlt _ _ _ _); [exists false; split; [done|auto]|].
    destruct (seek_ends zl Q Hz) as (_ & -> & Hfst). mred. pose proof (ends_miss _ _ A E D HR HE (HfA eq_refl)) as Hends. rewrite <- HQ in Hends.
    destruct Q as [|q Q' _] eqn:HQe using rev_ind; [exists false; split; [done|]; intros _; by apply Hends; left|].
    rewrite last_snoc in *. rewrite length_app, Nat.add_sub, take_app_length. assert (zrep zl (Q' ++ q :: [])) as Hz' by done.
    rewrite (nav_getscore _ _ _ _ Hz'). mred. destruct (zslValueGteMin (pitem q).1 range) eqn:Hg; cbn [negb].
    2: { exists false. split; [done|]. intros _. apply Hends. by left. }
    rewrite Hfst. mred. destruct (Q' ++ [q]) as [|q1 Q1] eqn:HQ1; [by destruct Q'|]. unfold asserted. mred.
    assert (zrep zl ([] ++ q1 :: Q1)) as Hz1 by done. rewrite (nav_getscore _ _ _ _ Hz1). mred.
    eexists. split; [done|]. intros Hl. apply Hends. by right. }
  pose proof (zzl_length_bound zl Q Hz) as Hlen. rewrite HQ in Hh, Hlen. rewrite !length_app in Hlen.
  destruct (range_fns_spec (zzl_score_gte range) (zzl_score_lte range) (fun q => zslValueGteMin (pitem q).1 range) (fun q => zslValueLteMax (pitem q).1 range)
    (fun zl Q1 q Q2 H => proj1 (score_tests range zl Q1 q Q2 H)) (fun zl Q1 q Q2 H => proj2 (score_tests range zl Q1 q Q2 H)) zl A E D b)
    as (H1 & H2 & zl' & H3 & Hh'); try done; [lia|].
  exists A, E, D, zl'. unfold zzlFirstInRange, zzlLastInRange, zzlDeleteRangeByScore. by rewrite Hb.
Qed.

Lemma zzl_lex_range zl Q range :
  zholds zl Q -> (forall a b, a ∈ Q -> b ∈ Q -> dlt (pitem a).1 (pitem b).1 = false) ->
  range_result (zzlFirstInLexRange zl range) (zzlLastInLexRange zl range) (zzlDeleteRangeByLex zl range) Q
    (in_range (fun q => zslLexValueGteMin (pitem q).2 range) (fun q => zslLexValueLteMax (pitem q).2 range)).
Proof using usable_ok.
  intros Hh Hsame. pose proof Hh as [Hz Hs Hn _].
  destruct (range_pieces _ _ _ _ _ _ _ _ _ _ _ (strings_bounded pitem Q range Hs Hsame))
    as (A & E & D & HQ & HA & HR & HE & HD & Hemp & HfA & Hin & Hout).
  assert (exists b, zzlIsInLexRange zl range = Some b /\ (b = false -> E = [])) as (b & Hb & Hmiss).
  { unfold zzlIsInLexRange. cbn zeta. rewrite empty_lex. destruct (is_empty blt _ _ _ _); [exists false; split; [done|auto]|].
    destruct (seek_ends zl Q Hz) as (-> & _ & _). mred. pose proof (ends_miss _ _ A E D HR HE (HfA eq_refl)) as Hends. rewrite <- HQ in Hends.
    destruct Q as [|q Q' _] eqn:HQe using rev_ind; [exists false; split; [done|]; intros _; by apply Hends; left|].
    rewrite last_snoc in Hends. rewrite lastptr_snoc. assert (zrep zl (Q' ++ q :: [])) as Hz' by done.
    rewrite (proj1 (lex_tests range _ _ _ _ Hz')). mred. destruct (zslLexValueGteMin (pitem q).2 range) eqn:Hg; cbn [negb].
    2: { exists false. split; [done|]. intros _. apply Hends. by left. }
    rewrite (seek_first zl _ Hz). mred. destruct (Q' ++ [q]) as [|q1 Q1] eqn:HQ1; [by destruct Q'|]. cbn [eptr]. unfold asserted. mred.
    assert (zrep zl ([] ++ q1 :: Q1)) as Hz1 by done. rewrite (proj2 (lex_tests range _ _ _ _ Hz1)).
    eexists. split; [done|]. intros Hl. apply Hends. by right. }
  pose proof (zzl_length_bound zl Q Hz) as Hlen. rewrite HQ in Hh, Hlen. rewrite !length_app in Hlen.
  destruct (range_fns_spec (zzlLexValueGteMin range) (zzlLexValueLteMax range) (fun q => zslLexValueGteMin (pitem q).2 range) (fun q => zslLexValueLteMax (pitem q).2 range)
    (fun zl Q1 q Q2 H => proj1 (lex_tests range zl Q1 q Q2 H)) (fun zl Q1 q Q2 H => proj2 (lex_tests range zl Q1 q Q2 H)) zl A E D b)
    as (H1 & H2 & zl' & H3 & Hh'); try done; [lia|].
  exists A, E, D, zl'. unfold zzlFirstInLexRange, zzlLastInLexRange, zzlDeleteRangeByLex. by rewrite Hb.
Qed.
Lemma zzl_rank_range zl Q start end_ :
  zholds zl Q -> 1 <= start <= end_ -> end_ <= zlen Q -> zlen Q < 2 ^ 31 ->
  exists zl', zzlDeleteRangeByRank zl start end_ = Some (zl', end_ - start + 1) /\
    zholds zl' (take (Z.to_nat (start - 1)) Q ++ drop (Z.to_nat end_) Q).
Proof using usable_ok.
  intros [[Hr Hok] Hs Hn Hd] Hse He Hlen. unfold zzlDeleteRangeByRank.
  rewrite (uwrap_id 32 (end_ - start)), (uwrap_id 32 (start - 1)), (uwrap_id 32 (end_ - start + 1)) by (unfold in_u; lia).
  rewrite !uwrap_id by (unfold in_u; lia).
  set (s := Z.to_nat (start - 1)). set (e := Z.to_nat end_). set (A := take s Q). set (D := drop e Q). set (E := take (e - s) (drop s Q)).
  assert (Q = A ++ E ++ D) as HQ.
  { unfold A, E, D. replace (drop e Q) with (drop (e - s) (drop s Q)) by (rewrite drop_drop; f_equal; lia). by rewrite !take_drop. }
  assert (length A = s) as HlA by (unfold A; rewrite length_take; lia).
  assert (length (A ++ E) = e) as HlE by (rewrite length_app; unfold A, E; rewrite !length_take, length_drop; lia).
  destruct (range_index_spec usable junk usable_ok zl (flat Q) (2 * (start - 1)) (2 * (end_ - start + 1)) Hr) as (zl' & -> & Hr'); [lia|].
  mred. exists zl'. split; [done|]. rewrite (proj2 (Z.ltb_ge (2 * (start - 1)) 0)) in Hr' by lia. rewrite flat_length in Hr'.
  rewrite (proj2 (Z.leb_le 0 _)), (proj2 (Z.ltb_lt _ _)) in Hr' by lia. cbn [andb] in Hr'.
  replace (Z.to_nat (2 * (start - 1))) with (2 * length A)%nat in Hr' by lia.
  replace (Z.to_nat (2 * (start - 1) + 2 * (end_ - start + 1))) with (length (flat (A ++ E))) in Hr' by (rewrite flat_length; lia).
  rewrite HQ in Hr', Hok, Hs, Hn, Hd. rewrite take_flat, app_assoc, (flat_app (A ++ E)), drop_app_length, <- flat_app in Hr'.
  destruct (ordered_cut pitem A E D Hs Hn Hd) as (? & ? & ?). constructor; try done. split; [done|].
  apply Forall_app in Hok as [? [_ ?]%Forall_app]. by apply Forall_app.
Qed.

(** ** Theorems *)

(** Insertion into the listpack encoding puts the element and its score,
    written as an integer or as text, at their place in the order; the list
    stays sorted and the score that is read back is the converted one. *)
Theorem zzlInsert_correct zl Q ele score :
  zholds zl Q -> elem_fine ele -> storable score -> room Q ele -> ele ∉ map snd (map pitem Q) ->
  exists zl' Q', zzlInsert zl ele score = Some (Some zl') /\ zholds zl' Q' /\
    map pitem Q' = ins (stored score, ele) (map pitem Q).
Proof using usable_ok.
  intros Hh He Hs Hr Hn. destruct (zzlInsert_spec zl Q ele score Hh He Hs Hr Hn) as (zl' & Q1 & q & Q2 & E & Hh' & _ & _ & _ & Hm).
  by exists zl', (Q1 ++ q :: Q2).
Qed.

(** On the listpack encoding the first and the last element of a range of
    scores are the ends of the entries whose score is within the range, and
    the deletion of the range removes exactly those and counts them. *)
Theorem zzl_range_correct zl Q range :
  zholds zl Q -> isnan (r_min range) = false -> isnan (r_max range) = false ->
  range_result (zzlFirstInRange zl range) (zzlLastInRange zl range) (zzlDeleteRangeByScore zl range) Q
    (in_range (fun q => zslValueGteMin (pitem q).1 range) (fun q => zslValueLteMax (pitem q).1 range)).
Proof using usable_ok. apply zzl_score_range. Qed.
End Model.

(** *** Examples over binary64: one pair, the element "a" with the score 1. *)

Definition no_strtod (s : list Z) : double := dzero.
Definition no_dtoa (d : double) : list Z := [48].
Definition zzl_example : list Z := [12; 0; 0; 0; 2; 0; 129; 97; 2; 1; 1; 255].
Definition pair_example : pair := Pair [129; 97] [1] (Str [97]) (Int 1).

Lemma zzl_example_holds : zholds no_strtod zzl_example [pair_example].
Proof.
  constructor; [|by repeat constructor| |].
  - split.
    + exists 2, []. split; [done|by vm_compute|by right|].
      repeat (constructor; [split; [repeat (constructor; [unfold byte_ok; lia|]); constructor|done|done]|]). constructor.
    + constructor; [|constructor]. split; cbn [pair_example p_ele p_elev p_score p_scorev stands_for]; [by exists 1|by split].
  - by repeat constructor.
  - constructor; [apply not_elem_of_nil|constructor].
Qed.

Lemma two_storable : storable no_strtod no_dtoa two.
Proof. constructor; [done| |done|done]. exists (LVal 2). by split_and!; vm_compute. Qed.

Lemma byte_fine b : byte_ok b -> elem_fine [b].
Proof. split; [by apply Forall_singleton|done]. Qed.

Lemma zzlInsert_correct_witness : exists zl' Q',
  zzlInsert no_strtod no_dtoa id_usable (fun _ => 7) zzl_example [98] two = Some (Some zl') /\ zholds no_strtod zl' Q' /\
  map (pitem no_strtod) Q' = [(one, [97]); (two, [98])].
Proof.
  assert (ins (stored no_strtod no_dtoa two, [98]) (map (pitem no_strtod) [pair_example]) = [(one, [97]); (two, [98])]) as <- by (vm_compute; reflexivity).
  apply (zzlInsert_correct no_strtod no_dtoa id_usable (fun _ => 7) id_usable_ok zzl_example [pair_example] [98] two).
  - apply zzl_example_holds.
  - apply byte_fine. unfold byte_ok. lia.
  - apply two_storable.
  - vm_compute. reflexivity.
  - vm_compute. intros H. inversion H as [|? ? ? H']; inversion H'.
Defined.

Lemma zzl_range_correct_witness :
  zzlFirstInRange no_strtod zzl_example (Rangespec one two false false) = Some (Some 6) /\
  range_result no_strtod (zzlFirstInRange no_strtod zzl_example (Rangespec one two false false))
    (zzlLastInRange no_strtod zzl_example (Rangespec one two false false)) (zzlDeleteRangeByScore no_strtod id_usable (fun _ => 7) zzl_example (Rangespec one two false false))
    [pair_example] (in_range (fun q => zslValueGteMin (pitem no_strtod q).1 (Rangespec one two false false))
      (fun q => zslValueLteMax (pitem no_strtod q).1 (Rangespec one two false false))).
Proof.
  split; [vm_compute; reflexivity|].
  apply (zzl_range_correct no_strtod id_usable (fun _ => 7) id_usable_ok zzl_example [pair_example] (Rangespec one two false false));
    [apply zzl_example_holds|reflexivity|reflexivity].
Defined.
End Zzl.
