(* ===== verification/Zset.v ===== *)
(** * Sorted set objects ([redis-stable/src/t_zset.c])

    A sorted set is a listpack while it is small, and then a skip list with a
    dictionary from the elements to the nodes.  Conversion between the two,
    adding, updating, removing and ranking an element, and copying. *)

From Stdlib Require Import SpecFloat.
From stdpp Require Import gmap sorting.
From S2P Require Import Prelude Numbers Sds Listpack ListpackBatch.
From S2P Require Import Skiplist SortedSet ZslRange Zzl.
Import Listpack ListpackBatch Skiplist SortedSet ZslRange Zzl.

Module Zset.

Definition ZADD_IN_INCR : Z := 1.
Definition ZADD_IN_NX : Z := 2.
Definition ZADD_IN_XX : Z := 4.
Definition ZADD_IN_GT : Z := 8.
Definition ZADD_IN_LT : Z := 16.
Definition ZADD_OUT_NOP : Z := 1.
Definition ZADD_OUT_NAN : Z := 2.
Definition ZADD_OUT_ADDED : Z := 4.
Definition ZADD_OUT_UPDATED : Z := 8.

(** The limits of the configuration for the encoding as a listpack. *)
Record config := Config { zset_max_listpack_entries : Z; zset_max_listpack_value : Z }.

Section Model.
Context {SC : Score} {FL : Floats SC}.
Context (strtod : list Z -> double) (dtoa : double -> list Z) (usable : Z -> Z) (junk : nat -> Z).
Context (server : config) (zsl_size : Z).
Abbreviation heap := (gmap addr zskiplistNode).
Abbreviation dict := (gmap (list Z) addr).

(** The encodings: [zl], or the nodes, the skip list and the dictionary. *)
Inductive zobj :=
| OBJ_ENCODING_LISTPACK (zl : list Z)
| OBJ_ENCODING_SKIPLIST (h : heap) (zsl : zskiplist) (d : dict).

(** What the environment gives: random numbers, and blocks of memory for the
    nodes with their address, usable size and content. *)
Record env := Env { random_numbers : list Z; blocks : list (addr * Z * (nat -> zskiplistLevel)) }.

Definition take_block (e : env) : option (addr * Z * (nat -> zskiplistLevel) * env) :=
  match blocks e with
  | [] => None
  | b :: bs => Some (b, Env (random_numbers e) bs)
  end.

(** [zslCreate] and [zslInsert] with the environment. *)
Definition create_zsl (e : env) : option (heap * zskiplist * env) :=
  '(a, u, _, e) ← take_block e;
  let '(h, z) := zslCreate a u zsl_size in
  Some (h, z, e).

Definition insert_zsl (e : env) (h : heap) (z : zskiplist) (score : double) (ele : list Z)
    : option (heap * zskiplist * addr * env) :=
  '(a, u, j, e) ← take_block e;
  '(h, z, node, rs) ← zslInsert h z (random_numbers e) a u j score ele;
  Some (h, z, node, Env rs (blocks e)).

(** ** Creation and conversion *)

Definition createZsetObject (e : env) : option (zobj * env) :=
  '(h, z, e) ← create_zsl e; Some (OBJ_ENCODING_SKIPLIST h z ∅, e).

Definition createZsetListpackObject : option zobj :=
  lp ← lpNew usable junk 0; Some (OBJ_ENCODING_LISTPACK lp).

(** The length, and the object, whose listpack may have its count stored. *)
Definition zsetLength (o : zobj) : option (Z * zobj) :=
  match o with
  | OBJ_ENCODING_LISTPACK zl => '(n, zl) ← zzlLength zl; Some (n, OBJ_ENCODING_LISTPACK zl)
  | OBJ_ENCODING_SKIPLIST h z d => Some (z_length z, o)
  end.

Definition zsetTypeCreate (e : env) (size_hint val_len_hint : Z) : option (zobj * env) :=
  if (size_hint <=? zset_max_listpack_entries server) && (val_len_hint <=? zset_max_listpack_value server)
  then o ← createZsetListpackObject; Some (o, e)
  else createZsetObject e.

Fixpoint to_skiplist (fuel : nat) (zl : list Z) (ptrs : option (Z * Z)) (e : env) (h : heap) (z : zskiplist) (d : dict)
    : option (heap * zskiplist * dict * env) :=
  match ptrs with
  | None => Some (h, z, d, e)
  | Some (eptr, sptr) =>
    match fuel with
    | O => None
    | S fuel =>
      score ← zzlGetScore strtod zl sptr;
      ele ← lpGetObject zl eptr;
      '(h, z, node, e) ← insert_zsl e h z score ele;
      if bool_decide (d !! ele = None) then
        let d := <[ele := node]> d in
        ptrs ← zzlNext zl eptr sptr;
        to_skiplist fuel zl ptrs e h z d
      else None
    end
  end.

Fixpoint to_listpack (fuel : nat) (h : heap) (z : zskiplist) (node : option addr) (zl : list Z) : option (heap * list Z) :=
  match node with
  | None => Some (h, zl)
  | Some a =>
    match fuel with
    | O => None
    | S fuel =>
      n ← h !! a;
      ele ← zslGetNodeElement h a;
      zl ← zzlInsertAt dtoa usable junk zl None ele (n_score n);
      zl ← zl;
      next ← get_level h a 0;
      '(h, z) ← zslFreeNode h z a;
      to_listpack fuel h z (forward next) zl
    end
  end.

Inductive encoding := LISTPACK | SKIPLIST.

Definition zsetConvertAndExpand (e : env) (o : zobj) (target : encoding) : option (zobj * env) :=
  match o, target with
  | OBJ_ENCODING_LISTPACK zl, SKIPLIST =>
    '(h, z, e) ← create_zsl e;
    eptr ← lpSeek zl 0;
    ptrs ← (match eptr with
            | None => Some None
            | Some p => s ← lpNext zl p; s ← asserted s; Some (Some (p, s))
            end);
    '(h, z, d, e) ← to_skiplist (length zl) zl ptrs e h z ∅;
    Some (OBJ_ENCODING_SKIPLIST h z d, e)
  | OBJ_ENCODING_SKIPLIST h z d, LISTPACK =>
    zl ← lpNew usable junk 0;
    l ← get_level h (z_header z) 0;
    let h := delete (z_header z) h in
    '(_, zl) ← to_listpack (size h) h z (forward l) zl;
    Some (OBJ_ENCODING_LISTPACK zl, e)
  | _, _ => Some (o, e)
  end.

Definition zsetConvert (e : env) (o : zobj) (target : encoding) : option (zobj * env) :=
  '(_, o) ← zsetLength o; zsetConvertAndExpand e o target.

Definition zsetTypeMaybeConvert (e : env) (o : zobj) (size_hint : Z) : option (zobj * env) :=
  match o with
  | OBJ_ENCODING_LISTPACK _ =>
    if size_hint >? zset_max_listpack_entries server then zsetConvertAndExpand e o SKIPLIST else Some (o, e)
  | OBJ_ENCODING_SKIPLIST _ _ _ => Some (o, e)
  end.

Definition zsetConvertToListpackIfNeeded (e : env) (o : zobj) (maxelelen totelelen : Z) : option (zobj * env) :=
  match o with
  | OBJ_ENCODING_LISTPACK _ => Some (o, e)
  | OBJ_ENCODING_SKIPLIST h z d =>
    safe ← lpSafeToAdd None totelelen;
    if (z_length z <=? zset_max_listpack_entries server) && (maxelelen <=? zset_max_listpack_value server) && safe
    then zsetConvert e o LISTPACK
    else Some (o, e)
  end.

(** ** Elements *)

(** [None] for [C_ERR]. *)
Definition zsetScore (o : zobj) (member : list Z) : option (option double) :=
  match o with
  | OBJ_ENCODING_LISTPACK zl => r ← zzlFind strtod zl member true; Some (match r with Some (_, s) => s | None => None end)
  | OBJ_ENCODING_SKIPLIST h z d =>
    match d !! member with
    | None => Some None
    | Some znode => n ← h !! znode; Some (Some (n_score n))
    end
  end.

(** The return value, [*out_flags], [*newscore] when it is stored. *)
Record add_reply := AddReply { a_ret : Z; a_flags : Z; a_newscore : option double }.

(** What to do with an element that exists with the score [cur]: stop with a
    reply, or go on with the new score. *)
Definition update_checks (in_flags : Z) (score cur : double) : add_reply + double :=
  let flag f := negb (Z.land in_flags f =? 0) in
  if flag ZADD_IN_NX then inl (AddReply 1 ZADD_OUT_NOP None)
  else
    let score := if flag ZADD_IN_INCR then dadd score cur else score in
    if flag ZADD_IN_INCR && isnan score then inl (AddReply 0 ZADD_OUT_NAN None)
    else if (flag ZADD_IN_LT && dle cur score) || (flag ZADD_IN_GT && dle score cur) then inl (AddReply 1 ZADD_OUT_NOP None)
    else inr score.

(** The part for the skip list. *)
Definition zsetAdd_skiplist (e : env) (h : heap) (z : zskiplist) (d : dict) (score : double) (ele : list Z) (in_flags : Z)
    : option (add_reply * zobj * env) :=
  match d !! ele with
  | Some znode =>
    n ← h !! znode;
    let curscore := n_score n in
    match update_checks in_flags score curscore with
    | inl r => Some (r, OBJ_ENCODING_SKIPLIST h z d, e)
    | inr score =>
      if negb (deq score curscore) then
        '(h, z) ← zslUpdateScore h z znode score;
        Some (AddReply 1 ZADD_OUT_UPDATED (Some score), OBJ_ENCODING_SKIPLIST h z d, e)
      else Some (AddReply 1 0 (Some score), OBJ_ENCODING_SKIPLIST h z d, e)
    end
  | None =>
    if Z.land in_flags ZADD_IN_XX =? 0 then
      '(h, z, znode, e) ← insert_zsl e h z score ele;
      Some (AddReply 1 ZADD_OUT_ADDED (Some score), OBJ_ENCODING_SKIPLIST h z (<[ele := znode]> d), e)
    else Some (AddReply 1 ZADD_OUT_NOP None, OBJ_ENCODING_SKIPLIST h z d, e)
  end.

Definition zsetAdd (e : env) (o : zobj) (score : double) (ele : list Z) (in_flags : Z) : option (add_reply * zobj * env) :=
  if isnan score then Some (AddReply 0 ZADD_OUT_NAN None, o, e)
  else
    match o with
    | OBJ_ENCODING_LISTPACK zl =>
      r ← zzlFind strtod zl ele true;
      match r with
      | Some (eptr, curscore) =>
        curscore ← curscore;
        match update_checks in_flags score curscore with
        | inl r => Some (r, o, e)
        | inr score =>
          if negb (deq score curscore) then
            zl ← zzlDelete usable junk zl eptr;
            zl ← zzlInsert strtod dtoa usable junk zl ele score;
            zl ← zl;
            Some (AddReply 1 ZADD_OUT_UPDATED (Some score), OBJ_ENCODING_LISTPACK zl, e)
          else Some (AddReply 1 0 (Some score), o, e)
        end
      | None =>
        if Z.land in_flags ZADD_IN_XX =? 0 then
          '(len, zl) ← zzlLength zl;
          safe ← lpSafeToAdd (Some zl) (zlen ele);
          if (uwrap 32 (len + 1) >? zset_max_listpack_entries server) || (zlen ele >? zset_max_listpack_value server) || negb safe then
            '(o, e) ← zsetConvertAndExpand e (OBJ_ENCODING_LISTPACK zl) SKIPLIST;
            match o with
            | OBJ_ENCODING_SKIPLIST h z d => zsetAdd_skiplist e h z d score ele in_flags
            | OBJ_ENCODING_LISTPACK _ => None
            end
          else
            zl ← zzlInsert strtod dtoa usable junk zl ele score;
            zl ← zl;
            Some (AddReply 1 ZADD_OUT_ADDED (Some score), OBJ_ENCODING_LISTPACK zl, e)
        else Some (AddReply 1 ZADD_OUT_NOP None, o, e)
      end
    | OBJ_ENCODING_SKIPLIST h z d => zsetAdd_skiplist e h z d score ele in_flags
    end.

Definition zsetRemoveFromSkiplist (h : heap) (z : zskiplist) (d : dict) (ele : list Z) : option (bool * heap * zskiplist * dict) :=
  match d !! ele with
  | Some znode =>
    let d := delete ele d in
    '(h, z) ← zslDelete h z znode;
    Some (true, h, z, d)
  | None => Some (false, h, z, d)
  end.

Definition zsetDel (o : zobj) (ele : list Z) : option (bool * zobj) :=
  match o with
  | OBJ_ENCODING_LISTPACK zl =>
    r ← zzlFind strtod zl ele false;
    match r with
    | Some (eptr, _) => zl ← zzlDelete usable junk zl eptr; Some (true, OBJ_ENCODING_LISTPACK zl)
    | None => Some (false, o)
    end
  | OBJ_ENCODING_SKIPLIST h z d =>
    '(b, h, z, d) ← zsetRemoveFromSkiplist h z d ele;
    Some (b, OBJ_ENCODING_SKIPLIST h z d)
  end.

(** The rank from 1, with the pointers where the loop stops. *)
Fixpoint zzl_rank_loop (fuel : nat) (zl : list Z) (ptrs : option (Z * Z)) (ele : list Z) (rank : Z)
    : option (option (Z * Z) * Z) :=
  match ptrs with
  | None => Some (None, rank)
  | Some (eptr, sptr) =>
    match fuel with
    | O => None
    | S fuel =>
      b ← lpCompare zl eptr ele;
      if b : bool then Some (Some (eptr, sptr), rank)
      else
        ptrs ← zzlNext zl eptr sptr;
        zzl_rank_loop fuel zl ptrs ele (uwrap 64 (rank + 1))
    end
  end.

(** The rank or -1, the score of the element, and the object. *)
Definition zsetRank (o : zobj) (ele : list Z) (reverse : bool) : option (Z * option double * zobj) :=
  '(llen, o) ← zsetLength o;
  match o with
  | OBJ_ENCODING_LISTPACK zl =>
    eptr ← lpSeek zl 0;
    eptr ← asserted eptr;
    sptr ← lpNext zl eptr;
    sptr ← asserted sptr;
    '(ptrs, rank) ← zzl_rank_loop (length zl) zl (Some (eptr, sptr)) (cut32 ele) 1;
    match ptrs with
    | Some (_, sptr) =>
      s ← zzlGetScore strtod zl sptr;
      Some (swrap 64 (if reverse then uwrap 64 (llen - rank) else uwrap 64 (rank - 1)), Some s, o)
    | None => Some (-1, None, o)
    end
  | OBJ_ENCODING_SKIPLIST h z d =>
    match d !! ele with
    | Some n =>
      rank ← zslGetRankByNode h z n;
      if rank =? 0 then None
      else
        nd ← h !! n;
        Some (swrap 64 (if reverse then uwrap 64 (llen - rank) else uwrap 64 (rank - 1)), Some (n_score nd), o)
    | None => Some (-1, None, o)
    end
  end.

(** ** Copying *)

(** [while (llen--)], from the tail. *)
Fixpoint dup_loop (llen : nat) (h0 : heap) (ln : option addr) (e : env) (h : heap) (z : zskiplist) (d : dict)
    : option (heap * zskiplist * dict * env) :=
  match llen with
  | O => Some (h, z, d, e)
  | S llen =>
    a ← ln;
    n ← h0 !! a;
    ele ← zslGetNodeElement h0 a;
    '(h, z, znode, e) ← insert_zsl e h z (n_score n) ele;
    let d := match d !! ele with None => <[ele := znode]> d | Some _ => d end in
    dup_loop llen h0 (n_backward n) e h z d
  end.

Definition zsetDup (e : env) (o : zobj) : option (zobj * env) :=
  match o with
  | OBJ_ENCODING_LISTPACK zl =>
    new_zl ← lpDup usable junk zl;
    Some (OBJ_ENCODING_LISTPACK new_zl, e)
  | OBJ_ENCODING_SKIPLIST h0 z0 _ =>
    '(h, z, e) ← create_zsl e;
    '(h, z, d, e) ← dup_loop (Z.to_nat (z_length z0)) h0 (z_tail z0) e h z ∅;
    Some (OBJ_ENCODING_SKIPLIST h z d, e)
  end.
(** ** The abstract sorted set

    A sorted list of items with distinct elements. *)
Abbreviation item := (double * list Z)%type.
Abbreviation sorted := (StronglySorted (fun a b => ilt a b = true)).
Abbreviation numbers := (Forall (fun x : item => isnan x.1 = false)).
Abbreviation elements I := (map snd (I : list item)).

Fixpoint find_score (ele : list Z) (l : list item) : option double :=
  match l with
  | [] => None
  | x :: l => if bool_decide (x.2 = ele) then Some x.1 else find_score ele l
  end.

Definition remove (ele : list Z) (I : list item) : list item := filter (fun x => x.2 <> ele) I.

Definition holds (o : zobj) (I : list item) : Prop :=
  match o with
  | OBJ_ENCODING_LISTPACK zl => exists Q, zholds strtod zl Q /\ map (pitem strtod) Q = I
  | OBJ_ENCODING_SKIPLIST h z d => exists L, repr zsl_size h z L /\ d = dict_of L /\ map itm L = I
  end.

Lemma holds_ordered o I : holds o I -> sorted I /\ numbers I /\ NoDup (elements I).
Proof. destruct o as [zl|h z d]; [intros (Q & [_ ? ? ?] & <-)|intros (L & [_ ? ? ?] & _ & <-)]; done. Qed.

Lemma find_score_middle I1 s ele I2 : ele ∉ elements I1 -> find_score ele (I1 ++ (s, ele) :: I2) = Some s.
Proof.
  induction I1 as [|x I1 IH]; cbn [app find_score map]; [by rewrite bool_decide_true|]. intros [H1 H2]%not_elem_of_cons.
  rewrite bool_decide_false by congruence. auto.
Qed.

Lemma find_score_none ele I : ele ∉ elements I -> find_score ele I = None /\ remove ele I = I.
Proof.
  unfold remove. induction I as [|x I IH]; cbn [find_score map]; [done|]. intros [H1 H2]%not_elem_of_cons.
  destruct (IH H2) as [? IH']. rewrite bool_decide_false by congruence. rewrite filter_cons_True by congruence. by rewrite IH'.
Qed.

Lemma remove_middle I1 x I2 : NoDup (elements (I1 ++ x :: I2)) ->
  remove x.2 (I1 ++ x :: I2) = I1 ++ I2 /\ x.2 ∉ elements (I1 ++ I2).
Proof.
  rewrite map_app. cbn [map]. intros [Hd Hn]%NoDup_middle. rewrite <- map_app in Hn.
  pose proof (proj2 (find_score_none x.2 (I1 ++ I2) Hn)) as Hr. split; [|done]. unfold remove in *. rewrite filter_app in *.
  by rewrite filter_cons_False by (intros H; by apply H).
Qed.

(** ** The environment *)

Fixpoint levels_ok (k : nat) (rs : list Z) : Prop :=
  match k with
  | O => True
  | S k => exists lv rs', zslRandomLevel rs = Some (lv, rs') /\ levels_ok k rs'
  end.

(** Enough random numbers and fresh blocks for [k] nodes. *)
Record ready (e : env) (h : heap) (k : nat) : Prop := {
  rd_levels : levels_ok k (random_numbers e);
  rd_blocks : (k <= length (blocks e))%nat;
  rd_distinct : NoDup (map (fun b => b.1.1) (blocks e));
  rd_fresh : forall b, b ∈ blocks e -> b.1.1 ∉ dom h;
}.

Lemma levels_ok_le j k rs : (j <= k)%nat -> levels_ok k rs -> levels_ok j rs.
Proof. revert j rs. induction k as [|k IH]; intros [|j] rs Hj; cbn; try done; [lia|]. intros (lv & rs' & H & Hk). exists lv, rs'. split; [done|]. apply IH; [lia|done]. Qed.

Lemma ready_le e h j k : (j <= k)%nat -> ready e h k -> ready e h j.
Proof. intros Hj [H1 H2 H3 H4]. constructor; try done; [by eapply levels_ok_le|lia]. Qed.

Lemma dict_of_insert L1 nd L2 : NoDup (map snd (map itm (L1 ++ nd :: L2))) ->
  dict_of (L1 ++ nd :: L2) = <[(itm nd).2 := e_addr nd]> (dict_of (L1 ++ L2)).
Proof. intros Hd. by destruct (dict_of_middle L1 nd L2 Hd). Qed.

Lemma insert_zsl_spec e h z L score ele k :
  repr zsl_size h z L -> ready e h (S k) -> isnan score = false -> ele ∉ map snd (map itm L) -> zlen L + 1 < 2 ^ 63 ->
  exists h' z' a e' L', insert_zsl e h z score ele = Some (h', z', a, e') /\ repr zsl_size h' z' L' /\
    map itm L' = ins (score, ele) (map itm L) /\ dict_of L' = <[ele := a]> (dict_of L) /\ ready e' h' k /\ zlen L' = zlen L + 1.
Proof.
  intros Hr [(lv & rs' & Hlv & Hlvs) Hbl Hnd Hfresh] Hnan Hele Hb. unfold insert_zsl, take_block.
  destruct (blocks e) as [|[[a u] j] bs] eqn:Hbs; [cbn in Hbl; lia|]. mred. cbn [random_numbers].
  destruct (zslInsert_spec zsl_size h z L (random_numbers e) a u j score ele lv rs') as (h' & z' & L1 & nd & L2 & -> & Hr' & -> & Ha & Hitm & Hins & Hdom); try done.
  { apply (Hfresh (a, u, j)). left. }
  mred. eexists h', z', a, _, (L1 ++ nd :: L2). split_and!; try done.
  - rewrite dict_of_insert by apply Hr'. by rewrite Hitm, Ha.
  - cbn [map] in Hnd. apply NoDup_cons in Hnd as [Hna Hnd]. constructor; cbn [random_numbers blocks]; try done; [cbn in Hbl; lia|].
    intros b Hb'. rewrite Hdom, not_elem_of_union, not_elem_of_singleton. split; [|apply Hfresh; by right].
    intros Heq. apply Hna. cbn [fst]. rewrite <- Heq. apply (list_elem_of_fmap_2 (fun b => b.1.1) bs b Hb').
  - rewrite !length_app. cbn [length]. lia.
Qed.

Lemma create_zsl_spec e k : ready e ∅ (S k) ->
  exists h z e', create_zsl e = Some (h, z, e') /\ repr zsl_size h z [] /\ ready e' h k.
Proof.
  intros [Hlv Hbl Hnd Hfresh]. unfold create_zsl, take_block. destruct (blocks e) as [|[[a u] j] bs] eqn:Hbs; [cbn in Hbl; lia|]. mred.
  pose proof (zslCreate_spec a u zsl_size) as Hr. destruct (zslCreate a u zsl_size) as [h z] eqn:E. cbn [fst snd] in Hr.
  eexists h, z, _. split_and!; [done|done|]. cbn [map] in Hnd. apply NoDup_cons in Hnd as [Hna Hnd].
  constructor; cbn [random_numbers blocks]; try done; [apply (levels_ok_le k (S k)); [lia|done]|cbn in Hbl; lia|].
  intros b Hb. unfold zslCreate, zslCreateHeaderNode in E. simplify_eq. rewrite dom_insert_L, dom_empty_L, not_elem_of_union, not_elem_of_singleton.
  split; [|by apply not_elem_of_empty]. intros Heq. apply Hna. cbn [fst]. rewrite <- Heq. apply (list_elem_of_fmap_2 (fun b => b.1.1) bs b Hb).
Qed.

(** ** Conversion: proofs *)

Lemma ins_last x l : Forall (fun y => ilt y x = true) l -> ins x l = l ++ [x].
Proof. intros H. rewrite <- (app_nil_r l) at 1. by apply ins_app. Qed.

Abbreviation pitem := (pitem strtod).

(** The pointers to a pair. *)
Definition pptrs (Q1 Q2 : list pair) : option (Z * Z) :=
  match Q2 with [] => None | q :: _ => Some (epos Q1, spos Q1 q) end.

Lemma zzlNext_spec zl Q1 q Q2 : zrep zl (Q1 ++ q :: Q2) -> zzlNext zl (epos Q1) (spos Q1 q) = Some (pptrs (Q1 ++ [q]) Q2).
Proof.
  intros Hz. unfold zzlNext. rewrite (nav_next _ _ _ _ Hz). mred. destruct Q2 as [|q2 Q2]; [done|]. cbn [eptr pptrs].
  assert (zrep zl ((Q1 ++ [q]) ++ q2 :: Q2)) as Hz' by (by rewrite <- app_assoc). by rewrite (nav_score _ _ _ _ Hz').
Qed.

Lemma to_skiplist_spec zl : forall Q2 Q1 e h z L fuel k,
  zholds strtod zl (Q1 ++ Q2) -> repr zsl_size h z L -> map itm L = map pitem Q1 -> ready e h (length Q2 + k) ->
  (length Q2 <= fuel)%nat -> zlen (Q1 ++ Q2) + 1 < 2 ^ 63 ->
  exists h' z' L' e', to_skiplist fuel zl (pptrs Q1 Q2) e h z (dict_of L) = Some (h', z', dict_of L', e') /\
    repr zsl_size h' z' L' /\ map itm L' = map pitem (Q1 ++ Q2) /\ ready e' h' k.
Proof.
  induction Q2 as [|q Q2 IH]; intros Q1 e h z L fuel k Hh Hr HL He Hf Hb.
  { exists h, z, L, e. rewrite app_nil_r. cbn [pptrs]. by destruct fuel. }
  pose proof Hh as [Hz Hs Hn Hd]. destruct fuel as [|fuel]; [cbn in Hf; lia|]. cbn [pptrs to_skiplist].
  rewrite (nav_getscore strtod _ _ _ _ Hz). mred. rewrite (object_at strtod _ _ _ _ Hz). mred.
  rewrite map_app in Hs, Hn, Hd. cbn [map] in Hs, Hn, Hd. destruct (sorted_drop _ _ _ Hs) as (_ & Hlt & _).
  assert ((pitem q).2 ∉ map snd (map itm L)) as Hnotin.
  { rewrite HL. rewrite map_app in Hd. cbn [map] in Hd. apply NoDup_middle in Hd as [_ Hd]. rewrite not_elem_of_app in Hd. by destruct Hd. }
  assert (length L = length Q1) as HlL by (apply (f_equal length) in HL; by rewrite !length_map in HL).
  rewrite length_app in Hb. cbn [length] in Hb, Hf, He.
  destruct (insert_zsl_spec e h z L (pitem q).1 (pitem q).2 (length Q2 + k)) as (h1 & z1 & a & e1 & L1 & -> & Hr1 & HL1 & Hdict & He1 & Hl1); try done; [|lia|].
  { apply Forall_app in Hn as [_ [? _]%Forall_cons]. done. }
  mred. rewrite bool_decide_true.
  2: { apply not_elem_of_list_to_map. rewrite dict_keys. done. }
  rewrite (zzlNext_spec zl Q1 q Q2 Hz). mred. rewrite <- Hdict.
  destruct (IH (Q1 ++ [q]) e1 h1 z1 L1 fuel k) as (h' & z' & L' & e' & -> & Hr' & HL' & He'); try done; [by rewrite <- app_assoc| |lia|rewrite !length_app; cbn [length]; lia|].
  { rewrite HL1, HL, map_app. cbn [map]. rewrite <- surjective_pairing. by apply ins_last. }
  exists h', z', L', e'. rewrite <- app_assoc in HL'. done.
Qed.

Lemma to_skiplist_correct e zl I k :
  holds (OBJ_ENCODING_LISTPACK zl) I -> ready e ∅ (S (length I + k)) ->
  exists h z d e', zsetConvertAndExpand e (OBJ_ENCODING_LISTPACK zl) SKIPLIST = Some (OBJ_ENCODING_SKIPLIST h z d, e') /\
    holds (OBJ_ENCODING_SKIPLIST h z d) I /\ ready e' h k.
Proof.
  intros (Q & Hh & <-) He. rewrite length_map in He. cbn [zsetConvertAndExpand].
  destruct (create_zsl_spec e (length Q + k) He) as (h & z & e1 & -> & Hr & He1). mred. pose proof (z_rep _ _ _ Hh) as Hz.
  rewrite (seek_first zl Q Hz). mred.
  assert ((match eptr [] Q with None => Some None | Some p => s ← lpNext zl p; s ← asserted s; Some (Some (p, s)) end) = Some (pptrs [] Q)) as ->.
  { destruct Q as [|q Q]; [done|]. cbn [eptr pptrs]. assert (zrep zl ([] ++ q :: Q)) as Hz' by done. by rewrite (nav_score _ _ _ _ Hz'). }
  mred. pose proof (zrep_fuel zl Q Hz). pose proof (zzl_length_bound zl Q Hz).
  destruct (to_skiplist_spec zl Q [] e1 h z [] (length zl) k) as (h' & z' & L' & e' & E & Hr' & HL' & He'); try done; [lia|cbn [app]; lia|].
  change (dict_of []) with (∅ : dict) in E. rewrite E. mred. exists h', z', (dict_of L'), e'. split_and!; try done. by exists L'.
Qed.
(** The other way: what is read back of the scores. *)
Abbreviation stored := (stored strtod dtoa).
Abbreviation storable := (storable strtod dtoa).
Definition stored_item (x : item) : item := (stored x.1, x.2).

Definition weight (l : list item) : Z := foldr (fun x n => zlen x.2 + 170 + n) 0 l.

Context (usable_ok : forall n, 0 <= n < 2 ^ 33 -> n <= usable n).

Lemma append_pair zl Q ele score :
  zrep zl Q -> elem_fine ele -> storable score -> room Q ele ->
  exists zl' q, zzlInsertAt dtoa usable junk zl None ele score = Some (Some zl') /\ zrep zl' (Q ++ [q]) /\
    pitem q = (stored score, ele) /\ zlen (chunks (flat [q])) <= zlen ele + 170.
Proof using usable_ok.
  intros Hz Hele [Hnan (e & Hse & He & Hsz) Hst Heq] Hroom.
  destruct (insert_at dtoa usable junk usable_ok zl Q [] ele score e) as (zl' & E & Hz'); rewrite ?app_nil_r; try done.
  exists zl', (new_pair ele e). split_and!; try done.
  - unfold Zzl.pitem, Zzl.stored. cbn [new_pair p_elev p_scorev]. by rewrite Hse, text_as_value.
  - by apply (new_pair_ok ele e).
Qed.

Lemma to_listpack_spec : forall L h z G B zl Q fuel,
  cells h L G B -> NoDup (map e_addr L) -> linked_at (z_level z) 0 L G -> Forall ent_ok L -> (length L <= fuel)%nat ->
  zrep zl Q -> Forall (fun x => elem_fine x.2 /\ storable x.1) (map itm L) ->
  zlen (chunks (flat Q)) + weight (map itm L) + 200 < 2 ^ 31 ->
  exists h' zl' Q', to_listpack fuel h z (e_addr <$> head L) zl = Some (h', zl') /\ zrep zl' (Q ++ Q') /\
    map pitem Q' = map stored_item (map itm L).
Proof using usable_ok.
  induction L as [|e L IH]; intros h z G B zl Q fuel Hc Hn HG Hok Hf Hz Hfine Hw.
  { exists h, zl, []. rewrite app_nil_r. by destruct fuel. }
  destruct fuel as [|fuel]; [cbn in Hf; lia|]. cbn [head fmap option_fmap option_map to_listpack]. cbn [map] in Hfine.
  apply Forall_cons in Hfine as [[Hele Hst] Hfine]. apply Forall_cons in Hok as [([el Hel] & _ & Hht) Hok].
  assert (itm e = (e_score e, el)) as Hitm by (unfold itm; by rewrite Hel). rewrite Hitm in Hele, Hst. cbn [fst snd] in Hele, Hst.
  unfold zslGetNodeElement. rewrite (cells_lookup _ _ _ _ e Hc) by left. cbn [mbind option_bind node_of n_ele n_score]. rewrite Hel.
  cbn [mbind option_bind]. unfold weight in Hw. cbn [map foldr] in Hw. rewrite Hitm in Hw. cbn [snd] in Hw.
  assert (0 <= weight (map itm L)) as Hwp by (unfold weight; generalize (map itm L); intros l; induction l as [|x l IHl]; cbn [foldr]; lia).
  fold (weight (map itm L)) in Hw.
  destruct (append_pair zl Q el (e_score e) Hz Hele Hst) as (zl1 & q & -> & Hz1 & Hq & Hql); [unfold room; lia|]. cbn [mbind option_bind].
  rewrite (get_level_cells _ _ _ _ e O Hc) by (left || lia). cbn [mbind option_bind].
  unfold zslFreeNode. rewrite (cells_lookup _ _ _ _ e Hc) by left. cbn [mbind option_bind node_of n_usable].
  apply Forall_cons in Hc as [_ Hc]. cbn [map] in Hn. apply NoDup_cons in Hn as [Hna Hn]. apply linked_at_cons in HG as [HG1 HG].
  destruct (HG1 ltac:(lia)) as [-> _]. rewrite first_head by (by apply tall_ok).
  match goal with |- context [to_listpack fuel _ ?w _ _] =>
    destruct (IH (delete (e_addr e) h) w G B zl1 (Q ++ [q]) fuel) as (h' & zl' & Q' & E & Hz' & HQ') end;
    try done; [by apply cells_release|cbn in Hf; lia| |].
  { rewrite flat_app, chunks_app, length_app. lia. }
  rewrite E. exists h', zl', (q :: Q'). split_and!; [done|by rewrite <- app_assoc in Hz'|]. cbn [map]. rewrite HQ', Hq, Hitm. done.
Qed.

Lemma stored_sorted l : Forall (fun x : item => storable x.1) l -> sorted l -> sorted (map stored_item l).
Proof.
  induction l as [|x l IH]; cbn [map]; [constructor|]. intros [Hx Hl]%Forall_cons [Hs Hlt]%StronglySorted_inv. constructor; [auto|].
  rewrite Forall_map. rewrite Forall_forall in Hl, Hlt |- *. intros y Hy. destruct Hx, (Hl y Hy). unfold stored_item.
  rewrite (ilt_deq_l _ x.1) by done. rewrite (ilt_deq_r _ y.1) by done. rewrite <- !surjective_pairing. by apply Hlt.
Qed.

Lemma to_listpack_correct e h z d l :
  holds (OBJ_ENCODING_SKIPLIST h z d) l -> Forall (fun x => elem_fine x.2 /\ storable x.1) l -> weight l + 200 < 2 ^ 31 ->
  exists zl, zsetConvertAndExpand e (OBJ_ENCODING_SKIPLIST h z d) LISTPACK = Some (OBJ_ENCODING_LISTPACK zl, e) /\
    holds (OBJ_ENCODING_LISTPACK zl) (map stored_item l).
Proof using usable_ok.
  intros (L & [(hd & G & B & [Hc Hn HG Hhd Hne H32 Hok HB Htail Hlen Hlev] & Hdom & Hal) Hs Hnum Hd] & -> & <-) Hfine Hw. cbn [zsetConvertAndExpand].
  destruct (new_spec usable junk usable_ok 0) as (zl & -> & Hr); [lia|]. mred. rewrite <- Hhd.
  rewrite (get_level_cells _ _ _ _ hd O Hc) by (left || (rewrite H32; unfold ZSKIPLIST_MAXLEVEL; lia)). mred.
  destruct (HG O [] hd L eq_refl) as [-> _]; [rewrite H32; unfold ZSKIPLIST_MAXLEVEL; lia|]. rewrite first_head by (by apply tall_ok).
  apply Forall_cons in Hc as [_ Hc]. cbn [map] in Hn. apply NoDup_cons in Hn as [Hna Hn]. pose proof (dom_release h hd L Hdom Hna) as Hd'.
  destruct (to_listpack_spec L (delete (e_addr hd) h) z G B zl [] (size (delete (e_addr hd) h))) as (h' & zl' & Q' & -> & Hz' & HQ'); try done.
  { by apply cells_release. }
  { apply (linked_at_app_r _ _ [hd]), HG. }
  { rewrite <- size_dom, Hd', size_list_to_set by done. by rewrite length_map. }
  mred. exists zl'. split; [done|]. exists Q'. split; [|done]. constructor; rewrite ?HQ'; [done|..].
  - apply stored_sorted; [|done]. eapply Forall_impl; [exact Hfine|]. by intros x [_ ?].
  - apply Forall_map. eapply Forall_impl; [exact Hfine|]. intros x [_ []]. done.
  - rewrite map_map. rewrite (map_ext _ snd) by done. done.
Qed.
(** ** Adding: proofs *)

(** What [ZADD] promises for an element that has a score: NX leaves it alone;
    INCR adds, and the sum must be a number; GT and LT let the score only grow
    or only fall. *)
Definition decision (in_flags : Z) (score cur : double) : add_reply + double :=
  let incr := Z.testbit in_flags 0 in
  let s := if incr then dadd score cur else score in
  if Z.testbit in_flags 1 then inl (AddReply 1 ZADD_OUT_NOP None)
  else if isnan s then inl (AddReply 0 ZADD_OUT_NAN None)
  else if Z.testbit in_flags 4 && negb (dlt s cur) then inl (AddReply 1 ZADD_OUT_NOP None)
  else if Z.testbit in_flags 3 && negb (dlt cur s) then inl (AddReply 1 ZADD_OUT_NOP None)
  else inr s.

Lemma land_flag f k : 0 <= k -> negb (Z.land f (2 ^ k) =? 0) = Z.testbit f k.
Proof.
  intros Hk. destruct (Z.testbit f k) eqn:E.
  - apply negb_true_iff, Z.eqb_neq. intros H. apply (f_equal (fun x => Z.testbit x k)) in H.
    rewrite Z.land_spec, Z.pow2_bits_true, E, Z.bits_0 in H by done. done.
  - apply negb_false_iff, Z.eqb_eq. apply Z.bits_inj'. intros i Hi. rewrite Z.land_spec, Z.bits_0.
    destruct (Z.eq_dec k i) as [->|Hne]; [by rewrite E|]. by rewrite Z.pow2_bits_false, andb_false_r.
Qed.

Lemma update_decision f score cur : isnan score = false -> isnan cur = false -> update_checks f score cur = decision f score cur.
Proof.
  intros Hs Hc. unfold update_checks, decision.
  change ZADD_IN_NX with (2 ^ 1). change ZADD_IN_INCR with (2 ^ 0). change ZADD_IN_LT with (2 ^ 4). change ZADD_IN_GT with (2 ^ 3).
  rewrite !land_flag by lia. destruct (Z.testbit f 1); [done|].
  set (s := if Z.testbit f 0 then dadd score cur else score).
  assert (Z.testbit f 0 && isnan s = isnan s) as -> by (unfold s; destruct (Z.testbit f 0); [done|by rewrite Hs]).
  destruct (isnan s) eqn:Hn; [done|]. rewrite !dle_dlt by done.
  by destruct (Z.testbit f 4), (Z.testbit f 3), (dlt s cur), (dlt cur s).
Qed.

(** The reply, and the new score of the element when the set changes. *)
Definition zadd (in_flags : Z) (score : double) (ele : list Z) (l : list item) : add_reply * option double :=
  if isnan score then (AddReply 0 ZADD_OUT_NAN None, None)
  else
    match find_score ele l with
    | Some cur =>
      match decision in_flags score cur with
      | inl r => (r, None)
      | inr s => if deq s cur then (AddReply 1 0 (Some s), None) else (AddReply 1 ZADD_OUT_UPDATED (Some s), Some s)
      end
    | None => if Z.testbit in_flags 2 then (AddReply 1 ZADD_OUT_NOP None, None)
              else (AddReply 1 ZADD_OUT_ADDED (Some score), Some score)
    end.

(** The set after a change of score: an equal number may be stored. *)
Definition changed (o : zobj) (ele : list Z) (l : list item) (change : option double) : Prop :=
  match change with
  | None => holds o l
  | Some s => exists s', isnan s' = false /\ deq s' s = true /\ holds o (ins (s', ele) (remove ele l))
  end.

Lemma decision_number f score cur s : decision f score cur = inr s -> isnan s = false.
Proof.
  unfold decision. set (s' := if Z.testbit f 0 then _ else _). destruct (Z.testbit f 1); [done|].
  destruct (isnan s') eqn:E; [done|]. repeat (destruct (_ && _); [done|]). by intros [= <-].
Qed.

Lemma deq_refl s : isnan s = false -> deq s s = true.
Proof. intros H. by rewrite deq_dlt, dlt_irrefl. Qed.

Lemma dict_find L ele : NoDup (map snd (map itm L)) ->
  match dict_of L !! ele with
  | Some a => exists L1 nd L2, L = L1 ++ nd :: L2 /\ (itm nd).2 = ele /\ e_addr nd = a
  | None => ele ∉ map snd (map itm L)
  end.
Proof.
  intros Hd. destruct (dict_of L !! ele) as [a|] eqn:E.
  - apply elem_of_list_to_map_2 in E. apply list_elem_of_fmap in E as (nd & [= -> ->] & Hin).
    apply list_elem_of_split in Hin as (L1 & L2 & ->). by exists L1, nd, L2.
  - apply not_elem_of_list_to_map in E. by rewrite dict_keys in E.
Qed.

(** An element of the set, and the set without it. *)
Lemma split_item {X} (f : X -> item) L1 nd L2 : NoDup (map snd (map f (L1 ++ nd :: L2))) ->
  find_score (f nd).2 (map f (L1 ++ nd :: L2)) = Some (f nd).1 /\ remove (f nd).2 (map f (L1 ++ nd :: L2)) = map f (L1 ++ L2).
Proof.
  intros Hd. rewrite map_app in Hd |- *. cbn [map] in Hd |- *. destruct (remove_middle _ _ _ Hd) as [-> Hn]. rewrite map_app. split; [|done].
  rewrite map_app, not_elem_of_app in Hn. destruct (f nd) as [s el]. apply find_score_middle. by destruct Hn.
Qed.

Lemma middle_number {X} (f : X -> item) L1 nd L2 : numbers (map f (L1 ++ nd :: L2)) -> isnan (f nd).1 = false.
Proof. rewrite map_app. by intros [_ [? _]%Forall_cons]%Forall_app. Qed.

Lemma xx_flag f : (Z.land f ZADD_IN_XX =? 0) = negb (Z.testbit f 2).
Proof. rewrite <- (land_flag f 2) by done. by rewrite negb_involutive. Qed.

Lemma add_skiplist_spec e h z d l score ele f :
  holds (OBJ_ENCODING_SKIPLIST h z d) l -> ready e h 1 -> isnan score = false -> zlen l + 1 < 2 ^ 63 ->
  exists o' e', zsetAdd_skiplist e h z d score ele f = Some ((zadd f score ele l).1, o', e') /\ changed o' ele l (zadd f score ele l).2.
Proof.
  intros (L & Hr & -> & <-) He Hnan Hb. rewrite length_map in Hb. unfold zadd. rewrite Hnan. unfold zsetAdd_skiplist.
  pose proof (r_elements _ _ _ _ Hr) as Hd. pose proof (dict_find L ele Hd) as Hf. destruct (dict_of L !! ele) as [a|].
  - destruct Hf as (L1 & nd & L2 & -> & <- & <-). destruct (split_item itm L1 nd L2 Hd) as [-> Hrem].
    pose proof Hr as [(hd & G & B & Hsh & _ & _) _ _ _]. rewrite (cells_lookup _ _ _ _ nd (s_cells _ _ _ _ _ _ Hsh)) by (right; apply elem_of_app; right; left).
    cbn [mbind option_bind node_of n_score]. change (e_score nd) with (itm nd).1.
    rewrite update_decision by (done || apply (middle_number itm L1 nd L2), Hr).
    destruct (decision f score (itm nd).1) as [r|s] eqn:Hu; cbn [fst snd changed].
    { eexists _, _. split; [done|]. by exists (L1 ++ nd :: L2). }
    destruct (deq s (itm nd).1) eqn:Heq; cbn [negb fst snd changed].
    { eexists _, _. split; [done|]. by exists (L1 ++ nd :: L2). }
    pose proof (decision_number _ _ _ _ Hu) as Hs. destruct (zslUpdateScore_spec zsl_size h z L1 nd L2 s Hr Hs Hb) as (h' & z' & M1 & M2 & -> & Hr' & HM & Hins).
    cbn [mbind option_bind]. eexists _, _. split; [done|]. exists s. split_and!; [done|by apply deq_refl|].
    exists (M1 ++ with_score s nd :: M2). split_and!; [done| |].
    + rewrite (dict_of_insert M1 _ M2) by apply Hr'. rewrite HM. by rewrite dict_of_insert.
    + rewrite Hins, Hrem. done.
  - destruct (find_score_none ele _ Hf) as [-> Hrem]. rewrite xx_flag. destruct (Z.testbit f 2); cbn [negb fst snd changed].
    + eexists _, _. split; [done|]. by exists L.
    + destruct (insert_zsl_spec e h z L score ele 0 Hr He Hnan Hf Hb) as (h' & z' & a & e' & L' & -> & Hr' & HL' & Hdict & _ & _).
      cbn [mbind option_bind]. eexists _, _. split; [done|]. exists score. split_and!; [done|by apply deq_refl|].
      exists L'. split_and!; [done|done|]. by rewrite HL', Hrem.
Qed.

(** For a listpack: the new score survives the conversions, and the pair fits. *)
Definition fits (o : zobj) (ele : list Z) (change : option double) : Prop :=
  match o with
  | OBJ_ENCODING_LISTPACK zl =>
    elem_fine ele /\ (forall s, change = Some s -> storable s) /\ exists n, lpBytes zl = Some n /\ n + zlen ele + 200 < 2 ^ 31
  | OBJ_ENCODING_SKIPLIST _ _ _ => True
  end.

Definition heap_of (o : zobj) : heap := match o with OBJ_ENCODING_LISTPACK _ => ∅ | OBJ_ENCODING_SKIPLIST h _ _ => h end.

Lemma fits_room zl Q ele n : zrep zl Q -> lpBytes zl = Some n -> n + zlen ele + 200 < 2 ^ 31 -> room Q ele.
Proof.
  intros [(num & tail & Hly) _] Hn Hb. unfold lpBytes in Hn. rewrite (proj1 (layout_header _ _ _ _ Hly)) in Hn. simplify_eq. unfold room. lia.
Qed.

Lemma zzlLength_spec zl Q : zholds strtod zl Q ->
  exists zl', zzlLength zl = Some (zlen Q, zl') /\ zholds strtod zl' Q /\ lpBytes zl' = lpBytes zl.
Proof.
  intros [Hz Hs Hn Hd]. pose proof (zzl_length_bound zl Q Hz) as Hb. destruct Hz as [(num & tail & Hly) Hok].
  unfold zzlLength, lpBytes. destruct (length_spec _ _ _ _ Hly) as (zl' & num' & -> & Hly'). mred. exists zl'. rewrite flat_length. split_and!.
  - do 2 f_equal. replace (Z.of_nat (2 * length Q)) with (zlen Q * 2) by lia. rewrite Z.div_mul by lia. apply uwrap_id. unfold in_u. lia.
  - constructor; try done. split; [by exists num', tail|done].
  - by rewrite (proj1 (layout_header _ _ _ _ Hly)), (proj1 (layout_header _ _ _ _ Hly')).
Qed.

Lemma add_spec e o l score ele f :
  holds o l -> ready e (heap_of o) (length l + 2) -> fits o ele (zadd f score ele l).2 -> zlen l + 1 < 2 ^ 63 ->
  exists o' e', zsetAdd e o score ele f = Some ((zadd f score ele l).1, o', e') /\ changed o' ele l (zadd f score ele l).2.
Proof using usable_ok.
  intros Hh He Hfit Hb. unfold zsetAdd. destruct (isnan score) eqn:Hnan.
  { unfold zadd. rewrite Hnan. by eexists _, _. }
  destruct o as [zl|h z d]; [|apply add_skiplist_spec; try done; eapply ready_le; [|exact He]; lia].
  pose proof Hh as (Q & HQ & Hl). destruct Hfit as (Hele & Hst & n & Hn & Hroom). pose proof (z_rep _ _ _ HQ) as Hz.
  pose proof (fits_room _ _ _ _ Hz Hn Hroom) as Hr. pose proof (zzlFind_spec strtod zl Q ele true Hz Hele) as Hf.
  assert (NoDup (map snd (map pitem Q))) as Hd by apply HQ. destruct (pair_index strtod ele Q) as [i|].
  - destruct Hf as (Q1 & q & Q2 & -> & <- & _ & ->). mred. unfold zadd in *. rewrite Hnan in *. rewrite <- Hl in *.
    destruct (split_item pitem Q1 q Q2 Hd) as [Hcur Hrem]. rewrite Hcur in *.
    rewrite update_decision in * by (done || apply (middle_number pitem Q1 q Q2), HQ).
    destruct (decision f score (pitem q).1) as [r|s] eqn:Hu; cbn [fst snd changed] in *; [eexists _, _; by split|].
    destruct (deq s (pitem q).1) eqn:Heq; cbn [negb fst snd changed] in *; [eexists _, _; by split|].
    destruct (zzlDelete_spec strtod usable junk usable_ok zl Q1 q Q2 HQ) as (zl1 & -> & HQ1). mred.
    specialize (Hst s eq_refl). destruct (zzlInsert_spec strtod dtoa usable junk usable_ok zl1 (Q1 ++ Q2) (pitem q).2 s HQ1 Hele Hst)
      as (zl2 & M1 & q' & M2 & -> & HQ2 & HM & Hq' & _ & Hins).
    { unfold room in *. rewrite flat_app, flat_cons, !chunks_app, !length_app in Hr. rewrite flat_app, chunks_app, length_app.
      rewrite (chunks_cons (p_ele q)), (chunks_cons (p_score q)), !length_app in Hr. lia. }
    { rewrite map_app in Hd |- *. cbn [map] in Hd. by destruct (remove_middle _ _ _ Hd). }
    mred. eexists _, _. split; [done|]. destruct Hst. exists (stored s). split_and!; try done. exists (M1 ++ q' :: M2). split; [done|].
    by rewrite Hins, Hrem.
  - destruct Hf as [-> Hnotin]. mred. unfold zadd in *. rewrite Hnan in *. rewrite <- Hl in *.
    destruct (find_score_none ele _ Hnotin) as [Hcur Hrem]. rewrite Hcur in *. rewrite xx_flag. destruct (Z.testbit f 2) eqn:Hxx; cbn [negb fst snd changed] in *; [eexists _, _; by split|].
    destruct (zzlLength_spec zl Q HQ) as (zl1 & -> & HQ1 & Hbytes). mred. pose proof (z_rep _ _ _ HQ1) as Hz1.
    unfold lpSafeToAdd. unfold lpBytes in Hbytes, Hn. rewrite Hbytes, Hn. mred. destruct (_ || _ || _).
    + destruct (to_skiplist_correct e zl1 (map pitem Q) 1) as (h & z & d & e1 & -> & Hh1 & He1); [by exists Q| |].
      { replace (S (length (map pitem Q) + 1)) with (length (map pitem Q) + 2)%nat by lia. done. }
      mred. destruct (add_skiplist_spec e1 h z d (map pitem Q) score ele f Hh1 He1 Hnan Hb) as (o' & e' & -> & Hch).
      unfold zadd in *. rewrite Hnan, Hcur, Hxx in *. by eexists _, _.
    + specialize (Hst score eq_refl). destruct (zzlInsert_spec strtod dtoa usable junk usable_ok zl1 Q ele score HQ1 Hele Hst Hr Hnotin)
        as (zl2 & M1 & q' & M2 & -> & HQ2 & _ & _ & _ & Hins).
      mred. eexists _, _. split; [done|]. destruct Hst. exists (stored score). split_and!; try done. exists (M1 ++ q' :: M2). split; [done|].
      by rewrite Hins, Hrem.
Qed.
(** ** Lookup, removal, rank: proofs *)

Lemma score_spec o l ele : holds o l -> match o with OBJ_ENCODING_LISTPACK _ => elem_fine ele | _ => True end ->
  zsetScore o ele = Some (find_score ele l).
Proof.
  destruct o as [zl|h z d]; cbn [zsetScore].
  - intros (Q & [Hz _ _ Hd] & <-) Hele. pose proof (zzlFind_spec strtod zl Q ele true Hz Hele) as Hf. destruct (pair_index strtod ele Q).
    + destruct Hf as (Q1 & q & Q2 & -> & <- & _ & ->). mred. by rewrite (proj1 (split_item pitem Q1 q Q2 Hd)).
    + destruct Hf as [-> Hn]. mred. by rewrite (proj1 (find_score_none ele _ Hn)).
  - intros (L & Hr & -> & <-) _. pose proof (r_elements _ _ _ _ Hr) as Hd. pose proof (dict_find L ele Hd) as Hf. destruct (dict_of L !! ele) as [a|].
    + destruct Hf as (L1 & nd & L2 & -> & <- & <-). rewrite (proj1 (split_item itm L1 nd L2 Hd)). destruct Hr as [(hd & G & B & Hsh & _ & _) _ _ _].
      by rewrite (cells_lookup _ _ _ _ nd (s_cells _ _ _ _ _ _ Hsh)) by (right; apply elem_of_app; right; left).
    + by rewrite (proj1 (find_score_none ele _ Hf)).
Qed.

Lemma del_spec o l ele : holds o l -> match o with OBJ_ENCODING_LISTPACK _ => elem_fine ele | _ => True end -> zlen l + 1 < 2 ^ 63 ->
  exists o', zsetDel o ele = Some (match find_score ele l with Some _ => true | None => false end, o') /\ holds o' (remove ele l).
Proof using usable_ok.
  destruct o as [zl|h z d]; cbn [zsetDel].
  - intros (Q & HQ & <-) Hele _. pose proof HQ as [Hz _ _ Hd]. pose proof (zzlFind_spec strtod zl Q ele false Hz Hele) as Hf. destruct (pair_index strtod ele Q).
    + destruct Hf as (Q1 & q & Q2 & -> & <- & _ & ->). mred. destruct (split_item pitem Q1 q Q2 Hd) as [-> Hrem].
      destruct (zzlDelete_spec strtod usable junk usable_ok zl Q1 q Q2 HQ) as (zl1 & -> & HQ1). mred. eexists. split; [done|]. rewrite Hrem. by exists (Q1 ++ Q2).
    + destruct Hf as [-> Hn]. mred. destruct (find_score_none ele _ Hn) as [-> ->]. eexists. split; [done|]. by exists Q.
  - intros (L & Hr & -> & <-) _ Hb. rewrite length_map in Hb. pose proof (r_elements _ _ _ _ Hr) as Hd. pose proof (dict_find L ele Hd) as Hf.
    unfold zsetRemoveFromSkiplist. destruct (dict_of L !! ele) as [a|].
    + destruct Hf as (L1 & nd & L2 & -> & <- & <-). destruct (split_item itm L1 nd L2 Hd) as [-> Hrem].
      destruct (zslDelete_spec zsl_size h z L1 nd L2 Hr Hb) as (h' & z' & -> & Hr'). mred. eexists. split; [done|]. rewrite Hrem. exists (L1 ++ L2).
      split_and!; [done| |done]. destruct (dict_of_middle L1 nd L2 Hd) as [-> Hnone]. by apply delete_insert_id.
    + mred. destruct (find_score_none ele _ Hf) as [-> ->]. eexists. split; [done|]. by exists L.
Qed.

Definition is_listpack (o : zobj) : bool := match o with OBJ_ENCODING_LISTPACK _ => true | OBJ_ENCODING_SKIPLIST _ _ _ => false end.

Lemma length_of o l : holds o l -> exists o', zsetLength o = Some (zlen l, o') /\ holds o' l /\ is_listpack o' = is_listpack o.
Proof.
  destruct o as [zl|h z d]; cbn [zsetLength].
  - intros (Q & HQ & <-). destruct (zzlLength_spec zl Q HQ) as (zl' & -> & HQ' & _). mred. rewrite length_map. eexists. split; [done|]. split; [by exists Q|done].
  - intros (L & Hr & -> & <-). pose proof Hr as [(hd & G & B & Hsh & _ & _) _ _ _]. rewrite (s_length _ _ _ _ _ _ Hsh), length_map.
    eexists. split; [done|]. split; [by exists L|done].
Qed.

(** The position of an element. *)
Fixpoint position_of (ele : list Z) (l : list item) : Z :=
  match l with
  | [] => 0
  | x :: l => if bool_decide (x.2 = ele) then 0 else 1 + position_of ele l
  end.

Lemma position_middle l1 x l2 : x.2 ∉ elements l1 -> position_of x.2 (l1 ++ x :: l2) = zlen l1.
Proof.
  induction l1 as [|y l1 IH]; cbn [app position_of map]; [by rewrite bool_decide_true|]. intros [H1 H2]%not_elem_of_cons.
  rewrite bool_decide_false by congruence. rewrite IH by done. cbn [length]. lia.
Qed.

Lemma zzl_rank_spec zl ele : forall Q2 Q1 fuel rank,
  zrep zl (Q1 ++ Q2) -> (length Q2 <= fuel)%nat -> 0 <= rank -> rank + zlen Q2 < 2 ^ 64 ->
  zzl_rank_loop fuel zl (pptrs Q1 Q2) ele rank =
  Some (match pair_index strtod ele Q2 with
        | Some i => (pptrs (Q1 ++ take i Q2) (drop i Q2), rank + Z.of_nat i)
        | None => (None, rank + zlen Q2)
        end).
Proof.
  induction Q2 as [|q Q2 IH]; intros Q1 fuel rank Hz Hf Hr Hb.
  { cbn [pptrs pair_index length]. rewrite Z.add_0_r. by destruct fuel. }
  destruct fuel as [|fuel]; [cbn in Hf; lia|]. cbn [pptrs zzl_rank_loop pair_index]. destruct (nav_rep zl Q1 q Q2 Hz) as [Hrep [He _]].
  pose proof (compare_at zl (flat Q1) (p_ele q) (p_score q :: flat Q2) (p_elev q) ele Hrep He) as Hcmp.
  change (off (flat Q1)) with (epos Q1) in Hcmp. rewrite Hcmp. mred. change (text (p_elev q)) with (pitem q).2.
  destruct (bool_decide ((pitem q).2 = ele)); [cbn [take drop pptrs]; rewrite app_nil_r; do 2 f_equal; lia|].
  rewrite (zzlNext_spec zl Q1 q Q2 Hz). mred. cbn [length] in Hf, Hb. rewrite uwrap_id by (unfold in_u; lia).
  rewrite IH by (done || lia || by rewrite <- app_assoc). destruct (pair_index strtod ele Q2) as [i|]; cbn [fmap option_fmap option_map].
  - cbn [take drop]. rewrite <- app_assoc. cbn [app]. do 2 f_equal. lia.
  - cbn [length]. do 2 f_equal. lia.
Qed.

Definition rank_reply (reverse : bool) (ele : list Z) (l : list item) : Z :=
  match find_score ele l with
  | Some _ => if reverse then zlen l - 1 - position_of ele l else position_of ele l
  | None => -1
  end.

Lemma rank_spec o l ele reverse :
  holds o l -> match o with OBJ_ENCODING_LISTPACK _ => elem_fine ele /\ l <> [] | _ => True end -> zlen l + 1 < 2 ^ 63 ->
  exists o', zsetRank o ele reverse = Some (rank_reply reverse ele l, find_score ele l, o') /\ holds o' l.
Proof.
  intros Hh Hele Hb. unfold zsetRank, rank_reply. destruct (length_of o l Hh) as (o' & -> & Hh' & Henc). mred. exists o'. split; [|done].
  assert (forall p, 0 <= p < zlen l -> swrap 64 (if reverse then uwrap 64 (zlen l - (p + 1)) else uwrap 64 (p + 1 - 1)) = if reverse then zlen l - 1 - p else p) as Harith.
  { intros p Hp. destruct reverse; rewrite uwrap_id by (unfold in_u; lia); rewrite swrap_id by (unfold in_s; lia); lia. }
  destruct o' as [zl|h z d].
  - destruct o as [zl0|]; [|done].
    destruct Hele as [Hele Hne]. destruct Hh' as (Q & [Hz _ _ Hd] & <-). rewrite length_map in *. rewrite (seek_first zl Q Hz). mred.
    destruct Q as [|q0 Q0]; [done|]. set (Q := q0 :: Q0) in *. cbn [eptr]. unfold asserted. mred. assert (zrep zl ([] ++ q0 :: Q0)) as Hz0 by done.
    change (eptr [] Q) with (Some (epos [])). mred. rewrite (nav_score _ _ _ _ Hz0). mred. rewrite (cut32_id ele Hele).
    pose proof (zrep_fuel zl Q Hz) as Hf. pose proof (zzl_rank_spec zl ele Q [] (length zl) 1 Hz ltac:(lia) ltac:(lia) ltac:(lia)) as Hloop.
    change (pptrs [] Q) with (Some (epos [], spos [] q0)) in Hloop. rewrite Hloop. mred. pose proof (pair_index_spec strtod ele Q) as Hidx.
    destruct (pair_index strtod ele Q) as [i|].
    + destruct Hidx as (Q1 & q & Q2 & HQ & -> & <- & Hn). rewrite HQ in *. rewrite take_app_length, drop_app_length. cbn [app pptrs].
      rewrite (nav_getscore strtod _ _ _ _ Hz). mred. destruct (split_item pitem Q1 q Q2 Hd) as [-> _]. rewrite map_app. cbn [map].
      rewrite position_middle by done. rewrite length_map. do 3 f_equal. rewrite <- (Z.add_comm (zlen Q1)). rewrite Harith by (rewrite length_app; cbn [length]; lia). done.
    + by rewrite (proj1 (find_score_none ele _ Hidx)).
  - destruct Hh' as (L & Hr & -> & <-). rewrite length_map in *. pose proof (r_elements _ _ _ _ Hr) as Hd. pose proof (dict_find L ele Hd) as Hf.
    destruct (dict_of L !! ele) as [a|]; [|by rewrite (proj1 (find_score_none ele _ Hf))].
    destruct Hf as (L1 & nd & L2 & -> & <- & <-). rewrite (zslGetRankByNode_spec zsl_size h z L1 nd L2 Hr Hb). mred.
    rewrite (proj2 (Z.eqb_neq _ 0)) by lia. destruct (split_item itm L1 nd L2 Hd) as [-> _]. pose proof Hr as [(hd & G & B & Hsh & _ & _) _ _ _].
    rewrite (cells_lookup _ _ _ _ nd (s_cells _ _ _ _ _ _ Hsh)) by (right; apply elem_of_app; right; left). cbn [mbind option_bind node_of n_score].
    rewrite map_app in Hd |- *. cbn [map] in Hd |- *. rewrite position_middle.
    2: { rewrite map_app in Hd. cbn [map] in Hd. apply NoDup_middle in Hd as [_ Hd]. rewrite not_elem_of_app in Hd. by destruct Hd. }
    rewrite length_map, Harith by (rewrite length_app; cbn [length]; lia). done.
Qed.
(** ** Copying: proofs *)

Lemma dup_listpack zl es : rep zl es -> exists zl', lpDup usable junk zl = Some zl' /\ rep zl' es.
Proof using usable_ok.
  intros (num & tail & Hly). unfold lpDup, lpBytes. rewrite (proj1 (layout_header _ _ _ _ Hly)). mred. destruct Hly as [Heq Ht Hn He].
  set (m := le_bytes 4 (zlen (chunks es) + 7) ++ le_bytes 2 num ++ chunks es ++ [LP_EOF]).
  assert (zl = m ++ tail) as -> by (rewrite Heq; unfold m; by rewrite <- !app_assoc).
  assert (zlen m = zlen (chunks es) + 7) as Hm by (unfold m; rewrite !length_app, !le_bytes_length; cbn [length]; lia).
  rewrite <- Hm, (rdn_0 m tail) by done. mred. pose proof (usable_ok (zlen m) ltac:(lia)) as Hu.
  pose proof (zrealloc_length junk [] (usable (zlen m)) ltac:(lia)) as Hl. set (blk := zrealloc junk [] (usable (zlen m))) in *. clearbody blk.
  rewrite <- (take_drop (length m) blk). rewrite wrn_0 by (rewrite length_take; lia). eexists. split; [done|].
  exists num, (drop (length m) blk). split; [|done..]. unfold m. by rewrite <- !app_assoc.
Qed.

Lemma dup_loop_spec h0 z0 hd G B D : forall A e h z L k,
  shape h0 z0 hd (A ++ D) G B -> sorted (map itm (A ++ D)) -> numbers (map itm (A ++ D)) -> NoDup (map snd (map itm (A ++ D))) ->
  repr zsl_size h z L -> map itm L = map itm D -> ready e h (length A + k) -> zlen (A ++ D) + 1 < 2 ^ 63 ->
  exists h' z' L' e', dup_loop (length A) h0 (last_or None A) e h z (dict_of L) = Some (h', z', dict_of L', e') /\
    repr zsl_size h' z' L' /\ map itm L' = map itm (A ++ D) /\ ready e' h' k.
Proof.
  intros A. revert D. induction A as [|nd A IH] using rev_ind; intros D e h z L k Hsh Hs Hn Hd Hr HL He Hb.
  { exists h, z, L, e. done. }
  rewrite length_app in He |- *. cbn [length] in He |- *. rewrite Nat.add_1_r in *. cbn [dup_loop Nat.add].
  rewrite <- app_assoc in Hsh, Hs, Hn, Hd, Hb |- *. cbn [app] in Hsh, Hs, Hn, Hd, Hb |- *.
  unfold last_or. rewrite last_snoc. mred. assert (nd ∈ hd :: A ++ nd :: D) as Hin by (right; apply elem_of_app; right; left).
  pose proof (cells_lookup _ _ _ _ nd (s_cells _ _ _ _ _ _ Hsh) Hin) as Hcell. unfold zslGetNodeElement. rewrite Hcell. cbn [mbind option_bind node_of n_ele n_score n_backward].
  assert (ent_ok nd) as ([el Hel] & _ & _) by (pose proof (s_ents _ _ _ _ _ _ Hsh) as Hok; by apply Forall_app in Hok as [_ [? _]%Forall_cons]).
  rewrite Hel. cbn [mbind option_bind]. assert (itm nd = (e_score nd, el)) as Hitm by (unfold itm; by rewrite Hel).
  pose proof Hs as Hs0. rewrite map_app in Hs0, Hn, Hd. cbn [map] in Hs0, Hn, Hd. destruct (sorted_drop _ _ _ Hs0) as (_ & _ & Hgt).
  assert (el ∉ map snd (map itm L)) as Hnotin.
  { rewrite HL. rewrite map_app in Hd. cbn [map] in Hd. rewrite Hitm in Hd. apply NoDup_middle in Hd as [_ Hd]. rewrite not_elem_of_app in Hd. by destruct Hd. }
  assert (length L = length D) as HlL by (apply (f_equal length) in HL; by rewrite !length_map in HL). rewrite length_app in Hb. cbn [length] in Hb.
  destruct (insert_zsl_spec e h z L (e_score nd) el (length A + k)) as (h1 & z1 & a & e1 & L1 & -> & Hr1 & HL1 & Hdict & He1 & _); try done; [|lia|].
  { apply Forall_app in Hn as [_ [Hx _]%Forall_cons]. by rewrite Hitm in Hx. }
  mred. assert (dict_of L !! el = None) as -> by (apply not_elem_of_list_to_map; by rewrite dict_keys). rewrite <- Hdict.
  rewrite (back_ok_at None A nd D B) by apply Hsh.
  destruct (IH (nd :: D) e1 h1 z1 L1 k) as (h' & z' & L' & e' & E & Hr' & HL' & He'); try done.
  - by rewrite map_app.
  - by rewrite map_app.
  - rewrite HL1, HL. cbn [map]. rewrite Hitm in Hgt |- *. apply (ins_app _ []); [constructor|]. by apply Forall_ilt_flip.
  - rewrite length_app. cbn [length]. lia.
  - exists h', z', L', e'. done.
Qed.

Lemma dup_spec e o l : holds o l -> ready e ∅ (length l + 1) -> zlen l + 1 < 2 ^ 63 ->
  exists o' e', zsetDup e o = Some (o', e') /\ holds o' l /\ is_listpack o' = is_listpack o.
Proof using usable_ok.
  intros Hh He Hb. destruct o as [zl|h0 z0 d]; cbn [zsetDup].
  - destruct Hh as (Q & [[Hr Hok] Hs Hn Hd] & <-). destruct (dup_listpack zl (flat Q) Hr) as (zl' & -> & Hr'). mred. eexists _, _. split; [done|].
    split; [|done]. exists Q. split; [|done]. by constructor.
  - destruct Hh as (L & Hr & -> & <-). rewrite length_map in *. replace (length L + 1)%nat with (S (length L + 0)) in He by lia.
    destruct (create_zsl_spec e (length L + 0) He) as (h & z & e1 & -> & Hr1 & He1). mred. pose proof Hr as [(hd & G & B & Hsh & _ & _) Hs Hn Hd].
    rewrite (s_length _ _ _ _ _ _ Hsh), Nat2Z.id, (s_tail _ _ _ _ _ _ Hsh).
    destruct (dup_loop_spec h0 z0 hd G B [] L e1 h z [] 0) as (h' & z' & L' & e' & E & Hr' & HL' & _); rewrite ?app_nil_r; try done.
    change (dict_of []) with (∅ : dict) in E. rewrite E. mred. eexists _, _. split; [done|]. split; [|done]. exists L'. rewrite app_nil_r in HL'. done.
Qed.

(** ** Theorems *)

(** C1: [zsetAdd] refines the abstract ZADD on a sorted list, for both
    encodings and through the conversion from one to the other: the reply and
    the flags are those that the options call for, the set changes only when
    they say so, and then holds the element with the new score (or a number
    equal to it) at its place. *)
Theorem zsetAdd_correct e o l score ele f :
  holds o l -> ready e (heap_of o) (length l + 2) -> fits o ele (zadd f score ele l).2 -> zlen l + 1 < 2 ^ 63 ->
  exists o' e', zsetAdd e o score ele f = Some ((zadd f score ele l).1, o', e') /\ changed o' ele l (zadd f score ele l).2.
Proof using usable_ok. apply add_spec. Qed.

(** Removal reports whether the element was there; afterwards it has no
    score, and every other element is where it was. *)
Theorem zsetDel_correct o l ele :
  holds o l -> match o with OBJ_ENCODING_LISTPACK _ => elem_fine ele | _ => True end -> zlen l + 1 < 2 ^ 63 ->
  exists o', zsetDel o ele = Some (match find_score ele l with Some _ => true | None => false end, o') /\
    holds o' (remove ele l) /\ zsetScore o' ele = Some None.
Proof using usable_ok.
  intros Hh He Hb. destruct (del_spec o l ele Hh He Hb) as (o' & E & Hh'). exists o'. split_and!; try done.
  rewrite (score_spec o' (remove ele l) ele Hh').
  - f_equal. apply find_score_none. unfold remove. intros Hin. apply list_elem_of_fmap in Hin as (x & -> & Hx).
    by apply list_elem_of_filter in Hx as [Hx _].
  - destruct o' as [zl|h z d]; [|done]. destruct o as [zl0|h0 z0 d0]; [done|]. cbn [zsetDel] in E.
    destruct (zsetRemoveFromSkiplist h0 z0 d0 ele) as [[[[b h1] z1] d1]|]; cbn in E; simplify_eq.
Qed.

(** C14: a sorted set converted from a listpack to a skip list and back has the
    same elements in the same order, with the scores read back from what was
    written, which are equal numbers. *)
Theorem zsetConvert_roundtrip e zl l :
  holds (OBJ_ENCODING_LISTPACK zl) l -> ready e ∅ (S (length l)) ->
  Forall (fun x => elem_fine x.2 /\ storable x.1) l -> weight l + 200 < 2 ^ 31 ->
  exists o e' zl', zsetConvertAndExpand e (OBJ_ENCODING_LISTPACK zl) SKIPLIST = Some (o, e') /\ holds o l /\ is_listpack o = false /\
    zsetConvertAndExpand e' o LISTPACK = Some (OBJ_ENCODING_LISTPACK zl', e') /\
    holds (OBJ_ENCODING_LISTPACK zl') (map stored_item l) /\
    Forall2 (fun x y => deq y.1 x.1 = true /\ y.2 = x.2) l (map stored_item l).
Proof using usable_ok.
  intros Hh He Hf Hw. rewrite <- (Nat.add_0_r (length l)) in He.
  destruct (to_skiplist_correct e zl l 0 Hh He) as (h & z & d & e' & E & Hh' & _).
  destruct (to_listpack_correct e' h z d l Hh' Hf Hw) as (zl' & E' & Hl').
  exists (OBJ_ENCODING_SKIPLIST h z d), e', zl'. split_and!; try done. apply Forall2_fmap_r, Forall_Forall2_diag.
  eapply Forall_impl; [exact Hf|]. by intros x [_ []].
Qed.

(** The rank of an element is its position in the order, from the front or
    from the back, with its score; an absent element has the rank -1. *)
Theorem zsetRank_correct o l ele reverse :
  holds o l -> match o with OBJ_ENCODING_LISTPACK _ => elem_fine ele /\ l <> [] | _ => True end -> zlen l + 1 < 2 ^ 63 ->
  exists o', zsetRank o ele reverse = Some (rank_reply reverse ele l, find_score ele l, o') /\ holds o' l.
Proof. apply rank_spec. Qed.
End Model.

Definition env_example : env :=
  Env [2147483647; 0; 2147483647; 2147483647] [(1, 100, no_level); (2, 60, no_level); (3, 60, no_level)].

Lemma env_ready : ready env_example ∅ 3.
Proof.
  constructor.
  - exists 1%nat, [0; 2147483647; 2147483647]. split; [done|]. exists 2%nat, [2147483647]. split; [done|]. by exists 1%nat, [].
  - cbn. lia.
  - cbn. rewrite !NoDup_cons. split_and!; [set_solver..|constructor].
  - intros b _. rewrite dom_empty_L. apply not_elem_of_empty.
Qed.

Abbreviation example_set := (OBJ_ENCODING_LISTPACK zzl_example).

Lemma example_holds : holds no_strtod 24 example_set [(one, [97])].
Proof. exists [pair_example]. split; [apply zzl_example_holds|by vm_compute]. Qed.

Lemma one_storable : storable no_strtod no_dtoa one.
Proof. constructor; [done| |done|done]. exists (LVal 1). by split_and!; vm_compute. Qed.

(** The limit is one entry, so the second element makes the set a skip list. *)
Lemma zsetAdd_correct_witness : exists o' e',
  zsetAdd no_strtod no_dtoa id_usable (fun _ => 7) (Config 1 64) 24 env_example example_set two [98] 0
  = Some (AddReply 1 ZADD_OUT_ADDED (Some two), o', e') /\ changed no_strtod 24 o' [98] [(one, [97])] (Some two).
Proof.
  pose proof (zsetAdd_correct no_strtod no_dtoa id_usable (fun _ => 7) (Config 1 64) 24 id_usable_ok
    env_example example_set [(one, [97])] two [98] 0 example_holds env_ready) as H.
  assert (zadd 0 two [98] [(one, [97])] = (AddReply 1 ZADD_OUT_ADDED (Some two), Some two)) as E by (vm_compute; reflexivity).
  rewrite E in H. apply H; [|cbn; lia].
  split_and!; [apply byte_fine; unfold byte_ok; lia|intros s Hs; injection Hs as <-; apply two_storable|].
  exists 12. split; [reflexivity|cbn; lia].
Defined.

Lemma zsetDel_correct_witness : exists o',
  zsetDel no_strtod id_usable (fun _ => 7) example_set [97] = Some (true, o') /\ holds no_strtod 24 o' [] /\ zsetScore no_strtod o' [97] = Some None.
Proof.
  apply (zsetDel_correct no_strtod id_usable (fun _ => 7) 24 id_usable_ok example_set [(one, [97])] [97] example_holds).
  - apply byte_fine. unfold byte_ok. lia.
  - cbn. lia.
Defined.

Lemma zsetConvert_roundtrip_witness : exists o e' zl',
  zsetConvertAndExpand no_strtod no_dtoa id_usable (fun _ => 7) 24 env_example example_set SKIPLIST = Some (o, e') /\
  holds no_strtod 24 o [(one, [97])] /\ is_listpack o = false /\
  zsetConvertAndExpand no_strtod no_dtoa id_usable (fun _ => 7) 24 e' o LISTPACK = Some (OBJ_ENCODING_LISTPACK zl', e') /\
  holds no_strtod 24 (OBJ_ENCODING_LISTPACK zl') (map (stored_item no_strtod no_dtoa) [(one, [97])]) /\
  Forall2 (fun x y => deq y.1 x.1 = true /\ y.2 = x.2) [(one, [97])] (map (stored_item no_strtod no_dtoa) [(one, [97])]).
Proof.
  apply (zsetConvert_roundtrip no_strtod no_dtoa id_usable (fun _ => 7) 24 id_usable_ok env_example zzl_example [(one, [97])] example_holds).
  - apply (ready_le _ _ 2 3); [lia|apply env_ready].
  - constructor; [|constructor]. split; [apply byte_fine; unfold byte_ok; cbn; lia|apply one_storable].
  - cbn. lia.
Defined.

Lemma zsetRank_correct_witness : exists o',
  zsetRank no_strtod example_set [97] true = Some (0, Some one, o') /\ holds no_strtod 24 o' [(one, [97])].
Proof.
  apply (zsetRank_correct no_strtod 24 example_set [(one, [97])] [97] true example_holds).
  - split; [apply byte_fine; unfold byte_ok; lia|discriminate].
  - cbn. lia.
Defined.
End Zset.
