(* ===== verification/HllFormula.v ===== *)
(** * The cardinality from the histogram ([redis-stable/src/hyperloglog.c])

    The floating point part of [hllCount]: [hllSigma], [hllTau] and the formula
    over the histogram of the registers, in binary64 with every operation
    rounded to nearest; [pow(d, 2)] is [d * d].  [None] stands for a result C
    does not specify: [llroundl] of a number that is no [long long] (when all
    registers are 51 or more the quotient is infinite), the conversion of a
    number that is no [uint64_t], and a loop that has not settled after 64
    rounds (the loops settle within a few dozen, [loops_settle]). *)

From Stdlib Require Import SpecFloat.
From S2P Require Import Prelude.

Module HllFormula.

(** ** binary64 *)

Abbreviation double := spec_float.
Definition f_add : double -> double -> double := SFadd 53 1024.
Definition f_sub : double -> double -> double := SFsub 53 1024.
Definition f_mul : double -> double -> double := SFmul 53 1024.
Definition f_div : double -> double -> double := SFdiv 53 1024.
Definition f_sqrt : double -> double := SFsqrt 53 1024.
(** The conversion from an integer. *)
Definition f_int (z : Z) : double := binary_normalize 53 1024 z 0 false.
Definition half : double := f_div (f_int 1) (f_int 2).

(** [0.721347520444481703680] *)
Definition HLL_ALPHA_INF : double := S754_finite false 6497320848556798 (-53).

(** [llroundl]: halfway cases away from zero. *)
Definition llround (x : double) : option Z :=
  match x with
  | S754_zero _ => Some 0
  | S754_finite s m e =>
    let a := if 0 <=? e then Z.shiftl (Zpos m) e
             else Z.shiftr (Zpos m + Z.shiftl 1 (- e - 1)) (- e) in
    schk 64 (if s then - a else a)
  | _ => None
  end.

(** The cast to [uint64_t]. *)
Definition to_u64 (x : double) : option Z :=
  match x with
  | S754_zero _ => Some 0
  | S754_finite s m e =>
    let a := if 0 <=? e then Z.shiftl (Zpos m) e else Z.shiftr (Zpos m) (- e) in
    let v := if s then - a else a in
    if (0 <=? v) && (v <? 2 ^ 64) then Some v else None
  | _ => None
  end.

(** ** The formula *)

Definition HLL_Q : nat := 50.

(** [do ... while(zPrime != z)] *)
Fixpoint sigma_loop (fuel : nat) (x y z : double) : option double :=
  match fuel with
  | O => None
  | S fuel =>
    let x := f_mul x x in
    let zPrime := z in
    let z := f_add z (f_mul x y) in
    let y := f_add y y in
    if SFeqb zPrime z then Some z else sigma_loop fuel x y z
  end.

Definition hllSigma (x : double) : option double :=
  if SFeqb x (f_int 1) then Some (S754_infinity false) else sigma_loop 64 x (f_int 1) x.

Fixpoint tau_loop (fuel : nat) (x y z : double) : option double :=
  match fuel with
  | O => None
  | S fuel =>
    let x := f_sqrt x in
    let zPrime := z in
    let y := f_mul y half in
    let d := f_sub (f_int 1) x in
    let z := f_sub z (f_mul (f_mul d d) y) in
    if SFeqb zPrime z then Some z else tau_loop fuel x y z
  end.

Definition hllTau (x : double) : option double :=
  if SFeqb x (f_int 0) || SFeqb x (f_int 1) then Some (f_int 0)
  else z ← tau_loop 64 x (f_int 1) (f_sub (f_int 1) x); Some (f_div z (f_int 3)).

(** [for (j = HLL_Q; j >= 1; --j)] *)
Fixpoint harmonic_loop (j : nat) (reghisto : list Z) (z : double) : option double :=
  match j with
  | O => Some z
  | S j' =>
    n ← reghisto !! j;
    harmonic_loop j' reghisto (f_mul (f_add z (f_int n)) half)
  end.

(** [hllCount] after the histogram. *)
Definition hll_formula (reghisto : list Z) : option Z :=
  let m := f_int 16384 in
  top ← reghisto !! S HLL_Q;
  t ← hllTau (f_div (f_sub m (f_int top)) m);
  z ← harmonic_loop HLL_Q reghisto (f_mul m t);
  zeroes ← reghisto !! 0%nat;
  s ← hllSigma (f_div (f_int zeroes) m);
  let z := f_add z (f_mul m s) in
  e ← llround (f_div (f_mul (f_mul HLL_ALPHA_INF m) m) z);
  to_u64 (f_int e).

(** [unspecified] gives what the machine returns where C does not say. *)
Definition hll_estimate (unspecified : list Z -> Z) (reghisto : list Z) : Z :=
  match hll_formula reghisto with
  | Some e => e
  | None => uwrap 64 (unspecified reghisto)
  end.

(** ** Properties *)

(** The constant is the double next to the decimal in the source. *)
Example alpha_nearest :
  Z.abs (6497320848556798 * 10 ^ 21 - 721347520444481703680 * 2 ^ 53) * 2 <= 10 ^ 21.
Proof. by vm_compute. Qed.

Lemma to_u64_range x v : to_u64 x = Some v -> in_u 64 v.
Proof.
  unfold to_u64, in_u. destruct x as [s|s| |s m e]; intros H; simplify_eq/=; [lia|].
  destruct (0 <=? _) eqn:E1; [|done]. destruct (_ <? 2 ^ 64) eqn:E2; cbn [andb] in H; [|done].
  injection H as <-. lia.
Qed.

Lemma hll_estimate_range unspecified h : in_u 64 (hll_estimate unspecified h).
Proof.
  unfold hll_estimate. destruct (hll_formula h) as [v|] eqn:E; [|apply Z.mod_pos_bound; lia].
  unfold hll_formula in E. cbv zeta in E.
  apply bind_Some in E as (top & _ & E). apply bind_Some in E as (t & _ & E).
  apply bind_Some in E as (z & _ & E). apply bind_Some in E as (zeroes & _ & E).
  apply bind_Some in E as (sg & _ & E). apply bind_Some in E as (e & _ & E).
  by eapply to_u64_range.
Qed.

(** All registers zero. *)
Lemma hll_estimate_empty unspecified : hll_estimate unspecified (16384 :: replicate 63 0) = 0.
Proof.
  unfold hll_estimate. assert (hll_formula (16384 :: replicate 63 0) = Some 0) as -> by (vm_compute; reflexivity).
  done.
Qed.

(** One element: a register that is 1. *)
Example hll_formula_one : hll_formula (16383 :: 1 :: replicate 62 0) = Some 1.
Proof. vm_compute. reflexivity. Qed.

(** 8192 registers that are 3, the others zero. *)
Example hll_formula_half : hll_formula (8192 :: 0 :: 0 :: 8192 :: replicate 60 0) = Some 12398.
Proof. vm_compute. reflexivity. Qed.

(** Both loops settle well within the 64 rounds that the model gives them. *)
Definition settles (f : double -> option double) (n : Z) : bool :=
  match f (f_div (f_int n) (f_int 16384)) with Some _ => true | None => false end.
Example loops_settle :
  forallb (fun n => settles hllSigma n && settles hllTau n)
    [0; 1; 2; 5; 100; 1000; 4095; 8192; 12000; 15000; 16000; 16300; 16380; 16382; 16383; 16384] = true.
Proof. vm_compute. reflexivity. Qed.

(** All registers are 51, as large as a hash makes them: the quotient is infinite. *)
Example hll_formula_infinite : hll_formula (replicate 51 0 ++ 16384 :: replicate 12 0) = None.
Proof. vm_compute. reflexivity. Qed.
End HllFormula.
