(* ===== verification/Hll.v ===== *)
(** * HyperLogLog values ([redis-stable/src/hyperloglog.c])

    A value is a string with a header of 16 bytes and the registers, 16384
    counters of 6 bits: packed ([HLL_DENSE]) or as a sequence of opcodes, runs
    of zeroes and runs of a value ([HLL_SPARSE]).  The string is an sds with
    its capacity; reads and writes are at offsets of its buffer.

    The cardinality is computed from the histogram by [HllFormula].  This file has the definitions: hashing, both representations, the
    conversion, merging, histograms of the registers and creation. *)

From S2P Require Import Prelude Sds HllFormula.

Module Hll.
Import Sds.

Definition HLL_P : Z := 14.
Definition HLL_Q : Z := 64 - HLL_P.
Definition HLL_REGISTERS : Z := 16384.
Definition HLL_P_MASK : Z := HLL_REGISTERS - 1.
Definition HLL_BITS : Z := 6.
Definition HLL_REGISTER_MAX : Z := 63.
Definition HLL_HDR_SIZE : Z := 16.
Definition HLL_DENSE_SIZE : Z := HLL_HDR_SIZE + (HLL_REGISTERS * HLL_BITS + 7) / 8.
Definition HLL_DENSE : Z := 0.
Definition HLL_SPARSE : Z := 1.
Definition HLL_RAW : Z := 255.
Definition HLL_MAX_ENCODING : Z := 1.

(** Stores to a byte. *)
Definition wr (b : list Z) (i v : Z) : option (list Z) := wrn b i [uwrap 8 v].

(** Fields of the header. *)
Definition hdr_encoding (b : list Z) : option Z := rd b 4.
Definition HLL_INVALIDATE_CACHE (b : list Z) : option (list Z) := x ← rd b 15; wr b 15 (Z.lor x 128).
Definition HLL_VALID_CACHE (b : list Z) : option bool := x ← rd b 15; Some (Z.land x 128 =? 0).

(** ** The registers of the dense representation, from the offset [p] *)

Definition HLL_DENSE_GET_REGISTER (b : list Z) (p regnum : Z) : option Z :=
  let byte := regnum * HLL_BITS / 8 in
  let fb := Z.land (regnum * HLL_BITS) 7 in
  let fb8 := 8 - fb in
  b0 ← rd b (p + byte);
  b1 ← rd b (p + (byte + 1));
  Some (Z.land (Z.lor (Z.shiftr b0 fb) (Z.shiftl b1 fb8)) HLL_REGISTER_MAX).

Definition HLL_DENSE_SET_REGISTER (b : list Z) (p regnum val : Z) : option (list Z) :=
  let byte := regnum * HLL_BITS / 8 in
  let fb := Z.land (regnum * HLL_BITS) 7 in
  let fb8 := 8 - fb in
  x ← rd b (p + byte);
  b ← wr b (p + byte) (Z.land x (Z.lnot (Z.shiftl HLL_REGISTER_MAX fb)));
  x ← rd b (p + byte);
  b ← wr b (p + byte) (Z.lor x (Z.shiftl val fb));
  x ← rd b (p + (byte + 1));
  b ← wr b (p + (byte + 1)) (Z.land x (Z.lnot (Z.shiftr HLL_REGISTER_MAX fb8)));
  x ← rd b (p + (byte + 1));
  wr b (p + (byte + 1)) (Z.lor x (Z.shiftr val fb8)).

(** ** Opcodes of the sparse representation *)

Definition HLL_SPARSE_XZERO_BIT : Z := 0x40.
Definition HLL_SPARSE_VAL_BIT : Z := 0x80.
Definition HLL_SPARSE_IS_ZERO (x : Z) : bool := Z.land x 0xc0 =? 0.
Definition HLL_SPARSE_IS_XZERO (x : Z) : bool := Z.land x 0xc0 =? HLL_SPARSE_XZERO_BIT.
Definition HLL_SPARSE_IS_VAL (x : Z) : bool := negb (Z.land x HLL_SPARSE_VAL_BIT =? 0).
Definition HLL_SPARSE_ZERO_LEN (x : Z) : Z := Z.land x 0x3f + 1.
Definition HLL_SPARSE_XZERO_LEN (x y : Z) : Z := Z.lor (Z.shiftl (Z.land x 0x3f) 8) y + 1.
Definition HLL_SPARSE_VAL_VALUE (x : Z) : Z := Z.land (Z.shiftr x 2) 0x1f + 1.
Definition HLL_SPARSE_VAL_LEN (x : Z) : Z := Z.land x 0x3 + 1.
Definition HLL_SPARSE_VAL_MAX_VALUE : Z := 32.
Definition HLL_SPARSE_VAL_MAX_LEN : Z := 4.
Definition HLL_SPARSE_ZERO_MAX_LEN : Z := 64.
Definition HLL_SPARSE_XZERO_MAX_LEN : Z := 16384.

(** The bytes that the setters store. *)
Definition HLL_SPARSE_VAL_SET (val len : Z) : list Z :=
  [uwrap 8 (Z.lor (Z.lor (Z.shiftl (val - 1) 2) (len - 1)) HLL_SPARSE_VAL_BIT)].
Definition HLL_SPARSE_ZERO_SET (len : Z) : list Z := [uwrap 8 (len - 1)].
Definition HLL_SPARSE_XZERO_SET (len : Z) : list Z :=
  let l := len - 1 in
  [uwrap 8 (Z.lor (Z.shiftr l 8) HLL_SPARSE_XZERO_BIT); uwrap 8 (Z.land l 0xff)].

(** ** The hash of an element *)

Definition murmur_m : Z := 0xc6a4a7935bd1e995.
Definition mul64 (a b : Z) : Z := uwrap 64 (a * b).

(** [while(data != end)], [n] blocks of 8 bytes. *)
Fixpoint murmur_blocks (n : nat) (data : list Z) (h : Z) : list Z * Z :=
  match n with
  | O => (data, h)
  | S n =>
    let k := le_val (take 8 data) in
    let k := mul64 k murmur_m in
    let k := Z.lxor k (Z.shiftr k 47) in
    let k := mul64 k murmur_m in
    let h := Z.lxor h k in
    let h := mul64 h murmur_m in
    murmur_blocks n (drop 8 data) h
  end.

(** The fall-through cases of the switch. *)
Definition murmur_tail (len : Z) (data : list Z) (h : Z) : Z :=
  let byte (i : nat) := default 0 (data !! i) in
  let step (i : nat) (h : Z) :=
    if Z.of_nat i <? len then Z.lxor h (Z.shiftl (byte i) (8 * Z.of_nat i)) else h in
  let h := step 1%nat (step 2%nat (step 3%nat (step 4%nat (step 5%nat (step 6%nat h))))) in
  if 0 <? len then mul64 (Z.lxor h (byte 0%nat)) murmur_m else h.

Definition MurmurHash64A (key : list Z) (seed : Z) : Z :=
  let len := zlen key in
  let h := Z.lxor seed (mul64 len murmur_m) in
  let '(data, h) := murmur_blocks (Z.to_nat (len / 8)) key h in
  let h := murmur_tail (Z.land len 7) data h in
  let h := Z.lxor h (Z.shiftr h 47) in
  let h := mul64 h murmur_m in
  Z.lxor h (Z.shiftr h 47).

(** [__builtin_ctzll], on a number below [2^fuel]. *)
Fixpoint ctzll (fuel : nat) (x : Z) : Z :=
  match fuel with
  | O => 0
  | S fuel => if Z.odd x then 0 else 1 + ctzll fuel (Z.shiftr x 1)
  end.

(** The count and the index of the register. *)
Definition hllPatLen (ele : list Z) : Z * Z :=
  let hash := MurmurHash64A ele 0xadc83b19 in
  let index := Z.land hash HLL_P_MASK in
  let hash := Z.shiftr hash HLL_P in
  let hash := Z.lor hash (Z.shiftl 1 HLL_Q) in
  (ctzll 64 hash + 1, swrap 32 index).

(** ** The dense representation *)

(** The buffer and the return value. *)
Definition hllDenseSet (b : list Z) (p index count : Z) : option (list Z * Z) :=
  oldcount ← HLL_DENSE_GET_REGISTER b p index;
  if count >? oldcount then b ← HLL_DENSE_SET_REGISTER b p index count; Some (b, 1)
  else Some (b, 0).

Definition hllDenseAdd (b : list Z) (p : Z) (ele : list Z) : option (list Z * Z) :=
  let '(count, index) := hllPatLen ele in hllDenseSet b p index count.

(** ** Histograms *)

Definition bump (reghisto : list Z) (r n : Z) : option (list Z) :=
  x ← rd reghisto r; wrn reghisto r [x + n].

Fixpoint bump_all (rs : list Z) (reghisto : list Z) : option (list Z) :=
  match rs with
  | [] => Some reghisto
  | r :: rs => reghisto ← bump reghisto r 1; bump_all rs reghisto
  end.

(** The 16 registers of 12 bytes. *)
Definition registers16 (r : list Z) : option (list Z) :=
  match r with
  | [b0; b1; b2; b3; b4; b5; b6; b7; b8; b9; b10; b11] =>
    let low x := Z.land x 63 in
    let mid x y := Z.land (Z.lor (Z.shiftr x 6) (Z.shiftl y 2)) 63 in
    let hi x y := Z.land (Z.lor (Z.shiftr x 4) (Z.shiftl y 4)) 63 in
    let top x := Z.land (Z.shiftr x 2) 63 in
    Some [low b0; mid b0 b1; hi b1 b2; top b2; low b3; mid b3 b4; hi b4 b5; top b5;
          low b6; mid b6 b7; hi b7 b8; top b8; low b9; mid b9 b10; hi b10 b11; top b11]
  | _ => None
  end.

Fixpoint dense_histo_loop (n : nat) (b : list Z) (r : Z) (reghisto : list Z) : option (list Z) :=
  match n with
  | O => Some reghisto
  | S n =>
    w ← rdn b r 12;
    rs ← registers16 w;
    reghisto ← bump_all rs reghisto;
    dense_histo_loop n b (r + 12) reghisto
  end.

Definition hllDenseRegHisto (b : list Z) (p : Z) (reghisto : list Z) : option (list Z) :=
  dense_histo_loop 1024 b p reghisto.

(** ** The loop over the opcodes

    The three loops over a sparse value differ in what they do for a run of
    zeroes and for a run of a value.  The result has the flag [valid]. *)
Section Loop.
Context {A : Type} (onzero : Z -> A -> option A) (onval : Z -> Z -> Z -> A -> option A).

Fixpoint sparse_loop (fuel : nat) (b : list Z) (p end_ idx : Z) (a : A) : option (bool * Z * A) :=
  if p <? end_ then
    match fuel with
    | O => None
    | S fuel =>
      x ← rd b p;
      if HLL_SPARSE_IS_ZERO x then
        let runlen := HLL_SPARSE_ZERO_LEN x in
        if runlen + idx >? HLL_REGISTERS then Some (false, idx, a)
        else a ← onzero runlen a; sparse_loop fuel b (p + 1) end_ (idx + runlen) a
      else if HLL_SPARSE_IS_XZERO x then
        y ← rd b (p + 1);
        let runlen := HLL_SPARSE_XZERO_LEN x y in
        if runlen + idx >? HLL_REGISTERS then Some (false, idx, a)
        else a ← onzero runlen a; sparse_loop fuel b (p + 2) end_ (idx + runlen) a
      else
        let runlen := HLL_SPARSE_VAL_LEN x in
        let regval := HLL_SPARSE_VAL_VALUE x in
        if runlen + idx >? HLL_REGISTERS then Some (false, idx, a)
        else a ← onval runlen regval idx a; sparse_loop fuel b (p + 1) end_ (idx + runlen) a
    end
  else Some (true, idx, a).
End Loop.

(** [while(runlen--)] *)
Fixpoint run_loop {A} (f : Z -> A -> option A) (n : nat) (idx : Z) (a : A) : option A :=
  match n with
  | O => Some a
  | S n => a ← f idx a; run_loop f n (idx + 1) a
  end.

(** [sparselen] is an [int]. *)
Definition hllSparseRegHisto (b : list Z) (p sparselen : Z) (reghisto : list Z) : option (bool * list Z) :=
  '(valid, idx, h) ← sparse_loop (fun n h => bump h 0 n) (fun n v _ h => bump h v n)
                       (length b) b p (p + swrap 32 sparselen) 0 reghisto;
  Some (negb valid || negb (idx =? HLL_REGISTERS), h).

Fixpoint raw_histo_loop (n : nat) (b : list Z) (word : Z) (reghisto : list Z) : option (list Z) :=
  match n with
  | O => Some reghisto
  | S n =>
    w ← rdn b word 8;
    reghisto ← (if le_val w =? 0 then bump reghisto 0 8 else bump_all w reghisto);
    raw_histo_loop n b (word + 8) reghisto
  end.

Definition hllRawRegHisto (b : list Z) (reghisto : list Z) : option (list Z) :=
  raw_histo_loop (Z.to_nat (HLL_REGISTERS / 8)) b 0 reghisto.

(** The histogram in [hllCount], and whether the value is invalid. *)
Definition count_histo (b : list Z) (len : Z) : option (bool * list Z) :=
  let reghisto := replicate 64 0 in
  enc ← hdr_encoding b;
  if enc =? HLL_DENSE then h ← hllDenseRegHisto b HLL_HDR_SIZE reghisto; Some (false, h)
  else if enc =? HLL_SPARSE then hllSparseRegHisto b HLL_HDR_SIZE (len - HLL_HDR_SIZE) reghisto
  else if enc =? HLL_RAW then h ← hllRawRegHisto (drop 16 b) reghisto; Some (false, h)
  else None.

(** [hllCount]: the formula over the histogram is that of [HllFormula];
    [unspecified] is its result where C does not specify one. *)
Definition hllCount (unspecified : list Z -> Z) (b : list Z) (len : Z) : option (bool * Z) :=
  '(invalid, reghisto) ← count_histo b len; Some (invalid, HllFormula.hll_estimate unspecified reghisto).

(** ** Merging *)

Definition merge_register (i val : Z) (max : list Z) : option (list Z) :=
  m ← rd max i; if val >? m then wr max i val else Some max.

Definition hllMergeDense (max : list Z) (b : list Z) (p : Z) : option (list Z) :=
  run_loop (fun i max => val ← HLL_DENSE_GET_REGISTER b p i; m ← rd max i; wr max i (Z.max m val))
    (Z.to_nat HLL_REGISTERS) 0 max.

(** [None] inside for [C_ERR]; then [max] may be partly merged. *)
Definition hllMerge (max : list Z) (hll : sds) : option (option (list Z)) :=
  let b := sds_buf hll in
  enc ← hdr_encoding b;
  if enc =? HLL_DENSE then max ← hllMergeDense max b HLL_HDR_SIZE; Some (Some max)
  else
    '(valid, i, max) ← sparse_loop (fun _ max => Some max)
        (fun n v i max => run_loop (fun i max => merge_register i v max) (Z.to_nat n) i max)
        (length b) b HLL_HDR_SIZE (sdslen hll) 0 max;
    Some (if negb valid || negb (i =? HLL_REGISTERS) then None else Some max).

Definition hllDenseCompress (b : list Z) (p : Z) (reg_raw : list Z) : option (list Z) :=
  run_loop (fun i b => v ← rd reg_raw i; HLL_DENSE_SET_REGISTER b p i v) (Z.to_nat HLL_REGISTERS) 0 b.

Section Alloc.
Context (usable : Z -> Z) (junk : nat -> Z) (je_nallocx : option (Z -> Z)).
Context (hll_sparse_max_bytes : Z).

(** ** From the sparse to the dense representation *)

(** [None] inside for [C_ERR]. *)
Definition hllSparseToDense (o : sds) : option (option sds) :=
  let b := sds_buf o in
  enc ← hdr_encoding b;
  if enc =? HLL_DENSE then Some (Some o)
  else
    dense ← sdsnewlen usable junk InitNull HLL_DENSE_SIZE;
    oldhdr ← rdn b 0 HLL_HDR_SIZE;
    d ← wrn (sds_buf dense) 0 oldhdr;
    d ← wr d 4 HLL_DENSE;
    '(valid, idx, d) ← sparse_loop (fun _ d => Some d)
        (fun n v i d => run_loop (fun i d => HLL_DENSE_SET_REGISTER d HLL_HDR_SIZE i v) (Z.to_nat n) i d)
        (length b) b HLL_HDR_SIZE (sdslen o) 0 d;
    Some (if negb valid || negb (idx =? HLL_REGISTERS) then None else Some (set_buf dense d)).

(** ** Setting a register of the sparse representation *)

(** Step 1: the opcode, its first register, the opcode before, its span. *)
Fixpoint find_opcode (fuel : nat) (b : list Z) (index end_ p first : Z) (prev : option Z) (span : Z)
    : option (Z * Z * option Z * Z) :=
  if p <? end_ then
    match fuel with
    | O => None
    | S fuel =>
      x ← rd b p;
      '(span, oplen) ← (if HLL_SPARSE_IS_ZERO x then Some (HLL_SPARSE_ZERO_LEN x, 1)
                        else if HLL_SPARSE_IS_VAL x then Some (HLL_SPARSE_VAL_LEN x, 1)
                        else y ← rd b (p + 1); Some (HLL_SPARSE_XZERO_LEN x y, 2));
      if index <=? first + span - 1 then Some (p, first, prev, span)
      else find_opcode fuel b index end_ (p + oplen) (first + span) (Some p) span
    end
  else Some (p, first, prev, span).

(** Step 4: up to [scanlen] opcodes from [p], with the new end. *)
Fixpoint merge_values (scanlen : nat) (o : sds) (p end_ : Z) : option sds :=
  match scanlen with
  | O => Some o
  | S scanlen =>
    if p <? end_ then
      x ← rd (sds_buf o) p;
      if HLL_SPARSE_IS_XZERO x then merge_values scanlen o (p + 2) end_
      else if HLL_SPARSE_IS_ZERO x then merge_values scanlen o (p + 1) end_
      else if p + 1 <? end_ then
        y ← rd (sds_buf o) (p + 1);
        let len := HLL_SPARSE_VAL_LEN x + HLL_SPARSE_VAL_LEN y in
        if HLL_SPARSE_IS_VAL y && (HLL_SPARSE_VAL_VALUE x =? HLL_SPARSE_VAL_VALUE y) && (len <=? HLL_SPARSE_VAL_MAX_LEN) then
          b ← wrn (sds_buf o) (p + 1) (HLL_SPARSE_VAL_SET (HLL_SPARSE_VAL_VALUE x) len);
          b ← memmove b p (p + 1) (end_ - p);
          o ← sdsIncrLen (set_buf o b) (-1);
          merge_values scanlen o p (end_ - 1)
        else merge_values scanlen o (p + 1) end_
      else merge_values scanlen o (p + 1) end_
    else Some o
  end.

(** The label [updated]. *)
Definition sparse_updated (o : sds) (prev : option Z) (end_ : Z) : option (sds * Z) :=
  o ← merge_values 5 o (default HLL_HDR_SIZE prev) end_;
  b ← HLL_INVALIDATE_CACHE (sds_buf o);
  Some (set_buf o b, 1).

(** The label [promote]. *)
Definition sparse_promote (o : sds) (index count : Z) : option (sds * Z) :=
  r ← hllSparseToDense o;
  match r with
  | None => Some (o, -1)
  | Some o =>
    '(b, dense_retval) ← hllDenseSet (sds_buf o) HLL_HDR_SIZE index count;
    if dense_retval =? 1 then Some (set_buf o b, dense_retval) else None
  end.

Definition zeroes (len : Z) : list Z :=
  if len >? HLL_SPARSE_ZERO_MAX_LEN then HLL_SPARSE_XZERO_SET len else HLL_SPARSE_ZERO_SET len.

(** The sequence that replaces an opcode. *)
Definition split_zero (index first last count : Z) : list Z :=
  (if index =? first then [] else zeroes (index - first)) ++ HLL_SPARSE_VAL_SET count 1 ++
  (if index =? last then [] else zeroes (last - index)).

Definition split_val (index first last count curval : Z) : list Z :=
  (if index =? first then [] else HLL_SPARSE_VAL_SET curval (index - first)) ++ HLL_SPARSE_VAL_SET count 1 ++
  (if index =? last then [] else HLL_SPARSE_VAL_SET curval (last - index)).

(** Step 3: the new sequence takes the place of the opcode at [p]. *)
Definition substitute (o : sds) (index count p end_ : Z) (prev next : option Z) (oldlen : Z) (seq : list Z)
    : option (sds * Z) :=
  let deltalen := zlen seq - oldlen in
  if (deltalen >? 0) && (sdslen o + deltalen >? hll_sparse_max_bytes) then sparse_promote o index count
  else if negb (sdslen o + deltalen <=? sdsalloc o) then None
  else
    b ← (match next with
         | Some next => if deltalen =? 0 then Some (sds_buf o) else memmove (sds_buf o) (next + deltalen) next (end_ - next)
         | None => Some (sds_buf o)
         end);
    o ← sdsIncrLen (set_buf o b) deltalen;
    b ← wrn (sds_buf o) p seq;
    sparse_updated (set_buf o b) prev (end_ + deltalen).

(** Room for three more bytes, within the limit. *)
Definition sparse_grow (o : sds) : option sds :=
  if (sdsalloc o <? hll_sparse_max_bytes) && (sdsavail o <? 3) then
    let newlen := sdslen o + 3 in
    let newlen := newlen + Z.min newlen 300 in
    let newlen := if newlen >? hll_sparse_max_bytes then hll_sparse_max_bytes else newlen in
    sdsResize usable junk je_nallocx o newlen true
  else Some o.

(** The value and the return value. *)
Definition hllSparseSet (o : sds) (index count : Z) : option (sds * Z) :=
  if count >? HLL_SPARSE_VAL_MAX_VALUE then sparse_promote o index count
  else
    o ← sparse_grow o;
    let b := sds_buf o in
    let end_ := sdslen o in
    '(p, first, prev, span) ← find_opcode (length b) b index end_ HLL_HDR_SIZE 0 None 0;
    if (span =? 0) || (p >=? end_) then Some (o, -1)
    else
      x ← rd b p;
      let is_xzero := HLL_SPARSE_IS_XZERO x in
      let next := if is_xzero then p + 2 else p + 1 in
      let next := if next >=? end_ then None else Some next in
      let is_zero := HLL_SPARSE_IS_ZERO x in
      let last := first + span - 1 in
      if is_zero then
        if HLL_SPARSE_ZERO_LEN x =? 1 then
          b ← wrn b p (HLL_SPARSE_VAL_SET count 1); sparse_updated (set_buf o b) prev end_
        else substitute o index count p end_ prev next 1 (split_zero index first last count)
      else if is_xzero then
        substitute o index count p end_ prev next 2 (split_zero index first last count)
      else
        let oldcount := HLL_SPARSE_VAL_VALUE x in
        if oldcount >=? count then Some (o, 0)
        else if HLL_SPARSE_VAL_LEN x =? 1 then
          b ← wrn b p (HLL_SPARSE_VAL_SET count 1); sparse_updated (set_buf o b) prev end_
        else substitute o index count p end_ prev next 1 (split_val index first last count oldcount).

Definition hllSparseAdd (o : sds) (ele : list Z) : option (sds * Z) :=
  let '(count, index) := hllPatLen ele in hllSparseSet o index count.

Definition hllAdd (o : sds) (ele : list Z) : option (sds * Z) :=
  enc ← hdr_encoding (sds_buf o);
  if enc =? HLL_DENSE then '(b, r) ← hllDenseAdd (sds_buf o) HLL_HDR_SIZE ele; Some (set_buf o b, r)
  else if enc =? HLL_SPARSE then hllSparseAdd o ele
  else Some (o, -1).

(** ** Creation *)

Fixpoint create_loop (fuel : nat) (b : list Z) (p aux : Z) : option (list Z * Z) :=
  if aux =? 0 then Some (b, p)
  else
    match fuel with
    | O => None
    | S fuel =>
      let xzero := if HLL_SPARSE_XZERO_MAX_LEN >? aux then aux else HLL_SPARSE_XZERO_MAX_LEN in
      b ← wrn b p (HLL_SPARSE_XZERO_SET xzero);
      create_loop fuel b (p + 2) (aux - xzero)
    end.

(** The opcodes and the header. *)
Definition create_fill (s : sds) (sparselen : Z) : option sds :=
  '(b, p) ← create_loop (Z.to_nat HLL_REGISTERS) (sds_buf s) HLL_HDR_SIZE HLL_REGISTERS;
  if negb (p =? sparselen) then None
  else
    b ← wrn b 0 (str "HYLL");
    b ← wr b 4 HLL_SPARSE;
    Some (set_buf s b).

Definition createHLLObject : option sds :=
  let sparselen := HLL_HDR_SIZE + (HLL_REGISTERS + (HLL_SPARSE_XZERO_MAX_LEN - 1)) / HLL_SPARSE_XZERO_MAX_LEN * 2 in
  s ← sdsnewlen usable junk InitNull sparselen;
  create_fill s sparselen.
End Alloc.

(** The checks of [isHLLObjectOrReply] on a string. *)
Definition isHLLString (o : sds) : option bool :=
  let b := sds_buf o in
  if sdslen o <? HLL_HDR_SIZE then Some false
  else
    magic ← rdn b 0 4;
    enc ← hdr_encoding b;
    Some (bool_decide (magic = str "HYLL") && negb (enc >? HLL_MAX_ENCODING) &&
          negb ((enc =? HLL_DENSE) && negb (sdslen o =? HLL_DENSE_SIZE))).
End Hll.
