(* ===== verification/HllDense.v ===== *)
(** * The dense representation of HyperLogLog values

    The registers are the 6 bit digits of the little-endian number that the
    bytes write; reading, setting, merging, compressing and counting them. *)

From S2P Require Import Prelude Sds Hll.

Module HllDense.
Import Sds Hll.

(** ** Bits of bytes *)

Lemma bits_byte x y : byte_ok x -> byte_ok y -> (forall k, 0 <= k < 8 -> Z.testbit x k = Z.testbit y k) -> x = y.
Proof.
  intros Hx Hy H. apply Z.bits_inj'. intros k Hk. destruct (Z.lt_ge_cases k 8); [auto|]. by rewrite !byte_bit_high.
Qed.

Lemma max_bit k : 0 <= k -> Z.testbit 63 k = (k <? 6).
Proof. intros Hk. change 63 with (Z.ones 6). destruct (Z.ltb_spec k 6); [by apply Z.ones_spec_low|apply Z.ones_spec_high; lia]. Qed.

Lemma small_bit v k : 0 <= v < 64 -> 6 <= k -> Z.testbit v k = false.
Proof.
  intros Hv Hk. rewrite <- (Z.mod_small v (2 ^ 6)) by lia. apply Z.mod_pow2_bits_high. lia.
Qed.

(** ** One register *)

Definition reg (l : list Z) (i : Z) : Z := Z.land (Z.shiftr (le_val l) (6 * i)) 63.

Lemma reg_bit l i t : 0 <= i -> 0 <= t -> Z.testbit (reg l i) t = (t <? 6) && Z.testbit (le_val l) (6 * i + t).
Proof.
  intros Hi Ht. unfold reg. rewrite Z.land_spec, Z.shiftr_spec, max_bit, andb_comm by lia. do 2 f_equal. lia.
Qed.

Lemma reg_range l i : 0 <= reg l i < 64.
Proof. unfold reg. rewrite (land_ones_mod _ 6) by done. apply Z.mod_pos_bound. done. Qed.

Lemma rd_area pre l post j : 0 <= j < zlen l -> rd (pre ++ l ++ post) (zlen pre + j) = l !! Z.to_nat j.
Proof.
  intros Hj. destruct (lookup_lt_is_Some_2 l (Z.to_nat j)) as [x Hx]; [lia|]. rewrite Hx. apply rd_shift. by rewrite rd_lookup by lia.
Qed.

Lemma wr_area pre l post j v : 0 <= j < zlen l ->
  wr (pre ++ l ++ post) (zlen pre + j) v = Some (pre ++ <[Z.to_nat j := uwrap 8 v]> l ++ post).
Proof.
  intros Hj. unfold wr. rewrite list_insert_split by lia. rewrite <- (take_drop (Z.to_nat j) l) at 1.
  destruct (drop (Z.to_nat j) l) as [|x d] eqn:E; [apply (f_equal length) in E; rewrite length_drop in E; cbn in E; lia|].
  assert (drop (S (Z.to_nat j)) l = d) as ->.
  { rewrite <- Nat.add_1_r, <- drop_drop, E. done. }
  rewrite <- !(app_assoc (take _ _)), !(app_assoc pre).
  apply (wrn_app (pre ++ take (Z.to_nat j) l) [x] (d ++ post) [uwrap 8 v]); [|done]. rewrite length_app, length_take. lia.
Qed.

(** The byte of a register and its first bit. *)
Lemma position i : 0 <= i ->
  let byte := i * HLL_BITS / 8 in let fb := Z.land (i * HLL_BITS) 7 in
  0 <= byte /\ 0 <= fb <= 6 /\ 8 * byte + fb = 6 * i.
Proof.
  intros Hi byte fb. unfold byte, fb, HLL_BITS. rewrite (land_ones_mod _ 3) by done. change (2 ^ 3) with 8. dlia.
Qed.

Lemma le_val_byte l j x t : bytes_ok l -> l !! Z.to_nat j = Some x -> 0 <= j -> 0 <= t < 8 ->
  Z.testbit (le_val l) (8 * j + t) = Z.testbit x t.
Proof.
  intros Hl Hx Hj Ht. rewrite le_val_bit by (done || lia). replace ((8 * j + t) / 8) with j by dlia.
  replace ((8 * j + t) mod 8) with t by dlia. by rewrite Hx.
Qed.

Lemma get_register pre l post i :
  bytes_ok l -> 0 <= i -> 6 * i / 8 + 1 < zlen l ->
  HLL_DENSE_GET_REGISTER (pre ++ l ++ post) (zlen pre) i = Some (reg l i).
Proof.
  intros Hl Hi Hlen. unfold HLL_DENSE_GET_REGISTER. destruct (position i Hi) as (Hb & Hfb & Hpos).
  set (byte := i * HLL_BITS / 8) in *. set (fb := Z.land _ _) in *. assert (byte + 1 < zlen l) as Hin by (unfold byte, HLL_BITS; rewrite (Z.mul_comm i); lia).
  rewrite !rd_area by lia.
  destruct (lookup_lt_is_Some_2 l (Z.to_nat byte)) as [x Hx]; [lia|]. destruct (lookup_lt_is_Some_2 l (Z.to_nat (byte + 1))) as [y Hy]; [lia|].
  rewrite Hx, Hy. mred. f_equal. apply Z.bits_inj'. intros t Ht. rewrite reg_bit, Z.land_spec, max_bit, andb_comm by done.
  destruct (Z.ltb_spec t 6); [cbn [andb]|done]. rewrite Z.lor_spec, Z.shiftr_spec, Z.shiftl_spec by lia.
  rewrite Forall_lookup in Hl. destruct (Z.lt_ge_cases (t + fb) 8).
  - rewrite (Z.testbit_neg_r y) by lia. rewrite orb_false_r. replace (6 * i + t) with (8 * byte + (t + fb)) by lia.
    by rewrite (le_val_byte l byte x) by (done || lia || by apply Forall_lookup).
  - rewrite (byte_bit_high x) by (lia || by eapply Hl). rewrite orb_false_l. replace (6 * i + t) with (8 * (byte + 1) + (t - (8 - fb))) by lia.
    by rewrite (le_val_byte l (byte + 1) y) by (done || lia || by apply Forall_lookup).
Qed.

(** The bits of [l'] are those of [l] but for the field of register [i]. *)
Definition field_set (l l' : list Z) (i v : Z) : Prop :=
  length l' = length l /\ bytes_ok l' /\
  forall k, 0 <= k -> Z.testbit (le_val l') k =
    if (6 * i <=? k) && (k <? 6 * i + 6) then Z.testbit v (k - 6 * i) else Z.testbit (le_val l) k.

Lemma clear_set_bit x v fb t : 0 <= fb -> 0 <= t < 8 -> 0 <= v < 64 ->
  Z.testbit (uwrap 8 (Z.lor (uwrap 8 (Z.land x (Z.lnot (Z.shiftl HLL_REGISTER_MAX fb)))) (Z.shiftl v fb))) t
  = if (fb <=? t) && (t <? fb + 6) then Z.testbit v (t - fb) else Z.testbit x t.
Proof.
  intros Hfb Ht Hv. rewrite uwrap_testbit, Z.lor_spec, uwrap_testbit, Z.land_spec, Z.lnot_spec, !Z.shiftl_spec by lia.
  rewrite (proj2 (Z.ltb_lt t 8)) by lia. cbn [andb]. destruct (Z.leb_spec fb t); cbn [andb].
  - unfold HLL_REGISTER_MAX. rewrite max_bit by lia. destruct (Z.ltb_spec t (fb + 6)), (Z.ltb_spec (t - fb) 6); try lia; cbn [negb].
    + by rewrite andb_false_r.
    + rewrite (small_bit v) by lia. by rewrite andb_true_r, orb_false_r.
  - rewrite !(Z.testbit_neg_r _ (t - fb)) by lia. by rewrite andb_true_r, orb_false_r.
Qed.

Lemma clear_set_high y v d t : 0 <= d -> 0 <= t < 8 -> 0 <= v < 64 ->
  Z.testbit (uwrap 8 (Z.lor (uwrap 8 (Z.land y (Z.lnot (Z.shiftr HLL_REGISTER_MAX d)))) (Z.shiftr v d))) t
  = if t + d <? 6 then Z.testbit v (t + d) else Z.testbit y t.
Proof.
  intros Hd Ht Hv. rewrite uwrap_testbit, Z.lor_spec, uwrap_testbit, Z.land_spec, Z.lnot_spec, !Z.shiftr_spec by lia.
  rewrite (proj2 (Z.ltb_lt t 8)) by lia. cbn [andb]. unfold HLL_REGISTER_MAX. rewrite max_bit by lia.
  destruct (Z.ltb_spec (t + d) 6); cbn [negb]; [by rewrite andb_false_r|].
  rewrite (small_bit v) by lia. by rewrite andb_true_r, orb_false_r.
Qed.

Lemma set_register pre l post i v :
  bytes_ok l -> 0 <= i -> 6 * i / 8 + 1 < zlen l -> 0 <= v < 64 ->
  exists l', HLL_DENSE_SET_REGISTER (pre ++ l ++ post) (zlen pre) i v = Some (pre ++ l' ++ post) /\ field_set l l' i v.
Proof.
  intros Hl Hi Hlen Hv. unfold HLL_DENSE_SET_REGISTER. destruct (position i Hi) as (Hb & Hfb & Hpos).
  set (byte := i * HLL_BITS / 8) in *. set (fb := Z.land _ _) in *. assert (byte + 1 < zlen l) as Hin by (unfold byte, HLL_BITS; rewrite (Z.mul_comm i); lia).
  destruct (lookup_lt_is_Some_2 l (Z.to_nat byte)) as [x Hx]; [lia|]. destruct (lookup_lt_is_Some_2 l (Z.to_nat (byte + 1))) as [y Hy]; [lia|].
  rewrite rd_area, Hx by lia. mred. rewrite wr_area by lia. mred. rewrite rd_area, list_lookup_insert_eq by (rewrite ?length_insert; lia). mred.
  rewrite wr_area, list_insert_insert_eq by (rewrite ?length_insert; lia). mred.
  set (x' := uwrap 8 (Z.lor _ _)). rewrite rd_area, list_lookup_insert_ne, Hy by (rewrite ?length_insert; lia). mred.
  rewrite wr_area by (rewrite ?length_insert; lia). mred. rewrite rd_area, list_lookup_insert_eq by (rewrite ?length_insert; lia). mred.
  rewrite wr_area, list_insert_insert_eq by (rewrite ?length_insert; lia). set (y' := uwrap 8 (Z.lor _ (Z.shiftr v _))).
  eexists. split; [done|]. assert (bytes_ok (<[Z.to_nat (byte + 1) := y']> (<[Z.to_nat byte := x']> l))) as Hok.
  { apply Forall_insert; [apply Forall_insert; [done|]|]; apply (uwrap_range 8); lia. }
  split_and!; [by rewrite !length_insert|done|]. intros k Hk. rewrite !le_val_bit by done.
  set (j := k / 8). set (t := k mod 8). assert (k = 8 * j + t /\ 0 <= j /\ 0 <= t < 8) as (Hkj & Hj & Ht) by (unfold j, t; dlia).
  destruct (decide (j = byte + 1)) as [->|Hj1]; [|destruct (decide (j = byte)) as [->|Hj0]].
  - rewrite list_lookup_insert_eq by (rewrite length_insert; lia). cbn [default from_option id]. unfold y'. rewrite clear_set_high, Hy by lia. cbn [default from_option id].
    replace (k - 6 * i) with (t + (8 - fb)) by lia. destruct (Z.ltb_spec (t + (8 - fb)) 6), (Z.leb_spec (6 * i) k), (Z.ltb_spec k (6 * i + 6)); try lia; done.
  - rewrite list_lookup_insert_ne, list_lookup_insert_eq by lia. cbn [default from_option id]. unfold x'. rewrite clear_set_bit, Hx by lia. cbn [default from_option id].
    replace (k - 6 * i) with (t - fb) by lia.
    destruct (Z.leb_spec fb t), (Z.ltb_spec t (fb + 6)), (Z.leb_spec (6 * i) k), (Z.ltb_spec k (6 * i + 6)); try lia; done.
  - rewrite !list_lookup_insert_ne by lia. destruct (Z.leb_spec (6 * i) k), (Z.ltb_spec k (6 * i + 6)); try lia; done.
Qed.

Lemma field_reg l l' i v j : field_set l l' i v -> 0 <= i -> 0 <= j -> 0 <= v < 64 -> reg l' j = if j =? i then v else reg l j.
Proof.
  intros (_ & _ & Hb) Hi Hj Hv. apply Z.bits_inj'. intros t Ht. rewrite reg_bit by done. rewrite Hb by lia.
  destruct (Z.ltb_spec t 6); cbn [andb].
  - destruct (Z.eqb_spec j i) as [->|Hne].
    + rewrite (proj2 (Z.leb_le _ _)), (proj2 (Z.ltb_lt _ _)) by lia. cbn [andb]. f_equal. lia.
    + rewrite reg_bit by done. rewrite (proj2 (Z.ltb_lt t 6)) by done. cbn [andb].
      destruct (Z.leb_spec (6 * i) (6 * j + t)), (Z.ltb_spec (6 * j + t) (6 * i + 6)); try lia; done.
  - destruct (j =? i); symmetry; [by apply small_bit|]. rewrite reg_bit by done. by rewrite (proj2 (Z.ltb_ge t 6)) by done.
Qed.

(** A byte that the field does not reach. *)
Lemma field_byte l l' i v j : bytes_ok l -> field_set l l' i v -> 0 <= i -> 0 <= j < zlen l -> 6 * i + 6 <= 8 * j ->
  l' !! Z.to_nat j = l !! Z.to_nat j.
Proof.
  intros Hl (Hlen & Hl' & Hb) Hi Hj Hout. destruct (lookup_lt_is_Some_2 l (Z.to_nat j)) as [x Hx]; [lia|].
  destruct (lookup_lt_is_Some_2 l' (Z.to_nat j)) as [y Hy]; [lia|]. rewrite Hx, Hy. f_equal. rewrite Forall_lookup in Hl, Hl'.
  apply bits_byte; [by eapply Hl'|by eapply Hl|]. intros k Hk.
  rewrite <- (le_val_byte l j x k), <- (le_val_byte l' j y k), Hb by (done || lia || by apply Forall_lookup).
  rewrite (proj2 (Z.ltb_ge _ _)) by lia. by rewrite andb_false_r.
Qed.

(** ** All registers

    The bytes of the registers and the terminator after them. *)

Definition NREGS : nat := Z.to_nat HLL_REGISTERS.
Lemma NREGS_eq : Z.of_nat NREGS = HLL_REGISTERS.
Proof. unfold NREGS. apply Z2Nat.id. unfold HLL_REGISTERS. lia. Qed.
#[global] Opaque NREGS.
Ltac nlia := pose proof NREGS_eq; unfold HLL_REGISTERS in *; lia.

Definition regs_of (l : list Z) : list Z := map (fun i => reg l (Z.of_nat i)) (seq 0 NREGS).

Record area (l : list Z) : Prop := {
  a_bytes : bytes_ok l;
  a_length : zlen l = 12289;
  a_term : l !! Z.to_nat 12288 = Some 0;
}.

Lemma regs_length l : length (regs_of l) = NREGS.
Proof. unfold regs_of. by rewrite length_map, length_seq. Qed.

Lemma regs_lookup l i : (i < NREGS)%nat -> regs_of l !! i = Some (reg l (Z.of_nat i)).
Proof. intros Hi. unfold regs_of. rewrite list_lookup_fmap, lookup_seq_lt by exact Hi. reflexivity. Qed.

Lemma regs_range l : Forall (fun r => 0 <= r < 64) (regs_of l).
Proof. unfold regs_of. apply Forall_map, Forall_forall. intros i _. apply reg_range. Qed.

Lemma regs_unfold l : regs_of l = map (fun i => reg l (Z.of_nat i)) (seq 0 NREGS).
Proof. reflexivity. Qed.
#[global] Opaque regs_of.

Lemma in_area l i : area l -> 0 <= i < HLL_REGISTERS -> 6 * i / 8 + 1 < zlen l.
Proof. intros Hl Hi. rewrite (a_length l Hl). unfold HLL_REGISTERS in Hi. dlia. Qed.

Lemma set_area pre l post i v : area l -> 0 <= i < HLL_REGISTERS -> 0 <= v < 64 ->
  exists l', HLL_DENSE_SET_REGISTER (pre ++ l ++ post) (zlen pre) i v = Some (pre ++ l' ++ post) /\ area l' /\
    regs_of l' = <[Z.to_nat i := v]> (regs_of l).
Proof.
  intros Hl Hi Hv. destruct (set_register pre l post i v) as (l' & -> & Hf); [apply Hl|lia|by apply in_area|done|].
  exists l'. pose proof Hl as [Hb Hn Ht]. split_and!; [done| |].
  - pose proof Hf as (Hlen & Hb' & _). constructor; [done|lia|].
    rewrite (field_byte l l' i v 12288); (done || unfold HLL_REGISTERS in Hi; lia).
  - apply list_eq. intros j. destruct (Nat.lt_ge_cases j NREGS) as [Hj|Hj].
    2: { rewrite !lookup_ge_None_2; rewrite ?length_insert, ?regs_length; done. }
    rewrite regs_lookup by done. rewrite (field_reg l l' i v) by (done || lia).
    destruct (Z.eqb_spec (Z.of_nat j) i) as [<-|Hne].
    + rewrite Nat2Z.id, list_lookup_insert_eq by (rewrite regs_length; lia). done.
    + rewrite list_lookup_insert_ne by lia. by rewrite regs_lookup.
Qed.

Lemma get_area pre l post i : area l -> 0 <= i < HLL_REGISTERS ->
  HLL_DENSE_GET_REGISTER (pre ++ l ++ post) (zlen pre) i = Some (reg l i).
Proof. intros Hl Hi. apply get_register; [apply Hl|lia|by apply in_area]. Qed.

Lemma dense_set_spec pre l post i count old : area l -> 0 <= i < HLL_REGISTERS -> 0 <= count < 64 -> regs_of l !! Z.to_nat i = Some old ->
  exists l', hllDenseSet (pre ++ l ++ post) (zlen pre) i count = Some (pre ++ l' ++ post, Z.b2z (old <? count)) /\ area l' /\
    regs_of l' = <[Z.to_nat i := Z.max old count]> (regs_of l).
Proof.
  intros Hl Hi Hc Hold. unfold hllDenseSet. rewrite get_area by done. mred.
  assert (reg l i = old) as ->. { rewrite regs_lookup in Hold by nlia. rewrite Z2Nat.id in Hold by lia. congruence. }
  rewrite Z.gtb_ltb. destruct (Z.ltb_spec old count).
  - destruct (set_area pre l post i count Hl Hi Hc) as (l' & -> & Hl' & Hr). mred. exists l'. rewrite Z.max_r by lia. done.
  - exists l. split_and!; try done. rewrite Z.max_l by lia. by rewrite list_insert_id.
Qed.

(** ** Loops over the registers *)

Lemma run_loop_spec {A} (f : Z -> A -> option A) (R : A -> list Z -> Prop) (g : nat -> Z -> Z) :
  (forall a Lp x Lq, R a (Lp ++ x :: Lq) -> exists a', f (zlen Lp) a = Some a' /\ R a' (Lp ++ g (length Lp) x :: Lq)) ->
  forall Lm Lp Lq a, R a (Lp ++ Lm ++ Lq) ->
  exists a', run_loop f (length Lm) (zlen Lp) a = Some a' /\ R a' (Lp ++ imap (fun i => g (length Lp + i)%nat) Lm ++ Lq).
Proof.
  intros Hstep. induction Lm as [|x Lm IH]; intros Lp Lq a Ha; cbn [length run_loop].
  { by exists a. }
  cbn [app] in Ha. destruct (Hstep a Lp x (Lm ++ Lq) Ha) as (a1 & -> & Ha1). mred.
  replace (zlen Lp + 1) with (zlen (Lp ++ [g (length Lp) x])) by (rewrite length_app; cbn [length]; lia).
  destruct (IH (Lp ++ [g (length Lp) x]) Lq a1) as (a2 & -> & Ha2); [by rewrite <- app_assoc|].
  exists a2. split; [done|]. rewrite <- app_assoc in Ha2. cbn [app] in Ha2. rewrite imap_cons. cbn [app].
  erewrite imap_ext; [rewrite Nat.add_0_r; exact Ha2|]. intros i y _. cbn. f_equal. rewrite length_app. cbn [length]. lia.
Qed.

Lemma imap_const {A B} (f : A -> B) (l : list A) : imap (fun _ => f) l = map f l.
Proof. induction l as [|x l IH]; [done|]. rewrite imap_cons. cbn [map]. f_equal. exact IH. Qed.

Lemma run_all {A} (f : Z -> A -> option A) (R : A -> list Z -> Prop) (g : nat -> Z -> Z) L a :
  (forall a Lp x Lq, R a (Lp ++ x :: Lq) -> exists a', f (zlen Lp) a = Some a' /\ R a' (Lp ++ g (length Lp) x :: Lq)) ->
  R a L -> length L = NREGS -> exists a', run_loop f NREGS 0 a = Some a' /\ R a' (imap g L).
Proof.
  intros Hstep Ha HL. destruct (run_loop_spec f R g Hstep L [] [] a) as (a' & E & Ha'); [by rewrite app_nil_r|].
  rewrite HL in E. exists a'. split; [exact E|]. rewrite app_nil_r in Ha'. exact Ha'.
Qed.

(** What stands at a position of a buffer. *)
Definition at_area (pre post : list Z) (b : list Z) (L : list Z) : Prop :=
  exists l, b = pre ++ l ++ post /\ area l /\ regs_of l = L.

Lemma insert_middle (Lp Lq : list Z) x v : <[length Lp := v]> (Lp ++ x :: Lq) = Lp ++ v :: Lq.
Proof. by rewrite insert_app_r_alt, Nat.sub_diag by lia. Qed.

Lemma at_area_set pre post b Lp x Lq v : at_area pre post b (Lp ++ x :: Lq) -> 0 <= v < 64 ->
  exists b', HLL_DENSE_SET_REGISTER b (zlen pre) (zlen Lp) v = Some b' /\ at_area pre post b' (Lp ++ v :: Lq).
Proof.
  intros (l & -> & Hl & HL) Hv. assert (zlen Lp < HLL_REGISTERS) as Hlt.
  { pose proof (regs_length l) as H. rewrite HL, length_app in H. cbn [length] in H. nlia. }
  destruct (set_area pre l post (zlen Lp) v Hl) as (l' & -> & Hl' & Hr); [lia|done|].
  eexists. split; [done|]. exists l'. split_and!; try done. by rewrite Hr, Nat2Z.id, HL, insert_middle.
Qed.

Lemma nregs_fold : Z.to_nat HLL_REGISTERS = NREGS.
Proof. pose proof NREGS_eq. lia. Qed.

Lemma pack_registers_spec pre l post raw : area l -> length raw = NREGS -> Forall (fun r => 0 <= r < 64) raw ->
  exists l', hllDenseCompress (pre ++ l ++ post) (zlen pre) raw = Some (pre ++ l' ++ post) /\ area l' /\ regs_of l' = raw.
Proof.
  intros Hl Hraw Hr. unfold hllDenseCompress. rewrite nregs_fold.
  destruct (run_all (fun i b => v ← rd raw i; HLL_DENSE_SET_REGISTER b (zlen pre) i v) (at_area pre post)
    (fun i _ => default 0 (raw !! i)) (regs_of l) (pre ++ l ++ post)) as (b' & -> & l' & -> & Hl' & HL).
  - intros b Lp x Lq Hb. pose proof Hb as (l0 & _ & _ & HL). pose proof (regs_length l0) as Hlen. rewrite HL, length_app in Hlen. cbn [length] in Hlen.
    rewrite rd_lookup, Nat2Z.id by lia. destruct (lookup_lt_is_Some_2 raw (length Lp)) as [v Hv]; [lia|]. rewrite Hv. mred. cbn [default from_option id].
    eapply at_area_set; [exact Hb|]. rewrite Forall_lookup in Hr. by eapply Hr.
  - by exists l.
  - apply regs_length.
  - exists l'. split_and!; [reflexivity|exact Hl'|]. rewrite HL. apply list_eq. intros j. rewrite list_lookup_imap.
    destruct (Nat.lt_ge_cases j NREGS) as [Hj|Hj]; [|rewrite !lookup_ge_None_2 by (rewrite ?regs_length; lia); reflexivity].
    rewrite regs_lookup by done. cbn. destruct (lookup_lt_is_Some_2 raw j) as [v Hv]; [lia|]. by rewrite Hv.
Qed.

Definition raw_regs (a L : list Z) : Prop := a = L /\ bytes_ok L.

Lemma raw_write Lp x Lq v : raw_regs (Lp ++ x :: Lq) (Lp ++ x :: Lq) -> byte_ok v ->
  exists a', wr (Lp ++ x :: Lq) (zlen Lp) v = Some a' /\ raw_regs a' (Lp ++ v :: Lq).
Proof.
  intros [_ Hok] Hv. unfold wr. rewrite (wrn_app Lp [x] Lq [uwrap 8 v]) by done. rewrite uwrap_id by done.
  eexists. split; [reflexivity|]. split; [reflexivity|]. apply Forall_app in Hok as [Hp [_ Hq]%Forall_cons]. apply Forall_app. by split; [|constructor].
Qed.

Lemma merge_dense_spec max pre l post : area l -> length max = NREGS -> bytes_ok max ->
  hllMergeDense max (pre ++ l ++ post) (zlen pre) = Some (zip_with Z.max max (regs_of l)).
Proof.
  intros Hl Hmax Hb. unfold hllMergeDense. rewrite nregs_fold.
  destruct (run_all (fun i max => val ← HLL_DENSE_GET_REGISTER (pre ++ l ++ post) (zlen pre) i; m ← rd max i; wr max i (Z.max m val))
    (fun a L => raw_regs a L /\ length L = NREGS) (fun i m => Z.max m (reg l (Z.of_nat i))) max max) as (m' & -> & [-> _] & _).
  - intros a Lp x Lq [[-> Hok] Hlen]. rewrite length_app in Hlen |- *. cbn [length] in Hlen |- *.
    rewrite get_area by (exact Hl || nlia). mred. rewrite rd_app_r by reflexivity. cbn [head]. mred.
    pose proof Hok as [_ [Hx _]%Forall_cons]%Forall_app. pose proof (reg_range l (zlen Lp)) as Hrr.
    destruct (raw_write Lp x Lq (Z.max x (reg l (zlen Lp)))) as (a' & -> & Ha'); [by split|unfold byte_ok in *; lia|].
    exists a'. split; [reflexivity|]. by split.
  - by split.
  - exact Hmax.
  - f_equal. apply list_eq. intros j. rewrite list_lookup_imap, lookup_zip_with.
    destruct (max !! j) as [m|] eqn:Hm; [|reflexivity]. apply lookup_lt_Some in Hm. rewrite Hmax in Hm.
    rewrite regs_lookup by exact Hm. reflexivity.
Qed.

(** ** Histograms *)

Definition count_of (v : Z) (L : list Z) : Z := zlen (filter (fun r => r = v) L).
Definition tally (L h : list Z) : list Z := imap (fun v c => c + count_of (Z.of_nat v) L) h.

Lemma count_app v A B : count_of v (A ++ B) = count_of v A + count_of v B.
Proof. unfold count_of. rewrite filter_app, length_app. lia. Qed.

Lemma tally_app A B h : tally (A ++ B) h = tally B (tally A h).
Proof.
  unfold tally. apply list_eq. intros j. rewrite !list_lookup_imap. destruct (h !! j); [|done]. cbn. f_equal. rewrite count_app. lia.
Qed.

Lemma tally_nil h : tally [] h = h.
Proof. unfold tally. apply list_eq. intros j. rewrite list_lookup_imap. destruct (h !! j); cbn; [|done]. f_equal. unfold count_of. cbn. lia. Qed.

Lemma tally_length L h : length (tally L h) = length h.
Proof. apply length_imap. Qed.

Lemma count_replicate v n r : count_of v (replicate n r) = if r =? v then Z.of_nat n else 0.
Proof.
  unfold count_of. induction n as [|n IH]; cbn [replicate]; [by destruct (r =? v)|]. rewrite filter_cons.
  destruct (Z.eqb_spec r v); destruct (decide (r = v)); try done. cbn [length]. lia.
Qed.

Lemma bump_spec h r n : 0 <= r < zlen h -> 0 <= n -> bump h r n = Some (tally (replicate (Z.to_nat n) r) h).
Proof.
  intros Hr Hn. unfold bump. rewrite rd_lookup by lia. destruct (lookup_lt_is_Some_2 h (Z.to_nat r)) as [x Hx]; [lia|]. rewrite Hx. mred.
  rewrite <- (take_drop_middle h (Z.to_nat r) x Hx).
  rewrite (wrn_app (take (Z.to_nat r) h) [x] (drop (S (Z.to_nat r)) h) [x + n]); [|rewrite length_take; lia|reflexivity].
  f_equal. cbn [app]. apply list_eq. intros j. unfold tally. rewrite list_lookup_imap. destruct (Nat.eq_dec j (Z.to_nat r)) as [->|Hne].
  - rewrite !list_lookup_middle by (rewrite length_take; lia). cbn [fmap option_fmap option_map]. rewrite count_replicate, !Z2Nat.id, Z.eqb_refl by lia. reflexivity.
  - assert (forall y : Z, (take (Z.to_nat r) h ++ y :: drop (S (Z.to_nat r)) h) !! j = h !! j) as Hj.
    { intros y. rewrite <- (insert_take_drop h) by lia. by rewrite list_lookup_insert_ne by lia. }
    rewrite (Hj (x + n)), (Hj x). destruct (h !! j); cbn [fmap option_fmap option_map]; [|done]. f_equal. rewrite count_replicate.
    destruct (Z.eqb_spec r (Z.of_nat j)); lia.
Qed.

Lemma bump_all_spec rs h : Forall (fun r => 0 <= r < zlen h) rs -> bump_all rs h = Some (tally rs h).
Proof.
  revert h. induction rs as [|r rs IH]; intros h Hrs; cbn [bump_all]; [by rewrite tally_nil|]. apply Forall_cons in Hrs as [Hr Hrs].
  rewrite bump_spec by lia. mred. rewrite IH by (by rewrite tally_length). by rewrite (tally_app [r] rs).
Qed.

Lemma lor_high a y k : 6 <= k -> Z.land (Z.lor a (Z.shiftl y k)) 63 = Z.land a 63.
Proof.
  intros Hk. apply Z.bits_inj'. intros t Ht. rewrite !Z.land_spec, Z.lor_spec, max_bit by done.
  destruct (Z.ltb_spec t 6); [|by rewrite !andb_false_r]. rewrite Z.shiftl_spec_low by lia. by rewrite orb_false_r.
Qed.

Lemma reg_term w i : reg (w ++ [0]) i = reg w i.
Proof. unfold reg. do 2 f_equal. induction w as [|x w IH]; cbn [app le_val]; [done|]. by rewrite IH. Qed.

Lemma registers16_spec w : bytes_ok w -> length w = 12%nat -> registers16 w = Some (map (fun i => reg w (Z.of_nat i)) (seq 0 16)).
Proof.
  intros Hw Hlen. assert (forall i, (i < 16)%nat -> HLL_DENSE_GET_REGISTER (w ++ [0]) 0 (Z.of_nat i) = Some (reg w (Z.of_nat i))) as Hget.
  { intros i Hi. rewrite <- reg_term.
    pose proof (get_register [] (w ++ [0]) [] (Z.of_nat i)) as H. cbn [app length] in H. rewrite app_nil_r in H. apply H; [|lia|rewrite length_app, Hlen; cbn; dlia].
    apply Forall_app. split; [done|]. by repeat constructor. }
  do 12 (destruct w as [|? w]; [done|]). destruct w; [|done]. cbn [registers16 seq map].
  apply (f_equal Some). repeat (refine (f_equal2 cons _ _); [|]). all: try (exact (eq_refl (@nil Z))).
  all: match goal with |- _ = reg _ (Z.of_nat ?i) => specialize (Hget i ltac:(lia)); cbv -[Z.land Z.lor Z.shiftr Z.shiftl reg le_val Z.sub] in Hget end.
  all: apply (inj Some) in Hget; (etransitivity; [|exact Hget]); clear Hget.
  all: rewrite ?Z.shiftr_0_r; try reflexivity; symmetry; apply lor_high; by vm_compute.
Qed.

Lemma reg_block l n i : bytes_ok l -> 12 * Z.of_nat n + 12 <= zlen l -> 0 <= i < 16 ->
  reg l (16 * Z.of_nat n + i) = reg (take 12 (drop (12 * n) l)) i.
Proof.
  intros Hl Hn Hi. apply Z.bits_inj'. intros t Ht. rewrite !reg_bit by lia. destruct (Z.ltb_spec t 6); cbn [andb]; [|done].
  rewrite !le_val_bit by (lia || done || by apply Forall_take, Forall_drop).
  replace ((6 * (16 * Z.of_nat n + i) + t) mod 8) with ((6 * i + t) mod 8) by dlia.
  replace ((6 * (16 * Z.of_nat n + i) + t) / 8) with (12 * Z.of_nat n + (6 * i + t) / 8) by dlia.
  assert (0 <= (6 * i + t) / 8 < 12) as Hq by dlia. do 2 f_equal. rewrite lookup_take, decide_True, lookup_drop by lia. f_equal. lia.
Qed.

(** [n] blocks from block number [k]. *)
Lemma dense_histo_spec pre l post n : bytes_ok l -> forall k h, length h = 64%nat -> 12 * Z.of_nat (k + n) <= zlen l ->
  dense_histo_loop n (pre ++ l ++ post) (zlen pre + 12 * Z.of_nat k) h
  = Some (tally (map (fun i => reg l (Z.of_nat i)) (seq (16 * k) (16 * n))) h).
Proof.
  intros Hl. induction n as [|n IH]; intros k h Hh Hn; cbn [dense_histo_loop].
  { rewrite Nat.mul_0_r. cbn [seq map]. by rewrite tally_nil. }
  assert (rdn (pre ++ l ++ post) (zlen pre + 12 * Z.of_nat k) 12 = Some (take 12 (drop (12 * k) l))) as ->.
  { apply rdn_shift. apply rdn_Some. split_and!; try lia. do 2 f_equal. lia. }
  mred. rewrite registers16_spec; [|by apply Forall_take, Forall_drop|rewrite length_take, length_drop; lia]. mred.
  rewrite bump_all_spec by (apply Forall_map, Forall_forall; intros j _; rewrite Hh; apply reg_range). mred.
  replace (zlen pre + 12 * Z.of_nat k + 12) with (zlen pre + 12 * Z.of_nat (S k)) by lia.
  rewrite IH by (rewrite ?tally_length; done || lia). f_equal. rewrite <- tally_app. f_equal.
  replace (16 * S n)%nat with (16 + 16 * n)%nat by lia. rewrite seq_app, map_app. f_equal; [|do 2 f_equal; lia].
  replace (seq (16 * k) 16) with (Nat.add (16 * k) <$> seq 0 16) by (rewrite fmap_add_seq; f_equal; lia).
  change (map ?f (?g <$> ?l)) with (f <$> (g <$> l)). rewrite <- list_fmap_compose. symmetry. apply list_fmap_ext. intros j x Hx. cbn.
  apply lookup_seq in Hx as [-> Hj]. rewrite <- (reg_block l k) by (done || lia). f_equal. lia.
Qed.

Lemma dense_histo pre l post h : area l -> length h = 64%nat -> hllDenseRegHisto (pre ++ l ++ post) (zlen pre) h = Some (tally (regs_of l) h).
Proof.
  intros [Hb Hn _] Hh. pose proof (dense_histo_spec pre l post 1024 Hb 0 h Hh ltac:(rewrite Hn; lia)) as H.
  rewrite Z.mul_0_r, Z.add_0_r, Nat.mul_0_r in H. unfold hllDenseRegHisto. rewrite H, regs_unfold.
  replace (16 * 1024)%nat with NREGS by nlia. reflexivity.
Qed.

Lemma raw_histo_spec raw n : Forall (fun r => 0 <= r < 64) raw -> forall k h, length h = 64%nat -> 8 * Z.of_nat (k + n) <= zlen raw ->
  raw_histo_loop n raw (8 * Z.of_nat k) h = Some (tally (take (8 * n) (drop (8 * k) raw)) h).
Proof.
  intros Hr. induction n as [|n IH]; intros k h Hh Hn; cbn [raw_histo_loop].
  { rewrite Nat.mul_0_r, take_0. by rewrite tally_nil. }
  set (w := take 8 (drop (8 * k) raw)).
  assert (rdn raw (8 * Z.of_nat k) 8 = Some w) as ->.
  { apply rdn_Some. split_and!; try lia. unfold w. do 2 f_equal. lia. }
  mred. assert (Forall (fun r => 0 <= r < 64) w) as Hw by (by apply Forall_take, Forall_drop).
  assert ((if le_val w =? 0 then bump h 0 8 else bump_all w h) = Some (tally w h)) as ->.
  { destruct (Z.eqb_spec (le_val w) 0) as [H0|_]; [|apply bump_all_spec; by rewrite Hh].
    rewrite bump_spec by lia. do 2 f_equal. change (Z.to_nat 8) with 8%nat.
    assert (length w = 8%nat) as <- by (unfold w; rewrite length_take, length_drop; lia). apply replicate_as_Forall_2; [reflexivity|]. apply Forall_forall.
    intros x Hx. clear Hn. induction Hw as [|y w' Hy Hw IHw]; [by apply elem_of_nil in Hx|]. cbn [le_val] in H0.
    pose proof (le_val_range w' ltac:(eapply Forall_impl; [exact Hw|]; unfold byte_ok; lia)) as Hrange.
    apply elem_of_cons in Hx as [->|Hx]; [lia|]. apply IHw; [lia|done]. }
  mred. replace (8 * Z.of_nat k + 8) with (8 * Z.of_nat (S k)) by lia.
  rewrite IH by (rewrite ?tally_length; done || lia). f_equal. rewrite <- tally_app. f_equal. unfold w.
  replace (8 * S k)%nat with (8 * k + 8)%nat by lia. rewrite <- drop_drop. replace (8 * S n)%nat with (8 + 8 * n)%nat by lia.
  by rewrite take_take_drop.
Qed.

Lemma raw_histo raw h : length raw = NREGS -> Forall (fun r => 0 <= r < 64) raw -> length h = 64%nat ->
  hllRawRegHisto raw h = Some (tally raw h).
Proof.
  intros Hl Hr Hh. unfold hllRawRegHisto. change 0 with (8 * Z.of_nat 0) at 1. assert (Z.of_nat (Z.to_nat (HLL_REGISTERS / 8)) = 2048) as H by (vm_compute; reflexivity).
  rewrite raw_histo_spec by (done || nlia). do 2 f_equal. rewrite Nat.mul_0_r. cbn [drop]. apply take_ge. nlia.
Qed.

(** Setting a 6-bit register of the packed array and reading registers:
    the register that was set has the value, every other register is as
    before, and no byte outside the array changes. *)
Theorem dense_register_roundtrip pre l post i v : area l -> 0 <= i < HLL_REGISTERS -> 0 <= v < 64 ->
  exists l', HLL_DENSE_SET_REGISTER (pre ++ l ++ post) (zlen pre) i v = Some (pre ++ l' ++ post) /\ length l' = length l /\
    forall j, 0 <= j < HLL_REGISTERS -> HLL_DENSE_GET_REGISTER (pre ++ l' ++ post) (zlen pre) j =
      if j =? i then Some v else HLL_DENSE_GET_REGISTER (pre ++ l ++ post) (zlen pre) j.
Proof.
  intros Hl Hi Hv. destruct (set_area pre l post i v Hl Hi Hv) as (l' & E & Hl' & Hr). exists l'. split_and!; [exact E|destruct Hl, Hl'; lia|].
  intros j Hj. rewrite !get_area by assumption. assert (regs_of l' !! Z.to_nat j = Some (reg l' j)) as H by (rewrite regs_lookup, Z2Nat.id by nlia; reflexivity).
  rewrite Hr in H. destruct (Z.eqb_spec j i) as [->|Hne].
  - rewrite list_lookup_insert_eq in H by (rewrite regs_length; nlia). congruence.
  - rewrite list_lookup_insert_ne, regs_lookup, Z2Nat.id in H by nlia. congruence.
Qed.

Definition sample_area : list Z := replicate (Z.to_nat 12289) 0.

Lemma sample_area_ok : area sample_area.
Proof.
  unfold sample_area. constructor; [apply Forall_replicate; unfold byte_ok; lia|rewrite length_replicate; lia|apply lookup_replicate_2; lia].
Qed.

Lemma dense_register_roundtrip_witness :
  exists l', HLL_DENSE_SET_REGISTER ([1; 2] ++ sample_area ++ [3]) (zlen [1; 2]) 5 41 = Some ([1; 2] ++ l' ++ [3]) /\ length l' = length sample_area /\
    forall j, 0 <= j < HLL_REGISTERS -> HLL_DENSE_GET_REGISTER ([1; 2] ++ l' ++ [3]) (zlen [1; 2]) j =
      if j =? 5 then Some 41 else HLL_DENSE_GET_REGISTER ([1; 2] ++ sample_area ++ [3]) (zlen [1; 2]) j.
Proof. apply (dense_register_roundtrip [1; 2] sample_area [3] 5 41 sample_area_ok); [unfold HLL_REGISTERS; lia|lia]. Defined.
End HllDense.
