(* ===== verification/HllSparse.v ===== *)
(** * The sparse representation of HyperLogLog values

    Opcodes and the registers they stand for; the loop over the opcodes on
    arbitrary bytes; setting a register, in place or by conversion. *)

From S2P Require Import Prelude Sds Hll HllDense.

Module HllSparse.
Import Sds Hll HllDense.

(** ** Strings and their buffers *)

Definition stores (o : sds) (c : list Z) : Prop := wf o /\ content o = c.

Lemma stores_buf o c : stores o c -> exists rest, sds_buf o = c ++ 0 :: rest /\ zlen c = sds_len o.
Proof.
  intros [Hwf <-]. pose proof (content_length o Hwf) as Hlen. destruct Hwf as [_ Hl _ Hb Hz].
  exists (drop (S (Z.to_nat (sds_len o))) (sds_buf o)). split; [|done]. unfold content.
  rewrite rd_lookup in Hz by lia. symmetry. by apply take_drop_middle.
Qed.

Lemma stores_set o c c' rest rest' : stores o c -> sds_buf o = c ++ 0 :: rest -> length c' = length c -> length rest' = length rest ->
  stores (set_buf o (c' ++ 0 :: rest')) c'.
Proof.
  intros [Hwf Hc] Hb Hlen Hrest. pose proof (content_length o Hwf) as Hl. rewrite Hc in Hl. destruct Hwf as [Ht Hl' Hm Hbuf Hz].
  unfold set_buf. split; [constructor|]; cbn [sds_type sds_len sds_buf]; try done.
  - rewrite Hb, length_app in Hbuf. rewrite length_app. cbn [length] in *. unfold sdsalloc in *. cbn [sds_type sds_alloc sds_len]. lia.
  - by rewrite rd_app_r by lia.
  - unfold content. cbn [sds_len sds_buf]. rewrite take_app_length' by lia. done.
Qed.

(** A change of length within the capacity; a string of type 5 must change. *)
Lemma incr_len o b d : wf o -> length b = length (sds_buf o) -> 0 <= sds_len o + d <= sdsalloc o -> - 2 ^ 31 <= d < 2 ^ 31 ->
  (sds_type o = SDS_TYPE_5 -> d <> 0) ->
  exists o', sdsIncrLen (set_buf o b) d = Some o' /\ stores o' (take (Z.to_nat (sds_len o + d)) b) /\
    sds_type o' = sds_type o /\ sdsalloc o' = (if sds_type o =? SDS_TYPE_5 then sds_len o + d else sdsalloc o) /\
    sds_buf o' = take (Z.to_nat (sds_len o + d)) b ++ 0 :: drop (Z.to_nat (sds_len o + d) + 1) b.
Proof.
  intros Hwf Hb Hd Hr H5. pose proof Hwf as [Ht Hl Hm Hbuf Hz]. unfold sdsIncrLen. cbn [set_buf sds_type sds_len sds_alloc].
  set (ok := if sds_type o =? SDS_TYPE_5 then _ else _).
  assert (ok = true) as ->.
  { unfold ok. unfold sdsalloc in *. destruct (Z.eqb_spec (sds_type o) SDS_TYPE_5) as [E|E].
    - assert (sds_len o < 32) by (rewrite E in Hm; change (sdsTypeMaxSize SDS_TYPE_5) with 31 in Hm; lia).
      specialize (H5 E). rewrite uwrap_id by (unfold in_u; lia). lia.
    - destruct ((sds_type o =? SDS_TYPE_8) || (sds_type o =? SDS_TYPE_16)); [destruct (Z.leb_spec 0 d); [lia|rewrite uwrap_id by (unfold in_u; lia); lia]|].
      assert (sds_alloc o < 2 ^ 64) as Hbig.
      { destruct (maxsize_bits (sds_type o) Ht) as [Hmax _]. assert (2 ^ field_bits (sds_type o) <= 2 ^ 64); [|lia].
        apply Z.pow_le_mono_r; [lia|]. clear -Ht. types Ht; lia. }
      destruct (Z.eqb_spec (sds_type o) SDS_TYPE_32) as [E32|_].
      + rewrite E32 in Hm. change (sdsTypeMaxSize SDS_TYPE_32) with (2 ^ 32 - 1) in Hm.
        destruct (Z.leb_spec 0 d); [rewrite !uwrap_id by (unfold in_u; lia); lia|rewrite (uwrap_id 32 (- d)) by (unfold in_u; lia); lia].
      + destruct (Z.leb_spec 0 d); [rewrite !uwrap_id by (unfold in_u; lia); lia|rewrite (uwrap_id 64 (- d)) by (unfold in_u; lia); lia]. }
  assert (sds_len o + d <= sdsTypeMaxSize (sds_type o)) as Hmx by lia.
  rewrite (setlen_id (sds_type o)) by lia. destruct (terminate_ok o b (sds_len o + d) Hwf Hb Hd) as (o' & E & Hwf' & Hc & Hlen & Hty).
  exists o'. rewrite E. split_and!; [done|by split|done| |].
  - unfold terminate in E. destruct (wrn _ _ _) as [b'|]; [|done]. cbn in E. simplify_eq. unfold sdsalloc. cbn [sds_type sds_len sds_alloc sdssetlen set_buf].
    rewrite (setlen_id (sds_type o)) by lia. by destruct (sds_type o =? SDS_TYPE_5).
  - unfold terminate in E. cbn [set_buf sds_buf] in E. rewrite wrn_one in E by lia. mred. cbn in E. by simplify_eq.
Qed.

(** Bytes [v] of a string are replaced by [s]: the tail is moved, the length
    changed and [s] copied. *)
Lemma splice o u v w s :
  stores o (u ++ v ++ w) -> sds_len o + (zlen s - zlen v) <= sdsalloc o -> zlen s - zlen v < 2 ^ 31 -> zlen v < 2 ^ 31 ->
  (sds_type o = SDS_TYPE_5 -> length s <> length v) ->
  exists o' b1 b', (if bool_decide (w = []) then Some (sds_buf o)
      else if zlen s - zlen v =? 0 then Some (sds_buf o)
      else memmove (sds_buf o) (zlen u + zlen v + (zlen s - zlen v)) (zlen u + zlen v) (zlen w)) = Some b1 /\
    sdsIncrLen (set_buf o b1) (zlen s - zlen v) = Some o' /\ wrn (sds_buf o') (zlen u) s = Some b' /\
    stores (set_buf o' b') (u ++ s ++ w) /\ sds_type o' = sds_type o.
Proof.
  intros Hst Hroom H31 H31' H5. pose proof Hst as [Hwf _]. destruct (stores_buf _ _ Hst) as (rest & Hb & Hl).
  assert (zlen (u ++ v ++ w) + (zlen s - zlen v) = zlen u + zlen s + zlen w) as Hnew by (rewrite !length_app; lia).
  assert (zlen u + zlen s + zlen w + 1 <= zlen (sds_buf o)) as Hfit by (destruct Hwf; lia).
  assert (exists tl, (if bool_decide (w = []) then Some (sds_buf o) else if zlen s - zlen v =? 0 then Some (sds_buf o)
      else memmove (sds_buf o) (zlen u + zlen v + (zlen s - zlen v)) (zlen u + zlen v) (zlen w))
      = Some (take (length u + length s) (sds_buf o) ++ w ++ tl) /\ length (take (length u + length s) (sds_buf o) ++ w ++ tl) = length (sds_buf o)) as (tl & Hm & Htl).
  { destruct (bool_decide_reflect (w = [])) as [->|Hw]; [|destruct (Z.eqb_spec (zlen s - zlen v) 0) as [He|He]].
    - exists (drop (length u + length s) (sds_buf o)). cbn [app]. by rewrite take_drop.
    - exists (0 :: rest). assert (take (length u + length s) (sds_buf o) = u ++ v) as ->.
      { rewrite Hb, <- !app_assoc, (app_assoc u v). apply take_app_length'. rewrite length_app. lia. }
      rewrite Hb. split; [by rewrite <- !app_assoc|by rewrite <- !app_assoc].
    - exists (drop (length u + length s + length w) (sds_buf o)). unfold memmove.
      assert (rdn (sds_buf o) (zlen u + zlen v) (zlen w) = Some w) as ->.
      { rewrite Hb. replace ((u ++ v ++ w) ++ 0 :: rest) with ((u ++ v) ++ w ++ 0 :: rest) by (by rewrite <- !app_assoc).
        apply rdn_app; rewrite ?length_app; lia. }
      mred. unfold wrn. rewrite (proj2 (Z.leb_le 0 _)), (proj2 (Z.leb_le _ (zlen (sds_buf o)))) by lia. cbn [andb].
      replace (Z.to_nat (zlen u + zlen v + (zlen s - zlen v))) with (length u + length s)%nat by lia. split; [done|].
      rewrite !length_app, length_take, length_drop. lia. }
  rewrite Hm. set (b1 := take _ _ ++ w ++ tl) in *.
  destruct (incr_len o b1 (zlen s - zlen v) Hwf Htl) as (o' & E & Hst' & Hty & Hal & Hb'); [lia|lia|intros E5; specialize (H5 E5); lia|].
  rewrite <- Hl, Hnew in Hb', Hst'. exists o', b1. rewrite E.
  assert (take (Z.to_nat (zlen u + zlen s + zlen w)) b1 = u ++ drop (length u) (take (length u + length s) (sds_buf o)) ++ w) as Htk.
  { unfold b1. rewrite app_assoc, take_app_length' by (rewrite length_app, length_take; lia). rewrite app_assoc. f_equal.
    rewrite <- (take_drop (length u) (take (length u + length s) (sds_buf o))) at 1. f_equal. rewrite take_take, Nat.min_l by lia.
    rewrite Hb, <- !app_assoc. by apply take_app_length. }
  rewrite Htk in Hb', Hst'. set (X := drop (length u) _) in *. assert (length X = length s) as HX by (unfold X; rewrite length_drop, length_take; lia).
  set (tl' := drop _ b1) in *. rewrite Hb', <- !app_assoc, wrn_app by (done || lia). eexists. split_and!; try done.
  replace (u ++ s ++ w ++ 0 :: tl') with ((u ++ s ++ w) ++ 0 :: tl') by (by rewrite <- !app_assoc).
  apply (stores_set o' (u ++ X ++ w) (u ++ s ++ w) tl' tl' Hst'); [by rewrite Hb'|rewrite !length_app; lia|done].
Qed.

Lemma terminate_type s n s' : terminate s n = Some s' -> sds_type s' = sds_type s.
Proof. unfold terminate. destruct (wrn _ _ _); [|done]. cbn. intros H. by simplify_eq. Qed.

Lemma setalloc_room s u n : 1 <= sds_type s <= 4 -> 0 <= n <= u -> u <= sdsTypeMaxSize (sds_type s) ->
  sds_type (sdssetalloc s u) <> SDS_TYPE_5 /\ n <= sdsalloc (sdssetalloc s u).
Proof.
  intros Ht Hn Hu. destruct s as [t l a b]. cbn [sds_type] in *. rewrite setalloc_rebuild by lia. unfold sdsalloc. cbn [sds_type sds_alloc].
  unfold SDS_TYPE_5. rewrite (proj2 (Z.eqb_neq t 0)) by lia. lia.
Qed.

Section Alloc.
Context (usable : Z -> Z) (junk : nat -> Z) (je_nallocx : option (Z -> Z)).
Context (usable_ok : forall n, 0 <= n < 2 ^ 63 -> n <= usable n < 2 ^ 64).
Context (nallocx_ok : forall f n, je_nallocx = Some f -> 0 <= n < 2 ^ 63 -> n <= f n).

(** A string that is resized to regrow has the capacity asked for. *)
Lemma resize_room s size s' : wf s -> 0 <= size < 2 ^ 61 -> sdsalloc s <> size ->
  sdsResize usable junk je_nallocx s size true = Some s' -> sds_type s' <> SDS_TYPE_5 /\ size <= sdsalloc s'.
Proof using usable_ok nallocx_ok.
  intros [Ht Hl Hm Hb Hz] Hsz Hne. unfold sdsResize. rewrite (proj2 (Z.eqb_neq _ _) Hne).
  destruct (resize_type size true Hsz) as (Ht1 & Ht2 & Ht3). cbn [andb] in *.
  assert (1 <= (if sdsReqType size =? SDS_TYPE_5 then SDS_TYPE_8 else sdsReqType size)) as Ht0.
  { unfold SDS_TYPE_5, SDS_TYPE_8 in *. destruct (Z.eqb_spec (sdsReqType size) 0); [lia|].
    destruct (sdsReqType_cases size) as [[? E]|[[? E]|[[? E]|[[? E]|[? E]]]]]; lia. }
  set (t := if sdsReqType size =? SDS_TYPE_5 then _ else _) in *. clearbody t. set (len := if size <? sdslen s then _ else _).
  destruct ((sds_type s =? t) || ((t <? sds_type s) && (t >? SDS_TYPE_8))) eqn:Er.
  - assert (1 <= sds_type s /\ size <= type_limit (sds_type s)) as [Hot Hlim].
    { destruct (Z.eqb_spec (sds_type s) t) as [->|]; [done|]. cbn in Er. split; [lia|]. apply Ht3. lia. }
    pose proof (hdr_range _ Ht) as Hh. destruct (match je_nallocx with Some f => _ | None => _ end) eqn:Eo.
    + destruct je_nallocx as [f|]; [|done]. pose proof (nallocx_ok f (sdsHdrSize (sds_type s) + size + 1) eq_refl ltac:(lia)) as Hn.
      unfold sdsAllocSize in *. destruct (terminate s len) as [s1|] eqn:E1; [|done]. cbn [mbind option_bind]. intros [= <-].
      apply terminate_type in E1. apply setalloc_room; rewrite ?E1; lia.
    + pose proof (usable_ok (sdsHdrSize (sds_type s) + size + 1) ltac:(lia)) as Hu. set (bufsize := usable _) in *.
      destruct (adjustTypeIfNeeded _ _ bufsize) as [[t' h'] a] eqn:Ea.
      destruct (adjust_spec (sds_type s) bufsize size t' h' a) as (Ht' & Hh' & Hroom & Hsame & _); [lia|lia|lia|done|].
      destruct (terminate _ len) as [s1|] eqn:E1; [|done]. cbn [mbind option_bind]. intros [= <-]. apply terminate_type in E1.
      assert (sds_type s1 = t') as Es1. { rewrite E1. destruct a; [done|]. cbn. symmetry. by apply Hsame. }
      apply setalloc_room; rewrite ?Es1; lia.
  - pose proof (hdr_range t Ht1) as Hh. pose proof (usable_ok (sdsHdrSize t + size + 1) ltac:(lia)) as Hu. set (bufsize := usable _) in *.
    destruct (adjustTypeIfNeeded _ _ bufsize) as [[t' h'] a] eqn:Ea.
    destruct (adjust_spec t bufsize size t' h' a) as (Ht' & Hh' & Hroom & _ & _); [lia|lia|lia|done|].
    destruct (terminate _ len) as [s1|] eqn:E1; [|done]. cbn [mbind option_bind]. intros [= <-]. apply terminate_type in E1.
    cbn [sds_type] in E1. apply setalloc_room; rewrite ?E1; lia.
Qed.

Lemma newlen_null n : 0 <= n < 2 ^ 61 -> exists s, sdsnewlen usable junk InitNull n = Some s /\ stores s (replicate (Z.to_nat n) 0).
Proof using usable_ok.
  intros Hn. destruct (newlen_spec usable junk usable_ok (replicate (Z.to_nat n) 0) n) as (s & E & Hwf & Hc); [rewrite length_replicate; lia|lia|].
  exists s. split; [|split; [done|rewrite Hc; apply take_ge; rewrite length_replicate; lia]].
  rewrite <- E. unfold sdsnewlen, _sdsnewlen, sdsnewplacement.
  assert (rdn (replicate (Z.to_nat n) 0) 0 n = Some (replicate (Z.to_nat n) 0)) as ->; [|done].
  apply rdn_Some. rewrite length_replicate. split_and!; try lia. cbn [drop]. symmetry. apply take_ge. rewrite length_replicate. lia.
Qed.
End Alloc.

(** ** Opcodes *)

Inductive op := ZERO (n : Z) | XZERO (n : Z) | VAL (v n : Z).

Definition op_ok (o : op) : Prop :=
  match o with
  | ZERO n => 1 <= n <= 64
  | XZERO n => 1 <= n <= 16384
  | VAL v n => 1 <= v <= 32 /\ 1 <= n <= 4
  end.

Definition enc (o : op) : list Z :=
  match o with
  | ZERO n => [n - 1]
  | XZERO n => [64 + (n - 1) / 256; (n - 1) mod 256]
  | VAL v n => [128 + 4 * (v - 1) + (n - 1)]
  end.

Definition span (o : op) : Z := match o with ZERO n | XZERO n | VAL _ n => n end.
Definition value (o : op) : Z := match o with VAL v _ => v | _ => 0 end.
Definition expand (o : op) : list Z := replicate (Z.to_nat (span o)) (value o).
Definition encs (ops : list op) : list Z := concat (map enc ops).
Definition expands (ops : list op) : list Z := concat (map expand ops).

(** What bytes stand for; a byte that is missing at the end is the terminator. *)
Fixpoint opcodes (body : list Z) : list op :=
  match body with
  | [] => []
  | x :: rest =>
    if HLL_SPARSE_IS_ZERO x then ZERO (HLL_SPARSE_ZERO_LEN x) :: opcodes rest
    else if HLL_SPARSE_IS_XZERO x then
      match rest with
      | [] => [XZERO (HLL_SPARSE_XZERO_LEN x 0)]
      | y :: rest => XZERO (HLL_SPARSE_XZERO_LEN x y) :: opcodes rest
      end
    else VAL (HLL_SPARSE_VAL_VALUE x) (HLL_SPARSE_VAL_LEN x) :: opcodes rest
  end.

Lemma zero_facts n : 1 <= n <= 64 ->
  HLL_SPARSE_IS_ZERO (n - 1) = true /\ HLL_SPARSE_IS_XZERO (n - 1) = false /\ HLL_SPARSE_IS_VAL (n - 1) = false /\
  HLL_SPARSE_ZERO_LEN (n - 1) = n /\ HLL_SPARSE_ZERO_SET n = [n - 1].
Proof.
  intros Hn. pose proof (byte_forall (fun x => negb (x <? 64) || (HLL_SPARSE_IS_ZERO x && negb (HLL_SPARSE_IS_XZERO x) &&
    negb (HLL_SPARSE_IS_VAL x) && (HLL_SPARSE_ZERO_LEN x =? x + 1)))) as H.
  specialize (H ltac:(by vm_compute) (n - 1) ltac:(unfold byte_ok; lia)). cbn beta in H. unfold HLL_SPARSE_ZERO_SET. rewrite uwrap_id by (unfold in_u; lia).
  destruct (Z.ltb_spec (n - 1) 64); [|lia]. cbn [negb orb] in H. rewrite !andb_true_iff, !negb_true_iff, Z.eqb_eq in H. naive_solver lia.
Qed.

Lemma val_facts v n : 1 <= v <= 32 -> 1 <= n <= 4 -> let x := 128 + 4 * (v - 1) + (n - 1) in
  HLL_SPARSE_IS_ZERO x = false /\ HLL_SPARSE_IS_XZERO x = false /\ HLL_SPARSE_IS_VAL x = true /\
  HLL_SPARSE_VAL_VALUE x = v /\ HLL_SPARSE_VAL_LEN x = n /\ HLL_SPARSE_VAL_SET v n = [x].
Proof.
  intros Hv Hn x. pose proof (byte_forall (fun x => (x <? 128) || (negb (HLL_SPARSE_IS_ZERO x) && negb (HLL_SPARSE_IS_XZERO x) &&
    HLL_SPARSE_IS_VAL x && (HLL_SPARSE_VAL_VALUE x =? (x - 128) / 4 + 1) && (HLL_SPARSE_VAL_LEN x =? x mod 4 + 1) &&
    bool_decide (HLL_SPARSE_VAL_SET ((x - 128) / 4 + 1) (x mod 4 + 1) = [x])))) as H.
  specialize (H ltac:(by vm_compute) x ltac:(unfold byte_ok, x; lia)). cbn beta in H.
  assert ((x - 128) / 4 = v - 1 /\ x mod 4 = n - 1) as [E1 E2] by (unfold x; dlia). rewrite E1, E2, !Z.sub_add in H.
  destruct (Z.ltb_spec x 128); [unfold x in *; lia|]. cbn [orb] in H. rewrite !andb_true_iff, !negb_true_iff, !Z.eqb_eq, bool_decide_eq_true in H. naive_solver.
Qed.

Lemma xzero_facts n : 1 <= n <= 16384 -> let x := 64 + (n - 1) / 256 in let y := (n - 1) mod 256 in
  HLL_SPARSE_IS_ZERO x = false /\ HLL_SPARSE_IS_XZERO x = true /\ HLL_SPARSE_IS_VAL x = false /\
  HLL_SPARSE_XZERO_LEN x y = n /\ HLL_SPARSE_XZERO_SET n = [x; y].
Proof.
  intros Hn x y. assert (0 <= (n - 1) / 256 < 64 /\ 0 <= y < 256) as [Hh Hy] by (unfold y; dlia).
  pose proof (byte_forall (fun h => negb (h <? 64) || (negb (HLL_SPARSE_IS_ZERO (64 + h)) && HLL_SPARSE_IS_XZERO (64 + h) &&
    negb (HLL_SPARSE_IS_VAL (64 + h)) && (Z.land (64 + h) 0x3f =? h) && (uwrap 8 (Z.lor h HLL_SPARSE_XZERO_BIT) =? 64 + h)))) as H.
  specialize (H ltac:(by vm_compute) ((n - 1) / 256) ltac:(unfold byte_ok; lia)). cbn beta in H. fold x in H.
  destruct (Z.ltb_spec ((n - 1) / 256) 64); [|lia]. cbn [negb orb] in H. rewrite !andb_true_iff, !negb_true_iff, !Z.eqb_eq in H.
  destruct H as ((((H1 & H2) & H3) & H4) & H5). split_and!; try done.
  - unfold HLL_SPARSE_XZERO_LEN. rewrite H4, Z.lor_comm, lor_shiftl_add by (done || lia). unfold y. change (2 ^ 8) with 256. dlia.
  - unfold HLL_SPARSE_XZERO_SET. rewrite (Z.shiftr_div_pow2 (n - 1) 8) by lia. change (2 ^ 8) with 256. rewrite H5. do 2 f_equal.
    rewrite (land_ones_mod _ 8) by done. apply uwrap_id. unfold in_u. change (2 ^ 8) with 256. fold y. lia.
Qed.

Lemma byte_ops x y : byte_ok x -> byte_ok y ->
  op_ok (ZERO (HLL_SPARSE_ZERO_LEN x)) /\ op_ok (XZERO (HLL_SPARSE_XZERO_LEN x y)) /\ op_ok (VAL (HLL_SPARSE_VAL_VALUE x) (HLL_SPARSE_VAL_LEN x)).
Proof.
  intros Hx Hy. unfold op_ok, HLL_SPARSE_ZERO_LEN, HLL_SPARSE_XZERO_LEN, HLL_SPARSE_VAL_VALUE, HLL_SPARSE_VAL_LEN.
  rewrite !(land_ones_mod _ 6) by done. rewrite (land_ones_mod _ 5) by done. rewrite (land_ones_mod _ 2) by done.
  change (2 ^ 6) with 64. change (2 ^ 5) with 32. change (2 ^ 2) with 4.
  rewrite Z.lor_comm, lor_shiftl_add by (done || lia). change (2 ^ 8) with 256. unfold byte_ok in *. dlia.
Qed.

Lemma opcodes_ok body : bytes_ok body -> Forall op_ok (opcodes body).
Proof.
  remember (length body) as n eqn:Hn. revert body Hn. induction n as [n IH] using lt_wf_ind. intros body Hn Hb.
  destruct body as [|x rest]; [constructor|]. apply Forall_cons in Hb as [Hx Hb]. cbn [opcodes length] in *.
  destruct (HLL_SPARSE_IS_ZERO x); [|destruct (HLL_SPARSE_IS_XZERO x)].
  - constructor; [by apply (byte_ops x 0)|]. by eapply (IH (length rest)); [lia|..].
  - destruct rest as [|y rest]; [constructor; [by apply (byte_ops x 0)|constructor]|]. apply Forall_cons in Hb as [Hy Hb].
    constructor; [by apply byte_ops|]. cbn [length] in Hn. by eapply (IH (length rest)); [lia|..].
  - constructor; [by apply (byte_ops x 0)|]. by eapply (IH (length rest)); [lia|..].
Qed.

Lemma expands_app A B : expands (A ++ B) = expands A ++ expands B.
Proof. unfold expands. by rewrite map_app, concat_app. Qed.
Lemma encs_app A B : encs (A ++ B) = encs A ++ encs B.
Proof. unfold encs. by rewrite map_app, concat_app. Qed.
Lemma expands_cons o ops : expands (o :: ops) = expand o ++ expands ops.
Proof. done. Qed.
Lemma encs_cons o ops : encs (o :: ops) = enc o ++ encs ops.
Proof. done. Qed.

Lemma expand_length o : op_ok o -> zlen (expand o) = span o.
Proof. intros Ho. unfold expand. rewrite length_replicate. destruct o; cbn in *; lia. Qed.

Lemma span_pos o : op_ok o -> 1 <= span o.
Proof. destruct o; cbn; lia. Qed.

(** ** The loop over the opcodes of arbitrary bytes

    [R a D]: the state [a] after the registers [D]. *)
Section Loop.
Context {A : Type} (onzero : Z -> A -> option A) (onval : Z -> Z -> Z -> A -> option A) (R : A -> list Z -> Prop).
Context (Hzero : forall a D n, R a D -> 1 <= n -> zlen D + n <= HLL_REGISTERS ->
  exists a', onzero n a = Some a' /\ R a' (D ++ replicate (Z.to_nat n) 0)).
Context (Hval : forall a D n v, R a D -> 1 <= n -> 1 <= v <= 32 -> zlen D + n <= HLL_REGISTERS ->
  exists a', onval n v (zlen D) a = Some a' /\ R a' (D ++ replicate (Z.to_nat n) v)).

Definition loop_result (D regs : list Z) (r : option (bool * Z * A)) : Prop :=
  if zlen D + zlen regs <=? HLL_REGISTERS
  then exists a', r = Some (true, zlen D + zlen regs, a') /\ R a' (D ++ regs)
  else exists idx a', r = Some (false, idx, a').

Lemma loop_cons D o regs r : op_ok o -> zlen D + span o <= HLL_REGISTERS ->
  loop_result (D ++ expand o) regs r -> loop_result D (expand o ++ regs) r.
Proof.
  intros Ho Hle. unfold loop_result. rewrite !length_app, <- app_assoc, !Nat2Z.inj_add, !Z.add_assoc. done.
Qed.

Lemma loop_over D o regs idx a : op_ok o -> HLL_REGISTERS < zlen D + span o -> loop_result D (expand o ++ regs) (Some (false, idx, a)).
Proof.
  intros Ho Hgt. unfold loop_result. rewrite length_app, Nat2Z.inj_add, expand_length by done.
  destruct (Z.leb_spec (zlen D + (span o + zlen regs)) HLL_REGISTERS); [lia|]. by exists idx, a.
Qed.

Lemma loop_done D a fuel b p e : R a D -> zlen D <= HLL_REGISTERS -> e <= p -> loop_result D [] (sparse_loop onzero onval fuel b p e (zlen D) a).
Proof.
  intros Ha HD Hp. unfold loop_result. rewrite app_nil_r. cbn [length]. rewrite Z.add_0_r, (proj2 (Z.leb_le _ _) HD). exists a. split; [|done].
  destruct fuel; cbn [sparse_loop]; by rewrite (proj2 (Z.ltb_ge p e)).
Qed.

(** One opcode, whose effect is [step]. *)
Lemma loop_step D a o (step : option A) regs (k : A -> option (bool * Z * A)) :
  op_ok o -> zlen D <= HLL_REGISTERS ->
  (zlen D + span o <= HLL_REGISTERS -> exists a', step = Some a' /\ R a' (D ++ expand o)) ->
  (forall a', zlen (D ++ expand o) <= HLL_REGISTERS -> R a' (D ++ expand o) -> loop_result (D ++ expand o) regs (k a')) ->
  loop_result D (expand o ++ regs) (if span o + zlen D >? HLL_REGISTERS then Some (false, zlen D, a) else a ← step; k a).
Proof.
  intros Ho HD Hs Hk. rewrite Z.gtb_ltb. destruct (Z.ltb_spec HLL_REGISTERS (span o + zlen D)).
  - apply loop_over; [done|lia].
  - destruct Hs as (a' & -> & Ha'); [lia|]. mred. apply loop_cons; [done|lia|]. apply Hk; [|done].
    rewrite length_app, Nat2Z.inj_add, expand_length by done. lia.
Qed.

Lemma sparse_loop_spec fuel : forall body pre rest D a,
  bytes_ok body -> (length body <= fuel)%nat -> R a D -> zlen D <= HLL_REGISTERS ->
  loop_result D (expands (opcodes body)) (sparse_loop onzero onval fuel (pre ++ body ++ 0 :: rest) (zlen pre) (zlen pre + zlen body) (zlen D) a).
Proof using Hzero Hval.
  induction fuel as [|fuel IH]; intros body pre rest D a Hb Hf Ha HD.
  { destruct body; [|cbn in Hf; lia]. apply loop_done; [done|done|cbn; lia]. }
  destruct body as [|x body]; [apply loop_done; [done|done|cbn; lia]|]. apply Forall_cons in Hb as [Hx Hb]. cbn [length] in Hf.
  cbn [sparse_loop]. rewrite (proj2 (Z.ltb_lt _ _)) by (cbn [length]; lia). rewrite (rd_app_r pre _ (zlen pre) eq_refl). cbn [app head]. mred.
  assert (forall D' a', R a' D' -> zlen D' <= HLL_REGISTERS -> loop_result D' (expands (opcodes body))
    (sparse_loop onzero onval fuel (pre ++ x :: body ++ 0 :: rest) (zlen pre + 1) (zlen pre + zlen (x :: body)) (zlen D') a')) as Hnext.
  { intros D' a' Ha' HD'. specialize (IH body (pre ++ [x]) rest D' a' Hb ltac:(lia) Ha' HD'). rewrite <- app_assoc in IH. cbn [app] in IH.
    replace (zlen (pre ++ [x])) with (zlen pre + 1) in IH by (rewrite length_app; cbn [length]; lia).
    replace (zlen pre + zlen (x :: body)) with (zlen pre + 1 + zlen body) by (cbn [length]; lia). exact IH. }
  cbn [opcodes]. destruct (HLL_SPARSE_IS_ZERO x) eqn:E0; [|destruct (HLL_SPARSE_IS_XZERO x) eqn:E1].
  - destruct (byte_ops x 0 Hx ltac:(unfold byte_ok; lia)) as (Hok & _ & _). rewrite expands_cons.
    change (HLL_SPARSE_ZERO_LEN x) with (span (ZERO (HLL_SPARSE_ZERO_LEN x))). set (o := ZERO _) in *.
    apply (loop_step D a o (onzero (span o) a) _ (fun a => sparse_loop onzero onval fuel _ _ _ (zlen D + span o) a) Hok HD).
    + intros Hle. apply (Hzero a D (span o) Ha); [by apply span_pos|done].
    + intros a' HD' Ha'. replace (zlen D + span o) with (zlen (D ++ expand o)) by (rewrite length_app, Nat2Z.inj_add, expand_length by done; done). by apply Hnext.
  - destruct body as [|y body].
    + destruct (byte_ops x 0 Hx ltac:(unfold byte_ok; lia)) as (_ & Hok & _). cbn [app].
      assert (rd (pre ++ x :: 0 :: rest) (zlen pre + 1) = Some 0) as ->.
      { change (x :: 0 :: rest) with ([x] ++ 0 :: rest). rewrite app_assoc. apply rd_app_r. rewrite length_app. cbn [length]. lia. }
      mred. change (expands [XZERO (HLL_SPARSE_XZERO_LEN x 0)]) with (expand (XZERO (HLL_SPARSE_XZERO_LEN x 0)) ++ []).
      change (HLL_SPARSE_XZERO_LEN x 0) with (span (XZERO (HLL_SPARSE_XZERO_LEN x 0))) at 2 3 4. set (o := XZERO _) in *.
      apply (loop_step D a o (onzero (span o) a) _ (fun a => sparse_loop onzero onval fuel _ _ _ (zlen D + span o) a) Hok HD).
      * intros Hle. apply (Hzero a D (span o) Ha); [by apply span_pos|done].
      * intros a' HD' Ha'. replace (zlen D + span o) with (zlen (D ++ expand o)) by (rewrite length_app, Nat2Z.inj_add, expand_length by done; done).
        apply loop_done; [done|done|cbn [length]; lia].
    + apply Forall_cons in Hb as [Hy Hb]. destruct (byte_ops x y Hx Hy) as (_ & Hok & _). cbn [app].
      assert (rd (pre ++ x :: y :: body ++ 0 :: rest) (zlen pre + 1) = Some y) as ->.
      { change (x :: y :: body ++ 0 :: rest) with ([x] ++ y :: body ++ 0 :: rest). rewrite app_assoc. apply rd_app_r. rewrite length_app. cbn [length]. lia. }
      mred. rewrite expands_cons. change (HLL_SPARSE_XZERO_LEN x y) with (span (XZERO (HLL_SPARSE_XZERO_LEN x y))) at 2 3 4. set (o := XZERO _) in *.
      apply (loop_step D a o (onzero (span o) a) _ (fun a => sparse_loop onzero onval fuel _ _ _ (zlen D + span o) a) Hok HD).
      * intros Hle. apply (Hzero a D (span o) Ha); [by apply span_pos|done].
      * intros a' HD' Ha'. replace (zlen D + span o) with (zlen (D ++ expand o)) by (rewrite length_app, Nat2Z.inj_add, expand_length by done; done).
        cbn [length] in Hf. specialize (IH body (pre ++ [x; y]) rest (D ++ expand o) a' Hb ltac:(lia) Ha' HD'). rewrite <- app_assoc in IH. cbn [app] in IH.
        replace (zlen (pre ++ [x; y])) with (zlen pre + 2) in IH by (rewrite length_app; cbn [length]; lia).
        replace (zlen pre + zlen (x :: y :: body)) with (zlen pre + 2 + zlen body) by (cbn [length]; lia). exact IH.
  - destruct (byte_ops x 0 Hx ltac:(unfold byte_ok; lia)) as (_ & _ & Hok). rewrite expands_cons.
    change (HLL_SPARSE_VAL_LEN x) with (span (VAL (HLL_SPARSE_VAL_VALUE x) (HLL_SPARSE_VAL_LEN x))) at 2 3 4. set (o := VAL _ _) in *.
    apply (loop_step D a o (onval (span o) (HLL_SPARSE_VAL_VALUE x) (zlen D) a) _ (fun a => sparse_loop onzero onval fuel _ _ _ (zlen D + span o) a) Hok HD).
    + intros Hle. apply (Hval a D (span o) _ Ha); [by apply span_pos|apply Hok|done].
    + intros a' HD' Ha'. replace (zlen D + span o) with (zlen (D ++ expand o)) by (rewrite length_app, Nat2Z.inj_add, expand_length by done; done). by apply Hnext.
Qed.
End Loop.

(** ** The three loops *)

Lemma opcodes_fuel o c : stores o c -> (length c <= length (sds_buf o))%nat.
Proof. intros Hst. destruct (stores_buf _ _ Hst) as (rest & -> & _). rewrite length_app. lia. Qed.

Lemma const_run {X} (v : Z) (l : list X) : map (fun _ => v) l = replicate (length l) v.
Proof. induction l; cbn; congruence. Qed.

Definition accepted (regs : list Z) : bool := zlen regs =? HLL_REGISTERS.

Lemma loop_accepted {A} (R : A -> list Z -> Prop) regs r :
  loop_result R [] regs r -> exists valid idx a, r = Some (valid, idx, a) /\
    negb valid || negb (idx =? HLL_REGISTERS) = negb (accepted regs) /\ (accepted regs = true -> R a regs).
Proof.
  unfold loop_result, accepted. cbn [length app]. rewrite Z.add_0_l. destruct (Z.leb_spec (zlen regs) HLL_REGISTERS).
  - intros (a & -> & Ha). by exists true, (zlen regs), a.
  - intros (idx & a & ->). exists false, idx, a. split; [done|]. destruct (Z.eqb_spec (zlen regs) HLL_REGISTERS); [lia|done].
Qed.

Section Values.
Context (o : sds) (hdr body : list Z).
Context (Hst : stores o (hdr ++ body)) (Hhdr : zlen hdr = HLL_HDR_SIZE) (Hbody : bytes_ok body).
Let regs := expands (opcodes body).

Lemma value_loop {A} onzero onval (R : A -> list Z -> Prop) a :
  (forall a D n, R a D -> 1 <= n -> zlen D + n <= HLL_REGISTERS -> exists a', onzero n a = Some a' /\ R a' (D ++ replicate (Z.to_nat n) 0)) ->
  (forall a D n v, R a D -> 1 <= n -> 1 <= v <= 32 -> zlen D + n <= HLL_REGISTERS ->
    exists a', onval n v (zlen D) a = Some a' /\ R a' (D ++ replicate (Z.to_nat n) v)) ->
  R a [] -> exists valid idx a', sparse_loop onzero onval (length (sds_buf o)) (sds_buf o) HLL_HDR_SIZE (sdslen o) 0 a = Some (valid, idx, a') /\
    negb valid || negb (idx =? HLL_REGISTERS) = negb (accepted regs) /\ (accepted regs = true -> R a' regs).
Proof using Hst Hhdr Hbody.
  intros Hz Hv Ha. apply (loop_accepted R). destruct (stores_buf _ _ Hst) as (rest & Hb & Hl). pose proof (opcodes_fuel _ _ Hst) as Hf.
  unfold sdslen. rewrite <- Hl, <- Hhdr. rewrite length_app, Nat2Z.inj_add. change 0 with (zlen (@nil Z)) at 1.
  rewrite Hb at 2. rewrite <- app_assoc. apply (sparse_loop_spec onzero onval R Hz Hv); [done| |done|done]. rewrite length_app in Hf. lia.
Qed.

Lemma sparse_histo h : length h = 64%nat -> sdslen o - HLL_HDR_SIZE < 2 ^ 31 ->
  exists h', hllSparseRegHisto (sds_buf o) HLL_HDR_SIZE (sdslen o - HLL_HDR_SIZE) h = Some (negb (accepted regs), h') /\
    (accepted regs = true -> h' = tally regs h).
Proof using Hst Hhdr Hbody.
  intros Hh Hint. assert (0 <= sdslen o - HLL_HDR_SIZE).
  { destruct (stores_buf _ _ Hst) as (rest & _ & Hl). unfold sdslen. rewrite <- Hl, length_app. lia. }
  unfold hllSparseRegHisto. rewrite swrap_id by (unfold in_s; lia).
  replace (HLL_HDR_SIZE + (sdslen o - HLL_HDR_SIZE)) with (sdslen o) by lia.
  destruct (value_loop (fun n h => bump h 0 n) (fun n v _ h => bump h v n) (fun a D => a = tally D h) h) as (valid & idx & a & -> & Hacc & Ha).
  - intros a D n -> Hn _. rewrite bump_spec by (rewrite ?tally_length, ?Hh; lia). eexists. split; [done|]. by rewrite tally_app.
  - intros a D n v -> Hn Hv _. rewrite bump_spec by (rewrite ?tally_length, ?Hh; lia). eexists. split; [done|]. by rewrite tally_app.
  - by rewrite tally_nil.
  - mred. exists a. by rewrite Hacc.
Qed.

(** A length above [INT_MAX] is truncated: only the bytes of its low half count. *)
Lemma sparse_histo_truncates b p n h : 0 <= n < 2 ^ 31 ->
  hllSparseRegHisto b p (2 ^ 32 + n) h = hllSparseRegHisto b p n h.
Proof.
  intros Hn. unfold hllSparseRegHisto.
  assert (swrap 32 (2 ^ 32 + n) = swrap 32 n) as ->; [|done]. unfold swrap.
  replace (2 ^ 32 + n + 2 ^ (32 - 1)) with (n + 2 ^ (32 - 1) + 1 * 2 ^ 32) by lia. by rewrite Z_mod_plus by lia.
Qed.

Definition merged (max D : list Z) : list Z := zip_with Z.max (take (length D) max) D ++ drop (length D) max.

Lemma merged_run max D n v : length max = NREGS -> zlen D + n <= HLL_REGISTERS -> 1 <= n ->
  let Lm := take (Z.to_nat n) (drop (length D) max) in let Lq := drop (length D + Z.to_nat n) max in
  let Lp := zip_with Z.max (take (length D) max) D in
  length Lp = length D /\ length Lm = Z.to_nat n /\ merged max D = Lp ++ Lm ++ Lq /\
  merged max (D ++ replicate (Z.to_nat n) v) = Lp ++ map (fun x => Z.max x v) Lm ++ Lq.
Proof.
  intros Hm Hle Hn Lm Lq Lp. assert (length (take (length D) max) = length D) as Ht by (rewrite length_take; nlia).
  assert (length Lm = Z.to_nat n) as HLm by (unfold Lm; rewrite length_take, length_drop; nlia).
  split_and!; [unfold Lp; rewrite length_zip_with; lia|done| |].
  - unfold merged, Lp, Lm, Lq. by rewrite <- drop_drop, take_drop.
  - unfold merged, Lp, Lq. rewrite length_app, length_replicate. rewrite <- take_take_drop. fold Lm. rewrite zip_with_app by done.
    rewrite <- app_assoc. do 2 f_equal. rewrite <- HLm. apply list_eq. intros i. rewrite lookup_zip_with. rewrite list_lookup_fmap.
    destruct (Lm !! i) as [x|] eqn:Hx; [|done]. cbn. rewrite lookup_replicate_2 by (by eapply lookup_lt_Some). done.
Qed.

Lemma merge_sparse max e : hdr !! 4%nat = Some e -> e <> 0 -> length max = NREGS -> bytes_ok max ->
  hllMerge max o = Some (if accepted regs then Some (zip_with Z.max max regs) else None).
Proof using Hst Hhdr Hbody.
  intros He Hne Hm Hok. unfold hllMerge, hdr_encoding. destruct (stores_buf _ _ Hst) as (rest & Hb & _).
  assert (rd (sds_buf o) 4 = Some e) as ->. { rewrite Hb, rd_lookup, <- app_assoc by lia. rewrite lookup_app_l by (unfold HLL_HDR_SIZE in Hhdr; lia). done. }
  mred. unfold HLL_DENSE. rewrite (proj2 (Z.eqb_neq e 0)) by done.
  destruct (value_loop (fun _ max => Some max) (fun n v i max => run_loop (fun i max => merge_register i v max) (Z.to_nat n) i max)
    (fun a D => raw_regs a (merged max D)) max) as (valid & idx & a & -> & Hacc & Ha).
  - intros a D n Ha Hn Hle. exists a. split; [done|]. destruct (merged_run max D n 0 Hm Hle Hn) as (_ & HLm & H1 & ->). rewrite H1 in Ha.
    assert (map (fun x => Z.max x 0) (take (Z.to_nat n) (drop (length D) max)) = take (Z.to_nat n) (drop (length D) max)) as ->; [|done].
    rewrite <- (list_fmap_id (take _ _)) at 2. apply list_fmap_ext. intros i x Hx. cbn.
    assert (byte_ok x) by (eapply Forall_lookup_1; [|exact Hx]; by apply Forall_take, Forall_drop). unfold byte_ok in *. lia.
  - intros a D n v Ha Hn Hv Hle. destruct (merged_run max D n v Hm Hle Hn) as (HLp & HLm & H1 & H2). rewrite H1 in Ha.
    set (Lp := zip_with _ _ _) in *. set (Lm := take (Z.to_nat n) _) in *. set (Lq := drop (length D + _) max) in *. clearbody Lp Lm Lq.
    destruct (run_loop_spec (fun i max => merge_register i v max) raw_regs (fun _ x => Z.max x v)) with (Lp := Lp) (Lm := Lm) (Lq := Lq) (a := a)
      as (a' & E & Ha'); [|done|].
    + intros a0 Lp0 x Lq0 [-> Hok0]. unfold merge_register. rewrite rd_app_r by done. cbn [head]. mred. rewrite Z.gtb_ltb.
      destruct (Z.ltb_spec x v).
      * rewrite Z.max_r by lia. apply raw_write; [by split|]. unfold byte_ok. lia.
      * rewrite Z.max_l by lia. by eexists.
    + rewrite HLm, HLp in E. exists a'. split; [done|]. rewrite imap_const in Ha'. by rewrite H2.
  - by split.
  - mred. rewrite Hacc, negb_if. destruct (accepted regs) eqn:E; [|done]. destruct (Ha eq_refl) as [-> _]. do 2 f_equal.
    unfold merged. apply Z.eqb_eq in E. assert (length regs = length max) as HL by nlia. rewrite HL, firstn_all, drop_all, app_nil_r. done.
Qed.
End Values.

(** ** Conversion *)

(** A string with the header [hdr] and packed registers. *)
Definition dense_value (o : sds) (hdr regs : list Z) : Prop :=
  exists body, stores o (hdr ++ body) /\ area (body ++ [0]) /\ regs_of (body ++ [0]) = regs.

Definition DBYTES : nat := Z.to_nat 12288.
Lemma DBYTES_eq : Z.of_nat DBYTES = 12288.
Proof. unfold DBYTES. lia. Qed.
#[global] Opaque DBYTES.

Lemma zero_regs : area (replicate (S DBYTES) 0) /\ regs_of (replicate (S DBYTES) 0) = replicate NREGS 0.
Proof.
  assert (Z.of_nat (S DBYTES) = 12289) as Hn by (pose proof DBYTES_eq; lia). split.
  - constructor; [|rewrite length_replicate; exact Hn|apply lookup_replicate_2; lia]. apply Forall_replicate. unfold byte_ok. lia.
  - apply list_eq. intros i. destruct (Nat.lt_ge_cases i NREGS) as [Hi|Hi].
    + rewrite regs_lookup, lookup_replicate_2 by exact Hi. f_equal. unfold reg.
      assert (forall n, le_val (replicate n 0) = 0) as -> by (induction n; cbn [replicate le_val]; lia). by rewrite Z.shiftr_0_l.
    + rewrite !lookup_ge_None_2; [reflexivity|rewrite length_replicate; exact Hi|rewrite regs_length; exact Hi].
Qed.

Lemma area_split l : area l -> exists body, l = body ++ [0] /\ zlen body = 12288.
Proof.
  intros [_ Hl Ht]. exists (take (Z.to_nat 12288) l). split; [|rewrite length_take; lia].
  rewrite <- (take_drop_middle l _ _ Ht) at 1. f_equal. f_equal. apply nil_length_inv. rewrite length_drop. lia.
Qed.

Lemma dense_of_buf s c rest d hdr l : stores s c -> sds_buf s = c ++ 0 :: rest -> d = hdr ++ l ++ rest -> area l ->
  length c = (length hdr + Z.to_nat 12288)%nat -> dense_value (set_buf s d) hdr (regs_of l).
Proof.
  intros Hst Hb -> Hl Hlen. destruct (area_split l Hl) as (body & -> & Hbody). exists body. split; [|done].
  replace (hdr ++ (body ++ [0]) ++ rest) with ((hdr ++ body) ++ 0 :: rest) by (by rewrite <- !app_assoc).
  apply (stores_set s c (hdr ++ body) rest rest Hst Hb); [rewrite length_app; lia|done].
Qed.

Section ToDense.
Context (usable : Z -> Z) (junk : nat -> Z).
Context (usable_ok : forall n, 0 <= n < 2 ^ 63 -> n <= usable n < 2 ^ 64).

Lemma to_dense_step hdr rest v : zlen hdr = HLL_HDR_SIZE -> 0 <= v < 64 -> forall a D n, 1 <= n ->
  at_area hdr rest a (D ++ replicate (NREGS - length D) 0) -> zlen D + n <= HLL_REGISTERS ->
  exists a', run_loop (fun i d => HLL_DENSE_SET_REGISTER d HLL_HDR_SIZE i v) (Z.to_nat n) (zlen D) a = Some a' /\
    at_area hdr rest a' ((D ++ replicate (Z.to_nat n) v) ++ replicate (NREGS - length (D ++ replicate (Z.to_nat n) v)) 0).
Proof.
  intros Hh Hv a D n Hn Ha Hle. rewrite length_app, length_replicate, <- app_assoc.
  assert (replicate (NREGS - length D) 0 = replicate (Z.to_nat n) 0 ++ replicate (NREGS - (length D + Z.to_nat n)) 0) as Hrep.
  { rewrite <- replicate_add. f_equal. nlia. }
  rewrite Hrep in Ha. destruct (run_loop_spec (fun i d => HLL_DENSE_SET_REGISTER d HLL_HDR_SIZE i v) (at_area hdr rest) (fun _ _ => v))
    with (Lp := D) (Lm := replicate (Z.to_nat n) 0) (Lq := replicate (NREGS - (length D + Z.to_nat n)) 0) (a := a) as (a' & E & Ha'); [|exact Ha|].
  - intros b Lp x Lq Hb. rewrite <- Hh. by apply (at_area_set hdr rest b Lp x Lq v).
  - rewrite length_replicate in E. rewrite (imap_const (fun _ => v)), const_run, length_replicate in Ha'. by exists a'.
Qed.

Lemma to_dense o hdr body e :
  stores o (hdr ++ body) -> zlen hdr = HLL_HDR_SIZE -> bytes_ok body -> hdr !! 4%nat = Some e -> e <> 0 ->
  let regs := expands (opcodes body) in
  exists r, hllSparseToDense usable junk o = Some r /\
    match r with Some o' => accepted regs = true /\ dense_value o' (<[4%nat := 0]> hdr) regs | None => accepted regs = false end.
Proof using usable_ok.
  intros Hst Hhdr Hbody He Hne regs. unfold hllSparseToDense, hdr_encoding. destruct (stores_buf _ _ Hst) as (rest & Hb & _).
  assert (zlen hdr = 16) as H16 by exact Hhdr.
  assert (rd (sds_buf o) 4 = Some e) as ->. { rewrite Hb, rd_lookup, <- app_assoc by lia. rewrite lookup_app_l by lia. done. }
  mred. assert ((e =? HLL_DENSE) = false) as -> by (apply Z.eqb_neq; exact Hne).
  destruct (newlen_null usable junk usable_ok HLL_DENSE_SIZE) as (s & -> & Hs); [by vm_compute|]. mred.
  assert (rdn (sds_buf o) 0 HLL_HDR_SIZE = Some hdr) as ->. { rewrite Hb, <- app_assoc. by apply rdn_0. }
  mred. destruct (stores_buf _ _ Hs) as (srest & Hsb & _).
  assert (Z.to_nat HLL_DENSE_SIZE = 16 + DBYTES)%nat as Hsz by (pose proof DBYTES_eq; change HLL_DENSE_SIZE with (16 + 12288); lia).
  assert (sds_buf s = replicate 16 0 ++ replicate DBYTES 0 ++ 0 :: srest) as Hsb' by (by rewrite Hsb, Hsz, replicate_add, <- app_assoc).
  rewrite Hsb'. rewrite wrn_0 by (rewrite length_replicate; lia). mred.
  pose proof (wr_area [] hdr (replicate DBYTES 0 ++ 0 :: srest) 4 HLL_DENSE ltac:(lia)) as Hwr. cbn [app length] in Hwr. rewrite Z.add_0_l in Hwr.
  rewrite Hwr. mred. change (uwrap 8 HLL_DENSE) with 0. change (Z.to_nat 4) with 4%nat. set (hdr' := <[4%nat := 0]> hdr).
  assert (zlen hdr' = HLL_HDR_SIZE) as Hhdr' by (unfold hdr'; by rewrite length_insert).
  destruct zero_regs as [Hza Hzr].
  destruct (value_loop o hdr body Hst Hhdr Hbody (fun _ d => Some d)
    (fun n v i d => run_loop (fun i d => HLL_DENSE_SET_REGISTER d HLL_HDR_SIZE i v) (Z.to_nat n) i d)
    (fun a D => at_area hdr' srest a (D ++ replicate (NREGS - length D) 0)) (hdr' ++ replicate DBYTES 0 ++ 0 :: srest))
    as (valid & idx & a & -> & Hacc & Ha).
  - intros a D n Ha Hn Hle. exists a. split; [done|]. rewrite length_app, length_replicate, <- app_assoc, <- replicate_add.
    replace (Z.to_nat n + (NREGS - (length D + Z.to_nat n)))%nat with (NREGS - length D)%nat by nlia. done.
  - intros a D n v Ha Hn Hv Hle. apply (to_dense_step hdr' srest v Hhdr' ltac:(lia) a D n Hn Ha Hle).
  - cbn [length app]. rewrite Nat.sub_0_r. exists (replicate (S DBYTES) 0). split; [|split; [exact Hza|exact Hzr]].
    pose proof (replicate_S_end DBYTES 0) as Hrs. clear -Hrs. revert Hrs. generalize (replicate (S DBYTES) 0) (replicate DBYTES 0).
    intros L1 L2 ->. by rewrite <- !app_assoc.
  - mred. fold regs in Hacc, Ha. rewrite Hacc, negb_if. eexists. split; [reflexivity|]. destruct (accepted regs) eqn:E; [|reflexivity]. specialize (Ha eq_refl).
    split; [reflexivity|]. apply Z.eqb_eq in E. replace (NREGS - length regs)%nat with O in Ha by nlia. cbn [replicate] in Ha. rewrite app_nil_r in Ha.
    destruct Ha as (l & -> & Hl & Hr). rewrite <- Hr.
    apply (dense_of_buf s _ srest _ hdr' l Hs Hsb); [reflexivity|exact Hl|]. rewrite length_replicate, Hsz. unfold hdr'. rewrite length_insert. pose proof DBYTES_eq. lia.
Qed.
End ToDense.
End HllSparse.
