(* ===== verification/HllSet.v ===== *)
(** * Adding elements to HyperLogLog values

    Setting a register of a sparse value: the opcode that has the register is
    found, split and merged with its neighbours, or the value is converted.
    The values as registers, whatever their encoding; creation and merging. *)

From S2P Require Import Prelude Sds Hll HllDense HllSparse.

Module HllSet.
Import Sds Hll HllDense HllSparse.

(** ** Sequences of opcodes *)

Lemma enc_bytes o : op_ok o -> bytes_ok (enc o) /\ 1 <= zlen (enc o) <= 2 /\ zlen (enc o) <= 2 * span o.
Proof. destruct o; cbn [op_ok enc length span]; intros Ho; (split; [repeat constructor; unfold byte_ok; dlia|lia]). Qed.

Lemma encs_bytes ops : Forall op_ok ops -> bytes_ok (encs ops).
Proof. induction 1 as [|o ops Ho _ IH]; [constructor|]. rewrite encs_cons. apply Forall_app. split; [by apply enc_bytes|done]. Qed.

Lemma encs_length ops : Forall op_ok ops -> zlen ops <= zlen (encs ops) <= 2 * zlen (expands ops).
Proof.
  induction 1 as [|o ops Ho _ IH]; [done|]. rewrite encs_cons, expands_cons, !length_app. pose proof (expand_length o Ho).
  pose proof (enc_bytes o Ho). cbn [length]. lia.
Qed.

Lemma opcodes_encs ops : Forall op_ok ops -> opcodes (encs ops) = ops.
Proof.
  induction 1 as [|o ops Ho _ IH]; [done|]. rewrite encs_cons. destruct o as [n|n|v n]; cbn [enc app opcodes op_ok] in *.
  - destruct (zero_facts n Ho) as (-> & _ & _ & -> & _). by rewrite IH.
  - destruct (xzero_facts n Ho) as (-> & -> & _ & -> & _). by rewrite IH.
  - destruct (val_facts v n) as (-> & -> & _ & -> & -> & _); [lia..|]. by rewrite IH.
Qed.

(** The opcode of a register. *)
Lemma locate ops : forall index, Forall op_ok ops -> 0 <= index < zlen (expands ops) ->
  exists A o B, ops = A ++ o :: B /\ zlen (expands A) <= index < zlen (expands A) + span o.
Proof.
  induction ops as [|o ops IH]; intros index Hok Hi; [cbn in Hi; lia|]. apply Forall_cons in Hok as [Ho Hok].
  rewrite expands_cons, length_app, Nat2Z.inj_add, expand_length in Hi by done. destruct (Z.lt_ge_cases index (span o)) as [Hlt|Hge].
  - exists [], o, ops. split; [done|]. cbn. lia.
  - destruct (IH (index - span o) Hok ltac:(lia)) as (A & o' & B & -> & HA). exists (o :: A), o', B. split; [done|].
    rewrite expands_cons, length_app, Nat2Z.inj_add, expand_length by done. lia.
Qed.

(** The registers when an opcode is replaced. *)
Lemma replaced A o B N index count : zlen (expands A) <= index < zlen (expands A) + span o -> op_ok o ->
  expands N = <[Z.to_nat (index - zlen (expands A)) := count]> (expand o) ->
  expands (A ++ N ++ B) = <[Z.to_nat index := count]> (expands (A ++ o :: B)).
Proof.
  intros Hi Ho HN. rewrite !expands_app, expands_cons, HN.
  replace (Z.to_nat index) with (length (expands A) + Z.to_nat (index - zlen (expands A)))%nat by lia.
  rewrite insert_app_r. f_equal. rewrite insert_app_l; [done|]. pose proof (expand_length o Ho). lia.
Qed.

Lemma found A o B index : zlen (expands A) <= index < zlen (expands A) + span o -> op_ok o ->
  expands (A ++ o :: B) !! Z.to_nat index = Some (value o).
Proof.
  intros Hi Ho. rewrite expands_app, expands_cons. rewrite lookup_app_r by lia. pose proof (expand_length o Ho) as Hl.
  rewrite lookup_app_l by lia. unfold expand in *. apply lookup_replicate_2. rewrite length_replicate in Hl. lia.
Qed.

(** ** Step 1 *)

(** How the code reads the opcode at [p]. *)
Lemma read_op o : op_ok o -> forall pre post, exists x, rd (pre ++ enc o ++ post) (zlen pre) = Some x /\
  (if HLL_SPARSE_IS_ZERO x then Some (HLL_SPARSE_ZERO_LEN x, 1)
   else if HLL_SPARSE_IS_VAL x then Some (HLL_SPARSE_VAL_LEN x, 1)
   else y ← rd (pre ++ enc o ++ post) (zlen pre + 1); Some (HLL_SPARSE_XZERO_LEN x y, 2)) = Some (span o, zlen (enc o)).
Proof.
  intros Ho pre post. destruct o as [n|n|v n]; cbn [op_ok enc app] in *; (rewrite rd_app_r by done); eexists; (split; [reflexivity|]).
  - by destruct (zero_facts n Ho) as (-> & _ & _ & -> & _).
  - set (x := 64 + _). set (y := (n - 1) mod 256).
    assert (rd (pre ++ x :: y :: post) (zlen pre + 1) = Some y) as ->.
    { change (x :: y :: post) with ([x] ++ y :: post). rewrite app_assoc. apply rd_app_r. rewrite length_app. cbn [length]. lia. }
    unfold x, y. destruct (xzero_facts n Ho) as (-> & _ & -> & E & _). mred. by rewrite E.
  - by destruct (val_facts v n) as (-> & _ & -> & _ & -> & _); [lia..|].
Qed.

(** [prev] is the offset of an opcode before those that follow [A]. *)
Definition boundary (A : list op) (prev : option Z) : Prop :=
  exists A1 A2, A = A1 ++ A2 /\ default HLL_HDR_SIZE prev = HLL_HDR_SIZE + zlen (encs A1).

Lemma find_opcode_spec hdr rest o B index : zlen hdr = HLL_HDR_SIZE -> op_ok o -> forall A fuel A0 prev sp,
  Forall op_ok A -> (length A < fuel)%nat -> boundary A0 prev ->
  zlen (expands (A0 ++ A)) <= index < zlen (expands (A0 ++ A)) + span o ->
  exists prev', find_opcode fuel (hdr ++ encs (A0 ++ A ++ o :: B) ++ rest) index (HLL_HDR_SIZE + zlen (encs (A0 ++ A ++ o :: B)))
      (HLL_HDR_SIZE + zlen (encs A0)) (zlen (expands A0)) prev sp =
    Some (HLL_HDR_SIZE + zlen (encs (A0 ++ A)), zlen (expands (A0 ++ A)), prev', span o) /\ boundary (A0 ++ A) prev'.
Proof.
  intros Hh Ho A. induction A as [|a A IH]; intros fuel A0 prev sp HA Hf Hprev Hi; (destruct fuel as [|fuel]; [cbn in Hf; lia|]); cbn [find_opcode].
  - rewrite app_nil_r in *. cbn [app]. pose proof (enc_bytes o Ho) as (_ & Hl & _). rewrite encs_app, encs_cons, !length_app.
    rewrite (proj2 (Z.ltb_lt _ _)) by lia. destruct (read_op o Ho (hdr ++ encs A0) (encs B ++ rest)) as (x & Hx & Hr).
    rewrite length_app, Nat2Z.inj_add, Hh in Hx, Hr. rewrite <- !app_assoc in *. rewrite Hx. mred. rewrite Hr. mred.
    rewrite (proj2 (Z.leb_le _ _)) by lia. by exists prev.
  - apply Forall_cons in HA as [Ha HA]. pose proof (enc_bytes a Ha) as (_ & Hl & _). cbn [app]. rewrite encs_app, encs_cons, !length_app.
    rewrite (proj2 (Z.ltb_lt _ _)) by lia. destruct (read_op a Ha (hdr ++ encs A0) (encs (A ++ o :: B) ++ rest)) as (x & Hx & Hr).
    rewrite length_app, Nat2Z.inj_add, Hh in Hx, Hr. rewrite <- !app_assoc in *. rewrite Hx. mred. rewrite Hr. mred.
    assert (expands (A0 ++ a :: A) = expands (A0 ++ [a]) ++ expands A) as He by (rewrite !expands_app, expands_cons, app_assoc; cbn; by rewrite app_nil_r).
    assert (zlen (expands (A0 ++ [a])) = zlen (expands A0) + span a) as He1.
    { rewrite expands_app, length_app, Nat2Z.inj_add. cbn. by rewrite app_nil_r, expand_length. }
    assert (zlen (encs (A0 ++ [a])) = zlen (encs A0) + zlen (enc a)) as He2 by (rewrite encs_app, length_app; cbn; rewrite app_nil_r; lia).
    rewrite He, length_app in Hi. rewrite (proj2 (Z.leb_gt _ _)) by lia. cbn [length] in Hf.
    destruct (IH fuel (A0 ++ [a]) (Some (HLL_HDR_SIZE + zlen (encs A0))) (span a) HA ltac:(lia)) as (prev' & E & Hp).
    + by exists A0, [a].
    + rewrite <- app_assoc. cbn [app]. rewrite He, length_app. lia.
    + assert (forall X, (A0 ++ [a]) ++ X = A0 ++ a :: X) as Hs by (intros X; by rewrite <- app_assoc). rewrite (Hs A), (Hs (A ++ o :: B)) in E. rewrite (Hs A) in Hp.
      exists prev'. split; [|exact Hp]. rewrite <- E, He1, He2.
      rewrite (encs_app A0 (a :: A ++ o :: B)), encs_cons, <- !app_assoc, !length_app. f_equal; lia.
Qed.

(** ** Step 4 *)

(** A string that has the header and the opcodes. *)
Definition opcode_value (o : sds) (hdr : list Z) (ops : list op) : Prop :=
  stores o (hdr ++ encs ops) /\ Forall op_ok ops.

(** Two adjacent bytes become one. *)
Lemma join_bytes o u x y z w : stores o (u ++ [x; y] ++ w) ->
  exists b b' o', wrn (sds_buf o) (zlen u + 1) [z] = Some b /\ memmove b (zlen u) (zlen u + 1) (zlen w + 2) = Some b' /\
    sdsIncrLen (set_buf o b') (-1) = Some o' /\ stores o' (u ++ [z] ++ w) /\ sds_len o' = sds_len o - 1.
Proof.
  intros Hst. pose proof Hst as [Hwf _]. destruct (stores_buf _ _ Hst) as (rest & Hb & Hl).
  exists (u ++ [x; z] ++ w ++ 0 :: rest), (u ++ [z] ++ w ++ 0 :: 0 :: rest).
  destruct (incr_len o (u ++ [z] ++ w ++ 0 :: 0 :: rest) (-1) Hwf) as (o' & E & Hst' & _).
  - rewrite Hb, !length_app. cbn [length]. rewrite ?length_app. cbn [length]. lia.
  - rewrite <- Hl, !length_app. cbn [length]. destruct Hwf as [_ H1 _ _ _]. rewrite <- Hl, !length_app in H1. cbn [length] in H1. lia.
  - lia.
  - lia.
  - exists o'. assert (take (Z.to_nat (sds_len o + -1)) (u ++ [z] ++ w ++ 0 :: 0 :: rest) = u ++ [z] ++ w) as Ht.
    { replace (u ++ [z] ++ w ++ 0 :: 0 :: rest) with ((u ++ [z] ++ w) ++ 0 :: 0 :: rest) by (by rewrite <- !app_assoc).
      apply take_app_length'. rewrite <- Hl, !length_app. cbn [length]. lia. }
    rewrite Ht in Hst'. split_and!; [| |exact E|exact Hst'|].
    + rewrite Hb. replace ((u ++ [x; y] ++ w) ++ 0 :: rest) with ((u ++ [x]) ++ [y] ++ w ++ 0 :: rest) by (by rewrite <- !app_assoc).
      rewrite wrn_app; [by rewrite <- !app_assoc|rewrite length_app; cbn [length]; lia|done].
    + unfold memmove. replace (u ++ [x; z] ++ w ++ 0 :: rest) with ((u ++ [x]) ++ ([z] ++ w ++ [0]) ++ rest) by (by rewrite <- !app_assoc).
      rewrite rdn_app by (rewrite !length_app; cbn [length]; rewrite ?length_app; cbn [length]; lia). mred.
      replace ((u ++ [x]) ++ ([z] ++ w ++ [0]) ++ rest) with (u ++ ([x] ++ [z] ++ w) ++ 0 :: rest) by (by rewrite <- !app_assoc).
      rewrite wrn_app; [|done|rewrite !length_app; cbn [length]; rewrite ?length_app; cbn [length]; lia]. rewrite <- !app_assoc. done.
    + destruct (stores_buf _ _ Hst') as (_ & _ & Hl'). rewrite <- Hl', <- Hl, !length_app. cbn [length]. lia.
Qed.

Lemma expand_merge v n n' : 1 <= n -> 1 <= n' -> expand (VAL v (n + n')) = expand (VAL v n) ++ expand (VAL v n').
Proof. intros. unfold expand. cbn [span value]. rewrite <- replicate_add. f_equal. lia. Qed.

(** The reading of the byte at an opcode. *)
Lemma op_byte o hdr P q Q : opcode_value o hdr (P ++ q :: Q) ->
  exists x, head (enc q) = Some x /\ rd (sds_buf o) (zlen hdr + zlen (encs P)) = Some x.
Proof.
  intros [Hst Hok]. destruct (stores_buf _ _ Hst) as (rest & -> & _). apply Forall_app in Hok as [_ Hok]. apply Forall_cons in Hok as [Hq _].
  rewrite encs_app, encs_cons. replace ((hdr ++ encs P ++ enc q ++ encs Q) ++ 0 :: rest) with ((hdr ++ encs P) ++ enc q ++ encs Q ++ 0 :: rest) by (by rewrite <- !app_assoc).
  rewrite rd_app_r by (rewrite length_app; lia). destruct q; cbn [enc app head]; by eexists.
Qed.

Lemma op_kind q : op_ok q -> forall x, head (enc q) = Some x ->
  HLL_SPARSE_IS_ZERO x = match q with ZERO _ => true | _ => false end /\
  HLL_SPARSE_IS_XZERO x = match q with XZERO _ => true | _ => false end /\
  HLL_SPARSE_IS_VAL x = match q with VAL _ _ => true | _ => false end /\
  match q with ZERO n => HLL_SPARSE_ZERO_LEN x = n | VAL v n => HLL_SPARSE_VAL_VALUE x = v /\ HLL_SPARSE_VAL_LEN x = n | XZERO _ => True end.
Proof.
  intros Hq x. destruct q as [n|n|v n]; cbn [enc head op_ok] in *; intros [= <-].
  - by destruct (zero_facts n Hq) as (? & ? & ? & ? & _).
  - by destruct (xzero_facts n Hq) as (? & ? & ? & _).
  - by destruct (val_facts v n) as (? & ? & ? & ? & ? & _); [lia..|].
Qed.

Lemma merge_spec hdr n : forall o P Q, opcode_value o hdr (P ++ Q) ->
  exists o' ops', merge_values n o (zlen hdr + zlen (encs P)) (sds_len o) = Some o' /\ opcode_value o' hdr ops' /\
    expands ops' = expands (P ++ Q).
Proof.
  induction n as [|n IH]; intros o P Q Hv; cbn [merge_values]; [by exists o, (P ++ Q)|].
  pose proof Hv as [Hst Hok]. destruct (stores_buf _ _ Hst) as (rest & Hb & Hl).
  destruct Q as [|q Q].
  { rewrite app_nil_r in *. rewrite (proj2 (Z.ltb_ge _ _)) by (rewrite <- Hl, length_app; lia). by exists o, P. }
  pose proof Hok as Hok'. apply Forall_app in Hok' as [HP HQ]. apply Forall_cons in HQ as [Hq HQ]. pose proof (enc_bytes q Hq) as (_ & Hlq & _).
  assert (zlen hdr + zlen (encs P) + zlen (enc q) + zlen (encs Q) = sds_len o) as Hend by (rewrite <- Hl, encs_app, encs_cons, !length_app; lia).
  rewrite (proj2 (Z.ltb_lt _ _)) by lia. destruct (op_byte o hdr P q Q Hv) as (x & Hx & ->). mred.
  destruct (op_kind q Hq x Hx) as (-> & -> & Hxv & Hlen).
  assert (exists o' ops', merge_values n o (zlen hdr + zlen (encs P) + zlen (enc q)) (sds_len o) = Some o' /\ opcode_value o' hdr ops' /\
    expands ops' = expands (P ++ q :: Q)) as Hnext.
  { assert ((P ++ [q]) ++ Q = P ++ q :: Q) as Hpq by (by rewrite <- app_assoc). specialize (IH o (P ++ [q]) Q). rewrite Hpq in IH.
    assert (zlen (encs (P ++ [q])) = zlen (encs P) + zlen (enc q)) as Hz by (rewrite encs_app, length_app; cbn; rewrite app_nil_r; lia).
    rewrite Hz, Z.add_assoc in IH. by apply IH. }
  destruct q as [m|m|v m]; [exact Hnext|exact Hnext|]. change (zlen (enc (VAL v m))) with 1 in *. destruct Hlen as [-> ->].
  destruct Q as [|q' Q].
  { change (zlen (encs [])) with 0 in Hend. rewrite (proj2 (Z.ltb_ge _ _)) by lia. exact Hnext. }
  apply Forall_cons in HQ as [Hq' HQ]. rewrite encs_cons, length_app in Hend. pose proof (enc_bytes q' Hq') as (_ & Hlq' & _).
  rewrite (proj2 (Z.ltb_lt _ _)) by lia.
  assert (exists y, head (enc q') = Some y /\ rd (sds_buf o) (zlen hdr + zlen (encs P) + 1) = Some y) as (y & Hy & ->).
  { assert ((P ++ [VAL v m]) ++ q' :: Q = P ++ VAL v m :: q' :: Q) as Hpq by (by rewrite <- app_assoc). rewrite <- Hpq in Hv.
    destruct (op_byte o hdr _ q' Q Hv) as (y & Hy & E). exists y. split; [done|]. rewrite <- E. f_equal. rewrite encs_app, length_app. cbn [length encs concat map enc app]. lia. }
  mred. destruct (op_kind q' Hq' y Hy) as (_ & _ & -> & Hlen'). destruct q' as [m'|m'|v' m']; [exact Hnext|exact Hnext|]. destruct Hlen' as [-> ->].
  destruct (Z.eqb_spec v v') as [<-|_]; [|exact Hnext]. cbn [andb]. unfold HLL_SPARSE_VAL_MAX_LEN.
  destruct (Z.leb_spec (m + m') 4) as [Hm|_]; [|exact Hnext]. cbn [op_ok] in *. destruct (val_facts v (m + m')) as (_ & _ & _ & _ & _ & ->); [lia..|].
  rewrite encs_app, !encs_cons in Hst. cbn [enc app] in Hst. rewrite app_assoc in Hst.
  match type of Hst with stores _ (_ ++ ?a :: ?c :: _) => destruct (join_bytes o (hdr ++ encs P) a c (128 + 4 * (v - 1) + (m + m' - 1)) (encs Q) Hst) as (b & b' & o' & E1 & E2 & E3 & Hst' & Hl') end.
  rewrite length_app, Nat2Z.inj_add in E1, E2. rewrite E1. mred. change (zlen (enc (VAL v m'))) with 1 in Hend. change (length (enc (VAL v m'))) with 1%nat in Hend.
  replace (sds_len o - (zlen hdr + zlen (encs P))) with (zlen (encs Q) + 2) by lia. rewrite E2. mred. rewrite E3. mred.
  destruct (IH o' P (VAL v (m + m') :: Q)) as (o2 & ops2 & E & Hv2 & He).
  - split; [|apply Forall_app; split; [done|constructor; [cbn; lia|done]]]. rewrite encs_app, encs_cons. rewrite <- app_assoc in Hst'. exact Hst'.
  - exists o2, ops2. rewrite Hl' in E. split_and!; [exact E|exact Hv2|]. rewrite He, !expands_app, !expands_cons, expand_merge by lia. by rewrite <- app_assoc.
Qed.

(** ** Values *)

Record header (hdr : list Z) (e : Z) : Prop := {
  header_len : zlen hdr = HLL_HDR_SIZE;
  header_bytes : bytes_ok hdr;
  header_magic : take 4 hdr = str "HYLL";
  header_encoding : hdr !! 4%nat = Some e }.

(** The string holds the registers, in one of the encodings. *)
Definition hllrep (o : sds) (regs : list Z) : Prop :=
  (exists hdr, header hdr HLL_DENSE /\ dense_value o hdr regs) \/
  (exists hdr ops, header hdr HLL_SPARSE /\ opcode_value o hdr ops /\ expands ops = regs /\ zlen regs = HLL_REGISTERS).

Lemma header_insert hdr e i x : header hdr e -> (4 < i)%nat -> byte_ok x -> header (<[i := x]> hdr) e.
Proof.
  intros [Hl Hb Hm He] Hi Hx. constructor.
  - by rewrite length_insert.
  - by apply Forall_insert.
  - rewrite take_insert_ge by lia. done.
  - rewrite list_lookup_insert_ne by lia. done.
Qed.

Lemma header_dense hdr e : header hdr e -> header (<[4%nat := 0]> hdr) HLL_DENSE.
Proof.
  intros [Hl Hb Hm He]. constructor.
  - by rewrite length_insert.
  - apply Forall_insert; [done|]. unfold byte_ok. lia.
  - rewrite take_insert_ge by lia. done.
  - apply list_lookup_insert_eq. unfold HLL_HDR_SIZE in Hl. lia.
Qed.

Lemma encoding_read o hdr body e : header hdr e -> stores o (hdr ++ body) -> hdr_encoding (sds_buf o) = Some e.
Proof.
  intros [Hl _ _ He] Hst. destruct (stores_buf _ _ Hst) as (rest & Hb & _). unfold hdr_encoding. unfold HLL_HDR_SIZE in Hl.
  rewrite Hb, rd_lookup, <- app_assoc by lia. rewrite lookup_app_l by lia. done.
Qed.

(** The cached cardinality is marked as stale. *)
Lemma invalidate o hdr body e : header hdr e -> stores o (hdr ++ body) ->
  exists b hdr', HLL_INVALIDATE_CACHE (sds_buf o) = Some b /\ header hdr' e /\ stores (set_buf o b) (hdr' ++ body) /\ HLL_VALID_CACHE b = Some false.
Proof.
  intros Hh Hst. pose proof Hh as [Hl Hb _ _]. unfold HLL_HDR_SIZE in Hl. destruct (stores_buf _ _ Hst) as (rest & Hbuf & _).
  destruct (lookup_lt_is_Some_2 hdr 15) as [x Hx]; [lia|].
  assert (byte_ok x) as Hbx by (eapply Forall_lookup_1; [exact Hb|exact Hx]).
  assert (byte_ok (Z.lor x 128) /\ (Z.land (Z.lor x 128) 128 =? 0) = false) as [Hlor Hland].
  { pose proof (byte_forall (fun x => (0 <=? Z.lor x 128) && (Z.lor x 128 <? 256) && negb (Z.land (Z.lor x 128) 128 =? 0))) as H.
    specialize (H ltac:(by vm_compute) x Hbx). cbn beta in H. unfold byte_ok. rewrite !andb_true_iff, negb_true_iff in H. split; [lia|apply H]. }
  assert (rd (sds_buf o) 15 = Some x) as Hrd by (rewrite Hbuf, rd_lookup, <- app_assoc, lookup_app_l by lia; exact Hx).
  exists ((<[15%nat := Z.lor x 128]> hdr ++ body) ++ 0 :: rest), (<[15%nat := Z.lor x 128]> hdr).
  split_and!.
  - unfold HLL_INVALIDATE_CACHE. rewrite Hrd. mred. rewrite Hbuf. pose proof (wr_area [] hdr (body ++ 0 :: rest) 15 (Z.lor x 128) ltac:(lia)) as Hw.
    cbn [app length] in Hw. rewrite Z.add_0_l in Hw. rewrite uwrap_id in Hw by (unfold byte_ok, in_u in *; lia). rewrite <- !app_assoc. exact Hw.
  - apply header_insert; [done|lia|done].
  - apply (stores_set o _ _ rest rest Hst Hbuf); [by rewrite !length_app, length_insert|done].
  - unfold HLL_VALID_CACHE. rewrite <- app_assoc, rd_lookup by lia. rewrite lookup_app_l by (rewrite length_insert; lia).
    change (Z.to_nat 15) with 15%nat. rewrite list_lookup_insert_eq by lia. mred. by rewrite Hland.
Qed.

Lemma updated_spec o hdr A N e prev : header hdr e -> opcode_value o hdr (A ++ N) -> boundary A prev ->
  exists o' hdr' ops', sparse_updated o prev (sds_len o) = Some (o', 1) /\ header hdr' e /\ opcode_value o' hdr' ops' /\
    expands ops' = expands (A ++ N).
Proof.
  intros Hh Hv (A1 & A2 & -> & Hp). unfold sparse_updated. rewrite Hp, <- (header_len _ _ Hh). rewrite <- app_assoc in *.
  destruct (merge_spec hdr 5 o A1 (A2 ++ N) Hv) as (o' & ops' & -> & [Hst Hok] & He). mred.
  destruct (invalidate o' hdr (encs ops') e Hh Hst) as (b & hdr' & -> & Hh' & Hst' & _). mred. by exists (set_buf o' b), hdr', ops'.
Qed.

Lemma dense_set_value o hdr regs i count old : dense_value o hdr regs -> zlen hdr = HLL_HDR_SIZE -> 0 <= i < HLL_REGISTERS ->
  0 <= count < 64 -> regs !! Z.to_nat i = Some old ->
  exists b, hllDenseSet (sds_buf o) HLL_HDR_SIZE i count = Some (b, Z.b2z (old <? count)) /\
    dense_value (set_buf o b) hdr (<[Z.to_nat i := Z.max old count]> regs).
Proof.
  intros (body & Hst & Ha & <-) Hh Hi Hc Hold. destruct (stores_buf _ _ Hst) as (rest & Hb & _).
  assert (sds_buf o = hdr ++ (body ++ [0]) ++ rest) as -> by (rewrite Hb, <- !app_assoc; reflexivity).
  rewrite <- Hh. destruct (dense_set_spec hdr (body ++ [0]) rest i count old Ha Hi Hc Hold) as (l' & -> & Hl' & Hr).
  eexists. split; [reflexivity|]. rewrite <- Hr. apply (dense_of_buf o _ rest _ hdr l' Hst Hb); [reflexivity|exact Hl'|].
  destruct Ha as [_ Hal _]. rewrite length_app in *. cbn [length] in Hal. lia.
Qed.

(** ** Step 2: the sequence that replaces an opcode *)

Definition zero_op (n : Z) : op := if n >? 64 then XZERO n else ZERO n.

Lemma zero_op_spec n : 1 <= n <= 16384 -> op_ok (zero_op n) /\ enc (zero_op n) = zeroes n /\ expand (zero_op n) = replicate (Z.to_nat n) 0 /\
  zlen (enc (zero_op n)) <= 2.
Proof.
  intros Hn. unfold zero_op, zeroes, HLL_SPARSE_ZERO_MAX_LEN. rewrite Z.gtb_ltb. destruct (Z.ltb_spec 64 n).
  - destruct (xzero_facts n Hn) as (_ & _ & _ & _ & ->). done.
  - destruct (zero_facts n) as (_ & _ & _ & _ & ->); [lia|]. split_and!; try done. cbn. lia.
Qed.

(** [d] registers before the one that is set and [k] after it. *)
Lemma split_run (v : Z) (d k : nat) (count : Z) : replicate d v ++ count :: replicate k v = <[d := count]> (replicate (d + S k) v).
Proof.
  rewrite replicate_add. cbn [replicate]. rewrite insert_app_r_alt by (rewrite length_replicate; lia).
  rewrite length_replicate, Nat.sub_diag. done.
Qed.

(** A sequence built as the code does, from opcodes for the two sides. *)
Definition around (side : Z -> op) (index first last count : Z) : list op :=
  (if index =? first then [] else [side (index - first)]) ++ [VAL count 1] ++ (if index =? last then [] else [side (last - index)]).

Lemma around_expands side v index first last count : first <= index <= last ->
  (forall n, 1 <= n -> expand (side n) = replicate (Z.to_nat n) v) ->
  expands (around side index first last count) = <[Z.to_nat (index - first) := count]> (replicate (Z.to_nat (last - first + 1)) v).
Proof.
  intros Hi Hs. replace (Z.to_nat (last - first + 1)) with (Z.to_nat (index - first) + S (Z.to_nat (last - index)))%nat by lia.
  rewrite <- split_run. unfold around. rewrite !expands_app. change (expands [VAL count 1]) with [count].
  assert (forall n, 0 <= n -> forall a b, b - a = n -> expands (if b =? a then [] else [side n]) = replicate (Z.to_nat n) v) as Hside.
  { intros n Hn a b Hab. destruct (Z.eqb_spec b a); [replace n with 0 by lia; done|]. cbn. rewrite app_nil_r. apply Hs. lia. }
  rewrite (Hside (index - first)) by lia. rewrite (Z.eqb_sym index last), (Hside (last - index)) by lia. done.
Qed.

Lemma around_ok side index first last count : first <= index <= last -> 1 <= count <= 32 ->
  (forall n, 1 <= n <= last - first -> op_ok (side n)) -> Forall op_ok (around side index first last count).
Proof.
  intros Hi Hc Hs. unfold around. repeat apply Forall_app_2; [destruct (Z.eqb_spec index first)| |destruct (Z.eqb_spec index last)];
    repeat constructor; try apply Hs; lia.
Qed.

Lemma around_encs side set index first last count : first <= index <= last -> 1 <= count <= 32 ->
  (forall n, 1 <= n <= last - first -> enc (side n) = set n) ->
  (if index =? first then [] else set (index - first)) ++ HLL_SPARSE_VAL_SET count 1 ++ (if index =? last then [] else set (last - index)) =
  encs (around side index first last count).
Proof.
  intros Hi Hc Hs. unfold around. rewrite !encs_app. destruct (val_facts count 1) as (_ & _ & _ & _ & _ & ->); [lia..|].
  f_equal; [|f_equal]; [destruct (Z.eqb_spec index first)|destruct (Z.eqb_spec index last)]; try done; cbn; rewrite app_nil_r, Hs by lia; done.
Qed.

(** ** Setting a register of a sparse value *)

Section Set_.
Context (usable : Z -> Z) (junk : nat -> Z) (je_nallocx : option (Z -> Z)) (hll_sparse_max_bytes : Z).
Context (usable_ok : forall n, 0 <= n < 2 ^ 63 -> n <= usable n < 2 ^ 64).
Context (nallocx_ok : forall f n, je_nallocx = Some f -> 0 <= n < 2 ^ 63 -> n <= f n).
Context (max_ok : 32 <= hll_sparse_max_bytes < 2 ^ 61).

(** Room for a new sequence, or none needed below the limit. *)
Definition roomy (o : sds) : Prop :=
  sds_type o <> SDS_TYPE_5 /\ (hll_sparse_max_bytes <= sdsalloc o \/ sds_len o + 3 <= sdsalloc o).

Lemma sparse_grow_spec o c : stores o c -> zlen c < 2 ^ 31 ->
  exists o', sparse_grow usable junk je_nallocx hll_sparse_max_bytes o = Some o' /\ stores o' c /\ roomy o'.
Proof using usable_ok nallocx_ok max_ok.
  intros [Hwf Hc] Hlen. pose proof (content_length o Hwf) as Hl. rewrite Hc in Hl. pose proof Hwf as [Ht Hle Hm _ _].
  assert (sdsavail o = sdsalloc o - sds_len o) as Hav by (unfold sdsavail, sdsalloc; destruct (sds_type o =? SDS_TYPE_5); lia).
  unfold sparse_grow, roomy, sdslen. rewrite Hav.
  assert (sds_type o = SDS_TYPE_5 -> sdsalloc o = sds_len o /\ sds_len o < 32) as H5.
  { intros E. unfold sdsalloc in *. rewrite E in *. change (sdsTypeMaxSize SDS_TYPE_5) with 31 in Hm. change (SDS_TYPE_5 =? SDS_TYPE_5) with true in *. lia. }
  destruct (Z.ltb_spec (sdsalloc o) hll_sparse_max_bytes) as [Hmax|Hmax]; cbn [andb].
  - destruct (Z.ltb_spec (sdsalloc o - sds_len o) 3) as [Hav3|Hav3].
    + set (n := if _ >? _ then _ else _).
      assert (sdsalloc o < n /\ n <= hll_sparse_max_bytes /\ (n = hll_sparse_max_bytes \/ sds_len o + 3 <= n) /\ sds_len o <= n) as (Hn1 & Hn2 & Hn3 & Hn4).
      { unfold n. zbool; lia. }
      destruct (sdsResize_correct usable junk je_nallocx usable_ok nallocx_ok o n true Hwf) as (o' & E & Hwf' & Hc'); [lia..|].
      destruct (resize_room usable junk je_nallocx usable_ok nallocx_ok o n o' Hwf) as [Ht' Hr]; [lia|lia|exact E|].
      rewrite E. exists o'. rewrite take_ge in Hc' by (rewrite Hc; lia). rewrite Hc in Hc'. pose proof (content_length o' Hwf') as Hl'. rewrite Hc' in Hl'.
      split_and!; [done|by split|done|lia].
    + exists o. split_and!; [done|by split| |lia]. intros E. destruct (H5 E). lia.
  - exists o. split_and!; [done|by split| |by left]. intros E. destruct (H5 E). lia.
Qed.

Lemma promote_spec o hdr ops index count old : header hdr HLL_SPARSE -> opcode_value o hdr ops -> zlen (expands ops) = HLL_REGISTERS ->
  0 <= index < HLL_REGISTERS -> expands ops !! Z.to_nat index = Some old -> old < count < 64 -> 0 <= count ->
  exists o', sparse_promote usable junk o index count = Some (o', 1) /\ hllrep o' (<[Z.to_nat index := count]> (expands ops)).
Proof using usable_ok.
  intros Hh [Hst Hok] Hlen Hi Hold Hc H0. pose proof Hh as [Hl _ _ He]. unfold sparse_promote.
  destruct (to_dense usable junk usable_ok o hdr (encs ops) HLL_SPARSE Hst Hl (encs_bytes ops Hok) He) as (r & -> & Hr); [discriminate|].
  mred. rewrite opcodes_encs in Hr by done. unfold accepted in Hr. rewrite Hlen, Z.eqb_refl in Hr. destruct r as [o'|]; [|discriminate].
  destruct Hr as [_ Hd]. pose proof (header_dense hdr _ Hh) as Hh'.
  destruct (dense_set_value o' _ _ index count old Hd (header_len _ _ Hh') Hi ltac:(lia) Hold) as (b & -> & Hd'). mred.
  rewrite (proj2 (Z.ltb_lt _ _)) by lia. cbn [Z.b2z]. change (1 =? 1) with true. cbn [negb]. exists (set_buf o' b). split; [reflexivity|].
  rewrite Z.max_r in Hd' by lia. left. by exists (<[4%nat := 0]> hdr).
Qed.

Lemma substitute_spec o hdr A q B N index count prev :
  header hdr HLL_SPARSE -> opcode_value o hdr (A ++ q :: B) -> roomy o -> zlen (expands (A ++ q :: B)) = HLL_REGISTERS ->
  boundary A prev -> Forall op_ok N -> zlen (encs N) - zlen (enc q) <= 3 ->
  zlen (expands A) <= index < zlen (expands A) + span q -> value q < count < 64 -> 0 <= count -> 0 <= index < HLL_REGISTERS ->
  expands (A ++ N ++ B) = <[Z.to_nat index := count]> (expands (A ++ q :: B)) ->
  let p := HLL_HDR_SIZE + zlen (encs A) in
  let next := p + zlen (enc q) in
  exists o', substitute usable junk hll_sparse_max_bytes o index count p (sds_len o) prev (if next >=? sds_len o then None else Some next) (zlen (enc q)) (encs N) = Some (o', 1) /\
    hllrep o' (<[Z.to_nat index := count]> (expands (A ++ q :: B))).
Proof using usable_ok max_ok.
  intros Hh Hv [H5 Hroom] Hlen Hprev HN Hd Hi Hc H0 Hidx Hexp p next. pose proof Hv as [Hst Hok]. pose proof (header_len _ _ Hh) as Hhl.
  pose proof Hok as Hok'. apply Forall_app in Hok' as [HA HqB]. apply Forall_cons in HqB as [Hq HB].
  pose proof (enc_bytes q Hq) as (_ & Hlq & _). unfold substitute, sdslen.
  destruct ((zlen (encs N) - zlen (enc q) >? 0) && (sds_len o + (zlen (encs N) - zlen (enc q)) >? hll_sparse_max_bytes)) eqn:Ep.
  { apply (promote_spec o hdr _ index count (value q) Hh Hv Hlen Hidx); [by apply found|done|done]. }
  assert (sds_len o + (zlen (encs N) - zlen (enc q)) <= sdsalloc o) as Hfit by (destruct Hst as [[_ Hle _ _ _] _]; lia).
  rewrite (proj2 (Z.leb_le _ _) Hfit). cbn [negb].
  rewrite encs_app, encs_cons, app_assoc in Hst. destruct (stores_buf _ _ Hst) as (rest & Hb & Hl). rewrite !length_app in Hl.
  destruct (splice o (hdr ++ encs A) (enc q) (encs B) (encs N) Hst Hfit) as (o' & b1 & b' & E1 & E2 & E3 & Hst' & _); [lia|lia|done|].
  set (mv := match (if next >=? sds_len o then None else Some next) with Some _ => _ | None => _ end).
  assert (mv = Some b1) as ->.
  { unfold mv, next, p. rewrite <- E1, <- Hhl, length_app, Nat2Z.inj_add. destruct (bool_decide_reflect (encs B = [])) as [EB|EB].
    - rewrite EB in Hl. cbn [length] in Hl. rewrite Z.geb_leb, (proj2 (Z.leb_le _ _)) by lia. done.
    - assert (zlen (encs B) <> 0) by (destruct (encs B); [done|cbn [length]; lia]). rewrite Z.geb_leb, (proj2 (Z.leb_gt _ _)) by lia.
      destruct (zlen (encs N) - zlen (enc q) =? 0); [done|]. f_equal; lia. }
  mred. rewrite E2. mred. unfold p. rewrite length_app, Nat2Z.inj_add, Hhl in E3. rewrite E3. mred.
  assert (sds_len o + (zlen (encs N) - zlen (enc q)) = sds_len (set_buf o' b')) as ->.
  { destruct (stores_buf _ _ Hst') as (_ & _ & <-). rewrite !length_app. lia. }
  destruct (updated_spec (set_buf o' b') hdr A (N ++ B) HLL_SPARSE prev Hh) as (o2 & hdr2 & ops2 & E & Hh2 & Hv2 & He2); [|done|].
  - split; [rewrite !encs_app; by rewrite <- app_assoc in Hst'|]. repeat apply Forall_app_2; done.
  - exists o2. split; [exact E|]. right. exists hdr2, ops2. rewrite He2, Hexp, length_insert. done.
Qed.

(** An opcode of one register is replaced in place. *)
Lemma in_place o hdr A q B index count prev v : header hdr HLL_SPARSE -> opcode_value o hdr (A ++ q :: B) ->
  zlen (expands (A ++ q :: B)) = HLL_REGISTERS -> boundary A prev -> zlen (enc q) = 1 -> expand q = [v] ->
  zlen (expands A) = index -> 1 <= count <= 32 ->
  exists b o', wrn (sds_buf o) (HLL_HDR_SIZE + zlen (encs A)) (HLL_SPARSE_VAL_SET count 1) = Some b /\
    sparse_updated (set_buf o b) prev (sds_len o) = Some (o', 1) /\ hllrep o' (<[Z.to_nat index := count]> (expands (A ++ q :: B))).
Proof.
  intros Hh [Hst Hok] Hlen Hprev Hq Hv Hi Hc. destruct (stores_buf _ _ Hst) as (rest & Hb & Hl). pose proof (header_len _ _ Hh) as Hhl.
  destruct (val_facts count 1) as (_ & _ & _ & _ & _ & Hs); [lia..|]. rewrite Hs. set (x := 128 + _ + _) in *.
  assert (sds_buf o = (hdr ++ encs A) ++ enc q ++ encs B ++ 0 :: rest) as Hb' by (rewrite Hb, encs_app, encs_cons, <- !app_assoc; reflexivity).
  assert (stores (set_buf o ((hdr ++ encs A ++ [x] ++ encs B) ++ 0 :: rest)) (hdr ++ encs (A ++ VAL count 1 :: B))) as Hst'.
  { rewrite encs_app, encs_cons. apply (stores_set o _ _ rest rest Hst Hb); [|done]. rewrite encs_app, encs_cons, !length_app. cbn [length]. lia. }
  apply Forall_app in Hok as [HA HqB]. apply Forall_cons in HqB as [_ HB].
  assert (Forall op_ok (A ++ VAL count 1 :: B)) as Hok' by (apply Forall_app_2; [done|]; constructor; [cbn; lia|done]).
  destruct (updated_spec _ hdr A (VAL count 1 :: B) HLL_SPARSE prev Hh (conj Hst' Hok') Hprev)
    as (o2 & hdr2 & ops2 & E & Hh2 & Hv2 & He2).
  exists ((hdr ++ encs A ++ [x] ++ encs B) ++ 0 :: rest), o2. split_and!.
  - rewrite Hb', wrn_app by (rewrite ?length_app; cbn [length]; lia). rewrite <- !app_assoc. reflexivity.
  - exact E.
  - right. exists hdr2, ops2. split_and!; [done|done| |by rewrite length_insert].
    rewrite He2, !expands_app, !expands_cons, Hv. rewrite insert_app_r_alt by lia. replace (Z.to_nat index - length (expands A))%nat with O by lia. done.
Qed.

Lemma value_bound q : op_ok q -> 0 <= value q <= 32.
Proof. destruct q; cbn; lia. Qed.

Lemma one_register q : op_ok q -> span q = 1 -> expand q = [value q].
Proof. intros _ Hs. unfold expand. by rewrite Hs. Qed.

(** The sequences of the code are those of [around]. *)
Lemma split_spec A q B index count : op_ok q -> zlen (expands A) <= index < zlen (expands A) + span q -> 1 <= count <= 32 ->
  let first := zlen (expands A) in let last := first + span q - 1 in
  exists N, match q with VAL v _ => split_val index first last count v | _ => split_zero index first last count end = encs N /\
    Forall op_ok N /\ zlen (encs N) - zlen (enc q) <= 3 /\
    expands (A ++ N ++ B) = <[Z.to_nat index := count]> (expands (A ++ q :: B)).
Proof.
  intros Hq Hi Hc first last. set (side := match q with VAL v _ => VAL v | _ => zero_op end).
  assert (forall n, 1 <= n <= last - first -> op_ok (side n) /\ zlen (enc (side n)) <= zlen (enc q) /\
    enc (side n) = match q with VAL v _ => HLL_SPARSE_VAL_SET v n | _ => zeroes n end) as Hside.
  { intros n Hn. unfold side. destruct q as [m|m|v m]; cbn [op_ok span enc length] in *.
    - destruct (zero_op_spec n) as (H1 & H2 & _); [lia|]. split_and!; [done| |done]. unfold zero_op. rewrite Z.gtb_ltb, (proj2 (Z.ltb_ge _ _)) by lia. done.
    - destruct (zero_op_spec n) as (H1 & H2 & _ & H3); [lia|]. done.
    - destruct (val_facts v n) as (_ & _ & _ & _ & _ & ->); [lia..|]. split_and!; lia || done. }
  assert (forall n, 1 <= n -> expand (side n) = replicate (Z.to_nat n) (value q)) as Hexp.
  { intros n Hn. unfold side. destruct q as [m|m|v m]; unfold expand, zero_op; destruct (n >? 64); done. }
  exists (around side index first last count). split_and!.
  - destruct q; [unfold split_zero|unfold split_zero|unfold split_val]; apply around_encs; try lia; apply Hside.
  - apply around_ok; [lia|lia|]. intros n Hn. by apply Hside.
  - unfold around. rewrite !encs_app, !length_app. pose proof (enc_bytes q Hq) as (_ & Hl & _). change (length (encs [VAL count 1])) with 1%nat.
    assert (forall n a b, b - a = n -> 0 <= n <= last - first -> zlen (encs (if b =? a then [] else [side n])) <= zlen (enc q)) as Hs.
    { intros n a b Hab Hn. destruct (Z.eqb_spec b a); [cbn; lia|]. cbn. rewrite app_nil_r. apply Hside. lia. }
    pose proof (Hs (index - first) first index ltac:(lia) ltac:(lia)). pose proof (Hs (last - index) index last ltac:(lia) ltac:(lia)) as H2.
    rewrite (Z.eqb_sym last index) in H2. lia.
  - apply replaced; [done|done|]. rewrite (around_expands side (value q)) by (lia || done). unfold expand. do 3 f_equal. lia.
Qed.

(** Step 2 and what follows, on the opcode that has the register. *)
Definition set_opcode (o : sds) (index count : Z) (q : op) (p first : Z) (prev : option Z) : option (sds * Z) :=
  let next := p + zlen (enc q) in
  let next := if next >=? sds_len o then None else Some next in
  let last := first + span q - 1 in
  let here := b ← wrn (sds_buf o) p (HLL_SPARSE_VAL_SET count 1); sparse_updated (set_buf o b) prev (sds_len o) in
  let sub := substitute usable junk hll_sparse_max_bytes o index count p (sds_len o) prev next (zlen (enc q)) in
  match q with
  | ZERO n => if n =? 1 then here else sub (split_zero index first last count)
  | XZERO n => sub (split_zero index first last count)
  | VAL v n => if v >=? count then Some (o, 0) else if n =? 1 then here else sub (split_val index first last count v)
  end.

Lemma set_opcode_spec o hdr A q B index count prev :
  header hdr HLL_SPARSE -> opcode_value o hdr (A ++ q :: B) -> roomy o -> zlen (expands (A ++ q :: B)) = HLL_REGISTERS ->
  boundary A prev -> zlen (expands A) <= index < zlen (expands A) + span q -> 0 <= index < HLL_REGISTERS -> 1 <= count <= 32 ->
  exists o', set_opcode o index count q (HLL_HDR_SIZE + zlen (encs A)) (zlen (expands A)) prev = Some (o', Z.b2z (value q <? count)) /\
    hllrep o' (<[Z.to_nat index := Z.max (value q) count]> (expands (A ++ q :: B))) /\ (count <= value q -> o' = o).
Proof using usable_ok max_ok.
  intros Hh Hv Hroom Hlen Hprev Hi Hidx Hc. pose proof Hv as [_ Hok].
  assert (op_ok q) as Hq by (apply Forall_app in Hok as [_ Hok]; by apply Forall_cons in Hok as [? _]).
  destruct (Z.lt_ge_cases (value q) count) as [Hlt|Hge].
  - rewrite (proj2 (Z.ltb_lt _ _) Hlt), Z.max_r by lia. cbn [Z.b2z].
    destruct (split_spec A q B index count Hq Hi Hc) as (N & HN & HNok & HNl & HNe).
    destruct (substitute_spec o hdr A q B N index count prev Hh Hv Hroom Hlen Hprev HNok HNl Hi ltac:(lia) ltac:(lia) Hidx HNe) as (o' & Hsub & Hrep).
    rewrite <- HN in Hsub.
    assert (span q = 1 -> zlen (enc q) = 1 -> exists o', (b ← wrn (sds_buf o) (HLL_HDR_SIZE + zlen (encs A)) (HLL_SPARSE_VAL_SET count 1);
      sparse_updated (set_buf o b) prev (sds_len o)) = Some (o', 1) /\ hllrep o' (<[Z.to_nat index := count]> (expands (A ++ q :: B)))) as Hone.
    { intros Hs He. destruct (in_place o hdr A q B index count prev (value q)) as (b & o2 & E1 & E2 & Hr); try done; [by apply one_register|lia|].
      exists o2. rewrite E1. mred. done. }
    assert (forall r, (exists o', r = Some (o', 1) /\ hllrep o' (<[Z.to_nat index := count]> (expands (A ++ q :: B)))) ->
      exists o', r = Some (o', 1) /\ hllrep o' (<[Z.to_nat index := count]> (expands (A ++ q :: B))) /\ (count <= value q -> o' = o)) as Hch.
    { intros r (o2 & E & Hr). exists o2. split_and!; [done|done|lia]. }
    unfold set_opcode. apply Hch. destruct q as [n|n|v n].
    + destruct (Z.eqb_spec n 1) as [En|_]; [by apply Hone|]. by exists o'.
    + by exists o'.
    + cbn [value] in Hlt. rewrite Z.geb_leb, (proj2 (Z.leb_gt _ _)) by lia. destruct (Z.eqb_spec n 1) as [En|_]; [by apply Hone|]. by exists o'.
  - exists o. rewrite (proj2 (Z.ltb_ge _ _)), Z.max_l by lia. rewrite list_insert_id by (by apply found). destruct q as [n|n|v n]; cbn [value] in Hge; [lia|lia|].
    unfold set_opcode. rewrite Z.geb_leb, (proj2 (Z.leb_le _ _)) by lia. split_and!; [reflexivity| |done]. right. by exists hdr, (A ++ VAL v n :: B).
Qed.

Lemma sparse_set_spec o hdr ops index count old : header hdr HLL_SPARSE -> opcode_value o hdr ops -> zlen (expands ops) = HLL_REGISTERS ->
  0 <= index < HLL_REGISTERS -> 1 <= count < 64 -> expands ops !! Z.to_nat index = Some old ->
  exists o', hllSparseSet usable junk je_nallocx hll_sparse_max_bytes o index count = Some (o', Z.b2z (old <? count)) /\
    hllrep o' (<[Z.to_nat index := Z.max old count]> (expands ops)) /\ (count <= old -> content o' = content o).
Proof using usable_ok nallocx_ok max_ok.
  intros Hh Hv Hlen Hi Hc Hold. pose proof Hv as [Hst Hok]. pose proof (header_len _ _ Hh) as Hhl. unfold hllSparseSet.
  destruct (locate ops index Hok ltac:(lia)) as (A & q & B & -> & Hq). pose proof Hok as Hok'.
  apply Forall_app in Hok' as [HA HqB]. apply Forall_cons in HqB as [Hqok HB]. pose proof (value_bound q Hqok) as Hvq.
  rewrite found in Hold by done. injection Hold as <-. rewrite Z.gtb_ltb. destruct (Z.ltb_spec HLL_SPARSE_VAL_MAX_VALUE count) as [Hbig|Hsmall]; unfold HLL_SPARSE_VAL_MAX_VALUE in *.
  { rewrite (proj2 (Z.ltb_lt _ _)), Z.max_r by lia.
    destruct (promote_spec o hdr _ index count (value q) Hh Hv Hlen Hi (found A q B index Hq Hqok)) as (o' & E & Hrep); [lia..|].
    exists o'. split_and!; [exact E|exact Hrep|lia]. }
  pose proof (encs_length _ Hok) as Henc. assert (HLL_HDR_SIZE = 16 /\ HLL_REGISTERS = 16384) as [Eh Er] by done.
  destruct (sparse_grow_spec o _ Hst) as (o1 & -> & Hst1 & Hroom); [rewrite length_app; lia|]. mred. unfold sdslen.
  assert (opcode_value o1 hdr (A ++ q :: B)) as Hv1 by done. destruct (stores_buf _ _ Hst1) as (rest & Hb & Hl).
  destruct (find_opcode_spec hdr (0 :: rest) q B index Hhl Hqok A (length (sds_buf o1)) [] None 0 HA) as (prev & E & Hprev).
  { rewrite Hb, !length_app. rewrite length_app in Henc. cbn [length] in *. lia. }
  { by exists [], []. }
  { done. }
  cbn [app] in E, Hprev. rewrite app_assoc, <- Hb in E. change (HLL_HDR_SIZE + zlen (encs [])) with HLL_HDR_SIZE in E. change (zlen (expands [])) with 0 in E.
  assert (HLL_HDR_SIZE + zlen (encs (A ++ q :: B)) = sds_len o1) as He by (rewrite <- Hl, length_app; lia).
  rewrite He in E. rewrite E. mred. pose proof (span_pos q Hqok) as Hsp. pose proof (enc_bytes q Hqok) as (_ & Hlq & _).
  rewrite (proj2 (Z.eqb_neq (span q) 0)) by lia. rewrite encs_app, encs_cons, !length_app in He. rewrite Z.geb_leb, (proj2 (Z.leb_gt (sds_len o1) _)) by lia. cbn [orb].
  destruct (op_byte o1 hdr A q B Hv1) as (x & Hx & Hrd). rewrite Hhl in Hrd. rewrite Hrd. mred.
  destruct (set_opcode_spec o1 hdr A q B index count prev) as (o' & Eset & Hrep & Hsame); try done; [lia|].
  exists o'. split_and!; [|exact Hrep|intros Hle; rewrite (Hsame Hle); destruct Hst1 as [_ ->]; symmetry; apply Hst].
  rewrite <- Eset. unfold set_opcode. destruct (op_kind q Hqok x Hx) as (-> & -> & _ & Hlen'). destruct q as [n|n|v n].
  - by rewrite Hlen'.
  - done.
  - by destruct Hlen' as [-> ->].
Qed.
End Set_.
End HllSet.
