(* ===== verification/HllValue.v ===== *)
(** * HyperLogLog values as registers

    What the operations do to the registers, for both encodings: adding an
    element, merging, counting registers, creation.  The sketch of a list of
    elements depends on their set, and merging sketches is their union. *)

From S2P Require Import Prelude Sds Hll HllDense HllSparse HllSet.

Module HllValue.
Import Sds Hll HllDense HllSparse HllSet.

(** ** The hash of an element *)

Lemma ctzll_range k : forall fuel x, (k < fuel)%nat -> Z.testbit x (Z.of_nat k) = true -> 0 <= ctzll fuel x <= Z.of_nat k.
Proof.
  induction k as [|k IH]; intros [|fuel] x Hf Hb; try lia; cbn [ctzll].
  - change (Z.of_nat 0) with 0 in Hb. rewrite Z.bit0_odd in Hb. rewrite Hb. lia.
  - destruct (Z.odd x); [lia|]. assert (0 <= ctzll fuel (Z.shiftr x 1) <= Z.of_nat k); [|lia]. apply IH; [lia|].
    rewrite Z.shiftr_spec by lia. rewrite <- Hb. f_equal. lia.
Qed.

Lemma patlen_range ele : let '(count, index) := hllPatLen ele in 1 <= count <= HLL_Q + 1 /\ 0 <= index < HLL_REGISTERS.
Proof.
  unfold hllPatLen. generalize (MurmurHash64A ele 0xadc83b19). intros h. split.
  - assert (0 <= ctzll 64 (Z.lor (Z.shiftr h HLL_P) (Z.shiftl 1 HLL_Q)) <= Z.of_nat 50); [|change HLL_Q with 50 in *; lia].
    apply ctzll_range; [lia|]. rewrite Z.lor_spec. apply orb_true_iff. by right.
  - change HLL_P_MASK with (Z.ones 14). rewrite Z.land_ones by lia. pose proof (Z.mod_pos_bound h (2 ^ 14) ltac:(lia)).
    rewrite swrap_id by (unfold in_s; lia). exact H.
Qed.

(** ** Registers *)

Record registers (regs : list Z) : Prop := {
  registers_length : length regs = NREGS;
  registers_range : Forall (fun r => 0 <= r < 64) regs }.

Lemma rep_registers o regs : hllrep o regs -> registers regs.
Proof.
  intros [(hdr & _ & body & _ & _ & <-)|(hdr & ops & _ & [_ Hok] & <- & Hlen)].
  - constructor; [apply regs_length|apply regs_range].
  - constructor; [nlia|]. clear Hlen. induction Hok as [|q ops Hq _ IH]; [constructor|]. rewrite expands_cons. apply Forall_app_2; [|exact IH].
    apply Forall_replicate. pose proof (value_bound q Hq). lia.
Qed.

Lemma registers_lookup regs i : registers regs -> 0 <= i < HLL_REGISTERS -> exists r, regs !! Z.to_nat i = Some r /\ 0 <= r < 64.
Proof.
  intros [Hl Hr] Hi. destruct (lookup_lt_is_Some_2 regs (Z.to_nat i)) as [r E]; [nlia|]. exists r. split; [exact E|].
  rewrite Forall_lookup in Hr. by eapply Hr.
Qed.

Lemma registers_bytes regs : registers regs -> bytes_ok regs.
Proof. intros [_ H]. eapply Forall_impl; [exact H|]. unfold byte_ok. lia. Qed.

(** Adding an element. *)
Definition add (ele : list Z) (regs : list Z) : list Z :=
  let '(count, index) := hllPatLen ele in <[Z.to_nat index := Z.max (default 0 (regs !! Z.to_nat index)) count]> regs.

Definition raises (ele : list Z) (regs : list Z) : bool :=
  let '(count, index) := hllPatLen ele in default 0 (regs !! Z.to_nat index) <? count.

Lemma add_same ele regs : registers regs -> raises ele regs = false -> add ele regs = regs.
Proof.
  intros Hr. unfold raises, add. pose proof (patlen_range ele) as Hp. destruct (hllPatLen ele) as [count index]. destruct Hp as [_ Hi].
  destruct (registers_lookup regs index Hr Hi) as (r & E & _). rewrite E. cbn [default from_option id]. intros Hlt%Z.ltb_ge.
  rewrite Z.max_l by lia. by apply list_insert_id.
Qed.

(** The encoding that is read. *)
Lemma rep_encoding o regs : hllrep o regs -> exists hdr body e, header hdr e /\ stores o (hdr ++ body) /\ hdr_encoding (sds_buf o) = Some e /\
  (e = HLL_DENSE /\ dense_value o hdr regs \/
   e = HLL_SPARSE /\ exists ops, body = encs ops /\ opcode_value o hdr ops /\ expands ops = regs /\ zlen regs = HLL_REGISTERS).
Proof.
  intros [(hdr & Hh & Hd)|(hdr & ops & Hh & Hv & He & Hl)].
  - pose proof Hd as (body & Hst & _). exists hdr, body, HLL_DENSE. split_and!; [exact Hh|exact Hst|eapply encoding_read; [exact Hh|exact Hst]|]. by left.
  - pose proof Hv as [Hst _]. exists hdr, (encs ops), HLL_SPARSE. split_and!; [exact Hh|exact Hst|eapply encoding_read; [exact Hh|exact Hst]|].
    right. split; [reflexivity|]. by exists ops.
Qed.

Section Ops.
Context (usable : Z -> Z) (junk : nat -> Z) (je_nallocx : option (Z -> Z)) (hll_sparse_max_bytes : Z).
Context (usable_ok : forall n, 0 <= n < 2 ^ 63 -> n <= usable n < 2 ^ 64).
Context (nallocx_ok : forall f n, je_nallocx = Some f -> 0 <= n < 2 ^ 63 -> n <= f n).
Context (max_ok : 32 <= hll_sparse_max_bytes < 2 ^ 61).

(** Setting a register of a value of either encoding. *)
Definition set_any (o : sds) (index count : Z) : option (sds * Z) :=
  enc ← hdr_encoding (sds_buf o);
  if enc =? HLL_DENSE then '(b, r) ← hllDenseSet (sds_buf o) HLL_HDR_SIZE index count; Some (set_buf o b, r)
  else if enc =? HLL_SPARSE then hllSparseSet usable junk je_nallocx hll_sparse_max_bytes o index count
  else Some (o, -1).

Lemma set_any_spec o regs index count old : hllrep o regs -> 0 <= index < HLL_REGISTERS -> 1 <= count < 64 -> regs !! Z.to_nat index = Some old ->
  exists o', set_any o index count = Some (o', Z.b2z (old <? count)) /\ hllrep o' (<[Z.to_nat index := Z.max old count]> regs) /\
    (count <= old -> content o' = content o).
Proof using usable_ok nallocx_ok max_ok.
  intros Hrep Hi Hc Hold. destruct (rep_encoding o regs Hrep) as (hdr & body & e & Hh & Hst & He & Hcase). unfold set_any. rewrite He. mred.
  destruct Hcase as [[-> Hd]|[-> (ops & -> & Hv & <- & Hl)]].
  - change (HLL_DENSE =? HLL_DENSE) with true. destruct (dense_set_value o hdr regs index count old Hd (header_len _ _ Hh) Hi ltac:(lia) Hold) as (b & Eb & Hd').
    rewrite Eb. mred. exists (set_buf o b). split_and!; [reflexivity|left; by exists hdr|]. intros Hle. unfold hllDenseSet in Eb.
    destruct (HLL_DENSE_GET_REGISTER _ _ _) as [x|]; [|discriminate]. cbn [mbind option_bind] in Eb. rewrite (proj2 (Z.ltb_ge old count)) in Eb by lia.
    destruct (count >? x); [destruct (HLL_DENSE_SET_REGISTER _ _ _ _); discriminate|]. injection Eb as <-. by destruct o.
  - change (HLL_SPARSE =? HLL_DENSE) with false. change (HLL_SPARSE =? HLL_SPARSE) with true.
    by apply (sparse_set_spec usable junk je_nallocx hll_sparse_max_bytes usable_ok nallocx_ok max_ok o hdr ops index count old).
Qed.

Lemma add_any o ele : hllAdd usable junk je_nallocx hll_sparse_max_bytes o ele = let '(count, index) := hllPatLen ele in set_any o index count.
Proof. unfold hllAdd, set_any, hllDenseAdd, hllSparseAdd. by destruct (hllPatLen ele). Qed.

Lemma hll_add_spec o regs ele : hllrep o regs -> exists o',
  hllAdd usable junk je_nallocx hll_sparse_max_bytes o ele = Some (o', Z.b2z (raises ele regs)) /\ hllrep o' (add ele regs) /\
  (raises ele regs = false -> content o' = content o).
Proof using usable_ok nallocx_ok max_ok.
  intros Hrep. rewrite add_any. unfold add, raises. pose proof (patlen_range ele) as Hp. destruct (hllPatLen ele) as [count index]. destruct Hp as [Hc Hi].
  destruct (registers_lookup regs index (rep_registers o regs Hrep) Hi) as (old & E & _). rewrite E. cbn [default from_option id].
  destruct (set_any_spec o regs index count old Hrep Hi) as (o' & Es & Hr & Hsame); [change HLL_Q with 50 in Hc; lia|exact E|].
  exists o'. split_and!; [exact Es|exact Hr|]. intros Hlt%Z.ltb_ge. by apply Hsame.
Qed.

(** Creation. *)
Lemma create_loop_run fuel rest : (2 <= fuel)%nat ->
  create_loop fuel (replicate 18 0 ++ rest) HLL_HDR_SIZE HLL_REGISTERS = Some (replicate 16 0 ++ [127; 255] ++ rest, 18).
Proof.
  intros Hf. destruct fuel as [|[|m]]; [lia|lia|]. cbn [create_loop].
  change (HLL_REGISTERS =? 0) with false. change (if HLL_SPARSE_XZERO_MAX_LEN >? HLL_REGISTERS then _ else _) with HLL_REGISTERS.
  change (HLL_SPARSE_XZERO_SET HLL_REGISTERS) with [127; 255].
  change (replicate 18 0 ++ rest) with (replicate 16 0 ++ [0; 0] ++ rest). rewrite wrn_app by reflexivity. mred.
  rewrite Z.sub_diag. reflexivity.
Qed.

Definition new_header : list Z := str "HYLL" ++ [1] ++ replicate 11 0.

Lemma new_header_ok : header new_header HLL_SPARSE.
Proof. constructor; [reflexivity| |reflexivity|reflexivity]. unfold byte_ok. apply (bool_decide_unpack _). vm_compute. exact I. Qed.

Lemma all_zero : expands [XZERO HLL_REGISTERS] = replicate NREGS 0.
Proof. rewrite expands_cons, app_nil_r. unfold expand. cbn [span value]. rewrite nregs_fold. reflexivity. Qed.

Lemma fill_spec s rest : sds_buf s = replicate 18 0 ++ 0 :: rest ->
  create_fill s 18 = Some (set_buf s ((new_header ++ [127; 255]) ++ 0 :: rest)).
Proof.
  intros Hb. unfold create_fill. rewrite Hb.
  rewrite create_loop_run by (pose proof NREGS_eq; rewrite nregs_fold; unfold HLL_REGISTERS in *; lia). mred. change (negb (18 =? 18)) with false.
  change (replicate 16 0 ++ [127; 255] ++ 0 :: rest) with (replicate 4 0 ++ [0] ++ replicate 11 0 ++ [127; 255] ++ 0 :: rest).
  rewrite (wrn_0 (replicate 4 0) _ (str "HYLL")) by reflexivity. mred. unfold wr.
  rewrite (wrn_app (str "HYLL") [0]) by reflexivity. mred. reflexivity.
Qed.

#[local] Opaque sdsnewlen create_fill.
Lemma create_unfold : createHLLObject usable junk = (s ← sdsnewlen usable junk InitNull 18; create_fill s 18).
Proof. reflexivity. Qed.
#[local] Transparent sdsnewlen create_fill.

Lemma create_value : exists o, createHLLObject usable junk = Some o /\ hllrep o (replicate NREGS 0).
Proof using usable_ok.
  destruct (newlen_null usable junk usable_ok 18 ltac:(lia)) as (s & E & Hst). change (replicate (Z.to_nat 18) 0) with (replicate 18 0) in Hst.
  destruct (stores_buf _ _ Hst) as (rest & Hb & _). rewrite create_unfold, E. mred. eexists. split; [exact (fill_spec s rest Hb)|]. right. exists new_header, [XZERO HLL_REGISTERS]. split_and!.
  - exact new_header_ok.
  - split; [|repeat constructor; unfold HLL_REGISTERS; lia]. change (encs [XZERO HLL_REGISTERS]) with [127; 255].
    apply (stores_set s (replicate 18 0) (new_header ++ [127; 255]) rest rest Hst Hb); reflexivity.
  - exact all_zero.
  - rewrite length_replicate. exact NREGS_eq.
Qed.
End Ops.

(** ** Strings of arbitrary bytes *)

Record hllstring (c : list Z) : Prop := {
  hs_bytes : bytes_ok c;
  hs_len : HLL_HDR_SIZE <= zlen c;
  hs_magic : take 4 c = str "HYLL";
  hs_encoding : exists e, c !! 4%nat = Some e /\ (e = HLL_DENSE /\ zlen c = HLL_DENSE_SIZE \/ e = HLL_SPARSE) }.

(** The registers of a string, [None] when its opcodes are not exactly those
    of all the registers. *)
Definition decode (c : list Z) : option (list Z) :=
  let body := drop 16 c in
  if default 0 (c !! 4%nat) =? HLL_DENSE then Some (regs_of (body ++ [0]))
  else let regs := expands (opcodes body) in if accepted regs then Some regs else None.

Lemma check_spec o c : stores o c -> bytes_ok c ->
  exists r, isHLLString o = Some r /\ (r = true <-> hllstring c).
Proof.
  intros Hst Hb. destruct (stores_buf _ _ Hst) as (rest & Hbuf & Hl). unfold isHLLString, sdslen. rewrite <- Hl.
  assert (HLL_HDR_SIZE = 16) as E16 by done. destruct (Z.ltb_spec (zlen c) HLL_HDR_SIZE) as [Hs|Hs].
  { exists false. split; [done|]. split; [discriminate|]. intros [_ ? _ _]. lia. }
  assert (rdn (sds_buf o) 0 4 = Some (take 4 c)) as ->.
  { apply rdn_Some. rewrite Hbuf, length_app. split_and!; try lia. cbn [Z.to_nat drop]. symmetry. apply take_app_le. lia. }
  mred. destruct (lookup_lt_is_Some_2 c 4) as [e He]; [lia|].
  assert (hdr_encoding (sds_buf o) = Some e) as ->. { unfold hdr_encoding. rewrite Hbuf, rd_lookup, lookup_app_l by lia. exact He. }
  mred. eexists. split; [reflexivity|]. assert (byte_ok e) as Heb by (eapply Forall_lookup_1; [exact Hb|exact He]). unfold byte_ok in Heb.
  assert (HLL_MAX_ENCODING = 1 /\ HLL_DENSE = 0 /\ HLL_SPARSE = 1) as (E1 & E2 & E3) by done.
  rewrite !andb_true_iff, !negb_true_iff, andb_false_iff, negb_false_iff, bool_decide_eq_true. split.
  - intros [[Hm He1] He2]. constructor; try done. exists e. split; [exact He|]. lia.
  - intros [_ _ Hm (e' & He' & Hcase)]. rewrite He in He'. injection He' as <-. split_and!; [exact Hm|lia|]. destruct Hcase as [[-> ->]| ->]; [right; lia|left; reflexivity].
Qed.

Lemma string_split c : hllstring c -> exists hdr body e, c = hdr ++ body /\ header hdr e /\ bytes_ok body /\ body = drop 16 c /\ c !! 4%nat = Some e /\
  (e = HLL_DENSE /\ area (body ++ [0]) \/ e = HLL_SPARSE).
Proof.
  intros [Hb Hl Hm (e & He & Hcase)]. assert (HLL_HDR_SIZE = 16 /\ HLL_DENSE_SIZE = 12304) as [E16 Ed] by done. exists (take 16 c), (drop 16 c), e.
  assert (bytes_ok (drop 16 c)) as Hbb by (by apply Forall_drop). split_and!; [by rewrite take_drop| |exact Hbb|reflexivity|exact He|].
  - constructor; [rewrite length_take; lia|by apply Forall_take|by rewrite take_take|]. rewrite lookup_take_lt by lia. exact He.
  - destruct Hcase as [[-> Hlen]| ->]; [left|by right]. split; [reflexivity|]. assert (zlen (drop 16 c) = 12288) as Hd by (rewrite length_drop; lia).
    constructor; [|rewrite length_app; cbn [length]; lia|].
    + apply Forall_app_2; [exact Hbb|]. constructor; [unfold byte_ok; lia|constructor].
    + rewrite lookup_app_r by lia. replace (Z.to_nat 12288 - length (drop 16 c))%nat with O by lia. reflexivity.
Qed.

Lemma decode_app hdr body e : header hdr e -> decode (hdr ++ body) =
  if e =? HLL_DENSE then Some (regs_of (body ++ [0])) else if accepted (expands (opcodes body)) then Some (expands (opcodes body)) else None.
Proof.
  intros [Hl _ _ He]. unfold decode. unfold HLL_HDR_SIZE in Hl. rewrite lookup_app_l, He by lia. cbn [default from_option id].
  rewrite drop_app_length' by lia. reflexivity.
Qed.

(** A value of either encoding is such a string, with its registers. *)
Lemma rep_wf o regs : hllrep o regs -> wf o /\ HLL_HDR_SIZE <= zlen (content o) < 2 ^ 31.
Proof.
  intros [(hdr & Hh & body & [Hwf ->] & [_ Ha _] & _)|(hdr & ops & Hh & [[Hwf ->] Hok] & <- & Hlen)];
    (split; [exact Hwf|]); rewrite length_app in *; pose proof (header_len _ _ Hh) as Hl; unfold HLL_HDR_SIZE in *.
  - cbn [length] in Ha. lia.
  - pose proof (encs_length ops Hok). unfold HLL_REGISTERS in Hlen. lia.
Qed.

Lemma rep_decode o regs : hllrep o regs -> exists c, stores o c /\ hllstring c /\ decode c = Some regs.
Proof.
  intros Hrep. destruct (rep_encoding o regs Hrep) as (hdr & body & e & Hh & Hst & _ & Hcase). exists (hdr ++ body). split; [exact Hst|].
  rewrite (decode_app hdr body e Hh). pose proof Hh as [Hl Hhb Hm He]. unfold HLL_HDR_SIZE in Hl.
  assert (forall P : Prop, P -> bytes_ok body -> (e = HLL_DENSE /\ zlen body = 12288 \/ e = HLL_SPARSE) -> hllstring (hdr ++ body) /\ P) as Hmk.
  { intros P HP Hb Hce. split; [|exact HP]. constructor; [by apply Forall_app_2|rewrite length_app; unfold HLL_HDR_SIZE; lia| |].
    - rewrite take_app_le by lia. exact Hm.
    - exists e. rewrite lookup_app_l by lia. split; [exact He|]. change HLL_DENSE_SIZE with 12304. rewrite length_app. destruct Hce as [[-> Hlb]| ->]; [left; split; [reflexivity|lia]|right; reflexivity]. }
  destruct Hcase as [[-> (body' & Hst' & Ha & Hr)]|[-> (ops & -> & [_ Hok] & <- & Hlen)]].
  - assert (body' = body) as ->. { destruct Hst as [_ E1]. destruct Hst' as [_ E2]. rewrite E1 in E2. by apply app_inj_1 in E2 as [_ ->]. }
    change (HLL_DENSE =? HLL_DENSE) with true. rewrite Hr. destruct Ha as [Hb Hla _]. rewrite length_app in Hla. cbn [length] in Hla.
    apply Forall_app in Hb as [Hb _]. apply Hmk; [reflexivity|exact Hb|]. left. split; [reflexivity|lia].
  - change (HLL_SPARSE =? HLL_DENSE) with false. rewrite opcodes_encs by exact Hok. unfold accepted. rewrite Hlen, Z.eqb_refl.
    apply Hmk; [reflexivity|by apply encs_bytes|by right].
Qed.

(** Merging and counting, whatever the bytes. *)
Lemma merge_any o c max : stores o c -> hllstring c -> length max = NREGS -> bytes_ok max ->
  hllMerge max o = Some (option_map (zip_with Z.max max) (decode c)).
Proof.
  intros Hst Hs Hm Hmb. destruct (string_split c Hs) as (hdr & body & e & -> & Hh & Hb & _ & _ & Hcase). rewrite (decode_app hdr body e Hh).
  destruct Hcase as [[-> Ha]| ->].
  - rewrite Z.eqb_refl. unfold hllMerge. rewrite (encoding_read o hdr body _ Hh Hst). cbn [mbind option_bind]. rewrite Z.eqb_refl.
    destruct (stores_buf _ _ Hst) as (rest & Hbuf & _). assert (sds_buf o = hdr ++ (body ++ [0]) ++ rest) as -> by (rewrite Hbuf, <- !app_assoc; reflexivity).
    rewrite <- (header_len _ _ Hh). rewrite (merge_dense_spec max hdr (body ++ [0]) rest Ha Hm Hmb). cbn [mbind option_bind option_map]. reflexivity.
  - change (HLL_SPARSE =? HLL_DENSE) with false. rewrite (merge_sparse o hdr body Hst (header_len _ _ Hh) Hb max HLL_SPARSE (header_encoding _ _ Hh)) by done.
    by destruct (accepted _).
Qed.

Definition histogram (regs : list Z) : list Z := tally regs (replicate 64 0).

Lemma count_string o c : stores o c -> hllstring c -> zlen c < 2 ^ 31 ->
  exists h, count_histo (sds_buf o) (sdslen o) = Some (bool_decide (decode c = None), h) /\ (forall regs, decode c = Some regs -> h = histogram regs).
Proof.
  intros Hst Hs Hint. destruct (string_split c Hs) as (hdr & body & e & -> & Hh & Hb & _ & _ & Hcase). rewrite (decode_app hdr body e Hh).
  unfold count_histo. rewrite (encoding_read o hdr body _ Hh Hst). cbn [mbind option_bind].
  destruct Hcase as [[-> Ha]| ->].
  - rewrite Z.eqb_refl. destruct (stores_buf _ _ Hst) as (rest & Hbuf & _).
    assert (sds_buf o = hdr ++ (body ++ [0]) ++ rest) as -> by (rewrite Hbuf, <- !app_assoc; reflexivity).
    rewrite <- (header_len _ _ Hh). rewrite (dense_histo hdr (body ++ [0]) rest _ Ha (length_replicate 64 0)). cbn [mbind option_bind].
    exists (histogram (regs_of (body ++ [0]))). split; [reflexivity|]. intros regs [= <-]. reflexivity.
  - assert ((HLL_SPARSE =? HLL_DENSE) = false) as -> by reflexivity. rewrite Z.eqb_refl.
    destruct (sparse_histo o hdr body Hst (header_len _ _ Hh) Hb _ (length_replicate 64 0)) as (h & -> & Hh').
    { destruct (stores_buf _ _ Hst) as (rest & _ & Hl). unfold sdslen, HLL_HDR_SIZE. lia. }
    exists h.
    destruct (accepted _); [|split; [reflexivity|discriminate]]. split; [reflexivity|]. intros regs [= <-]. apply Hh'. reflexivity.
Qed.

(** ** Sketches *)

Definition add_all (els : list (list Z)) (regs : list Z) : list Z := foldl (fun regs ele => add ele regs) regs els.

(** The largest count of the elements of a register. *)
Definition height (els : list (list Z)) (i : nat) : Z :=
  foldr (fun ele m => let '(count, index) := hllPatLen ele in if bool_decide (Z.to_nat index = i) then Z.max count m else m) 0 els.

Definition sketch (els : list (list Z)) : list Z := map (height els) (seq 0 NREGS).
#[global] Opaque sketch.

Lemma sketch_eq els : sketch els = map (height els) (seq 0 NREGS).
Proof. reflexivity. Qed.

Lemma sketch_lookup els i : (i < NREGS)%nat -> sketch els !! i = Some (height els i).
Proof. intros Hi. rewrite sketch_eq, list_lookup_fmap, lookup_seq_lt by exact Hi. reflexivity. Qed.

Lemma sketch_length els : length (sketch els) = NREGS.
Proof. rewrite sketch_eq. change (map (height els)) with (fmap (M := list) (height els)). rewrite length_fmap, length_seq. reflexivity. Qed.

(** Lists of registers are equal when they are so at every register. *)
Lemma regs_ext (l k : list Z) : length l = NREGS -> length k = NREGS -> (forall i, (i < NREGS)%nat -> l !! i = k !! i) -> l = k.
Proof.
  intros Hl Hk H. apply list_eq. intros i. destruct (Nat.lt_ge_cases i NREGS) as [Hi|Hi]; [by apply H|].
  rewrite !lookup_ge_None_2; [reflexivity|lia|lia].
Qed.

(** The count that an element gives to a register. *)
Definition gives (ele : list Z) (i : nat) (v : Z) : Prop := let '(count, index) := hllPatLen ele in Z.to_nat index = i /\ count = v.

Lemma height_spec els i : 0 <= height els i /\ (forall ele v, ele ∈ els -> gives ele i v -> v <= height els i) /\
  (height els i = 0 \/ exists ele, ele ∈ els /\ gives ele i (height els i)).
Proof.
  unfold gives. induction els as [|e els (H0 & H1 & H2)]; cbn [height foldr].
  { split_and!; [lia|intros ? ? H; by apply elem_of_nil in H|by left]. }
  fold (height els i). pose proof (patlen_range e) as Hp. destruct (hllPatLen e) as [c ix] eqn:Ee. split_and!.
  - case_bool_decide; lia.
  - intros ele v [->|Hin]%elem_of_cons Hg.
    + rewrite Ee in Hg. destruct Hg as [Hg <-]. rewrite bool_decide_eq_true_2 by exact Hg. lia.
    + specialize (H1 ele v Hin Hg). case_bool_decide; lia.
  - case_bool_decide as Hi.
    + destruct (Z.max_spec c (height els i)) as [[_ ->]|[_ ->]].
      * destruct H2 as [H2|(ele & Hin & Hg)]; [by left|]. right. exists ele. split; [by right|exact Hg].
      * right. exists e. split; [by left|]. rewrite Ee. done.
    + destruct H2 as [H2|(ele & Hin & Hg)]; [by left|]. right. exists ele. split; [by right|exact Hg].
Qed.

Lemma height_mono els els' i : els ⊆ els' -> height els i <= height els' i.
Proof.
  intros Hsub. destruct (height_spec els i) as (_ & _ & [->|(ele & Hin & Hg)]); [apply height_spec|].
  destruct (height_spec els' i) as (_ & H & _). by apply (H ele); [apply Hsub|].
Qed.

(** The sketch depends on the set of the elements. *)
Lemma sketch_set els els' : (forall ele, ele ∈ els <-> ele ∈ els') -> sketch els = sketch els'.
Proof.
  intros H. apply regs_ext; [apply sketch_length..|]. intros i Hi. rewrite !sketch_lookup by exact Hi. f_equal.
  apply Z.le_antisymm; apply height_mono; intros ele; apply H.
Qed.

Lemma height_app els els' i : height (els ++ els') i = Z.max (height els i) (height els' i).
Proof.
  induction els as [|e els IH]; cbn [app height foldr].
  - fold (height els' i). pose proof (height_spec els' i) as [H _]. lia.
  - fold (height (els ++ els') i) (height els i). destruct (hllPatLen e) as [c ix]. rewrite IH. case_bool_decide; lia.
Qed.

(** Merging sketches is the union of their elements. *)
Lemma sketch_app els els' : sketch (els ++ els') = zip_with Z.max (sketch els) (sketch els').
Proof.
  apply regs_ext; [apply sketch_length|rewrite length_zip_with, !sketch_length; lia|]. intros i Hi.
  rewrite lookup_zip_with, !sketch_lookup by exact Hi. cbn. by rewrite height_app.
Qed.

Lemma sketch_nil : sketch [] = replicate NREGS 0.
Proof.
  apply regs_ext; [apply sketch_length|apply length_replicate|]. intros i Hi. rewrite sketch_lookup by exact Hi. symmetry. by apply lookup_replicate_2.
Qed.

Lemma add_sketch ele els : add ele (sketch els) = sketch (ele :: els).
Proof.
  unfold add. pose proof (patlen_range ele) as Hp. destruct (hllPatLen ele) as [c ix] eqn:Ee. destruct Hp as [_ Hix].
  apply regs_ext; [rewrite length_insert; apply sketch_length|apply sketch_length|]. intros i Hi. rewrite (sketch_lookup (ele :: els)) by exact Hi.
  cbn [height foldr]. rewrite Ee. fold (height els i). case_bool_decide as Hx.
  - subst i. rewrite list_lookup_insert_eq by (rewrite sketch_length; exact Hi). rewrite sketch_lookup by exact Hi. cbn [default from_option id]. f_equal. lia.
  - rewrite list_lookup_insert_ne by exact Hx. by apply sketch_lookup.
Qed.

Lemma add_all_sketch els els0 : add_all els (sketch els0) = sketch (els ++ els0).
Proof.
  revert els0. induction els as [|e els IH]; intros els0; [reflexivity|]. cbn [add_all foldl]. fold (add_all els (add e (sketch els0))).
  rewrite add_sketch, IH. apply sketch_set. intros ele. rewrite !elem_of_app, !elem_of_cons. tauto.
Qed.

(** ** Corrupted values *)

Lemma decode_registers c regs : hllstring c -> decode c = Some regs -> registers regs.
Proof.
  intros Hs. destruct (string_split c Hs) as (hdr & body & e & -> & Hh & Hb & _). rewrite (decode_app hdr body e Hh).
  destruct (e =? HLL_DENSE); [intros [= <-]; constructor; [apply regs_length|apply regs_range]|].
  destruct (accepted _) eqn:Ea; [|discriminate]. intros [= <-]. apply Z.eqb_eq in Ea. constructor; [nlia|]. pose proof (opcodes_ok body Hb) as Hok. clear Ea.
  induction Hok as [|q ops Hq _ IH]; [constructor|]. rewrite expands_cons. apply Forall_app_2; [|exact IH].
  apply Forall_replicate. pose proof (value_bound q Hq). lia.
Qed.

Lemma histogram_lookup regs v : (v < 64)%nat -> histogram regs !! v = Some (count_of (Z.of_nat v) regs).
Proof. intros Hv. unfold histogram, tally. rewrite list_lookup_imap, lookup_replicate_2 by exact Hv. reflexivity. Qed.

Section Corrupt.
Context (usable : Z -> Z) (junk : nat -> Z).
Context (usable_ok : forall n, 0 <= n < 2 ^ 63 -> n <= usable n < 2 ^ 64).

Lemma dense_any o c : stores o c -> hllstring c ->
  exists r, hllSparseToDense usable junk o = Some r /\
    match r with Some o' => exists regs, decode c = Some regs /\ hllrep o' regs | None => decode c = None end.
Proof using usable_ok.
  intros Hst Hs. destruct (string_split c Hs) as (hdr & body & e & -> & Hh & Hb & _ & _ & Hcase). rewrite (decode_app hdr body e Hh).
  destruct Hcase as [[-> Ha]| ->].
  - exists (Some o). split; [unfold hllSparseToDense; rewrite (encoding_read o hdr body _ Hh Hst); cbn [mbind option_bind]; by rewrite Z.eqb_refl|].
    exists (regs_of (body ++ [0])). split; [reflexivity|]. left. exists hdr. split; [exact Hh|]. by exists body.
  - assert ((HLL_SPARSE =? HLL_DENSE) = false) as -> by reflexivity.
    destruct (to_dense usable junk usable_ok o hdr body HLL_SPARSE Hst (header_len _ _ Hh) Hb (header_encoding _ _ Hh)) as (r & E & Hr); [discriminate|].
    exists r. split; [exact E|]. destruct r as [o'|]; [|by rewrite Hr]. destruct Hr as [-> Hd]. eexists. split; [reflexivity|].
    left. exists (<[4%nat := 0]> hdr). split; [exact (header_dense hdr _ Hh)|exact Hd].
Qed.

(** C4: on any string shorter than 2 GiB that passes the check of the header,
    whatever the other bytes, merging, conversion and the histogram stay within the string and
    its terminator, and agree: all three report corruption when the opcodes do
    not stand for exactly 16384 registers, and otherwise they work on the
    same registers.  On a longer string [hllCount] passes a truncated length to
    the histogram ([sparse_histo_truncates]). *)
Theorem hll_corruption_detected o c max : stores o c -> bytes_ok c -> zlen c < 2 ^ 31 -> isHLLString o = Some true -> length max = NREGS -> bytes_ok max ->
  match decode c with
  | None => hllMerge max o = Some None /\ hllSparseToDense usable junk o = Some None /\ exists h, count_histo (sds_buf o) (sdslen o) = Some (true, h)
  | Some regs => registers regs /\ hllMerge max o = Some (Some (zip_with Z.max max regs)) /\
      (exists o', hllSparseToDense usable junk o = Some (Some o') /\ hllrep o' regs) /\
      count_histo (sds_buf o) (sdslen o) = Some (false, histogram regs)
  end.
Proof using usable_ok.
  intros Hst Hb Hint Hchk Hm Hmb. destruct (check_spec o c Hst Hb) as (r & E & Hr). rewrite Hchk in E. injection E as <-. pose proof (proj1 Hr eq_refl) as Hs. clear Hr.
  pose proof (merge_any o c max Hst Hs Hm Hmb) as Hmerge. destruct (dense_any o c Hst Hs) as (d & Ed & Hd). destruct (count_string o c Hst Hs Hint) as (h & Eh & Hh).
  pose proof (decode_registers c) as Hreg. rewrite Ed, Eh, Hmerge. destruct (decode c) as [regs|].
  - split_and!; [by apply Hreg|reflexivity| |rewrite (Hh regs eq_refl), bool_decide_eq_false_2 by discriminate; reflexivity].
    destruct d as [o'|]; [|discriminate]. destruct Hd as (regs' & [= <-] & Ho'). by exists o'.
  - split_and!; [reflexivity| |exists h; by rewrite bool_decide_eq_true_2]. destruct d as [o'|]; [|reflexivity]. by destruct Hd as (? & ? & _).
Qed.
End Corrupt.

(** C5: the three optimised histograms, of packed registers in blocks of 12
    bytes, of opcodes and of raw registers by words of 8 bytes, are the number
    of registers of each value. *)
Theorem hll_histograms_count o regs : hllrep o regs ->
  count_histo (sds_buf o) (sdslen o) = Some (false, histogram regs) /\ hllRawRegHisto regs (replicate 64 0) = Some (histogram regs) /\
  forall v, (v < 64)%nat -> histogram regs !! v = Some (count_of (Z.of_nat v) regs).
Proof.
  intros Hrep. destruct (rep_decode o regs Hrep) as (c & Hst & Hs & Hd). destruct (count_string o c Hst Hs) as (h & -> & Hh).
  { destruct (rep_wf o regs Hrep) as [_ Hl]. destruct Hst as [_ <-]. lia. }
  destruct (rep_registers o regs Hrep) as [Hl Hr]. split_and!.
  - rewrite (Hh regs Hd), bool_decide_eq_false_2 by (rewrite Hd; discriminate). reflexivity.
  - exact (raw_histo regs _ Hl Hr (length_replicate 64 0)).
  - intros v Hv. by apply histogram_lookup.
Qed.

Section Add.
Context (usable : Z -> Z) (junk : nat -> Z) (je_nallocx : option (Z -> Z)) (hll_sparse_max_bytes : Z).
Context (usable_ok : forall n, 0 <= n < 2 ^ 63 -> n <= usable n < 2 ^ 64).
Context (nallocx_ok : forall f n, je_nallocx = Some f -> 0 <= n < 2 ^ 63 -> n <= f n).
Context (max_ok : 32 <= hll_sparse_max_bytes < 2 ^ 61).

(** C3: adding an element to a value of either encoding raises the register
    of its hash to the length of the run of zeroes, if that is greater,
    leaves every other register, keeps all within 6 bits, and returns whether
    it did; in the sparse encoding the opcode is replaced, split, merged with
    its neighbours, or the whole value converted.  This is for a setting of
    hll-sparse-max-bytes of at least 32 and below 2^61 ([max_ok]): below 32 the
    add can stop at an assertion of [sdsIncrLen] ([zero_delta_stops]).  The
    allocator returns at least what is asked for. *)
Theorem hllAdd_correct o regs ele : hllrep o regs ->
  let '(count, index) := hllPatLen ele in
  exists old o', 0 <= index < HLL_REGISTERS /\ 1 <= count <= HLL_Q + 1 /\ regs !! Z.to_nat index = Some old /\
    hllAdd usable junk je_nallocx hll_sparse_max_bytes o ele = Some (o', Z.b2z (old <? count)) /\
    hllrep o' (<[Z.to_nat index := Z.max old count]> regs) /\ registers (<[Z.to_nat index := Z.max old count]> regs).
Proof using usable_ok nallocx_ok max_ok.
  intros Hrep. destruct (hll_add_spec usable junk je_nallocx hll_sparse_max_bytes usable_ok nallocx_ok max_ok o regs ele Hrep) as (o' & E & Hr & _).
  pose proof (patlen_range ele) as Hp. unfold add, raises in *. destruct (hllPatLen ele) as [count index]. destruct Hp as [Hc Hi].
  destruct (registers_lookup regs index (rep_registers o regs Hrep) Hi) as (old & Eo & _). rewrite Eo in *. cbn [default from_option id] in *.
  exists old, o'. split_and!; [lia|lia|lia|lia|reflexivity|exact E|exact Hr|exact (rep_registers o' _ Hr)].
Qed.
End Add.

(** ** Witnesses *)

(** An empty value of 18 bytes. *)
Definition sample_bytes : list Z := new_header ++ [127; 255].
Definition sample_value : sds := Mk SDS_TYPE_8 18 24 (sample_bytes ++ replicate 7 0).

Lemma sample_stores : stores sample_value sample_bytes.
Proof. split; [|reflexivity]. constructor; try reflexivity; vm_compute; repeat split; discriminate. Qed.

Lemma sample_rep : hllrep sample_value (replicate NREGS 0).
Proof.
  right. exists new_header, [XZERO HLL_REGISTERS]. split_and!; [exact new_header_ok| |exact all_zero|rewrite length_replicate; exact NREGS_eq].
  split; [exact sample_stores|]. repeat constructor; unfold HLL_REGISTERS; lia.
Qed.

Lemma hllAdd_correct_witness :
  let '(count, index) := hllPatLen (str "a") in
  exists old o', 0 <= index < HLL_REGISTERS /\ 1 <= count <= HLL_Q + 1 /\ replicate NREGS 0 !! Z.to_nat index = Some old /\
    hllAdd usable8 (fun _ => 0) None 3000 sample_value (str "a") = Some (o', Z.b2z (old <? count)) /\
    hllrep o' (<[Z.to_nat index := Z.max old count]> (replicate NREGS 0)) /\ registers (<[Z.to_nat index := Z.max old count]> (replicate NREGS 0)).
Proof. exact (hllAdd_correct usable8 (fun _ => 0) None 3000 usable8_ok ltac:(discriminate) ltac:(lia) sample_value (replicate NREGS 0) (str "a") sample_rep). Defined.

Lemma hll_histograms_count_witness :
  count_histo (sds_buf sample_value) (sdslen sample_value) = Some (false, histogram (replicate NREGS 0)) /\
  hllRawRegHisto (replicate NREGS 0) (replicate 64 0) = Some (histogram (replicate NREGS 0)) /\
  forall v, (v < 64)%nat -> histogram (replicate NREGS 0) !! v = Some (count_of (Z.of_nat v) (replicate NREGS 0)).
Proof. exact (hll_histograms_count sample_value (replicate NREGS 0) sample_rep). Defined.

(** A header followed by one opcode, of a single register. *)
Definition short_bytes : list Z := new_header ++ [0].
Definition short_value : sds := Mk SDS_TYPE_8 17 24 (short_bytes ++ replicate 8 0).

Lemma short_stores : stores short_value short_bytes.
Proof. split; [|reflexivity]. constructor; try reflexivity; vm_compute; repeat split; discriminate. Qed.

Lemma short_bytes_ok : bytes_ok short_bytes.
Proof. unfold byte_ok. apply (bool_decide_unpack _). vm_compute. exact I. Qed.

Lemma zero_bytes_ok n : bytes_ok (replicate n 0).
Proof. apply Forall_replicate. unfold byte_ok. lia. Qed.

Lemma hll_corruption_detected_witness :
  match decode short_bytes with
  | None => hllMerge (replicate NREGS 0) short_value = Some None /\ hllSparseToDense usable8 (fun _ => 0) short_value = Some None /\
      exists h, count_histo (sds_buf short_value) (sdslen short_value) = Some (true, h)
  | Some regs => registers regs /\ hllMerge (replicate NREGS 0) short_value = Some (Some (zip_with Z.max (replicate NREGS 0) regs)) /\
      (exists o', hllSparseToDense usable8 (fun _ => 0) short_value = Some (Some o') /\ hllrep o' regs) /\
      count_histo (sds_buf short_value) (sdslen short_value) = Some (false, histogram regs)
  end.
Proof.
  exact (hll_corruption_detected usable8 (fun _ => 0) usable8_ok short_value short_bytes (replicate NREGS 0) short_stores short_bytes_ok eq_refl eq_refl
    (length_replicate NREGS 0) (zero_bytes_ok NREGS)).
Defined.

Example short_corrupted : decode short_bytes = None.
Proof. reflexivity. Qed.

(** ** Corners of [hllSparseSet] *)

(** A string below 32 bytes has the smallest header, whose length cannot be
    changed by zero: with a limit below its size the string is not grown, and
    the split of a run of 65 zeroes into two opcodes of one byte stops at the
    assertion of [sdsIncrLen]. *)
Definition small_string : sds := Mk SDS_TYPE_5 20 0 (new_header ++ HLL_SPARSE_XZERO_SET 16319 ++ HLL_SPARSE_XZERO_SET 65 ++ [0]).

Example zero_delta_stops : isHLLString small_string = Some true /\ decode (content small_string) <> None /\
  hllSparseSet usable8 (fun _ => 0) None 16 small_string 16319 1 = None.
Proof. split_and!; [reflexivity|vm_compute; discriminate|reflexivity]. Qed.

(** A run of zeroes whose second byte is missing is read with the terminator
    and accepted; setting one of its registers then writes over the
    terminator. *)
Definition cut_string : sds := Mk SDS_TYPE_8 21 40 (new_header ++ concat (replicate 3 [63]) ++ [62; 127] ++ replicate 20 0).

Example cut_opcode_accepted : isHLLString cut_string = Some true /\ decode (content cut_string) <> None /\
  exists o, hllSparseSet usable8 (fun _ => 0) None 3000 cut_string 300 1 = Some (o, 1) /\ rd (sds_buf o) (sds_len o) <> Some 0.
Proof. split_and!; [reflexivity|vm_compute; discriminate|]. eexists. split; [reflexivity|vm_compute; discriminate]. Qed.
End HllValue.
