(* ===== verification/HllCmd.v ===== *)
(** * The HyperLogLog commands ([redis-stable/src/hyperloglog.c])

    [PFADD], [PFCOUNT] and [PFMERGE] on a database of values; their
    refinement of sets of elements. *)

From stdpp Require Import gmap.
From S2P Require Import Prelude Sds HllFormula Hll HllDense HllSparse HllSet HllValue.

Module HllCmd.
Import Sds Hll HllDense HllSparse HllSet HllValue.

(** ** The commands *)

Abbreviation key := (list Z).

(** A string, with whether it is unshared and of the raw encoding; a string
    of the integer encoding; another type. *)
Inductive obj := HStr (raw : bool) (o : sds) | HInt | HOther.

Inductive reply := RInt (v : Z) | RErr (msg : list Z) | ROk.

Record st := St {
  db : gmap key obj;
  dirty : Z;
  modified : list key;               (** [keyModified] calls *)
  events : list (list Z * key);      (** [notifyKeyspaceEvent] calls *)
  out : list reply                   (** replies, oldest first *)
}.

Definition put (k : key) (o : sds) (s : st) : st := St (<[k := HStr true o]> (db s)) (dirty s) (modified s) (events s) (out s).
Definition add_reply (r : reply) (s : st) : st := St (db s) (dirty s) (modified s) (events s) (out s ++ [r]).
Definition keyModified (k : key) (s : st) : st := St (db s) (dirty s) (modified s ++ [k]) (events s) (out s).
Definition notify (e : list Z) (k : key) (s : st) : st := St (db s) (dirty s) (modified s) (events s ++ [(e, k)]) (out s).
Definition add_dirty (n : Z) (s : st) : st := St (db s) (dirty s + n) (modified s) (events s) (out s).

Definition err_type : list Z := str "-WRONGTYPE Operation against a key holding the wrong kind of value".
Definition err_hll : list Z := str "-WRONGTYPE Key is not a valid HyperLogLog string value.".
Definition invalid_hll_err : list Z := str "-INVALIDOBJ Corrupted HLL object detected".

(** [None] inside for [C_OK], or the error that is replied. *)
Definition isHLLObjectOrReply (o : obj) : option (option (list Z)) :=
  match o with
  | HOther => Some (Some err_type)
  | HInt => Some (Some err_hll)
  | HStr _ o => ok ← isHLLString o; Some (if ok : bool then None else Some err_hll)
  end.

Definition card (b : list Z) : option Z := w ← rdn b 8 8; Some (le_val w).

Section Commands.
Context (usable : Z -> Z) (junk : nat -> Z) (je_nallocx : option (Z -> Z)) (hll_sparse_max_bytes : Z).
Context (unspecified : list Z -> Z).

Definition dbUnshareStringValue (raw : bool) (o : sds) : option sds :=
  if raw then Some o else sdsnewlen usable junk (Init (sds_buf o)) (sdslen o).

(** The elements in turn; [None] inside for a corrupted value. *)
Fixpoint pfadd_loop (els : list (list Z)) (o : sds) (updated : Z) : option (sds * option Z) :=
  match els with
  | [] => Some (o, Some updated)
  | ele :: els =>
    '(o, retval) ← hllAdd usable junk je_nallocx hll_sparse_max_bytes o ele;
    if retval =? 1 then pfadd_loop els o (updated + 1)
    else if retval =? -1 then Some (o, None)
    else pfadd_loop els o updated
  end.

Definition pfadd_value (k : key) (els : list (list Z)) (o : sds) (updated : Z) (s : st) : option st :=
  '(o, r) ← pfadd_loop els o updated;
  match r with
  | None => Some (add_reply (RErr invalid_hll_err) (put k o s))
  | Some updated =>
    if updated =? 0 then Some (add_reply (RInt 0) (put k o s))
    else
      b ← HLL_INVALIDATE_CACHE (sds_buf o);
      Some (add_reply (RInt 1) (add_dirty updated (notify (str "pfadd") k (keyModified k (put k (set_buf o b) s)))))
  end.

Definition pfaddCommand (k : key) (els : list (list Z)) (s : st) : option st :=
  match db s !! k with
  | None => o ← createHLLObject usable junk; pfadd_value k els o 1 (notify (str "new") k (put k o s))
  | Some v =>
    err ← isHLLObjectOrReply v;
    match err, v with
    | Some msg, _ => Some (add_reply (RErr msg) s)
    | None, HStr raw o => o ← dbUnshareStringValue raw o; pfadd_value k els o 0 (put k o s)
    | None, _ => None
    end
  end.

(** The loop of [PFCOUNT] and [PFMERGE] over their keys: an error or the
    registers, and whether a value is dense. *)
Fixpoint merge_keys (d : gmap key obj) (keys : list key) (max : list Z) (use_dense : bool) : option (list Z + list Z * bool) :=
  match keys with
  | [] => Some (inr (max, use_dense))
  | k :: keys =>
    match d !! k with
    | None => merge_keys d keys max use_dense
    | Some v =>
      err ← isHLLObjectOrReply v;
      match err, v with
      | Some msg, _ => Some (inl msg)
      | None, HStr _ o =>
        enc ← hdr_encoding (sds_buf o);
        r ← hllMerge max o;
        match r with
        | None => Some (inl invalid_hll_err)
        | Some max => merge_keys d keys max (use_dense || (enc =? HLL_DENSE))
        end
      | None, _ => None
      end
    end
  end.

Definition raw_header : list Z := replicate 4 0 ++ [HLL_RAW] ++ replicate 11 0.

Definition pfcount_union (keys : list key) (s : st) : option st :=
  r ← merge_keys (db s) keys (replicate (Z.to_nat HLL_REGISTERS) 0) false;
  match r with
  | inl msg => Some (add_reply (RErr msg) s)
  | inr (max, _) => '(_, c) ← hllCount unspecified (raw_header ++ max) 0; Some (add_reply (RInt (swrap 64 c)) s)
  end.

Definition pfcount_value (k : key) (o : sds) (s : st) : option st :=
  valid ← HLL_VALID_CACHE (sds_buf o);
  if valid : bool then c ← card (sds_buf o); Some (add_reply (RInt (swrap 64 c)) s)
  else
    '(invalid, c) ← hllCount unspecified (sds_buf o) (sdslen o);
    if invalid : bool then Some (add_reply (RErr invalid_hll_err) s)
    else
      b ← wrn (sds_buf o) 8 (le_bytes 8 c);
      Some (add_reply (RInt (swrap 64 c)) (add_dirty 1 (keyModified k (put k (set_buf o b) s)))).

Definition pfcountCommand (keys : list key) (s : st) : option st :=
  match keys with
  | [k] =>
    match db s !! k with
    | None => Some (add_reply (RInt 0) s)
    | Some v =>
      err ← isHLLObjectOrReply v;
      match err, v with
      | Some msg, _ => Some (add_reply (RErr msg) s)
      | None, HStr raw o => o ← dbUnshareStringValue raw o; pfcount_value k o (put k o s)
      | None, _ => None
      end
    end
  | _ => pfcount_union keys s
  end.

(** A register of the destination, whose result is not used. *)
Definition pfmerge_set (o : sds) (j v : Z) : option sds :=
  enc ← hdr_encoding (sds_buf o);
  if enc =? HLL_DENSE then '(b, _) ← hllDenseSet (sds_buf o) HLL_HDR_SIZE j v; Some (set_buf o b)
  else if enc =? HLL_SPARSE then '(o, _) ← hllSparseSet usable junk je_nallocx hll_sparse_max_bytes o j v; Some o
  else Some o.

Definition pfmerge_store (o : sds) (max : list Z) : option sds :=
  run_loop (fun j o => v ← rd max j; if v =? 0 then Some o else pfmerge_set o j v) (Z.to_nat HLL_REGISTERS) 0 o.

Definition pfmerge_value (k : key) (o : sds) (max : list Z) (use_dense : bool) (s : st) : option st :=
  r ← (if use_dense then hllSparseToDense usable junk o else Some (Some o));
  match r with
  | None => Some (add_reply (RErr invalid_hll_err) s)
  | Some o =>
    o ← (if use_dense then b ← hllDenseCompress (sds_buf o) HLL_HDR_SIZE max; Some (set_buf o b) else pfmerge_store o max);
    b ← HLL_INVALIDATE_CACHE (sds_buf o);
    Some (add_reply ROk (add_dirty 1 (notify (str "pfadd") k (keyModified k (put k (set_buf o b) s)))))
  end.

Definition pfmergeCommand (k : key) (srcs : list key) (s : st) : option st :=
  r ← merge_keys (db s) (k :: srcs) (replicate (Z.to_nat HLL_REGISTERS) 0) false;
  match r with
  | inl msg => Some (add_reply (RErr msg) s)
  | inr (max, use_dense) =>
    match db s !! k with
    | None => o ← createHLLObject usable junk; pfmerge_value k o max use_dense (notify (str "new") k (put k o s))
    | Some (HStr raw o) => o ← dbUnshareStringValue raw o; pfmerge_value k o max use_dense (put k o s)
    | Some _ => None
    end
  end.
End Commands.

(** ** Values under the commands *)

Lemma read_stored o c i : stores o c -> 0 <= i < zlen c -> rd (sds_buf o) i = c !! Z.to_nat i.
Proof. intros Hst Hi. destruct (stores_buf _ _ Hst) as (rest & -> & _). rewrite rd_lookup, lookup_app_l by lia. reflexivity. Qed.

Lemma readn_stored o c i n : stores o c -> 0 <= i -> 0 <= n -> i + n <= zlen c -> rdn (sds_buf o) i n = Some (take (Z.to_nat n) (drop (Z.to_nat i) c)).
Proof.
  intros Hst Hi Hn Hle. destruct (stores_buf _ _ Hst) as (rest & -> & _). apply rdn_Some. rewrite length_app. split_and!; try lia.
  rewrite drop_app_le, take_app_le by (rewrite ?length_drop; lia). reflexivity.
Qed.

(** A value is what its content says. *)
Lemma rep_content o o' regs : hllrep o regs -> wf o' -> content o' = content o -> hllrep o' regs.
Proof.
  intros Hrep Hwf Hc. destruct Hrep as [(hdr & Hh & body & [_ Hst] & Ha)|(hdr & ops & Hh & [[_ Hst] Hok] & He)].
  - left. exists hdr. split; [exact Hh|]. exists body. split; [split; [exact Hwf|by rewrite Hc]|exact Ha].
  - right. exists hdr, ops. split_and!; [exact Hh|split; [split; [exact Hwf|by rewrite Hc]|exact Hok]|apply He|apply He].
Qed.

(** The header is replaced by one of the same encoding. *)
Lemma rep_rehead o o' hdr hdr' body e regs : stores o (hdr ++ body) ->
  (e = HLL_DENSE /\ dense_value o hdr regs \/
   e = HLL_SPARSE /\ exists ops, body = encs ops /\ opcode_value o hdr ops /\ expands ops = regs /\ zlen regs = HLL_REGISTERS) ->
  header hdr' e -> stores o' (hdr' ++ body) -> hllrep o' regs.
Proof.
  intros Hst Hcase Hh' Hst'.
  destruct Hcase as [[-> (body' & Hst2 & Ha)]|[-> (ops & -> & [_ Hok] & Hr)]].
  - assert (body' = body) as -> by (destruct Hst as [_ E1]; destruct Hst2 as [_ E2]; rewrite E1 in E2; by apply app_inj_1 in E2 as [_ ->]).
    left. exists hdr'. split; [exact Hh'|]. by exists body.
  - right. exists hdr', ops. split_and!; [exact Hh'|split; [exact Hst'|exact Hok]|apply Hr|apply Hr].
Qed.

Lemma rep_header o regs : hllrep o regs -> exists hdr body rest, sds_buf o = hdr ++ body ++ 0 :: rest /\ zlen hdr = HLL_HDR_SIZE /\ bytes_ok hdr /\
  forall hdr', length hdr' = length hdr -> bytes_ok hdr' -> take 8 hdr' = take 8 hdr -> hllrep (set_buf o (hdr' ++ body ++ 0 :: rest)) regs.
Proof.
  intros Hrep. destruct (rep_encoding o regs Hrep) as (hdr & body & e & Hh & Hst & _ & Hcase). destruct (stores_buf _ _ Hst) as (rest & Hb & _).
  pose proof Hh as [Hl Hhb Hm He]. exists hdr, body, rest. split_and!; [by rewrite Hb, <- app_assoc|exact Hl|exact Hhb|].
  intros hdr' Hl' Hb' Ht. assert (header hdr' e) as Hh'.
  { constructor; [lia|exact Hb'| |].
    - rewrite <- Hm. change 4%nat with (Nat.min 4 8). rewrite <- !take_take, Ht. reflexivity.
    - rewrite <- He, <- (lookup_take_lt hdr' 8 4), <- (lookup_take_lt hdr 8 4), Ht by lia. reflexivity. }
  assert (stores (set_buf o (hdr' ++ body ++ 0 :: rest)) (hdr' ++ body)) as Hst'.
  { rewrite app_assoc. apply (stores_set o (hdr ++ body) (hdr' ++ body) rest rest Hst Hb); [by rewrite !length_app, Hl'|reflexivity]. }
  exact (rep_rehead o _ hdr hdr' body e regs Hst Hcase Hh' Hst').
Qed.

Lemma rep_invalidate o regs : hllrep o regs ->
  exists b, HLL_INVALIDATE_CACHE (sds_buf o) = Some b /\ hllrep (set_buf o b) regs /\ HLL_VALID_CACHE b = Some false.
Proof.
  intros Hrep. destruct (rep_encoding o regs Hrep) as (hdr & body & e & Hh & Hst & _ & Hcase).
  destruct (invalidate o hdr body e Hh Hst) as (b & hdr' & E & Hh' & Hst' & Hv). exists b. split_and!; [exact E| |exact Hv].
  exact (rep_rehead o _ hdr hdr' body e regs Hst Hcase Hh' Hst').
Qed.

(** A cardinality is stored and read back, and is valid. *)
Lemma rep_card o regs c : hllrep o regs -> in_u 64 c ->
  exists b, wrn (sds_buf o) 8 (le_bytes 8 c) = Some b /\ hllrep (set_buf o b) regs /\ card b = Some c.
Proof.
  intros Hrep Hc. destruct (rep_header o regs Hrep) as (hdr & body & rest & Hb & Hl & Hhb & Hset). unfold HLL_HDR_SIZE in Hl.
  assert (wrn (sds_buf o) 8 (le_bytes 8 c) = Some ((take 8 hdr ++ le_bytes 8 c) ++ body ++ 0 :: rest)) as E.
  { rewrite Hb. rewrite <- (take_drop 8 hdr) at 1. rewrite <- !app_assoc. apply wrn_app; [rewrite length_take; lia|].
    rewrite length_drop, le_bytes_length. lia. }
  eexists. split_and!; [exact E| |].
  - apply Hset; [rewrite length_app, length_take, le_bytes_length; lia|apply Forall_app_2; [by apply Forall_take|apply le_bytes_ok]|].
    rewrite take_app_le by (rewrite length_take; lia). rewrite take_take. reflexivity.
  - unfold card. rewrite <- app_assoc. rewrite rdn_app by (rewrite ?length_take, ?le_bytes_length; lia). mred.
    rewrite le_val_bytes. f_equal. apply Z.mod_small. exact Hc.
Qed.

Lemma sketch_registers els : registers (sketch els).
Proof.
  constructor; [apply sketch_length|]. apply Forall_lookup_2. intros i x Hx.
  assert (i < NREGS)%nat as Hi by (apply lookup_lt_Some in Hx; by rewrite sketch_length in Hx). rewrite sketch_lookup in Hx by exact Hi. injection Hx as <-.
  destruct (height_spec els i) as (H0 & _ & [H|(ele & _ & Hg)]); [lia|]. unfold gives in Hg. pose proof (patlen_range ele) as Hp. destruct (hllPatLen ele) as [c ix].
  change HLL_Q with 50 in Hp. lia.
Qed.

(** How many of the elements raise a register. *)
Fixpoint changes (els : list (list Z)) (regs : list Z) : Z :=
  match els with [] => 0 | ele :: els => Z.b2z (raises ele regs) + changes els (add ele regs) end.

Lemma changes_nonneg els : forall regs, 0 <= changes els regs.
Proof. induction els as [|e els IH]; intros regs; cbn [changes]; [lia|]. specialize (IH (add e regs)). destruct (raises e regs); cbn [Z.b2z]; lia. Qed.

Lemma add_registers ele regs : registers regs -> registers (add ele regs).
Proof.
  intros Hr. pose proof (patlen_range ele) as Hp. unfold add. destruct (hllPatLen ele) as [c ix]. destruct Hp as [Hc Hi].
  destruct (registers_lookup regs ix Hr Hi) as (r & E & H). rewrite E. cbn [default from_option id]. destruct Hr as [Hl Hf].
  constructor; [by rewrite length_insert|]. apply Forall_insert; [exact Hf|]. change HLL_Q with 50 in Hc. lia.
Qed.

(** The registers are the same exactly when no element raises one. *)
Definition total (regs : list Z) : Z := foldr Z.add 0 regs.

Lemma total_insert regs i x v : regs !! i = Some x -> total (<[i := v]> regs) = total regs + v - x.
Proof.
  revert i. induction regs as [|y regs IH]; intros [|i] Hi; try discriminate; cbn [insert list_insert total foldr].
  - cbn in Hi. injection Hi as ->. fold (total regs). lia.
  - fold (total regs) (total (<[i := v]> regs)). rewrite IH by exact Hi. lia.
Qed.

Lemma total_add ele regs : registers regs -> total regs + Z.b2z (raises ele regs) <= total (add ele regs).
Proof.
  intros Hr. pose proof (patlen_range ele) as Hp. unfold add, raises. destruct (hllPatLen ele) as [c ix]. destruct Hp as [Hc Hi].
  destruct (registers_lookup regs ix Hr Hi) as (r & E & H). rewrite E. cbn [default from_option id]. rewrite (total_insert regs _ r) by exact E.
  destruct (Z.ltb_spec r c); cbn [Z.b2z]; lia.
Qed.

Lemma total_add_all els : forall regs, registers regs -> total regs + changes els regs <= total (add_all els regs).
Proof.
  induction els as [|e els IH]; intros regs Hr; cbn [changes add_all foldl]; [lia|]. fold (add_all els (add e regs)).
  specialize (IH (add e regs) (add_registers e regs Hr)). pose proof (total_add e regs Hr). lia.
Qed.

Lemma changes_zero els regs : registers regs -> changes els regs = 0 <-> add_all els regs = regs.
Proof.
  intros Hr. split.
  - revert regs Hr. induction els as [|e els IH]; intros regs Hr; cbn [changes add_all foldl]; [reflexivity|]. fold (add_all els (add e regs)).
    pose proof (changes_nonneg els (add e regs)). destruct (raises e regs) eqn:E; cbn [Z.b2z]; [lia|]. intros H0.
    rewrite (IH (add e regs) (add_registers e regs Hr)) by lia. by apply add_same.
  - intros E. pose proof (total_add_all els regs Hr) as H. rewrite E in H. pose proof (changes_nonneg els regs). lia.
Qed.

(** ** The specification: sets of elements *)

Abbreviation elems := (gset (list Z)).

Definition skt (X : elems) : list Z := sketch (elements X).

Lemma skt_union X Y : skt (X ∪ Y) = zip_with Z.max (skt X) (skt Y).
Proof. unfold skt. rewrite <- sketch_app. apply sketch_set. intros ele. rewrite elem_of_app, !elem_of_elements. apply elem_of_union. Qed.

Lemma skt_empty : skt ∅ = replicate NREGS 0.
Proof. unfold skt. rewrite elements_empty. apply sketch_nil. Qed.

Lemma skt_add X els : add_all els (skt X) = skt (X ∪ list_to_set els).
Proof.
  unfold skt. rewrite add_all_sketch. apply sketch_set. intros ele. rewrite elem_of_app, !elem_of_elements, elem_of_union, elem_of_list_to_set. tauto.
Qed.

Lemma skt_registers X : registers (skt X).
Proof. apply sketch_registers. Qed.

Inductive cmd := PFADD (k : key) (els : list (list Z)) | PFCOUNT (k : key) (keys : list key) | PFMERGE (k : key) (srcs : list key).

Definition union_of (a : gmap key elems) (keys : list key) : elems := ⋃ (map (fun k => default ∅ (a !! k)) keys).

(** The sets after a command, and the reply; the cardinality, a [uint64_t], is
    replied as a [long long]. *)
Definition astep (estimate : list Z -> Z) (a : gmap key elems) (c : cmd) : gmap key elems * reply :=
  match c with
  | PFADD k els =>
    let X := default ∅ (a !! k) in let X' := X ∪ list_to_set els in
    (<[k := X']> a, RInt (if bool_decide (is_Some (a !! k) /\ skt X' = skt X) then 0 else 1))
  | PFCOUNT k keys => (a, RInt (swrap 64 (estimate (histogram (skt (union_of a (k :: keys)))))))
  | PFMERGE k srcs => (<[k := union_of a (k :: srcs)]> a, ROk)
  end.

(** ** The commands on values *)

Section Values.
Context (usable : Z -> Z) (junk : nat -> Z) (je_nallocx : option (Z -> Z)) (hll_sparse_max_bytes : Z) (unspecified : list Z -> Z).
Context (usable_ok : forall n, 0 <= n < 2 ^ 63 -> n <= usable n < 2 ^ 64).
Context (nallocx_ok : forall f n, je_nallocx = Some f -> 0 <= n < 2 ^ 63 -> n <= f n).
Context (max_ok : 32 <= hll_sparse_max_bytes < 2 ^ 61).
Abbreviation estimate := (HllFormula.hll_estimate unspecified).

Lemma estimate_empty : estimate (histogram (replicate NREGS 0)) = 0.
Proof.
  assert (histogram (replicate NREGS 0) = 16384 :: replicate 63 0) as ->; [|apply HllFormula.hll_estimate_empty].
  unfold histogram, tally. rewrite (imap_ext _ (fun v c => if (v =? 0)%nat then HLL_REGISTERS else 0)); [reflexivity|].
  intros v c Hc. apply lookup_replicate in Hc as [-> _]. rewrite count_replicate, NREGS_eq. destruct v; reflexivity.
Qed.

Lemma unshare_spec raw o regs : hllrep o regs ->
  exists o', dbUnshareStringValue usable junk raw o = Some o' /\ hllrep o' regs /\ content o' = content o.
Proof using usable_ok.
  intros Hrep. destruct raw; [by exists o|]. destruct (rep_wf o regs Hrep) as [Hwf Hlen]. pose proof Hwf as [_ Hl _ Hb _].
  pose proof (content_length o Hwf) as Hcl. unfold dbUnshareStringValue, sdslen.
  destruct (newlen_spec usable junk usable_ok (sds_buf o) (sds_len o)) as (o' & -> & Hwf' & Hc); [lia|lia|].
  exists o'. assert (content o' = content o) as Hcc by (by rewrite Hc). split_and!; [reflexivity| |exact Hcc]. exact (rep_content o o' regs Hrep Hwf' Hcc).
Qed.

Lemma pfadd_loop_spec els : forall o regs u, hllrep o regs ->
  exists o', pfadd_loop usable junk je_nallocx hll_sparse_max_bytes els o u = Some (o', Some (u + changes els regs)) /\
    hllrep o' (add_all els regs) /\ (changes els regs = 0 -> content o' = content o).
Proof using usable_ok nallocx_ok max_ok.
  induction els as [|e els IH]; intros o regs u Hrep; cbn [pfadd_loop changes add_all foldl].
  { exists o. rewrite Z.add_0_r. done. }
  fold (add_all els (add e regs)). pose proof (changes_nonneg els (add e regs)) as Hn.
  destruct (hll_add_spec usable junk je_nallocx hll_sparse_max_bytes usable_ok nallocx_ok max_ok o regs e Hrep) as (o1 & -> & Hr1 & Hs1).
  cbn [mbind option_bind]. destruct (raises e regs); cbn [Z.b2z].
  - rewrite Z.eqb_refl. destruct (IH o1 (add e regs) (u + 1) Hr1) as (o' & -> & Hr' & Hs'). exists o'. rewrite Z.add_assoc. split_and!; [reflexivity|exact Hr'|lia].
  - assert ((0 =? 1) = false /\ (0 =? -1) = false) as [-> ->] by done. destruct (IH o1 (add e regs) u Hr1) as (o' & -> & Hr' & Hs').
    exists o'. rewrite Z.add_0_l. split_and!; [reflexivity|exact Hr'|]. intros H0. rewrite (Hs' H0). by apply Hs1.
Qed.

(** The cached cardinality, when it is valid, is that of the registers. *)
Definition cache_ok (o : sds) (regs : list Z) : Prop :=
  HLL_VALID_CACHE (sds_buf o) = Some true -> card (sds_buf o) = Some (estimate (histogram regs)).

Definition holds (o : sds) (X : elems) : Prop := hllrep o (skt X) /\ cache_ok o (skt X).

Definition agree (d : gmap key obj) (a : gmap key elems) (k : key) : Prop :=
  match d !! k, a !! k with
  | None, None => True
  | Some (HStr _ o), Some X => holds o X
  | _, _ => False
  end.

Definition models (d : gmap key obj) (a : gmap key elems) : Prop := forall k, agree d a k.
Definition models_but (k : key) (d : gmap key obj) (a : gmap key elems) : Prop := forall k', k' <> k -> agree d a k'.

Definition exec (c : cmd) (s : st) : option st :=
  match c with
  | PFADD k els => pfaddCommand usable junk je_nallocx hll_sparse_max_bytes k els s
  | PFCOUNT k keys => pfcountCommand usable junk unspecified (k :: keys) s
  | PFMERGE k srcs => pfmergeCommand usable junk je_nallocx hll_sparse_max_bytes k srcs s
  end.

Lemma models_put d a k o X : models_but k d a -> holds o X -> models (<[k := HStr true o]> d) (<[k := X]> a).
Proof.
  intros Hm Ho k'. unfold agree. destruct (decide (k' = k)) as [->|Hne].
  - rewrite !lookup_insert_eq. exact Ho.
  - rewrite !lookup_insert_ne by done. by apply Hm.
Qed.

Lemma models_but_put d a k v : models d a -> models_but k (<[k := v]> d) a.
Proof. intros Hm k' Hne. unfold agree. rewrite lookup_insert_ne by done. apply Hm. Qed.

Lemma cache_content o o' regs regs' : hllrep o regs -> hllrep o' regs' -> content o' = content o -> forall r, cache_ok o r -> cache_ok o' r.
Proof.
  intros Ho Ho' Hc r Hr. destruct (rep_wf o regs Ho) as [Hwf Hl]. destruct (rep_wf o' regs' Ho') as [Hwf' _].
  assert (stores o (content o) /\ stores o' (content o)) as [Hs Hs'] by (split; by split). unfold HLL_HDR_SIZE in Hl.
  unfold cache_ok, HLL_VALID_CACHE, card in *. rewrite (read_stored o _ 15 Hs), (readn_stored o _ 8 8 Hs) in Hr by lia.
  rewrite (read_stored o' _ 15 Hs'), (readn_stored o' _ 8 8 Hs') by lia. exact Hr.
Qed.

Lemma unshare_holds raw o X : holds o X -> exists o', dbUnshareStringValue usable junk raw o = Some o' /\ holds o' X.
Proof using usable_ok.
  intros [Hr Hc]. destruct (unshare_spec raw o _ Hr) as (o' & E & Hr' & Hcc). exists o'. split; [exact E|]. split; [exact Hr'|].
  by apply (cache_content o o' _ _ Hr Hr' Hcc).
Qed.

Lemma check_rep o regs : hllrep o regs -> isHLLString o = Some true.
Proof.
  intros Hrep. destruct (rep_decode o regs Hrep) as (c & Hst & Hs & _). destruct (check_spec o c Hst (hs_bytes _ Hs)) as (r & -> & Hr). by rewrite (proj2 Hr Hs).
Qed.

Lemma stale_holds o b X : hllrep (set_buf o b) (skt X) -> HLL_VALID_CACHE b = Some false -> holds (set_buf o b) X.
Proof. intros Hr Hv. split; [exact Hr|]. unfold cache_ok. cbn [set_buf sds_buf]. rewrite Hv. discriminate. Qed.

Lemma pfadd_value_spec k els o X u s a : hllrep o (skt X) -> (u = 0 -> cache_ok o (skt X)) -> 0 <= u -> models_but k (db s) a ->
  let X' := X ∪ list_to_set els in
  exists s', pfadd_value usable junk je_nallocx hll_sparse_max_bytes k els o u s = Some s' /\ models (db s') (<[k := X']> a) /\
    out s' = out s ++ [RInt (if bool_decide (u = 0 /\ skt X' = skt X) then 0 else 1)].
Proof using usable_ok nallocx_ok max_ok.
  intros Hr Hc Hu Hm X'. unfold pfadd_value. destruct (pfadd_loop_spec els o (skt X) u Hr) as (o' & -> & Hr' & Hsame). cbn [mbind option_bind].
  pose proof (changes_nonneg els (skt X)) as Hn. pose proof (changes_zero els (skt X) (skt_registers X)) as Hz. rewrite skt_add in Hr', Hz. fold X' in Hr', Hz.
  destruct (Z.eqb_spec (u + changes els (skt X)) 0) as [E|E].
  - assert (u = 0 /\ changes els (skt X) = 0) as [Hu0 Hch] by lia. rewrite bool_decide_eq_true_2 by (split; [exact Hu0|by apply Hz]).
    eexists. split_and!; [reflexivity| |reflexivity]. cbn [add_reply put db]. apply models_put; [exact Hm|]. split; [exact Hr'|].
    rewrite (proj1 Hz Hch). apply (cache_content o o' _ _ Hr Hr' (Hsame Hch)). by apply Hc.
  - rewrite bool_decide_eq_false_2 by (intros [H1 H2%Hz]; lia). destruct (rep_invalidate o' _ Hr') as (b & -> & Hrb & Hv). cbn [mbind option_bind].
    eexists. split_and!; [reflexivity| |reflexivity]. apply models_put; [exact Hm|]. by apply stale_holds.
Qed.

Lemma pfadd_spec k els s a : models (db s) a ->
  exists s', exec (PFADD k els) s = Some s' /\ models (db s') (fst (astep estimate a (PFADD k els))) /\
    out s' = out s ++ [snd (astep estimate a (PFADD k els))].
Proof using usable_ok nallocx_ok max_ok.
  intros Hm. cbn [exec astep fst snd]. unfold pfaddCommand. pose proof (Hm k) as Hk. unfold agree in Hk. destruct (db s !! k) as [[raw o| |]|] eqn:Ed; destruct (a !! k) as [X|] eqn:Ea; try done.
  - cbn [isHLLObjectOrReply]. rewrite (check_rep o _ (proj1 Hk)). cbn [mbind option_bind]. destruct (unshare_holds raw o X Hk) as (o' & -> & [Hr Hc]). cbn [mbind option_bind default from_option id].
    destruct (pfadd_value_spec k els o' X 0 (put k o' s) a Hr (fun _ => Hc) ltac:(lia) (models_but_put _ _ _ _ Hm)) as (s' & -> & Hm' & Ho).
    exists s'. split_and!; [reflexivity|exact Hm'|]. rewrite Ho. cbn [put out].
    rewrite (bool_decide_ext (0 = 0 /\ skt (X ∪ list_to_set els) = skt X) (is_Some (Some X) /\ skt (X ∪ list_to_set els) = skt X)); [reflexivity|].
    split; intros [_ H]; (split; [done|exact H]).
  - destruct (create_value usable junk usable_ok) as (o & -> & Hr). cbn [mbind option_bind default from_option id]. rewrite <- skt_empty in Hr.
    destruct (pfadd_value_spec k els o ∅ 1 (notify (str "new") k (put k o s)) a Hr ltac:(lia) ltac:(lia) (models_but_put _ _ _ _ Hm)) as (s' & -> & Hm' & Ho).
    exists s'. split_and!; [reflexivity|exact Hm'|]. rewrite Ho. cbn [put notify out].
    rewrite !bool_decide_eq_false_2; [reflexivity|intros [[? ?] _]; discriminate|lia].
Qed.

(** The loop over keys computes the sketch of the union. *)
Lemma merge_keys_spec d a : models d a -> forall keys Y ud,
  exists ud', merge_keys d keys (skt Y) ud = Some (inr (skt (Y ∪ union_of a keys), ud')).
Proof.
  intros Hm keys. induction keys as [|k keys IH]; intros Y ud; cbn [merge_keys].
  { exists ud. unfold union_of. cbn. by rewrite union_empty_r_L. }
  assert (union_of a (k :: keys) = default ∅ (a !! k) ∪ union_of a keys) as -> by reflexivity. rewrite (assoc_L (∪)).
  pose proof (Hm k) as Hk. unfold agree in Hk. destruct (d !! k) as [[raw o| |]|] eqn:Ed; destruct (a !! k) as [X|] eqn:Ea; try done; cbn [default from_option id].
  - destruct Hk as [Hr _]. cbn [isHLLObjectOrReply]. rewrite (check_rep o _ Hr). cbn [mbind option_bind].
    destruct (rep_encoding o _ Hr) as (hdr & body & e & _ & _ & -> & _). cbn [mbind option_bind].
    destruct (rep_decode o _ Hr) as (c & Hst & Hs & Hd). pose proof (skt_registers Y) as HY.
    rewrite (merge_any o c (skt Y) Hst Hs (registers_length _ HY) (registers_bytes _ HY)), Hd. cbn [mbind option_bind option_map].
    rewrite <- skt_union. apply IH.
  - rewrite union_empty_r_L. apply IH.
Qed.

Lemma merge_all_keys d a keys : models d a ->
  exists ud, merge_keys d keys (replicate (Z.to_nat HLL_REGISTERS) 0) false = Some (inr (skt (union_of a keys), ud)).
Proof.
  intros Hm. rewrite nregs_fold, <- skt_empty. destruct (merge_keys_spec d a Hm keys ∅ false) as (ud & E). rewrite union_empty_l_L in E. by exists ud.
Qed.

Lemma raw_count regs : registers regs -> hllCount unspecified (raw_header ++ regs) 0 = Some (false, estimate (histogram regs)).
Proof.
  intros [Hl Hr]. unfold hllCount, count_histo. assert (hdr_encoding (raw_header ++ regs) = Some HLL_RAW) as -> by reflexivity. cbn [mbind option_bind].
  assert ((HLL_RAW =? HLL_DENSE) = false /\ (HLL_RAW =? HLL_SPARSE) = false) as [-> ->] by done. rewrite Z.eqb_refl.
  assert (drop 16 (raw_header ++ regs) = regs) as -> by reflexivity. rewrite (raw_histo regs _ Hl Hr (length_replicate 64 0)). reflexivity.
Qed.

Lemma pfcount_value_spec k o X s a : holds o X -> models (db s) a -> a !! k = Some X ->
  exists s', pfcount_value unspecified k o s = Some s' /\ models (db s') a /\ out s' = out s ++ [RInt (swrap 64 (estimate (histogram (skt X))))].
Proof.
  intros [Hr Hc] Hm Ha. unfold pfcount_value. destruct (rep_wf o _ Hr) as [Hwf Hl]. unfold HLL_HDR_SIZE in Hl.
  assert (exists v, HLL_VALID_CACHE (sds_buf o) = Some v) as [v Hv].
  { unfold HLL_VALID_CACHE. rewrite (read_stored o (content o)) by (lia || by split). destruct (lookup_lt_is_Some_2 (content o) (Z.to_nat 15)) as [x ->]; [lia|]. by eexists. }
  rewrite Hv. cbn [mbind option_bind]. destruct v.
  - rewrite (Hc Hv). cbn [mbind option_bind]. eexists. split_and!; [reflexivity|exact Hm|]. reflexivity.
  - unfold hllCount. destruct (rep_decode o _ Hr) as (c & Hst & Hs & Hd). destruct (count_string o c Hst Hs) as (h & -> & Hh).
    { destruct Hst as [_ <-]. lia. }
    rewrite (Hh _ Hd), Hd. cbn [mbind option_bind].
    rewrite bool_decide_eq_false_2 by discriminate. destruct (rep_card o _ _ Hr (HllFormula.hll_estimate_range unspecified (histogram (skt X)))) as (b & -> & Hrb & Hcard). cbn [mbind option_bind].
    eexists. split_and!; [reflexivity| |reflexivity].
    cbn [add_reply add_dirty keyModified put db]. rewrite <- (insert_id a k X Ha). apply models_put; [intros k' _; apply Hm|]. split; [exact Hrb|].
    intros _. exact Hcard.
Qed.

Lemma pfcount_union_run keys s max ud : registers max -> merge_keys (db s) keys (replicate (Z.to_nat HLL_REGISTERS) 0) false = Some (inr (max, ud)) ->
  pfcount_union unspecified keys s = Some (add_reply (RInt (swrap 64 (estimate (histogram max)))) s).
Proof.
  intros Hr E. assert (pfcount_union unspecified keys s = ('(_, c) ← hllCount unspecified (raw_header ++ max) 0; Some (add_reply (RInt (swrap 64 c)) s))) as ->.
  { unfold pfcount_union. rewrite E. cbn [mbind option_bind]. reflexivity. }
  rewrite raw_count by exact Hr. cbn [mbind option_bind]. reflexivity.
Qed.

Lemma pfcount_union_spec keys s a : models (db s) a ->
  exists s', pfcount_union unspecified keys s = Some s' /\ models (db s') a /\ out s' = out s ++ [RInt (swrap 64 (estimate (histogram (skt (union_of a keys)))))].
Proof.
  intros Hm. destruct (merge_all_keys (db s) a keys Hm) as (ud & E). rewrite (pfcount_union_run _ _ _ _ (skt_registers _) E).
  eexists. split_and!; [reflexivity|exact Hm|reflexivity].
Qed.

Lemma pfcount_one_spec k s a : models (db s) a ->
  exists s', pfcountCommand usable junk unspecified [k] s = Some s' /\ models (db s') a /\ out s' = out s ++ [RInt (swrap 64 (estimate (histogram (skt (union_of a [k])))))].
Proof using usable_ok.
  intros Hm. unfold pfcountCommand.
  assert (union_of a [k] = default ∅ (a !! k)) as -> by (unfold union_of; cbn [map union_list foldr fmap]; by rewrite union_empty_r_L).
  pose proof (Hm k) as Hk. unfold agree in Hk. destruct (db s !! k) as [[raw o| |]|] eqn:Ed; destruct (a !! k) as [X|] eqn:Ea; try done; cbn [default from_option id].
  - cbn [isHLLObjectOrReply]. rewrite (check_rep o _ (proj1 Hk)). cbn [mbind option_bind]. destruct (unshare_holds raw o X Hk) as (o' & -> & Ho'). cbn [mbind option_bind].
    apply (pfcount_value_spec k o' X (put k o' s) a Ho'); [|exact Ea]. cbn [put db]. rewrite <- (insert_id a k X Ea). apply models_put; [intros k' _; apply Hm|exact Ho'].
  - rewrite skt_empty, estimate_empty. eexists. split_and!; [reflexivity|exact Hm|reflexivity].
Qed.

#[local] Opaque pfcount_union.
Lemma pfcount_spec k keys s a : models (db s) a ->
  exists s', exec (PFCOUNT k keys) s = Some s' /\ models (db s') a /\ out s' = out s ++ [snd (astep estimate a (PFCOUNT k keys))].
Proof using usable_ok.
  intros Hm. destruct keys as [|k2 keys]; [exact (pfcount_one_spec k s a Hm)|exact (pfcount_union_spec (k :: k2 :: keys) s a Hm)].
Qed.
#[local] Transparent pfcount_union.

(** ** Merging into a key *)

Lemma rep_to_dense o regs : hllrep o regs -> exists o' hdr, hllSparseToDense usable junk o = Some (Some o') /\ header hdr HLL_DENSE /\ dense_value o' hdr regs.
Proof using usable_ok.
  intros [(hdr & Hh & Hd)|(hdr & ops & Hh & [Hst Hok] & <- & Hlen)].
  - pose proof Hd as (body & Hst & _). exists o, hdr. split_and!; [|exact Hh|exact Hd].
    unfold hllSparseToDense. rewrite (encoding_read o hdr body _ Hh Hst). cbn [mbind option_bind]. rewrite Z.eqb_refl. reflexivity.
  - destruct (to_dense usable junk usable_ok o hdr (encs ops) HLL_SPARSE Hst (header_len _ _ Hh) (encs_bytes ops Hok) (header_encoding _ _ Hh)) as (r & E & Hr); [discriminate|].
    rewrite opcodes_encs in Hr by exact Hok. unfold accepted in Hr. rewrite Hlen, Z.eqb_refl in Hr. destruct r as [o'|]; [|discriminate].
    exists o', (<[4%nat := 0]> hdr). split_and!; [exact E|exact (header_dense hdr _ Hh)|apply Hr].
Qed.

Lemma dense_compress o hdr regs max : dense_value o hdr regs -> header hdr HLL_DENSE -> registers max ->
  exists b, hllDenseCompress (sds_buf o) HLL_HDR_SIZE max = Some b /\ hllrep (set_buf o b) max.
Proof.
  intros (body & Hst & Ha & _) Hh [Hl Hr]. destruct (stores_buf _ _ Hst) as (rest & Hb & _).
  assert (sds_buf o = hdr ++ (body ++ [0]) ++ rest) as -> by (rewrite Hb, <- !app_assoc; reflexivity). rewrite <- (header_len _ _ Hh).
  destruct (pack_registers_spec hdr (body ++ [0]) rest max Ha Hl Hr) as (l' & E & Hl' & Hm). eexists. split; [exact E|]. left. exists hdr. split; [exact Hh|].
  rewrite <- Hm. apply (dense_of_buf o _ rest _ hdr l' Hst Hb); [reflexivity|exact Hl'|].
  destruct Ha as [_ Hal _]. rewrite length_app in *. cbn [length] in Hal. lia.
Qed.

Lemma pfmerge_set_spec o regs j v old : hllrep o regs -> 0 <= j < HLL_REGISTERS -> 1 <= v < 64 -> regs !! Z.to_nat j = Some old ->
  exists o', pfmerge_set usable junk je_nallocx hll_sparse_max_bytes o j v = Some o' /\ hllrep o' (<[Z.to_nat j := Z.max old v]> regs).
Proof using usable_ok nallocx_ok max_ok.
  intros Hr Hj Hv Hold. destruct (set_any_spec usable junk je_nallocx hll_sparse_max_bytes usable_ok nallocx_ok max_ok o regs j v old Hr Hj Hv Hold) as (o' & E & Hr' & _).
  exists o'. split; [|exact Hr']. unfold pfmerge_set. unfold set_any in E. destruct (hdr_encoding (sds_buf o)) as [e|]; [|discriminate]. cbn [mbind option_bind] in *.
  destruct (e =? HLL_DENSE).
  - destruct (hllDenseSet _ _ _ _) as [[b r]|]; [|discriminate]. cbn [mbind option_bind] in *. by injection E as <- _.
  - destruct (e =? HLL_SPARSE); [|by injection E as <- _]. rewrite E. reflexivity.
Qed.

Lemma pfmerge_store_spec o regs max : hllrep o regs -> registers max ->
  exists o', pfmerge_store usable junk je_nallocx hll_sparse_max_bytes o max = Some o' /\ hllrep o' (zip_with Z.max regs max).
Proof using usable_ok nallocx_ok max_ok.
  intros Hrep [Hl Hm]. pose proof (registers_length _ (rep_registers o regs Hrep)) as Hlr. unfold pfmerge_store. rewrite nregs_fold.
  destruct (run_all (fun j o => v ← rd max j; if v =? 0 then Some o else pfmerge_set usable junk je_nallocx hll_sparse_max_bytes o j v) hllrep
    (fun i x => Z.max x (default 0 (max !! i))) regs o) as (o' & E & Hr').
  - intros o0 Lp x Lq Hr0. pose proof (rep_registers _ _ Hr0) as [Hl0 Hf0]. rewrite length_app in Hl0. cbn [length] in Hl0.
    destruct (lookup_lt_is_Some_2 max (length Lp)) as [v Ev]; [lia|]. rewrite rd_lookup, Nat2Z.id, Ev by lia. cbn [mbind option_bind default from_option id].
    assert (0 <= v < 64) as Hv by (rewrite Forall_lookup in Hm; by eapply Hm). apply Forall_app in Hf0 as [_ Hf0]. apply Forall_cons in Hf0 as [Hx _].
    destruct (Z.eqb_spec v 0) as [->|Hne]; [exists o0; rewrite Z.max_l by lia; by split|].
    destruct (pfmerge_set_spec o0 (Lp ++ x :: Lq) (zlen Lp) v x Hr0) as (o1 & E1 & Hr1); [nlia|lia| |].
    + rewrite Nat2Z.id, lookup_app_r, Nat.sub_diag by lia. reflexivity.
    + exists o1. split; [exact E1|]. rewrite Nat2Z.id, insert_middle in Hr1. exact Hr1.
  - exact Hrep.
  - exact Hlr.
  - exists o'. split; [exact E|]. assert (zip_with Z.max regs max = imap (fun i x => Z.max x (default 0 (max !! i))) regs) as ->; [|exact Hr'].
    apply list_eq. intros i. rewrite lookup_zip_with, list_lookup_imap. destruct (regs !! i) as [x|] eqn:Ex; [|reflexivity].
    destruct (lookup_lt_is_Some_2 max i) as [v Ev]; [apply lookup_lt_Some in Ex; lia|]. rewrite Ev. reflexivity.
Qed.

Lemma pfmerge_value_spec k o X Y ud s a : hllrep o (skt X) -> X ⊆ Y -> models_but k (db s) a ->
  exists s', pfmerge_value usable junk je_nallocx hll_sparse_max_bytes k o (skt Y) ud s = Some s' /\ models (db s') (<[k := Y]> a) /\ out s' = out s ++ [ROk].
Proof using usable_ok nallocx_ok max_ok.
  intros Hr Hsub Hm. unfold pfmerge_value.
  assert (exists o1 o2, (if ud then hllSparseToDense usable junk o else Some (Some o)) = Some (Some o1) /\
    (if ud then b ← hllDenseCompress (sds_buf o1) HLL_HDR_SIZE (skt Y); Some (set_buf o1 b) else pfmerge_store usable junk je_nallocx hll_sparse_max_bytes o1 (skt Y)) = Some o2 /\
    hllrep o2 (skt Y)) as (o1 & o2 & -> & E2 & Hr2).
  { destruct ud.
    - destruct (rep_to_dense o _ Hr) as (o1 & hdr & -> & Hh & Hd). destruct (dense_compress o1 hdr _ (skt Y) Hd Hh (skt_registers Y)) as (b & E & Hb).
      exists o1, (set_buf o1 b). rewrite E. split_and!; [reflexivity|reflexivity|exact Hb].
    - destruct (pfmerge_store_spec o _ (skt Y) Hr (skt_registers Y)) as (o2 & E & H2). rewrite <- skt_union in H2. rewrite (subseteq_union_1_L X Y Hsub) in H2.
      exists o, o2. split_and!; [reflexivity|exact E|exact H2]. }
  cbn [mbind option_bind] in *. rewrite E2. cbn [mbind option_bind]. destruct (rep_invalidate o2 _ Hr2) as (b & -> & Hrb & Hv). cbn [mbind option_bind].
  eexists. split_and!; [reflexivity| |reflexivity]. apply models_put; [exact Hm|]. by apply stale_holds.
Qed.

Lemma pfmerge_spec k srcs s a : models (db s) a ->
  exists s', exec (PFMERGE k srcs) s = Some s' /\ models (db s') (fst (astep estimate a (PFMERGE k srcs))) /\
    out s' = out s ++ [snd (astep estimate a (PFMERGE k srcs))].
Proof using usable_ok nallocx_ok max_ok.
  intros Hm. cbn [exec astep fst snd]. unfold pfmergeCommand. destruct (merge_all_keys (db s) a (k :: srcs) Hm) as (ud & ->). cbn [mbind option_bind].
  assert (default ∅ (a !! k) ⊆ union_of a (k :: srcs)) as Hsub by (exact (union_subseteq_l (default ∅ (a !! k)) (union_of a srcs))).
  pose proof (Hm k) as Hk. unfold agree in Hk. destruct (db s !! k) as [[raw o| |]|] eqn:Ed; destruct (a !! k) as [X|] eqn:Ea; try done; cbn [default from_option id] in Hsub.
  - destruct (unshare_holds raw o X Hk) as (o' & -> & [Hr _]). cbn [mbind option_bind].
    destruct (pfmerge_value_spec k o' X _ ud (put k o' s) a Hr Hsub (models_but_put _ _ _ _ Hm)) as (s' & E & Hm' & Ho). by exists s'.
  - destruct (create_value usable junk usable_ok) as (o & -> & Hr). cbn [mbind option_bind]. rewrite <- skt_empty in Hr.
    destruct (pfmerge_value_spec k o ∅ _ ud (notify (str "new") k (put k o s)) a Hr Hsub (models_but_put _ _ _ _ Hm)) as (s' & E & Hm' & Ho). by exists s'.
Qed.

(** ** Sequences of commands *)

Fixpoint run (cs : list cmd) (s : st) : option st :=
  match cs with [] => Some s | c :: cs => s ← exec c s; run cs s end.

Fixpoint arun (cs : list cmd) (a : gmap key elems) : gmap key elems * list reply :=
  match cs with
  | [] => (a, [])
  | c :: cs => let '(a, r) := astep estimate a c in let '(a, rs) := arun cs a in (a, r :: rs)
  end.

(** C2: the HyperLogLog commands refine sets of elements: from a database
    whose values hold the sketches of sets (with cached cardinalities that are
    valid or marked as stale), any sequence of [PFADD], [PFCOUNT] and
    [PFMERGE] runs to the end, its replies are those of the sets ([PFADD]
    tells whether the key is new or a register was raised, [PFCOUNT] replies
    the estimate from the histogram of the sketch of the union, never a stale
    cardinality) and the values hold the sketches of the resulting sets.  The
    estimate is the floating point formula of [HllFormula], as a signed 64-bit
    integer; where C does not specify its value it is any [uint64_t] that
    depends on the histogram, and the loops of the formula are taken to end.
    This is for a setting of hll-sparse-max-bytes of at least 32 and below 2^61
    ([max_ok]): below 32 a PFADD can stop at an assertion ([zero_delta_stops]). *)
Theorem pf_commands_refine cs : forall s a, models (db s) a ->
  exists s', run cs s = Some s' /\ models (db s') (fst (arun cs a)) /\ out s' = out s ++ snd (arun cs a).
Proof using usable_ok nallocx_ok max_ok.
  induction cs as [|c cs IH]; intros s a Hm; cbn [run arun].
  { exists s. cbn [fst snd]. by rewrite app_nil_r. }
  assert (exists s', exec c s = Some s' /\ models (db s') (fst (astep estimate a c)) /\ out s' = out s ++ [snd (astep estimate a c)]) as (s1 & -> & Hm1 & Ho1).
  { destruct c; [by apply pfadd_spec|by apply pfcount_spec|by apply pfmerge_spec]. }
  cbn [mbind option_bind]. destruct (astep estimate a c) as [a1 r]. cbn [fst snd] in *. destruct (IH s1 a1 Hm1) as (s' & E & Hm' & Ho').
  destruct (arun cs a1) as [a2 rs]. cbn [fst snd] in *. exists s'. split_and!; [exact E|exact Hm'|]. rewrite Ho', Ho1, <- app_assoc. reflexivity.
Qed.
End Values.

(** ** Witnesses *)

Definition empty_db : st := St ∅ 0 [] [] [].

Lemma pf_commands_refine_witness :
  let cs := [PFADD (str "x") [str "a"; str "b"]; PFADD (str "y") [str "b"; str "c"]; PFMERGE (str "z") [str "x"; str "y"]; PFCOUNT (str "z") []] in
  exists s', run usable8 (fun _ => 0) None 3000 (fun _ => 0) cs empty_db = Some s' /\
    models (fun _ => 0) (db s') (fst (arun (fun _ => 0) cs ∅)) /\ out s' = out empty_db ++ snd (arun (fun _ => 0) cs ∅).
Proof.
  intros cs. apply (pf_commands_refine usable8 (fun _ => 0) None 3000 (fun _ => 0) usable8_ok ltac:(discriminate) ltac:(lia) cs empty_db ∅).
  intros k. exact I.
Defined.
End HllCmd.
