(* ===== verification/Gf2.v ===== *)
(** * Exclusive or

    Words as vectors of bits under exclusive or: additive functions, and the
    decomposition of a word into its low and its high part.  The checksums
    are additive. *)

From S2P Require Import Prelude.

Module Gf2.

(** Decide an equation of exclusive ors, conjunctions and masks bit by bit. *)
Ltac xbits :=
  apply Z.bits_inj'; intros ?k ?Hk; rewrite ?Z.lxor_spec, ?Z.land_spec, ?Z.lxor_spec, ?Z.land_spec;
  repeat match goal with |- context [Z.testbit ?a ?i] => destruct (Z.testbit a i) end; reflexivity.

Lemma land_lxor a b m : Z.land (Z.lxor a b) m = Z.lxor (Z.land a m) (Z.land b m).
Proof. xbits. Qed.

Lemma lxor_exchange a b c d : Z.lxor (Z.lxor a b) (Z.lxor c d) = Z.lxor (Z.lxor a c) (Z.lxor b d).
Proof. xbits. Qed.

Lemma lxor_range w x y : 0 <= w -> in_u w x -> in_u w y -> in_u w (Z.lxor x y).
Proof.
  intros Hw [Hx0 Hx] [Hy0 Hy]. assert (0 <= Z.lxor x y) as H0 by (apply Z.lxor_nonneg; lia). split; [exact H0|].
  destruct (Z.eq_dec (Z.lxor x y) 0) as [->|Hne]; [apply Z.pow_pos_nonneg; lia|]. apply Z.log2_lt_pow2; [lia|].
  pose proof (Z.log2_lxor x y Hx0 Hy0) as Hl. destruct (Z.eq_dec w 0) as [->|Hw0].
  { change (2 ^ 0) with 1 in *. assert (x = 0 /\ y = 0) as [-> ->] by lia. done. }
  assert (forall z, 0 <= z < 2 ^ w -> Z.log2 z < w) as Hlog.
  { intros z Hz. destruct (Z.eq_dec z 0) as [->|]; [cbn; lia|]. apply Z.log2_lt_pow2; lia. }
  pose proof (Hlog x ltac:(lia)). pose proof (Hlog y ltac:(lia)). lia.
Qed.

(** A word is its high part above its low part. *)
Lemma split_lxor k x : 0 <= k -> x = Z.lxor (Z.shiftl (x / 2 ^ k) k) (x mod 2 ^ k).
Proof.
  intros Hk. apply Z.bits_inj'. intros i Hi. rewrite Z.lxor_spec. destruct (Z.lt_ge_cases i k) as [Hlt|Hge].
  - rewrite Z.shiftl_spec_low, Z.mod_pow2_bits_low by lia. by rewrite xorb_false_l.
  - rewrite Z.shiftl_spec by lia. rewrite Z.mod_pow2_bits_high, Z.div_pow2_bits by lia. rewrite xorb_false_r. f_equal. lia.
Qed.

(** ** Additive functions *)

Class Additive (f : Z -> Z) := additive x y : f (Z.lxor x y) = Z.lxor (f x) (f y).

#[global] Instance additive_shiftr k : Additive (fun x => Z.shiftr x k).
Proof. intros x y. apply Z.shiftr_lxor. Qed.

#[global] Instance additive_iter f n : Additive f -> Additive (Nat.iter n f).
Proof. intros Hf x y. induction n as [|n IH]; [done|]. rewrite !Nat.iter_succ, IH. apply Hf. Qed.

Lemma additive_zero f : Additive f -> f 0 = 0.
Proof. intros Hf. pose proof (Hf 0 0) as H. by rewrite !Z.lxor_nilpotent in H. Qed.
End Gf2.
