(* ===== verification/Slots.v ===== *)
(** * Slots of keys ([redis-stable/src/crc16.c], [cluster.h], [cluster.c])

    The checksum of keys, the slot of a key with its hash tag, and the slot of
    the keys that a glob pattern can match. *)

From S2P Require Import Prelude Glob Gf2.

Module Slots.
Import Glob Gf2.

(** ** CRC16 *)

Definition crc16tab : list Z := [
   0x0000; 0x1021; 0x2042; 0x3063; 0x4084; 0x50a5; 0x60c6; 0x70e7; 0x8108; 0x9129; 0xa14a; 0xb16b; 0xc18c; 0xd1ad; 0xe1ce; 0xf1ef;
   0x1231; 0x0210; 0x3273; 0x2252; 0x52b5; 0x4294; 0x72f7; 0x62d6; 0x9339; 0x8318; 0xb37b; 0xa35a; 0xd3bd; 0xc39c; 0xf3ff; 0xe3de;
   0x2462; 0x3443; 0x0420; 0x1401; 0x64e6; 0x74c7; 0x44a4; 0x5485; 0xa56a; 0xb54b; 0x8528; 0x9509; 0xe5ee; 0xf5cf; 0xc5ac; 0xd58d;
   0x3653; 0x2672; 0x1611; 0x0630; 0x76d7; 0x66f6; 0x5695; 0x46b4; 0xb75b; 0xa77a; 0x9719; 0x8738; 0xf7df; 0xe7fe; 0xd79d; 0xc7bc;
   0x48c4; 0x58e5; 0x6886; 0x78a7; 0x0840; 0x1861; 0x2802; 0x3823; 0xc9cc; 0xd9ed; 0xe98e; 0xf9af; 0x8948; 0x9969; 0xa90a; 0xb92b;
   0x5af5; 0x4ad4; 0x7ab7; 0x6a96; 0x1a71; 0x0a50; 0x3a33; 0x2a12; 0xdbfd; 0xcbdc; 0xfbbf; 0xeb9e; 0x9b79; 0x8b58; 0xbb3b; 0xab1a;
   0x6ca6; 0x7c87; 0x4ce4; 0x5cc5; 0x2c22; 0x3c03; 0x0c60; 0x1c41; 0xedae; 0xfd8f; 0xcdec; 0xddcd; 0xad2a; 0xbd0b; 0x8d68; 0x9d49;
   0x7e97; 0x6eb6; 0x5ed5; 0x4ef4; 0x3e13; 0x2e32; 0x1e51; 0x0e70; 0xff9f; 0xefbe; 0xdfdd; 0xcffc; 0xbf1b; 0xaf3a; 0x9f59; 0x8f78;
   0x9188; 0x81a9; 0xb1ca; 0xa1eb; 0xd10c; 0xc12d; 0xf14e; 0xe16f; 0x1080; 0x00a1; 0x30c2; 0x20e3; 0x5004; 0x4025; 0x7046; 0x6067;
   0x83b9; 0x9398; 0xa3fb; 0xb3da; 0xc33d; 0xd31c; 0xe37f; 0xf35e; 0x02b1; 0x1290; 0x22f3; 0x32d2; 0x4235; 0x5214; 0x6277; 0x7256;
   0xb5ea; 0xa5cb; 0x95a8; 0x8589; 0xf56e; 0xe54f; 0xd52c; 0xc50d; 0x34e2; 0x24c3; 0x14a0; 0x0481; 0x7466; 0x6447; 0x5424; 0x4405;
   0xa7db; 0xb7fa; 0x8799; 0x97b8; 0xe75f; 0xf77e; 0xc71d; 0xd73c; 0x26d3; 0x36f2; 0x0691; 0x16b0; 0x6657; 0x7676; 0x4615; 0x5634;
   0xd94c; 0xc96d; 0xf90e; 0xe92f; 0x99c8; 0x89e9; 0xb98a; 0xa9ab; 0x5844; 0x4865; 0x7806; 0x6827; 0x18c0; 0x08e1; 0x3882; 0x28a3;
   0xcb7d; 0xdb5c; 0xeb3f; 0xfb1e; 0x8bf9; 0x9bd8; 0xabbb; 0xbb9a; 0x4a75; 0x5a54; 0x6a37; 0x7a16; 0x0af1; 0x1ad0; 0x2ab3; 0x3a92;
   0xfd2e; 0xed0f; 0xdd6c; 0xcd4d; 0xbdaa; 0xad8b; 0x9de8; 0x8dc9; 0x7c26; 0x6c07; 0x5c64; 0x4c45; 0x3ca2; 0x2c83; 0x1ce0; 0x0cc1;
   0xef1f; 0xff3e; 0xcf5d; 0xdf7c; 0xaf9b; 0xbfba; 0x8fd9; 0x9ff8; 0x6e17; 0x7e36; 0x4e55; 0x5e74; 0x2e93; 0x3eb2; 0x0ed1; 0x1ef0].

(** One char, which is signed. *)
Definition crc16_step (crc c : Z) : Z :=
  uwrap 16 (Z.lxor (Z.shiftl crc 8) (default 0 (crc16tab !! Z.to_nat (Z.land (Z.lxor (Z.shiftr crc 8) (swrap 8 c)) 0xff)))).

Definition crc16 (buf : list Z) : Z := foldl crc16_step 0 buf.

(** ** The slot of a key *)

(** [for (s = i; s < keylen; s++) if (key[s] == c) break], on the chars from [i]. *)
Fixpoint find_char (c : Z) (rest : list Z) (i : Z) : Z :=
  match rest with
  | [] => i
  | x :: rest => if x =? c then i else find_char c rest (i + 1)
  end.

(** [keylen] is an [int]: this is the function on keys of fewer than 2^31 bytes. *)
Definition keyHashSlot (key : list Z) : Z :=
  let keylen := zlen key in
  let s := find_char 123 key 0 in
  if s =? keylen then Z.land (crc16 key) 0x3FFF
  else
    let e := find_char 125 (drop (Z.to_nat (s + 1)) key) (s + 1) in
    if (e =? keylen) || (e =? s + 1) then Z.land (crc16 key) 0x3FFF
    else Z.land (crc16 (take (Z.to_nat (e - s - 1)) (drop (Z.to_nat (s + 1)) key))) 0x3FFF.

(** ** The slot of a pattern *)

Fixpoint pattern_loop (pattern rest : list Z) (i s : Z) : Z :=
  match rest with
  | [] => Z.land (crc16 pattern) 0x3FFF
  | c :: rest =>
    if (c =? 42) || (c =? 63) || (c =? 91) then -1
    else if c =? 92 then -1
    else if (s =? -1) && (c =? 123) then pattern_loop pattern rest (i + 1) i
    else if (s >=? 0) && (c =? 125) && (i =? s + 1) then pattern_loop pattern rest (i + 1) (-2)
    else if (s >=? 0) && (c =? 125) then
      Z.land (crc16 (take (Z.to_nat (i - s - 1)) (drop (Z.to_nat (s + 1)) pattern))) 0x3FFF
    else pattern_loop pattern rest (i + 1) s
  end.

Definition patternHashSlot (pattern : list Z) : Z := pattern_loop pattern pattern 0 (-1).

(** ** The checksum bit by bit *)

(** One bit, from the most significant: the polynomial is x^16 + x^12 + x^5 + 1. *)
Definition xmodem_bit (crc : Z) : Z :=
  if Z.testbit crc 15 then Z.lxor (Z.land (Z.shiftl crc 1) 0xffff) 0x1021 else Z.land (Z.shiftl crc 1) 0xffff.

Definition xmodem_byte (crc c : Z) : Z := Nat.iter 8 xmodem_bit (Z.lxor crc (Z.shiftl c 8)).

Definition xmodem (buf : list Z) : Z := foldl xmodem_byte 0 buf.

#[local] Instance xmodem_bit_additive : Additive xmodem_bit.
Proof.
  assert (forall x, xmodem_bit x = Z.lxor (Z.land (Z.shiftl x 1) 0xffff) (if Z.testbit x 15 then 0x1021 else 0)) as E.
  { intros z. unfold xmodem_bit. destruct (Z.testbit z 15); [done|by rewrite Z.lxor_0_r]. }
  intros x y. rewrite !E, Z.shiftl_lxor, land_lxor, Z.lxor_spec, lxor_exchange. f_equal. by destruct (Z.testbit x 15), (Z.testbit y 15).
Qed.

(** Eight steps of the high byte are the table, of the low byte a shift. *)
Lemma table_spec n : byte_ok n -> Nat.iter 8 xmodem_bit (Z.shiftl n 8) = default 0 (crc16tab !! Z.to_nat n) /\
  Nat.iter 8 xmodem_bit n = Z.shiftl n 8 /\ in_u 16 (default 0 (crc16tab !! Z.to_nat n)).
Proof.
  intros Hn. pose proof (byte_forall (fun n => (Nat.iter 8 xmodem_bit (Z.shiftl n 8) =? default 0 (crc16tab !! Z.to_nat n)) &&
    (Nat.iter 8 xmodem_bit n =? Z.shiftl n 8) && (0 <=? default 0 (crc16tab !! Z.to_nat n)) && (default 0 (crc16tab !! Z.to_nat n) <? 2 ^ 16))) as H.
  specialize (H ltac:(by vm_compute) n Hn). cbn beta in H. rewrite !andb_true_iff, !Z.eqb_eq in H. unfold in_u. lia.
Qed.

Lemma crc16_step_spec crc c : in_u 16 crc -> byte_ok c -> crc16_step crc c = xmodem_byte crc c /\ in_u 16 (crc16_step crc c).
Proof.
  intros Hcrc Hc. split; [|apply Z.mod_pos_bound; lia]. unfold crc16_step, xmodem_byte. unfold byte_ok, in_u in *.
  assert (0 <= crc / 256 < 256 /\ byte_ok (crc mod 256)) as [Hhi Hlb] by (unfold byte_ok; dlia).
  set (n := Z.land _ 0xff). assert (n = Z.lxor (crc / 256) c) as Hn.
  { unfold n. rewrite land_lxor, Z.shiftr_div_pow2 by lia. rewrite !(land_ones_mod _ 8) by done. change (2 ^ 8) with 256.
    rewrite (Z.mod_small (crc / 256)) by lia. f_equal. unfold swrap. change (2 ^ (8 - 1)) with 128. change (2 ^ 8) with 256. dlia. }
  assert (byte_ok n) as Hnb by (rewrite Hn; apply (lxor_range 8); unfold in_u; lia). clearbody n.
  destruct (table_spec n Hnb) as (Ht & _ & Hr). destruct (table_spec (crc mod 256) Hlb) as (_ & Hlo & _).
  assert (Z.lxor crc (Z.shiftl c 8) = Z.lxor (Z.shiftl n 8) (crc mod 256)) as ->.
  { rewrite (split_lxor 8 crc) at 1 by lia. change (2 ^ 8) with 256. rewrite Hn, Z.shiftl_lxor. xbits. }
  rewrite (additive (f := Nat.iter 8 xmodem_bit)), Ht, Hlo.
  assert (uwrap 16 (Z.lxor (Z.shiftl crc 8) (default 0 (crc16tab !! Z.to_nat n))) =
    Z.lxor (uwrap 16 (Z.shiftl crc 8)) (default 0 (crc16tab !! Z.to_nat n))) as ->.
  { unfold uwrap. rewrite <- !Z.land_ones, land_lxor by lia. f_equal. rewrite Z.land_ones by lia. apply Z.mod_small. exact Hr. }
  rewrite Z.lxor_comm. f_equal. unfold uwrap. rewrite !Z.shiftl_mul_pow2 by lia. change (2 ^ 8) with 256. change (2 ^ 16) with 65536. dlia.
Qed.

Lemma crc16_fold buf : bytes_ok buf -> forall crc, in_u 16 crc -> foldl crc16_step crc buf = foldl xmodem_byte crc buf /\ in_u 16 (foldl crc16_step crc buf).
Proof.
  induction 1 as [|c buf Hc _ IH]; intros crc Hcrc; cbn [foldl]; [done|].
  destruct (crc16_step_spec crc c Hcrc Hc) as [<- Hr]. by apply IH.
Qed.

Lemma crc16_range buf : bytes_ok buf -> in_u 16 (crc16 buf).
Proof. intros Hb. apply crc16_fold; [exact Hb|unfold in_u; lia]. Qed.

(** The table-driven checksum of keys is the CRC of the polynomial
    x^16 + x^12 + x^5 + 1 computed bit by bit (XMODEM), although the chars are
    signed. *)
Theorem crc16_correct buf : bytes_ok buf -> crc16 buf = xmodem buf.
Proof. intros Hb. apply crc16_fold; [exact Hb|unfold in_u; lia]. Qed.

(** ** Hash tags *)

Lemma find_absent c rest : forall i, c ∉ rest -> find_char c rest i = i + zlen rest.
Proof.
  induction rest as [|x rest IH]; intros i Hc; cbn [find_char length]; [lia|]. apply not_elem_of_cons in Hc as [Hx Hc].
  rewrite (proj2 (Z.eqb_neq x c)) by done. rewrite IH by done. lia.
Qed.

Lemma find_present c a rest : forall i, c ∉ a -> find_char c (a ++ c :: rest) i = i + zlen a.
Proof.
  induction a as [|x a IH]; intros i Hc; cbn [app find_char length]; [rewrite Z.eqb_refl; lia|]. apply not_elem_of_cons in Hc as [Hx Hc].
  rewrite (proj2 (Z.eqb_neq x c)) by done. rewrite IH by done. lia.
Qed.

(** The part of a key that is hashed: what is between the first [{] and the
    first [}] after it, if that is not empty, and else the key. *)
Inductive tagged (key : list Z) : list Z -> Prop :=
  | tag_part a b c : key = a ++ 123 :: b ++ 125 :: c -> 123 ∉ a -> 125 ∉ b -> b <> [] -> tagged key b
  | tag_no_open : 123 ∉ key -> tagged key key
  | tag_no_close a b : key = a ++ 123 :: b -> 123 ∉ a -> 125 ∉ b -> tagged key key
  | tag_empty a c : key = a ++ 123 :: 125 :: c -> 123 ∉ a -> tagged key key.

Lemma slot_tagged key t : tagged key t -> keyHashSlot key = Z.land (crc16 t) 0x3FFF.
Proof.
  assert (forall (a rest : list Z) x, drop (Z.to_nat (0 + zlen a + 1)) (a ++ x :: rest) = rest) as Hdrop.
  { intros a rest x. replace (Z.to_nat (0 + zlen a + 1)) with (length a + 1)%nat by lia. by rewrite <- drop_drop, drop_app_length. }
  unfold keyHashSlot. intros [a b c -> Ha Hb Hne|Hk|a b -> Ha Hb|a c -> Ha].
  - rewrite find_present by done. rewrite Hdrop, find_present by done. assert (zlen b <> 0) by (destruct b; [done|cbn [length]; lia]).
    rewrite !length_app. cbn [length]. rewrite length_app. cbn [length]. rewrite !(proj2 (Z.eqb_neq _ _)) by lia. cbn [orb].
    replace (Z.to_nat _) with (length b) by lia. by rewrite take_app_length.
  - rewrite find_absent by done. by rewrite Z.add_0_l, Z.eqb_refl.
  - rewrite find_present by done. rewrite Hdrop, find_absent by done. destruct (_ =? _); [done|].
    rewrite (proj2 (Z.eqb_eq (_ + zlen b) _)); [done|]. rewrite length_app. cbn [length]. lia.
  - rewrite find_present by done. rewrite Hdrop. destruct (_ =? _); [done|]. cbn [find_char]. change (125 =? 125) with true. cbn iota. by rewrite Z.eqb_refl, orb_true_r.
Qed.

Lemma first_char (c : Z) l : c ∉ l \/ exists a b, l = a ++ c :: b /\ c ∉ a.
Proof.
  induction l as [|x l [H|(a & b & -> & Ha)]]; [left; apply not_elem_of_nil| |].
  - destruct (decide (x = c)) as [->|Hx]; [right; exists [], l; split; [done|apply not_elem_of_nil]|left; by apply not_elem_of_cons].
  - right. destruct (decide (x = c)) as [->|Hx]; [exists [], (a ++ c :: b); split; [done|apply not_elem_of_nil]|].
    exists (x :: a), b. split; [done|]. by apply not_elem_of_cons.
Qed.

Lemma tagged_total key : exists t, tagged key t.
Proof.
  destruct (first_char 123 key) as [Hk|(a & r & -> & Ha)]; [eexists; by apply tag_no_open|].
  destruct (first_char 125 r) as [Hr|(b & c & -> & Hb)]; [eexists; by eapply tag_no_close|].
  destruct b as [|x b]; [eexists; by eapply tag_empty|]. exists (x :: b). by eapply tag_part.
Qed.

(** C10: every key has a slot below 16384, the checksum modulo 16384 of the
    part that is hashed: what is between the first [{] and the first [}] after
    it, when there is such a part and it is not empty, otherwise the whole key.
    The code takes the length as an [int], so this is about keys of fewer than
    2^31 bytes. *)
Theorem keyHashSlot_correct key : bytes_ok key -> exists t, tagged key t /\ keyHashSlot key = xmodem t mod 16384 /\ 0 <= keyHashSlot key < 16384.
Proof.
  intros Hb. destruct (tagged_total key) as (t & Ht). exists t. split; [exact Ht|]. rewrite (slot_tagged key t Ht).
  assert (bytes_ok t) as Htb.
  { destruct Ht as [a b c -> _ _ _| | |]; try exact Hb. apply Forall_app in Hb as [_ Hb]. apply Forall_cons in Hb as [_ Hb]. by apply Forall_app in Hb as [Hb _]. }
  rewrite (land_ones_mod _ 14) by done. change (2 ^ 14) with 16384.
  split; [f_equal; apply crc16_fold; [exact Htb|unfold in_u; lia]|apply Z.mod_pos_bound; lia].
Qed.

(** ** Patterns *)

Definition plain (c : Z) : Prop := c <> 42 /\ c <> 63 /\ c <> 91 /\ c <> 92.

(** Plain chars of a pattern are the first chars of every string it matches. *)
Lemma plain_prefix lit : Forall plain lit -> forall fuel post string skip nesting r,
  (length (lit ++ post) <= fuel)%nat -> stringmatchlen_impl fuel false (lit ++ post) string skip nesting = (true, r) ->
  exists rest, string = lit ++ rest /\ (post = [] -> rest = []).
Proof.
  induction 1 as [|p lit Hp Hlit IH]; intros fuel post string skip nesting r Hf Hm.
  { exists string. split; [done|]. intros ->. destruct fuel; cbn in Hm; destruct (nesting >? 1000); try discriminate; destruct string; done. }
  destruct fuel as [|fuel]; [cbn in Hf; lia|]. cbn [app stringmatchlen_impl length] in *. destruct (nesting >? 1000); [discriminate|].
  destruct string as [|c rest]; [discriminate|]. destruct Hp as (H1 & H2 & H3 & H4).
  rewrite (proj2 (Z.eqb_neq p 42)), (proj2 (Z.eqb_neq p 63)), (proj2 (Z.eqb_neq p 91)) in Hm by done.
  set (pt := match lit ++ post with p1 :: t1 => if p =? 92 then (p1, t1) else (p, lit ++ post) | [] => (p, lit ++ post) end) in Hm.
  assert (pt = (p, lit ++ post)) as -> by (unfold pt; rewrite (proj2 (Z.eqb_neq p 92)) by done; by destruct (lit ++ post)).
  destruct (char_eq false p c) eqn:Ec; [|discriminate]. unfold char_eq in Ec. apply Z.eqb_eq in Ec as <-.
  destruct rest as [|d rest].
  - destruct lit as [|l lit]; cbn [app] in Hm.
    + exists []. split; done.
    + apply Forall_cons in Hlit as [(Hl & _) _]. rewrite skip_stars_cons, (proj2 (Z.eqb_neq l 42)) in Hm by done. discriminate.
  - destruct (IH fuel post (d :: rest) skip nesting r ltac:(lia) Hm) as (rest' & E & Hr). exists rest'. by rewrite E.
Qed.

(** What the loop knows about the chars it has read. *)
Definition scanned (read : list Z) (s : Z) : Prop :=
  Forall plain read /\
  (s = -1 /\ 123 ∉ read \/
   (exists a b, read = a ++ 123 :: b /\ s = zlen a /\ (123 ∉ a) /\ (125 ∉ b)) \/
   s = -2 /\ exists a c, read = a ++ 123 :: 125 :: c /\ 123 ∉ a).

(** A slot is that of a tag in plain chars, or of the pattern when all its
    chars are plain. *)
Definition inferred (pattern : list Z) (slot : Z) : Prop :=
  (exists a b post, pattern = (a ++ 123 :: b ++ [125]) ++ post /\ Forall plain (a ++ 123 :: b ++ [125]) /\ (123 ∉ a) /\ (125 ∉ b) /\ b <> [] /\
    slot = Z.land (crc16 b) 0x3FFF) \/
  (Forall plain pattern /\ tagged pattern pattern /\ slot = Z.land (crc16 pattern) 0x3FFF).

Lemma scanned_snoc read c s s' : scanned read s -> plain c ->
  (if (s =? -1) && (c =? 123) then s' = zlen read
   else if (s >=? 0) && (c =? 125) then s' = -2 /\ zlen read = s + 1 else s' = s) -> scanned (read ++ [c]) s'.
Proof.
  intros [Hp Hs] Hc Hs'. split; [apply Forall_app_2; [exact Hp|by constructor]|].
  destruct Hs as [[-> Hn]|[(a & b & -> & -> & Ha & Hb)|[-> (a & b & -> & Ha)]]].
  - change (-1 =? -1) with true in Hs'. change (-1 >=? 0) with false in Hs'. cbn [andb] in Hs'. destruct (Z.eqb_spec c 123) as [->|Hne].
    + right. left. exists read, []. split_and!; [done|exact Hs'|exact Hn|apply not_elem_of_nil].
    + left. split; [exact Hs'|]. intros [H|H%list_elem_of_singleton]%elem_of_app; [done|congruence].
  - rewrite (proj2 (Z.eqb_neq (zlen a) (-1))) in Hs' by lia. rewrite Z.geb_leb, (proj2 (Z.leb_le 0 _)) in Hs' by lia. cbn [andb] in Hs'.
    destruct (Z.eqb_spec c 125) as [->|Hne].
    + destruct Hs' as [-> Hl]. rewrite length_app in Hl. cbn [length] in Hl. destruct b as [|x b]; [|cbn [length] in Hl; lia].
      right. right. split; [done|]. exists a, []. split; [by rewrite <- app_assoc|exact Ha].
    + right. left. exists a, (b ++ [c]). split_and!; [by rewrite <- app_assoc|exact Hs'|exact Ha|].
      intros [H|H%list_elem_of_singleton]%elem_of_app; [done|congruence].
  - change (-2 =? -1) with false in Hs'. change (-2 >=? 0) with false in Hs'. cbn [andb] in Hs'. right. right. split; [exact Hs'|].
    exists a, (b ++ [c]). split; [by rewrite <- app_assoc|exact Ha].
Qed.

Lemma scanned_end pattern s : scanned pattern s -> inferred pattern (Z.land (crc16 pattern) 0x3FFF).
Proof.
  intros [Hp Hs]. right. split_and!; [exact Hp| |done].
  destruct Hs as [[_ Hn]|[(a & b & -> & _ & Ha & Hb)|[_ (a & c & -> & Ha)]]]; [by apply tag_no_open|by eapply tag_no_close|by eapply tag_empty].
Qed.

Lemma pattern_loop_spec pattern rest : forall read s, pattern = read ++ rest -> scanned read s ->
  let slot := pattern_loop pattern rest (zlen read) s in slot = -1 \/ inferred pattern slot.
Proof.
  induction rest as [|c rest IH]; intros read s Hpat Hs; cbn [pattern_loop].
  { right. rewrite app_nil_r in Hpat. subst read. by eapply scanned_end. }
  destruct ((c =? 42) || (c =? 63) || (c =? 91)) eqn:Ew; [by left|]. destruct (Z.eqb_spec c 92) as [|H92]; [by left|].
  assert (plain c) as Hc by (unfold plain; lia).
  assert (forall s', scanned (read ++ [c]) s' -> pattern_loop pattern rest (zlen read + 1) s' = -1 \/ inferred pattern (pattern_loop pattern rest (zlen read + 1) s')) as Hnext.
  { intros s' Hs'. replace (zlen read + 1) with (zlen (read ++ [c])) by (rewrite length_app; cbn [length]; lia). apply IH; [by rewrite <- app_assoc|exact Hs']. }
  pose proof (fun s' => scanned_snoc read c s s' Hs Hc) as Hsnoc.
  destruct ((s =? -1) && (c =? 123)); [by apply Hnext, Hsnoc|]. destruct ((s >=? 0) && (c =? 125)) eqn:E2; cbn [andb].
  - destruct (Z.eqb_spec (zlen read) (s + 1)) as [He|He]; [apply Hnext, Hsnoc; done|]. right. left.
    destruct Hs as [Hp [[-> _]|[(a & b & -> & -> & Ha & Hb)|[-> _]]]]; [done| |done]. assert (c = 125) as -> by lia.
    rewrite length_app in He |- *. cbn [length] in He |- *. exists a, b, rest. split_and!.
    + rewrite Hpat, <- !app_assoc. cbn [app]. by rewrite <- app_assoc.
    + apply Forall_app in Hp as [Hpa Hpb]. apply Forall_app_2; [exact Hpa|]. apply Forall_cons in Hpb as [H1 H2]. constructor; [exact H1|]. apply Forall_app_2; [exact H2|by constructor].
    + exact Ha.
    + exact Hb.
    + intros ->. cbn [length] in He. lia.
    + rewrite Hpat, <- app_assoc. replace (Z.to_nat (zlen a + 1)) with (length a + 1)%nat by lia. rewrite <- drop_drop, drop_app_length. cbn [app drop]. rewrite drop_0.
      replace (Z.to_nat _) with (length b) by lia. by rewrite take_app_length.
  - by apply Hnext, Hsnoc.
Qed.

(** C9: when a slot is inferred from a pattern, every key that the pattern
    matches is in that slot, so that scanning one slot finds them all. *)
Theorem patternHashSlot_sound pattern key : patternHashSlot pattern <> -1 -> stringmatchlen pattern key false = true ->
  keyHashSlot key = patternHashSlot pattern.
Proof.
  intros Hslot Hm. destruct (pattern_loop_spec pattern pattern [] (-1)) as [H|H]; [done| |done|].
  { split; [constructor|]. left. split; [done|apply not_elem_of_nil]. }
  unfold stringmatchlen in Hm. destruct (stringmatchlen_impl _ _ _ _ _ _) as [r sk] eqn:E. cbn in Hm. subst r.
  change (pattern_loop pattern pattern (zlen (@nil Z)) (-1)) with (patternHashSlot pattern) in H.
  destruct H as [(a & b & post & Hp & Hpl & Ha & Hb & Hne & ->)|(Hpl & Ht & ->)].
  - rewrite Hp in E. destruct (plain_prefix _ Hpl _ post key false 0 sk (Nat.le_refl _) E) as (rest & -> & _). apply slot_tagged.
    apply (tag_part _ a b rest); [|done|done|done]. rewrite <- !app_assoc. cbn [app]. by rewrite <- app_assoc.
  - rewrite <- (app_nil_r pattern) in E at 2. destruct (plain_prefix _ Hpl (length pattern) [] key false 0 sk ltac:(rewrite app_nil_r; lia) E) as (rest & -> & Hr).
    rewrite (Hr eq_refl), app_nil_r. by apply slot_tagged.
Qed.

(** ** Witnesses *)

Lemma crc16_correct_witness : crc16 (str "123456789") = xmodem (str "123456789") /\ xmodem (str "123456789") = 0x31C3.
Proof. split; [apply crc16_correct; unfold byte_ok; apply (bool_decide_unpack _); vm_compute; exact I|reflexivity]. Defined.

Lemma keyHashSlot_correct_witness : exists t, tagged (str "user{42}name") t /\ keyHashSlot (str "user{42}name") = xmodem t mod 16384 /\
  0 <= keyHashSlot (str "user{42}name") < 16384.
Proof. apply keyHashSlot_correct. unfold byte_ok. apply (bool_decide_unpack _). vm_compute. exact I. Defined.

Lemma patternHashSlot_sound_witness : keyHashSlot (str "user{42}name") = patternHashSlot (str "user{42}*").
Proof. apply (patternHashSlot_sound (str "user{42}*") (str "user{42}name")); [vm_compute; discriminate|reflexivity]. Defined.
End Slots.
