(* ===== verification/Crc64.v ===== *)
(** * CRC64 ([redis-stable/src/crc64.c], [crcspeed.c], [crccombine.c])

    The checksum of dumps: bit by bit, by tables of 8 bytes at a time, and in
    two or three parallel streams whose results are joined by matrices over
    bits.  The buffer is a list of bytes, read at offsets; [addr] is its
    address, which matters for alignment. *)

From S2P Require Import Prelude Gf2.

Module Crc64.
Import Gf2.

(** ** Bit by bit ([crc64.c]) *)

Definition POLY : Z := 0xad93d23594c935a9.

(** A swap of the bits of the mask with those [k] above. *)
Definition swap_bits (m k data : Z) : Z := Z.lor (Z.land (Z.shiftr data k) m) (Z.shiftl (Z.land data m) k).

Definition builtin_bswap64 (a : Z) : Z := le_val (reverse (le_bytes 8 a)).

(** [gnuc]: the compiler has the builtin function. *)
Definition crc_reflect (gnuc : bool) (data data_len : Z) : option Z :=
  if negb (data_len <=? 64) then None
  else
    let data := swap_bits 0x5555555555555555 1 data in
    let data := swap_bits 0x3333333333333333 2 data in
    let data := swap_bits 0x0F0F0F0F0F0F0F0F 4 data in
    let data := if gnuc then builtin_bswap64 data
      else swap_bits 0xFFFFFFFF 32 (swap_bits 0xFFFF0000FFFF 16 (swap_bits 0x00FF00FF00FF00FF 8 data)) in
    Some (Z.shiftr data (64 - data_len)).

Definition crc64_bit (c : Z) (crc i : Z) : Z :=
  let bit := Z.land crc 0x8000000000000000 in
  let bit := if negb (Z.land c i =? 0) then (if bit =? 0 then 1 else 0) else bit in
  let crc := uwrap 64 (Z.shiftl crc 1) in
  if negb (bit =? 0) then Z.lxor crc POLY else crc.

Definition crc64_byte (crc c : Z) : Z :=
  Z.land (foldl (crc64_bit c) crc [0x01; 0x02; 0x04; 0x08; 0x10; 0x20; 0x40; 0x80]) 0xffffffffffffffff.

Definition _crc64 (gnuc : bool) (crc : Z) (data : list Z) : option Z :=
  let crc := foldl crc64_byte crc data in
  r ← crc_reflect gnuc (Z.land crc 0xffffffffffffffff) 64; Some (Z.lxor r 0).

(** ** Tables ([crcspeed.c]) *)

Definition CRC64_LEN_MASK : Z := 0x7ffffffffffffff8.
Definition CRC64_REVERSED_POLY : Z := 0x95ac9329ac4bc9b5.

Abbreviation table := (list (list Z)).

Definition lookup_table (t : table) (k i : Z) : option Z := row ← t !! Z.to_nat k; row !! Z.to_nat i.

(** A byte by the first row. *)
Definition table_step (row : list Z) (crc : Z) : option Z :=
  x ← row !! Z.to_nat (Z.land crc 0xff); Some (Z.lxor x (Z.shiftr crc 8)).

Fixpoint nested_rows (k : nat) (row0 row : list Z) : option table :=
  match k with
  | O => Some []
  | S k => row ← mapM (table_step row0) row; rows ← nested_rows k row0 row; Some (row :: rows)
  end.

(** The rows, instead of the columns, one after the other. *)
Definition crcspeed64little_init (crcfn : Z -> list Z -> option Z) : option table :=
  row0 ← mapM (fun n => crcfn 0 [Z.of_nat n]) (seq 0 256);
  rows ← nested_rows 7 row0 row0;
  Some (row0 :: rows).

(** [rev8], with the builtin function or without. *)
Definition rev8 (gnuc : bool) (a : Z) : Z :=
  if gnuc then builtin_bswap64 a
  else
    let a := swap_bits 0xff00ff00ff00ff 8 a in
    let a := swap_bits 0xffff0000ffff 16 a in
    Z.lor (Z.shiftr a 32) (uwrap 64 (Z.shiftl a 32)).

Definition crcspeed64big_init (gnuc : bool) (crcfn : Z -> list Z -> option Z) : option table :=
  t ← crcspeed64little_init crcfn; Some (map (map (rev8 gnuc)) t).

(** ** Joining checksums ([crccombine.c]) *)

(** The cases of the switch. *)
Definition nibble_rows (m0 m1 m2 m3 n : Z) : Z :=
  match n with
  | 15 => Z.lxor (Z.lxor (Z.lxor m0 m1) m2) m3
  | 14 => Z.lxor (Z.lxor m1 m2) m3
  | 13 => Z.lxor (Z.lxor m0 m2) m3
  | 12 => Z.lxor m2 m3
  | 11 => Z.lxor (Z.lxor m0 m1) m3
  | 10 => Z.lxor m1 m3
  | 9 => Z.lxor m0 m3
  | 8 => m3
  | 7 => Z.lxor (Z.lxor m0 m1) m2
  | 6 => Z.lxor m1 m2
  | 5 => Z.lxor m0 m2
  | 4 => m2
  | 3 => Z.lxor m0 m1
  | 2 => m1
  | 1 => m0
  | _ => 0
  end.

Fixpoint gf2_matrix_times_switch (fuel : nat) (mat : list Z) (vec sum : Z) : option Z :=
  if vec =? 0 then Some sum
  else
    match fuel, mat with
    | S fuel, m0 :: m1 :: m2 :: m3 :: mat =>
      gf2_matrix_times_switch fuel mat (Z.shiftr vec 4) (Z.lxor sum (nibble_rows m0 m1 m2 m3 (Z.land vec 15)))
    | _, _ => None
    end.

(** Two lanes at a time, under masks of the two lowest bits. *)
Fixpoint times_vec2_loop (n : nat) (mat : list Z) (vec sum0 sum1 : Z) : option Z :=
  match n with
  | O => Some (Z.lxor sum0 sum1)
  | S n =>
    match mat with
    | m0 :: m1 :: mat =>
      let mask0 := if Z.odd (Z.land vec 3) then 0xffffffffffffffff else 0 in
      let mask1 := if Z.land vec 3 >=? 2 then 0xffffffffffffffff else 0 in
      times_vec2_loop n mat (Z.shiftr vec 2) (Z.lxor sum0 (Z.land m0 mask0)) (Z.lxor sum1 (Z.land m1 mask1))
    | _ => None
    end
  end.

Section Combine.
Context (vector : bool).

Definition CRC_MULTIPLY (mat : list Z) (vec : Z) : option Z :=
  if vector then times_vec2_loop 32 mat vec 0 0 else gf2_matrix_times_switch 16 mat vec 0.

Definition gf2_matrix_square (mat : list Z) (dim : Z) : option (list Z) :=
  mapM (fun n => r ← mat !! n; CRC_MULTIPLY mat r) (seq 0 (Z.to_nat dim)).

Abbreviation cache := (list (list Z)).

(** The rows for one zero bit. *)
Fixpoint shift_rows (n : nat) (row : Z) : list Z :=
  match n with O => [] | S n => row :: shift_rows n (uwrap 64 (Z.shiftl row 1)) end.

(** [do ... while (++cache_num < 64)] *)
Fixpoint cache_loop (n : nat) (c : cache) (cache_num prev : Z) (dim : Z) : option cache :=
  match n with
  | O => Some c
  | S n =>
    mat ← (if cache_num + prev <? 0 then None else c !! Z.to_nat (cache_num + prev));
    sq ← gf2_matrix_square mat dim;
    if 64 <=? cache_num then None else cache_loop n (<[Z.to_nat cache_num := sq]> c) (cache_num + 1) (-1) dim
  end.

Definition init_combine_cache (c : cache) (poly dim : Z) : option cache :=
  let c := <[1%nat := poly :: shift_rows (Z.to_nat (dim - 1)) 1]> c in
  mat ← c !! 1%nat;
  sq ← gf2_matrix_square mat dim;
  let c := <[0%nat := sq]> c in
  sq ← gf2_matrix_square sq dim;
  let c := <[1%nat := sq]> c in
  cache_loop 64 c 0 1 dim.

Fixpoint combine_loop (fuel : nat) (c : cache) (cache_num crc1 len2 : Z) : option Z :=
  match fuel with
  | O => None
  | S fuel =>
    crc1 ← (if Z.odd len2 then mat ← c !! Z.to_nat cache_num; CRC_MULTIPLY mat crc1 else Some crc1);
    let len2 := Z.shiftr len2 1 in
    let cache_num := Z.land (cache_num + 1) 63 in
    if negb (len2 =? 0) then combine_loop fuel c cache_num crc1 len2 else Some crc1
  end.

Definition crc64_combine (c : cache) (crc1 crc2 len2 poly dim : Z) : option (cache * Z) :=
  if len2 =? 0 then Some (c, crc1)
  else
    x ← (row ← c !! 0%nat; row !! 0%nat);
    c ← (if x =? 0 then init_combine_cache c poly dim else Some c);
    crc1 ← combine_loop 64 c 0 crc1 len2;
    Some (c, Z.lxor crc1 crc2).

(** ** Eight bytes at a time ([crcspeed.c]) *)

Definition byte_step (t : table) (buf : list Z) (crc next : Z) : option Z :=
  b ← rd buf next;
  x ← lookup_table t 0 (Z.land (Z.lxor crc b) 0xff);
  Some (Z.lxor x (Z.shiftr crc 8)).

(** [DO_8_1] and [DO_8_2]. *)
Definition do_8 (t : table) (buf : list Z) (crc next : Z) : option Z :=
  w ← rdn buf next 8;
  let crc := Z.lxor crc (le_val w) in
  let byte k := uwrap 8 (Z.shiftr crc k) in
  x7 ← lookup_table t 7 (uwrap 8 crc);
  x6 ← lookup_table t 6 (byte 8);
  x5 ← lookup_table t 5 (byte 16);
  x4 ← lookup_table t 4 (byte 24);
  x3 ← lookup_table t 3 (byte 32);
  x2 ← lookup_table t 2 (byte 40);
  x1 ← lookup_table t 1 (byte 48);
  x0 ← lookup_table t 0 (Z.shiftr crc 56);
  Some (Z.lxor (Z.lxor (Z.lxor (Z.lxor (Z.lxor (Z.lxor (Z.lxor x7 x6) x5) x4) x3) x2) x1) x0).

(** [while (len && ((uintptr_t)next1 & 7) != 0)]: the checksum, the position
    and the length that is left. *)
Fixpoint align_loop (fuel : nat) (t : table) (addr : Z) (buf : list Z) (crc next len : Z) : option (Z * Z * Z) :=
  if negb (len =? 0) && negb (Z.land (addr + next) 7 =? 0) then
    match fuel with
    | O => None
    | S fuel => crc ← byte_step t buf crc next; align_loop fuel t addr buf crc (next + 1) (len - 1)
    end
  else Some (crc, next, len).

(** [while (len)] *)
Fixpoint final_loop (fuel : nat) (t : table) (buf : list Z) (crc next len : Z) : option Z :=
  if negb (len =? 0) then
    match fuel with
    | O => None
    | S fuel => crc ← byte_step t buf crc next; final_loop fuel t buf crc (next + 1) (len - 1)
    end
  else Some crc.

(** The loops of 8 bytes, for one, two and three positions. *)
Fixpoint loop1 (fuel : nat) (t : table) (buf : list Z) (crc1 next1 len : Z) : option (Z * Z * Z) :=
  if len >=? 8 then
    match fuel with
    | O => None
    | S fuel => crc1 ← do_8 t buf crc1 next1; loop1 fuel t buf crc1 (next1 + 8) (len - 8)
    end
  else Some (crc1, next1, len).

Fixpoint loop2 (fuel : nat) (t : table) (buf : list Z) (crc1 crc2 next1 next2 len : Z) : option (Z * Z * Z * Z) :=
  if len >=? 8 then
    match fuel with
    | O => None
    | S fuel =>
      crc1 ← do_8 t buf crc1 next1;
      crc2 ← do_8 t buf crc2 next2;
      loop2 fuel t buf crc1 crc2 (next1 + 8) (next2 + 8) (len - 8)
    end
  else Some (crc1, crc2, next1, next2).

Fixpoint loop3 (fuel : nat) (t : table) (buf : list Z) (crc1 crc2 crc3 next1 next2 next3 len : Z) : option (Z * Z * Z * Z * Z * Z) :=
  if len >=? 8 then
    match fuel with
    | O => None
    | S fuel =>
      crc1 ← do_8 t buf crc1 next1;
      crc2 ← do_8 t buf crc2 next2;
      crc3 ← do_8 t buf crc3 next3;
      loop3 fuel t buf crc1 crc2 crc3 (next1 + 8) (next2 + 8) (next3 + 8) (len - 8)
    end
  else Some (crc1, crc2, crc3, next1, next2, next3).

(** [CRC64_SPLIT]: the length of a segment. *)
Definition segment (len div : Z) : Z := Z.land (len / div) CRC64_LEN_MASK.

(** The parallel streams: the cache, the checksum, the position and the
    length that is left. *)
Definition streams (t : table) (c : cache) (dual tri : Z) (buf : list Z) (crc1 next1 len : Z) : option (cache * Z * Z * Z) :=
  if len >? tri then
    let olen := len in
    let next2 := next1 + segment len 3 in
    let len := next2 - next1 in
    let next3 := next2 + len in
    '(crc1, crc2, crc3, next1, next2, next3) ← loop3 (length buf) t buf crc1 0 0 next1 next2 next3 len;
    '(c, crc1) ← crc64_combine c crc1 crc2 (next2 - next1) CRC64_REVERSED_POLY 64;
    '(c, crc1) ← crc64_combine c crc1 crc3 (next2 - next1) CRC64_REVERSED_POLY 64;
    Some (c, crc1, next3, olen - (next2 - next1) * 3)
  else if len >? dual then
    let olen := len in
    let next2 := next1 + segment len 2 in
    let len := next2 - next1 in
    '(crc1, crc2, next1, next2) ← loop2 (length buf) t buf crc1 0 next1 next2 len;
    '(c, crc1) ← crc64_combine c crc1 crc2 (next2 - next1) CRC64_REVERSED_POLY 64;
    Some (c, crc1, next2, olen - (next2 - next1) * 2)
  else Some (c, crc1, next1, len).

Definition crcspeed64little (t : table) (c : cache) (dual tri addr : Z) (crc1 : Z) (buf : list Z) : option (cache * Z) :=
  let fuel := length buf in
  let len := zlen buf in
  if dual <? 1 then crc1 ← final_loop fuel t buf crc1 0 len; Some (c, crc1)
  else
    '(crc1, next1, len) ← align_loop fuel t addr buf crc1 0 len;
    '(c, crc1, next1, len) ← streams t c dual tri buf crc1 next1 len;
    '(crc1, next1, len) ← loop1 fuel t buf crc1 next1 len;
    crc1 ← final_loop fuel t buf crc1 next1 len;
    Some (c, crc1).

(** ** On a big-endian machine *)

Definition big_byte (t : table) (buf : list Z) (crc next : Z) : option Z :=
  b ← rd buf next;
  x ← lookup_table t 0 (Z.lxor (Z.shiftr crc 56) b);
  Some (Z.lxor x (uwrap 64 (Z.shiftl crc 8))).

Fixpoint big_align (fuel : nat) (t : table) (addr : Z) (buf : list Z) (crc next len : Z) : option (Z * Z * Z) :=
  if negb (len =? 0) && negb (Z.land (addr + next) 7 =? 0) then
    match fuel with
    | O => None
    | S fuel => crc ← big_byte t buf crc next; big_align fuel t addr buf crc (next + 1) (len - 1)
    end
  else Some (crc, next, len).

Definition big_8 (t : table) (buf : list Z) (crc next : Z) : option Z :=
  w ← rdn buf next 8;
  let crc := Z.lxor crc (le_val (reverse w)) in
  let byte k := Z.land (Z.shiftr crc k) 0xff in
  x0 ← lookup_table t 0 (Z.land crc 0xff);
  x1 ← lookup_table t 1 (byte 8);
  x2 ← lookup_table t 2 (byte 16);
  x3 ← lookup_table t 3 (byte 24);
  x4 ← lookup_table t 4 (byte 32);
  x5 ← lookup_table t 5 (byte 40);
  x6 ← lookup_table t 6 (byte 48);
  x7 ← lookup_table t 7 (Z.shiftr crc 56);
  Some (Z.lxor (Z.lxor (Z.lxor (Z.lxor (Z.lxor (Z.lxor (Z.lxor x0 x1) x2) x3) x4) x5) x6) x7).

Fixpoint big_loop (fuel : nat) (t : table) (buf : list Z) (crc next len : Z) : option (Z * Z * Z) :=
  if len >=? 8 then
    match fuel with
    | O => None
    | S fuel => crc ← big_8 t buf crc next; big_loop fuel t buf crc (next + 8) (len - 8)
    end
  else Some (crc, next, len).

Fixpoint big_final (fuel : nat) (t : table) (buf : list Z) (crc next len : Z) : option Z :=
  if negb (len =? 0) then
    match fuel with
    | O => None
    | S fuel => crc ← big_byte t buf crc next; big_final fuel t buf crc (next + 1) (len - 1)
    end
  else Some crc.

Definition crcspeed64big (gnuc : bool) (t : table) (addr : Z) (crc : Z) (buf : list Z) : option Z :=
  let fuel := length buf in
  let crc := rev8 gnuc crc in
  '(crc, next, len) ← big_align fuel t addr buf crc 0 (zlen buf);
  '(crc, next, len) ← big_loop fuel t buf crc next len;
  crc ← big_final fuel t buf crc next len;
  Some (rev8 gnuc crc).

(** ** The checksum of dumps *)

Definition crc64_init (gnuc little : bool) : option table :=
  if little then crcspeed64little_init (_crc64 gnuc) else crcspeed64big_init gnuc (_crc64 gnuc).

Definition crc64 (gnuc little : bool) (t : table) (c : cache) (dual tri addr : Z) (crc : Z) (s : list Z) : option (cache * Z) :=
  if little then crcspeed64little t c dual tri addr crc s
  else crc ← crcspeed64big gnuc t addr crc s; Some (c, crc).
End Combine.
End Crc64.
