(* ===== verification/Crc64Spec.v ===== *)
(** * CRC64: all the ways to compute it agree

    The reference: a register of 64 bits that is shifted down, one zero bit
    after the other, after each byte is added.  It is additive, so a checksum
    is the sum of what the start and the bytes contribute; from this follow
    the tables, the matrices and the joining of streams. *)

From S2P Require Import Prelude Gf2 Crc64.

Module Crc64Spec.
Import Gf2 Crc64.

(** ** The reference *)

Definition zbit (x : Z) : Z := Z.lxor (Z.shiftr x 1) (if Z.odd x then CRC64_REVERSED_POLY else 0).
Definition zeros (n : nat) : Z -> Z := Nat.iter n zbit.
Definition crc_of (crc : Z) (buf : list Z) : Z := foldl (fun crc b => zeros 8 (Z.lxor crc b)) crc buf.

#[global] Instance zbit_additive : Additive zbit.
Proof.
  intros x y. unfold zbit. rewrite Z.shiftr_lxor, lxor_exchange. f_equal. rewrite <- !Z.bit0_odd, Z.lxor_spec.
  by destruct (Z.testbit x 0), (Z.testbit y 0).
Qed.

#[global] Instance zeros_additive n : Additive (zeros n).
Proof. apply additive_iter, zbit_additive. Qed.

Lemma zbit_range x : in_u 64 x -> in_u 64 (zbit x).
Proof.
  intros [H0 H1]. unfold zbit. apply lxor_range; [lia| |destruct (Z.odd x); unfold in_u; vm_compute; split; congruence].
  rewrite Z.shiftr_div_pow2 by lia. change (2 ^ 1) with 2. unfold in_u. split; [apply Z.div_pos; lia|apply Z.div_lt_upper_bound; lia].
Qed.

Lemma zeros_range n x : in_u 64 x -> in_u 64 (zeros n x).
Proof. intros Hx. unfold zeros. induction n as [|n IH]; [done|]. rewrite Nat.iter_succ. by apply zbit_range. Qed.

Lemma zeros_add a b x : zeros (a + b) x = zeros a (zeros b x).
Proof. apply Nat.iter_add. Qed.

(** Zero bits push out what is below. *)
Lemma zeros_shift k x : zeros k (Z.shiftl x (Z.of_nat k)) = x.
Proof.
  induction k as [|k IH]; [apply Z.shiftl_0_r|]. replace (S k) with (k + 1)%nat by lia. rewrite zeros_add. rewrite <- IH at 2. f_equal.
  change (zeros 1 ?a) with (zbit a). unfold zbit. replace (Z.of_nat (k + 1)) with (Z.of_nat k + 1) by lia. rewrite <- Z.shiftl_shiftl by lia.
  rewrite Z.shiftr_shiftl_l by lia. rewrite Z.sub_diag, Z.shiftl_0_r. set (y := Z.shiftl x (Z.of_nat k)).
  assert (Z.odd (Z.shiftl y 1) = false) as -> by (rewrite <- Z.bit0_odd; apply Z.shiftl_spec_low; lia). apply Z.lxor_0_r.
Qed.

Lemma zeros_split k j x : zeros (k + j) x = Z.lxor (zeros j (x / 2 ^ Z.of_nat k)) (zeros (k + j) (x mod 2 ^ Z.of_nat k)).
Proof.
  rewrite (split_lxor (Z.of_nat k) x) at 1 by lia. rewrite (additive (f := zeros (k + j))). f_equal.
  rewrite Nat.add_comm, zeros_add. by rewrite zeros_shift.
Qed.

Lemma byte_range64 b : byte_ok b -> in_u 64 b.
Proof. unfold byte_ok, in_u. lia. Qed.

Lemma crc_of_range buf : bytes_ok buf -> forall crc, in_u 64 crc -> in_u 64 (crc_of crc buf).
Proof.
  induction 1 as [|b buf Hb _ IH]; intros crc Hc; [done|]. cbn [crc_of foldl]. apply IH, zeros_range, lxor_range; [lia|done|by apply byte_range64].
Qed.

Lemma crc_of_app a b crc : crc_of crc (a ++ b) = crc_of (crc_of crc a) b.
Proof. apply foldl_app. Qed.

(** The checksum of bytes is that of the number they write. *)
Lemma crc_of_word w : bytes_ok w -> forall crc, crc_of crc w = zeros (8 * length w) (Z.lxor crc (le_val w)).
Proof.
  induction 1 as [|b w Hb _ IH]; intros crc; cbn [crc_of foldl length le_val].
  { by rewrite Z.lxor_0_r. }
  fold (crc_of (zeros 8 (Z.lxor crc b)) w). rewrite IH. replace (8 * S (length w))%nat with (8 * length w + 8)%nat by lia. rewrite zeros_add. f_equal.
  rewrite <- (zeros_shift 8 (le_val w)) at 1. rewrite <- (additive (f := zeros 8)). f_equal. rewrite Z.lxor_assoc. f_equal.
  change (Z.of_nat 8) with 8. pose proof (split_lxor 8 (b + 256 * le_val w) ltac:(lia)) as H. change (2 ^ 8) with 256 in H.
  assert ((b + 256 * le_val w) / 256 = le_val w /\ (b + 256 * le_val w) mod 256 = b) as [E1 E2] by (unfold byte_ok in Hb; dlia).
  rewrite E1, E2 in H. rewrite H. apply Z.lxor_comm.
Qed.

(** What the start and the bytes contribute. *)
Lemma crc_of_start w : forall crc, crc_of crc w = Z.lxor (Nat.iter (length w) (zeros 8) crc) (crc_of 0 w).
Proof.
  induction w as [|b w IH]; intros crc; cbn [crc_of foldl length]; [by rewrite Z.lxor_0_r|].
  fold (crc_of (zeros 8 (Z.lxor crc b)) w) (crc_of (zeros 8 (Z.lxor 0 b)) w). rewrite IH, (IH (zeros 8 (Z.lxor 0 b))). rewrite Z.lxor_0_l.
  rewrite Nat.iter_succ_r, (additive (f := zeros 8)), (additive (f := Nat.iter (length w) (zeros 8))). by rewrite Z.lxor_assoc.
Qed.

(** ** Reflection *)

Lemma below_forall (n : nat) (P : Z -> bool) : forallb P (map Z.of_nat (seq 0 n)) = true -> forall i, 0 <= i < Z.of_nat n -> P i = true.
Proof.
  intros H i Hi. rewrite forallb_forall in H. apply H, in_map_iff. exists (Z.to_nat i). split; [lia|]. apply in_seq. lia.
Qed.

Lemma bits64 x y : in_u 64 x -> in_u 64 y -> (forall i, 0 <= i < 64 -> Z.testbit x i = Z.testbit y i) -> x = y.
Proof.
  intros Hx Hy H. rewrite <- (Z.mod_small x (2 ^ 64)), <- (Z.mod_small y (2 ^ 64)) by done. apply Z.bits_inj'. intros i Hi.
  destruct (Z.lt_ge_cases i 64); [rewrite !Z.mod_pow2_bits_low by lia; apply H; lia|by rewrite !Z.mod_pow2_bits_high by lia].
Qed.

Lemma range_of_bits x : 0 <= x -> (forall i, 64 <= i -> Z.testbit x i = false) -> in_u 64 x.
Proof.
  intros H0 H. assert (x = x mod 2 ^ 64) as ->; [|apply Z.mod_pos_bound; lia]. apply Z.bits_inj'. intros i Hi.
  destruct (Z.lt_ge_cases i 64); [by rewrite Z.mod_pow2_bits_low by lia|rewrite Z.mod_pow2_bits_high by lia; by apply H].
Qed.

Lemma bit_above x i : in_u 64 x -> 64 <= i -> Z.testbit x i = false.
Proof. intros Hx Hi. rewrite <- (Z.mod_small x (2 ^ 64)) by done. apply Z.mod_pow2_bits_high. lia. Qed.

(** [y] has the bits of [x] in the order given by [f]. *)
Record permuted (f : Z -> Z) (x y : Z) : Prop := {
  permuted_range : in_u 64 y;
  permuted_bits : forall i, 0 <= i < 64 -> Z.testbit y i = Z.testbit x (f i) }.

Lemma permuted_trans f g x y z : permuted f x y -> permuted g y z -> (forall i, 0 <= i < 64 -> 0 <= g i < 64) -> permuted (fun i => f (g i)) x z.
Proof. intros [_ H1] [Hr H2] Hg. constructor; [exact Hr|]. intros i Hi. rewrite H2, H1 by auto. done. Qed.

Lemma permuted_ext f g x y : (forall i, 0 <= i < 64 -> f i = g i) -> permuted f x y -> permuted g x y.
Proof. intros H [Hr Hb]. constructor; [exact Hr|]. intros i Hi. by rewrite Hb, H. Qed.

Lemma permuted_unique f x y z : permuted f x y -> permuted f x z -> y = z.
Proof. intros [H1 H2] [H3 H4]. apply bits64; [done|done|]. intros i Hi. by rewrite H2, H4. Qed.

(** The bit [k] of a position is flipped. *)
Definition flip (k i : Z) : Z := Z.lxor i k.

Definition mask_ok (m k : Z) : bool :=
  forallb (fun i => if Z.land i k =? 0 then Z.testbit m i && (flip k i =? i + k) && ((i <? k) || negb (Z.testbit m (i - k)))
                    else negb (Z.testbit m i) && (flip k i =? i - k) && (k <=? i) && Z.testbit m (i - k)) (map Z.of_nat (seq 0 64)) &&
  (0 <=? k) && (0 <=? m) && (m <? 2 ^ (64 - k)) && (k <=? 64).

Lemma swap_bits_spec m k x : mask_ok m k = true -> in_u 64 x -> permuted (flip k) x (swap_bits m k x).
Proof.
  unfold mask_ok. rewrite !andb_true_iff, !Z.leb_le, Z.ltb_lt. intros ((((Hm & Hk) & Hm0) & Hm1) & Hk1) Hx. unfold swap_bits. constructor.
  - apply range_of_bits; [apply Z.lor_nonneg; split; [apply Z.land_nonneg; by right|apply Z.shiftl_nonneg, Z.land_nonneg; by right]|].
    intros i Hi. rewrite Z.lor_spec, Z.land_spec, Z.shiftr_spec, Z.shiftl_spec, Z.land_spec by lia. rewrite (bit_above x (i + k)) by (done || lia). cbn [andb orb].
    apply andb_false_iff. right. rewrite <- (Z.mod_small m (2 ^ (64 - k))) by lia. apply Z.mod_pow2_bits_high. lia.
  - intros i Hi. pose proof (below_forall 64 _ Hm i Hi) as H. cbn beta in H. rewrite Z.lor_spec, Z.land_spec, Z.shiftr_spec, Z.shiftl_spec, Z.land_spec by lia.
    destruct (Z.land i k =? 0).
    + rewrite !andb_true_iff, orb_true_iff, negb_true_iff, Z.eqb_eq in H. destruct H as [[-> ->] H]. rewrite andb_true_r.
      destruct H as [H| ->]; [|by rewrite andb_false_r, orb_false_r]. rewrite (Z.testbit_neg_r x (i - k)) by lia. by rewrite andb_false_l, orb_false_r.
    + rewrite !andb_true_iff, negb_true_iff, Z.eqb_eq in H. destruct H as [[[-> ->] _] ->]. by rewrite andb_false_r, orb_false_l, andb_true_r.
Qed.

Definition byte_order (i : Z) : Z := 8 * (7 - i / 8) + i mod 8.

Lemma bswap_spec x : in_u 64 x -> permuted byte_order x (builtin_bswap64 x).
Proof.
  intros Hx. unfold builtin_bswap64. assert (bytes_ok (reverse (le_bytes 8 x))) as Hb by (apply Forall_reverse, le_bytes_ok).
  assert (length (reverse (le_bytes 8 x)) = 8%nat) as Hl by (by rewrite length_reverse, le_bytes_length). constructor.
  - pose proof (le_val_range _ Hb) as H. rewrite Hl in H. exact H.
  - intros i Hi. rewrite le_val_bit by (done || lia). unfold byte_order.
    assert (le_val (le_bytes 8 x) = x) as Hv by (rewrite le_val_bytes; by apply Z.mod_small).
    rewrite <- Hv at 2. rewrite le_val_bit by (apply le_bytes_ok || dlia).
    replace ((8 * (7 - i / 8) + i mod 8) / 8) with (7 - i / 8) by dlia. replace ((8 * (7 - i / 8) + i mod 8) mod 8) with (i mod 8) by dlia. do 2 f_equal.
    rewrite reverse_lookup by (rewrite le_bytes_length; dlia). rewrite le_bytes_length. f_equal. dlia.
Qed.

Lemma byte_swaps_spec x : in_u 64 x ->
  permuted byte_order x (swap_bits 0xFFFFFFFF 32 (swap_bits 0xFFFF0000FFFF 16 (swap_bits 0x00FF00FF00FF00FF 8 x))).
Proof.
  intros Hx. pose proof (swap_bits_spec 0x00FF00FF00FF00FF 8 x eq_refl Hx) as H8. pose proof (swap_bits_spec 0xFFFF0000FFFF 16 _ eq_refl (permuted_range _ _ _ H8)) as H16.
  pose proof (swap_bits_spec 0xFFFFFFFF 32 _ eq_refl (permuted_range _ _ _ H16)) as H32.
  assert (forall k, (k = 8 \/ k = 16 \/ k = 32) -> forall i, 0 <= i < 64 -> 0 <= flip k i < 64) as Hf.
  { intros k Hk i Hi. apply (lxor_range 6); unfold in_u; lia. }
  pose proof (permuted_trans _ _ _ _ _ (permuted_trans _ _ _ _ _ H8 H16 (Hf 16 ltac:(lia))) H32 (Hf 32 ltac:(lia))) as H.
  refine (permuted_ext _ _ _ _ _ H). intros i Hi.
  pose proof (below_forall 64 (fun i => flip 8 (flip 16 (flip 32 i)) =? byte_order i) eq_refl i Hi) as E. cbn beta in E. lia.
Qed.

Lemma reflect_spec gnuc x : in_u 64 x -> exists y, crc_reflect gnuc x 64 = Some y /\ permuted (fun i => 63 - i) x y.
Proof.
  intros Hx. unfold crc_reflect. change (negb (64 <=? 64)) with false. change (64 - 64) with 0. rewrite Z.shiftr_0_r. eexists. split; [reflexivity|].
  pose proof (swap_bits_spec 0x5555555555555555 1 x eq_refl Hx) as H1. pose proof (swap_bits_spec 0x3333333333333333 2 _ eq_refl (permuted_range _ _ _ H1)) as H2.
  pose proof (swap_bits_spec 0x0F0F0F0F0F0F0F0F 4 _ eq_refl (permuted_range _ _ _ H2)) as H4. set (z := swap_bits _ 4 _) in *.
  assert (permuted byte_order z (if gnuc then builtin_bswap64 z else swap_bits 0xFFFFFFFF 32 (swap_bits 0xFFFF0000FFFF 16 (swap_bits 0x00FF00FF00FF00FF 8 z)))) as H8.
  { destruct gnuc; [apply bswap_spec|apply byte_swaps_spec]; apply H4. }
  assert (forall k, (k = 2 \/ k = 4) -> forall i, 0 <= i < 64 -> 0 <= flip k i < 64) as Hf by (intros k Hk i Hi; apply (lxor_range 6); unfold in_u; lia).
  assert (forall i, 0 <= i < 64 -> 0 <= byte_order i < 64) as Hbo by (intros i Hi; unfold byte_order; dlia).
  pose proof (permuted_trans _ _ _ _ _ (permuted_trans _ _ _ _ _ (permuted_trans _ _ _ _ _ H1 H2 (Hf 2 ltac:(lia))) H4 (Hf 4 ltac:(lia))) H8 Hbo) as H.
  refine (permuted_ext _ _ _ _ _ H). intros i Hi.
  pose proof (below_forall 64 (fun i => flip 1 (flip 2 (flip 4 (byte_order i))) =? 63 - i) eq_refl i Hi) as E. cbn beta in E. lia.
Qed.

(** ** Bit by bit *)

(** The register of the code, from the highest bit, and the reference. *)
Definition mirrored (crc y : Z) : Prop := in_u 64 crc /\ permuted (fun i => 63 - i) crc y.

Definition step_bit (y : Z) (bit : bool) : Z := zbit (Z.lxor y (Z.b2z bit)).

Lemma land_pow2 x j : 0 <= j -> (Z.land x (2 ^ j) =? 0) = negb (Z.testbit x j).
Proof.
  intros Hj. destruct (Z.testbit x j) eqn:E.
  - apply Z.eqb_neq. intros H. apply (f_equal (fun z => Z.testbit z j)) in H. rewrite Z.land_spec, E, Z.pow2_bits_true, Z.bits_0 in H by lia. discriminate.
  - apply Z.eqb_eq. apply Z.bits_inj'. intros i Hi. rewrite Z.land_spec, Z.bits_0, Z.pow2_bits_eqb by lia. destruct (Z.eqb_spec j i) as [<-|]; [by rewrite E|apply andb_false_r].
Qed.

Lemma bit_step c crc y j : mirrored crc y -> 0 <= j < 8 -> mirrored (crc64_bit c crc (2 ^ j)) (step_bit y (Z.testbit c j)).
Proof.
  intros [Hc [Hy Hb]] Hj. unfold crc64_bit, step_bit. change 0x8000000000000000 with (2 ^ 63). rewrite land_pow2, negb_involutive by lia.
  set (bit := if Z.testbit c j then _ else _). set (b := xorb (Z.testbit crc 63) (Z.testbit c j)).
  assert (negb (bit =? 0) = b) as ->.
  { unfold bit, b. rewrite land_pow2 by lia. destruct (Z.testbit c j); [by destruct (Z.testbit crc 63)|]. rewrite land_pow2, negb_involutive by lia. by rewrite xorb_false_r. }
  assert (zbit (Z.lxor y (Z.b2z (Z.testbit c j))) = Z.lxor (Z.shiftr y 1) (if b then CRC64_REVERSED_POLY else 0)) as ->.
  { unfold zbit. rewrite Z.shiftr_lxor. f_equal.
    - replace (Z.shiftr (Z.b2z (Z.testbit c j)) 1) with 0 by (by destruct (Z.testbit c j)). apply Z.lxor_0_r.
    - rewrite <- Z.bit0_odd, Z.lxor_spec, Hb, Z.b2z_bit0 by lia. change (63 - 0) with 63. done. }
  replace (if b then Z.lxor (uwrap 64 (Z.shiftl crc 1)) POLY else uwrap 64 (Z.shiftl crc 1)) with (Z.lxor (uwrap 64 (Z.shiftl crc 1)) (if b then POLY else 0))
    by (destruct b; [done|by rewrite Z.lxor_0_r]).
  assert (forall v, (v = POLY \/ v = 0 \/ v = CRC64_REVERSED_POLY) -> in_u 64 v) as Hv by (intros v [-> | [-> | ->]]; unfold in_u; vm_compute; split; congruence).
  split; [apply lxor_range; [lia|by apply uwrap_range|apply Hv; destruct b; auto]|]. constructor.
  - apply lxor_range; [lia| |apply Hv; destruct b; auto]. rewrite Z.shiftr_div_pow2 by lia. change (2 ^ 1) with 2. unfold in_u in *. split; [apply Z.div_pos; lia|apply Z.div_lt_upper_bound; lia].
  - intros i Hi. rewrite !Z.lxor_spec, Z.shiftr_spec, uwrap_testbit, Z.shiftl_spec by lia. rewrite (proj2 (Z.ltb_lt (63 - i) 64)) by lia. rewrite andb_true_l. f_equal.
    + replace (63 - i - 1) with (62 - i) by lia. destruct (Z.eq_dec i 63) as [->|Hne]; [by rewrite bit_above|]. rewrite Hb by lia. f_equal. lia.
    + pose proof (below_forall 64 (fun i => eqb (Z.testbit CRC64_REVERSED_POLY i) (Z.testbit POLY (63 - i))) eq_refl i Hi) as E. cbn beta in E. apply eqb_prop in E.
      destruct b; [exact E|by rewrite !Z.bits_0].
Qed.

(** The eight bits of a byte, the lowest first. *)
Lemma step_bits y c : byte_ok c -> foldl step_bit y (map (fun j => Z.testbit c (Z.of_nat j)) (seq 0 8)) = zeros 8 (Z.lxor y c).
Proof.
  intros Hc. rewrite (additive (f := zeros 8)).
  assert (forall bits y, foldl step_bit y bits = Z.lxor (zeros (length bits) y) (foldl step_bit 0 bits)) as Hlin.
  { induction bits as [|b bits IH]; intros z; cbn [foldl length]; [by rewrite Z.lxor_0_r|]. rewrite IH, (IH (step_bit 0 b)). unfold step_bit. rewrite Z.lxor_0_l.
    rewrite (additive (f := zbit)), (additive (f := zeros (length bits))), Z.lxor_assoc. f_equal. unfold zeros. by rewrite Nat.iter_succ_r. }
  rewrite Hlin. rewrite length_map, length_seq. f_equal.
  pose proof (byte_forall (fun c => foldl step_bit 0 (map (fun j => Z.testbit c (Z.of_nat j)) (seq 0 8)) =? zeros 8 c) ltac:(vm_compute; reflexivity) c Hc) as E.
  cbn beta in E. lia.
Qed.

Lemma byte_step_spec crc y c : mirrored crc y -> byte_ok c -> mirrored (crc64_byte crc c) (zeros 8 (Z.lxor y c)).
Proof.
  intros Hm Hc. rewrite <- step_bits by done. unfold crc64_byte.
  change [0x01; 0x02; 0x04; 0x08; 0x10; 0x20; 0x40; 0x80] with (map (fun j => 2 ^ Z.of_nat j) (seq 0 8)).
  assert (forall js, Forall (fun j => (j < 8)%nat) js -> forall crc y, mirrored crc y ->
    mirrored (foldl (crc64_bit c) crc (map (fun j => 2 ^ Z.of_nat j) js)) (foldl step_bit y (map (fun j => Z.testbit c (Z.of_nat j)) js))) as H.
  { induction 1 as [|j js Hj _ IH]; intros crc' y' Hm'; cbn [map foldl]; [done|]. apply IH, bit_step; [done|lia]. }
  specialize (H (seq 0 8) ltac:(apply Forall_seq; lia) crc y Hm). set (r := foldl (crc64_bit c) _ _) in *.
  replace (Z.land r 0xffffffffffffffff) with r; [exact H|]. rewrite (land_ones_mod _ 64) by done. symmetry. apply Z.mod_small. apply H.
Qed.

(** The bit by bit checksum is the reference. *)
Lemma crc64_bits gnuc crc y data : mirrored crc y -> bytes_ok data -> _crc64 gnuc crc data = Some (crc_of y data).
Proof.
  intros Hm Hd. unfold _crc64. assert (mirrored (foldl crc64_byte crc data) (crc_of y data)) as H.
  { revert crc y Hm. induction Hd as [|c data Hc _ IH]; intros crc y Hm; cbn [foldl crc_of]; [done|]. apply IH. by apply byte_step_spec. }
  rewrite (land_ones_mod _ 64) by done. rewrite Z.mod_small by apply H. destruct (reflect_spec gnuc _ (proj1 H)) as (z & -> & Hz). mred. rewrite Z.lxor_0_r. f_equal.
  exact (permuted_unique _ _ _ _ Hz (proj2 H)).
Qed.

Lemma mirrored_zero : mirrored 0 0.
Proof. split; [unfold in_u; lia|]. constructor; [unfold in_u; lia|]. intros i Hi. by rewrite !Z.bits_0. Qed.

(** ** Tables *)

Lemma mapM_total {A B} (f : A -> option B) (g : A -> B) l : (forall x, x ∈ l -> f x = Some (g x)) -> mapM f l = Some (map g l).
Proof.
  induction l as [|x l IH]; intros H; [done|]. cbn [mapM map]. rewrite (H x) by (by left). mred. rewrite IH by (intros y Hy; apply H; by right). done.
Qed.

(** The row for [n] bytes. *)
Definition table_row (n : nat) : list Z := map (fun i => zeros (8 * n) (Z.of_nat i)) (seq 0 256).

Lemma table_row_lookup n i : byte_ok i -> table_row n !! Z.to_nat i = Some (zeros (8 * n) i).
Proof.
  intros Hi. unfold byte_ok in Hi. unfold table_row. rewrite list_lookup_fmap, lookup_seq_lt by lia. cbn. by rewrite Z2Nat.id by lia.
Qed.

Lemma low_byte x : byte_ok (Z.land x 0xff) /\ Z.land x 0xff = x mod 2 ^ 8.
Proof. rewrite (land_ones_mod _ 8) by done. split; [apply Z.mod_pos_bound; lia|done]. Qed.

(** A byte of zeroes. *)
Lemma table_step_spec x : table_step (table_row 1) x = Some (zeros 8 x).
Proof.
  unfold table_step. destruct (low_byte x) as [Hb E]. rewrite table_row_lookup by done. mred. f_equal. rewrite E.
  pose proof (zeros_split 8 0 x) as H. cbn [Nat.add] in H. change (8 * 1)%nat with 8%nat. rewrite H. change (Z.of_nat 8) with 8. rewrite Z.shiftr_div_pow2 by lia.
  change (zeros 0 ?a) with a. apply Z.lxor_comm.
Qed.

Lemma nested_rows_spec k : forall n, nested_rows k (table_row 1) (table_row n) = Some (map table_row (seq (S n) k)).
Proof.
  induction k as [|k IH]; intros n; cbn [nested_rows seq map]; [done|].
  rewrite (mapM_total _ (zeros 8)) by (intros; apply table_step_spec). mred.
  assert (map (zeros 8) (table_row n) = table_row (S n)) as ->; [|by rewrite IH].
  unfold table_row. rewrite map_map. apply map_ext. intros i. rewrite <- zeros_add. f_equal. lia.
Qed.

Definition the_table : table := map table_row (seq 1 8).

Lemma little_init_spec gnuc : crcspeed64little_init (_crc64 gnuc) = Some the_table.
Proof.
  unfold crcspeed64little_init. rewrite (mapM_total _ (fun n => zeros 8 (Z.of_nat n))).
  - mred. change (map (fun n : nat => zeros 8 (Z.of_nat n)) (seq 0 256)) with (table_row 1). rewrite nested_rows_spec. mred. reflexivity.
  - intros n Hn%elem_of_seq. rewrite (crc64_bits gnuc 0 0) by (apply mirrored_zero || (constructor; [unfold byte_ok; lia|constructor])).
    cbn [crc_of foldl]. by rewrite Z.lxor_0_l.
Qed.

Lemma the_table_lookup k i : 0 <= k < 8 -> byte_ok i -> lookup_table the_table k i = Some (zeros (8 * S (Z.to_nat k)) i).
Proof.
  intros Hk Hi. unfold lookup_table, the_table. rewrite list_lookup_fmap, lookup_seq_lt by lia.
  change (table_row (1 + Z.to_nat k) !! Z.to_nat i = Some (zeros (8 * S (Z.to_nat k)) i)). by rewrite table_row_lookup.
Qed.

(** ** Loops over the buffer *)

Definition seg (buf : list Z) (next len : Z) : list Z := take (Z.to_nat len) (drop (Z.to_nat next) buf).

Lemma seg_split buf next a b : 0 <= next -> 0 <= a -> 0 <= b -> seg buf next (a + b) = seg buf next a ++ seg buf (next + a) b.
Proof.
  intros Hn Ha Hb. unfold seg. rewrite !Z2Nat.inj_add by lia. rewrite <- drop_drop. symmetry. apply take_take_drop.
Qed.

Lemma seg_bytes buf next len : bytes_ok buf -> bytes_ok (seg buf next len).
Proof. intros H. by apply Forall_take, Forall_drop. Qed.

Lemma seg_length buf next len : 0 <= next -> 0 <= len -> next + len <= zlen buf -> zlen (seg buf next len) = len.
Proof. intros. unfold seg. rewrite length_take, length_drop. lia. Qed.

Lemma seg_read buf next len : 0 <= next -> 0 <= len -> next + len <= zlen buf -> rdn buf next len = Some (seg buf next len).
Proof. intros. by apply rdn_Some. Qed.

Lemma seg_one buf next : bytes_ok buf -> 0 <= next < zlen buf -> exists b, rd buf next = Some b /\ byte_ok b /\ seg buf next 1 = [b].
Proof.
  intros Hb Hn. destruct (lookup_lt_is_Some_2 buf (Z.to_nat next)) as [b E]; [lia|]. exists b. rewrite rd_lookup by lia. split_and!; [done|by eapply Forall_lookup_1|].
  unfold seg. rewrite (drop_S _ _ _ E). done.
Qed.

Lemma byte_step_table buf crc next : bytes_ok buf -> 0 <= next < zlen buf -> byte_step the_table buf crc next = Some (crc_of crc (seg buf next 1)).
Proof.
  intros Hb Hn. destruct (seg_one buf next Hb Hn) as (b & Hrd & Hbb & ->). unfold byte_step. rewrite Hrd. mred. destruct (low_byte (Z.lxor crc b)) as [Hl El].
  rewrite the_table_lookup by (done || lia). mred. cbn [crc_of foldl]. f_equal. rewrite El. change (8 * S (Z.to_nat 0))%nat with 8%nat.
  pose proof (zeros_split 8 0 (Z.lxor crc b)) as H. cbn [Nat.add] in H. rewrite H. change (Z.of_nat 8) with 8. change (zeros 0 ?a) with a. rewrite Z.lxor_comm. f_equal.
  rewrite Z.shiftr_div_pow2 by lia. rewrite <- !Z.shiftr_div_pow2, Z.shiftr_lxor by lia. replace (Z.shiftr b 8) with 0; [by rewrite Z.lxor_0_r|].
  rewrite Z.shiftr_div_pow2 by lia. symmetry. apply Z.div_small. unfold byte_ok in Hbb. change (2 ^ 8) with 256. lia.
Qed.

(** The sum of the tables is the shift by 64 zero bits. *)
Lemma slices x : in_u 64 x ->
  zeros 64 x = Z.lxor (Z.lxor (Z.lxor (Z.lxor (Z.lxor (Z.lxor (Z.lxor (zeros 64 (x mod 2 ^ 8)) (zeros 56 (x / 2 ^ 8 mod 2 ^ 8))) (zeros 48 (x / 2 ^ 16 mod 2 ^ 8)))
    (zeros 40 (x / 2 ^ 24 mod 2 ^ 8))) (zeros 32 (x / 2 ^ 32 mod 2 ^ 8))) (zeros 24 (x / 2 ^ 40 mod 2 ^ 8))) (zeros 16 (x / 2 ^ 48 mod 2 ^ 8))) (zeros 8 (x / 2 ^ 56)).
Proof.
  intros Hx. assert (forall j k, 0 <= k -> zeros (8 + j) (x / 2 ^ k) = Z.lxor (zeros j (x / 2 ^ (k + 8))) (zeros (8 + j) (x / 2 ^ k mod 2 ^ 8))) as H.
  { intros j k Hk. rewrite zeros_split. change (Z.of_nat 8) with 8. rewrite Z.div_div by lia. rewrite <- Z.pow_add_r by lia. done. }
  pose proof (H 56%nat 0 ltac:(lia)) as H0. change (2 ^ 0) with 1 in H0. rewrite Z.div_1_r in H0. cbn [Nat.add] in H0. rewrite H0.
  pose proof (H 48%nat 8 ltac:(lia)) as H1. pose proof (H 40%nat 16 ltac:(lia)) as H2. pose proof (H 32%nat 24 ltac:(lia)) as H3. pose proof (H 24%nat 32 ltac:(lia)) as H4.
  pose proof (H 16%nat 40 ltac:(lia)) as H5. pose proof (H 8%nat 48 ltac:(lia)) as H6. cbn [Nat.add Z.add] in *. 
  change (0 + 8) with 8. change (8 + 8) with 16 in H1. change (16 + 8) with 24 in H2. change (24 + 8) with 32 in H3. change (32 + 8) with 40 in H4. change (40 + 8) with 48 in H5. change (48 + 8) with 56 in H6.
  rewrite H1, H2, H3, H4, H5, H6. xbits.
Qed.

Lemma do_8_spec buf crc next : bytes_ok buf -> in_u 64 crc -> 0 <= next -> next + 8 <= zlen buf ->
  do_8 the_table buf crc next = Some (crc_of crc (seg buf next 8)).
Proof.
  intros Hb Hc Hn Hle. unfold do_8. rewrite (seg_read buf next 8) by lia. mred. pose proof (seg_bytes buf next 8 Hb) as Hsb.
  assert (length (seg buf next 8) = 8%nat) as Hl by (pose proof (seg_length buf next 8); lia).
  rewrite crc_of_word, Hl by done. change (8 * 8)%nat with 64%nat. set (x := Z.lxor crc (le_val (seg buf next 8))).
  assert (in_u 64 x) as Hx. { apply lxor_range; [lia|done|]. pose proof (le_val_range _ Hsb) as H. rewrite Hl in H. exact H. }
  assert (forall k, 0 <= k -> byte_ok (uwrap 8 (Z.shiftr x k)) /\ uwrap 8 (Z.shiftr x k) = x / 2 ^ k mod 2 ^ 8) as Hbyte.
  { intros k Hk. split; [apply uwrap_range; lia|]. unfold uwrap. by rewrite Z.shiftr_div_pow2. }
  assert (byte_ok (Z.shiftr x 56)) as H56. { rewrite Z.shiftr_div_pow2 by lia. unfold byte_ok, in_u in *. split; [apply Z.div_pos; lia|apply Z.div_lt_upper_bound; lia]. }
  assert (byte_ok (uwrap 8 x) /\ uwrap 8 x = x mod 2 ^ 8) as [H0 E0] by (split; [apply uwrap_range; lia|done]).
  rewrite !the_table_lookup by (lia || exact H0 || exact H56 || (apply Hbyte; lia)). mred. f_equal. rewrite (slices x Hx), E0.
  rewrite !(fun k Hk => proj2 (Hbyte k Hk)) by lia. rewrite (Z.shiftr_div_pow2 x 56) by lia. reflexivity.
Qed.
End Crc64Spec.
