(* ===== verification/Crc64Streams.v ===== *)
(** * CRC64: loops, matrices and streams

    The loops of [crcspeed.c] over the buffer, the matrices of
    [crccombine.c], and the checksum in parallel streams. *)

From S2P Require Import Prelude Gf2 Crc64 Crc64Spec.

Module Crc64Streams.
Import Gf2 Crc64 Crc64Spec.

(** ** Loops *)

Section Loops.
Context (buf : list Z) (Hb : bytes_ok buf).

Lemma crc_seg_range crc next len : in_u 64 crc -> in_u 64 (crc_of crc (seg buf next len)).
Proof using Hb. intros. apply crc_of_range; [by apply seg_bytes|done]. Qed.

Lemma seg_nil next : seg buf next 0 = [].
Proof using. done. Qed.

(** The first [a] bytes, then the others. *)
Lemma crc_seg_step crc next a len : 0 <= next -> 0 <= a <= len -> crc_of (crc_of crc (seg buf next a)) (seg buf (next + a) (len - a)) = crc_of crc (seg buf next len).
Proof using. intros. rewrite <- crc_of_app, <- seg_split by lia. do 2 f_equal. lia. Qed.

Lemma final_loop_spec fuel : forall crc next len, 0 <= next -> 0 <= len <= Z.of_nat fuel -> next + len <= zlen buf ->
  final_loop fuel the_table buf crc next len = Some (crc_of crc (seg buf next len)).
Proof using Hb.
  induction fuel as [|fuel IH]; intros crc next len Hn Hl Hle; cbn [final_loop]; destruct (Z.eqb_spec len 0) as [->|Hne]; try lia; cbn [negb]; try by rewrite seg_nil.
  rewrite byte_step_table by (done || lia). mred. rewrite IH by lia. by rewrite crc_seg_step by lia.
Qed.

Lemma align_loop_spec addr fuel : forall crc next len, 0 <= next -> 0 <= len <= Z.of_nat fuel -> next + len <= zlen buf ->
  exists k, 0 <= k <= len /\ align_loop fuel the_table addr buf crc next len = Some (crc_of crc (seg buf next k), next + k, len - k).
Proof using Hb.
  induction fuel as [|fuel IH]; intros crc next len Hn Hl Hle; cbn [align_loop]; (destruct (negb (len =? 0) && _) eqn:E; [|exists 0; split; [lia|by rewrite Z.add_0_r, Z.sub_0_r]]).
  { assert (len = 0) as -> by lia. discriminate. }
  rewrite byte_step_table by (done || lia). mred. destruct (IH (crc_of crc (seg buf next 1)) (next + 1) (len - 1)) as (k & Hk & ->); try lia.
  exists (k + 1). split; [lia|]. rewrite <- (crc_seg_step crc next 1 (k + 1)) by lia. replace (k + 1 - 1) with k by lia. do 2 f_equal; [f_equal|]; lia.
Qed.

Lemma loop1_spec fuel : forall crc next len, in_u 64 crc -> 0 <= next -> 0 <= len <= Z.of_nat fuel -> next + len <= zlen buf ->
  exists k, 0 <= k <= len /\ loop1 fuel the_table buf crc next len = Some (crc_of crc (seg buf next k), next + k, len - k).
Proof using Hb.
  induction fuel as [|fuel IH]; intros crc next len Hc Hn Hl Hle; cbn [loop1]; rewrite Z.geb_leb; (destruct (Z.leb_spec 8 len); [|exists 0; split; [lia|by rewrite Z.add_0_r, Z.sub_0_r]]); [lia|].
  rewrite do_8_spec by (done || lia). mred. destruct (IH (crc_of crc (seg buf next 8)) (next + 8) (len - 8)) as (k & Hk & ->); try lia; [by apply crc_seg_range|].
  exists (k + 8). split; [lia|]. rewrite <- (crc_seg_step crc next 8 (k + 8)) by lia. replace (k + 8 - 8) with k by lia. do 2 f_equal; [f_equal|]; lia.
Qed.

Lemma loop2_spec fuel : forall c1 c2 n1 n2 len, in_u 64 c1 -> in_u 64 c2 -> 0 <= n1 -> 0 <= n2 -> 0 <= len <= Z.of_nat fuel -> len mod 8 = 0 ->
  n1 + len <= zlen buf -> n2 + len <= zlen buf ->
  loop2 fuel the_table buf c1 c2 n1 n2 len = Some (crc_of c1 (seg buf n1 len), crc_of c2 (seg buf n2 len), n1 + len, n2 + len).
Proof using Hb.
  induction fuel as [|fuel IH]; intros c1 c2 n1 n2 len H1 H2 Hn1 Hn2 Hl Hm Hle1 Hle2; cbn [loop2]; rewrite Z.geb_leb;
    (destruct (Z.leb_spec 8 len); [|assert (len = 0) as -> by dlia; by rewrite !seg_nil, !Z.add_0_r]); [lia|].
  rewrite !do_8_spec by (done || lia). mred. rewrite IH by (try apply crc_seg_range; done || dlia). rewrite !crc_seg_step by lia. do 2 f_equal; [f_equal|]; lia.
Qed.

Lemma loop3_spec fuel : forall c1 c2 c3 n1 n2 n3 len, in_u 64 c1 -> in_u 64 c2 -> in_u 64 c3 -> 0 <= n1 -> 0 <= n2 -> 0 <= n3 -> 0 <= len <= Z.of_nat fuel -> len mod 8 = 0 ->
  n1 + len <= zlen buf -> n2 + len <= zlen buf -> n3 + len <= zlen buf ->
  loop3 fuel the_table buf c1 c2 c3 n1 n2 n3 len =
    Some (crc_of c1 (seg buf n1 len), crc_of c2 (seg buf n2 len), crc_of c3 (seg buf n3 len), n1 + len, n2 + len, n3 + len).
Proof using Hb.
  induction fuel as [|fuel IH]; intros c1 c2 c3 n1 n2 n3 len H1 H2 H3 Hn1 Hn2 Hn3 Hl Hm Hle1 Hle2 Hle3; cbn [loop3]; rewrite Z.geb_leb;
    (destruct (Z.leb_spec 8 len); [|assert (len = 0) as -> by dlia; by rewrite !seg_nil, !Z.add_0_r]); [lia|].
  rewrite !do_8_spec by (done || lia). mred. rewrite IH by (try apply crc_seg_range; done || dlia). rewrite !crc_seg_step by lia. do 2 f_equal; [f_equal; [f_equal|]|]; lia.
Qed.
End Loops.

(** ** Matrices *)

(** The functions on words that a matrix of bits can hold. *)
Class Linear (f : Z -> Z) := {
  linear_additive :: Additive f;
  linear_range : forall x, in_u 64 x -> in_u 64 (f x) }.

#[global] Instance linear_zeros n : Linear (zeros n).
Proof. constructor; [exact _|]. intros x. apply zeros_range. Qed.

#[global] Instance linear_twice f : Linear f -> Linear (fun x => f (f x)).
Proof. intros [Ha Hr]. constructor; [|auto]. intros x y. by rewrite !Ha. Qed.

(** The rows from [s] of the matrix of [f]. *)
Definition rows (f : Z -> Z) (s n : nat) : list Z := map (fun i => f (2 ^ Z.of_nat i)) (seq s n).
Definition matrix_of (f : Z -> Z) : list Z := rows f 0 64.

Lemma nibble_rows_spec f s n : Additive f -> 0 <= s -> 0 <= n < 16 ->
  nibble_rows (f (2 ^ s)) (f (2 ^ (s + 1))) (f (2 ^ (s + 2))) (f (2 ^ (s + 3))) n = f (Z.shiftl n s).
Proof.
  intros Hf Hs Hn. assert (forall a j, 0 <= j -> a = 2 ^ j -> 2 ^ (s + j) = Z.shiftl a s) as Hp.
  { intros a j Hj ->. rewrite Z.shiftl_mul_pow2, Z.pow_add_r by lia. lia. }
  rewrite <- (Z.add_0_r s) at 1. rewrite (Hp 1 0), (Hp 2 1), (Hp 4 2), (Hp 8 3) by (done || lia).
  pose proof (additive_zero f Hf) as H0.
  rewrite <- (Z2Nat.id n) by lia. assert (Z.to_nat n < 16)%nat as Hk by lia. generalize dependent (Z.to_nat n). clear n Hn. intros k Hk.
  do 16 (destruct k as [|k]; [match goal with |- context [Z.of_nat ?m] => let z := eval vm_compute in (Z.of_nat m) in change (Z.of_nat m) with z end;
    cbn [nibble_rows]; rewrite <- ?(additive (f := f)), <- ?Z.shiftl_lxor; (reflexivity || by rewrite Z.shiftl_0_l)|]). lia.
Qed.

Lemma times_switch_spec f k : Additive f -> forall s vec sum, in_u (Z.of_nat (4 * k)) vec ->
  gf2_matrix_times_switch k (rows f s (4 * k)) vec sum = Some (Z.lxor sum (f (Z.shiftl vec (Z.of_nat s)))).
Proof.
  intros Hf. assert (forall s sum, Some sum = Some (Z.lxor sum (f (Z.shiftl 0 (Z.of_nat s))))) as H0.
  { intros s sum. by rewrite Z.shiftl_0_l, additive_zero, Z.lxor_0_r. }
  induction k as [|k IH]; intros s vec sum Hv.
  { assert (vec = 0) as -> by (unfold in_u in Hv; change (2 ^ Z.of_nat (4 * 0)) with 1 in Hv; lia). apply H0. }
  replace (4 * S k)%nat with (4 + 4 * k)%nat in * by lia. unfold rows. rewrite seq_app, map_app. cbn [seq map app gf2_matrix_times_switch].
  destruct (Z.eqb_spec vec 0) as [->|Hne]; [apply H0|].
  change (map (fun i => f (2 ^ Z.of_nat i)) (seq (s + 4) (4 * k))) with (rows f (s + 4) (4 * k)).
  assert (in_u (Z.of_nat (4 * k)) (Z.shiftr vec 4)) as Hs.
  { unfold in_u in *. rewrite Nat2Z.inj_add, Z.pow_add_r in Hv by lia. rewrite Z.shiftr_div_pow2 by lia. change (Z.of_nat 4) with 4 in Hv. split; [apply Z.div_pos; lia|apply Z.div_lt_upper_bound; lia]. }
  rewrite IH by exact Hs. replace (Z.of_nat (S s)) with (Z.of_nat s + 1) by lia. replace (Z.of_nat (S (S s))) with (Z.of_nat s + 2) by lia. replace (Z.of_nat (S (S (S s)))) with (Z.of_nat s + 3) by lia.
  rewrite (land_ones_mod _ 4) by done. rewrite nibble_rows_spec by (done || lia || (apply Z.mod_pos_bound; lia)). rewrite Z.lxor_assoc, <- additive. do 3 f_equal.
  rewrite (split_lxor 4 vec) at 3 by lia. rewrite Z.shiftl_lxor, Z.shiftl_shiftl, Z.lxor_comm by lia. rewrite Z.shiftr_div_pow2 by lia. do 2 f_equal. lia.
Qed.

Lemma lane_spec f s (b : bool) : Linear f -> (s < 64)%nat -> Z.land (f (2 ^ Z.of_nat s)) (if b then 0xffffffffffffffff else 0) = f (Z.shiftl (Z.b2z b) (Z.of_nat s)).
Proof.
  intros Hf Hs. destruct b; cbn [Z.b2z].
  - rewrite (land_ones_mod _ 64) by done. rewrite Z.shiftl_1_l. apply Z.mod_small. apply linear_range. unfold in_u. split; [apply Z.pow_nonneg; lia|apply Z.pow_lt_mono_r; lia].
  - by rewrite Z.land_0_r, Z.shiftl_0_l, (additive_zero f _).
Qed.

Lemma times_vec2_spec f k : Linear f -> forall s vec sum0 sum1, (s + 2 * k <= 64)%nat -> in_u (Z.of_nat (2 * k)) vec ->
  times_vec2_loop k (rows f s (2 * k)) vec sum0 sum1 = Some (Z.lxor (Z.lxor sum0 sum1) (f (Z.shiftl vec (Z.of_nat s)))).
Proof.
  intros Hf. induction k as [|k IH]; intros s vec sum0 sum1 Hs Hv.
  { assert (vec = 0) as -> by (unfold in_u in Hv; change (2 ^ Z.of_nat (2 * 0)) with 1 in Hv; lia). cbn. by rewrite Z.shiftl_0_l, (additive_zero f _), Z.lxor_0_r. }
  replace (2 * S k)%nat with (2 + 2 * k)%nat in * by lia. unfold rows. rewrite seq_app, map_app. cbn [seq map app times_vec2_loop].
  change (map (fun i => f (2 ^ Z.of_nat i)) (seq (s + 2) (2 * k))) with (rows f (s + 2) (2 * k)).
  assert (in_u (Z.of_nat (2 * k)) (Z.shiftr vec 2)) as Hr.
  { unfold in_u in *. rewrite Nat2Z.inj_add, Z.pow_add_r in Hv by lia. rewrite Z.shiftr_div_pow2 by lia. change (Z.of_nat 2) with 2 in Hv. split; [apply Z.div_pos; lia|apply Z.div_lt_upper_bound; lia]. }
  rewrite IH by (exact Hr || lia). rewrite !lane_spec by (done || lia). rewrite (land_ones_mod _ 2) by done. change (2 ^ 2) with 4.
  set (n := vec mod 4). assert (Z.lxor (f (Z.shiftl (Z.b2z (Z.odd n)) (Z.of_nat s))) (f (Z.shiftl (Z.b2z (n >=? 2)) (Z.of_nat (S s)))) = f (Z.shiftl n (Z.of_nat s))) as Hn.
  { replace (Z.of_nat (S s)) with (1 + Z.of_nat s) by lia. rewrite <- Z.shiftl_shiftl by lia. rewrite <- (additive (f := f)), <- Z.shiftl_lxor. do 2 f_equal.
    assert (n = 0 \/ n = 1 \/ n = 2 \/ n = 3) as [-> |[-> |[-> | ->]]] by (unfold n; dlia); reflexivity. }
  transitivity (Some (Z.lxor (Z.lxor sum0 sum1) (Z.lxor (f (Z.shiftl n (Z.of_nat s))) (f (Z.shiftl (Z.shiftr vec 2) (Z.of_nat (s + 2))))))).
  { rewrite <- Hn. f_equal. xbits. }
  rewrite <- (additive (f := f)). do 3 f_equal. rewrite (split_lxor 2 vec) at 2 by lia. rewrite Z.shiftl_lxor, Z.shiftl_shiftl, Z.lxor_comm by lia.
  rewrite Z.shiftr_div_pow2 by lia. do 2 f_equal. lia.
Qed.

(** Both multiplications apply the function. *)
Lemma multiply_spec vector f x : Linear f -> in_u 64 x -> CRC_MULTIPLY vector (matrix_of f) x = Some (f x).
Proof.
  intros Hf Hx. unfold CRC_MULTIPLY, matrix_of. destruct vector.
  - change 64%nat with (2 * 32)%nat. rewrite (times_vec2_spec f 32) by (done || lia). by rewrite Z.shiftl_0_r, Z.lxor_0_l.
  - change 64%nat with (4 * 16)%nat. rewrite (times_switch_spec f 16) by (done || exact _). by rewrite Z.shiftl_0_r, Z.lxor_0_l.
Qed.

Lemma square_spec vector f : Linear f -> gf2_matrix_square vector (matrix_of f) 64 = Some (matrix_of (fun x => f (f x))).
Proof.
  intros Hf. unfold gf2_matrix_square. change (Z.to_nat 64) with 64%nat. unfold matrix_of at 3, rows. apply mapM_total. intros n Hn%elem_of_seq.
  assert (matrix_of f !! n = Some (f (2 ^ Z.of_nat n))) as ->. { unfold matrix_of, rows. by rewrite list_lookup_fmap, lookup_seq_lt by lia. }
  mred. apply multiply_spec; [done|]. apply linear_range. unfold in_u. split; [apply Z.pow_nonneg; lia|apply Z.pow_lt_mono_r; lia].
Qed.

(** ** The cache *)

(** [2 ^ k] times [f]. *)
Fixpoint dbl (k : nat) (f : Z -> Z) : Z -> Z := match k with O => f | S k => fun x => dbl k f (dbl k f x) end.

#[global] Instance linear_dbl k f : Linear f -> Linear (dbl k f).
Proof. intros Hf. induction k as [|k IH]; cbn [dbl]; exact _. Qed.

Definition cached (k : nat) : list Z := matrix_of (dbl k (zeros 8)).

Definition cache_full (c : list (list Z)) : Prop := forall k, (k < 64)%nat -> c !! k = Some (cached k).

(** Not yet initialised, or complete. *)
Definition cache_ok (c : list (list Z)) : Prop :=
  length c = 64%nat /\ ((exists row, c !! 0%nat = Some row /\ row !! 0%nat = Some 0) \/ cache_full c).

Lemma cache_loop_spec vector n : forall c k, length c = 64%nat -> (1 <= k)%nat -> (k + n = 64)%nat -> (forall j, (j < k)%nat -> c !! j = Some (cached j)) ->
  exists c', cache_loop vector n c (Z.of_nat k) (-1) 64 = Some c' /\ length c' = 64%nat /\ cache_full c'.
Proof.
  induction n as [|n IH]; intros c k Hl Hk Hkn Hc; cbn [cache_loop].
  { exists c. split_and!; [done|done|]. intros j Hj. apply Hc. lia. }
  rewrite (proj2 (Z.ltb_ge _ 0)) by lia. replace (Z.to_nat (Z.of_nat k + -1)) with (k - 1)%nat by lia. rewrite Hc by lia. mred. unfold cached at 1. rewrite square_spec by exact _. mred.
  rewrite (proj2 (Z.leb_gt 64 _)) by lia. rewrite Nat2Z.id. replace (Z.of_nat k + 1) with (Z.of_nat (S k)) by lia.
  apply IH; [by rewrite length_insert|lia|lia|]. intros j Hj. destruct (decide (j = k)) as [->|Hne].
  - rewrite list_lookup_insert_eq by lia. f_equal. unfold cached. destruct k as [|k]; [lia|]. replace (S k - 1)%nat with k by lia. done.
  - rewrite list_lookup_insert_ne by done. apply Hc. lia.
Qed.

Lemma cache_loop_first vector n c f : (1 < length c)%nat -> Linear f -> c !! 1%nat = Some (matrix_of f) ->
  cache_loop vector (S n) c 0 1 64 = cache_loop vector n (<[0%nat := matrix_of (fun x => f (f x))]> c) 1 (-1) 64.
Proof.
  intros Hl Hf Hc. cbn [cache_loop]. change (0 + 1 <? 0) with false. change (Z.to_nat (0 + 1)) with 1%nat. cbn iota. rewrite Hc. mred. by rewrite square_spec.
Qed.

Lemma matrix_zeros n : matrix_of (fun x => zeros n (zeros n x)) = matrix_of (zeros (n + n)).
Proof. unfold matrix_of, rows. apply map_ext. intros i. by rewrite zeros_add. Qed.

Lemma init_cache_spec vector c : length c = 64%nat -> exists c', init_combine_cache vector c CRC64_REVERSED_POLY 64 = Some c' /\ length c' = 64%nat /\ cache_full c'.
Proof.
  intros Hl. unfold init_combine_cache. assert (CRC64_REVERSED_POLY :: shift_rows (Z.to_nat (64 - 1)) 1 = matrix_of (zeros 1)) as -> by (vm_compute; reflexivity).
  rewrite list_lookup_insert_eq by lia. mred. rewrite (square_spec vector (zeros 1)) by exact _. mred.
  rewrite (matrix_zeros 1). change (1 + 1)%nat with 2%nat. rewrite (square_spec vector (zeros 2)) by exact _. mred. rewrite (matrix_zeros 2). change (2 + 2)%nat with 4%nat.
  rewrite (cache_loop_first vector 63 _ (zeros 4)) by (exact _ || (rewrite !length_insert; lia) || (apply list_lookup_insert_eq; rewrite !length_insert; lia)). rewrite (matrix_zeros 4). change (4 + 4)%nat with 8%nat.
  apply (cache_loop_spec vector 63 _ 1); [by rewrite !length_insert|lia|lia|]. intros j Hj. assert (j = 0%nat) as -> by lia.
  apply list_lookup_insert_eq. rewrite !length_insert. lia.
Qed.

(** ** Joining two checksums *)

Lemma iter_twice (g : Z -> Z) h x : Nat.iter (h * 2) g x = Nat.iter h (fun x => g (g x)) x.
Proof. induction h as [|h IH]; [done|]. change (S h * 2)%nat with (S (S (h * 2))). by rewrite !Nat.iter_succ, IH. Qed.

Lemma iter_half (g : Z -> Z) len x : 0 <= len ->
  Nat.iter (Z.to_nat len) g x = Nat.iter (Z.to_nat (Z.shiftr len 1)) (fun x => g (g x)) (if Z.odd len then g x else x).
Proof.
  intros Hlen. pose proof (Z.div2_odd len) as H. rewrite Z.div2_spec in H. assert (0 <= Z.shiftr len 1) by (by apply Z.shiftr_nonneg).
  set (h := Z.shiftr len 1) in *. destruct (Z.odd len); cbn [Z.b2z] in H.
  - replace (Z.to_nat len) with (S (Z.to_nat h * 2))%nat by lia. by rewrite Nat.iter_succ_r, iter_twice.
  - replace (Z.to_nat len) with (Z.to_nat h * 2)%nat by lia. apply iter_twice.
Qed.

Lemma iter_range f n x : Linear f -> in_u 64 x -> in_u 64 (Nat.iter n f x).
Proof. intros Hf Hx. induction n as [|n IH]; [done|]. rewrite Nat.iter_succ. by apply linear_range. Qed.

Lemma combine_loop_spec vector c fuel : cache_full c -> forall k crc len, (k + fuel = 64)%nat -> in_u 64 crc -> 0 < len < 2 ^ Z.of_nat fuel ->
  combine_loop vector fuel c (Z.of_nat k) crc len = Some (Nat.iter (Z.to_nat len) (dbl k (zeros 8)) crc).
Proof.
  intros Hc. induction fuel as [|fuel IH]; intros k crc len Hk Hcrc Hlen; [change (2 ^ Z.of_nat 0) with 1 in Hlen; lia|]. cbn [combine_loop].
  set (g := dbl k (zeros 8)). assert (Linear g) as Hg by (unfold g; exact _).
  assert ((if Z.odd len then mat ← c !! Z.to_nat (Z.of_nat k); CRC_MULTIPLY vector mat crc else Some crc) = Some (if Z.odd len then g crc else crc)) as ->.
  { destruct (Z.odd len); [|done]. rewrite Nat2Z.id, (Hc k) by lia. mred. unfold cached. by apply multiply_spec. }
  mred. rewrite iter_half by lia. set (crc' := if Z.odd len then g crc else crc). assert (in_u 64 crc') as Hcrc' by (unfold crc'; destruct (Z.odd len); [by apply linear_range|done]).
  assert (0 <= Z.shiftr len 1 < 2 ^ Z.of_nat fuel) as Hh.
  { rewrite Nat2Z.inj_succ, Z.pow_succ_r in Hlen by lia. rewrite Z.shiftr_div_pow2 by lia. change (2 ^ 1) with 2. dlia. }
  destruct (Z.eqb_spec (Z.shiftr len 1) 0) as [->|Hne]; cbn [negb]; [done|].
  assert (fuel <> 0%nat) by (intros ->; change (2 ^ Z.of_nat 0) with 1 in Hh; lia).
  rewrite (land_ones_mod _ 6) by done. rewrite Z.mod_small by (change (2 ^ 6) with 64; lia). replace (Z.of_nat k + 1) with (Z.of_nat (S k)) by lia.
  rewrite IH by (done || lia). done.
Qed.

Lemma iter_dbl0 n x : Nat.iter n (dbl 0 (zeros 8)) x = Nat.iter n (zeros 8) x.
Proof. done. Qed.

Lemma combine_spec vector c crc1 crc2 len2 : cache_ok c -> in_u 64 crc1 -> 0 < len2 < 2 ^ 64 ->
  exists c', crc64_combine vector c crc1 crc2 len2 CRC64_REVERSED_POLY 64 = Some (c', Z.lxor (Nat.iter (Z.to_nat len2) (zeros 8) crc1) crc2) /\ cache_ok c'.
Proof.
  intros [Hl Hc] Hcrc Hlen. unfold crc64_combine. rewrite (proj2 (Z.eqb_neq len2 0)) by lia.
  assert (exists x c', (row ← c !! 0%nat; row !! 0%nat) = Some x /\ (if x =? 0 then init_combine_cache vector c CRC64_REVERSED_POLY 64 else Some c) = Some c' /\ length c' = 64%nat /\ cache_full c') as (x & c' & -> & E & Hl' & Hc').
  { destruct Hc as [(row & E & Hrow)|Hf].
    - destruct (init_cache_spec vector c Hl) as (c' & E' & Hl' & Hc'). exists 0, c'. rewrite E. mred. done.
    - exists (zeros 8 1), c. rewrite (Hf 0%nat) by lia. split_and!; [done|vm_compute (zeros 8 1 =? 0); done|done|done]. }
  mred. rewrite E. mred. rewrite (combine_loop_spec vector c' 64 Hc' 0) by (done || lia). mred. rewrite iter_dbl0. exists c'. split; [done|]. split; [done|by right].
Qed.

(** Joining is the checksum of the bytes one after the other. *)
Lemma combine_crc vector c crc1 w : cache_ok c -> in_u 64 crc1 -> bytes_ok w -> zlen w < 2 ^ 64 ->
  exists c', crc64_combine vector c crc1 (crc_of 0 w) (zlen w) CRC64_REVERSED_POLY 64 = Some (c', crc_of crc1 w) /\ cache_ok c'.
Proof.
  intros Hc Hcrc Hw Hlen. destruct w as [|b w]; [exists c; split; done|]. set (v := b :: w) in *.
  assert (0 < zlen v) by (unfold v; cbn [length]; lia). destruct (combine_spec vector c crc1 (crc_of 0 v) (zlen v) Hc Hcrc ltac:(lia)) as (c' & -> & Hc').
  exists c'. split; [|exact Hc']. rewrite Nat2Z.id. by rewrite (crc_of_start v crc1).
Qed.

(** ** Streams *)

Lemma segment_spec x : 0 <= x < 2 ^ 63 -> Z.land x CRC64_LEN_MASK = 8 * (x / 8).
Proof.
  intros Hx. rewrite Z.mul_comm. change 8 with (2 ^ 3) at 2. rewrite <- Z.shiftl_mul_pow2 by lia. apply Z.bits_inj'. intros i Hi. rewrite Z.land_spec, Z.shiftl_spec by lia.
  assert (Z.testbit (x / 8) (i - 3) = if i <? 3 then false else Z.testbit x i) as ->.
  { destruct (Z.ltb_spec i 3); [apply Z.testbit_neg_r; lia|]. change 8 with (2 ^ 3). rewrite Z.div_pow2_bits by lia. f_equal. lia. }
  destruct (Z.lt_ge_cases i 63) as [Hlt|Hge].
  - pose proof (below_forall 63 (fun i => eqb (Z.testbit CRC64_LEN_MASK i) (negb (i <? 3))) eq_refl i ltac:(lia)) as E. cbn beta in E. apply eqb_prop in E. rewrite E.
    by destruct (i <? 3), (Z.testbit x i).
  - rewrite <- (Z.mod_small x (2 ^ 63)) by done. rewrite Z.mod_pow2_bits_high by lia. by destruct (i <? 3).
Qed.

Lemma segment_bounds len div : (div = 2 \/ div = 3) -> 0 <= len < 2 ^ 64 -> 0 <= segment len div /\ div * segment len div <= len /\ segment len div mod 8 = 0 /\ segment len div < 2 ^ 64.
Proof.
  intros Hdiv Hlen. unfold segment. rewrite segment_spec by (destruct Hdiv as [-> | ->]; dlia). destruct Hdiv as [-> | ->]; split_and!; dlia.
Qed.

Section Streams.
Context (vector : bool) (buf : list Z) (Hb : bytes_ok buf) (Hlen : zlen buf < 2 ^ 64).

Lemma combine_seg c crc1 next len : cache_ok c -> in_u 64 crc1 -> 0 <= next -> 0 <= len -> next + len <= zlen buf ->
  exists c', crc64_combine vector c crc1 (crc_of 0 (seg buf next len)) len CRC64_REVERSED_POLY 64 = Some (c', crc_of crc1 (seg buf next len)) /\ cache_ok c'.
Proof using Hb Hlen.
  intros Hc Hcrc Hn Hl Hle. pose proof (seg_length buf next len Hn Hl Hle) as E. destruct (combine_crc vector c crc1 (seg buf next len)) as (c' & H & Hc');
    [done|done|by apply seg_bytes|lia|]. rewrite E in H. by exists c'.
Qed.

Lemma streams_spec c dual tri crc next len : cache_ok c -> in_u 64 crc -> 0 <= next -> 0 <= len -> next + len <= zlen buf ->
  exists c' k, 0 <= k <= len /\ streams vector the_table c dual tri buf crc next len = Some (c', crc_of crc (seg buf next k), next + k, len - k) /\ cache_ok c'.
Proof using Hb Hlen.
  intros Hc Hcrc Hn Hl Hle. unfold streams. assert (in_u 64 0) as H0 by (unfold in_u; lia). destruct (len >? tri); [|destruct (len >? dual)].
  - destruct (segment_bounds len 3) as (Hs0 & Hs1 & Hs2 & Hs3); [lia|lia|]. set (k := segment len 3) in *. replace (next + k - next) with k by lia.
    rewrite loop3_spec by (done || lia). mred. replace (next + k + k - (next + k)) with k by lia.
    destruct (combine_seg c (crc_of crc (seg buf next k)) (next + k) k) as (c1 & -> & Hc1); [done|by apply crc_seg_range|lia|lia|lia|]. mred.
    destruct (combine_seg c1 (crc_of (crc_of crc (seg buf next k)) (seg buf (next + k) k)) (next + k + k) k) as (c2 & -> & Hc2); [done|by repeat apply crc_seg_range|lia|lia|lia|]. mred.
    exists c2, (k * 3). split_and!; [lia|lia| |done]. assert (seg buf next (k * 3) = seg buf next k ++ seg buf (next + k) k ++ seg buf (next + k + k) k) as ->.
    { replace (k * 3) with (k + (k + k)) by lia. by rewrite !seg_split by lia. }
    rewrite !crc_of_app. replace (next + k * 3) with (next + k + k + k) by lia. done.
  - destruct (segment_bounds len 2) as (Hs0 & Hs1 & Hs2 & Hs3); [lia|lia|]. set (k := segment len 2) in *. replace (next + k - next) with k by lia.
    rewrite loop2_spec by (done || lia). mred. replace (next + k + k - (next + k)) with k by lia.
    destruct (combine_seg c (crc_of crc (seg buf next k)) (next + k) k) as (c1 & -> & Hc1); [done|by apply crc_seg_range|lia|lia|lia|]. mred.
    exists c1, (k * 2). split_and!; [lia|lia| |done]. assert (seg buf next (k * 2) = seg buf next k ++ seg buf (next + k) k) as ->.
    { replace (k * 2) with (k + k) by lia. by rewrite !seg_split by lia. }
    rewrite !crc_of_app. replace (next + k * 2) with (next + k + k) by lia. done.
  - exists c, 0. split_and!; [lia|lia| |done]. by rewrite Z.add_0_r, Z.sub_0_r.
Qed.

Lemma seg_all : seg buf 0 (zlen buf) = buf.
Proof using. unfold seg. rewrite Nat2Z.id. change (drop (Z.to_nat 0) buf) with buf. by apply take_ge. Qed.

Lemma little_spec c dual tri addr crc : cache_ok c -> in_u 64 crc ->
  exists c', crcspeed64little vector the_table c dual tri addr crc buf = Some (c', crc_of crc buf) /\ cache_ok c'.
Proof using Hb Hlen.
  intros Hc Hcrc. unfold crcspeed64little. destruct (dual <? 1).
  { rewrite final_loop_spec by (done || lia). mred. rewrite seg_all. by exists c. }
  destruct (align_loop_spec buf Hb addr (length buf) crc 0 (zlen buf)) as (a & Ha & ->); [lia..|]. mred.
  destruct (streams_spec c dual tri (crc_of crc (seg buf 0 a)) (0 + a) (zlen buf - a)) as (c' & k & Hk & -> & Hc'); [done|by apply crc_seg_range|lia|lia|lia|]. mred.
  destruct (loop1_spec buf Hb (length buf) (crc_of (crc_of crc (seg buf 0 a)) (seg buf (0 + a) k)) (0 + a + k) (zlen buf - a - k)) as (j & Hj & ->); [by repeat apply crc_seg_range|lia..|]. mred.
  rewrite final_loop_spec by (done || lia). mred. exists c'. split; [|done]. do 2 f_equal. rewrite !crc_seg_step by lia. by rewrite seg_all.
Qed.
End Streams.
End Crc64Streams.
