(* ===== verification/Crc64Correct.v ===== *)
(** * CRC64: the checksum is the same on every machine

    The big-endian variant of [crcspeed.c], which keeps the register with its
    bytes reversed, and the checksum as the callers get it: for every table,
    alignment, cutoff, compiler and byte order it is that of the bit by bit
    code, and it can be computed in pieces. *)

From S2P Require Import Prelude Gf2 Crc64 Crc64Spec Crc64Streams.

Module Crc64Correct.
Import Gf2 Crc64 Crc64Spec Crc64Streams.

(** ** Reversed bytes *)

Lemma byte_order_range i : 0 <= i < 64 -> 0 <= byte_order i < 64.
Proof. intros. unfold byte_order. dlia. Qed.

Lemma byte_order_twice i : 0 <= i < 64 -> byte_order (byte_order i) = i.
Proof. intros. unfold byte_order. dlia. Qed.

Lemma half_swap x : in_u 64 x -> Z.lor (Z.shiftr x 32) (uwrap 64 (Z.shiftl x 32)) = swap_bits 0xFFFFFFFF 32 x.
Proof.
  intros Hx. unfold swap_bits. f_equal.
  - rewrite (land_ones_mod _ 32) by done. symmetry. apply Z.mod_small. rewrite Z.shiftr_div_pow2 by lia. unfold in_u in Hx. dlia.
  - rewrite (land_ones_mod _ 32) by done. unfold uwrap. rewrite !Z.shiftl_mul_pow2 by lia. dlia.
Qed.

Lemma rev8_spec gnuc x : in_u 64 x -> permuted byte_order x (rev8 gnuc x).
Proof.
  intros Hx. unfold rev8. destruct gnuc; [by apply bswap_spec|]. rewrite half_swap; [by apply byte_swaps_spec|].
  exact (permuted_range _ _ _ (swap_bits_spec 0xFFFF0000FFFF 16 _ eq_refl (permuted_range _ _ _ (swap_bits_spec 0x00FF00FF00FF00FF 8 x eq_refl Hx)))).
Qed.

Lemma rev8_range gnuc x : in_u 64 x -> in_u 64 (rev8 gnuc x).
Proof. intros Hx. exact (permuted_range _ _ _ (rev8_spec gnuc x Hx)). Qed.

Lemma rev8_twice gnuc x : in_u 64 x -> rev8 gnuc (rev8 gnuc x) = x.
Proof.
  intros Hx. apply bits64; [by repeat apply rev8_range|done|]. intros i Hi. destruct (rev8_spec gnuc x Hx) as [Hr Hbits].
  rewrite (permuted_bits _ _ _ (rev8_spec gnuc _ Hr)), Hbits by (try apply byte_order_range; done). by rewrite byte_order_twice.
Qed.

Lemma rev8_lxor gnuc x y : in_u 64 x -> in_u 64 y -> rev8 gnuc (Z.lxor x y) = Z.lxor (rev8 gnuc x) (rev8 gnuc y).
Proof.
  intros Hx Hy. assert (in_u 64 (Z.lxor x y)) as Hxy by (apply lxor_range; done || lia).
  apply bits64; [by apply rev8_range|apply lxor_range; [lia|by apply rev8_range..]|]. intros i Hi.
  rewrite Z.lxor_spec, !(fun z Hz => permuted_bits _ _ _ (rev8_spec gnuc z Hz)) by done. apply Z.lxor_spec.
Qed.

(** The bytes from the other end. *)
Lemma rev8_byte gnuc x k : in_u 64 x -> 0 <= k < 8 -> Z.land (Z.shiftr (rev8 gnuc x) (8 * k)) 0xff = x / 2 ^ (8 * (7 - k)) mod 2 ^ 8.
Proof.
  intros Hx Hk. rewrite (land_ones_mod _ 8) by done. apply Z.bits_inj'. intros i Hi. destruct (Z.lt_ge_cases i 8); [|by rewrite !Z.mod_pow2_bits_high by lia].
  rewrite !Z.mod_pow2_bits_low, Z.shiftr_spec, Z.div_pow2_bits by lia. rewrite (permuted_bits _ _ _ (rev8_spec gnuc x Hx)) by lia. f_equal. unfold byte_order. dlia.
Qed.

Lemma rev8_top gnuc x : in_u 64 x -> Z.shiftr (rev8 gnuc x) 56 = x mod 2 ^ 8.
Proof.
  intros Hx. pose proof (rev8_byte gnuc x 7 Hx ltac:(lia)) as H. change (8 * 7) with 56 in H. change (2 ^ (8 * (7 - 7))) with 1 in H. rewrite Z.div_1_r in H. rewrite <- H.
  pose proof (rev8_range gnuc x Hx) as Hr. rewrite (land_ones_mod _ 8) by done. symmetry. apply Z.mod_small. rewrite Z.shiftr_div_pow2 by lia. unfold in_u in Hr. dlia.
Qed.

Lemma rev8_shift gnuc x : in_u 64 x -> uwrap 64 (Z.shiftl (rev8 gnuc x) 8) = rev8 gnuc (Z.shiftr x 8).
Proof.
  intros Hx. assert (in_u 64 (Z.shiftr x 8)) as Hs by (rewrite Z.shiftr_div_pow2 by lia; unfold in_u in *; dlia).
  apply bits64; [apply uwrap_range; lia|by apply rev8_range|]. intros i Hi. rewrite (permuted_bits _ _ _ (rev8_spec gnuc _ Hs)) by done.
  pose proof (byte_order_range i Hi). rewrite Z.shiftr_spec by lia. rewrite uwrap_testbit, Z.shiftl_spec by lia. rewrite (proj2 (Z.ltb_lt i 64)) by lia. cbn [andb].
  destruct (Z.lt_ge_cases i 8) as [Hlt|Hge].
  - rewrite Z.testbit_neg_r by lia. symmetry. apply bit_above; [done|]. unfold byte_order. dlia.
  - rewrite (permuted_bits _ _ _ (rev8_spec gnuc x Hx)) by lia. f_equal. unfold byte_order. dlia.
Qed.

Lemma bswap_word gnuc w : bytes_ok w -> length w = 8%nat -> le_val (reverse w) = rev8 gnuc (le_val w).
Proof.
  intros Hw Hl. assert (in_u 64 (le_val w)) as Hv by (pose proof (le_val_range w Hw) as H; rewrite Hl in H; exact H).
  refine (permuted_unique byte_order (le_val w) _ _ _ (rev8_spec gnuc _ Hv)). pose proof (bswap_spec (le_val w) Hv) as H.
  unfold builtin_bswap64 in H. rewrite <- Hl, le_bytes_val in H by done. exact H.
Qed.

(** ** The big-endian loops *)

Section Big.
Context (gnuc : bool) (buf : list Z) (Hb : bytes_ok buf).

Definition big_table : list (list Z) := map (map (rev8 gnuc)) the_table.

Lemma big_init_spec : crcspeed64big_init gnuc (_crc64 gnuc) = Some big_table.
Proof using. unfold crcspeed64big_init. by rewrite little_init_spec. Qed.

Lemma big_lookup k i : 0 <= k < 8 -> byte_ok i -> lookup_table big_table k i = Some (rev8 gnuc (zeros (8 * S (Z.to_nat k)) i)).
Proof using.
  intros Hk Hi. pose proof (the_table_lookup k i Hk Hi) as H. unfold lookup_table, big_table in *. rewrite list_lookup_fmap.
  destruct (the_table !! Z.to_nat k) as [row|]; [|discriminate]. cbn [fmap option_fmap option_map mbind option_bind] in *. rewrite list_lookup_fmap, H. done.
Qed.

Lemma big_byte_spec y next : in_u 64 y -> 0 <= next < zlen buf -> big_byte big_table buf (rev8 gnuc y) next = Some (rev8 gnuc (crc_of y (seg buf next 1))).
Proof using Hb.
  intros Hy Hn. pose proof (byte_step_table buf y next Hb Hn) as H. destruct (seg_one buf next Hb Hn) as (b & Hrd & Hbb & _). unfold byte_step in H. unfold big_byte.
  rewrite Hrd in *. mred. cbn [mbind option_bind] in H. rewrite rev8_top by done.
  assert (Z.land (Z.lxor y b) 0xff = Z.lxor (y mod 2 ^ 8) b) as E.
  { rewrite land_lxor, !(land_ones_mod _ 8) by done. f_equal. apply Z.mod_small. exact Hbb. }
  rewrite E in H. assert (byte_ok (Z.lxor (y mod 2 ^ 8) b)) as Hl by (apply (lxor_range 8); [lia|apply Z.mod_pos_bound; lia|exact Hbb]).
  rewrite the_table_lookup in H by (done || lia). rewrite big_lookup by (done || lia). mred. cbn [mbind option_bind] in H. apply (inj Some) in H. rewrite <- H. f_equal.
  rewrite rev8_shift by done. symmetry. apply rev8_lxor; [by apply zeros_range, byte_range64|]. rewrite Z.shiftr_div_pow2 by lia. unfold in_u in *. dlia.
Qed.

Lemma big_8_spec y next : in_u 64 y -> 0 <= next -> next + 8 <= zlen buf -> big_8 big_table buf (rev8 gnuc y) next = Some (rev8 gnuc (crc_of y (seg buf next 8))).
Proof using Hb.
  intros Hy Hn Hle. unfold big_8. rewrite (seg_read buf next 8) by lia. mred. pose proof (seg_bytes buf next 8 Hb) as Hsb.
  assert (length (seg buf next 8) = 8%nat) as Hl by (pose proof (seg_length buf next 8); lia).
  rewrite crc_of_word, Hl by done. change (8 * 8)%nat with 64%nat. set (w := seg buf next 8) in *.
  assert (in_u 64 (le_val w)) as Hv by (pose proof (le_val_range _ Hsb) as H; rewrite Hl in H; exact H).
  rewrite (bswap_word gnuc w Hsb Hl), <- rev8_lxor by done. set (x := Z.lxor y (le_val w)). assert (in_u 64 x) as Hx by (apply lxor_range; done || lia). clearbody x. clear Hy Hv.
  assert (byte_ok (x mod 2 ^ 8)) as Hb0 by (apply Z.mod_pos_bound; lia). assert (forall k, byte_ok (x / 2 ^ k mod 2 ^ 8)) as Hbk by (intros k; apply Z.mod_pos_bound; lia).
  rewrite rev8_top by done. rewrite <- (Z.shiftr_0_r (rev8 gnuc x)) at 1. pose proof (fun k Hk => rev8_byte gnuc x k Hx Hk) as Hbyte.
  pose proof (Hbyte 0 ltac:(lia)) as B0. pose proof (Hbyte 1 ltac:(lia)) as B1. pose proof (Hbyte 2 ltac:(lia)) as B2. pose proof (Hbyte 3 ltac:(lia)) as B3.
  pose proof (Hbyte 4 ltac:(lia)) as B4. pose proof (Hbyte 5 ltac:(lia)) as B5. pose proof (Hbyte 6 ltac:(lia)) as B6.
  change (8 * 0) with 0 in B0. change (8 * 1) with 8 in B1. change (8 * 2) with 16 in B2. change (8 * 3) with 24 in B3. change (8 * 4) with 32 in B4. change (8 * 5) with 40 in B5. change (8 * 6) with 48 in B6.
  rewrite B0, B1, B2, B3, B4, B5, B6. clear B0 B1 B2 B3 B4 B5 B6 Hbyte. rewrite !big_lookup by (lia || apply Hbk || exact Hb0). mred. f_equal.
  assert (x / 2 ^ (8 * (7 - 0)) mod 2 ^ 8 = x / 2 ^ 56) as -> by (change (8 * (7 - 0)) with 56; apply Z.mod_small; unfold in_u in Hx; dlia).
  assert (byte_ok (x / 2 ^ 56)) as H56 by (unfold in_u, byte_ok in *; dlia).
  assert (forall n b, byte_ok b -> in_u 64 (zeros n b)) as Hz by (intros n b Hbb; by apply zeros_range, byte_range64).
  rewrite (slices x Hx). rewrite !rev8_lxor 
    by (repeat match goal with |- in_u _ (Z.lxor _ _) => apply lxor_range; [lia| |] end; apply Hz; apply Hbk || exact Hb0 || exact H56).
  change (8 * (7 - 1)) with 48. change (8 * (7 - 2)) with 40. change (8 * (7 - 3)) with 32. change (8 * (7 - 4)) with 24. change (8 * (7 - 5)) with 16. change (8 * (7 - 6)) with 8.
  change (8 * S (Z.to_nat 0))%nat with 8%nat. change (8 * S (Z.to_nat 1))%nat with 16%nat. change (8 * S (Z.to_nat 2))%nat with 24%nat. change (8 * S (Z.to_nat 3))%nat with 32%nat.
  change (8 * S (Z.to_nat 4))%nat with 40%nat. change (8 * S (Z.to_nat 5))%nat with 48%nat. change (8 * S (Z.to_nat 6))%nat with 56%nat. change (8 * S (Z.to_nat 7))%nat with 64%nat.
  xbits.
Qed.

Lemma big_final_spec fuel : forall y next len, in_u 64 y -> 0 <= next -> 0 <= len <= Z.of_nat fuel -> next + len <= zlen buf ->
  big_final fuel big_table buf (rev8 gnuc y) next len = Some (rev8 gnuc (crc_of y (seg buf next len))).
Proof using Hb.
  induction fuel as [|fuel IH]; intros y next len Hy Hn Hl Hle; cbn [big_final]; destruct (Z.eqb_spec len 0) as [->|Hne]; try lia; cbn [negb]; try by rewrite seg_nil.
  rewrite big_byte_spec by (done || lia). mred. rewrite IH by (try apply crc_seg_range; done || lia). by rewrite crc_seg_step by lia.
Qed.

Lemma big_align_spec addr fuel : forall y next len, in_u 64 y -> 0 <= next -> 0 <= len <= Z.of_nat fuel -> next + len <= zlen buf ->
  exists k, 0 <= k <= len /\ big_align fuel big_table addr buf (rev8 gnuc y) next len = Some (rev8 gnuc (crc_of y (seg buf next k)), next + k, len - k).
Proof using Hb.
  induction fuel as [|fuel IH]; intros y next len Hy Hn Hl Hle; cbn [big_align]; (destruct (negb (len =? 0) && _) eqn:E; [|exists 0; split; [lia|by rewrite Z.add_0_r, Z.sub_0_r]]).
  { assert (len = 0) as -> by lia. discriminate. }
  rewrite big_byte_spec by (done || lia). mred. destruct (IH (crc_of y (seg buf next 1)) (next + 1) (len - 1)) as (k & Hk & ->); try lia; [by apply crc_seg_range|].
  exists (k + 1). split; [lia|]. rewrite <- (crc_seg_step buf y next 1 (k + 1)) by lia. replace (k + 1 - 1) with k by lia. do 2 f_equal; [f_equal|]; lia.
Qed.

Lemma big_loop_spec fuel : forall y next len, in_u 64 y -> 0 <= next -> 0 <= len <= Z.of_nat fuel -> next + len <= zlen buf ->
  exists k, 0 <= k <= len /\ big_loop fuel big_table buf (rev8 gnuc y) next len = Some (rev8 gnuc (crc_of y (seg buf next k)), next + k, len - k).
Proof using Hb.
  induction fuel as [|fuel IH]; intros y next len Hy Hn Hl Hle; cbn [big_loop]; rewrite Z.geb_leb; (destruct (Z.leb_spec 8 len); [|exists 0; split; [lia|by rewrite Z.add_0_r, Z.sub_0_r]]); [lia|].
  rewrite big_8_spec by (done || lia). mred. destruct (IH (crc_of y (seg buf next 8)) (next + 8) (len - 8)) as (k & Hk & ->); try lia; [by apply crc_seg_range|].
  exists (k + 8). split; [lia|]. rewrite <- (crc_seg_step buf y next 8 (k + 8)) by lia. replace (k + 8 - 8) with k by lia. do 2 f_equal; [f_equal|]; lia.
Qed.

Lemma big_spec addr crc : in_u 64 crc -> crcspeed64big gnuc big_table addr crc buf = Some (crc_of crc buf).
Proof using Hb.
  intros Hc. unfold crcspeed64big. destruct (big_align_spec addr (length buf) crc 0 (zlen buf)) as (a & Ha & ->); [done|lia..|]. mred.
  destruct (big_loop_spec (length buf) (crc_of crc (seg buf 0 a)) (0 + a) (zlen buf - a)) as (k & Hk & ->); [by apply crc_seg_range|lia..|]. mred.
  rewrite big_final_spec by (try (repeat apply crc_seg_range; done); lia). mred. rewrite !crc_seg_step by lia. rewrite seg_all, rev8_twice by (by apply crc_of_range). done.
Qed.
End Big.

(** ** The checksum of dumps *)

(** The variant of a machine: vector instructions, the builtin function, the
    byte order, the cutoffs and the address of the buffer. *)
Record machine := { m_vector : bool; m_gnuc : bool; m_little : bool; m_dual : Z; m_tri : Z; m_addr : Z }.

(** The table is computed, and then the checksum. *)
Definition checksum (m : machine) (c : list (list Z)) (crc : Z) (s : list Z) : option (list (list Z) * Z) :=
  t ← crc64_init (m_gnuc m) (m_little m);
  crc64 (m_vector m) (m_gnuc m) (m_little m) t c (m_dual m) (m_tri m) (m_addr m) crc s.

Lemma checksum_spec m c crc s : cache_ok c -> bytes_ok s -> zlen s < 2 ^ 64 -> in_u 64 crc -> exists c', checksum m c crc s = Some (c', crc_of crc s) /\ cache_ok c'.
Proof.
  intros Hc Hs Hl Hcrc. unfold checksum, crc64_init, crc64. destruct (m_little m).
  - rewrite little_init_spec. mred. by apply little_spec.
  - rewrite big_init_spec. mred. rewrite big_spec by done. mred. by exists c.
Qed.

Lemma bits_spec gnuc s : bytes_ok s -> _crc64 gnuc 0 s = Some (crc_of 0 s).
Proof. intros Hs. apply crc64_bits; [exact mirrored_zero|exact Hs]. Qed.

Lemma zero_range : in_u 64 0.
Proof. unfold in_u. lia. Qed.

(** C6: on every machine (byte order, vector instructions, builtin functions,
    cutoffs for parallel streams, alignment of the buffer) and with a cache
    that is new or initialised, the checksum is that of the bit by bit code. *)
Theorem crc64_correct m gnuc c s : cache_ok c -> bytes_ok s -> zlen s < 2 ^ 64 ->
  exists crc c', _crc64 gnuc 0 s = Some crc /\ checksum m c 0 s = Some (c', crc) /\ in_u 64 crc /\ cache_ok c'.
Proof.
  intros Hc Hs Hl. destruct (checksum_spec m c 0 s Hc Hs Hl zero_range) as (c' & -> & Hc'). exists (crc_of 0 s), c'. rewrite bits_spec by done.
  split_and!; [done|done|apply crc_of_range; [done|exact zero_range]|done].
Qed.

(** A checksum can be computed in pieces, each on another machine: the
    checksum of the first piece as the start of the second gives the checksum
    of the whole. *)
Theorem crc64_pieces m1 m2 gnuc c1 c2 a b : cache_ok c1 -> cache_ok c2 -> bytes_ok a -> bytes_ok b -> zlen a < 2 ^ 64 -> zlen b < 2 ^ 64 ->
  exists c1' c2' crc1 crc, checksum m1 c1 0 a = Some (c1', crc1) /\ checksum m2 c2 crc1 b = Some (c2', crc) /\ _crc64 gnuc 0 (a ++ b) = Some crc.
Proof.
  intros Hc1 Hc2 Ha Hb La Lb. destruct (checksum_spec m1 c1 0 a Hc1 Ha La zero_range) as (c1' & -> & _).
  destruct (checksum_spec m2 c2 (crc_of 0 a) b Hc2 Hb Lb ltac:(apply crc_of_range; [done|exact zero_range])) as (c2' & E & _).
  exists c1', c2', (crc_of 0 a), (crc_of (crc_of 0 a) b). split_and!; [done|exact E|]. rewrite bits_spec by (by apply Forall_app). by rewrite crc_of_app.
Qed.

(** From the checksums of two pieces and the length of the second, the
    matrices give the checksum of the whole, with or without vector
    instructions, and the cache of matrices stays right. *)
Theorem crc64_combine_correct vector gnuc c a b : cache_ok c -> bytes_ok a -> bytes_ok b -> zlen b < 2 ^ 64 ->
  exists crc1 crc2 crc c', _crc64 gnuc 0 a = Some crc1 /\ _crc64 gnuc 0 b = Some crc2 /\ _crc64 gnuc 0 (a ++ b) = Some crc /\
    crc64_combine vector c crc1 crc2 (zlen b) CRC64_REVERSED_POLY 64 = Some (c', crc) /\ cache_ok c'.
Proof.
  intros Hc Ha Hb Lb. destruct (combine_crc vector c (crc_of 0 a) b Hc ltac:(apply crc_of_range; [done|exact zero_range]) Hb Lb) as (c' & E & Hc').
  exists (crc_of 0 a), (crc_of 0 b), (crc_of (crc_of 0 a) b), c'. rewrite !bits_spec by (done || by apply Forall_app). rewrite crc_of_app. done.
Qed.

(** ** Witnesses *)

(** The cache before the first call. *)
Definition new_cache : list (list Z) := replicate 64 (replicate 64 0).

Lemma new_cache_ok : cache_ok new_cache.
Proof. split; [done|]. left. by exists (replicate 64 0). Qed.

(** The matrices come back to those of two and four zero bits. *)
Lemma cache_cycles : (init_combine_cache false new_cache CRC64_REVERSED_POLY 64 ≫= fun c => Some (c !! 62%nat, c !! 63%nat)) =
  Some (Some (matrix_of (zeros 2)), Some (matrix_of (zeros 4))).
Proof. vm_compute. reflexivity. Qed.

(** The check of the self test. *)
Lemma self_test : (checksum {| m_vector := false; m_gnuc := true; m_little := true; m_dual := 4; m_tri := 30; m_addr := 3 |} new_cache 0 (str "123456789") ≫= fun r => Some (snd r)) = Some 0xe9c6d914c4b8d9ca.
Proof. vm_compute. reflexivity. Qed.

Lemma crc64_correct_witness :
  let m := {| m_vector := false; m_gnuc := true; m_little := false; m_dual := 4; m_tri := 30; m_addr := 3 |} in
  exists crc c', _crc64 false 0 (str "123456789") = Some crc /\ checksum m new_cache 0 (str "123456789") = Some (c', crc) /\ in_u 64 crc /\ cache_ok c'.
Proof.
  cbn zeta. apply crc64_correct; [exact new_cache_ok| |reflexivity]. unfold byte_ok. apply (bool_decide_unpack _). vm_compute. exact I.
Defined.

Lemma crc64_pieces_witness :
  let m1 := {| m_vector := false; m_gnuc := true; m_little := false; m_dual := 4; m_tri := 30; m_addr := 3 |} in
  let m2 := {| m_vector := true; m_gnuc := false; m_little := true; m_dual := 4; m_tri := 30; m_addr := 6 |} in
  exists c1' c2' crc1 crc, checksum m1 new_cache 0 (str "1234") = Some (c1', crc1) /\ checksum m2 new_cache crc1 (str "56789") = Some (c2', crc) /\
    _crc64 true 0 (str "1234" ++ str "56789") = Some crc.
Proof.
  cbn zeta. apply crc64_pieces; try exact new_cache_ok; try reflexivity; unfold byte_ok; apply (bool_decide_unpack _); vm_compute; exact I.
Defined.

Lemma crc64_combine_correct_witness :
  exists crc1 crc2 crc c', _crc64 true 0 (str "1234") = Some crc1 /\ _crc64 true 0 (str "56789") = Some crc2 /\ _crc64 true 0 (str "1234" ++ str "56789") = Some crc /\
    crc64_combine false new_cache crc1 crc2 (zlen (str "56789")) CRC64_REVERSED_POLY 64 = Some (c', crc) /\ cache_ok c'.
Proof.
  apply crc64_combine_correct; [exact new_cache_ok| | |reflexivity]; unfold byte_ok; apply (bool_decide_unpack _); vm_compute; exact I.
Defined.
End Crc64Correct.
