(* ===== verification/Dump.v ===== *)
(** * Footers of dumps ([redis-stable/src/cluster.c], [functions.c], [endianconv.c])

    The payload of DUMP and of FUNCTION DUMP ends with the version of the
    format and a checksum, which RESTORE and FUNCTION RESTORE verify before
    they read the payload.  The body is a list of bytes; the buffer that grows
    is its content.  Machines of both byte orders exchange payloads. *)

From S2P Require Import Prelude Gf2 Crc64 Crc64Spec Crc64Streams Crc64Correct.

Module Dump.
Import Gf2 Crc64 Crc64Spec Crc64Streams Crc64Correct.

(** ** Byte order ([endianconv.c]) *)

Definition memrev64 (x : list Z) : option (list Z) :=
  match x with [x0; x1; x2; x3; x4; x5; x6; x7] => Some [x7; x6; x5; x4; x3; x2; x1; x0] | _ => None end.

(** The bytes of a [uint64_t] in memory, and its value. *)
Definition to_memory (little : bool) (v : Z) : list Z := if little then le_bytes 8 v else reverse (le_bytes 8 v).
Definition from_memory (little : bool) (x : list Z) : Z := if little then le_val x else le_val (reverse x).

Definition memrev64ifbe (little : bool) (x : list Z) : option (list Z) := if little then Some x else memrev64 x.

(** ** The footer *)

Definition RDB_VERSION : Z := 13.

Abbreviation cache := (list (list Z)).

(** What [createDumpPayload] appends to the serialized object. *)
Definition dump_footer (m : machine) (c : cache) (skip_checksum : bool) (payload : list Z) : option (cache * list Z) :=
  let buf := [Z.land RDB_VERSION 0xff; Z.land (Z.shiftr RDB_VERSION 8) 0xff] in
  let payload := payload ++ buf in
  '(c, crc) ← (if skip_checksum then Some (c, to_memory (m_little m) 0)
    else
      '(c, crc) ← checksum m c 0 payload;
      crc ← memrev64ifbe (m_little m) (to_memory (m_little m) crc);
      Some (c, crc));
  Some (c, payload ++ crc).

(** What [createFunctionDumpPayload] appends to the serialized libraries. *)
Definition function_dump_footer (m : machine) (c : cache) (payload : list Z) : option (cache * list Z) :=
  let buf := [Z.land RDB_VERSION 0xff; Z.land (Z.shiftr RDB_VERSION 8) 0xff] in
  let payload := payload ++ buf in
  '(c, crc) ← checksum m c 0 payload;
  crc ← memrev64ifbe (m_little m) (to_memory (m_little m) crc);
  Some (c, payload ++ crc).

(** The version that was read and whether the payload is accepted. *)
Definition verifyDumpPayload (m : machine) (c : cache) (skip_checksum_validation : bool) (p : list Z) : option (cache * option Z * bool) :=
  let len := zlen p in
  if len <? 10 then Some (c, None, false)
  else
    let footer := len - 10 in
    f1 ← rd p (footer + 1);
    f0 ← rd p footer;
    let rdbver := uwrap 16 (Z.lor (Z.shiftl f1 8) f0) in
    if rdbver >? RDB_VERSION then Some (c, Some rdbver, false)
    else if skip_checksum_validation then Some (c, Some rdbver, true)
    else
      stored ← rdn p (footer + 2) 8;
      let crc_payload := from_memory (m_little m) stored in
      if crc_payload =? 0 then Some (c, Some rdbver, true)
      else
        '(c, crc) ← checksum m c 0 (take (Z.to_nat (len - 8)) p);
        crc ← memrev64ifbe (m_little m) (to_memory (m_little m) crc);
        Some (c, Some rdbver, from_memory (m_little m) crc =? crc_payload).

(** ** Byte order does not matter *)

Lemma memrev64_spec x : length x = 8%nat -> memrev64 x = Some (reverse x).
Proof. destruct x as [|? [|? [|? [|? [|? [|? [|? [|? [|]]]]]]]]]; done. Qed.

Lemma stored_bytes little v : memrev64ifbe little (to_memory little v) = Some (le_bytes 8 v).
Proof.
  destruct little; [done|]. unfold memrev64ifbe, to_memory. rewrite memrev64_spec by (by rewrite length_reverse, le_bytes_length). by rewrite reverse_involutive.
Qed.

Lemma from_memory_zero little x : bytes_ok x -> length x = 8%nat -> (from_memory little x =? 0) = bool_decide (x = le_bytes 8 0).
Proof.
  intros Hx Hl. assert (forall y, bytes_ok y -> length y = 8%nat -> (le_val y = 0 <-> y = le_bytes 8 0)) as H.
  { intros y Hy Hyl. split; [intros E; by rewrite <- E, <- Hyl, le_bytes_val|by intros ->]. }
  apply eq_true_iff_eq. rewrite Z.eqb_eq, bool_decide_eq_true. destruct little; cbn [from_memory]; [by apply H|].
  rewrite H by (try apply Forall_reverse; rewrite ?length_reverse; done). split; [intros E; by rewrite <- (reverse_involutive x), E|by intros ->].
Qed.

Lemma from_memory_inj little x y : bytes_ok x -> bytes_ok y -> length x = 8%nat -> length y = 8%nat -> (from_memory little x =? from_memory little y) = bool_decide (x = y).
Proof.
  assert (forall x y, bytes_ok x -> bytes_ok y -> length x = length y -> le_val x = le_val y -> x = y) as H.
  { intros a b Ha Hb Hl E. rewrite <- (le_bytes_val a Ha), <- (le_bytes_val b Hb). by rewrite Hl, E. }
  intros Hx Hy Hlx Hly. apply eq_true_iff_eq. rewrite Z.eqb_eq, bool_decide_eq_true. split; [|by intros ->]. destruct little; cbn [from_memory]; intros E.
  - apply H; [done|done|congruence|done].
  - apply (inj reverse), H; [by apply Forall_reverse|by apply Forall_reverse|by rewrite !length_reverse; congruence|done].
Qed.

(** ** Errors in a burst are seen *)

(** The polynomial has its highest bit, so a step can be undone. *)
Lemma zbit_inj x y : in_u 64 x -> in_u 64 y -> zbit x = zbit y -> x = y.
Proof.
  intros Hx Hy E. assert (zbit (Z.lxor x y) = 0) as Hz by (rewrite additive, E; apply Z.lxor_nilpotent).
  apply Z.lxor_eq. set (z := Z.lxor x y) in *. assert (in_u 64 z) as Hr by (apply lxor_range; done || lia). clearbody z. clear E.
  assert (Z.testbit (zbit z) 63 = Z.odd z) as H63.
  { unfold zbit. rewrite Z.lxor_spec, Z.shiftr_spec by lia. rewrite (bit_above z (63 + 1)) by (done || lia). by destruct (Z.odd z). }
  rewrite Hz, Z.bits_0 in H63. unfold zbit in Hz. rewrite <- H63, Z.lxor_0_r in Hz. pose proof (Z.div2_odd z) as Hd. rewrite Z.div2_spec, Hz, <- H63 in Hd. exact Hd.
Qed.

Lemma zeros_inj n x y : in_u 64 x -> in_u 64 y -> zeros n x = zeros n y -> x = y.
Proof.
  intros Hx Hy. induction n as [|n IH]; [done|]. unfold zeros. rewrite !Nat.iter_succ. intros E. apply IH, zbit_inj; [by apply zeros_range|by apply zeros_range|exact E].
Qed.

Lemma crc_of_inj b x y : bytes_ok b -> in_u 64 x -> in_u 64 y -> crc_of x b = crc_of y b -> x = y.
Proof.
  intros Hb. revert x y. induction Hb as [|c b Hc _ IH]; intros x y Hx Hy E; [done|]. cbn [crc_of foldl] in E.
  assert (forall z, in_u 64 z -> in_u 64 (Z.lxor z c)) as Hr by (intros z Hz; apply lxor_range; [lia|done|by apply byte_range64]).
  apply IH in E; [|by apply zeros_range, Hr..]. apply zeros_inj in E; [|by apply Hr..].
  apply (f_equal (fun z => Z.lxor z c)) in E. by rewrite !Z.lxor_assoc, Z.lxor_nilpotent, !Z.lxor_0_r in E.
Qed.

(** At most 8 bytes that differ, one after the other. *)
Lemma burst a w w' b : bytes_ok a -> bytes_ok w -> bytes_ok w' -> bytes_ok b -> length w = length w' -> (length w <= 8)%nat ->
  crc_of 0 (a ++ w ++ b) = crc_of 0 (a ++ w' ++ b) -> w = w'.
Proof.
  intros Ha Hw Hw' Hb Hl Hl8 E. rewrite !crc_of_app in E. pose proof (crc_of_range a Ha 0 zero_range) as Hr. set (s := crc_of 0 a) in *. clearbody s.
  apply crc_of_inj in E; [|done|by apply crc_of_range..]. rewrite !crc_of_word, <- Hl in E by done.
  assert (forall v, bytes_ok v -> (length v <= 8)%nat -> in_u 64 (le_val v)) as Hv.
  { intros v Hbv Hlv. pose proof (le_val_range v Hbv) as H. unfold in_u. pose proof (Z.pow_le_mono_r 2 (8 * zlen v) 64). lia. }
  apply zeros_inj in E; [|apply lxor_range; [lia|done|apply Hv; done || lia]..].
  apply (f_equal (Z.lxor s)) in E. rewrite <- !Z.lxor_assoc, Z.lxor_nilpotent, !Z.lxor_0_l in E.
  by rewrite <- (le_bytes_val w Hw), <- (le_bytes_val w' Hw'), <- Hl, E.
Qed.

(** ** What is accepted *)

Definition version (p : list Z) : option Z :=
  if zlen p <? 10 then None else Some (le_val (seg p (zlen p - 10) 2)).

(** The reference: a footer with a known version, and no checksum or that of
    the bytes before it. *)
Definition accepted (skip : bool) (p : list Z) : Prop :=
  exists v, version p = Some v /\ v <= RDB_VERSION /\
    (skip = true \/ seg p (zlen p - 8) 8 = le_bytes 8 0 \/
     exists crc, _crc64 true 0 (take (Z.to_nat (zlen p - 8)) p) = Some crc /\ seg p (zlen p - 8) 8 = le_bytes 8 crc).

Lemma two_bytes f0 f1 : byte_ok f0 -> byte_ok f1 -> uwrap 16 (Z.lor (Z.shiftl f1 8) f0) = le_val [f0; f1].
Proof.
  intros H0 H1. unfold byte_ok in *. rewrite Z.lor_comm, lor_shiftl_add by (change (2 ^ 8) with 256; lia). cbn [le_val]. unfold uwrap.
  rewrite Z.mod_small; change (2 ^ 8) with 256; change (2 ^ 16) with 65536; lia.
Qed.

Lemma version_read p : bytes_ok p -> 10 <= zlen p -> exists f0 f1, rd p (zlen p - 10) = Some f0 /\ rd p (zlen p - 10 + 1) = Some f1 /\
  version p = Some (uwrap 16 (Z.lor (Z.shiftl f1 8) f0)).
Proof.
  intros Hp Hl. destruct (seg_one p (zlen p - 10) Hp ltac:(lia)) as (f0 & E0 & Hf0 & S0). destruct (seg_one p (zlen p - 10 + 1) Hp ltac:(lia)) as (f1 & E1 & Hf1 & S1).
  exists f0, f1. split_and!; [done|done|]. unfold version. rewrite (proj2 (Z.ltb_ge _ _)) by lia. rewrite two_bytes by done. do 2 f_equal.
  change 2 with (1 + 1). rewrite seg_split, S0, S1 by lia. done.
Qed.

Lemma verify_spec m c skip p : cache_ok c -> bytes_ok p -> zlen p < 2 ^ 64 ->
  exists c' ok, verifyDumpPayload m c skip p = Some (c', version p, ok) /\ cache_ok c' /\ (ok = true <-> accepted skip p).
Proof.
  intros Hc Hp Hl. unfold verifyDumpPayload. destruct (Z.ltb_spec (zlen p) 10) as [Hlt|Hge].
  { exists c, false. assert (version p = None) as E by (unfold version; by rewrite (proj2 (Z.ltb_lt _ _))). rewrite E. split_and!; [done|done|].
    split; [discriminate|]. intros (v & Hv & _). congruence. }
  destruct (version_read p Hp Hge) as (f0 & f1 & -> & -> & Hv). mred. set (v := uwrap 16 _) in *. rewrite <- Hv.
  rewrite Z.gtb_ltb. destruct (Z.ltb_spec RDB_VERSION v) as [Hnew|Hold].
  { exists c, false. split_and!; [done|done|]. split; [discriminate|]. intros (v' & Hv' & Hle & _). assert (v' = v) as -> by congruence. lia. }
  destruct skip.
  { exists c, true. split_and!; [done|done|]. split; [|done]. intros _. exists v. auto. }
  replace (zlen p - 10 + 2) with (zlen p - 8) by lia. rewrite (seg_read p (zlen p - 8) 8) by lia. mred. pose proof (seg_bytes p (zlen p - 8) 8 Hp) as Hsb.
  assert (length (seg p (zlen p - 8) 8) = 8%nat) as Hsl by (pose proof (seg_length p (zlen p - 8) 8); lia). set (stored := seg p (zlen p - 8) 8) in *.
  rewrite from_memory_zero by done. case_bool_decide as Hz.
  { exists c, true. split_and!; [done|done|]. split; [|done]. intros _. exists v. fold stored. auto. }
  set (body := take (Z.to_nat (zlen p - 8)) p). assert (bytes_ok body) as Hbb by (by apply Forall_take).
  destruct (checksum_spec m c 0 body Hc Hbb) as (c' & -> & Hc'); [unfold body; rewrite length_take; lia|exact zero_range|]. mred. rewrite stored_bytes. mred.
  rewrite from_memory_inj by (apply le_bytes_ok || apply le_bytes_length || done). exists c', (bool_decide (le_bytes 8 (crc_of 0 body) = stored)). split_and!; [done|done|].
  rewrite bool_decide_eq_true. unfold accepted. fold stored body. rewrite bits_spec by done. split.
  - intros E. exists v. split_and!; [done|done|]. right. right. by exists (crc_of 0 body).
  - intros (_ & _ & _ & [?|[?|(crc & [= <-] & E)]]); done.
Qed.

(** ** Payloads *)

Lemma footer_spec m c skip body : cache_ok c -> bytes_ok body -> zlen body + 2 < 2 ^ 64 ->
  exists c', dump_footer m c skip body = Some (c', (body ++ [13; 0]) ++ le_bytes 8 (if skip then 0 else crc_of 0 (body ++ [13; 0]))) /\ cache_ok c'.
Proof.
  intros Hc Hb Hl. unfold dump_footer. change [Z.land RDB_VERSION 0xff; Z.land (Z.shiftr RDB_VERSION 8) 0xff] with [13; 0]. destruct skip.
  - exists c. by destruct (m_little m).
  - assert (bytes_ok (body ++ [13; 0])) as Hb' by (apply Forall_app_2; [done|]; repeat constructor; unfold byte_ok; lia).
    destruct (checksum_spec m c 0 (body ++ [13; 0]) Hc Hb') as (c' & -> & Hc'); [rewrite length_app; cbn [length]; lia|exact zero_range|]. mred. rewrite stored_bytes. mred. by exists c'.
Qed.

Lemma function_footer m c body : function_dump_footer m c body = dump_footer m c false body.
Proof.
  unfold function_dump_footer, dump_footer. set (s := body ++ _). destruct (checksum m c 0 s) as [[c' crc]|]; [|done]. mred. by destruct (memrev64ifbe _ _).
Qed.

(** The parts of a payload with a footer. *)
Lemma payload_parts body (crc : Z) : let p := (body ++ [13; 0]) ++ le_bytes 8 crc in
  zlen p = zlen body + 10 /\ version p = Some 13 /\ seg p (zlen p - 8) 8 = le_bytes 8 crc /\ take (Z.to_nat (zlen p - 8)) p = body ++ [13; 0].
Proof.
  intros p. assert (zlen p = zlen body + 10) as Hl by (unfold p; rewrite !length_app, le_bytes_length; cbn [length]; lia).
  assert (length (body ++ [13; 0]) = Z.to_nat (zlen p - 8)) as Hl2 by (rewrite length_app; cbn [length]; lia). split_and!; [done| | |].
  - unfold version. rewrite (proj2 (Z.ltb_ge _ _)) by lia. unfold seg. replace (Z.to_nat (zlen p - 10)) with (length body) by lia.
    unfold p. rewrite <- app_assoc, drop_app_length. done.
  - unfold seg. rewrite <- Hl2. unfold p. rewrite drop_app_length. apply take_ge. by rewrite le_bytes_length.
  - rewrite <- Hl2. unfold p. apply take_app_length.
Qed.

(** C8: a dump payload, of any serialized body, with or without checksum, is
    accepted on a machine of any byte order and variant, and its version is
    read back; the payload of functions has the same footer. *)
Theorem dump_roundtrip m m' c c' skip skip' body : cache_ok c -> cache_ok c' -> bytes_ok body -> zlen body + 10 < 2 ^ 64 ->
  exists c1 p c2, dump_footer m c skip body = Some (c1, p) /\ cache_ok c1 /\
    verifyDumpPayload m' c' skip' p = Some (c2, Some RDB_VERSION, true) /\ cache_ok c2 /\ take (length body) p = body /\
    function_dump_footer m c body = dump_footer m c false body.
Proof.
  intros Hc Hc' Hb Hl. destruct (footer_spec m c skip body Hc Hb ltac:(lia)) as (c1 & -> & Hc1). set (crc := if skip then 0 else crc_of 0 (body ++ [13; 0])).
  destruct (payload_parts body crc) as (Hpl & Hpv & Hps & Hpt). set (p := (body ++ [13; 0]) ++ le_bytes 8 crc) in *.
  assert (bytes_ok (body ++ [13; 0])) as Hb' by (apply Forall_app_2; [done|]; repeat constructor; unfold byte_ok; lia).
  assert (bytes_ok p) as Hp by (apply Forall_app_2; [done|apply le_bytes_ok]).
  destruct (verify_spec m' c' skip' p Hc' Hp ltac:(lia)) as (c2 & ok & E & Hc2 & Hok). exists c1, p, c2. rewrite E, Hpv. assert (ok = true) as ->.
  { apply Hok. exists 13. split_and!; [done|done|]. right. rewrite Hps, Hpt. unfold crc. destruct skip; [by left|]. right. rewrite bits_spec by done. by eexists. }
  split_and!; [done|done|done|done| |by apply function_footer]. unfold p. rewrite <- !app_assoc. apply take_app_length.
Qed.

(** What is accepted is exactly a payload with a footer of a known version
    whose checksum is absent or right, on every machine; verification always
    ends, and the version is the one in the footer. *)
Theorem verifyDumpPayload_correct m c skip p : cache_ok c -> bytes_ok p -> zlen p < 2 ^ 64 ->
  exists c' ok, verifyDumpPayload m c skip p = Some (c', version p, ok) /\ cache_ok c' /\ (ok = true <-> accepted skip p).
Proof. apply verify_spec. Qed.

(** C7: an error in up to 8 consecutive bytes of the body or the version of a
    payload with a checksum other than 0 is detected: the payload is
    refused.  This is with skip_checksum_validation off, as it is unless DEBUG
    turns it on. *)
Theorem dump_corruption_detected m m' c c' body a w w' b : cache_ok c -> cache_ok c' -> bytes_ok body -> bytes_ok w' -> zlen body + 10 < 2 ^ 64 ->
  body ++ [13; 0] = a ++ w ++ b -> length w' = length w -> (length w <= 8)%nat -> w' <> w -> _crc64 true 0 (body ++ [13; 0]) <> Some 0 ->
  exists c1 p c2 v, dump_footer m c false body = Some (c1, p) /\
    verifyDumpPayload m' c' false (a ++ w' ++ b ++ drop (length (a ++ w ++ b)) p) = Some (c2, v, false).
Proof.
  intros Hc Hc' Hb Hw' Hl Hbody Hlw Hl8 Hne Hcrc. assert (bytes_ok (body ++ [13; 0])) as Hb' by (apply Forall_app_2; [done|]; repeat constructor; unfold byte_ok; lia).
  rewrite bits_spec in Hcrc by done. destruct (footer_spec m c false body Hc Hb ltac:(lia)) as (c1 & -> & _). cbn iota. set (crc := crc_of 0 (body ++ [13; 0])) in *.
  assert (in_u 64 crc) as Hcr by (by apply crc_of_range, zero_range).
  rewrite Hbody in Hb'. apply Forall_app in Hb' as [Ha Hwb]. apply Forall_app in Hwb as [Hw Hbb].
  assert (length (a ++ w' ++ b) = length body + 2)%nat as Hlen by (apply (f_equal length) in Hbody; rewrite !length_app in *; cbn [length] in Hbody; lia).
  set (p := a ++ w' ++ b ++ le_bytes 8 crc). assert (p = (a ++ w' ++ b) ++ le_bytes 8 crc) as Ep by (unfold p; by rewrite <- !app_assoc).
  assert (zlen p = zlen body + 10) as Hpl by (rewrite Ep, length_app, Hlen, le_bytes_length; lia).
  assert (bytes_ok p) as Hp by (rewrite Ep; repeat apply Forall_app_2; done || apply le_bytes_ok).
  destruct (verify_spec m' c' false p Hc' Hp ltac:(lia)) as (c2 & ok & E & _ & Hok). exists c1, ((body ++ [13; 0]) ++ le_bytes 8 crc), c2, (version p). split; [done|].
  rewrite <- Hbody, drop_app_length. fold p. rewrite E. clear E. destruct ok; [exfalso|done]. destruct (proj1 Hok eq_refl) as (_ & _ & _ & Hacc).
  assert (Z.to_nat (zlen p - 8) = length (a ++ w' ++ b)) as Hn by lia. assert (seg p (zlen p - 8) 8 = le_bytes 8 crc) as Hs.
  { unfold seg. rewrite Hn, Ep, drop_app_length. apply take_ge. by rewrite le_bytes_length. }
  assert (forall v, in_u 64 v -> le_bytes 8 crc = le_bytes 8 v -> crc = v) as Hinj.
  { intros v Hv E. apply (f_equal le_val) in E. rewrite !le_val_bytes in E. change (8 * Z.of_nat 8) with 64 in E. by rewrite !Z.mod_small in E. }
  rewrite Hs, Hn, Ep, take_app_length in Hacc. destruct Hacc as [?|[Hz|(crc' & Ecrc & Ese)]]; [done| |].
  - apply Hcrc. f_equal. apply Hinj; [exact zero_range|exact Hz].
  - assert (bytes_ok (a ++ w' ++ b)) as Hb2 by (repeat apply Forall_app_2; done). rewrite bits_spec in Ecrc by done. injection Ecrc as <-.
    apply Hinj in Ese; [|by apply crc_of_range, zero_range]. unfold crc in Ese. rewrite Hbody in Ese. apply Hne. symmetry. by apply (burst a w w' b).
Qed.

(** ** Witnesses *)

Definition little_machine : machine := {| m_vector := false; m_gnuc := true; m_little := true; m_dual := 1024; m_tri := 16384; m_addr := 3 |}.
Definition big_machine : machine := {| m_vector := false; m_gnuc := false; m_little := false; m_dual := 1024; m_tri := 16384; m_addr := 0 |}.

(** The string "hello" as it is dumped: its type, its length, its bytes. *)
Definition hello : list Z := 0 :: 5 :: str "hello".

Lemma dump_roundtrip_witness : exists c1 p c2, dump_footer little_machine new_cache false hello = Some (c1, p) /\ cache_ok c1 /\
    verifyDumpPayload big_machine new_cache false p = Some (c2, Some RDB_VERSION, true) /\ cache_ok c2 /\ take (length hello) p = hello /\
    function_dump_footer little_machine new_cache hello = dump_footer little_machine new_cache false hello.
Proof.
  apply dump_roundtrip; [exact new_cache_ok|exact new_cache_ok| |reflexivity]. unfold byte_ok. apply (bool_decide_unpack _). vm_compute. exact I.
Defined.

Lemma verifyDumpPayload_correct_witness : exists c' ok, verifyDumpPayload big_machine new_cache false hello = Some (c', version hello, ok) /\ cache_ok c' /\
  (ok = true <-> accepted false hello).
Proof.
  apply verifyDumpPayload_correct; [exact new_cache_ok| |reflexivity]. unfold byte_ok. apply (bool_decide_unpack _). vm_compute. exact I.
Defined.

Lemma dump_corruption_detected_witness : exists c1 p c2 v, dump_footer little_machine new_cache false hello = Some (c1, p) /\
    verifyDumpPayload big_machine new_cache false ([0; 5] ++ str "help!" ++ [13; 0] ++ drop (length ([0; 5] ++ str "hello" ++ [13; 0])) p) = Some (c2, v, false).
Proof.
  apply dump_corruption_detected; try exact new_cache_ok; try reflexivity; try (vm_compute; congruence); try (unfold byte_ok; apply (bool_decide_unpack _); vm_compute; exact I).
Defined.
End Dump.
